(* ===== verification/_CoqProject ===== *)
-Q . S2P
Prelude.v
Text.v
StdText.v
Json.v
Channel.v
GitPerms.v
Filter.v
Subscription.v
EventQueue.v
Gossip.v
Membership.v
Wire.v
SessionDirectory.v
LeaseTable.v
AudioRoom.v
AudioRoomSpec.v
HuddleDirectory.v
HuddleOwners.v
HuddleOwnersSpec.v
HuddleJoin.v
HuddleControl.v
HuddleControlSpec.v
GitManifest.v
GitWire.v
GitStore.v
GitPublish.v
GitServe.v
GitPolicy.v
PackCache.v
ObjectStore.v
GitHost.v
GitPush.v
GitHostSpec.v
Network.v
Nip10.v
Interaction.v
Workflow.v
WorkflowTemplate.v
WorkflowCondition.v
WorkflowDb.v
WorkflowIo.v
WorkflowExec.v
WorkflowEngine.v
WorkflowCommands.v
WorkflowExamples.v
WorkflowSchedule.v
WorkflowExecSpec.v
WorkflowEffects.v
WorkflowAuthority.v
Auth.v
NipOa.v
Protocol.v
Access.v
FrontDoor.v
AccessSpec.v
AccessRedis.v
ConnectionSpec.v
AccessExamples.v
KubeConfig.v
KubeConfigSpec.v
KubeObjects.v
KubeDeploy.v
KubeDeploySpec.v
KubeTurns.v
KubeCluster.v
KubeExamples.v
Pairing.v
AuditLog.v
Conformance.v
