(* ===== verification/Prelude.v ===== *)
(** * A verification library for Buzz

    Buzz is a Nostr relay with channels, git hosting, huddles (audio rooms), workflows and
    agents. This library models the parts of its Rust code that decide something: who may
    push, which event reaches which connection, in which order an agent sees its events, which
    pod owns a huddle, what a push publishes, when a workflow runs, whom the relay lets in, what a
    deploy may delete, and whether a log or a trace can be trusted. Every definition is an executable function, a program over calls to
    its environment, or a step relation over such functions; it follows the code's own order
    of tests, early returns and updates. Paths below are relative to [src/crates/].

    ** The parts and how they interact

    Shared: [Prelude] (this file: Rust's [Result] with its [?], machine integers, stable
    sorting, list and map lemmas, the hint database and the tactics), [Text] and [StdText]
    (numbers as text, the operations of [str] that the code uses, uuid and hex texts as the
    classes [IdText] and [UuidText]), [Json], and [Interaction] (programs over calls,
    histories, weakest preconditions, systems of programs over a shared state).

    - Access. [Channel] (buzz-core/src/channel.rs): visibility, type and role. [GitPerms]
      (buzz-core/src/git_perms.rs): ref patterns, protection tags, [evaluate_push]. [Filter]
      (buzz-core/src/filter.rs, event.rs): NIP-01 matching and the result-level read gate.
      [Network] (buzz-core/src/network.rs): which addresses are private. [Nip10]
      (buzz-core/src/nip10.rs): thread markers.
    - Delivery. [Subscription] (buzz-relay/src/subscription.rs): the registry with its five
      indexes; fan-out calls [Filter.filters_match] on the candidates that they offer.
      [EventQueue] (buzz-acp/src/queue.rs): the agent harness's queue; the step relation
      [queue_step] ranges over its operations.
    - Mesh. [Gossip] and [Membership] (buzz-relay-mesh/src/gossip.rs, membership.rs,
      registry.rs, status.rs, and the pure parts of runtime.rs): records, digests, deltas, the
      failure detector, and the table of peers fed by attested seeds and by gossip. [Wire]
      (wire.rs): the frames that cross the mesh.
    - Huddles. [SessionDirectory] (buzz-relay/src/tunnel/directory.rs): ownership leases in
      Redis, the Lua scripts as functions on the store; [LeaseTable] is its specification.
      [HuddleDirectory] (audio/join.rs) is the trait between the directory and its clients,
      with both as instances. [AudioRoom] (audio/room.rs, mesh.rs, wire.rs): the room of a
      huddle and its fan-out, with [AudioRoomSpec]. [HuddleOwners] and [HuddleOwnersSpec]
      (audio/join.rs): the registry of owner leases, renewers and drain. [HuddleJoin]: the
      decision who owns a huddle. [HuddleControl] and [HuddleControlSpec]: the stream between
      the owning pod and a pod that hosts a client.
    - Git hosting (buzz-relay/src/api/git/). [GitManifest] (manifest.rs, manifest_event.rs),
      [GitWire] (the framing in transport.rs), [GitStore] (store.rs, a program per method),
      [GitPublish] (cas_publish.rs), [GitServe] (hydrate.rs, transport.rs, binding.rs),
      [GitPolicy] (policy.rs, which asks [GitPerms.evaluate_push]), [PackCache]
      (pack_cache.rs). [ObjectStore] is the bucket with any number of programs on it,
      [GitHost] the discipline they follow, [GitPush] the proof that the handlers follow it,
      [GitHostSpec] what it guarantees.
    - Workflows. [Workflow] (buzz-workflow/src/schema.rs, error.rs), [WorkflowTemplate] and
      [WorkflowCondition] (executor.rs), [WorkflowDb] (buzz-db/src/workflow.rs as functions on
      tables), [WorkflowIo] (the calls, and the answers of the tables), [WorkflowExec]
      (executor.rs), [WorkflowEngine] (lib.rs: events, scheduler, end of a run),
      [WorkflowCommands] (the handlers of buzz-relay/src/handlers/command_executor.rs and
      side_effects.rs, the webhook door of api/bridge.rs, webhook_secret.rs). The theorems are
      in [WorkflowSchedule], [WorkflowExecSpec], [WorkflowEffects] and [WorkflowAuthority];
      [WorkflowExamples] has the concrete environments of their witnesses.
    - The front door. [Auth] (buzz-auth, buzz-core/src/tenant.rs, verification.rs): hosts,
      scopes, NIP-42 and NIP-98 verification, the keys of the shared state. [NipOa]
      (buzz-sdk/src/nip_oa.rs): owner attestations. [Protocol] (buzz-relay/src/protocol.rs): the
      frames. [Access]: the gates, each a program over the calls [Access.Ev] (buzz-pubsub,
      buzz-relay/src/tenant.rs, admission.rs, api/mod.rs, part of api/bridge.rs,
      handlers/moderation_authz.rs). [FrontDoor]: the doors that compose them (api/bridge.rs,
      invites.rs, operator.rs, workflows.rs, handlers/auth.rs, connection.rs). The theorems are in
      [NipOa], [AccessSpec], [AccessRedis] (many requests over one Redis) and [ConnectionSpec];
      [AccessExamples] has a concrete Redis and their witnesses.
    - Deployment (buzz-backend-kubernetes/src/). [KubeConfig] (naming.rs, image.rs, config.rs,
      env.rs, intent.rs, the request of wire.rs): what a deploy asks for. [KubeObjects] (pod.rs,
      observe.rs, classify.rs, gc.rs): pods and Secrets, their construction, decoding and
      verification, the deploy table, the plan of a collection. [KubeDeploy] (reconcile.rs,
      main.rs): the loop, a program over the [Substrate] trait. [KubeCluster] (cluster.rs): the
      substrate of an apiserver, and the class [ApiServer] of what it promises. The theorems are in
      [KubeConfigSpec], [KubeDeploySpec], [KubeTurns] and [KubeCluster]; [KubeExamples] has a small
      apiserver and their witnesses.
    - [Pairing] (buzz-core/src/pairing/): the NIP-AB session of both roles. [AuditLog]
      (buzz-audit): canonical JSON, the hash chain, append and verification. [Conformance]
      (buzz-conformance): the replay checker for tenant-isolation traces.

    ** What the theorems show

    - Access decisions. [GitPerms]: a parsed pattern never panics and decides the glob
      relation [glob]; [evaluate_push] is equivalent to a declarative policy. [Filter]:
      matching is NIP-01's disjunction of conjunctions, and private kinds are readable only by
      a viewer whom a [p] tag names. [Network]: the guard holds exactly of a table of blocks.
    - Delivery. [Subscription]: the registry with its indexes refines an abstract map; in
      every reachable state the indexed fan-out is the linear scan. The agent queue: an
      invariant of all reachable queues, exact specifications of flush, requeue and expiry,
      backoff bounds, the steer round trip.
    - Convergence of the mesh. One exchange computes the pointwise join; membership refines
      gossip except that nobody can overwrite the local record.
    - Huddles. The Redis directory refines the table of leases, from which fencing and
      takeover follow, and only the holder of the live lease passes the fence; a drain leaves
      only renewers whose entry an overlapping attach replaced; a join names the live owner;
      rooms keep their invariant; the roster that a remote pod knows stays in step with the
      room.
    - Git hosting. Under every interleaving of pushes and reads, with lost answers and late
      writes, pushes of a repository serialize, every published version is complete, a read
      is a snapshot, a refused push wrote nothing. The policy endpoint is exact.
    - Workflows. Runs are created only under the owner's authority at that moment; scheduled
      instants fire at most once over any number of engines; side effects happen under the
      verified write lease; webhooks reach public addresses only; an approval is decided once;
      the result of a run and its resumption are exact; definitions, durations, templates and
      conditions have exact specifications.
    - The front door. A bridge request is acted on only when its host named the tenant, its
      key was authenticated by an unused token for the tenant's own URL (or, where tokens are
      not required, by the developer header alone), it was charged within its quota, and its
      key is a member or vouched for where membership is required; a connection is authenticated at
      most once, by a key that passed every gate, and is charged from then on; one token is
      not acted on twice unless it is stamped almost a minute ahead; in any minute a principal
      gets at most twice its quota; the code accepts an attestation
      exactly when it is well formed and signed, without evaluating its conditions; what
      opens the operator, invite, workflow-run and moderation doors is stated one by one.
    - Deployment. However many deploys, users and kubelets write to a cluster, a deploy deletes
      only the very object it read, which was not running; every call of a deploy rests on what
      was read, and success names a pod just read running; a deploy ends; the environment of a
      pod and the plan of a collection are exact; accepted images are digest-pinned.
    - Pairing, logs and traces. The order of the protocol for any sequence of calls; the
      honest exchange completes with the same short authentication string; any history of
      appends whose details are plain JSON verifies, and equal head hashes bind the whole history up to a SHA-256
      collision; [check_trace] is equivalent to a declarative specification.
    - Theorems about what the code does not keep are among them: a digit can move between the
      object id and the detail of an audit entry without changing its hash, a float in a detail
      can break its own chain, two attaches of one session can leave a lease that no drain
      finds, a control stream
      can leave a registered peer behind, an unlinkable pack comes back into the cache, a
      drifting scheduler skips a minute, a restarted one fires an interval early, a body
      field [is_reply] breaks the conditions of a run, a token stamped a minute ahead can be
      used twice, a payload tag without a value covers no body, an attestation that has
      expired still admits its agent, the loser of a pod's creation reports success for a winner
      that is being deleted, and a collection deletes a pod or Secret that it did not verify.

    ** Conventions

    - Effects. An operation on [&mut self] takes the state and returns the new state with its
      result. Locks and atomics are left out: an operation on shared state is atomic here, and
      interleavings are sequences of operations. Where a handler awaits others between its
      accesses to shared state, it is a program ([GitStore.Prog] for the bucket,
      [Interaction.Prog] for the workflow engine, the front door and the deploy loop): a tree of calls with a continuation for
      each answer. [ObjectStore] and [Interaction.System] run any number of programs
      interleaved; [wp] proves what holds before every call, whatever the answers. A
      [select!] or timeout around a program is [Interaction.interruptible]: before and after
      each call it may end. Answers include failures, and statements whose effect happened but
      whose answer was lost.
    - Integers are [nat], [N] or [Z] where the code cannot leave the range, with the
      saturating or wrapping operation written out where it can. Instants and durations count
      nanoseconds (milliseconds in [SessionDirectory]); a clock that an operation reads is its
      parameter, or a call.
    - [f64] arithmetic (retry jitter, phi) is carried out exactly, on integers or rationals,
      with the code's rounding to an integer at the end. The theorems are about these exact
      values; rounding errors of the hardware are not modelled.
    - Hash maps are [gmap]s. Where the code's answer depends on the iteration order, the order
      is a parameter ([HashIteration], [StringHash]) or hidden by stating the theorem on
      membership.
    - Third-party code is a class: serialization ([Postcard], [Serialize], [ManifestJson],
      [ControlText], [WorkflowJson], [DefText]), cryptography ([RelayCrypto], [PairingCrypto],
      [Sha256], [Hmac], [AuditLibs], [DefinitionHash]), [Redis], [RedisKeys], [AuthLib], [Http], [GitObjects], [Cron],
      [EvalExpr], [TemplateText], [WebText], [HexText], [KubeText], [TemplateJson], [RequestJson],
      [KubeErrors], [ApiServer]. The classes of laws beside them
      ([RedisLaws], [RedisKeysLaws], [UuidLaws], [CryptoLaws], [CronLaws] and so on) are the documented behaviour of that
      code; collision resistance is never assumed, except as the absence of a collision among
      the bodies of one history ([GitHostSpec]). Each theorem that uses a law has a witness
      with concrete functions in its place.

    ** Recursion, bounds and fuel

    All functions are total. Recursion is structural on lists, strings, JSON values or
    programs. [EventQueue.trim_loop] has the length of the queue as fuel, and each turn drops
    one event ([trim_loop_take]). The trimming of white space and [WorkflowExec.lossy] have the
    length of the text; each turn drops a byte. [WorkflowTemplate.resolve_loop] has the length
    of the template. [PackCache]'s pruning loop has the number of entries. The bounded loop of
    [HuddleJoin] has the code's own 25 attempts. Loops that run as long as the process (the
    renewer, the owner's loop, [WorkflowEngine.run_scheduler]) are given a number of turns, and
    the theorems hold for every number; [FrontDoor.recv_loop] recurses on the frames that the
    socket delivers, and the theorem holds for every list of them. The loops of [KubeDeploy] have a
    number of turns: a result does not depend on it, and with a clock that advances by a step
    per reading, as many turns as steps fit the deadline and one more are enough ([KubeTurns]). [WorkflowExec.read_body] reads at most
    [chunks_before_timeout] chunks before the client's timeout, for every such number. The
    constants of the code keep their values, and no bound is added.

    ** What is not modelled

    Sockets, QUIC, SQL execution, logging and metrics; [Display] texts of errors; zeroization;
    prompt rendering; [Drop] of the write guard; the start-up probe of the git store, its
    hook's shell script and the extraction of credentials; the parsing of YAML and JSON and
    the body codecs; the transaction and revision rules inside [persist_command_event] (a call
    that answers inserted, duplicate or refused); eviction by time in moka caches (a cache
    call may miss); the counting of the run and handler semaphores (the answer is a call); the
    heartbeat, the send loop and the authentication timeout of a connection; kubeconfig, [PATH]
    and TLS of the Kubernetes client (a call that connects or fails).

    Parts of the program without a file here: what lies behind the doors of the relay
    ([ingest_event], the bodies of queries and counts, the REQ, COUNT and CLOSE handlers),
    moderation commands, topics and presence in pub/sub, search, the tunnel's reliable streams,
    the ACP harness around the queue, personas, media and voice, the deletion jobs, the
    LLM agent, and the clients. They are larger than their decisions:
    most of their code is SQL, HTTP or user interface. The natural order to add the rest is:
    the ingest pipeline, reliable streams, pairing QR codes, ACP filter rules and pool
    lifecycle. *)

From Stdlib Require Export Ascii ZArith Lia.
From stdpp Require Export base tactics list gmap strings sorting.

(** ** Fallible code: Rust's [Result<A, E>] *)

Inductive result (A E : Type) : Type :=
  | Ok (a : A)
  | Err (e : E).
Arguments Ok {A E} a.
Arguments Err {A E} e.

Declare Scope rust_scope.
Delimit Scope rust_scope with rust.
Open Scope rust_scope.

(** [x <-? c ;; k] is Rust's [let x = c?; k]: an [Err] leaves the function. *)
Notation "x <-? c ;; k" :=
  (match c with Ok x => k | Err e => Err e end)
  (at level 100, c at next level, right associativity) : rust_scope.

(** [guard! b 'else' e ;; k] is Rust's [if !b { return Err(e) } k]. *)
Notation "'guard!' b 'else' e ;; k" :=
  (if b then k else Err e)
  (at level 100, b at level 99, e at level 99, k at level 200, right associativity) : rust_scope.

Definition is_ok {A E} (r : result A E) : bool :=
  match r with Ok _ => true | Err _ => false end.

(** [Result::err] *)
Definition result_err {A E} (r : result A E) : option E :=
  match r with Ok _ => None | Err e => Some e end.

(** [Result::map_err] *)
Definition map_err {A E F} (f : E → F) (r : result A E) : result A F :=
  match r with Ok a => Ok a | Err e => Err (f e) end.

(** [Option::is_none_or] *)
Definition is_none_or {A} (p : A → bool) (o : option A) : bool :=
  match o with None => true | Some a => p a end.

(** [Option::is_some_and] *)
Definition is_some_and {A} (p : A → bool) (o : option A) : bool :=
  match o with None => false | Some a => p a end.

#[export] Instance result_eq_dec {A E} `{EqDecision A, EqDecision E} :
  EqDecision (result A E).
Proof. solve_decision. Defined.

(** ** Machine integers, kept at their width *)

Definition u8_max : Z := 2 ^ 8 - 1.
Definition u32_max : Z := 2 ^ 32 - 1.
Definition u64_max : Z := 2 ^ 64 - 1.

(** [u64::saturating_add] on non-negative operands *)
Definition u64_saturating_add (a b : Z) : Z := Z.min (a + b) u64_max.

(** [AtomicU64::fetch_add] wraps around. *)
Definition u64_wrapping_add (a b : Z) : Z := (a + b) `mod` 2 ^ 64.

Lemma u64_saturating_add_mono (a b : Z) :
  (0 ≤ b → a ≤ u64_max → a ≤ u64_saturating_add a b ≤ u64_max)%Z.
Proof. unfold u64_saturating_add. lia. Qed.

Lemma u64_saturating_add_lt (a : Z) :
  (a < u64_max → a < u64_saturating_add a 1)%Z.
Proof. unfold u64_saturating_add. lia. Qed.

(** ** Strings

    A Rust [String] is modelled by the list of its UTF-8 bytes, a Rocq
    [string]; [str::len] is then [String.length]. *)

Fixpoint string_to_list (s : string) : list Ascii.ascii :=
  match s with
  | EmptyString => []
  | String a s => a :: string_to_list s
  end.

(** [str::split(c)] on a one-byte separator: never empty. *)
Fixpoint split_on (c : Ascii.ascii) (s : string) : list string :=
  match s with
  | EmptyString => [EmptyString]
  | String a s' =>
      if Ascii.eqb a c then EmptyString :: split_on c s'
      else match split_on c s' with
           | [] => [String a EmptyString]
           | w :: ws => String a w :: ws
           end
  end.

(** Joining with a one-byte separator. *)
Fixpoint join_with (c : Ascii.ascii) (ws : list string) : string :=
  match ws with
  | [] => EmptyString
  | [w] => w
  | w :: ws => String.append w (String c (join_with c ws))
  end.

(** [str::strip_prefix] *)
Fixpoint strip_prefix (p s : string) : option string :=
  match p, s with
  | EmptyString, _ => Some s
  | String a p', String b s' => if Ascii.eqb a b then strip_prefix p' s' else None
  | String _ _, EmptyString => None
  end.

(** [str::starts_with] *)
Definition starts_with (p s : string) : bool := bool_decide (is_Some (strip_prefix p s)).

(** [str::contains(char)] for an ASCII character *)
Definition string_contains (c : Ascii.ascii) (s : string) : bool :=
  existsb (Ascii.eqb c) (string_to_list s).

(** [char::is_ascii_alphanumeric] *)
Definition is_ascii_alphanumeric (a : Ascii.ascii) : bool :=
  let n := Ascii.N_of_ascii a in
  (((48 <=? n) && (n <=? 57)) || ((65 <=? n) && (n <=? 90))
   || ((97 <=? n) && (n <=? 122)))%N.

#[local] Arguments String.append !_ _ /.

Lemma string_append_nil_r (s : string) : String.append s EmptyString = s.
Proof. induction s as [|a s IH]; simpl; [done|]. by rewrite IH. Qed.

Lemma split_on_not_nil (c : Ascii.ascii) (s : string) : split_on c s ≠ [].
Proof.
  destruct s as [|a s]; simpl; [done|].
  destruct (Ascii.eqb a c); [done|]. by destruct (split_on c s).
Qed.

(** [split] then [join] gives the string back. *)
Lemma join_split (c : Ascii.ascii) (s : string) : join_with c (split_on c s) = s.
Proof.
  induction s as [|a s IH]; [done|]. simpl.
  pose proof (split_on_not_nil c s) as Hn.
  destruct (Ascii.eqb_spec a c) as [->|].
  - destruct (split_on c s) as [|w ws]; [done|]. by rewrite <- IH.
  - destruct (split_on c s) as [|w [|w' ws]]; [done| |]; simpl in *; by rewrite IH.
Qed.

(** A pattern word has no separator in it, so splitting a join of such words
    gives the words back. *)
Lemma split_on_word (c : Ascii.ascii) (w : string) :
  string_contains c w = false → split_on c w = [w].
Proof.
  induction w as [|a w IH]; [done|]. unfold string_contains; simpl.
  intros [Ha Hw]%orb_false_iff. rewrite Ascii.eqb_sym, Ha. by rewrite IH.
Qed.

Lemma split_on_app (c : Ascii.ascii) (w s : string) :
  string_contains c w = false →
  split_on c (String.append w (String c s)) = w :: split_on c s.
Proof.
  induction w as [|a w IH]; simpl.
  - intros _. by rewrite Ascii.eqb_refl.
  - unfold string_contains; simpl. intros [Ha Hw]%orb_false_iff.
    rewrite Ascii.eqb_sym, Ha. by rewrite IH.
Qed.

Lemma split_join (c : Ascii.ascii) (ws : list string) :
  ws ≠ [] → Forall (λ w, string_contains c w = false) ws →
  split_on c (join_with c ws) = ws.
Proof.
  intros Hne Hall. induction Hall as [|w ws Hw Hall IH]; [done|].
  destruct ws as [|w' ws]; [by apply split_on_word|].
  change (join_with c (w :: w' :: ws)) with
    (String.append w (String c (join_with c (w' :: ws)))).
  rewrite split_on_app by done. by rewrite IH.
Qed.

Lemma split_on_words (c : Ascii.ascii) (s : string) :
  Forall (λ w, string_contains c w = false) (split_on c s).
Proof.
  induction s as [|a s IH]; simpl; [by repeat constructor|].
  destruct (Ascii.eqb a c) eqn:Ha; [by constructor|].
  destruct (split_on c s) as [|w ws]; inversion_clear IH; constructor; try done;
    unfold string_contains in *; simpl; by rewrite Ascii.eqb_sym, Ha.
Qed.

Lemma strip_prefix_app (p s : string) :
  strip_prefix p (String.append p s) = Some s.
Proof. induction p as [|a p IH]; simpl; [done|]. by rewrite Ascii.eqb_refl. Qed.

Lemma strip_prefix_Some (p s r : string) :
  strip_prefix p s = Some r ↔ s = String.append p r.
Proof.
  split; [|intros ->; apply strip_prefix_app].
  revert s. induction p as [|a p IH]; intros s; simpl; [congruence|].
  destruct s as [|b s]; [done|]. destruct (Ascii.eqb_spec a b) as [->|]; [|done].
  intros H. f_equal. by apply IH.
Qed.

#[global] Arguments strip_prefix : simpl never.
#[global] Arguments starts_with : simpl never.

(** ** Hash maps

    The iteration order of a Rust [HashMap] is unspecified. Code whose result
    depends on it takes the order from this interface: some enumeration of the
    entries, each exactly once. *)

Class HashIteration := {
  hash_iter : ∀ {A : Type}, gmap N A → list (N * A);
  hash_iter_perm : ∀ {A : Type} (m : gmap N A), hash_iter m ≡ₚ map_to_list m
}.

(** One such order, for evaluation. *)
Definition canonical_iteration : HashIteration :=
  {| hash_iter := λ A m, map_to_list m; hash_iter_perm := λ A m, reflexivity _ |}.

Lemma elem_of_hash_iter `{HashIteration} {A} (m : gmap N A) (k : N) (x : A) :
  (k, x) ∈ hash_iter m ↔ m !! k = Some x.
Proof. by rewrite hash_iter_perm, elem_of_map_to_list. Qed.

Lemma list_filter_ext {A} (f g : A → bool) (l : list A) :
  (∀ x, f x = g x) → List.filter f l = List.filter g l.
Proof. intros Hfg. induction l as [|x l IH]; simpl; [done|]. by rewrite Hfg, IH. Qed.

Lemma list_filter_andb {A} (f g : A → bool) (l : list A) :
  List.filter (λ x, f x && g x) l = List.filter g (List.filter f l).
Proof.
  induction l as [|x l IH]; simpl; [done|]. destruct (f x); simpl; [|done].
  destruct (g x); by rewrite IH.
Qed.

(** Filtering respects permutation, so [rewrite] works under it. *)
#[export] Instance list_filter_Permutation {A} (f : A → bool) :
  Proper (Permutation ==> Permutation) (List.filter f).
Proof.
  intros l l' Hl. induction Hl as [|x l l' _ IH|x y l|l l' l'' _ IH1 _ IH2]; simpl; [done|..].
  - by destruct (f x); [rewrite IH|].
  - destruct (f x), (f y); try done. apply Permutation_swap.
  - by etrans.
Qed.

(** ** Stable sort: [slice::sort_by_key] with an integer key *)

Section sorting.
Context {A : Type} (key : A → Z).

Fixpoint insert_by_key (x : A) (l : list A) : list A :=
  match l with
  | [] => [x]
  | y :: l' => if (key x <=? key y)%Z then x :: l else y :: insert_by_key x l'
  end.

Fixpoint sort_by_key (l : list A) : list A :=
  match l with [] => [] | x :: l' => insert_by_key x (sort_by_key l') end.

Lemma insert_by_key_perm (x : A) (l : list A) : insert_by_key x l ≡ₚ x :: l.
Proof.
  induction l as [|y l IH]; simpl; [done|]. destruct (_ <=? _)%Z; [done|].
  rewrite IH. apply Permutation_swap.
Qed.

Lemma sort_by_key_perm (l : list A) : sort_by_key l ≡ₚ l.
Proof. induction l as [|x l IH]; simpl; [done|]. by rewrite insert_by_key_perm, IH. Qed.

Lemma insert_by_key_sorted (x : A) (l : list A) :
  StronglySorted (λ a b, key a ≤ key b)%Z l →
  StronglySorted (λ a b, key a ≤ key b)%Z (insert_by_key x l).
Proof.
  induction 1 as [|y l Hs IH Hall]; simpl; [by repeat constructor|].
  destruct (Z.leb_spec (key x) (key y)).
  - constructor; [by constructor|]. constructor; [done|].
    eapply Forall_impl; [done|]. simpl. lia.
  - constructor; [done|]. rewrite insert_by_key_perm. constructor; [lia|done].
Qed.

Lemma sort_by_key_sorted (l : list A) :
  StronglySorted (λ a b, key a ≤ key b)%Z (sort_by_key l).
Proof. induction l; simpl; [constructor|]. by apply insert_by_key_sorted. Qed.

(** With distinct keys, sorting forgets the order of the input. *)
Lemma sort_by_key_unique (l l' : list A) :
  l ≡ₚ l' → NoDup (key <$> l) → sort_by_key l = sort_by_key l'.
Proof.
  intros Hl Hnd. apply (StronglySorted_unique_strong (λ a b, key a ≤ key b)%Z).
  - intros x y Hx Hy ? ?. assert (key x = key y) as Hxy by lia.
    rewrite sort_by_key_perm in Hx, Hy. rewrite <- Hl in Hy.
    apply list_elem_of_lookup in Hx as [i Hi], Hy as [j Hj].
    assert (i = j) as <- by (eapply NoDup_lookup; [done|..]; rewrite list_lookup_fmap;
      [by rewrite Hi|rewrite Hj; simpl; by f_equal]).
    congruence.
  - apply sort_by_key_sorted.
  - apply sort_by_key_sorted.
  - by rewrite !sort_by_key_perm.
Qed.

(** Entries with equal keys keep their order. *)
Lemma insert_by_key_stable (x : A) (l : list A) (z : Z) :
  List.filter (λ a, key a =? z)%Z (insert_by_key x l) =
  List.filter (λ a, key a =? z)%Z (x :: l).
Proof.
  induction l as [|y l IH]; [done|]. simpl insert_by_key.
  destruct (Z.leb_spec (key x) (key y)); [done|]. simpl in *. rewrite IH.
  destruct (Z.eqb_spec (key x) z), (Z.eqb_spec (key y) z); try done; lia.
Qed.

Lemma sort_by_key_stable (l : list A) (z : Z) :
  List.filter (λ a, key a =? z)%Z (sort_by_key l) = List.filter (λ a, key a =? z)%Z l.
Proof.
  induction l as [|x l IH]; [done|]. simpl sort_by_key. rewrite insert_by_key_stable.
  simpl. by rewrite IH.
Qed.

(** [Iterator::min_by_key]: the first of the minimal elements. *)
Fixpoint min_by_key (l : list A) : option A :=
  match l with
  | [] => None
  | x :: l' =>
      match min_by_key l' with
      | None => Some x
      | Some y => if (key x <=? key y)%Z then Some x else Some y
      end
  end.

Lemma min_by_key_Some (l : list A) (x : A) :
  min_by_key l = Some x → x ∈ l ∧ ∀ y, y ∈ l → (key x ≤ key y)%Z.
Proof.
  revert x. induction l as [|a l IH]; intros x; simpl; [done|].
  destruct (min_by_key l) as [y|] eqn:Hm.
  - destruct (IH y eq_refl) as [Hy Hmin].
    destruct (Z.leb_spec (key a) (key y)); intros [= <-]; (split; [set_solver|]);
      intros z [->|Hz]%elem_of_cons; try lia; specialize (Hmin _ Hz); lia.
  - intros [= <-]. destruct l as [|b l]; [|simpl in Hm; repeat case_match; done].
    split; [set_solver|]. intros y ->%list_elem_of_singleton. lia.
Qed.

Lemma min_by_key_None (l : list A) : min_by_key l = None ↔ l = [].
Proof.
  destruct l as [|a l]; simpl; [done|]. repeat case_match; done.
Qed.

End sorting.

(** ** Automation shared by the components *)

(** Case analysis on every [match] and [if] in sight, closing by congruence. *)
Ltac crush_match :=
  repeat (case_match; simplify_eq/=; try done).

(** Turn boolean connectives and comparisons into propositions. *)
Ltac bool_prop :=
  repeat match goal with
  | H : _ && _ = true |- _ => apply andb_true_iff in H as [? ?]
  | H : _ || _ = false |- _ => apply orb_false_iff in H as [? ?]
  | H : negb _ = true |- _ => apply negb_true_iff in H
  | H : negb _ = false |- _ => apply negb_false_iff in H
  | H : bool_decide _ = true |- _ => apply bool_decide_eq_true in H
  | H : bool_decide _ = false |- _ => apply bool_decide_eq_false in H
  | H : (_ =? _)%N = true |- _ => apply N.eqb_eq in H
  | H : (_ =? _)%N = false |- _ => apply N.eqb_neq in H
  | H : (_ <=? _)%Z = true |- _ => apply Z.leb_le in H
  | H : (_ <=? _)%Z = false |- _ => apply Z.leb_gt in H
  | H : (_ <? _)%Z = true |- _ => apply Z.ltb_lt in H
  | H : (_ <? _)%Z = false |- _ => apply Z.ltb_ge in H
  end.

Create HintDb buzz discriminated.
#[export] Hint Resolve join_split strip_prefix_app split_on_not_nil split_on_words : buzz.
