(* ===== verification/Text.v ===== *)
(** * Numbers in text

    [u64::to_string] and [str::parse::<u64>], with the round trip between them; shared
    by the components that keep integers in Redis; and the texts of identifiers, a class. *)

From stdpp Require Import pretty.
From S2P Require Import Prelude.

Open Scope string_scope.
Open Scope nat_scope.
Open Scope list_scope.

(** The uuid crate's [Display] and the hex crate's [decode] *)
Class IdText := {
  uuid_to_string : N → string;
  hex_decode : string → option (list Z)
}.

(** [Uuid::parse_str] *)
Class UuidText := { uuid_parse_str : string → option N }.

Lemma string_contains_cons (c a : Ascii.ascii) (s : string) :
  string_contains c (String a s) = Ascii.eqb c a || string_contains c s.
Proof. done. Qed.

Lemma string_app_assoc (x y z : string) : (x +:+ y) +:+ z = x +:+ y +:+ z.
Proof. induction x as [|a x IH]; [done|]. exact (f_equal (String a) IH). Qed.

(** [to_string] of a [u64] *)
Definition decimal (n : Z) : string := pretty (Z.to_N n).

Definition digit (a : Ascii.ascii) : option Z :=
  let n := Z.of_N (Ascii.N_of_ascii a) in
  if ((48 <=? n) && (n <=? 57))%Z then Some (n - 48)%Z else None.

(** The digit loop of the integer parser, with its checked multiply and add *)
Fixpoint parse_digits (max acc : Z) (s : string) : option Z :=
  match s with
  | EmptyString => Some acc
  | String a s =>
      match digit a with
      | None => None
      | Some d =>
          let acc := (acc * 10 + d)%Z in
          if (acc <=? max)%Z then parse_digits max acc s else None
      end
  end.

(** [str::parse] for an unsigned type: at least one digit, after an optional plus sign *)
Definition parse_unsigned (max : Z) (s : string) : option Z :=
  match s with
  | EmptyString => None
  | String "+" EmptyString => None
  | String "+" s => parse_digits max 0 s
  | s => parse_digits max 0 s
  end.

Definition parse_u64 : string → option Z := parse_unsigned u64_max.

Lemma digit_pretty_N_char (x : N) : (x < 10)%N → digit (pretty_N_char x) = Some (Z.of_N x).
Proof.
  intros Hx. destruct x as [|p]; [done|]. do 4 (destruct p as [p|p|]; try done; try lia).
Qed.

Lemma parse_digits_go (max : Z) (x : N) (s : string) :
  (0 < x)%N → (Z.of_N x ≤ max)%Z →
  parse_digits max 0 (pretty_N_go x s) = parse_digits max (Z.of_N x) s.
Proof.
  revert s. induction (N.lt_wf_0 x) as [x _ IH]; intros s Hx Hmax.
  rewrite pretty_N_go_step by done.
  assert (x mod 10 < 10)%N as Hd by (apply N.mod_lt; lia).
  pose proof (N.div_mod x 10 ltac:(lia)) as Hdm.
  assert (parse_digits max (Z.of_N (x / 10)) (String (pretty_N_char (x mod 10)) s)
          = parse_digits max (Z.of_N x) s) as Hstep.
  { simpl. rewrite digit_pretty_N_char by done.
    replace (Z.of_N (x / 10) * 10 + Z.of_N (x mod 10))%Z with (Z.of_N x) by lia.
    by rewrite (proj2 (Z.leb_le _ _)) by done. }
  destruct (decide (x / 10 = 0)%N) as [Hz|Hz].
  - rewrite Hz in *. rewrite pretty_N_go_0. exact Hstep.
  - rewrite IH; [done|..].
    + apply N.div_lt; lia.
    + by apply N.neq_0_lt_0.
    + generalize dependent (x / 10)%N. generalize (x mod 10)%N. intros. lia.
Qed.

Lemma pretty_N_go_head (x : N) (s : string) :
  (0 < x)%N → ∃ a t, pretty_N_go x s = String a t ∧ is_Some (digit a).
Proof.
  revert s. induction (N.lt_wf_0 x) as [x _ IH]; intros s Hx.
  rewrite pretty_N_go_step by done.
  destruct (decide (x / 10 = 0)%N) as [Hz|Hz].
  - rewrite Hz, pretty_N_go_0. eexists _, _. split; [done|].
    rewrite digit_pretty_N_char; [by eexists|]. apply N.mod_lt. lia.
  - apply IH; [apply N.div_lt; lia|by apply N.neq_0_lt_0].
Qed.

Lemma decimal_head (n : Z) : ∃ a t, decimal n = String a t ∧ is_Some (digit a).
Proof.
  unfold decimal, pretty, pretty_N. case_decide; [|apply pretty_N_go_head; lia].
  eexists _, _. split; [done|]. by eexists.
Qed.

Lemma parse_decimal (max n : Z) : (0 ≤ n ≤ max)%Z → parse_unsigned max (decimal n) = Some n.
Proof.
  intros Hn. destruct (decimal_head n) as (a & t & Heq & Ha).
  assert (parse_unsigned max (decimal n) = parse_digits max 0 (decimal n)) as ->.
  { rewrite Heq. unfold parse_unsigned. destruct (decide (a = "+"%char)) as [->|Hne].
    - by destruct Ha.
    - repeat (case_match; try done). }
  unfold decimal, pretty, pretty_N. case_decide as Hz.
  - simpl. rewrite (proj2 (Z.leb_le _ _)) by lia. f_equal. lia.
  - rewrite parse_digits_go by lia. simpl. f_equal. lia.
Qed.

Lemma parse_u64_decimal (n : Z) : (0 ≤ n ≤ u64_max)%Z → parse_u64 (decimal n) = Some n.
Proof. apply parse_decimal. Qed.

Lemma decimal_inj (n m : Z) : (0 ≤ n)%Z → (0 ≤ m)%Z → decimal n = decimal m → n = m.
Proof.
  intros Hn Hm Heq. pose proof (parse_decimal (Z.max n m) n ltac:(lia)) as H1.
  rewrite Heq, parse_decimal in H1 by lia. congruence.
Qed.

Lemma decimal_not_empty (n : Z) : decimal n ≠ "".
Proof. by destruct (decimal_head n) as (a & t & -> & _). Qed.

Lemma parse_digits_chars (max acc : Z) (s : string) (n : Z) (c : Ascii.ascii) :
  parse_digits max acc s = Some n → digit c = None → string_contains c s = false.
Proof.
  revert acc. induction s as [|a s IH]; intros acc; [done|]. simpl.
  destruct (digit a) as [d|] eqn:Ha; [|done]. case_match; [|done]. intros Hp Hc.
  unfold string_contains. simpl. apply orb_false_iff. split; [|by eapply IH].
  apply Ascii.eqb_neq. intros ->. congruence.
Qed.

(** Only digits occur in a decimal, so it has no separator in it. *)
Lemma decimal_contains (n : Z) (c : Ascii.ascii) :
  (0 ≤ n)%Z → digit c = None → string_contains c (decimal n) = false.
Proof.
  intros Hn Hc. unfold decimal, pretty, pretty_N. case_decide as Hz.
  - unfold string_contains. simpl. rewrite orb_false_r. apply Ascii.eqb_neq.
    intros ->. done.
  - eapply (parse_digits_chars n 0); [|done].
    rewrite parse_digits_go by lia. done.
Qed.

(** ** Integers in bytes, big-endian *)

Definition be_value (bytes : list Z) : Z := foldl (λ acc b, acc * 256 + b)%Z 0%Z bytes.

Fixpoint be_bytes (n : nat) (x : Z) : list Z :=
  match n with
  | 0 => []
  | S n => be_bytes n (x / 256)%Z ++ [(x mod 256)%Z]
  end.

Lemma be_bytes_length (n : nat) (x : Z) : length (be_bytes n x) = n.
Proof. revert x. induction n as [|n IH]; intros x; [done|]. simpl. rewrite length_app, IH. simpl. lia. Qed.

Lemma be_bytes_byte (n : nat) (x : Z) : Forall (λ b, 0 ≤ b < 256)%Z (be_bytes n x).
Proof.
  revert x. induction n as [|n IH]; intros x; [constructor|]. simpl.
  apply Forall_app. split; [done|]. constructor; [|constructor]. by apply Z.mod_pos_bound.
Qed.

Lemma be_value_snoc (l : list Z) (b : Z) : be_value (l ++ [b]) = (be_value l * 256 + b)%Z.
Proof. unfold be_value. by rewrite foldl_app. Qed.

Lemma be_value_bytes (n : nat) (x : Z) :
  (0 ≤ x < 256 ^ Z.of_nat n)%Z → be_value (be_bytes n x) = x.
Proof.
  revert x. induction n as [|n IH]; intros x Hx; [simpl in Hx; unfold be_value; simpl; lia|].
  simpl be_bytes. rewrite be_value_snoc, IH.
  - pose proof (Z.div_mod x 256). lia.
  - rewrite Nat2Z.inj_succ, Z.pow_succ_r in Hx by lia.
    split; [apply Z.div_pos; lia|]. apply Z.div_lt_upper_bound; lia.
Qed.

Lemma be_bytes_value (l : list Z) :
  Forall (λ b, 0 ≤ b < 256)%Z l → be_bytes (length l) (be_value l) = l.
Proof.
  induction l as [|b l IH] using rev_ind; [done|].
  intros [Hl [Hb _]%Forall_cons]%Forall_app.
  rewrite length_app, be_value_snoc. simpl length. rewrite Nat.add_comm. simpl.
  rewrite Z.div_add_l, Z.div_small, Z.add_0_r by lia. rewrite IH by done.
  by rewrite Z.add_comm, Z.mod_add, Z.mod_small by lia.
Qed.

Lemma be_value_bound (l : list Z) :
  Forall (λ b, 0 ≤ b < 256)%Z l → (0 ≤ be_value l < 256 ^ Z.of_nat (length l))%Z.
Proof.
  induction l as [|b l IH] using rev_ind; [done|].
  intros [Hl [Hb _]%Forall_cons]%Forall_app. specialize (IH Hl).
  rewrite length_app, be_value_snoc. simpl length.
  replace (Z.of_nat (length l + 1)) with (Z.succ (Z.of_nat (length l))) by lia.
  rewrite Z.pow_succ_r by lia. lia.
Qed.

(** ** Binary text

    A text for each positive number, so for each value of a countable type: the printer of
    the toy instances of the serialization classes. *)

Fixpoint bits (p : positive) : string :=
  match p with xH => "" | xO p => String "0" (bits p) | xI p => String "1" (bits p) end.
Fixpoint unbits (s : string) : option positive :=
  match s with
  | "" => Some xH
  | String "0" s => xO <$> unbits s
  | String "1" s => xI <$> unbits s
  | _ => None
  end.

Lemma unbits_bits (p : positive) : unbits (bits p) = Some p.
Proof. induction p as [p IH|p IH|]; simpl; [by rewrite IH..|done]. Qed.

#[global] Arguments be_bytes : simpl never.
