(* ===== verification/StdText.v ===== *)
(** * Operations of the standard library on text

    A Rust [str] or byte slice is a [string] of its bytes; a predicate on ASCII characters
    holds of every character exactly when it holds of every byte. Shared by the git hosting
    files. *)

From S2P Require Import Prelude Text.

Open Scope string_scope.
Open Scope nat_scope.
Open Scope list_scope.

(** ** Searching *)

(** [str::contains(&str)] *)
Fixpoint contains (p s : string) : bool :=
  starts_with p s || match s with EmptyString => false | String _ s => contains p s end.

(** [s.chars().all(f)] *)
Definition chars_all (f : Ascii.ascii → bool) (s : string) : bool := forallb f (string_to_list s).

Fixpoint string_rev_app (s acc : string) : string :=
  match s with EmptyString => acc | String a s => string_rev_app s (String a acc) end.
Definition string_rev (s : string) : string := string_rev_app s "".

(** [str::strip_suffix] *)
Definition strip_suffix (p s : string) : option string :=
  string_rev <$> strip_prefix (string_rev p) (string_rev s).

(** [str::ends_with] *)
Definition ends_with (p s : string) : bool := bool_decide (is_Some (strip_suffix p s)).

Definition code_of (a : Ascii.ascii) : N := Ascii.N_of_ascii a.

Definition between (lo hi : N) (a : Ascii.ascii) : bool :=
  ((lo <=? code_of a) && (code_of a <=? hi))%N.

(** [char::is_ascii_hexdigit] *)
Definition is_ascii_hexdigit (a : Ascii.ascii) : bool :=
  between 48 57 a || between 65 70 a || between 97 102 a.

Definition is_ascii_uppercase : Ascii.ascii → bool := between 65 90.

(** ['0'..='9' | 'a'..='f'] *)
Definition is_lower_hex (a : Ascii.ascii) : bool := between 48 57 a || between 97 102 a.

(** [str::to_ascii_lowercase], [str::eq_ignore_ascii_case] *)
Definition ascii_lowercase (a : Ascii.ascii) : Ascii.ascii :=
  if is_ascii_uppercase a then Ascii.ascii_of_N (code_of a + 32) else a.

Fixpoint to_ascii_lowercase (s : string) : string :=
  match s with EmptyString => "" | String a s => String (ascii_lowercase a) (to_ascii_lowercase s) end.

Definition eq_ignore_ascii_case (s t : string) : bool :=
  bool_decide (to_ascii_lowercase s = to_ascii_lowercase t).

(** [hex::encode(Sha256::digest(bytes))] *)
Class Sha256 := { sha256_hex : string → string }.

(** ** [str::from_utf8]: the well-formed byte sequences of the Unicode standard *)

Definition continuation : Ascii.ascii → bool := between 128 191.

Fixpoint is_utf8 (s : string) : bool :=
  match s with
  | EmptyString => true
  | String a s1 =>
      if between 0 127 a then is_utf8 s1
      else match s1 with
      | EmptyString => false
      | String b s2 =>
          if between 194 223 a then continuation b && is_utf8 s2
          else match s2 with
          | EmptyString => false
          | String c s3 =>
              if between 224 239 a
              then (if between 224 224 a then between 160 191 b
                    else if between 237 237 a then between 128 159 b else continuation b)
                   && continuation c && is_utf8 s3
              else match s3 with
              | EmptyString => false
              | String d s4 =>
                  between 240 244 a
                  && (if between 240 240 a then between 144 191 b
                      else if between 244 244 a then between 128 143 b else continuation b)
                  && continuation c && continuation d && is_utf8 s4
              end
          end
      end
  end.

(** ** [str::trim]: the [White_Space] characters at both ends *)

Definition bytes_of (l : list N) : string :=
  foldr (λ n s, String (Ascii.ascii_of_N n) s) "" l.

Definition quote : string := bytes_of [34%N].

(** The white-space characters, in UTF-8 *)
Definition white_space : list string :=
  bytes_of <$> [[9]; [10]; [11]; [12]; [13]; [32]; [194; 133]; [194; 160]; [225; 154; 128];
    [226; 128; 128]; [226; 128; 129]; [226; 128; 130]; [226; 128; 131]; [226; 128; 132];
    [226; 128; 133]; [226; 128; 134]; [226; 128; 135]; [226; 128; 136]; [226; 128; 137];
    [226; 128; 138]; [226; 128; 168]; [226; 128; 169]; [226; 128; 175]; [226; 129; 159];
    [227; 128; 128]]%N.

Fixpoint strip_one (ws : list string) (s : string) : option string :=
  match ws with
  | [] => None
  | w :: ws => match strip_prefix w s with Some r => Some r | None => strip_one ws s end
  end.

(** Every turn drops a byte, so the length of the text is fuel enough. *)
Fixpoint strip_all (fuel : nat) (ws : list string) (s : string) : string :=
  match fuel with
  | 0 => s
  | S fuel => match strip_one ws s with Some r => strip_all fuel ws r | None => s end
  end.

Definition trim_start (s : string) : string := strip_all (String.length s) white_space s.
Definition trim_back (s : string) : string :=
  string_rev (strip_all (String.length s) (string_rev <$> white_space) (string_rev s)).
Definition str_trim (s : string) : string := trim_back (trim_start s).

(** ** [str::lines] and [str::splitn(2, c)] *)

Definition LF : Ascii.ascii := Ascii.ascii_of_nat 10.
Definition CR : string := bytes_of [13%N].
Definition newline : string := String LF "".

(** A final line terminator ends the last line; a carriage return before it is dropped. *)
Definition str_lines (s : string) : list string :=
  let parts := split_on LF s in
  let ended := removelast parts in
  ((λ l, default l (strip_suffix CR l)) <$> ended)
  ++ match last parts with Some "" | None => [] | Some l => [l] end.

Fixpoint split_once (c : Ascii.ascii) (s : string) : option (string * string) :=
  match s with
  | EmptyString => None
  | String a s =>
      if Ascii.eqb a c then Some ("", s)
      else match split_once c s with Some (x, y) => Some (String a x, y) | None => None end
  end.

(** ** [Vec<String>::sort], [dedup], and iteration of a [BTreeMap] *)

Definition sort_strings (l : list string) : list string := merge_sort String.le l.

Fixpoint dedup (l : list string) : list string :=
  match l with
  | x :: (y :: _) as l' => if decide (x = y) then dedup l' else x :: dedup l'
  | _ => l
  end.

Definition key_le {A} (x y : string * A) : Prop := String.le x.1 y.1.
#[export] Instance key_le_dec {A} : RelDecision (@key_le A).
Proof. intros x y. unfold key_le. apply _. Defined.

(** [BTreeMap::iter]: in the byte order of the keys *)
Definition iter {A} (m : gmap string A) : list (string * A) := merge_sort key_le (map_to_list m).

(** ** Lemmas *)

Lemma iter_perm {A} (m : gmap string A) : iter m ≡ₚ map_to_list m.
Proof. apply merge_sort_Permutation. Qed.

Lemma elem_of_iter {A} (m : gmap string A) (k : string) (x : A) : (k, x) ∈ iter m ↔ m !! k = Some x.
Proof. rewrite iter_perm. apply elem_of_map_to_list. Qed.

Lemma elem_of_dedup (x : string) (l : list string) : x ∈ dedup l ↔ x ∈ l.
Proof.
  induction l as [|y [|z l] IH]; [done|done|]. simpl dedup. destruct (decide (y = z)) as [->|Hne].
  - rewrite IH. set_solver.
  - rewrite elem_of_cons, IH. set_solver.
Qed.

Lemma elem_of_sort_strings (x : string) (l : list string) : x ∈ sort_strings l ↔ x ∈ l.
Proof. unfold sort_strings. by rewrite merge_sort_Permutation. Qed.

Lemma dedup_cons (x y : string) (l : list string) :
  dedup (x :: y :: l) = if decide (x = y) then dedup (y :: l) else x :: dedup (y :: l).
Proof. done. Qed.

Lemma dedup_length (l : list string) : length (dedup l) ≤ length l.
Proof.
  induction l as [|y [|z l] IH]; [done|done|]. rewrite dedup_cons, length_cons.
  case_decide; [|rewrite length_cons]; lia.
Qed.

Lemma dedup_strongly_sorted (l : list string) :
  StronglySorted String.le l → StronglySorted String.le (dedup l) ∧ NoDup (dedup l).
Proof.
  induction l as [|y [|z l] IH]; intros Hs;
    [split; [done|apply NoDup_nil_2]|split; [done|apply NoDup_singleton]|].
  apply StronglySorted_inv in Hs as [Hs Hall]. destruct (IH Hs) as [Hd Hn].
  rewrite dedup_cons. destruct (decide (y = z)) as [->|Hne]; [done|]. split.
  - constructor; [done|]. apply Forall_forall. intros x Hx.
    rewrite Forall_forall in Hall. apply Hall. by rewrite elem_of_dedup in Hx.
  - apply NoDup_cons. split; [|done]. rewrite elem_of_dedup.
    intros [->|Hy]%elem_of_cons; [done|].
    apply StronglySorted_inv in Hs as [_ Hz]. rewrite Forall_forall in Hz. specialize (Hz y Hy).
    apply Forall_cons in Hall as [Hyz _]. destruct Hne. by apply (anti_symm String.le).
Qed.

Lemma sort_strings_sorted (l : list string) : StronglySorted String.le (sort_strings l).
Proof. unfold sort_strings. apply (StronglySorted_merge_sort String.le). Qed.

(** Sorting and removing duplicates is a function of the elements. *)
Lemma sort_dedup_unique (l l' : list string) :
  (∀ x, x ∈ l ↔ x ∈ l') → dedup (sort_strings l) = dedup (sort_strings l').
Proof.
  intros Heq.
  destruct (dedup_strongly_sorted (sort_strings l)) as [Hs Hn]; [apply sort_strings_sorted|].
  destruct (dedup_strongly_sorted (sort_strings l')) as [Hs' Hn']; [apply sort_strings_sorted|].
  apply (StronglySorted_unique String.le); [done..|].
  apply NoDup_Permutation; [done..|]. intros x. by rewrite !elem_of_dedup, !elem_of_sort_strings.
Qed.

Lemma sort_dedup_idemp (l : list string) :
  dedup (sort_strings (dedup (sort_strings l))) = dedup (sort_strings l).
Proof.
  apply sort_dedup_unique. intros x. by rewrite elem_of_dedup, elem_of_sort_strings.
Qed.

Lemma elem_of_sort_dedup (x : string) (l : list string) : x ∈ dedup (sort_strings l) ↔ x ∈ l.
Proof. by rewrite elem_of_dedup, elem_of_sort_strings. Qed.

Example lines_example :
  str_lines (bytes_of [97; 10; 98; 13; 10; 10; 99]%N) = ["a"; "b"; ""; "c"]
  ∧ str_lines (bytes_of [97; 10]%N) = ["a"] ∧ str_lines "" = [].
Proof. done. Qed.

Example trim_example : str_trim (bytes_of [194; 160; 32; 97; 32; 98; 10]%N) = "a b".
Proof. vm_compute. done. Qed.

(** ** Unique decoding of concatenations *)

Lemma until_inj (c : Ascii.ascii) (x x' y y' : string) :
  string_contains c x = false → string_contains c x' = false →
  x +:+ String c y = x' +:+ String c y' → x = x' ∧ y = y'.
Proof.
  revert x'. induction x as [|a x IH]; intros [|a' x'] Hx Hx' Heq.
  - by injection Heq.
  - injection Heq as -> _. rewrite string_contains_cons, Ascii.eqb_refl in Hx'. done.
  - injection Heq as -> _. rewrite string_contains_cons, Ascii.eqb_refl in Hx. done.
  - injection Heq as -> Heq. rewrite string_contains_cons in Hx, Hx'.
    apply orb_false_iff in Hx as [_ Hx]. apply orb_false_iff in Hx' as [_ Hx'].
    by destruct (IH x' Hx Hx' Heq) as [-> ->].
Qed.

Lemma same_length_inj (x x' y y' : string) :
  String.length x = String.length x' → x +:+ y = x' +:+ y' → x = x' ∧ y = y'.
Proof.
  revert x'. induction x as [|a x IH]; intros [|a' x'] Hl Heq; try done.
  injection Hl as Hl. injection Heq as -> Heq. by destruct (IH x' Hl Heq) as [-> ->].
Qed.

(** A text behind its length in decimal *)
Lemma prefixed_inj (x x' y y' : string) :
  decimal (Z.of_nat (String.length x)) +:+ ":" +:+ x +:+ y
  = decimal (Z.of_nat (String.length x')) +:+ ":" +:+ x' +:+ y' → x = x' ∧ y = y'.
Proof.
  intros Heq. apply (until_inj ":") in Heq as [Hl Heq]; [|apply decimal_contains; [lia|done]..].
  apply decimal_inj in Hl; [|lia..]. by apply same_length_inj in Heq; [|lia].
Qed.

(** ** Reversal and trimming *)

Lemma string_rev_app_spec (s acc : string) : string_rev_app s acc = string_rev s +:+ acc.
Proof.
  unfold string_rev. revert acc. induction s as [|a s IH]; intros acc; [done|]. simpl.
  rewrite IH, (IH (String a "")). by rewrite string_app_assoc.
Qed.

Lemma string_rev_append (x y : string) : string_rev (x +:+ y) = string_rev y +:+ string_rev x.
Proof.
  induction x as [|a x IH]; [exact (eq_sym (string_append_nil_r (string_rev y)))|].
  change (string_rev (String a x +:+ y)) with (string_rev_app (x +:+ y) (String a "")).
  change (string_rev (String a x)) with (string_rev_app x (String a "")).
  by rewrite !string_rev_app_spec, IH, string_app_assoc.
Qed.

Lemma string_rev_involutive (s : string) : string_rev (string_rev s) = s.
Proof.
  induction s as [|a s IH]; [done|].
  change (string_rev (String a s)) with (string_rev_app s (String a "")).
  by rewrite string_rev_app_spec, string_rev_append, IH.
Qed.

Lemma strip_all_stuck (fuel : nat) (ws : list string) (s : string) :
  strip_one ws s = None → strip_all fuel ws s = s.
Proof. destruct fuel as [|fuel]; [done|]. simpl. by intros ->. Qed.
