(* ===== verification/Json.v ===== *)
(** * JSON values

    [serde_json::Value], shared by the components that keep JSON: a number is the text it
    prints as, an object the list of its members in the order of serde_json's map. *)

From S2P Require Import Prelude.

Open Scope string_scope.
Open Scope list_scope.

Inductive Json :=
  | JNull
  | JBool (b : bool)
  | JNumber (text : string)
  | JString (s : string)
  | JArray (l : list Json)
  | JObject (m : list (string * Json)).

(** [serde_json::Map::get] *)
Fixpoint member (k : string) (m : list (string * Json)) : option Json :=
  match m with
  | [] => None
  | (k', v) :: m => if decide (k' = k) then Some v else member k m
  end.

(** [Value::get] on a key, [Value::as_str], [Value::as_array] *)
Definition json_get (k : string) (v : Json) : option Json :=
  match v with JObject m => member k m | _ => None end.
Definition as_str (v : Json) : option string := match v with JString s => Some s | _ => None end.
Definition as_array (v : Json) : option (list Json) := match v with JArray l => Some l | _ => None end.
