(* ===== verification/Channel.v ===== *)
(** * Channels: visibility, type and member roles (buzz-core/src/channel.rs)

    The enums shared by the git-permission engine and the relay, their string
    forms ([as_str], [FromStr]), the permission order on roles and the
    canonical channel name. *)

From S2P Require Import Prelude.

Open Scope string_scope.
Open Scope nat_scope.
Open Scope list_scope.

Inductive ChannelVisibility := Open | Private.

Inductive ChannelType := Stream | Forum | Dm | Workflow.

Inductive MemberRole := Owner | Admin | Member | Guest | Bot.

#[export] Instance ChannelVisibility_eq_dec : EqDecision ChannelVisibility.
Proof. solve_decision. Defined.
#[export] Instance ChannelType_eq_dec : EqDecision ChannelType.
Proof. solve_decision. Defined.
#[export] Instance MemberRole_eq_dec : EqDecision MemberRole.
Proof. solve_decision. Defined.

Module ChannelVisibilityStr.

Definition as_str (v : ChannelVisibility) : string :=
  match v with Open => "open" | Private => "private" end.

(** The error value is the rejected string; the [format!] around it is left out. *)
Definition from_str (s : string) : result ChannelVisibility string :=
  if decide (s = "open") then Ok Open
  else if decide (s = "private") then Ok Private
  else Err s.

End ChannelVisibilityStr.

Module ChannelTypeStr.

Definition as_str (t : ChannelType) : string :=
  match t with
  | Stream => "stream" | Forum => "forum" | Dm => "dm" | Workflow => "workflow"
  end.

Definition from_str (s : string) : result ChannelType string :=
  if decide (s = "stream") then Ok Stream
  else if decide (s = "forum") then Ok Forum
  else if decide (s = "dm") then Ok Dm
  else if decide (s = "workflow") then Ok Workflow
  else Err s.

End ChannelTypeStr.

Module MemberRoleOps.

Definition as_str (r : MemberRole) : string :=
  match r with
  | Owner => "owner" | Admin => "admin" | Member => "member"
  | Guest => "guest" | Bot => "bot"
  end.

Definition from_str (s : string) : result MemberRole string :=
  if decide (s = "owner") then Ok Owner
  else if decide (s = "admin") then Ok Admin
  else if decide (s = "member") then Ok Member
  else if decide (s = "guest") then Ok Guest
  else if decide (s = "bot") then Ok Bot
  else Err s.

Definition is_elevated (r : MemberRole) : bool :=
  match r with Owner | Admin => true | _ => false end.

Definition permission_level (r : MemberRole) : Z :=
  match r with Owner => 4 | Admin => 3 | Member => 2 | Guest => 1 | Bot => 0 end.

Definition has_at_least (self required : MemberRole) : bool :=
  (permission_level required <=? permission_level self)%Z.

End MemberRoleOps.

Export MemberRoleOps.

(** ** Canonical channel name, over Unicode scalar values *)

(** [char::is_whitespace]: the Unicode [White_Space] property. *)
Definition char_is_whitespace (c : N) : bool :=
  (((9 <=? c) && (c <=? 13)) || (c =? 32) || (c =? 133) || (c =? 160)
   || (c =? 5760) || ((8192 <=? c) && (c <=? 8202)) || (c =? 8232)
   || (c =? 8233) || (c =? 8239) || (c =? 8287) || (c =? 12288))%N.

(** [str::trim_start_matches] *)
Fixpoint trim_start_matches (p : N → bool) (s : list N) : list N :=
  match s with
  | [] => []
  | c :: s' => if p c then trim_start_matches p s' else s
  end.

(** [str::trim_end] *)
Definition trim_end (s : list N) : list N :=
  reverse (trim_start_matches char_is_whitespace (reverse s)).

Definition canonical_channel_name (name : list N) : list N :=
  trim_end (trim_start_matches (λ c, (c =? 35)%N || char_is_whitespace c) name).

(** ** Lemmas *)

Lemma permission_level_inj (r s : MemberRole) :
  permission_level r = permission_level s → r = s.
Proof. by destruct r, s. Qed.

Lemma has_at_least_spec (r s : MemberRole) :
  has_at_least r s = true ↔ (permission_level s ≤ permission_level r)%Z.
Proof. apply Z.leb_le. Qed.

Lemma has_at_least_trans (r s t : MemberRole) :
  has_at_least r s = true → has_at_least s t = true → has_at_least r t = true.
Proof. rewrite !has_at_least_spec. lia. Qed.

Lemma role_from_as_str (r : MemberRole) : from_str (as_str r) = Ok r.
Proof. by destruct r. Qed.

Lemma role_from_str_inv (s : string) (r : MemberRole) :
  from_str s = Ok r → s = as_str r.
Proof. unfold from_str. intros. repeat case_decide; by simplify_eq. Qed.

Lemma trim_start_suffix (p : N → bool) (s : list N) :
  trim_start_matches p s `suffix_of` s.
Proof.
  induction s as [|c s IH]; simpl; [done|].
  destruct (p c); [|done]. by apply suffix_cons_r.
Qed.

Lemma trim_start_head (p : N → bool) (s : list N) (c : N) :
  head (trim_start_matches p s) = Some c → p c = false.
Proof.
  induction s as [|d s IH]; simpl; [done|].
  destruct (p d) eqn:Hd; [done|]. simpl. by intros [= <-].
Qed.

Lemma trim_start_id (p : N → bool) (s : list N) :
  (∀ c, head s = Some c → p c = false) → trim_start_matches p s = s.
Proof. destruct s as [|c s]; simpl; [done|]. intros H. by rewrite (H c). Qed.

Lemma head_suffix_reverse (p : N → bool) (s : list N) (c : N) :
  head (trim_end s) = Some c → head s = Some c.
Proof.
  unfold trim_end. intros H.
  destruct (trim_start_suffix char_is_whitespace (reverse s)) as [k Hk].
  apply (f_equal reverse) in Hk. rewrite reverse_involutive, reverse_app in Hk.
  rewrite Hk. destruct (reverse (trim_start_matches _ _)); simpl in *; congruence.
Qed.

Lemma trim_end_idemp (s : list N) : trim_end (trim_end s) = trim_end s.
Proof.
  unfold trim_end at 1 3. f_equal. unfold trim_end. rewrite reverse_involutive.
  apply trim_start_id, trim_start_head.
Qed.
