(* ===== verification/GitPerms.v ===== *)
(** * Git push permissions (buzz-core/src/git_perms.rs)

    Ref patterns and their matcher, the parser of [buzz-protect] tags, the
    union of the rules that match a ref, and the evaluation of a push.

    [RefPattern::matches] contains two [unreachable!()] arms; the model gives
    the functions that may reach them the type [option _], [None] standing for
    the panic, and [matches_total] shows that a pattern that comes out of
    [RefPattern::parse] (the only constructor outside the module) never
    reaches them. *)

From Stdlib Require Import Btauto.
From S2P Require Import Prelude Channel.

Open Scope string_scope.
Open Scope nat_scope.
Open Scope list_scope.

Definition MAX_PROTECTION_RULES : nat := 50.
Definition MAX_PATTERN_LENGTH : nat := 256.
Definition MAX_WILDCARDS_PER_PATTERN : nat := 3.

Definition slash : Ascii.ascii := "/"%char.

(** ** Data *)

Inductive PatternSegment :=
  | Literal (s : string)
  | Wildcard
  | RecursiveWildcard.

Record RefPattern := { raw : string; segments : list PatternSegment }.

Inductive PatternError :=
  | Empty
  | TooLong
  | MissingRefsPrefix
  | InvalidSegment (s : string)
  | TooManyWildcards.

Inductive UpdateKind := Create | FastForward | NonFastForward | Delete.

Record RefUpdate := {
  ref_name : string;
  kind : UpdateKind;
  old_oid : string;
  new_oid : string
}.

Record ProtectionRule := {
  pattern : RefPattern;
  rule_push_role : option MemberRole;
  rule_no_force_push : bool;
  rule_no_delete : bool;
  rule_require_patch : bool
}.

Inductive RuleParseError :=
  | TooFewValues
  | TooManyRules
  | InvalidPattern (e : PatternError)
  | UnknownRule (r : string)
  | InvalidRole (r : string).

Record ParsedProtection := {
  rules : list ProtectionRule;
  unknown_rules : list string
}.

Record EffectiveRules := {
  push_role : option MemberRole;
  no_force_push : bool;
  no_delete : bool;
  require_patch : bool;
  has_explicit_match : bool
}.

Record Denial := { denial_ref : string; reason : string }.

#[export] Instance PatternSegment_eq_dec : EqDecision PatternSegment.
Proof. solve_decision. Defined.
#[export] Instance RefPattern_eq_dec : EqDecision RefPattern.
Proof. solve_decision. Defined.
#[export] Instance PatternError_eq_dec : EqDecision PatternError.
Proof. solve_decision. Defined.
#[export] Instance UpdateKind_eq_dec : EqDecision UpdateKind.
Proof. solve_decision. Defined.
#[export] Instance ProtectionRule_eq_dec : EqDecision ProtectionRule.
Proof. solve_decision. Defined.
#[export] Instance Denial_eq_dec : EqDecision Denial.
Proof. solve_decision. Defined.

(** ** [RefPattern::parse] *)

Definition literal_char (c : Ascii.ascii) : bool :=
  is_ascii_alphanumeric c || Ascii.eqb c "."%char || Ascii.eqb c "_"%char
  || Ascii.eqb c "-"%char.

(** The body of the [for (i, part) in parts.iter().enumerate()] loop;
    [n] is [parts.len()], [segs] the segments pushed so far. *)
Fixpoint parse_parts (n i wildcard_count : nat) (parts : list string)
    (segs : list PatternSegment) : result (list PatternSegment) PatternError :=
  match parts with
  | [] => Ok segs
  | part :: rest =>
      if decide (part = "**") then
        if negb (i =? n - 1)%nat then Err (InvalidSegment "** must be the last segment")
        else if (MAX_WILDCARDS_PER_PATTERN <? wildcard_count + 1)%nat then Err TooManyWildcards
        else parse_parts n (i + 1) (wildcard_count + 1) rest (segs ++ [RecursiveWildcard])
      else if decide (part = "*") then
        if (MAX_WILDCARDS_PER_PATTERN <? wildcard_count + 1)%nat then Err TooManyWildcards
        else parse_parts n (i + 1) (wildcard_count + 1) rest (segs ++ [Wildcard])
      else if decide (part = "") then Err (InvalidSegment "")
      else if string_contains "*"%char part || string_contains "?"%char part
              || string_contains "["%char part || string_contains "]"%char part
      then Err (InvalidSegment part)
      else if negb (forallb literal_char (string_to_list part))
      then Err (InvalidSegment part)
      else parse_parts n (i + 1) wildcard_count rest (segs ++ [Literal part])
  end.

Definition parse (pat : string) : result RefPattern PatternError :=
  if decide (pat = "") then Err Empty
  else if (MAX_PATTERN_LENGTH <? String.length pat)%nat then Err TooLong
  else if negb (starts_with "refs/" pat) then Err MissingRefsPrefix
  else
    let parts := split_on slash pat in
    segs <-? parse_parts (length parts) 0 0 parts [];;
    Ok {| raw := pat; segments := segs |}.

(** ** [RefPattern::matches] *)

(** One segment against one path component; [None] is [unreachable!()]. *)
Definition segment_matches (p : PatternSegment) (seg : string) : option bool :=
  match p with
  | Wildcard => Some true
  | Literal lit => Some (bool_decide (lit = seg))
  | RecursiveWildcard => None
  end.

(** [ps.iter().zip(ss.iter()).all(...)]: stops at the first [false]. *)
Fixpoint zip_all (ps : list PatternSegment) (ss : list string) : option bool :=
  match ps, ss with
  | p :: ps, s :: ss =>
      match segment_matches p s with
      | None => None
      | Some false => Some false
      | Some true => zip_all ps ss
      end
  | _, _ => Some true
  end.

Definition matches (self : RefPattern) (name : string) : option bool :=
  let ref_segments := split_on slash name in
  match last (segments self) with
  | Some RecursiveWildcard =>
      let prefix_len := length (segments self) - 1 in
      if (length ref_segments <=? prefix_len)%nat then Some false
      else zip_all (take prefix_len (segments self)) (take prefix_len ref_segments)
  | _ =>
      if negb (length ref_segments =? length (segments self))%nat then Some false
      else zip_all (segments self) ref_segments
  end.

Definition as_str (self : RefPattern) : string := raw self.

(** ** [UpdateKind::classify] *)

Definition ZERO_OID : string := "0000000000000000000000000000000000000000".

Definition classify (old new : string) (is_ancestor : bool) : UpdateKind :=
  if decide (old = ZERO_OID) then Create
  else if decide (new = ZERO_OID) then Delete
  else if is_ancestor then FastForward
  else NonFastForward.

(** ** [buzz-protect] tags *)

(** Keep the role with the higher permission level, the existing one on a tie. *)
Definition strictest (existing : option MemberRole) (role : MemberRole) : option MemberRole :=
  Some match existing with
       | None => role
       | Some e => if (permission_level e <? permission_level role)%Z then role else e
       end.

(** The loop over [values[1..]]; the accumulator is the rule under
    construction and the unknown rules seen so far. *)
Fixpoint parse_rule_strs (rule_strs : list string) (acc : ProtectionRule)
    (unknowns : list string) : result (ProtectionRule * list string) RuleParseError :=
  match rule_strs with
  | [] => Ok (acc, unknowns)
  | rule_str :: rest =>
      match strip_prefix "push:" rule_str with
      | Some role_str =>
          role <-? map_err (λ _, InvalidRole role_str) (from_str role_str);;
          match role with
          | Bot | Guest => Err (InvalidRole role_str)
          | _ =>
              parse_rule_strs rest
                {| pattern := pattern acc;
                   rule_push_role := strictest (rule_push_role acc) role;
                   rule_no_force_push := rule_no_force_push acc;
                   rule_no_delete := rule_no_delete acc;
                   rule_require_patch := rule_require_patch acc |} unknowns
          end
      | None =>
          if decide (rule_str = "no-force-push") then
            parse_rule_strs rest
              {| pattern := pattern acc; rule_push_role := rule_push_role acc;
                 rule_no_force_push := true; rule_no_delete := rule_no_delete acc;
                 rule_require_patch := rule_require_patch acc |} unknowns
          else if decide (rule_str = "no-delete") then
            parse_rule_strs rest
              {| pattern := pattern acc; rule_push_role := rule_push_role acc;
                 rule_no_force_push := rule_no_force_push acc; rule_no_delete := true;
                 rule_require_patch := rule_require_patch acc |} unknowns
          else if decide (rule_str = "require-patch") then
            parse_rule_strs rest
              {| pattern := pattern acc; rule_push_role := rule_push_role acc;
                 rule_no_force_push := rule_no_force_push acc;
                 rule_no_delete := rule_no_delete acc; rule_require_patch := true |} unknowns
          else parse_rule_strs rest acc (unknowns ++ [rule_str])
      end
  end.

Definition parse_protection_tag_with_warnings (values : list string)
  : result (ProtectionRule * list string) RuleParseError :=
  match values with
  | v0 :: ((_ :: _) as rest) =>
      pat <-? map_err InvalidPattern (parse v0);;
      parse_rule_strs rest
        {| pattern := pat; rule_push_role := None; rule_no_force_push := false;
           rule_no_delete := false; rule_require_patch := false |} []
  | _ => Err TooFewValues
  end.

Definition parse_protection_tag (values : list string) : result ProtectionRule RuleParseError :=
  r <-? parse_protection_tag_with_warnings values;; Ok (fst r).

Fixpoint parse_tags_loop (tags : list (list string)) (acc : ParsedProtection)
  : result ParsedProtection RuleParseError :=
  match tags with
  | [] => Ok acc
  | tag :: rest =>
      if decide (head tag = Some "buzz-protect") then
        if (MAX_PROTECTION_RULES <=? length (rules acc))%nat then Err TooManyRules
        else
          r <-? parse_protection_tag_with_warnings (tail tag);;
          parse_tags_loop rest
            {| rules := rules acc ++ [fst r];
               unknown_rules := unknown_rules acc ++ snd r |}
      else parse_tags_loop rest acc
  end.

Definition parse_protection_tags (tags : list (list string))
  : result ParsedProtection RuleParseError :=
  parse_tags_loop tags {| rules := []; unknown_rules := [] |}.

(** ** Policy evaluation *)

Definition default_min_role (name : string) (k : UpdateKind) : MemberRole :=
  let is_branch := starts_with "refs/heads/" name in
  let is_tag := starts_with "refs/tags/" name in
  match k with
  | Create => if is_branch || is_tag then Member else Admin
  | FastForward => if is_branch then Member else if is_tag then Admin else Admin
  | NonFastForward => Admin
  | Delete => Admin
  end.

(** One iteration of the loop of [EffectiveRules::for_ref]. *)
Definition for_ref_step (name : string) (acc : EffectiveRules) (rule : ProtectionRule)
  : option EffectiveRules :=
  m ← matches (pattern rule) name;
  Some (if (m : bool) then
    {| push_role := match rule_push_role rule with
                    | Some role => strictest (push_role acc) role
                    | None => push_role acc
                    end;
       no_force_push := no_force_push acc || rule_no_force_push rule;
       no_delete := no_delete acc || rule_no_delete rule;
       require_patch := require_patch acc || rule_require_patch rule;
       has_explicit_match := true |}
  else acc).

Fixpoint for_ref_loop (name : string) (rs : list ProtectionRule) (acc : EffectiveRules)
  : option EffectiveRules :=
  match rs with
  | [] => Some acc
  | r :: rs => acc' ← for_ref_step name acc r; for_ref_loop name rs acc'
  end.

Definition for_ref (name : string) (rs : list ProtectionRule) : option EffectiveRules :=
  for_ref_loop name rs
    {| push_role := None; no_force_push := false; no_delete := false;
       require_patch := false; has_explicit_match := false |}.

Definition evaluate_ref_update (update : RefUpdate) (role : MemberRole)
    (rs : list ProtectionRule) : option (result unit Denial) :=
  effective ← for_ref (ref_name update) rs;
  Some
    (if negb (has_explicit_match effective) then
       let min_role := default_min_role (ref_name update) (kind update) in
       if negb (has_at_least role min_role) then
         Err {| denial_ref := ref_name update;
                reason := "requires " +:+ MemberRoleOps.as_str min_role +:+ " role (you have "
                          +:+ MemberRoleOps.as_str role +:+ "), using built-in defaults" |}
       else Ok tt
     else if require_patch effective then
       Err {| denial_ref := ref_name update;
              reason := "direct push denied: require-patch is set, submit a NIP-34 patch" |}
     else
       let default_role := default_min_role (ref_name update) (kind update) in
       let min_role :=
         match push_role effective with
         | Some explicit =>
             if (permission_level default_role <=? permission_level explicit)%Z
             then explicit else default_role
         | None => default_role
         end in
       if negb (has_at_least role min_role) then
         Err {| denial_ref := ref_name update;
                reason := "requires " +:+ MemberRoleOps.as_str min_role +:+ " role (you have "
                          +:+ MemberRoleOps.as_str role +:+ ")" |}
       else if no_force_push effective && bool_decide (kind update = NonFastForward) then
         Err {| denial_ref := ref_name update;
                reason := "non-fast-forward update denied: no-force-push is set" |}
       else if no_delete effective && bool_decide (kind update = Delete) then
         Err {| denial_ref := ref_name update;
                reason := "ref deletion denied: no-delete is set" |}
       else Ok tt).

(** The [filter_map(|u| evaluate_ref_update(...).err()).collect()] *)
Fixpoint collect_denials (updates : list RefUpdate) (role : MemberRole)
    (rs : list ProtectionRule) : option (list Denial) :=
  match updates with
  | [] => Some []
  | u :: us =>
      r ← evaluate_ref_update u role rs;
      ds ← collect_denials us role rs;
      Some (match result_err r with Some d => d :: ds | None => ds end)
  end.

Definition evaluate_push (updates : list RefUpdate) (role : MemberRole)
    (rs : list ProtectionRule) : option (result unit (list Denial)) :=
  denials ← collect_denials updates role rs;
  Some (match denials with [] => Ok tt | _ => Err denials end).

(** ** The pattern grammar, declaratively *)

Definition segment_str (p : PatternSegment) : string :=
  match p with Literal s => s | Wildcard => "*" | RecursiveWildcard => "**" end.

Definition render (segs : list PatternSegment) : string :=
  join_with slash (segment_str <$> segs).

Definition segment_ok (p : PatternSegment) : Prop :=
  match p with
  | Literal s => s ≠ "" ∧ forallb literal_char (string_to_list s) = true
  | _ => True
  end.

Definition is_literal (p : PatternSegment) : bool :=
  match p with Literal _ => true | _ => false end.

(** Number of wildcard segments *)
Fixpoint wildcards (segs : list PatternSegment) : nat :=
  match segs with
  | [] => 0
  | p :: segs => (if is_literal p then 0 else 1) + wildcards segs
  end.

(** [segment ("/" segment)*] with [**] in last position only *)
Record segments_wf (segs : list PatternSegment) : Prop := {
  wf_ok : Forall segment_ok segs;
  wf_wildcards : wildcards segs ≤ MAX_WILDCARDS_PER_PATTERN;
  wf_recursive_last : ∀ i, segs !! i = Some RecursiveWildcard → i = length segs - 1
}.

(** What it means for a segment list to match the components of a ref:
    [*] stands for one component, a final [**] for one or more. *)
Inductive glob : list PatternSegment → list string → Prop :=
  | glob_nil : glob [] []
  | glob_literal s ps ss : glob ps ss → glob (Literal s :: ps) (s :: ss)
  | glob_wildcard s ps ss : glob ps ss → glob (Wildcard :: ps) (s :: ss)
  | glob_recursive s ss : glob [RecursiveWildcard] (s :: ss).

(** ** Lemmas on the parser *)

Lemma literal_char_not_special (c : Ascii.ascii) :
  literal_char c = true →
  c ≠ "*"%char ∧ c ≠ "?"%char ∧ c ≠ "["%char ∧ c ≠ "]"%char ∧ c ≠ slash.
Proof. intros H. repeat split; intros ->; by vm_compute in H. Qed.

Lemma literal_not_contains (c : Ascii.ascii) (s : string) :
  (∀ d, literal_char d = true → d ≠ c) →
  forallb literal_char (string_to_list s) = true → string_contains c s = false.
Proof.
  intros Hc. unfold string_contains. induction s as [|d s IH]; simpl; [done|].
  intros [Hd Hs]%andb_true_iff. rewrite (IH Hs), orb_false_r.
  apply Ascii.eqb_neq. intros <-. by apply (Hc c).
Qed.

Lemma literal_no_globs (s : string) :
  forallb literal_char (string_to_list s) = true →
  string_contains "*"%char s || string_contains "?"%char s
  || string_contains "["%char s || string_contains "]"%char s = false.
Proof.
  intros H. rewrite !orb_false_iff.
  repeat split; apply literal_not_contains; try done;
    intros d Hd%literal_char_not_special; tauto.
Qed.

Lemma segment_str_no_slash (p : PatternSegment) :
  segment_ok p → string_contains slash (segment_str p) = false.
Proof.
  destruct p as [s| |]; [|done..]. intros [_ H]. apply literal_not_contains; [|done].
  intros d Hd%literal_char_not_special; tauto.
Qed.

Lemma literal_not_stars (s : string) :
  segment_ok (Literal s) → s ≠ "" ∧ s ≠ "*" ∧ s ≠ "**".
Proof. intros [He Hs]. repeat split; [done| |]; intros ->; by vm_compute in Hs. Qed.

(** What the loop of [parse] pushes, from a state with [w] wildcards counted. *)
Definition parts_spec (n i w : nat) (parts : list string) (new : list PatternSegment) : Prop :=
  segment_str <$> new = parts ∧ Forall segment_ok new ∧
  w + wildcards new ≤ MAX_WILDCARDS_PER_PATTERN ∧
  (∀ j, new !! j = Some RecursiveWildcard → i + j = n - 1).

Lemma parts_spec_cons (n i w : nat) (p : PatternSegment) (parts : list string)
    (new : list PatternSegment) :
  segment_ok p → (p = RecursiveWildcard → i = n - 1) →
  parts_spec n (i + 1) (w + if is_literal p then 0 else 1) parts new →
  parts_spec n i w (segment_str p :: parts) (p :: new).
Proof.
  intros Hp Hi (Hstr & Hok & Hw & Hrec). repeat split.
  - by rewrite fmap_cons, Hstr.
  - by constructor.
  - simpl. lia.
  - intros [|j]; simpl; [|intros Hj%Hrec; lia]. intros [= Hpr]. rewrite (Hi Hpr). lia.
Qed.

Lemma parts_spec_inv (n i w : nat) (part : string) (parts : list string)
    (new : list PatternSegment) :
  parts_spec n i w (part :: parts) new →
  ∃ p new', new = p :: new' ∧ part = segment_str p ∧ segment_ok p ∧
    (p = RecursiveWildcard → i = n - 1) ∧
    parts_spec n (i + 1) (w + if is_literal p then 0 else 1) parts new'.
Proof.
  intros (Hstr & Hok & Hw & Hrec). destruct new as [|p new']; [done|].
  simpl in Hstr. injection Hstr as Hp Hstr.
  inversion Hok as [|?? Hpok Hok']; subst. exists p, new'. repeat split; try done.
  - intros ->. specialize (Hrec 0 eq_refl). lia.
  - simpl in Hw. lia.
  - intros j Hj. specialize (Hrec (S j) Hj). lia.
Qed.

Lemma parse_parts_sound (n : nat) (parts : list string) (i w : nat)
    (segs out : list PatternSegment) :
  w ≤ MAX_WILDCARDS_PER_PATTERN →
  parse_parts n i w parts segs = Ok out →
  ∃ new, out = segs ++ new ∧ parts_spec n i w parts new.
Proof.
  revert i w segs. induction parts as [|part parts IH]; intros i w segs Hw; simpl.
  { intros [= <-]. exists []. rewrite app_nil_r. repeat split; [by constructor|simpl; lia|done]. }
  intros H.
  assert (∃ p, part = segment_str p ∧ segment_ok p ∧ (p = RecursiveWildcard → i = n - 1) ∧
    w + (if is_literal p then 0 else 1) ≤ MAX_WILDCARDS_PER_PATTERN ∧
    parse_parts n (i + 1) (w + if is_literal p then 0 else 1) parts (segs ++ [p]) = Ok out)
    as (p & -> & Hok & Hrec & Hw' & Hrun).
  { repeat case_decide.
    - destruct (i =? n - 1)%nat eqn:Hi; [|done]. apply Nat.eqb_eq in Hi.
      destruct (Nat.ltb_spec MAX_WILDCARDS_PER_PATTERN (w + 1)); [done|]. by exists RecursiveWildcard.
    - destruct (Nat.ltb_spec MAX_WILDCARDS_PER_PATTERN (w + 1)); [done|]. by exists Wildcard.
    - done.
    - destruct (_ || _); [done|]. destruct (forallb _ _) eqn:Hf; [|done].
      exists (Literal part). simpl. rewrite Nat.add_0_r. done. }
  apply IH in Hrun as (new & -> & Hnew); [|done]. exists (p :: new).
  split; [by rewrite <- app_assoc|]. by apply parts_spec_cons.
Qed.

Lemma parse_parts_complete (n : nat) (parts : list string) (i w : nat)
    (segs new : list PatternSegment) :
  parts_spec n i w parts new → parse_parts n i w parts segs = Ok (segs ++ new).
Proof.
  revert i w segs new. induction parts as [|part parts IH]; intros i w segs new H.
  { destruct H as (Hstr & _). destruct new; [|done]. by rewrite app_nil_r. }
  apply parts_spec_inv in H as (p & new' & -> & -> & Hok & Hrec & H).
  assert (w + (if is_literal p then 0 else 1) ≤ MAX_WILDCARDS_PER_PATTERN) as Hw.
  { destruct H as (_ & _ & H & _). lia. }
  apply (IH _ _ (segs ++ [p])) in H. rewrite <- app_assoc in H.
  destruct p as [s| |]; simpl in *.
  - destruct (literal_not_stars s Hok) as (? & ? & ?). destruct Hok as [_ Hs].
    rewrite !decide_False by done. rewrite literal_no_globs, Hs by done.
    by rewrite Nat.add_0_r in H.
  - destruct (Nat.ltb_spec MAX_WILDCARDS_PER_PATTERN (w + 1)); [lia|done].
  - rewrite Hrec, Nat.eqb_refl by done. simpl. rewrite <- Hrec by done.
    destruct (Nat.ltb_spec MAX_WILDCARDS_PER_PATTERN (w + 1)); [lia|done].
Qed.

Lemma render_split (segs : list PatternSegment) :
  segs ≠ [] → Forall segment_ok segs → split_on slash (render segs) = segment_str <$> segs.
Proof.
  intros Hne Hok. apply split_join; [by destruct segs|].
  apply Forall_fmap. eapply Forall_impl; [done|]. apply segment_str_no_slash.
Qed.

(** ** Lemmas on the matcher *)

Definition segment_match (p : PatternSegment) (s : string) : Prop :=
  match p with Literal lit => lit = s | Wildcard => True | RecursiveWildcard => False end.

Definition no_recursive (ps : list PatternSegment) : Prop := RecursiveWildcard ∉ ps.

Lemma no_recursive_cons (p : PatternSegment) (ps : list PatternSegment) :
  no_recursive (p :: ps) ↔ p ≠ RecursiveWildcard ∧ no_recursive ps.
Proof. unfold no_recursive. rewrite not_elem_of_cons. naive_solver. Qed.

Lemma zip_all_spec (ps : list PatternSegment) (ss : list string) :
  no_recursive ps → length ps = length ss →
  ∃ b, zip_all ps ss = Some b ∧ (b = true ↔ Forall2 segment_match ps ss).
Proof.
  revert ss. induction ps as [|p ps IH]; intros [|s ss] Hnr Hlen; try done.
  { exists true. split; [done|]. split; [constructor|done]. }
  apply no_recursive_cons in Hnr as [Hp Hnr]. simpl in Hlen.
  destruct (IH ss Hnr) as (b & Hz & Hb); [lia|].
  destruct p as [lit| |]; [|by exists b; split; [|rewrite Forall2_cons; naive_solver]|done].
  destruct (decide (lit = s)) as [->|Hne]; simpl.
  - exists b. rewrite bool_decide_eq_true_2 by done. split; [done|].
    rewrite Forall2_cons. naive_solver.
  - exists false. rewrite bool_decide_eq_false_2 by done. split; [done|].
    split; [done|]. by intros [? _]%Forall2_cons.
Qed.

Lemma glob_no_recursive (ps : list PatternSegment) (ss : list string) :
  no_recursive ps → glob ps ss ↔ Forall2 segment_match ps ss.
Proof.
  revert ss. induction ps as [|p ps IH]; intros ss Hnr.
  { split; [by inversion 1|]. inversion 1. constructor. }
  apply no_recursive_cons in Hnr as [Hp Hnr]. split.
  - inversion 1; subst; try done; constructor; try done; by apply IH.
  - intros Hf. inversion Hf as [|? s ? ss' Hm Hrest]; subst.
    apply (IH _ Hnr) in Hrest. destruct p; simpl in Hm; subst; [by apply glob_literal|by apply glob_wildcard|done].
Qed.

Lemma glob_recursive_last (ps : list PatternSegment) (ss : list string) :
  no_recursive ps →
  glob (ps ++ [RecursiveWildcard]) ss ↔
  length ps < length ss ∧ Forall2 segment_match ps (take (length ps) ss).
Proof.
  revert ss. induction ps as [|p ps IH]; intros ss Hnr; simpl.
  { split; [inversion 1; subst; simpl; split; [lia|constructor]|].
    intros [Hl _]. destruct ss; simpl in Hl; [lia|constructor]. }
  apply no_recursive_cons in Hnr as [Hp Hnr].
  destruct ss as [|s ss]; [split; [inversion 1|simpl; lia]|].
  simpl. rewrite Forall2_cons. split.
  - inversion 1; subst; try done; rewrite IH in * by done; simpl; intuition lia.
  - intros [Hl [Hm Hf]]. assert (glob (ps ++ [RecursiveWildcard]) ss) as Hg.
    { apply IH; [done|]. split; [lia|done]. }
    destruct p; simpl in Hm; subst; [by apply glob_literal|by apply glob_wildcard|done].
Qed.

(** A well-formed segment list is free of [**], or ends in its only [**]. *)
Lemma segments_wf_shape (segs : list PatternSegment) :
  segments_wf segs →
  (no_recursive segs ∧ last segs ≠ Some RecursiveWildcard) ∨
  ∃ pre, segs = pre ++ [RecursiveWildcard] ∧ no_recursive pre.
Proof.
  intros [_ _ Hrec].
  assert (∀ pre x, segs = pre ++ [x] → no_recursive pre) as Hpre.
  { intros pre x -> (i & Hi)%list_elem_of_lookup.
    assert (i = length pre) as ->.
    { rewrite (Hrec i), length_app by (by apply lookup_app_l_Some). simpl. lia. }
    apply lookup_lt_Some in Hi. lia. }
  destruct segs as [|x pre _] using rev_ind.
  { left. split; [apply not_elem_of_nil|done]. }
  specialize (Hpre pre x eq_refl). destruct (decide (x = RecursiveWildcard)) as [->|Hne].
  - right. by exists pre.
  - left. rewrite last_snoc. split; [|congruence].
    unfold no_recursive in *. rewrite elem_of_app, list_elem_of_singleton. naive_solver.
Qed.

(** The matcher on a well-formed pattern: it returns, with the meaning of [glob]. *)
Lemma matches_spec (p : RefPattern) (name : string) :
  segments_wf (segments p) →
  ∃ b, matches p name = Some b ∧ (b = true ↔ glob (segments p) (split_on slash name)).
Proof.
  intros Hwf. unfold matches. set (ss := split_on slash name).
  destruct (segments_wf_shape _ Hwf) as [[Hnr Hlast]|(pre & Heq & Hnr)].
  - setoid_rewrite (glob_no_recursive (segments p) ss Hnr).
    assert (∃ b, (if negb (length ss =? length (segments p))%nat then Some false
        else zip_all (segments p) ss) = Some b ∧
        (b = true ↔ Forall2 segment_match (segments p) ss)) as Hgoal.
    { destruct (Nat.eqb_spec (length ss) (length (segments p))) as [He|Hne]; simpl.
      - by apply zip_all_spec.
      - exists false. split; [done|]. split; [done|]. by intros ?%Forall2_length. }
    by destruct (last (segments p)) as [[]|].
  - rewrite Heq, last_snoc, length_app. setoid_rewrite (glob_recursive_last pre ss Hnr). simpl.
    replace (length pre + 1 - 1) with (length pre) by lia. rewrite take_app_length.
    destruct (Nat.leb_spec (length ss) (length pre)).
    { exists false. split; [done|]. split; [done|lia]. }
    destruct (zip_all_spec pre (take (length pre) ss)) as (b & Hz & Hb); [done| |].
    { rewrite length_take. lia. }
    exists b. split; [done|]. rewrite Hb. naive_solver lia.
Qed.

(** What [parse] returns. *)
Lemma parse_Ok (s : string) (p : RefPattern) :
  parse s = Ok p ↔
  raw p = s ∧ render (segments p) = s ∧ segments p ≠ [] ∧ segments_wf (segments p) ∧
  starts_with "refs/" s = true ∧ String.length s ≤ MAX_PATTERN_LENGTH.
Proof.
  unfold parse. split.
  - case_decide as Hs; [done|].
    destruct (Nat.ltb_spec MAX_PATTERN_LENGTH (String.length s)); [done|].
    destruct (starts_with "refs/" s) eqn:Hpre; [|done]. simpl.
    destruct (parse_parts _ _ _ _ _) as [segs|] eqn:Hp; [|done]. intros [= <-]; simpl.
    apply parse_parts_sound in Hp as (new & -> & Hstr & Hok & Hw & Hrec); [|lia]. simpl.
    assert (length new = length (split_on slash s)) as Hlen.
    { by rewrite <- Hstr, length_fmap. }
    repeat split; try done.
    + unfold render. rewrite Hstr. apply join_split.
    + intros ->. pose proof (split_on_not_nil slash s). by rewrite <- Hstr in *.
    + intros i Hi. apply Hrec in Hi. lia.
  - intros (Hraw & Hren & Hne & [Hok Hw Hrec] & Hpre & Hlen).
    assert (s ≠ "") by (intros ->; done). rewrite decide_False by done.
    destruct (Nat.ltb_spec MAX_PATTERN_LENGTH (String.length s)); [lia|].
    rewrite Hpre. simpl.
    assert (split_on slash s = segment_str <$> segments p) as Hsplit.
    { rewrite <- Hren. by apply render_split. }
    rewrite (parse_parts_complete _ _ _ _ _ (segments p)).
    + simpl. destruct p; simpl in *. by subst.
    + repeat split; try done. intros j Hj%Hrec. rewrite Hsplit, length_fmap. lia.
Qed.

Lemma parse_segments_wf (s : string) (p : RefPattern) :
  parse s = Ok p → segments_wf (segments p).
Proof. rewrite parse_Ok. naive_solver. Qed.

#[export] Hint Resolve parse_segments_wf : buzz.

(** ** The policy, declaratively *)

(** Rules as [parse_protection_tags] produces them: their patterns were parsed. *)
Definition rules_wf (rs : list ProtectionRule) : Prop :=
  Forall (λ r, segments_wf (segments (pattern r))) rs.

(** The rule's pattern covers the ref. *)
Definition applies (name : string) (r : ProtectionRule) : Prop :=
  glob (segments (pattern r)) (split_on slash name).

(** An update is allowed when the pusher has the built-in role for it and every
    rule that covers the ref lets it through. *)
Record update_allowed (u : RefUpdate) (role : MemberRole) (rs : list ProtectionRule) : Prop := {
  ua_default : has_at_least role (default_min_role (ref_name u) (kind u)) = true;
  ua_patch : ∀ r, r ∈ rs → applies (ref_name u) r → rule_require_patch r = false;
  ua_role : ∀ r m, r ∈ rs → applies (ref_name u) r → rule_push_role r = Some m →
            has_at_least role m = true;
  ua_force : ∀ r, r ∈ rs → applies (ref_name u) r → rule_no_force_push r = true →
             kind u ≠ NonFastForward;
  ua_delete : ∀ r, r ∈ rs → applies (ref_name u) r → rule_no_delete r = true →
              kind u ≠ Delete
}.

(** ** Lemmas on the union of rules *)

Definition rule_matches (name : string) (r : ProtectionRule) : bool :=
  default false (matches (pattern r) name).

Lemma rule_matches_Some (name : string) (r : ProtectionRule) :
  segments_wf (segments (pattern r)) →
  matches (pattern r) name = Some (rule_matches name r) ∧
  (rule_matches name r = true ↔ applies name r).
Proof.
  intros Hwf. destruct (matches_spec (pattern r) name Hwf) as (b & Hm & Hb).
  unfold rule_matches. by rewrite Hm.
Qed.

Definition matching (name : string) (rs : list ProtectionRule) : list ProtectionRule :=
  List.filter (rule_matches name) rs.

Definition strictest_of (roles : list MemberRole) (init : option MemberRole) : option MemberRole :=
  foldl strictest init roles.

(** [for_ref] as folds over the rules that match. *)
Definition union_rules (ms : list ProtectionRule) (acc : EffectiveRules) : EffectiveRules :=
  {| push_role := strictest_of (omap rule_push_role ms) (push_role acc);
     no_force_push := no_force_push acc || existsb rule_no_force_push ms;
     no_delete := no_delete acc || existsb rule_no_delete ms;
     require_patch := require_patch acc || existsb rule_require_patch ms;
     has_explicit_match := has_explicit_match acc || negb (bool_decide (ms = [])) |}.

Lemma for_ref_loop_union (name : string) (rs : list ProtectionRule) (acc : EffectiveRules) :
  rules_wf rs → for_ref_loop name rs acc = Some (union_rules (matching name rs) acc).
Proof.
  intros Hwf. revert acc. induction Hwf as [|r rs Hr Hwf IH]; intros acc; simpl.
  { unfold union_rules. simpl. rewrite !orb_false_r. by destruct acc. }
  destruct (rule_matches_Some name r Hr) as [Hm _].
  unfold for_ref_step. rewrite Hm. simpl. rewrite IH. clear IH. f_equal.
  destruct (rule_matches name r); [|done]. unfold union_rules. simpl.
  rewrite !orb_assoc, orb_true_r.
  by destruct (rule_push_role r).
Qed.

Lemma for_ref_union (name : string) (rs : list ProtectionRule) :
  rules_wf rs →
  for_ref name rs = Some (union_rules (matching name rs)
    {| push_role := None; no_force_push := false; no_delete := false;
       require_patch := false; has_explicit_match := false |}).
Proof. apply for_ref_loop_union. Qed.

Lemma elem_of_matching (name : string) (rs : list ProtectionRule) (r : ProtectionRule) :
  rules_wf rs → r ∈ matching name rs ↔ r ∈ rs ∧ applies name r.
Proof.
  intros Hwf. unfold matching. rewrite !list_elem_of_In, filter_In, <- list_elem_of_In.
  unfold rules_wf in Hwf. rewrite Forall_forall in Hwf.
  split; intros [Hin Happ]; (split; [done|]); by apply (rule_matches_Some name r (Hwf r Hin)).
Qed.

(** A role passes the strictest of a list of requirements when it passes all. *)
Lemma strictest_level (e : option MemberRole) (m role : MemberRole) :
  (∀ x, strictest e m = Some x → has_at_least role x = true) ↔
  (∀ x, e = Some x → has_at_least role x = true) ∧ has_at_least role m = true.
Proof.
  unfold strictest. destruct e as [e|]; [|naive_solver].
  destruct (Z.ltb_spec (permission_level e) (permission_level m));
    rewrite !has_at_least_spec; split.
  - intros Hall. specialize (Hall m eq_refl). apply has_at_least_spec in Hall.
    split; [intros ? [= <-]; apply has_at_least_spec; lia|lia].
  - intros [_ ?] ? [= <-]. by apply has_at_least_spec.
  - intros Hall. specialize (Hall e eq_refl). split; [naive_solver|].
    apply has_at_least_spec in Hall. lia.
  - intros [Hall _] ? [= <-]. naive_solver.
Qed.

Lemma strictest_of_level (roles : list MemberRole) (init : option MemberRole) (role : MemberRole) :
  (∀ x, strictest_of roles init = Some x → has_at_least role x = true) ↔
  (∀ x, init = Some x → has_at_least role x = true) ∧
  (∀ m, m ∈ roles → has_at_least role m = true).
Proof.
  revert init. induction roles as [|m roles IH]; intros init; simpl.
  { set_solver. }
  unfold strictest_of in *. simpl. rewrite IH, strictest_level. set_solver.
Qed.

(** The [min_role] of [evaluate_ref_update]: explicit and default, the higher. *)
Lemma min_role_spec (role d : MemberRole) (e : option MemberRole) :
  has_at_least role
    (match e with
     | Some x => if (permission_level d <=? permission_level x)%Z then x else d
     | None => d
     end) = true ↔
  has_at_least role d = true ∧ (∀ x, e = Some x → has_at_least role x = true).
Proof.
  destruct e as [x|]; [|naive_solver].
  destruct (Z.leb_spec (permission_level d) (permission_level x));
    rewrite !has_at_least_spec; (split; [intros ?; split; [lia|]|]).
  - intros ? [= <-]. by apply has_at_least_spec.
  - intros [_ Hx]. apply has_at_least_spec. naive_solver.
  - intros ? [= <-]. apply has_at_least_spec. lia.
  - tauto.
Qed.

Lemma existsb_false {A} (f : A → bool) (l : list A) :
  existsb f l = false ↔ ∀ x, x ∈ l → f x = false.
Proof.
  induction l as [|a l IH]; simpl; [set_solver|].
  rewrite orb_false_iff, IH. set_solver.
Qed.

(** The decision of [evaluate_ref_update], on the effective rules. *)
Definition effective_allows (e : EffectiveRules) (u : RefUpdate) (role : MemberRole) : Prop :=
  has_at_least role (default_min_role (ref_name u) (kind u)) = true ∧
  (has_explicit_match e = true →
   require_patch e = false ∧ (∀ x, push_role e = Some x → has_at_least role x = true) ∧
   (no_force_push e = true → kind u ≠ NonFastForward) ∧
   (no_delete e = true → kind u ≠ Delete)).

Lemma evaluate_effective (u : RefUpdate) (role : MemberRole) (rs : list ProtectionRule)
    (e : EffectiveRules) :
  for_ref (ref_name u) rs = Some e →
  ∃ res, evaluate_ref_update u role rs = Some res ∧
    (res = Ok tt ↔ effective_allows e u role) ∧
    (∀ d, res = Err d → denial_ref d = ref_name u).
Proof.
  intros He. unfold evaluate_ref_update. rewrite He. simpl. eexists. split; [done|].
  unfold effective_allows. destruct (has_explicit_match e); simpl; last first.
  { destruct (has_at_least role _); simpl; naive_solver. }
  destruct (require_patch e); [naive_solver|].
  pose proof (min_role_spec role (default_min_role (ref_name u) (kind u)) (push_role e)) as Hmin.
  destruct (has_at_least role (match push_role e with _ => _ end)); simpl; [|naive_solver].
  destruct Hmin as [Hmin _]. specialize (Hmin eq_refl) as [Hd Hx].
  destruct (no_force_push e), (no_delete e); simpl; repeat case_bool_decide; naive_solver.
Qed.

Lemma evaluate_ref_update_spec (u : RefUpdate) (role : MemberRole) (rs : list ProtectionRule) :
  rules_wf rs →
  ∃ res, evaluate_ref_update u role rs = Some res ∧
    (res = Ok tt ↔ update_allowed u role rs) ∧
    (∀ d, res = Err d → denial_ref d = ref_name u).
Proof.
  intros Hwf. destruct (evaluate_effective u role rs _ (for_ref_union _ _ Hwf)) as (res & Hr & Hok & Hd).
  exists res. split; [done|]. split; [|done]. rewrite Hok. clear Hok.
  pose proof (λ r, elem_of_matching (ref_name u) rs r Hwf) as Hin.
  unfold effective_allows, union_rules. simpl.
  set (ms := matching (ref_name u) rs) in *.
  rewrite strictest_of_level, existsb_false.
  setoid_rewrite list_elem_of_omap.
  setoid_rewrite <- not_false_iff_true. setoid_rewrite existsb_false. split.
  - intros [Hdef Hexp]. destruct (decide (ms = [])) as [Hms|Hms].
    { rewrite Hms in Hin. split; [by apply not_false_iff_true|..];
        intros r; intros; exfalso; eapply not_elem_of_nil, Hin; eauto. }
    destruct Hexp as (Hp & [_ Hrole] & Hf & Hdel).
    { by rewrite bool_decide_eq_false_2. }
    split; [by apply not_false_iff_true|..].
    + intros r Hr1 Hr2. by apply Hp, Hin.
    + intros r m Hr1 Hr2 Hm. apply not_false_iff_true, Hrole. exists r. by rewrite Hin.
    + intros r Hr1 Hr2 Hm. apply Hf. intros Hall. rewrite (Hall r) in Hm; [done|by apply Hin].
    + intros r Hr1 Hr2 Hm. apply Hdel. intros Hall. rewrite (Hall r) in Hm; [done|by apply Hin].
  - intros [Hdef Hp Hrole Hf Hdel]. split; [by apply not_false_iff_true|]. intros _.
    split; [intros r [? ?]%Hin; eauto|]. split.
    { split; [done|]. intros m (r & [? ?]%Hin & ?). apply not_false_iff_true. eauto. }
    split; intros Hex Hk; apply Hex; intros r [? ?]%Hin; apply not_true_iff_false; intros ?;
      [by eapply Hf|by eapply Hdel].
Qed.

Lemma collect_denials_spec (us : list RefUpdate) (role : MemberRole) (rs : list ProtectionRule) :
  rules_wf rs →
  ∃ ds, collect_denials us role rs = Some ds ∧
    (∀ n, n ∈ denial_ref <$> ds ↔ ∃ u, u ∈ us ∧ ref_name u = n ∧ ¬ update_allowed u role rs).
Proof.
  intros Hwf. induction us as [|u us IH]; simpl.
  { exists []. split; [done|]. set_solver. }
  destruct IH as (ds & -> & Hds).
  destruct (evaluate_ref_update_spec u role rs Hwf) as (res & -> & Hok & Hd). simpl.
  destruct res as [[]|d]; simpl.
  - exists ds. split; [done|]. intros n. rewrite Hds.
    assert (update_allowed u role rs) by (by apply Hok). set_solver.
  - exists (d :: ds). split; [done|]. intros n. rewrite fmap_cons, elem_of_cons, Hds, (Hd d) by done.
    assert (¬ update_allowed u role rs) by (intros Hu; by apply Hok in Hu). set_solver.
Qed.

Lemma evaluate_push_Ok (us : list RefUpdate) (role : MemberRole) (rs : list ProtectionRule) :
  rules_wf rs →
  evaluate_push us role rs = Some (Ok tt) ↔ ∀ u, u ∈ us → update_allowed u role rs.
Proof.
  intros Hwf. unfold evaluate_push.
  destruct (collect_denials_spec us role rs Hwf) as (ds & -> & Hds). simpl.
  split.
  - intros Hnil u Hu. destruct ds; [|done].
    destruct (evaluate_ref_update_spec u role rs Hwf) as (res & _ & Hok & _).
    apply Hok. destruct res as [[]|d]; [done|]. exfalso.
    apply (not_elem_of_nil (ref_name u)), Hds. exists u. rewrite <- Hok. naive_solver.
  - intros Hall. destruct ds as [|d ds]; [done|]. exfalso.
    destruct (proj1 (Hds (denial_ref d))) as (u & ? & ? & Hna); [by left|]. eauto.
Qed.

(** ** Lemmas on tag parsing *)

Lemma parse_rule_strs_pattern (strs : list string) (acc r : ProtectionRule)
    (unk unk' : list string) :
  parse_rule_strs strs acc unk = Ok (r, unk') → pattern r = pattern acc.
Proof.
  revert acc unk. induction strs as [|s strs IH]; intros acc unk; simpl; [by intros [= <- <-]|].
  destruct (strip_prefix "push:" s) as [rs|].
  - destruct (from_str rs) as [role|]; simpl; [|done].
    destruct role; try done; intros H; by apply IH in H.
  - repeat case_decide; intros Hrun; by apply IH in Hrun.
Qed.

(** A rule's minimum role is never [Bot] or [Guest]. *)
Definition push_role_ok (o : option MemberRole) : Prop := o ≠ Some Bot ∧ o ≠ Some Guest.

Lemma strictest_ok (e : option MemberRole) (m : MemberRole) :
  push_role_ok e → m ≠ Bot → m ≠ Guest → push_role_ok (strictest e m).
Proof.
  unfold push_role_ok, strictest. intros [] ? ?.
  destruct e; [case_match|]; split; congruence.
Qed.

Lemma parse_rule_strs_role (strs : list string) (acc r : ProtectionRule)
    (unk unk' : list string) :
  push_role_ok (rule_push_role acc) →
  parse_rule_strs strs acc unk = Ok (r, unk') → push_role_ok (rule_push_role r).
Proof.
  revert acc unk. induction strs as [|s strs IH]; intros acc unk Hok; simpl.
  { by intros [= <- <-]. }
  destruct (strip_prefix "push:" s) as [rs|].
  - destruct (from_str rs) as [role|]; simpl; [|done].
    destruct role; try done; intros H; (apply IH in H; [done|]); by apply strictest_ok.
  - repeat case_decide; intros Hrun; by apply IH in Hrun.
Qed.

Lemma parse_tag_wf (values : list string) (r : ProtectionRule) (unk : list string) :
  parse_protection_tag_with_warnings values = Ok (r, unk) →
  segments_wf (segments (pattern r)) ∧ push_role_ok (rule_push_role r).
Proof.
  unfold parse_protection_tag_with_warnings. destruct values as [|v0 [|v1 vs]]; try done.
  destruct (parse v0) as [p|] eqn:Hp; [|done]. cbn [map_err]. intros H. split.
  - apply parse_rule_strs_pattern in H. rewrite H. eauto with buzz.
  - by eapply parse_rule_strs_role; [|exact H].
Qed.

Lemma parse_tags_loop_spec (tags : list (list string)) (acc pp : ParsedProtection) :
  rules_wf (rules acc) → Forall (push_role_ok ∘ rule_push_role) (rules acc) →
  length (rules acc) ≤ MAX_PROTECTION_RULES →
  parse_tags_loop tags acc = Ok pp →
  rules_wf (rules pp) ∧ Forall (push_role_ok ∘ rule_push_role) (rules pp) ∧
  length (rules pp) ≤ MAX_PROTECTION_RULES ∧
  length (rules pp) = length (rules acc) +
    length (List.filter (λ t, bool_decide (head t = Some "buzz-protect")) tags).
Proof.
  revert acc. induction tags as [|tag tags IH]; intros acc Hwf Hrole Hlen;
    cbn [parse_tags_loop List.filter].
  { intros [= <-]. simpl. repeat split; [done..|lia]. }
  case_decide as Ht; [rewrite bool_decide_eq_true_2 by done|rewrite bool_decide_eq_false_2 by done];
    [|by apply IH].
  destruct (Nat.leb_spec MAX_PROTECTION_RULES (length (rules acc))); [done|].
  destruct (parse_protection_tag_with_warnings (tail tag)) as [[r unk]|] eqn:Hp; [|done].
  apply parse_tag_wf in Hp as [Hrwf Hrrole]. intros Hrun. apply IH in Hrun; cbn [rules fst] in *.
  - rewrite length_app in Hrun. simpl in *. intuition lia.
  - by apply Forall_app_2; [|constructor].
  - by apply Forall_app_2; [|constructor].
  - rewrite length_app. simpl. lia.
Qed.

Lemma parse_protection_tags_wf (tags : list (list string)) (pp : ParsedProtection) :
  parse_protection_tags tags = Ok pp → rules_wf (rules pp).
Proof. intros H. by apply parse_tags_loop_spec in H; [destruct H|constructor..|simpl; lia]. Qed.

#[export] Hint Resolve parse_protection_tags_wf : buzz.

(** ** Order of the rules *)

Lemma strictest_comm (e : option MemberRole) (a b : MemberRole) :
  strictest (strictest e a) b = strictest (strictest e b) a.
Proof. by destruct e as [[]|], a, b. Qed.

Lemma union_rules_app (ms ms' : list ProtectionRule) (acc : EffectiveRules) :
  union_rules (ms ++ ms') acc = union_rules ms' (union_rules ms acc).
Proof.
  unfold union_rules, strictest_of. simpl. rewrite omap_app, foldl_app, !existsb_app, !orb_assoc.
  f_equal. rewrite <- orb_assoc. f_equal. by destruct ms, ms'.
Qed.

Lemma union_rules_swap (a b : ProtectionRule) (acc : EffectiveRules) :
  union_rules [a; b] acc = union_rules [b; a] acc.
Proof.
  unfold union_rules, strictest_of; simpl.
  assert (foldl strictest (push_role acc)
            (omap rule_push_role [a; b]) =
          foldl strictest (push_role acc)
            (omap rule_push_role [b; a])) as Hrole.
  { simpl. destruct (rule_push_role a), (rule_push_role b); simpl; try done.
    apply strictest_comm. }
  simpl in Hrole. rewrite Hrole. f_equal; btauto.
Qed.

#[export] Instance union_rules_proper :
  Proper ((≡ₚ) ==> (=) ==> (=)) union_rules.
Proof.
  intros ms ms' Hp acc ? <-. revert acc.
  induction Hp as [|x l l' _ IH|x y l|l l' l'' _ IH1 _ IH2]; intros acc; [done|..].
  - change (x :: l) with ([x] ++ l). change (x :: l') with ([x] ++ l').
    by rewrite !union_rules_app.
  - change (y :: x :: l) with ([y; x] ++ l). change (x :: y :: l) with ([x; y] ++ l).
    by rewrite !(union_rules_app [_; _]), union_rules_swap.
  - by rewrite IH1.
Qed.

#[export] Instance matching_proper (name : string) :
  Proper ((≡ₚ) ==> (≡ₚ)) (matching name).
Proof.
  intros rs rs' Hp. unfold matching.
  induction Hp as [|x l l' _ IH|x y l|l l' l'' _ IH1 _ IH2]; simpl; [done|..].
  - destruct (rule_matches name x); by rewrite ?IH.
  - destruct (rule_matches name x), (rule_matches name y); try done. by apply Permutation_swap.
  - by rewrite IH1.
Qed.

Lemma for_ref_perm (name : string) (rs rs' : list ProtectionRule) :
  rules_wf rs → rs ≡ₚ rs' → for_ref name rs = for_ref name rs'.
Proof.
  intros Hwf Hp. assert (rules_wf rs') by (unfold rules_wf; by rewrite <- Hp).
  rewrite !for_ref_union by done. by rewrite Hp.
Qed.

Lemma collect_denials_perm (us : list RefUpdate) (role : MemberRole)
    (rs rs' : list ProtectionRule) :
  rules_wf rs → rs ≡ₚ rs' → collect_denials us role rs = collect_denials us role rs'.
Proof.
  intros Hwf Hp. induction us as [|u us IH]; simpl; [done|].
  unfold evaluate_ref_update at 1 2. by rewrite (for_ref_perm _ rs rs'), IH.
Qed.

(** ** Properties *)

(** [RefPattern::parse] accepts exactly the strings of the documented
    grammar (a [refs/] path of at most 256 bytes, literal or [*] segments, at
    most three wildcards, [**] only at the end) and returns their segments:
    printing the segments gives the string back. *)
Theorem parse_exact (s : string) (p : RefPattern) :
  parse s = Ok p ↔
  raw p = s ∧ render (segments p) = s ∧ segments p ≠ [] ∧ segments_wf (segments p) ∧
  starts_with "refs/" s = true ∧ String.length s ≤ MAX_PATTERN_LENGTH.
Proof. apply parse_Ok. Qed.

(** A parsed pattern never reaches an [unreachable!()] of [matches], and
    [matches] decides the declarative meaning of the pattern: [*] for one path
    component, a final [**] for one or more. *)
Theorem matches_total (s name : string) (p : RefPattern) :
  parse s = Ok p →
  ∃ b, matches p name = Some b ∧ (b = true ↔ glob (segments p) (split_on slash name)).
Proof. intros Hp. apply matches_spec. eauto with buzz. Qed.

Lemma matches_total_witness :
  ∃ p b, parse "refs/heads/**" = Ok p ∧ matches p "refs/heads/a/b" = Some b ∧
    (b = true ↔ glob (segments p) (split_on slash "refs/heads/a/b")).
Proof.
  eexists {| raw := _; segments := [Literal "refs"; Literal "heads"; RecursiveWildcard] |}.
  assert (parse "refs/heads/**" =
    Ok {| raw := "refs/heads/**"; segments := [Literal "refs"; Literal "heads"; RecursiveWildcard] |})
    as Hp by (vm_compute; reflexivity).
  destruct (matches_total "refs/heads/**" "refs/heads/a/b" _ Hp) as (b & Hb & Hglob).
  exists b. split; [exact Hp|]. split; [exact Hb|exact Hglob].
Defined.

(** C28 With the rules of an announcement that parsed, [evaluate_push] returns,
    accepts a push exactly when every update satisfies the declarative policy,
    and otherwise reports a denial for exactly the refs of the updates that
    violate it (a push is atomic). *)
Theorem evaluate_push_correct (tags : list (list string)) (pp : ParsedProtection)
    (us : list RefUpdate) (role : MemberRole) :
  parse_protection_tags tags = Ok pp →
  ∃ res, evaluate_push us role (rules pp) = Some res ∧
    (res = Ok tt ↔ ∀ u, u ∈ us → update_allowed u role (rules pp)) ∧
    (∀ ds, res = Err ds → ds ≠ [] ∧ ∀ n, n ∈ denial_ref <$> ds ↔
       ∃ u, u ∈ us ∧ ref_name u = n ∧ ¬ update_allowed u role (rules pp)).
Proof.
  intros Hp%parse_protection_tags_wf.
  pose proof (evaluate_push_Ok us role (rules pp) Hp) as Hok. unfold evaluate_push in *.
  destruct (collect_denials_spec us role (rules pp) Hp) as (ds & Hc & Hds).
  rewrite Hc in *. simpl in *. eexists. split; [done|]. split; [rewrite <- Hok; split; congruence|].
  intros ds' Hds'. destruct ds; simplify_eq. by split.
Qed.

(** Adding protection rules never turns a denied push into an allowed one:
    if the push passes under the larger rule set it passes under the smaller.
    In particular an explicit [push:<role>] can only raise the built-in default. *)
Theorem more_rules_never_weaken (us : list RefUpdate) (role : MemberRole)
    (rs rs' : list ProtectionRule) :
  rules_wf rs' → rs ⊆ rs' →
  evaluate_push us role rs' = Some (Ok tt) → evaluate_push us role rs = Some (Ok tt).
Proof.
  intros Hwf' Hsub.
  assert (rules_wf rs) as Hwf.
  { unfold rules_wf in *. rewrite Forall_forall in *. eauto. }
  rewrite !evaluate_push_Ok by done. intros Hall u Hu.
  destruct (Hall u Hu) as [? ? ? ? ?]. split; eauto.
Qed.

(** The outcome of a push, denial reasons included, does not depend on the
    order of the protection tags. *)
Theorem evaluate_push_order_independent (us : list RefUpdate) (role : MemberRole)
    (rs rs' : list ProtectionRule) :
  rules_wf rs → rs ≡ₚ rs' → evaluate_push us role rs = evaluate_push us role rs'.
Proof. intros Hwf Hp. unfold evaluate_push. by rewrite (collect_denials_perm us role rs rs'). Qed.

(** A tag list that parses gives one rule per [buzz-protect] tag, at most
    fifty of them, each with a well-formed pattern and a minimum role that is
    never [Bot] or [Guest]. *)
Theorem parse_protection_tags_bounds (tags : list (list string)) (pp : ParsedProtection) :
  parse_protection_tags tags = Ok pp →
  length (rules pp) =
    length (List.filter (λ t, bool_decide (head t = Some "buzz-protect")) tags) ∧
  length (rules pp) ≤ MAX_PROTECTION_RULES ∧ rules_wf (rules pp) ∧
  ∀ r, r ∈ rules pp → rule_push_role r ≠ Some Bot ∧ rule_push_role r ≠ Some Guest.
Proof.
  intros H. apply parse_tags_loop_spec in H as (Hwf & Hrole & Hlen & Hn);
    [|constructor..|simpl; lia].
  repeat split; try done; rewrite Forall_forall in Hrole; by apply Hrole.
Qed.

Definition example_tags : list (list string) :=
  [["d"; "repo"]; ["buzz-protect"; "refs/heads/main"; "push:admin"; "no-force-push"];
   ["buzz-protect"; "refs/tags/*"; "no-delete"]].

Definition example_rules : list ProtectionRule :=
  match parse_protection_tags example_tags with Ok pp => rules pp | Err _ => [] end.

Definition example_update (k : UpdateKind) : RefUpdate :=
  {| ref_name := "refs/heads/main"; kind := k; old_oid := "aa"; new_oid := "bb" |}.

Lemma example_rules_wf : rules_wf example_rules.
Proof. apply (parse_protection_tags_wf example_tags {| rules := example_rules; unknown_rules := [] |}). by vm_compute. Qed.

Lemma evaluate_push_correct_witness :
  ∃ res, evaluate_push [example_update NonFastForward] Owner example_rules = Some res ∧
    (res = Ok tt ↔ ∀ u, u ∈ [example_update NonFastForward] → update_allowed u Owner example_rules).
Proof.
  destruct (evaluate_push_correct example_tags {| rules := example_rules; unknown_rules := [] |}
    [example_update NonFastForward] Owner) as (res & Hres & Hok & _).
  { vm_compute. reflexivity. }
  exists res. split; [exact Hres|exact Hok].
Defined.

Lemma more_rules_never_weaken_witness :
  evaluate_push [example_update FastForward] Admin [] = Some (Ok tt).
Proof.
  apply (more_rules_never_weaken [example_update FastForward] Admin [] example_rules).
  - exact example_rules_wf.
  - intros x Hx. exfalso. revert Hx. apply not_elem_of_nil.
  - vm_compute. reflexivity.
Defined.

Lemma evaluate_push_order_independent_witness :
  evaluate_push [example_update Delete] Member example_rules =
  evaluate_push [example_update Delete] Member (reverse example_rules).
Proof.
  apply (evaluate_push_order_independent [example_update Delete] Member
    example_rules (reverse example_rules)).
  - exact example_rules_wf.
  - symmetry. apply reverse_Permutation.
Defined.

Lemma parse_protection_tags_bounds_witness :
  length example_rules = 2 ∧ length example_rules ≤ MAX_PROTECTION_RULES.
Proof.
  destruct (parse_protection_tags_bounds example_tags
    {| rules := example_rules; unknown_rules := [] |}) as (Hn & Hle & _ & _).
  { vm_compute. reflexivity. }
  split; [exact Hn|exact Hle].
Defined.
