(* ===== verification/Filter.v ===== *)
(** * NIP-01 filter matching (buzz-core/src/filter.rs, event.rs)

    A [nostr::Event] is the record of what the code reads of it: the kind, the
    author, the creation time, the hex form of the id and, for each tag, the
    string form of its kind and its content. A [nostr::Filter] keeps its
    [BTreeSet]s as lists and its [generic_tags] as a map from the tag letter.
    [uuid_to_string], the [Display] of the uuid crate, is a parameter. *)

From S2P Require Import Prelude.

Open Scope string_scope.
Open Scope list_scope.

Abbreviation Uuid := N (only parsing).
Definition Kind : Type := N.
Abbreviation CommunityId := N (only parsing).

Record Tag := { tag_kind : string; tag_content : option string }.

Record Event := {
  ev_id_hex : string;
  ev_pubkey : string;
  ev_created_at : Z;
  ev_kind : Kind;
  ev_tags : list Tag
}.

Record StoredEvent := {
  event : Event;
  received_at : Z;
  channel_id : option Uuid;
  verified : bool
}.

Record Filter := {
  f_ids : option (list string);
  f_authors : option (list string);
  f_kinds : option (list Kind);
  f_since : option Z;
  f_until : option Z;
  generic_tags : gmap string (list string)
}.

(** ** [StoredEvent] constructors; [now] is [Utc::now()] *)

Definition StoredEvent_new (now : Z) (e : Event) (ch : option Uuid) : StoredEvent :=
  {| event := e; received_at := now; channel_id := ch; verified := false |}.

Definition is_verified (e : StoredEvent) : bool := verified e.

Definition with_received_at (e : Event) (received : Z) (ch : option Uuid) (v : bool) : StoredEvent :=
  {| event := e; received_at := received; channel_id := ch; verified := v |}.

(** ** Matching *)

Definition mem {A} `{EqDecision A} (x : A) (l : list A) : bool := bool_decide (x ∈ l).

(** [ev.tags.iter().filter(kind == key).filter_map(content)] *)
Definition tag_values_of (e : Event) (key : string) : list string :=
  omap tag_content (List.filter (λ t, bool_decide (tag_kind t = key)) (ev_tags e)).

Section matching.
Context (uuid_to_string : Uuid → string).

(** The body of the loop over [generic_tags]: [true] lets the loop go on. *)
Definition tag_match_one (ev : StoredEvent) (key : string) (tag_values : list string) : bool :=
  let has_match := existsb (λ v, mem v (tag_values_of (event ev) key)) tag_values in
  if negb has_match && bool_decide (key = "h") then
    let event_has_h_tags := existsb (λ t, bool_decide (tag_kind t = "h")) (ev_tags (event ev)) in
    if negb event_has_h_tags then
      match channel_id ev with
      | Some ch_id => mem (uuid_to_string ch_id) tag_values
      | None => false
      end
    else false
  else has_match.

Definition filter_match_one (f : Filter) (ev : StoredEvent) : bool :=
  if negb (is_none_or (mem (ev_kind (event ev))) (f_kinds f)) then false
  else if negb (is_none_or (mem (ev_pubkey (event ev))) (f_authors f)) then false
  else if is_some_and (λ since, ev_created_at (event ev) <? since)%Z (f_since f) then false
  else if is_some_and (λ until, until <? ev_created_at (event ev))%Z (f_until f) then false
  else if negb (is_none_or (existsb (λ id, starts_with id (ev_id_hex (event ev)))) (f_ids f))
  then false
  else forallb (λ kv, tag_match_one ev kv.1 kv.2) (map_to_list (generic_tags f)).

Definition filters_match (filters : list Filter) (ev : StoredEvent) : bool :=
  existsb (λ f, filter_match_one f ev) filters.

(** ** The NIP-01 reading of a filter *)

(** A tag clause is met by a tag of the event, or, for [#h] on an event without
    [h] tags, by the channel the relay derived for it. *)
Definition tag_clause (ev : StoredEvent) (key : string) (values : list string) : Prop :=
  (∃ v, v ∈ values ∧ v ∈ tag_values_of (event ev) key) ∨
  (key = "h" ∧ (∀ t, t ∈ ev_tags (event ev) → tag_kind t ≠ "h") ∧
   ∃ ch, channel_id ev = Some ch ∧ uuid_to_string ch ∈ values).

Record filter_sat (f : Filter) (ev : StoredEvent) : Prop := {
  fs_kind : ∀ ks, f_kinds f = Some ks → ev_kind (event ev) ∈ ks;
  fs_author : ∀ ps, f_authors f = Some ps → ev_pubkey (event ev) ∈ ps;
  fs_since : ∀ t, f_since f = Some t → (t ≤ ev_created_at (event ev))%Z;
  fs_until : ∀ t, f_until f = Some t → (ev_created_at (event ev) ≤ t)%Z;
  fs_ids : ∀ ids, f_ids f = Some ids →
           ∃ id, id ∈ ids ∧ starts_with id (ev_id_hex (event ev)) = true;
  fs_tags : ∀ key vs, generic_tags f !! key = Some vs → tag_clause ev key vs
}.

Lemma mem_true {A} `{EqDecision A} (x : A) (l : list A) : mem x l = true ↔ x ∈ l.
Proof. apply bool_decide_eq_true. Qed.

Lemma existsb_elem {A} (p : A → bool) (l : list A) :
  existsb p l = true ↔ ∃ x, x ∈ l ∧ p x = true.
Proof. rewrite existsb_exists. setoid_rewrite list_elem_of_In. done. Qed.

Lemma forallb_elem {A} (p : A → bool) (l : list A) :
  forallb p l = true ↔ ∀ x, x ∈ l → p x = true.
Proof. rewrite forallb_forall. setoid_rewrite list_elem_of_In. done. Qed.

Lemma tag_match_one_spec (ev : StoredEvent) (key : string) (vs : list string) :
  tag_match_one ev key vs = true ↔ tag_clause ev key vs.
Proof.
  unfold tag_match_one, tag_clause.
  assert (existsb (λ v, mem v (tag_values_of (event ev) key)) vs = true ↔
    ∃ v, v ∈ vs ∧ v ∈ tag_values_of (event ev) key) as Hm.
  { rewrite existsb_elem. by setoid_rewrite mem_true. }
  destruct (existsb _ vs) eqn:He; simpl; [tauto|].
  case_bool_decide as Hk; simpl; [|naive_solver].
  assert (existsb (λ t, bool_decide (tag_kind t = "h")) (ev_tags (event ev)) = true ↔
    ∃ t, t ∈ ev_tags (event ev) ∧ tag_kind t = "h") as Hh.
  { rewrite existsb_elem. by setoid_rewrite bool_decide_eq_true. }
  destruct (existsb _ (ev_tags _)) eqn:Hx; simpl.
  { destruct Hh as [Hh _]. destruct (Hh eq_refl) as (t & ? & ?). naive_solver. }
  destruct (channel_id ev) as [ch|]; [rewrite mem_true|]; naive_solver.
Qed.

Lemma false_if (b : bool) (c : bool) :
  (if b then false else c) = true ↔ b = false ∧ c = true.
Proof. destruct b; naive_solver. Qed.

Lemma filter_match_one_sat (f : Filter) (ev : StoredEvent) :
  filter_match_one f ev = true ↔ filter_sat f ev.
Proof.
  unfold filter_match_one. rewrite !false_if, !negb_false_iff, forallb_elem.
  assert ((∀ x, x ∈ map_to_list (generic_tags f) → tag_match_one ev x.1 x.2 = true) ↔
    (∀ key vs, generic_tags f !! key = Some vs → tag_clause ev key vs)) as ->.
  { setoid_rewrite tag_match_one_spec. split.
    - intros H key vs ?. apply (H (key, vs)). by apply elem_of_map_to_list.
    - intros H [key vs] ?%elem_of_map_to_list. by apply H. }
  split.
  - intros (Hk & Ha & Hs & Hu & Hi & Ht). split; intros.
    all: try (match goal with H : _ = Some _ |- _ => rewrite H in * end; simpl in *).
    all: rewrite ?mem_true, ?existsb_elem in *; bool_prop; eauto; lia.
  - intros [Hk Ha Hs Hu Hi Ht]. repeat split; try done.
    + destruct (f_kinds f) as [ks|]; simpl; [|done]. apply mem_true. eauto.
    + destruct (f_authors f) as [ks|]; simpl; [|done]. apply mem_true. eauto.
    + destruct (f_since f) as [t|]; simpl; [|done]. apply Z.ltb_ge. eauto.
    + destruct (f_until f) as [t|]; simpl; [|done]. apply Z.ltb_ge. eauto.
    + destruct (f_ids f) as [t|]; simpl; [|done]. apply existsb_elem. eauto.
Qed.

Lemma filters_match_sat (fs : list Filter) (ev : StoredEvent) :
  filters_match fs ev = true ↔ ∃ f, f ∈ fs ∧ filter_sat f ev.
Proof. unfold filters_match. rewrite existsb_elem. by setoid_rewrite filter_match_one_sat. Qed.

(** [filters_match] implements NIP-01: the filters are alternatives, the
    clauses of one filter hold together, an absent clause is no constraint, an
    empty list matches nothing, and [#h] falls back on the relay-derived
    channel only for events without [h] tags. *)
Theorem filters_match_nip01 (fs : list Filter) (ev : StoredEvent) :
  filters_match fs ev = true ↔ ∃ f, f ∈ fs ∧ filter_sat f ev.
Proof. apply filters_match_sat. Qed.

End matching.

(** ** Result-level read authorization *)

Definition KIND_DM_VISIBILITY : Kind := 30622%N.
Definition KIND_AGENT_TURN_METRIC : Kind := 44200%N.

Definition reader_authorized_for_event (e : Event) (reader_pubkey_hex : string) : bool :=
  if negb (ev_kind e =? KIND_DM_VISIBILITY)%N && negb (ev_kind e =? KIND_AGENT_TURN_METRIC)%N
  then true
  else existsb (λ t, bool_decide (tag_content t = Some reader_pubkey_hex))
         (List.filter (λ t, bool_decide (tag_kind t = "p")) (ev_tags e)).

(** Only the viewer named in a [p] tag may read a DM-visibility snapshot or
    an agent turn metric; every other kind is left to the other gates. *)
Theorem reader_authorized_exact (e : Event) (reader : string) :
  reader_authorized_for_event e reader = true ↔
  (ev_kind e ≠ KIND_DM_VISIBILITY ∧ ev_kind e ≠ KIND_AGENT_TURN_METRIC) ∨
  (∃ t, t ∈ ev_tags e ∧ tag_kind t = "p" ∧ tag_content t = Some reader).
Proof.
  unfold reader_authorized_for_event.
  assert (existsb (λ t, bool_decide (tag_content t = Some reader))
    (List.filter (λ t, bool_decide (tag_kind t = "p")) (ev_tags e)) = true ↔
    ∃ t, t ∈ ev_tags e ∧ tag_kind t = "p" ∧ tag_content t = Some reader) as Hp.
  { rewrite existsb_elem. setoid_rewrite list_elem_of_In. setoid_rewrite filter_In.
    setoid_rewrite bool_decide_eq_true. naive_solver. }
  destruct (N.eqb_spec (ev_kind e) KIND_DM_VISIBILITY),
    (N.eqb_spec (ev_kind e) KIND_AGENT_TURN_METRIC); simpl; naive_solver.
Qed.
