(* ===== verification/Subscription.v ===== *)
(** * The subscription registry (buzz-relay/src/subscription.rs)

    The registry keeps the live subscriptions of every connection and five
    indexes from (community, channel, kind, recipient) to candidate
    subscriptions. [DashMap] and [HashMap] are [gmap]; each operation is a
    function on the registry record, the sequence of operations being the
    order in which they take the map locks. The metrics gauges are left out.
    Iteration over a hash map is modelled by [map_to_list]; the theorems about
    such results are stated on membership. *)

From S2P Require Import Prelude Filter.

Open Scope string_scope.
Open Scope nat_scope.
Open Scope list_scope.

Definition ConnId : Type := Uuid.
Definition SubId : Type := string.
Abbreviation SubRef := (ConnId * SubId)%type.

Inductive SubscriptionScope :=
  | Global
  | Channels (channels : list Uuid).

Abbreviation SubEntry := (list Filter * CommunityId * SubscriptionScope)%type.

Record IndexKey := { ik_channel_id : Uuid; ik_kind : Kind }.

Record GlobalPKindIndexKey := {
  gk_community_id : CommunityId;
  gk_kind : Kind;
  gk_p : string
}.

Record RemovedSubscription := {
  rs_community_id : CommunityId;
  rs_scope : SubscriptionScope
}.

Record ChannelSubscriptionUpdate := { cu_sub_id : SubId; cu_removed : bool }.

#[export] Instance SubscriptionScope_eq_dec : EqDecision SubscriptionScope.
Proof. solve_decision. Defined.
#[export] Instance IndexKey_eq_dec : EqDecision IndexKey.
Proof. solve_decision. Defined.
#[export] Instance GlobalPKindIndexKey_eq_dec : EqDecision GlobalPKindIndexKey.
Proof. solve_decision. Defined.

#[export] Instance IndexKey_countable : Countable IndexKey.
Proof.
  refine (inj_countable' (λ k, (ik_channel_id k, ik_kind k))
    (λ p, {| ik_channel_id := p.1; ik_kind := p.2 |}) _).
  by intros [].
Defined.

#[export] Instance GlobalPKindIndexKey_countable : Countable GlobalPKindIndexKey.
Proof.
  refine (inj_countable' (λ k, (gk_community_id k, gk_kind k, gk_p k))
    (λ p, {| gk_community_id := p.1.1; gk_kind := p.1.2; gk_p := p.2 |}) _).
  by intros [].
Defined.

Record SubscriptionRegistry := {
  subs : gmap ConnId (gmap SubId SubEntry);
  channel_kind_index : gmap (CommunityId * IndexKey) (list SubRef);
  channel_wildcard_index : gmap (CommunityId * Uuid) (list SubRef);
  global_kind_index : gmap (CommunityId * Kind) (list SubRef);
  global_p_kind_index : gmap GlobalPKindIndexKey (list SubRef);
  global_wildcard_index : gmap CommunityId (list SubRef)
}.

Definition new : SubscriptionRegistry :=
  {| subs := ∅; channel_kind_index := ∅; channel_wildcard_index := ∅;
     global_kind_index := ∅; global_p_kind_index := ∅; global_wildcard_index := ∅ |}.

(** Field updates *)
Definition set_subs (r : SubscriptionRegistry) x :=
  {| subs := x; channel_kind_index := channel_kind_index r;
     channel_wildcard_index := channel_wildcard_index r;
     global_kind_index := global_kind_index r;
     global_p_kind_index := global_p_kind_index r;
     global_wildcard_index := global_wildcard_index r |}.
Definition set_channel_kind_index (r : SubscriptionRegistry) x :=
  {| subs := subs r; channel_kind_index := x;
     channel_wildcard_index := channel_wildcard_index r;
     global_kind_index := global_kind_index r;
     global_p_kind_index := global_p_kind_index r;
     global_wildcard_index := global_wildcard_index r |}.
Definition set_channel_wildcard_index (r : SubscriptionRegistry) x :=
  {| subs := subs r; channel_kind_index := channel_kind_index r;
     channel_wildcard_index := x; global_kind_index := global_kind_index r;
     global_p_kind_index := global_p_kind_index r;
     global_wildcard_index := global_wildcard_index r |}.
Definition set_global_kind_index (r : SubscriptionRegistry) x :=
  {| subs := subs r; channel_kind_index := channel_kind_index r;
     channel_wildcard_index := channel_wildcard_index r; global_kind_index := x;
     global_p_kind_index := global_p_kind_index r;
     global_wildcard_index := global_wildcard_index r |}.
Definition set_global_p_kind_index (r : SubscriptionRegistry) x :=
  {| subs := subs r; channel_kind_index := channel_kind_index r;
     channel_wildcard_index := channel_wildcard_index r;
     global_kind_index := global_kind_index r; global_p_kind_index := x;
     global_wildcard_index := global_wildcard_index r |}.
Definition set_global_wildcard_index (r : SubscriptionRegistry) x :=
  {| subs := subs r; channel_kind_index := channel_kind_index r;
     channel_wildcard_index := channel_wildcard_index r;
     global_kind_index := global_kind_index r;
     global_p_kind_index := global_p_kind_index r; global_wildcard_index := x |}.

(** ** Scopes *)

Definition matches_channel (self : SubscriptionScope) (ch : option Uuid) : bool :=
  match self, ch with
  | Global, None => true
  | Channels channels, Some c => mem c channels
  | _, _ => false
  end.

Definition channel_ids (self : SubscriptionScope) : list Uuid :=
  match self with Global => [] | Channels channels => channels end.

Definition is_global (self : SubscriptionScope) : bool :=
  match self with Global => true | _ => false end.

(** ** Keys of a filter list *)

(** A [HashSet] beside a [Vec]: keep the first occurrence of each item. *)
Definition push_unseen {A} `{EqDecision A} (acc : list A) (x : A) : list A :=
  if mem x acc then acc else acc ++ [x].

Fixpoint extract_kinds_loop (filters : list Filter) (kinds : list Kind) : option (list Kind) :=
  match filters with
  | [] => Some kinds
  | f :: rest =>
      match f_kinds f with
      | Some filter_kinds => extract_kinds_loop rest (foldl push_unseen kinds filter_kinds)
      | None => None
      end
  end.

Definition extract_kinds_from_filters (filters : list Filter) : option (list Kind) :=
  extract_kinds_loop filters [].

Fixpoint extract_global_p_loop (community_id : CommunityId) (filters : list Filter)
    (keys : list GlobalPKindIndexKey) : option (list GlobalPKindIndexKey) :=
  match filters with
  | [] => Some keys
  | f :: rest =>
      kinds ← f_kinds f;
      match kinds with
      | [] => extract_global_p_loop community_id rest keys
      | _ =>
          p_values ← generic_tags f !! "p";
          match p_values with
          | [] => None
          | _ =>
              extract_global_p_loop community_id rest
                (foldl (λ acc kind,
                   foldl (λ acc p, push_unseen acc
                     {| gk_community_id := community_id; gk_kind := kind; gk_p := p |})
                     acc p_values) keys kinds)
          end
      end
  end.

Definition extract_global_p_kind_index_keys (community_id : CommunityId)
    (filters : list Filter) : option (list GlobalPKindIndexKey) :=
  extract_global_p_loop community_id filters [].

Definition event_p_tag_values (ev : StoredEvent) : list string :=
  foldl (λ acc t,
    if bool_decide (tag_kind t ≠ "p") then acc
    else match tag_content t with Some v => push_unseen acc v | None => acc end)
    [] (ev_tags (event ev)).

(** ** Index buckets *)

(** [index.entry(key).or_default().push(e)] *)
Definition push_entry {K} `{Countable K} (m : gmap K (list SubRef)) (k : K) (e : SubRef)
  : gmap K (list SubRef) := <[k := default [] (m !! k) ++ [e]]> m.

(** [get_mut(key)], [retain(not e)], and removal of a bucket left empty *)
Definition retain_entry {K} `{Countable K} (m : gmap K (list SubRef)) (k : K) (e : SubRef)
  : gmap K (list SubRef) :=
  match m !! k with
  | Some entries =>
      let entries' := List.filter (λ x, negb (bool_decide (x = e))) entries in
      match entries' with [] => delete k m | _ => <[k := entries']> m end
  | None => m
  end.

Definition remove_from_index (r : SubscriptionRegistry) (conn_id : ConnId) (sub_id : SubId)
    (filters : list Filter) (community_id : CommunityId) (scope : SubscriptionScope)
  : SubscriptionRegistry :=
  let e := (conn_id, sub_id) in
  match scope with
  | Channels chs =>
      foldl (λ r ch_id,
        match extract_kinds_from_filters filters with
        | None =>
            set_channel_wildcard_index r
              (retain_entry (channel_wildcard_index r) (community_id, ch_id) e)
        | Some [] => r
        | Some kinds =>
            foldl (λ r kind,
              set_channel_kind_index r
                (retain_entry (channel_kind_index r)
                   (community_id, {| ik_channel_id := ch_id; ik_kind := kind |}) e)) r kinds
        end) r chs
  | Global =>
      match extract_global_p_kind_index_keys community_id filters with
      | Some keys =>
          foldl (λ r key,
            set_global_p_kind_index r (retain_entry (global_p_kind_index r) key e)) r keys
      | None =>
          match extract_kinds_from_filters filters with
          | None =>
              set_global_wildcard_index r
                (retain_entry (global_wildcard_index r) community_id e)
          | Some [] => r
          | Some kinds =>
              foldl (λ r kind,
                set_global_kind_index r
                  (retain_entry (global_kind_index r) (community_id, kind) e)) r kinds
          end
      end
  end.

(** The second half of [register_with_scope]: push into the chosen indexes. *)
Definition add_to_index (r : SubscriptionRegistry) (conn_id : ConnId) (sub_id : SubId)
    (filters : list Filter) (community_id : CommunityId) (scope : SubscriptionScope)
  : SubscriptionRegistry :=
  let e := (conn_id, sub_id) in
  match scope with
  | Channels chs =>
      foldl (λ r ch_id,
        match extract_kinds_from_filters filters with
        | None =>
            set_channel_wildcard_index r
              (push_entry (channel_wildcard_index r) (community_id, ch_id) e)
        | Some [] => r
        | Some kinds =>
            foldl (λ r kind,
              set_channel_kind_index r
                (push_entry (channel_kind_index r)
                   (community_id, {| ik_channel_id := ch_id; ik_kind := kind |}) e)) r kinds
        end) r chs
  | Global =>
      match extract_global_p_kind_index_keys community_id filters with
      | Some keys =>
          foldl (λ r key,
            set_global_p_kind_index r (push_entry (global_p_kind_index r) key e)) r keys
      | None =>
          match extract_kinds_from_filters filters with
          | None =>
              set_global_wildcard_index r
                (push_entry (global_wildcard_index r) community_id e)
          | Some [] => r
          | Some kinds =>
              foldl (λ r kind,
                set_global_kind_index r
                  (push_entry (global_kind_index r) (community_id, kind) e)) r kinds
          end
      end
  end.

(** ** Operations *)

Definition remove_subscription (r : SubscriptionRegistry) (conn_id : ConnId) (sub_id : SubId)
  : SubscriptionRegistry * option RemovedSubscription :=
  match subs r !! conn_id with
  | None => (r, None)
  | Some conn_subs =>
      match conn_subs !! sub_id with
      | None => (r, None)
      | Some (filters, community_id, scope) =>
          let r1 := set_subs r (<[conn_id := delete sub_id conn_subs]> (subs r)) in
          (remove_from_index r1 conn_id sub_id filters community_id scope,
           Some {| rs_community_id := community_id; rs_scope := scope |})
      end
  end.

Definition register_with_scope (r : SubscriptionRegistry) (community_id : CommunityId)
    (conn_id : ConnId) (sub_id : SubId) (filters : list Filter) (scope : SubscriptionScope)
  : SubscriptionRegistry * option RemovedSubscription :=
  let '(r1, removed) := remove_subscription r conn_id sub_id in
  let conn_subs := default ∅ (subs r1 !! conn_id) in
  let r2 := set_subs r1
    (<[conn_id := <[sub_id := (filters, community_id, scope)]> conn_subs]> (subs r1)) in
  (add_to_index r2 conn_id sub_id filters community_id scope, removed).

Definition register_scoped (r : SubscriptionRegistry) (community_id : CommunityId)
    (conn_id : ConnId) (sub_id : SubId) (filters : list Filter) (ch : option Uuid)
  : SubscriptionRegistry * option RemovedSubscription :=
  let scope := match ch with Some c => Channels [c] | None => Global end in
  register_with_scope r community_id conn_id sub_id filters scope.

Definition register_channels_scoped (r : SubscriptionRegistry) (community_id : CommunityId)
    (conn_id : ConnId) (sub_id : SubId) (filters : list Filter) (chs : list Uuid)
  : SubscriptionRegistry * option RemovedSubscription :=
  register_with_scope r community_id conn_id sub_id filters (Channels chs).

Definition remove_connection (r : SubscriptionRegistry) (conn_id : ConnId)
  : SubscriptionRegistry * list RemovedSubscription :=
  match subs r !! conn_id with
  | None => (r, [])
  | Some conn_subs =>
      foldl (λ '(r, removed) '(sub_id, (filters, community_id, scope)),
        (remove_from_index r conn_id sub_id filters community_id scope,
         removed ++ [{| rs_community_id := community_id; rs_scope := scope |}]))
        (set_subs r (delete conn_id (subs r)), []) (map_to_list conn_subs)
  end.

(** The loop over the matching subscription ids of
    [remove_channel_subscriptions_scoped]. *)
Fixpoint revoke_loop (community_id : CommunityId) (conn_id : ConnId) (ch : Uuid)
    (sub_ids : list SubId) (r : SubscriptionRegistry)
    (updates : list ChannelSubscriptionUpdate)
  : SubscriptionRegistry * list ChannelSubscriptionUpdate :=
  match sub_ids with
  | [] => (r, updates)
  | sub_id :: rest =>
      match subs r !! conn_id with
      | None => (r, updates)
      | Some conn_subs =>
          match conn_subs !! sub_id with
          | Some (filters, sub_community, Channels chs) =>
              let chs' := List.filter (λ c, negb (bool_decide (c = ch))) chs in
              let removed := bool_decide (chs' = []) in
              let conn_subs1 := <[sub_id := (filters, sub_community, Channels chs')]> conn_subs in
              let r1 := set_subs r (<[conn_id := conn_subs1]> (subs r)) in
              let r2 := remove_from_index r1 conn_id sub_id filters community_id (Channels [ch]) in
              let r3 := if removed
                        then set_subs r2 (<[conn_id := delete sub_id conn_subs1]> (subs r2))
                        else r2 in
              revoke_loop community_id conn_id ch rest r3
                (updates ++ [{| cu_sub_id := sub_id; cu_removed := removed |}])
          | _ => revoke_loop community_id conn_id ch rest r updates
          end
      end
  end.

Definition remove_channel_subscriptions_scoped (r : SubscriptionRegistry)
    (community_id : CommunityId) (conn_id : ConnId) (ch : Uuid)
  : SubscriptionRegistry * list ChannelSubscriptionUpdate :=
  let sub_ids :=
    match subs r !! conn_id with
    | None => []
    | Some conn_subs =>
        omap (λ '(sub_id, (_, sub_community, scope)),
          if bool_decide (sub_community = community_id) && mem ch (channel_ids scope)
          then Some sub_id else None) (map_to_list conn_subs)
    end in
  revoke_loop community_id conn_id ch sub_ids r [].

Definition channel_subscriber_conns_scoped (r : SubscriptionRegistry)
    (community_id : CommunityId) (ch : Uuid) : list ConnId :=
  let from_kinds : gset ConnId :=
    foldl (λ conns '((c, key), entries),
      if bool_decide (c = community_id) && bool_decide (ik_channel_id key = ch)
      then conns ∪ list_to_set (fst <$> entries) else conns)
      ∅ (map_to_list (channel_kind_index r)) in
  let conns :=
    match channel_wildcard_index r !! (community_id, ch) with
    | Some entries => from_kinds ∪ list_to_set (fst <$> entries)
    | None => from_kinds
    end in
  elements conns.

Section fan_out.
Context (uuid_to_string : Uuid → string).

Definition push_match (r : SubscriptionRegistry) (community_id : CommunityId)
    (ev : StoredEvent) (acc : list SubRef * gset SubRef) (e : SubRef)
  : list SubRef * gset SubRef :=
  let '(results, seen) := acc in
  match subs r !! e.1 with
  | None => acc
  | Some conn_subs =>
      match conn_subs !! e.2 with
      | None => acc
      | Some (filters, sub_community_id, scope) =>
          if bool_decide (sub_community_id = community_id)
             && matches_channel scope (channel_id ev)
             && filters_match uuid_to_string filters ev
          then if bool_decide (e ∈ seen) then acc else (results ++ [e], {[e]} ∪ seen)
          else acc
      end
  end.

(** [for (conn_id, sub_id) in index.get(key).cloned() { push_match(...) }] *)
Definition push_candidates (r : SubscriptionRegistry) (community_id : CommunityId)
    (ev : StoredEvent) (acc : list SubRef * gset SubRef) (candidates : option (list SubRef))
  : list SubRef * gset SubRef :=
  match candidates with
  | Some es => foldl (push_match r community_id ev) acc es
  | None => acc
  end.

Definition fan_out_scoped (r : SubscriptionRegistry) (community_id : CommunityId)
    (ev : StoredEvent) : list SubRef :=
  let acc := ([], ∅) in
  let push := push_candidates r community_id ev in
  (match channel_id ev with
   | Some ch =>
       let key := {| ik_channel_id := ch; ik_kind := ev_kind (event ev) |} in
       let acc := push acc (channel_kind_index r !! (community_id, key)) in
       push acc (channel_wildcard_index r !! (community_id, ch))
   | None =>
       let acc :=
         foldl (λ acc p,
           push acc (global_p_kind_index r !!
             {| gk_community_id := community_id; gk_kind := ev_kind (event ev); gk_p := p |}))
           acc (event_p_tag_values ev) in
       let acc := push acc (global_kind_index r !! (community_id, ev_kind (event ev))) in
       push acc (global_wildcard_index r !! community_id)
   end).1.

End fan_out.

(** ** Queries *)

Definition lookup_sub (r : SubscriptionRegistry) (conn_id : ConnId) (sub_id : SubId)
  : option SubEntry :=
  conn_subs ← subs r !! conn_id; conn_subs !! sub_id.

Definition get_filters (r : SubscriptionRegistry) (conn_id : ConnId) (sub_id : SubId)
  : option (list Filter) :=
  match subs r !! conn_id with
  | Some conn_subs => (λ s : SubEntry, s.1.1) <$> conn_subs !! sub_id
  | None => None
  end.

Definition total_subscriptions (r : SubscriptionRegistry) : nat :=
  foldl (λ n '(_, conn_subs), n + size (conn_subs : gmap SubId SubEntry)) 0 (map_to_list (subs r)).

Definition total_connections (r : SubscriptionRegistry) : nat := size (subs r).

Definition per_community_subscriptions (r : SubscriptionRegistry) : gmap CommunityId Z :=
  foldl (λ counts '(_, conn_subs),
    foldl (λ (counts : gmap CommunityId Z) '(_, (_, c, _)),
      <[c := (default 0 (counts !! c) + 1)%Z]> counts)
      counts (map_to_list (conn_subs : gmap SubId SubEntry)))
    ∅ (map_to_list (subs r)).

(** ** The five indexes as one *)

Inductive Key :=
  | ChannelKind (k : CommunityId * IndexKey)
  | ChannelWildcard (k : CommunityId * Uuid)
  | GlobalKind (k : CommunityId * Kind)
  | GlobalPKind (k : GlobalPKindIndexKey)
  | GlobalWildcard (k : CommunityId).

#[export] Instance Key_eq_dec : EqDecision Key.
Proof. solve_decision. Defined.

Definition bucket (r : SubscriptionRegistry) (k : Key) : option (list SubRef) :=
  match k with
  | ChannelKind k => channel_kind_index r !! k
  | ChannelWildcard k => channel_wildcard_index r !! k
  | GlobalKind k => global_kind_index r !! k
  | GlobalPKind k => global_p_kind_index r !! k
  | GlobalWildcard k => global_wildcard_index r !! k
  end.

Definition add_key (e : SubRef) (r : SubscriptionRegistry) (k : Key) : SubscriptionRegistry :=
  match k with
  | ChannelKind k => set_channel_kind_index r (push_entry (channel_kind_index r) k e)
  | ChannelWildcard k => set_channel_wildcard_index r (push_entry (channel_wildcard_index r) k e)
  | GlobalKind k => set_global_kind_index r (push_entry (global_kind_index r) k e)
  | GlobalPKind k => set_global_p_kind_index r (push_entry (global_p_kind_index r) k e)
  | GlobalWildcard k => set_global_wildcard_index r (push_entry (global_wildcard_index r) k e)
  end.

Definition del_key (e : SubRef) (r : SubscriptionRegistry) (k : Key) : SubscriptionRegistry :=
  match k with
  | ChannelKind k => set_channel_kind_index r (retain_entry (channel_kind_index r) k e)
  | ChannelWildcard k => set_channel_wildcard_index r (retain_entry (channel_wildcard_index r) k e)
  | GlobalKind k => set_global_kind_index r (retain_entry (global_kind_index r) k e)
  | GlobalPKind k => set_global_p_kind_index r (retain_entry (global_p_kind_index r) k e)
  | GlobalWildcard k => set_global_wildcard_index r (retain_entry (global_wildcard_index r) k e)
  end.

(** The buckets a subscription belongs in. *)
Definition channel_keys (c : CommunityId) (fs : list Filter) (ch : Uuid) : list Key :=
  match extract_kinds_from_filters fs with
  | None => [ChannelWildcard (c, ch)]
  | Some kinds => (λ k, ChannelKind (c, {| ik_channel_id := ch; ik_kind := k |})) <$> kinds
  end.

Definition sub_keys (c : CommunityId) (fs : list Filter) (scope : SubscriptionScope) : list Key :=
  match scope with
  | Channels chs => chs ≫= channel_keys c fs
  | Global =>
      match extract_global_p_kind_index_keys c fs with
      | Some keys => GlobalPKind <$> keys
      | None =>
          match extract_kinds_from_filters fs with
          | None => [GlobalWildcard c]
          | Some kinds => (λ k, GlobalKind (c, k)) <$> kinds
          end
      end
  end.

(** Both halves of the index code are folds over [sub_keys]. *)
Lemma foldl_map_keys {B} (f : SubscriptionRegistry → B → SubscriptionRegistry)
    (h : SubscriptionRegistry → Key → SubscriptionRegistry) (g : B → Key) (l : list B)
    (r : SubscriptionRegistry) :
  (∀ r x, f r x = h r (g x)) → foldl f r l = foldl h r (g <$> l).
Proof. intros Hf. revert r. induction l as [|x l IH]; intros r; simpl; [done|]. by rewrite Hf, IH. Qed.

Lemma foldl_bind_keys {B} (f : SubscriptionRegistry → B → SubscriptionRegistry)
    (h : SubscriptionRegistry → Key → SubscriptionRegistry) (g : B → list Key) (l : list B)
    (r : SubscriptionRegistry) :
  (∀ r x, f r x = foldl h r (g x)) → foldl f r l = foldl h r (l ≫= g).
Proof.
  intros Hf. revert r. induction l as [|x l IH]; intros r; simpl; [done|].
  by rewrite Hf, IH, foldl_app.
Qed.

Lemma add_to_index_keys (r : SubscriptionRegistry) (conn_id : ConnId) (sub_id : SubId)
    (fs : list Filter) (c : CommunityId) (scope : SubscriptionScope) :
  add_to_index r conn_id sub_id fs c scope =
  foldl (add_key (conn_id, sub_id)) r (sub_keys c fs scope).
Proof.
  unfold add_to_index, sub_keys. destruct scope as [|chs].
  - destruct (extract_global_p_kind_index_keys c fs) as [keys|]; [by apply foldl_map_keys|].
    destruct (extract_kinds_from_filters fs) as [[|k ks]|]; [done| |done].
    by apply (foldl_map_keys _ _ (λ k, GlobalKind (c, k))).
  - apply foldl_bind_keys. intros r' ch. unfold channel_keys.
    destruct (extract_kinds_from_filters fs) as [[|k ks]|]; [done| |done].
    by apply (foldl_map_keys _ _ (λ k, ChannelKind (c, {| ik_channel_id := ch; ik_kind := k |}))).
Qed.

Lemma remove_from_index_keys (r : SubscriptionRegistry) (conn_id : ConnId) (sub_id : SubId)
    (fs : list Filter) (c : CommunityId) (scope : SubscriptionScope) :
  remove_from_index r conn_id sub_id fs c scope =
  foldl (del_key (conn_id, sub_id)) r (sub_keys c fs scope).
Proof.
  unfold remove_from_index, sub_keys. destruct scope as [|chs].
  - destruct (extract_global_p_kind_index_keys c fs) as [keys|]; [by apply foldl_map_keys|].
    destruct (extract_kinds_from_filters fs) as [[|k ks]|]; [done| |done].
    by apply (foldl_map_keys _ _ (λ k, GlobalKind (c, k))).
  - apply foldl_bind_keys. intros r' ch. unfold channel_keys.
    destruct (extract_kinds_from_filters fs) as [[|k ks]|]; [done| |done].
    by apply (foldl_map_keys _ _ (λ k, ChannelKind (c, {| ik_channel_id := ch; ik_kind := k |}))).
Qed.

(** ** Membership in a bucket *)

Definition in_bucket (r : SubscriptionRegistry) (k : Key) (e : SubRef) : Prop :=
  ∃ es, bucket r k = Some es ∧ e ∈ es.

Lemma push_entry_lookup {K} `{Countable K} (m : gmap K (list SubRef)) (k k' : K) (e : SubRef) :
  push_entry m k e !! k' =
  if decide (k = k') then Some (default [] (m !! k) ++ [e]) else m !! k'.
Proof. unfold push_entry. by rewrite lookup_insert. Qed.

Definition retain_list (e : SubRef) (o : option (list SubRef)) : option (list SubRef) :=
  es ← o;
  match List.filter (λ x, negb (bool_decide (x = e))) es with [] => None | es' => Some es' end.

Lemma retain_entry_lookup {K} `{Countable K} (m : gmap K (list SubRef)) (k k' : K) (e : SubRef) :
  retain_entry m k e !! k' = if decide (k = k') then retain_list e (m !! k) else m !! k'.
Proof.
  unfold retain_entry, retain_list. destruct (m !! k) as [es|] eqn:Hk; simpl.
  - destruct (List.filter _ es); [rewrite lookup_delete|rewrite lookup_insert]; by case_decide.
  - case_decide; by simplify_eq.
Qed.

Lemma bucket_add_key (e : SubRef) (r : SubscriptionRegistry) (k k' : Key) :
  bucket (add_key e r k) k' =
  if decide (k = k') then Some (default [] (bucket r k) ++ [e]) else bucket r k'.
Proof.
  destruct k, k'; simpl; try (rewrite decide_False by done); try done;
    rewrite push_entry_lookup; repeat case_decide; simplify_eq; done.
Qed.

Lemma bucket_del_key (e : SubRef) (r : SubscriptionRegistry) (k k' : Key) :
  bucket (del_key e r k) k' =
  if decide (k = k') then retain_list e (bucket r k) else bucket r k'.
Proof.
  destruct k, k'; simpl; try (rewrite decide_False by done); try done;
    rewrite retain_entry_lookup; repeat case_decide; simplify_eq; done.
Qed.

Lemma in_add_key (e e' : SubRef) (r : SubscriptionRegistry) (k k' : Key) :
  in_bucket (add_key e r k) k' e' ↔ in_bucket r k' e' ∨ (k = k' ∧ e' = e).
Proof.
  unfold in_bucket. rewrite bucket_add_key. case_decide as Hk; [subst|naive_solver].
  assert (∀ l, e' ∈ l ++ [e] ↔ e' ∈ l ∨ e' = e) as Happ.
  { intros l. by rewrite elem_of_app, list_elem_of_singleton. }
  destruct (bucket r k') as [es|]; simpl.
  - specialize (Happ es). naive_solver.
  - specialize (Happ []). rewrite elem_of_nil in Happ. naive_solver.
Qed.

Lemma retain_list_elem (e e' : SubRef) (o : option (list SubRef)) :
  (∃ es, retain_list e o = Some es ∧ e' ∈ es) ↔ (∃ es, o = Some es ∧ e' ∈ es) ∧ e' ≠ e.
Proof.
  destruct o as [es|]; simpl; [|naive_solver].
  assert (e' ∈ List.filter (λ x, negb (bool_decide (x = e))) es ↔ e' ∈ es ∧ e' ≠ e) as Hf.
  { rewrite !list_elem_of_In, filter_In, negb_true_iff, bool_decide_eq_false. done. }
  destruct (List.filter _ es) as [|x es']; [set_solver|].
  split; [intros (? & [= <-] & Hin)|intros [(? & [= <-] & Hin) Hne]]; naive_solver.
Qed.

Lemma in_del_key (e e' : SubRef) (r : SubscriptionRegistry) (k k' : Key) :
  in_bucket (del_key e r k) k' e' ↔ in_bucket r k' e' ∧ (e' = e → k ≠ k').
Proof.
  unfold in_bucket. rewrite bucket_del_key. case_decide as Hk; [subst|naive_solver].
  rewrite retain_list_elem. naive_solver.
Qed.

Lemma in_add_keys (e e' : SubRef) (ks : list Key) (r : SubscriptionRegistry) (k' : Key) :
  in_bucket (foldl (add_key e) r ks) k' e' ↔ in_bucket r k' e' ∨ (k' ∈ ks ∧ e' = e).
Proof.
  revert r. induction ks as [|k ks IH]; intros r; simpl; [set_solver|].
  rewrite IH, in_add_key, elem_of_cons. naive_solver.
Qed.

Lemma in_del_keys (e e' : SubRef) (ks : list Key) (r : SubscriptionRegistry) (k' : Key) :
  in_bucket (foldl (del_key e) r ks) k' e' ↔ in_bucket r k' e' ∧ (e' = e → k' ∉ ks).
Proof.
  revert r. induction ks as [|k ks IH]; intros r; simpl; [set_solver|].
  rewrite IH, in_del_key, not_elem_of_cons. naive_solver.
Qed.

Lemma subs_add_keys (e : SubRef) (ks : list Key) (r : SubscriptionRegistry) :
  subs (foldl (add_key e) r ks) = subs r.
Proof. revert r. induction ks as [|k ks IH]; intros r; simpl; [done|]. rewrite IH. by destruct k. Qed.

Lemma subs_del_keys (e : SubRef) (ks : list Key) (r : SubscriptionRegistry) :
  subs (foldl (del_key e) r ks) = subs r.
Proof. revert r. induction ks as [|k ks IH]; intros r; simpl; [done|]. rewrite IH. by destruct k. Qed.

Lemma in_bucket_set_subs (r : SubscriptionRegistry) x (k : Key) (e : SubRef) :
  in_bucket (set_subs r x) k e ↔ in_bucket r k e.
Proof. by destruct k. Qed.

(** No bucket is kept empty. *)
Definition no_empty_bucket (r : SubscriptionRegistry) : Prop := ∀ k, bucket r k ≠ Some [].

Lemma no_empty_add_keys (e : SubRef) (ks : list Key) (r : SubscriptionRegistry) :
  no_empty_bucket r → no_empty_bucket (foldl (add_key e) r ks).
Proof.
  revert r. induction ks as [|k ks IH]; intros r Hr; simpl; [done|]. apply IH.
  intros k'. rewrite bucket_add_key. case_decide; [|apply Hr]. by destruct (default [] _).
Qed.

Lemma no_empty_del_keys (e : SubRef) (ks : list Key) (r : SubscriptionRegistry) :
  no_empty_bucket r → no_empty_bucket (foldl (del_key e) r ks).
Proof.
  revert r. induction ks as [|k ks IH]; intros r Hr; simpl; [done|]. apply IH.
  intros k'. rewrite bucket_del_key. case_decide; [|apply Hr].
  destruct (bucket r k) as [es|]; simpl; [|done]. by destruct (List.filter _ es).
Qed.

Lemma no_empty_set_subs (r : SubscriptionRegistry) x :
  no_empty_bucket r → no_empty_bucket (set_subs r x).
Proof. intros Hr k. specialize (Hr k). by destruct k. Qed.

(** ** The invariant: the indexes hold exactly the live subscriptions *)

Definition entry_keys (o : option SubEntry) : list Key :=
  match o with Some (f, c, s) => sub_keys c f s | None => [] end.

Record registry_inv (r : SubscriptionRegistry) : Prop := {
  inv_index : ∀ k cid sid, in_bucket r k (cid, sid) ↔ k ∈ entry_keys (lookup_sub r cid sid);
  inv_no_empty : no_empty_bucket r
}.

(** The view of [r] is that of [r0] but for one subscription. *)
Definition view_updated (r0 r : SubscriptionRegistry) (conn_id : ConnId) (sub_id : SubId)
    (o : option SubEntry) : Prop :=
  ∀ cid sid, lookup_sub r cid sid =
    if decide ((cid, sid) = (conn_id, sub_id)) then o else lookup_sub r0 cid sid.

Lemma lookup_sub_subs (r r' : SubscriptionRegistry) (cid : ConnId) (sid : SubId) :
  subs r = subs r' → lookup_sub r cid sid = lookup_sub r' cid sid.
Proof. unfold lookup_sub. by intros ->. Qed.

Lemma view_updated_insert (r : SubscriptionRegistry) (conn_id : ConnId) (sub_id : SubId)
    (m : gmap SubId SubEntry) (o : option SubEntry) x :
  default ∅ (subs r !! conn_id) = m →
  x = partial_alter (λ _, o) sub_id m →
  view_updated r (set_subs r (<[conn_id := x]> (subs r))) conn_id sub_id o.
Proof.
  intros Hm -> cid sid. unfold lookup_sub. simpl. rewrite lookup_insert.
  destruct (decide (conn_id = cid)) as [<-|Hne]; simpl; last first.
  { rewrite decide_False by congruence. done. }
  rewrite lookup_partial_alter. destruct (decide (sub_id = sid)) as [<-|Hne].
  - by rewrite !decide_True.
  - rewrite (decide_False (P := (conn_id, sid) = _)) by congruence.
    rewrite <- Hm. destruct (subs r !! conn_id); simpl; [done|]. apply lookup_empty.
Qed.

(** Dropping index keys of one subscription, consistently with its new entry. *)
Lemma inv_shrink (r r1 : SubscriptionRegistry) (conn_id : ConnId) (sub_id : SubId)
    (o : option SubEntry) (dropped : list Key) :
  registry_inv r → (∃ x, r1 = set_subs r x) → view_updated r r1 conn_id sub_id o →
  (∀ k, k ∈ entry_keys o ↔ k ∈ entry_keys (lookup_sub r conn_id sub_id) ∧ k ∉ dropped) →
  registry_inv (foldl (del_key (conn_id, sub_id)) r1 dropped).
Proof.
  intros [Hidx Hne] [x ->] Hview Hkeys. split; [|by apply no_empty_del_keys, no_empty_set_subs].
  intros k cid sid. rewrite in_del_keys, in_bucket_set_subs, Hidx.
  rewrite (lookup_sub_subs _ _ cid sid (subs_del_keys _ _ _)), Hview.
  case_decide as He; [|tauto]. injection He as -> ->. rewrite Hkeys. tauto.
Qed.

Lemma inv_grow (r r1 : SubscriptionRegistry) (conn_id : ConnId) (sub_id : SubId) (o : SubEntry) :
  registry_inv r → (∃ x, r1 = set_subs r x) → view_updated r r1 conn_id sub_id (Some o) →
  lookup_sub r conn_id sub_id = None →
  registry_inv (foldl (add_key (conn_id, sub_id)) r1 (entry_keys (Some o))).
Proof.
  intros [Hidx Hne] [x ->] Hview Hnone. split; [|by apply no_empty_add_keys, no_empty_set_subs].
  intros k cid sid. rewrite in_add_keys, in_bucket_set_subs, Hidx.
  rewrite (lookup_sub_subs _ _ cid sid (subs_add_keys _ _ _)), Hview.
  case_decide as He; [|tauto]. injection He as -> ->. rewrite Hnone, elem_of_nil. tauto.
Qed.

Lemma inv_new : registry_inv new.
Proof.
  split.
  - intros k cid sid. unfold lookup_sub, in_bucket. simpl. rewrite lookup_empty. simpl.
    rewrite elem_of_nil. split; [|done]. intros (es & Hb & _).
    by destruct k; simpl in Hb; rewrite lookup_empty in Hb.
  - intros k. by destruct k; simpl; rewrite lookup_empty.
Qed.

Lemma remove_subscription_spec (r : SubscriptionRegistry) (conn_id : ConnId) (sub_id : SubId) :
  registry_inv r →
  let '(r', removed) := remove_subscription r conn_id sub_id in
  registry_inv r' ∧ view_updated r r' conn_id sub_id None ∧
  removed = (λ '(_, c, s), {| rs_community_id := c; rs_scope := s |}) <$> lookup_sub r conn_id sub_id.
Proof.
  intros Hinv. unfold remove_subscription.
  assert (lookup_sub r conn_id sub_id = None → view_updated r r conn_id sub_id None) as Hsame.
  { intros Hn cid sid. case_decide; by simplify_eq. }
  unfold lookup_sub in *. destruct (subs r !! conn_id) as [m|] eqn:Hm; simpl in *; [|naive_solver].
  destruct (m !! sub_id) as [[[f c] s]|] eqn:Hs; simpl; [|naive_solver].
  assert (view_updated r (set_subs r (<[conn_id:=delete sub_id m]> (subs r))) conn_id sub_id None)
    as Hview by (apply (view_updated_insert _ _ _ m); [by rewrite Hm|done]).
  rewrite remove_from_index_keys. split_and!; [| |done].
  - eapply inv_shrink; eauto. intros k. unfold lookup_sub. rewrite Hm. simpl. rewrite Hs. simpl.
    rewrite elem_of_nil. tauto.
  - intros cid sid. rewrite (lookup_sub_subs _ _ _ _ (subs_del_keys _ _ _)). apply Hview.
Qed.

Lemma register_with_scope_spec (r : SubscriptionRegistry) (c : CommunityId) (conn_id : ConnId)
    (sub_id : SubId) (fs : list Filter) (scope : SubscriptionScope) :
  registry_inv r →
  let '(r', removed) := register_with_scope r c conn_id sub_id fs scope in
  registry_inv r' ∧ view_updated r r' conn_id sub_id (Some (fs, c, scope)) ∧
  removed = (λ '(_, c, s), {| rs_community_id := c; rs_scope := s |}) <$> lookup_sub r conn_id sub_id.
Proof.
  intros Hinv. unfold register_with_scope.
  pose proof (remove_subscription_spec r conn_id sub_id Hinv) as Hrm.
  destruct (remove_subscription r conn_id sub_id) as [r1 removed].
  destruct Hrm as (Hinv1 & Hview1 & ->).
  set (m := default ∅ (subs r1 !! conn_id)).
  assert (view_updated r1 (set_subs r1 (<[conn_id:=<[sub_id:=(fs, c, scope)]> m]> (subs r1)))
    conn_id sub_id (Some (fs, c, scope))) as Hview2 by (by apply (view_updated_insert _ _ _ m)).
  rewrite add_to_index_keys. split_and!; [| |done].
  - change (sub_keys c fs scope) with (entry_keys (Some (fs, c, scope))).
    eapply inv_grow; eauto. rewrite (Hview1 conn_id sub_id). by rewrite decide_True.
  - intros cid sid. rewrite (lookup_sub_subs _ _ _ _ (subs_add_keys _ _ _)), (Hview2 cid sid).
    case_decide as He; [done|]. rewrite (Hview1 cid sid). by rewrite decide_False.
Qed.

(** The loop of [remove_connection] only drops bucket entries. *)
Lemma remove_all_from_index (conn_id : ConnId) (l : list (SubId * SubEntry)) (r : SubscriptionRegistry)
    (acc : list RemovedSubscription) :
  no_empty_bucket r →
  let '(r', removed) := foldl (λ '(r, removed) '(sub_id, (filters, c, scope)),
        (remove_from_index r conn_id sub_id filters c scope,
         removed ++ [{| rs_community_id := c; rs_scope := scope |}])) (r, acc) l in
  subs r' = subs r ∧ no_empty_bucket r' ∧
  removed = acc ++ ((λ '(_, (_, c, s)), {| rs_community_id := c; rs_scope := s |}) <$> l) ∧
  (∀ k e, in_bucket r' k e ↔ in_bucket r k e ∧
     ∀ sid o, (sid, o) ∈ l → e = (conn_id, sid) → k ∉ entry_keys (Some o)).
Proof.
  revert r acc. induction l as [|[sid [[f c] s]] l IH]; intros r acc Hne; simpl.
  { rewrite app_nil_r. split_and!; [done..|]. set_solver. }
  rewrite remove_from_index_keys.
  specialize (IH (foldl (del_key (conn_id, sid)) r (sub_keys c f s))
    (acc ++ [{| rs_community_id := c; rs_scope := s |}]) (no_empty_del_keys _ _ _ Hne)).
  destruct (foldl _ _ l) as [r' removed]. destruct IH as (Hsubs & Hne' & -> & Hin).
  rewrite Hsubs, subs_del_keys, <- app_assoc. split_and!; [done..|].
  intros k e. rewrite Hin, in_del_keys. setoid_rewrite elem_of_cons. split.
  - intros [[Hk H1] H2]. split; [done|]. intros sid' o [[= -> ->]|Hl] He; [by apply H1|eauto].
  - intros [Hk H]. split; [split; [done|]|].
    + intros He. apply (H sid (f, c, s)); [by left|done].
    + intros sid' o Hl. apply H. by right.
Qed.

Lemma remove_connection_spec (r : SubscriptionRegistry) (conn_id : ConnId) :
  registry_inv r →
  let '(r', removed) := remove_connection r conn_id in
  registry_inv r' ∧
  (∀ cid sid, lookup_sub r' cid sid = if decide (cid = conn_id) then None else lookup_sub r cid sid) ∧
  length removed = size (default ∅ (subs r !! conn_id)).
Proof.
  intros [Hidx Hne]. unfold remove_connection.
  destruct (subs r !! conn_id) as [m|] eqn:Hm; simpl; last first.
  { split_and!; [done| |done]. intros cid sid. case_decide as He; [|done]. subst.
    unfold lookup_sub. by rewrite Hm. }
  pose proof (remove_all_from_index conn_id (map_to_list m)
    (set_subs r (delete conn_id (subs r))) [] (no_empty_set_subs _ _ Hne)) as H.
  destruct (foldl _ _ (map_to_list m)) as [r' removed].
  destruct H as (Hsubs & Hne' & -> & Hin).
  assert (∀ cid sid, lookup_sub r' cid sid =
    if decide (cid = conn_id) then None else lookup_sub r cid sid) as Hview.
  { intros cid sid. unfold lookup_sub. rewrite Hsubs. simpl. rewrite lookup_delete.
    repeat case_decide; by simplify_eq. }
  split_and!; [split; [|done]|done|by rewrite app_nil_l, length_fmap, length_map_to_list].
  intros k cid sid. rewrite Hin, in_bucket_set_subs, Hidx, Hview. case_decide as Hc; last first.
  { split; [tauto|]. intros ?. split; [done|]. congruence. }
  subst cid. simpl. rewrite elem_of_nil. split; [|done]. intros [Hk Hall].
  unfold lookup_sub in Hk. rewrite Hm in Hk. simpl in Hk.
  destruct (m !! sid) as [o|] eqn:Ho; [|by apply elem_of_nil in Hk].
  eapply Hall; [|done|done]. by apply elem_of_map_to_list.
Qed.

(** ** Revoking one channel *)

Definition drop_channel (ch : Uuid) (chs : list Uuid) : list Uuid :=
  List.filter (λ c, negb (bool_decide (c = ch))) chs.

(** What a revocation of [ch] in community [c] leaves of a subscription. *)
Definition revoke_entry (c : CommunityId) (ch : Uuid) (o : option SubEntry) : option SubEntry :=
  match o with
  | Some (f, c', Channels chs) =>
      if bool_decide (c' = c) && mem ch chs then
        match drop_channel ch chs with [] => None | chs' => Some (f, c', Channels chs') end
      else o
  | o => o
  end.

Lemma elem_of_drop_channel (ch x : Uuid) (chs : list Uuid) :
  x ∈ drop_channel ch chs ↔ x ∈ chs ∧ x ≠ ch.
Proof.
  unfold drop_channel.
  by rewrite !list_elem_of_In, filter_In, negb_true_iff, bool_decide_eq_false.
Qed.

Lemma channel_keys_disjoint (c : CommunityId) (fs : list Filter) (ch ch' : Uuid) (k : Key) :
  k ∈ channel_keys c fs ch → k ∈ channel_keys c fs ch' → ch = ch'.
Proof.
  unfold channel_keys. destruct (extract_kinds_from_filters fs).
  - intros (? & -> & _)%list_elem_of_fmap (? & Heq & _)%list_elem_of_fmap. by simplify_eq.
  - intros ->%list_elem_of_singleton Heq%list_elem_of_singleton. by simplify_eq.
Qed.

Lemma drop_channel_keys (c : CommunityId) (fs : list Filter) (ch : Uuid) (chs : list Uuid) (k : Key) :
  k ∈ sub_keys c fs (Channels (drop_channel ch chs)) ↔
  k ∈ sub_keys c fs (Channels chs) ∧ k ∉ sub_keys c fs (Channels [ch]).
Proof.
  simpl. rewrite !list_elem_of_bind. rewrite app_nil_r.
  setoid_rewrite elem_of_drop_channel. split.
  - intros (x & Hk & Hx & Hne). split; [by exists x|]. intros Hk'.
    by pose proof (channel_keys_disjoint _ _ _ _ _ Hk Hk').
  - intros [(x & Hk & Hx) Hn]. exists x. split_and!; [done..|]. by intros ->.
Qed.

Lemma set_subs_del_keys (e : SubRef) (ks : list Key) (r : SubscriptionRegistry) x :
  set_subs (foldl (del_key e) r ks) x = foldl (del_key e) (set_subs r x) ks.
Proof.
  revert r. induction ks as [|k ks IH]; intros r; simpl; [done|]. rewrite IH. by destruct k.
Qed.

(** One iteration of [revoke_loop] on a matching subscription. *)
Definition revoke_step (c : CommunityId) (conn_id : ConnId) (ch : Uuid) (sub_id : SubId)
    (f : list Filter) (chs : list Uuid) (m : gmap SubId SubEntry) (r : SubscriptionRegistry)
  : SubscriptionRegistry :=
  let m1 := <[sub_id := (f, c, Channels (drop_channel ch chs))]> m in
  let r2 := remove_from_index (set_subs r (<[conn_id := m1]> (subs r)))
              conn_id sub_id f c (Channels [ch]) in
  if bool_decide (drop_channel ch chs = [])
  then set_subs r2 (<[conn_id := delete sub_id m1]> (subs r2)) else r2.

Lemma revoke_step_spec (r : SubscriptionRegistry) (c : CommunityId) (conn_id : ConnId) (ch : Uuid)
    (sub_id : SubId) (f : list Filter) (chs : list Uuid) (m : gmap SubId SubEntry) :
  registry_inv r → subs r !! conn_id = Some m → m !! sub_id = Some (f, c, Channels chs) →
  ch ∈ chs →
  registry_inv (revoke_step c conn_id ch sub_id f chs m r) ∧
  view_updated r (revoke_step c conn_id ch sub_id f chs m r) conn_id sub_id
    (revoke_entry c ch (Some (f, c, Channels chs))).
Proof.
  intros Hinv Hm Hs Hch.
  set (o := match drop_channel ch chs with [] => None | _ => Some (f, c, Channels (drop_channel ch chs)) end).
  assert (revoke_entry c ch (Some (f, c, Channels chs)) = o) as ->.
  { simpl. rewrite bool_decide_eq_true_2 by done. unfold mem.
    rewrite bool_decide_eq_true_2 by done. simpl. unfold o. by destruct (drop_channel ch chs). }
  set (x := partial_alter (λ _, o) sub_id m).
  assert (revoke_step c conn_id ch sub_id f chs m r =
    foldl (del_key (conn_id, sub_id)) (set_subs r (<[conn_id := x]> (subs r)))
      (sub_keys c f (Channels [ch]))) as ->.
  { unfold revoke_step, x, o. rewrite remove_from_index_keys.
    case_bool_decide as Hd; last first.
    { by destruct (drop_channel ch chs). }
    rewrite set_subs_del_keys, subs_del_keys, Hd. simpl. unfold set_subs; simpl.
    by rewrite insert_insert_eq, delete_insert_eq. }
  assert (view_updated r (set_subs r (<[conn_id := x]> (subs r))) conn_id sub_id o) as Hview.
  { apply (view_updated_insert _ _ _ m); [by rewrite Hm|done]. }
  split.
  - eapply inv_shrink; eauto. intros k.
    assert (lookup_sub r conn_id sub_id = Some (f, c, Channels chs)) as ->.
    { unfold lookup_sub. by rewrite Hm. }
    change (entry_keys (Some (f, c, Channels chs))) with (sub_keys c f (Channels chs)).
    rewrite <- drop_channel_keys. unfold o. by destruct (drop_channel ch chs).
  - intros cid sid. rewrite (lookup_sub_subs _ _ _ _ (subs_del_keys _ _ _)). apply Hview.
Qed.

Definition revocable (r : SubscriptionRegistry) (c : CommunityId) (conn_id : ConnId) (ch : Uuid)
    (sub_id : SubId) : Prop :=
  ∃ f chs, lookup_sub r conn_id sub_id = Some (f, c, Channels chs) ∧ ch ∈ chs.

Lemma revoke_loop_spec (c : CommunityId) (conn_id : ConnId) (ch : Uuid) (sub_ids : list SubId)
    (r : SubscriptionRegistry) (ups : list ChannelSubscriptionUpdate) :
  registry_inv r → NoDup sub_ids → (∀ s, s ∈ sub_ids → revocable r c conn_id ch s) →
  let '(r', ups') := revoke_loop c conn_id ch sub_ids r ups in
  registry_inv r' ∧
  (∀ cid sid, lookup_sub r' cid sid =
     if decide (cid = conn_id ∧ sid ∈ sub_ids) then revoke_entry c ch (lookup_sub r cid sid)
     else lookup_sub r cid sid) ∧
  cu_sub_id <$> ups' = (cu_sub_id <$> ups) ++ sub_ids.
Proof.
  intros Hinv Hnd. revert r ups Hinv.
  induction Hnd as [|s sub_ids Hs Hnd IH]; intros r ups Hinv Hrev; simpl.
  { rewrite app_nil_r. split_and!; [done| |done]. intros cid sid.
    rewrite decide_False; [done|]. intros [_ ?%elem_of_nil]. done. }
  destruct (Hrev s) as (f & chs & Hl & Hch); [by left|].
  unfold lookup_sub in Hl. destruct (subs r !! conn_id) as [m|] eqn:Hm; [|done].
  simpl in Hl. rewrite Hl.
  destruct (revoke_step_spec r c conn_id ch s f chs m Hinv Hm Hl Hch) as [Hinv1 Hview1].
  assert (lookup_sub r conn_id s = Some (f, c, Channels chs)) as Hls.
  { unfold lookup_sub. by rewrite Hm. }
  rewrite <- Hls in Hview1. unfold revoke_step in *.
  change (List.filter (λ c, negb (bool_decide (c = ch))) chs) with (drop_channel ch chs).
  set (r1 := (if bool_decide (drop_channel ch chs = []) then _ else _)) in *.
  specialize (IH r1 (ups ++ [{| cu_sub_id := s;
    cu_removed := bool_decide (drop_channel ch chs = []) |}]) Hinv1).
  destruct (revoke_loop _ _ _ sub_ids r1 _) as [r' ups'].
  destruct IH as (Hinv' & Hview' & Hups).
  { intros s' Hs'. destruct (Hrev s') as (f' & chs' & ? & ?); [by right|].
    exists f', chs'. split; [|done]. rewrite (Hview1 conn_id s').
    rewrite decide_False; [done|]. intros [= ->]. done. }
  split_and!; [done| |].
  - intros cid sid. rewrite Hview', (Hview1 cid sid).
    destruct (decide (cid = conn_id)) as [->|Hc]; last first.
    { by rewrite !decide_False by naive_solver. }
    destruct (decide (sid = s)) as [->|Hsid].
    + rewrite decide_False by naive_solver. rewrite !decide_True; [done|split; [done|by left]|done].
    + rewrite !(decide_False (P := (_, _) = _)) by congruence.
      repeat case_decide; try done; set_solver.
  - by rewrite Hups, fmap_app, <- app_assoc.
Qed.

Lemma remove_channel_spec (r : SubscriptionRegistry) (c : CommunityId) (conn_id : ConnId) (ch : Uuid) :
  registry_inv r →
  let '(r', ups) := remove_channel_subscriptions_scoped r c conn_id ch in
  registry_inv r' ∧
  (∀ cid sid, lookup_sub r' cid sid =
     if decide (cid = conn_id) then revoke_entry c ch (lookup_sub r cid sid)
     else lookup_sub r cid sid) ∧
  (∀ s, s ∈ cu_sub_id <$> ups ↔ revocable r c conn_id ch s).
Proof.
  intros Hinv. unfold remove_channel_subscriptions_scoped.
  set (sub_ids := match subs r !! conn_id with None => _ | Some _ => _ end).
  assert (∀ s, s ∈ sub_ids ↔ revocable r c conn_id ch s) as Hids.
  { intros s. unfold sub_ids, revocable, lookup_sub.
    destruct (subs r !! conn_id) as [m|]; simpl; [|set_solver].
    rewrite list_elem_of_omap. split.
    - intros ([s' [[f c'] sc]] & Hin%elem_of_map_to_list & Hif).
      destruct (bool_decide (c' = c)) eqn:Hc; [|done]. bool_prop. subst c'.
      destruct (mem ch (channel_ids sc)) eqn:Hmem; [|done]. apply mem_true in Hmem.
      simpl in Hif. simplify_eq. destruct sc as [|chs]; [by apply elem_of_nil in Hmem|].
      by exists f, chs.
    - intros (f & chs & Hl & Hch). exists (s, (f, c, Channels chs)).
      split; [by apply elem_of_map_to_list|]. rewrite bool_decide_eq_true_2 by done. simpl.
      by rewrite (proj2 (mem_true ch chs)). }
  assert (NoDup sub_ids) as Hnd.
  { unfold sub_ids. clear sub_ids Hids. destruct (subs r !! conn_id) as [m|]; [|constructor].
    pose proof (NoDup_fst_map_to_list m) as Hk. induction (map_to_list m) as [|[s [[f c'] sc]] l IH];
      simpl; [constructor|]. simpl in Hk. apply NoDup_cons in Hk as [Hn Hk].
    specialize (IH Hk). destruct (_ && _); simpl; [|done]. constructor; [|done].
    intros ([s' [[f' c''] sc']] & Hin & Hif)%list_elem_of_omap.
    destruct (_ && _); [|done]. injection Hif as ->. apply Hn.
    apply list_elem_of_fmap. by exists (s, (f', c'', sc')). }
  pose proof (revoke_loop_spec c conn_id ch sub_ids r [] Hinv Hnd (λ s, proj1 (Hids s))) as H.
  destruct (revoke_loop _ _ _ _ _ _) as [r' ups]. destruct H as (Hinv' & Hview & Hups).
  split_and!; [done| |by rewrite Hups].
  intros cid sid. rewrite Hview. destruct (decide (cid = conn_id)) as [->|]; last first.
  { rewrite decide_False; [done|tauto]. }
  case_decide as Hd; [done|].
  destruct (lookup_sub r conn_id sid) as [[[f c'] [|chs]]|] eqn:Hl; simpl; try done.
  case_bool_decide as Hc; simpl; [|done]. destruct (mem ch chs) eqn:Hmem; [|done].
  exfalso. apply Hd. split; [done|]. apply Hids. exists f, chs. subst. split; [done|].
  by apply mem_true.
Qed.

(** ** Key extraction *)

Lemma elem_of_push_unseen {A} `{EqDecision A} (acc : list A) (x y : A) :
  y ∈ push_unseen acc x ↔ y ∈ acc ∨ y = x.
Proof.
  unfold push_unseen. destruct (mem x acc) eqn:Hm.
  - apply mem_true in Hm. naive_solver.
  - rewrite elem_of_app, list_elem_of_singleton. done.
Qed.

Lemma elem_of_push_all {A} `{EqDecision A} (l acc : list A) (y : A) :
  y ∈ foldl push_unseen acc l ↔ y ∈ acc ∨ y ∈ l.
Proof.
  revert acc. induction l as [|x l IH]; intros acc; simpl.
  { rewrite elem_of_nil. tauto. }
  rewrite IH, elem_of_push_unseen, elem_of_cons. tauto.
Qed.

Lemma extract_kinds_loop_spec (fs : list Filter) (acc ks : list Kind) :
  extract_kinds_loop fs acc = Some ks →
  (∀ f, f ∈ fs → is_Some (f_kinds f)) ∧
  (∀ k, k ∈ ks ↔ k ∈ acc ∨ ∃ f fk, f ∈ fs ∧ f_kinds f = Some fk ∧ k ∈ fk).
Proof.
  revert acc. induction fs as [|f fs IH]; intros acc; simpl.
  { intros [= <-]. split; [intros f ?%elem_of_nil; done|]. intros k. split; [by left|].
    intros [?|(? & ? & ?%elem_of_nil & ?)]; done. }
  destruct (f_kinds f) as [fk|] eqn:Hf; [|done]. intros [Hall Hks]%IH. split.
  - intros f' [->|Hin]%elem_of_cons; eauto.
  - intros k. rewrite Hks, elem_of_push_all. setoid_rewrite elem_of_cons. split.
    + intros [[?|?]|(f' & fk' & ? & ? & ?)]; eauto 8.
    + intros [?|(f' & fk' & [->|?] & ? & ?)]; [by left; left| |by right; eauto].
      simplify_eq. by left; right.
Qed.

Lemma global_p_inner (c : CommunityId) (kinds : list Kind) (ps : list string)
    (acc : list GlobalPKindIndexKey) (key : GlobalPKindIndexKey) :
  key ∈ acc ∨ (gk_community_id key = c ∧ gk_kind key ∈ kinds ∧ gk_p key ∈ ps) →
  key ∈ foldl (λ acc kind, foldl (λ acc p, push_unseen acc
           {| gk_community_id := c; gk_kind := kind; gk_p := p |}) acc ps) acc kinds.
Proof.
  assert (∀ kind acc, key ∈ acc ∨ (key = {| gk_community_id := c; gk_kind := kind; gk_p := gk_p key |}
    ∧ gk_p key ∈ ps) → key ∈ foldl (λ acc p, push_unseen acc
    {| gk_community_id := c; gk_kind := kind; gk_p := p |}) acc ps) as Hin.
  { intros kind. induction ps as [|p ps IH]; intros acc'; simpl.
    { intros [?|[_ ?%elem_of_nil]]; done. }
    intros H. apply IH. rewrite elem_of_push_unseen. rewrite elem_of_cons in H.
    destruct H as [?|[Hk [<-|?]]]; [by left; left|by left; right|by right]. }
  revert acc. induction kinds as [|kind kinds IH]; intros acc; simpl.
  { intros [?|(_ & ?%elem_of_nil & _)]; done. }
  rewrite elem_of_cons. intros [?|(Hc & [Hk|Hk] & Hp)]; apply IH; [left; apply Hin..|by right].
  - by left.
  - right. split; [|done]. destruct key; simpl in *. by subst.
Qed.

Lemma extract_global_p_loop_spec (c : CommunityId) (fs : list Filter)
    (acc keys : list GlobalPKindIndexKey) :
  extract_global_p_loop c fs acc = Some keys →
  (∀ key, key ∈ acc → key ∈ keys) ∧
  (∀ f, f ∈ fs → ∃ fk, f_kinds f = Some fk ∧ ∀ k, k ∈ fk →
     ∃ ps, generic_tags f !! "p" = Some ps ∧
       ∀ p, p ∈ ps → {| gk_community_id := c; gk_kind := k; gk_p := p |} ∈ keys).
Proof.
  revert acc. induction fs as [|f fs IH]; intros acc; simpl.
  { intros [= <-]. split; [done|]. by intros f ?%elem_of_nil. }
  destruct (f_kinds f) as [fk|] eqn:Hf; simpl; [|done].
  destruct fk as [|k0 fk].
  { intros [Hacc Hall]%IH. split; [done|]. intros f' [->|?]%elem_of_cons; [|eauto].
    exists []. split; [done|]. by intros k ?%elem_of_nil. }
  destruct (generic_tags f !! "p") as [ps|] eqn:Hp; simpl; [|done].
  destruct ps as [|p0 ps]; [done|]. intros [Hacc Hall]%IH. split.
  - intros key Hk. apply Hacc. apply (global_p_inner c (k0 :: fk) (p0 :: ps)). by left.
  - intros f' [->|?]%elem_of_cons; [|eauto]. exists (k0 :: fk). split; [done|]. intros k Hk.
    exists (p0 :: ps). split; [done|]. intros p Hpp. apply Hacc.
    apply (global_p_inner c (k0 :: fk) (p0 :: ps)). by right.
Qed.

Lemma elem_of_event_p_tag_values (ev : StoredEvent) (v : string) :
  v ∈ event_p_tag_values ev ↔ v ∈ tag_values_of (event ev) "p".
Proof.
  unfold event_p_tag_values, tag_values_of.
  assert (∀ l acc, v ∈ foldl (λ acc t, if bool_decide (tag_kind t ≠ "p") then acc
      else match tag_content t with Some v => push_unseen acc v | None => acc end) acc l ↔
    v ∈ acc ∨ v ∈ omap tag_content (List.filter (λ t, bool_decide (tag_kind t = "p")) l)) as H.
  { induction l as [|t l IH]; intros acc; simpl; [rewrite elem_of_nil; tauto|]. rewrite IH.
    destruct (decide (tag_kind t = "p")) as [Ht|Ht].
    - rewrite bool_decide_eq_false_2, bool_decide_eq_true_2 by tauto. simpl.
      destruct (tag_content t) as [w|]; [|done]. rewrite elem_of_push_unseen, elem_of_cons. tauto.
    - by rewrite bool_decide_eq_true_2, bool_decide_eq_false_2. }
  rewrite H, elem_of_nil. tauto.
Qed.

(** ** Fan-out *)

(** The buckets fan-out reads for an event. *)
Definition event_keys (c : CommunityId) (ev : StoredEvent) : list Key :=
  let kind := ev_kind (event ev) in
  match channel_id ev with
  | Some ch => [ChannelKind (c, {| ik_channel_id := ch; ik_kind := kind |}); ChannelWildcard (c, ch)]
  | None =>
      ((λ p, GlobalPKind {| gk_community_id := c; gk_kind := kind; gk_p := p |})
         <$> event_p_tag_values ev) ++ [GlobalKind (c, kind); GlobalWildcard c]
  end.

Section fan_out_theory.
Context (uuid_to_string : Uuid → string).

(** The subscription is live in the community, its scope covers the event and
    one of its filters matches. *)
Definition deliverable (r : SubscriptionRegistry) (c : CommunityId) (ev : StoredEvent)
    (e : SubRef) : Prop :=
  ∃ f s, lookup_sub r e.1 e.2 = Some (f, c, s) ∧
    matches_channel s (channel_id ev) = true ∧ filters_match uuid_to_string f ev = true.

Definition acc_ok (acc : list SubRef * gset SubRef) : Prop :=
  NoDup acc.1 ∧ ∀ e, e ∈ acc.2 ↔ e ∈ acc.1.

Lemma push_match_spec (r : SubscriptionRegistry) (c : CommunityId) (ev : StoredEvent)
    (acc : list SubRef * gset SubRef) (e : SubRef) :
  acc_ok acc →
  acc_ok (push_match uuid_to_string r c ev acc e) ∧
  ∀ e', e' ∈ (push_match uuid_to_string r c ev acc e).1 ↔
    e' ∈ acc.1 ∨ (e' = e ∧ deliverable r c ev e).
Proof.
  intros Hok. unfold deliverable. destruct acc as [results seen], e as [cid sid].
  unfold push_match, lookup_sub in *. simpl.
  destruct (subs r !! cid) as [m|]; simpl; [|naive_solver].
  destruct (m !! sid) as [[[f c'] s]|] eqn:Hs; [|naive_solver].
  destruct (bool_decide (c' = c) && matches_channel s (channel_id ev)
            && filters_match uuid_to_string f ev) eqn:Hb; last first.
  { split; [done|]. intros e'. split; [by left|]. intros [?|(_ & f' & s' & [= -> -> ->] & Hm & Hf)]; [done|].
    rewrite bool_decide_eq_true_2, Hm, Hf in Hb by done. done. }
  bool_prop. subst c'.
  assert (∃ f' s', Some (f, c, s) = Some (f', c, s') ∧ matches_channel s' (channel_id ev) = true ∧
    filters_match uuid_to_string f' ev = true) as Hd by eauto.
  destruct Hok as [Hnd Hseen]. simpl in *. case_bool_decide as Hin; simpl.
  - apply Hseen in Hin. split; [done|]. naive_solver.
  - rewrite Hseen in Hin. split; [split|]; simpl.
    + apply NoDup_app. split_and!; [done|set_solver|apply NoDup_singleton].
    + set_solver.
    + intros e'. rewrite elem_of_app, list_elem_of_singleton. tauto.
Qed.

Lemma push_all_spec (r : SubscriptionRegistry) (c : CommunityId) (ev : StoredEvent)
    (es : list SubRef) (acc : list SubRef * gset SubRef) :
  acc_ok acc →
  acc_ok (foldl (push_match uuid_to_string r c ev) acc es) ∧
  ∀ e', e' ∈ (foldl (push_match uuid_to_string r c ev) acc es).1 ↔
    e' ∈ acc.1 ∨ (e' ∈ es ∧ deliverable r c ev e').
Proof.
  revert acc. induction es as [|e es IH]; intros acc Hok; simpl.
  { split; [done|]. intros e'. rewrite elem_of_nil. tauto. }
  destruct (push_match_spec r c ev acc e Hok) as [Hok1 Hin1].
  destruct (IH _ Hok1) as [Hok2 Hin2]. split; [done|].
  intros e'. rewrite Hin2, Hin1, elem_of_cons. naive_solver.
Qed.

Lemma push_bucket_spec (r : SubscriptionRegistry) (c : CommunityId) (ev : StoredEvent)
    (acc : list SubRef * gset SubRef) (k : Key) :
  acc_ok acc →
  acc_ok (push_candidates uuid_to_string r c ev acc (bucket r k)) ∧
  ∀ e', e' ∈ (push_candidates uuid_to_string r c ev acc (bucket r k)).1 ↔
    e' ∈ acc.1 ∨ (in_bucket r k e' ∧ deliverable r c ev e').
Proof.
  intros Hok. unfold push_candidates, in_bucket. destruct (bucket r k) as [es|].
  - destruct (push_all_spec r c ev es acc Hok) as [? H]. split; [done|].
    intros e'. rewrite H. naive_solver.
  - naive_solver.
Qed.

Lemma push_buckets_spec (r : SubscriptionRegistry) (c : CommunityId) (ev : StoredEvent)
    (ks : list Key) (acc : list SubRef * gset SubRef) :
  acc_ok acc →
  let acc' := foldl (λ acc k, push_candidates uuid_to_string r c ev acc (bucket r k)) acc ks in
  acc_ok acc' ∧
  ∀ e', e' ∈ acc'.1 ↔ e' ∈ acc.1 ∨ (∃ k, k ∈ ks ∧ in_bucket r k e' ∧ deliverable r c ev e').
Proof.
  revert acc. induction ks as [|k ks IH]; intros acc Hok; simpl.
  { split; [done|]. intros e'. setoid_rewrite elem_of_nil. naive_solver. }
  destruct (push_bucket_spec r c ev acc k Hok) as [Hok1 Hin1].
  destruct (IH _ Hok1) as [Hok2 Hin2]. split; [done|].
  intros e'. rewrite Hin2, Hin1. setoid_rewrite elem_of_cons. naive_solver.
Qed.

(** Fan-out delivers to the deliverable candidates of the buckets it reads,
    whatever the indexes hold. *)
Lemma fan_out_buckets (r : SubscriptionRegistry) (c : CommunityId) (ev : StoredEvent) :
  NoDup (fan_out_scoped uuid_to_string r c ev) ∧
  ∀ e, e ∈ fan_out_scoped uuid_to_string r c ev ↔
    (∃ k, k ∈ event_keys c ev ∧ in_bucket r k e) ∧ deliverable r c ev e.
Proof.
  assert (fan_out_scoped uuid_to_string r c ev =
    (foldl (λ acc k, push_candidates uuid_to_string r c ev acc (bucket r k)) ([], ∅)
       (event_keys c ev)).1) as ->.
  { unfold fan_out_scoped, event_keys. destruct (channel_id ev) as [ch|]; [done|].
    rewrite foldl_app. simpl. do 4 f_equal. generalize (([], ∅) : list SubRef * gset SubRef).
    induction (event_p_tag_values ev) as [|p ps IH]; intros acc; simpl; [done|]. apply IH. }
  destruct (push_buckets_spec r c ev (event_keys c ev) ([], ∅)) as [[Hnd _] Hin].
  { split; simpl; [constructor|set_solver]. }
  split; [done|]. intros e. rewrite Hin. simpl. rewrite elem_of_nil. naive_solver.
Qed.

(** The bucket of a subscription that an event reaches is one fan-out reads. *)
Lemma sub_keys_cover (c : CommunityId) (fs : list Filter) (s : SubscriptionScope) (ev : StoredEvent) :
  matches_channel s (channel_id ev) = true → filters_match uuid_to_string fs ev = true →
  ∃ k, k ∈ event_keys c ev ∧ k ∈ sub_keys c fs s.
Proof.
  intros Hs (f & Hf & Hsat)%filters_match_sat. destruct Hsat as [Hkind _ _ _ _ Htags].
  assert (∀ ks, extract_kinds_from_filters fs = Some ks → ev_kind (event ev) ∈ ks) as Hks.
  { intros ks [Hall Hin]%extract_kinds_loop_spec. apply Hin. right.
    destruct (Hall f Hf) as [fk Hfk]. exists f, fk. auto. }
  unfold event_keys, sub_keys.
  destruct s as [|chs], (channel_id ev) as [ch|]; simpl in Hs; try done.
  - destruct (extract_global_p_kind_index_keys c fs) as [keys|] eqn:Hp.
    + apply extract_global_p_loop_spec in Hp as [_ Hall].
      destruct (Hall f Hf) as (fk & Hfk & Hk). destruct (Hk _ (Hkind _ Hfk)) as (ps & Hps & Hin).
      destruct (Htags _ _ Hps) as [(p & Hp1 & Hp2)|(? & _)]; [|done].
      eexists. rewrite elem_of_app, !list_elem_of_fmap. split; [left|]; eexists; (split; [done|]).
      * by apply elem_of_event_p_tag_values.
      * by apply Hin.
    + destruct (extract_kinds_from_filters fs) as [ks|].
      * exists (GlobalKind (c, ev_kind (event ev))). split; [set_solver|].
        apply list_elem_of_fmap. eauto.
      * exists (GlobalWildcard c). set_solver.
  - apply mem_true in Hs. unfold channel_keys.
    destruct (extract_kinds_from_filters fs) as [ks|].
    + exists (ChannelKind (c, {| ik_channel_id := ch; ik_kind := ev_kind (event ev) |})).
      split; [set_solver|]. apply list_elem_of_bind. exists ch. split; [|done].
      apply list_elem_of_fmap. eauto.
    + exists (ChannelWildcard (c, ch)). split; [set_solver|].
      apply list_elem_of_bind. exists ch. split; [|done]. by apply list_elem_of_singleton.
Qed.

Lemma fan_out_spec (r : SubscriptionRegistry) (c : CommunityId) (ev : StoredEvent) (e : SubRef) :
  registry_inv r →
  e ∈ fan_out_scoped uuid_to_string r c ev ↔ deliverable r c ev e.
Proof.
  intros [Hidx _]. rewrite (proj2 (fan_out_buckets r c ev)). split; [tauto|].
  intros Hd. split; [|done]. destruct e as [cid sid]. destruct Hd as (f & s & Hl & Hs & Hf).
  destruct (sub_keys_cover c f s ev Hs Hf) as (k & Hk1 & Hk2).
  exists k. split; [done|]. apply Hidx. simpl in Hl. by rewrite Hl.
Qed.

End fan_out_theory.

(** ** The registry as an abstract map

    The specification of the registry: a map from (connection, subscription)
    to its entry, with no index. *)

Inductive Op :=
  | OpRegister (c : CommunityId) (conn_id : ConnId) (sub_id : SubId) (fs : list Filter)
      (scope : SubscriptionScope)
  | OpRemove (conn_id : ConnId) (sub_id : SubId)
  | OpRemoveConnection (conn_id : ConnId)
  | OpRevoke (c : CommunityId) (conn_id : ConnId) (ch : Uuid).

Definition step (r : SubscriptionRegistry) (op : Op) : SubscriptionRegistry :=
  match op with
  | OpRegister c conn sub fs scope => (register_with_scope r c conn sub fs scope).1
  | OpRemove conn sub => (remove_subscription r conn sub).1
  | OpRemoveConnection conn => (remove_connection r conn).1
  | OpRevoke c conn ch => (remove_channel_subscriptions_scoped r c conn ch).1
  end.

Definition abs_step (m : gmap SubRef SubEntry) (op : Op) : gmap SubRef SubEntry :=
  match op with
  | OpRegister c conn sub fs scope => <[(conn, sub) := (fs, c, scope)]> m
  | OpRemove conn sub => delete (conn, sub) m
  | OpRemoveConnection conn => filter (λ kv, kv.1.1 ≠ conn) m
  | OpRevoke c conn ch =>
      map_imap (λ e o, if decide (e.1 = conn) then revoke_entry c ch (Some o) else Some o) m
  end.

Definition run (ops : list Op) : SubscriptionRegistry := foldl step new ops.
Definition abs_run (ops : list Op) : gmap SubRef SubEntry := foldl abs_step ∅ ops.

Definition refines (r : SubscriptionRegistry) (m : gmap SubRef SubEntry) : Prop :=
  registry_inv r ∧ ∀ cid sid, lookup_sub r cid sid = m !! (cid, sid).

Lemma step_refines (r : SubscriptionRegistry) (m : gmap SubRef SubEntry) (op : Op) :
  refines r m → refines (step r op) (abs_step m op).
Proof.
  intros [Hinv Hm]. destruct op as [c conn sub fs scope|conn sub|conn|c conn ch]; simpl.
  - pose proof (register_with_scope_spec r c conn sub fs scope Hinv) as H.
    destruct (register_with_scope _ _ _ _ _ _) as [r' o]. destruct H as (? & Hv & _).
    split; [done|]. intros cid sid. simpl. rewrite (Hv cid sid), lookup_insert, Hm.
    repeat case_decide; by simplify_eq.
  - pose proof (remove_subscription_spec r conn sub Hinv) as H.
    destruct (remove_subscription _ _ _) as [r' o]. destruct H as (? & Hv & _).
    split; [done|]. intros cid sid. simpl. rewrite (Hv cid sid), lookup_delete, Hm.
    repeat case_decide; by simplify_eq.
  - pose proof (remove_connection_spec r conn Hinv) as H.
    destruct (remove_connection _ _) as [r' o]. destruct H as (? & Hv & _).
    split; [done|]. intros cid sid. simpl. rewrite Hv, map_lookup_filter, Hm.
    destruct (m !! (cid, sid)); simpl; by repeat case_decide || case_guard.
  - pose proof (remove_channel_spec r c conn ch Hinv) as H.
    destruct (remove_channel_subscriptions_scoped _ _ _ _) as [r' o]. destruct H as (? & Hv & _).
    split; [done|]. intros cid sid. simpl. rewrite Hv, map_lookup_imap, Hm. simpl.
    destruct (m !! (cid, sid)) as [o'|]; simpl; case_decide; done.
Qed.

Lemma run_refines (ops : list Op) : refines (run ops) (abs_run ops).
Proof.
  unfold run, abs_run.
  assert (refines new ∅) as H0.
  { split; [apply inv_new|]. intros cid sid. unfold lookup_sub. by rewrite lookup_empty. }
  revert H0. generalize new, (∅ : gmap SubRef SubEntry).
  induction ops as [|op ops IH]; intros r m H0; simpl; [done|]. by apply IH, step_refines.
Qed.

(** Connections with a channel subscription that can receive something. *)
Lemma channel_conns_fold (c : CommunityId) (ch : Uuid)
    (l : list ((CommunityId * IndexKey) * list SubRef)) (acc : gset ConnId) (x : ConnId) :
  x ∈ foldl (λ conns '((c', key), entries),
      if bool_decide (c' = c) && bool_decide (ik_channel_id key = ch)
      then conns ∪ list_to_set (fst <$> entries) else conns) acc l ↔
  x ∈ acc ∨ ∃ kind entries sid,
    ((c, {| ik_channel_id := ch; ik_kind := kind |}), entries) ∈ l ∧ (x, sid) ∈ entries.
Proof.
  revert acc. induction l as [|[[c' [ch' kd]] es] l IH]; intros acc; simpl.
  { setoid_rewrite elem_of_nil. naive_solver. }
  rewrite IH. setoid_rewrite elem_of_cons. destruct (bool_decide (c' = c) && _) eqn:Hb.
  - bool_prop. simpl in *. subst. rewrite elem_of_union, elem_of_list_to_set, list_elem_of_fmap.
    split.
    + intros [[?|([? sid] & -> & ?)]|(kd' & es' & sid & ? & ?)]; [by left|right..]; naive_solver.
    + intros [?|(kd' & es' & sid & [Heq|?] & ?)]; [by left; left| |right; naive_solver].
      simplify_eq. left; right. by exists (x, sid).
  - split; [naive_solver|]. intros [?|(kd' & es' & sid & [Heq|?] & ?)]; [by left| |right; naive_solver].
    simplify_eq. simpl in Hb. by rewrite !bool_decide_eq_true_2 in Hb.
Qed.

Lemma channel_conns_buckets (r : SubscriptionRegistry) (c : CommunityId) (ch : Uuid) (x : ConnId) :
  x ∈ channel_subscriber_conns_scoped r c ch ↔
  ∃ sid, (∃ kind, in_bucket r (ChannelKind (c, {| ik_channel_id := ch; ik_kind := kind |})) (x, sid)) ∨
         in_bucket r (ChannelWildcard (c, ch)) (x, sid).
Proof.
  unfold channel_subscriber_conns_scoped, in_bucket. rewrite elem_of_elements. simpl.
  destruct (channel_wildcard_index r !! (c, ch)) as [es|].
  - rewrite elem_of_union, channel_conns_fold, elem_of_list_to_set, list_elem_of_fmap.
    setoid_rewrite elem_of_map_to_list. split.
    + intros [[?%elem_of_empty|(kd & es' & sid & ? & ?)]|([? sid] & -> & ?)]; [done|..]; naive_solver.
    + intros (sid & [(kd & es' & ? & ?)|(es' & [= <-] & ?)]); [left; right; naive_solver|right].
      by exists (x, sid).
  - rewrite channel_conns_fold. setoid_rewrite elem_of_map_to_list. set_solver.
Qed.

Lemma channel_key_in_sub_keys (c c' : CommunityId) (fs : list Filter) (s : SubscriptionScope)
    (ch : Uuid) :
  (∃ kd, ChannelKind (c, {| ik_channel_id := ch; ik_kind := kd |}) ∈ sub_keys c' fs s) ∨
  ChannelWildcard (c, ch) ∈ sub_keys c' fs s ↔
  c' = c ∧ ch ∈ channel_ids s ∧ extract_kinds_from_filters fs ≠ Some [].
Proof.
  unfold sub_keys. destruct s as [|chs]; simpl.
  - destruct (extract_global_p_kind_index_keys c' fs); [|destruct (extract_kinds_from_filters fs)];
      set_solver.
  - unfold channel_keys. setoid_rewrite list_elem_of_bind.
    destruct (extract_kinds_from_filters fs) as [ks|].
    + setoid_rewrite list_elem_of_fmap. split.
      * intros [(kd & x & (k & Heq & Hk) & Hx)|(x & (k & ? & ?) & ?)]; [|done].
        injection Heq as -> -> ->. split_and!; [done..|]. intros [= ->]. by apply elem_of_nil in Hk.
      * intros (-> & Hch & Hne). destruct ks as [|k ks]; [done|]. left. exists k, ch.
        split; [|done]. exists k. split; [done|by left].
    + setoid_rewrite list_elem_of_singleton. naive_solver.
Qed.

(** ** Properties *)

Section properties.
Context (uuid_to_string : Uuid → string).

(** C27 After any sequence of registrations, removals, disconnections and channel
    revocations, fan-out delivers an event to exactly the live subscriptions of
    that community whose scope covers the event's channel and one of whose
    filters matches, each once: the five indexes lose nothing and add nothing
    to the linear scan of the abstract map. *)
Theorem fan_out_exact (ops : list Op) (c : CommunityId) (ev : StoredEvent) :
  NoDup (fan_out_scoped uuid_to_string (run ops) c ev) ∧
  ∀ conn sub, (conn, sub) ∈ fan_out_scoped uuid_to_string (run ops) c ev ↔
    ∃ fs s, abs_run ops !! (conn, sub) = Some (fs, c, s) ∧
      matches_channel s (channel_id ev) = true ∧ filters_match uuid_to_string fs ev = true.
Proof.
  destruct (run_refines ops) as [Hinv Hv]. split; [apply fan_out_buckets|].
  intros conn sub. rewrite fan_out_spec by done. unfold deliverable. simpl. by rewrite Hv.
Qed.

(** Fan-out is safe even when it runs on index snapshots that are out of
    date (any index contents at all): it never delivers to a subscription of
    another community, to a global subscription an event of a channel, to a
    channel subscription a global event or an event of a channel outside its
    scope, or anything twice. *)
Theorem fan_out_no_cross_scope (r : SubscriptionRegistry) (c : CommunityId) (ev : StoredEvent) :
  NoDup (fan_out_scoped uuid_to_string r c ev) ∧
  ∀ conn sub, (conn, sub) ∈ fan_out_scoped uuid_to_string r c ev →
    ∃ fs s, lookup_sub r conn sub = Some (fs, c, s) ∧
      filters_match uuid_to_string fs ev = true ∧
      match channel_id ev with None => s = Global | Some ch => ch ∈ channel_ids s end.
Proof.
  destruct (fan_out_buckets uuid_to_string r c ev) as [Hnd Hin]. split; [done|].
  intros conn sub Hd. apply Hin in Hd as (_ & fs & s & Hl & Hs & Hf).
  exists fs, s. split_and!; [done..|].
  destruct s as [|chs], (channel_id ev); simpl in *; try done. by apply mem_true.
Qed.

End properties.

(** The registry refines the abstract map of subscriptions: for every
    sequence of operations the index invariant holds (a bucket holds a
    subscription exactly when the subscription's filters and scope call for
    it, no bucket is kept empty) and lookups agree with the map. *)
Theorem registry_refines_map (ops : list Op) :
  registry_inv (run ops) ∧
  ∀ conn sub, lookup_sub (run ops) conn sub = abs_run ops !! (conn, sub).
Proof. apply run_refines. Qed.

(** No index entry outlives its subscription: when no subscription is left,
    all five indexes are empty. *)
Theorem indexes_do_not_leak (ops : list Op) :
  abs_run ops = ∅ →
  channel_kind_index (run ops) = ∅ ∧ channel_wildcard_index (run ops) = ∅ ∧
  global_kind_index (run ops) = ∅ ∧ global_p_kind_index (run ops) = ∅ ∧
  global_wildcard_index (run ops) = ∅.
Proof.
  intros Hempty. destruct (run_refines ops) as [[Hidx Hne] Hv].
  assert (∀ k, bucket (run ops) k = None) as Hb.
  { intros k. destruct (bucket (run ops) k) as [[|[cid sid] es]|] eqn:Hk; [by apply Hne in Hk| |done].
    assert (in_bucket (run ops) k (cid, sid)) as Hin by (eexists; split; [done|by left]).
    apply Hidx in Hin. rewrite Hv, Hempty, lookup_empty in Hin. by apply elem_of_nil in Hin. }
  split_and!; apply map_eq; intros i; rewrite lookup_empty.
  - apply (Hb (ChannelKind i)).
  - apply (Hb (ChannelWildcard i)).
  - apply (Hb (GlobalKind i)).
  - apply (Hb (GlobalPKind i)).
  - apply (Hb (GlobalWildcard i)).
Qed.

Definition example_filter : Filter :=
  {| f_ids := None; f_authors := None; f_kinds := Some [9%N; 7%N]; f_since := None;
     f_until := None; generic_tags := ∅ |}.

Lemma indexes_do_not_leak_witness :
  channel_kind_index (run [OpRegister 1%N 2%N "a" [example_filter] (Channels [3%N; 4%N]);
                           OpRevoke 1%N 2%N 3%N; OpRevoke 1%N 2%N 4%N]) = ∅.
Proof.
  apply (indexes_do_not_leak [OpRegister 1%N 2%N "a" [example_filter] (Channels [3%N; 4%N]);
                           OpRevoke 1%N 2%N 3%N; OpRevoke 1%N 2%N 4%N]).
  vm_compute. reflexivity.
Defined.

(** The connections reported for a channel are exactly those with a live
    subscription of the community scoped to the channel, apart from
    subscriptions whose every filter has an empty [kinds] list (they are never
    indexed, and can never receive an event). *)
Theorem channel_subscriber_conns_exact (ops : list Op) (c : CommunityId) (ch : Uuid) (conn : ConnId) :
  conn ∈ channel_subscriber_conns_scoped (run ops) c ch ↔
  ∃ sub fs s, abs_run ops !! (conn, sub) = Some (fs, c, s) ∧ ch ∈ channel_ids s ∧
    extract_kinds_from_filters fs ≠ Some [].
Proof.
  destruct (run_refines ops) as [[Hidx _] Hv]. rewrite channel_conns_buckets.
  setoid_rewrite Hidx. setoid_rewrite Hv. split.
  - intros (sid & H). exists sid. destruct (abs_run ops !! (conn, sid)) as [[[fs c'] s]|]; simpl in H.
    + apply channel_key_in_sub_keys in H as (-> & ? & ?). by exists fs, s.
    + setoid_rewrite elem_of_nil in H. naive_solver.
  - intros (sid & fs & s & Hl & Hch & Hne). exists sid. rewrite Hl. by apply channel_key_in_sub_keys.
Qed.

(** Every operation returns what it removed: replacing or removing a
    subscription reports the community and scope it had, a disconnection
    reports one entry per subscription of the connection, and a revocation
    reports exactly the subscriptions of that community that covered the
    channel. *)
Theorem operations_report_removals (ops : list Op) (c : CommunityId) (conn : ConnId) (sub : SubId)
    (fs : list Filter) (scope : SubscriptionScope) (ch : Uuid) :
  let r := run ops in
  let old := (λ '(_, c, s), {| rs_community_id := c; rs_scope := s |}) <$> abs_run ops !! (conn, sub) in
  (register_with_scope r c conn sub fs scope).2 = old ∧
  (remove_subscription r conn sub).2 = old ∧
  length (remove_connection r conn).2 = size (default ∅ (subs r !! conn)) ∧
  ∀ s, s ∈ cu_sub_id <$> (remove_channel_subscriptions_scoped r c conn ch).2 ↔
    ∃ fs chs, abs_run ops !! (conn, s) = Some (fs, c, Channels chs) ∧ ch ∈ chs.
Proof.
  destruct (run_refines ops) as [Hinv Hv]. simpl. rewrite <- Hv. split_and!.
  - pose proof (register_with_scope_spec _ c conn sub fs scope Hinv) as H.
    destruct (register_with_scope _ _ _ _ _ _). naive_solver.
  - pose proof (remove_subscription_spec _ conn sub Hinv) as H.
    destruct (remove_subscription _ _ _). naive_solver.
  - pose proof (remove_connection_spec _ conn Hinv) as H.
    destruct (remove_connection _ _). naive_solver.
  - pose proof (remove_channel_spec _ c conn ch Hinv) as H. intros s.
    destruct (remove_channel_subscriptions_scoped _ _ _ _). destruct H as (_ & _ & H).
    simpl. rewrite H. unfold revocable. by setoid_rewrite Hv.
Qed.

(** [total_connections] counts connections whose last subscription was
    closed: after a registration and its removal it is 1 while no subscription
    is left, although its documentation promises connections with at least one
    active subscription. *)
Theorem total_connections_counts_idle :
  let r := run [OpRegister 1%N 2%N "a" [example_filter] Global; OpRemove 2%N "a"] in
  total_connections r = 1 ∧ total_subscriptions r = 0.
Proof. vm_compute. split; reflexivity. Qed.
