(* ===== verification/EventQueue.v ===== *)
(** * The agent harness's event queue (buzz-acp/src/queue.rs)

    Per-channel queues of relay events waiting to be prompted to an agent, with
    in-flight tracking and its deadlines, retry backoff and dead-lettering,
    cancelled batches, and the side table of events withheld while a native
    steer is in flight.

    [Instant] and [Duration] are integers of nanoseconds; the clock is a
    parameter [now] of the operations that read it. The choice among hash-map
    entries goes through [HashIteration]. The [f64] arithmetic of the retry
    jitter is carried out exactly and rounded down to the nanosecond. Logging
    is left out. *)

From S2P Require Import Prelude Filter.

Open Scope string_scope.
Open Scope nat_scope.
Open Scope list_scope.

Abbreviation Instant := Z (only parsing).

Definition MAX_PENDING_PER_CHANNEL : nat := 500.
Definition MAX_BATCH_EVENTS : nat := 50.
Definition MAX_RETRIES : Z := 10.
Definition BASE_RETRY_DELAY_SECS : Z := 5.
Definition MAX_RETRY_DELAY_SECS : Z := 300.
Definition IN_FLIGHT_DEADLINE_BUFFER_SECS : Z := 100.
Definition DEFAULT_IN_FLIGHT_DEADLINE_SECS : Z := 7300.

(** [Duration::from_secs] *)
Definition from_secs (s : Z) : Z := (s * 1000000000)%Z.

Inductive DedupMode := Drop | Queue.

Record QueuedEvent := {
  q_channel_id : Uuid;
  q_event : Event;
  q_received_at : Instant;
  q_prompt_tag : string;
  q_is_issue : bool
}.

Record BatchEvent := {
  b_event : Event;
  b_prompt_tag : string;
  b_received_at : Instant;
  b_is_issue : bool
}.

Inductive CancelReason := Interrupt | Steer.

Record FlushBatch := {
  fb_channel_id : Uuid;
  fb_events : list BatchEvent;
  fb_cancelled_events : list BatchEvent;
  fb_cancel_reason : option CancelReason
}.

Record EventQueue := {
  queues : gmap Uuid (list QueuedEvent);
  in_flight_channels : gset Uuid;
  in_flight_deadlines : gmap Uuid Instant;
  in_flight_batch_sizes : gmap Uuid nat;
  retry_after : gmap Uuid Instant;
  retry_counts : gmap Uuid Z;
  dedup_mode : DedupMode;
  cancelled_batches : gmap Uuid (list BatchEvent);
  cancel_reasons : gmap Uuid CancelReason;
  withheld_native_steer : gmap Uuid (list QueuedEvent);
  in_flight_deadline : Z
}.

Definition set_queues (q : EventQueue) x : EventQueue :=
  {| queues := x; in_flight_channels := in_flight_channels q;
     in_flight_deadlines := in_flight_deadlines q;
     in_flight_batch_sizes := in_flight_batch_sizes q; retry_after := retry_after q;
     retry_counts := retry_counts q; dedup_mode := dedup_mode q;
     cancelled_batches := cancelled_batches q; cancel_reasons := cancel_reasons q;
     withheld_native_steer := withheld_native_steer q;
     in_flight_deadline := in_flight_deadline q |}.
Definition set_in_flight_channels (q : EventQueue) x : EventQueue :=
  {| queues := queues q; in_flight_channels := x; in_flight_deadlines := in_flight_deadlines q;
     in_flight_batch_sizes := in_flight_batch_sizes q; retry_after := retry_after q;
     retry_counts := retry_counts q; dedup_mode := dedup_mode q;
     cancelled_batches := cancelled_batches q; cancel_reasons := cancel_reasons q;
     withheld_native_steer := withheld_native_steer q;
     in_flight_deadline := in_flight_deadline q |}.
Definition set_in_flight_deadlines (q : EventQueue) x : EventQueue :=
  {| queues := queues q; in_flight_channels := in_flight_channels q; in_flight_deadlines := x;
     in_flight_batch_sizes := in_flight_batch_sizes q; retry_after := retry_after q;
     retry_counts := retry_counts q; dedup_mode := dedup_mode q;
     cancelled_batches := cancelled_batches q; cancel_reasons := cancel_reasons q;
     withheld_native_steer := withheld_native_steer q;
     in_flight_deadline := in_flight_deadline q |}.
Definition set_in_flight_batch_sizes (q : EventQueue) x : EventQueue :=
  {| queues := queues q; in_flight_channels := in_flight_channels q;
     in_flight_deadlines := in_flight_deadlines q; in_flight_batch_sizes := x;
     retry_after := retry_after q; retry_counts := retry_counts q; dedup_mode := dedup_mode q;
     cancelled_batches := cancelled_batches q; cancel_reasons := cancel_reasons q;
     withheld_native_steer := withheld_native_steer q;
     in_flight_deadline := in_flight_deadline q |}.
Definition set_retry_after (q : EventQueue) x : EventQueue :=
  {| queues := queues q; in_flight_channels := in_flight_channels q;
     in_flight_deadlines := in_flight_deadlines q;
     in_flight_batch_sizes := in_flight_batch_sizes q; retry_after := x;
     retry_counts := retry_counts q; dedup_mode := dedup_mode q;
     cancelled_batches := cancelled_batches q; cancel_reasons := cancel_reasons q;
     withheld_native_steer := withheld_native_steer q;
     in_flight_deadline := in_flight_deadline q |}.
Definition set_retry_counts (q : EventQueue) x : EventQueue :=
  {| queues := queues q; in_flight_channels := in_flight_channels q;
     in_flight_deadlines := in_flight_deadlines q;
     in_flight_batch_sizes := in_flight_batch_sizes q; retry_after := retry_after q;
     retry_counts := x; dedup_mode := dedup_mode q; cancelled_batches := cancelled_batches q;
     cancel_reasons := cancel_reasons q; withheld_native_steer := withheld_native_steer q;
     in_flight_deadline := in_flight_deadline q |}.
Definition set_cancelled_batches (q : EventQueue) x : EventQueue :=
  {| queues := queues q; in_flight_channels := in_flight_channels q;
     in_flight_deadlines := in_flight_deadlines q;
     in_flight_batch_sizes := in_flight_batch_sizes q; retry_after := retry_after q;
     retry_counts := retry_counts q; dedup_mode := dedup_mode q; cancelled_batches := x;
     cancel_reasons := cancel_reasons q; withheld_native_steer := withheld_native_steer q;
     in_flight_deadline := in_flight_deadline q |}.
Definition set_cancel_reasons (q : EventQueue) x : EventQueue :=
  {| queues := queues q; in_flight_channels := in_flight_channels q;
     in_flight_deadlines := in_flight_deadlines q;
     in_flight_batch_sizes := in_flight_batch_sizes q; retry_after := retry_after q;
     retry_counts := retry_counts q; dedup_mode := dedup_mode q;
     cancelled_batches := cancelled_batches q; cancel_reasons := x;
     withheld_native_steer := withheld_native_steer q;
     in_flight_deadline := in_flight_deadline q |}.
Definition set_withheld_native_steer (q : EventQueue) x : EventQueue :=
  {| queues := queues q; in_flight_channels := in_flight_channels q;
     in_flight_deadlines := in_flight_deadlines q;
     in_flight_batch_sizes := in_flight_batch_sizes q; retry_after := retry_after q;
     retry_counts := retry_counts q; dedup_mode := dedup_mode q;
     cancelled_batches := cancelled_batches q; cancel_reasons := cancel_reasons q;
     withheld_native_steer := x; in_flight_deadline := in_flight_deadline q |}.
Definition set_in_flight_deadline (q : EventQueue) x : EventQueue :=
  {| queues := queues q; in_flight_channels := in_flight_channels q;
     in_flight_deadlines := in_flight_deadlines q;
     in_flight_batch_sizes := in_flight_batch_sizes q; retry_after := retry_after q;
     retry_counts := retry_counts q; dedup_mode := dedup_mode q;
     cancelled_batches := cancelled_batches q; cancel_reasons := cancel_reasons q;
     withheld_native_steer := withheld_native_steer q; in_flight_deadline := x |}.

Definition new (mode : DedupMode) : EventQueue :=
  {| queues := ∅; in_flight_channels := ∅; in_flight_deadlines := ∅;
     in_flight_batch_sizes := ∅; retry_after := ∅; retry_counts := ∅; dedup_mode := mode;
     cancelled_batches := ∅; cancel_reasons := ∅; withheld_native_steer := ∅;
     in_flight_deadline := from_secs DEFAULT_IN_FLIGHT_DEADLINE_SECS |}.

Definition with_in_flight_deadline (q : EventQueue) (max_turn_duration_secs : Z) : EventQueue :=
  set_in_flight_deadline q
    (from_secs (u64_wrapping_add max_turn_duration_secs IN_FLIGHT_DEADLINE_BUFFER_SECS)).

(** The events of one channel's queue, [[]] when it has none *)
Definition queue_of (q : EventQueue) (c : Uuid) : list QueuedEvent := default [] (queues q !! c).

Definition to_batch (qe : QueuedEvent) : BatchEvent :=
  {| b_event := q_event qe; b_prompt_tag := q_prompt_tag qe;
     b_received_at := q_received_at qe; b_is_issue := q_is_issue qe |}.

Definition to_queued (c : Uuid) (be : BatchEvent) : QueuedEvent :=
  {| q_channel_id := c; q_event := b_event be; q_received_at := b_received_at be;
     q_prompt_tag := b_prompt_tag be; q_is_issue := b_is_issue be |}.

(** [while queue.len() > MAX_PENDING_PER_CHANNEL { queue.pop_back() }] *)
Fixpoint trim_loop (fuel : nat) (l : list QueuedEvent) : list QueuedEvent :=
  match fuel with
  | 0 => l
  | S fuel => if MAX_PENDING_PER_CHANNEL <? length l then trim_loop fuel (removelast l) else l
  end.

Definition trim (l : list QueuedEvent) : list QueuedEvent := trim_loop (length l) l.

(** [for x in xs.into_iter().rev() { queue.push_front(x) }] *)
Definition push_front_all (xs queue : list QueuedEvent) : list QueuedEvent :=
  foldl (λ queue x, x :: queue) queue (reverse xs).

Definition extend_in_flight_deadline (now : Instant) (q : EventQueue) (c : Uuid)
    (max_turn_secs : Z) : EventQueue :=
  match in_flight_deadlines q !! c with
  | Some current =>
      let extended := (now + from_secs (u64_wrapping_add max_turn_secs
                                          IN_FLIGHT_DEADLINE_BUFFER_SECS))%Z in
      if (current <? extended)%Z
      then set_in_flight_deadlines q (<[c := extended]> (in_flight_deadlines q)) else q
  | None => q
  end.

Definition push (q : EventQueue) (e : QueuedEvent) : EventQueue * bool :=
  let c := q_channel_id e in
  if match dedup_mode q with Drop => bool_decide (c ∈ in_flight_channels q) | Queue => false end
  then (q, false)
  else
    let queue := queue_of q c in
    let queue := if MAX_PENDING_PER_CHANNEL <=? length queue then tail queue else queue in
    (set_queues q (<[c := queue ++ [e]]> (queues q)), true).

Definition recover_withheld_for_expired_channel (q : EventQueue) (c : Uuid) : EventQueue :=
  match withheld_native_steer q !! c with
  | None => q
  | Some entries =>
      let q1 := set_withheld_native_steer q (delete c (withheld_native_steer q)) in
      set_queues q1 (<[c := trim (push_front_all entries (queue_of q1 c))]> (queues q1))
  end.

(** One iteration of the auto-expiry loop of [flush_next] and [has_flushable_work]. *)
Definition expire_one (q : EventQueue) (c : Uuid) : EventQueue :=
  let q := set_in_flight_batch_sizes q (delete c (in_flight_batch_sizes q)) in
  let q := set_in_flight_channels q (in_flight_channels q ∖ {[c]}) in
  let q := set_in_flight_deadlines q (delete c (in_flight_deadlines q)) in
  recover_withheld_for_expired_channel q c.

Definition mark_complete (now : Instant) (q : EventQueue) (c : Uuid) : EventQueue :=
  let q := set_in_flight_channels q (in_flight_channels q ∖ {[c]}) in
  let q := set_in_flight_deadlines q (delete c (in_flight_deadlines q)) in
  let q := set_in_flight_batch_sizes q (delete c (in_flight_batch_sizes q)) in
  match retry_after q !! c with
  | Some deadline =>
      if (now <? deadline)%Z then q
      else set_retry_counts (set_retry_after q (delete c (retry_after q)))
             (delete c (retry_counts q))
  | None => set_retry_counts q (delete c (retry_counts q))
  end.

(** The backoff delay in nanoseconds; [nanos] is [subsec_nanos()]. The jitter
    factor is [0.8 + nanos / u32::MAX * 0.4]. *)
Definition retry_delay (attempt nanos : Z) : Z :=
  let base_secs := Z.min (BASE_RETRY_DELAY_SECS * Z.shiftl 1 (Z.min (attempt - 1) 6)) u64_max in
  let capped_secs := Z.min base_secs MAX_RETRY_DELAY_SECS in
  ((from_secs capped_secs * (8 * u32_max + 4 * nanos)) / (10 * u32_max))%Z.

(** [nanos] is the sub-second part of the wall clock, [now] the monotonic clock. *)
Definition requeue (nanos : Z) (now : Instant) (q : EventQueue) (batch : FlushBatch)
  : EventQueue * option FlushBatch :=
  let c := fb_channel_id batch in
  let attempt := (default 0 (retry_counts q !! c) + 1)%Z in
  let q := set_retry_counts q (<[c := attempt]> (retry_counts q)) in
  if (MAX_RETRIES <? attempt)%Z then
    let q := set_retry_counts q (delete c (retry_counts q)) in
    (set_retry_after q (delete c (retry_after q)), Some batch)
  else
    let delay := retry_delay attempt nanos in
    let queue := push_front_all (to_queued c <$> fb_events batch) (queue_of q c) in
    let q := set_queues q (<[c := trim queue]> (queues q)) in
    (set_retry_after q (<[c := (now + delay)%Z]> (retry_after q)), None).

Definition requeue_preserve_timestamps (q : EventQueue) (batch : FlushBatch) : EventQueue :=
  let c := fb_channel_id batch in
  let queue := push_front_all (to_queued c <$> fb_events batch) (queue_of q c) in
  set_queues q (<[c := trim queue]> (queues q)).

Definition requeue_as_cancelled (q : EventQueue) (batch : FlushBatch) (r : CancelReason)
  : EventQueue :=
  let c := fb_channel_id batch in
  let entry := default [] (cancelled_batches q !! c) in
  let q := set_cancelled_batches q
    (<[c := (entry ++ fb_cancelled_events batch) ++ fb_events batch]> (cancelled_batches q)) in
  set_cancel_reasons q (<[c := r]> (cancel_reasons q)).

Definition pending_channels (q : EventQueue) : nat := size (queues q).

Definition drain_channel (q : EventQueue) (c : Uuid) : EventQueue * list string :=
  let ids := (λ e, ev_id_hex (q_event e)) <$> queue_of q c in
  let q := set_queues q (delete c (queues q)) in
  let q := set_retry_after q (delete c (retry_after q)) in
  let q := set_retry_counts q (delete c (retry_counts q)) in
  let q := set_cancelled_batches q (delete c (cancelled_batches q)) in
  let q := set_cancel_reasons q (delete c (cancel_reasons q)) in
  (set_withheld_native_steer q (delete c (withheld_native_steer q)), ids).

Definition is_channel_in_flight (q : EventQueue) (c : Uuid) : bool :=
  bool_decide (c ∈ in_flight_channels q).

Definition has_in_flight (q : EventQueue) : bool :=
  negb (bool_decide (in_flight_channels q = ∅)).

(** [iter().position(|qe| qe.event.id.to_hex() == id)] followed by [remove(pos)]:
    the first event with that id, and the list without it. *)
Fixpoint take_event (id : string) (l : list QueuedEvent) : option (QueuedEvent * list QueuedEvent) :=
  match l with
  | [] => None
  | e :: l' =>
      if decide (ev_id_hex (q_event e) = id) then Some (e, l')
      else '(x, rest) ← take_event id l'; Some (x, e :: rest)
  end.

(** Store a channel's list, dropping the entry when the list is empty. *)
Definition put_or_remove {A} (m : gmap Uuid (list A)) (c : Uuid) (l : list A) : gmap Uuid (list A) :=
  match l with [] => delete c m | _ => <[c := l]> m end.

Definition mark_native_steer_pending (q : EventQueue) (c : Uuid) (id : string)
  : EventQueue * bool :=
  match queues q !! c with
  | None => (q, false)
  | Some l =>
      match take_event id l with
      | None => (q, false)
      | Some (qe, l') =>
          let q1 := set_queues q (put_or_remove (queues q) c l') in
          (set_withheld_native_steer q1
             (<[c := default [] (withheld_native_steer q1 !! c) ++ [qe]]>
                (withheld_native_steer q1)), true)
      end
  end.

Definition release_native_steer (q : EventQueue) (c : Uuid) (id : string) : EventQueue :=
  match withheld_native_steer q !! c with
  | None => q
  | Some entries =>
      match take_event id entries with
      | None => q
      | Some (qe, entries') =>
          let q1 := set_withheld_native_steer q
                      (put_or_remove (withheld_native_steer q) c entries') in
          set_queues q1 (<[c := trim (qe :: queue_of q1 c)]> (queues q1))
      end
  end.

(** [retain(|qe| qe.event.id.to_hex() != id)] *)
Definition without_event (id : string) (l : list QueuedEvent) : list QueuedEvent :=
  List.filter (λ e, negb (bool_decide (ev_id_hex (q_event e) = id))) l.

Definition remove_event (q : EventQueue) (c : Uuid) (id : string) : EventQueue :=
  let q1 :=
    match withheld_native_steer q !! c with
    | Some entries => set_withheld_native_steer q
        (put_or_remove (withheld_native_steer q) c (without_event id entries))
    | None => q
    end in
  match queues q1 !! c with
  | Some l => set_queues q1 (put_or_remove (queues q1) c (without_event id l))
  | None => q1
  end.

Definition compact_expired_state (now : Instant) (q : EventQueue) : EventQueue :=
  let ra := filter (λ kv, (now < kv.2)%Z) (retry_after q) in
  let q := set_retry_after q ra in
  set_retry_counts q
    (filter (λ kv, is_Some (ra !! kv.1) ∨ queue_of q kv.1 ≠ [] ∨ kv.1 ∈ in_flight_channels q)
       (retry_counts q)).

Definition has_undispatched_work (q : EventQueue) : bool :=
  let free c := bool_decide (c ∉ in_flight_channels q) in
  existsb (λ '(c, l), negb (bool_decide (l = [])) && free c) (map_to_list (queues q))
  || existsb (λ '(c, _), free c) (map_to_list (cancelled_batches q))
  || existsb (λ '(c, l), negb (bool_decide (l = [])) && free c)
       (map_to_list (withheld_native_steer q)).

Section scheduling.
Context `{HashIteration}.

(** The auto-expiry loop over the channels whose deadline has passed. *)
Definition expire (now : Instant) (q : EventQueue) : EventQueue :=
  let expired := (List.filter (λ kv, kv.2 <=? now)%Z (hash_iter (in_flight_deadlines q))).*1 in
  foldl expire_one q expired.

(** A channel flush_next may pick: non-empty, not in flight, not throttled. *)
Definition ready (now : Instant) (q : EventQueue) (c : Uuid) (l : list QueuedEvent) : bool :=
  negb (bool_decide (l = [])) && bool_decide (c ∉ in_flight_channels q)
  && is_none_or (λ t, t <=? now)%Z (retry_after q !! c).

Definition head_received_at (kv : Uuid * list QueuedEvent) : Z :=
  match kv.2 with e :: _ => q_received_at e | [] => 0%Z end.

Definition pick_channel (now : Instant) (q : EventQueue) : option Uuid :=
  fst <$> min_by_key head_received_at
    (List.filter (λ kv, ready now q kv.1 kv.2) (hash_iter (queues q))).

Definition pick_cancelled (q : EventQueue) : option Uuid :=
  fst <$> List.find (λ kv, bool_decide (kv.1 ∉ in_flight_channels q))
    (hash_iter (cancelled_batches q)).

Definition set_in_flight (now : Instant) (q : EventQueue) (c : Uuid) (n : nat) : EventQueue :=
  let q := set_in_flight_channels q ({[c]} ∪ in_flight_channels q) in
  let q := set_in_flight_deadlines q
             (<[c := (now + in_flight_deadline q)%Z]> (in_flight_deadlines q)) in
  set_in_flight_batch_sizes q (<[c := n]> (in_flight_batch_sizes q)).

Definition flush_cancelled (now : Instant) (q : EventQueue) (c : Uuid) : EventQueue * FlushBatch :=
  let cancelled := default [] (cancelled_batches q !! c) in
  let r := cancel_reasons q !! c in
  let q := set_cancelled_batches q (delete c (cancelled_batches q)) in
  let q := set_cancel_reasons q (delete c (cancel_reasons q)) in
  (set_in_flight now q c (length cancelled),
   {| fb_channel_id := c; fb_events := cancelled; fb_cancelled_events := [];
      fb_cancel_reason := r |}).

Definition flush_queued (now : Instant) (q : EventQueue) (c : Uuid) : EventQueue * FlushBatch :=
  let queue := queue_of q c in
  let drain_count := Nat.min MAX_BATCH_EVENTS (length queue) in
  let events := sort_by_key (λ be, ev_created_at (b_event be))
                  (to_batch <$> take drain_count queue) in
  let q := set_queues q (put_or_remove (queues q) c (drop drain_count queue)) in
  let q := set_in_flight now q c (length events) in
  let cancelled := default [] (cancelled_batches q !! c) in
  let q := set_cancelled_batches q (delete c (cancelled_batches q)) in
  let r := match cancelled with [] => None | _ => cancel_reasons q !! c end in
  (set_cancel_reasons q (delete c (cancel_reasons q)),
   {| fb_channel_id := c; fb_events := events; fb_cancelled_events := cancelled;
      fb_cancel_reason := r |}).

Definition flush_next (now : Instant) (q : EventQueue) : EventQueue * option FlushBatch :=
  let q := expire now q in
  match pick_channel now q with
  | Some c => let '(q, b) := flush_queued now q c in (q, Some b)
  | None =>
      match pick_cancelled q with
      | Some c => let '(q, b) := flush_cancelled now q c in (q, Some b)
      | None => (q, None)
      end
  end.

Definition has_flushable_work (now : Instant) (q : EventQueue) : EventQueue * bool :=
  let q := expire now q in
  (q, existsb (λ kv, ready now q kv.1 kv.2) (hash_iter (queues q))
      || existsb (λ kv, bool_decide (kv.1 ∉ in_flight_channels q))
           (hash_iter (cancelled_batches q))).

End scheduling.

(** ** Lemmas on the list primitives *)

Lemma limits_positive :
  1 ≤ MAX_BATCH_EVENTS ∧ MAX_BATCH_EVENTS ≤ MAX_PENDING_PER_CHANNEL ∧ (1 ≤ MAX_RETRIES)%Z.
Proof. unfold MAX_BATCH_EVENTS, MAX_PENDING_PER_CHANNEL, MAX_RETRIES. lia. Qed.

Lemma max_retries_eq : MAX_RETRIES = 10%Z.
Proof. done. Qed.

#[local] Opaque MAX_PENDING_PER_CHANNEL MAX_BATCH_EVENTS MAX_RETRIES.

Lemma trim_loop_take (fuel : nat) (l : list QueuedEvent) :
  length l ≤ fuel + MAX_PENDING_PER_CHANNEL → trim_loop fuel l = take MAX_PENDING_PER_CHANNEL l.
Proof.
  revert l. induction fuel as [|fuel IH]; intros l Hl; cbn [trim_loop].
  { by rewrite take_ge. }
  destruct (Nat.ltb_spec MAX_PENDING_PER_CHANNEL (length l)); [|by rewrite take_ge].
  destruct l as [|x l _] using rev_ind; [simpl in *; lia|].
  rewrite removelast_last. rewrite length_app in *. cbn [length] in *.
  rewrite IH by lia. rewrite take_app_le by lia. done.
Qed.

Lemma trim_take (l : list QueuedEvent) : trim l = take MAX_PENDING_PER_CHANNEL l.
Proof. apply trim_loop_take. lia. Qed.

Lemma push_front_all_app (xs queue : list QueuedEvent) : push_front_all xs queue = xs ++ queue.
Proof.
  unfold push_front_all. revert queue. induction xs as [|x xs IH]; intros queue; simpl; [done|].
  rewrite reverse_cons, foldl_app. simpl. by rewrite IH.
Qed.

Lemma put_or_remove_lookup {A} (m : gmap Uuid (list A)) (c c' : Uuid) (l : list A) :
  default [] (put_or_remove m c l !! c') = if decide (c = c') then l else default [] (m !! c').
Proof.
  unfold put_or_remove. destruct l; [rewrite lookup_delete|rewrite lookup_insert]; by case_decide.
Qed.

Lemma take_event_Some (id : string) (l l' : list QueuedEvent) (e : QueuedEvent) :
  take_event id l = Some (e, l') →
  ev_id_hex (q_event e) = id ∧ ∃ l1 l2, l = l1 ++ e :: l2 ∧ l' = l1 ++ l2 ∧
    ∀ x, x ∈ l1 → ev_id_hex (q_event x) ≠ id.
Proof.
  revert l' e. induction l as [|x l IH]; intros l' e; simpl; [done|].
  case_decide as Hx.
  - intros [= <- <-]. split; [done|]. exists [], l. split_and!; [done..|]. by intros y ?%elem_of_nil.
  - destruct (take_event id l) as [[y rest]|]; simpl; [|done]. intros [= <- <-].
    destruct (IH _ _ eq_refl) as (? & l1 & l2 & -> & -> & Hl1).
    split; [done|]. exists (x :: l1), l2. split_and!; [done..|].
    intros z [->|?]%elem_of_cons; auto.
Qed.

(** ** The invariant *)

Definition queues_ok (m : gmap Uuid (list QueuedEvent)) : Prop :=
  map_Forall (λ c l, length l ≤ MAX_PENDING_PER_CHANNEL ∧ Forall (λ e, q_channel_id e = c) l) m.

Definition withheld_ok (m : gmap Uuid (list QueuedEvent)) : Prop :=
  map_Forall (λ c l, Forall (λ e, q_channel_id e = c) l) m.

Definition retries_ok (m : gmap Uuid Z) : Prop :=
  map_Forall (λ _ n, 1 ≤ n ≤ MAX_RETRIES)%Z m.

Record queue_inv (q : EventQueue) : Prop := {
  qi_queues : queues_ok (queues q);
  qi_withheld : withheld_ok (withheld_native_steer q);
  qi_deadlines : dom (in_flight_deadlines q) = in_flight_channels q;
  qi_sizes : dom (in_flight_batch_sizes q) = in_flight_channels q;
  qi_retries : retries_ok (retry_counts q);
  qi_reasons : dom (cancel_reasons q) = dom (cancelled_batches q)
}.

Lemma queue_of_ok (q : EventQueue) (c : Uuid) :
  queue_inv q →
  length (queue_of q c) ≤ MAX_PENDING_PER_CHANNEL ∧ Forall (λ e, q_channel_id e = c) (queue_of q c).
Proof.
  intros [Hq _ _ _ _ _]. unfold queue_of. destruct (queues q !! c) as [l|] eqn:Hl; simpl.
  - by apply (Hq c l).
  - split; [lia|constructor].
Qed.

Lemma queues_ok_insert (m : gmap Uuid (list QueuedEvent)) (c : Uuid) (l : list QueuedEvent) :
  queues_ok m → length l ≤ MAX_PENDING_PER_CHANNEL → Forall (λ e, q_channel_id e = c) l →
  queues_ok (<[c := l]> m).
Proof. intros. by apply map_Forall_insert_2. Qed.

Lemma queues_ok_put (m : gmap Uuid (list QueuedEvent)) (c : Uuid) (l : list QueuedEvent) :
  queues_ok m → length l ≤ MAX_PENDING_PER_CHANNEL → Forall (λ e, q_channel_id e = c) l →
  queues_ok (put_or_remove m c l).
Proof.
  intros. unfold put_or_remove.
  destruct l; [by apply map_Forall_delete|by apply queues_ok_insert].
Qed.

Lemma withheld_ok_put (m : gmap Uuid (list QueuedEvent)) (c : Uuid) (l : list QueuedEvent) :
  withheld_ok m → Forall (λ e, q_channel_id e = c) l → withheld_ok (put_or_remove m c l).
Proof.
  intros. unfold put_or_remove.
  destruct l; [by apply map_Forall_delete|by apply map_Forall_insert_2].
Qed.

Lemma trimmed_ok (c : Uuid) (l : list QueuedEvent) :
  Forall (λ e, q_channel_id e = c) l →
  length (trim l) ≤ MAX_PENDING_PER_CHANNEL ∧ Forall (λ e, q_channel_id e = c) (trim l).
Proof.
  intros Hl. rewrite trim_take. split; [rewrite length_take; lia|by apply Forall_take].
Qed.

Lemma to_queued_ok (c : Uuid) (es : list BatchEvent) :
  Forall (λ e, q_channel_id e = c) (to_queued c <$> es).
Proof. apply Forall_fmap. by apply Forall_true. Qed.

Create HintDb queue discriminated.
#[export] Hint Resolve queues_ok_insert queues_ok_put withheld_ok_put to_queued_ok : queue.

(** Close an invariant goal clause by clause. *)
Ltac inv_clauses :=
  split; simpl; try done; try (by apply map_Forall_delete);
  try match goal with
      | |- dom _ = _ => rewrite ?dom_delete_L; congruence
      end.

Lemma inv_new_queue (mode : DedupMode) : queue_inv (new mode).
Proof. split; simpl; first [by rewrite !dom_empty_L|by apply map_Forall_empty]. Qed.

Lemma inv_push (q : EventQueue) (e : QueuedEvent) : queue_inv q → queue_inv (push q e).1.
Proof.
  intros Hinv. destruct (queue_of_ok q (q_channel_id e) Hinv) as [Hlen Hch]. unfold push.
  pose proof limits_positive.
  destruct (match dedup_mode q with Drop => _ | Queue => _ end); [done|]. simpl.
  destruct Hinv as [Hq Hw Hd Hs Hr Hc]. split; simpl; try done.
  apply queues_ok_insert; [done|..].
  - rewrite length_app. cbn [length].
    destruct (Nat.leb_spec MAX_PENDING_PER_CHANNEL (length (queue_of q (q_channel_id e)))); [|lia].
    destruct (queue_of q (q_channel_id e)); cbn [length tail] in *; lia.
  - apply Forall_app_2; [|by constructor].
    destruct (_ <=? _); [by apply Forall_tail|done].
Qed.

Lemma inv_recover (q : EventQueue) (c : Uuid) :
  queue_inv q → queue_inv (recover_withheld_for_expired_channel q c).
Proof.
  intros Hinv. unfold recover_withheld_for_expired_channel.
  destruct (withheld_native_steer q !! c) as [l|] eqn:Hl; [|done].
  destruct (queue_of_ok q c Hinv) as [_ Hch]. destruct Hinv as [Hq Hw Hd Hs Hr Hc].
  assert (Forall (λ e, q_channel_id e = c) (push_front_all l (queue_of q c))) as Hall.
  { rewrite push_front_all_app. apply Forall_app_2; [|done]. by apply (Hw c l). }
  apply trimmed_ok in Hall as [? ?]. inv_clauses. by apply queues_ok_insert.
Qed.

Lemma inv_expire_one (q : EventQueue) (c : Uuid) : queue_inv q → queue_inv (expire_one q c).
Proof. intros [? ? Hd Hs ? ?]. apply inv_recover. split; simpl; try done; rewrite dom_delete_L; set_solver. Qed.

Lemma inv_expire `{HashIteration} (now : Instant) (q : EventQueue) :
  queue_inv q → queue_inv (expire now q).
Proof.
  unfold expire. generalize (List.filter (λ kv, kv.2 <=? now)%Z (hash_iter (in_flight_deadlines q))).*1.
  intros l. revert q. induction l as [|c l IH]; intros q Hinv; simpl; [done|].
  by apply IH, inv_expire_one.
Qed.

Lemma inv_set_in_flight (now : Instant) (q : EventQueue) (c : Uuid) (n : nat) :
  queue_inv q → queue_inv (set_in_flight now q c n).
Proof. intros [? ? Hd Hs ? ?]. split; simpl; try done; rewrite dom_insert_L; set_solver. Qed.

Lemma inv_flush_queued (now : Instant) (q : EventQueue) (c : Uuid) :
  queue_inv q → queue_inv (flush_queued now q c).1.
Proof.
  intros Hinv. destruct (queue_of_ok q c Hinv) as [Hlen Hch]. unfold flush_queued. simpl.
  set (n := Nat.min _ _).
  assert (queue_inv (set_queues q (put_or_remove (queues q) c (drop n (queue_of q c))))) as Hq1.
  { destruct Hinv. split; simpl; try done. apply queues_ok_put; [done| |by apply Forall_drop].
    rewrite length_drop. lia. }
  apply (inv_set_in_flight now _ c (length (sort_by_key (λ be, ev_created_at (b_event be))
    (to_batch <$> take n (queue_of q c))))) in Hq1.
  destruct Hq1 as [? ? ? ? ? Hc]. split; simpl in *; try done. rewrite !dom_delete_L. by rewrite Hc.
Qed.

Lemma inv_flush_cancelled (now : Instant) (q : EventQueue) (c : Uuid) :
  queue_inv q → queue_inv (flush_cancelled now q c).1.
Proof.
  intros [? ? ? ? ? Hc]. unfold flush_cancelled. simpl. apply inv_set_in_flight.
  split; simpl; try done. rewrite !dom_delete_L. by rewrite Hc.
Qed.

Lemma inv_flush_next `{HashIteration} (now : Instant) (q : EventQueue) :
  queue_inv q → queue_inv (flush_next now q).1.
Proof.
  intros Hinv%(inv_expire now). unfold flush_next. destruct (pick_channel now (expire now q)) as [c|].
  - pose proof (inv_flush_queued now _ c Hinv). by destruct (flush_queued _ _ _).
  - destruct (pick_cancelled (expire now q)) as [c|]; [|done].
    pose proof (inv_flush_cancelled now _ c Hinv). by destruct (flush_cancelled _ _ _).
Qed.

Lemma inv_flushable `{HashIteration} (now : Instant) (q : EventQueue) :
  queue_inv q → queue_inv (has_flushable_work now q).1.
Proof. apply inv_expire. Qed.

Lemma inv_mark_complete (now : Instant) (q : EventQueue) (c : Uuid) :
  queue_inv q → queue_inv (mark_complete now q c).
Proof.
  intros [? ? Hd Hs ? ?]. unfold mark_complete. simpl.
  destruct (retry_after q !! c); [case_match|]; inv_clauses.
Qed.

Lemma inv_requeue_queue (q : EventQueue) (c : Uuid) (es : list BatchEvent) :
  queue_inv q →
  queues_ok (<[c := trim (push_front_all (to_queued c <$> es) (queue_of q c))]> (queues q)).
Proof.
  intros Hinv. destruct (queue_of_ok q c Hinv) as [_ Hch].
  assert (Forall (λ e, q_channel_id e = c) (push_front_all (to_queued c <$> es) (queue_of q c))) as Hall.
  { rewrite push_front_all_app. apply Forall_app_2; auto with queue. }
  apply trimmed_ok in Hall as [? ?]. destruct Hinv. auto with queue.
Qed.

Lemma inv_requeue (nanos : Z) (now : Instant) (q : EventQueue) (b : FlushBatch) :
  queue_inv q → queue_inv (requeue nanos now q b).1.
Proof.
  intros Hinv. pose proof (inv_requeue_queue q (fb_channel_id b) (fb_events b) Hinv) as Hq.
  pose proof limits_positive. destruct Hinv as [? ? ? ? Hr ?]. unfold requeue. simpl.
  destruct (Z.ltb_spec MAX_RETRIES (default 0 (retry_counts q !! fb_channel_id b) + 1)%Z); simpl.
  - inv_clauses. rewrite delete_insert_eq. by apply map_Forall_delete.
  - split; simpl; try done. apply map_Forall_insert_2; [|done].
    destruct (retry_counts q !! fb_channel_id b) as [n|] eqn:Hn; simpl in *; [|lia].
    specialize (Hr _ _ Hn). simpl in Hr. lia.
Qed.

Lemma inv_requeue_preserve (q : EventQueue) (b : FlushBatch) :
  queue_inv q → queue_inv (requeue_preserve_timestamps q b).
Proof.
  intros Hinv. pose proof (inv_requeue_queue q (fb_channel_id b) (fb_events b) Hinv).
  destruct Hinv. by split.
Qed.

Lemma inv_requeue_as_cancelled (q : EventQueue) (b : FlushBatch) (r : CancelReason) :
  queue_inv q → queue_inv (requeue_as_cancelled q b r).
Proof. intros [? ? ? ? ? Hc]. split; simpl; try done. by rewrite !dom_insert_L, Hc. Qed.

Lemma inv_drain (q : EventQueue) (c : Uuid) : queue_inv q → queue_inv (drain_channel q c).1.
Proof. intros [? ? ? ? ? Hc]. inv_clauses. Qed.

Lemma inv_extend (now : Instant) (q : EventQueue) (c : Uuid) (n : Z) :
  queue_inv q → queue_inv (extend_in_flight_deadline now q c n).
Proof.
  intros [? ? Hd ? ? ?]. unfold extend_in_flight_deadline.
  destruct (in_flight_deadlines q !! c) as [d|] eqn:Hc; [|done]. case_match; [|done].
  split; simpl; try done. rewrite dom_insert_L, <- Hd.
  assert (c ∈ dom (in_flight_deadlines q)) by (by apply elem_of_dom_2 in Hc). set_solver.
Qed.

Lemma take_event_Forall (P : QueuedEvent → Prop) (id : string) (l l' : list QueuedEvent) (e : QueuedEvent) :
  take_event id l = Some (e, l') → Forall P l → P e ∧ Forall P l' ∧ length l' ≤ length l.
Proof.
  intros (_ & l1 & l2 & -> & -> & _)%take_event_Some. rewrite !Forall_app, Forall_cons, !length_app.
  simpl. intuition lia.
Qed.

Lemma inv_mark_steer (q : EventQueue) (c : Uuid) (id : string) :
  queue_inv q → queue_inv (mark_native_steer_pending q c id).1.
Proof.
  intros [Hq Hw ? ? ? ?]. unfold mark_native_steer_pending.
  destruct (queues q !! c) as [l|] eqn:Hl; [|done].
  destruct (take_event id l) as [[e l']|] eqn:He; [|done]. destruct (Hq c l Hl) as [Hlen Hch].
  destruct (take_event_Forall _ _ _ _ _ He Hch) as (? & ? & ?).
  split; simpl; try done; [apply queues_ok_put; [done|lia|done]|].
  apply map_Forall_insert_2; [|done]. apply Forall_app_2; [|by constructor].
  destruct (withheld_native_steer q !! c) as [w|] eqn:Hc; [by apply (Hw c w)|constructor].
Qed.

Lemma inv_release_steer (q : EventQueue) (c : Uuid) (id : string) :
  queue_inv q → queue_inv (release_native_steer q c id).
Proof.
  intros Hinv. destruct (queue_of_ok q c Hinv) as [_ Hch]. destruct Hinv as [Hq Hw ? ? ? ?].
  unfold release_native_steer.
  destruct (withheld_native_steer q !! c) as [l|] eqn:Hl; [|done].
  destruct (take_event id l) as [[e l']|] eqn:He; [|done].
  destruct (take_event_Forall _ _ _ _ _ He (Hw c l Hl)) as (? & ? & _).
  destruct (trimmed_ok c (e :: queue_of q c)) as [? ?]; [by constructor|].
  split; simpl; auto with queue.
Qed.

Lemma without_event_ok (P : QueuedEvent → Prop) (id : string) (l : list QueuedEvent) :
  Forall P l → Forall P (without_event id l) ∧ length (without_event id l) ≤ length l.
Proof.
  unfold without_event. induction 1 as [|x l Hx Hl [IH1 IH2]]; simpl; [by split; [constructor|]|].
  destruct (negb _); simpl; (split; [|lia]); [by constructor|done].
Qed.

Lemma inv_remove_event (q : EventQueue) (c : Uuid) (id : string) :
  queue_inv q → queue_inv (remove_event q c id).
Proof.
  intros Hinv. unfold remove_event.
  set (q1 := match withheld_native_steer q !! c with Some _ => _ | None => q end).
  assert (queue_inv q1) as Hinv1.
  { unfold q1. destruct (withheld_native_steer q !! c) as [w|] eqn:Hw; [|done]. destruct Hinv as [? Hok ? ? ? ?].
    destruct (without_event_ok _ id w (Hok c w Hw)) as [? _]. split; simpl; auto with queue. }
  destruct (queues q1 !! c) as [l|] eqn:Hl; [|done]. destruct Hinv1 as [Hok ? ? ? ? ?].
  destruct (Hok c l Hl) as [? Hch]. destruct (without_event_ok _ id l Hch) as [? ?].
  split; simpl; try done. apply queues_ok_put; [done|lia|done].
Qed.

Lemma inv_compact (now : Instant) (q : EventQueue) :
  queue_inv q → queue_inv (compact_expired_state now q).
Proof.
  intros [? ? ? ? Hr ?]. split; simpl; try done. intros c n.
  rewrite map_lookup_filter_Some. intros [Hn _]. by apply (Hr c n).
Qed.

(** ** The harness's use of the queue as a step relation *)

Section steps.
Context `{HashIteration}.

Inductive queue_step : EventQueue → EventQueue → Prop :=
  | step_push q e : queue_step q (push q e).1
  | step_flush now q : queue_step q (flush_next now q).1
  | step_flushable now q : queue_step q (has_flushable_work now q).1
  | step_complete now q c : queue_step q (mark_complete now q c)
  | step_requeue nanos now q b : queue_step q (requeue nanos now q b).1
  | step_requeue_preserve q b : queue_step q (requeue_preserve_timestamps q b)
  | step_requeue_cancelled q b r : queue_step q (requeue_as_cancelled q b r)
  | step_drain q c : queue_step q (drain_channel q c).1
  | step_extend now q c n : queue_step q (extend_in_flight_deadline now q c n)
  | step_mark_steer q c id : queue_step q (mark_native_steer_pending q c id).1
  | step_release_steer q c id : queue_step q (release_native_steer q c id)
  | step_remove_event q c id : queue_step q (remove_event q c id)
  | step_compact now q : queue_step q (compact_expired_state now q).

Lemma inv_step (q q' : EventQueue) : queue_inv q → queue_step q q' → queue_inv q'.
Proof.
  intros Hinv Hs. destruct Hs;
    eauto using inv_push, inv_flush_next, inv_flushable, inv_mark_complete, inv_requeue,
      inv_requeue_preserve, inv_requeue_as_cancelled, inv_drain, inv_extend, inv_mark_steer,
      inv_release_steer, inv_remove_event, inv_compact.
Qed.

Definition reachable (mode : DedupMode) (q : EventQueue) : Prop := rtc queue_step (new mode) q.

Lemma reachable_queue_inv (mode : DedupMode) (q : EventQueue) : reachable mode q → queue_inv q.
Proof.
  intros Hr. pose proof (inv_new_queue mode) as H0. unfold reachable in Hr. revert H0.
  induction Hr as [|q q1 q2 Hs _ IH]; [done|]. intros Hq. apply IH. by eapply inv_step.
Qed.

End steps.

(** ** What auto-expiry does *)

Section expiry.
Context `{HashIteration}.

Definition expired_channels (now : Instant) (q : EventQueue) : list Uuid :=
  (List.filter (λ kv, kv.2 <=? now)%Z (hash_iter (in_flight_deadlines q))).*1.

Lemma elem_of_expired (now : Instant) (q : EventQueue) (c : Uuid) :
  c ∈ expired_channels now q ↔ ∃ d, in_flight_deadlines q !! c = Some d ∧ (d ≤ now)%Z.
Proof.
  unfold expired_channels. rewrite list_elem_of_fmap. split.
  - intros ([c' d] & -> & [Hin Hd]%list_elem_of_In%filter_In).
    apply list_elem_of_In, elem_of_hash_iter in Hin. simpl in Hd. exists d. split; [done|lia].
  - intros (d & Hd & Hle). exists (c, d). split; [done|]. apply list_elem_of_In, filter_In.
    rewrite <- list_elem_of_In, elem_of_hash_iter. split; [done|]. simpl. lia.
Qed.

(** What [expire_one] does to the channel it is run on. *)
Lemma expire_one_spec (q : EventQueue) (c c' : Uuid) :
  queue_inv q →
  queue_of (expire_one q c) c' =
    (if decide (c = c') then trim (default [] (withheld_native_steer q !! c) ++ queue_of q c)
     else queue_of q c') ∧
  withheld_native_steer (expire_one q c) = delete c (withheld_native_steer q) ∧
  in_flight_channels (expire_one q c) = in_flight_channels q ∖ {[c]} ∧
  in_flight_deadlines (expire_one q c) = delete c (in_flight_deadlines q).
Proof.
  intros Hinv. destruct (queue_of_ok q c Hinv) as [Hlen _].
  unfold expire_one, recover_withheld_for_expired_channel. simpl.
  destruct (withheld_native_steer q !! c) as [l|] eqn:Hl; simpl.
  - split_and!; try done. unfold queue_of at 1. simpl. rewrite lookup_insert.
    case_decide; simpl; [|done]. by rewrite push_front_all_app.
  - split_and!; try done; [|by rewrite delete_id].
    case_decide as Hc; [|done]. subst c'. rewrite trim_take, take_ge by lia. done.
Qed.

Lemma decide_cons {A} (x c : Uuid) (l : list Uuid) (a b : A) :
  (if decide (c ∈ x :: l) then a else b) =
  if decide (x = c) then a else if decide (c ∈ l) then a else b.
Proof.
  destruct (decide (x = c)) as [->|]; [by rewrite decide_True by set_solver|].
  destruct (decide (c ∈ l)); [rewrite decide_True|rewrite decide_False]; set_solver.
Qed.

Lemma foldl_expire (l : list Uuid) (q : EventQueue) :
  queue_inv q →
  let q' := foldl expire_one q l in
  queue_inv q' ∧
  (∀ c, queue_of q' c =
     if decide (c ∈ l) then trim (default [] (withheld_native_steer q !! c) ++ queue_of q c)
     else queue_of q c) ∧
  (∀ c, withheld_native_steer q' !! c =
     if decide (c ∈ l) then None else withheld_native_steer q !! c) ∧
  (∀ c, c ∈ in_flight_channels q' ↔ c ∈ in_flight_channels q ∧ c ∉ l) ∧
  (∀ c, in_flight_deadlines q' !! c =
     if decide (c ∈ l) then None else in_flight_deadlines q !! c).
Proof.
  revert q. induction l as [|x l IH]; intros q Hinv; simpl; [by set_solver|].
  destruct (IH (expire_one q x) (inv_expire_one q x Hinv)) as (Hi & Hq & Hw & Hf & Hd).
  pose proof (λ c, expire_one_spec q x c Hinv) as Hx.
  pose proof (queue_of_ok _ x (inv_expire_one q x Hinv)) as [Hlen _].
  split_and!; [done|intros c..].
  - rewrite Hq. destruct (Hx c) as (Hqx & -> & _ & _). rewrite lookup_delete, decide_cons.
    destruct (decide (x = c)) as [<-|Hne].
    + rewrite <- Hqx. simpl. destruct (decide (x ∈ l)); [|done]. by rewrite trim_take, take_ge.
    + by rewrite Hqx.
  - rewrite Hw. destruct (Hx c) as (_ & -> & _ & _). rewrite lookup_delete, decide_cons.
    destruct (decide (x = c)); by destruct (decide (c ∈ l)).
  - rewrite Hf. destruct (Hx c) as (_ & _ & -> & _). rewrite not_elem_of_cons.
    rewrite elem_of_difference, not_elem_of_singleton. tauto.
  - rewrite Hd. destruct (Hx c) as (_ & _ & _ & ->). rewrite lookup_delete, decide_cons.
    destruct (decide (x = c)); by destruct (decide (c ∈ l)).
Qed.

(** What [expire] leaves alone *)
Lemma expire_frame (now : Instant) (q : EventQueue) :
  let q' := expire now q in
  cancelled_batches q' = cancelled_batches q ∧ cancel_reasons q' = cancel_reasons q ∧
  retry_after q' = retry_after q ∧ retry_counts q' = retry_counts q ∧
  in_flight_deadline q' = in_flight_deadline q ∧ dedup_mode q' = dedup_mode q.
Proof.
  unfold expire. generalize (List.filter (λ kv, kv.2 <=? now)%Z (hash_iter (in_flight_deadlines q))).*1.
  intros l. revert q. induction l as [|c l IH]; intros q; simpl; [done|].
  destruct (IH (expire_one q c)) as (-> & -> & -> & -> & -> & ->).
  unfold expire_one, recover_withheld_for_expired_channel. cbv zeta.
  by case_match; split_and!.
Qed.

(** Auto-expiry, run before every flush and readiness query, releases exactly
    the in-flight channels whose deadline has passed, so a prompt task that never
    reports back cannot wedge its channel: the events withheld for a native steer
    go back to the front of the channel's queue (trimmed to the cap), and every
    other channel keeps its queue, its withheld events and its deadline. *)
Theorem expire_exact (now : Instant) (q : EventQueue) (c : Uuid) (Hq : queue_inv q) :
  let q' := expire now q in
  let expired := ∃ d, in_flight_deadlines q !! c = Some d ∧ (d ≤ now)%Z in
  (c ∈ in_flight_channels q' ↔ c ∈ in_flight_channels q ∧ ¬ expired) ∧
  (expired → queue_of q' c =
     trim (default [] (withheld_native_steer q !! c) ++ queue_of q c) ∧
     withheld_native_steer q' !! c = None ∧ in_flight_deadlines q' !! c = None) ∧
  (¬ expired → queue_of q' c = queue_of q c ∧
     withheld_native_steer q' !! c = withheld_native_steer q !! c ∧
     in_flight_deadlines q' !! c = in_flight_deadlines q !! c).
Proof.
  destruct (foldl_expire (expired_channels now q) q Hq) as (_ & Hqs & Hw & Hf & Hd).
  cbv zeta. rewrite <- (elem_of_expired now q c). unfold expire. fold (expired_channels now q).
  rewrite Hqs, Hw, Hf, Hd. split; [done|].
  split; intros Hin; [by rewrite !decide_True by done|by rewrite !decide_False by done].
Qed.

End expiry.

(** ** What a flush picks and takes *)

Section flushing.
Context `{HashIteration}.

Definition channel_ready (now : Instant) (q : EventQueue) (c : Uuid) : Prop :=
  queue_of q c ≠ [] ∧ (c ∉ in_flight_channels q) ∧
  ∀ t, retry_after q !! c = Some t → (t ≤ now)%Z.

(** When the oldest waiting event of a channel was received *)
Definition oldest (q : EventQueue) (c : Uuid) : Z := head_received_at (c, queue_of q c).

Lemma ready_spec (now : Instant) (q : EventQueue) (c : Uuid) (l : list QueuedEvent) :
  queues q !! c = Some l → (ready now q c l = true ↔ channel_ready now q c).
Proof.
  intros Hl. unfold ready, channel_ready, queue_of. rewrite Hl. simpl.
  rewrite !andb_true_iff, negb_true_iff, bool_decide_eq_false, bool_decide_eq_true.
  unfold is_none_or. destruct (retry_after q !! c) as [t|]; [|naive_solver].
  rewrite Z.leb_le. naive_solver.
Qed.

Lemma channel_ready_lookup (now : Instant) (q : EventQueue) (c : Uuid) :
  channel_ready now q c → queues q !! c = Some (queue_of q c).
Proof. intros [Hne _]. unfold queue_of in *. by destruct (queues q !! c). Qed.

Lemma pick_channel_Some (now : Instant) (q : EventQueue) (c : Uuid) :
  pick_channel now q = Some c →
  channel_ready now q c ∧ ∀ c', channel_ready now q c' → (oldest q c ≤ oldest q c')%Z.
Proof.
  unfold pick_channel. destruct (min_by_key _ _) as [[c1 l1]|] eqn:Hm; simpl; [|done].
  intros [= <-]. apply min_by_key_Some in Hm as [[Hin Hr]%list_elem_of_In%filter_In Hmin].
  apply list_elem_of_In, elem_of_hash_iter in Hin. simpl in Hr.
  assert (queue_of q c1 = l1) as Hl1 by (unfold queue_of; by rewrite Hin).
  split; [by apply ready_spec in Hr|]. intros c' Hc'. unfold oldest. rewrite Hl1.
  apply (Hmin (c', queue_of q c')). pose proof (channel_ready_lookup _ _ _ Hc') as Hl'.
  apply list_elem_of_In, filter_In. rewrite <- list_elem_of_In, elem_of_hash_iter.
  split; [done|]. by apply ready_spec.
Qed.

Lemma pick_channel_None (now : Instant) (q : EventQueue) :
  pick_channel now q = None ↔ ∀ c, ¬ channel_ready now q c.
Proof.
  unfold pick_channel. rewrite fmap_None, min_by_key_None. split.
  - intros Hnil c Hc. pose proof (channel_ready_lookup _ _ _ Hc) as Hl.
    assert ((c, queue_of q c) ∈ List.filter (λ kv, ready now q kv.1 kv.2) (hash_iter (queues q)))
      as Hin; [|rewrite Hnil in Hin; set_solver].
    apply list_elem_of_In, filter_In. rewrite <- list_elem_of_In, elem_of_hash_iter.
    split; [done|]. by apply ready_spec.
  - intros Hno. destruct (List.filter _ _) as [|[c l] rest] eqn:Hf; [done|]. exfalso.
    assert ((c, l) ∈ List.filter (λ kv, ready now q kv.1 kv.2) (hash_iter (queues q))) as Hin
      by (rewrite Hf; set_solver).
    apply list_elem_of_In, filter_In in Hin as [Hin Hr].
    apply list_elem_of_In, elem_of_hash_iter in Hin. apply (Hno c). by apply ready_spec in Hr.
Qed.

(** A cancelled batch waiting on a channel that is not in flight *)
Definition cancelled_waiting (q : EventQueue) (c : Uuid) : Prop :=
  is_Some (cancelled_batches q !! c) ∧ c ∉ in_flight_channels q.

Lemma pick_cancelled_Some (q : EventQueue) (c : Uuid) :
  pick_cancelled q = Some c → cancelled_waiting q c.
Proof.
  unfold pick_cancelled. destruct (List.find _ _) as [[c1 l1]|] eqn:Hf; simpl; [|done].
  intros [= <-]. apply find_some in Hf as [Hin Hc]. apply list_elem_of_In, elem_of_hash_iter in Hin.
  simpl in Hc. bool_prop. split; [by exists l1|done].
Qed.

Lemma pick_cancelled_None (q : EventQueue) :
  pick_cancelled q = None ↔ ∀ c, ¬ cancelled_waiting q c.
Proof.
  unfold pick_cancelled. rewrite fmap_None. split.
  - intros Hf c [[l Hl] Hc]. pose proof (find_none _ _ Hf (c, l)) as Hn.
    rewrite <- list_elem_of_In, elem_of_hash_iter in Hn. specialize (Hn Hl). simpl in Hn.
    by bool_prop.
  - intros Hno. destruct (List.find _ _) as [[c l]|] eqn:Hf; [|done].
    apply find_some in Hf as [Hin Hc]. apply list_elem_of_In, elem_of_hash_iter in Hin.
    simpl in Hc. bool_prop. destruct (Hno c). split; [by exists l|done].
Qed.

Lemma flush_queued_queue_of (now : Instant) (q : EventQueue) (c c' : Uuid) :
  queue_of (flush_queued now q c).1 c' =
    if decide (c = c') then drop MAX_BATCH_EVENTS (queue_of q c) else queue_of q c'.
Proof.
  unfold flush_queued. cbv zeta. cbn [fst]. unfold queue_of at 1. simpl.
  rewrite put_or_remove_lookup. case_decide; [|done].
  destruct (Nat.min_spec MAX_BATCH_EVENTS (length (queue_of q c))) as [[? ->]|[? ->]]; [done|].
  by rewrite !drop_ge by lia.
Qed.

Lemma flush_queued_events (now : Instant) (q : EventQueue) (c : Uuid) :
  fb_events (flush_queued now q c).2 =
  sort_by_key (λ be, ev_created_at (b_event be)) (to_batch <$> take MAX_BATCH_EVENTS (queue_of q c)).
Proof.
  unfold flush_queued. simpl. f_equal. f_equal.
  destruct (Nat.min_spec MAX_BATCH_EVENTS (length (queue_of q c))) as [[? ->]|[? ->]]; [done|].
  by rewrite !take_ge by lia.
Qed.

(** What [flush_next] promises, after the expired channels [expire] releases
    ([q] is the queue after that, [q'] the queue after the flush). *)
Definition flushed_queue (now : Instant) (q q' : EventQueue) (b : FlushBatch) : Prop :=
  let c := fb_channel_id b in
  channel_ready now q c ∧
  (∀ c', channel_ready now q c' → (oldest q c ≤ oldest q c')%Z) ∧
  fb_events b ≡ₚ to_batch <$> take MAX_BATCH_EVENTS (queue_of q c) ∧
  StronglySorted (λ x y, ev_created_at (b_event x) ≤ ev_created_at (b_event y))%Z (fb_events b) ∧
  fb_cancelled_events b = default [] (cancelled_batches q !! c) ∧
  queue_of q' c = drop MAX_BATCH_EVENTS (queue_of q c).

Definition flushed_cancelled (now : Instant) (q q' : EventQueue) (b : FlushBatch) : Prop :=
  let c := fb_channel_id b in
  (∀ c', ¬ channel_ready now q c') ∧ cancelled_waiting q c ∧
  cancelled_batches q !! c = Some (fb_events b) ∧ fb_cancelled_events b = [] ∧
  fb_cancel_reason b = cancel_reasons q !! c ∧ queue_of q' c = queue_of q c.

(** C29 A flush delivers the right work and loses none. It hands out a batch exactly
    when some channel is ready (events waiting, not in flight, not throttled) or
    has a cancelled batch and is not in flight. A ready channel whose oldest event
    was received first is picked, never one that is in flight, so a channel is never
    prompted twice at once; the batch is the oldest 50 waiting events in creation order
    together with the channel's cancelled events, and the rest stay queued. Only when
    no channel is ready is a cancelled batch delivered alone. The channel becomes in
    flight with the configured deadline, and no other channel changes. *)
Theorem flush_next_exact (now : Instant) (q : EventQueue) :
  let q0 := expire now q in
  let q' := (flush_next now q).1 in
  match (flush_next now q).2 with
  | None => q' = q0 ∧ (∀ c, ¬ channel_ready now q0 c) ∧ (∀ c, ¬ cancelled_waiting q0 c)
  | Some b =>
      let c := fb_channel_id b in
      (flushed_queue now q0 q' b ∨ flushed_cancelled now q0 q' b) ∧
      (c ∉ in_flight_channels q0) ∧ in_flight_channels q' = {[c]} ∪ in_flight_channels q0 ∧
      in_flight_deadlines q' = <[c := (now + in_flight_deadline q0)%Z]> (in_flight_deadlines q0) ∧
      cancelled_batches q' = delete c (cancelled_batches q0) ∧
      (∀ c', c' ≠ c → queue_of q' c' = queue_of q0 c')
  end.
Proof.
  cbv zeta. unfold flush_next. set (q0 := expire now q).
  destruct (pick_channel now q0) as [c|] eqn:Hp.
  - apply pick_channel_Some in Hp as [Hr Hmin].
    pose proof (flush_queued_queue_of now q0 c) as Hqo.
    pose proof (flush_queued_events now q0 c) as Hev.
    destruct (flush_queued now q0 c) as [q' b] eqn:Hf. cbn [fst snd] in *.
    assert (fb_channel_id b = c ∧ fb_cancelled_events b = default [] (cancelled_batches q0 !! c) ∧
            in_flight_channels q' = {[c]} ∪ in_flight_channels q0 ∧
            in_flight_deadlines q' = <[c := (now + in_flight_deadline q0)%Z]> (in_flight_deadlines q0) ∧
            cancelled_batches q' = delete c (cancelled_batches q0)) as (<- & Hc & -> & -> & ->)
      by (unfold flush_queued in Hf; by injection Hf as <- <-).
    split_and!; try done; [|apply Hr|by intros c' ?; rewrite Hqo, decide_False].
    left. split_and!; try done; [by rewrite Hev, sort_by_key_perm|rewrite Hev; apply sort_by_key_sorted|].
    by rewrite Hqo, decide_True.
  - rewrite pick_channel_None in Hp. destruct (pick_cancelled q0) as [c|] eqn:Hc.
    + apply pick_cancelled_Some in Hc as Hw. pose proof Hw as [[l Hl] Hnot]. simpl.
      split_and!; try done. right. split_and!; try done. simpl. by rewrite Hl.
    + simpl. split_and!; [done..|]. by apply pick_cancelled_None.
Qed.

(** The readiness query agrees with the flush: [has_flushable_work] answers yes
    exactly when [flush_next], called at the same instant, returns a batch, and it
    leaves the state [flush_next] starts from (the expired channels released). *)
Theorem has_flushable_work_exact (now : Instant) (q : EventQueue) :
  (has_flushable_work now q).2 = true ↔ is_Some (flush_next now q).2.
Proof.
  unfold has_flushable_work, flush_next. cbn [snd]. set (q0 := expire now q).
  rewrite orb_true_iff, !existsb_exists. split.
  - intros [([c l] & Hin & Hr)|([c l] & Hin & Hr)];
      apply list_elem_of_In, elem_of_hash_iter in Hin; simpl in Hr.
    + destruct (pick_channel now q0) eqn:Hp; [by destruct (flush_queued _ _ _); eauto|].
      rewrite pick_channel_None in Hp. destruct (Hp c). by apply ready_spec in Hr.
    + destruct (pick_channel now q0) eqn:Hp; [by destruct (flush_queued _ _ _); eauto|].
      destruct (pick_cancelled q0) eqn:Hc; [by destruct (flush_cancelled _ _ _); eauto|].
      rewrite pick_cancelled_None in Hc. bool_prop. destruct (Hc c). by split; [exists l|].
  - intros Hs. destruct (pick_channel now q0) as [c|] eqn:Hp.
    + left. apply pick_channel_Some in Hp as [Hr _]. pose proof (channel_ready_lookup _ _ _ Hr) as Hl.
      exists (c, queue_of q0 c). rewrite <- list_elem_of_In, elem_of_hash_iter. split; [done|].
      by apply ready_spec.
    + destruct (pick_cancelled q0) as [c|] eqn:Hc; [|by destruct Hs].
      apply pick_cancelled_Some in Hc as [[l Hl] Hn]. right. exists (c, l).
      rewrite <- list_elem_of_In, elem_of_hash_iter. split; [done|]. by apply bool_decide_eq_true.
Qed.

End flushing.

(** ** Failures: backoff, requeue and dead letters *)

(** The backoff of an attempt before jitter, in seconds *)
Definition backoff_secs (attempt : Z) : Z :=
  Z.min (BASE_RETRY_DELAY_SECS * 2 ^ Z.min (attempt - 1) 6) MAX_RETRY_DELAY_SECS.

Lemma retry_delay_eq (attempt nanos : Z) :
  (1 ≤ attempt)%Z →
  retry_delay attempt nanos =
    ((from_secs (backoff_secs attempt) * (8 * u32_max + 4 * nanos)) / (10 * u32_max))%Z.
Proof.
  intros Ha. unfold retry_delay, backoff_secs. cbv zeta. do 3 f_equal.
  rewrite Z.shiftl_1_l. unfold MAX_RETRY_DELAY_SECS, u64_max. lia.
Qed.

Lemma backoff_bounds (attempt : Z) : (1 ≤ attempt → 5 ≤ backoff_secs attempt ≤ 300)%Z.
Proof.
  intros. unfold backoff_secs, BASE_RETRY_DELAY_SECS, MAX_RETRY_DELAY_SECS.
  assert (0 < 2 ^ Z.min (attempt - 1) 6)%Z by (apply Z.pow_pos_nonneg; lia). lia.
Qed.

(** The retry delay backs off exponentially within bounds: attempt [n] waits at
    least 80% and less than 90% of [min(5 * 2^(min(n-1, 6)), 300)] seconds, so the
    jitter only shortens the delay (the comment in the code announces 0.8 to 1.2),
    it is never zero and never reaches five minutes, and a later attempt's
    undithered delay is at least the earlier one's. *)
Theorem retry_delay_bounds (attempt nanos : Z)
    (Ha : (1 ≤ attempt)%Z) (Hn : (0 ≤ nanos < 1000000000)%Z) :
  (8 * from_secs (backoff_secs attempt) ≤ 10 * retry_delay attempt nanos)%Z ∧
  (10 * retry_delay attempt nanos < 9 * from_secs (backoff_secs attempt))%Z ∧
  (from_secs 4 ≤ retry_delay attempt nanos < from_secs MAX_RETRY_DELAY_SECS)%Z ∧
  (backoff_secs attempt ≤ backoff_secs (attempt + 1))%Z.
Proof.
  rewrite retry_delay_eq by done. pose proof (backoff_bounds attempt Ha) as Hb.
  assert (backoff_secs attempt ≤ backoff_secs (attempt + 1))%Z as Hmono.
  { unfold backoff_secs, BASE_RETRY_DELAY_SECS, MAX_RETRY_DELAY_SECS.
    assert (2 ^ Z.min (attempt - 1) 6 ≤ 2 ^ Z.min (attempt + 1 - 1) 6)%Z
      by (apply Z.pow_le_mono_r; lia). lia. }
  revert Hb Hmono. generalize (backoff_secs attempt) (backoff_secs (attempt + 1)). intros s s' Hb Hmono.
  unfold from_secs, MAX_RETRY_DELAY_SECS. change u32_max with 4294967295%Z.
  assert (s * nanos ≤ 300 * 1000000000)%Z by nia.
  assert (0 ≤ s * nanos)%Z by nia. assert (s * nanos < s * 1000000000)%Z by nia.
  replace (s * 1000000000 * (8 * 4294967295 + 4 * nanos))%Z
    with (34359738360000000000 * s + 4000000000 * (s * nanos))%Z by ring.
  generalize dependent (s * nanos)%Z. intros x ? ? ?.
  pose proof (Z.div_mod (34359738360000000000 * s + 4000000000 * x) (10 * 4294967295)
    ltac:(lia)) as Hdiv.
  pose proof (Z.mod_pos_bound (34359738360000000000 * s + 4000000000 * x) (10 * 4294967295)
    ltac:(lia)) as Hmod.
  revert Hdiv Hmod.
  match goal with |- context [(?a / ?b)%Z] => generalize (a / b)%Z, (a mod b)%Z end.
  intros d r Hdiv Hmod. lia.
Qed.

(** A failed batch is retried ten times and never silently dropped: the
    [n]-th consecutive failure with [n <= 10] puts the whole batch back at the front
    of its channel in order (its events keep their tags and receive times, so the
    fairness position survives), throttles the channel for that attempt's delay and
    returns nothing; the eleventh returns the batch to the caller and clears the
    channel's retry state while leaving its queue alone. Events are lost only past the
    500-event cap, from the back. *)
Theorem requeue_exact (nanos : Z) (now : Instant) (q : EventQueue) (b : FlushBatch) :
  let c := fb_channel_id b in
  let attempt := (default 0%Z (retry_counts q !! c) + 1)%Z in
  let '(q', dead) := requeue nanos now q b in
  if decide (attempt ≤ MAX_RETRIES)%Z then
    dead = None ∧
    queue_of q' c = take MAX_PENDING_PER_CHANNEL ((to_queued c <$> fb_events b) ++ queue_of q c) ∧
    retry_counts q' = <[c := attempt]> (retry_counts q) ∧
    retry_after q' = <[c := (now + retry_delay attempt nanos)%Z]> (retry_after q) ∧
    (∀ c', c' ≠ c → queue_of q' c' = queue_of q c')
  else
    dead = Some b ∧ queues q' = queues q ∧ retry_counts q' = delete c (retry_counts q) ∧
    retry_after q' = delete c (retry_after q).
Proof.
  cbv zeta. unfold requeue. set (c := fb_channel_id b).
  destruct (Z.ltb_spec MAX_RETRIES (default 0 (retry_counts q !! c) + 1)%Z).
  - rewrite decide_False by lia. simpl. by rewrite delete_insert_eq.
  - rewrite decide_True by lia. split_and!; try done.
    + unfold queue_of at 1. simpl. rewrite lookup_insert_eq. simpl.
      by rewrite trim_take, push_front_all_app.
    + intros c' Hne. unfold queue_of. simpl. by rewrite lookup_insert_ne.
Qed.

(** [n] consecutive failures of a channel's batches, each completed before the next *)
Fixpoint fail_times (n : nat) (q : EventQueue) (b : FlushBatch) (clock : nat → Instant)
  : EventQueue * option FlushBatch :=
  match n with
  | 0 => (q, None)
  | S n => requeue 0 (clock n) (fail_times n q b clock).1 b
  end.

Lemma fail_times_counts (n : nat) (q : EventQueue) (b : FlushBatch) (clock : nat → Instant) :
  retry_counts q !! fb_channel_id b = None → n ≤ 10 →
  default 0%Z (retry_counts (fail_times n q b clock).1 !! fb_channel_id b) = Z.of_nat n ∧
  (fail_times n q b clock).2 = None.
Proof.
  intros Hq. induction n as [|n IH]; intros Hn; [by simpl; rewrite Hq|].
  destruct IH as [IH _]; [lia|]. cbn [fail_times]. unfold requeue. rewrite IH.
  destruct (Z.ltb_spec MAX_RETRIES (Z.of_nat n + 1)) as [Hlt|Hle].
  { rewrite max_retries_eq in Hlt. lia. }
  simpl. rewrite lookup_insert_eq. simpl. split; [lia|done].
Qed.

(** Dead-lettering happens at the eleventh consecutive failure and not before:
    on a channel with no retry history the first ten requeues of a batch keep it,
    and the eleventh hands it back to the caller. *)
Theorem dead_letter_at_eleventh (q : EventQueue) (b : FlushBatch) (clock : nat → Instant) (n : nat)
    (Hfresh : retry_counts q !! fb_channel_id b = None) (Hn : n ≤ 11) :
  (fail_times n q b clock).2 = if decide (n = 11) then Some b else None.
Proof.
  case_decide as Hd; [subst n|by apply fail_times_counts; [|lia]].
  destruct (fail_times_counts 10 q b clock Hfresh) as [Hc _]; [lia|].
  change (fail_times 11 q b clock) with (requeue 0 (clock 10) (fail_times 10 q b clock).1 b).
  revert Hc. generalize (fail_times 10 q b clock).1. intros q1 Hc.
  unfold requeue. by rewrite Hc, max_retries_eq.
Qed.

(** Handing a batch back because no agent was free ([requeue_preserve_timestamps])
    restores the batch's own events to the front of the queue with their receive times
    and without throttling the channel, but the cancelled events merged into that
    batch are not stored anywhere: a flush that picked up a cancelled batch and is then
    handed back has lost it. *)
Theorem requeue_preserve_loses_cancelled `{HashIteration} (now : Instant) (q : EventQueue)
    (b : FlushBatch) (Hb : (flush_next now q).2 = Some b) :
  let c := fb_channel_id b in
  let q1 := (flush_next now q).1 in
  let q2 := requeue_preserve_timestamps q1 b in
  queue_of q2 c = take MAX_PENDING_PER_CHANNEL ((to_queued c <$> fb_events b) ++ queue_of q1 c) ∧
  retry_after q2 = retry_after q1 ∧ cancelled_batches q2 !! c = None.
Proof.
  cbv zeta. unfold requeue_preserve_timestamps. set (c := fb_channel_id b). split_and!; [|done|].
  - unfold queue_of at 1. simpl. rewrite lookup_insert_eq. simpl.
    by rewrite trim_take, push_front_all_app.
  - simpl. revert Hb. unfold c. unfold flush_next.
    destruct (pick_channel now (expire now q)) as [c1|]; [by intros [= <-]; apply lookup_delete_eq|].
    destruct (pick_cancelled (expire now q)) as [c1|]; [|done].
    intros [= <-]. apply lookup_delete_eq.
Qed.

(** ** Compaction *)

Section compaction.
Context `{HashIteration}.

Definition with_retries (q : EventQueue) (a : gmap Uuid Instant) (k : gmap Uuid Z) : EventQueue :=
  set_retry_counts (set_retry_after q a) k.

Lemma expire_with_retries (now : Instant) (q : EventQueue) a k :
  expire now (with_retries q a k) = with_retries (expire now q) a k.
Proof.
  unfold expire. simpl. generalize (List.filter (λ kv, kv.2 <=? now)%Z (hash_iter (in_flight_deadlines q))).*1.
  intros l. revert q. induction l as [|c l IH]; intros q; cbn [foldl]; [done|].
  rewrite <- IH. f_equal. unfold expire_one, recover_withheld_for_expired_channel. cbv zeta. simpl.
  by destruct (withheld_native_steer q !! c).
Qed.

Lemma compact_with_retries (now : Instant) (q : EventQueue) :
  compact_expired_state now q =
  with_retries q (retry_after (compact_expired_state now q))
    (retry_counts (compact_expired_state now q)).
Proof. done. Qed.

Lemma pick_with_retries (now : Instant) (q : EventQueue) a k :
  (∀ c, is_none_or (λ t, t <=? now)%Z (a !! c) = is_none_or (λ t, t <=? now)%Z (retry_after q !! c)) →
  pick_channel now (with_retries q a k) = pick_channel now q.
Proof.
  intros Ha. unfold pick_channel. do 2 f_equal. apply list_filter_ext. intros [c l].
  unfold ready. simpl. by rewrite Ha.
Qed.

(** Compaction of the retry state is invisible: run at any earlier instant, it
    does not change which batch the next flush delivers; an unexpired backoff and the
    retry count of a channel with queued or in-flight events survive it, so an attempt
    sequence is not reset half-way. *)
Theorem compaction_invisible (now now' : Instant) (q : EventQueue) (Hnow : (now ≤ now')%Z) :
  (flush_next now' (compact_expired_state now q)).2 = (flush_next now' q).2 ∧
  (∀ c t, retry_after q !! c = Some t → (now < t)%Z →
     retry_after (compact_expired_state now q) !! c = Some t) ∧
  (∀ c, (c ∈ in_flight_channels q) ∨ queue_of q c ≠ [] →
     retry_counts (compact_expired_state now q) !! c = retry_counts q !! c).
Proof.
  split_and!.
  - unfold flush_next. rewrite compact_with_retries, expire_with_retries, pick_with_retries.
    + by destruct (pick_channel now' (expire now' q)); [|destruct (pick_cancelled (expire now' q)) eqn:Hp;
        unfold pick_cancelled in *; simpl; rewrite Hp].
    + intros c. destruct (expire_frame now' q) as (_ & _ & -> & _). simpl.
      destruct (retry_after q !! c) as [t|] eqn:Ht.
      * destruct (decide (now < t)%Z).
        { by erewrite map_lookup_filter_Some_2. }
        rewrite map_lookup_filter_None_2; [simpl; symmetry; apply Z.leb_le; lia|].
        right. intros t' Ht'. pose proof (eq_trans (eq_sym Ht) Ht') as [= <-]. done.
      * by rewrite map_lookup_filter_None_2 by (by left).
  - intros c t Ht Hlt. simpl. by apply map_lookup_filter_Some_2.
  - intros c Hc. simpl. destruct (retry_counts q !! c) as [n|] eqn:Hn.
    + apply map_lookup_filter_Some_2; [done|]. simpl. unfold queue_of in *. simpl. tauto.
    + apply map_lookup_filter_None_2. by left.
Qed.

End compaction.

(** ** Native steering *)

Lemma take_event_first (id : string) (l1 l2 : list QueuedEvent) (e : QueuedEvent) :
  ev_id_hex (q_event e) = id → (∀ x, x ∈ l1 → ev_id_hex (q_event x) ≠ id) →
  take_event id (l1 ++ e :: l2) = Some (e, l1 ++ l2).
Proof.
  intros He. induction l1 as [|x l1 IH]; intros Hl; simpl; [by rewrite decide_True|].
  rewrite decide_False by (apply Hl; set_solver). rewrite IH by (intros; apply Hl; set_solver). done.
Qed.

Lemma take_event_None (id : string) (l : list QueuedEvent) :
  take_event id l = None ↔ ∀ x, x ∈ l → ev_id_hex (q_event x) ≠ id.
Proof.
  induction l as [|x l IH]; simpl; [by set_solver|]. case_decide as Hx.
  - split; [done|]. intros Hl. by destruct (Hl x); [set_solver|].
  - destruct (take_event id l) as [[y r]|]; simpl.
    + split; [done|]. intros Hl. assert (Some (y, r) = None) as [=]. apply IH. intros. apply Hl. set_solver.
    + split; [|done]. intros _ y [->|Hy]%elem_of_cons; [done|]. by apply IH.
Qed.

Lemma without_event_absent (id : string) (l : list QueuedEvent) :
  (∀ x, x ∈ l → ev_id_hex (q_event x) ≠ id) → without_event id l = l.
Proof.
  unfold without_event. induction l as [|x l IH]; intros Hl; simpl; [done|].
  rewrite bool_decide_eq_false_2 by (apply Hl; set_solver). simpl.
  rewrite IH; [done|]. intros. apply Hl. set_solver.
Qed.

(** A native steer takes exactly one event out of circulation and either puts
    it back or drops it for good. Marking withholds the first queued event with that
    id, leaving the rest of the queue in order, so no later flush can deliver it;
    releasing it afterwards puts it at the front of the queue and forgets the
    withholding; removing it instead leaves neither the queue nor the withheld table
    with an event of that id. Marking an id that is not queued changes nothing. *)
Theorem native_steer_round_trip (q : EventQueue) (c : Uuid) (id : string)
    (Hq : queue_inv q)
    (Hw : ∀ x, x ∈ default [] (withheld_native_steer q !! c) → ev_id_hex (q_event x) ≠ id) :
  let '(q1, found) := mark_native_steer_pending q c id in
  if found then
    ∃ l1 e l2, queue_of q c = l1 ++ e :: l2 ∧ ev_id_hex (q_event e) = id ∧
      (∀ x, x ∈ l1 → ev_id_hex (q_event x) ≠ id) ∧
      queue_of q1 c = l1 ++ l2 ∧
      withheld_native_steer q1 !! c = Some (default [] (withheld_native_steer q !! c) ++ [e]) ∧
      queue_of (release_native_steer q1 c id) c = e :: l1 ++ l2 ∧
      default [] (withheld_native_steer (release_native_steer q1 c id) !! c) =
        default [] (withheld_native_steer q !! c) ∧
      queue_of (remove_event q1 c id) c = without_event id (l1 ++ l2) ∧
      default [] (withheld_native_steer (remove_event q1 c id) !! c) =
        default [] (withheld_native_steer q !! c)
  else q1 = q ∧ ∀ x, x ∈ queue_of q c → ev_id_hex (q_event x) ≠ id.
Proof.
  destruct (queue_of_ok q c Hq) as [Hlen _]. unfold mark_native_steer_pending.
  unfold queue_of in Hlen |- * at 1 5. destruct (queues q !! c) as [l|] eqn:Hl; [|by set_solver].
  destruct (take_event id l) as [[e l']|] eqn:He; [|split; [done|by apply take_event_None]].
  pose proof He as (Heid & l1 & l2 & -> & -> & Hl1)%take_event_Some. simpl in *.
  set (w := default [] (withheld_native_steer q !! c)) in *.
  set (q1 := set_withheld_native_steer _ _).
  assert (queue_of q1 c = l1 ++ l2) as Hq1
    by (unfold queue_of; simpl; rewrite put_or_remove_lookup; by rewrite decide_True).
  assert (withheld_native_steer q1 !! c = Some (w ++ [e])) as Hw1 by (simpl; by rewrite lookup_insert_eq).
  assert (take_event id (w ++ [e]) = Some (e, w)) as Hte
    by (rewrite take_event_first by done; by rewrite app_nil_r).
  exists l1, e, l2. split_and!; try done.
  - unfold release_native_steer. rewrite Hw1, Hte. unfold queue_of at 1. simpl.
    rewrite lookup_insert_eq. simpl. unfold queue_of. simpl. rewrite put_or_remove_lookup.
    rewrite decide_True by done. rewrite trim_take, take_ge; [done|].
    rewrite !length_app in *. simpl in *. rewrite length_app. lia.
  - unfold release_native_steer. rewrite Hw1, Hte. simpl. rewrite put_or_remove_lookup.
    by rewrite decide_True.
  - unfold remove_event. rewrite Hw1. cbv zeta. unfold queue_of in Hq1 |- *. simpl in *.
    destruct (put_or_remove (queues q) c (l1 ++ l2) !! c) as [l|] eqn:Hp; simpl in *.
    + subst l. rewrite put_or_remove_lookup. by rewrite decide_True.
    + rewrite Hp. by rewrite <- Hq1.
  - unfold remove_event. rewrite Hw1. cbv zeta. simpl.
    destruct (put_or_remove (queues q) c (l1 ++ l2) !! c); simpl; rewrite put_or_remove_lookup;
      rewrite decide_True by done; unfold without_event; rewrite List.filter_app; simpl;
      rewrite bool_decide_eq_true_2 by done; simpl; rewrite app_nil_r;
      by apply without_event_absent.
Qed.

(** ** Safety of every reachable queue *)

(** C37 Whatever sequence of operations the harness performs, the queue stays
    well formed: no channel holds more than 500 waiting events, every waiting or
    withheld event sits under its own channel, the deadline table and the batch-size
    table cover exactly the in-flight channels (so an in-flight channel always has a
    deadline that releases it), retry counts stay between 1 and 10, and a cancel
    reason is stored exactly for the channels with a cancelled batch. *)
Theorem reachable_well_formed `{HashIteration} (mode : DedupMode) (q : EventQueue)
    (Hr : reachable mode q) :
  (∀ c, length (queue_of q c) ≤ MAX_PENDING_PER_CHANNEL) ∧
  (∀ c e, (e ∈ queue_of q c ∨ e ∈ default [] (withheld_native_steer q !! c)) →
     q_channel_id e = c) ∧
  (∀ c, c ∈ in_flight_channels q ↔ is_Some (in_flight_deadlines q !! c)) ∧
  (∀ c, c ∈ in_flight_channels q ↔ is_Some (in_flight_batch_sizes q !! c)) ∧
  (∀ c n, retry_counts q !! c = Some n → (1 ≤ n ≤ MAX_RETRIES)%Z) ∧
  (∀ c, is_Some (cancel_reasons q !! c) ↔ is_Some (cancelled_batches q !! c)).
Proof.
  apply reachable_queue_inv in Hr as Hq. pose proof (λ c, queue_of_ok q c Hq) as Hof.
  destruct Hq as [_ Hw Hd Hs Hk Hc]. split_and!.
  - intros c. apply Hof.
  - intros c e [He|He].
    + destruct (Hof c) as [_ Hall]. rewrite Forall_forall in Hall. by apply Hall.
    + destruct (withheld_native_steer q !! c) as [l|] eqn:Hl; simpl in He; [|set_solver].
      specialize (Hw c l Hl). simpl in Hw. rewrite Forall_forall in Hw. by apply Hw.
  - intros c. by rewrite <- Hd, elem_of_dom.
  - intros c. by rewrite <- Hs, elem_of_dom.
  - intros c n. apply (Hk c n).
  - intros c. by rewrite <- !elem_of_dom, Hc.
Qed.

(** ** The properties at concrete queues *)

#[local] Existing Instance canonical_iteration.

Definition demo_event (id : string) (created : Z) : Event :=
  {| ev_id_hex := id; ev_pubkey := "aa"; ev_created_at := created; ev_kind := 9%N; ev_tags := [] |}.
Definition demo_queued (c : Uuid) (id : string) (created received : Z) : QueuedEvent :=
  {| q_channel_id := c; q_event := demo_event id created; q_received_at := received;
     q_prompt_tag := "mention"; q_is_issue := false |}.

Definition demo_q : EventQueue :=
  (push (push (push (new Queue) (demo_queued 1%N "x" 20 5)).1 (demo_queued 1%N "y" 10 6)).1
     (demo_queued 2%N "z" 30 7)).1.

Lemma demo_q_reachable : reachable Queue demo_q.
Proof.
  eapply rtc_l; [apply (step_push _ (demo_queued 1%N "x" 20 5))|].
  eapply rtc_l; [apply (step_push _ (demo_queued 1%N "y" 10 6))|].
  eapply rtc_l; [apply (step_push _ (demo_queued 2%N "z" 30 7))|]. apply rtc_refl.
Qed.

(** The channel with the oldest head is delivered first, sorted by creation time. *)
Example demo_flush :
  option_map (λ b, (fb_channel_id b, ev_id_hex ∘ b_event <$> fb_events b)) (flush_next 100%Z demo_q).2
  = Some (1%N, ["y"; "x"]).
Proof. vm_compute. reflexivity. Qed.

(** With channel 1 in flight the next flush takes channel 2, and then nothing is left. *)
Example demo_flush_again :
  let q1 := (flush_next 100%Z demo_q).1 in
  option_map fb_channel_id (flush_next 101%Z q1).2 = Some 2%N ∧
  (flush_next 102%Z (flush_next 101%Z q1).1).2 = None.
Proof. vm_compute. done. Qed.

Lemma reachable_well_formed_witness : length (queue_of demo_q 1%N) ≤ MAX_PENDING_PER_CHANNEL.
Proof. exact (proj1 (reachable_well_formed Queue demo_q demo_q_reachable) 1%N). Defined.

(** Channel 1 is in flight past its deadline and holds a withheld event. *)
Definition demo_stuck : EventQueue :=
  (mark_native_steer_pending (push (flush_next 0%Z demo_q).1 (demo_queued 1%N "s" 40 9)).1 1 "s").1.

Lemma demo_stuck_inv : queue_inv demo_stuck.
Proof.
  apply inv_mark_steer, inv_push, inv_flush_next.
  apply (reachable_queue_inv Queue), demo_q_reachable.
Qed.

Lemma expire_exact_witness :
  let t := from_secs 7300 in
  queue_of (expire t demo_stuck) 1 = [demo_queued 1%N "s" 40 9] ∧
  1%N ∉ in_flight_channels (expire t demo_stuck).
Proof.
  cbv zeta. destruct (expire_exact (from_secs 7300) demo_stuck 1 demo_stuck_inv) as (Hf & He & _).
  assert (∃ d, in_flight_deadlines demo_stuck !! 1%N = Some d ∧ (d ≤ from_secs 7300)%Z) as Hd.
  { exists (from_secs 7300). split; [vm_compute; reflexivity|lia]. }
  split; [|rewrite Hf; tauto].
  destruct (He Hd) as [-> _]. vm_compute. reflexivity.
Defined.

Lemma retry_delay_bounds_witness :
  (from_secs 4 ≤ retry_delay 3 500000000 < from_secs MAX_RETRY_DELAY_SECS)%Z.
Proof. apply (retry_delay_bounds 3 500000000); lia. Defined.

Definition demo_batch : FlushBatch :=
  {| fb_channel_id := 1; fb_events := [to_batch (demo_queued 1%N "x" 20 5)];
     fb_cancelled_events := []; fb_cancel_reason := None |}.

Lemma dead_letter_at_eleventh_witness :
  (fail_times 11 (new Queue) demo_batch (λ n, Z.of_nat n)).2 = Some demo_batch ∧
  (fail_times 10 (new Queue) demo_batch (λ n, Z.of_nat n)).2 = None.
Proof.
  split; [apply (dead_letter_at_eleventh (new Queue) demo_batch (λ n, Z.of_nat n) 11)
         |apply (dead_letter_at_eleventh (new Queue) demo_batch (λ n, Z.of_nat n) 10)];
    first [reflexivity|lia].
Defined.

(** A steer-cancelled batch merged with fresh events, then handed back *)
Definition demo_steered : EventQueue :=
  requeue_as_cancelled (push (new Queue) (demo_queued 1%N "fresh" 50 9)).1 demo_batch Steer.

Lemma requeue_preserve_loses_cancelled_witness :
  ∃ b, (flush_next 100%Z demo_steered).2 = Some b ∧
    (ev_id_hex ∘ b_event <$> fb_cancelled_events b) = ["x"] ∧
    cancelled_batches (requeue_preserve_timestamps (flush_next 100%Z demo_steered).1 b) !! 1%N = None.
Proof.
  eexists. split; [vm_compute; reflexivity|]. split; [reflexivity|].
  apply (requeue_preserve_loses_cancelled 100%Z demo_steered). vm_compute. reflexivity.
Defined.

Lemma compaction_invisible_witness :
  (flush_next 7%Z (compact_expired_state 5%Z demo_q)).2 = (flush_next 7%Z demo_q).2.
Proof. apply (compaction_invisible 5 7%Z demo_q). lia. Defined.

Lemma native_steer_round_trip_witness :
  let q1 := (mark_native_steer_pending demo_q 1%N "y").1 in
  (mark_native_steer_pending demo_q 1%N "y").2 = true ∧
  ∃ l1 e l2, queue_of demo_q 1 = l1 ++ e :: l2 ∧ queue_of q1 1%N = l1 ++ l2 ∧
    queue_of (release_native_steer q1 1%N "y") 1 = e :: l1 ++ l2.
Proof.
  cbv zeta. assert (∀ x, x ∈ default [] (withheld_native_steer demo_q !! 1%N) →
                      ev_id_hex (q_event x) ≠ "y") as Hw.
  { intros x. vm_compute (default _ _). by intros ?%elem_of_nil. }
  pose proof (native_steer_round_trip demo_q 1%N "y"
    (reachable_queue_inv Queue demo_q demo_q_reachable) Hw) as Hn.
  assert ((mark_native_steer_pending demo_q 1%N "y").2 = true) as Hf by (vm_compute; reflexivity).
  destruct (mark_native_steer_pending demo_q 1%N "y") as [q1 found]. simpl in *. subst found.
  destruct Hn as (l1 & e & l2 & ? & _ & _ & ? & _ & ? & _). split; [done|]. by exists l1, e, l2.
Defined.
