(* ===== verification/Gossip.v ===== *)
(** * Membership gossip of the relay mesh (buzz-relay-mesh/src/gossip.rs)

    Records, digests and deltas, the last-version-wins table, and the phi-accrual
    failure detector.

    A [RuntimeId] is the big-endian value of its 32 bytes; its lower-case hex form
    has a fixed width, so sorting by [to_hex()] is sorting by that value. The
    [load] of a record, an [f32] that is only ever copied, is its bit pattern.
    [SystemTime] is an integer of nanoseconds. The [f64] arithmetic of the failure
    detector is carried out in exact rationals ([LN_10] is the rational value of the
    [f64] constant). postcard, the serialization library, is a parameter. *)

From Stdlib Require Import QArith Qround.
From stdpp Require Import pretty.
From S2P Require Import Prelude.

Open Scope string_scope.
Open Scope nat_scope.
Open Scope list_scope.

Abbreviation RuntimeId := N (only parsing).

Definition GOSSIP_PAYLOAD_VERSION : Z := 1.

Record GossipRecord := {
  runtime_id : RuntimeId;
  endpoint_addrs : list string;
  proto_version : Z;
  load : Z;
  draining : bool;
  capabilities : list string;
  version : Z;
  heartbeat_millis : Z
}.

Definition GossipRecord_new (now_millis : Z) (id : RuntimeId) (addrs : list string) (proto : Z)
  : GossipRecord :=
  {| runtime_id := id; endpoint_addrs := addrs; proto_version := proto; load := 0;
     draining := false; capabilities := []; version := 1; heartbeat_millis := now_millis |}.

Record GossipDigestEntry := { d_runtime_id : RuntimeId; d_version : Z }.

Inductive GossipMessage :=
  | Digest (version : Z) (entries : list GossipDigestEntry)
  | Delta (version : Z) (records : list GossipRecord).

Inductive MeshError :=
  | Encode (e : string)
  | Decode (e : string)
  | UnknownWireVersion (v : Z)
  | EmptyFrame
  | FrameTooLarge (size max : nat)
  | DatagramTooLarge (size max : nat)
  | PeerNotConnected (id : RuntimeId)
  | PeerDraining (id : RuntimeId)
  | StaleGeneration (session_id : N) (frame_generation known_generation : Z)
  | NoActiveLease (session_id : N) (frame_generation known_generation : Z)
      (frame_owner_runtime_id : RuntimeId)
  | OwnerMismatch (session_id : N) (generation : Z)
      (frame_owner_runtime_id current_owner_runtime_id : RuntimeId)
  | FutureGeneration (session_id : N) (frame_generation known_generation : Z)
  | Disabled
  | Transport (e : string)
  | Redis (e : string).

(** postcard, as the code uses it *)
Class Postcard := {
  to_extend : GossipMessage → result (list Z) string;
  from_bytes : list Z → result GossipMessage string
}.

Definition encode_message `{Postcard} (m : GossipMessage) : result (list Z) MeshError :=
  match to_extend m with Ok b => Ok b | Err e => Err (Encode e) end.

Definition decode_message `{Postcard} (bytes : list Z) : result GossipMessage MeshError :=
  match from_bytes bytes with
  | Err e => Err (Decode e)
  | Ok m =>
      let v := match m with Digest v _ | Delta v _ => v end in
      if decide (v = GOSSIP_PAYLOAD_VERSION) then Ok m
      else Err (Transport ("unknown gossip payload version " +:+ pretty v))
  end.

(** The record of [update_local]: the caller's change, then the version and
    heartbeat bump. *)
Definition bump (now_millis : Z) (r : GossipRecord) : GossipRecord :=
  {| runtime_id := runtime_id r; endpoint_addrs := endpoint_addrs r;
     proto_version := proto_version r; load := load r; draining := draining r;
     capabilities := capabilities r; version := u64_saturating_add (version r) 1;
     heartbeat_millis := now_millis |}.

Definition digest_entry (r : GossipRecord) : GossipDigestEntry :=
  {| d_runtime_id := runtime_id r; d_version := version r |}.

(** [digest.iter().map(..).collect::<HashMap<_, _>>()]: a later entry wins. *)
Definition remote_versions (digest : list GossipDigestEntry) : gmap RuntimeId Z :=
  foldl (λ m e, <[d_runtime_id e := d_version e]> m) ∅ digest.

Definition behind (remote : gmap RuntimeId Z) (r : GossipRecord) : bool :=
  is_none_or (λ v, v <? version r)%Z (remote !! runtime_id r).

Definition sort_entries : list GossipDigestEntry → list GossipDigestEntry :=
  sort_by_key (λ e, Z.of_N (d_runtime_id e)).
Definition sort_records : list GossipRecord → list GossipRecord :=
  sort_by_key (λ r, Z.of_N (runtime_id r)).

Abbreviation GossipState := (gmap RuntimeId GossipRecord) (only parsing).

Module GossipStateOps.

Definition new (local : GossipRecord) : GossipState := {[ runtime_id local := local ]}.

Definition get (s : GossipState) (id : RuntimeId) : option GossipRecord := s !! id.

Definition update_local (now_millis : Z) (s : GossipState) (id : RuntimeId)
    (update : GossipRecord → GossipRecord) : GossipState * option GossipRecord :=
  match s !! id with
  | None => (s, None)
  | Some r => let r := bump now_millis (update r) in (<[id := r]> s, Some r)
  end.

(** [records.values()], in some iteration order *)
Definition records `{HashIteration} (s : GossipState) : list GossipRecord := (hash_iter s).*2.

Definition digest `{HashIteration} (s : GossipState) : GossipMessage :=
  Digest GOSSIP_PAYLOAD_VERSION (sort_entries (digest_entry <$> records s)).

Definition delta_for `{HashIteration} (s : GossipState) (d : list GossipDigestEntry)
  : GossipMessage :=
  let remote := remote_versions d in
  Delta GOSSIP_PAYLOAD_VERSION (sort_records (List.filter (behind remote) (records s))).

Definition should_apply (s : GossipState) (r : GossipRecord) : bool :=
  is_none_or (λ existing, version existing <? version r)%Z (s !! runtime_id r).

Fixpoint apply_delta (s : GossipState) (rs : list GossipRecord)
  : GossipState * list RuntimeId :=
  match rs with
  | [] => (s, [])
  | r :: rs =>
      if should_apply s r then
        let '(s, changed) := apply_delta (<[runtime_id r := r]> s) rs in
        (s, runtime_id r :: changed)
      else apply_delta s rs
  end.

End GossipStateOps.

(** ** Phi accrual *)

Record PhiAccrual := {
  samples : list Z;
  last_heartbeat : option Z;
  max_samples : nat
}.

Definition PhiAccrual_new (n : nat) : PhiAccrual :=
  {| samples := []; last_heartbeat := None; max_samples := Nat.max n 1 |}.

Definition PhiAccrual_default : PhiAccrual := PhiAccrual_new 100.

(** [push], then [remove(0)] when over the cap *)
Definition push_sample (p : PhiAccrual) (interval : Z) : list Z :=
  let l := samples p ++ [interval] in
  if max_samples p <? length l then tail l else l.

Definition observe (p : PhiAccrual) (at_ : Z) : PhiAccrual :=
  let samples' :=
    match last_heartbeat p with
    | Some prev => if (prev <? at_)%Z then push_sample p (at_ - prev) else samples p
    | None => samples p
    end in
  {| samples := samples'; last_heartbeat := Some at_; max_samples := max_samples p |}.

Definition secs (nanos : Z) : Q := nanos # 1000000000.
Definition LN_10 : Q := 2592480341699211 # 1125899906842624.
Definition EPSILON : Q := 1 # (2 ^ 52).

Definition mean_secs (p : PhiAccrual) : Q :=
  (foldr (λ d acc, Qplus (secs d) acc) 0 (samples p)
   / inject_Z (Z.of_nat (length (samples p))))%Q.

Definition phi_at (p : PhiAccrual) (now : Z) : option Q :=
  last ← last_heartbeat p;
  if decide (samples p = []) then None
  else if (now <? last)%Z then None
  else
    let elapsed := secs (now - last) in
    let mean := mean_secs p in
    if Qle_bool mean EPSILON then None else Some ((elapsed / mean) / LN_10)%Q.

(** [UNIX_EPOCH + Duration::from_millis] *)
Definition system_time_from_millis (millis : Z) : Z := (millis * 1000000)%Z.

(** ** The failure detector *)

(** Samples are positive and bounded in number. *)
Definition phi_ok (p : PhiAccrual) : Prop :=
  Forall (λ d, 0 < d)%Z (samples p) ∧ length (samples p) ≤ max_samples p ∧ 1 ≤ max_samples p.

Lemma phi_default_ok : phi_ok PhiAccrual_default.
Proof. split; [constructor|]. unfold PhiAccrual_default, PhiAccrual_new. simpl. lia. Qed.

Lemma observe_ok (p : PhiAccrual) (t : Z) : phi_ok p → phi_ok (observe p t).
Proof.
  intros (Hpos & Hlen & Hmax). unfold observe, phi_ok. simpl. unfold push_sample.
  destruct (last_heartbeat p) as [prev|]; [|done].
  destruct (Z.ltb_spec prev t); [|done].
  assert (Forall (λ d, 0 < d)%Z (samples p ++ [t - prev]%Z)) as Happ
    by (apply Forall_app_2; [done|constructor; [lia|done]]).
  destruct (Nat.ltb_spec (max_samples p) (length (samples p ++ [t - prev]%Z))) as [Hlt|Hge].
  - split_and!; [by apply Forall_tail| |done]. rewrite length_app in Hlt. simpl in Hlt.
    destruct (samples p) as [|d l]; simpl in *; rewrite ?length_app; simpl; lia.
  - done.
Qed.

Lemma mean_lower (p : PhiAccrual) :
  phi_ok p → samples p ≠ [] → (1 # 1000000000 <= mean_secs p)%Q.
Proof.
  intros (Hpos & _) Hne. unfold mean_secs.
  assert ((1 # 1000000000) * inject_Z (Z.of_nat (length (samples p))) <=
          foldr (λ d acc, Qplus (secs d) acc) 0 (samples p))%Q as Hsum.
  { clear Hne. induction Hpos as [|d l Hd _ IH]; [done|]. cbn [foldr length].
    rewrite Nat2Z.inj_succ, <- Z.add_1_l, inject_Z_plus, Qmult_plus_distr_r.
    apply Qplus_le_compat; [|done]. unfold secs, Qle. simpl. lia. }
  apply Qle_shift_div_l; [|done]. destruct (samples p); [done|]. unfold Qlt. simpl. lia.
Qed.

Lemma mean_above_epsilon (p : PhiAccrual) :
  phi_ok p → samples p ≠ [] → Qle_bool (mean_secs p) EPSILON = false ∧ (0 < mean_secs p)%Q.
Proof.
  intros Hp Hne. pose proof (mean_lower p Hp Hne) as Hm. split.
  - apply not_true_is_false. rewrite Qle_bool_iff. intros Hle.
    pose proof (Qle_trans _ _ _ Hm Hle) as Hc. unfold EPSILON, Qle in Hc. simpl in Hc. lia.
  - eapply Qlt_le_trans; [|exact Hm]. done.
Qed.

(** Suspicion only grows while a runtime is silent, without bound. *)
Lemma phi_at_eq (p : PhiAccrual) (last now : Z) :
  phi_ok p → samples p ≠ [] → last_heartbeat p = Some last → (last ≤ now)%Z →
  phi_at p now = Some ((secs (now - last) / mean_secs p) / LN_10)%Q.
Proof.
  intros Hp Hne Hl Hle. unfold phi_at. rewrite Hl. simpl. rewrite decide_False by done.
  rewrite (proj2 (Z.ltb_ge _ _)) by done. by rewrite (proj1 (mean_above_epsilon p Hp Hne)).
Qed.

Lemma phi_at_mono (p : PhiAccrual) (t t' : Z) (x : Q) :
  phi_ok p → phi_at p t = Some x → (t ≤ t')%Z → ∃ y, phi_at p t' = Some y ∧ (x <= y)%Q.
Proof.
  intros Hp Hx Ht. destruct (last_heartbeat p) as [last|] eqn:Hl; [|by unfold phi_at in Hx; rewrite Hl in Hx].
  assert (samples p ≠ [] ∧ last ≤ t)%Z as [Hne Hle].
  { unfold phi_at in Hx. rewrite Hl in Hx. simpl in Hx. case_decide; [done|].
    destruct (Z.ltb_spec t last); [done|]. done. }
  rewrite (phi_at_eq p last) in Hx by (done || lia). injection Hx as <-.
  exists ((secs (t' - last) / mean_secs p) / LN_10)%Q. split; [by apply phi_at_eq; [..|lia]|].
  destruct (mean_above_epsilon p Hp Hne) as [_ Hpos]. unfold Qdiv.
  apply Qmult_le_compat_r; [|done]. apply Qmult_le_compat_r; [unfold secs, Qle; simpl; lia|].
  apply Qlt_le_weak, Qinv_lt_0_compat, Hpos.
Qed.

Lemma phi_at_unbounded (p : PhiAccrual) (bound : Q) :
  phi_ok p → samples p ≠ [] → is_Some (last_heartbeat p) →
  ∃ T, ∀ now, (T ≤ now)%Z → ∃ x, phi_at p now = Some x ∧ (bound <= x)%Q.
Proof.
  intros Hp Hne [last Hl]. destruct (mean_above_epsilon p Hp Hne) as [_ Hpos].
  set (need := (bound * LN_10 * mean_secs p * inject_Z 1000000000)%Q).
  exists (Z.max last (last + Qceiling need))%Z. intros now Hnow.
  eexists. split; [apply (phi_at_eq p last); (done || lia)|].
  apply Qle_shift_div_l; [done|]. apply Qle_shift_div_l; [done|].
  assert (need <= inject_Z (now - last))%Q as Hn.
  { eapply Qle_trans; [apply Qle_ceiling|]. rewrite <- Zle_Qle. lia. }
  apply (Qmult_lt_0_le_reg_r _ _ (inject_Z 1000000000)); [done|].
  eapply Qle_trans; [exact Hn|]. unfold secs, Qle, inject_Z. simpl. lia.
Qed.

(** ** The abstract table: pointwise last-version-wins *)

(** The newer of two copies of a record; the first one on a tie *)
Definition newer (a b : option GossipRecord) : option GossipRecord :=
  match a, b with
  | Some x, Some y => if (version x <? version y)%Z then Some y else Some x
  | None, _ => b
  | _, None => a
  end.

(** A table holds each record under the runtime id it names. *)
Definition keyed (s : GossipState) : Prop := map_Forall (λ id r, runtime_id r = id) s.

Definition is_id (id : RuntimeId) (r : GossipRecord) : bool := bool_decide (runtime_id r = id).

Lemma newer_assoc (a b c : option GossipRecord) : newer a (newer b c) = newer (newer a b) c.
Proof.
  destruct a as [a|], b as [b|], c as [c|]; simpl; try done; repeat case_match; simpl in *;
    try done; simplify_eq; repeat case_match; try done; lia.
Qed.

Lemma newer_idemp (a : option GossipRecord) : newer a a = a.
Proof. destruct a as [a|]; simpl; [|done]. by destruct (_ <? _)%Z. Qed.

Import GossipStateOps.

Lemma should_apply_newer (s : GossipState) (r : GossipRecord) :
  newer (s !! runtime_id r) (Some r) = if should_apply s r then Some r else s !! runtime_id r.
Proof. unfold should_apply, newer. destruct (s !! runtime_id r); simpl; [|done]. by destruct (_ <? _)%Z. Qed.

(** Applying a delta folds [newer] over the records of each runtime. *)
Lemma apply_delta_lookup (s : GossipState) (rs : list GossipRecord) (id : RuntimeId) :
  (apply_delta s rs).1 !! id =
  foldl (λ acc r, newer acc (Some r)) (s !! id) (List.filter (is_id id) rs).
Proof.
  revert s. induction rs as [|r rs IH]; intros s; cbn [apply_delta List.filter]; [done|].
  pose proof (should_apply_newer s r) as Hn. unfold is_id at 1.
  destruct (should_apply s r).
  - specialize (IH (<[runtime_id r := r]> s)).
    destruct (apply_delta _ rs) as [s' ch]; cbn [fst] in *. rewrite IH.
    case_bool_decide as Hid; cbn [foldl].
    + subst id. by rewrite lookup_insert_eq, Hn.
    + by rewrite lookup_insert_ne.
  - rewrite IH. case_bool_decide as Hid; cbn [foldl]; [|done]. subst id. by rewrite Hn.
Qed.

Lemma apply_delta_keyed (s : GossipState) (rs : list GossipRecord) :
  keyed s → keyed (apply_delta s rs).1.
Proof.
  revert s. induction rs as [|r rs IH]; intros s Hs; cbn [apply_delta]; [done|].
  destruct (should_apply s r); [|by apply IH].
  specialize (IH (<[runtime_id r := r]> s)). destruct (apply_delta _ rs); cbn [fst] in *.
  apply IH. by apply map_Forall_insert_2.
Qed.

(** What a fold of [newer] returns: the first record with the highest version *)
Lemma fold_newer (o : option GossipRecord) (l : list GossipRecord) :
  let res := foldl (λ acc r, newer acc (Some r)) o l in
  (res = None ↔ o = None ∧ l = []) ∧
  (∀ r, res = Some r → (o = Some r ∨ r ∈ l) ∧
     (∀ x, o = Some x ∨ x ∈ l → version x ≤ version r)%Z).
Proof.
  revert o. induction l as [|y l IH]; intros o; cbn [foldl].
  - split; [by split; [|intros []]|]. intros r ->. split; [by left|].
    intros x [[= <-]|Hx%elem_of_nil]; [lia|done].
  - destruct (IH (newer o (Some y))) as [Hnone Hsome]. split.
    + rewrite Hnone. split; [|by intros [_ ?]]. intros [Hn _].
      destruct o as [x|]; simpl in Hn; [|done]. by destruct (_ <? _)%Z.
    + intros r Hr. destruct (Hsome r Hr) as [Hin Hmax].
      assert (newer o (Some y) = Some y ∨ newer o (Some y) = o ∧ is_Some o) as Hc.
      { destruct o as [x|]; simpl; [destruct (_ <? _)%Z|]; eauto. }
      assert (∀ x, o = Some x ∨ x = y → ∃ z, newer o (Some y) = Some z ∧ version x ≤ version z)%Z as Hge.
      { intros x [-> | ->]; simpl; [|destruct o as [x'|]; simpl; [|by exists y]];
          match goal with |- context [(?a <? ?b)%Z] => destruct (Z.ltb_spec a b) end;
          eexists; (split; [done|lia]). }
      split.
      * destruct Hin as [Hin|Hin]; [|right; set_solver].
        destruct Hc as [Hc|[Hc _]]; rewrite Hc in Hin; [right; simplify_eq; set_solver|by left].
      * intros x Hx. assert ((o = Some x ∨ x = y) ∨ x ∈ l) as [Hx'|Hx'] by set_solver.
        -- destruct (Hge x Hx') as (z & Hz & Hle). specialize (Hmax z (or_introl Hz)). lia.
        -- apply Hmax. by right.
Qed.

(** *** Digests and deltas of a keyed table *)

Section exchange.
Context `{HashIteration}.

Lemma elem_of_records (s : GossipState) (r : GossipRecord) :
  keyed s → r ∈ records s ↔ s !! runtime_id r = Some r.
Proof.
  intros Hk. unfold records. rewrite list_elem_of_fmap. split.
  - intros ([id r'] & -> & Hin%elem_of_hash_iter). simpl. by rewrite (Hk _ _ Hin).
  - intros Hr. exists (runtime_id r, r). split; [done|]. by apply elem_of_hash_iter.
Qed.

Lemma records_ids (s : GossipState) : keyed s → runtime_id <$> records s = (hash_iter s).*1.
Proof.
  intros Hk. unfold records. rewrite <- list_fmap_compose. apply list_fmap_ext.
  intros i [id r] Hi%list_elem_of_lookup_2%elem_of_hash_iter. by apply (Hk id r).
Qed.

Lemma NoDup_hash_iter_fst {A} (m : gmap N A) : NoDup (hash_iter m).*1.
Proof. rewrite hash_iter_perm. apply NoDup_fst_map_to_list. Qed.

Lemma NoDup_records (s : GossipState) : keyed s → NoDup (records s).
Proof. intros Hk. apply (NoDup_fmap_1 runtime_id). rewrite records_ids by done. apply NoDup_hash_iter_fst. Qed.

Lemma filter_id_records (s : GossipState) (id : RuntimeId) (f : GossipRecord → bool) :
  keyed s →
  List.filter (is_id id) (List.filter f (records s)) ≡ₚ
  match s !! id with Some r => if f r then [r] else [] | None => [] end.
Proof.
  intros Hk. apply NoDup_Permutation.
  - apply NoDup_ListNoDup. apply List.NoDup_filter, List.NoDup_filter, NoDup_ListNoDup, NoDup_records, Hk.
  - destruct (s !! id) as [r|]; [destruct (f r)|]; repeat constructor. set_solver.
  - intros r. rewrite !list_elem_of_In, !filter_In, <- list_elem_of_In, elem_of_records by done.
    unfold is_id. rewrite bool_decide_eq_true. rewrite <- list_elem_of_In. split.
    + intros [[Hr Hf] <-]. rewrite Hr, Hf. set_solver.
    + destruct (s !! id) as [x|] eqn:Hx; [|set_solver]. destruct (f x) eqn:Hf; [|set_solver].
      intros ->%list_elem_of_singleton. pose proof (Hk _ _ Hx) as <-. done.
Qed.

Lemma remote_versions_list (l : list GossipDigestEntry) :
  remote_versions l = list_to_map (reverse ((λ e, (d_runtime_id e, d_version e)) <$> l)).
Proof.
  unfold remote_versions. rewrite <- (reverse_involutive l) at 1. rewrite <- fmap_reverse.
  induction (reverse l) as [|e l' IH]; [done|]. rewrite reverse_cons, foldl_app, IH. done.
Qed.

Lemma remote_versions_digest (s : GossipState) (l : list GossipDigestEntry) (id : RuntimeId) :
  keyed s → l ≡ₚ digest_entry <$> records s → remote_versions l !! id = version <$> s !! id.
Proof.
  intros Hk Hl. rewrite remote_versions_list. apply option_eq. intros v.
  rewrite <- elem_of_list_to_map.
  - rewrite elem_of_reverse, Hl, <- list_fmap_compose, list_elem_of_fmap, fmap_Some. split.
    + intros (r & [= -> ->] & Hr%elem_of_records); [eauto|done].
    + intros (r & Hr & ->). exists r. pose proof (Hk _ _ Hr) as <-.
      split; [done|]. by apply elem_of_records.
  - rewrite fmap_reverse, reverse_Permutation, <- list_fmap_compose, Hl, <- list_fmap_compose.
    change (NoDup (runtime_id <$> records s)). rewrite records_ids by done. apply NoDup_hash_iter_fst.
Qed.

Definition entries_of (m : GossipMessage) : list GossipDigestEntry :=
  match m with Digest _ l => l | Delta _ _ => [] end.
Definition records_of (m : GossipMessage) : list GossipRecord :=
  match m with Delta _ l => l | Digest _ _ => [] end.

(** One direction of a control-stream exchange: [a] sends its digest to [b], which
    answers with a delta that [a] applies. *)
Definition pull (a b : GossipState) : GossipState :=
  (apply_delta a (records_of (delta_for b (entries_of (digest a))))).1.

Lemma entries_of_digest (s : GossipState) :
  entries_of (digest s) ≡ₚ digest_entry <$> records s.
Proof. simpl. apply sort_by_key_perm. Qed.

Lemma foldl_newer_perm_single (o : option GossipRecord) (l : list GossipRecord) (x : GossipRecord) :
  l ≡ₚ [x] → foldl (λ acc r, newer acc (Some r)) o l = newer o (Some x).
Proof. intros ->%Permutation_singleton_r. done. Qed.

Lemma pull_lookup (a b : GossipState) (id : RuntimeId) :
  keyed a → keyed b → pull a b !! id = newer (a !! id) (b !! id).
Proof.
  intros Ha Hb. unfold pull. rewrite apply_delta_lookup. cbn [records_of delta_for].
  assert (List.filter (is_id id) (sort_records (List.filter (behind (remote_versions
    (entries_of (digest a)))) (records b))) ≡ₚ
    match b !! id with
    | Some r => if behind (remote_versions (entries_of (digest a))) r then [r] else []
    | None => [] end) as Hf.
  { etrans; [|by apply filter_id_records]. unfold sort_records.
    by rewrite sort_by_key_perm. }
  destruct (b !! id) as [r|] eqn:Hr.
  - assert (runtime_id r = id) as Hid by (by apply (Hb id r)).
    assert (behind (remote_versions (entries_of (digest a))) r =
              is_none_or (λ v, v <? version r)%Z (version <$> a !! id)) as Hbe
      by (unfold behind; by rewrite Hid, (remote_versions_digest a _ id Ha (entries_of_digest a))).
    rewrite Hbe in Hf. destruct (a !! id) as [x|] eqn:Hx; simpl in Hf |- *.
    + destruct (version x <? version r)%Z eqn:Hv.
      * rewrite (foldl_newer_perm_single _ _ r) by done. simpl. by rewrite Hv.
      * apply Permutation_nil_r in Hf. by rewrite Hf.
    + by rewrite (foldl_newer_perm_single _ _ r).
  - apply Permutation_nil_r in Hf. rewrite Hf. simpl. by destruct (a !! id).
Qed.

End exchange.

(** ** Properties *)

(** The owning runtime is the only writer of its record, so two tables never hold
    different records with the same version. *)
Definition single_writer (a b : GossipState) : Prop :=
  ∀ id x y, a !! id = Some x → b !! id = Some y → version x = version y → x = y.

Lemma newer_comm (a b : GossipState) (id : RuntimeId) :
  single_writer a b → newer (a !! id) (b !! id) = newer (b !! id) (a !! id).
Proof.
  intros Hsw. specialize (Hsw id). destruct (a !! id) as [x|], (b !! id) as [y|]; simpl; try done.
  specialize (Hsw x y eq_refl eq_refl).
  destruct (Z.ltb_spec (version x) (version y)), (Z.ltb_spec (version y) (version x));
    try done; try lia. f_equal. apply Hsw. lia.
Qed.

Section properties.
Context `{HashIteration}.

Lemma pull_keyed (a b : GossipState) : keyed a → keyed (pull a b).
Proof. apply apply_delta_keyed. Qed.

(** A delta answers a digest with nothing when the digest's table is as new. *)
Lemma delta_for_empty (a b : GossipState) :
  keyed a → keyed b → (∀ id, newer (a !! id) (b !! id) = a !! id) →
  records_of (delta_for b (entries_of (digest a))) = [].
Proof.
  intros Ha Hb Hle. cbn [records_of delta_for]. apply Permutation_nil_r.
  unfold sort_records. rewrite sort_by_key_perm.
  destruct (List.filter _ (records b)) as [|r l] eqn:Hf; [done|]. exfalso.
  assert (r ∈ List.filter (behind (remote_versions (entries_of (digest a)))) (records b)) as Hin
    by (rewrite Hf; set_solver).
  apply list_elem_of_In, filter_In in Hin as [Hin Hbe].
  apply list_elem_of_In, elem_of_records in Hin; [|done].
  unfold behind in Hbe. rewrite (remote_versions_digest a _ _ Ha (entries_of_digest a)) in Hbe.
  specialize (Hle (runtime_id r)). rewrite Hin in Hle.
  destruct (a !! runtime_id r) as [x|] eqn:Hx; simpl in Hle, Hbe; [|done].
  rewrite Hbe in Hle. simplify_eq. lia.
Qed.

(** C32 Gossip converges. One digest/delta exchange leaves the puller with the
    pointwise last-version-wins join of the two tables; the join is associative and,
    because each record has a single writer, the two sides reach the same table no
    matter who pulls first. After that the exchange is quiescent: a further digest is
    answered with an empty delta. *)
Theorem gossip_converges (a b c : GossipState)
    (Ha : keyed a) (Hb : keyed b) (Hc : keyed c) (Hsw : single_writer a b) :
  (∀ id, pull a b !! id = newer (a !! id) (b !! id)) ∧
  pull a b = pull b a ∧
  pull (pull a b) c = pull a (pull b c) ∧
  records_of (delta_for b (entries_of (digest (pull a b)))) = [] ∧
  records_of (delta_for a (entries_of (digest (pull a b)))) = [].
Proof.
  assert (∀ x y id, keyed x → keyed y → pull x y !! id = newer (x !! id) (y !! id)) as Hp
    by (intros; by apply pull_lookup).
  pose proof (pull_keyed a b Ha). pose proof (pull_keyed b c Hb).
  split_and!.
  - intros id. by apply Hp.
  - apply map_eq. intros id. rewrite !Hp by done. by apply newer_comm.
  - apply map_eq. intros id. rewrite !Hp by done. by rewrite newer_assoc.
  - apply delta_for_empty; [done..|]. intros id. rewrite Hp by done.
    by rewrite <- newer_assoc, newer_idemp.
  - apply delta_for_empty; [done..|]. intros id. rewrite Hp by done.
    rewrite (newer_comm a b id Hsw) at 1. rewrite <- newer_assoc, newer_idemp.
    symmetry. by apply newer_comm.
Qed.

(** A delta can only move a table forward, whatever its content: after applying
    any list of records (duplicated, reordered, stale or forged), each runtime's record
    is one the table or the delta held and has the highest version of all of them, no
    entry disappears, and a runtime is reported as changed exactly when its entry is
    new or its version strictly increased. *)
Theorem apply_delta_monotone (s : GossipState) (rs : list GossipRecord) (id : RuntimeId) :
  let s' := (apply_delta s rs).1 in
  (s' !! id = None ↔ s !! id = None ∧ ∀ r, r ∈ rs → runtime_id r ≠ id) ∧
  (∀ r, s' !! id = Some r →
     (s !! id = Some r ∨ (r ∈ rs ∧ runtime_id r = id)) ∧
     (∀ x, (s !! id = Some x ∨ (x ∈ rs ∧ runtime_id x = id)) → version x ≤ version r)%Z) ∧
  (id ∈ (apply_delta s rs).2 ↔
     ∃ r, s' !! id = Some r ∧ ∀ old, s !! id = Some old → (version old < version r)%Z).
Proof.
  cbv zeta. pose proof (apply_delta_lookup s rs id) as Hl.
  destruct (fold_newer (s !! id) (List.filter (is_id id) rs)) as [Hnone Hsome].
  rewrite <- Hl in Hnone, Hsome.
  assert (∀ r, r ∈ List.filter (is_id id) rs ↔ r ∈ rs ∧ runtime_id r = id) as Hf.
  { intros r. rewrite !list_elem_of_In, filter_In. unfold is_id. by rewrite bool_decide_eq_true. }
  split_and!.
  - rewrite Hnone. apply and_iff_compat_l. split.
    + intros Hnil r Hr Hid. assert (r ∈ List.filter (is_id id) rs) as Hin by by apply Hf.
      rewrite Hnil in Hin. by apply elem_of_nil in Hin.
    + intros Hno. destruct (List.filter (is_id id) rs) as [|r l] eqn:Hnil; [done|].
      destruct (Hf r) as [[Hr Hid] _]; [by rewrite ?Hnil; left|]. by destruct (Hno r).
  - intros r Hr. destruct (Hsome r Hr) as [Hin Hmax]. rewrite Hf in Hin. split; [done|].
    intros x Hx. apply Hmax. by rewrite Hf.
  - clear. revert s. induction rs as [|r rs IH]; intros s; cbn [apply_delta].
    + split; [by intros ?%elem_of_nil|]. intros (r & Hr & Hlt). specialize (Hlt r Hr). lia.
    + destruct (should_apply s r) eqn:Hs; [|apply IH].
      specialize (IH (<[runtime_id r := r]> s)).
      pose proof (apply_delta_lookup (<[runtime_id r := r]> s) rs id) as Hl.
      destruct (fold_newer (<[runtime_id r := r]> s !! id) (List.filter (is_id id) rs)) as [Hnone Hsome].
      rewrite <- Hl in Hnone, Hsome. destruct (apply_delta _ rs) as [s' ch]. cbn [fst snd] in *.
      rewrite elem_of_cons, IH. destruct (decide (id = runtime_id r)) as [->|Hne].
      * split; [intros _|by left]. rewrite lookup_insert_eq in *.
        destruct (s' !! runtime_id r) as [z|] eqn:Hz.
        -- exists z. split; [done|]. intros old Ho. destruct (Hsome z eq_refl) as [_ Hmax].
           specialize (Hmax r (or_introl eq_refl)). unfold should_apply in Hs. rewrite Ho in Hs.
           simpl in Hs. lia.
        -- by destruct (proj1 Hnone eq_refl).
      * rewrite lookup_insert_ne by done. split; [by intros [?|?]|by right].
Qed.

End properties.

#[local] Existing Instance canonical_iteration.

Definition demo_gossip (id : RuntimeId) (v : Z) : GossipRecord :=
  {| runtime_id := id; endpoint_addrs := []; proto_version := 1; load := 0; draining := false;
     capabilities := []; version := v; heartbeat_millis := 0 |}.

Definition demo_a : GossipState := {[ 1%N := demo_gossip 1%N 2; 2%N := demo_gossip 2%N 5 ]}.
Definition demo_b : GossipState := {[ 2%N := demo_gossip 2%N 6; 3%N := demo_gossip 3%N 1 ]}.

Lemma gossip_converges_witness :
  pull demo_a demo_b = pull demo_b demo_a ∧ pull demo_a demo_b !! 2%N = Some (demo_gossip 2%N 6).
Proof.
  assert (∀ m : GossipState, bool_decide (map_Forall (λ id r, runtime_id r = id) m) = true → keyed m)
    as Hk by (intros m Hm; by apply bool_decide_eq_true in Hm).
  assert (keyed demo_a) as Ha by (apply Hk; vm_compute; reflexivity).
  assert (keyed demo_b) as Hb by (apply Hk; vm_compute; reflexivity).
  assert (single_writer demo_a demo_b) as Hsw.
  { intros id x y Hx Hy Hv. unfold demo_a in Hx. unfold demo_b in Hy.
    rewrite lookup_insert in Hx. case_decide as H1; [subst id; by vm_compute in Hy|].
    apply lookup_singleton_Some in Hx as [<- <-]. rewrite lookup_insert_eq in Hy.
    by injection Hy as <-. }
  destruct (gossip_converges demo_a demo_b demo_a Ha Hb Ha Hsw) as (Hp & Hc & _).
  split; [exact Hc|]. rewrite Hp. vm_compute. reflexivity.
Defined.
