(* ===== verification/Membership.v ===== *)
(** * Mesh membership (buzz-relay-mesh/src/membership.rs, registry.rs, status.rs, runtime.rs)

    The table of peers a relay knows: fed by attested ready-registry seeds and by
    gossip, exporting digests, deltas, the list of live peers and the status page.

    The locks and atomics of the shared handle are left out: every operation takes
    its locks one after another and is a function on the state. [fetch_add] wraps at
    64 bits. The clock is a parameter [now] (nanoseconds). The secp256k1 and SHA-256
    code of other crates is the class [RelayCrypto]. The status structures carry
    runtime ids where the code carries their hex form. *)

From Stdlib Require Import QArith.
From S2P Require Import Prelude Gossip.
Import GossipStateOps.

Open Scope string_scope.
Open Scope nat_scope.
Open Scope list_scope.

(** ** Ready records and their attestation *)

Definition ATTESTATION_CONTEXT : string := "buzz-relay-mesh-ready-v1".
Definition READY_KEY_PREFIX : string := "mesh:ready:".
Definition REGISTRY_EXPIRY_MULTIPLIER : Z := 3.

Definition hex_digit (n : N) : Ascii.ascii :=
  Ascii.ascii_of_N (if (n <? 10)%N then 48 + n else 87 + n)%N.

(** The [n] low hex digits of [x], most significant first *)
Fixpoint hex_digits (n : nat) (x : N) (acc : string) : string :=
  match n with
  | 0 => acc
  | S n => hex_digits n (x / 16)%N (String (hex_digit (x mod 16)%N) acc)
  end.

Definition to_hex (id : RuntimeId) : string := hex_digits 64 id "".

Definition newline : string := String (Ascii.ascii_of_nat 10) "".

Definition attestation_preimage (id : RuntimeId) (relay_pubkey : string) : string :=
  ATTESTATION_CONTEXT +:+ newline +:+ "runtime_pubkey=" +:+ to_hex id +:+ newline
    +:+ "relay_pubkey=" +:+ relay_pubkey.

Definition ready_key (id : RuntimeId) : string := READY_KEY_PREFIX +:+ to_hex id.

(** [Duration::saturating_mul], [max] being [Duration::MAX] *)
Definition expiry_for (max refresh : Z) : Z := Z.min (refresh * REGISTRY_EXPIRY_MULTIPLIER) max.

(** The functions of nostr, secp256k1 and sha2 the attestation uses *)
Class RelayCrypto := {
  PublicKey : Type;
  XOnlyPublicKey : Type;
  Signature : Type;
  public_key_from_hex : string → result PublicKey string;
  public_key_to_hex : PublicKey → string;
  xonly : PublicKey → result XOnlyPublicKey string;
  signature_from_str : string → result Signature string;
  sha256 : string → list Z;
  verify_schnorr : Signature → list Z → XOnlyPublicKey → result unit string
}.

Record ReadyRecord := {
  rr_runtime_id : RuntimeId;
  rr_runtime_pubkey : string;
  rr_relay_pubkey : string;
  rr_relay_sig : string;
  rr_endpoint_addrs : list string;
  rr_proto_version : Z;
  rr_capabilities : list string
}.

Definition rr_key (r : ReadyRecord) : string := ready_key (rr_runtime_id r).

Section attestation.
Context `{RelayCrypto}.

Definition attestation_message (id : RuntimeId) (relay_pubkey : string) : list Z :=
  sha256 (attestation_preimage id relay_pubkey).

Definition transport_err (context err : string) : MeshError := Transport (context +:+ err).

Definition verify_attestation (id : RuntimeId) (relay_pubkey relay_sig : string)
  : result unit MeshError :=
  pk <-? map_err (transport_err "ready registry attestation invalid relay_pubkey: ")
           (public_key_from_hex relay_pubkey) ;;
  x <-? map_err (transport_err
           "ready registry attestation relay_pubkey xonly conversion failed: ") (xonly pk) ;;
  sig <-? map_err (transport_err "ready registry attestation invalid relay_sig: ")
           (signature_from_str relay_sig) ;;
  map_err (transport_err "ready registry attestation signature verification failed: ")
    (verify_schnorr sig (attestation_message id (public_key_to_hex pk)) x).

Definition ready_verify_attestation (r : ReadyRecord) : result unit MeshError :=
  if decide (rr_runtime_pubkey r ≠ to_hex (rr_runtime_id r))
  then Err (Transport ("ready registry runtime_id/runtime_pubkey mismatch: "
              +:+ to_hex (rr_runtime_id r) +:+ " != " +:+ rr_runtime_pubkey r))
  else verify_attestation (rr_runtime_id r) (rr_relay_pubkey r) (rr_relay_sig r).

End attestation.

(** ** The peer table *)

Inductive ConnectionState := Disconnected | Connecting | Connected | Suspect.

Record MeshPeerCounters := {
  mc_runtime_id : RuntimeId;
  streams_opened : Z;
  streams_received : Z;
  datagrams_sent : Z;
  datagrams_received : Z;
  gossip_frames_sent : Z;
  gossip_frames_received : Z;
  mc_stale_generation_rejections : Z
}.

Definition new_counters (id : RuntimeId) : MeshPeerCounters :=
  {| mc_runtime_id := id; streams_opened := 0; streams_received := 0; datagrams_sent := 0;
     datagrams_received := 0; gossip_frames_sent := 0; gossip_frames_received := 0;
     mc_stale_generation_rejections := 0 |}.

Record PeerState := {
  record : GossipRecord;
  phi : PhiAccrual;
  connection_state : ConnectionState;
  counters : MeshPeerCounters
}.

Record MeshMembership := {
  local_runtime_id : RuntimeId;
  local_record : GossipRecord;
  peers : gmap RuntimeId PeerState;
  m_draining : bool;
  stale_generation_rejections : Z;
  foreign_relay_rejections : Z;
  expected_relay_pubkey : option string;
  phi_suspect_threshold : Q
}.

Definition DEFAULT_PHI_SUSPECT_THRESHOLD : Q := 8.

Definition Membership_new (local : GossipRecord) : MeshMembership :=
  {| local_runtime_id := runtime_id local; local_record := local; peers := ∅;
     m_draining := false; stale_generation_rejections := 0; foreign_relay_rejections := 0;
     expected_relay_pubkey := None; phi_suspect_threshold := DEFAULT_PHI_SUSPECT_THRESHOLD |}.

Definition set_peers (m : MeshMembership) x : MeshMembership :=
  {| local_runtime_id := local_runtime_id m; local_record := local_record m; peers := x;
     m_draining := m_draining m;
     stale_generation_rejections := stale_generation_rejections m;
     foreign_relay_rejections := foreign_relay_rejections m;
     expected_relay_pubkey := expected_relay_pubkey m;
     phi_suspect_threshold := phi_suspect_threshold m |}.
Definition set_local_record (m : MeshMembership) x : MeshMembership :=
  {| local_runtime_id := local_runtime_id m; local_record := x; peers := peers m;
     m_draining := m_draining m;
     stale_generation_rejections := stale_generation_rejections m;
     foreign_relay_rejections := foreign_relay_rejections m;
     expected_relay_pubkey := expected_relay_pubkey m;
     phi_suspect_threshold := phi_suspect_threshold m |}.
Definition set_draining (m : MeshMembership) x : MeshMembership :=
  {| local_runtime_id := local_runtime_id m; local_record := local_record m; peers := peers m;
     m_draining := x;
     stale_generation_rejections := stale_generation_rejections m;
     foreign_relay_rejections := foreign_relay_rejections m;
     expected_relay_pubkey := expected_relay_pubkey m;
     phi_suspect_threshold := phi_suspect_threshold m |}.
Definition set_rejections (m : MeshMembership) (stale foreign : Z) : MeshMembership :=
  {| local_runtime_id := local_runtime_id m; local_record := local_record m; peers := peers m;
     m_draining := m_draining m; stale_generation_rejections := stale;
     foreign_relay_rejections := foreign; expected_relay_pubkey := expected_relay_pubkey m;
     phi_suspect_threshold := phi_suspect_threshold m |}.
Definition with_expected_relay_pubkey (m : MeshMembership) (pubkey_hex : string) : MeshMembership :=
  {| local_runtime_id := local_runtime_id m; local_record := local_record m; peers := peers m;
     m_draining := m_draining m;
     stale_generation_rejections := stale_generation_rejections m;
     foreign_relay_rejections := foreign_relay_rejections m;
     expected_relay_pubkey := Some pubkey_hex;
     phi_suspect_threshold := phi_suspect_threshold m |}.
Definition with_phi_suspect_threshold (m : MeshMembership) (threshold : Q) : MeshMembership :=
  {| local_runtime_id := local_runtime_id m; local_record := local_record m; peers := peers m;
     m_draining := m_draining m;
     stale_generation_rejections := stale_generation_rejections m;
     foreign_relay_rejections := foreign_relay_rejections m;
     expected_relay_pubkey := expected_relay_pubkey m;
     phi_suspect_threshold := threshold |}.

Definition apply_gossip_record (m : MeshMembership) (r : GossipRecord) : MeshMembership * bool :=
  if decide (runtime_id r = local_runtime_id m) then (m, false)
  else
    let heartbeat := system_time_from_millis (heartbeat_millis r) in
    match peers m !! runtime_id r with
    | Some peer =>
        if (version r <=? version (record peer))%Z then (m, false)
        else
          (set_peers m (<[runtime_id r :=
             {| record := r; phi := observe (phi peer) heartbeat;
                connection_state := Connected; counters := counters peer |}]> (peers m)), true)
    | None =>
        (set_peers m (<[runtime_id r :=
           {| record := r; phi := observe PhiAccrual_default heartbeat;
              connection_state := Connected; counters := new_counters (runtime_id r) |}]> (peers m)),
         true)
    end.

(** The gossip record a ready seed stands for *)
Definition ready_gossip_record (now_millis : Z) (ready : ReadyRecord) : GossipRecord :=
  let r := GossipRecord_new now_millis (rr_runtime_id ready) (rr_endpoint_addrs ready)
             (rr_proto_version ready) in
  {| runtime_id := runtime_id r; endpoint_addrs := endpoint_addrs r;
     proto_version := proto_version r; load := load r; draining := draining r;
     capabilities := rr_capabilities ready; version := version r;
     heartbeat_millis := heartbeat_millis r |}.

(** The iteration of [apply_ready_records] for one seed *)
Definition apply_ready_record `{RelayCrypto} (now_millis : Z) (m : MeshMembership)
    (ready : ReadyRecord) : MeshMembership :=
  if decide (rr_runtime_id ready = local_runtime_id m) then m
  else if decide (expected_relay_pubkey m = Some (rr_relay_pubkey ready)) then
    match ready_verify_attestation ready with
    | Err _ => m
    | Ok _ => (apply_gossip_record m (ready_gossip_record now_millis ready)).1
    end
  else
    set_rejections m (stale_generation_rejections m)
      (u64_wrapping_add (foreign_relay_rejections m) 1).

Definition apply_ready_records `{RelayCrypto} (now_millis : Z) (m : MeshMembership)
    (rs : list ReadyRecord) : MeshMembership :=
  foldl (apply_ready_record now_millis) m rs.

Definition with_connection_state (p : PeerState) (s : ConnectionState) : PeerState :=
  {| record := record p; phi := phi p; connection_state := s; counters := counters p |}.

Definition mark_connection_state (m : MeshMembership) (id : RuntimeId) (s : ConnectionState)
  : MeshMembership :=
  match peers m !! id with
  | Some p => set_peers m (<[id := with_connection_state p s]> (peers m))
  | None => m
  end.

Definition update_local (now_millis : Z) (m : MeshMembership) (update : GossipRecord → GossipRecord)
  : MeshMembership * GossipRecord :=
  let r := bump now_millis (update (local_record m)) in (set_local_record m r, r).

Definition has_peer (m : MeshMembership) (id : RuntimeId) : bool :=
  bool_decide (is_Some (peers m !! id)).

Definition update_peer_counters (m : MeshMembership) (id : RuntimeId)
    (update : MeshPeerCounters → MeshPeerCounters) : MeshMembership :=
  match peers m !! id with
  | Some p => set_peers m (<[id :=
      {| record := record p; phi := phi p; connection_state := connection_state p;
         counters := update (counters p) |}]> (peers m))
  | None => m
  end.

Definition count_up (c : MeshPeerCounters) (opened received dsent dreceived gsent greceived stale : Z)
  : MeshPeerCounters :=
  {| mc_runtime_id := mc_runtime_id c;
     streams_opened := u64_saturating_add (streams_opened c) opened;
     streams_received := u64_saturating_add (streams_received c) received;
     datagrams_sent := u64_saturating_add (datagrams_sent c) dsent;
     datagrams_received := u64_saturating_add (datagrams_received c) dreceived;
     gossip_frames_sent := u64_saturating_add (gossip_frames_sent c) gsent;
     gossip_frames_received := u64_saturating_add (gossip_frames_received c) greceived;
     mc_stale_generation_rejections :=
       u64_saturating_add (mc_stale_generation_rejections c) stale |}.

Definition record_stream_opened (m : MeshMembership) (id : RuntimeId) : MeshMembership :=
  update_peer_counters m id (λ c, count_up c 1 0 0 0 0 0 0).
Definition record_stream_received (m : MeshMembership) (id : RuntimeId) : MeshMembership :=
  update_peer_counters m id (λ c, count_up c 0 1 0 0 0 0 0).
Definition record_datagram_sent (m : MeshMembership) (id : RuntimeId) : MeshMembership :=
  update_peer_counters m id (λ c, count_up c 0 0 1 0 0 0 0).
Definition record_datagram_received (m : MeshMembership) (id : RuntimeId) : MeshMembership :=
  update_peer_counters m id (λ c, count_up c 0 0 0 1 0 0 0).
Definition record_gossip_frame_sent (m : MeshMembership) (id : RuntimeId) : MeshMembership :=
  update_peer_counters m id (λ c, count_up c 0 0 0 0 1 0 0).
Definition record_gossip_frame_received (m : MeshMembership) (id : RuntimeId) : MeshMembership :=
  update_peer_counters m id (λ c, count_up c 0 0 0 0 0 1 0).

Definition record_stale_generation_rejection (m : MeshMembership) (id : option RuntimeId)
  : MeshMembership :=
  let m := set_rejections m (u64_wrapping_add (stale_generation_rejections m) 1)
             (foreign_relay_rejections m) in
  match id with
  | Some id => update_peer_counters m id (λ c, count_up c 0 0 0 0 0 0 1)
  | None => m
  end.

Definition begin_drain (now_millis : Z) (m : MeshMembership) : MeshMembership :=
  (update_local now_millis (set_draining m true) (λ r,
     {| runtime_id := runtime_id r; endpoint_addrs := endpoint_addrs r;
        proto_version := proto_version r; load := load r; draining := true;
        capabilities := capabilities r; version := version r;
        heartbeat_millis := heartbeat_millis r |})).1.

Record PeerInfo := {
  pi_runtime_id : RuntimeId;
  pi_draining : bool;
  pi_phi : option Q;
  pi_load : Z
}.

Record MeshPeerStatus := {
  st_runtime_id : RuntimeId;
  st_endpoint_addrs : list string;
  st_proto_version : Z;
  st_draining : bool;
  st_connection_state : ConnectionState;
  st_phi : option Q;
  st_load : Z;
  record_version : Z;
  last_heartbeat_millis : Z;
  st_counters : MeshPeerCounters
}.

Record MeshStatus := {
  ms_local_runtime_id : RuntimeId;
  ms_draining : bool;
  peer_count : nat;
  ms_peers : list MeshPeerStatus;
  ms_stale_generation_rejections : Z;
  ms_foreign_relay_rejections : Z;
  ms_counters : list MeshPeerCounters
}.

(** Is the peer's silence past the threshold? *)
Definition suspect (m : MeshMembership) (now : Z) (p : PeerState) : bool :=
  is_some_and (λ x, Qle_bool (phi_suspect_threshold m) x) (phi_at (phi p) now).

Definition peer_status (m : MeshMembership) (now : Z) (p : PeerState) : MeshPeerStatus :=
  {| st_runtime_id := runtime_id (record p); st_endpoint_addrs := endpoint_addrs (record p);
     st_proto_version := proto_version (record p); st_draining := draining (record p);
     st_connection_state := if suspect m now p then Suspect else connection_state p;
     st_phi := phi_at (phi p) now; st_load := load (record p);
     record_version := version (record p);
     last_heartbeat_millis := heartbeat_millis (record p); st_counters := counters p |}.

Definition peer_info (now : Z) (p : PeerState) : PeerInfo :=
  {| pi_runtime_id := runtime_id (record p); pi_draining := draining (record p);
     pi_phi := phi_at (phi p) now; pi_load := load (record p) |}.

(** Simultaneous-dial tie-break of runtime.rs *)
Definition new_connection_wins (local remote : RuntimeId) (new_dialed_by_us : bool) : bool :=
  if (local <? remote)%N then new_dialed_by_us else negb new_dialed_by_us.

Section views.
Context `{HashIteration}.

Definition all_records (m : MeshMembership) : list GossipRecord :=
  (record <$> (hash_iter (peers m)).*2) ++ [local_record m].

Definition m_digest (m : MeshMembership) : GossipMessage :=
  Digest GOSSIP_PAYLOAD_VERSION (sort_entries (digest_entry <$> all_records m)).

Definition m_delta_for (m : MeshMembership) (d : list GossipDigestEntry) : GossipMessage :=
  let remote := remote_versions d in
  Delta GOSSIP_PAYLOAD_VERSION (sort_records (List.filter (behind remote) (all_records m))).

Definition peer_statuses (m : MeshMembership) (now : Z) : list MeshPeerStatus :=
  peer_status m now <$> (hash_iter (peers m)).*2.

Definition status (now : Z) (m : MeshMembership) : MeshStatus :=
  let ps := sort_by_key (λ s, Z.of_N (st_runtime_id s)) (peer_statuses m now) in
  {| ms_local_runtime_id := runtime_id (local_record m); ms_draining := m_draining m;
     peer_count := length ps; ms_peers := ps;
     ms_stale_generation_rejections := stale_generation_rejections m;
     ms_foreign_relay_rejections := foreign_relay_rejections m;
     ms_counters := st_counters <$> ps |}.

Definition live_peers (now : Z) (m : MeshMembership) : list PeerInfo :=
  peer_info now <$> List.filter (λ p, negb (suspect m now p)) (hash_iter (peers m)).*2.

(** The peers [reconcile_once] considers dialling *)
Definition reconcile_candidates (local : RuntimeId) (m : MeshMembership) : list GossipRecord :=
  List.filter (λ r, negb (bool_decide (runtime_id r = local)) && negb (draining r))
    (all_records m).

(** What a received gossip message does: a digest is answered with a delta, a delta
    is applied record by record. *)
Definition on_gossip (m : MeshMembership) (msg : GossipMessage)
  : MeshMembership * option GossipMessage :=
  match msg with
  | Digest _ entries => (m, Some (m_delta_for m entries))
  | Delta _ records => (foldl (λ m r, (apply_gossip_record m r).1) m records, None)
  end.

End views.

(** ** The abstract gossip table of a membership *)

Record minv (m : MeshMembership) : Prop := {
  mi_local : runtime_id (local_record m) = local_runtime_id m;
  mi_not_peer : peers m !! local_runtime_id m = None;
  mi_keyed : map_Forall (λ id p, runtime_id (record p) = id) (peers m);
  mi_phi : map_Forall (λ _ p, phi_ok (phi p) ∧ is_Some (last_heartbeat (phi p))) (peers m)
}.

(** Every record the runtime knows, its own included *)
Definition table (m : MeshMembership) : GossipState :=
  <[local_runtime_id m := local_record m]> (record <$> peers m).

Lemma table_keyed (m : MeshMembership) : minv m → keyed (table m).
Proof.
  intros [Hl _ Hk _]. unfold table. apply map_Forall_insert_2; [done|].
  intros id r. rewrite lookup_fmap. intros (p & Hp & ->)%fmap_Some. by apply (Hk id p).
Qed.

Lemma table_lookup_peer (m : MeshMembership) (id : RuntimeId) :
  id ≠ local_runtime_id m → table m !! id = record <$> peers m !! id.
Proof. intros. unfold table. by rewrite lookup_insert_ne, lookup_fmap. Qed.

(** Membership steps keep the invariant. *)
Lemma minv_new (r : GossipRecord) : minv (Membership_new r).
Proof. split; simpl; [done|done|apply map_Forall_empty..]. Qed.

Lemma minv_set_peers (m : MeshMembership) (id : RuntimeId) (p : PeerState) :
  minv m → id ≠ local_runtime_id m → runtime_id (record p) = id → phi_ok (phi p) →
  is_Some (last_heartbeat (phi p)) → minv (set_peers m (<[id := p]> (peers m))).
Proof.
  intros [? ? ? ?] Hne Hid. split; simpl; [done|by rewrite lookup_insert_ne|by apply map_Forall_insert_2..].
Qed.

Lemma minv_gossip (m : MeshMembership) (r : GossipRecord) :
  minv m → minv (apply_gossip_record m r).1.
Proof.
  intros Hm. unfold apply_gossip_record. case_decide; [done|]. cbv zeta.
  destruct (peers m !! runtime_id r) as [p|] eqn:Hp; [case_match; [done|]|];
    apply minv_set_peers; simpl; try done; apply observe_ok; [|apply phi_default_ok].
  destruct Hm as [_ _ _ Hphi]. by apply (Hphi _ _ Hp).
Qed.

Lemma gossip_frame (m : MeshMembership) (r : GossipRecord) :
  let m' := (apply_gossip_record m r).1 in
  local_runtime_id m' = local_runtime_id m ∧ local_record m' = local_record m ∧
  expected_relay_pubkey m' = expected_relay_pubkey m ∧
  foreign_relay_rejections m' = foreign_relay_rejections m.
Proof.
  unfold apply_gossip_record. case_decide; [done|]. cbv zeta.
  by destruct (peers m !! runtime_id r); [case_match|].
Qed.

(** One gossiped record is one [apply_delta] step on the table. *)
Lemma table_gossip (m : MeshMembership) (r : GossipRecord) (id : RuntimeId) :
  minv m →
  table (apply_gossip_record m r).1 !! id =
    if decide (id = local_runtime_id m) then Some (local_record m)
    else if decide (id = runtime_id r) then newer (table m !! id) (Some r) else table m !! id.
Proof.
  intros Hm. destruct (gossip_frame m r) as (Hlid & Hlr & _).
  destruct (decide (id = local_runtime_id m)) as [->|Hne].
  { unfold table. rewrite Hlid, Hlr. apply lookup_insert_eq. }
  rewrite !table_lookup_peer by (by rewrite ?Hlid). unfold apply_gossip_record.
  case_decide as Hr.
  { case_decide; [congruence|done]. }
  cbv zeta. destruct (peers m !! runtime_id r) as [p|] eqn:Hp.
  - destruct (Z.leb_spec (version r) (version (record p))); simpl; rewrite ?lookup_insert.
    + case_decide as Hid; [|done]. subst id. rewrite Hp. simpl.
      by rewrite (proj2 (Z.ltb_ge _ _)).
    + case_decide as Hid; [subst id|by rewrite decide_False by congruence].
      rewrite decide_True by done. rewrite Hp. simpl. by rewrite (proj2 (Z.ltb_lt _ _)).
  - simpl. rewrite lookup_insert. case_decide as Hid; [subst id|by rewrite decide_False by congruence].
    rewrite decide_True by done. by rewrite Hp.
Qed.

(** A whole delta applied record by record *)
Lemma table_gossip_all (rs : list GossipRecord) (m : MeshMembership) :
  minv m →
  let m' := foldl (λ m r, (apply_gossip_record m r).1) m rs in
  minv m' ∧ local_runtime_id m' = local_runtime_id m ∧ local_record m' = local_record m ∧
  ∀ id, id ≠ local_runtime_id m → table m' !! id = (apply_delta (table m) rs).1 !! id.
Proof.
  revert m. induction rs as [|r rs IH]; intros m Hm; cbn [foldl]; [done|].
  destruct (gossip_frame m r) as (Hlid & Hlr & _).
  destruct (IH _ (minv_gossip m r Hm)) as (Hi & -> & -> & Ht). split_and!; try done.
  intros id Hne. rewrite Ht by congruence. rewrite !apply_delta_lookup. cbn [List.filter].
  rewrite table_gossip by done. rewrite decide_False by done.
  unfold is_id at 2. case_bool_decide as Hr; cbn [foldl].
  - by rewrite decide_True.
  - by rewrite decide_False by congruence.
Qed.

Section views_lemmas.
Context `{HashIteration}.

Lemma all_records_perm (m : MeshMembership) : minv m → all_records m ≡ₚ records (table m).
Proof.
  intros [_ Hnp _ _]. unfold all_records, records, table. rewrite !hash_iter_perm.
  rewrite map_to_list_insert by (by rewrite lookup_fmap, Hnp).
  rewrite map_to_list_fmap, fmap_cons, <- !list_fmap_compose. simpl.
  rewrite Permutation_app_comm. simpl. done.
Qed.

Lemma NoDup_record_keys (m : MeshMembership) :
  minv m → NoDup ((λ r, Z.of_N (runtime_id r)) <$> all_records m).
Proof.
  intros Hm. rewrite (all_records_perm m Hm).
  change (λ r, Z.of_N (runtime_id r)) with (Z.of_N ∘ runtime_id). rewrite list_fmap_compose.
  apply NoDup_fmap_2; [intros x y; lia|]. rewrite records_ids by (by apply table_keyed).
  apply NoDup_hash_iter_fst.
Qed.

Lemma digest_refines (m : MeshMembership) : minv m → m_digest m = digest (table m).
Proof.
  intros Hm. unfold m_digest, digest. f_equal. apply sort_by_key_unique.
  - by rewrite all_records_perm.
  - rewrite <- list_fmap_compose. by apply NoDup_record_keys.
Qed.

Lemma NoDup_fmap_filter {A B} (g : A → B) (f : A → bool) (l : list A) :
  NoDup (g <$> l) → NoDup (g <$> List.filter f l).
Proof.
  induction l as [|x l IH]; simpl; [done|]. rewrite NoDup_cons. intros [Hx Hl].
  destruct (f x); simpl; [|by apply IH]. constructor; [|by apply IH].
  contradict Hx. rewrite list_elem_of_fmap in *. destruct Hx as (y & -> & Hy).
  exists y. split; [done|]. apply list_elem_of_In, filter_In in Hy as [? _]. by apply list_elem_of_In.
Qed.

Lemma delta_refines (m : MeshMembership) (d : list GossipDigestEntry) :
  minv m → m_delta_for m d = delta_for (table m) d.
Proof.
  intros Hm. unfold m_delta_for, delta_for. cbv zeta. f_equal. apply sort_by_key_unique.
  - by rewrite all_records_perm.
  - by apply NoDup_fmap_filter, NoDup_record_keys.
Qed.

(** The membership table implements the gossip state: read as one table
    (its own record and its peers' records), it answers digests and deltas exactly as
    [GossipState] does, and applying a gossiped record is [apply_delta] of that record,
    except that a record claiming the local runtime id is refused, so no peer can
    overwrite what a runtime says about itself. *)
Theorem membership_refines_gossip (m : MeshMembership) (r : GossipRecord)
    (d : list GossipDigestEntry) (Hm : minv m) :
  let m' := (apply_gossip_record m r).1 in
  keyed (table m) ∧ minv m' ∧
  m_digest m = digest (table m) ∧ m_delta_for m d = delta_for (table m) d ∧
  (if decide (runtime_id r = local_runtime_id m)
   then m' = m ∧ (apply_gossip_record m r).2 = false
   else table m' = (apply_delta (table m) [r]).1 ∧
        ((apply_gossip_record m r).2 = true ↔ (apply_delta (table m) [r]).2 = [runtime_id r])).
Proof.
  cbv zeta. split_and!; [by apply table_keyed|by apply minv_gossip|by apply digest_refines|by apply delta_refines|].
  case_decide as Hr.
  { unfold apply_gossip_record. by rewrite decide_True. }
  split.
  - apply map_eq. intros id. rewrite table_gossip, apply_delta_lookup by done. cbn [List.filter].
    unfold is_id. destruct (decide (id = local_runtime_id m)) as [->|Hne].
    + rewrite bool_decide_eq_false_2 by done. cbn [foldl]. unfold table. by rewrite lookup_insert_eq.
    + case_bool_decide as Hid; cbn [foldl]; [by rewrite decide_True|by rewrite decide_False by congruence].
  - cbn [apply_delta]. unfold should_apply. rewrite table_lookup_peer by done.
    unfold apply_gossip_record. rewrite decide_False by done. cbv zeta.
    destruct (peers m !! runtime_id r) as [p|]; simpl; [|done].
    rewrite Z.leb_antisym. by destruct (_ <? _)%Z.
Qed.

(** A control-stream exchange between two runtimes brings the dialer up to date:
    when [m1] sends its digest, [m2] answers with its delta and [m1] applies it, [m1]
    knows for every other runtime the newer of the two records, its own record is
    untouched, and both still satisfy their invariant. *)
Theorem control_exchange_exact (m1 m2 : MeshMembership) (id : RuntimeId)
    (H1 : minv m1) (H2 : minv m2) :
  ∃ delta, on_gossip m2 (m_digest m1) = (m2, Some delta) ∧
    let m1' := (on_gossip m1 delta).1 in
    minv m1' ∧ local_record m1' = local_record m1 ∧
    table m1' !! id =
      if decide (id = local_runtime_id m1) then Some (local_record m1)
      else newer (table m1 !! id) (table m2 !! id).
Proof.
  exists (m_delta_for m2 (entries_of (m_digest m1))). split; [done|]. cbv zeta.
  rewrite (digest_refines m1 H1), (delta_refines m2 _ H2).
  set (rs := records_of (delta_for (table m2) (entries_of (digest (table m1))))).
  change (on_gossip m1 (delta_for (table m2) (entries_of (digest (table m1))))) with
    (foldl (λ m r, (apply_gossip_record m r).1) m1 rs, @None GossipMessage). cbn [fst].
  destruct (table_gossip_all rs m1 H1) as (Hi & Hlid & Hlr & Ht).
  split_and!; [done|done|]. case_decide as Hid.
  - subst id. unfold table at 1. rewrite <- Hlr, <- Hlid. apply lookup_insert_eq.
  - rewrite Ht by done.
    exact (pull_lookup (table m1) (table m2) id (table_keyed m1 H1) (table_keyed m2 H2)).
Qed.

End views_lemmas.

(** ** Every operation keeps the invariant *)

Lemma minv_ready `{RelayCrypto} (now : Z) (m : MeshMembership) (r : ReadyRecord) :
  minv m → minv (apply_ready_record now m r).
Proof.
  intros Hm. unfold apply_ready_record. case_decide; [done|]. case_decide.
  - destruct (ready_verify_attestation r); [by apply minv_gossip|done].
  - by destruct Hm.
Qed.

Lemma minv_modify (m : MeshMembership) (id : RuntimeId) (f : PeerState → PeerState) :
  (∀ p, record (f p) = record p ∧ phi (f p) = phi p) → minv m →
  minv (match peers m !! id with
        | Some p => set_peers m (<[id := f p]> (peers m)) | None => m end).
Proof.
  intros Hf Hm. destruct (peers m !! id) as [p|] eqn:Hp; [|done]. destruct (Hf p) as [Hr Hph].
  pose proof Hm as [_ Hn Hk Hphi]. destruct (Hphi _ _ Hp).
  apply minv_set_peers; rewrite ?Hr, ?Hph; try done; [congruence|by apply (Hk _ _ Hp)].
Qed.

(** The mutations of a membership *)
Inductive mesh_step `{RelayCrypto} : MeshMembership → MeshMembership → Prop :=
  | mesh_ready now m rs : mesh_step m (apply_ready_records now m rs)
  | mesh_gossip m r : mesh_step m (apply_gossip_record m r).1
  | mesh_mark m id s : mesh_step m (mark_connection_state m id s)
  | mesh_local now m update :
      (∀ r, runtime_id (update r) = runtime_id r) → mesh_step m (update_local now m update).1
  | mesh_counters m id update : mesh_step m (update_peer_counters m id update)
  | mesh_stale m id : mesh_step m (record_stale_generation_rejection m id)
  | mesh_drain now m : mesh_step m (begin_drain now m).

Lemma minv_step `{RelayCrypto} (m m' : MeshMembership) : minv m → mesh_step m m' → minv m'.
Proof.
  assert (∀ m id update, minv m → minv (update_peer_counters m id update)) as Hc
    by (intros; by apply (minv_modify _ _ (λ p, {| record := record p; phi := phi p;
      connection_state := connection_state p; counters := _ |}))).
  intros Hm Hs. destruct Hs as [now m rs|m r|m id s|now m update Hid|m id update|m id|now m].
  - unfold apply_ready_records. revert m Hm. induction rs as [|r rs IH]; intros m Hm; [done|].
    by apply IH, minv_ready.
  - by apply minv_gossip.
  - by apply (minv_modify _ _ (λ p, with_connection_state p s)).
  - destruct Hm. split; simpl; try done. by rewrite Hid.
  - by apply Hc.
  - unfold record_stale_generation_rejection. destruct id; [apply Hc|]; by destruct Hm.
  - by destruct Hm.
Qed.

(** ** Admission of ready seeds *)

Section admission.
Context `{RelayCrypto}.

(** A seed this deployment's relay key vouches for *)
Definition attested (m : MeshMembership) (r : ReadyRecord) : Prop :=
  rr_runtime_id r ≠ local_runtime_id m ∧ expected_relay_pubkey m = Some (rr_relay_pubkey r) ∧
  ready_verify_attestation r = Ok tt.

Definition foreign (m : MeshMembership) (r : ReadyRecord) : bool :=
  bool_decide (rr_runtime_id r ≠ local_runtime_id m) &&
  bool_decide (expected_relay_pubkey m ≠ Some (rr_relay_pubkey r)).

Lemma ready_frame (now : Z) (m : MeshMembership) (r : ReadyRecord) :
  local_runtime_id (apply_ready_record now m r) = local_runtime_id m ∧
  local_record (apply_ready_record now m r) = local_record m ∧
  expected_relay_pubkey (apply_ready_record now m r) = expected_relay_pubkey m.
Proof.
  unfold apply_ready_record. case_decide; [done|]. case_decide; [|done].
  destruct (ready_verify_attestation r); [|done].
  by destruct (gossip_frame m (ready_gossip_record now r)) as (-> & -> & -> & _).
Qed.

Lemma apply_ready_one (now : Z) (m : MeshMembership) (r : ReadyRecord) (id : RuntimeId) :
  (is_Some (peers (apply_ready_record now m r) !! id) ↔
     is_Some (peers m !! id) ∨ (rr_runtime_id r = id ∧ attested m r)) ∧
  (∀ p, peers m !! id = Some p → (1 ≤ version (record p))%Z →
     peers (apply_ready_record now m r) !! id = Some p) ∧
  (foreign_relay_rejections (apply_ready_record now m r) mod 2 ^ 64 =
   (foreign_relay_rejections m + (if foreign m r then 1 else 0)) mod 2 ^ 64)%Z.
Proof.
  unfold apply_ready_record, attested, foreign.
  destruct (decide (rr_runtime_id r = local_runtime_id m)) as [Hloc|Hloc].
  { rewrite bool_decide_eq_false_2 by (intros Hn; by apply Hn). rewrite Z.add_0_r. naive_solver. }
  rewrite bool_decide_eq_true_2 by done. cbn [andb].
  destruct (decide (expected_relay_pubkey m = Some (rr_relay_pubkey r))) as [Hexp|Hexp].
  2:{ rewrite bool_decide_eq_true_2 by done. simpl. split_and!; [naive_solver|naive_solver|].
      unfold u64_wrapping_add. by rewrite Z.mod_mod. }
  rewrite bool_decide_eq_false_2 by (intros Hn; by apply Hn). rewrite Z.add_0_r.
  destruct (ready_verify_attestation r) as [[]|e] eqn:Hv; [|naive_solver].
  destruct (gossip_frame m (ready_gossip_record now r)) as (_ & _ & _ & ->).
  assert (runtime_id (ready_gossip_record now r) = rr_runtime_id r) as Hid by done.
  unfold apply_gossip_record. rewrite Hid, decide_False by done. cbv zeta.
  destruct (peers m !! rr_runtime_id r) as [p|] eqn:Hp; [|].
  - assert (is_Some (peers m !! id) ↔ is_Some (peers m !! id) ∨ (rr_runtime_id r = id ∧
      (rr_runtime_id r ≠ local_runtime_id m ∧ expected_relay_pubkey m = Some (rr_relay_pubkey r) ∧
       @Ok unit MeshError tt = Ok tt))) as Hiff
      by (split; [by left|intros [?|[<- _]]; [done|by eexists]]).
    destruct (Z.leb_spec (version (ready_gossip_record now r)) (version (record p))) as [Hle|Hgt];
      [by split_and!|]. simpl in *. split_and!; [|intros p' Hp' Hv'|done].
    + rewrite <- Hiff, lookup_insert_is_Some. split; [|by intros ?; destruct (decide (rr_runtime_id r = id)); eauto].
      intros [<-|[_ ?]]; [by eexists|done].
    + rewrite lookup_insert. case_decide as Hd; [|done]. subst id.
      assert (p' = p) as -> by congruence. lia.
  - simpl. split_and!; [|intros p' Hp' _|done].
    + rewrite lookup_insert_is_Some. destruct (decide (rr_runtime_id r = id)); naive_solver.
    + rewrite lookup_insert. case_decide as Hd; [|done]. subst id. congruence.
Qed.

(** Bootstrap seeds are admitted by attestation only. After any list of ready
    records a runtime is a peer exactly when it already was one or some record for it
    names the expected relay key and carries a valid signature for that very runtime id
    and key; without an expected key nothing is admitted; a seed never replaces a
    record already known, never touches the local record, and exactly the records of
    another relay identity are counted as foreign. *)
Theorem ready_seeds_admission (now : Z) (m : MeshMembership) (rs : list ReadyRecord) :
  let m' := apply_ready_records now m rs in
  (∀ id, is_Some (peers m' !! id) ↔
     is_Some (peers m !! id) ∨ ∃ r, r ∈ rs ∧ rr_runtime_id r = id ∧ attested m r) ∧
  (∀ id p, peers m !! id = Some p → (1 ≤ version (record p))%Z → peers m' !! id = Some p) ∧
  (expected_relay_pubkey m = None → ∀ id, is_Some (peers m' !! id) ↔ is_Some (peers m !! id)) ∧
  local_record m' = local_record m ∧
  (foreign_relay_rejections m' mod 2 ^ 64 =
   (foreign_relay_rejections m + Z.of_nat (length (List.filter (foreign m) rs))) mod 2 ^ 64)%Z.
Proof.
  cbv zeta.
  assert ((∀ id, is_Some (peers (apply_ready_records now m rs) !! id) ↔
     is_Some (peers m !! id) ∨ ∃ r, r ∈ rs ∧ rr_runtime_id r = id ∧ attested m r) ∧
   (∀ id p, peers m !! id = Some p → (1 ≤ version (record p))%Z →
      peers (apply_ready_records now m rs) !! id = Some p) ∧
   local_record (apply_ready_records now m rs) = local_record m ∧
   (foreign_relay_rejections (apply_ready_records now m rs) mod 2 ^ 64 =
    (foreign_relay_rejections m + Z.of_nat (length (List.filter (foreign m) rs))) mod 2 ^ 64)%Z)
    as (Hadm & Hkeep & Hloc & Hcount).
  { unfold apply_ready_records. revert m. induction rs as [|r rs IH]; intros m; cbn [foldl].
    - rewrite Z.add_0_r. split_and!; try done. intros id. split; [by left|].
      intros [?|(r & ?%elem_of_nil & _)]; done.
    - destruct (ready_frame now m r) as (Hlid & Hlr & Hexp).
      assert (∀ x, attested (apply_ready_record now m r) x ↔ attested m x) as Hatt
        by (intros x; unfold attested; by rewrite Hlid, Hexp).
      assert (∀ x, foreign (apply_ready_record now m r) x = foreign m x) as Hfor
        by (intros x; unfold foreign; by rewrite Hlid, Hexp).
      destruct (IH (apply_ready_record now m r)) as (IHa & IHk & IHl & IHc).
      split_and!.
      + intros id. destruct (apply_ready_one now m r id) as (Hone & _). rewrite IHa, Hone.
        setoid_rewrite Hatt. setoid_rewrite elem_of_cons. naive_solver.
      + intros id p Hp Hv. apply IHk; [|done]. by apply apply_ready_one.
      + by rewrite IHl.
      + rewrite IHc. destruct (apply_ready_one now m r 0%N) as (_ & _ & Hc).
        rewrite <- Zplus_mod_idemp_l, Hc, Zplus_mod_idemp_l. f_equal. cbn [List.filter].
        rewrite (list_filter_ext (foreign (apply_ready_record now m r)) (foreign m)) by done.
        destruct (foreign m r); cbn [length]; lia. }
  split_and!; try done. intros Hnone id. rewrite Hadm. split; [|by left].
  intros [?|(r & _ & _ & _ & Hexp & _)]; [done|congruence].
Qed.

End admission.

(** ** Liveness views *)

Section liveness.
Context `{HashIteration}.

(** The list of dialable peers is the non-suspect part of the table, never
    contains the runtime itself, and suspicion follows silence: a peer that is
    suspect stays suspect until a new record arrives, and a peer heard from at least
    twice that then falls silent is eventually dropped from the list, whatever the
    threshold. *)
Theorem live_peers_exact (m : MeshMembership) (Hm : minv m) :
  (∀ now i, i ∈ live_peers now m ↔
     ∃ id p, peers m !! id = Some p ∧ suspect m now p = false ∧ i = peer_info now p) ∧
  (∀ now i, i ∈ live_peers now m → pi_runtime_id i ≠ local_runtime_id m) ∧
  (∀ id p now now', peers m !! id = Some p → suspect m now p = true → (now ≤ now')%Z →
     suspect m now' p = true) ∧
  (∀ id p, peers m !! id = Some p → samples (phi p) ≠ [] →
     ∃ T, ∀ now, (T ≤ now)%Z → suspect m now p = true).
Proof.
  assert (∀ now i, i ∈ live_peers now m ↔
     ∃ id p, peers m !! id = Some p ∧ suspect m now p = false ∧ i = peer_info now p) as Hlive.
  { intros now i. unfold live_peers. rewrite list_elem_of_fmap. split.
    - intros (p & -> & [Hin Hs]%list_elem_of_In%filter_In).
      apply list_elem_of_In, list_elem_of_fmap in Hin as ([id p'] & -> & Hp%elem_of_hash_iter).
      exists id, p'. bool_prop. done.
    - intros (id & p & Hp & Hs & ->). exists p. split; [done|].
      apply list_elem_of_In, filter_In. rewrite Hs. split; [|done].
      apply list_elem_of_In, list_elem_of_fmap. exists (id, p). split; [done|]. by apply elem_of_hash_iter. }
  destruct Hm as [_ Hn Hk Hphi]. split_and!; [done|..].
  - intros now i (id & p & Hp & _ & ->)%Hlive. simpl. rewrite (Hk _ _ Hp). congruence.
  - intros id p now now' Hp Hs Hle. destruct (Hphi _ _ Hp) as [Hok _]. unfold suspect in *.
    destruct (phi_at (phi p) now) as [x|] eqn:Hx; [|done].
    destruct (phi_at_mono _ _ now' x Hok Hx Hle) as (y & -> & Hxy). simpl in *.
    rewrite Qle_bool_iff in *. by eapply Qle_trans.
  - intros id p Hp Hne. destruct (Hphi _ _ Hp) as [Hok Hlast].
    destruct (phi_at_unbounded (phi p) (phi_suspect_threshold m) Hok Hne Hlast) as [T HT].
    exists T. intros now Hnow. destruct (HT now Hnow) as (x & Hx & Hb). unfold suspect.
    rewrite Hx. simpl. by apply Qle_bool_iff.
Qed.

End liveness.

(** Both ends of a simultaneous dial keep the same connection: the one end's
    outbound is the other end's inbound. *)
Lemma tie_break_agrees (a b : RuntimeId) (dialed_by_a : bool) :
  a ≠ b → new_connection_wins a b dialed_by_a = new_connection_wins b a (negb dialed_by_a).
Proof.
  intros Hne. unfold new_connection_wins.
  destruct (N.ltb_spec a b), (N.ltb_spec b a); try lia; by destruct dialed_by_a.
Qed.

(** ** The properties at concrete meshes *)

#[local] Existing Instance canonical_iteration.

Definition demo_record (id : RuntimeId) (v : Z) : GossipRecord :=
  {| runtime_id := id; endpoint_addrs := ["10.0.0.1:3478"]; proto_version := 1; load := 0;
     draining := false; capabilities := []; version := v; heartbeat_millis := 1000 |}.

Definition demo_m1 : MeshMembership :=
  (apply_gossip_record (Membership_new (demo_record 1%N 4)) (demo_record 3%N 2)).1.
Definition demo_m2 : MeshMembership :=
  (apply_gossip_record (Membership_new (demo_record 2%N 1)) (demo_record 3%N 7)).1.

Lemma demo_m1_inv : minv demo_m1.
Proof. apply minv_gossip, minv_new. Qed.
Lemma demo_m2_inv : minv demo_m2.
Proof. apply minv_gossip, minv_new. Qed.

Lemma membership_refines_gossip_witness :
  m_digest demo_m1 = digest (table demo_m1) ∧
  (apply_gossip_record demo_m1 (demo_record 1%N 99)).1 = demo_m1.
Proof.
  destruct (membership_refines_gossip demo_m1 (demo_record 1%N 99) [] demo_m1_inv)
    as (_ & _ & Hd & _ & Hl).
  split; [exact Hd|]. destruct (decide _) as [_|Hn]; [apply Hl|by destruct Hn].
Defined.

Lemma control_exchange_exact_witness :
  ∃ delta, on_gossip demo_m2 (m_digest demo_m1) = (demo_m2, Some delta) ∧
    table (on_gossip demo_m1 delta).1 !! 3%N = Some (demo_record 3%N 7).
Proof.
  destruct (control_exchange_exact demo_m1 demo_m2 3%N demo_m1_inv demo_m2_inv)
    as (delta & Hd & _ & _ & Ht).
  exists delta. split; [exact Hd|]. rewrite Ht. vm_compute. reflexivity.
Defined.

(** A peer heard from twice *)
Definition demo_m3 : MeshMembership :=
  (apply_gossip_record demo_m1
     {| runtime_id := 3%N; endpoint_addrs := []; proto_version := 1; load := 0;
        draining := false; capabilities := []; version := 3; heartbeat_millis := 3000 |}).1.

Lemma live_peers_exact_witness :
  minv demo_m3 ∧ ∃ p, peers demo_m3 !! 3%N = Some p ∧
    ∃ T, ∀ now, (T ≤ now)%Z → suspect demo_m3 now p = true.
Proof.
  assert (minv demo_m3) as Hm by apply minv_gossip, demo_m1_inv. split; [exact Hm|].
  destruct (peers demo_m3 !! 3%N) as [p|] eqn:Hp; [|by vm_compute in Hp]. exists p. split; [done|].
  destruct (live_peers_exact demo_m3 Hm) as (_ & _ & _ & Hs). apply (Hs 3%N p Hp).
  vm_compute in Hp. by injection Hp as <-.
Defined.

(** A toy signature scheme: a signature is the key it was made with. *)
Definition demo_crypto : RelayCrypto :=
  {| PublicKey := string; XOnlyPublicKey := string; Signature := string;
     public_key_from_hex := Ok; public_key_to_hex := λ s, s; xonly := Ok;
     signature_from_str := Ok; sha256 := λ s, [Z.of_nat (String.length s)];
     verify_schnorr := λ sig _ pk, if decide (sig = pk) then Ok tt else Err "bad signature" |}.

Definition demo_ready (id : RuntimeId) (key sig : string) : ReadyRecord :=
  {| rr_runtime_id := id; rr_runtime_pubkey := to_hex id; rr_relay_pubkey := key;
     rr_relay_sig := sig; rr_endpoint_addrs := []; rr_proto_version := 1;
     rr_capabilities := [] |}.

(** An attested seed becomes a peer; one of another relay, and one with a bad
    signature, do not. *)
Lemma ready_seeds_admission_witness :
  let m := with_expected_relay_pubkey demo_m1 "k" in
  let rs := [demo_ready 5%N "k" "k"; demo_ready 6%N "other" "other"; demo_ready 7%N "k" "bad"] in
  is_Some (peers (@apply_ready_records demo_crypto 0 m rs) !! 5%N) ∧
  ¬ is_Some (peers (@apply_ready_records demo_crypto 0 m rs) !! 6%N).
Proof.
  cbv zeta.
  destruct (@ready_seeds_admission demo_crypto 0 (with_expected_relay_pubkey demo_m1 "k")
    [demo_ready 5%N "k" "k"; demo_ready 6%N "other" "other"; demo_ready 7%N "k" "bad"]) as (Ha & _).
  split.
  - apply Ha. right. exists (demo_ready 5%N "k" "k"). split; [by left|]. split; [done|].
    split_and!; [done|done|vm_compute; reflexivity].
  - rewrite Ha. intros [Hp|(r & Hr & Hid & _ & Hk & _)]; [vm_compute in Hp; by destruct Hp|].
    rewrite !elem_of_cons, elem_of_nil in Hr. destruct Hr as [->|[->|[->|[]]]]; done.
Defined.
