(* ===== verification/Wire.v ===== *)
(** * The mesh wire contract (buzz-relay-mesh/src/wire.rs)

    The fenced header and the frames that cross the mesh, and the version byte in front
    of their serialized form. The serialization itself is postcard, a parameter. *)

From S2P Require Import Prelude Filter Gossip.

Open Scope nat_scope.
Open Scope list_scope.

Definition WIRE_VERSION : Z := 1.
Definition MAX_STREAM_FRAME : Z := 16 * 1024 * 1024.

Record FencedHeader := {
  session_id : Uuid;
  generation : Z;
  owner_runtime_id : RuntimeId
}.

Inductive Profile := ReliableStream | RealtimeMedia | HuddleControl.

Inductive GoodbyeReason := SessionEnded | Draining | StaleGeneration.

Record MeshDatagram := { dg_fenced : FencedHeader; dg_seq : Z; dg_payload : list Z }.

Inductive StreamRole :=
  | Control
  | Session (fenced : FencedHeader) (profile : Profile).

Record StreamHello := { sender : RuntimeId; role : StreamRole }.

Inductive MeshStreamFrame :=
  | Hello (h : StreamHello)
  | Data (fenced : FencedHeader) (payload : list Z)
  | Goodbye (fenced : FencedHeader) (reason : GoodbyeReason)
  | GossipFrame (payload : list Z).

#[export] Instance FencedHeader_eq_dec : EqDecision FencedHeader.
Proof. solve_decision. Defined.
#[export] Instance Profile_eq_dec : EqDecision Profile.
Proof. solve_decision. Defined.
#[export] Instance GoodbyeReason_eq_dec : EqDecision GoodbyeReason.
Proof. solve_decision. Defined.
#[export] Instance StreamRole_eq_dec : EqDecision StreamRole.
Proof. solve_decision. Defined.

(** postcard on a type [A]: [to_extend] appends to the buffer it is given. *)
Class Serialize (A : Type) := {
  to_extend : A → list Z → result (list Z) string;
  from_bytes : list Z → result A string
}.

Definition encode {A} `{Serialize A} (frame : A) : result (list Z) MeshError :=
  map_err Encode (to_extend frame [WIRE_VERSION]).

Definition decode {A} `{Serialize A} (bytes : list Z) : result A MeshError :=
  match bytes with
  | v :: rest =>
      if decide (v = WIRE_VERSION) then map_err Decode (from_bytes rest)
      else Err (UnknownWireVersion v)
  | [] => Err EmptyFrame
  end.

(** [encode_datagram_checked] of lib.rs *)
Definition encode_datagram_checked `{Serialize MeshDatagram} (dgram : MeshDatagram)
    (max_datagram_size : nat) : result (list Z) MeshError :=
  bytes <-? encode dgram ;;
  if max_datagram_size <? length bytes
  then Err (DatagramTooLarge (length bytes) max_datagram_size)
  else Ok bytes.
