(* ===== verification/SessionDirectory.v ===== *)
(** * The fenced session directory (buzz-relay/src/tunnel/directory.rs)

    Ownership leases of tunnel sessions, kept in Redis: a lease key that expires and a
    generation counter that does not. The four Lua scripts are functions on the store.

    Redis itself is the class [Redis]; what is relied on about its commands is
    [RedisLaws]. Time is in milliseconds. [Outcome] says how the network and the
    community write guard (buzz-deletion) treat one call: a call may fail before its
    script ran, or after. The text of a Redis number in Lua is [lua_tostring], which
    switches to an exponent at 10^14. *)

From S2P Require Import Prelude Text Filter Gossip Membership Wire.

Open Scope string_scope.
Open Scope nat_scope.
Open Scope list_scope.

(** [Duration::from_secs(30)] in milliseconds; a TTL in nanoseconds is [ns]. *)
Definition DEFAULT_LEASE_TTL : Z := 30 * 1000000000.

(** The Redis commands the scripts use. [GET] also takes the time of the read: a key with
    a time to live disappears. [INCR] answers [None] for a Redis error. *)
Class Redis := {
  store : Type;
  GET : Z → string → store → option string;
  INCR : Z → string → store → store * option Z;
  SET_PX : Z → string → string → Z → store → store;
  PEXPIRE : Z → string → Z → store → store;
  DEL : Z → string → store → store;
  lua_tostring : Z → string
}.

Record SessionLease := {
  l_community_id : CommunityId;
  l_session_id : Uuid;
  l_owner_runtime_id : RuntimeId;
  l_generation : Z;
  l_profile : Profile
}.

#[export] Instance SessionLease_eq_dec : EqDecision SessionLease.
Proof. solve_decision. Defined.

Inductive AcquireResult := Acquired (l : SessionLease) | Exists (l : SessionLease).

Inductive RenewResult :=
  | Renewed (l : SessionLease)
  | Lost (current : option SessionLease) (known_generation : option Z).

Inductive ReleaseResult :=
  | Released (l : SessionLease)
  | NotOwner (current : option SessionLease) (known_generation : option Z).

Inductive DirectoryError :=
  | Pool (e : string)
  | RedisError (e : string)
  | MalformedLease (c : CommunityId) (s : Uuid) (value : string)
  | MalformedGeneration (c : CommunityId) (s : Uuid) (value : string)
  | UnexpectedScriptStatus (status : string)
  | InvalidLeaseTtl
  | CommunityWriteFenced (e : string).

Definition fenced_header (l : SessionLease) : FencedHeader :=
  {| session_id := l_session_id l; generation := l_generation l;
     owner_runtime_id := l_owner_runtime_id l |}.

Definition as_wire_str (p : Profile) : string :=
  match p with
  | ReliableStream => "reliable-stream"
  | RealtimeMedia => "realtime-media"
  | HuddleControl => "huddle-control"
  end.

Definition profile_from_wire (value : string) : option Profile :=
  if decide (value = "reliable-stream") then Some ReliableStream
  else if decide (value = "realtime-media") then Some RealtimeMedia
  else if decide (value = "huddle-control") then Some HuddleControl
  else None.

Definition i64_max : Z := 2 ^ 63 - 1.

Definition ttl_ms (ttl : Z) : result Z DirectoryError :=
  let ms := (ttl / 1000000)%Z in
  if ((ms <=? i64_max) && (0 <? ms))%Z then Ok ms else Err InvalidLeaseTtl.

(** ** How a call may end *)

(** [Guarded protect finish]: what [guard.protect] and [guard.finish] answer. *)
Inductive Guard :=
  | NoDb
  | Fenced (e : string)
  | Guarded (protect finish : option string).

(** [runs]: did the script reach Redis; [reply]: the error in place of its reply *)
Record Outcome := {
  guard : Guard;
  pool_error : option string;
  runs : bool;
  reply : option string
}.

Section directory.
Context `{Redis} `{IdText}.

(** ** The keys and the lease value *)

Definition base_key (c : CommunityId) (s : Uuid) : string :=
  "buzz:" +:+ uuid_to_string c +:+ ":tunnel:" +:+ uuid_to_string s.
Definition lease_key (c : CommunityId) (s : Uuid) : string := base_key c s +:+ ":lease".
Definition generation_key (c : CommunityId) (s : Uuid) : string :=
  base_key c s +:+ ":generation".

(** [RuntimeId(owner_bytes.try_into()?)]: exactly 32 bytes, big-endian *)
Definition runtime_id_of_bytes (bytes : list Z) : option RuntimeId :=
  if decide (length bytes = 32) then Some (Z.to_N (be_value bytes)) else None.

Definition parse_lease (c : CommunityId) (s : Uuid) (value : string)
  : result SessionLease DirectoryError :=
  let malformed := Err (MalformedLease c s value) in
  match split_on "|" value with
  | owner_hex :: gen :: rest =>
      match parse_u64 gen with
      | None => malformed
      | Some g =>
          if (g =? 0)%Z then malformed
          else
            match rest with
            | [] => malformed
            | p :: rest =>
                match profile_from_wire p, rest with
                | Some p, [] =>
                    match hex_decode owner_hex ≫= runtime_id_of_bytes with
                    | Some owner =>
                        Ok {| l_community_id := c; l_session_id := s;
                              l_owner_runtime_id := owner; l_generation := g; l_profile := p |}
                    | None => malformed
                    end
                | _, _ => malformed
                end
            end
      end
  | _ => malformed
  end.

Definition parse_optional_lease (c : CommunityId) (s : Uuid) (value : string)
  : result (option SessionLease) DirectoryError :=
  if decide (value = "") then Ok None
  else l <-? parse_lease c s value ;; Ok (Some l).

Definition parse_optional_generation (c : CommunityId) (s : Uuid) (value : string)
  : result (option Z) DirectoryError :=
  if decide (value = "") then Ok None
  else
    match parse_u64 value with
    | None => Err (MalformedGeneration c s value)
    | Some g => if (g =? 0)%Z then Err (MalformedGeneration c s value) else Ok (Some g)
    end.

(** ** The scripts *)

Definition Reply : Type := string * string * string.

(** Lua's [x or y] on a reply that may be nil *)
Definition lua_or (x : option string) (y : string) : string := default y x.

(** [string.match(v, '^([^|]+)|([^|]+)|([^|]+)$')] *)
Definition lua_match3 (v : string) : option (string * string * string) :=
  match split_on "|" v with
  | [a; b; c] =>
      if decide (a = "" ∨ b = "" ∨ c = "") then None else Some (a, b, c)
  | _ => None
  end.

Definition ACQUIRE_SCRIPT (now : Z) (lease_k generation_k owner profile : string) (ttl : Z)
    (r : store) : store * option Reply :=
  match GET now lease_k r with
  | Some current => (r, Some ("exists", current, lua_or (GET now generation_k r) ""))
  | None =>
      match INCR now generation_k r with
      | (r, None) => (r, None)
      | (r, Some generation) =>
          let value := owner +:+ "|" +:+ lua_tostring generation +:+ "|" +:+ profile in
          (SET_PX now lease_k value ttl r, Some ("acquired", value, lua_tostring generation))
      end
  end.

(** The test shared by renewal and release *)
Definition owned_by (current owner generation : string) : bool :=
  match lua_match3 current with
  | Some (o, g, _) => bool_decide (o = owner) && bool_decide (g = generation)
  | None => false
  end.

Definition current_generation (current : string) : option string :=
  '(_, g, _) ← lua_match3 current; Some g.

Definition lost_reply (now : Z) (generation_k current : string) (r : store) : Reply :=
  ("lost", current,
   lua_or (GET now generation_k r) (lua_or (current_generation current) "")).

Definition RENEW_SCRIPT (now : Z) (lease_k generation_k owner generation : string) (ttl : Z)
    (r : store) : store * option Reply :=
  match GET now lease_k r with
  | None => (r, Some ("missing", "", lua_or (GET now generation_k r) ""))
  | Some current =>
      if owned_by current owner generation then
        let r := PEXPIRE now lease_k ttl r in
        (r, Some ("renewed", current,
                  lua_or (GET now generation_k r) (lua_or (current_generation current) "")))
      else (r, Some (lost_reply now generation_k current r))
  end.

Definition RELEASE_SCRIPT (now : Z) (lease_k generation_k owner generation : string)
    (r : store) : store * option Reply :=
  match GET now lease_k r with
  | None => (r, Some ("missing", "", lua_or (GET now generation_k r) ""))
  | Some current =>
      if owned_by current owner generation then
        let r := DEL now lease_k r in
        (r, Some ("released", current,
                  lua_or (GET now generation_k r) (lua_or (current_generation current) "")))
      else (r, Some (lost_reply now generation_k current r))
  end.

Definition VALIDATE_SCRIPT (now : Z) (lease_k generation_k : string) (r : store)
  : string * string :=
  (lua_or (GET now lease_k r) "", lua_or (GET now generation_k r) "").

(** ** The operations of [SessionDirectory]

    [None] is a panic. *)

(** The error text redis reports for a script that failed *)
Definition SCRIPT_ERROR : string := "script".

(** The mutation shared by the three writing operations, up to its parsed reply: the
    guard, the TTL, the pool, the script, the guard again *)
Definition mutate {A} (o : Outcome) (ttl : result Z DirectoryError)
    (script : Z → store → store * option Reply) (parse : string → result A DirectoryError)
    (r : store) : store * result (Reply * A) DirectoryError :=
  match guard o with
  | Fenced e => (r, Err (CommunityWriteFenced e))
  | _ =>
      match ttl with
      | Err e => (r, Err e)
      | Ok ttl =>
          match pool_error o with
          | Some e => (r, Err (Pool e))
          | None =>
              let '(r', answer) := if runs o then script ttl r else (r, None) in
              let outcome :=
                match reply o, answer with
                | None, Some a => Ok a
                | Some e, _ => Err (RedisError e)
                | None, None => Err (RedisError SCRIPT_ERROR)
                end in
              (r',
               a <-? match guard o with
                     | Guarded (Some e) _ => Err (CommunityWriteFenced e)
                     | _ => outcome
                     end ;;
               x <-? parse a.1.2 ;;
               match guard o with
               | Guarded _ (Some e) => Err (CommunityWriteFenced e)
               | _ => Ok (a, x)
               end)
          end
      end
  end.

Definition acquire (o : Outcome) (now lease_ttl : Z) (c : CommunityId) (s : Uuid)
    (owner : RuntimeId) (p : Profile) (r : store)
  : store * result AcquireResult DirectoryError :=
  let '(r, res) :=
    mutate o (ttl_ms lease_ttl)
      (λ ttl, ACQUIRE_SCRIPT now (lease_key c s) (generation_key c s) (to_hex owner)
                (as_wire_str p) ttl) (parse_lease c s) r in
  (r,
   x <-? res ;;
   let '((status, _, _), lease) := x in
   if decide (status = "acquired") then Ok (Acquired lease)
   else if decide (status = "exists") then Ok (Exists lease)
   else Err (UnexpectedScriptStatus status)).

Definition takeover := acquire.

Definition renew (o : Outcome) (now lease_ttl : Z) (l : SessionLease) (r : store)
  : store * option (result RenewResult DirectoryError) :=
  let c := l_community_id l in let s := l_session_id l in
  let '(r, res) :=
    mutate o (ttl_ms lease_ttl)
      (λ ttl, RENEW_SCRIPT now (lease_key c s) (generation_key c s)
                (to_hex (l_owner_runtime_id l)) (decimal (l_generation l)) ttl)
      (parse_optional_lease c s) r in
  (r,
   match res with
   | Err e => Some (Err e)
   | Ok ((status, _, known), current) =>
       if decide (status = "renewed") then
         match current with Some l => Some (Ok (Renewed l)) | None => None end
       else if decide (status = "missing" ∨ status = "lost") then
         Some (known <-? parse_optional_generation c s known ;; Ok (Lost current known))
       else Some (Err (UnexpectedScriptStatus status))
   end).

Definition release (o : Outcome) (now : Z) (l : SessionLease) (r : store)
  : store * option (result ReleaseResult DirectoryError) :=
  let c := l_community_id l in let s := l_session_id l in
  let '(r, res) :=
    mutate o (Ok 0%Z)
      (λ _, RELEASE_SCRIPT now (lease_key c s) (generation_key c s)
              (to_hex (l_owner_runtime_id l)) (decimal (l_generation l)))
      (parse_optional_lease c s) r in
  (r,
   match res with
   | Err e => Some (Err e)
   | Ok ((status, _, known), current) =>
       if decide (status = "released") then
         match current with Some l => Some (Ok (Released l)) | None => None end
       else if decide (status = "missing" ∨ status = "lost") then
         Some (known <-? parse_optional_generation c s known ;; Ok (NotOwner current known))
       else Some (Err (UnexpectedScriptStatus status))
   end).

(** The reads fail with an error of the pool or of the connection. *)
Definition read_error (o : Outcome) : option DirectoryError :=
  match pool_error o, reply o with
  | Some e, _ => Some (Pool e)
  | None, Some e => Some (RedisError e)
  | None, None => None
  end.

Definition lookup_lease (o : Outcome) (now : Z) (c : CommunityId) (s : Uuid) (r : store)
  : result (option SessionLease) DirectoryError :=
  match read_error o with
  | Some e => Err e
  | None =>
      match GET now (lease_key c s) r with
      | None => Ok None
      | Some v => l <-? parse_lease c s v ;; Ok (Some l)
      end
  end.

Definition known_generation (o : Outcome) (now : Z) (c : CommunityId) (s : Uuid) (r : store)
  : result (option Z) DirectoryError :=
  match read_error o with
  | Some e => Err e
  | None =>
      match GET now (generation_key c s) r with
      | Some v => parse_optional_generation c s v
      | None => Ok None
      end
  end.

(** [e.to_string()] of a [DirectoryError] *)
Context (error_text : DirectoryError → string).

Definition validate_fenced_header (o : Outcome) (now : Z) (c : CommunityId)
    (fenced : FencedHeader) (r : store) : result unit MeshError :=
  let s := session_id fenced in
  match pool_error o, reply o with
  | Some e, _ => Err (Transport ("redis pool: " +:+ e))
  | None, Some e => Err (Gossip.Redis e)
  | None, None =>
      let '(lease_value, known) := VALIDATE_SCRIPT now (lease_key c s) (generation_key c s) r in
      known_from_counter <-? map_err (λ e, Transport (error_text e))
                              (parse_optional_generation c s known) ;;
      let known_from_counter := default 0%Z known_from_counter in
      current <-? map_err (λ e, Transport (error_text e)) (parse_optional_lease c s lease_value) ;;
      let known := Z.max (default known_from_counter (l_generation <$> current))
                         known_from_counter in
      if ((0 <? known) && (generation fenced <? known))%Z
      then Err (Gossip.StaleGeneration s (generation fenced) known)
      else
        match current with
        | None => Err (NoActiveLease s (generation fenced) known (owner_runtime_id fenced))
        | Some current =>
            if decide (generation fenced ≠ l_generation current)
            then Err (FutureGeneration s (generation fenced) (l_generation current))
            else if decide (owner_runtime_id fenced ≠ l_owner_runtime_id current)
            then Err (OwnerMismatch s (generation fenced) (owner_runtime_id fenced)
                        (l_owner_runtime_id current))
            else Ok tt
        end
  end.

End directory.
