(* ===== verification/LeaseTable.v ===== *)
(** * The directory as a table of leases

    The abstract machine that the session directory implements: one counter and at most one
    lease per session. The refinement goes through what Redis answers at every later time
    for the two keys of each session ([session_rel]); from it follow fencing and takeover.
    [RedisLaws] states the documented behaviour of the Redis commands, of Lua's number
    formatting and of the uuid and hex texts. *)

From S2P Require Import Prelude Text Filter Gossip Membership Wire SessionDirectory.

Open Scope string_scope.
Open Scope nat_scope.
Open Scope list_scope.

(** ** What the directory relies on *)

(** The width from which Lua prints a number with an exponent *)
Definition LUA_EXACT : Z := 10 ^ 14.

Class RedisLaws `{Redis} `{IdText} := {
  set_px_get t t' k k' v ttl r : (t ≤ t')%Z →
    GET t' k' (SET_PX t k v ttl r) =
      if decide (k = k') then (if t' <? t + ttl then Some v else None)%Z else GET t' k' r;
  pexpire_get t t' k k' ttl r : (t ≤ t')%Z →
    GET t' k' (PEXPIRE t k ttl r) =
      if decide (k = k') then (if t' <? t + ttl then GET t k r else None)%Z else GET t' k' r;
  del_get t t' k k' r : (t ≤ t')%Z →
    GET t' k' (DEL t k r) = if decide (k = k') then None else GET t' k' r;
  (** A missing counter starts at one and does not expire; an existing one keeps its time
      to live; the maximum of an [i64] is an error. *)
  incr_new t k r : GET t k r = None →
    (INCR t k r).2 = Some 1%Z ∧
    ∀ t' k', (t ≤ t')%Z →
      GET t' k' (INCR t k r).1 = if decide (k = k') then Some (decimal 1) else GET t' k' r;
  incr_old t k r n : GET t k r = Some (decimal n) → (0 ≤ n < i64_max)%Z →
    (INCR t k r).2 = Some (n + 1)%Z ∧
    ∀ t' k', (t ≤ t')%Z →
      GET t' k' (INCR t k r).1 =
        if decide (k = k') then (λ _, decimal (n + 1)) <$> GET t' k r else GET t' k' r;
  incr_max t k r : GET t k r = Some (decimal i64_max) → INCR t k r = (r, None);
  lua_exact n : (0 ≤ n < LUA_EXACT)%Z → lua_tostring n = decimal n;
  lua_exponent n : (LUA_EXACT ≤ n)%Z → parse_u64 (lua_tostring n) = None;
  lua_word n : lua_tostring n ≠ "" ∧ string_contains "|" (lua_tostring n) = false;
  uuid_inj :: Inj (=) (=) uuid_to_string;
  uuid_word u : string_contains ":" (uuid_to_string u) = false;
  hex_decode_to_hex id : (id < 2 ^ 256)%N → hex_decode (to_hex id) = Some (be_bytes 32 (Z.of_N id))
}.

(** ** The abstract directory: a table of sessions *)

Record Session := { counter : Z; held : option (RuntimeId * Profile * Z) }.

Definition idle : Session := {| counter := 0; held := None |}.

Abbreviation Table := (gmap (CommunityId * Uuid) Session) (only parsing).

Definition session_at (T : Table) (c : CommunityId) (s : Uuid) : Session :=
  default idle (T !! (c, s)).

Definition update (T : Table) (c : CommunityId) (s : Uuid) (f : Session → Session) : Table :=
  <[(c, s) := f (session_at T c s)]> T.

(** The holder whose lease has not expired *)
Definition live (now : Z) (ss : Session) : option (RuntimeId * Profile) :=
  '(o, p, d) ← held ss; if (now <? d)%Z then Some (o, p) else None.

Definition holds (now : Z) (o : RuntimeId) (g : Z) (ss : Session) : bool :=
  is_some_and (λ op, bool_decide (op.1 = o)) (live now ss)
  && (g =? counter ss)%Z && (counter ss <? LUA_EXACT)%Z.

Definition claim (now ttl : Z) (o : RuntimeId) (p : Profile) (ss : Session) : Session :=
  match live now ss with
  | Some _ => ss
  | None =>
      if (counter ss =? i64_max)%Z then ss
      else {| counter := counter ss + 1; held := Some (o, p, now + ttl)%Z |}
  end.

Definition extend (now ttl : Z) (o : RuntimeId) (g : Z) (ss : Session) : Session :=
  if holds now o g ss then
    {| counter := counter ss; held := (λ x, (x.1, now + ttl)%Z) <$> held ss |}
  else ss.

Definition drop_lease (now : Z) (o : RuntimeId) (g : Z) (ss : Session) : Session :=
  if holds now o g ss then {| counter := counter ss; held := None |} else ss.

Section spec.
Context `{Redis} `{IdText}.

Definition lease_value (o : RuntimeId) (g : Z) (p : Profile) : string :=
  to_hex o +:+ "|" +:+ lua_tostring g +:+ "|" +:+ as_wire_str p.

Definition read_lease (c : CommunityId) (s : Uuid) (o : RuntimeId) (g : Z) (p : Profile)
  : result SessionLease DirectoryError :=
  if (g <? LUA_EXACT)%Z then
    Ok {| l_community_id := c; l_session_id := s; l_owner_runtime_id := o;
          l_generation := g; l_profile := p |}
  else Err (MalformedLease c s (lease_value o g p)).

Definition current_lease (now : Z) (c : CommunityId) (s : Uuid) (ss : Session)
  : result (option SessionLease) DirectoryError :=
  match live now ss with
  | None => Ok None
  | Some (o, p) => l <-? read_lease c s o (counter ss) p ;; Ok (Some l)
  end.

Definition known (ss : Session) : option Z :=
  if (counter ss =? 0)%Z then None else Some (counter ss).

Definition claim_answer (now : Z) (c : CommunityId) (s : Uuid) (o : RuntimeId) (p : Profile)
    (ss : Session) : result AcquireResult DirectoryError :=
  match live now ss with
  | Some (o', p') => l <-? read_lease c s o' (counter ss) p' ;; Ok (Exists l)
  | None =>
      if (counter ss =? i64_max)%Z then Err (RedisError SCRIPT_ERROR)
      else l <-? read_lease c s o (counter ss + 1) p ;; Ok (Acquired l)
  end.

(** The answer to a caller that claims the lease [l]: [held_by] its session or [other] *)
Definition owner_answer {A} (held_by : SessionLease → A)
    (other : option SessionLease → option Z → A) (now : Z) (l : SessionLease) (ss : Session)
  : result A DirectoryError :=
  cur <-? current_lease now (l_community_id l) (l_session_id l) ss ;;
  match cur with
  | Some l' =>
      if holds now (l_owner_runtime_id l) (l_generation l) ss then Ok (held_by l')
      else Ok (other cur (known ss))
  | None => Ok (other cur (known ss))
  end.

Definition extend_answer := owner_answer Renewed Lost.
Definition drop_answer := owner_answer Released NotOwner.

(** Does the call change Redis, and with which TTL? *)
Definition effective (o : Outcome) (ttl : result Z DirectoryError) : option Z :=
  match guard o, ttl, pool_error o with
  | Fenced _, _, _ | _, Err _, _ | _, _, Some _ => None
  | _, Ok t, None => if runs o then Some t else None
  end.

(** What the caller sees of an answer *)
Definition attempt {A} (o : Outcome) (ttl : result Z DirectoryError)
    (answer : result A DirectoryError) : result A DirectoryError :=
  match guard o, ttl, pool_error o with
  | Fenced e, _, _ => Err (CommunityWriteFenced e)
  | _, Err e, _ => Err e
  | _, _, Some e => Err (Pool e)
  | g, Ok _, None =>
      match g, reply o with
      | Guarded (Some e) _, _ => Err (CommunityWriteFenced e)
      | _, Some e => Err (RedisError e)
      | _, None =>
          if runs o then
            a <-? answer ;;
            match g with Guarded _ (Some e) => Err (CommunityWriteFenced e) | _ => Ok a end
          else Err (RedisError SCRIPT_ERROR)
      end
  end.

Context (error_text : DirectoryError → string).

Definition fence_answer (now : Z) (c : CommunityId) (h : FencedHeader) (ss : Session)
  : result unit MeshError :=
  let s := session_id h in
  cur <-? map_err (λ e, Transport (error_text e)) (current_lease now c s ss) ;;
  if ((0 <? counter ss) && (generation h <? counter ss))%Z
  then Err (Gossip.StaleGeneration s (generation h) (counter ss))
  else
    match cur with
    | None => Err (NoActiveLease s (generation h) (counter ss) (owner_runtime_id h))
    | Some l =>
        if decide (generation h ≠ counter ss)
        then Err (FutureGeneration s (generation h) (counter ss))
        else if decide (owner_runtime_id h ≠ l_owner_runtime_id l)
        then Err (OwnerMismatch s (generation h) (owner_runtime_id h) (l_owner_runtime_id l))
        else Ok tt
    end.

(** ** Requests, on the store and on the table *)

Inductive request :=
  | RqAcquire (o : Outcome) (ttl : Z) (c : CommunityId) (s : Uuid) (owner : RuntimeId) (p : Profile)
  | RqRenew (o : Outcome) (ttl : Z) (l : SessionLease)
  | RqRelease (o : Outcome) (l : SessionLease)
  | RqLookup (o : Outcome) (c : CommunityId) (s : Uuid)
  | RqGeneration (o : Outcome) (c : CommunityId) (s : Uuid)
  | RqValidate (o : Outcome) (c : CommunityId) (h : FencedHeader).

Inductive response :=
  | RsAcquire (x : result AcquireResult DirectoryError)
  | RsRenew (x : option (result RenewResult DirectoryError))
  | RsRelease (x : option (result ReleaseResult DirectoryError))
  | RsLookup (x : result (option SessionLease) DirectoryError)
  | RsGeneration (x : result (option Z) DirectoryError)
  | RsValidate (x : result unit MeshError).

Definition serve (now : Z) (rq : request) (r : store) : store * response :=
  match rq with
  | RqAcquire o ttl c s owner p => prod_map id RsAcquire (acquire o now ttl c s owner p r)
  | RqRenew o ttl l => prod_map id RsRenew (renew o now ttl l r)
  | RqRelease o l => prod_map id RsRelease (release o now l r)
  | RqLookup o c s => (r, RsLookup (lookup_lease o now c s r))
  | RqGeneration o c s => (r, RsGeneration (known_generation o now c s r))
  | RqValidate o c h => (r, RsValidate (validate_fenced_header error_text o now c h r))
  end.

Definition read_answer {A} (o : Outcome) (a : result A DirectoryError)
  : result A DirectoryError :=
  match read_error o with Some e => Err e | None => a end.

Definition table_serve (now : Z) (rq : request) (T : Table) : Table * response :=
  match rq with
  | RqAcquire o ttl c s owner p =>
      (match effective o (ttl_ms ttl) with
       | Some t => update T c s (claim now t owner p) | None => T end,
       RsAcquire (attempt o (ttl_ms ttl) (claim_answer now c s owner p (session_at T c s))))
  | RqRenew o ttl l =>
      let c := l_community_id l in let s := l_session_id l in
      (match effective o (ttl_ms ttl) with
       | Some t => update T c s (extend now t (l_owner_runtime_id l) (l_generation l))
       | None => T end,
       RsRenew (Some (attempt o (ttl_ms ttl) (extend_answer now l (session_at T c s)))))
  | RqRelease o l =>
      let c := l_community_id l in let s := l_session_id l in
      (match effective o (Ok 0%Z) with
       | Some _ => update T c s (drop_lease now (l_owner_runtime_id l) (l_generation l))
       | None => T end,
       RsRelease (Some (attempt o (Ok 0%Z) (drop_answer now l (session_at T c s)))))
  | RqLookup o c s => (T, RsLookup (read_answer o (current_lease now c s (session_at T c s))))
  | RqGeneration o c s => (T, RsGeneration (read_answer o (Ok (known (session_at T c s)))))
  | RqValidate o c h =>
      (T, RsValidate
        match pool_error o, reply o with
        | Some e, _ => Err (Transport ("redis pool: " +:+ e))
        | None, Some e => Err (Gossip.Redis e)
        | None, None => fence_answer now c h (session_at T c (session_id h))
        end)
  end.

(** A history: each request comes some milliseconds after the one before it. *)
Fixpoint run (now : Z) (rqs : list (Z * request)) (r : store) : list response :=
  match rqs with
  | [] => []
  | (dt, rq) :: rqs =>
      let '(r, x) := serve (now + dt) rq r in x :: run (now + dt) rqs r
  end.

Fixpoint table_run (now : Z) (rqs : list (Z * request)) (T : Table) : list response :=
  match rqs with
  | [] => []
  | (dt, rq) :: rqs =>
      let '(T, x) := table_serve (now + dt) rq T in x :: table_run (now + dt) rqs T
  end.

(** Runtime ids have 32 bytes, generations 64 bits, and time does not run backwards. *)
Definition lease_ok (l : SessionLease) : Prop :=
  (l_owner_runtime_id l < 2 ^ 256)%N ∧ (0 ≤ l_generation l ≤ u64_max)%Z.

Definition request_ok (x : Z * request) : Prop :=
  (0 ≤ x.1)%Z ∧
  match x.2 with
  | RqAcquire _ _ _ _ owner _ => (owner < 2 ^ 256)%N
  | RqRenew _ _ l | RqRelease _ l => lease_ok l
  | RqValidate _ _ h => (0 ≤ generation h)%Z
  | _ => True
  end.

End spec.

(** ** The refinement *)

Section refinement.
Context `{RedisLaws}.
Context (error_text : DirectoryError → string).

#[local] Arguments to_hex : simpl never.
#[local] Arguments lease_value : simpl never.
#[local] Arguments parse_lease : simpl never.
#[local] Arguments LUA_EXACT : simpl never.
#[local] Arguments i64_max : simpl never.

Lemma hex_digit_word (x : N) : (x < 16)%N → hex_digit x ≠ "|"%char ∧ hex_digit x ≠ ":"%char.
Proof.
  intros Hx. destruct x as [|p]; [done|]. do 4 (destruct p as [p|p|]; try done; try lia).
Qed.

Lemma hex_digits_word (n : nat) (x : N) (acc : string) :
  string_contains "|" acc = false → string_contains "|" (hex_digits n x acc) = false.
Proof.
  revert x acc. induction n as [|n IH]; intros x acc Hacc; [done|]. simpl. apply IH.
  rewrite string_contains_cons. apply orb_false_iff. split; [|done].
  apply Ascii.eqb_neq, not_eq_sym, hex_digit_word. by apply N.mod_lt.
Qed.

Lemma hex_digits_empty (n : nat) (x : N) (acc : string) :
  n ≠ 0 ∨ acc ≠ "" → hex_digits n x acc ≠ "".
Proof.
  revert x acc. induction n as [|n IH]; intros x acc; simpl; [by intros [?|?]|].
  intros _. apply IH. by right.
Qed.

Lemma to_hex_inj (x y : RuntimeId) :
  (x < 2 ^ 256)%N → (y < 2 ^ 256)%N → to_hex x = to_hex y → x = y.
Proof.
  intros Hx Hy Heq. pose proof (hex_decode_to_hex x Hx) as Hd.
  rewrite Heq, hex_decode_to_hex in Hd by done. apply (inj Some) in Hd.
  apply (f_equal be_value) in Hd. rewrite !be_value_bytes in Hd by lia. lia.
Qed.

Lemma lease_value_split (o : RuntimeId) (g : Z) (p : Profile) :
  split_on "|" (lease_value o g p) = [to_hex o; lua_tostring g; as_wire_str p].
Proof.
  change (lease_value o g p) with (join_with "|" [to_hex o; lua_tostring g; as_wire_str p]).
  apply split_join; [done|]. repeat constructor.
  - by apply hex_digits_word.
  - apply lua_word.
  - by destruct p.
Qed.

Lemma lease_value_not_empty (o : RuntimeId) (g : Z) (p : Profile) : lease_value o g p ≠ "".
Proof. intros Hv. pose proof (lease_value_split o g p) as Hs. by rewrite Hv in Hs. Qed.

Lemma profile_round_trip (p : Profile) : profile_from_wire (as_wire_str p) = Some p.
Proof. by destruct p. Qed.

Lemma LUA_EXACT_u64 : (LUA_EXACT ≤ u64_max)%Z.
Proof. done. Qed.

Lemma runtime_id_of_be_bytes (o : RuntimeId) :
  (o < 2 ^ 256)%N → runtime_id_of_bytes (be_bytes 32 (Z.of_N o)) = Some o.
Proof.
  intros Ho. unfold runtime_id_of_bytes. rewrite be_bytes_length, decide_True by done.
  by rewrite be_value_bytes, N2Z.id by lia.
Qed.

(** [parse_lease] reads back what the acquire script wrote. *)
Lemma parse_lease_value (c : CommunityId) (s : Uuid) (o : RuntimeId) (g : Z) (p : Profile) :
  (o < 2 ^ 256)%N → (1 ≤ g)%Z → parse_lease c s (lease_value o g p) = read_lease c s o g p.
Proof.
  intros Ho Hg. unfold parse_lease, read_lease. rewrite lease_value_split.
  destruct (Z.ltb_spec g LUA_EXACT) as [Hlt|Hge].
  - pose proof LUA_EXACT_u64. rewrite lua_exact, parse_u64_decimal by lia.
    rewrite (proj2 (Z.eqb_neq g 0)) by lia. rewrite profile_round_trip, hex_decode_to_hex by done.
    cbn [option_bind mbind]. by rewrite runtime_id_of_be_bytes.
  - by rewrite lua_exponent.
Qed.

Lemma lua_match3_value (o : RuntimeId) (g : Z) (p : Profile) :
  lua_match3 (lease_value o g p) = Some (to_hex o, lua_tostring g, as_wire_str p).
Proof.
  unfold lua_match3. rewrite lease_value_split. rewrite decide_False; [done|].
  intros [Hv|[Hv|Hv]].
  - eapply hex_digits_empty; [|exact Hv]. by left.
  - by apply lua_word in Hv.
  - by destruct p.
Qed.

Lemma owned_by_value (o o' : RuntimeId) (g g' : Z) (p : Profile) :
  (o < 2 ^ 256)%N → (o' < 2 ^ 256)%N → (0 ≤ g)%Z → (0 ≤ g' ≤ u64_max)%Z →
  owned_by (lease_value o g p) (to_hex o') (decimal g') =
    bool_decide (o = o') && (g' =? g)%Z && (g <? LUA_EXACT)%Z.
Proof.
  intros Ho Ho' Hg Hg'. unfold owned_by. rewrite lua_match3_value, <- andb_assoc. f_equal.
  - apply bool_decide_ext. split; [by apply to_hex_inj|by intros ->].
  - destruct (Z.ltb_spec g LUA_EXACT) as [Hlt|Hge]; simpl.
    + rewrite lua_exact, andb_true_r by lia. case_bool_decide as Heq; symmetry.
      * apply Z.eqb_eq. symmetry. apply decimal_inj; [lia..|done].
      * apply Z.eqb_neq. by intros ->.
    + rewrite andb_false_r. apply bool_decide_eq_false. intros Heq.
      pose proof (lua_exponent g Hge) as Hp. by rewrite Heq, parse_u64_decimal in Hp.
Qed.

(** *** The keys *)

Lemma base_words (c : CommunityId) (s : Uuid) (suffix : string) :
  string_contains ":" suffix = false →
  split_on ":" (base_key c s +:+ String ":" suffix)
  = ["buzz"; uuid_to_string c; "tunnel"; uuid_to_string s; suffix].
Proof.
  intros Hs. rewrite <- (split_join ":" [_; _; _; _; suffix]).
  - f_equal. unfold base_key. by rewrite !string_app_assoc.
  - done.
  - repeat constructor; try done; apply uuid_word.
Qed.

Lemma keys_inj (c c' : CommunityId) (s s' : Uuid) (x x' : string) :
  string_contains ":" x = false → string_contains ":" x' = false →
  base_key c s +:+ String ":" x = base_key c' s' +:+ String ":" x' → c = c' ∧ s = s' ∧ x = x'.
Proof.
  intros Hx Hx' Heq. apply (f_equal (split_on ":")) in Heq. rewrite !base_words in Heq by done.
  injection Heq as Hc Hs Hxx. split; [by apply uuid_inj|]. split; [by apply uuid_inj|done].
Qed.

Lemma lease_key_inj (c c' : CommunityId) (s s' : Uuid) :
  lease_key c s = lease_key c' s' → c = c' ∧ s = s'.
Proof. intros Heq. by apply keys_inj in Heq as (? & ? & _). Qed.

Lemma generation_key_inj (c c' : CommunityId) (s s' : Uuid) :
  generation_key c s = generation_key c' s' → c = c' ∧ s = s'.
Proof. intros Heq. by apply keys_inj in Heq as (? & ? & _). Qed.

Lemma lease_generation_keys (c c' : CommunityId) (s s' : Uuid) :
  lease_key c s ≠ generation_key c' s'.
Proof. intros Heq. by apply keys_inj in Heq as (_ & _ & ?). Qed.

(** *** The relation between store and table *)

(** What Redis answers from time [now] on about one session *)
Record session_rel (now : Z) (c : CommunityId) (s : Uuid) (r : store) (ss : Session) : Prop := {
  rel_lease t : (now ≤ t)%Z →
    GET t (lease_key c s) r = (λ op, lease_value op.1 (counter ss) op.2) <$> live t ss;
  rel_generation t : (now ≤ t)%Z →
    GET t (generation_key c s) r = decimal <$> known ss;
  rel_counter : (0 ≤ counter ss ≤ i64_max)%Z;
  rel_held o p d : held ss = Some (o, p, d) → (o < 2 ^ 256)%N ∧ (1 ≤ counter ss)%Z
}.

Definition store_rel (now : Z) (r : store) (T : Table) : Prop :=
  ∀ c s, session_rel now c s r (session_at T c s).

Lemma session_rel_later (now t : Z) c s r ss :
  (now ≤ t)%Z → session_rel now c s r ss → session_rel t c s r ss.
Proof.
  intros Ht [Hl Hg ? ?]. constructor; try done; intros t' Ht'; [apply Hl|apply Hg]; lia.
Qed.

Lemma store_rel_later (now t : Z) r T :
  (now ≤ t)%Z → store_rel now r T → store_rel t r T.
Proof. intros Ht Hr c s. by eapply session_rel_later. Qed.

Lemma session_at_update T c s f c' s' :
  session_at (update T c s f) c' s' =
    if decide ((c, s) = (c', s')) then f (session_at T c s) else session_at T c' s'.
Proof.
  unfold update, session_at. case_decide as Heq; simplify_eq.
  - by rewrite lookup_insert_eq.
  - by rewrite lookup_insert_ne.
Qed.

(** A store that differs from a related one on the two keys of one session only *)
Lemma store_rel_update (now : Z) r r' T c s f :
  store_rel now r T →
  (∀ t k, (now ≤ t)%Z → k ≠ lease_key c s → k ≠ generation_key c s → GET t k r' = GET t k r) →
  session_rel now c s r' (f (session_at T c s)) →
  store_rel now r' (update T c s f).
Proof.
  intros Hr Hframe Hs c' s'. rewrite session_at_update. case_decide as Heq; [by simplify_eq|].
  destruct (Hr c' s') as [Hl Hg ? ?]. constructor; try done; intros t Ht; rewrite Hframe; auto.
  - intros [-> ->]%lease_key_inj. done.
  - apply lease_generation_keys.
  - apply not_eq_sym, lease_generation_keys.
  - intros [-> ->]%generation_key_inj. done.
Qed.

Lemma live_later (now t : Z) ss op : (now ≤ t)%Z → live t ss = Some op → live now ss = Some op.
Proof.
  intros Ht. unfold live. destruct (held ss) as [[[o p] d]|]; simpl; [|done].
  destruct (Z.ltb_spec t d); [|done]. by rewrite (proj2 (Z.ltb_lt now d)) by lia.
Qed.

Lemma live_bounds (now t : Z) c s r ss o p :
  session_rel now c s r ss → live t ss = Some (o, p) →
  (o < 2 ^ 256)%N ∧ (1 ≤ counter ss)%Z.
Proof.
  intros Hr. unfold live. destruct (held ss) as [[[o' p'] d]|] eqn:Hh; simpl; [|done].
  case_match; [|done]. intros [= -> ->]. by eapply rel_held.
Qed.

Lemma current_lease_live now t c s r ss :
  session_rel now c s r ss → (now ≤ t)%Z →
  parse_optional_lease c s (lua_or (GET t (lease_key c s) r) "") = current_lease t c s ss.
Proof.
  intros Hr Ht. rewrite (rel_lease _ _ _ _ _ Hr) by done. unfold current_lease.
  destruct (live t ss) as [[o p]|] eqn:Hl; [|done].
  destruct (live_bounds _ _ _ _ _ _ _ _ Hr Hl).
  change (lua_or _ _) with (lease_value o (counter ss) p). unfold parse_optional_lease.
  rewrite decide_False by apply lease_value_not_empty. by rewrite parse_lease_value.
Qed.

Lemma known_parse now t c s r ss :
  session_rel now c s r ss → (now ≤ t)%Z →
  parse_optional_generation c s (lua_or (GET t (generation_key c s) r) "") = Ok (known ss).
Proof.
  intros Hr Ht. rewrite (rel_generation _ _ _ _ _ Hr) by done.
  pose proof (rel_counter _ _ _ _ _ Hr) as Hc. unfold known.
  destruct (Z.eqb_spec (counter ss) 0) as [Hz|Hz]; [done|]. simpl.
  unfold parse_optional_generation. rewrite decide_False by apply decimal_not_empty.
  rewrite parse_u64_decimal by (unfold i64_max, u64_max in *; lia).
  by rewrite (proj2 (Z.eqb_neq _ _) Hz).
Qed.


(** *** The mutations *)

Definition answered (a : option Reply) : result Reply DirectoryError :=
  match a with Some a => Ok a | None => Err (RedisError SCRIPT_ERROR) end.

Lemma mutate_attempt {A} o ttl script (parse : string → result A DirectoryError) r r' answer :
  (∀ t, script t r = (r' t, answer)) →
  mutate o ttl script parse r =
    (match effective o ttl with Some t => r' t | None => r end,
     attempt o ttl (a <-? answered answer ;; x <-? parse a.1.2 ;; Ok (a, x))).
Proof.
  intros Hs. unfold mutate, effective, attempt, answered.
  destruct (guard o) as [|e|[e|] [e'|]], ttl as [t|], (pool_error o); try done;
    rewrite ?Hs; destruct (runs o), (reply o); try done;
    destruct answer as [a|]; try done; simpl; by destruct (parse a.1.2).
Qed.

(** A last step that cannot fail can be taken before the guard is finished. *)
Lemma attempt_post {A B} o ttl (answer : result A DirectoryError) (f : A → result B DirectoryError)
    (g : result B DirectoryError) :
  (∀ a, answer = Ok a → ∃ b, f a = Ok b ∧ g = Ok b) → (∀ e, answer = Err e → g = Err e) →
  (a <-? attempt o ttl answer ;; f a) = attempt o ttl g.
Proof.
  intros Hok Herr. unfold attempt. destruct answer as [a|e0].
  - destruct (Hok a eq_refl) as (b & Hf & ->).
    destruct (guard o) as [|e|[e|] [e'|]], ttl as [t|], (pool_error o); try done;
      by destruct (reply o), (runs o).
  - rewrite (Herr e0 eq_refl).
    destruct (guard o) as [|e|[e|] [e'|]], ttl as [t|], (pool_error o); try done;
      by destruct (reply o), (runs o).
Qed.

Lemma incr_counter now c s r ss :
  session_rel now c s r ss →
  if decide (counter ss = i64_max) then INCR now (generation_key c s) r = (r, None)
  else ∃ r', INCR now (generation_key c s) r = (r', Some (counter ss + 1)%Z) ∧
       ∀ t k, (now ≤ t)%Z →
         GET t k r' = if decide (generation_key c s = k) then Some (decimal (counter ss + 1))
                      else GET t k r.
Proof.
  intros Hr. pose proof (rel_counter _ _ _ _ _ Hr) as Hc.
  pose proof (rel_generation _ _ _ _ _ Hr) as Hg. unfold known in Hg.
  destruct (Z.eqb_spec (counter ss) 0) as [Hz|Hz].
  - destruct (incr_new now (generation_key c s) r) as [H2 H3]; [by rewrite Hg|].
    rewrite decide_False by (rewrite Hz; done). rewrite Hz.
    destruct (INCR _ _ _) as [r' n]. simpl in *. subst n. eauto.
  - case_decide as Hm.
    + apply incr_max. rewrite Hg by done. simpl. by rewrite Hm.
    + destruct (incr_old now (generation_key c s) r (counter ss)) as [H2 H3];
        [by rewrite Hg|lia|].
      destruct (INCR _ _ _) as [r' n]. simpl in *. subst n. eexists. split; [done|].
      intros t k Ht. rewrite H3 by done. case_decide; [|done]. by rewrite Hg.
Qed.

Lemma acquire_script_spec now c s r ss o p :
  session_rel now c s r ss →
  ∃ r' answer,
    (∀ t, ACQUIRE_SCRIPT now (lease_key c s) (generation_key c s) (to_hex o) (as_wire_str p) t r
          = (r' t, answer)) ∧
    (∀ t, (o < 2 ^ 256)%N → session_rel now c s (r' t) (claim now t o p ss)) ∧
    (∀ t t' k, (now ≤ t')%Z → k ≠ lease_key c s → k ≠ generation_key c s →
      GET t' k (r' t) = GET t' k r) ∧
    match live now ss with
    | Some (o', p') => ∃ k, answer = Some ("exists", lease_value o' (counter ss) p', k)
    | None =>
        if (counter ss =? i64_max)%Z then answer = None
        else ∃ k, answer = Some ("acquired", lease_value o (counter ss + 1) p, k)
    end.
Proof.
  intros Hr. unfold ACQUIRE_SCRIPT, claim. rewrite (rel_lease _ _ _ _ _ Hr) by done.
  destruct (live now ss) as [[o' p']|] eqn:Hl; simpl.
  { eexists (λ _, r), _. split; [done|]. split; [done|]. split; [done|]. by eexists. }
  pose proof (incr_counter _ _ _ _ _ Hr) as Hi. pose proof (rel_counter _ _ _ _ _ Hr) as Hc.
  destruct (Z.eqb_spec (counter ss) i64_max) as [Hm|Hm].
  { rewrite decide_True in Hi by done. rewrite Hi. by eexists (λ _, r), _. }
  rewrite decide_False in Hi by done. destruct Hi as (r1 & -> & Hget).
  eexists (λ t, SET_PX now _ _ t r1), _. split; [done|]. split_and!; [|..|by eexists].
  - intros t Ho. constructor; simpl.
    + intros t' Ht'. rewrite set_px_get, decide_True by done. unfold live. simpl.
      by destruct (Z.ltb_spec t' (now + t)).
    + intros t' Ht'. rewrite set_px_get, decide_False by (done || apply lease_generation_keys).
      rewrite Hget, decide_True by done. unfold known. simpl.
      by rewrite (proj2 (Z.eqb_neq _ _)) by lia.
    + lia.
    + intros o1 p1 d [= <- <- <-]. split; [done|lia].
  - intros t t' k Ht' Hk1 Hk2. rewrite set_px_get, decide_False by done.
    by rewrite Hget, decide_False by done.
Qed.

Lemma acquire_refines now o ttl c s owner p r T :
  store_rel now r T → (owner < 2 ^ 256)%N →
  ∃ r', acquire o now ttl c s owner p r
        = (r', attempt o (ttl_ms ttl) (claim_answer now c s owner p (session_at T c s))) ∧
    store_rel now r' (match effective o (ttl_ms ttl) with
                      | Some t => update T c s (claim now t owner p) | None => T end).
Proof.
  intros Hr Ho.
  destruct (acquire_script_spec now c s r (session_at T c s) owner p (Hr c s))
    as (r' & answer & Hs & Hrel & Hframe & Ha).
  unfold acquire. rewrite (mutate_attempt _ _ _ _ _ _ _ Hs). eexists. split; [f_equal|].
  - pose proof (rel_counter _ _ _ _ _ (Hr c s)) as Hc. unfold claim_answer.
    destruct (live now _) as [[o' p']|] eqn:Hl.
    + destruct Ha as [k ->]. destruct (live_bounds _ _ _ _ _ _ _ _ (Hr c s) Hl).
      cbn [answered fst snd]. rewrite parse_lease_value by done. unfold read_lease.
      apply attempt_post; destruct (_ <? LUA_EXACT)%Z; intros ? ?; simplify_eq; eauto.
    + destruct (Z.eqb_spec (counter (session_at T c s)) i64_max).
      { subst answer. apply attempt_post; [done|]. cbn [answered]. intros ? [= ->]. done. }
      destruct Ha as [k ->]. cbn [answered fst snd].
      rewrite parse_lease_value by (done || lia). unfold read_lease.
      apply attempt_post; destruct (_ <? LUA_EXACT)%Z; intros ? ?; simplify_eq; eauto.
  - destruct (effective o _) as [t|]; [|done]. apply store_rel_update with r; eauto.
Qed.

(** Renewal and release run one script: it does [f] if the caller holds the lease. *)
Definition owner_script (status : string) (now : Z) (lease_k generation_k owner gen : string)
    (r : store) (f : Z → store) (t : Z) : store * option Reply :=
  match GET now lease_k r with
  | None => (r, Some ("missing", "", lua_or (GET now generation_k r) ""))
  | Some current =>
      if owned_by current owner gen then
        (f t, Some (status, current, lua_or (GET now generation_k (f t))
                                       (lua_or (current_generation current) "")))
      else (r, Some (lost_reply now generation_k current r))
  end.

Lemma owner_script_spec status now c s r ss o g (f : Z → store) (next : Z → Session) :
  session_rel now c s r ss → (o < 2 ^ 256)%N → (0 ≤ g ≤ u64_max)%Z →
  (∀ t, GET now (generation_key c s) (f t) = GET now (generation_key c s) r) →
  (∀ t, holds now o g ss = true → session_rel now c s (f t) (next t)) →
  (∀ t, holds now o g ss = false → next t = ss) →
  (∀ t t' k, (now ≤ t')%Z → k ≠ lease_key c s → GET t' k (f t) = GET t' k r) →
  ∃ r' st v k,
    (∀ t, owner_script status now (lease_key c s) (generation_key c s) (to_hex o) (decimal g) r f t
          = (r' t, Some (st, v, k))) ∧
    (∀ t, session_rel now c s (r' t) (next t)) ∧
    (∀ t t' k, (now ≤ t')%Z → k ≠ lease_key c s → GET t' k (r' t) = GET t' k r) ∧
    parse_optional_lease c s v = current_lease now c s ss ∧
    parse_optional_generation c s k = Ok (known ss) ∧
    match live now ss with
    | Some _ => st = if holds now o g ss then status else "lost"
    | None => st = "missing"
    end.
Proof.
  intros Hr Ho Hg Hk Hyes Hno Hframe.
  pose proof (current_lease_live now now c s r ss Hr ltac:(lia)) as Hcur.
  pose proof (known_parse now now c s r ss Hr ltac:(lia)) as Hknown.
  pose proof (rel_lease _ _ _ _ _ Hr now (Z.le_refl now)) as Hget.
  unfold owner_script. rewrite Hget in Hcur. rewrite Hget.
  destruct (live now ss) as [[o' p']|] eqn:Hl; cbn [fmap option_fmap option_map fst snd] in *.
  - destruct (live_bounds _ _ _ _ _ _ _ _ Hr Hl) as [Ho' Hc].
    assert (GET now (generation_key c s) r = Some (decimal (counter ss))) as Hgen.
    { rewrite (rel_generation _ _ _ _ _ Hr) by done. unfold known.
      by rewrite (proj2 (Z.eqb_neq _ _)) by lia. }
    assert (owned_by (lease_value o' (counter ss) p') (to_hex o) (decimal g) = holds now o g ss)
      as Howned.
    { rewrite owned_by_value by (done || lia). unfold holds. rewrite Hl. simpl. done. }
    rewrite Howned. unfold lost_reply. destruct (holds now o g ss) eqn:Hh.
    + eexists f, _, _, _. split; [intros t; by rewrite Hk|]. split_and!; eauto.
      by rewrite Hgen in Hknown |- *.
    + eexists (λ _, r), _, _, _. split; [done|]. split_and!; eauto.
      * intros t. by rewrite Hno.
      * by rewrite Hgen in Hknown |- *.
  - assert (holds now o g ss = false) as Hh by (unfold holds; by rewrite Hl).
    eexists (λ _, r), _, _, _. split; [done|]. split_and!; eauto.
    intros t. by rewrite Hno.
Qed.

Definition owner_result {A} (status : string) (held_by : SessionLease → A)
    (other : option SessionLease → option Z → A) (c : CommunityId) (s : Uuid)
    (res : result (Reply * option SessionLease) DirectoryError)
  : option (result A DirectoryError) :=
  match res with
  | Err e => Some (Err e)
  | Ok ((st, _, known), current) =>
      if decide (st = status) then
        match current with Some l => Some (Ok (held_by l)) | None => None end
      else if decide (st = "missing" ∨ st = "lost") then
        Some (known <-? parse_optional_generation c s known ;; Ok (other current known))
      else Some (Err (UnexpectedScriptStatus st))
  end.

Lemma current_lease_Some now c s ss l :
  current_lease now c s ss = Ok (Some l) → ∃ o p, live now ss = Some (o, p) ∧
    l = {| l_community_id := c; l_session_id := s; l_owner_runtime_id := o;
           l_generation := counter ss; l_profile := p |} ∧ (counter ss < LUA_EXACT)%Z.
Proof.
  unfold current_lease. destruct (live now ss) as [[o p]|]; [|done]. unfold read_lease.
  destruct (Z.ltb_spec (counter ss) LUA_EXACT); [|done]. intros [= <-]. eauto 10.
Qed.

Lemma current_lease_None now c s ss :
  current_lease now c s ss = Ok None → live now ss = None.
Proof.
  unfold current_lease. destruct (live now ss) as [[o p]|]; [|done]. unfold read_lease.
  by destruct (_ <? _)%Z.
Qed.

Lemma owner_result_attempt {A} o ttl status st v k (held_by : SessionLease → A)
    (other : option SessionLease → option Z → A) now l ss :
  let c := l_community_id l in let s := l_session_id l in
  status ≠ "missing" → status ≠ "lost" →
  parse_optional_lease c s v = current_lease now c s ss →
  parse_optional_generation c s k = Ok (known ss) →
  match live now ss with
  | Some _ => st = if holds now (l_owner_runtime_id l) (l_generation l) ss then status else "lost"
  | None => st = "missing"
  end →
  owner_result status held_by other c s
    (attempt o ttl (x <-? parse_optional_lease c s v ;; Ok ((st, v, k), x)))
  = Some (attempt o ttl (owner_answer held_by other now l ss)).
Proof.
  intros c s Hs1 Hs2 Hv Hk Hst. rewrite Hv. unfold owner_answer. subst c s.
  destruct (current_lease now _ _ ss) as [[l'|]|e] eqn:Hcur.
  - apply current_lease_Some in Hcur as (o' & p' & Hl & _ & _). rewrite Hl in Hst. subst st.
    destruct (holds _ _ _ _); unfold attempt;
      destruct (guard o) as [|?|[?|] [?|]], ttl, (pool_error o); try done;
      destruct (reply o), (runs o); try done; simpl;
      rewrite ?decide_True by auto; rewrite ?decide_False by auto;
      rewrite ?decide_True by auto; rewrite ?Hk; done.
  - apply current_lease_None in Hcur. rewrite Hcur in Hst. subst st. unfold attempt;
      destruct (guard o) as [|?|[?|] [?|]], ttl, (pool_error o); try done;
      destruct (reply o), (runs o); try done; simpl;
      rewrite ?decide_False by auto; rewrite ?decide_True by auto; rewrite ?Hk; done.
  - unfold attempt; destruct (guard o) as [|?|[?|] [?|]], ttl, (pool_error o); try done;
      destruct (reply o), (runs o); done.
Qed.

Lemma holds_live now o g ss :
  holds now o g ss = true → ∃ p d, held ss = Some (o, p, d) ∧ live now ss = Some (o, p).
Proof.
  unfold holds, live. destruct (held ss) as [[[o' p'] d]|]; simpl; [|done].
  destruct (now <? d)%Z; simpl; [|done]. case_bool_decide; [|done]. subst. eauto.
Qed.

Lemma renew_refines now o ttl l r T :
  store_rel now r T → lease_ok l →
  let c := l_community_id l in let s := l_session_id l in
  ∃ r', renew o now ttl l r
        = (r', Some (attempt o (ttl_ms ttl) (extend_answer now l (session_at T c s)))) ∧
    store_rel now r' (match effective o (ttl_ms ttl) with
      | Some t => update T c s (extend now t (l_owner_runtime_id l) (l_generation l))
      | None => T end).
Proof.
  intros Hr [Ho Hg] c s. unfold extend, extend_answer.
  destruct (owner_script_spec "renewed" now c s r (session_at T c s) (l_owner_runtime_id l)
    (l_generation l) (λ t, PEXPIRE now (lease_key c s) t r)
    (λ t, extend now t (l_owner_runtime_id l) (l_generation l) (session_at T c s)))
    as (r' & st & v & k & Hs & Hrel & Hframe & Hv & Hk & Hst); try done.
  - intros t. by rewrite pexpire_get, decide_False by (done || apply lease_generation_keys).
  - intros t Hh. unfold extend. rewrite Hh.
    destruct (holds_live _ _ _ _ Hh) as (p & d & Hheld & Hl). pose proof (Hr c s) as Hcs.
    constructor; simpl.
    + intros t' Ht'. rewrite pexpire_get, decide_True by done.
      rewrite (rel_lease _ _ _ _ _ Hcs), Hl by done. unfold live. rewrite Hheld. simpl.
      by destruct (t' <? now + t)%Z.
    + intros t' Ht'. rewrite pexpire_get, decide_False by (done || apply lease_generation_keys).
      by rewrite (rel_generation _ _ _ _ _ Hcs).
    + by apply (rel_counter _ _ _ _ _ Hcs).
    + rewrite Hheld. simpl. intros o' p' d' [= <- <- <-]. by eapply rel_held.
  - intros t Hh. unfold extend. by rewrite Hh.
  - intros t t' k Ht' Hk. by rewrite pexpire_get, decide_False by done.
  - unfold renew. fold c s. rewrite (mutate_attempt _ _ _ _ _ _ _ Hs). eexists. split.
    + f_equal. by apply (owner_result_attempt o (ttl_ms ttl) "renewed" st v k Renewed Lost).
    + destruct (effective o _) as [t|]; [|done]. apply store_rel_update with r; eauto.
Qed.

Lemma release_refines now o l r T :
  store_rel now r T → lease_ok l →
  let c := l_community_id l in let s := l_session_id l in
  ∃ r', release o now l r
        = (r', Some (attempt o (Ok 0%Z) (drop_answer now l (session_at T c s)))) ∧
    store_rel now r' (match effective o (Ok 0%Z) with
      | Some _ => update T c s (drop_lease now (l_owner_runtime_id l) (l_generation l))
      | None => T end).
Proof.
  intros Hr [Ho Hg] c s. unfold drop_answer.
  destruct (owner_script_spec "released" now c s r (session_at T c s) (l_owner_runtime_id l)
    (l_generation l) (λ _, DEL now (lease_key c s) r)
    (λ _, drop_lease now (l_owner_runtime_id l) (l_generation l) (session_at T c s)))
    as (r' & st & v & k & Hs & Hrel & Hframe & Hv & Hk & Hst); try done.
  - intros t. by rewrite del_get, decide_False by (done || apply lease_generation_keys).
  - intros t Hh. unfold drop_lease. rewrite Hh. pose proof (Hr c s) as Hcs. constructor; simpl.
    + intros t' Ht'. by rewrite del_get, decide_True by done.
    + intros t' Ht'. rewrite del_get, decide_False by (done || apply lease_generation_keys).
      by rewrite (rel_generation _ _ _ _ _ Hcs).
    + by apply (rel_counter _ _ _ _ _ Hcs).
    + done.
  - intros t Hh. unfold drop_lease. by rewrite Hh.
  - intros t t' k Ht' Hk. by rewrite del_get, decide_False by done.
  - unfold release. fold c s. rewrite (mutate_attempt _ _ _ _ _ _ _ Hs). eexists. split.
    + f_equal. by apply (owner_result_attempt o (Ok 0%Z) "released" st v k Released NotOwner).
    + destruct (effective o _) as [t|]; [|done]. apply store_rel_update with r; eauto.
Qed.

Lemma lookup_refines now o c s r T :
  store_rel now r T →
  lookup_lease o now c s r = read_answer o (current_lease now c s (session_at T c s)).
Proof.
  intros Hr. unfold lookup_lease, read_answer. destruct (read_error o); [done|].
  pose proof (Hr c s) as Hcs. rewrite (rel_lease _ _ _ _ _ Hcs) by done. unfold current_lease.
  destruct (live now _) as [[o' p']|] eqn:Hl; [|done]. cbn [fmap option_fmap option_map fst snd].
  destruct (live_bounds _ _ _ _ _ _ _ _ Hcs Hl). by rewrite parse_lease_value.
Qed.

Lemma generation_refines now o c s r T :
  store_rel now r T →
  known_generation o now c s r = read_answer o (Ok (known (session_at T c s))).
Proof.
  intros Hr. unfold known_generation, read_answer. destruct (read_error o); [done|].
  pose proof (known_parse now now c s r _ (Hr c s) ltac:(lia)) as Hk.
  rewrite (rel_generation _ _ _ _ _ (Hr c s)) in Hk |- * by done.
  by destruct (known _).
Qed.

Lemma validate_refines now o c h r T :
  store_rel now r T →
  RsValidate (validate_fenced_header error_text o now c h r)
  = (table_serve error_text now (RqValidate o c h) T).2.
Proof.
  intros Hr. simpl. f_equal. unfold validate_fenced_header, fence_answer, VALIDATE_SCRIPT.
  destruct (pool_error o), (reply o); try done.
  rewrite (known_parse now now c (session_id h) r _ (Hr c _)) by done.
  rewrite (current_lease_live now now c (session_id h) r _ (Hr c _)) by done.
  set (ss := session_at T c (session_id h)). cbn [map_err].
  pose proof (rel_counter _ _ _ _ _ (Hr c (session_id h))) as Hc. fold ss in Hc.
  assert (default 0%Z (known ss) = counter ss) as Hd.
  { unfold known. by destruct (Z.eqb_spec (counter ss) 0). }
  rewrite Hd. destruct (current_lease now c (session_id h) ss) as [[l|]|e] eqn:Hcur; cbn [map_err];
    [|by rewrite Z.max_id|done].
  apply current_lease_Some in Hcur as (o' & p' & _ & -> & _).
  cbn [fmap option_fmap option_map default l_generation l_owner_runtime_id]. by rewrite Z.max_id.
Qed.

(** One request, served by Redis and by the table *)
Lemma serve_refines now rq r T :
  store_rel now r T → request_ok (0%Z, rq) →
  ∃ r', serve error_text now rq r = (r', (table_serve error_text now rq T).2) ∧
    store_rel now r' (table_serve error_text now rq T).1.
Proof.
  intros Hr [_ Hok]. destruct rq as [o ttl c s owner p|o ttl l|o l|o c s|o c s|o c h];
    cbn [serve table_serve fst snd] in *.
  - destruct (acquire_refines now o ttl c s owner p r T Hr Hok) as (r' & -> & Hr'). eauto.
  - destruct (renew_refines now o ttl l r T Hr Hok) as (r' & -> & Hr'). eauto.
  - destruct (release_refines now o l r T Hr Hok) as (r' & -> & Hr'). eauto.
  - rewrite (lookup_refines now o c s r T) by done. eauto.
  - rewrite (generation_refines now o c s r T) by done. eauto.
  - rewrite (validate_refines now o c h r T) by done. eauto.
Qed.

Lemma table_run_refines now rqs r T :
  store_rel now r T → Forall request_ok rqs →
  run error_text now rqs r = table_run error_text now rqs T.
Proof.
  intros Hr Hall. revert now r T Hr. induction Hall as [|[dt rq] rqs [Hdt Hok] _ IH];
    intros now r T Hr; [done|]. simpl in *.
  apply (store_rel_later _ (now + dt)) in Hr; [|lia].
  destruct (serve_refines (now + dt) rq r T) as (r' & -> & Hr'); [done|by split|].
  destruct (table_serve error_text (now + dt) rq T) as [T' x]. simpl in *.
  f_equal. by apply IH.
Qed.

Lemma empty_store_rel now r :
  (∀ t k, (now ≤ t)%Z → GET t k r = None) → store_rel now r ∅.
Proof.
  intros He c s. unfold session_at. rewrite lookup_empty. constructor; simpl; try done; intros t Ht;
    by rewrite He.
Qed.
End refinement.

(** ** Histories *)

Section histories.
Context `{Redis} `{IdText}.
Context (error_text : DirectoryError → string).

(** The time and the table at the end of a history *)
Fixpoint table_end (now : Z) (rqs : list (Z * request)) (T : Table) : Z * Table :=
  match rqs with
  | [] => (now, T)
  | (dt, rq) :: rqs => table_end (now + dt) rqs (table_serve error_text (now + dt) rq T).1
  end.

Lemma table_run_app now xs ys T :
  table_run error_text now (xs ++ ys) T =
    table_run error_text now xs T ++
    table_run error_text (table_end now xs T).1 ys (table_end now xs T).2.
Proof.
  revert now T. induction xs as [|[dt rq] xs IH]; intros now T; simpl; [done|].
  destruct (table_serve error_text (now + dt) rq T) as [T' x]. simpl. by rewrite IH.
Qed.

Lemma table_end_app now xs ys T :
  table_end now (xs ++ ys) T = table_end (table_end now xs T).1 ys (table_end now xs T).2.
Proof. revert now T. induction xs as [|[dt rq] xs IH]; intros now T; simpl; [done|]. apply IH. Qed.

Lemma table_run_length now rqs T : length (table_run error_text now rqs T) = length rqs.
Proof.
  revert now T. induction rqs as [|[dt rq] rqs IH]; intros now T; simpl; [done|].
  destruct (table_serve _ _ _ _). simpl. by rewrite IH.
Qed.

(** The generation never falls, and within one generation the owner never changes. *)
Definition forward (a b : Session) : Prop :=
  (counter a ≤ counter b)%Z ∧
  (counter a = counter b → ∀ o p d', held b = Some (o, p, d') → ∃ d, held a = Some (o, p, d)).

#[export] Instance forward_preorder : PreOrder forward.
Proof.
  split.
  - intros a. split; [done|]. intros _ o p d. by exists d.
  - intros a b c [Hab1 Hab2] [Hbc1 Hbc2]. split; [lia|]. intros Heq o p d' Hh.
    destruct (Hbc2 ltac:(lia) _ _ _ Hh) as [d Hd]. eapply Hab2; [lia|done].
Qed.

Lemma claim_forward now t o p ss : forward ss (claim now t o p ss).
Proof.
  unfold claim. destruct (live now ss); [done|]. destruct (_ =? _)%Z; [done|].
  split; simpl; [lia|]. intros ?. lia.
Qed.

Lemma extend_forward now t o g ss : forward ss (extend now t o g ss).
Proof.
  unfold extend. destruct (holds now o g ss); [|done]. split; simpl; [lia|].
  intros _ o' p' d'. destruct (held ss) as [[[o1 p1] d1]|]; simpl; [|done].
  intros [= -> -> _]. by eexists.
Qed.

Lemma drop_forward now o g ss : forward ss (drop_lease now o g ss).
Proof.
  unfold drop_lease. destruct (holds now o g ss); [|done]. split; simpl; [lia|done].
Qed.

Lemma update_forward T c s f c' s' :
  (∀ ss, forward ss (f ss)) → forward (session_at T c' s') (session_at (update T c s f) c' s').
Proof. intros Hf. rewrite session_at_update. case_decide; [|done]. by simplify_eq. Qed.

Lemma table_serve_forward now rq T c s :
  forward (session_at T c s) (session_at (table_serve error_text now rq T).1 c s).
Proof.
  destruct rq; cbn [table_serve fst]; try done; destruct (effective _ _); try done;
    apply update_forward; intros ss;
    [apply claim_forward|apply extend_forward|apply drop_forward].
Qed.

Lemma table_end_forward now rqs T c s :
  forward (session_at T c s) (session_at (table_end now rqs T).2 c s).
Proof.
  revert now T. induction rqs as [|[dt rq] rqs IH]; intros now T; simpl; [done|].
  etrans; [apply (table_serve_forward (now + dt) rq)|apply IH].
Qed.

Lemma attempt_Ok {A} o ttl (answer : result A DirectoryError) (a : A) :
  attempt o ttl answer = Ok a → answer = Ok a ∧ is_Some (effective o ttl).
Proof.
  unfold attempt, effective.
  destruct (guard o) as [|?|[?|] [?|]], ttl, (pool_error o); try done;
    destruct (reply o), (runs o); try done; destruct answer; try done; eauto.
Qed.

Lemma claim_answer_Acquired now c s o p ss l :
  claim_answer now c s o p ss = Ok (Acquired l) →
  live now ss = None ∧ counter ss ≠ i64_max ∧ (counter ss + 1 < LUA_EXACT)%Z ∧
  l = {| l_community_id := c; l_session_id := s; l_owner_runtime_id := o;
         l_generation := counter ss + 1; l_profile := p |}.
Proof.
  unfold claim_answer. destruct (live now ss) as [[o' p']|].
  - unfold read_lease. by destruct (_ <? _)%Z.
  - destruct (Z.eqb_spec (counter ss) i64_max); [done|]. unfold read_lease.
    destruct (Z.ltb_spec (counter ss + 1) LUA_EXACT); [|done]. by intros [= <-].
Qed.

(** What an acquisition did to the table *)
Lemma table_acquired now rq T l :
  (table_serve error_text now rq T).2 = RsAcquire (Ok (Acquired l)) →
  ∃ o ttl t, rq = RqAcquire o ttl (l_community_id l) (l_session_id l) (l_owner_runtime_id l)
                   (l_profile l) ∧ effective o (ttl_ms ttl) = Some t ∧
    let ss := session_at T (l_community_id l) (l_session_id l) in
    l_generation l = (counter ss + 1)%Z ∧
    session_at (table_serve error_text now rq T).1 (l_community_id l) (l_session_id l) =
      {| counter := l_generation l; held := Some (l_owner_runtime_id l, l_profile l, now + t)%Z |}.
Proof.
  destruct rq as [o ttl c s owner p|o ttl l'|o l'|o c s|o c s|o c h]; cbn [table_serve snd fst];
    try done.
  intros [= Ha]. apply attempt_Ok in Ha as [Ha [t Ht]].
  apply claim_answer_Acquired in Ha as (Hl & Hm & _ & ->).
  exists o, ttl, t. split; [done|]. split; [done|]. simpl. split; [done|].
  rewrite Ht, session_at_update, decide_True by done. unfold claim. rewrite Hl.
  by rewrite (proj2 (Z.eqb_neq _ _) Hm).
Qed.

(** An accepted header is the live lease. *)
Lemma table_validated now o c h T :
  (table_serve error_text now (RqValidate o c h) T).2 = RsValidate (Ok tt) →
  let ss := session_at T c (session_id h) in
  counter ss = generation h ∧ ∃ p, live now ss = Some (owner_runtime_id h, p).
Proof.
  intros Ha ss. cbn [table_serve snd] in Ha. injection Ha as Ha.
  destruct (pool_error o), (reply o); try done.
  unfold fence_answer in Ha. fold ss in Ha.
  destruct (current_lease now c (session_id h) ss) as [[l|]|e] eqn:Hcur; simpl in Ha; try done;
    [|by case_match].
  apply current_lease_Some in Hcur as (o' & p & Hl & -> & _). simpl in Ha.
  destruct (_ && _); [done|]. case_decide as Hg; [done|]. case_decide as Ho; [done|].
  split; [done|]. exists p. by rewrite Ho.
Qed.

Lemma live_held now ss o p : live now ss = Some (o, p) → ∃ d, held ss = Some (o, p, d) ∧ (now < d)%Z.
Proof.
  unfold live. destruct (held ss) as [[[o' p'] d]|]; simpl; [|done].
  destruct (Z.ltb_spec now d); [|done]. intros [= -> ->]. eauto.
Qed.

(** The table before the request at a position, and the response to that request *)
Lemma table_run_at now rqs T i dt rq x :
  rqs !! i = Some (dt, rq) → table_run error_text now rqs T !! i = Some x →
  let e := table_end now (take i rqs) T in
  x = (table_serve error_text (e.1 + dt) rq e.2).2.
Proof.
  intros Hrq Hx. rewrite <- (take_drop_middle rqs i _ Hrq), table_run_app in Hx.
  assert (length (table_run error_text now (take i rqs) T) = i) as Hlen.
  { rewrite table_run_length, length_take. apply lookup_lt_Some in Hrq. lia. }
  rewrite lookup_app_r, Hlen, Nat.sub_diag in Hx by lia. simpl in Hx.
  destruct (table_serve _ _ _ _) as [T' x'] eqn:Hs. simpl in Hx. injection Hx as <-.
  simpl. by rewrite Hs.
Qed.

Lemma table_run_between now rqs T i j dt rq c s :
  i < j → rqs !! i = Some (dt, rq) →
  let e := table_end now (take i rqs) T in
  forward (session_at (table_serve error_text (e.1 + dt) rq e.2).1 c s)
          (session_at (table_end now (take j rqs) T).2 c s).
Proof.
  intros Hij Hrq e.
  assert (take j rqs = take i rqs ++ (dt, rq) :: take (j - S i) (drop (S i) rqs)) as ->.
  { rewrite <- (take_drop_middle rqs i _ Hrq) at 1. apply lookup_lt_Some in Hrq.
    rewrite take_app, take_take, length_take. rewrite Nat.min_r by lia.
    replace (j - (i `min` length rqs)) with (S (j - S i)) by lia. done. }
  rewrite table_end_app. simpl. apply table_end_forward.
Qed.

(** When the request at a position is served *)
Definition sent_at (now : Z) (rqs : list (Z * request)) (i : nat) : Z :=
  foldl (λ t x, t + x.1)%Z now (take (S i) rqs).

(** The time to live that a request gives to the lease of a runtime *)
Definition keeps (c : CommunityId) (s : Uuid) (o : RuntimeId) (rq : request) : option Z :=
  match rq with
  | RqAcquire u ttl c' s' o' _ =>
      if decide ((c', s', o') = (c, s, o)) then effective u (ttl_ms ttl) else None
  | RqRenew u ttl l =>
      if decide ((l_community_id l, l_session_id l, l_owner_runtime_id l) = (c, s, o))
      then effective u (ttl_ms ttl) else None
  | _ => None
  end.

Lemma table_end_time now rqs T : (table_end now rqs T).1 = foldl (λ t x, t + x.1)%Z now rqs.
Proof. revert now T. induction rqs as [|[dt rq] rqs IH]; intros now T; simpl; [done|]. apply IH. Qed.

Lemma sent_at_end now rqs T j dt rq :
  rqs !! j = Some (dt, rq) → sent_at now rqs j = ((table_end now (take j rqs) T).1 + dt)%Z.
Proof.
  intros Hj. unfold sent_at. by rewrite (take_S_r _ _ _ Hj), foldl_app, table_end_time.
Qed.

(** What one request can make of the lease of a session *)
Lemma serve_held now rq T c s o p d :
  held (session_at (table_serve error_text now rq T).1 c s) = Some (o, p, d) →
  held (session_at T c s) = Some (o, p, d) ∨ ∃ t, keeps c s o rq = Some t ∧ d = (now + t)%Z.
Proof.
  destruct rq as [u ttl c' s' o' p'|u ttl l|u l| | |]; cbn [table_serve fst keeps]; auto;
    destruct (effective _ _) as [t|] eqn:Heff; auto; rewrite session_at_update;
    case_decide as Hcs; auto; injection Hcs as -> ->.
  - unfold claim. destruct (live _ _); [auto|]. destruct (_ =? _)%Z; [auto|]. simpl.
    intros [= -> -> <-]. right. exists t. by rewrite decide_True.
  - unfold extend. destruct (holds _ _ _ _) eqn:Hh; [|auto]. simpl. unfold holds, live in Hh.
    destruct (held _) as [[[o1 p1] d1]|]; [|done]. simpl in *. intros [= -> -> <-]. right. exists t.
    destruct (now <? d1)%Z; [|done]. simpl in Hh. case_bool_decide; [|done]. subst. by rewrite decide_True.
  - unfold drop_lease. destruct (holds _ _ _ _); [done|auto].
Qed.

(** A lease expires at the end of the time that some request of its owner gave it. *)
Lemma table_held now rqs c s o p d :
  held (session_at (table_end now rqs ∅).2 c s) = Some (o, p, d) →
  ∃ i dt rq t, rqs !! i = Some (dt, rq) ∧ keeps c s o rq = Some t ∧ d = (sent_at now rqs i + t)%Z.
Proof.
  induction rqs as [|[dt rq] rqs IH] using rev_ind.
  { simpl. unfold session_at. by rewrite lookup_empty. }
  rewrite table_end_app. simpl. intros [Hh|(t & Hk & ->)]%serve_held.
  - destruct (IH Hh) as (i & dt0 & rq0 & t & Hi & Hk & ->). exists i, dt0, rq0, t.
    apply lookup_lt_Some in Hi as Hlt. rewrite lookup_app_l by done. split_and!; [done..|].
    unfold sent_at. by rewrite take_app_le by lia.
  - exists (length rqs), dt, rq, t. rewrite list_lookup_middle by done. split_and!; [done..|].
    unfold sent_at. rewrite take_ge by (rewrite length_app; simpl; lia).
    by rewrite foldl_app, table_end_time.
Qed.

(** A release that was answered leaves no lease of its generation. *)
Lemma table_released now rq T l x :
  (table_serve error_text now rq T).2 = RsRelease (Some (Ok (Released x))) →
  ∀ o, rq = RqRelease o l →
  let ss := session_at (table_serve error_text now rq T).1 (l_community_id l) (l_session_id l) in
  counter ss = l_generation l ∧ held ss = None.
Proof.
  intros Ha o ->. cbn [table_serve snd fst] in *. injection Ha as Ha.
  apply attempt_Ok in Ha as [Ha [t Ht]]. rewrite Ht, session_at_update, decide_True by done.
  unfold drop_answer, owner_answer in Ha. unfold drop_lease.
  destruct (current_lease _ _ _ _) as [[l'|]|]; simpl in Ha; try done.
  destruct (holds _ _ _ _) eqn:Hh; [|done]. unfold holds in Hh.
  apply andb_true_iff in Hh as [[_ Hg%Z.eqb_eq]%andb_true_iff _]. by split.
Qed.

Lemma table_kept now rqs j c s o p d (t0 : Z) :
  held (session_at (table_end now (take j rqs) ∅).2 c s) = Some (o, p, d) → (t0 < d)%Z →
  ∃ i dt rq t, i < j ∧ rqs !! i = Some (dt, rq) ∧ keeps c s o rq = Some t ∧
    (t0 < sent_at now rqs i + t)%Z.
Proof.
  intros (i & dt & rq & t & Hi & Hk & ->)%table_held Hd.
  apply lookup_take_Some in Hi as [Hi Hij]. exists i, dt, rq, t. split_and!; [done..|].
  unfold sent_at in *. rewrite take_take in Hd. by replace (S i `min` j) with (S i) in Hd by lia.
Qed.

Lemma table_release_ends now rqs i j dt o l x :
  i < j → rqs !! i = Some (dt, RqRelease o l) →
  table_run error_text now rqs ∅ !! i = Some (RsRelease (Some (Ok (Released x)))) →
  let ss := session_at (table_end now (take j rqs) ∅).2 (l_community_id l) (l_session_id l) in
  is_Some (held ss) → (l_generation l < counter ss)%Z.
Proof.
  intros Hij Hrq Hi ss [[[o' p] d] Hh]. pose proof (table_run_at _ _ _ _ _ _ _ Hrq Hi) as Hs.
  symmetry in Hs. destruct (table_released _ _ _ _ _ Hs _ eq_refl) as [Hg Hn].
  destruct (table_run_between now rqs ∅ i j dt _ (l_community_id l) (l_session_id l) Hij Hrq)
    as [Hle Hsame]. fold ss in Hle, Hsame.
  destruct (Z.eq_dec (l_generation l) (counter ss)) as [Heq|]; [|lia].
  destruct (Hsame ltac:(lia) _ _ _ Hh) as [d' Hd]. congruence.
Qed.

(** What an accepted header says of the history before it *)
Lemma table_accepted now rqs j dt o c h :
  let rs := table_run error_text now rqs ∅ in
  rqs !! j = Some (dt, RqValidate o c h) → rs !! j = Some (RsValidate (Ok tt)) →
  let ss := session_at (table_end now (take j rqs) ∅).2 c (session_id h) in
  (counter ss = generation h ∧
   ∃ p, live (sent_at now rqs j) ss = Some (owner_runtime_id h, p)) ∧
  (∃ i dt' rq t, i < j ∧ rqs !! i = Some (dt', rq) ∧
     keeps c (session_id h) (owner_runtime_id h) rq = Some t ∧
     (sent_at now rqs j < sent_at now rqs i + t)%Z) ∧
  (∀ i dt' o' l x, i < j → rqs !! i = Some (dt', RqRelease o' l) →
     rs !! i = Some (RsRelease (Some (Ok (Released x)))) →
     l_community_id l = c → l_session_id l = session_id h →
     (l_generation l < generation h)%Z).
Proof.
  intros rs Hrq Hj. pose proof (table_run_at _ _ _ _ _ _ _ Hrq Hj) as Hv. symmetry in Hv.
  apply table_validated in Hv as [Hc (p & Hl)].
  rewrite <- (sent_at_end now rqs ∅ j dt _ Hrq) in Hl.
  pose proof Hl as Hl'. apply live_held in Hl' as (d & Hh & Hlt).
  split_and!; [done|by exists p|by eapply table_kept|].
  intros i dt' o' l x Hij Hrq' Hi <- Hs. rewrite <- Hc, <- Hs in *.
  eapply table_release_ends; eauto.
Qed.

End histories.

(** ** The directory's theorems *)

Section theorems.
Context `{RedisLaws}.
Context (error_text : DirectoryError → string).

Definition empty_at (now : Z) (r : store) : Prop := ∀ t k, (now ≤ t)%Z → GET t k r = None.

(** C25 The Redis-backed directory refines a table of leases: for any history of calls by
    any runtimes at any times, with any pattern of failed guards, pools and connections,
    the answers computed from the Lua scripts and the strings in Redis are those of the
    abstract table, which keeps a counter and at most one lease per session; no call
    panics. *)
Theorem directory_refines_lease_table (now : Z) (r : store) (rqs : list (Z * request)) :
  empty_at now r → Forall request_ok rqs →
  run error_text now rqs r = table_run error_text now rqs ∅.
Proof. intros He Hall. apply table_run_refines; [|done]. by apply empty_store_rel. Qed.

(** C24 Fencing: in any history the generations of successive owners of a session strictly
    increase; once a generation was acquired, no header of an older one is ever accepted
    again; accepted headers never go back, with one owner per generation; and only the holder
    of the live lease passes. When a header is accepted, the table that the directory refines
    has at that time an unexpired lease of its session with its owner and generation; its
    owner asked for the lease, or renewed it, less than the time to live of that request ago;
    and no answered release of that lease, or of a later one, came before. *)
Theorem fencing_safety (now : Z) (r : store) (rqs : list (Z * request)) :
  empty_at now r → Forall request_ok rqs →
  let rs := run error_text now rqs r in
  (∀ i j l l', i < j → rs !! i = Some (RsAcquire (Ok (Acquired l))) →
     rs !! j = Some (RsAcquire (Ok (Acquired l'))) →
     l_community_id l = l_community_id l' → l_session_id l = l_session_id l' →
     (l_generation l < l_generation l')%Z) ∧
  (∀ i j l dt o h, i < j → rs !! i = Some (RsAcquire (Ok (Acquired l))) →
     rqs !! j = Some (dt, RqValidate o (l_community_id l) h) →
     session_id h = l_session_id l → (generation h < l_generation l)%Z →
     rs !! j ≠ Some (RsValidate (Ok tt))) ∧
  (∀ i j dt dt' o o' c h h', i < j →
     rqs !! i = Some (dt, RqValidate o c h) → rs !! i = Some (RsValidate (Ok tt)) →
     rqs !! j = Some (dt', RqValidate o' c h') → rs !! j = Some (RsValidate (Ok tt)) →
     session_id h = session_id h' →
     (generation h ≤ generation h')%Z ∧
     (generation h = generation h' → owner_runtime_id h = owner_runtime_id h')) ∧
  (∀ j dt o c h, rqs !! j = Some (dt, RqValidate o c h) → rs !! j = Some (RsValidate (Ok tt)) →
     let ss := session_at (table_end error_text now (take j rqs) ∅).2 c (session_id h) in
     (counter ss = generation h ∧
      ∃ p, live (sent_at now rqs j) ss = Some (owner_runtime_id h, p)) ∧
     (∃ i dt' rq t, i < j ∧ rqs !! i = Some (dt', rq) ∧
        keeps c (session_id h) (owner_runtime_id h) rq = Some t ∧
        (sent_at now rqs j < sent_at now rqs i + t)%Z) ∧
     (∀ i dt' o' l x, i < j → rqs !! i = Some (dt', RqRelease o' l) →
        rs !! i = Some (RsRelease (Some (Ok (Released x)))) →
        l_community_id l = c → l_session_id l = session_id h →
        (l_generation l < generation h)%Z)).
Proof.
  intros He Hall rs. unfold rs. rewrite (table_run_refines _ _ _ _ ∅) by (done || by apply empty_store_rel).
  assert (∀ i x, table_run error_text now rqs ∅ !! i = Some x → ∃ dt rq, rqs !! i = Some (dt, rq))
    as Hreq.
  { intros i x Hx. destruct (lookup_lt_is_Some_2 rqs i) as [[dt rq] ?]; [|eauto].
    rewrite <- (table_run_length error_text now rqs ∅). by eapply lookup_lt_Some. }
  split_and!.
  - intros i j l l' Hij Hi Hj Hc Hs. destruct (Hreq _ _ Hi) as (dt & rq & Hrq).
    destruct (Hreq _ _ Hj) as (dt' & rq' & Hrq').
    pose proof (table_run_at error_text _ _ _ _ _ _ _ Hrq Hi) as H3.
    pose proof (table_run_at error_text _ _ _ _ _ _ _ Hrq' Hj) as H4.
    symmetry in H3, H4.
    apply table_acquired in H3 as (? & ? & ? & _ & _ & _ & Hat).
    apply table_acquired in H4 as (? & ? & ? & _ & _ & Hg' & _).
    pose proof (table_run_between error_text now rqs ∅ i j dt rq (l_community_id l)
                  (l_session_id l) Hij Hrq) as [Hle _].
    rewrite Hat in Hle. simpl in Hle. rewrite <- Hc, <- Hs in Hg'. lia.
  - intros i j l dt o h Hij Hi Hrq' Hs Hg Hj. destruct (Hreq _ _ Hi) as (dt0 & rq & Hrq).
    pose proof (table_run_at error_text _ _ _ _ _ _ _ Hrq Hi) as H3.
    pose proof (table_run_at error_text _ _ _ _ _ _ _ Hrq' Hj) as H4.
    symmetry in H3, H4.
    apply table_acquired in H3 as (? & ? & ? & _ & _ & _ & Hat).
    apply table_validated in H4 as [Hc _].
    pose proof (table_run_between error_text now rqs ∅ i j dt0 rq (l_community_id l)
                  (l_session_id l) Hij Hrq) as [Hle _].
    rewrite Hat in Hle. simpl in Hle. rewrite Hs in Hc. lia.
  - intros i j dt dt' o o' c h h' Hij Hrq Hi Hrq' Hj Hs.
    pose proof (table_run_at error_text _ _ _ _ _ _ _ Hrq Hi) as H3.
    pose proof (table_run_at error_text _ _ _ _ _ _ _ Hrq' Hj) as H4.
    symmetry in H3, H4.
    apply table_validated in H3 as [Hc (p & Hl)]. apply table_validated in H4 as [Hc' (p' & Hl')].
    pose proof (table_run_between error_text now rqs ∅ i j dt _ c (session_id h) Hij Hrq)
      as [Hle Hsame].
    simpl in Hle, Hsame. rewrite Hs in *. split; [lia|]. intros Heq.
    apply live_held in Hl as (d & Hh & _). apply live_held in Hl' as (d' & Hh' & _).
    destruct (Hsame ltac:(lia) _ _ _ Hh') as [d0 Hh0]. congruence.
  - intros j dt o c h. apply table_accepted.
Qed.

(** Takeover after a crash: an owner that acquired a lease and then stays silent keeps
    it for exactly its time to live. A second runtime that asks within that time is told
    of the owner, and from its end on acquires the session under the next generation. *)
Theorem silent_owner_is_replaced (now : Z) (r : store) (rqs : list (Z * request))
    (o o' : Outcome) (ttl ttl' t dt dt' : Z) (c : CommunityId) (s : Uuid)
    (owner owner' : RuntimeId) (p p' : Profile) (l : SessionLease) :
  empty_at now r →
  Forall request_ok (rqs ++ [(dt, RqAcquire o ttl c s owner p);
                             (dt', RqAcquire o' ttl' c s owner' p')]) →
  ttl_ms ttl = Ok t → is_ok (ttl_ms ttl') = true →
  guard o' = NoDb → pool_error o' = None → reply o' = None → runs o' = true →
  last (run error_text now (rqs ++ [(dt, RqAcquire o ttl c s owner p)]) r)
    = Some (RsAcquire (Ok (Acquired l))) →
  (l_generation l + 1 < LUA_EXACT)%Z →
  last (run error_text now (rqs ++ [(dt, RqAcquire o ttl c s owner p);
                                    (dt', RqAcquire o' ttl' c s owner' p')]) r)
    = Some (RsAcquire (Ok (if (dt' <? t)%Z then Exists l
        else Acquired {| l_community_id := c; l_session_id := s; l_owner_runtime_id := owner';
                         l_generation := l_generation l + 1; l_profile := p' |}))).
Proof.
  intros He Hall Ht Ht' Hg Hpool Hrep Hruns.
  rewrite !(table_run_refines _ _ _ _ ∅); try (by apply empty_store_rel); [|done|].
  2:{ change (rqs ++ ?a :: ?b) with (rqs ++ [a] ++ b) in Hall. rewrite app_assoc in Hall.
      by apply Forall_app in Hall as [? _]. }
  rewrite !table_run_app, !last_app. simpl.
  set (now0 := (table_end error_text now rqs ∅).1). set (T := (table_end error_text now rqs ∅).2).
  pose proof (table_acquired error_text (now0 + dt) (RqAcquire o ttl c s owner p) T l) as Hacq.
  cbn [table_serve] in Hacq |- *. cbn [snd fst] in *. intros Hl Hlua. injection Hl as Hl.
  destruct Hacq as (o1 & ttl1 & t1 & [= <- <- Hc Hs _ _] & Heff & _ & Hat); [by rewrite Hl|].
  rewrite Ht in *. rewrite <- Hc, <- Hs in Hat.
  assert (t1 = t) as ->.
  { unfold effective in Heff. destruct (guard o), (pool_error o), (runs o); congruence. }
  apply attempt_Ok in Hl as [Hl _]. apply claim_answer_Acquired in Hl as (_ & _ & Hlt & ->).
  simpl in *. rewrite Heff in *. do 3 f_equal.
  unfold attempt, is_ok in *. rewrite Hg, Hpool, Hrep, Hruns.
  destruct (ttl_ms ttl'); [|done]. rewrite Hat. unfold claim_answer, live. simpl.
  replace (now0 + dt + dt' <? now0 + dt + t)%Z with (dt' <? t)%Z by
    (destruct (Z.ltb_spec dt' t), (Z.ltb_spec (now0 + dt + dt') (now0 + dt + t)); lia).
  unfold read_lease. destruct (dt' <? t)%Z; simpl.
  - by rewrite (proj2 (Z.ltb_lt _ _) Hlt).
  - rewrite (proj2 (Z.eqb_neq _ _)) by (unfold LUA_EXACT, i64_max in *; lia).
    by rewrite (proj2 (Z.ltb_lt _ _) Hlua).
Qed.

End theorems.

(** ** A concrete Redis, for the witnesses *)

Module Toy.

Definition entry : Type := string * option Z.

Definition get (t : Z) (k : string) (r : gmap string entry) : option string :=
  '(v, e) ← r !! k; if is_none_or (λ d, t <? d)%Z e then Some v else None.

Definition incr (t : Z) (k : string) (r : gmap string entry) : gmap string entry * option Z :=
  match get t k r with
  | None => (<[k := (decimal 1, None)]> r, Some 1%Z)
  | Some v =>
      match parse_u64 v with
      | Some n =>
          if (n <? i64_max)%Z
          then (<[k := (decimal (n + 1), (r !! k) ≫= snd)]> r, Some (n + 1)%Z)
          else (r, None)
      | None => (r, None)
      end
  end.

#[export] Instance redis : Redis := {|
  store := gmap string entry;
  GET := get;
  INCR := incr;
  SET_PX := λ t k v ttl r, <[k := (v, Some (t + ttl)%Z)]> r;
  PEXPIRE := λ t k ttl r,
    match get t k r with
    | Some v => <[k := (v, Some (t + ttl)%Z)]> r | None => delete k r end;
  DEL := λ _ k r, delete k r;
  lua_tostring := λ n, if (n <? LUA_EXACT)%Z then decimal n else "e"
|}.

Definition hex_value (a : Ascii.ascii) : option Z :=
  let n := Z.of_N (Ascii.N_of_ascii a) in
  if ((48 <=? n) && (n <=? 57))%Z then Some (n - 48)%Z
  else if ((97 <=? n) && (n <=? 102))%Z then Some (n - 87)%Z else None.

Fixpoint unhex (s : string) : option (list Z) :=
  match s with
  | EmptyString => Some []
  | String a (String b s) =>
      x ← hex_value a; y ← hex_value b; l ← unhex s; Some ((x * 16 + y)%Z :: l)
  | _ => None
  end.

#[export] Instance texts : IdText := {|
  uuid_to_string := λ u, decimal (Z.of_N u);
  hex_decode := unhex
|}.

Lemma hex_value_digit (x : N) : (x < 16)%N → hex_value (hex_digit x) = Some (Z.of_N x).
Proof.
  intros Hx. destruct x as [|p]; [done|]. do 4 (destruct p as [p|p|]; try done; try lia).
Qed.

Lemma unhex_digits (n : nat) (x : N) (acc : string) (l : list Z) :
  unhex acc = Some l → unhex (hex_digits (n * 2) x acc) = Some (be_bytes n (Z.of_N x) ++ l).
Proof.
  revert x acc l. induction n as [|n IH]; intros x acc l Hacc; [done|]. simpl hex_digits.
  rewrite (IH _ _ ((Z.of_N x mod 256)%Z :: l)).
  - change (be_bytes (S n) (Z.of_N x))
      with (be_bytes n (Z.of_N x / 256)%Z ++ [(Z.of_N x mod 256)%Z]).
    rewrite <- app_assoc. simpl. do 3 f_equal. rewrite N.Div0.div_div. by rewrite N2Z.inj_div.
  - cbn [unhex]. rewrite !hex_value_digit by (apply N.mod_lt; lia). simpl. rewrite Hacc. simpl.
    do 2 f_equal. change 256%Z with (Z.of_N (16 * 16)). rewrite <- N2Z.inj_mod.
    rewrite N.Div0.mod_mul_r. lia.
Qed.

#[export] Instance laws : RedisLaws.
Proof.
  assert (∀ n, decimal n = decimal (Z.max 0 n)) as Hmax.
  { intros n. unfold decimal. f_equal. lia. }
  split; cbn [redis texts GET INCR SET_PX PEXPIRE DEL lua_tostring uuid_to_string hex_decode store].
  - intros t t' k k' v ttl r Ht. unfold get. case_decide as Hk; [subst k'|].
    + rewrite lookup_insert_eq. done.
    + by rewrite lookup_insert_ne.
  - intros t t' k k' ttl r Ht. destruct (get t k r) as [v|] eqn:Hg; unfold get at 1;
      (case_decide as Hk; [subst k'|]).
    + rewrite lookup_insert_eq. done.
    + by rewrite lookup_insert_ne.
    + rewrite lookup_delete_eq. by destruct (_ <? _)%Z.
    + by rewrite lookup_delete_ne.
  - intros t t' k k' r Ht. unfold get. case_decide as Hk; [subst k'|].
    + by rewrite lookup_delete_eq.
    + by rewrite lookup_delete_ne.
  - intros t k r Hg. unfold incr. rewrite Hg. split; [done|]. intros t' k' Ht. simpl.
    unfold get. case_decide as Hk; [subst k'; by rewrite lookup_insert_eq|by rewrite lookup_insert_ne].
  - intros t k r n Hg Hn. unfold incr. rewrite Hg.
    rewrite parse_u64_decimal by (unfold i64_max, u64_max in *; lia).
    rewrite (proj2 (Z.ltb_lt _ _)) by lia. split; [done|]. intros t' k' Ht. simpl.
    unfold get in *. case_decide as Hk; [subst k'|by rewrite lookup_insert_ne].
    rewrite lookup_insert_eq. destruct (r !! k) as [[v e]|]; [|done]. simpl.
    by destruct (is_none_or _ e).
  - intros t k r Hg. unfold incr. rewrite Hg. done.
  - intros n Hn. by rewrite (proj2 (Z.ltb_lt _ _)) by lia.
  - intros n Hn. by rewrite (proj2 (Z.ltb_ge _ _)) by lia.
  - intros n. destruct (n <? _)%Z; [|done]. split; [apply decimal_not_empty|].
    rewrite Hmax. apply decimal_contains; [lia|done].
  - intros u v Huv. apply decimal_inj in Huv; lia.
  - intros u. apply decimal_contains; [lia|done].
  - intros id Hid. unfold to_hex. change 64 with (32 * 2).
    by rewrite (unhex_digits 32 id "" []), app_nil_r.
Qed.

Definition healthy : Outcome := {| guard := NoDb; pool_error := None; runs := true; reply := None |}.
Definition lost_reply : Outcome :=
  {| guard := NoDb; pool_error := None; runs := true; reply := Some "reset" |}.

(** Runtime 7 owns the session, its second acquisition's reply is lost, it crashes, and
    runtime 9 takes over; a late frame of runtime 7 is then refused. *)
Definition history : list (Z * request) :=
  [ (0%Z, RqAcquire healthy DEFAULT_LEASE_TTL 1 2 7 ReliableStream);
    (5%Z, RqValidate healthy 1 {| session_id := 2; generation := 1; owner_runtime_id := 7 |});
    (20000%Z, RqAcquire healthy DEFAULT_LEASE_TTL 1 2 9 ReliableStream);
    (20000%Z, RqAcquire healthy DEFAULT_LEASE_TTL 1 2 9 ReliableStream);
    (1%Z, RqValidate healthy 1 {| session_id := 2; generation := 1; owner_runtime_id := 7 |});
    (1%Z, RqValidate healthy 1 {| session_id := 2; generation := 2; owner_runtime_id := 9 |});
    (1%Z, RqRelease lost_reply {| l_community_id := 1; l_session_id := 2; l_owner_runtime_id := 9;
                                l_generation := 2; l_profile := ReliableStream |}) ].

End Toy.

Section witnesses.
#[local] Existing Instance Toy.redis.
#[local] Existing Instance Toy.texts.
#[local] Existing Instance Toy.laws.

Lemma toy_empty (now : Z) : empty_at now (∅ : store).
Proof. intros t k _. simpl. unfold Toy.get. by rewrite lookup_empty. Qed.

Lemma toy_history_ok : Forall request_ok Toy.history.
Proof. repeat constructor; done. Qed.

Lemma directory_refines_lease_table_witness :
  run (λ _, "") 0 Toy.history (∅ : store) = table_run (λ _, "") 0 Toy.history ∅ ∧
  run (λ _, "") 0 Toy.history (∅ : store) !! 3 = Some (RsAcquire (Ok (Acquired
    {| l_community_id := 1; l_session_id := 2; l_owner_runtime_id := 9; l_generation := 2;
       l_profile := ReliableStream |}))).
Proof.
  assert (run (λ _, "") 0 Toy.history (∅ : store) = table_run (λ _, "") 0 Toy.history ∅) as Hr
    by (apply (directory_refines_lease_table (λ _, "") 0 ∅ Toy.history (toy_empty 0) toy_history_ok)).
  split; [exact Hr|]. rewrite Hr. vm_compute. reflexivity.
Defined.

Lemma fencing_safety_witness :
  let rs := run (λ _, "") 0 Toy.history (∅ : store) in
  rs !! 4 ≠ Some (RsValidate (Ok tt)) ∧ rs !! 5 = Some (RsValidate (Ok tt)) ∧
  ∃ i dt rq t, i < 5 ∧ Toy.history !! i = Some (dt, rq) ∧ keeps 1 2 9 rq = Some t ∧
    (sent_at 0 Toy.history 5 < sent_at 0 Toy.history i + t)%Z.
Proof.
  destruct (fencing_safety (λ _, "") 0 ∅ Toy.history (toy_empty 0) toy_history_ok)
    as (_ & Hold & _ & Hlive).
  split_and!; [|vm_compute; reflexivity|].
  - eapply (Hold 3 4 _ _ Toy.healthy); [lia|vm_compute; reflexivity|reflexivity|reflexivity|reflexivity].
  - eapply (Hlive 5 _ Toy.healthy 1%N _ eq_refl). vm_compute. reflexivity.
Defined.

Lemma silent_owner_is_replaced_witness :
  last (run (λ _, "") 0 [(0%Z, RqAcquire Toy.healthy DEFAULT_LEASE_TTL 1 2 7 ReliableStream);
                         (30000%Z, RqAcquire Toy.healthy DEFAULT_LEASE_TTL 1 2 9 ReliableStream)]
              (∅ : store))
  = Some (RsAcquire (Ok (Acquired
    {| l_community_id := 1; l_session_id := 2; l_owner_runtime_id := 9; l_generation := 2;
       l_profile := ReliableStream |}))).
Proof.
  apply (silent_owner_is_replaced (λ _, "") 0 ∅ [] Toy.healthy Toy.healthy DEFAULT_LEASE_TTL
    DEFAULT_LEASE_TTL 30000 0 30000 1 2 7 9 ReliableStream ReliableStream
    {| l_community_id := 1; l_session_id := 2; l_owner_runtime_id := 7; l_generation := 1;
       l_profile := ReliableStream |} (toy_empty 0)); try reflexivity.
  repeat constructor; done.
Defined.

End witnesses.
