(* ===== verification/AudioRoom.v ===== *)
(** * Audio rooms (buzz-relay/src/audio/room.rs, mesh.rs, wire.rs)

    The peer registry of a huddle, its fan-out, the registry of rooms and the delivery of
    media that arrives over the mesh.

    A tokio [mpsc] channel is a bounded queue with two flags, sender and receiver alive; the
    channels of a room are kept in a store, under the id of the peer they were made for,
    because the room holds one end and the peer's connection the other. [Arc<Room>] handles
    are keys of a store of rooms, so a handle can outlive the room's entry in the manager.
    [roster_tx] is the list of the deltas it sent. [poisoned] says whether the guard's mutex
    is. Peer ids ([Uuid::new_v4]) are parameters. A loop over the peers of a room touches
    one channel per peer, so its order does not matter. *)

From S2P Require Import Prelude Filter Gossip Wire.

Open Scope string_scope.
Open Scope nat_scope.
Open Scope list_scope.

Abbreviation Bytes := (list Z) (only parsing).
Abbreviation PeerId := N (only parsing).

(** ** Bounded channels *)

Record Chan (A : Type) := { queue : list A; capacity : nat; tx_alive : bool; rx_alive : bool }.
Arguments queue {A} c.
Arguments capacity {A} c.
Arguments tx_alive {A} c.
Arguments rx_alive {A} c.

Definition channel {A} (n : nat) : Chan A :=
  {| queue := []; capacity := n; tx_alive := true; rx_alive := true |}.

(** [Sender::try_send]: [None] when the receiver is gone or the queue is full *)
Definition try_send {A} (c : Chan A) (x : A) : option (Chan A) :=
  if rx_alive c && (length (queue c) <? capacity c) then
    Some {| queue := queue c ++ [x]; capacity := capacity c; tx_alive := tx_alive c;
            rx_alive := rx_alive c |}
  else None.

Definition drop_tx {A} (c : Chan A) : Chan A :=
  {| queue := queue c; capacity := capacity c; tx_alive := false; rx_alive := rx_alive c |}.

Definition drop_rx {A} (c : Chan A) : Chan A :=
  {| queue := []; capacity := capacity c; tx_alive := tx_alive c; rx_alive := false |}.

(** [Receiver::recv], without its waiting *)
Definition recv {A} (c : Chan A) : Chan A * option A :=
  match queue c with
  | x :: q => ({| queue := q; capacity := capacity c; tx_alive := tx_alive c;
                  rx_alive := rx_alive c |}, Some x)
  | [] => (c, None)
  end.

(** ** Data *)

Definition AUDIO_CHANNEL_CAPACITY : nat := 8.
Definition CTRL_CHANNEL_CAPACITY : nat := 32.
Definition MAX_PEERS_PER_ROOM : nat := 25.

Inductive PeerCtrl := Json (s : string) | Close.

(** [attached]: the control sender is the one made at admission, not its replacement *)
Record AudioPeer := {
  pubkey : string;
  attached : bool;
  peer_index : Z;
  epoch : Z;
  protocol_version : Z
}.

Record RosterPeer := { rp_pubkey : string; rp_index : Z; rp_epoch : Z }.

Record RosterSnapshot := { s_revision : Z; s_peers : list RosterPeer }.

Record RosterDelta := {
  d_revision : Z;
  d_joined : option RosterPeer;
  d_left : option RosterPeer
}.

#[export] Instance RosterPeer_eq_dec : EqDecision RosterPeer.
Proof. solve_decision. Defined.

Inductive AdmissionError := Ended | Full | VersionMismatch (pinned requested : Z).

Record AdmissionGuard := {
  next_candidate : Z;
  active_indices : gset Z;
  index_epochs : gmap Z Z;
  ended : bool;
  pinned_version : option Z;
  roster_revision : Z
}.

Definition guard_new : AdmissionGuard :=
  {| next_candidate := 0; active_indices := ∅; index_epochs := ∅; ended := false;
     pinned_version := None; roster_revision := 0 |}.

Record Room := {
  community_id : CommunityId;
  channel_id : Uuid;
  peers : gmap PeerId AudioPeer;
  guard : AdmissionGuard;
  poisoned : bool;
  roster_tx : list RosterDelta;
  audio : gmap PeerId (Chan Bytes);
  ctrl : gmap PeerId (Chan PeerCtrl)
}.

Definition room_new (c : CommunityId) (ch : Uuid) : Room :=
  {| community_id := c; channel_id := ch; peers := ∅; guard := guard_new; poisoned := false;
     roster_tx := []; audio := ∅; ctrl := ∅ |}.

Definition set_ended (b : bool) (g : AdmissionGuard) : AdmissionGuard :=
  {| next_candidate := next_candidate g; active_indices := active_indices g;
     index_epochs := index_epochs g; ended := b; pinned_version := pinned_version g;
     roster_revision := roster_revision g |}.

Definition set_guard (r : Room) (g : AdmissionGuard) : Room :=
  {| community_id := community_id r; channel_id := channel_id r; peers := peers r; guard := g;
     poisoned := poisoned r; roster_tx := roster_tx r; audio := audio r; ctrl := ctrl r |}.

(** ** The admission guard *)

(** [u8] addition in a release build *)
Definition u8_succ (x : Z) : Z := ((x + 1) mod 256)%Z.

Definition rotate (idx : Z) : Z := if (idx =? 254)%Z then 0%Z else u8_succ idx.

Definition next_epoch_for (g : AdmissionGuard) (idx : Z) : AdmissionGuard * Z :=
  let e := default 0%Z (index_epochs g !! idx) in
  ({| next_candidate := next_candidate g; active_indices := active_indices g;
      index_epochs := <[idx := u8_succ e]> (index_epochs g); ended := ended g;
      pinned_version := pinned_version g; roster_revision := roster_revision g |}, e).

Definition probe (g : AdmissionGuard) (idx : Z) : AdmissionGuard :=
  {| next_candidate := rotate idx; active_indices := {[idx]} ∪ active_indices g;
     index_epochs := index_epochs g; ended := ended g; pinned_version := pinned_version g;
     roster_revision := roster_revision g |}.

(** [for _ in 0..n]: probe, and take the first identity that is not active *)
Fixpoint alloc_loop (n : nat) (g : AdmissionGuard) : AdmissionGuard * option (Z * Z) :=
  match n with
  | 0 => (g, None)
  | S n =>
      let idx := next_candidate g in
      if decide (idx ∈ active_indices g) then alloc_loop n (probe g idx)
      else let '(g, e) := next_epoch_for (probe g idx) idx in (g, Some (idx, e))
  end.

Definition alloc (g : AdmissionGuard) : AdmissionGuard * option (Z * Z) := alloc_loop 255 g.

(** ** Room operations *)

Definition is_empty (r : Room) : bool := bool_decide (peers r = ∅).

Definition mark_ended (r : Room) : Room * bool :=
  if poisoned r then (r, false)
  else (set_guard r (set_ended true (guard r)), is_empty r).

Definition clear_ended (r : Room) : Room :=
  if poisoned r then r else set_guard r (set_ended false (guard r)).

Definition roster_peer (p : AudioPeer) : RosterPeer :=
  {| rp_pubkey := pubkey p; rp_index := peer_index p; rp_epoch := epoch p |}.

(** [pinned_version.get_or_insert(v)] and the bump of the roster revision *)
Definition admit_guard (g : AdmissionGuard) (version : Z) : AdmissionGuard :=
  {| next_candidate := next_candidate g; active_indices := active_indices g;
     index_epochs := index_epochs g; ended := ended g;
     pinned_version := Some (default version (pinned_version g));
     roster_revision := u64_wrapping_add (roster_revision g) 1 |}.

(** The end of both admissions: the peer, its channels and the published delta *)
Definition insert_peer (r : Room) (g : AdmissionGuard) (id : PeerId) (p : AudioPeer) : Room :=
  let g := admit_guard g (protocol_version p) in
  {| community_id := community_id r; channel_id := channel_id r;
     peers := <[id := p]> (peers r); guard := g; poisoned := poisoned r;
     roster_tx := roster_tx r ++ [{| d_revision := roster_revision g;
                                     d_joined := Some (roster_peer p); d_left := None |}];
     audio := <[id := channel AUDIO_CHANNEL_CAPACITY]> (audio r);
     ctrl := <[id := channel CTRL_CHANNEL_CAPACITY]> (ctrl r) |}.

Definition mismatch (g : AdmissionGuard) (requested : Z) : option Z :=
  pinned ← pinned_version g; if decide (pinned ≠ requested) then Some pinned else None.

(** The answer is the index, the epoch and the roster revision. *)
Definition add_peer (r : Room) (id : PeerId) (pk : string) (requested : Z)
  : Room * result (Z * Z * Z) AdmissionError :=
  let g := guard r in
  if poisoned r then (r, Err Ended)
  else if ended g then (r, Err Ended)
  else if MAX_PEERS_PER_ROOM <=? size (peers r) then (r, Err Full)
  else
    match mismatch g requested with
    | Some pinned => (r, Err (VersionMismatch pinned requested))
    | None =>
        match alloc g with
        | (g, None) => (set_guard r g, Err Full)
        | (g, Some (idx, e)) =>
            let r := insert_peer r g id
              {| pubkey := pk; attached := true; peer_index := idx; epoch := e;
                 protocol_version := requested |} in
            (r, Ok (idx, e, roster_revision (guard r)))
        end
    end.

Definition add_peer_at_index (r : Room) (id : PeerId) (pk : string) (requested idx : Z)
  : Room * result (Z * Z) AdmissionError :=
  let g := guard r in
  if poisoned r then (r, Err Ended)
  else if ended g then (r, Err Ended)
  else if (MAX_PEERS_PER_ROOM <=? size (peers r)) || bool_decide (idx ∈ active_indices g)
  then (r, Err Full)
  else
    match mismatch g requested with
    | Some pinned => (r, Err (VersionMismatch pinned requested))
    | None =>
        let '(g, e) := next_epoch_for (probe g idx) idx in
        let r := insert_peer r g id
          {| pubkey := pk; attached := true; peer_index := idx; epoch := e;
             protocol_version := requested |} in
        (r, Ok (e, roster_revision (guard r)))
    end.

(** Dropping a peer drops its senders; a replaced control sender was dropped before. *)
Definition take_peer (r : Room) (id : PeerId) (p : AudioPeer) (end_room : bool) : Room * RosterDelta :=
  let g := guard r in
  let revision := u64_wrapping_add (roster_revision g) 1 in
  let delta := {| d_revision := revision; d_joined := None; d_left := Some (roster_peer p) |} in
  ({| community_id := community_id r; channel_id := channel_id r; peers := delete id (peers r);
      guard := {| next_candidate := next_candidate g;
                  active_indices := active_indices g ∖ {[peer_index p]};
                  index_epochs := index_epochs g; ended := ended g || end_room;
                  pinned_version := pinned_version g; roster_revision := revision |};
      poisoned := poisoned r; roster_tx := roster_tx r ++ [delta];
      audio := alter drop_tx id (audio r); ctrl := alter drop_tx id (ctrl r) |}, delta).

Definition remove_peer (r : Room) (id : PeerId) : Room * option RosterDelta :=
  if poisoned r then (r, None)
  else
    match peers r !! id with
    | None => (r, None)
    | Some p => prod_map (λ r, r) Some (take_peer r id p false)
    end.

Definition remove_peer_and_check_ended (r : Room) (id : PeerId)
  : Room * option (RosterDelta * bool) :=
  if poisoned r then (r, None)
  else
    match peers r !! id with
    | None => (r, None)
    | Some p =>
        let should_end := negb (ended (guard r)) && bool_decide (delete id (peers r) = ∅) in
        let '(r, delta) := take_peer r id p should_end in (r, Some (delta, should_end))
    end.

(** ** Fan-out *)

(** [let _ = tx.try_send(x)] *)
Definition offer {A} (x : A) (c : Chan A) : Chan A := default c (try_send c x).

(** Offer a frame to the audio channel of every peer that [f] selects. *)
Definition send_audio (r : Room) (f : PeerId → AudioPeer → bool) (frame : Bytes) : Room :=
  {| community_id := community_id r; channel_id := channel_id r; peers := peers r;
     guard := guard r; poisoned := poisoned r; roster_tx := roster_tx r;
     audio := map_imap (λ id c,
       Some match peers r !! id with
            | Some p => if f id p then offer frame c else c
            | None => c
            end) (audio r);
     ctrl := ctrl r |}.

Definition prefix (p : AudioPeer) (frame : Bytes) : Bytes :=
  if (3 <=? protocol_version p)%Z then peer_index p :: epoch p :: frame else peer_index p :: frame.

Definition broadcast_frame (r : Room) (sender_id : PeerId) (frame : Bytes) : Room :=
  match peers r !! sender_id with
  | None => r
  | Some p => send_audio r (λ id _, negb (bool_decide (id = sender_id))) (prefix p frame)
  end.

Definition deliver_prefixed (r : Room) (author_index : Z) (prefixed : Bytes) : Room :=
  send_audio r (λ _ p, negb (peer_index p =? author_index)%Z) prefixed.

Definition replace_ctrl (p : AudioPeer) : AudioPeer :=
  {| pubkey := pubkey p; attached := false; peer_index := peer_index p; epoch := epoch p;
     protocol_version := protocol_version p |}.

(** [entry.ctrl_tx.try_send(m)]: a replaced sender always fails. *)
Definition ctrl_send (r : Room) (id : PeerId) (p : AudioPeer) (m : PeerCtrl)
  : option (Chan PeerCtrl) :=
  if attached p then ctrl r !! id ≫= λ c, try_send c m else None.

Definition broadcast_control (r : Room) (json : string) : Room :=
  {| community_id := community_id r; channel_id := channel_id r;
     peers := map_imap (λ id p,
       Some match ctrl_send r id p (Json json) with Some _ => p | None => replace_ctrl p end)
       (peers r);
     guard := guard r; poisoned := poisoned r; roster_tx := roster_tx r; audio := audio r;
     ctrl := map_imap (λ id c,
       Some match peers r !! id with
            | None => c
            | Some p =>
                match ctrl_send r id p (Json json) with Some c => c | None => drop_tx c end
            end) (ctrl r) |}.

(** ** Rosters *)

Definition roster_snapshot (r : Room) : RosterSnapshot :=
  {| s_revision := roster_revision (guard r);
     s_peers := sort_by_key rp_index (roster_peer <$> (map_to_list (peers r)).*2) |}.

Definition peer_pubkeys (r : Room) : list (string * Z) :=
  (λ p, (pubkey p, peer_index p)) <$> (map_to_list (peers r)).*2.

(** ** The manager of rooms; [heap] holds every room that was ever made *)

Record AudioRoomManager := {
  rooms : gmap (CommunityId * Uuid) N;
  heap : gmap N Room
}.

Definition manager_new : AudioRoomManager := {| rooms := ∅; heap := ∅ |}.

Definition get_or_create (m : AudioRoomManager) (c : CommunityId) (ch : Uuid)
  : AudioRoomManager * N :=
  match rooms m !! (c, ch) with
  | Some h => (m, h)
  | None =>
      let h := fresh (dom (heap m)) in
      ({| rooms := <[(c, ch) := h]> (rooms m); heap := <[h := room_new c ch]> (heap m) |}, h)
  end.

Definition get (m : AudioRoomManager) (c : CommunityId) (ch : Uuid) : option N :=
  rooms m !! (c, ch).

Definition get_unambiguous_by_channel (m : AudioRoomManager) (ch : Uuid) : option N :=
  match List.filter (λ e, bool_decide (e.1.2 = ch)) (map_to_list (rooms m)) with
  | [(_, h)] => Some h
  | _ => None
  end.

Definition cleanup_if_empty (m : AudioRoomManager) (c : CommunityId) (ch : Uuid)
  : AudioRoomManager * bool :=
  match rooms m !! (c, ch) with
  | Some h =>
      if is_some_and is_empty (heap m !! h)
      then ({| rooms := delete (c, ch) (rooms m); heap := heap m |}, true)
      else (m, false)
  | None => (m, false)
  end.

(** A call through an [Arc<Room>] *)
Definition with_room {A} (m : AudioRoomManager) (h : N) (f : Room → Room * A)
  : AudioRoomManager * option A :=
  match heap m !! h with
  | Some r => let '(r, a) := f r in ({| rooms := rooms m; heap := <[h := r]> (heap m) |}, Some a)
  | None => (m, None)
  end.

(** ** Fencing and delivery of mesh media (mesh.rs) *)

Abbreviation GenerationFloor := (gmap Uuid Z) (only parsing).

Inductive FenceVerdict := Accept (advanced : bool) | RejectStale (known : Z).

Definition check (seen : GenerationFloor) (session : Uuid) (gen : Z)
  : GenerationFloor * FenceVerdict :=
  match seen !! session with
  | Some known =>
      if (gen <? known)%Z then (seen, RejectStale known)
      else (if (known <? gen)%Z then <[session := gen]> seen else seen, Accept (known <? gen)%Z)
  | None => (<[session := gen]> seen, Accept false)
  end.

Definition forget (seen : GenerationFloor) (session : Uuid) : GenerationFloor :=
  delete session seen.

(** The delivery of an accepted datagram *)
Definition deliver_media (m : AudioRoomManager) (d : MeshDatagram) : AudioRoomManager :=
  match get_unambiguous_by_channel m (session_id (dg_fenced d)) with
  | None => m
  | Some h =>
      match dg_payload d with
      | [] => m
      | author_index :: rest =>
          (with_room m h (λ r, (deliver_prefixed r author_index (author_index :: rest), tt))).1
      end
  end.

Definition on_media_datagram (m : AudioRoomManager) (seen : GenerationFloor) (d : MeshDatagram)
  : AudioRoomManager * GenerationFloor * FenceVerdict :=
  let '(seen, verdict) := check seen (session_id (dg_fenced d)) (generation (dg_fenced d)) in
  match verdict with
  | RejectStale _ => (m, seen, verdict)
  | Accept _ => (deliver_media m d, seen, verdict)
  end.

(** [media_datagram] of join.rs: the frame a non-owner ships to the owner *)
Definition media_datagram (idx e version : Z) (fenced : FencedHeader) (seq : Z)
    (client_frame : Bytes) : MeshDatagram :=
  {| dg_fenced := fenced; dg_seq := seq;
     dg_payload := (if (3 <=? version)%Z then [idx; e] else [idx]) ++ client_frame |}.

(** ** The client frame header (wire.rs) *)

Definition V2_HEADER_LEN : nat := 8.
Definition FLAG_DTX : Z := 1.

Record FrameHeader := { h_seq : Z; h_ts_48k : Z; h_level_dbov : Z; h_flags : Z }.

Definition is_dtx (h : FrameHeader) : bool := negb (Z.land (h_flags h) FLAG_DTX =? 0)%Z.

(** [x as i8] *)
Definition as_i8 (x : Z) : Z := if (x <? 128)%Z then x else (x - 256)%Z.

Definition parse (bytes : Bytes) : option (FrameHeader * Bytes) :=
  match bytes with
  | b0 :: b1 :: b2 :: b3 :: b4 :: b5 :: b6 :: b7 :: rest =>
      let raw := as_i8 b6 in
      Some ({| h_seq := (b0 * 256 + b1)%Z;
               h_ts_48k := (((b2 * 256 + b3) * 256 + b4) * 256 + b5)%Z;
               h_level_dbov := if ((-127 <=? raw) && (raw <=? 0))%Z then raw else (-127)%Z;
               h_flags := b7 |}, rest)
  | _ => None
  end.
