(* ===== verification/AudioRoomSpec.v ===== *)
(** * Correctness of the audio rooms

    Histories of a room as sequences of operations, the invariant every history keeps, and
    the theorems on admission, control messages, fan-out, the end of a room, room handles and
    the delivery of mesh media. *)

From S2P Require Import Prelude Filter Gossip Wire AudioRoom.

Open Scope string_scope.
Open Scope nat_scope.
Open Scope list_scope.

(** ** Histories of a room *)

Inductive room_op :=
  | AddPeer (id : PeerId) (pk : string) (version : Z)
  | AddPeerAt (id : PeerId) (pk : string) (version idx : Z)
  | RemovePeer (id : PeerId)
  | RemovePeerAndCheck (id : PeerId)
  | MarkEnded
  | ClearEnded
  | BroadcastFrame (sender : PeerId) (frame : Bytes)
  | DeliverPrefixed (author : Z) (prefixed : Bytes)
  | BroadcastControl (json : string)
  | RecvAudio (id : PeerId)
  | RecvCtrl (id : PeerId)
  | DropAudioRx (id : PeerId)
  | DropCtrlRx (id : PeerId)
  | PoisonGuard.

Definition with_audio (r : Room) (a : gmap PeerId (Chan Bytes)) : Room :=
  {| community_id := community_id r; channel_id := channel_id r; peers := peers r;
     guard := guard r; poisoned := poisoned r; roster_tx := roster_tx r; audio := a;
     ctrl := ctrl r |}.

Definition with_ctrl (r : Room) (c : gmap PeerId (Chan PeerCtrl)) : Room :=
  {| community_id := community_id r; channel_id := channel_id r; peers := peers r;
     guard := guard r; poisoned := poisoned r; roster_tx := roster_tx r; audio := audio r;
     ctrl := c |}.

Definition poison (r : Room) : Room :=
  {| community_id := community_id r; channel_id := channel_id r; peers := peers r;
     guard := guard r; poisoned := true; roster_tx := roster_tx r; audio := audio r;
     ctrl := ctrl r |}.

Definition apply (o : room_op) (r : Room) : Room :=
  match o with
  | AddPeer id pk v => (add_peer r id pk v).1
  | AddPeerAt id pk v idx => (add_peer_at_index r id pk v idx).1
  | RemovePeer id => (remove_peer r id).1
  | RemovePeerAndCheck id => (remove_peer_and_check_ended r id).1
  | MarkEnded => (mark_ended r).1
  | ClearEnded => clear_ended r
  | BroadcastFrame s f => broadcast_frame r s f
  | DeliverPrefixed a f => deliver_prefixed r a f
  | BroadcastControl j => broadcast_control r j
  | RecvAudio id => with_audio r (alter (λ c, (recv c).1) id (audio r))
  | RecvCtrl id => with_ctrl r (alter (λ c, (recv c).1) id (ctrl r))
  | DropAudioRx id => with_audio r (alter drop_rx id (audio r))
  | DropCtrlRx id => with_ctrl r (alter drop_rx id (ctrl r))
  | PoisonGuard => poison r
  end.

Definition run (ops : list room_op) (r : Room) : Room := foldl (λ r o, apply o r) r ops.

(** A new peer gets an id that was never used, an index is a [u8]. *)
Definition op_ok (o : room_op) (r : Room) : Prop :=
  match o with
  | AddPeer id _ _ => ctrl r !! id = None
  | AddPeerAt id _ _ idx => ctrl r !! id = None ∧ (0 ≤ idx < 256)%Z
  | _ => True
  end.

Fixpoint ops_ok (ops : list room_op) (r : Room) : Prop :=
  match ops with
  | [] => True
  | o :: ops => op_ok o r ∧ ops_ok ops (apply o r)
  end.

(** ** The rosters published so far *)

(** What a listener makes of a delta: the departed index is freed, the new one taken. *)
Definition apply_delta (m : gmap Z RosterPeer) (d : RosterDelta) : gmap Z RosterPeer :=
  let m := match d_left d with Some p => delete (rp_index p) m | None => m end in
  match d_joined d with Some p => <[rp_index p := p]> m | None => m end.

Definition replay (m : gmap Z RosterPeer) (ds : list RosterDelta) : gmap Z RosterPeer :=
  foldl apply_delta m ds.

Definition by_index (l : list RosterPeer) : gmap Z RosterPeer :=
  list_to_map ((λ p, (rp_index p, p)) <$> l).

(** How often an index was given out *)
Definition occupants (ds : list RosterDelta) (idx : Z) : list RosterPeer :=
  List.filter (λ p, rp_index p =? idx)%Z (omap d_joined ds).

(** ** Well-formed rooms *)

Record room_ok (r : Room) : Prop := {
  ok_active i : i ∈ active_indices (guard r) ↔ ∃ id p, peers r !! id = Some p ∧ peer_index p = i;
  ok_unique id id' p p' : peers r !! id = Some p → peers r !! id' = Some p' →
    peer_index p = peer_index p' → id = id';
  ok_index id p : peers r !! id = Some p → (0 ≤ peer_index p < 256)%Z;
  ok_size : size (peers r) ≤ MAX_PEERS_PER_ROOM;
  ok_next : (0 ≤ next_candidate (guard r) < 255)%Z;
  ok_pin id p : peers r !! id = Some p → pinned_version (guard r) = Some (protocol_version p);
  ok_audio id p : peers r !! id = Some p → ∃ c, audio r !! id = Some c ∧ tx_alive c = true;
  ok_ctrl id p : peers r !! id = Some p → ∃ c, ctrl r !! id = Some c ∧ tx_alive c = attached p;
  ok_gone id c : ctrl r !! id = Some c → peers r !! id = None → tx_alive c = false;
  ok_cap_audio id c : audio r !! id = Some c →
    capacity c = AUDIO_CHANNEL_CAPACITY ∧ length (queue c) ≤ AUDIO_CHANNEL_CAPACITY;
  ok_cap_ctrl id c : ctrl r !! id = Some c →
    capacity c = CTRL_CHANNEL_CAPACITY ∧ length (queue c) ≤ CTRL_CHANNEL_CAPACITY;
  ok_revision : roster_revision (guard r) = (Z.of_nat (length (roster_tx r)) mod 2 ^ 64)%Z;
  ok_numbers i d : roster_tx r !! i = Some d → d_revision d = (Z.of_nat (S i) mod 2 ^ 64)%Z;
  ok_roster i x : replay ∅ (roster_tx r) !! i = Some x ↔
    ∃ id p, peers r !! id = Some p ∧ peer_index p = i ∧ roster_peer p = x;
  ok_epochs i : default 0%Z (index_epochs (guard r) !! i) =
    (Z.of_nat (length (occupants (roster_tx r) i)) mod 256)%Z;
  ok_occupants i k x : occupants (roster_tx r) i !! k = Some x →
    rp_epoch x = (Z.of_nat k mod 256)%Z;
  ok_latest id p : peers r !! id = Some p →
    last (occupants (roster_tx r) (peer_index p)) = Some (roster_peer p)
}.

(** *** Allocation *)

(** The [j]-th identity that an allocation probes *)
Definition candidate (g : AdmissionGuard) (j : nat) : Z :=
  ((next_candidate g + Z.of_nat j) mod 255)%Z.

Definition with_next (g : AdmissionGuard) (n : Z) : AdmissionGuard :=
  {| next_candidate := n; active_indices := active_indices g; index_epochs := index_epochs g;
     ended := ended g; pinned_version := pinned_version g; roster_revision := roster_revision g |}.

Definition occupy (g : AdmissionGuard) (idx : Z) : AdmissionGuard :=
  (next_epoch_for (probe g idx) idx).1.

Lemma rotate_mod (idx : Z) : (0 ≤ idx < 255)%Z → rotate idx = ((idx + 1) mod 255)%Z.
Proof.
  intros Hi. unfold rotate, u8_succ. destruct (Z.eqb_spec idx 254) as [->|]; [done|].
  by rewrite !Z.mod_small by lia.
Qed.

Lemma rotate_bound (idx : Z) : (0 ≤ idx < 256)%Z → (0 ≤ rotate idx < 255)%Z.
Proof.
  intros Hi. unfold rotate, u8_succ. destruct (Z.eqb_spec idx 254); [lia|].
  destruct (decide (idx = 255%Z)) as [->|]; [done|]. rewrite Z.mod_small by lia. lia.
Qed.

Lemma probe_active (g : AdmissionGuard) (idx : Z) :
  idx ∈ active_indices g → probe g idx = with_next g (rotate idx).
Proof. intros Hi. unfold probe, with_next. f_equal. set_solver. Qed.

Lemma candidate_0 (g : AdmissionGuard) :
  (0 ≤ next_candidate g < 255)%Z → candidate g 0 = next_candidate g.
Proof. intros Hn. unfold candidate. rewrite Z.add_0_r. by apply Z.mod_small. Qed.

Lemma candidate_S (g : AdmissionGuard) (j : nat) :
  (0 ≤ next_candidate g < 255)%Z →
  candidate (with_next g (rotate (next_candidate g))) j = candidate g (S j).
Proof.
  intros Hn. unfold candidate. simpl. rewrite rotate_mod by done.
  rewrite Zplus_mod_idemp_l. f_equal. lia.
Qed.

Lemma alloc_loop_spec (n : nat) (g : AdmissionGuard) :
  (0 ≤ next_candidate g < 255)%Z →
  match alloc_loop n g with
  | (g', Some (idx, e)) =>
      ∃ k, k < n ∧ idx = candidate g k ∧ (idx ∉ active_indices g) ∧
        (∀ j, j < k → candidate g j ∈ active_indices g) ∧
        e = default 0%Z (index_epochs g !! idx) ∧ g' = occupy g idx
  | (g', None) =>
      (∀ j, j < n → candidate g j ∈ active_indices g) ∧
      ∃ m, (0 ≤ m < 255)%Z ∧ g' = with_next g m
  end.
Proof.
  revert g. induction n as [|n IH]; intros g Hn; cbn [alloc_loop].
  { split; [lia|]. exists (next_candidate g). split; [done|]. by destruct g. }
  case_decide as Ha.
  - rewrite probe_active by done.
    specialize (IH (with_next g (rotate (next_candidate g)))).
    destruct (alloc_loop n _) as [g' [[idx e]|]].
    + destruct IH as (k & Hk & -> & Hni & Hall & -> & ->); [by apply rotate_bound; lia|].
      exists (S k). rewrite candidate_S in Hni |- * by done. simpl in Hni.
      split_and!; [lia|done|done| |done|done].
      intros [|j] Hj; [by rewrite candidate_0|]. rewrite <- candidate_S by done.
      apply Hall. lia.
    + destruct IH as (Hall & m & Hm & ->); [by apply rotate_bound; lia|].
      split; [|by exists m]. intros [|j] Hj; [by rewrite candidate_0|].
      rewrite <- candidate_S by done. apply Hall. lia.
  - simpl. exists 0. rewrite candidate_0 by done. split_and!; [lia|done|done|lia|done|done].
Qed.

(** The probes of one allocation reach every identity. *)
Lemma candidate_surj (g : AdmissionGuard) (i : Z) :
  (0 ≤ i < 255)%Z → ∃ j, j < 255 ∧ candidate g j = i.
Proof.
  intros Hi. exists (Z.to_nat ((i - next_candidate g) mod 255)).
  assert (0 ≤ (i - next_candidate g) mod 255 < 255)%Z as Hb by (apply Z.mod_pos_bound; lia).
  split; [lia|]. unfold candidate. rewrite Z2Nat.id by lia.
  rewrite Zplus_mod_idemp_r. replace (next_candidate g + (i - next_candidate g))%Z with i by lia.
  by apply Z.mod_small.
Qed.

Lemma active_size (r : Room) : room_ok r → size (active_indices (guard r)) ≤ size (peers r).
Proof.
  intros Hr.
  assert (active_indices (guard r) ⊆ list_to_set (peer_index <$> (map_to_list (peers r)).*2))
    as Hsub.
  { intros i (id & p & Hp & <-)%(ok_active _ Hr). apply elem_of_list_to_set, list_elem_of_fmap.
    exists p. split; [done|]. apply list_elem_of_fmap. exists (id, p). split; [done|].
    by apply elem_of_map_to_list. }
  apply subseteq_size in Hsub. etrans; [exact Hsub|].
  assert (∀ l : list Z, size (list_to_set l : gset Z) ≤ length l) as Hlen.
  { induction l as [|x l IH]; cbn [list_to_set length]; [by rewrite size_empty|].
    rewrite size_union_alt, size_singleton.
    pose proof (subseteq_size (list_to_set l ∖ {[x]} : gset Z) (list_to_set l) ltac:(set_solver)).
    lia. }
  etrans; [apply Hlen|]. by rewrite !length_fmap, length_map_to_list.
Qed.

Lemma alloc_succeeds (r : Room) : room_ok r →
  ∃ k, k < 255 ∧ (∀ j, j < k → candidate (guard r) j ∈ active_indices (guard r)) ∧
    (candidate (guard r) k ∉ active_indices (guard r)) ∧
    alloc (guard r) = (occupy (guard r) (candidate (guard r) k),
      Some (candidate (guard r) k, default 0%Z (index_epochs (guard r) !! candidate (guard r) k))).
Proof.
  intros Hr. pose proof (alloc_loop_spec 255 (guard r) (ok_next _ Hr)) as Ha.
  unfold alloc. destruct (alloc_loop 255 (guard r)) as [g' [[idx e]|]].
  - destruct Ha as (k & Hk & -> & Hni & Hall & -> & ->). by exists k.
  - destruct Ha as [Hall _]. exfalso.
    assert (list_to_set (Z.of_nat <$> seq 0 255) ⊆ active_indices (guard r)) as Hsub.
    { intros i (n & -> & Hn%elem_of_seq)%elem_of_list_to_set%list_elem_of_fmap.
      destruct (candidate_surj (guard r) (Z.of_nat n)) as (j & Hj & <-); [lia|]. by apply Hall. }
    apply subseteq_size in Hsub. rewrite size_list_to_set in Hsub by
      (apply NoDup_fmap; [intros x y; lia|apply NoDup_seq]).
    rewrite length_fmap, length_seq in Hsub.
    pose proof (active_size r Hr). pose proof (ok_size _ Hr). unfold MAX_PEERS_PER_ROOM in *. lia.
Qed.

(** *** The invariant is preserved *)

Lemma occupants_app (ds ds' : list RosterDelta) (i : Z) :
  occupants (ds ++ ds') i = occupants ds i ++ occupants ds' i.
Proof. unfold occupants. by rewrite omap_app, List.filter_app. Qed.

Lemma replay_snoc (m : gmap Z RosterPeer) (ds : list RosterDelta) (d : RosterDelta) :
  replay m (ds ++ [d]) = apply_delta (replay m ds) d.
Proof. unfold replay. by rewrite foldl_app. Qed.

Lemma u64_wrapping_succ (n : nat) :
  u64_wrapping_add (Z.of_nat n mod 2 ^ 64) 1 = (Z.of_nat (S n) mod 2 ^ 64)%Z.
Proof. unfold u64_wrapping_add. rewrite Zplus_mod_idemp_l. f_equal. lia. Qed.

Lemma u8_succ_mod (n : nat) :
  u8_succ (Z.of_nat n mod 256) = (Z.of_nat (S n) mod 256)%Z.
Proof. unfold u8_succ. rewrite Zplus_mod_idemp_l. f_equal. lia. Qed.

Lemma numbers_snoc (l : list RosterDelta) (d : RosterDelta) :
  (∀ i x, l !! i = Some x → d_revision x = (Z.of_nat (S i) mod 2 ^ 64)%Z) →
  d_revision d = (Z.of_nat (S (length l)) mod 2 ^ 64)%Z →
  ∀ i x, (l ++ [d]) !! i = Some x → d_revision x = (Z.of_nat (S i) mod 2 ^ 64)%Z.
Proof.
  intros Hl Hd i x [Hx|[Hi Hx]]%lookup_app_Some; [by apply Hl|].
  apply list_lookup_singleton_Some in Hx as [Hz <-]. rewrite Hd. do 2 f_equal. lia.
Qed.

Lemma room_new_ok (c : CommunityId) (ch : Uuid) : room_ok (room_new c ch).
Proof.
  split; simpl; try (intros *; rewrite ?lookup_empty; done).
  - intros i. split; [set_solver|]. by intros (id & p & Hp & _).
  - rewrite map_size_empty. unfold MAX_PEERS_PER_ROOM. lia.
  - intros i x. unfold replay. simpl. rewrite lookup_empty. split; [done|].
    by intros (id & p & Hp & _).
Qed.

Lemma insert_peer_ok (r : Room) (id : PeerId) (p : AudioPeer) :
  let g := guard r in
  room_ok r → ctrl r !! id = None → size (peers r) < MAX_PEERS_PER_ROOM →
  peer_index p ∉ active_indices g → (0 ≤ peer_index p < 256)%Z →
  mismatch g (protocol_version p) = None → attached p = true →
  epoch p = default 0%Z (index_epochs g !! peer_index p) →
  room_ok (insert_peer r (occupy g (peer_index p)) id p).
Proof.
  intros g. subst g. intros Hr Hfresh Hsize Hni Hidx Hpin Hatt Hep.
  assert (peers r !! id = None) as Hnone.
  { destruct (peers r !! id) as [q|] eqn:Hq; [|done].
    destruct (ok_ctrl _ Hr _ _ Hq) as (c & Hc & _). congruence. }
  assert (∀ i q, peers r !! i = Some q → peer_index q ≠ peer_index p) as Hother.
  { intros i q Hq Heq. apply Hni, (ok_active _ Hr). eauto. }
  unfold insert_peer. split; simpl.
  - intros i. rewrite elem_of_union, elem_of_singleton, (ok_active _ Hr). split.
    + intros [->|(id' & q & Hq & <-)].
      * exists id, p. by rewrite lookup_insert_eq.
      * exists id', q. split; [|done]. rewrite lookup_insert_ne; [done|congruence].
    + intros (id' & q & [[-> ->]|[_ Hq]]%lookup_insert_Some & <-); [by left|right; eauto].
  - intros i j q q' [[<- <-]|[Hi Hq]]%lookup_insert_Some [[<- <-]|[Hj Hq']]%lookup_insert_Some Heq;
      [done|by edestruct Hother|by edestruct Hother|by eapply ok_unique].
  - intros i q [[<- <-]|[_ Hq]]%lookup_insert_Some; [done|by eapply ok_index].
  - rewrite map_size_insert_None by done. lia.
  - by apply rotate_bound.
  - unfold mismatch in Hpin. intros i q [[<- <-]|[_ Hq]]%lookup_insert_Some.
    + destruct (pinned_version (guard r)) as [v|]; simpl in *; [|done].
      case_decide; [done|]. by f_equal.
    + by rewrite (ok_pin _ Hr _ _ Hq).
  - intros i q [[<- <-]|[Hne Hq]]%lookup_insert_Some.
    + exists (channel AUDIO_CHANNEL_CAPACITY). by rewrite lookup_insert_eq.
    + rewrite lookup_insert_ne by done. by eapply ok_audio.
  - intros i q [[<- <-]|[Hne Hq]]%lookup_insert_Some.
    + exists (channel CTRL_CHANNEL_CAPACITY). by rewrite lookup_insert_eq, Hatt.
    + rewrite lookup_insert_ne by done. by eapply ok_ctrl.
  - intros i c [[<- <-]|[Hne Hc]]%lookup_insert_Some; [by rewrite lookup_insert_eq|].
    rewrite lookup_insert_ne by done. by eapply ok_gone.
  - intros i c [[<- <-]|[_ Hc]]%lookup_insert_Some; [by simpl; split; [|lia]|by eapply ok_cap_audio].
  - intros i c [[<- <-]|[_ Hc]]%lookup_insert_Some; [by simpl; split; [|lia]|by eapply ok_cap_ctrl].
  - rewrite (ok_revision _ Hr), u64_wrapping_succ, length_app. simpl. do 2 f_equal. lia.
  - apply numbers_snoc; [apply (ok_numbers _ Hr)|]. simpl.
    by rewrite (ok_revision _ Hr), u64_wrapping_succ.
  - intros i x. rewrite replay_snoc. unfold apply_delta. simpl.
    destruct (decide (i = peer_index p)) as [->|Hne].
    + rewrite lookup_insert_eq. split.
      * intros [= <-]. exists id, p. by rewrite lookup_insert_eq.
      * intros (id' & q & [[<- <-]|[_ Hq]]%lookup_insert_Some & Heq & <-); [done|].
        by edestruct Hother.
    + rewrite lookup_insert_ne, (ok_roster _ Hr) by done. split.
      * intros (id' & q & Hq & ? & ?). exists id', q. split; [|done].
        rewrite lookup_insert_ne; [done|congruence].
      * intros (id' & q & [[<- <-]|[_ Hq]]%lookup_insert_Some & Heq & ?); [done|eauto].
  - intros i. rewrite occupants_app. unfold occupants at 2. simpl.
    destruct (Z.eqb_spec (peer_index p) i) as [<-|Hne].
    + rewrite lookup_insert_eq, length_app. simpl.
      rewrite (ok_epochs _ Hr), u8_succ_mod. do 2 f_equal. lia.
    + rewrite lookup_insert_ne, app_nil_r by done. apply (ok_epochs _ Hr).
  - intros i k x. rewrite occupants_app. unfold occupants at 2. simpl.
    destruct (Z.eqb_spec (peer_index p) i) as [<-|Hne].
    + intros [Hx|[Hk Hx]]%lookup_app_Some; [by eapply ok_occupants|].
      apply list_lookup_singleton_Some in Hx as [Hz <-]. simpl.
      rewrite Hep, (ok_epochs _ Hr). do 2 f_equal. lia.
    + rewrite app_nil_r. by eapply ok_occupants.
  - intros i q [[<- <-]|[Hne Hq]]%lookup_insert_Some; rewrite occupants_app; unfold occupants at 2;
      simpl.
    + by rewrite Z.eqb_refl, last_snoc.
    + rewrite (proj2 (Z.eqb_neq _ _)) by (apply not_eq_sym; eauto). rewrite app_nil_r.
      by eapply ok_latest.
Qed.

Lemma take_peer_ok (r : Room) (id : PeerId) (p : AudioPeer) (e : bool) :
  room_ok r → peers r !! id = Some p → room_ok (take_peer r id p e).1.
Proof.
  intros Hr Hp.
  assert (∀ i q, i ≠ id → peers r !! i = Some q → peer_index q ≠ peer_index p) as Hother.
  { intros i q Hne Hq Heq. apply Hne. by eapply ok_unique. }
  unfold take_peer. split; simpl.
  - intros i. rewrite elem_of_difference, elem_of_singleton, (ok_active _ Hr). split.
    + intros [(id' & q & Hq & <-) Hne]. exists id', q. split; [|done].
      rewrite lookup_delete_ne; [done|]. intros <-. congruence.
    + intros (id' & q & [Hne Hq]%lookup_delete_Some & <-). split; [eauto|]. by apply Hother with id'.
  - intros i j q q' [_ Hq]%lookup_delete_Some [_ Hq']%lookup_delete_Some. by eapply ok_unique.
  - intros i q [_ Hq]%lookup_delete_Some. by eapply ok_index.
  - rewrite map_size_delete_Some by eauto. pose proof (ok_size _ Hr). lia.
  - apply (ok_next _ Hr).
  - intros i q [_ Hq]%lookup_delete_Some. by eapply ok_pin.
  - intros i q [Hne Hq]%lookup_delete_Some. rewrite lookup_alter_ne by done. by eapply ok_audio.
  - intros i q [Hne Hq]%lookup_delete_Some. rewrite lookup_alter_ne by done. by eapply ok_ctrl.
  - intros i c Hc Hi. destruct (decide (id = i)) as [<-|Hne].
    + rewrite lookup_alter_eq in Hc. apply fmap_Some in Hc as (c' & _ & ->). done.
    + rewrite lookup_alter_ne in Hc by done. rewrite lookup_delete_ne in Hi by done.
      by eapply ok_gone.
  - intros i c. rewrite lookup_alter. case_decide as Hne.
    + intros (c' & Hc & ->)%fmap_Some. exact (ok_cap_audio _ Hr _ _ Hc).
    + by apply ok_cap_audio.
  - intros i c. rewrite lookup_alter. case_decide as Hne.
    + intros (c' & Hc & ->)%fmap_Some. exact (ok_cap_ctrl _ Hr _ _ Hc).
    + by apply ok_cap_ctrl.
  - rewrite (ok_revision _ Hr), u64_wrapping_succ, length_app. simpl. do 2 f_equal. lia.
  - apply numbers_snoc; [apply (ok_numbers _ Hr)|]. simpl.
    by rewrite (ok_revision _ Hr), u64_wrapping_succ.
  - intros i x. rewrite replay_snoc. unfold apply_delta. simpl.
    rewrite lookup_delete_Some, (ok_roster _ Hr). split.
    + intros (Hne & id' & q & Hq & <- & <-). exists id', q. split; [|done].
      rewrite lookup_delete_ne; [done|]. intros <-. congruence.
    + intros (id' & q & [Hne Hq]%lookup_delete_Some & <- & <-). split; [|eauto].
      apply not_eq_sym. by apply Hother with id'.
  - intros i. rewrite occupants_app. unfold occupants at 2. simpl. rewrite app_nil_r.
    apply (ok_epochs _ Hr).
  - intros i k x. rewrite occupants_app. unfold occupants at 2. simpl. rewrite app_nil_r.
    apply (ok_occupants _ Hr).
  - intros i q [_ Hq]%lookup_delete_Some. rewrite occupants_app. unfold occupants at 2. simpl.
    rewrite app_nil_r. by eapply ok_latest.
Qed.

(** Operations that only touch the channels, or a flag of the guard *)
Lemma same_roster_ok (r r' : Room) :
  room_ok r →
  active_indices (guard r') = active_indices (guard r) →
  index_epochs (guard r') = index_epochs (guard r) →
  pinned_version (guard r') = pinned_version (guard r) →
  roster_revision (guard r') = roster_revision (guard r) →
  (0 ≤ next_candidate (guard r') < 255)%Z →
  roster_tx r' = roster_tx r →
  (∀ id, option_map (λ p, (roster_peer p, protocol_version p)) (peers r' !! id)
       = option_map (λ p, (roster_peer p, protocol_version p)) (peers r !! id)) →
  (∀ id p, peers r' !! id = Some p → ∃ c, audio r' !! id = Some c ∧ tx_alive c = true) →
  (∀ id p, peers r' !! id = Some p → ∃ c, ctrl r' !! id = Some c ∧ tx_alive c = attached p) →
  (∀ id c, ctrl r' !! id = Some c → peers r' !! id = None → tx_alive c = false) →
  (∀ id c, audio r' !! id = Some c →
    capacity c = AUDIO_CHANNEL_CAPACITY ∧ length (queue c) ≤ AUDIO_CHANNEL_CAPACITY) →
  (∀ id c, ctrl r' !! id = Some c →
    capacity c = CTRL_CHANNEL_CAPACITY ∧ length (queue c) ≤ CTRL_CHANNEL_CAPACITY) →
  room_ok r'.
Proof.
  intros Hr Ha He Hpin Hrev Hn Htx Hp ? ? ? ? ?.
  assert (∀ id q, peers r' !! id = Some q → ∃ p, peers r !! id = Some p ∧
    roster_peer p = roster_peer q ∧ protocol_version p = protocol_version q) as Hto.
  { intros id q Hq. specialize (Hp id). rewrite Hq in Hp. destruct (peers r !! id) as [p|]; [|done].
    apply (inj Some), pair_equal_spec in Hp as [Hs Hv]. by exists p. }
  assert (∀ id p, peers r !! id = Some p → ∃ q, peers r' !! id = Some q ∧
    roster_peer p = roster_peer q ∧ protocol_version p = protocol_version q) as Hfrom.
  { intros id p Hq. specialize (Hp id). rewrite Hq in Hp. destruct (peers r' !! id) as [q|]; [|done].
    apply (inj Some), pair_equal_spec in Hp as [Hs Hv]. by exists q. }
  assert (∀ p q, roster_peer p = roster_peer q → peer_index p = peer_index q) as Hix
    by (intros p q [= _ ? _]; done).
  split; rewrite ?Ha, ?He, ?Hpin, ?Hrev, ?Htx; try done.
  - intros i. rewrite (ok_active _ Hr). split.
    + intros (id & p & (q & Hq & Hs & _)%Hfrom & <-). exists id, q. by rewrite (Hix p q).
    + intros (id & p & (q & Hq & Hs & _)%Hto & <-). exists id, q. by rewrite (Hix q p).
  - intros id id' p p' (q & Hq & Hs & _)%Hto (q' & Hq' & Hs' & _)%Hto Heq.
    eapply ok_unique; [done..|]. by rewrite (Hix q p), (Hix q' p').
  - intros id p (q & Hq & Hs & _)%Hto. rewrite <- (Hix q p) by done. by eapply ok_index.
  - etrans; [|apply (ok_size _ Hr)]. rewrite <- !(size_dom (D := gset N)).
    apply subseteq_size. intros id [p (q & Hq & _)%Hto]%elem_of_dom. by apply elem_of_dom.
  - intros id p (q & Hq & _ & <-)%Hto. by eapply ok_pin.
  - apply (ok_revision _ Hr).
  - apply (ok_numbers _ Hr).
  - intros i x. rewrite (ok_roster _ Hr). split.
    + intros (id & p & (q & Hq & Hs & _)%Hfrom & <- & <-). exists id, q. by rewrite (Hix p q).
    + intros (id & p & (q & Hq & Hs & _)%Hto & <- & <-). exists id, q. by rewrite (Hix q p).
  - apply (ok_epochs _ Hr).
  - apply (ok_occupants _ Hr).
  - intros id p (q & Hq & Hs & _)%Hto. rewrite <- (Hix q p), <- Hs by done. by eapply ok_latest.
Qed.

Lemma try_send_Some {A} (c c' : Chan A) (x : A) :
  try_send c x = Some c' →
  rx_alive c = true ∧ length (queue c) < capacity c ∧ queue c' = queue c ++ [x] ∧
  capacity c' = capacity c ∧ tx_alive c' = tx_alive c ∧ rx_alive c' = rx_alive c.
Proof.
  unfold try_send. destruct (rx_alive c) eqn:Hrx; simpl; [|done].
  destruct (Nat.ltb_spec (length (queue c)) (capacity c)); [|done]. by intros [= <-].
Qed.

Definition chan_ok {A} (n : nat) (c : Chan A) : Prop := capacity c = n ∧ length (queue c) ≤ n.

Lemma try_send_ok {A} (n : nat) (c c' : Chan A) (x : A) :
  chan_ok n c → try_send c x = Some c' → chan_ok n c'.
Proof.
  intros [Hc Hl] (_ & Hlt & Hq & Hcap & _)%try_send_Some. split; [congruence|].
  rewrite Hq, length_app. simpl. lia.
Qed.

Lemma offer_ok {A} (n : nat) (c : Chan A) (x : A) : chan_ok n c → chan_ok n (offer x c).
Proof.
  intros Hc. unfold offer. destruct (try_send c x) as [c'|] eqn:Hs; [|done].
  by eapply try_send_ok.
Qed.

Lemma offer_tx {A} (c : Chan A) (x : A) : tx_alive (offer x c) = tx_alive c.
Proof.
  unfold offer. destruct (try_send c x) as [c'|] eqn:Hs; [|done]. simpl.
  by apply try_send_Some in Hs as (_ & _ & _ & _ & ? & _).
Qed.

Lemma recv_ok {A} (n : nat) (c : Chan A) : chan_ok n c → chan_ok n (recv c).1.
Proof.
  intros [Hc Hl]. unfold recv. destruct (queue c) as [|x q] eqn:Hq; simpl.
  - split; [done|]. by rewrite Hq.
  - split; [done|]. simpl in *. lia.
Qed.

Lemma drop_rx_ok {A} (n : nat) (c : Chan A) : chan_ok n c → chan_ok n (drop_rx c).
Proof. intros [Hc Hl]. split; [done|]. simpl. lia. Qed.

Lemma recv_tx {A} (c : Chan A) : tx_alive (recv c).1 = tx_alive c.
Proof. unfold recv. by destruct (queue c). Qed.

(** A change of one channel by its receiver *)
Lemma with_audio_ok (r : Room) (f : Chan Bytes → Chan Bytes) (id : PeerId) :
  (∀ c, tx_alive (f c) = tx_alive c) →
  (∀ c, chan_ok AUDIO_CHANNEL_CAPACITY c → chan_ok AUDIO_CHANNEL_CAPACITY (f c)) →
  room_ok r → room_ok (with_audio r (alter f id (audio r))).
Proof.
  intros Htx Hok Hr. apply (same_roster_ok r); try done; simpl.
  - apply (ok_next _ Hr).
  - intros i p Hp. destruct (ok_audio _ Hr _ _ Hp) as (c & Hc & Ha).
    rewrite lookup_alter. case_decide; [|by exists c]. subst i. exists (f c).
    by rewrite Hc, Htx.
  - apply (ok_ctrl _ Hr).
  - apply (ok_gone _ Hr).
  - intros i c. rewrite lookup_alter. case_decide; [|by apply (ok_cap_audio _ Hr)].
    intros (c' & Hc & ->)%fmap_Some. apply Hok, (ok_cap_audio _ Hr _ _ Hc).
  - apply (ok_cap_ctrl _ Hr).
Qed.

Lemma with_ctrl_ok (r : Room) (f : Chan PeerCtrl → Chan PeerCtrl) (id : PeerId) :
  (∀ c, tx_alive (f c) = tx_alive c) →
  (∀ c, chan_ok CTRL_CHANNEL_CAPACITY c → chan_ok CTRL_CHANNEL_CAPACITY (f c)) →
  room_ok r → room_ok (with_ctrl r (alter f id (ctrl r))).
Proof.
  intros Htx Hok Hr. apply (same_roster_ok r); try done; simpl.
  - apply (ok_next _ Hr).
  - apply (ok_audio _ Hr).
  - intros i p Hp. destruct (ok_ctrl _ Hr _ _ Hp) as (c & Hc & Ha).
    rewrite lookup_alter. case_decide; [|by exists c]. subst i. exists (f c).
    by rewrite Hc, Htx.
  - intros i c. rewrite lookup_alter. case_decide; [|by apply (ok_gone _ Hr)].
    intros (c' & Hc & ->)%fmap_Some Hn. subst i. rewrite Htx. exact (ok_gone _ Hr _ _ Hc Hn).
  - apply (ok_cap_audio _ Hr).
  - intros i c. rewrite lookup_alter. case_decide; [|by apply (ok_cap_ctrl _ Hr)].
    intros (c' & Hc & ->)%fmap_Some. apply Hok, (ok_cap_ctrl _ Hr _ _ Hc).
Qed.

Lemma send_audio_ok (r : Room) (f : PeerId → AudioPeer → bool) (frame : Bytes) :
  room_ok r → room_ok (send_audio r f frame).
Proof.
  intros Hr. apply (same_roster_ok r); try done; simpl.
  - apply (ok_next _ Hr).
  - intros i p Hp. destruct (ok_audio _ Hr _ _ Hp) as (c & Hc & Ha).
    rewrite map_lookup_imap, Hc. simpl. rewrite Hp. eexists. split; [done|].
    simpl. destruct (f i p); [by rewrite offer_tx|done].
  - apply (ok_ctrl _ Hr).
  - apply (ok_gone _ Hr).
  - intros i c. rewrite map_lookup_imap. intros (c' & Hc & [= <-])%bind_Some.
    pose proof (ok_cap_audio _ Hr _ _ Hc). destruct (peers r !! i) as [p|]; [|done].
    destruct (f i p); [|done]. by apply (offer_ok AUDIO_CHANNEL_CAPACITY).
  - apply (ok_cap_ctrl _ Hr).
Qed.

Lemma broadcast_control_ok (r : Room) (json : string) :
  room_ok r → room_ok (broadcast_control r json).
Proof.
  intros Hr. apply (same_roster_ok r); try done; simpl.
  - apply (ok_next _ Hr).
  - intros id. rewrite map_lookup_imap. destruct (peers r !! id) as [p|]; [|done]. simpl.
    by destruct (ctrl_send _ _ _ _).
  - intros i p. rewrite map_lookup_imap. intros (q & Hq & _)%bind_Some. by eapply ok_audio.
  - intros i p. rewrite !map_lookup_imap. intros (q & Hq & [= <-])%bind_Some.
    destruct (ok_ctrl _ Hr _ _ Hq) as (c & Hc & Ha). rewrite Hc, Hq. simpl.
    unfold ctrl_send. rewrite Hc. simpl. eexists. split; [done|].
    destruct (attached q) eqn:Hatt; [|done].
    destruct (try_send c (Json json)) as [c'|] eqn:Hs; [|done].
    apply try_send_Some in Hs as (_ & _ & _ & _ & ? & _). congruence.
  - intros i c. rewrite !map_lookup_imap. intros (c' & Hc & [= <-])%bind_Some.
    destruct (peers r !! i) as [p|] eqn:Hp; [done|]. intros _. by eapply ok_gone.
  - apply (ok_cap_audio _ Hr).
  - intros i c. rewrite map_lookup_imap. intros (c' & Hc & [= <-])%bind_Some.
    pose proof (ok_cap_ctrl _ Hr _ _ Hc) as Hcap. destruct (peers r !! i) as [p|]; [|done].
    unfold ctrl_send. rewrite Hc. simpl. destruct (attached p); [|done].
    destruct (try_send c' (Json json)) as [c|] eqn:Hs; [|done].
    by eapply (try_send_ok CTRL_CHANNEL_CAPACITY).
Qed.

(** [add_peer] on a well-formed room, branch by branch *)
Lemma add_peer_eq (r : Room) (id : PeerId) (pk : string) (v : Z) :
  room_ok r →
  let g := guard r in
  ∃ k, k < 255 ∧ (∀ j, j < k → candidate g j ∈ active_indices g) ∧
    (candidate g k ∉ active_indices g) ∧
    add_peer r id pk v =
      if poisoned r || ended g then (r, Err Ended)
      else if MAX_PEERS_PER_ROOM <=? size (peers r) then (r, Err Full)
      else match mismatch g v with
           | Some pinned => (r, Err (VersionMismatch pinned v))
           | None =>
               let e := default 0%Z (index_epochs g !! candidate g k) in
               let r' := insert_peer r (occupy g (candidate g k)) id
                 {| pubkey := pk; attached := true; peer_index := candidate g k; epoch := e;
                    protocol_version := v |} in
               (r', Ok (candidate g k, e, u64_wrapping_add (roster_revision g) 1))
           end.
Proof.
  intros Hr g. subst g. destruct (alloc_succeeds r Hr) as (k & Hk & Hall & Hni & Ha). exists k.
  split; [done|]. split; [done|]. split; [done|]. unfold add_peer.
  destruct (poisoned r); [done|]. destruct (ended (guard r)); [done|]. cbn [orb].
  destruct (MAX_PEERS_PER_ROOM <=? size (peers r)); [done|]. destruct (mismatch (guard r) v); [done|]. by rewrite Ha.
Qed.

Lemma candidate_bound (g : AdmissionGuard) (k : nat) : (0 ≤ candidate g k < 255)%Z.
Proof. apply Z.mod_pos_bound. lia. Qed.

Lemma add_peer_ok (r : Room) (id : PeerId) (pk : string) (v : Z) :
  room_ok r → ctrl r !! id = None → room_ok (add_peer r id pk v).1.
Proof.
  intros Hr Hid. destruct (add_peer_eq r id pk v Hr) as (k & Hk & _ & Hni & ->).
  destruct (_ || _); [done|]. destruct (Nat.leb_spec MAX_PEERS_PER_ROOM (size (peers r))); [done|].
  destruct (mismatch (guard r) v) eqn:Hm; [done|].
  pose proof (candidate_bound (guard r) k). simpl.
  apply (insert_peer_ok r id {| pubkey := pk; attached := true;
    peer_index := candidate (guard r) k; epoch := _; protocol_version := v |}); simpl; try done. lia.
Qed.

Lemma add_peer_at_index_ok (r : Room) (id : PeerId) (pk : string) (v idx : Z) :
  room_ok r → ctrl r !! id = None → (0 ≤ idx < 256)%Z →
  room_ok (add_peer_at_index r id pk v idx).1.
Proof.
  intros Hr Hid Hidx. unfold add_peer_at_index.
  destruct (poisoned r); [done|]. destruct (ended _); [done|].
  destruct (Nat.leb_spec MAX_PEERS_PER_ROOM (size (peers r))); [done|]. cbn [orb].
  case_bool_decide as Hni; [done|]. destruct (mismatch (guard r) v) eqn:Hm; [done|].
  by apply (insert_peer_ok r id {| pubkey := pk; attached := true;
    peer_index := idx; epoch := _; protocol_version := v |}).
Qed.

Lemma set_ended_ok (r : Room) (b : bool) :
  room_ok r → room_ok (set_guard r (set_ended b (guard r))).
Proof. intros Hr. by destruct Hr; split. Qed.

Lemma apply_ok (o : room_op) (r : Room) : room_ok r → op_ok o r → room_ok (apply o r).
Proof.
  intros Hr Ho.
  destruct o as [id pk v|id pk v idx|id|id| | |s f|a f|j|id|id|id|id|]; simpl in *.
  - by apply add_peer_ok.
  - destruct Ho. by apply add_peer_at_index_ok.
  - unfold remove_peer. destruct (poisoned r); [done|].
    destruct (peers r !! id) as [p|] eqn:Hp; [|done]. by apply take_peer_ok.
  - unfold remove_peer_and_check_ended. destruct (poisoned r); [done|].
    destruct (peers r !! id) as [p|] eqn:Hp; [|done]. by apply (take_peer_ok r id p _ Hr).
  - unfold mark_ended. destruct (poisoned r); [done|]. by apply set_ended_ok.
  - unfold clear_ended. destruct (poisoned r); [done|]. by apply set_ended_ok.
  - unfold broadcast_frame. destruct (peers r !! s); [|done]. by apply send_audio_ok.
  - by apply send_audio_ok.
  - by apply broadcast_control_ok.
  - apply with_audio_ok; [apply recv_tx|apply recv_ok|done].
  - apply with_ctrl_ok; [apply recv_tx|apply recv_ok|done].
  - apply with_audio_ok; [done|apply drop_rx_ok|done].
  - apply with_ctrl_ok; [done|apply drop_rx_ok|done].
  - by destruct Hr; split.
Qed.

Lemma run_ok (ops : list room_op) (r : Room) : room_ok r → ops_ok ops r → room_ok (run ops r).
Proof.
  revert r. induction ops as [|o ops IH]; intros r Hr; simpl; [done|].
  intros [Ho Hops]. apply IH; [|done]. by apply apply_ok.
Qed.

(** *** Control messages of one peer *)

Section control.
Context (id : PeerId).

(** What a step hands to the peer's connection, and what it broadcasts to the peer *)
Definition heard1 (o : room_op) (r : Room) : list PeerCtrl :=
  match o with
  | RecvCtrl i => if decide (i = id) then option_list (ctrl r !! id ≫= λ c, (recv c).2) else []
  | _ => []
  end.

Definition told1 (o : room_op) (r : Room) : list PeerCtrl :=
  match o with
  | BroadcastControl j => if decide (is_Some (peers r !! id)) then [Json j] else []
  | _ => []
  end.

Fixpoint heard (ops : list room_op) (r : Room) : list PeerCtrl :=
  match ops with [] => [] | o :: ops => heard1 o r ++ heard ops (apply o r) end.

Fixpoint told (ops : list room_op) (r : Room) : list PeerCtrl :=
  match ops with [] => [] | o :: ops => told1 o r ++ told ops (apply o r) end.

(** [missed] begins once the sender or the receiver is gone. *)
Definition stream_inv (r : Room) (h t : list PeerCtrl) : Prop :=
  match ctrl r !! id with
  | None => h = [] ∧ t = []
  | Some c => ∃ missed, t = h ++ queue c ++ missed ∧
      (tx_alive c = true → rx_alive c = true → missed = [])
  end.

Lemma insert_peer_stream (r : Room) (g : AdmissionGuard) (i : PeerId) (p : AudioPeer) h t :
  ctrl r !! i = None → stream_inv r h t → stream_inv (insert_peer r g i p) h t.
Proof.
  intros Hi. unfold stream_inv, insert_peer. simpl. destruct (decide (i = id)) as [<-|Hne].
  - rewrite Hi, lookup_insert_eq. intros [-> ->]. by exists [].
  - by rewrite lookup_insert_ne.
Qed.

Lemma same_ctrl_stream (r r' : Room) h t :
  ctrl r' = ctrl r → stream_inv r h t → stream_inv r' h t.
Proof. intros Hc. unfold stream_inv. by rewrite Hc. Qed.

Lemma add_peer_stream (r : Room) (i : PeerId) (pk : string) (v : Z) h t :
  room_ok r → ctrl r !! i = None → stream_inv r h t → stream_inv (add_peer r i pk v).1 h t.
Proof.
  intros Hr Hi Hs. destruct (add_peer_eq r i pk v Hr) as (k & _ & _ & _ & ->).
  destruct (_ || _); [done|]. destruct (MAX_PEERS_PER_ROOM <=? size (peers r)); [done|].
  destruct (mismatch _ _); [done|]. by apply insert_peer_stream.
Qed.

Lemma add_peer_at_stream (r : Room) (i : PeerId) (pk : string) (v idx : Z) h t :
  ctrl r !! i = None → stream_inv r h t → stream_inv (add_peer_at_index r i pk v idx).1 h t.
Proof.
  intros Hi Hs. unfold add_peer_at_index. destruct (poisoned r); [done|].
  destruct (ended _); [done|]. destruct (_ || _); [done|].
  destruct (mismatch _ _); [done|]. by apply insert_peer_stream.
Qed.

Lemma take_peer_stream (r : Room) (i : PeerId) (p : AudioPeer) (e : bool) h t :
  stream_inv r h t → stream_inv (take_peer r i p e).1 h t.
Proof.
  unfold stream_inv, take_peer. simpl. rewrite lookup_alter. case_decide; [|done].
  subst i. destruct (ctrl r !! id) as [c|]; [|done]. simpl. intros (m & Ht & _).
  by exists m.
Qed.

Lemma broadcast_stream (r : Room) (j : string) h t :
  room_ok r → stream_inv r h t →
  stream_inv (broadcast_control r j) h (t ++ told1 (BroadcastControl j) r).
Proof.
  intros Hr. unfold stream_inv, broadcast_control. simpl. rewrite map_lookup_imap.
  destruct (ctrl r !! id) as [c|] eqn:Hc; simpl.
  2:{ intros [-> ->]. case_decide as Hp; [|done]. destruct Hp as [p Hp].
      destruct (ok_ctrl _ Hr _ _ Hp) as (c & Hc' & _). congruence. }
  intros (m & -> & Hm). destruct (peers r !! id) as [p|] eqn:Hp.
  2:{ rewrite decide_False by (by intros [? ?]). rewrite app_nil_r. by exists m. }
  rewrite decide_True by eauto. unfold ctrl_send. rewrite Hc. simpl.
  destruct (ok_ctrl _ Hr _ _ Hp) as (c0 & Hc0 & Htx). rewrite Hc in Hc0. injection Hc0 as <-.
  destruct (attached p).
  - destruct (try_send c (Json j)) as [c'|] eqn:Hs.
    + apply try_send_Some in Hs as (Hrx & _ & Hq & _ & _ & _). rewrite (Hm Htx Hrx), Hq.
      exists []. split; [|done]. by rewrite !app_nil_r, app_assoc.
    + exists (m ++ [Json j]). split; [by rewrite !app_assoc|done].
  - exists (m ++ [Json j]). split; [by rewrite !app_assoc|done].
Qed.

Lemma apply_stream (o : room_op) (r : Room) h t :
  room_ok r → op_ok o r → stream_inv r h t →
  stream_inv (apply o r) (h ++ heard1 o r) (t ++ told1 o r).
Proof.
  intros Hr Ho Hs.
  destruct o as [i pk v|i pk v idx|i|i| | |s f|a f|j|i|i|i|i|]; simpl heard1; simpl told1;
    rewrite ?app_nil_r; simpl in *; try (by apply (same_ctrl_stream r)).
  - by apply add_peer_stream.
  - destruct Ho. by apply add_peer_at_stream.
  - unfold remove_peer. destruct (poisoned r); [done|]. destruct (peers r !! i); [|done].
    by apply take_peer_stream.
  - unfold remove_peer_and_check_ended. destruct (poisoned r); [done|].
    destruct (peers r !! i) as [p|]; [|done]. by apply (take_peer_stream r i p).
  - apply (same_ctrl_stream r); [|done]. unfold mark_ended. by destruct (poisoned r).
  - apply (same_ctrl_stream r); [|done]. unfold clear_ended. by destruct (poisoned r).
  - apply (same_ctrl_stream r); [|done]. unfold broadcast_frame. by destruct (peers r !! s).
  - by apply (broadcast_stream r j).
  - unfold stream_inv in *. simpl. rewrite lookup_alter. case_decide as Hi; [|by rewrite app_nil_r].
    subst i. destruct (ctrl r !! id) as [c|]; simpl; [|by rewrite app_nil_r].
    destruct Hs as (m & -> & Hm). unfold recv.
    destruct (queue c) as [|x q] eqn:Hq; simpl.
    + exists m. by rewrite Hq, app_nil_r.
    + exists m. by rewrite <- app_assoc.
  - unfold stream_inv in *. simpl. rewrite lookup_alter. case_decide as Hi; [|done].
    subst i. destruct (ctrl r !! id) as [c|]; simpl; [|done].
    destruct Hs as (m & -> & Hm). by exists (queue c ++ m).
Qed.

Lemma run_stream (ops : list room_op) (r : Room) h t :
  room_ok r → ops_ok ops r → stream_inv r h t →
  stream_inv (run ops r) (h ++ heard ops r) (t ++ told ops r).
Proof.
  revert r h t. induction ops as [|o ops IH]; intros r h t Hr; simpl.
  { by rewrite !app_nil_r. }
  intros [Ho Hops] Hs. rewrite !app_assoc. apply IH; [by apply apply_ok|done|].
  by apply apply_stream.
Qed.

End control.

(** ** The theorems *)

(** Admission: in every reachable room, [add_peer] answers by the documented precedence
    (ended, full, version mismatch, in that order and without any change of the room), and
    otherwise admits the peer: at the first routing identity of the rotation that no
    connected peer holds, with the epoch that counts the earlier occupants of that identity,
    under the next roster revision. The identity space never runs out. *)
Theorem admission_exact (c : CommunityId) (ch : Uuid) (ops : list room_op) (id : PeerId)
    (pk : string) (v : Z) :
  let r := run ops (room_new c ch) in
  ops_ok ops (room_new c ch) → ctrl r !! id = None →
  let '(r', answer) := add_peer r id pk v in
  match answer with
  | Err Ended => (poisoned r = true ∨ ended (guard r) = true) ∧ r' = r
  | Err Full => poisoned r = false ∧ ended (guard r) = false ∧ size (peers r) = 25 ∧ r' = r
  | Err (VersionMismatch pinned requested) =>
      poisoned r = false ∧ ended (guard r) = false ∧ size (peers r) < 25 ∧
      pinned_version (guard r) = Some pinned ∧ requested = v ∧ pinned ≠ v ∧ r' = r
  | Ok (idx, e, revision) =>
      poisoned r = false ∧ ended (guard r) = false ∧ size (peers r) < 25 ∧
      (∀ i p, peers r !! i = Some p → protocol_version p = v ∧ peer_index p ≠ idx) ∧
      (0 ≤ idx < 255)%Z ∧
      (∃ k, k < 255 ∧ idx = candidate (guard r) k ∧
         ∀ j, j < k → ∃ i p, peers r !! i = Some p ∧ peer_index p = candidate (guard r) j) ∧
      e = (Z.of_nat (length (occupants (roster_tx r) idx)) mod 256)%Z ∧
      revision = (Z.of_nat (S (length (roster_tx r))) mod 2 ^ 64)%Z ∧
      peers r' = <[id := {| pubkey := pk; attached := true; peer_index := idx; epoch := e;
                            protocol_version := v |}]> (peers r) ∧
      roster_tx r' = roster_tx r ++ [{| d_revision := revision;
        d_joined := Some {| rp_pubkey := pk; rp_index := idx; rp_epoch := e |};
        d_left := None |}]
  end.
Proof.
  intros r Hops Hid. assert (room_ok r) as Hr by (apply run_ok; [apply room_new_ok|done]).
  destruct (add_peer_eq r id pk v Hr) as (k & Hk & Hall & Hni & ->).
  destruct (poisoned r) eqn:Hp; cbn [orb]; [by auto|].
  destruct (ended (guard r)) eqn:He; [by auto|].
  pose proof (ok_size _ Hr) as Hsz. unfold MAX_PEERS_PER_ROOM in *.
  destruct (Nat.leb_spec 25 (size (peers r))); [split_and!; try done; lia|].
  unfold mismatch. destruct (pinned_version (guard r)) as [pin|] eqn:Hpin; simpl;
    [case_decide as Hv; [by split_and!|]|].
  all: split_and!; try done; try apply candidate_bound.
  all: try (by rewrite (ok_revision _ Hr), u64_wrapping_succ).
  all: try apply (ok_epochs _ Hr).
  1,3: intros i p Hi; split; [pose proof (ok_pin _ Hr _ _ Hi); simpl in *; congruence|];
    intros Heq; apply Hni, (ok_active _ Hr); eauto.
  all: exists k; split_and!; [done|done|]; intros j Hj; by apply (ok_active _ Hr), Hall.
Qed.

(** C26 Every reachable room: at most 25 peers with pairwise different identities, each the
    latest occupant of its identity; occupancies of one identity less than 256 admissions
    apart carry different epochs; and folding the published deltas gives the roster. *)
Theorem room_invariant (c : CommunityId) (ch : Uuid) (ops : list room_op) :
  let r := run ops (room_new c ch) in
  ops_ok ops (room_new c ch) →
  size (peers r) ≤ 25 ∧
  (∀ i j p q, peers r !! i = Some p → peers r !! j = Some q → i ≠ j →
     peer_index p ≠ peer_index q) ∧
  (∀ i p, peers r !! i = Some p →
     last (occupants (roster_tx r) (peer_index p)) = Some (roster_peer p)) ∧
  (∀ idx j k x y, occupants (roster_tx r) idx !! j = Some x →
     occupants (roster_tx r) idx !! k = Some y → j < k < j + 256 → rp_epoch x ≠ rp_epoch y) ∧
  (∀ idx x, replay ∅ (roster_tx r) !! idx = Some x ↔
     ∃ id p, peers r !! id = Some p ∧ peer_index p = idx ∧ roster_peer p = x).
Proof.
  intros r Hops. assert (room_ok r) as Hr by (apply run_ok; [apply room_new_ok|done]).
  split_and!.
  - apply (ok_size _ Hr).
  - intros i j p q Hp Hq Hne Heq. apply Hne. by eapply ok_unique.
  - apply (ok_latest _ Hr).
  - intros idx j k x y Hx Hy Hjk. rewrite (ok_occupants _ Hr _ _ _ Hx), (ok_occupants _ Hr _ _ _ Hy).
    intros Heq. pose proof (Z.div_mod (Z.of_nat j) 256). pose proof (Z.div_mod (Z.of_nat k) 256).
    lia.
  - apply (ok_roster _ Hr).
Qed.

(** No gap in control: whatever happens in the room, what a peer has received and what
    still waits for it is a prefix of what was broadcast to it since it joined; it is all of
    it unless its queue was full or its connection gone, and then its sender is closed. *)
Theorem control_gapless (c : CommunityId) (ch : Uuid) (ops : list room_op) (id : PeerId) :
  let r := run ops (room_new c ch) in
  ops_ok ops (room_new c ch) →
  match ctrl r !! id with
  | None => told id ops (room_new c ch) = []
  | Some q =>
      heard id ops (room_new c ch) ++ queue q `prefix_of` told id ops (room_new c ch) ∧
      (tx_alive q = true → rx_alive q = true →
       told id ops (room_new c ch) = heard id ops (room_new c ch) ++ queue q) ∧
      (∀ p, peers r !! id = Some p → tx_alive q = attached p)
  end.
Proof.
  intros r Hops. assert (room_ok r) as Hr by (apply run_ok; [apply room_new_ok|done]).
  pose proof (run_stream id ops (room_new c ch) [] [] (room_new_ok c ch) Hops) as Hs.
  simpl in Hs. unfold stream_inv in Hs. specialize (Hs (conj eq_refl eq_refl)).
  fold r in Hs. destruct (ctrl r !! id) as [q|] eqn:Hq; [|by destruct Hs].
  destruct Hs as (m & Ht & Hm). split_and!.
  - exists m. by rewrite <- app_assoc.
  - intros Htx Hrx. by rewrite Ht, (Hm Htx Hrx), app_nil_r.
  - intros p Hp. destruct (ok_ctrl _ Hr _ _ Hp) as (q' & Hq' & <-). congruence.
Qed.

(** A fan-out reaches exactly the other peers: the frame, behind the sender's identity
    and, from protocol 3 on, its epoch, is appended to the audio queue of every connected
    peer but the sender that listens and has room, and nothing else changes. A datagram
    built by a non-owner carries the same bytes, and on the owner is delivered likewise. *)
Theorem fan_out_frames_exact (c : CommunityId) (ch : Uuid) (ops : list room_op) (s : PeerId)
    (p : AudioPeer) (frame : Bytes) (fenced : FencedHeader) (seq : Z) :
  let r := run ops (room_new c ch) in
  ops_ok ops (room_new c ch) → peers r !! s = Some p →
  let bytes := dg_payload (media_datagram (peer_index p) (epoch p) (protocol_version p)
                             fenced seq frame) in
  let r' := broadcast_frame r s frame in
  (∀ i q, audio r !! i = Some q → audio r' !! i = Some
     (if bool_decide (is_Some (peers r !! i)) && negb (bool_decide (i = s))
         && rx_alive q && (length (queue q) <? 8)
      then {| queue := queue q ++ [bytes]; capacity := capacity q; tx_alive := tx_alive q;
              rx_alive := rx_alive q |}
      else q)) ∧
  peers r' = peers r ∧ guard r' = guard r ∧ ctrl r' = ctrl r ∧ roster_tx r' = roster_tx r ∧
  audio (deliver_prefixed r (peer_index p) bytes) = audio r'.
Proof.
  intros r Hops Hp bytes. assert (room_ok r) as Hr by (apply run_ok; [apply room_new_ok|done]).
  assert (prefix p frame = bytes) as Hb.
  { unfold prefix, bytes, media_datagram. simpl. by destruct (3 <=? protocol_version p)%Z. }
  unfold broadcast_frame. rewrite Hp, Hb. split_and!; try done.
  - intros i q Hq. simpl. rewrite map_lookup_imap, Hq. simpl.
    destruct (peers r !! i) as [x|] eqn:Hx.
    + rewrite (bool_decide_true (is_Some _)) by eauto. destruct (bool_decide (i = s)); cbn [negb andb]; [done|].
      unfold offer, try_send. destruct (ok_cap_audio _ Hr _ _ Hq) as [-> _].
      unfold AUDIO_CHANNEL_CAPACITY. by destruct (rx_alive q), (length (queue q) <? 8).
    + by rewrite (bool_decide_false (is_Some _)) by (by intros [? ?]).
  - unfold deliver_prefixed. simpl. apply map_eq. intros i. rewrite !map_lookup_imap.
    destruct (audio r !! i) as [q|]; [|done]. simpl. do 2 f_equal.
    destruct (peers r !! i) as [x|] eqn:Hx; [|done].
    destruct (Z.eqb_spec (peer_index x) (peer_index p)) as [Heq|Hne]; simpl.
    + rewrite bool_decide_true; [done|]. by eapply ok_unique.
    + rewrite bool_decide_false; [done|]. intros ->. congruence.
Qed.

(** *** Ended rooms *)

(** Does this step end the room automatically? *)
Definition auto_ends (o : room_op) (r : Room) : bool :=
  match o with
  | RemovePeerAndCheck id =>
      is_some_and (λ x, x.2) (remove_peer_and_check_ended r id).2
  | _ => false
  end.

Lemma apply_ended (o : room_op) (r : Room) :
  o ≠ ClearEnded → ended (guard r) = true →
  ended (guard (apply o r)) = true ∧ dom (peers (apply o r)) ⊆ dom (peers r) ∧
  auto_ends o r = false.
Proof.
  intros Ho He.
  assert (∀ f : PeerId → AudioPeer → option AudioPeer, dom (map_imap f (peers r)) ⊆ dom (peers r))
    as Himap.
  { intros f i [x Hx]%elem_of_dom. rewrite map_lookup_imap in Hx.
    apply bind_Some in Hx as (y & Hy & _). by apply elem_of_dom. }
  destruct o as [i pk v|i pk v idx|i|i| | |s f|a f|j|i|i|i|i|]; simpl; try done.
  - unfold add_peer. rewrite He. by destruct (poisoned r).
  - unfold add_peer_at_index. rewrite He. by destruct (poisoned r).
  - unfold remove_peer. destruct (poisoned r); [done|]. destruct (peers r !! i) as [p|]; [|done].
    simpl. rewrite He. split; [done|]. split; [|done]. rewrite dom_delete. set_solver.
  - unfold remove_peer_and_check_ended. destruct (poisoned r); [done|].
    destruct (peers r !! i) as [p|]; [|done]. simpl. rewrite He. simpl.
    split; [done|]. split; [|done]. rewrite dom_delete. set_solver.
  - unfold mark_ended. by destruct (poisoned r).
  - unfold broadcast_frame. by destruct (peers r !! s).
Qed.

(** An ended room stays closed: once a room has ended, no sequence of calls without
    [clear_ended] lets a peer in or ends it a second time. *)
Theorem ended_until_cleared (r : Room) (ops : list room_op) :
  ended (guard r) = true → ClearEnded ∉ ops →
  ended (guard (run ops r)) = true ∧ dom (peers (run ops r)) ⊆ dom (peers r) ∧
  ∀ xs o ys, ops = xs ++ o :: ys → auto_ends o (run xs r) = false.
Proof.
  intros He Hc.
  assert (ended (guard (run ops r)) = true ∧ dom (peers (run ops r)) ⊆ dom (peers r)) as [H1 H2].
  { revert r He. induction ops as [|o ops IH]; intros r He; [done|]. simpl.
    apply not_elem_of_cons in Hc as [Ho Hc].
    destruct (apply_ended o r ltac:(congruence) He) as (He' & Hd & _).
    destruct (IH Hc _ He') as [? ?]. split; [done|]. etrans; done. }
  split; [done|]. split; [done|]. intros xs o ys ->. clear H1 H2.
  revert r He. induction xs as [|x xs IH]; intros r He; simpl in *.
  - apply apply_ended; [|done]. set_solver.
  - apply IH; [set_solver|]. apply apply_ended; [|done]. set_solver.
Qed.

(** *** Rooms and handles *)

(** The join of one connection, with the cleanup of another connection that gives up between
    the two calls, followed by the next join *)
Definition interrupted_join (m : AudioRoomManager) (c : CommunityId) (ch : Uuid) (id : PeerId)
    (pk : string) (v : Z)
  : AudioRoomManager * N * bool * option (result (Z * Z * Z) AdmissionError) * N :=
  let '(m, h) := get_or_create m c ch in
  let '(m, removed) := cleanup_if_empty m c ch in
  let '(m, answer) := with_room m h (λ r, add_peer r id pk v) in
  let '(m, h') := get_or_create m c ch in
  (m, h, removed, answer, h').

(** A joiner can be left in an orphaned room: the audio handler asks the manager for the
    room, then awaits the database and the owner before it adds its peer. If another
    connection gives up in between and cleans the still empty room up, the joiner's call is
    admitted to a room that the manager no longer knows, and the next one to join gets a
    new, empty room. *)
Theorem cleanup_orphans_joiner (m : AudioRoomManager) (c : CommunityId) (ch : Uuid) (id : PeerId)
    (pk : string) (v : Z) :
  rooms m !! (c, ch) = None →
  let '(m4, h, removed, answer, h') := interrupted_join m c ch id pk v in
  removed = true ∧ answer = Some (Ok (0, 0, 1)%Z) ∧ h' ≠ h ∧ get m4 c ch = Some h' ∧
  heap m4 !! h' = Some (room_new c ch) ∧
  ∃ r, heap m4 !! h = Some r ∧ is_Some (peers r !! id).
Proof.
  intros Hm. unfold interrupted_join, get_or_create at 1. rewrite Hm. set (h := fresh (dom (heap m))).
  assert (is_empty (room_new c ch) = true) as Hempty by (by apply bool_decide_true).
  unfold cleanup_if_empty. cbn [rooms heap]. rewrite !lookup_insert_eq. cbn [is_some_and].
  rewrite Hempty. unfold with_room. cbn [rooms heap]. rewrite lookup_insert_eq.
  assert (add_peer (room_new c ch) id pk v =
    (insert_peer (room_new c ch) (occupy guard_new 0) id {| pubkey := pk; attached := true;
       peer_index := 0; epoch := 0; protocol_version := v |}, Ok (0, 0, 1)%Z)) as -> by reflexivity.
  set (r := insert_peer _ _ _ _). unfold get_or_create. simpl. rewrite lookup_delete_eq.
  set (h' := fresh _).
  assert (h' ∉ dom (<[h := r]> (<[h := room_new c ch]> (heap m)))) as Hfresh by apply is_fresh.
  assert (h' ≠ h) as Hne by (intros Heq; rewrite Heq in Hfresh; set_solver).
  split_and!; try done.
  - unfold get. simpl. by rewrite lookup_insert_eq.
  - simpl. by rewrite lookup_insert_eq.
  - simpl. eexists. rewrite lookup_insert_ne, lookup_insert_eq by done. split; [done|].
    simpl. rewrite lookup_insert_eq. by eexists.
Qed.

(** *** Media from the mesh *)

Fixpoint media_run (m : AudioRoomManager) (seen : GenerationFloor) (ds : list MeshDatagram)
  : AudioRoomManager * GenerationFloor :=
  match ds with
  | [] => (m, seen)
  | d :: ds => let '(m, seen, _) := on_media_datagram m seen d in media_run m seen ds
  end.

Definition same_session (d d' : MeshDatagram) : Prop :=
  session_id (dg_fenced d) = session_id (dg_fenced d').

Definition floor_inv (seen : GenerationFloor) (ds : list MeshDatagram) : Prop :=
  ∀ s, match seen !! s with
       | Some g =>
           (∃ d, d ∈ ds ∧ session_id (dg_fenced d) = s ∧ generation (dg_fenced d) = g) ∧
           (∀ d, d ∈ ds → session_id (dg_fenced d) = s → (generation (dg_fenced d) ≤ g)%Z)
       | None => ∀ d, d ∈ ds → session_id (dg_fenced d) ≠ s
       end.

Lemma on_media_floor (m : AudioRoomManager) (seen : GenerationFloor) (d : MeshDatagram) :
  let s := session_id (dg_fenced d) in
  (on_media_datagram m seen d).1.2 = (check seen s (generation (dg_fenced d))).1 ∧
  (on_media_datagram m seen d).2 = (check seen s (generation (dg_fenced d))).2.
Proof.
  unfold on_media_datagram. destruct (check _ _ _) as [seen' v] eqn:Hc. by destruct v.
Qed.

Lemma check_floor (seen : GenerationFloor) (ds : list MeshDatagram) (d : MeshDatagram) :
  floor_inv seen ds →
  floor_inv (check seen (session_id (dg_fenced d)) (generation (dg_fenced d))).1 (ds ++ [d]).
Proof.
  intros Hf s. unfold check. specialize (Hf s) as Hfs.
  set (t := session_id (dg_fenced d)). set (g := generation (dg_fenced d)).
  destruct (decide (s = t)) as [->|Hne].
  - destruct (seen !! t) as [k|] eqn:Hk.
    + destruct Hfs as [(x & Hx & Hs & Hg) Hmax].
      destruct (Z.ltb_spec g k); [|destruct (Z.ltb_spec k g)]; simpl; rewrite ?lookup_insert_eq, ?Hk.
      * split; [exists x; set_solver|]. intros y [Hy| ->%list_elem_of_singleton]%elem_of_app; [by apply Hmax|].
        subst g. lia.
      * split; [exists d; set_solver|]. intros y [Hy| ->%list_elem_of_singleton]%elem_of_app; [|done].
        intros Hys. specialize (Hmax y Hy Hys). lia.
      * split; [exists x; set_solver|]. intros y [Hy| ->%list_elem_of_singleton]%elem_of_app; [by apply Hmax|].
        subst g. lia.
    + simpl. rewrite lookup_insert_eq. split; [exists d; set_solver|].
      intros y [Hy| ->%list_elem_of_singleton]%elem_of_app; [|done]. intros Hys. by destruct (Hfs y Hy).
  - assert ((check seen t g).1 !! s = seen !! s) as Hsame.
    { unfold check. destruct (seen !! t); [destruct (_ <? _)%Z; [done|]; destruct (_ <? _)%Z|];
        simpl; rewrite ?lookup_insert_ne by done; done. }
    unfold check in Hsame. rewrite Hsame. destruct (seen !! s) as [k|].
    + destruct Hfs as [(x & Hx & Hs & Hg) Hmax]. split; [exists x; set_solver|].
      intros y [Hy| ->%list_elem_of_singleton]%elem_of_app Hys; [by apply Hmax|]. by destruct Hne.
    + intros y [Hy| ->%list_elem_of_singleton]%elem_of_app; [by apply Hfs|]. by apply not_eq_sym.
Qed.

Lemma media_run_floor (m : AudioRoomManager) (seen : GenerationFloor) (xs ds : list MeshDatagram) :
  floor_inv seen xs → floor_inv (media_run m seen ds).2 (xs ++ ds).
Proof.
  revert m seen xs. induction ds as [|d ds IH]; intros m seen xs Hf; simpl; [by rewrite app_nil_r|].
  pose proof (on_media_floor m seen d) as [Hfl _].
  destruct (on_media_datagram m seen d) as [[m' seen'] v]. simpl in Hfl. subst seen'.
  rewrite (cons_middle d xs ds), app_assoc. apply IH. by apply check_floor.
Qed.

Lemma get_unambiguous_spec (m : AudioRoomManager) (ch : Uuid) (h : N) :
  get_unambiguous_by_channel m ch = Some h ↔
  ∃ c, rooms m !! (c, ch) = Some h ∧ ∀ c', is_Some (rooms m !! (c', ch)) → c' = c.
Proof.
  unfold get_unambiguous_by_channel.
  assert (∀ e, e ∈ List.filter (λ e, bool_decide (e.1.2 = ch)) (map_to_list (rooms m)) ↔
            rooms m !! e.1 = Some e.2 ∧ e.1.2 = ch) as Hin.
  { intros [k x]. rewrite list_elem_of_In, filter_In, <- list_elem_of_In, elem_of_map_to_list.
    by rewrite bool_decide_eq_true. }
  assert (NoDup (List.filter (λ e, bool_decide (e.1.2 = ch)) (map_to_list (rooms m)))) as Hnd.
  { apply NoDup_ListNoDup, List.NoDup_filter, NoDup_ListNoDup, NoDup_map_to_list. }
  destruct (List.filter _ _) as [|[[c x] h0] [|e l]] eqn:Hl.
  - split; [done|]. intros (c & Hc & _).
    pose proof (proj2 (Hin ((c, ch), h)) (conj Hc eq_refl)) as Hn. by apply elem_of_nil in Hn.
  - destruct (proj1 (Hin ((c, x), h0)) ltac:(set_solver)) as [Hc Hx]. simpl in Hc, Hx. subst x.
    split.
    + intros [= <-]. exists c. split; [done|]. intros c' [h' Hh'].
      pose proof (proj2 (Hin ((c', ch), h')) (conj Hh' eq_refl)) as Hm.
      apply list_elem_of_singleton in Hm. congruence.
    + intros (c' & Hc' & Hall). rewrite <- (Hall c) in Hc' by eauto. congruence.
  - split; [done|]. intros (c' & Hc' & Hall).
    destruct (proj1 (Hin ((c, x), h0)) ltac:(set_solver)) as [Hc Hx].
    destruct (proj1 (Hin e) ltac:(set_solver)) as [He Hxe].
    destruct e as [[ce xe] he]. simpl in *. subst x xe.
    apply NoDup_cons in Hnd as [Hnd _]. exfalso. apply Hnd.
    rewrite (Hall c), (Hall ce) in * by eauto. rewrite Hc in He. injection He as ->. set_solver.
Qed.

Lemma deliver_media_spec (m : AudioRoomManager) (d : MeshDatagram) :
  rooms (deliver_media m d) = rooms m ∧
  (∀ h, heap (deliver_media m d) !! h ≠ heap m !! h →
     ∃ c r idx rest, dg_payload d = idx :: rest ∧
       rooms m !! (c, session_id (dg_fenced d)) = Some h ∧
       (∀ c', is_Some (rooms m !! (c', session_id (dg_fenced d))) → c' = c) ∧
       heap m !! h = Some r ∧
       heap (deliver_media m d) !! h = Some (deliver_prefixed r idx (dg_payload d))).
Proof.
  unfold deliver_media. destruct (get_unambiguous_by_channel _ _) as [h|] eqn:Hu; [|done].
  apply get_unambiguous_spec in Hu as (c & Hc & Huniq).
  destruct (dg_payload d) as [|idx rest]; [done|]. unfold with_room.
  destruct (heap m !! h) as [r|] eqn:Hh; [|done]. simpl. split; [done|].
  intros h'. destruct (decide (h = h')) as [<-|Hne]; [|by rewrite lookup_insert_ne].
  intros _. exists c, r, idx, rest. by rewrite lookup_insert_eq.
Qed.

(** Mesh media never crosses a fence or a tenant: along any sequence of datagrams, one
    that is older than an earlier datagram of its session changes nothing; an accepted one
    reaches the room of its channel, provided a single community has a room for that
    channel, and no other room; with two such communities it is dropped. *)
Theorem media_fenced_and_isolated (m0 : AudioRoomManager) (ds : list MeshDatagram)
    (d : MeshDatagram) :
  let '(m, seen) := media_run m0 ∅ ds in
  let '(m', seen', verdict) := on_media_datagram m seen d in
  rooms m' = rooms m ∧
  ((∃ x, x ∈ ds ∧ same_session x d ∧
      (generation (dg_fenced d) < generation (dg_fenced x))%Z) →
   m' = m ∧ ∃ known, verdict = RejectStale known) ∧
  ((∀ x, x ∈ ds → same_session x d →
      (generation (dg_fenced x) ≤ generation (dg_fenced d))%Z) →
   ∃ advanced, verdict = Accept advanced) ∧
  (∀ h, heap m' !! h ≠ heap m !! h →
     ∃ c r idx rest, dg_payload d = idx :: rest ∧
       rooms m !! (c, session_id (dg_fenced d)) = Some h ∧
       (∀ c', is_Some (rooms m !! (c', session_id (dg_fenced d))) → c' = c) ∧
       heap m !! h = Some r ∧ heap m' !! h = Some (deliver_prefixed r idx (dg_payload d))).
Proof.
  pose proof (media_run_floor m0 ∅ [] ds) as Hf. simpl in Hf.
  destruct (media_run m0 ∅ ds) as [m seen]. simpl in Hf.
  assert (floor_inv ∅ []) as He by (intros s; rewrite lookup_empty; intros x ?%elem_of_nil; done).
  specialize (Hf He (session_id (dg_fenced d))).
  destruct (deliver_media_spec m d) as [Hrooms Hheap].
  unfold on_media_datagram, check, same_session.
  destruct (seen !! session_id (dg_fenced d)) as [k|] eqn:Hk.
  - destruct Hf as [(x & Hx & Hxs & Hxg) Hmax].
    destruct (Z.ltb_spec (generation (dg_fenced d)) k) as [Hlt|Hge].
    + split; [done|]. split; [by eauto|]. split; [|done].
      intros Hall. specialize (Hall x Hx Hxs). lia.
    + split; [done|]. split; [|by eauto].
      intros (y & Hy & Hys & Hyg). specialize (Hmax y Hy Hys). lia.
  - split; [done|]. split; [|by eauto]. intros (y & Hy & Hys & _). by destruct (Hf y Hy).
Qed.

(** ** Witnesses *)

Module Sample.

(** Two peers join, the first leaves and its control queue is read, a third joins. *)
Definition history : list room_op :=
  [AddPeer 1 "alice" 3; AddPeer 2 "bob" 3; BroadcastControl "joined bob"; RecvCtrl 2;
   RemovePeer 1; BroadcastControl "left alice"; AddPeerAt 3 "carol" 3 254].

Abbreviation room := (run history (room_new 10 20)) (only parsing).

Lemma history_ok : ops_ok history (room_new 10 20).
Proof. vm_compute. repeat split; congruence. Qed.

End Sample.

Lemma admission_exact_witness :
  let '(r, a) := add_peer Sample.room 4 "dave" 3 in
  a = Ok (0, 1, 5)%Z ∧ d_joined <$> last (roster_tx r) =
    Some (Some {| rp_pubkey := "dave"; rp_index := 0; rp_epoch := 1 |}).
Proof.
  pose proof (admission_exact 10 20 Sample.history 4 "dave" 3 Sample.history_ok eq_refl) as Ha.
  cbv zeta in Ha. revert Ha.
  destruct (add_peer Sample.room 4 "dave" 3) as [r a] eqn:E.
  assert (a = Ok (0, 1, 5)%Z) as ->.
  { change a with (r, a).2. rewrite <- E. vm_compute. reflexivity. }
  intros (_ & _ & _ & _ & _ & _ & _ & _ & _ & Hroster). split; [done|].
  rewrite Hroster, last_snoc. done.
Defined.

Lemma room_invariant_witness :
  ops_ok Sample.history (room_new 10 20) ∧ size (peers Sample.room) ≤ 25 ∧
  replay ∅ (roster_tx Sample.room) !! 254%Z =
    Some {| rp_pubkey := "carol"; rp_index := 254; rp_epoch := 0 |}.
Proof.
  split; [exact Sample.history_ok|].
  destruct (room_invariant 10 20 Sample.history Sample.history_ok) as (Hs & _ & _ & _ & _).
  split; [exact Hs|]. vm_compute. reflexivity.
Defined.

Lemma control_gapless_witness :
  heard 2 Sample.history (room_new 10 20) = [Json "joined bob"] ∧
  told 2 Sample.history (room_new 10 20) = [Json "joined bob"; Json "left alice"].
Proof.
  split; [|vm_compute; reflexivity].
  pose proof (control_gapless 10 20 Sample.history 2 Sample.history_ok) as Hc.
  cbv zeta in Hc. revert Hc.
  destruct (ctrl Sample.room !! 2%N) as [q|] eqn:E; [|vm_compute in E; discriminate].
  intros (_ & Hall & _). vm_compute. reflexivity.
Defined.

Lemma fan_out_frames_exact_witness :
  ∃ q, audio (broadcast_frame Sample.room 2 [7]%Z) !! 3%N = Some q ∧ queue q = [[1; 0; 7]]%Z.
Proof.
  destruct (fan_out_frames_exact 10 20 Sample.history 2
    {| pubkey := "bob"; attached := true; peer_index := 1; epoch := 0; protocol_version := 3 |}
    [7]%Z {| session_id := 20; generation := 1; owner_runtime_id := 7 |} 0 Sample.history_ok
    ltac:(vm_compute; reflexivity)) as (Ha & _).
  eexists. split; [apply (Ha 3%N (channel 8)); vm_compute; reflexivity|vm_compute; reflexivity].
Defined.

Lemma ended_until_cleared_witness :
  let r := run [AddPeer 1 "alice" 3; RemovePeerAndCheck 1] (room_new 10 20) in
  ended (guard r) = true ∧ ended (guard (run [AddPeer 2 "bob" 3] r)) = true.
Proof.
  split; [vm_compute; reflexivity|].
  apply (ended_until_cleared (run [AddPeer 1 "alice" 3; RemovePeerAndCheck 1] (room_new 10 20))
    [AddPeer 2 "bob" 3]); [vm_compute; reflexivity|].
  intros Hin. apply list_elem_of_singleton in Hin. discriminate.
Defined.

Lemma cleanup_orphans_joiner_witness :
  let '(_, h, removed, _, h') := interrupted_join manager_new 10 20 1 "alice" 3 in
  removed = true ∧ h = 0%N ∧ h' = 1%N.
Proof.
  pose proof (cleanup_orphans_joiner manager_new 10 20 1 "alice" 3 eq_refl) as Ho.
  vm_compute in Ho |- *. by destruct Ho.
Defined.
