(* ===== verification/HuddleDirectory.v ===== *)
(** * The huddle's view of the session directory (buzz-relay/src/audio/join.rs)

    [HuddleDirectory] is the trait through which the huddle code reaches the arbiter of
    ownership, and its implementation over [SessionDirectory]. A second implementation over
    the table of leases is its specification: [dir_sim] relates the two, and [call_sim] shows
    that every call keeps them related with equal answers, so that what is proved of a client
    on the table holds of the client on Redis. *)

From S2P Require Import Prelude Text Filter Gossip Membership Wire SessionDirectory LeaseTable.

Open Scope string_scope.
Open Scope nat_scope.
Open Scope list_scope.

Definition HUDDLE_CONTROL_PROFILE : Profile := HuddleControl.

Record Ownership := { o_owner_runtime_id : RuntimeId; o_generation : Z }.

(** [HuddleLease(SessionLease)]; its [generation] and [owner_runtime_id] are the lease's. *)
Definition HuddleLease : Type := SessionLease.

Inductive HuddleRenewOutcome := HRenewed (l : HuddleLease) | HLost.
Inductive HuddleReleaseOutcome := HReleased | HNotOwner.
Inductive AcquireOutcome := HAcquired (l : HuddleLease) | HHeld (o : Ownership).

#[export] Instance Ownership_eq_dec : EqDecision Ownership.
Proof. solve_decision. Defined.

(** The trait, on the state [D] of the directory; [None] is a panic of the caller's task. *)
Class HuddleDirectory (D : Type) := {
  owner_of : CommunityId → Uuid → D → D * result (option Ownership) MeshError;
  h_acquire : CommunityId → Uuid → RuntimeId → D → D * result AcquireOutcome MeshError;
  h_renew : HuddleLease → D → D * option (result HuddleRenewOutcome MeshError);
  h_release : HuddleLease → D → D * option (result HuddleReleaseOutcome MeshError);
  validate : CommunityId → FencedHeader → D → D * result unit MeshError
}.

(** ** The implementation over [SessionDirectory] *)

Definition ownership (l : SessionLease) : Ownership :=
  {| o_owner_runtime_id := l_owner_runtime_id l; o_generation := l_generation l |}.

Definition acquire_outcome (x : AcquireResult) : AcquireOutcome :=
  match x with Acquired l => HAcquired l | Exists l => HHeld (ownership l) end.

Definition renew_outcome (x : RenewResult) : HuddleRenewOutcome :=
  match x with Renewed l => HRenewed l | Lost _ _ => HLost end.

Definition release_outcome (x : ReleaseResult) : HuddleReleaseOutcome :=
  match x with Released _ => HReleased | NotOwner _ _ => HNotOwner end.

(** A directory at work: what is behind it, the time, how the next call ends, and the TTL *)
Record Served (R : Type) := { behind : R; clock : Z; fate : Outcome; lease_ttl : Z }.
Arguments behind {R} s.
Arguments clock {R} s.
Arguments fate {R} s.
Arguments lease_ttl {R} s.

Definition set_behind {R} (d : Served R) (r : R) : Served R :=
  {| behind := r; clock := clock d; fate := fate d; lease_ttl := lease_ttl d |}.

Section directories.
Context `{Redis} `{IdText}.
Context (error_text : DirectoryError → string).

Definition to_mesh {A B} (f : A → B) (x : result A DirectoryError) : result B MeshError :=
  a <-? map_err (λ e, Transport (error_text e)) x ;; Ok (f a).

#[export] Instance session_directory : HuddleDirectory (Served store) := {|
  owner_of c s d :=
    (d, to_mesh (fmap ownership) (lookup_lease (fate d) (clock d) c s (behind d)));
  h_acquire c s owner d :=
    let '(r, x) := acquire (fate d) (clock d) (lease_ttl d) c s owner HUDDLE_CONTROL_PROFILE
                     (behind d) in
    (set_behind d r, to_mesh acquire_outcome x);
  h_renew l d :=
    let '(r, x) := renew (fate d) (clock d) (lease_ttl d) l (behind d) in
    (set_behind d r, to_mesh renew_outcome <$> x);
  h_release l d :=
    let '(r, x) := release (fate d) (clock d) l (behind d) in
    (set_behind d r, to_mesh release_outcome <$> x);
  validate c h d :=
    (d, validate_fenced_header error_text (fate d) (clock d) c h (behind d))
|}.

(** ** The implementation over the table of leases *)

#[export] Instance table_directory : HuddleDirectory (Served (gmap (CommunityId * Uuid) Session)) := {|
  owner_of c s d :=
    (d, to_mesh (fmap ownership)
          (read_answer (fate d) (current_lease (clock d) c s (session_at (behind d) c s))));
  h_acquire c s owner d :=
    let T := behind d in
    (set_behind d match effective (fate d) (ttl_ms (lease_ttl d)) with
                  | Some t => update T c s (claim (clock d) t owner HUDDLE_CONTROL_PROFILE)
                  | None => T end,
     to_mesh acquire_outcome (attempt (fate d) (ttl_ms (lease_ttl d))
       (claim_answer (clock d) c s owner HUDDLE_CONTROL_PROFILE (session_at T c s))));
  h_renew l d :=
    let T := behind d in let c := l_community_id l in let s := l_session_id l in
    (set_behind d match effective (fate d) (ttl_ms (lease_ttl d)) with
                  | Some t => update T c s (extend (clock d) t (l_owner_runtime_id l) (l_generation l))
                  | None => T end,
     Some (to_mesh renew_outcome (attempt (fate d) (ttl_ms (lease_ttl d))
             (extend_answer (clock d) l (session_at T c s)))));
  h_release l d :=
    let T := behind d in let c := l_community_id l in let s := l_session_id l in
    (set_behind d match effective (fate d) (Ok 0%Z) with
                  | Some _ => update T c s (drop_lease (clock d) (l_owner_runtime_id l) (l_generation l))
                  | None => T end,
     Some (to_mesh release_outcome (attempt (fate d) (Ok 0%Z)
             (drop_answer (clock d) l (session_at T c s)))));
  validate c h d :=
    (d, match pool_error (fate d), reply (fate d) with
        | Some e, _ => Err (Transport ("redis pool: " +:+ e))
        | None, Some e => Err (Gossip.Redis e)
        | None, None =>
            fence_answer error_text (clock d) c h (session_at (behind d) c (session_id h))
        end)
|}.

(** ** What others do between two calls *)

(** Requests of other pods, the time that passes after them, and the fate of the next call *)
Record Gap := { g_requests : list (Z * request); g_wait : Z; g_fate : Outcome }.

Definition gap_ok (g : Gap) : Prop := Forall request_ok (g_requests g) ∧ (0 ≤ g_wait g)%Z.

Definition pass {R} (serve_one : Z → request → R → R) (g : Gap) (d : Served R) : Served R :=
  let '(t, r) := foldl (λ '(t, r) '(dt, rq), (t + dt, serve_one (t + dt) rq r)%Z)
                   (clock d, behind d) (g_requests g) in
  {| behind := r; clock := (t + g_wait g)%Z; fate := g_fate g; lease_ttl := lease_ttl d |}.

Definition pass_store : Gap → Served store → Served store :=
  pass (λ t rq r, (serve error_text t rq r).1).

Definition pass_table
  : Gap → Served (gmap (CommunityId * Uuid) Session) → Served (gmap (CommunityId * Uuid) Session) :=
  pass (λ t rq T, (table_serve error_text t rq T).1).

End directories.

(** ** The two implementations agree *)

Section simulation.
Context `{RedisLaws}.
Context (error_text : DirectoryError → string).

Abbreviation Table := (gmap (CommunityId * Uuid) Session) (only parsing).

Definition dir_sim (d : Served store) (a : Served Table) : Prop :=
  store_rel (clock d) (behind d) (behind a) ∧ clock d = clock a ∧ fate d = fate a ∧
  lease_ttl d = lease_ttl a.

(** A call keeps the directories related and answers the same. *)
Definition call_sim {A} (f : Served store → Served store * A) (g : Served Table → Served Table * A)
  : Prop :=
  ∀ d a, dir_sim d a → dir_sim (f d).1 (g a).1 ∧ (f d).2 = (g a).2.

#[local] Existing Instance session_directory.
#[local] Existing Instance table_directory.

Lemma sim_behind d a r T :
  dir_sim d a → store_rel (clock d) r T → dir_sim (set_behind d r) (set_behind a T).
Proof. by intros (_ & Hc & Hf & Hl) Hr. Qed.

Lemma owner_of_sim c s :
  call_sim (owner_of (HuddleDirectory := session_directory error_text) c s)
           (owner_of (HuddleDirectory := table_directory error_text) c s).
Proof.
  intros d a (Hr & Hc & Hf & Hl). split; [done|]. simpl.
  by rewrite (lookup_refines _ _ _ _ _ _ Hr), Hc, Hf.
Qed.

Lemma acquire_sim c s owner :
  (owner < 2 ^ 256)%N →
  call_sim (h_acquire (HuddleDirectory := session_directory error_text) c s owner)
           (h_acquire (HuddleDirectory := table_directory error_text) c s owner).
Proof.
  intros Ho d a Hs. pose proof Hs as (Hr & Hc & Hf & Hl). simpl.
  destruct (acquire_refines (clock d) (fate d) (lease_ttl d) c s owner HUDDLE_CONTROL_PROFILE
    (behind d) (behind a) Hr Ho) as (r' & -> & Hr').
  rewrite Hc, Hf, Hl in *. split; [|done]. apply sim_behind; [done|]. by rewrite Hc.
Qed.

Lemma renew_sim l :
  lease_ok l →
  call_sim (h_renew (HuddleDirectory := session_directory error_text) l)
           (h_renew (HuddleDirectory := table_directory error_text) l).
Proof.
  intros Ho d a Hs. pose proof Hs as (Hr & Hc & Hf & Hl). simpl.
  destruct (renew_refines (clock d) (fate d) (lease_ttl d) l (behind d) (behind a) Hr Ho)
    as (r' & -> & Hr').
  rewrite Hc, Hf, Hl in *. split; [|done]. apply sim_behind; [done|]. by rewrite Hc.
Qed.

Lemma release_sim l :
  lease_ok l →
  call_sim (h_release (HuddleDirectory := session_directory error_text) l)
           (h_release (HuddleDirectory := table_directory error_text) l).
Proof.
  intros Ho d a Hs. pose proof Hs as (Hr & Hc & Hf & Hl). simpl.
  destruct (release_refines (clock d) (fate d) l (behind d) (behind a) Hr Ho)
    as (r' & -> & Hr').
  rewrite Hc, Hf in *. split; [|done]. apply sim_behind; [done|]. by rewrite Hc.
Qed.

Lemma validate_sim c h :
  call_sim (validate (HuddleDirectory := session_directory error_text) c h)
           (validate (HuddleDirectory := table_directory error_text) c h).
Proof.
  intros d a (Hr & Hc & Hf & Hl). split; [done|]. simpl.
  pose proof (validate_refines error_text (clock d) (fate d) c h (behind d) (behind a) Hr) as Hv.
  injection Hv as ->. by rewrite Hc, Hf.
Qed.

Lemma serve_all_sim rqs t r T :
  Forall request_ok rqs → store_rel t r T →
  let a := foldl (λ '(t, r) '(dt, rq), (t + dt, (serve error_text (t + dt) rq r).1)%Z) (t, r) rqs in
  let b := foldl (λ '(t, T) '(dt, rq), (t + dt, (table_serve error_text (t + dt) rq T).1)%Z)
             (t, T) rqs in
  a.1 = b.1 ∧ store_rel a.1 a.2 b.2.
Proof.
  intros Hall. revert t r T. induction Hall as [|[dt rq] rqs [Hdt Hok] _ IH]; intros t r T Hr;
    [done|]. simpl.
  apply (store_rel_later _ (t + dt)%Z) in Hr; [|simpl in Hdt; lia].
  destruct (serve_refines error_text (t + dt)%Z rq r T Hr) as (r' & -> & Hr'); [by split|].
  simpl. by apply IH.
Qed.

Lemma pass_sim g d a :
  gap_ok g → dir_sim d a → dir_sim (pass_store error_text g d) (pass_table error_text g a).
Proof.
  intros [Hall Hw] (Hr & Hc & Hf & Hl). unfold pass_store, pass_table, pass. rewrite <- Hc.
  destruct (serve_all_sim (g_requests g) (clock d) _ _ Hall Hr) as [Ht Hr'].
  destruct (foldl _ _ _) as [t r], (foldl _ _ _) as [t' T]. simpl in *. subst t'.
  split; [|done]. simpl. eapply store_rel_later; [|exact Hr']. lia.
Qed.

End simulation.
