(* ===== verification/HuddleOwners.v ===== *)
(** * Huddle owner leases (buzz-relay/src/audio/join.rs)

    [HuddleOwnerRegistry] with its cancellation tokens and the renewer tasks it spawns, the
    renewer's loop, and their interleavings with a shutdown drain and with what other pods do
    to the directory.

    A [CancellationToken] is a number with the role it was made for; the registry's record
    also holds the tokens that were cancelled and the tasks that were spawned. [attach_signals]
    is the composition of its four accesses to shared state; the system interleaves them with
    everything else, other attaches included: the registry is keyed by the session id alone
    and connections attach concurrently, so two attaches of one session may both find no
    entry, and the second to insert then replaces the entry of the first. *)

From S2P Require Import Prelude Text Filter Gossip Membership Wire SessionDirectory LeaseTable HuddleDirectory.

Open Scope string_scope.
Open Scope nat_scope.
Open Scope list_scope.

Inductive Role := ForCancel | ForLost | ForDrain.

#[export] Instance Role_eq_dec : EqDecision Role.
Proof. solve_decision. Defined.

#[export] Instance Role_countable : Countable Role.
Proof.
  refine (inj_countable' (λ x, match x with ForCancel => 0 | ForLost => 1 | ForDrain => 2 end)
    (λ n, match n with 0 => ForCancel | 1 => ForLost | _ => ForDrain end) _).
  by intros [].
Defined.

Abbreviation Token := (Role * N)%type (only parsing).

(** [caller_cancelled]: was the loop left because of the caller's cancel? *)
Inductive Phase :=
  | Renewing
  | Releasing (caller_cancelled : bool)
  | Stopped (caller_cancelled : bool) (answer : result HuddleReleaseOutcome MeshError)
  | Panicked (lost : bool).

Record HuddleLeaseRenewer := {
  rn_lease : HuddleLease;
  rn_cancel : Token;
  rn_lost : Token;
  rn_phase : Phase
}.

Record HuddleOwnerEntry := {
  lost : Token;
  draining : Token;
  cancel : Token;
  e_generation : Z
}.

Record HuddleOwnerSignals := { sig_lost : Token; sig_draining : Token }.

Record HuddleOwnerRegistry := {
  entries : gmap Uuid HuddleOwnerEntry;
  is_draining : bool;
  minted : N;
  cancelled : gset Token;
  tasks : list HuddleLeaseRenewer
}.

Definition registry_new : HuddleOwnerRegistry :=
  {| entries := ∅; is_draining := false; minted := 0; cancelled := ∅; tasks := [] |}.

(** ** Tokens and tasks *)

(** [CancellationToken::new()] *)
Definition mint (x : Role) (r : HuddleOwnerRegistry) : HuddleOwnerRegistry * Token :=
  ({| entries := entries r; is_draining := is_draining r; minted := (minted r + 1)%N;
      cancelled := cancelled r; tasks := tasks r |}, (x, minted r)).

Definition cancel_tokens (ts : gset Token) (r : HuddleOwnerRegistry) : HuddleOwnerRegistry :=
  {| entries := entries r; is_draining := is_draining r; minted := minted r;
     cancelled := ts ∪ cancelled r; tasks := tasks r |}.

Definition set_entries (es : gmap Uuid HuddleOwnerEntry) (r : HuddleOwnerRegistry)
  : HuddleOwnerRegistry :=
  {| entries := es; is_draining := is_draining r; minted := minted r;
     cancelled := cancelled r; tasks := tasks r |}.

Definition set_tasks (ts : list HuddleLeaseRenewer) (r : HuddleOwnerRegistry)
  : HuddleOwnerRegistry :=
  {| entries := entries r; is_draining := is_draining r; minted := minted r;
     cancelled := cancelled r; tasks := ts |}.

Definition set_draining (r : HuddleOwnerRegistry) : HuddleOwnerRegistry :=
  {| entries := entries r; is_draining := true; minted := minted r;
     cancelled := cancelled r; tasks := tasks r |}.

(** The renewer mints its own loss signal and starts in its loop. *)
Definition spawn_observable_huddle_renewer (l : HuddleLease) (c : Token) (r : HuddleOwnerRegistry)
  : HuddleOwnerRegistry * Token :=
  let '(r, lost) := mint ForLost r in
  (set_tasks (tasks r ++ [{| rn_lease := l; rn_cancel := c; rn_lost := lost; rn_phase := Renewing |}]) r,
   lost).

(** ** Registry operations *)

Definition lost_for (s : Uuid) (r : HuddleOwnerRegistry) : option Token := lost <$> entries r !! s.

Definition drain_for (s : Uuid) (r : HuddleOwnerRegistry) : option Token :=
  draining <$> entries r !! s.

(** A renewer that is cancelled before it starts: it only releases the lease. *)
Definition throw_away (l : HuddleLease) (r : HuddleOwnerRegistry) : HuddleOwnerRegistry :=
  let '(r, c) := mint ForCancel r in
  (spawn_observable_huddle_renewer l c (cancel_tokens {[c]} r)).1.

(** The first check: a draining registry refuses. *)
Definition attach_refused (l : HuddleLease) (r : HuddleOwnerRegistry)
  : HuddleOwnerRegistry * HuddleOwnerSignals :=
  let r := throw_away l r in
  let '(r, d) := mint ForDrain r in
  let r := cancel_tokens {[d]} r in
  let '(r, lo) := mint ForLost r in
  (r, {| sig_lost := lo; sig_draining := d |}).

Definition attach_insert (s : Uuid) (l : HuddleLease) (r : HuddleOwnerRegistry)
  : HuddleOwnerRegistry * HuddleOwnerEntry :=
  let '(r, c) := mint ForCancel r in
  let '(r, lo) := spawn_observable_huddle_renewer l c r in
  let '(r, d) := mint ForDrain r in
  let e := {| lost := lo; draining := d; cancel := c; e_generation := l_generation l |} in
  (set_entries (<[s := e]> (entries r)) r, e).

(** [DashMap::remove_if] on the generation, with the tokens that the closure cancels *)
Definition remove_epoch (s : Uuid) (g : Z) (also : HuddleOwnerEntry → gset Token)
    (r : HuddleOwnerRegistry) : HuddleOwnerRegistry * bool :=
  match entries r !! s with
  | Some e =>
      if (e_generation e =? g)%Z
      then (cancel_tokens (also e) (set_entries (delete s (entries r)) r), true)
      else (r, false)
  | None => (r, false)
  end.

Definition drain_tokens (e : HuddleOwnerEntry) : gset Token := {[draining e; cancel e]}.

(** The second look at the draining flag *)
Definition attach_recheck (s : Uuid) (e : HuddleOwnerEntry) (r : HuddleOwnerRegistry)
  : HuddleOwnerRegistry :=
  if is_draining r then
    cancel_tokens (drain_tokens e) (remove_epoch s (e_generation e) drain_tokens r).1
  else r.

Definition signals (e : HuddleOwnerEntry) : HuddleOwnerSignals :=
  {| sig_lost := lost e; sig_draining := draining e |}.

Definition attach_signals (s : Uuid) (l : HuddleLease) (r : HuddleOwnerRegistry)
  : HuddleOwnerRegistry * HuddleOwnerSignals :=
  if is_draining r then attach_refused l r
  else
    match entries r !! s with
    | Some existing => (throw_away l r, signals existing)
    | None => let '(r, e) := attach_insert s l r in (attach_recheck s e r, signals e)
    end.

Definition attach (s : Uuid) (l : HuddleLease) (r : HuddleOwnerRegistry)
  : HuddleOwnerRegistry * Token :=
  let '(r, sg) := attach_signals s l r in (r, sig_lost sg).

Definition release (s : Uuid) (g : Z) (r : HuddleOwnerRegistry) : HuddleOwnerRegistry :=
  (remove_epoch s g (λ e, {[cancel e]}) r).1.

Definition drain (s : Uuid) (g : Z) (r : HuddleOwnerRegistry) : HuddleOwnerRegistry * bool :=
  remove_epoch s g drain_tokens r.

(** The rooms that [drain_all] collects before it drains them one by one *)
Definition drain_rooms (r : HuddleOwnerRegistry) : list (Uuid * Z) :=
  prod_map id e_generation <$> map_to_list (entries r).

Definition drain_each (rooms : list (Uuid * Z)) (r : HuddleOwnerRegistry)
  : HuddleOwnerRegistry * nat :=
  foldl (λ '(r, n) '(s, g), let '(r, b) := drain s g r in (r, if b then S n else n)) (r, 0) rooms.

Definition drain_all (r : HuddleOwnerRegistry) : HuddleOwnerRegistry * nat :=
  let r := set_draining r in drain_each (drain_rooms r) r.

(** ** The renewer task *)

Section renewer.
Context {D : Type} `{HuddleDirectory D}.

Definition set_phase (i : nat) (p : Phase) (r : HuddleOwnerRegistry) : HuddleOwnerRegistry :=
  set_tasks (alter (λ t, {| rn_lease := rn_lease t; rn_cancel := rn_cancel t;
                            rn_lost := rn_lost t; rn_phase := p |}) i (tasks r)) r.

(** The arm [interval.tick()] of the task's loop *)
Definition renew_tick (i : nat) (t : HuddleLeaseRenewer) (r : HuddleOwnerRegistry) (d : D)
  : HuddleOwnerRegistry * D :=
  let '(d, x) := h_renew (rn_lease t) d in
  (match x with
   | None => set_phase i (Panicked false) r
   | Some (Ok (HRenewed _)) => r
   | Some (Ok HLost) | Some (Err _) =>
       set_phase i (Releasing false) (cancel_tokens {[rn_lost t]} r)
   end, d).

(** The end of the task *)
Definition final_release (i : nat) (t : HuddleLeaseRenewer) (caller_cancelled : bool)
    (r : HuddleOwnerRegistry) (d : D) : HuddleOwnerRegistry * D :=
  let '(d, x) := h_release (rn_lease t) d in
  (match x with
   | None => set_phase i (Panicked (negb caller_cancelled)) r
   | Some a =>
       let r := match a with
                | Ok HReleased => r
                | Ok HNotOwner => cancel_tokens {[rn_lost t]} r
                | Err _ => if caller_cancelled then r else cancel_tokens {[rn_lost t]} r
                end in
       set_phase i (Stopped caller_cancelled a) r
   end, d).

(** ** The system *)

(** How far the connection that was granted a lease is with attaching it; the lease moves
    into the call, so that it is attached once. *)
Inductive Attaching :=
  | AtGet (l : HuddleLease)
  | AtInsert (l : HuddleLease)
  | AtRecheck (s : Uuid) (e : HuddleOwnerEntry)
  | Attached.

Inductive Draining := NotBegun | Begun | Rooms (todo : list (Uuid * Z)).

(** [attaching] is by the position of the lease in [granted]. *)
Record System := {
  reg : HuddleOwnerRegistry;
  dir : D;
  granted : list HuddleLease;
  attaching : gmap nat Attaching;
  shutdown : Draining
}.

Inductive event :=
  | Acquire (c : CommunityId) (s : Uuid) (owner : RuntimeId)
  | AttachCheck (n : nat)
  | AttachStep (n : nat)
  | Release (s : Uuid) (g : Z)
  | DrainStore
  | DrainCollect
  | DrainNext
  | Tick (i : nat)
  | SeeCancel (i : nat)
  | LetGo (i : nat)
  | Others (g : Gap).

Context (others : Gap → D → D).

Definition with_reg (x : System) (r : HuddleOwnerRegistry) : System :=
  {| reg := r; dir := dir x; granted := granted x; attaching := attaching x;
     shutdown := shutdown x |}.

Definition with_attaching (x : System) (r : HuddleOwnerRegistry) (a : gmap nat Attaching)
  : System :=
  {| reg := r; dir := dir x; granted := granted x; attaching := a; shutdown := shutdown x |}.

Definition with_dir (x : System) (r : HuddleOwnerRegistry) (d : D) : System :=
  {| reg := r; dir := d; granted := granted x; attaching := attaching x;
     shutdown := shutdown x |}.

Definition with_shutdown (x : System) (r : HuddleOwnerRegistry) (s : Draining) : System :=
  {| reg := r; dir := dir x; granted := granted x; attaching := attaching x; shutdown := s |}.

Definition attach_step (n : nat) (a : Attaching) (x : System) : System :=
  match a with
  | AtGet l =>
      match entries (reg x) !! l_session_id l with
      | Some _ => with_attaching x (throw_away l (reg x)) (<[n := Attached]> (attaching x))
      | None => with_attaching x (reg x) (<[n := AtInsert l]> (attaching x))
      end
  | AtInsert l =>
      let '(r, e) := attach_insert (l_session_id l) l (reg x) in
      with_attaching x r (<[n := AtRecheck (l_session_id l) e]> (attaching x))
  | AtRecheck s e =>
      with_attaching x (attach_recheck s e (reg x)) (<[n := Attached]> (attaching x))
  | Attached => x
  end.

(** An event that is not possible in a state changes nothing. *)
Definition step (ev : event) (x : System) : System :=
  match ev with
  | Acquire c s owner =>
      let '(d, a) := h_acquire c s owner (dir x) in
      {| reg := reg x; dir := d;
         granted := match a with Ok (HAcquired l) => granted x ++ [l] | _ => granted x end;
         attaching := attaching x; shutdown := shutdown x |}
  | AttachCheck n =>
      match granted x !! n, attaching x !! n with
      | Some l, None =>
          if is_draining (reg x)
          then with_attaching x (attach_refused l (reg x)).1 (<[n := Attached]> (attaching x))
          else with_attaching x (reg x) (<[n := AtGet l]> (attaching x))
      | _, _ => x
      end
  | AttachStep n =>
      match attaching x !! n with Some a => attach_step n a x | None => x end
  | Release s g => with_reg x (release s g (reg x))
  | DrainStore =>
      match shutdown x with
      | NotBegun => with_shutdown x (set_draining (reg x)) Begun
      | _ => x
      end
  | DrainCollect =>
      match shutdown x with
      | Begun => with_shutdown x (reg x) (Rooms (drain_rooms (reg x)))
      | _ => x
      end
  | DrainNext =>
      match shutdown x with
      | Rooms ((s, g) :: todo) => with_shutdown x (drain s g (reg x)).1 (Rooms todo)
      | _ => x
      end
  | Tick i =>
      match tasks (reg x) !! i with
      | Some t =>
          match rn_phase t with
          | Renewing => let '(r, d) := renew_tick i t (reg x) (dir x) in with_dir x r d
          | _ => x
          end
      | None => x
      end
  | SeeCancel i =>
      match tasks (reg x) !! i with
      | Some t =>
          match rn_phase t with
          | Renewing =>
              if decide (rn_cancel t ∈ cancelled (reg x))
              then with_reg x (set_phase i (Releasing true) (reg x)) else x
          | _ => x
          end
      | None => x
      end
  | LetGo i =>
      match tasks (reg x) !! i with
      | Some t =>
          match rn_phase t with
          | Releasing b => let '(r, d) := final_release i t b (reg x) (dir x) in with_dir x r d
          | _ => x
          end
      | None => x
      end
  | Others g => with_dir x (reg x) (others g (dir x))
  end.

Definition run (evs : list event) (x : System) : System := foldl (λ x ev, step ev x) x evs.

Definition booted (d : D) : System :=
  {| reg := registry_new; dir := d; granted := []; attaching := ∅; shutdown := NotBegun |}.

End renewer.
Arguments System D : clear implicits.
