(* ===== verification/HuddleOwnersSpec.v ===== *)
(** * Correctness of the huddle owner leases

    The invariants of the registry ([reg_ok]) and of the system around it ([sys_ok]), kept by
    every event, with the renewers whose entry an overlapping attach replaced set apart
    ([overwritten], which takes an [overlap]); leases that can never be live again ([gone]),
    over the table of leases that the Redis directory implements; and the theorems on
    renewers, shutdown and sharing. *)

From S2P Require Import Prelude Text Filter Gossip Membership Wire SessionDirectory LeaseTable HuddleDirectory HuddleOwners.

Open Scope string_scope.
Open Scope nat_scope.
Open Scope list_scope.

(** ** The invariant of the registry *)

(** The entry of a session and the task that renews its lease *)
Definition owned_by_entry (s : Uuid) (e : HuddleOwnerEntry) (t : HuddleLeaseRenewer) : Prop :=
  l_session_id (rn_lease t) = s ∧ rn_cancel t = cancel e ∧ rn_lost t = lost e ∧
  l_generation (rn_lease t) = e_generation e.

(** The loss signal is fired by a failed renewal, or by a release that finds the lease moved. *)
Definition lost_owner (p : Phase) : bool :=
  match p with
  | Renewing | Releasing true | Stopped true (Ok HReleased) | Stopped true (Err _) => false
  | Releasing false | Stopped false _ | Stopped true (Ok HNotOwner) => true
  | Panicked lost => lost
  end.

(** [P] says of which renewers, by their session and cancel token, the entry was replaced. *)
Record reg_ok (P : Uuid → Token → Prop) (r : HuddleOwnerRegistry) : Prop := {
  ok_minted x n : (x, n) ∈ cancelled r → (n < minted r)%N;
  ok_task_cancel i t : tasks r !! i = Some t →
    ∃ n, rn_cancel t = (ForCancel, n) ∧ (n < minted r)%N;
  ok_task_lost i t : tasks r !! i = Some t →
    ∃ n, rn_lost t = (ForLost, n) ∧ (n < minted r)%N;
  ok_cancel_inj i j t u : tasks r !! i = Some t → tasks r !! j = Some u →
    rn_cancel t = rn_cancel u → i = j;
  ok_lost_inj i j t u : tasks r !! i = Some t → tasks r !! j = Some u →
    rn_lost t = rn_lost u → i = j;
  ok_entry s e : entries r !! s = Some e →
    (cancel e ∉ cancelled r) ∧ (draining e).1 = ForDrain ∧ ((draining e).2 < minted r)%N ∧
    ∃ i t, tasks r !! i = Some t ∧ owned_by_entry s e t;
  ok_task i t : tasks r !! i = Some t → rn_cancel t ∉ cancelled r →
    P (l_session_id (rn_lease t)) (rn_cancel t) ∨ ∃ e, entries r !! l_session_id (rn_lease t) = Some e ∧
      owned_by_entry (l_session_id (rn_lease t)) e t;
  ok_loss i t : tasks r !! i = Some t → (rn_lost t ∈ cancelled r) ↔ lost_owner (rn_phase t) = true
}.

Arguments ok_minted {P} r _ x n _.
Arguments ok_task_cancel {P} r _ i t _.
Arguments ok_task_lost {P} r _ i t _.
Arguments ok_cancel_inj {P} r _ i j t u _ _ _.
Arguments ok_lost_inj {P} r _ i j t u _ _ _.
Arguments ok_entry {P} r _ s e _.
Arguments ok_task {P} r _ i t _ _.
Arguments ok_loss {P} r _ i t _.

Lemma reg_ok_weaken (P Q : Uuid → Token → Prop) (r : HuddleOwnerRegistry) :
  (∀ s c, P s c → Q s c) → reg_ok P r → reg_ok Q r.
Proof. intros HPQ []. split; eauto. naive_solver. Qed.

(** The renewer whose entry an insert replaces *)
Definition replaced (s : Uuid) (r : HuddleOwnerRegistry) (c : Token) : Prop :=
  ∃ e, entries r !! s = Some e ∧ cancel e = c.

Lemma drain_tokens_ok (e : HuddleOwnerEntry) :
  cancel e ∈ drain_tokens e ∧ ∀ x, x ∈ drain_tokens e → x = cancel e ∨ x = draining e.
Proof. unfold drain_tokens. set_solver. Qed.

Section registry.
Context {P : Uuid → Token → Prop}.

Lemma registry_new_ok : reg_ok P registry_new.
Proof. split; simpl; set_solver. Qed.

Lemma cancel_drain_ok (n : N) (r : HuddleOwnerRegistry) :
  reg_ok P r → (n < minted r)%N → reg_ok P (cancel_tokens {[(ForDrain, n)]} r).
Proof.
  intros Hr Hn. split; simpl; intros; eauto using ok_task_cancel, ok_task_lost, ok_cancel_inj, ok_lost_inj.
  - rewrite elem_of_union, elem_of_singleton in *. destruct H as [[= -> ->]|?]; [done|].
    by eapply ok_minted.
  - destruct (ok_entry _ Hr _ _ H) as (Hc & Hd & Hm & i & t & Ht & Ho).
    destruct (ok_task_cancel _ Hr _ _ Ht) as (k & Hk & _). destruct Ho as (Hs & Hec & Ho).
    split_and!; try done; [|by exists i, t]. rewrite <- Hec, Hk in *. set_solver.
  - apply (ok_task _ Hr i); [done|set_solver].
  - rewrite <- (ok_loss _ Hr i t) by done. destruct (ok_task_lost _ Hr _ _ H) as (k & -> & _).
    set_solver.
Qed.

Lemma mint_ok (x : Role) (r : HuddleOwnerRegistry) : reg_ok P r → reg_ok P (mint x r).1.
Proof.
  intros Hr. split; simpl; intros; eauto 6 using ok_cancel_inj, ok_lost_inj, ok_task, ok_loss.
  - pose proof (ok_minted _ Hr _ _ H). lia.
  - destruct (ok_task_cancel _ Hr _ _ H) as (k & ? & ?). exists k. split; [done|lia].
  - destruct (ok_task_lost _ Hr _ _ H) as (k & ? & ?). exists k. split; [done|lia].
  - destruct (ok_entry _ Hr _ _ H) as (? & ? & ? & ?). split_and!; try done. lia.
Qed.

(** What a new task looks like in the list of tasks *)
Lemma lookup_snoc_task (ts : list HuddleLeaseRenewer) (t u : HuddleLeaseRenewer) (i : nat) :
  (ts ++ [t]) !! i = Some u ↔ ts !! i = Some u ∨ (i = length ts ∧ u = t).
Proof.
  rewrite lookup_app_Some. split.
  - intros [?|[Hi Hu]]; [by left|]. right. apply list_lookup_singleton_Some in Hu as [? ->].
    split; [lia|done].
  - intros [?|[-> ->]]; [by left|]. right. split; [lia|]. by rewrite Nat.sub_diag.
Qed.

Lemma fresh_cancel (r : HuddleOwnerRegistry) (i : nat) (t : HuddleLeaseRenewer) (n : N) :
  reg_ok P r → tasks r !! i = Some t → (minted r ≤ n)%N → rn_cancel t ≠ (ForCancel, n).
Proof. intros Hr Ht Hn. destruct (ok_task_cancel _ Hr _ _ Ht) as (k & -> & ?). intros [= ->]. lia. Qed.

Lemma fresh_lost (r : HuddleOwnerRegistry) (i : nat) (t : HuddleLeaseRenewer) (n : N) :
  reg_ok P r → tasks r !! i = Some t → (minted r ≤ n)%N → rn_lost t ≠ (ForLost, n).
Proof. intros Hr Ht Hn. destruct (ok_task_lost _ Hr _ _ Ht) as (k & -> & ?). intros [= ->]. lia. Qed.

Lemma fresh_token (r : HuddleOwnerRegistry) (x : Role) (n : N) :
  reg_ok P r → (minted r ≤ n)%N → (x, n) ∉ cancelled r.
Proof. intros Hr Hn Hin. pose proof (ok_minted _ Hr _ _ Hin). lia. Qed.

(** A registry with one more task, whose tokens are new; [es] and [ts] say whether an entry
    or a cancelled token goes with it. *)
Lemma new_task_ok (r : HuddleOwnerRegistry) (l : HuddleLease) (b : bool) :
  reg_ok P r →
  let c := (ForCancel, minted r) in
  let lo := (ForLost, minted r + 1)%N in
  let d := (ForDrain, minted r + 2)%N in
  let e := {| lost := lo; draining := d; cancel := c; e_generation := l_generation l |} in
  reg_ok (λ s x, P s x ∨ (b = false ∧ s = l_session_id l ∧ replaced s r x))
         {| entries := if b then entries r else <[l_session_id l := e]> (entries r);
            is_draining := is_draining r;
            minted := (minted r + if b then 2 else 3)%N;
            cancelled := if b then {[c]} ∪ cancelled r else cancelled r;
            tasks := tasks r ++ [{| rn_lease := l; rn_cancel := c; rn_lost := lo;
                                    rn_phase := Renewing |}] |}.
Proof.
  intros Hr c lo d e. set (t0 := Build_HuddleLeaseRenewer _ _ _ _).
  assert ((lo ∉ cancelled r) ∧ c ∉ cancelled r) as [Hlo Hc].
  { split; apply fresh_token; (done || lia). }
  assert (∀ i t, tasks r !! i = Some t → rn_cancel t ≠ c ∧ rn_lost t ≠ lo) as Hfresh.
  { intros i t Ht. split; [eapply fresh_cancel|eapply fresh_lost]; eauto; lia. }
  assert (∀ x, (x ∈ if b then {[c]} ∪ cancelled r else cancelled r) ↔
            (b = true ∧ x = c) ∨ x ∈ cancelled r) as Hin by (intros x; destruct b; set_solver).
  split; cbn [entries minted cancelled tasks].
  - intros x n [[_ [= -> ->]]|Hx]%Hin; [destruct b; lia|]. pose proof (ok_minted _ Hr _ _ Hx).
    destruct b; lia.
  - intros i t [Ht|[_ ->]]%lookup_snoc_task.
    + destruct (ok_task_cancel _ Hr _ _ Ht) as (k & ? & ?). exists k. split; [done|destruct b; lia].
    + eexists. split; [done|destruct b; lia].
  - intros i t [Ht|[_ ->]]%lookup_snoc_task.
    + destruct (ok_task_lost _ Hr _ _ Ht) as (k & ? & ?). exists k. split; [done|destruct b; lia].
    + eexists. split; [done|destruct b; lia].
  - intros i j t u [Ht|[-> ->]]%lookup_snoc_task [Hu|[-> ->]]%lookup_snoc_task Heq; try done.
    + by eapply ok_cancel_inj.
    + by destruct (Hfresh _ _ Ht).
    + by destruct (Hfresh _ _ Hu).
  - intros i j t u [Ht|[-> ->]]%lookup_snoc_task [Hu|[-> ->]]%lookup_snoc_task Heq; try done.
    + by eapply ok_lost_inj.
    + by destruct (Hfresh _ _ Ht).
    + by destruct (Hfresh _ _ Hu).
  - intros s e' He.
    assert (entries r !! s = Some e' ∨ (b = false ∧ s = l_session_id l ∧ e' = e)) as [He'|(-> & -> & ->)].
    { destruct b; [by left|]. apply lookup_insert_Some in He as [[<- <-]|[_ ?]]; auto. }
    + destruct (ok_entry _ Hr _ _ He') as (Hn & Hd & Hm & i & t & Ht & Ho).
      split_and!; [|done|destruct b; lia|].
      * intros [[_ Heq]|?]%Hin; [|done]. destruct Ho as (_ & Ho & _).
        apply (proj1 (Hfresh _ _ Ht)). congruence.
      * exists i, t. split; [|done]. apply lookup_snoc_task. by left.
    + simpl. split_and!; [done|done|lia|]. exists (length (tasks r)), t0. split; [|done].
      apply lookup_snoc_task. by right.
  - intros i t [Ht|[-> ->]]%lookup_snoc_task Hn.
    + destruct (ok_task _ Hr _ _ Ht) as [?|(e' & He & Ho)]; [intros ?; apply Hn, Hin; by right|auto|].
      destruct b; [right; by exists e'|].
      destruct (decide (l_session_id (rn_lease t) = l_session_id l)) as [Heq|].
      * left. right. split_and!; [done..|]. exists e'. split; [done|]. by destruct Ho as (_ & -> & _).
      * right. exists e'. split; [|done]. by apply lookup_insert_Some; right.
    + destruct b; [exfalso; apply Hn, Hin; by left|]. right. exists e. split; [|done].
      by rewrite lookup_insert_eq.
  - intros i t [Ht|[-> ->]]%lookup_snoc_task.
    + rewrite <- (ok_loss _ Hr i t) by done. rewrite Hin. split; [|by right].
      intros [[_ Heq]|?]; [|done]. destruct (ok_task_lost _ Hr _ _ Ht) as (k & Hk & _). by rewrite Hk in Heq.
    + simpl. rewrite Hin. split; [|done]. by intros [[_ ?]|?].
Qed.

Lemma throw_away_ok (l : HuddleLease) (r : HuddleOwnerRegistry) :
  reg_ok P r → reg_ok P (throw_away l r).
Proof.
  intros Hr. pose proof (new_task_ok r l true Hr) as Hn. simpl in Hn.
  apply (reg_ok_weaken _ P) in Hn; [|by intros s c [?|[? _]]].
  unfold throw_away. simpl. unfold set_tasks. simpl.
  replace (minted r + 1 + 1)%N with (minted r + 2)%N by lia. done.
Qed.

Lemma attach_refused_ok (l : HuddleLease) (r : HuddleOwnerRegistry) :
  reg_ok P r → reg_ok P (attach_refused l r).1.
Proof.
  intros Hr. unfold attach_refused. pose proof (throw_away_ok l r Hr) as Ht.
  pose proof (mint_ok ForDrain _ Ht) as Hm. cbn [mint fst snd].
  apply (mint_ok ForLost), cancel_drain_ok; [done|]. simpl. lia.
Qed.

Lemma attach_insert_ok (s : Uuid) (l : HuddleLease) (r : HuddleOwnerRegistry) :
  reg_ok P r → l_session_id l = s →
  let '(r', e) := attach_insert s l r in
  reg_ok (λ s' c, P s' c ∨ (s' = s ∧ replaced s' r c)) r' ∧ entries r' = <[s := e]> (entries r) ∧ is_draining r' = is_draining r ∧
  cancelled r' = cancelled r ∧
  tasks r' = tasks r ++ [{| rn_lease := l; rn_cancel := cancel e; rn_lost := lost e;
                            rn_phase := Renewing |}] ∧ e_generation e = l_generation l.
Proof.
  intros Hr <-. pose proof (new_task_ok r l false Hr) as Hn. simpl in Hn.
  apply (reg_ok_weaken _ (λ s c, P s c ∨ (s = l_session_id l ∧ replaced s r c))) in Hn; [|naive_solver].
  unfold attach_insert, set_entries. simpl. split_and!; try done.
  replace (minted r + 1 + 1 + 1)%N with (minted r + 3)%N by lia.
  replace (minted r + 1 + 1)%N with (minted r + 2)%N by lia. done.
Qed.

(** Two entries, or an entry and a task, that share a cancel token are the same. *)
Lemma entry_cancel_inj (r : HuddleOwnerRegistry) (s s' : Uuid) (e e' : HuddleOwnerEntry) :
  reg_ok P r → entries r !! s = Some e → entries r !! s' = Some e' → cancel e = cancel e' → s = s'.
Proof.
  intros Hr He He' Heq. destruct (ok_entry _ Hr _ _ He) as (_ & _ & _ & i & t & Ht & Hs & Hc & _).
  destruct (ok_entry _ Hr _ _ He') as (_ & _ & _ & j & u & Hu & Hs' & Hc' & _).
  assert (i = j) as -> by (eapply (ok_cancel_inj _ Hr); [done..|congruence]). congruence.
Qed.

(** Dropping the entry of a session while its cancel token, and perhaps its drain signal, is
    fired *)
Lemma drop_entry_ok (r : HuddleOwnerRegistry) (s : Uuid) (e : HuddleOwnerEntry) (ts : gset Token) :
  reg_ok P r → entries r !! s = Some e → cancel e ∈ ts → (∀ x, x ∈ ts → x = cancel e ∨ x = draining e) →
  reg_ok P (cancel_tokens ts (set_entries (delete s (entries r)) r)).
Proof.
  intros Hr He Hin Hts. destruct (ok_entry _ Hr _ _ He) as (Hn & Hd & Hm & i0 & t0 & Ht0 & Hs0 & Hc0 & _).
  destruct (ok_task_cancel _ Hr _ _ Ht0) as (k0 & Hk0 & Hlt0).
  assert (∀ x, x ∈ ts → x = (ForCancel, k0) ∨ x = (ForDrain, (draining e).2)) as Hts'.
  { intros x [->| ->]%Hts; [left; congruence|right]. destruct (draining e). simpl in *. congruence. }
  split; cbn [entries minted cancelled tasks cancel_tokens set_entries];
    eauto using ok_task_cancel, ok_task_lost, ok_cancel_inj, ok_lost_inj.
  - intros x n [[[= _ ->]|[= _ ->]]%Hts'|?]%elem_of_union; [done|done|by eapply ok_minted].
  - intros s' e' [Hne He']%lookup_delete_Some.
    destruct (ok_entry _ Hr _ _ He') as (Hn' & Hd' & Hm' & i & t & Ht & Hst & Hct & Ho).
    split_and!; try done; [|by exists i, t].
    destruct (ok_task_cancel _ Hr _ _ Ht) as (k & Hk & _).
    intros [[Hx|Hx]%Hts|?]%elem_of_union; [|rewrite <- Hct, Hk in Hx; by destruct (draining e); simplify_eq|done].
    apply Hne. by eapply entry_cancel_inj.
  - intros i t Ht Hni. destruct (ok_task _ Hr _ _ Ht ltac:(set_solver)) as [?|(e' & He' & Ho)]; [by left|].
    right. exists e'. split; [|done]. apply lookup_delete_Some. split; [|done]. intros Heq.
    apply Hni, elem_of_union_l. destruct Ho as (_ & -> & _). rewrite Heq, He' in He.
    injection He as ->. done.
  - intros i t Ht. rewrite <- (ok_loss _ Hr i t) by done.
    destruct (ok_task_lost _ Hr _ _ Ht) as (k & Hk & _). rewrite elem_of_union. split; [|by right].
    intros [Hx%Hts'|?]; [|done]. rewrite Hk in Hx. by destruct Hx.
Qed.

Lemma remove_epoch_ok (r : HuddleOwnerRegistry) (s : Uuid) (g : Z)
    (also : HuddleOwnerEntry → gset Token) :
  reg_ok P r → (∀ e, cancel e ∈ also e ∧ ∀ x, x ∈ also e → x = cancel e ∨ x = draining e) →
  reg_ok P (remove_epoch s g also r).1.
Proof.
  intros Hr Ha. unfold remove_epoch. destruct (entries r !! s) as [e|] eqn:He; [|done].
  destruct (e_generation e =? g)%Z; [|done]. apply drop_entry_ok with e; [done|done|apply Ha..].
Qed.

Lemma release_ok (s : Uuid) (g : Z) (r : HuddleOwnerRegistry) : reg_ok P r → reg_ok P (release s g r).
Proof. intros Hr. apply remove_epoch_ok; [done|]. set_solver. Qed.

Lemma drain_ok (s : Uuid) (g : Z) (r : HuddleOwnerRegistry) : reg_ok P r → reg_ok P (drain s g r).1.
Proof. intros Hr. apply remove_epoch_ok; [done|]. apply drain_tokens_ok. Qed.

(** A step of one task: its phase, and perhaps its loss signal *)
Lemma set_phase_ok (r : HuddleOwnerRegistry) (i : nat) (t : HuddleLeaseRenewer) (p : Phase)
    (ts : gset Token) :
  reg_ok P r → tasks r !! i = Some t → ts ⊆ {[rn_lost t]} →
  (rn_lost t ∈ ts ∪ cancelled r ↔ lost_owner p = true) →
  reg_ok P (set_phase i p (cancel_tokens ts r)).
Proof.
  intros Hr Ht Hts Hl. destruct (ok_task_lost _ Hr _ _ Ht) as (k0 & Hk0 & Hlt0).
  assert (∀ x, x ∈ ts → x = rn_lost t) as Hts' by (intros x; set_solver).
  unfold set_phase.
  assert (∀ j u', alter (λ t, {| rn_lease := rn_lease t; rn_cancel := rn_cancel t;
            rn_lost := rn_lost t; rn_phase := p |}) i (tasks r) !! j = Some u' →
          ∃ u, tasks r !! j = Some u ∧ rn_lease u' = rn_lease u ∧ rn_cancel u' = rn_cancel u ∧
            rn_lost u' = rn_lost u ∧ (if decide (i = j) then u = t ∧ rn_phase u' = p else u' = u))
    as Hback.
  { intros j u' Hu'. destruct (decide (i = j)) as [<-|Hne].
    - rewrite list_lookup_alter_eq, Ht in Hu'. injection Hu' as <-. by exists t.
    - rewrite list_lookup_alter_ne in Hu' by done. by exists u'. }
  split; cbn [entries minted cancelled tasks cancel_tokens set_tasks].
  - intros x n [Hx%Hts'|?]%elem_of_union; [|by eapply ok_minted]. rewrite Hk0 in Hx.
    by injection Hx as _ ->.
  - intros j u' (u & Hu & _ & -> & _)%Hback. by eapply ok_task_cancel.
  - intros j u' (u & Hu & _ & _ & -> & _)%Hback. by eapply ok_task_lost.
  - intros j1 j2 u1 u2 (v1 & Hv1 & _ & -> & _)%Hback (v2 & Hv2 & _ & -> & _)%Hback.
    by eapply ok_cancel_inj.
  - intros j1 j2 u1 u2 (v1 & Hv1 & _ & _ & -> & _)%Hback (v2 & Hv2 & _ & _ & -> & _)%Hback.
    by eapply ok_lost_inj.
  - intros s e He. destruct (ok_entry _ Hr _ _ He) as (Hn & Hd & Hm & j & u & Hu & Ho).
    split_and!; [|done|done|].
    + destruct Ho as (_ & Ho & _). destruct (ok_task_cancel _ Hr _ _ Hu) as (k & Hk & _).
      intros [Hx%Hts'|?]%elem_of_union; [|done]. rewrite <- Ho, Hk in Hx. congruence.
    + destruct (decide (i = j)) as [<-|Hne].
      * exists i. eexists. rewrite list_lookup_alter_eq, Hu. split; [done|]. by destruct Ho as (? & ? & ? & ?).
      * exists j, u. by rewrite list_lookup_alter_ne.
  - intros j u' (u & Hu & Hle & Hc & Hlo & _)%Hback Hn. unfold owned_by_entry.
    rewrite Hle in *. rewrite Hlo. rewrite Hc in *.
    destruct (ok_task _ Hr _ _ Hu ltac:(set_solver)) as [?|(e & He & Ho)]; [by left|].
    right. by exists e.
  - intros j u' (u & Hu & _ & _ & -> & Hcase)%Hback. destruct (decide (i = j)) as [<-|Hne].
    + destruct Hcase as [-> ->]. by rewrite Hl.
    + subst u'. rewrite <- (ok_loss _ Hr j u) by done. rewrite elem_of_union.
      split; [|by right]. intros [Hx%Hts'|?]; [|done]. destruct Hne. by eapply (ok_lost_inj _ Hr).
Qed.

End registry.

(** ** The invariant of the system *)

Definition tasks_grow (ts ts' : list HuddleLeaseRenewer) : Prop :=
  ∀ i t, ts !! i = Some t → ∃ t', ts' !! i = Some t' ∧ rn_lease t' = rn_lease t ∧
    rn_cancel t' = rn_cancel t ∧ rn_lost t' = rn_lost t.

Definition renewed (r : HuddleOwnerRegistry) (s : Uuid) (e : HuddleOwnerEntry) : Prop :=
  ∃ i t, tasks r !! i = Some t ∧ owned_by_entry s e t.

Definition attaching_ok (r : HuddleOwnerRegistry) (a : Attaching) : Prop :=
  match a with
  | AtRecheck s e =>
      (draining e).1 = ForDrain ∧ ((draining e).2 < minted r)%N ∧ renewed r s e
  | _ => True
  end.

(** [r'] is a later registry that installed no new entry. *)
Record shrinks (r r' : HuddleOwnerRegistry) : Prop := {
  shrink_entries s : entries r' !! s = entries r !! s ∨ entries r' !! s = None;
  shrink_tasks : tasks_grow (tasks r) (tasks r');
  shrink_minted : (minted r ≤ minted r')%N;
  shrink_draining : is_draining r' = is_draining r
}.

#[export] Instance tasks_grow_preorder : PreOrder tasks_grow.
Proof.
  split.
  - intros ts i t Ht. by exists t.
  - intros a b c Hab Hbc i t Ht. destruct (Hab _ _ Ht) as (u & Hu & H1 & H2 & H3).
    destruct (Hbc _ _ Hu) as (v & Hv & H4 & H5 & H6). exists v. split_and!; congruence.
Qed.

#[export] Instance shrinks_preorder : PreOrder shrinks.
Proof.
  split.
  - intros r. by split; auto.
  - intros a b c Hab Hbc. split.
    + intros s. destruct (shrink_entries _ _ Hbc s) as [->|?]; [apply Hab|by right].
    + etrans; [apply Hab|apply Hbc].
    + etrans; [apply Hab|apply Hbc].
    + etrans; [apply Hbc|apply Hab].
Qed.

Lemma tasks_grow_app (ts us : list HuddleLeaseRenewer) : tasks_grow ts (ts ++ us).
Proof. intros i t Ht. exists t. split_and!; try done. by apply lookup_app_l_Some. Qed.

Lemma cancel_shrinks (ts : gset Token) (r : HuddleOwnerRegistry) : shrinks r (cancel_tokens ts r).
Proof. by split; auto. Qed.

Lemma throw_away_shrinks (l : HuddleLease) (r : HuddleOwnerRegistry) : shrinks r (throw_away l r).
Proof. split; simpl; auto using tasks_grow_app; lia. Qed.

Lemma refused_shrinks (l : HuddleLease) (r : HuddleOwnerRegistry) :
  shrinks r (attach_refused l r).1.
Proof.
  etrans; [apply (throw_away_shrinks l)|]. split; simpl; auto; try done; lia.
Qed.

Lemma remove_epoch_shrinks (s : Uuid) (g : Z) (also : HuddleOwnerEntry → gset Token)
    (r : HuddleOwnerRegistry) : shrinks r (remove_epoch s g also r).1.
Proof.
  unfold remove_epoch. destruct (entries r !! s) as [e|] eqn:He; [|done].
  destruct (_ =? _)%Z; [|done]. split; simpl; auto; try done. intros s'.
  destruct (decide (s = s')) as [<-|?]; [right; apply lookup_delete_eq|left; by apply lookup_delete_ne].
Qed.

Lemma set_phase_shrinks (i : nat) (p : Phase) (r : HuddleOwnerRegistry) :
  shrinks r (set_phase i p r).
Proof.
  split; simpl; auto; try done. intros j t Ht. unfold set_phase. simpl.
  destruct (decide (i = j)) as [<-|?].
  - eexists. by rewrite list_lookup_alter_eq, Ht.
  - exists t. by rewrite list_lookup_alter_ne.
Qed.

(** A list of tasks that grew still has the renewer of an entry. *)
Lemma renewed_grow (r r' : HuddleOwnerRegistry) (s : Uuid) (e : HuddleOwnerEntry) :
  tasks_grow (tasks r) (tasks r') → renewed r s e → renewed r' s e.
Proof.
  intros Hs (i & t & Ht & Ho). destruct (Hs _ _ Ht) as (t' & Ht' & H1 & H2 & H3). exists i, t'.
  split; [done|]. unfold owned_by_entry in *. by rewrite H1, H2, H3.
Qed.

Lemma attaching_ok_grow (r r' : HuddleOwnerRegistry) (a : Attaching) :
  tasks_grow (tasks r) (tasks r') → (minted r ≤ minted r')%N → attaching_ok r a → attaching_ok r' a.
Proof.
  intros Hs Hm. destruct a as [l|l|s e|]; simpl; try done. intros (Hd & Hlt & Hren).
  split; [done|]. split; [lia|]. by eapply renewed_grow.
Qed.

Section system.
Context {D : Type} `{HuddleDirectory D}.
Context (others : Gap → D → D).

Record sys_ok (P : Uuid → Token → Prop) (x : System D) : Prop := {
  sys_reg : reg_ok P (reg x);
  sys_attaching n a : attaching x !! n = Some a → attaching_ok (reg x) a;
  sys_flag : is_draining (reg x) = true ↔ shutdown x ≠ NotBegun;
  sys_drain s e : entries (reg x) !! s = Some e → is_draining (reg x) = true →
    (∃ n, attaching x !! n = Some (AtRecheck s e)) ∨ shutdown x = Begun ∨
    ∃ todo, shutdown x = Rooms todo ∧ (s, e_generation e) ∈ todo
}.

#[local] Arguments sys_reg {P} x _.
#[local] Arguments sys_attaching {P} x _ n a _.
#[local] Arguments sys_flag {P} x _.
#[local] Arguments sys_drain {P} x _ s e _ _.

Lemma booted_ok (P : Uuid → Token → Prop) (d : D) : sys_ok P (booted d).
Proof. by split. Qed.

Lemma sys_ok_weaken (P Q : Uuid → Token → Prop) (x : System D) :
  (∀ s c, P s c → Q s c) → sys_ok P x → sys_ok Q x.
Proof. intros HPQ []. split; try done. by eapply reg_ok_weaken. Qed.

(** This event replaces the entry of the renewer with this session and cancel token: an
    attach that had found no entry of its session inserts its own, and by now there is one. *)
Definition overwrites (ev : event) (x : System D) (s : Uuid) (c : Token) : Prop :=
  ∃ n l, ev = AttachStep n ∧ attaching x !! n = Some (AtInsert l) ∧ s = l_session_id l ∧
    replaced s (reg x) c.

Definition overwritten (evs : list event) (x : System D) (s : Uuid) (c : Token) : Prop :=
  ∃ before ev after, evs = before ++ ev :: after ∧ overwrites ev (run others before x) s c.

Lemma overwritten_snoc (evs : list event) (ev : event) (x : System D) (s : Uuid) (c : Token) :
  overwritten evs x s c ∨ overwrites ev (run others evs x) s c → overwritten (evs ++ [ev]) x s c.
Proof.
  intros [(before & ev' & after & -> & Ho)|Ho].
  - exists before, ev', (after ++ [ev]). split; [|done]. by rewrite <- app_assoc.
  - by exists evs, ev, [].
Qed.

(** At some time two attaches of a session are both between their lookup and their insert. *)
Definition overlap (evs : list event) (x : System D) (s : Uuid) : Prop :=
  ∃ before after n m l l', evs = before ++ after ∧ n ≠ m ∧
    attaching (run others before x) !! n = Some (AtInsert l) ∧ l_session_id l = s ∧
    attaching (run others before x) !! m = Some (AtInsert l') ∧ l_session_id l' = s.

Lemma overlap_app (evs evs' : list event) (x : System D) (s : Uuid) :
  overlap evs x s → overlap (evs ++ evs') x s.
Proof.
  intros (before & after & n & m & l & l' & -> & H'). exists before, (after ++ evs'), n, m, l, l'.
  by rewrite <- app_assoc.
Qed.

(** An entry where an attach had found none was inserted by another attach meanwhile. *)
Definition overlaps_ok (evs : list event) (x0 x : System D) : Prop :=
  ∀ n l, attaching x !! n = Some (AtInsert l) → is_Some (entries (reg x) !! l_session_id l) →
    overlap evs x0 (l_session_id l).

Lemma overlaps_shrink (evs : list event) (x0 x y : System D) :
  overlaps_ok evs x0 x →
  (∀ s, entries (reg y) !! s = entries (reg x) !! s ∨ entries (reg y) !! s = None) →
  (∀ n l, attaching y !! n = Some (AtInsert l) → attaching x !! n = Some (AtInsert l) ∨
     entries (reg y) !! l_session_id l = None) → overlaps_ok evs x0 y.
Proof.
  intros Hx Hs Ha n l Hn [e He]. destruct (Ha _ _ Hn) as [Hn'|Hno]; [|congruence].
  apply (Hx n); [done|]. destruct (Hs (l_session_id l)); [|congruence]. exists e. congruence.
Qed.

Lemma renew_tick_entries (i : nat) (t : HuddleLeaseRenewer) (r : HuddleOwnerRegistry) (d : D) :
  entries (renew_tick i t r d).1 = entries r.
Proof. unfold renew_tick. by destruct (h_renew _ _) as [d' [[[l|]|e]|]]. Qed.

Lemma final_release_entries (i : nat) (t : HuddleLeaseRenewer) (b : bool) (r : HuddleOwnerRegistry)
    (d : D) : entries (final_release i t b r d).1 = entries r.
Proof. unfold final_release. by destruct (h_release _ _) as [d' [[[|]|e]|]]; destruct b. Qed.

Lemma attach_overlaps (evs : list event) (x : System D) (n : nat) (a : Attaching) :
  overlaps_ok evs x (run others evs x) → attaching (run others evs x) !! n = Some a →
  overlaps_ok evs x (attach_step n a (run others evs x)).
Proof.
  intros Hx Ha. set (y := run others evs x) in *. destruct a as [l|l|s e|]; cbn [attach_step]; [| | |done].
  - destruct (entries (reg y) !! l_session_id l) eqn:He; apply (overlaps_shrink _ _ _ _ Hx); auto;
      intros m l'; cbn [with_attaching attaching reg];
      intros [[_ Heq]|[_ ?]]%lookup_insert_Some; simplify_eq; auto.
  - assert (let '(r, e) := attach_insert (l_session_id l) l (reg y) in
            entries r = <[l_session_id l := e]> (entries (reg y))) as Hes by done.
    destruct (attach_insert _ _ _) as [r e]. intros m l'. cbn [with_attaching attaching reg].
    intros [[_ ?]|[Hne Hm]]%lookup_insert_Some; [done|]. rewrite Hes.
    destruct (decide (l_session_id l = l_session_id l')) as [Heq|Hs].
    + intros _. exists evs, [], n, m, l, l'. rewrite app_nil_r. by split_and!.
    + rewrite lookup_insert_ne by done. by apply (Hx m).
  - apply (overlaps_shrink _ _ _ _ Hx).
    + intros s'. simpl. unfold attach_recheck. destruct (is_draining _); [|by left].
      apply (shrink_entries _ _ (remove_epoch_shrinks s (e_generation e) drain_tokens (reg y)) s').
    + intros m l'. cbn [with_attaching attaching].
      intros [[_ ?]|[_ ?]]%lookup_insert_Some; [done|auto].
Qed.

Lemma other_overlaps (evs : list event) (x0 x : System D) (ev : event) :
  (∀ n, ev ≠ AttachStep n) → overlaps_ok evs x0 x → overlaps_ok evs x0 (step others ev x).
Proof.
  intros Hev Hx. destruct ev as [c s owner|n|n|s g| | | |i|i|i|g]; cbn [step].
  - destruct (h_acquire c s owner (dir x)). by apply (overlaps_shrink _ _ _ _ Hx); auto.
  - destruct (granted x !! n) as [l|], (attaching x !! n); try done.
    destruct (is_draining (reg x)); apply (overlaps_shrink _ _ _ _ Hx); auto;
      intros m l'; cbn [with_attaching attaching]; intros [[_ ?]|[_ ?]]%lookup_insert_Some; try done; auto.
  - by destruct (Hev n).
  - apply (overlaps_shrink _ _ _ _ Hx); [|auto]. apply (remove_epoch_shrinks s g).
  - by destruct (shutdown x).
  - by destruct (shutdown x).
  - destruct (shutdown x) as [| |[|[s g] todo]]; try done.
    apply (overlaps_shrink _ _ _ _ Hx); [|auto]. apply (remove_epoch_shrinks s g).
  - destruct (tasks (reg x) !! i) as [t|]; [|done]. destruct (rn_phase t); try done.
    pose proof (renew_tick_entries i t (reg x) (dir x)) as He. destruct (renew_tick _ _ _ _) as [r d].
    apply (overlaps_shrink _ _ _ _ Hx); [|auto]. intros s. left. simpl in *. by rewrite He.
  - destruct (tasks (reg x) !! i) as [t|]; [|done]. destruct (rn_phase t); try done. by case_decide.
  - destruct (tasks (reg x) !! i) as [t|]; [|done]. destruct (rn_phase t) as [|b| |]; try done.
    pose proof (final_release_entries i t b (reg x) (dir x)) as He. destruct (final_release _ _ _ _ _) as [r d].
    apply (overlaps_shrink _ _ _ _ Hx); [|auto]. intros s. left. simpl in *. by rewrite He.
  - done.
Qed.

Lemma run_snoc (evs : list event) (ev : event) (x : System D) :
  run others (evs ++ [ev]) x = step others ev (run others evs x).
Proof. unfold run. by rewrite foldl_app. Qed.

Lemma run_overlaps (evs : list event) (d : D) :
  overlaps_ok evs (booted d) (run others evs (booted d)).
Proof.
  induction evs as [|ev evs IH] using rev_ind.
  { intros n l. simpl. by rewrite lookup_empty. }
  assert (overlaps_ok evs (booted d) (run others (evs ++ [ev]) (booted d))) as Hok.
  { rewrite run_snoc. destruct ev as [| |n| | | | | | | |]; try by apply other_overlaps.
    cbn [step]. destruct (attaching _ !! n) eqn:Ha; [by apply attach_overlaps|done]. }
  intros n l Hn He. by apply overlap_app, (Hok n).
Qed.

(** A replaced entry takes two attaches at once. *)
Lemma overwritten_overlap (evs : list event) (d : D) (s : Uuid) (c : Token) :
  overwritten evs (booted d) s c → overlap evs (booted d) s.
Proof.
  intros (before & ev & after & -> & n & l & _ & Hn & -> & e & He & _).
  apply overlap_app. by apply (run_overlaps before d n).
Qed.

Section kept.
Context {P : Uuid → Token → Prop}.

(** The steps that install nothing *)
Lemma shrink_ok (x y : System D) :
  sys_ok P x → reg_ok P (reg y) → shrinks (reg x) (reg y) → shutdown y = shutdown x →
  (∀ n a, attaching y !! n = Some a → attaching x !! n = Some a ∨ ∀ s e, a ≠ AtRecheck s e) →
  (∀ n s e, entries (reg y) !! s = Some e → is_draining (reg y) = true →
     attaching x !! n = Some (AtRecheck s e) → attaching y !! n = Some (AtRecheck s e)) →
  sys_ok P y.
Proof.
  intros Hx Hr Hs Hd Ha Hre. split; [done|..].
  - intros n a Hn. destruct (Ha _ _ Hn) as [Hn'|Hne]; [|by destruct a; try done; destruct (Hne s e)].
    eapply attaching_ok_grow; [apply Hs|apply Hs|]. by apply (sys_attaching _ Hx n).
  - rewrite (shrink_draining _ _ Hs), Hd. apply Hx.
  - intros s e He Hdr. rewrite Hd. pose proof Hdr as Hdr'. rewrite (shrink_draining _ _ Hs) in Hdr.
    destruct (shrink_entries _ _ Hs s) as [Heq|Hn]; [|congruence]. rewrite He in Heq. symmetry in Heq.
    destruct (sys_drain _ Hx s e Heq Hdr) as [[n ?]|?]; [left; exists n; by apply Hre|by right].
Qed.

(** An attach that moves on without a re-check to come *)
Lemma attach_moves_ok (x : System D) (n : nat) (a : Attaching) (r : HuddleOwnerRegistry) :
  sys_ok P x → reg_ok P r → shrinks (reg x) r → (∀ s e, a ≠ AtRecheck s e) →
  (∀ s e, attaching x !! n = Some (AtRecheck s e) → is_draining r = true → entries r !! s ≠ Some e) →
  sys_ok P (with_attaching x r (<[n := a]> (attaching x))).
Proof.
  intros Hx Hr Hs Ha Hn. apply (shrink_ok x); cbn [with_attaching reg attaching]; try done.
  - intros m b [[<- <-]|[_ Hm]]%lookup_insert_Some; auto.
  - intros m s e He Hd Hm. apply lookup_insert_Some. right. split; [|done]. intros <-.
    by destruct (Hn s e).
Qed.

Lemma with_reg_ok (x : System D) (r : HuddleOwnerRegistry) :
  sys_ok P x → reg_ok P r → shrinks (reg x) r → sys_ok P (with_reg x r).
Proof. intros Hx Hr Hs. apply (shrink_ok x); auto; done. Qed.

Lemma with_dir_ok (x : System D) (r : HuddleOwnerRegistry) (d : D) :
  sys_ok P x → reg_ok P r → shrinks (reg x) r → sys_ok P (with_dir x r d).
Proof. intros Hx Hr Hs. apply (shrink_ok x); auto; done. Qed.

Lemma attach_recheck_ok (s : Uuid) (e : HuddleOwnerEntry) (r : HuddleOwnerRegistry) :
  reg_ok P r → attaching_ok r (AtRecheck s e) →
  reg_ok P (attach_recheck s e r) ∧ shrinks r (attach_recheck s e r) ∧
  (is_draining r = true → entries (attach_recheck s e r) !! s ≠ Some e).
Proof.
  intros Hr (Hd & Hm & Hren). unfold attach_recheck.
  destruct (is_draining r); [|done].
  set (r1 := (remove_epoch s (e_generation e) drain_tokens r).1).
  assert (reg_ok P r1) as Hr1 by (apply remove_epoch_ok; [done|apply drain_tokens_ok]).
  assert (shrinks r r1) as Hs1 by apply remove_epoch_shrinks.
  assert (∀ e', e_generation e' = e_generation e → entries r1 !! s ≠ Some e') as Hn.
  { intros e' Hg. unfold r1, remove_epoch. destruct (entries r !! s) as [e0|] eqn:He; simpl; [|by rewrite He].
    destruct (Z.eqb_spec (e_generation e0) (e_generation e)); simpl; [by rewrite lookup_delete_eq|].
    rewrite He. congruence. }
  destruct (renewed_grow _ _ _ _ (shrink_tasks _ _ Hs1) Hren) as (i & t & Ht & Ho).
  pose proof (shrink_minted _ _ Hs1) as Hmin. clear Hren.
  split_and!; [|etrans; [exact Hs1|apply cancel_shrinks]|intros _; by apply Hn].
  destruct (ok_task_cancel _ Hr1 _ _ Ht) as (k & Hk & Hlt).
  destruct Ho as (Hst & Hct & Hlt' & Hg). rewrite Hct in Hk.
  assert (∀ x, x ∈ drain_tokens e → x = (ForCancel, k) ∨ x = (ForDrain, (draining e).2)) as Hts.
  { intros x Hx. apply drain_tokens_ok in Hx as [->| ->]; [by left|right].
    destruct (draining e). simpl in *. congruence. }
  split; cbn [entries minted cancelled tasks cancel_tokens];
    eauto using ok_task_cancel, ok_task_lost, ok_cancel_inj, ok_lost_inj.
  - intros x n [[[= _ ->]|[= _ ->]]%Hts|?]%elem_of_union; [done|lia|by eapply ok_minted].
  - intros s' e' He'. destruct (ok_entry _ Hr1 _ _ He') as (Hn' & Hd' & Hm' & j & u & Hu & Ho').
    split_and!; [|done|done|by exists j, u].
    destruct (ok_task_cancel _ Hr1 _ _ Hu) as (k' & Hk' & _). destruct Ho' as (Hsu & Hcu & Ho').
    intros [[Hx|Hx]%Hts|?]%elem_of_union; [|congruence|done].
    destruct Ho' as [Hsu' Hgu]. assert (i = j) as -> by (eapply (ok_cancel_inj _ Hr1); [done..|congruence]).
    rewrite Ht in Hu. injection Hu as <-. apply (Hn e'); [congruence|]. by rewrite <- Hst, Hsu.
  - intros j u Hu Hni. apply (ok_task _ Hr1 j); [done|set_solver].
  - intros j u Hu. rewrite <- (ok_loss _ Hr1 j u) by done.
    destruct (ok_task_lost _ Hr1 _ _ Hu) as (k' & Hk' & _). rewrite elem_of_union.
    split; [|by right]. intros [[Hx|Hx]%Hts|?]; [congruence..|done].
Qed.

Lemma drain_shrinks (s : Uuid) (g : Z) (r : HuddleOwnerRegistry) : shrinks r (drain s g r).1.
Proof. apply remove_epoch_shrinks. Qed.

Lemma keep_cancelled (r : HuddleOwnerRegistry) : cancel_tokens ∅ r = r.
Proof. destruct r. unfold cancel_tokens. simpl. f_equal. set_solver. Qed.

(** The registry after a step of one task *)
Lemma renew_tick_ok (i : nat) (t : HuddleLeaseRenewer) (r : HuddleOwnerRegistry) (d : D) :
  reg_ok P r → tasks r !! i = Some t → rn_phase t = Renewing →
  reg_ok P (renew_tick i t r d).1 ∧ shrinks r (renew_tick i t r d).1.
Proof.
  intros Hr Ht Hp. pose proof (ok_loss _ Hr _ _ Ht) as Hl. rewrite Hp in Hl. simpl in Hl.
  assert (reg_ok P (set_phase i (Releasing false) (cancel_tokens {[rn_lost t]} r)) ∧
          shrinks r (set_phase i (Releasing false) (cancel_tokens {[rn_lost t]} r))) as Hfail.
  { split; [apply set_phase_ok with t; try done; set_solver|].
    etrans; [apply cancel_shrinks|apply set_phase_shrinks]. }
  unfold renew_tick. destruct (h_renew (rn_lease t) d) as [d' [[[l|]|e]|]]; simpl; try done.
  split; [|apply set_phase_shrinks].
  pose proof (set_phase_ok r i t (Panicked false) ∅ Hr Ht ltac:(set_solver)) as Hs.
  rewrite keep_cancelled in Hs. apply Hs. simpl. set_solver.
Qed.

Lemma final_release_ok (i : nat) (t : HuddleLeaseRenewer) (b : bool) (r : HuddleOwnerRegistry) (d : D) :
  reg_ok P r → tasks r !! i = Some t → rn_phase t = Releasing b →
  reg_ok P (final_release i t b r d).1 ∧ shrinks r (final_release i t b r d).1.
Proof.
  intros Hr Ht Hp. pose proof (ok_loss _ Hr _ _ Ht) as Hl. rewrite Hp in Hl. simpl in Hl.
  assert (∀ p, lost_owner p = negb b → reg_ok P (set_phase i p r) ∧ shrinks r (set_phase i p r)) as Hkeep.
  { intros p Hpb. split; [|apply set_phase_shrinks].
    pose proof (set_phase_ok r i t p ∅ Hr Ht ltac:(set_solver)) as Hs.
    rewrite keep_cancelled in Hs. apply Hs. rewrite Hpb. destruct b; simpl; set_solver. }
  assert (∀ p, lost_owner p = true → reg_ok P (set_phase i p (cancel_tokens {[rn_lost t]} r)) ∧
            shrinks r (set_phase i p (cancel_tokens {[rn_lost t]} r))) as Hlose.
  { intros p Hpb. split; [apply set_phase_ok with t; try done; set_solver|].
    etrans; [apply cancel_shrinks|apply set_phase_shrinks]. }
  unfold final_release. destruct (h_release (rn_lease t) d) as [d' [[[|]|e]|]]; simpl.
  - by apply Hkeep; destruct b.
  - by apply Hlose; destruct b.
  - destruct b; [by apply Hkeep|by apply Hlose].
  - by apply Hkeep.
Qed.

Lemma insert_step_ok (n : nat) (l : HuddleLease) (x : System D) :
  sys_ok P x → attaching x !! n = Some (AtInsert l) →
  sys_ok (λ s c, P s c ∨ (s = l_session_id l ∧ replaced s (reg x) c)) (attach_step n (AtInsert l) x).
Proof.
  intros Hx Ha. pose proof (sys_reg _ Hx) as Hr. cbn [attach_step]. set (s := l_session_id l).
  pose proof (attach_insert_ok s l (reg x) Hr eq_refl) as Hi.
  assert (let '(r, e) := attach_insert s l (reg x) in
    draining e = (ForDrain, minted (reg x) + 1 + 1)%N ∧ minted r = (minted (reg x) + 1 + 1 + 1)%N)
    as Hde by done.
  destruct (attach_insert s l (reg x)) as [r e]. destruct Hde as [Hde Hmr].
  destruct Hi as (Hr' & Hes & Hd & Hc & Hts & Hg).
  split; cbn [with_attaching reg attaching shutdown].
  - done.
  - intros m a [[<- <-]|[Hne Hs]]%lookup_insert_Some.
    + simpl. rewrite Hde, Hmr. split_and!; [done|simpl; lia|].
      exists (length (tasks (reg x))). eexists. rewrite Hts. split;
        [apply lookup_snoc_task; by right|]. by split_and!.
    + apply (sys_attaching _ Hx) in Hs. eapply attaching_ok_grow; [..|done].
      * rewrite Hts. apply tasks_grow_app.
      * rewrite Hmr. lia.
  - rewrite Hd. apply Hx.
  - intros s' e'. rewrite Hes, Hd. intros [[<- <-]|[Hne He']]%lookup_insert_Some Hdr.
    + left. exists n. apply lookup_insert_eq.
    + destruct (sys_drain _ Hx _ _ He' Hdr) as [[m Hm]|?]; [left; exists m|by right].
      rewrite lookup_insert_ne; [done|]. congruence.
Qed.

Lemma attach_step_ok (n : nat) (a : Attaching) (x : System D) :
  sys_ok P x → attaching x !! n = Some a →
  sys_ok (λ s c, P s c ∨ overwrites (AttachStep n) x s c) (attach_step n a x).
Proof.
  intros Hx Ha. pose proof (sys_reg _ Hx) as Hr. pose proof (sys_attaching _ Hx _ _ Ha) as Hat.
  destruct a as [l|l|s e|].
  - apply (sys_ok_weaken P); [by left|]. cbn [attach_step].
    destruct (entries (reg x) !! l_session_id l) as [e0|] eqn:He.
    + apply attach_moves_ok; auto using throw_away_ok, throw_away_shrinks; intros; first [done|congruence].
    + apply attach_moves_ok; auto; intros; first [done|congruence].
  - eapply sys_ok_weaken; [|by apply insert_step_ok]. intros s c [?|[-> ?]]; [by left|right].
    by exists n, l.
  - apply (sys_ok_weaken P); [by left|]. cbn [attach_step].
    destruct (attach_recheck_ok s e (reg x) Hr Hat) as (Hr' & Hs & Hgone).
    apply attach_moves_ok; [done..|]. intros s' e' Hs' Hdr. rewrite Ha in Hs'. injection Hs' as <- <-.
    rewrite (shrink_draining _ _ Hs) in Hdr. by apply Hgone.
  - by apply (sys_ok_weaken P); [left|].
Qed.

(** The events other than the steps of an attach *)
Lemma other_step_ok (ev : event) (x : System D) :
  (∀ n, ev ≠ AttachStep n) → sys_ok P x → sys_ok P (step others ev x).
Proof.
  intros Hev Hx. pose proof (sys_reg _ Hx) as Hr.
  destruct ev as [c s owner|n|n|s g| | | |i|i|i|g]; cbn [step].
  - destruct (h_acquire c s owner (dir x)) as [d a]. apply (shrink_ok x); auto; done.
  - destruct (granted x !! n) as [l|]; [|done]. destruct (attaching x !! n) eqn:Hn; [done|].
    destruct (is_draining (reg x)) eqn:Hdr; apply attach_moves_ok;
      auto using attach_refused_ok, refused_shrinks; intros; first [done|congruence].
  - by destruct (Hev n).
  - apply with_reg_ok; [done|by apply release_ok|apply remove_epoch_shrinks].
  - destruct (shutdown x) eqn:Hsh; try done. split; simpl.
    + destruct Hr. by split.
    + intros n a Ha. apply (sys_attaching _ Hx) in Ha. by destruct a.
    + done.
    + intros s e He _. right. by left.
  - destruct (shutdown x) eqn:Hsh; try done. split; simpl.
    + done.
    + apply Hx.
    + rewrite (sys_flag _ Hx), Hsh. done.
    + intros s e He Hd. right. right. eexists. split; [done|]. unfold drain_rooms.
      apply list_elem_of_fmap. exists (s, e). split; [done|]. by apply elem_of_map_to_list.
  - destruct (shutdown x) as [| |[|[s g] todo]] eqn:Hsh; try done.
    pose proof (drain_shrinks s g (reg x)) as Hs. split; simpl.
    + by apply drain_ok.
    + intros n a Ha. eapply attaching_ok_grow; [apply Hs|apply Hs|]. by apply (sys_attaching _ Hx n).
    + rewrite (shrink_draining _ _ Hs), (sys_flag _ Hx), Hsh. done.
    + intros s' e He Hd. rewrite (shrink_draining _ _ Hs) in Hd.
      destruct (shrink_entries _ _ Hs s') as [Heq|Hn]; [|congruence]. rewrite He in Heq. symmetry in Heq.
      destruct (sys_drain _ Hx s' e Heq Hd) as [?|[?|(todo' & Htodo & Hin)]]; [by left|congruence|].
      right. right. exists todo. split; [done|]. rewrite Hsh in Htodo. injection Htodo as <-.
      apply elem_of_cons in Hin as [[= -> <-]|Hin]; [|done].
      exfalso. unfold drain, remove_epoch in He. rewrite Heq, Z.eqb_refl in He. simpl in He.
      by rewrite lookup_delete_eq in He.
  - destruct (tasks (reg x) !! i) as [t|] eqn:Ht; [|done]. destruct (rn_phase t) eqn:Hp; try done.
    destruct (renew_tick_ok i t (reg x) (dir x) Hr Ht Hp) as [Hr' Hs].
    destruct (renew_tick i t (reg x) (dir x)) as [r d]. by apply with_dir_ok.
  - destruct (tasks (reg x) !! i) as [t|] eqn:Ht; [|done]. destruct (rn_phase t) eqn:Hp; try done.
    case_decide; [|done]. pose proof (ok_loss _ Hr _ _ Ht) as Hl. rewrite Hp in Hl. simpl in Hl.
    apply with_reg_ok; [done| |apply set_phase_shrinks].
    pose proof (set_phase_ok (reg x) i t (Releasing true) ∅ Hr Ht ltac:(set_solver)) as Hs.
    rewrite keep_cancelled in Hs. apply Hs. simpl. set_solver.
  - destruct (tasks (reg x) !! i) as [t|] eqn:Ht; [|done]. destruct (rn_phase t) eqn:Hp; try done.
    destruct (final_release_ok i t caller_cancelled (reg x) (dir x) Hr Ht Hp) as [Hr' Hs].
    destruct (final_release i t caller_cancelled (reg x) (dir x)) as [r d]. by apply with_dir_ok.
  - by apply with_dir_ok.
Qed.

Lemma step_ok (ev : event) (x : System D) :
  sys_ok P x → sys_ok (λ s c, P s c ∨ overwrites ev x s c) (step others ev x).
Proof.
  intros Hx. destruct ev as [| |n| | | | | | | |];
    try (apply (sys_ok_weaken P); [by left|by apply other_step_ok]).
  cbn [step]. destruct (attaching x !! n) eqn:Ha; [by apply attach_step_ok|].
  by apply (sys_ok_weaken P); [left|].
Qed.

End kept.

Lemma system_run_ok (evs : list event) (d : D) :
  sys_ok (overwritten evs (booted d)) (run others evs (booted d)).
Proof.
  induction evs as [|ev evs IH] using rev_ind; [apply booted_ok|].
  rewrite run_snoc. eapply sys_ok_weaken; [|exact (step_ok ev _ IH)].
  intros s c. apply overwritten_snoc.
Qed.

End system.

(** ** Leases that can never be live again *)

Abbreviation Table := (gmap (CommunityId * Uuid) Session) (only parsing).

Definition session_of (T : Table) (l : HuddleLease) : Session :=
  session_at T (l_community_id l) (l_session_id l).

Definition gone (now : Z) (l : HuddleLease) (ss : Session) : Prop :=
  (l_generation l < counter ss)%Z ∨
  (l_generation l = counter ss ∧
   ∀ p d, held ss = Some (l_owner_runtime_id l, p, d) → (d ≤ now)%Z).

Lemma gone_later (now t : Z) (l : HuddleLease) (ss : Session) :
  (now ≤ t)%Z → gone now l ss → gone t l ss.
Proof.
  intros Ht [?|[Hg Hd]]; [by left|right]. split; [done|]. intros p d Hh.
  specialize (Hd _ _ Hh). lia.
Qed.

Lemma gone_claim (now ttl : Z) (o : RuntimeId) (p : Profile) (l : HuddleLease) (ss : Session) :
  gone now l ss → gone now l (claim now ttl o p ss).
Proof.
  intros Hg. unfold claim. destruct (live now ss); [done|]. destruct (_ =? _)%Z; [done|].
  left. simpl. destruct Hg as [?|[? _]]; lia.
Qed.

Lemma gone_extend (now ttl : Z) (o : RuntimeId) (g : Z) (l : HuddleLease) (ss : Session) :
  gone now l ss → gone now l (extend now ttl o g ss).
Proof.
  intros Hg. unfold extend. destruct (holds now o g ss) eqn:Hh; [|done].
  destruct Hg as [?|[Hgen Hd]]; [by left|right]. split; [done|]. simpl.
  unfold holds, live in Hh. destruct (held ss) as [[[o' p'] d']|] eqn:Hs; [|done]. simpl in *.
  destruct (Z.ltb_spec now d'); [|done]. intros p d [= -> -> <-]. specialize (Hd _ _ eq_refl). lia.
Qed.

Lemma gone_drop (now : Z) (o : RuntimeId) (g : Z) (l : HuddleLease) (ss : Session) :
  gone now l ss → gone now l (drop_lease now o g ss).
Proof.
  intros Hg. unfold drop_lease. destruct (holds now o g ss); [|done].
  destruct Hg as [?|[? _]]; [by left|by right].
Qed.

Lemma gone_update (now : Z) (l : HuddleLease) (T : Table) (c : CommunityId) (s : Uuid)
    (f : Session → Session) :
  (∀ ss, gone now l ss → gone now l (f ss)) →
  gone now l (session_of T l) → gone now l (session_of (update T c s f) l).
Proof.
  intros Hf Hg. unfold session_of in *. rewrite session_at_update. case_decide as Heq; [|done].
  injection Heq as -> ->. by apply Hf.
Qed.

Section gone.
Context `{Redis} `{IdText}.

(** Nobody is ever told that such a lease owns its session. *)
Lemma gone_not_named (now : Z) (c : CommunityId) (s : Uuid) (l l' : HuddleLease) (ss : Session) :
  gone now l ss → current_lease now c s ss = Ok (Some l') → ownership l' ≠ ownership l.
Proof.
  intros Hg Hc. apply current_lease_Some in Hc as (o & p & Hl & -> & _).
  apply live_held in Hl as (d & Hh & Hd). unfold ownership. simpl. intros [= Ho Hge].
  destruct Hg as [?|[_ Hex]]; [lia|]. rewrite Ho in Hh. specialize (Hex _ _ Hh). lia.
Qed.

(** A release that the directory answered leaves the lease gone. *)
Lemma drop_gone (now : Z) (l : HuddleLease) (a : ReleaseResult) (ss : Session) :
  (l_generation l ≤ counter ss)%Z → drop_answer now l ss = Ok a →
  gone now l (drop_lease now (l_owner_runtime_id l) (l_generation l) ss).
Proof.
  intros Hle Ha. unfold drop_answer, owner_answer in Ha. unfold drop_lease.
  destruct (holds now _ _ ss) eqn:Hh.
  - unfold holds in Hh. apply andb_true_iff in Hh as [[_ Hg]%andb_true_iff _].
    apply Z.eqb_eq in Hg. right. by split.
  - unfold gone. destruct (Z.eq_dec (l_generation l) (counter ss)) as [Hg|]; [|left; lia].
    right. split; [done|]. intros p d Hheld.
    destruct (Z.leb_spec d now) as [?|Hlt]; [done|exfalso].
    assert (live now ss = Some (l_owner_runtime_id l, p)) as Hl.
    { unfold live. rewrite Hheld. simpl. by rewrite (proj2 (Z.ltb_lt _ _) Hlt). }
    unfold current_lease in Ha. rewrite Hl in Ha. unfold read_lease in Ha.
    unfold holds in Hh. rewrite Hl in Hh. simpl in Hh.
    rewrite bool_decide_true, Hg, Z.eqb_refl in Hh by done. simpl in Hh. by rewrite Hh in Ha.
Qed.

End gone.

(** ** The system over Redis and over the table *)

Section drain.
Context `{RedisLaws}.
Context (error_text : DirectoryError → string).

#[local] Instance redis_dir : HuddleDirectory (Served store) := session_directory error_text.
#[local] Instance table_dir : HuddleDirectory (Served Table) := table_directory error_text.

Definition event_ok (ev : event) : Prop :=
  match ev with
  | Acquire _ _ owner => (owner < 2 ^ 256)%N
  | Others g => gap_ok g
  | _ => True
  end.

Definition sys_sim (x : System (Served store)) (y : System (Served Table)) : Prop :=
  reg x = reg y ∧ granted x = granted y ∧ attaching x = attaching y ∧ shutdown x = shutdown y ∧
  dir_sim (dir x) (dir y).

Record leases_ok (y : System (Served Table)) : Prop := {
  lease_granted l : l ∈ granted y → lease_ok l ∧
    (l_generation l ≤ counter (session_of (behind (dir y)) l))%Z;
  lease_task i t : tasks (reg y) !! i = Some t → rn_lease t ∈ granted y;
  lease_attaching n l : attaching y !! n = Some (AtGet l) ∨ attaching y !! n = Some (AtInsert l) →
    l ∈ granted y;
  lease_gone i t b a : tasks (reg y) !! i = Some t → rn_phase t = Stopped b (Ok a) →
    gone (clock (dir y)) (rn_lease t) (session_of (behind (dir y)) (rn_lease t))
}.

(** The directory only moved forward, and what was gone stays gone. *)
Definition onward (d e : Served Table) : Prop :=
  (∀ l, (counter (session_of (behind d) l) ≤ counter (session_of (behind e) l))%Z) ∧
  (∀ l, gone (clock d) l (session_of (behind d) l) → gone (clock e) l (session_of (behind e) l)).

#[export] Instance onward_preorder : PreOrder onward.
Proof.
  split; [done|]. intros a b c [Hab1 Hab2] [Hbc1 Hbc2]. split; [|auto].
  intros l. etrans; [apply Hab1|apply Hbc1].
Qed.

Lemma onward_update (d : Served Table) (c : CommunityId) (s : Uuid) (f : Session → Session) :
  (∀ ss, forward ss (f ss)) → (∀ l ss, gone (clock d) l ss → gone (clock d) l (f ss)) →
  onward d (set_behind d (update (behind d) c s f)).
Proof.
  intros Hf Hg. split; intros l; simpl; [by apply update_forward|]. apply gone_update. apply Hg.
Qed.

Lemma acquire_onward (c : CommunityId) (s : Uuid) (o : RuntimeId) (d : Served Table) : onward d (h_acquire c s o d).1.
Proof.
  simpl. destruct (effective _ _); [|done].
  apply onward_update; intros; [apply claim_forward|by apply gone_claim].
Qed.

Lemma renew_onward (l : HuddleLease) (d : Served Table) : onward d (h_renew l d).1.
Proof.
  simpl. destruct (effective _ _); [|done].
  apply onward_update; intros; [apply extend_forward|by apply gone_extend].
Qed.

Lemma release_onward (l : HuddleLease) (d : Served Table) : onward d (h_release l d).1.
Proof.
  simpl. destruct (effective _ _); [|done].
  apply onward_update; intros; [apply drop_forward|by apply gone_drop].
Qed.

Lemma table_serve_gone (now : Z) (rq : request) (T : Table) (l : HuddleLease) :
  gone now l (session_of T l) → gone now l (session_of (table_serve error_text now rq T).1 l).
Proof.
  intros Hg. destruct rq; cbn [table_serve fst]; try done; destruct (effective _ _); try done;
    apply gone_update; try done; intros ss; [apply gone_claim|apply gone_extend|apply gone_drop].
Qed.

Lemma pass_onward (g : Gap) (d : Served Table) : gap_ok g → onward d (pass_table error_text g d).
Proof.
  intros [Hall Hw]. unfold pass_table, pass.
  assert (∀ rqs t T, Forall request_ok rqs →
    let p := foldl (λ '(t, T) '(dt, rq), (t + dt, (table_serve error_text (t + dt) rq T).1)%Z)
               (t, T) rqs in
    (t ≤ p.1)%Z ∧ ∀ l, (counter (session_of T l) ≤ counter (session_of p.2 l))%Z ∧
      (gone t l (session_of T l) → gone p.1 l (session_of p.2 l))) as Hind.
  { clear Hall. intros rqs t T Hall. revert t T.
    induction Hall as [|[dt rq] rqs [Hdt _] _ IH]; intros t T; [done|]. simpl in *.
    destruct (IH (t + dt)%Z (table_serve error_text (t + dt) rq T).1) as [Ht Hl].
    split; [lia|]. intros l. destruct (Hl l) as [Hc Hg]. split.
    - etrans; [|exact Hc]. apply (table_serve_forward error_text (t + dt)%Z rq T).
    - intros Hgone. apply Hg, table_serve_gone. by eapply gone_later; [|exact Hgone]; lia. }
  specialize (Hind _ (clock d) (behind d) Hall). destruct (foldl _ _ _) as [t T]. simpl in *.
  destruct Hind as [Ht Hl]. split; intros l; simpl; [apply Hl|].
  intros Hg. eapply gone_later; [|by apply Hl]. lia.
Qed.

(** What the directory answers to an acquisition that succeeds *)
Lemma granted_ok (c : CommunityId) (s : Uuid) (o : RuntimeId) (d d' : Served Table)
    (l : HuddleLease) :
  (o < 2 ^ 256)%N → (0 ≤ counter (session_at (behind d) c s) ≤ i64_max)%Z →
  h_acquire c s o d = (d', Ok (HAcquired l)) →
  lease_ok l ∧ l_generation l = counter (session_of (behind d') l).
Proof.
  intros Ho Hc Ha. simpl in Ha. injection Ha as <- Ha.
  destruct (attempt _ _ _) as [a|e] eqn:Hat; [|done]. destruct a as [l'|l']; [|done].
  simpl in Ha. injection Ha as ->. apply attempt_Ok in Hat as [Hat [t Ht]].
  apply claim_answer_Acquired in Hat as (Hl & Hm & Hlt & ->). rewrite Ht. simpl.
  split; [split; simpl; [done|unfold i64_max, u64_max in *; lia]|].
  unfold session_of. simpl. rewrite session_at_update, decide_True by done. unfold claim.
  rewrite Hl, (proj2 (Z.eqb_neq _ _) Hm). done.
Qed.

Lemma release_answered (l : HuddleLease) (d d' : Served Table) (a : HuddleReleaseOutcome) :
  (l_generation l ≤ counter (session_of (behind d) l))%Z →
  h_release l d = (d', Some (Ok a)) → gone (clock d') l (session_of (behind d') l).
Proof.
  intros Hle Ha. simpl in Ha. injection Ha as <- Ha.
  destruct (attempt _ _ _) as [x|e] eqn:Hat; [|done]. apply attempt_Ok in Hat as [Hat [t Ht]].
  rewrite Ht. simpl. unfold session_of. simpl. rewrite session_at_update, decide_True by done.
  by apply drop_gone with x.
Qed.

Lemma leases_step (y z : System (Served Table)) :
  leases_ok y → onward (dir y) (dir z) →
  (∀ l, l ∈ granted z → l ∈ granted y ∨ (lease_ok l ∧
     (l_generation l ≤ counter (session_of (behind (dir z)) l))%Z)) →
  (∀ i t, tasks (reg z) !! i = Some t → rn_lease t ∈ granted z ∧
     ∀ b a, rn_phase t = Stopped b (Ok a) →
       (∃ u, tasks (reg y) !! i = Some u ∧ rn_lease u = rn_lease t ∧ rn_phase u = rn_phase t) ∨
       gone (clock (dir z)) (rn_lease t) (session_of (behind (dir z)) (rn_lease t))) →
  (∀ n l, attaching z !! n = Some (AtGet l) ∨ attaching z !! n = Some (AtInsert l) → l ∈ granted z) →
  leases_ok z.
Proof.
  intros Hy [Hc Hg] Hgr Ht Ha. split; [| |done|].
  - intros l Hl. destruct (Hgr _ Hl) as [Hin|?]; [|done].
    destruct (lease_granted _ Hy _ Hin) as [? ?]. split; [done|]. by etrans.
  - intros i t Hi. by apply (Ht i t).
  - intros i t b a Hi Hp. destruct (Ht _ _ Hi) as [_ Hs].
    destruct (Hs b a Hp) as [(u & Hu & Hle & Hph)|?]; [|done].
    apply Hg. rewrite <- Hle. rewrite Hp in Hph. by eapply (lease_gone _ Hy).
Qed.

(** The same, when only the tasks changed *)
Lemma leases_keep (y z : System (Served Table)) :
  leases_ok y → dir z = dir y → granted z = granted y →
  (∀ i t, tasks (reg z) !! i = Some t →
     (∃ u, tasks (reg y) !! i = Some u ∧ rn_lease u = rn_lease t ∧
        (rn_phase u = rn_phase t ∨ ∀ b a, rn_phase t ≠ Stopped b (Ok a))) ∨
     (rn_lease t ∈ granted y ∧ rn_phase t = Renewing)) →
  (∀ n l, attaching z !! n = Some (AtGet l) ∨ attaching z !! n = Some (AtInsert l) → l ∈ granted z) →
  leases_ok z.
Proof.
  intros Hy Hd Hg Ht Ha. apply (leases_step y); [done|by rewrite Hd|rewrite Hg; by auto| |done].
  intros i t Hi. rewrite Hg. destruct (Ht _ _ Hi) as [(u & Hu & Hle & Hp)|[Hin Hp]].
  - split; [rewrite <- Hle; by eapply (lease_task _ Hy)|]. intros b a Hs. left. exists u.
    split_and!; try done. destruct Hp as [?|Hn]; [done|]. by destruct (Hn b a).
  - split; [done|]. intros b a. by rewrite Hp.
Qed.

Lemma tasks_same (y : System (Served Table)) (ts : list HuddleLeaseRenewer) (i : nat)
    (t : HuddleLeaseRenewer) :
  ts = tasks (reg y) → ts !! i = Some t →
  (∃ u, tasks (reg y) !! i = Some u ∧ rn_lease u = rn_lease t ∧
     (rn_phase u = rn_phase t ∨ ∀ b a, rn_phase t ≠ Stopped b (Ok a))) ∨
  (rn_lease t ∈ granted y ∧ rn_phase t = Renewing).
Proof. intros -> Ht. left. exists t. auto. Qed.

Lemma tasks_snoc (y : System (Served Table)) (t0 : HuddleLeaseRenewer) (i : nat)
    (t : HuddleLeaseRenewer) :
  rn_lease t0 ∈ granted y → rn_phase t0 = Renewing → (tasks (reg y) ++ [t0]) !! i = Some t →
  (∃ u, tasks (reg y) !! i = Some u ∧ rn_lease u = rn_lease t ∧
     (rn_phase u = rn_phase t ∨ ∀ b a, rn_phase t ≠ Stopped b (Ok a))) ∨
  (rn_lease t ∈ granted y ∧ rn_phase t = Renewing).
Proof.
  intros Hin Hp [Ht|[_ ->]]%lookup_snoc_task; [left; exists t; auto|by right].
Qed.

Lemma tasks_phase (y : System (Served Table)) (j i : nat) (p : Phase) (r : HuddleOwnerRegistry)
    (t : HuddleLeaseRenewer) :
  tasks r = tasks (reg y) → tasks (set_phase j p r) !! i = Some t →
  ∃ u, tasks (reg y) !! i = Some u ∧ rn_lease u = rn_lease t ∧
    if decide (i = j) then rn_phase t = p else rn_phase u = rn_phase t.
Proof.
  intros Hr. unfold set_phase. simpl. rewrite Hr. destruct (decide (i = j)) as [<-|Hne].
  - rewrite list_lookup_alter_eq. destruct (tasks (reg y) !! i) as [u|]; [|done].
    intros [= <-]. by exists u.
  - rewrite list_lookup_alter_ne by done. intros Ht. by exists t.
Qed.

Lemma remove_epoch_tasks (s : Uuid) (g : Z) (also : HuddleOwnerEntry → gset Token)
    (r : HuddleOwnerRegistry) : tasks (remove_epoch s g also r).1 = tasks r.
Proof. unfold remove_epoch. destruct (_ !! s); [|done]. by destruct (_ =? _)%Z. Qed.

Lemma attaching_granted (y : System (Served Table)) (n : nat) (a : Attaching) :
  leases_ok y → (∀ l, a = AtGet l ∨ a = AtInsert l → l ∈ granted y) →
  ∀ m l, <[n := a]> (attaching y) !! m = Some (AtGet l) ∨
    <[n := a]> (attaching y) !! m = Some (AtInsert l) → l ∈ granted y.
Proof.
  intros Hy Ha m l. destruct (decide (n = m)) as [<-|Hne].
  - rewrite lookup_insert_eq. intros [[= ->]|[= ->]]; auto.
  - rewrite lookup_insert_ne by done. apply (lease_attaching _ Hy).
Qed.

Lemma attach_step_leases (n : nat) (a : Attaching) (y : System (Served Table)) :
  leases_ok y → attaching y !! n = Some a → leases_ok (attach_step n a y).
Proof.
  intros Hy Ha. pose proof (lease_attaching _ Hy n) as Hin.
  destruct a as [l|l|s e|]; cbn [attach_step]; [| | |done].
  - specialize (Hin l (or_introl Ha)). destruct (entries (reg y) !! l_session_id l);
      apply (leases_keep y); try done.
    + intros i t Ht. by eapply tasks_snoc; [..|exact Ht].
    + apply attaching_granted; [done|]. by intros l' [?|?].
    + intros. by eapply tasks_same.
    + apply attaching_granted; [done|]. by intros l' [?|[= ->]].
  - specialize (Hin l (or_intror Ha)). unfold attach_insert. simpl. apply (leases_keep y); try done.
    + intros i t Ht; by eapply tasks_snoc; [..|exact Ht].
    + apply attaching_granted; [done|]. by intros l' [?|?].
  - apply (leases_keep y); try done; [|apply attaching_granted; [done|]; by intros l' [?|?]].
    intros i t. simpl. unfold attach_recheck.
    destruct (is_draining (reg y)); [|intros; by eapply tasks_same]. simpl.
    rewrite remove_epoch_tasks. intros Ht. by eapply tasks_same.
Qed.

Lemma granted_counter (c : CommunityId) (s : Uuid) (d : Served store) (a : Served Table) :
  dir_sim d a → (0 ≤ counter (session_at (behind a) c s) ≤ i64_max)%Z.
Proof. intros (Hr & _). apply (rel_counter _ _ _ _ _ (Hr c s)). Qed.

Lemma joint_tick (x : System (Served store)) (y : System (Served Table)) (i : nat)
    (t : HuddleLeaseRenewer) :
  sys_sim x y → leases_ok y → tasks (reg y) !! i = Some t →
  let a := renew_tick i t (reg x) (dir x) in let b := renew_tick i t (reg y) (dir y) in
  sys_sim (with_dir x a.1 a.2) (with_dir y b.1 b.2) ∧ leases_ok (with_dir y b.1 b.2).
Proof.
  intros (Hr & Hg & Ha & Hs & Hd) Hy Ht.
  destruct (lease_granted _ Hy _ (lease_task _ Hy _ _ Ht)) as [Hl _].
  destruct (renew_sim error_text (rn_lease t) Hl _ _ Hd) as [Hd' Heq].
  pose proof (renew_onward (rn_lease t) (dir y)) as Hon. unfold renew_tick.
  change (h_renew (rn_lease t) (dir x)) with
    (h_renew (HuddleDirectory := session_directory error_text) (rn_lease t) (dir x)).
  destruct (h_renew (HuddleDirectory := session_directory error_text) (rn_lease t) (dir x)) as [d' ans].
  change (h_renew (rn_lease t) (dir y)) with
    (h_renew (HuddleDirectory := table_directory error_text) (rn_lease t) (dir y)) in *.
  destruct (h_renew (HuddleDirectory := table_directory error_text) (rn_lease t) (dir y)) as [e' ans'].
  cbn [fst snd] in *. subst ans'. rewrite Hr. split; [by split_and!|].
  apply (leases_step y); [done|done|by left| |apply (lease_attaching _ Hy)]. cbn [with_dir reg dir granted].
  assert (∀ p r u j, tasks r = tasks (reg y) → (∀ b a, p ≠ Stopped b (Ok a)) →
    tasks (set_phase i p r) !! j = Some u → rn_lease u ∈ granted y ∧
     ∀ b a, rn_phase u = Stopped b (Ok a) →
       (∃ v, tasks (reg y) !! j = Some v ∧ rn_lease v = rn_lease u ∧ rn_phase v = rn_phase u) ∨
       gone (clock e') (rn_lease u) (session_of (behind e') (rn_lease u))) as Hph.
  { intros p r u j Htr Hp Hu. destruct (tasks_phase y i j p r u Htr Hu) as (v & Hv & Hle & Hcase).
    split; [rewrite <- Hle; by eapply (lease_task _ Hy)|]. intros b a Hb. left. exists v.
    split_and!; try done. case_decide; [|done]. by destruct (Hp b a); rewrite <- Hcase. }
  intros j u. destruct ans as [[[l|]|e]|]; try (apply Hph; done).
  intros Hu. split; [by eapply (lease_task _ Hy)|]. intros b a Hb. left. by exists u.
Qed.

Lemma joint_release (x : System (Served store)) (y : System (Served Table)) (i : nat)
    (t : HuddleLeaseRenewer) (cc : bool) :
  sys_sim x y → leases_ok y → tasks (reg y) !! i = Some t →
  let a := final_release i t cc (reg x) (dir x) in let b := final_release i t cc (reg y) (dir y) in
  sys_sim (with_dir x a.1 a.2) (with_dir y b.1 b.2) ∧ leases_ok (with_dir y b.1 b.2).
Proof.
  intros (Hr & Hg & Ha & Hs & Hd) Hy Ht.
  destruct (lease_granted _ Hy _ (lease_task _ Hy _ _ Ht)) as [Hl Hle].
  destruct (release_sim error_text (rn_lease t) Hl _ _ Hd) as [Hd' Heq].
  pose proof (release_onward (rn_lease t) (dir y)) as Hon.
  pose proof (release_answered (rn_lease t) (dir y)) as Hrel. unfold final_release.
  change (h_release (rn_lease t) (dir x)) with
    (h_release (HuddleDirectory := session_directory error_text) (rn_lease t) (dir x)).
  destruct (h_release (HuddleDirectory := session_directory error_text) (rn_lease t) (dir x)) as [d' ans].
  change (h_release (rn_lease t) (dir y)) with
    (h_release (HuddleDirectory := table_directory error_text) (rn_lease t) (dir y)) in *.
  destruct (h_release (HuddleDirectory := table_directory error_text) (rn_lease t) (dir y)) as [e' ans'].
  cbn [fst snd] in *. subst ans'. rewrite Hr. split; [by split_and!|].
  apply (leases_step y); [done|done|by left| |apply (lease_attaching _ Hy)]. cbn [with_dir reg dir granted].
  assert (∀ p r u j, tasks r = tasks (reg y) →
    (∀ b a, p = Stopped b (Ok a) → ans = Some (Ok a)) →
    tasks (set_phase i p r) !! j = Some u → rn_lease u ∈ granted y ∧
     ∀ b a, rn_phase u = Stopped b (Ok a) →
       (∃ v, tasks (reg y) !! j = Some v ∧ rn_lease v = rn_lease u ∧ rn_phase v = rn_phase u) ∨
       gone (clock e') (rn_lease u) (session_of (behind e') (rn_lease u))) as Hph.
  { intros p r u j Htr Hp Hu. destruct (tasks_phase y i j p r u Htr Hu) as (v & Hv & Hlv & Hcase).
    split; [rewrite <- Hlv; by eapply (lease_task _ Hy)|]. intros b a Hb.
    case_decide as Hji; [|left; by exists v]. right. subst j. rewrite Hcase in Hb.
    rewrite Ht in Hv. injection Hv as <-. rewrite <- Hlv. apply (Hrel e' a Hle). by rewrite (Hp b a). }
  intros j u. destruct ans as [[[|]|e]|]; [| |destruct cc|]; (apply Hph; [done|]);
    intros b a [= <- <-] || intros b a [= <-] || intros b a; try done; congruence.
Qed.

Lemma joint_step (ev : event) (x : System (Served store)) (y : System (Served Table)) :
  event_ok ev → sys_sim x y → leases_ok y →
  sys_sim (step (pass_store error_text) ev x) (step (pass_table error_text) ev y) ∧
  leases_ok (step (pass_table error_text) ev y).
Proof.
  intros Hev Hs Hy. pose proof Hs as (Hr & Hg & Ha & Hsh & Hd).
  destruct ev as [c s owner|n|n|s g| | | |i|i|i|g]; cbn [step].
  - pose proof (acquire_onward c s owner (dir y)) as Hon.
    pose proof (granted_ok c s owner (dir y)) as Hgr.
    destruct (acquire_sim error_text c s owner Hev _ _ Hd) as [Hd' Heq].
    change (h_acquire c s owner (dir x)) with
      (h_acquire (HuddleDirectory := session_directory error_text) c s owner (dir x)).
    destruct (h_acquire (HuddleDirectory := session_directory error_text) c s owner (dir x)) as [d' a].
    change (h_acquire c s owner (dir y)) with
      (h_acquire (HuddleDirectory := table_directory error_text) c s owner (dir y)) in *.
    destruct (h_acquire (HuddleDirectory := table_directory error_text) c s owner (dir y)) as [e' a'].
    cbn [fst snd] in *. subst a'. rewrite Hg. split; [by split_and!|].
    apply (leases_step y); cbn [granted reg dir attaching]; [done|done| | |].
    + intros l Hl. destruct a as [[l'|o]|e]; [|by left..].
      apply elem_of_app in Hl as [?|Hl%list_elem_of_singleton]; [by left|right; subst l].
      destruct (Hgr e' l' Hev) as [? ->]; [by eapply granted_counter|done|]. split; [done|lia].
    + intros i t Ht. pose proof (lease_task _ Hy _ _ Ht).
      split; [destruct a as [[?|?]|?]; [by apply elem_of_app; left|done..]|]. intros b a' Hp. left. by exists t.
    + intros s' l Hl. pose proof (lease_attaching _ Hy _ _ Hl).
      destruct a as [[?|?]|?]; [by apply elem_of_app; left|done..].
  - rewrite Hg, Ha, Hr. destruct (granted y !! n) as [l|] eqn:Hn; [|done].
    destruct (attaching y !! n); [done|]. apply list_elem_of_lookup_2 in Hn.
    destruct (is_draining (reg y)); (split; [by split_and!|]); apply (leases_keep y); try done.
    + intros i t Ht. by eapply tasks_snoc; [..|exact Ht].
    + apply attaching_granted; [done|]. by intros l' [?|?].
    + intros. by eapply tasks_same.
    + apply attaching_granted; [done|]. by intros l' [[= ->]|?].
  - rewrite Ha. destruct (attaching y !! n) as [a|] eqn:Has; [|done].
    split; [|by apply attach_step_leases].
    destruct a as [l|l|s e|]; cbn [attach_step]; rewrite ?Hr; [destruct (entries (reg y) !! l_session_id l)|
      destruct (attach_insert (l_session_id l) l (reg y))| |]; split_and!; cbn [with_attaching attaching];
      by rewrite ?Ha.
  - rewrite Hr. split; [by split_and!|]. apply (leases_keep y); try done; [|apply (lease_attaching _ Hy)].
    intros i t. simpl. unfold release. rewrite remove_epoch_tasks. intros. by eapply tasks_same.
  - rewrite Hsh, Hr. destruct (shutdown y); try done. split; [by split_and!|].
    apply (leases_keep y); try done; [intros; by eapply tasks_same|apply (lease_attaching _ Hy)].
  - rewrite Hsh, Hr. destruct (shutdown y); try done. split; [by split_and!|].
    apply (leases_keep y); try done; [intros; by eapply tasks_same|apply (lease_attaching _ Hy)].
  - rewrite Hsh, Hr. destruct (shutdown y) as [| |[|[s g] todo]]; try done. split; [by split_and!|].
    apply (leases_keep y); try done; [|apply (lease_attaching _ Hy)].
    intros i t. simpl. unfold drain. rewrite remove_epoch_tasks. intros. by eapply tasks_same.
  - rewrite Hr. destruct (tasks (reg y) !! i) as [t|] eqn:Ht; [|done].
    destruct (rn_phase t); try done. pose proof (joint_tick x y i t Hs Hy Ht) as Hj. cbv zeta in Hj.
    rewrite Hr in Hj. by destruct (renew_tick i t (reg y) (dir x)), (renew_tick i t (reg y) (dir y)).
  - rewrite Hr. destruct (tasks (reg y) !! i) as [t|] eqn:Ht; [|done].
    destruct (rn_phase t); try done. case_decide; [|done]. split; [by split_and!|].
    apply (leases_keep y); try done; [|apply (lease_attaching _ Hy)].
    intros j u Hu. destruct (tasks_phase y i j _ _ u eq_refl Hu) as (v & Hv & Hle & Hp). left. exists v. split_and!; try done.
    case_decide; [right; by rewrite Hp|by left].
  - rewrite Hr. destruct (tasks (reg y) !! i) as [t|] eqn:Ht; [|done].
    destruct (rn_phase t) as [|cc| |]; try done.
    pose proof (joint_release x y i t cc Hs Hy Ht) as Hj. cbv zeta in Hj.
    rewrite Hr in Hj. by destruct (final_release i t cc (reg y) (dir x)), (final_release i t cc (reg y) (dir y)).
  - rewrite Hr. split; [split_and!; try done; by apply pass_sim|].
    apply (leases_step y); [done|by apply pass_onward|by left| |apply (lease_attaching _ Hy)].
    intros i t Ht. split; [by eapply (lease_task _ Hy)|]. intros b a Hp. left. by exists t.
Qed.

Lemma booted_joint (d : Served store) :
  empty_at (clock d) (behind d) →
  sys_sim (booted d) (booted {| behind := ∅; clock := clock d; fate := fate d; lease_ttl := lease_ttl d |}) ∧
  leases_ok (booted {| behind := ∅; clock := clock d; fate := fate d; lease_ttl := lease_ttl d |}).
Proof.
  intros He. split.
  - split_and!; try done. split; [by apply empty_store_rel|done].
  - split; simpl; intros *; try done; [by intros ?%elem_of_nil|].
    rewrite !lookup_empty. by intros [?|?].
Qed.

Lemma joint_run (evs : list event) (x : System (Served store)) (y : System (Served Table)) :
  Forall event_ok evs → sys_sim x y → leases_ok y →
  sys_sim (run (pass_store error_text) evs x) (run (pass_table error_text) evs y) ∧
  leases_ok (run (pass_table error_text) evs y).
Proof.
  intros Hall. revert x y. induction Hall as [|ev evs Hev _ IH]; intros x y Hs Hy; [done|].
  destruct (joint_step ev x y Hev Hs Hy) as [? ?]. by apply IH.
Qed.

Definition finished (p : Phase) : bool :=
  match p with Stopped _ _ | Panicked _ => true | _ => false end.

Lemma set_phase_lookup (i : nat) (p : Phase) (r : HuddleOwnerRegistry) (t : HuddleLeaseRenewer) :
  tasks r !! i = Some t →
  ∃ t', tasks (set_phase i p r) !! i = Some t' ∧ rn_phase t' = p.
Proof.
  intros Ht. unfold set_phase. simpl. rewrite list_lookup_alter_eq, Ht. by eexists.
Qed.

(** A renewer that was told to stop does so in two steps. *)
Lemma stops_in_two (x : System (Served store)) (i : nat) (t : HuddleLeaseRenewer) :
  tasks (reg x) !! i = Some t → rn_cancel t ∈ cancelled (reg x) →
  ∃ t', tasks (reg (run (pass_store error_text) [SeeCancel i; LetGo i] x)) !! i = Some t' ∧
    finished (rn_phase t') = true.
Proof.
  intros Ht Hc. cbn [run foldl].
  assert (∃ u, tasks (reg (step (pass_store error_text) (SeeCancel i) x)) !! i = Some u ∧
    ∀ b, rn_phase u ≠ Renewing ∧ (rn_phase u = Releasing b ∨ rn_phase u = Releasing (negb b) ∨
      finished (rn_phase u) = true)) as (u & Hu & Hp).
  { cbn [step]. rewrite Ht. destruct (rn_phase t) as [|cc|cc a|lo] eqn:Hph.
    - rewrite decide_True by done. destruct (set_phase_lookup i (Releasing true) _ _ Ht) as (u & Hu & Hpu).
      exists u. split; [done|]. rewrite Hpu. intros []; auto.
    - exists t. rewrite Hph. split; [done|]. intros b. split; [done|]. destruct b, cc; auto.
    - exists t. rewrite Hph. auto.
    - exists t. rewrite Hph. auto. }
  generalize dependent (step (pass_store error_text) (SeeCancel i) x). intros z Hu.
  cbn [step]. rewrite Hu. destruct (Hp true) as [Hn Hcase].
  destruct (rn_phase u) as [|cc|cc a|lo] eqn:Hph; [done| |exists u; by rewrite Hph..].
  unfold final_release. destruct (h_release (rn_lease u) (dir z)) as [d' [[[|]|e]|]]; cbn [with_dir reg];
    match goal with |- ∃ t', tasks (set_phase i ?p ?r) !! i = Some t' ∧ _ =>
      destruct (set_phase_lookup i p r u) as (v & Hv & Hpv); [by destruct cc|];
      exists v; by rewrite Hpv
    end.
Qed.

(** No lookup names a lease whose release the directory has answered. *)
Lemma released_not_named (d : Served store) (evs : list event) (i : nat) (t : HuddleLeaseRenewer)
    (b : bool) (a : HuddleReleaseOutcome) :
  empty_at (clock d) (behind d) → Forall event_ok evs →
  let x := run (pass_store error_text) evs (booted d) in
  tasks (reg x) !! i = Some t → rn_phase t = Stopped b (Ok a) →
  (owner_of (l_community_id (rn_lease t)) (l_session_id (rn_lease t)) (dir x)).2
  ≠ Ok (Some (ownership (rn_lease t))).
Proof.
  intros He Hall x Ht Hp. destruct (booted_joint d He) as [Hs0 Hy0].
  destruct (joint_run evs _ _ Hall Hs0 Hy0) as [Hs Hy].
  destruct Hs as (Hreg & _ & _ & _ & Hd).
  change (reg x = reg (run (pass_table error_text) evs (booted
    {| behind := ∅; clock := clock d; fate := fate d; lease_ttl := lease_ttl d |}))) in Hreg.
  rewrite Hreg in Ht. pose proof (lease_gone _ Hy i t b a Ht Hp) as Hg.
  destruct (owner_of_sim error_text (l_community_id (rn_lease t)) (l_session_id (rn_lease t)) _ _ Hd)
    as [_ Heq].
  change (owner_of ?c ?s (dir x)) with
    (owner_of (HuddleDirectory := session_directory error_text) c s (dir x)).
  fold x in Heq. rewrite Heq. simpl. intros Hown.
  set (y := run (pass_table error_text) evs _) in *.
  unfold read_answer in Hown. destruct (read_error (fate (dir y))); [done|].
  destruct (current_lease _ _ _ _) as [[l'|]|e] eqn:Hcur; try done. unfold to_mesh in Hown. simpl in Hown.
  eapply gone_not_named; [exact Hg|exact Hcur|].
  injection Hown as Ho Hge. unfold ownership. by rewrite Ho, Hge.
Qed.

(** C38 After a shutdown drain, whatever raced with it, only what an overlapping attach
    overwrote is left. Over the Redis directory, once [drain_all] has gone through its rooms
    and the attaches in flight have ended, the registry is empty; every renewer was told to
    stop, including those of attaches that had passed the first check before the flag was
    set, save for a renewer whose entry another attach of the same session id replaced; and
    that takes two attaches of that session between their lookup and their insert at the same
    time. A renewer that was told to stop ends in two steps, and once the directory answered
    a renewer's release no lookup ever names its lease. The comment on [attach] says that at
    most one caller installs; [overlapping_attach_leaks] shows what it overlooks. *)
Theorem drain_leaves_only_overwritten (d : Served store) (evs : list event) :
  empty_at (clock d) (behind d) → Forall event_ok evs →
  let x := run (pass_store error_text) evs (booted d) in
  shutdown x = Rooms [] → (∀ n a, attaching x !! n = Some a → a = Attached) →
  entries (reg x) = ∅ ∧
  ∀ i t, tasks (reg x) !! i = Some t →
    (rn_cancel t ∈ cancelled (reg x) ∨
     let s := l_session_id (rn_lease t) in
     overwritten (pass_store error_text) evs (booted d) s (rn_cancel t) ∧
     overlap (pass_store error_text) evs (booted d) s) ∧
    (rn_cancel t ∈ cancelled (reg x) →
     ∃ t', tasks (reg (run (pass_store error_text) [SeeCancel i; LetGo i] x)) !! i = Some t' ∧
       finished (rn_phase t') = true) ∧
    (∀ b a, rn_phase t = Stopped b (Ok a) →
       (owner_of (l_community_id (rn_lease t)) (l_session_id (rn_lease t)) (dir x)).2
       ≠ Ok (Some (ownership (rn_lease t)))).
Proof.
  intros He Hall x Hsh Hat.
  pose proof (system_run_ok (pass_store error_text) evs d) as Hx. fold x in Hx.
  assert (entries (reg x) = ∅) as Hes.
  { apply map_eq. intros s. rewrite lookup_empty. destruct (entries (reg x) !! s) as [e|] eqn:Hse; [|done].
    destruct (sys_drain _ _ Hx s e Hse) as [[n Ha]|[Ha|(todo & Ha & Hin)]].
    - apply (sys_flag _ _ Hx). by rewrite Hsh.
    - by apply Hat in Ha.
    - congruence.
    - rewrite Hsh in Ha. injection Ha as <-. by apply elem_of_nil in Hin. }
  split; [done|]. intros i t Ht.
  split_and!; [|intros Hc; by apply (stops_in_two x i t)|].
  { destruct (decide (rn_cancel t ∈ cancelled (reg x))) as [?|Hn]; [by left|right].
    destruct (ok_task _ (sys_reg _ _ Hx) _ _ Ht Hn) as [Ho|(e & Hse & _)].
    - split; [done|]. by eapply overwritten_overlap.
    - by rewrite Hes, lookup_empty in Hse. }
  intros b a. by eapply released_not_named.
Qed.

End drain.

(** ** The theorems *)

(** One renewer per room: under any interleaving of attaches, releases, drains, renewals
    and directory failures, each entry of the registry has a renewer that was not told to stop,
    of its session and generation; each other renewer was told to stop, or an overlapping
    attach replaced its entry; and the loss signal of a renewer is fired exactly when its loop
    ended on a failed renewal or its release found that the lease had moved. *)
Theorem one_renewer_per_room {D} `{HuddleDirectory D} (others : Gap → D → D) (evs : list event)
    (d : D) :
  let r := reg (run others evs (booted d)) in
  (∀ s e, entries r !! s = Some e →
     ∃ i t, tasks r !! i = Some t ∧ (rn_cancel t ∉ cancelled r) ∧ owned_by_entry s e t) ∧
  (∀ i t, tasks r !! i = Some t → rn_cancel t ∉ cancelled r →
     let s := l_session_id (rn_lease t) in
     (∃ e, entries r !! s = Some e ∧ owned_by_entry s e t) ∨
     (overwritten others evs (booted d) s (rn_cancel t) ∧ overlap others evs (booted d) s)) ∧
  (∀ i t, tasks r !! i = Some t → (rn_lost t ∈ cancelled r) ↔ lost_owner (rn_phase t) = true).
Proof.
  intros r. pose proof (sys_reg _ _ (system_run_ok others evs d)) as Hr. fold r in Hr. split_and!.
  - intros s e He. destruct (ok_entry _ Hr _ _ He) as (Hn & _ & _ & i & t & Ht & Ho).
    exists i, t. split_and!; try done. by destruct Ho as (_ & -> & _).
  - intros i t Ht Hn s. destruct (ok_task _ Hr _ _ Ht Hn) as [Ho|(e & He & Ho)].
    + right. split; [done|]. by eapply overwritten_overlap.
    + left. by exists e.
  - apply (ok_loss _ Hr).
Qed.

(** The registry keeps one entry per channel id, whatever community or epoch a lease is of:
    while an entry for the first lease stands, a second lease (of another community that
    uses the same channel id, or of a newer epoch of the same room) is thrown away and its
    connection watches the first lease's signals. When that connection then empties its room
    it releases by its own generation: if the two generations agree the first lease is
    released under the feet of its room, and otherwise the first entry stays for good. *)
Theorem one_entry_per_channel_id (r : HuddleOwnerRegistry) (s : Uuid) (l1 l2 : HuddleLease) :
  is_draining r = false → entries r !! s = None → l_session_id l1 = s →
  let r1 := (attach_signals s l1 r).1 in
  let '(r2, sg) := attach_signals s l2 r1 in
  ∃ e, entries r1 !! s = Some e ∧
    (∃ t, last (tasks r1) = Some t ∧ rn_lease t = l1 ∧ owned_by_entry s e t) ∧ sg = signals e ∧
    entries r2 !! s = Some e ∧
    (∃ t, last (tasks r2) = Some t ∧ rn_lease t = l2 ∧ rn_cancel t ∈ cancelled r2) ∧
    let r3 := release s (l_generation l2) r2 in
    if decide (l_generation l1 = l_generation l2)
    then entries r3 !! s = None ∧ cancel e ∈ cancelled r3
    else entries r3 !! s = Some e.
Proof.
  intros Hd Hs Hl. unfold attach_signals at 1 2. rewrite Hd, Hs.
  destruct (attach_insert s l1 r) as [r' e] eqn:Hi.
  assert (is_draining r' = false ∧ entries r' = <[s := e]> (entries r) ∧
          e_generation e = l_generation l1 ∧
          ∃ t, last (tasks r') = Some t ∧ rn_lease t = l1 ∧ owned_by_entry s e t) as (Hd' & He & Hg & Ht).
  { unfold attach_insert in Hi. simpl in Hi. injection Hi as <- <-. split_and!; try done.
    eexists. split; [apply last_snoc|]. by split. }
  assert (attach_recheck s e r' = r') as Hre by (unfold attach_recheck; by rewrite Hd').
  cbn [fst]. rewrite Hre, Hd'. assert (entries r' !! s = Some e) as Hse
    by (rewrite He; apply lookup_insert_eq).
  rewrite Hse. exists e. split_and!; try done.
  - simpl. rewrite last_snoc. eexists. split; [done|]. simpl. split; [done|]. set_solver.
  - unfold release, remove_epoch. simpl. rewrite Hse, Hg.
    destruct (Z.eqb_spec (l_generation l1) (l_generation l2)) as [->|Hne].
    + rewrite decide_True by done. simpl. rewrite lookup_delete_eq. split; [done|]. set_solver.
    + by rewrite decide_False.
Qed.

(** ** Witnesses *)

Section witnesses.
#[local] Existing Instance Toy.redis.
#[local] Existing Instance Toy.texts.
#[local] Existing Instance Toy.laws.

Definition demo_lease : HuddleLease :=
  {| l_community_id := 1; l_session_id := 2; l_owner_runtime_id := 7; l_generation := 1;
     l_profile := HuddleControl |}.

Definition demo_directory : Served store :=
  {| behind := ∅; clock := 0; fate := Toy.healthy; lease_ttl := DEFAULT_LEASE_TTL |}.

(** The attach passes its first check before the drain begins, and inserts after it. *)
Definition demo_race : list event :=
  [Acquire 1 2 7; AttachCheck 0; AttachStep 0; DrainStore; AttachStep 0; DrainCollect;
   AttachStep 0; DrainNext; SeeCancel 0; LetGo 0].

Lemma drain_leaves_only_overwritten_witness :
  let x := run (H := session_directory (λ _, "")) (pass_store (λ _, "")) demo_race
             (booted demo_directory) in
  shutdown x = Rooms [] ∧ map rn_phase (tasks (reg x)) = [Stopped true (Ok HReleased)] ∧
  entries (reg x) = ∅.
Proof.
  intros x. assert (attaching x = {[0 := Attached]}) as Hat by (vm_compute; reflexivity).
  split_and!; [vm_compute; reflexivity|vm_compute; reflexivity|].
  apply (drain_leaves_only_overwritten (λ _, "") demo_directory demo_race (toy_empty 0));
    [repeat constructor; done|vm_compute; reflexivity|].
  intros n a Hn. assert (attaching x !! n = Some a) as Hx by exact Hn.
  rewrite Hat in Hx. by apply lookup_singleton_Some in Hx as [_ <-].
Defined.

(** One connection is slow, its lease expires, and another one is granted the next lease of
    the room. Both attach: both find no entry, the second lease's is inserted and then
    replaced by the first's. The drain only knows the first: afterwards the renewer of the
    second lease runs on, was not told to stop, and this draining pod is still the owner. *)
Definition demo_leak : list event :=
  [Acquire 1 2 7; Others {| g_requests := []; g_wait := 40000; g_fate := Toy.healthy |};
   Acquire 1 2 7; AttachCheck 0; AttachCheck 1; AttachStep 0; AttachStep 1;
   AttachStep 1; AttachStep 0; AttachStep 1; AttachStep 0;
   DrainStore; DrainCollect; DrainNext; SeeCancel 1; LetGo 1; SeeCancel 0; Tick 0].

Example overlapping_attach_leaks :
  let x := run (H := session_directory (λ _, "")) (pass_store (λ _, "")) demo_leak
             (booted demo_directory) in
  shutdown x = Rooms [] ∧ attaching x = {[0 := Attached; 1 := Attached]} ∧ entries (reg x) = ∅ ∧
  map (λ t, (l_generation (rn_lease t), rn_phase t)) (tasks (reg x)) =
    [(2%Z, Renewing); (1%Z, Stopped true (Ok HNotOwner))] ∧
  (owner_of (HuddleDirectory := session_directory (λ _, "")) 1%N 2%N (dir x)).2 =
    Ok (Some {| o_owner_runtime_id := 7; o_generation := 2 |}).
Proof. vm_compute. done. Qed.

Lemma one_entry_per_channel_id_witness :
  let other := {| l_community_id := 9; l_session_id := 2; l_owner_runtime_id := 7;
                  l_generation := 1; l_profile := HuddleControl |} in
  ∃ e, entries (attach_signals 2 demo_lease registry_new).1 !! 2%N = Some e ∧
    (attach_signals 2 other (attach_signals 2 demo_lease registry_new).1).2 = signals e.
Proof.
  intros other.
  pose proof (one_entry_per_channel_id registry_new 2 demo_lease other eq_refl eq_refl eq_refl) as He.
  cbv zeta in He. destruct (attach_signals 2 other _) as [r2 sg].
  destruct He as (e & Hr1 & _ & Hsg & _). exists e. split; [exact Hr1|exact Hsg].
Defined.

End witnesses.
