(* ===== verification/HuddleJoin.v ===== *)
(** * Who owns a huddle (buzz-relay/src/audio/join.rs)

    [resolve_join] and the bounded loop [resolve_join_owner_ready] around it. A computation
    runs in a world of the directory, the registry of owner leases and what others do: each
    [await] first lets others act ([yield]), on the directory by requests of their own and on
    the registry arbitrarily. *)

From S2P Require Import Prelude Text Filter Gossip Membership Wire SessionDirectory LeaseTable HuddleDirectory HuddleOwners.

Open Scope string_scope.
Open Scope nat_scope.
Open Scope list_scope.

Inductive JoinOutcome :=
  | LocalOwner (generation : Z)
  | RemoteOwner (owner_runtime_id : RuntimeId) (generation : Z).

Record ResolvedJoin := { outcome : JoinOutcome; acquired : option HuddleLease }.

(** [JoinOutcome::fenced_header] *)
Definition join_header (o : JoinOutcome) (s : Uuid) (local_runtime_id : RuntimeId) : FencedHeader :=
  match o with
  | LocalOwner g => {| session_id := s; generation := g; owner_runtime_id := local_runtime_id |}
  | RemoteOwner owner g => {| session_id := s; generation := g; owner_runtime_id := owner |}
  end.

Definition OWNER_READY_MAX_ATTEMPTS : nat := 25.

(** What others do before the next step of this task *)
Record Meanwhile := { m_gap : Gap; m_owners : HuddleOwnerRegistry → HuddleOwnerRegistry }.

Record World (D : Type) := {
  directory : D;
  owners : HuddleOwnerRegistry;
  pending : list Meanwhile
}.
Arguments directory {D} w.
Arguments owners {D} w.
Arguments pending {D} w.

Section join.
Context {D : Type} `{HuddleDirectory D} `{IdText}.
Context (others : Gap → D → D).

Definition Async (A : Type) : Type := World D → World D * result A MeshError.

Definition yield (w : World D) : World D :=
  match pending w with
  | [] => w
  | m :: ms =>
      {| directory := others (m_gap m) (directory w); owners := m_owners m (owners w);
         pending := ms |}
  end.

(** An awaited call of the directory *)
Definition call {A} (f : D → D * result A MeshError) : Async A := λ w,
  let w := yield w in
  let '(d, x) := f (directory w) in
  ({| directory := d; owners := owners w; pending := pending w |}, x).

Definition ret {A} (a : A) : Async A := λ w, (w, Ok a).

Definition bind {A B} (m : Async A) (f : A → Async B) : Async B := λ w,
  let '(w, x) := m w in
  match x with Ok a => f a w | Err e => (w, Err e) end.

#[local] Notation "x <~ m ;; k" := (bind m (λ x, k))
  (at level 100, m at next level, right associativity).

(** The winner's lease, or the ownership to join under *)
Definition find_owner (c : CommunityId) (s : Uuid) (local_runtime_id : RuntimeId)
  : Async (HuddleLease + Ownership) :=
  found <~ call (owner_of c s) ;;
  match found with
  | Some o => ret (inr o)
  | None =>
      a <~ call (h_acquire c s local_runtime_id) ;;
      match a with HAcquired l => ret (inl l) | HHeld o => ret (inr o) end
  end.

Definition resolve_join (c : CommunityId) (s : Uuid) (local_runtime_id : RuntimeId)
  : Async ResolvedJoin :=
  found <~ find_owner c s local_runtime_id ;;
  match found with
  | inl l => ret {| outcome := LocalOwner (l_generation l); acquired := Some l |}
  | inr o =>
      if decide (o_owner_runtime_id o = local_runtime_id)
      then ret {| outcome := LocalOwner (o_generation o); acquired := None |}
      else
        let remote := RemoteOwner (o_owner_runtime_id o) (o_generation o) in
        _ <~ call (validate c (join_header remote s local_runtime_id)) ;;
        ret {| outcome := remote; acquired := None |}
  end.

Definition not_ready (s : Uuid) : MeshError :=
  Transport ("huddle owner not ready for session " +:+ uuid_to_string s +:+ " after "
             +:+ decimal (Z.of_nat OWNER_READY_MAX_ATTEMPTS) +:+ " attempts").

(** The loop, with the attempts that are left; others act before the registry is read and
    during the sleep. *)
Fixpoint owner_ready_loop (n : nat) (c : CommunityId) (s : Uuid) (local_runtime_id : RuntimeId)
  : Async ResolvedJoin :=
  match n with
  | 0 => λ w, (w, Err (not_ready s))
  | S n =>
      resolved <~ resolve_join c s local_runtime_id ;;
      match outcome resolved, acquired resolved with
      | LocalOwner _, None => λ w,
          let w := yield w in
          match lost_for s (owners w) with
          | Some _ => (w, Ok resolved)
          | None => owner_ready_loop n c s local_runtime_id (yield w)
          end
      | _, _ => ret resolved
      end
  end.

Definition resolve_join_owner_ready : CommunityId → Uuid → RuntimeId → Async ResolvedJoin :=
  owner_ready_loop OWNER_READY_MAX_ATTEMPTS.

End join.
Arguments Async D A : clear implicits.

(** ** The join over Redis and over the table *)

Section simulation.
Context `{RedisLaws}.
Context (error_text : DirectoryError → string).

Abbreviation Table := (gmap (CommunityId * Uuid) Session) (only parsing).

#[local] Instance redis_join : HuddleDirectory (Served store) := session_directory error_text.
#[local] Instance table_join : HuddleDirectory (Served Table) := table_directory error_text.

Definition world_sim (w : World (Served store)) (v : World (Served Table)) : Prop :=
  dir_sim (directory w) (directory v) ∧ owners w = owners v ∧ pending w = pending v ∧
  Forall (λ m, gap_ok (m_gap m)) (pending w).

Definition async_sim {A} (m : Async (Served store) A) (n : Async (Served Table) A) : Prop :=
  ∀ w v, world_sim w v → world_sim (m w).1 (n v).1 ∧ (m w).2 = (n v).2.

Lemma yield_sim w v :
  world_sim w v → world_sim (yield (pass_store error_text) w) (yield (pass_table error_text) v).
Proof.
  intros (Hd & Ho & Hp & Hall). unfold yield. rewrite <- Hp.
  destruct (pending w) as [|m ms] eqn:Hw; [by split_and!; rewrite ?Hw|].
  apply Forall_cons in Hall as [? ?]. split_and!; simpl; try done; [by apply pass_sim|by rewrite Ho].
Qed.

Lemma ret_sim {A} (a : A) : async_sim (ret a) (ret a).
Proof. by intros w v Hw. Qed.

Lemma call_async_sim {A} (f : Served store → Served store * result A MeshError) g :
  call_sim f g → async_sim (call (pass_store error_text) f) (call (pass_table error_text) g).
Proof.
  intros Hc w v Hw. apply yield_sim in Hw. unfold call.
  generalize dependent (yield (pass_store error_text) w). intros w' Hw.
  generalize dependent (yield (pass_table error_text) v). intros v' (Hd & Ho & Hp & Hall).
  destruct (Hc _ _ Hd) as [Hd' Heq]. destruct (f (directory w')), (g (directory v')). by split.
Qed.

Lemma bind_sim {A B} (m : Async (Served store) A) n (f : A → Async (Served store) B) g :
  async_sim m n → (∀ a, async_sim (f a) (g a)) → async_sim (bind m f) (bind n g).
Proof.
  intros Hm Hf w v Hw. destruct (Hm w v Hw) as [Hw' Heq]. unfold bind.
  destruct (m w) as [w' x], (n v) as [v' y]. simpl in *. subst y.
  destruct x as [a|e]; [by apply Hf|by split].
Qed.

Lemma find_owner_sim c s local :
  (local < 2 ^ 256)%N →
  async_sim (find_owner (pass_store error_text) c s local)
            (find_owner (pass_table error_text) c s local).
Proof.
  intros Hl. apply bind_sim; [by apply call_async_sim, owner_of_sim|].
  intros [o|]; [apply ret_sim|]. apply bind_sim; [by apply call_async_sim, acquire_sim|].
  intros [l|o]; apply ret_sim.
Qed.

Lemma resolve_join_sim c s local :
  (local < 2 ^ 256)%N →
  async_sim (resolve_join (pass_store error_text) c s local)
            (resolve_join (pass_table error_text) c s local).
Proof.
  intros Hl. apply bind_sim; [by apply find_owner_sim|]. intros [l|o]; [apply ret_sim|].
  case_decide; [apply ret_sim|]. apply bind_sim; [apply call_async_sim, validate_sim|].
  intros _. apply ret_sim.
Qed.

Lemma owner_ready_sim n c s local :
  (local < 2 ^ 256)%N →
  async_sim (owner_ready_loop (pass_store error_text) n c s local)
            (owner_ready_loop (pass_table error_text) n c s local).
Proof.
  intros Hl. induction n as [|n IH]; [by intros w v Hw|].
  apply bind_sim; [by apply resolve_join_sim|]. intros [[g|o g] [l|]]; try apply ret_sim.
  intros w v Hw. simpl. apply yield_sim in Hw. pose proof Hw as (_ & Ho & _). rewrite Ho.
  destruct (lost_for s _); [done|]. by apply IH, yield_sim.
Qed.

(** ** What a join found, on the table *)

(** The header names the live lease of its session. *)
Definition names_live (c : CommunityId) (h : FencedHeader) (d : Served Table) : Prop :=
  let ss := session_at (behind d) c (session_id h) in
  counter ss = generation h ∧ (counter ss < LUA_EXACT)%Z ∧
  ∃ p, live (clock d) ss = Some (owner_runtime_id h, p).

Lemma named_by_current (c : CommunityId) (s : Uuid) (d : Served Table) (l : SessionLease) :
  current_lease (clock d) c s (session_at (behind d) c s) = Ok (Some l) →
  names_live c {| session_id := s; generation := l_generation l;
                  owner_runtime_id := l_owner_runtime_id l |} d.
Proof.
  intros (o & p & Hl & -> & Hlt)%current_lease_Some. unfold names_live. simpl.
  split_and!; [done|done|by exists p].
Qed.

Lemma fence_names_live (c : CommunityId) (h : FencedHeader) (d : Served Table) :
  fence_answer error_text (clock d) c h (session_at (behind d) c (session_id h)) = Ok tt
  ↔ names_live c h d.
Proof.
  unfold names_live. set (ss := session_at _ _ _). split.
  - intros Hf. unfold fence_answer in Hf.
    destruct (current_lease (clock d) c (session_id h) ss) as [[l|]|e] eqn:Hc; simpl in Hf; try done;
      [|by case_match].
    apply current_lease_Some in Hc as (o & p & Hl & -> & Hlt). simpl in Hf.
    destruct (_ && _); [done|]. case_decide as Hg; [done|]. case_decide as Ho; [done|].
    rewrite Ho. split_and!; [done|done|by exists p].
  - intros (Hg & Hlt & p & Hl). unfold fence_answer, current_lease. rewrite Hl. unfold read_lease.
    rewrite (proj2 (Z.ltb_lt _ _) Hlt), Hg, Z.ltb_irrefl, andb_false_r. simpl.
    by rewrite !decide_False by (intros Hn; by apply Hn).
Qed.

Lemma read_answer_Ok {A} (o : Outcome) (x : result A DirectoryError) (a : A) :
  read_answer o x = Ok a → x = Ok a.
Proof. unfold read_answer. by destruct (read_error o). Qed.

Lemma to_mesh_Ok {A B} (f : A → B) (x : result A DirectoryError) (b : B) :
  to_mesh error_text f x = Ok b → ∃ a, x = Ok a ∧ b = f a.
Proof. unfold to_mesh. destruct x; simpl; [|done]. intros [= <-]. eauto. Qed.

Lemma call_Ok {A} (f : Served Table → Served Table * result A MeshError) v v' a :
  call (pass_table error_text) f v = (v', Ok a) → ∃ d, f d = (directory v', Ok a).
Proof.
  unfold call. generalize (yield (pass_table error_text) v). intros u.
  destruct (f (directory u)) as [d x] eqn:Hf. intros [= <- ->]. by exists (directory u).
Qed.

Lemma effective_ttl (o : Outcome) (ttl t : Z) : effective o (ttl_ms ttl) = Some t → (0 < t)%Z.
Proof.
  unfold effective, ttl_ms. destruct (guard o); [|done|];
    (destruct (Z.ltb_spec 0 (ttl / 1000000)); [|by rewrite andb_false_r];
     rewrite andb_true_r; destruct (_ <=? _)%Z; [|done]; destruct (pool_error o), (runs o); try done;
     by intros [= <-]).
Qed.

Lemma find_owner_names c s local v v' x :
  find_owner (pass_table error_text) c s local v = (v', Ok x) →
  match x with
  | inl l => ownership l = {| o_owner_runtime_id := local; o_generation := l_generation l |} ∧
      l_community_id l = c ∧ l_session_id l = s ∧
      names_live c {| session_id := s; generation := l_generation l; owner_runtime_id := local |}
        (directory v')
  | inr o => names_live c {| session_id := s; generation := o_generation o;
                             owner_runtime_id := o_owner_runtime_id o |} (directory v')
  end.
Proof.
  unfold find_owner, bind. destruct (call _ _ v) as [v1 [[o|]|e]] eqn:Hc; [| |done].
  - intros [= <- <-]. apply call_Ok in Hc as [d Hc]. simpl in Hc. injection Hc as -> Ho.
    apply to_mesh_Ok in Ho as (l & Ho & Heq). apply read_answer_Ok in Ho. destruct l as [l|]; [|done].
    injection Heq as ->. by apply named_by_current.
  - clear Hc. destruct (call _ _ v1) as [v2 [[l|o]|e]] eqn:Hc; [| |done]; intros [= <- <-];
      apply call_Ok in Hc as [d Hc]; simpl in Hc; injection Hc as Hd Ha;
      apply to_mesh_Ok in Ha as (a & Ha & Heq); apply attempt_Ok in Ha as [Ha [t Ht]].
    + destruct a as [l'|l']; [|done]. injection Heq as <-.
      apply claim_answer_Acquired in Ha as (Hl & Hm & Hlt & ->). rewrite Ht in Hd.
      pose proof (effective_ttl _ _ _ Ht) as Htt. rewrite <- Hd. simpl. split_and!; try done.
      unfold names_live. simpl. rewrite session_at_update, decide_True by done. unfold claim.
      rewrite Hl, (proj2 (Z.eqb_neq _ _) Hm). simpl. split_and!; [done|done|].
      eexists. unfold live. simpl. by rewrite (proj2 (Z.ltb_lt _ _)) by lia.
    + destruct a as [l'|l']; [done|]. injection Heq as ->.
      unfold claim_answer in Ha. rewrite Ht in Hd. rewrite <- Hd. unfold names_live. simpl.
      rewrite session_at_update, decide_True by done. unfold claim.
      destruct (live (clock d) (session_at (behind d) c s)) as [[o' p']|] eqn:Hl.
      * unfold read_lease in Ha. destruct (Z.ltb_spec (counter (session_at (behind d) c s)) LUA_EXACT);
          [|done]. injection Ha as <-. simpl. split_and!; [done|done|by exists p'].
      * destruct (_ =? _)%Z; [done|]. unfold read_lease in Ha. by destruct (_ <? _)%Z.
Qed.

Lemma resolve_join_names c s local v v' r :
  resolve_join (pass_table error_text) c s local v = (v', Ok r) →
  names_live c (join_header (outcome r) s local) (directory v') ∧
  (∀ l, acquired r = Some l → outcome r = LocalOwner (l_generation l) ∧
     l_community_id l = c ∧ l_session_id l = s ∧ l_owner_runtime_id l = local) ∧
  (∀ o g, outcome r = RemoteOwner o g → o ≠ local ∧ acquired r = None).
Proof.
  unfold resolve_join, bind. destruct (find_owner _ _ _ _ v) as [v1 [[l|o]|e]] eqn:Hf; [| |done];
    apply find_owner_names in Hf.
  - intros [= <- <-]. destruct Hf as (Ho & Hc & Hs & Hn). simpl. split_and!; [done| |done].
    intros l' [= <-]. split_and!; try done. by injection Ho.
  - case_decide as Hl.
    + intros [= <- <-]. simpl. rewrite Hl in Hf. by split_and!.
    + destruct (call _ _ v1) as [v2 [[]|e]] eqn:Hc; [|done]. intros [= <- <-].
      apply call_Ok in Hc as [d Hc]. simpl in Hc. injection Hc as <- Hv.
      destruct (pool_error (fate d)), (reply (fate d)); try done.
      pose proof (proj1 (fence_names_live c _ d) Hv) as Hn. simpl. split_and!; [exact Hn|done|].
      intros o' g' [= <- <-]. by split.
Qed.

(** With nobody in between, the join succeeds. *)
Lemma resolve_join_settled c s local v :
  pending v = [] → fate (directory v) = {| guard := NoDb; pool_error := None; runs := true; reply := None |} →
  is_ok (ttl_ms (lease_ttl (directory v))) = true →
  (counter (session_at (behind (directory v)) c s) + 1 < LUA_EXACT)%Z →
  is_ok (resolve_join (pass_table error_text) c s local v).2 = true.
Proof.
  destruct v as [[T t f ttl] os ms]. simpl. intros -> -> Httl Hlt.
  unfold resolve_join, find_owner, bind, call, yield, ret. simpl.
  set (ss := session_at T c s) in *. unfold read_answer, current_lease. simpl.
  destruct (live t ss) as [[o p]|] eqn:Hl.
  - unfold read_lease. rewrite (proj2 (Z.ltb_lt _ _)) by lia. simpl. case_decide; [done|]. simpl.
    pose proof (fence_names_live c {| session_id := s; generation := counter ss;
      owner_runtime_id := o |} {| behind := T; clock := t; fate := Toy.healthy; lease_ttl := ttl |})
      as [_ Hf]. simpl in Hf. rewrite Hf; [done|].
    unfold names_live. simpl. fold ss. split_and!; [done|lia|by exists p].
  - unfold attempt, claim_answer. simpl. fold ss. rewrite Hl.
    rewrite (proj2 (Z.eqb_neq _ _)) by (unfold LUA_EXACT, i64_max in *; lia).
    unfold read_lease. rewrite (proj2 (Z.ltb_lt _ _) Hlt). by destruct (ttl_ms ttl).
Qed.

Lemma resolve_join_alone c s local v :
  let u := yield (pass_table error_text) v in
  pending u = [] → fate (directory u) = {| guard := NoDb; pool_error := None; runs := true; reply := None |} →
  is_ok (ttl_ms (lease_ttl (directory u))) = true →
  (counter (session_at (behind (directory u)) c s) + 1 < LUA_EXACT)%Z →
  is_ok (resolve_join (pass_table error_text) c s local v).2 = true.
Proof.
  intros u Hp Hf Ht Hc.
  assert (resolve_join (pass_table error_text) c s local v
          = resolve_join (pass_table error_text) c s local u) as ->.
  { unfold resolve_join, find_owner, bind, call. fold u.
    assert (yield (pass_table error_text) u = u) as -> by (unfold yield; by rewrite Hp). done. }
  by apply resolve_join_settled.
Qed.


(** ** The theorems *)

(** The directory as it would answer a call that nothing disturbs *)
Definition undisturbed {R} (d : Served R) : Served R :=
  {| behind := behind d; clock := clock d;
     fate := {| guard := NoDb; pool_error := None; runs := true; reply := None |};
     lease_ttl := lease_ttl d |}.

Lemma start_sim (d : Served store) (os : HuddleOwnerRegistry) (ms : list Meanwhile) :
  empty_at (clock d) (behind d) → Forall (λ m, gap_ok (m_gap m)) ms →
  world_sim {| directory := d; owners := os; pending := ms |}
            {| directory := {| behind := ∅; clock := clock d; fate := fate d;
                               lease_ttl := lease_ttl d |}; owners := os; pending := ms |}.
Proof. intros He Hall. split_and!; try done. split; [by apply empty_store_rel|done]. Qed.

(** A header that names the live lease passes the fence of Redis. *)
Lemma names_live_validate (c : CommunityId) (h : FencedHeader) (d : Served store)
    (a : Served (gmap (CommunityId * Uuid) Session)) :
  dir_sim d a → names_live c h a → (validate c h (undisturbed d)).2 = Ok tt.
Proof.
  intros (Hr & Hc & Hf & Hl) Hn.
  destruct (validate_sim error_text c h (undisturbed d) (undisturbed a)) as [_ Heq]; [by split_and!|].
  change (validate c h (undisturbed d)) with
    (validate (HuddleDirectory := session_directory error_text) c h (undisturbed d)).
  rewrite Heq. simpl. by apply (fence_names_live c h a).
Qed.

(** A join names the live owner: whatever other pods do to Redis between its calls, a join
    that succeeds answers an owner and generation that the fence accepts at that moment, a
    lease it minted is for the community, session and pod it asked for, and a remote owner is
    another pod. If nobody interferes after its first call went out, nothing fails and the
    generations have not run out, it does succeed. *)
Theorem join_names_live_owner (d : Served store) (os : HuddleOwnerRegistry) (ms : list Meanwhile)
    (c : CommunityId) (s : Uuid) (local_runtime_id : RuntimeId) :
  empty_at (clock d) (behind d) → Forall (λ m, gap_ok (m_gap m)) ms →
  (local_runtime_id < 2 ^ 256)%N →
  let w := {| directory := d; owners := os; pending := ms |} in
  let '(w', res) := resolve_join (pass_store error_text) c s local_runtime_id w in
  (∀ r, res = Ok r →
     (validate c (join_header (outcome r) s local_runtime_id) (undisturbed (directory w'))).2 = Ok tt ∧
     (∀ l, acquired r = Some l → outcome r = LocalOwner (l_generation l) ∧
        l_community_id l = c ∧ l_session_id l = s ∧ l_owner_runtime_id l = local_runtime_id) ∧
     (∀ o g, outcome r = RemoteOwner o g → o ≠ local_runtime_id ∧ acquired r = None)) ∧
  (let d1 := directory (yield (pass_store error_text) w) in
   length ms ≤ 1 → fate d1 = fate (undisturbed d1) → is_ok (ttl_ms (lease_ttl d1)) = true →
   (∀ g, known_generation (fate d1) (clock d1) c s (behind d1) = Ok (Some g) →
      (g + 1 < LUA_EXACT)%Z) →
   is_ok res = true).
Proof.
  intros He Hall Hl w. pose proof (start_sim d os ms He Hall) as Hs. fold w in Hs.
  destruct (resolve_join_sim c s local_runtime_id Hl _ _ Hs) as [Hs' Heq].
  set (v := {| directory := _; owners := os; pending := ms |}) in Hs, Hs', Heq.
  destruct (resolve_join (pass_store error_text) c s
    local_runtime_id w) as [w' res].
  destruct (resolve_join (pass_table error_text) c s
    local_runtime_id v) as [v' res'] eqn:Hv.
  simpl in Hs', Heq. subst res'. split.
  - intros r ->. apply resolve_join_names in Hv as (Hn & Hacq & Hrem).
    split_and!; [|done|done]. eapply names_live_validate; [apply Hs'|done].
  - intros d1 Hlen Hf Ht Hg. apply yield_sim in Hs.
    pose proof Hs as ((Hr & Hck & Hfa & Hle) & _ & Hp & _). fold d1 in Hr, Hck, Hfa, Hle.
    pose proof (resolve_join_alone c s local_runtime_id v) as Hok. cbv zeta in Hok.
    rewrite Hv in Hok. apply Hok.
    + unfold v, yield. simpl. destruct ms as [|m [|? ?]]; simpl in *; [done|done|lia].
    + by rewrite <- Hfa, Hf.
    + by rewrite <- Hle.
    + rewrite (generation_refines _ (fate d1) c s _ _ Hr), Hf in Hg. unfold read_answer in Hg.
      simpl in Hg. unfold known in Hg. set (ss := session_at _ c s) in *.
      destruct (Z.eqb_spec (counter ss) 0) as [->|Hne]; [done|by apply Hg].
Qed.

(** How much of what others do fits into one attempt *)
Lemma yield_pending (w : World (Served store)) :
  length (pending w) ≤ S (length (pending (yield (pass_store error_text) w))).
Proof. unfold yield. destruct (pending w); simpl; lia. Qed.

(** [m] lets others act at most [n] times. *)
Definition within {A} (n : nat) (m : Async (Served store) A) : Prop :=
  ∀ w, length (pending w) ≤ n + length (pending (m w).1).

Lemma ret_within {A} (a : A) (n : nat) : within n (ret a).
Proof. intros w. simpl. lia. Qed.

Lemma call_within {A} (f : Served store → Served store * result A MeshError) :
  within 1 (call (pass_store error_text) f).
Proof.
  intros w. etrans; [apply yield_pending|]. unfold call.
  by destruct (f (directory (yield (pass_store error_text) w))).
Qed.

Lemma bind_within {A B} (n k : nat) (m : Async (Served store) A) (f : A → Async (Served store) B) :
  within n m → (∀ a, within k (f a)) → within (n + k) (bind m f).
Proof.
  intros Hm Hf w. specialize (Hm w). unfold bind. destruct (m w) as [w1 [a|e]]; simpl in *; [|lia].
  specialize (Hf a w1). lia.
Qed.

Lemma resolve_join_within (c : CommunityId) (s : Uuid) (local : RuntimeId) :
  within 3 (resolve_join (pass_store error_text) c s local).
Proof.
  apply (bind_within 2 1).
  - apply (bind_within 1 1); [apply call_within|]. intros [o|]; [apply ret_within|].
    apply (bind_within 1 0); [apply call_within|]. intros [l|o]; apply ret_within.
  - intros [l|o]; [apply ret_within|]. case_decide; [apply ret_within|].
    apply (bind_within 1 0); [apply call_within|]. intros _. apply ret_within.
Qed.

Definition ready_result (c : CommunityId) (s : Uuid) (local : RuntimeId) (w' : World (Served store))
    (res : result ResolvedJoin MeshError) : Prop :=
  match res with
  | Ok {| outcome := LocalOwner _; acquired := None |} => is_Some (lost_for s (owners w'))
  | Ok r =>
      (validate c (join_header (outcome r) s local) (undisturbed (directory w'))).2 = Ok tt
  | Err e => e = not_ready s ∨
      ∃ u u', resolve_join (pass_store error_text) c s local u = (u', Err e)
  end.

Lemma owner_ready_loop_sound (n : nat) (c : CommunityId) (s : Uuid) (local : RuntimeId) w v :
  (local < 2 ^ 256)%N → world_sim w v →
  let '(w', res) := owner_ready_loop (pass_store error_text) n c s local w in
  ready_result c s local w' res ∧ length (pending w) ≤ length (pending w') + n * 5.
Proof.
  intros Hl. revert w v. induction n as [|n IH]; intros w v Hs; [simpl; split; [by left|lia]|].
  cbn [owner_ready_loop]. unfold bind.
  destruct (resolve_join_sim c s local Hl _ _ Hs) as [Hs' Heq].
  pose proof (resolve_join_within c s local w) as Hpend.
  destruct (resolve_join (pass_store error_text) c s local w) as [w1 x] eqn:Hw.
  destruct (resolve_join (pass_table error_text) c s local v) as [v1 y] eqn:Hv.
  simpl in Hs', Heq, Hpend. subst y.
  destruct x as [r|e]; [|split; [right; eauto|lia]].
  apply resolve_join_names in Hv as (Hn & _ & _).
  assert ((validate c (join_header (outcome r) s local) (undisturbed (directory w1))).2 = Ok tt) as Hval
    by (eapply names_live_validate; [apply Hs'|done]).
  destruct r as [[g|o g] [l|]]; cbn [outcome acquired] in *; try (split; [exact Hval|simpl; lia]).
  pose proof (yield_pending w1) as Hp1. apply yield_sim in Hs'.
  generalize dependent (yield (pass_store error_text) w1). intros w2 Hs' Hp1.
  destruct (lost_for s (owners w2)) as [t|] eqn:Ht; [split; [simpl; by rewrite Ht|lia]|].
  pose proof (yield_pending w2) as Hp2.
  specialize (IH _ _ (yield_sim _ _ Hs')).
  destruct (owner_ready_loop _ n c s local (yield (pass_store error_text) w2)) as [w' res].
  destruct IH as [? ?]. split; [done|lia].
Qed.

(** C40 No ownerless owner: a join that answers that this pod owns the huddle without having
    minted the lease itself found a live entry in the registry, so the peer it admits has a
    loss signal to watch; every other join that succeeds carries an owner that the fence
    accepts. It makes at most twenty-five attempts, and when none was decisive it fails closed
    with the error that says so. *)
Theorem owner_ready_never_ownerless (d : Served store) (os : HuddleOwnerRegistry)
    (ms : list Meanwhile) (c : CommunityId) (s : Uuid) (local_runtime_id : RuntimeId) :
  empty_at (clock d) (behind d) → Forall (λ m, gap_ok (m_gap m)) ms →
  (local_runtime_id < 2 ^ 256)%N →
  let w := {| directory := d; owners := os; pending := ms |} in
  let '(w', res) := resolve_join_owner_ready (pass_store error_text) c s local_runtime_id w in
  match res with
  | Ok {| outcome := LocalOwner _; acquired := None |} => is_Some (lost_for s (owners w'))
  | Ok r =>
      (validate c (join_header (outcome r) s local_runtime_id) (undisturbed (directory w'))).2 = Ok tt
  | Err e => e = not_ready s ∨
      ∃ u u', resolve_join (pass_store error_text) c s local_runtime_id u = (u', Err e)
  end ∧ length (pending w) ≤ length (pending w') + 25 * 5.
Proof.
  intros He Hall Hl w. pose proof (start_sim d os ms He Hall) as Hs.
  pose proof (owner_ready_loop_sound OWNER_READY_MAX_ATTEMPTS c s local_runtime_id _ _ Hl Hs) as Hr.
  unfold resolve_join_owner_ready. fold w in Hr.
  by destruct (owner_ready_loop _ OWNER_READY_MAX_ATTEMPTS c s local_runtime_id w) as [w' res].
Qed.

End simulation.

(** ** Witnesses *)

Section witnesses.
#[local] Existing Instance Toy.redis.
#[local] Existing Instance Toy.texts.
#[local] Existing Instance Toy.laws.

Definition empty_directory : Served store :=
  {| behind := ∅; clock := 0; fate := Toy.healthy; lease_ttl := DEFAULT_LEASE_TTL |}.

(** A pod acquires huddle 2 of community 1 before the first call. *)
Definition taken_by (owner : RuntimeId) (f : HuddleOwnerRegistry → HuddleOwnerRegistry) : Meanwhile :=
  {| m_gap := {| g_requests := [(0%Z, RqAcquire Toy.healthy DEFAULT_LEASE_TTL 1 2 owner HuddleControl)];
                 g_wait := 5; g_fate := Toy.healthy |};
     m_owners := f |}.

Lemma taken_ok (owner : RuntimeId) f :
  (owner < 2 ^ 256)%N → Forall (λ m, gap_ok (m_gap m)) [taken_by owner f].
Proof. intros Ho. repeat constructor; try done; simpl; lia. Qed.

Lemma join_names_live_owner_witness :
  let '(_, res) := resolve_join (H := session_directory (λ _, "")) (pass_store (λ _, "")) 1 2 7
    {| directory := empty_directory; owners := registry_new; pending := [taken_by 9 id] |} in
  res = Ok {| outcome := RemoteOwner 9 1; acquired := None |} ∧ is_ok res = true.
Proof.
  pose proof (join_names_live_owner (λ _, "") empty_directory registry_new [taken_by 9 id] 1 2 7
    (toy_empty 0) (taken_ok 9 id ltac:(done)) ltac:(done)) as Hj. cbv zeta in Hj.
  destruct (resolve_join _ 1 2 7 _) as [w' res] eqn:E. destruct Hj as [_ Hok].
  assert (res = Ok {| outcome := RemoteOwner 9 1; acquired := None |}) as Hres.
  { change res with (w', res).2. rewrite <- E. vm_compute. reflexivity. }
  split; [exact Hres|]. apply Hok; [simpl; lia|reflexivity|reflexivity|].
  intros g Hg. assert (g = 1%Z) as ->; [|done].
  assert (Some g = Some 1%Z) as Hg' by (rewrite Hres in E; vm_compute in Hg; congruence).
  by injection Hg'.
Defined.

Lemma owner_ready_never_ownerless_witness :
  let install := λ r, (attach_signals 2 {| l_community_id := 1; l_session_id := 2;
    l_owner_runtime_id := 7; l_generation := 1; l_profile := HuddleControl |} r).1 in
  let '(w', res) := resolve_join_owner_ready (H := session_directory (λ _, ""))
    (pass_store (λ _, "")) 1 2 7
    {| directory := empty_directory; owners := registry_new; pending := [taken_by 7 install] |} in
  res = Ok {| outcome := LocalOwner 1; acquired := None |} ∧ is_Some (lost_for 2 (owners w')).
Proof.
  intros install.
  pose proof (owner_ready_never_ownerless (λ _, "") empty_directory registry_new
    [taken_by 7 install] 1 2 7 (toy_empty 0) (taken_ok 7 install ltac:(done)) ltac:(done)) as Hj.
  cbv zeta in Hj. destruct (resolve_join_owner_ready _ 1 2 7 _) as [w' res] eqn:E.
  assert (res = Ok {| outcome := LocalOwner 1; acquired := None |}) as Hres.
  { change res with (w', res).2. rewrite <- E. vm_compute. reflexivity. }
  rewrite Hres in Hj. split; [exact Hres|]. exact (proj1 Hj).
Defined.

End witnesses.
