(* ===== verification/HuddleControl.v ===== *)
(** * The huddle control stream (buzz-relay/src/audio/join.rs)

    The messages between the pod that owns a huddle and a pod that hosts one of its clients:
    the owner's loop [serve_control_loop] as one function per turn of its [select!], and the
    dialer's side ([dial_remote_owner], [read_owner_control]).

    What a turn cannot decide itself is in its [Io] record: whether the registry is draining,
    what the directory answers to [validate] and what others did to the rooms meanwhile, the
    id of a new peer, and how a send ends. The receiver of a tokio [broadcast] channel of
    capacity 64 is a position in the list of the deltas that were sent. The JSON texts for
    clients and postcard are classes; texts inside [Transport] errors are shortened. *)

From S2P Require Import Prelude Filter Gossip Wire AudioRoom.

Open Scope string_scope.
Open Scope nat_scope.
Open Scope list_scope.

(** ** Messages *)

Record RosterEntry := { re_pubkey : string; re_index : Z; re_epoch : Z }.

Record RosterState := { rs_revision : Z; rs_peers : list RosterEntry }.

Inductive FenceRejection :=
  | RejStaleGeneration
  | RejNoActiveLease
  | RejOwnerMismatch
  | RejFutureGeneration.

Inductive RegisterRejection :=
  | RoomFull
  | RoomEnded
  | RejVersionMismatch (pinned requested : Z)
  | RejFenced (reason : FenceRejection).

Inductive HuddleControlMsg :=
  | RegisterPeer (community_id : Uuid) (pubkey : string) (protocol_version : Z)
  | PeerRegistered (pubkey : string) (peer_index epoch : Z) (roster : RosterState)
  | RosterSnapshotMsg (roster : RosterState)
  | RosterDeltaMsg (revision : Z) (joined departed : option RosterEntry)
  | RosterResync
  | RegisterRejected (pubkey : string) (reason : RegisterRejection)
  | UnregisterPeer (pubkey : string).

(** What clients are told *)
Inductive ControlJson :=
  | JoinedJson (revision : Z) (p : RosterEntry) (peers : list RosterEntry)
  | LeftJson (revision : Z) (p : RosterEntry)
  | RosterJson (revision : Z) (peers : list RosterEntry).

(** serde_json on these values *)
Class ControlText := control_text : ControlJson → string.

Definition entry_of (p : RosterPeer) : RosterEntry :=
  {| re_pubkey := rp_pubkey p; re_index := rp_index p; re_epoch := rp_epoch p |}.

(** [FenceRejection::from_mesh_error] *)
Definition from_mesh_error (err : MeshError) : option FenceRejection :=
  match err with
  | Gossip.StaleGeneration _ _ _ => Some RejStaleGeneration
  | NoActiveLease _ _ _ _ => Some RejNoActiveLease
  | OwnerMismatch _ _ _ _ => Some RejOwnerMismatch
  | FutureGeneration _ _ _ => Some RejFutureGeneration
  | _ => None
  end.

Definition code (r : FenceRejection) : string :=
  match r with
  | RejStaleGeneration => "stale_generation"
  | RejNoActiveLease => "no_active_lease"
  | RejOwnerMismatch => "owner_mismatch"
  | RejFutureGeneration => "future_generation"
  end.

Definition admission_to_rejection (err : AdmissionError) : RegisterRejection :=
  match err with
  | Full => RoomFull
  | Ended => RoomEnded
  | VersionMismatch pinned requested => RejVersionMismatch pinned requested
  end.

Definition roster_state (r : Room) : RosterState :=
  let s := roster_snapshot r in
  {| rs_revision := s_revision s; rs_peers := entry_of <$> s_peers s |}.

Definition roster_snapshot_msg (r : Room) : HuddleControlMsg := RosterSnapshotMsg (roster_state r).

Definition roster_delta_msg (d : RosterDelta) : HuddleControlMsg :=
  RosterDeltaMsg (d_revision d) (entry_of <$> d_joined d) (entry_of <$> d_left d).

Definition peer_left_control (d : RosterDelta) : option ControlJson :=
  (λ p, LeftJson (d_revision d) (entry_of p)) <$> d_left d.

(** ** The broadcast channel *)

Definition ROSTER_CHANNEL_CAPACITY : nat := 64.

Inductive Received := Got (d : RosterDelta) | Lagged.

(** [Receiver::recv] at a position: a receiver that fell behind is moved to the oldest delta
    that is still there; [None] when there is nothing to receive. *)
Definition roster_recv (sent : list RosterDelta) (pos : nat) : option (nat * Received) :=
  let oldest := length sent - ROSTER_CHANNEL_CAPACITY in
  if pos <? oldest then Some (oldest, Lagged)
  else match sent !! pos with Some d => Some (S pos, Got d) | None => None end.

Section control.
Context `{ControlText} `{Serialize HuddleControlMsg}.

Definition encode_control (msg : HuddleControlMsg) : result (list Z) MeshError :=
  map_err Encode (to_extend msg []).

Definition decode_control (bytes : list Z) : result HuddleControlMsg MeshError :=
  map_err Decode (from_bytes bytes).

Definition broadcast_peer_left (r : Room) (d : RosterDelta) : Room :=
  match peer_left_control d with
  | Some j => broadcast_control r (control_text j)
  | None => r
  end.

(** [room.remove_peer] and, if the peer was there, the message to the others *)
Definition drop_remote_peer (r : Room) (id : PeerId) : Room :=
  match remove_peer r id with
  | (r, Some d) => broadcast_peer_left r d
  | (r, None) => r
  end.

(** ** The owner's loop *)

Record ControlLoop := {
  registered : gmap string PeerId;
  stream_community : option Uuid;
  roster_rx : option (N * nat)
}.

Definition loop_new : ControlLoop :=
  {| registered := ∅; stream_community := None; roster_rx := None |}.

Record Io := {
  io_draining : bool;
  io_validate : result unit MeshError;
  io_meanwhile : AudioRoomManager → AudioRoomManager;
  io_peer_id : PeerId;
  io_send : result unit MeshError
}.

Inductive control_event :=
  | DrainFired
  | LostFired
  | RosterEvent
  | RosterClosed
  | Frame (f : result (option MeshStreamFrame) MeshError).

(** [Break] leaves the loop for the teardown, [Return] leaves the function ([?]). *)
Inductive Flow :=
  | Continue
  | Break (r : result unit MeshError) (teardown_reason : option GoodbyeReason)
  | Return (e : MeshError).

Record Turn := { t_loop : ControlLoop; t_rooms : AudioRoomManager; t_sent : list MeshStreamFrame;
                 t_flow : Flow }.

Definition turn (l : ControlLoop) (m : AudioRoomManager) (f : Flow) : Turn :=
  {| t_loop := l; t_rooms := m; t_sent := []; t_flow := f |}.

(** The room of a stream, by the community it latched *)
Definition stream_room (m : AudioRoomManager) (l : ControlLoop) (session_id : Uuid) : option N :=
  c ← stream_community l; get m c session_id.

(** [stream.send_frame(Data { fenced, payload: encode_control(&msg)? })], with [?] on both
    when [escape] is set, and otherwise with [break Err(e)] on the send *)
Definition send_control (io : Io) (fenced : FencedHeader) (msg : HuddleControlMsg) (escape : bool)
    (l : ControlLoop) (m : AudioRoomManager) : Turn :=
  match encode_control msg with
  | Err e => turn l m (Return e)
  | Ok payload =>
      match io_send io with
      | Err e => turn l m (if escape then Return e else Break (Err e) None)
      | Ok _ => {| t_loop := l; t_rooms := m; t_sent := [Data fenced payload]; t_flow := Continue |}
      end
  end.

Definition on_roster_event (io : Io) (fenced : FencedHeader) (l : ControlLoop)
    (m : AudioRoomManager) : Turn :=
  match roster_rx l with
  | None => turn l m Continue
  | Some (h, pos) =>
      match heap m !! h ≫= λ r, roster_recv (roster_tx r) pos with
      | None => turn l m Continue
      | Some (pos, x) =>
          let l := {| registered := registered l; stream_community := stream_community l;
                      roster_rx := Some (h, pos) |} in
          match x with
          | Got d => send_control io fenced (roster_delta_msg d) true l m
          | Lagged =>
              match stream_room m l (session_id fenced) ≫= λ h, heap m !! h with
              | None => turn l m (Break (Ok tt) None)
              | Some r => send_control io fenced (roster_snapshot_msg r) true l m
              end
          end
      end
  end.

(** The answer to a registration, and the room and the registered peers after it *)
Definition register_remote_peer (io : Io) (r : Room) (pubkey : string) (protocol_version : Z)
    (reg : gmap string PeerId) : Room * gmap string PeerId * HuddleControlMsg :=
  match add_peer r (io_peer_id io) pubkey protocol_version with
  | (r, Ok (idx, e, revision)) =>
      let p := {| re_pubkey := pubkey; re_index := idx; re_epoch := e |} in
      let r := broadcast_control r (control_text (JoinedJson revision p [p])) in
      (* the receiver of the new peer's control channel is dropped here *)
      let r := {| community_id := community_id r; channel_id := channel_id r; peers := peers r;
                  guard := guard r; poisoned := poisoned r; roster_tx := roster_tx r;
                  audio := audio r; ctrl := alter drop_rx (io_peer_id io) (ctrl r) |} in
      (r, <[pubkey := io_peer_id io]> reg, PeerRegistered pubkey idx e (roster_state r))
  | (r, Err reason) => (r, reg, RegisterRejected pubkey (admission_to_rejection reason))
  end.

Definition registered_reply (msg : HuddleControlMsg) : bool :=
  match msg with PeerRegistered _ _ _ _ => true | _ => false end.

Definition on_register (io : Io) (fenced : FencedHeader) (community : Uuid) (pubkey : string)
    (protocol_version : Z) (l : ControlLoop) (m : AudioRoomManager) : Turn :=
  if is_some_and (λ latched, negb (bool_decide (latched = community))) (stream_community l)
  then turn l m (Break (Err (Transport "huddle-control stream community changed")) None)
  else
    let l := {| registered := registered l; stream_community := Some community;
                roster_rx := roster_rx l |} in
    if io_draining io then turn l m (Break (Ok tt) (Some Draining))
    else
      let '(m, h) := get_or_create m community (session_id fenced) in
      let pos := default 0 ((λ r, length (roster_tx r)) <$> heap m !! h) in
      let m := io_meanwhile io m in
      let admitted :=
        match io_validate io with
        | Ok _ =>
            match heap m !! h with
            | Some r =>
                let '(r, reg, reply) := register_remote_peer io r pubkey protocol_version
                                          (registered l) in
                Ok ({| rooms := rooms m; heap := <[h := r]> (heap m) |}, reg, reply)
            | None => Err (Transport "no room")
            end
        | Err e =>
            match from_mesh_error e with
            | Some reason => Ok (m, registered l, RegisterRejected pubkey (RejFenced reason))
            | None => Err e
            end
        end in
      match admitted with
      | Err e => turn l m (Break (Err e) None)
      | Ok (m, reg, reply) =>
          let l := {| registered := reg; stream_community := stream_community l;
                      roster_rx := roster_rx l |} in
          let t := send_control io fenced reply false l m in
          match t_flow t with
          | Continue =>
              {| t_loop := {| registered := reg; stream_community := stream_community l;
                              roster_rx := if registered_reply reply then Some (h, pos)
                                           else roster_rx l |};
                 t_rooms := m; t_sent := t_sent t; t_flow := Continue |}
          | _ => t
          end
      end.

Definition on_unregister (fenced : FencedHeader) (pubkey : string) (l : ControlLoop)
    (m : AudioRoomManager) : Turn :=
  match registered l !! pubkey with
  | None => turn l m Continue
  | Some id =>
      let l' := {| registered := delete pubkey (registered l);
                   stream_community := stream_community l; roster_rx := roster_rx l |} in
      match stream_room m l (session_id fenced) with
      | None => turn l' m Continue
      | Some h => turn l' (with_room m h (λ r, (drop_remote_peer r id, tt))).1 Continue
      end
  end.

Definition on_resync (io : Io) (fenced : FencedHeader) (l : ControlLoop) (m : AudioRoomManager)
  : Turn :=
  match stream_room m l (session_id fenced) ≫= λ h, heap m !! h with
  | None => turn l m (Break (Ok tt) None)
  | Some r => send_control io fenced (roster_snapshot_msg r) true l m
  end.

Definition on_msg (io : Io) (fenced : FencedHeader) (msg : HuddleControlMsg) (l : ControlLoop)
    (m : AudioRoomManager) : Turn :=
  match msg with
  | RegisterPeer community pubkey version => on_register io fenced community pubkey version l m
  | UnregisterPeer pubkey => on_unregister fenced pubkey l m
  | RosterResync => on_resync io fenced l m
  | PeerRegistered _ _ _ _ | RosterSnapshotMsg _ | RosterDeltaMsg _ _ _ | RegisterRejected _ _ =>
      turn l m (Break (Err (Transport "huddle-control owner received an owner reply")) None)
  end.

Definition on_frame (io : Io) (local_runtime_id : RuntimeId) (fenced : FencedHeader)
    (f : result (option MeshStreamFrame) MeshError) (l : ControlLoop) (m : AudioRoomManager)
  : Turn :=
  match f with
  | Ok (Some (Data f payload)) =>
      if decide (f ≠ fenced)
      then turn l m (Break (Err (OwnerMismatch (session_id fenced) (generation f)
                                   (owner_runtime_id f) local_runtime_id)) None)
      else
        match decode_control payload with
        | Ok msg => on_msg io fenced msg l m
        | Err e => turn l m (Break (Err e) None)
        end
  | Ok (Some (Goodbye _ _)) | Ok None => turn l m (Break (Ok tt) None)
  | Ok (Some _) => turn l m (Break (Err (Transport "huddle-control stream got unexpected frame")) None)
  | Err e => turn l m (Break (Err e) None)
  end.

(** One turn of the [select!] *)
Definition control_turn (io : Io) (local_runtime_id : RuntimeId) (fenced : FencedHeader)
    (ev : control_event) (l : ControlLoop) (m : AudioRoomManager) : Turn :=
  match ev with
  | DrainFired => turn l m (Break (Ok tt) (Some Draining))
  | LostFired => turn l m (Break (Ok tt) (Some StaleGeneration))
  | RosterEvent => on_roster_event io fenced l m
  | RosterClosed => turn l m (Break (Ok tt) None)
  | Frame f => on_frame io local_runtime_id fenced f l m
  end.

(** The teardown after the loop *)
Definition teardown (fenced : FencedHeader) (l : ControlLoop) (m : AudioRoomManager)
  : AudioRoomManager :=
  match stream_room m l (session_id fenced) with
  | None => m
  | Some h =>
      (with_room m h (λ r,
         (foldl (λ r id, drop_remote_peer r id) r (map_to_list (registered l)).*2, tt))).1
  end.

Definition goodbye (fenced : FencedHeader) (reason : option GoodbyeReason) : list MeshStreamFrame :=
  match reason with Some r => [Goodbye fenced r] | None => [] end.

(** What others did to the rooms since the last turn, and the turn *)
Record LoopTurn := {
  lt_others : AudioRoomManager → AudioRoomManager;
  lt_io : Io;
  lt_event : control_event
}.

(** The whole loop on the turns it takes: the rooms after it, what it sent and its result;
    [None] while it still runs. *)
Fixpoint serve_control_loop (local_runtime_id : RuntimeId) (fenced : FencedHeader)
    (evs : list LoopTurn) (l : ControlLoop) (m : AudioRoomManager)
  : ControlLoop * AudioRoomManager * list MeshStreamFrame * option (result unit MeshError) :=
  match evs with
  | [] => (l, m, [], None)
  | x :: evs =>
      let t := control_turn (lt_io x) local_runtime_id fenced (lt_event x) l (lt_others x m) in
      match t_flow t with
      | Continue =>
          let '(l, m, sent, r) := serve_control_loop local_runtime_id fenced evs (t_loop t)
                                    (t_rooms t) in
          (l, m, t_sent t ++ sent, r)
      | Break r reason =>
          (t_loop t, teardown fenced (t_loop t) (t_rooms t), t_sent t ++ goodbye fenced reason, Some r)
      | Return e => (t_loop t, t_rooms t, t_sent t, Some (Err e))
      end
  end.

(** The structural checks of [accept_inbound] *)
Definition accept_inbound (local_runtime_id from : RuntimeId) (hello : StreamHello)
  : result FencedHeader MeshError :=
  if decide (sender hello ≠ from)
  then Err (Transport "huddle-control hello.sender != authenticated peer")
  else
    match role hello with
    | Control => Err (Transport "huddle-control stream Hello was not a session role")
    | Session fenced profile =>
        if decide (profile ≠ HuddleControl)
        then Err (Transport "huddle-control acceptor got another profile")
        else if decide (owner_runtime_id fenced ≠ local_runtime_id)
        then Err (OwnerMismatch (session_id fenced) (generation fenced) (owner_runtime_id fenced)
                    local_runtime_id)
        else Ok fenced
    end.

(** ** The dialer's side *)

Inductive HuddleTeardownCause := OwnerLost | OwnerDraining | HuddleSessionEnded | StreamClosed.

Definition from_goodbye (r : GoodbyeReason) : HuddleTeardownCause :=
  match r with
  | StaleGeneration => OwnerLost
  | Draining => OwnerDraining
  | SessionEnded => HuddleSessionEnded
  end.

(** One turn of [read_owner_control]: the revision, what the client is told, what is sent to
    the owner, and the cause when it ends. [client] says whether the client still takes
    messages, [owner] whether the stream still takes frames. *)
Definition read_owner_control (client owner : bool) (fenced : FencedHeader) (revision : Z)
    (f : result (option MeshStreamFrame) MeshError)
  : Z * list ControlJson * list MeshStreamFrame * option HuddleTeardownCause :=
  let tell revision j :=
    if client then (revision, [j], [], None) else (revision, [], [], Some HuddleSessionEnded) in
  match f with
  | Ok (Some (Goodbye _ reason)) => (revision, [], [], Some (from_goodbye reason))
  | Ok (Some (Data _ payload)) =>
      match decode_control payload with
      | Ok (RosterSnapshotMsg s) => tell (rs_revision s) (RosterJson (rs_revision s) (rs_peers s))
      | Ok (RosterDeltaMsg next joined departed) =>
          if (next =? u64_wrapping_add revision 1)%Z then
            match joined, departed with
            | Some p, _ => tell next (JoinedJson next p [p])
            | None, Some p => tell next (LeftJson next p)
            | None, None => (next, [], [], None)
            end
          else if (next <=? revision)%Z then (revision, [], [], None)
          else
            match encode_control RosterResync with
            | Err _ => (revision, [], [], Some StreamClosed)
            | Ok payload =>
                if owner then (revision, [], [Data fenced payload], None)
                else (revision, [], [], Some StreamClosed)
            end
      | _ => (revision, [], [], None)
      end
  | Ok (Some _) => (revision, [], [], None)
  | Ok None | Err _ => (revision, [], [], Some StreamClosed)
  end.

(** [read_teardown_cause], one frame *)
Definition read_teardown_cause (f : result (option MeshStreamFrame) MeshError)
  : option HuddleTeardownCause :=
  match f with
  | Ok (Some (Goodbye _ reason)) => Some (from_goodbye reason)
  | Ok (Some _) => None
  | Ok None | Err _ => Some StreamClosed
  end.

Inductive DialError := Rejected (r : RegisterRejection) | Mesh (e : MeshError).

Record RemoteHuddleSession := {
  r_peer_index : Z;
  r_epoch : Z;
  r_protocol_version : Z;
  r_roster : RosterState;
  r_fenced : FencedHeader;
  r_owner : RuntimeId;
  r_pubkey : string;
  r_seq : Z
}.

(** The dial, on how opening the stream, the send and the reply end *)
Definition dial_remote_owner (owner : RuntimeId) (fenced : FencedHeader) (community_id : CommunityId)
    (pubkey : string) (protocol_version : Z) (opened sent : result unit MeshError)
    (reply : result (option MeshStreamFrame) MeshError) : result RemoteHuddleSession DialError :=
  _ <-? map_err Mesh opened ;;
  _ <-? map_err Mesh (encode_control (RegisterPeer community_id pubkey protocol_version)) ;;
  _ <-? map_err Mesh sent ;;
  reply <-? map_err Mesh reply ;;
  match reply with
  | Some (Data _ payload) =>
      msg <-? map_err Mesh (decode_control payload) ;;
      match msg with
      | PeerRegistered _ idx e roster =>
          Ok {| r_peer_index := idx; r_epoch := e; r_protocol_version := protocol_version;
                r_roster := roster; r_fenced := fenced; r_owner := owner; r_pubkey := pubkey;
                r_seq := 0 |}
      | RegisterRejected _ reason => Err (Rejected reason)
      | _ => Err (Mesh (Transport "expected PeerRegistered/RegisterRejected"))
      end
  | Some (Goodbye _ _) | None =>
      Err (Mesh (Transport "owner closed HuddleControl stream before replying"))
  | Some _ => Err (Mesh (Transport "unexpected HuddleControl frame from owner"))
  end.

(** [forward_media]: the datagram, and the session with the next sequence number *)
Definition forward_media (x : RemoteHuddleSession) (client_frame : list Z)
  : RemoteHuddleSession * MeshDatagram :=
  ({| r_peer_index := r_peer_index x; r_epoch := r_epoch x;
      r_protocol_version := r_protocol_version x; r_roster := r_roster x; r_fenced := r_fenced x;
      r_owner := r_owner x; r_pubkey := r_pubkey x; r_seq := u64_wrapping_add (r_seq x) 1 |},
   media_datagram (r_peer_index x) (r_epoch x) (r_protocol_version x) (r_fenced x) (r_seq x)
     client_frame).

Definition HUDDLE_SESSION_ENDED : GoodbyeReason := SessionEnded.

(** The frames of [send_clean_close] *)
Definition send_clean_close (fenced : FencedHeader) (pubkey : string) : list MeshStreamFrame :=
  match encode_control (UnregisterPeer pubkey) with Ok payload => [Data fenced payload] | Err _ => [] end
  ++ [Goodbye fenced HUDDLE_SESSION_ENDED].

(** [spawn_remote_peer_sink] of mesh.rs: the datagrams for the frames it drains *)
Definition remote_peer_sink (fenced : FencedHeader) (frames : list (list Z)) : list MeshDatagram :=
  imap (λ i frame, {| dg_fenced := fenced; dg_seq := (Z.of_nat i mod 2 ^ 64)%Z; dg_payload := frame |})
    frames.

End control.
