(* ===== verification/HuddleControlSpec.v ===== *)
(** * Correctness of the huddle control stream

    What a client of another pod knows of the roster ([Link]: the owner's loop, the two
    directions of the stream and the dialer's reader), and what the owner's loop does to its
    rooms: admission, teardown, and the ways in which it leaves peers or rooms behind. *)

From S2P Require Import Prelude Filter Gossip Wire AudioRoom AudioRoomSpec HuddleControl.

Open Scope string_scope.
Open Scope nat_scope.
Open Scope list_scope.

(** ** Rosters and the deltas they come from *)

Definition single (d : RosterDelta) : Prop := d_joined d = None ∨ d_left d = None.

(** An operation publishes at most one delta, of one peer. *)
Lemma apply_publishes (o : room_op) (r : Room) :
  roster_tx (apply o r) = roster_tx r ∨
  ∃ d, roster_tx (apply o r) = roster_tx r ++ [d] ∧ single d.
Proof.
  destruct o as [id pk v|id pk v idx|id|id| | |s f|a f|j|id|id|id|id|]; simpl.
  - unfold add_peer. repeat case_match; simplify_eq/=; auto; right; eexists; split; try done; by right.
  - unfold add_peer_at_index. repeat case_match; simplify_eq/=; auto; right; eexists; split; try done;
      by right.
  - unfold remove_peer. repeat case_match; simplify_eq/=; auto. right. eexists. split; [done|by left].
  - unfold remove_peer_and_check_ended. repeat case_match; simplify_eq/=; auto.
    unfold take_peer in *. simplify_eq/=. right. eexists. split; [done|by left].
  - unfold mark_ended. case_match; auto.
  - unfold clear_ended. case_match; auto.
  - unfold broadcast_frame. case_match; auto.
  - auto.
  - auto.
  - auto.
  - auto.
  - auto.
  - auto.
  - auto.
Qed.

Lemma apply_prefix (o : room_op) (r : Room) : roster_tx r `prefix_of` roster_tx (apply o r).
Proof. destruct (apply_publishes o r) as [->|(d & -> & _)]; [done|by eexists]. Qed.

Lemma run_prefix (ops : list room_op) (r : Room) : roster_tx r `prefix_of` roster_tx (run ops r).
Proof.
  revert r. induction ops as [|o ops IH]; intros r; [done|]. simpl.
  etrans; [apply (apply_prefix o)|apply IH].
Qed.

Lemma apply_single (o : room_op) (r : Room) :
  Forall single (roster_tx r) → Forall single (roster_tx (apply o r)).
Proof.
  intros Hs. destruct (apply_publishes o r) as [->|(d & -> & Hd)]; [done|].
  apply Forall_app. split; [done|by apply Forall_singleton].
Qed.

Lemma run_single (ops : list room_op) (r : Room) :
  Forall single (roster_tx r) → Forall single (roster_tx (run ops r)).
Proof.
  revert r. induction ops as [|o ops IH]; intros r Hs; [done|]. simpl. by apply IH, apply_single.
Qed.

Lemma ops_ok_app (xs ys : list room_op) (r : Room) :
  ops_ok (xs ++ ys) r ↔ ops_ok xs r ∧ ops_ok ys (run xs r).
Proof.
  revert r. induction xs as [|o xs IH]; intros r; simpl; [naive_solver|]. rewrite IH. naive_solver.
Qed.

Lemma run_app (xs ys : list room_op) (r : Room) : run (xs ++ ys) r = run ys (run xs r).
Proof. unfold run. by rewrite foldl_app. Qed.

(** ** What a client makes of what it is told *)

Definition entries_by_index (l : list RosterEntry) : gmap Z RosterEntry :=
  list_to_map ((λ p, (re_index p, p)) <$> l).

Definition hear (m : gmap Z RosterEntry) (j : ControlJson) : gmap Z RosterEntry :=
  match j with
  | JoinedJson _ p _ => <[re_index p := p]> m
  | LeftJson _ p => delete (re_index p) m
  | RosterJson _ ps => entries_by_index ps
  end.

Definition hear_all (m : gmap Z RosterEntry) (js : list ControlJson) : gmap Z RosterEntry :=
  foldl hear m js.

(** The roster after the first [n] deltas *)
Definition roster_at (r : Room) (n : nat) : gmap Z RosterEntry :=
  entry_of <$> replay ∅ (take n (roster_tx r)).

Lemma roster_at_prefix (r r' : Room) (n : nat) :
  roster_tx r `prefix_of` roster_tx r' → n ≤ length (roster_tx r) → roster_at r' n = roster_at r n.
Proof. intros [l Hl] Hn. unfold roster_at. by rewrite Hl, take_app_le. Qed.

Lemma roster_at_S (r : Room) (n : nat) (d : RosterDelta) :
  roster_tx r !! n = Some d → single d →
  roster_at r (S n) =
    match d_joined d, d_left d with
    | Some p, _ => <[rp_index p := entry_of p]> (roster_at r n)
    | None, Some p => delete (rp_index p) (roster_at r n)
    | None, None => roster_at r n
    end.
Proof.
  intros Hd Hs. unfold roster_at. rewrite (take_S_r _ _ _ Hd), replay_snoc. unfold apply_delta.
  unfold single in Hs.
  destruct (d_joined d) as [p|], (d_left d) as [q|]; try done.
  - by destruct Hs.
  - by rewrite fmap_insert.
  - by rewrite fmap_delete.
Qed.

(** The snapshot of a room is the roster after all its deltas. *)
Lemma snapshot_roster (r : Room) :
  room_ok r →
  entries_by_index (rs_peers (roster_state r)) = roster_at r (length (roster_tx r)) ∧
  rs_revision (roster_state r) = (Z.of_nat (length (roster_tx r)) mod 2 ^ 64)%Z.
Proof.
  intros Hr. split; [|apply (ok_revision _ Hr)]. unfold roster_at. rewrite firstn_all.
  apply map_eq. intros i. rewrite lookup_fmap. apply option_eq. intros x.
  unfold entries_by_index. rewrite <- elem_of_list_to_map.
  - rewrite fmap_Some. setoid_rewrite (ok_roster _ Hr). simpl.
    rewrite list_elem_of_fmap. split.
    + intros (e & [= -> ->] & He). apply list_elem_of_fmap in He as (p & -> & Hp).
      rewrite sort_by_key_perm in Hp. apply list_elem_of_fmap in Hp as (a & -> & Ha).
      apply list_elem_of_fmap in Ha as ([id a'] & -> & Ha). apply elem_of_map_to_list in Ha.
      exists (roster_peer a'). split; [|done]. by exists id, a'.
    + intros (p & (id & a & Ha & <- & <-) & ->). exists (entry_of (roster_peer a)).
      split; [done|]. apply list_elem_of_fmap. eexists. split; [done|].
      rewrite sort_by_key_perm. apply list_elem_of_fmap. eexists. split; [done|].
      apply list_elem_of_fmap. exists (id, a). split; [done|]. by apply elem_of_map_to_list.
  - rewrite <- !list_fmap_compose. simpl.
    assert ((sort_by_key rp_index (roster_peer <$> (map_to_list (peers r)).*2)) ≡ₚ
      (roster_peer <$> (map_to_list (peers r)).*2)) as Hperm by apply sort_by_key_perm.
    rewrite Hperm, <- !list_fmap_compose.
    apply NoDup_fmap_2_strong; [|apply NoDup_map_to_list].
    intros [id a] [id' a'] Ha Ha' Heq. apply elem_of_map_to_list in Ha, Ha'. simpl in Heq.
    assert (id = id') as -> by (by eapply (ok_unique _ Hr)). congruence.
Qed.

(** ** The link of one remote client *)

Class ControlLaws `{Serialize HuddleControlMsg} :=
  control_round_trip (msg : HuddleControlMsg) :
    ∃ bytes, to_extend msg [] = Ok bytes ∧ from_bytes bytes = Ok msg.

Section link.
Context `{ControlText} `{ControlLaws}.
Context (local_runtime_id : RuntimeId) (fenced : FencedHeader) (h : N).

(** The owner's loop and rooms, the frames under way in both directions, and the reader on the
    client's pod with everything it told its client *)
Record Link := {
  k_loop : ControlLoop;
  k_rooms : AudioRoomManager;
  k_down : list MeshStreamFrame;
  k_up : list MeshStreamFrame;
  k_revision : Z;
  k_told : list ControlJson
}.

Inductive link_event :=
  | InRoom (o : room_op)
  | OwnerRelays (io : Io)
  | OwnerReads (io : Io)
  | ClientReads.

(** A turn of the owner's loop; a turn that ends the loop ends the link and is left out. *)
Definition owner_turn (io : Io) (ev : control_event) (up : list MeshStreamFrame) (k : Link) : Link :=
  let t := control_turn io local_runtime_id fenced ev (k_loop k) (k_rooms k) in
  match t_flow t with
  | Continue => {| k_loop := t_loop t; k_rooms := t_rooms t; k_down := k_down k ++ t_sent t;
                   k_up := up; k_revision := k_revision k; k_told := k_told k |}
  | _ => k
  end.

Definition link_step (ev : link_event) (k : Link) : Link :=
  match ev with
  | InRoom o =>
      {| k_loop := k_loop k; k_rooms := (with_room (k_rooms k) h (λ r, (apply o r, tt))).1;
         k_down := k_down k; k_up := k_up k; k_revision := k_revision k; k_told := k_told k |}
  | OwnerRelays io => owner_turn io RosterEvent (k_up k) k
  | OwnerReads io =>
      match k_up k with f :: up => owner_turn io (Frame (Ok (Some f))) up k | [] => k end
  | ClientReads =>
      match k_down k with
      | f :: down =>
          let '(rev, js, fs, _) :=
            read_owner_control true true fenced (k_revision k) (Ok (Some f)) in
          {| k_loop := k_loop k; k_rooms := k_rooms k; k_down := down; k_up := k_up k ++ fs;
             k_revision := rev; k_told := k_told k ++ js |}
      | [] => k
      end
  end.

Definition link_run (evs : list link_event) (k : Link) : Link :=
  foldl (λ k ev, link_step ev k) k evs.

Definition link_event_ok (ev : link_event) (k : Link) : Prop :=
  match ev with
  | InRoom o => ∀ r, heap (k_rooms k) !! h = Some r → op_ok o r
  | OwnerRelays io | OwnerReads io => io_send io = Ok tt
  | ClientReads => True
  end.

Fixpoint link_events_ok (evs : list link_event) (k : Link) : Prop :=
  match evs with
  | [] => True
  | ev :: evs => link_event_ok ev k ∧ link_events_ok evs (link_step ev k)
  end.

(** ** The invariant *)

(** A frame under way: the delta at a position, or a snapshot after some deltas *)
Inductive item := Delta (i : nat) | Snap (j : nat).

Definition advance (v : nat) (x : item) : nat :=
  match x with Delta i => if decide (i = v) then S v else v | Snap j => j end.

Definition in_order (v : nat) (x : item) : Prop :=
  match x with Delta i => i ≤ v | Snap _ => True end.

Definition reached (v : nat) (xs : list item) : nat := foldl advance v xs.

Fixpoint chained (v : nat) (xs : list item) : Prop :=
  match xs with [] => True | x :: xs => in_order v x ∧ chained (advance v x) xs end.

Definition carries (r : Room) (f : MeshStreamFrame) (x : item) : Prop :=
  ∃ payload msg, f = Data fenced payload ∧ decode_control payload = Ok msg ∧
    match x with
    | Delta i => ∃ d, roster_tx r !! i = Some d ∧ msg = roster_delta_msg d
    | Snap j => j ≤ length (roster_tx r) ∧ ∃ st, msg = RosterSnapshotMsg st ∧
        rs_revision st = Z.of_nat j ∧ entries_by_index (rs_peers st) = roster_at r j
    end.

Lemma chained_snoc (v : nat) (xs : list item) (x : item) :
  chained v (xs ++ [x]) ↔ chained v xs ∧ in_order (reached v xs) x.
Proof.
  revert v. induction xs as [|y xs IH]; intros v; simpl; [naive_solver|]. rewrite IH. naive_solver.
Qed.

Lemma reached_snoc (v : nat) (xs : list item) (x : item) :
  reached v (xs ++ [x]) = advance (reached v xs) x.
Proof. unfold reached. by rewrite foldl_app. Qed.

Lemma carries_prefix (r r' : Room) (f : MeshStreamFrame) (x : item) :
  roster_tx r `prefix_of` roster_tx r' → carries r f x → carries r' f x.
Proof.
  intros Hp (payload & msg & Hf & Hd & Hx). exists payload, msg. split_and!; [done|done|].
  destruct x as [i|j].
  - destruct Hx as (d & Hi & ->). exists d. split; [|done]. by eapply prefix_lookup_Some.
  - destruct Hx as (Hj & st & -> & Hrev & Hps). split.
    + apply prefix_length in Hp. lia.
    + exists st. split_and!; [done|done|]. by rewrite (roster_at_prefix r r').
Qed.

Record link_ok (roster : gmap Z RosterEntry) (c : CommunityId) (k : Link) (r : Room) (v pos : nat)
    (xs : list item) : Prop := {
  link_heap : heap (k_rooms k) !! h = Some r;
  link_room : room_ok r;
  link_single : Forall single (roster_tx r);
  link_rooms : rooms (k_rooms k) !! (c, session_id fenced) = Some h;
  link_community : stream_community (k_loop k) = Some c;
  link_rx : roster_rx (k_loop k) = Some (h, pos);
  link_up : k_up k = [];
  link_revision : k_revision k = Z.of_nat v;
  link_version : v ≤ length (roster_tx r);
  link_view : hear_all roster (k_told k) = roster_at r v;
  link_down : Forall2 (carries r) (k_down k) xs;
  link_chained : chained v xs;
  link_pos : pos ≤ reached v xs
}.

Definition linked (roster : gmap Z RosterEntry) (c : CommunityId) (k : Link) : Prop :=
  ∃ r v pos xs, link_ok roster c k r v pos xs.

(** ** Every event keeps it *)

Lemma in_room_linked (roster : gmap Z RosterEntry) (c : CommunityId) (k : Link) (r : Room)
    (v pos : nat) (xs : list item) (o : room_op) :
  link_ok roster c k r v pos xs → op_ok o r →
  link_ok roster c (link_step (InRoom o) k) (apply o r) v pos xs.
Proof.
  intros [Hh Hr Hs Hm Hc Hrx Hup Hrev Hv Hview Hd Hch Hpos] Ho.
  pose proof (apply_prefix o r) as Hp. pose proof (prefix_length _ _ Hp).
  unfold link_step, with_room. rewrite Hh. cbn [fst]. split; cbn [k_rooms k_loop k_down k_up k_revision k_told rooms heap]; try done.
  - apply lookup_insert_eq.
  - by apply apply_ok.
  - by apply apply_single.
  - lia.
  - by rewrite (roster_at_prefix r).
  - eapply Forall2_impl; [done|]. intros f x. by apply carries_prefix.
Qed.

(** What the owner sends is decoded as the message it is. *)
Lemma encoded (msg : HuddleControlMsg) :
  ∃ payload, encode_control msg = Ok payload ∧ decode_control payload = Ok msg.
Proof.
  destruct (control_round_trip msg) as (b & Ht & Hf). exists b. unfold encode_control, decode_control.
  by rewrite Ht, Hf.
Qed.

Lemma sends (io : Io) (msg : HuddleControlMsg) (escape : bool) (l : ControlLoop) (m : AudioRoomManager) :
  io_send io = Ok tt → ∃ payload, decode_control payload = Ok msg ∧
    send_control io fenced msg escape l m =
      {| t_loop := l; t_rooms := m; t_sent := [Data fenced payload]; t_flow := Continue |}.
Proof.
  intros Hs. destruct (encoded msg) as (p & He & Hd). exists p. unfold send_control.
  by rewrite He, Hs.
Qed.

Lemma snapshot_carried (r : Room) (payload : list Z) :
  room_ok r → (Z.of_nat (length (roster_tx r)) + 1 < 2 ^ 64)%Z →
  decode_control payload = Ok (roster_snapshot_msg r) →
  carries r (Data fenced payload) (Snap (length (roster_tx r))).
Proof.
  intros Hr Hlt Hd. exists payload, (roster_snapshot_msg r). split_and!; [done|done|done|].
  destruct (snapshot_roster r Hr) as [Hp Hrev]. rewrite Z.mod_small in Hrev by lia.
  by exists (roster_state r).
Qed.

Lemma relay_advances (roster : gmap Z RosterEntry) (c : CommunityId) (k : Link) (r : Room)
    (v pos : nat) (xs : list item) (io : Io) :
  link_ok roster c k r v pos xs → (Z.of_nat (length (roster_tx r)) + 1 < 2 ^ 64)%Z →
  io_send io = Ok tt →
  ∃ pos' xs', link_ok roster c (link_step (OwnerRelays io) k) r v pos' xs' ∧
    (S pos ≤ pos' ∨ length (roster_tx r) ≤ pos').
Proof.
  intros Hk Hlt Hio. pose proof Hk as [Hh Hr Hs Hm Hc Hrx Hup Hrev Hv Hview Hd Hch Hpos].
  cbn [link_step]. unfold owner_turn. cbn [control_turn]. unfold on_roster_event. rewrite Hrx, Hh.
  cbn [option_bind mbind]. unfold roster_recv.
  destruct (pos <? length (roster_tx r) - ROSTER_CHANNEL_CAPACITY) eqn:Hlag.
  - set (l := {| registered := _; stream_community := _; roster_rx := _ |}).
    assert (stream_room (k_rooms k) l (session_id fenced) = Some h) as ->
      by (unfold stream_room, l, get; cbn [stream_community]; by rewrite Hc).
    cbn [option_bind mbind]. rewrite Hh.
    destruct (sends io (roster_snapshot_msg r) true l (k_rooms k) Hio) as (p & Hp & ->).
    cbn [t_flow t_loop t_rooms t_sent].
    exists (length (roster_tx r) - ROSTER_CHANNEL_CAPACITY), (xs ++ [Snap (length (roster_tx r))]).
    apply Nat.ltb_lt in Hlag. split; [|left; lia].
    split; cbn [k_rooms k_loop k_down k_up k_revision k_told]; try done.
    + apply Forall2_app; [done|]. constructor; [|done]. by apply snapshot_carried.
    + apply chained_snoc. by split.
    + rewrite reached_snoc. simpl. lia.
  - destruct (roster_tx r !! pos) as [d|] eqn:Hdp.
    + set (l := {| registered := _; stream_community := _; roster_rx := _ |}).
      destruct (sends io (roster_delta_msg d) true l (k_rooms k) Hio) as (p & Hp & ->).
      cbn [t_flow t_loop t_rooms t_sent]. exists (S pos). eexists (xs ++ [Delta pos]).
      split; [|by left]. split; cbn [k_rooms k_loop k_down k_up k_revision k_told]; try done.
      * apply Forall2_app; [done|]. constructor; [|done]. exists p. eexists. split_and!; [done|done|].
        by exists d.
      * apply chained_snoc. by split.
      * rewrite reached_snoc. simpl. case_decide; lia.
    + exists pos, xs. cbn [turn t_flow t_loop t_rooms t_sent]. rewrite app_nil_r.
      apply lookup_ge_None in Hdp. split; [by destruct k|by right].
Qed.

Lemma client_linked (roster : gmap Z RosterEntry) (c : CommunityId) (k : Link) (r : Room)
    (v pos : nat) (xs : list item) :
  link_ok roster c k r v pos xs → (Z.of_nat (length (roster_tx r)) + 1 < 2 ^ 64)%Z →
  ∃ v' xs', link_ok roster c (link_step ClientReads k) r v' pos xs' ∧
    length xs' ≤ length xs - 1.
Proof.
  intros Hk Hlt. pose proof Hk as [Hh Hr Hs Hm Hc Hrx Hup Hrev Hv Hview Hd Hch Hpos].
  cbn [link_step]. destruct (k_down k) as [|f down] eqn:Hdown.
  { apply Forall2_nil_inv_l in Hd as ->. by exists v, []. }
  destruct xs as [|x xs]; [by apply Forall2_nil_cons_inv in Hd || inversion Hd|].
  apply Forall2_cons in Hd as [Hf Hd]. destruct Hch as [Hord Hch].
  destruct Hf as (payload & msg & -> & Hdec & Hx). unfold read_owner_control. rewrite Hdec.
  assert (∀ v' js, v' = advance v x → v' ≤ length (roster_tx r) →
    hear_all (roster_at r v) js = roster_at r v' →
    link_ok roster c {| k_loop := k_loop k; k_rooms := k_rooms k; k_down := down;
      k_up := k_up k ++ []; k_revision := Z.of_nat v'; k_told := k_told k ++ js |} r v' pos xs ∧
    length xs ≤ length (x :: xs) - 1) as Hnext.
  { intros v' js -> Hle Hjs. split; [|simpl; lia]. split; cbn [k_rooms k_loop k_down k_up k_revision k_told]; try done.
    - by rewrite Hup.
    - unfold hear_all in *. by rewrite foldl_app, Hview. }
  destruct x as [i|j].
  - destruct Hx as (d & Hi & ->). simpl in Hord. unfold roster_delta_msg.
    pose proof (lookup_lt_Some _ _ _ Hi) as Hin.
    pose proof (ok_numbers _ Hr _ _ Hi) as Hnum. rewrite Z.mod_small in Hnum by lia.
    unfold u64_wrapping_add. rewrite Hrev, Hnum, Z.mod_small by lia.
    destruct (Z.eqb_spec (Z.of_nat (S i)) (Z.of_nat v + 1)) as [Heq|Hne].
    + assert (i = v) as -> by lia.
      pose proof (roster_at_S r v d Hi (proj1 (Forall_lookup _ _) Hs _ _ Hi)) as HS.
      exists (S v), xs. simpl in Hnext. rewrite decide_True in Hnext by done.
      destruct (d_joined d) as [p|], (d_left d) as [q|]; cbn [fmap option_fmap option_map];
        (apply Hnext; [done|lia|by rewrite HS]).
    + rewrite (proj2 (Z.leb_le _ _)) by lia. exists v, xs. apply Hnext; [|done|done].
      simpl. rewrite decide_False; [done|lia].
  - destruct Hx as (Hj & st & -> & Hst & Hps). exists j, xs. rewrite Hst. by apply Hnext.
Qed.

Lemma step_linked (roster : gmap Z RosterEntry) (c : CommunityId) (k : Link) (r : Room)
    (v pos : nat) (xs : list item) (ev : link_event) :
  link_ok roster c k r v pos xs → (Z.of_nat (length (roster_tx r)) + 1 < 2 ^ 64)%Z →
  link_event_ok ev k →
  ∃ r' v' pos' xs', link_ok roster c (link_step ev k) r' v' pos' xs' ∧
    length (roster_tx r') ≤ S (length (roster_tx r)).
Proof.
  intros Hk Hlt Hev. destruct ev as [o|io|io|].
  - exists (apply o r), v, pos, xs. split.
    + apply in_room_linked; [done|]. apply Hev. by destruct Hk.
    + destruct (apply_publishes o r) as [->|(d & -> & _)]; rewrite ?length_app; simpl; lia.
  - destruct (relay_advances _ _ _ _ _ _ _ io Hk Hlt Hev) as (pos' & xs' & Hk' & _). exists r, v, pos', xs'. by auto.
  - exists r, v, pos, xs. simpl. rewrite (link_up _ _ _ _ _ _ _ Hk). by auto.
  - destruct (client_linked _ _ _ _ _ _ _ Hk Hlt) as (v' & xs' & Hk' & _). exists r, v', pos, xs'. by auto.
Qed.

Lemma run_linked (roster : gmap Z RosterEntry) (c : CommunityId) (evs : list link_event) (k : Link)
    (r : Room) (v pos : nat) (xs : list item) :
  link_ok roster c k r v pos xs →
  (Z.of_nat (length (roster_tx r) + length evs) + 1 < 2 ^ 64)%Z →
  link_events_ok evs k →
  ∃ r' v' pos' xs', link_ok roster c (link_run evs k) r' v' pos' xs' ∧
    length (roster_tx r') ≤ length (roster_tx r) + length evs.
Proof.
  revert k r v pos xs. induction evs as [|ev evs IH]; intros k r v pos xs Hk Hlt Hevs.
  { exists r, v, pos, xs. split; [done|lia]. }
  simpl in Hlt. destruct Hevs as [Hev Hevs].
  destruct (step_linked _ _ _ _ _ _ _ ev Hk ltac:(lia) Hev) as (r1 & v1 & pos1 & xs1 & Hk1 & Hl).
  destruct (IH _ _ _ _ _ Hk1 ltac:(lia) Hevs) as (r2 & v2 & pos2 & xs2 & Hk2 & Hl2).
  exists r2, v2, pos2, xs2. split; [done|]. simpl. lia.
Qed.

(** *** Catching up *)

Lemma relays_linked (roster : gmap Z RosterEntry) (c : CommunityId) (io : Io) (n : nat) (k : Link)
    (r : Room) (v pos : nat) (xs : list item) :
  link_ok roster c k r v pos xs → (Z.of_nat (length (roster_tx r)) + 1 < 2 ^ 64)%Z →
  io_send io = Ok tt → length (roster_tx r) ≤ pos + n →
  ∃ pos' xs', link_ok roster c (link_run (replicate n (OwnerRelays io)) k) r v pos' xs' ∧
    length (roster_tx r) ≤ pos'.
Proof.
  revert k pos xs. induction n as [|n IH]; intros k pos xs Hk Hlt Hio Hn.
  { exists pos, xs. split; [done|lia]. }
  destruct (relay_advances roster c k r v pos xs io Hk Hlt Hio) as (pos' & xs' & Hk' & Hpos').
  cbn [replicate link_run foldl]. apply (IH _ pos' xs' Hk' Hlt Hio). lia.
Qed.

Lemma reads_linked (roster : gmap Z RosterEntry) (c : CommunityId) (n : nat) (k : Link) (r : Room)
    (v pos : nat) (xs : list item) :
  link_ok roster c k r v pos xs → (Z.of_nat (length (roster_tx r)) + 1 < 2 ^ 64)%Z →
  length xs ≤ n →
  ∃ v', link_ok roster c (link_run (replicate n ClientReads) k) r v' pos [].
Proof.
  revert k v xs. induction n as [|n IH]; intros k v xs Hk Hlt Hn.
  { destruct xs; [|simpl in Hn; lia]. by exists v. }
  destruct (client_linked roster c k r v pos xs Hk Hlt) as (v' & xs' & Hk' & Hl).
  cbn [replicate link_run foldl]. apply (IH _ v' xs' Hk' Hlt). lia.
Qed.

Lemma caught_up (roster : gmap Z RosterEntry) (c : CommunityId) (k : Link) (r : Room) (v pos : nat) :
  link_ok roster c k r v pos [] → length (roster_tx r) ≤ pos → v = length (roster_tx r).
Proof. intros Hk Hpos. destruct Hk. simpl in *. lia. Qed.

Lemma linked_catches_up (roster : gmap Z RosterEntry) (c : CommunityId) (io : Io) (k : Link)
    (r : Room) (v pos : nat) (xs : list item) :
  link_ok roster c k r v pos xs → (Z.of_nat (length (roster_tx r)) + 1 < 2 ^ 64)%Z →
  io_send io = Ok tt →
  ∃ n, let k' := link_run (replicate (length (roster_tx r)) (OwnerRelays io) ++
                           replicate n ClientReads) k in
    heap (k_rooms k') !! h = Some r ∧
    hear_all roster (k_told k') = entries_by_index (rs_peers (roster_state r)).
Proof.
  intros Hk Hlt Hio.
  destruct (relays_linked roster c io (length (roster_tx r)) k r v pos xs Hk Hlt Hio ltac:(lia))
    as (pos1 & xs1 & Hk1 & Hpos1).
  destruct (reads_linked roster c (length xs1) _ r v pos1 xs1 Hk1 Hlt ltac:(lia)) as (v2 & Hk2).
  exists (length xs1). cbn zeta. unfold link_run in *. rewrite foldl_app.
  pose proof (caught_up _ _ _ _ _ _ Hk2 Hpos1) as ->. split; [by destruct Hk2|].
  rewrite (link_view _ _ _ _ _ _ _ Hk2). symmetry. apply snapshot_roster. by destruct Hk2.
Qed.

(** *** Registration *)

(** What the owner does to the room when it admits a remote peer *)
Definition admission_ops (id : PeerId) (pk : string) (version : Z) (j : ControlJson) : list room_op :=
  [AddPeer id pk version; BroadcastControl (control_text j); DropCtrlRx id].

Lemma register_remote_peer_run (io : Io) (r r' : Room) (pk : string) (version : Z)
    (reg reg' : gmap string PeerId) (msg : HuddleControlMsg) :
  register_remote_peer io r pk version reg = (r', reg', msg) →
  (∃ idx e j, add_peer r (io_peer_id io) pk version =
      (apply (AddPeer (io_peer_id io) pk version) r, Ok (idx, e, roster_revision (guard (apply (AddPeer (io_peer_id io) pk version) r)))) ∧
    r' = run (admission_ops (io_peer_id io) pk version j) r ∧
    reg' = <[pk := io_peer_id io]> reg ∧ msg = PeerRegistered pk idx e (roster_state r')) ∨
  (∃ e, add_peer r (io_peer_id io) pk version = (r', Err e) ∧ reg' = reg ∧
    msg = RegisterRejected pk (admission_to_rejection e)).
Proof.
  unfold register_remote_peer. destruct (add_peer r (io_peer_id io) pk version) as [r1 [[[idx e] rev]|e]] eqn:Ha.
  - intros [= <- <- <-]. left. assert (rev = roster_revision (guard r1)) as ->.
    { revert Ha. unfold add_peer. repeat case_match; naive_solver. }
    do 3 eexists. simpl. rewrite Ha. simpl. done.
  - intros [= <- <- <-]. right. by exists e.
Qed.

(** The link as the dialer finds it after the owner's first turn *)
Definition link_of (t : Turn) (s : RemoteHuddleSession) : Link :=
  {| k_loop := t_loop t; k_rooms := t_rooms t; k_down := []; k_up := [];
     k_revision := rs_revision (r_roster s); k_told := [] |}.

Definition roster_of (s : RemoteHuddleSession) : gmap Z RosterEntry :=
  entries_by_index (rs_peers (r_roster s)).

Lemma run_length (ops : list room_op) (r : Room) :
  length (roster_tx (run ops r)) ≤ length (roster_tx r) + length ops.
Proof.
  revert r. induction ops as [|o ops IH]; intros r; simpl; [lia|]. etrans; [apply IH|].
  destruct (apply_publishes o r) as [->|(d & -> & _)]; rewrite ?length_app; simpl; lia.
Qed.

Lemma turn_continues (io : Io) (msg : HuddleControlMsg) (l l' : ControlLoop) (m : AudioRoomManager) :
  let t := send_control io fenced msg false l m in
  let t' := match t_flow t with
            | Continue => {| t_loop := l'; t_rooms := m; t_sent := t_sent t; t_flow := Continue |}
            | _ => t
            end in
  t_flow t' = Continue →
  ∃ p, decode_control p = Ok msg ∧
    t' = {| t_loop := l'; t_rooms := m; t_sent := [Data fenced p]; t_flow := Continue |}.
Proof.
  cbn zeta. unfold send_control. destruct (encoded msg) as (p & -> & Hp).
  destruct (io_send io) as [u|e]; cbn [t_flow t_sent turn]; [|done]. intros _. by exists p.
Qed.

Lemma dial_registered (owner : RuntimeId) (c : CommunityId) (pk pk' : string) (version idx e : Z)
    (roster : RosterState) (p : list Z) (s : RemoteHuddleSession) :
  decode_control p = Ok (PeerRegistered pk' idx e roster) →
  dial_remote_owner owner fenced c pk version (Ok tt) (Ok tt) (Ok (Some (Data fenced p))) = Ok s →
  r_roster s = roster ∧ r_peer_index s = idx.
Proof.
  intros Hp. unfold dial_remote_owner. destruct (encoded (RegisterPeer c pk version)) as (q & -> & _).
  cbn. rewrite Hp. cbn. by intros [= <-].
Qed.

Lemma dial_rejected (owner : RuntimeId) (c : CommunityId) (pk pk' : string) (version : Z)
    (reason : RegisterRejection) (p : list Z) (f : FencedHeader) :
  decode_control p = Ok (RegisterRejected pk' reason) →
  dial_remote_owner owner fenced c pk version (Ok tt) (Ok tt) (Ok (Some (Data f p))) = Err (Rejected reason).
Proof.
  intros Hp. unfold dial_remote_owner. destruct (encoded (RegisterPeer c pk version)) as (q & -> & _).
  cbn. by rewrite Hp.
Qed.

Lemma registration_links (m : AudioRoomManager) (c : CommunityId) (ops0 ops : list room_op) (io : Io)
    (payload : list Z) (pk : string) (version : Z) (owner : RuntimeId) (s : RemoteHuddleSession) :
  let r0 := room_new c (session_id fenced) in
  let t := control_turn io local_runtime_id fenced (Frame (Ok (Some (Data fenced payload)))) loop_new m in
  get m c (session_id fenced) = Some h → heap m !! h = Some (run ops0 r0) →
  io_meanwhile io = (λ m, (with_room m h (λ r, (run ops r, tt))).1) →
  ops_ok (ops0 ++ ops) r0 → ctrl (run (ops0 ++ ops) r0) !! io_peer_id io = None →
  (Z.of_nat (length ops0 + length ops) + 4 < 2 ^ 64)%Z →
  decode_control payload = Ok (RegisterPeer c pk version) → t_flow t = Continue →
  dial_remote_owner owner fenced c pk version (Ok tt) (Ok tt) (Ok (head (t_sent t))) = Ok s →
  ∃ r v pos, link_ok (roster_of s) c (link_of t s) r v pos [] ∧
    length (roster_tx r) ≤ length ops0 + length ops + 3.
Proof.
  intros r0 t Hm Hh Hio Hops Hid Hlt Hdec Hflow Hdial.
  assert (room_ok r0) as Hr0 by apply room_new_ok.
  pose proof (run_ok _ _ Hr0 Hops) as Hr. rewrite run_app in Hr, Hid.
  set (r1 := run ops (run ops0 r0)) in *.
  assert (Forall single (roster_tx r1)) as Hs1 by (by apply run_single, run_single).
  pose proof (run_prefix ops (run ops0 r0)) as Hp0.
  pose proof (run_length ops (run ops0 r0)) as Hl1. pose proof (run_length ops0 r0) as Hl0.
  fold r1 in Hp0, Hl1. simpl in Hl0.
  subst t. revert Hflow Hdial. cbn [control_turn]. unfold on_frame.
  rewrite decide_False by (intros Hne; by apply Hne). rewrite Hdec. cbn [on_msg]. unfold on_register.
  cbn [stream_community loop_new is_some_and].
  destruct (io_draining io); [done|]. unfold get_or_create, get in *. rewrite Hm, Hh.
  cbn [option_fmap option_map fmap default registered].
  rewrite Hio. unfold with_room. rewrite Hh. cbn [fst rooms heap]. rewrite lookup_insert_eq. fold r1.
  destruct (io_validate io) as [u|e].
  - destruct (register_remote_peer io r1 pk version (registered loop_new)) as [[r2 reg] reply] eqn:Hreg.
    cbn [fst rooms heap]. rewrite insert_insert_eq.
    intros Hflow Hdial. edestruct turn_continues as (p & Hp & Ht); [exact Hflow|].
    rewrite Ht in Hdial |- *. clear Hflow Ht. cbn [t_sent t_loop t_rooms head] in *.
    apply register_remote_peer_run in Hreg as [(idx & e & j & Ha & Hr2 & -> & ->)|(e & _ & _ & ->)].
    + destruct (dial_registered _ _ _ _ _ _ _ _ _ _ Hp Hdial) as [Hros _].
      assert (ops_ok (admission_ops (io_peer_id io) pk version j) r1) as Hok by (by repeat split).
      pose proof (run_ok _ _ Hr Hok) as Hr2'. rewrite <- Hr2 in Hr2'.
      pose proof (run_length (admission_ops (io_peer_id io) pk version j) r1) as Hl2.
      pose proof (run_prefix (admission_ops (io_peer_id io) pk version j) r1) as Hp2.
      rewrite <- Hr2 in Hl2, Hp2. simpl in Hl2.
      destruct (snapshot_roster r2 Hr2') as [Hps Hrev]. rewrite Z.mod_small in Hrev by lia.
      exists r2, (length (roster_tx r2)), (length (roster_tx (run ops0 r0))). split; [|lia].
      unfold link_of, roster_of. rewrite Hros.
      split; cbn [k_rooms k_loop k_down k_up k_revision k_told t_loop t_rooms rooms heap
        stream_community roster_rx registered_reply]; try done.
      * apply lookup_insert_eq.
      * rewrite Hr2. by apply run_single.
      * simpl. apply prefix_length in Hp0, Hp2. lia.
    + by rewrite (dial_rejected _ _ _ _ _ _ _ _ Hp) in Hdial.
  - destruct (from_mesh_error e) as [reason|]; [|by intros Hflow].
    intros Hflow Hdial. edestruct turn_continues as (p & Hp & Ht); [exact Hflow|].
    rewrite Ht in Hdial. cbn [t_sent head] in Hdial.
    by rewrite (dial_rejected _ _ _ _ _ _ _ _ Hp) in Hdial.
Qed.

(** C39 The roster that a client of another pod is told stays in step with the owner's. A
    registration that succeeds, in a room with any history and with anything happening in it
    while the fence is checked, opens a link on which, whatever happens in the room, whenever
    the owner relays (late, so that it skips deltas it can no longer receive, too) and
    whenever the client's pod reads: the client never has to ask for a resync, the rosters it
    is told are always the owner's roster as of the revision it is at, and once the room is
    left alone the owner relays and the client reads its way to the current roster. *)
Theorem roster_in_step (m : AudioRoomManager) (c : CommunityId) (ops0 ops : list room_op)
    (io io' : Io) (payload : list Z) (pk : string) (version : Z) (owner : RuntimeId)
    (s : RemoteHuddleSession) (evs : list link_event) :
  let r0 := room_new c (session_id fenced) in
  let t := control_turn io local_runtime_id fenced (Frame (Ok (Some (Data fenced payload)))) loop_new m in
  let k := link_run evs (link_of t s) in
  get m c (session_id fenced) = Some h → heap m !! h = Some (run ops0 r0) →
  io_meanwhile io = (λ m, (with_room m h (λ r, (run ops r, tt))).1) →
  ops_ok (ops0 ++ ops) r0 → ctrl (run (ops0 ++ ops) r0) !! io_peer_id io = None →
  decode_control payload = Ok (RegisterPeer c pk version) → t_flow t = Continue →
  dial_remote_owner owner fenced c pk version (Ok tt) (Ok tt) (Ok (head (t_sent t))) = Ok s →
  link_events_ok evs (link_of t s) → io_send io' = Ok tt →
  (Z.of_nat (length ops0 + length ops + length evs) + 4 < 2 ^ 64)%Z →
  ∃ r v n, heap (k_rooms k) !! h = Some r ∧ k_up k = [] ∧
    k_revision k = Z.of_nat v ∧ v ≤ length (roster_tx r) ∧
    hear_all (roster_of s) (k_told k) = roster_at r v ∧
    let k' := link_run (replicate (length (roster_tx r)) (OwnerRelays io') ++
                        replicate n ClientReads) k in
    heap (k_rooms k') !! h = Some r ∧
    hear_all (roster_of s) (k_told k') = entries_by_index (rs_peers (roster_state r)).
Proof.
  intros r0 t k Hm Hh Hio Hops Hid Hdec Hflow Hdial Hevs Hio' Hlt.
  destruct (registration_links m c ops0 ops io payload pk version owner s Hm Hh Hio Hops Hid
    ltac:(lia) Hdec Hflow Hdial) as (r1 & v1 & pos1 & Hk1 & Hl1).
  destruct (run_linked _ c evs _ r1 v1 pos1 [] Hk1 ltac:(lia) Hevs)
    as (r & v & pos & xs & Hk & Hl).
  destruct (linked_catches_up _ c io' _ r v pos xs Hk ltac:(lia) Hio') as (n & Hn).
  exists r, v, n. destruct Hk. by split_and!.
Qed.
End link.

(** ** What the owner's loop does to its rooms *)

Section rooms.
Context `{ControlText} `{ControlLaws}.
Context (local_runtime_id : RuntimeId) (fenced : FencedHeader).

(** Peer [id] is in the room of handle [h]. *)
Definition holds (m : AudioRoomManager) (h : N) (id : PeerId) : Prop :=
  ∃ r, heap m !! h = Some r ∧ id ∈ dom (peers r).

Definition unpoisoned (m : AudioRoomManager) : Prop :=
  ∀ h r, heap m !! h = Some r → poisoned r = false.

Definition latches (l : ControlLoop) (c : Uuid) : Prop :=
  stream_community l = None ∨ stream_community l = Some c.

(** The message of an event, if it is a control message of this stream *)
Definition message (ev : control_event) : option HuddleControlMsg :=
  match ev with
  | Frame (Ok (Some (Data f payload))) =>
      if decide (f = fenced) then match decode_control payload with Ok msg => Some msg | Err _ => None end
      else None
  | _ => None
  end.

(** The effect of a turn on the registered peers, the community and the rooms *)
Inductive turn_effect (io : Io) (ev : control_event) (l : ControlLoop) (m : AudioRoomManager) :
    gmap string PeerId → option Uuid → AudioRoomManager → Prop :=
  | eff_none : turn_effect io ev l m (registered l) (stream_community l) m
  | eff_latched c pk v : message ev = Some (RegisterPeer c pk v) → latches l c →
      turn_effect io ev l m (registered l) (Some c) m
  | eff_room c pk v m1 h : message ev = Some (RegisterPeer c pk v) → latches l c →
      get_or_create m c (session_id fenced) = (m1, h) →
      turn_effect io ev l m (registered l) (Some c) (io_meanwhile io m1)
  | eff_register c pk v m1 h r r' reg reply :
      message ev = Some (RegisterPeer c pk v) → latches l c → io_draining io = false →
      io_validate io = Ok tt → get_or_create m c (session_id fenced) = (m1, h) →
      heap (io_meanwhile io m1) !! h = Some r →
      register_remote_peer io r pk v (registered l) = (r', reg, reply) →
      turn_effect io ev l m reg (Some c)
        {| rooms := rooms (io_meanwhile io m1); heap := <[h := r']> (heap (io_meanwhile io m1)) |}
  | eff_unregister pk id m' : message ev = Some (UnregisterPeer pk) → registered l !! pk = Some id →
      m' = match stream_room m l (session_id fenced) with
           | Some h => (with_room m h (λ r, (drop_remote_peer r id, tt))).1
           | None => m
           end →
      turn_effect io ev l m (delete pk (registered l)) (stream_community l) m'.

Lemma send_control_state (io : Io) (msg : HuddleControlMsg) (escape : bool) (l : ControlLoop)
    (m : AudioRoomManager) :
  t_loop (send_control io fenced msg escape l m) = l ∧
  t_rooms (send_control io fenced msg escape l m) = m.
Proof. unfold send_control. repeat case_match; done. Qed.

Lemma eff_same (io : Io) (ev : control_event) (l : ControlLoop) (m : AudioRoomManager) (t : Turn) :
  registered (t_loop t) = registered l → stream_community (t_loop t) = stream_community l →
  t_rooms t = m →
  turn_effect io ev l m (registered (t_loop t)) (stream_community (t_loop t)) (t_rooms t).
Proof. intros -> -> ->. apply eff_none. Qed.

Lemma eff_send (io io' : Io) (ev : control_event) (msg : HuddleControlMsg) (escape : bool)
    (l l' : ControlLoop) (m : AudioRoomManager) :
  registered l' = registered l → stream_community l' = stream_community l →
  let t := send_control io' fenced msg escape l' m in
  turn_effect io ev l m (registered (t_loop t)) (stream_community (t_loop t)) (t_rooms t).
Proof.
  intros Hr Hc t. subst t. destruct (send_control_state io' msg escape l' m) as [-> ->].
  rewrite Hr, Hc. apply eff_none.
Qed.

Lemma on_register_effect (io : Io) (ev : control_event) (c : Uuid) (pk : string) (v : Z)
    (l : ControlLoop) (m : AudioRoomManager) :
  message ev = Some (RegisterPeer c pk v) →
  let t := on_register io fenced c pk v l m in
  turn_effect io ev l m (registered (t_loop t)) (stream_community (t_loop t)) (t_rooms t).
Proof.
  intros Hev t. subst t. unfold on_register.
  destruct (is_some_and _ (stream_community l)) eqn:Hl; [apply eff_none|].
  assert (latches l c) as Hlatch.
  { unfold latches. destruct (stream_community l) as [c'|]; [right|by left].
    simpl in Hl. by case_bool_decide; subst. }
  destruct (io_draining io) eqn:Hdr; [exact (eff_latched _ _ _ _ _ _ _ Hev Hlatch)|].
  destruct (get_or_create m c (session_id fenced)) as [m1 h] eqn:Hm1.
  destruct (io_validate io) as [[]|e] eqn:Hval.
  - destruct (heap (io_meanwhile io m1) !! h) as [r|] eqn:Hr; [|exact (eff_room _ _ _ _ _ _ _ _ _ Hev Hlatch Hm1)].
    destruct (register_remote_peer io r pk v _) as [[r' reg] reply] eqn:Hreg. cbn zeta beta iota.
    set (l1 := {| registered := reg; stream_community := _; roster_rx := _ |}).
    set (m3 := {| rooms := _; heap := _ |}).
    destruct (send_control_state io reply false l1 m3) as [Hl1 Hm3].
    destruct (t_flow (send_control io fenced reply false l1 m3));
      cbn [t_loop t_rooms]; rewrite ?Hl1, ?Hm3;
      exact (eff_register _ _ _ _ _ _ _ _ _ _ _ _ _ Hev Hlatch Hdr Hval Hm1 Hr Hreg).
  - destruct (from_mesh_error e) as [reason|]; [|exact (eff_room _ _ _ _ _ _ _ _ _ Hev Hlatch Hm1)].
    cbn zeta beta iota. set (reply := RegisterRejected pk (RejFenced reason)).
    set (l1 := {| registered := registered _; stream_community := _; roster_rx := _ |}).
    destruct (send_control_state io reply false l1 (io_meanwhile io m1)) as [Hl1 Hm3].
    destruct (t_flow (send_control io fenced reply false l1 (io_meanwhile io m1)));
      cbn [t_loop t_rooms]; rewrite ?Hl1, ?Hm3; exact (eff_room _ _ _ _ _ _ _ _ _ Hev Hlatch Hm1).
Qed.

Lemma turn_has_effect (io : Io) (ev : control_event) (l : ControlLoop) (m : AudioRoomManager) :
  let t := control_turn io local_runtime_id fenced ev l m in
  turn_effect io ev l m (registered (t_loop t)) (stream_community (t_loop t)) (t_rooms t).
Proof.
  intros t. subst t. destruct ev as [| | | |f]; try by apply eff_same.
  - cbn [control_turn]. unfold on_roster_event. destruct (roster_rx l) as [[h pos]|]; [|by apply eff_same].
    destruct (heap m !! h ≫= _) as [[pos1 [d|]]|]; [by apply eff_send| |by apply eff_same].
    destruct (stream_room m _ (session_id fenced) ≫= _); [by apply eff_send|by apply eff_same].
  - cbn [control_turn]. unfold on_frame. destruct f as [[f|]|e]; try by apply eff_same.
    destruct f as [hl|f payload|f reason|g]; try by apply eff_same.
    destruct (decide (f ≠ fenced)) as [|Hf]; [by apply eff_same|]. apply dec_stable in Hf as ->.
    destruct (decode_control payload) as [msg|e] eqn:Hdec; [|by apply eff_same].
    assert (message (Frame (Ok (Some (Data fenced payload)))) = Some msg) as Hmsg.
    { simpl. by rewrite decide_True, Hdec. }
    destruct msg as [c pk v| | | | | |pk]; try by apply eff_same.
    + by apply on_register_effect.
    + cbn [on_msg]. unfold on_resync. destruct (stream_room m l (session_id fenced) ≫= _);
        [by apply eff_send|by apply eff_same].
    + cbn [on_msg]. unfold on_unregister. destruct (registered l !! pk) as [id|] eqn:Hid; [|by apply eff_same].
      destruct (stream_room m l (session_id fenced)) as [h|] eqn:Hh;
        (refine (eff_unregister _ _ _ _ pk id _ Hmsg Hid _); by rewrite Hh).
Qed.

(** *** Peers of the rooms *)

Lemma dom_broadcast_control (r : Room) (j : string) : dom (peers (broadcast_control r j)) = dom (peers r).
Proof.
  apply set_eq. intros id. rewrite !elem_of_dom. simpl. rewrite map_lookup_imap.
  destruct (peers r !! id); simpl; [|done]. split; by intros _.
Qed.

Lemma dom_broadcast_peer_left (r : Room) (d : RosterDelta) :
  dom (peers (broadcast_peer_left r d)) = dom (peers r).
Proof. unfold broadcast_peer_left. destruct (peer_left_control d); [apply dom_broadcast_control|done]. Qed.

Lemma drop_remote_peer_unpoisoned (r : Room) (id : PeerId) :
  poisoned r = false → poisoned (drop_remote_peer r id) = false.
Proof.
  intros Hp. unfold drop_remote_peer, remove_peer. rewrite Hp.
  destruct (peers r !! id); [|done]. done.
Qed.

Lemma dom_drop_remote_peer (r : Room) (id : PeerId) :
  poisoned r = false → dom (peers (drop_remote_peer r id)) = dom (peers r) ∖ {[id]}.
Proof.
  intros Hp. unfold drop_remote_peer, remove_peer. rewrite Hp.
  destruct (peers r !! id) as [p|] eqn:Hid.
  - etrans; [apply dom_broadcast_peer_left|]. simpl. by rewrite dom_delete_L.
  - apply not_elem_of_dom in Hid. set_solver.
Qed.

Lemma dom_drop_all (ids : list PeerId) (r : Room) :
  poisoned r = false →
  let r' := foldl (λ r id, drop_remote_peer r id) r ids in
  poisoned r' = false ∧ dom (peers r') = dom (peers r) ∖ list_to_set ids.
Proof.
  revert r. induction ids as [|id ids IH]; intros r Hp; [simpl; split; [done|set_solver]|].
  destruct (IH (drop_remote_peer r id)) as [Hp' Hd]; [by apply drop_remote_peer_unpoisoned|].
  split; [done|]. simpl in *. rewrite Hd, dom_drop_remote_peer by done. set_solver.
Qed.

Lemma dom_register (io : Io) (r r' : Room) (pk : string) (v : Z) (reg reg' : gmap string PeerId)
    (reply : HuddleControlMsg) :
  register_remote_peer io r pk v reg = (r', reg', reply) →
  (poisoned r = false → poisoned r' = false) ∧
  ((dom (peers r') = {[io_peer_id io]} ∪ dom (peers r) ∧ reg' = <[pk := io_peer_id io]> reg) ∨
   (dom (peers r') = dom (peers r) ∧ reg' = reg)).
Proof.
  unfold register_remote_peer, add_peer.
  repeat case_match; intros; simplify_eq/=; (split; [by auto|]); try (by right);
    left; (split; [|done]); (etrans; [apply dom_broadcast_control|]); simpl; by rewrite dom_insert_L.
Qed.

(** The fenced registration, given that the others are idle while it is checked *)

Lemma get_or_create_holds (m m1 : AudioRoomManager) (c ch : Uuid) (h h' : N) (id : PeerId) :
  get_or_create m c ch = (m1, h) → holds m1 h' id ↔ holds m h' id.
Proof.
  unfold get_or_create. case_match; intros [= <- <-]; [done|].
  pose proof (is_fresh (dom (heap m))) as Hf. apply not_elem_of_dom in Hf.
  unfold holds. simpl. destruct (decide (h' = fresh (dom (heap m)))) as [->|Hne].
  - rewrite lookup_insert_eq, Hf. split; intros (r & [= <-] & Hr). simpl in Hr. set_solver.
  - by rewrite lookup_insert_ne.
Qed.

Lemma get_or_create_get (m m1 : AudioRoomManager) (c ch : Uuid) (h : N) :
  get_or_create m c ch = (m1, h) → get m1 c ch = Some h.
Proof.
  unfold get_or_create, get. case_match; intros [= <- <-]; [done|]. apply lookup_insert_eq.
Qed.

Lemma holds_insert (m : AudioRoomManager) (h h' : N) (r : Room) (id : PeerId) :
  holds {| rooms := rooms m; heap := <[h := r]> (heap m) |} h' id ↔
  (h' = h ∧ id ∈ dom (peers r)) ∨ (h' ≠ h ∧ holds m h' id).
Proof.
  unfold holds. simpl. destruct (decide (h' = h)) as [->|Hne].
  - rewrite lookup_insert_eq. naive_solver.
  - rewrite lookup_insert_ne by done. naive_solver.
Qed.

Lemma holds_insert_same (m : AudioRoomManager) (h h' : N) (r r' : Room) (id : PeerId) :
  heap m !! h = Some r → dom (peers r') = dom (peers r) →
  holds {| rooms := rooms m; heap := <[h := r']> (heap m) |} h' id ↔ holds m h' id.
Proof.
  intros Hr Hd. rewrite holds_insert, Hd. unfold holds.
  destruct (decide (h' = h)) as [->|]; [rewrite Hr|]; naive_solver.
Qed.

(** Who enters and who leaves a room by a turn of an owner's loop. A peer enters only by
    the registration of the message of this turn, carried under the fenced header of the
    stream, which names the community that the stream has (or had none before), when the
    owner is not draining and the directory says the lease is still this pod's; it enters
    the room of that community and is then among the registered. A peer leaves only by the
    message that unregisters the key it was registered under. *)
Theorem control_turn_fenced (io : Io) (ev : control_event) (l : ControlLoop) (m : AudioRoomManager)
    (h : N) (id : PeerId) :
  let t := control_turn io local_runtime_id fenced ev l m in
  io_meanwhile io = (λ m, m) →
  (holds (t_rooms t) h id → ¬ holds m h id →
   ∃ c pk v, message ev = Some (RegisterPeer c pk v) ∧ latches l c ∧
     stream_community (t_loop t) = Some c ∧ io_draining io = false ∧ io_validate io = Ok tt ∧
     id = io_peer_id io ∧ registered (t_loop t) !! pk = Some id ∧
     get (t_rooms t) c (session_id fenced) = Some h) ∧
  (holds m h id → ¬ holds (t_rooms t) h id →
   ∃ pk, message ev = Some (UnregisterPeer pk) ∧ registered l !! pk = Some id ∧
     stream_room m l (session_id fenced) = Some h).
Proof.
  intros t Hio. pose proof (turn_has_effect io ev l m) as Ht. fold t in Ht.
  destruct Ht as [|c pk v Hev Hl|c pk v m1 h1 Hev Hl Hm1|c pk v m1 h1 r r' reg reply Hev Hl Hdr Hval Hm1 Hr Hreg|pk id1 m' Hev Hid1 ->].
  - by split.
  - by split.
  - rewrite Hio, (get_or_create_holds _ _ _ _ _ h id Hm1). by split.
  - rewrite Hio in Hr |- *. rewrite <- (get_or_create_holds _ _ _ _ _ h id Hm1).
    apply dom_register in Hreg as [_ [[Hd ->]|[Hd ->]]]; [|rewrite (holds_insert_same _ _ _ _ _ _ Hr Hd); by split].
    rewrite holds_insert, Hd. split.
    + intros [[-> Hin]|[Hne Hin]] Hnot; [|done].
      assert (id = io_peer_id io) as ->.
      { apply elem_of_union in Hin as [Hin|Hin]; [set_solver|]. destruct Hnot. by exists r. }
      exists c, pk, v. rewrite lookup_insert_eq. split_and!; try done.
      by apply get_or_create_get in Hm1.
    + intros Hin Hnot. destruct Hnot. destruct (decide (h = h1)) as [->|Hne]; [left|by right].
      split; [done|]. destruct Hin as (r1 & Hr1 & Hin). rewrite Hr in Hr1. simplify_eq. set_solver.
  - destruct (stream_room m l (session_id fenced)) as [h1|] eqn:Hh1; [|by split].
    unfold with_room. destruct (heap m !! h1) as [r|] eqn:Hr; [|by split]. cbn [fst].
    destruct (poisoned r) eqn:Hp.
    { rewrite (holds_insert_same _ _ _ r); [by split|done|]. unfold drop_remote_peer, remove_peer. by rewrite Hp. }
    rewrite holds_insert, dom_drop_remote_peer by done. split.
    + intros [[-> Hin]|[_ Hin]] Hnot; [|done]. destruct Hnot. exists r. set_solver.
    + intros Hin Hnot. exists pk. destruct (decide (h = h1)) as [->|Hne]; [|naive_solver].
      destruct Hin as (r1 & Hr1 & Hin). rewrite Hr in Hr1. injection Hr1 as <-.
      destruct (decide (id = id1)) as [->|Hne]; [done|]. destruct Hnot. left. set_solver.
Qed.

(** *** The end of a stream *)

(** What others do in between keeps the peers [ids] and the rooms they are in, and never
    poisons a room. *)
Definition keeps (ids : list PeerId) (f : AudioRoomManager → AudioRoomManager) : Prop :=
  ∀ m, unpoisoned m → unpoisoned (f m) ∧
    ∀ h id, id ∈ ids → (holds (f m) h id ↔ holds m h id) ∧
      ∀ k, holds m h id → rooms m !! k = Some h → rooms (f m) !! k = Some h.

Definition keeps_rooms (f : AudioRoomManager → AudioRoomManager) : Prop :=
  ∀ m k h, rooms m !! k = Some h → rooms (f m) !! k = Some h.

Definition room_of (m : AudioRoomManager) (comm : option Uuid) : option N :=
  c ← comm; get m c (session_id fenced).

(** Every peer of the stream is registered and in the room of the stream. *)
Definition tracked (ids : list PeerId) (reg : gmap string PeerId) (comm : option Uuid)
    (m : AudioRoomManager) : Prop :=
  unpoisoned m ∧ ∀ h id, id ∈ ids → holds m h id →
    room_of m comm = Some h ∧ ∃ pk, reg !! pk = Some id.

Lemma others_tracked (ids : list PeerId) (reg : gmap string PeerId) (comm : option Uuid)
    (m : AudioRoomManager) (f : AudioRoomManager → AudioRoomManager) :
  tracked ids reg comm m → keeps ids f → tracked ids reg comm (f m).
Proof.
  intros [Hu Ht] Hf. destruct (Hf m Hu) as [Hu' Hk]. split; [done|]. intros h id Hin Hh.
  destruct (Hk h id Hin) as [Hiff Hrooms]. apply Hiff in Hh.
  destruct (Ht h id Hin Hh) as [Hr Hpk]. split; [|done]. destruct comm as [c|]; [|done].
  by apply Hrooms.
Qed.

Lemma latch_tracked (ids : list PeerId) (l : ControlLoop) (m : AudioRoomManager) (c : Uuid) :
  tracked ids (registered l) (stream_community l) m → latches l c →
  tracked ids (registered l) (Some c) m.
Proof.
  intros [Hu Ht] Hl. split; [done|]. intros h id Hin Hh. destruct (Ht h id Hin Hh) as [Hr Hpk].
  split; [|done]. destruct Hl as [Hl|Hl]; by rewrite Hl in Hr.
Qed.

Lemma created_tracked (ids : list PeerId) (reg : gmap string PeerId) (c : Uuid)
    (m m1 : AudioRoomManager) (h1 : N) :
  tracked ids reg (Some c) m → get_or_create m c (session_id fenced) = (m1, h1) →
  tracked ids reg (Some c) m1.
Proof.
  intros [Hu Ht] Hm1. split.
  - intros h r Hr. revert Hm1. unfold get_or_create. case_match; intros [= <- <-]; [by eapply Hu|].
    simpl in Hr. apply lookup_insert_Some in Hr as [[_ <-]|[_ Hr]]; [done|by eapply Hu].
  - intros h id Hin Hh. apply (get_or_create_holds _ _ _ _ _ _ _ Hm1) in Hh.
    destruct (Ht h id Hin Hh) as [Hr Hpk]. split; [|done]. simpl in *. unfold get in *.
    unfold get_or_create in Hm1. rewrite Hr in Hm1. by simplify_eq.
Qed.

Lemma insert_unpoisoned (m : AudioRoomManager) (h : N) (r : Room) :
  unpoisoned m → poisoned r = false →
  unpoisoned {| rooms := rooms m; heap := <[h := r]> (heap m) |}.
Proof.
  intros Hu Hr h' r' Hh. simpl in Hh. apply lookup_insert_Some in Hh as [[_ <-]|[_ Hh]]; [done|by eapply Hu].
Qed.

Lemma turn_tracked (ids : list PeerId) (io : Io) (ev : control_event) (l : ControlLoop)
    (m m' : AudioRoomManager) (reg : gmap string PeerId) (comm : option Uuid) :
  turn_effect io ev l m reg comm m' →
  tracked ids (registered l) (stream_community l) m →
  keeps ids (io_meanwhile io) → keeps_rooms (io_meanwhile io) →
  (∀ c pk v, message ev = Some (RegisterPeer c pk v) → registered l !! pk = None) →
  tracked ids reg comm m'.
Proof.
  intros Ht Hm Hk Hkr Hnew.
  destruct Ht as [|c pk v Hev Hl|c pk v m1 h1 Hev Hl Hm1|c pk v m1 h1 r r' reg reply Hev Hl Hdr Hval Hm1 Hr Hreg|pk id1 m' Hev Hid1 ->].
  - done.
  - by apply latch_tracked.
  - apply others_tracked; [|done]. eapply created_tracked; [|done]. by apply latch_tracked.
  - assert (tracked ids (registered l) (Some c) (io_meanwhile io m1)) as [Hu Ht].
    { apply others_tracked; [|done]. eapply created_tracked; [|done]. by apply latch_tracked. }
    assert (get (io_meanwhile io m1) c (session_id fenced) = Some h1) as Hget.
    { apply Hkr. by apply get_or_create_get in Hm1. }
    apply dom_register in Hreg as [Hp [[Hd ->]|[Hd ->]]].
    + split; [by apply insert_unpoisoned; [|eapply Hp, Hu]|].
      intros h id Hin Hh. apply holds_insert in Hh as [[-> Hh]|[Hne Hh]].
      * split; [done|]. rewrite Hd in Hh. apply elem_of_union in Hh as [Hh|Hh].
        { apply elem_of_singleton in Hh as ->. exists pk. apply lookup_insert_eq. }
        destruct (Ht h1 id Hin) as [_ [pk' Hpk']]; [by exists r|]. exists pk'.
        rewrite lookup_insert_ne; [done|]. intros <-. by rewrite (Hnew c pk v Hev) in Hpk'.
      * destruct (Ht h id Hin Hh) as [Hr' _]. simpl in Hr'. congruence.
    + split; [by apply insert_unpoisoned; [|eapply Hp, Hu]|].
      intros h id Hin Hh. apply (holds_insert_same _ _ _ _ _ _ Hr Hd) in Hh. by apply Ht.
  - destruct Hm as [Hu Ht]. unfold stream_room. fold (room_of m (stream_community l)).
    destruct (room_of m (stream_community l)) as [h1|] eqn:Hh1.
    + unfold with_room. destruct (heap m !! h1) as [r|] eqn:Hr.
      2: { split; [done|]. intros h id Hin Hh. destruct (Ht h id Hin Hh) as [Hr' [pk' Hpk']].
           destruct Hh as (r & Hr'' & _). simpl in Hr''. congruence. }
      split; [by apply insert_unpoisoned; [|eapply drop_remote_peer_unpoisoned, Hu]|].
      intros h id Hin Hh. apply holds_insert in Hh as [[-> Hh]|[Hne Hh]].
      * rewrite dom_drop_remote_peer in Hh by (by eapply Hu). apply elem_of_difference in Hh as [Hh Hne].
        destruct (Ht h1 id Hin) as [Hr' [pk' Hpk']]; [by exists r|]. split; [done|]. exists pk'.
        rewrite lookup_delete_ne; [done|]. intros <-. set_solver.
      * destruct (Ht h id Hin Hh) as [Hr' _]. congruence.
    + split; [done|]. intros h id Hin Hh. destruct (Ht h id Hin Hh) as [Hr' _]. congruence.
Qed.

Lemma teardown_removes (ids : list PeerId) (l : ControlLoop) (m : AudioRoomManager) (h : N) (id : PeerId) :
  tracked ids (registered l) (stream_community l) m → id ∈ ids → ¬ holds (teardown fenced l m) h id.
Proof.
  intros [Hu Ht] Hin Hh. unfold teardown, stream_room in Hh.
  fold (room_of m (stream_community l)) in Hh.
  destruct (room_of m (stream_community l)) as [h1|] eqn:Hh1.
  2: { destruct (Ht h id Hin Hh) as [Hr _]. congruence. }
  unfold with_room in Hh. destruct (heap m !! h1) as [r|] eqn:Hr; cbn [fst] in Hh.
  2: { destruct (Ht h id Hin Hh) as [Hr' _]. destruct Hh as (r & ? & _). congruence. }
  apply holds_insert in Hh as [[-> Hh]|[Hne Hh]].
  - destruct (dom_drop_all (map_to_list (registered l)).*2 r) as [_ Hd]; [by eapply Hu|].
    rewrite Hd in Hh. apply elem_of_difference in Hh as [Hh Hnot].
    destruct (Ht h1 id Hin) as [_ [pk Hpk]]; [by exists r|]. destruct Hnot.
    apply elem_of_list_to_set, list_elem_of_fmap. exists (pk, id). split; [done|].
    by apply elem_of_map_to_list.
  - destruct (Ht h id Hin Hh) as [Hr' _]. congruence.
Qed.

(** A turn leaves the function without the teardown only by a relay that cannot be sent. *)
Definition relay_failed (x : LoopTurn) : Prop :=
  (∃ e, io_send (lt_io x) = Err e) ∧
  (lt_event x = RosterEvent ∨ message (lt_event x) = Some RosterResync).

Lemma send_control_return (io : Io) (msg : HuddleControlMsg) (escape : bool) (l : ControlLoop)
    (m : AudioRoomManager) (e : MeshError) :
  t_flow (send_control io fenced msg escape l m) = Return e →
  escape = true ∧ io_send io = Err e.
Proof.
  unfold send_control. destruct (encoded msg) as (p & -> & _).
  destruct (io_send io); [done|]. destruct escape; [|done]. intros Hr. by simplify_eq/=.
Qed.

Lemma return_relay (x : LoopTurn) (l : ControlLoop) (m : AudioRoomManager) (e : MeshError) :
  t_flow (control_turn (lt_io x) local_runtime_id fenced (lt_event x) l m) = Return e →
  relay_failed x.
Proof.
  unfold relay_failed. destruct x as [o io ev]. cbn [lt_io lt_event].
  destruct ev as [| | | |f]; try done; cbn [control_turn].
  - unfold on_roster_event. repeat case_match; try done;
      intros [_ Hs]%send_control_return; eauto.
  - unfold on_frame. destruct f as [[[hl|f payload|f reason|g]|]|e']; try done.
    destruct (decide (f ≠ fenced)) as [|Hf]; [done|]. apply dec_stable in Hf as ->.
    destruct (decode_control payload) as [msg|e'] eqn:Hdec; [|done].
    assert (message (Frame (Ok (Some (Data fenced payload)))) = Some msg) as ->.
    { simpl. by rewrite decide_True, Hdec. }
    destruct msg as [c pk v| | | | | |pk]; try done; cbn [on_msg].
    + unfold on_register. repeat (case_match; try done); simplify_eq/=.
      all: intros Hr; rewrite ?Hr in *; try done.
      all: apply send_control_return in Hr as [? _]; done.
    + unfold on_resync. case_match; [|done]. intros [_ Hs]%send_control_return; eauto.
    + unfold on_unregister. repeat case_match; done.
Qed.

(** The keys that a run registers *)
Definition registers (evs : list LoopTurn) : list string :=
  omap (λ x, match message (lt_event x) with Some (RegisterPeer _ pk _) => Some pk | _ => None end) evs.

Definition peer_ids (evs : list LoopTurn) : list PeerId := (λ x, io_peer_id (lt_io x)) <$> evs.

Definition well_behaved (ids : list PeerId) (x : LoopTurn) : Prop :=
  keeps ids (lt_others x) ∧ keeps ids (io_meanwhile (lt_io x)) ∧ keeps_rooms (io_meanwhile (lt_io x)).

(** A turn registers its own key or none. *)
Lemma turn_registered (x : LoopTurn) (io : Io) (l : ControlLoop) (m m' : AudioRoomManager)
    (reg : gmap string PeerId) (comm : option Uuid) (pk : string) :
  turn_effect io (lt_event x) l m reg comm m' → registered l !! pk = None →
  pk ∉ registers [x] → reg !! pk = None.
Proof.
  intros Ht Hpk Hx. destruct Ht as [| | |c pk' v m1 h r r' reg reply Hev _ _ _ _ _ Hreg|]; try done.
  - apply dom_register in Hreg as [_ [[_ ->]|[_ ->]]]; [|done].
    unfold registers in Hx. simpl in Hx. rewrite Hev in Hx. rewrite lookup_insert_ne; [done|set_solver].
  - apply lookup_delete_None. by right.
Qed.

Lemma loop_leaves_no_peer (ids : list PeerId) (evs : list LoopTurn) (l : ControlLoop)
    (m : AudioRoomManager) :
  tracked ids (registered l) (stream_community l) m →
  Forall (well_behaved ids) evs → NoDup (registers evs) →
  (∀ pk, pk ∈ registers evs → registered l !! pk = None) →
  match serve_control_loop local_runtime_id fenced evs l m with
  | (l', m', _, None) => tracked ids (registered l') (stream_community l') m'
  | (_, m', _, Some _) =>
      (∀ h id, id ∈ ids → ¬ holds m' h id) ∨ ∃ x, x ∈ evs ∧ relay_failed x
  end.
Proof.
  revert l m. induction evs as [|x evs IH]; intros l m Ht Hw Hnd Hnew; [done|].
  apply Forall_cons in Hw as [(Ho & Hk & Hkr) Hw]. cbn [serve_control_loop].
  change (registers (x :: evs)) with (registers ([x] ++ evs)) in Hnd, Hnew.
  unfold registers in Hnd, Hnew. rewrite omap_app in Hnd, Hnew.
  fold (registers [x]) in Hnd, Hnew. fold (registers evs) in Hnd, Hnew.
  apply NoDup_app in Hnd as (_ & Hdis & Hnd).
  set (t := control_turn (lt_io x) local_runtime_id fenced (lt_event x) l (lt_others x m)).
  pose proof (turn_has_effect (lt_io x) (lt_event x) l (lt_others x m)) as Heff. fold t in Heff.
  assert (tracked ids (registered (t_loop t)) (stream_community (t_loop t)) (t_rooms t)) as Ht'.
  { eapply turn_tracked; [done|by apply others_tracked|done|done|]. intros c pk v Hev. apply Hnew.
    apply elem_of_app. left. unfold registers. simpl. rewrite Hev. set_solver. }
  destruct (t_flow t) as [|r reason|e] eqn:Hflow.
  - specialize (IH (t_loop t) (t_rooms t) Ht' Hw Hnd).
    destruct (serve_control_loop local_runtime_id fenced evs (t_loop t) (t_rooms t))
      as [[[l' m'] sent] [res|]].
    + destruct IH as [IH|(y & Hy & Hf)]; [|by left|right; exists y; set_solver].
      intros pk Hpk. eapply turn_registered; [done|apply Hnew; set_solver|set_solver].
    + apply IH. intros pk Hpk. eapply turn_registered; [done|apply Hnew; set_solver|set_solver].
  - left. intros h id Hin. by eapply teardown_removes.
  - right. exists x. split; [set_solver|]. by eapply return_relay.
Qed.

(** A stream that ends leaves none of its peers behind. Whatever messages it carried, as
    long as no key is registered twice and the others leave its peers (and, while a lease is
    checked, its room) alone: when the owner's loop ends, by the end of the stream, a protocol
    violation, the loss of the lease or a drain, no room holds a peer that the stream
    registered. The only exception is a roster update that could not be sent. *)
Theorem stream_leaves_no_peer (evs : list LoopTurn) (m m' : AudioRoomManager) (l' : ControlLoop)
    (sent : list MeshStreamFrame) (res : result unit MeshError) :
  let ids := peer_ids evs in
  unpoisoned m → (∀ h id, id ∈ ids → ¬ holds m h id) →
  Forall (well_behaved ids) evs → NoDup (registers evs) →
  serve_control_loop local_runtime_id fenced evs loop_new m = (l', m', sent, Some res) →
  (∀ h id, id ∈ ids → ¬ holds m' h id) ∨ ∃ x, x ∈ evs ∧ relay_failed x.
Proof.
  intros ids Hu Hnone Hw Hnd Hrun.
  pose proof (loop_leaves_no_peer ids evs loop_new m) as Hloop. rewrite Hrun in Hloop.
  apply Hloop; [|done|done|done]. split; [done|]. intros h id Hin Hh. by destruct (Hnone h id Hin).
Qed.

(** The state after a key was registered again *)
Lemma re_registered (io : Io) (ev : control_event) (l : ControlLoop) (m m' : AudioRoomManager)
    (reg : gmap string PeerId) (comm : option Uuid) (c : Uuid) (pk : string) (id id' : PeerId)
    (v : Z) (h : N) (r : Room) :
  turn_effect io ev l m reg comm m' → message ev = Some (RegisterPeer c pk v) →
  registered l = {[pk := id]} → stream_community l = Some c →
  get m c (session_id fenced) = Some h → heap m !! h = Some r → id ∈ dom (peers r) →
  poisoned r = false → reg !! pk = Some id' → id' ≠ id → io_meanwhile io = (λ m, m) →
  ∃ r', id' = io_peer_id io ∧ reg = {[pk := io_peer_id io]} ∧ comm = Some c ∧
    get m' c (session_id fenced) = Some h ∧ heap m' !! h = Some r' ∧ id ∈ dom (peers r') ∧
    poisoned r' = false.
Proof.
  intros Ht Hev Hreg Hc Hget Hh Hid Hp Hid' Hne Hmw.
  destruct Ht as [| | |c1 pk1 v1 m1 h1 r1 r' reg reply Hev1 Hl Hdr Hval Hm1 Hr Hreg1|pk1 ? m' Hev1];
    try (rewrite Hreg, lookup_singleton_eq in Hid'; congruence).
  - rewrite Hev in Hev1. simplify_eq. unfold get_or_create, get in *. rewrite Hget in Hm1. simplify_eq.
    rewrite Hmw in Hr |- *. rewrite Hh in Hr. simplify_eq.
    apply dom_register in Hreg1 as [Hp' [[Hd ->]|[Hd ->]]];
      [|rewrite Hreg, lookup_singleton_eq in Hid'; congruence].
    rewrite lookup_insert_eq in Hid'. exists r'. rewrite Hreg, insert_singleton_eq. simpl. rewrite lookup_insert_eq.
    split_and!; try done; [congruence|set_solver|auto].
  - rewrite Hev in Hev1. done.
Qed.

(** The exception leaks, and so does a key that is registered twice. From a state in which
    a stream has one registered peer in its room: when a roster update cannot be sent, the
    loop returns past its teardown and the peer stays in the room; and when the same key is
    registered again, the stream forgets the first peer, which stays in the room although the
    stream then ends in good order and its second peer is removed. *)
Theorem ends_that_leak (l : ControlLoop) (m : AudioRoomManager) (h : N) (r : Room) (c : Uuid)
    (pk : string) (id : PeerId) :
  registered l = {[pk := id]} → stream_community l = Some c →
  get m c (session_id fenced) = Some h → heap m !! h = Some r → id ∈ dom (peers r) →
  poisoned r = false →
  (∀ x err pos pos' d, lt_event x = RosterEvent → lt_others x = (λ m, m) →
     io_send (lt_io x) = Err err → roster_rx l = Some (h, pos) →
     roster_recv (roster_tx r) pos = Some (pos', Got d) →
     let '(_, m', _, res) := serve_control_loop local_runtime_id fenced [x] l m in
     res = Some (Err err) ∧ holds m' h id) ∧
  (∀ x fin v, message (lt_event x) = Some (RegisterPeer c pk v) → lt_others x = (λ m, m) →
     io_meanwhile (lt_io x) = (λ m, m) → lt_others fin = (λ m, m) →
     lt_event fin = Frame (Ok None) →
     let id' := io_peer_id (lt_io x) in
     let t := control_turn (lt_io x) local_runtime_id fenced (lt_event x) l m in
     t_flow t = Continue → registered (t_loop t) !! pk = Some id' → id' ≠ id →
     let '(_, m', _, res) := serve_control_loop local_runtime_id fenced [x; fin] l m in
     res = Some (Ok tt) ∧ holds m' h id ∧ ¬ holds m' h id').
Proof.
  intros Hreg Hc Hget Hh Hid Hp. split.
  - intros x err pos pos' d Hev Hot Hio Hrx Hrecv. cbn [serve_control_loop]. rewrite Hot, Hev.
    cbn [control_turn]. unfold on_roster_event. rewrite Hrx, Hh. cbn [mbind option_bind]. rewrite Hrecv.
    destruct (encoded (roster_delta_msg d)) as (p & Hpay & _). unfold send_control. rewrite Hpay, Hio.
    cbn [t_flow t_loop t_rooms t_sent turn]. split; [done|]. by exists r.
  - intros x fin v Hev Hot Hmw Hot' Hfin id' t Hflow Hid' Hne. cbn [serve_control_loop].
    rewrite Hot. fold t. rewrite Hflow, Hot', Hfin. cbn [control_turn on_frame turn t_flow t_loop t_rooms].
    split; [done|]. pose proof (turn_has_effect (lt_io x) (lt_event x) l m) as Heff. fold t in Heff.
    destruct (re_registered _ _ _ _ _ _ _ c pk id id' v h r Heff Hev Hreg Hc Hget Hh Hid Hp Hid' Hne Hmw)
      as (r' & -> & Hregs & Hcomm & Hget' & Hr' & Hin & Hp').
    unfold teardown, stream_room. rewrite Hregs, Hcomm. cbn [mbind option_bind]. rewrite Hget'.
    unfold with_room. rewrite Hr'. cbn [fst]. rewrite map_to_list_singleton. cbn [fmap list_fmap snd foldl].
    rewrite !holds_insert, dom_drop_remote_peer by done. set_solver.
Qed.

Lemma turn_message (io : Io) (ev : control_event) (msg : HuddleControlMsg) (l : ControlLoop)
    (m : AudioRoomManager) :
  message ev = Some msg → control_turn io local_runtime_id fenced ev l m = on_msg io fenced msg l m.
Proof.
  destruct ev as [| | | |[[[hl|f payload|f reason|g]|]|e]]; try done. simpl.
  case_decide as Hf; [|done]. subst f. rewrite decide_False by (intros Hne; by apply Hne).
  destruct (decode_control payload); [|done]. by intros [= ->].
Qed.

(** The first turn of a stream whose registration the fence refuses *)
Lemma rejected_turn (x : LoopTurn) (m : AudioRoomManager) (c : Uuid) (pk : string) (v : Z)
    (e : MeshError) (reason : FenceRejection) :
  message (lt_event x) = Some (RegisterPeer c pk v) → io_meanwhile (lt_io x) = (λ m, m) →
  io_draining (lt_io x) = false → io_send (lt_io x) = Ok tt → io_validate (lt_io x) = Err e →
  from_mesh_error e = Some reason →
  ∃ l p, control_turn (lt_io x) local_runtime_id fenced (lt_event x) loop_new m =
      {| t_loop := l; t_rooms := (get_or_create m c (session_id fenced)).1;
         t_sent := [Data fenced p]; t_flow := Continue |} ∧
    registered l = ∅ ∧ stream_community l = Some c.
Proof.
  intros Hev Hmw Hdr Hsend Hval Hre. rewrite (turn_message _ _ _ _ _ Hev). cbn [on_msg].
  unfold on_register. cbn [loop_new stream_community is_some_and]. rewrite Hdr.
  destruct (get_or_create m c (session_id fenced)) as [m1 h]. rewrite Hval, Hre, Hmw. cbn zeta beta iota.
  unfold send_control. destruct (encoded (RegisterRejected pk (RejFenced reason))) as (p & -> & _).
  rewrite Hsend. cbn [t_flow t_sent]. by do 2 eexists.
Qed.

(** The room is made before the lease is checked. A registration that the fence refuses,
    for a community that has no room, leaves an empty room of that community behind, also
    after the stream has ended; and when the session has a room in another community, its
    media are no longer delivered to anyone. *)
Theorem rejected_registration_leaves_room (x fin : LoopTurn) (m : AudioRoomManager)
    (c c' : CommunityId) (h' : N) (pk : string) (v : Z) (e : MeshError) (reason : FenceRejection) :
  message (lt_event x) = Some (RegisterPeer c pk v) → lt_others x = (λ m, m) →
  io_meanwhile (lt_io x) = (λ m, m) → io_draining (lt_io x) = false →
  io_send (lt_io x) = Ok tt →
  io_validate (lt_io x) = Err e → from_mesh_error e = Some reason →
  lt_others fin = (λ m, m) → lt_event fin = Frame (Ok None) →
  get m c (session_id fenced) = None → get m c' (session_id fenced) = Some h' →
  let '(_, m', _, res) := serve_control_loop local_runtime_id fenced [x; fin] loop_new m in
  res = Some (Ok tt) ∧
  (∃ h, get m' c (session_id fenced) = Some h ∧
     heap m' !! h = Some (room_new c (session_id fenced))) ∧
  get_unambiguous_by_channel m' (session_id fenced) = None ∧
  ∀ d, session_id (dg_fenced d) = session_id fenced → deliver_media m' d = m'.
Proof.
  intros Hev Hot Hmw Hdr Hsend Hval Hre Hot' Hfin Hnone Hsome.
  set (m1 := (get_or_create m c (session_id fenced)).1).
  assert (∃ h, get m1 c (session_id fenced) = Some h ∧
    heap m1 !! h = Some (room_new c (session_id fenced)) ∧ get m1 c' (session_id fenced) = Some h')
    as (h & Hg & Hr & Hg').
  { unfold m1, get_or_create, get in *. rewrite Hnone. eexists. simpl.
    rewrite !lookup_insert_eq, lookup_insert_ne by congruence. done. }
  assert (get_unambiguous_by_channel m1 (session_id fenced) = None) as Hun.
  { destruct (get_unambiguous_by_channel m1 (session_id fenced)) as [h2|] eqn:Hu; [|done].
    apply get_unambiguous_spec in Hu as (c2 & _ & Huniq).
    assert (c = c2) by (apply Huniq; by eexists). assert (c' = c2) by (apply Huniq; by eexists).
    subst. congruence. }
  destruct (rejected_turn x m c pk v e reason Hev Hmw Hdr Hsend Hval Hre) as (l1 & p & Ht & Hreg & Hc).
  cbn [serve_control_loop]. rewrite Hot, Ht. fold m1. cbn [t_flow t_loop t_rooms t_sent].
  rewrite Hot', Hfin. cbn [control_turn on_frame turn t_flow t_loop t_rooms].
  assert (teardown fenced l1 m1 = m1) as ->.
  { unfold teardown, stream_room. rewrite Hc, Hreg. cbn [mbind option_bind]. rewrite Hg.
    unfold with_room. rewrite Hr. cbn. rewrite insert_id by done. by destruct m1. }
  split_and!; [done|by exists h|done|]. intros d Hd. unfold deliver_media. by rewrite Hd, Hun.
Qed.
End rooms.

(** ** Witnesses *)

Module Sample.

(** A codec for the control messages: one byte-sized code word, from a countable encoding *)
#[local] Instance entry_eq_dec : EqDecision RosterEntry.
Proof. solve_decision. Defined.
#[local] Instance state_eq_dec : EqDecision RosterState.
Proof. solve_decision. Defined.
#[local] Instance fence_rejection_eq_dec : EqDecision FenceRejection.
Proof. solve_decision. Defined.
#[local] Instance rejection_eq_dec : EqDecision RegisterRejection.
Proof. solve_decision. Defined.
#[local] Instance msg_eq_dec : EqDecision HuddleControlMsg.
Proof. solve_decision. Defined.

#[local] Instance entry_countable : Countable RosterEntry.
Proof.
  refine (inj_countable' (λ p, (re_pubkey p, re_index p, re_epoch p))
    (λ x, {| re_pubkey := x.1.1; re_index := x.1.2; re_epoch := x.2 |}) _). by intros [].
Defined.

#[local] Instance state_countable : Countable RosterState.
Proof.
  refine (inj_countable' (λ s, (rs_revision s, rs_peers s))
    (λ x, {| rs_revision := x.1; rs_peers := x.2 |}) _). by intros [].
Defined.

#[local] Instance rejection_countable : Countable RegisterRejection.
Proof.
  refine (inj_countable'
    (λ r, match r with
          | RoomFull => (0, 0%Z, 0%Z) | RoomEnded => (1, 0%Z, 0%Z)
          | RejVersionMismatch a b => (2, a, b)
          | RejFenced RejStaleGeneration => (3, 0%Z, 0%Z)
          | RejFenced RejNoActiveLease => (4, 0%Z, 0%Z)
          | RejFenced RejOwnerMismatch => (5, 0%Z, 0%Z)
          | RejFenced RejFutureGeneration => (6, 0%Z, 0%Z)
          end)
    (λ x, match x.1.1 with
          | 0 => RoomFull | 1 => RoomEnded | 2 => RejVersionMismatch x.1.2 x.2
          | 3 => RejFenced RejStaleGeneration | 4 => RejFenced RejNoActiveLease
          | 5 => RejFenced RejOwnerMismatch | _ => RejFenced RejFutureGeneration
          end) _). by intros [| | |[]].
Defined.

#[local] Instance msg_countable : Countable HuddleControlMsg.
Proof.
  refine (inj_countable'
    (λ m, match m with
          | RegisterPeer c pk v => inl (inl (inl (c, pk, v)))
          | PeerRegistered pk i e s => inl (inl (inr (pk, i, e, s)))
          | RosterSnapshotMsg s => inl (inr (inl s))
          | RosterDeltaMsg r a b => inl (inr (inr (r, a, b)))
          | RosterResync => inr (inl (inl ()))
          | RegisterRejected pk r => inr (inl (inr (pk, r)))
          | UnregisterPeer pk => inr (inr pk)
          end)
    (λ x, match x with
          | inl (inl (inl y)) => RegisterPeer y.1.1 y.1.2 y.2
          | inl (inl (inr y)) => PeerRegistered y.1.1.1 y.1.1.2 y.1.2 y.2
          | inl (inr (inl s)) => RosterSnapshotMsg s
          | inl (inr (inr y)) => RosterDeltaMsg y.1.1 y.1.2 y.2
          | inr (inl (inl _)) => RosterResync
          | inr (inl (inr y)) => RegisterRejected y.1 y.2
          | inr (inr pk) => UnregisterPeer pk
          end) _). by intros [].
Defined.

#[local] Instance text : ControlText := λ j,
  match j with JoinedJson _ _ _ => "joined" | LeftJson _ _ => "left" | RosterJson _ _ => "roster" end.

#[local] Instance codec : Serialize HuddleControlMsg := {
  to_extend m buf := Ok (buf ++ [Z.pos (countable.encode m)]);
  from_bytes b :=
    match b with
    | [Z.pos p] => match countable.decode p with Some m => Ok m | None => Err "unknown" end
    | _ => Err "length"
    end
}.

#[local] Instance codec_laws : ControlLaws.
Proof. intros m. eexists. split; [done|]. simpl. by rewrite countable.decode_encode. Qed.

Definition fenced : FencedHeader := {| session_id := 20; generation := 4; owner_runtime_id := 1 |}.

Definition io (id : PeerId) (f : AudioRoomManager → AudioRoomManager) (v : result unit MeshError)
  : Io :=
  {| io_draining := false; io_validate := v; io_meanwhile := f; io_peer_id := id; io_send := Ok tt |}.

Definition said (msg : HuddleControlMsg) : control_event :=
  Frame (Ok (Some (Data fenced [Z.pos (countable.encode msg)]))).

Definition turn_of (i : Io) (ev : control_event) : LoopTurn :=
  {| lt_others := λ m, m; lt_io := i; lt_event := ev |}.

Abbreviation idle := (λ m : AudioRoomManager, m) (only parsing).
Abbreviation bob := (said (RegisterPeer 10 "bob" 3)) (only parsing).

(** Alice, on the owner's pod, is in the huddle. *)
Definition m0 : AudioRoomManager :=
  {| rooms := {[(10, 20) := 5]}%N; heap := {[5%N := run [AddPeer 1 "alice" 3] (room_new 10 20)]} |}.

(** Carol joins while the lease is checked. *)
Definition busy : Io :=
  io 7 (λ m, (with_room m 5 (λ r, (run [AddPeer 2 "carol" 3] r, tt))).1) (Ok tt).

Definition first : Turn := control_turn busy 1 fenced bob loop_new m0.

Definition session : RemoteHuddleSession :=
  match dial_remote_owner 1 fenced 10 "bob" 3 (Ok tt) (Ok tt) (Ok (head (t_sent first))) with
  | Ok s => s
  | Err _ => {| r_peer_index := 0; r_epoch := 0; r_protocol_version := 0;
                r_roster := {| rs_revision := 0; rs_peers := [] |}; r_fenced := fenced;
                r_owner := 0; r_pubkey := ""; r_seq := 0 |}
  end.

(** Alice leaves; the owner relays twice, Bob's pod reads twice, Carol leaves. *)
Definition evs : list link_event :=
  [InRoom (RemovePeer 1); OwnerRelays (io 8 idle (Ok tt)); OwnerRelays (io 8 idle (Ok tt));
   ClientReads; ClientReads; InRoom (RemovePeer 2)].

(** The state once Bob is registered, and Alice has left since *)
Definition registered_turn : Turn := control_turn (io 7 idle (Ok tt)) 1 fenced bob loop_new m0.

Definition m1 : AudioRoomManager :=
  (with_room (t_rooms registered_turn) 5 (λ r, (apply (RemovePeer 1) r, tt))).1.

Definition room1 : Room := default (room_new 0 0) (heap m1 !! 5%N).

Definition failing : Io :=
  {| io_draining := false; io_validate := Ok tt; io_meanwhile := idle; io_peer_id := 8;
     io_send := Err (Transport "stream closed") |}.

Lemma m0_room (h : N) (r : Room) :
  heap m0 !! h = Some r → r = run [AddPeer 1 "alice" 3] (room_new 10 20).
Proof. unfold m0. cbn [heap]. rewrite lookup_singleton_Some. by intros [_ <-]. Qed.

End Sample.

#[local] Existing Instances Sample.text Sample.codec Sample.codec_laws.

Lemma roster_in_step_witness :
  let k := link_run 1 Sample.fenced 5 Sample.evs (link_of Sample.first Sample.session) in
  ∃ r v n, heap (k_rooms k) !! 5%N = Some r ∧ k_up k = [] ∧
    k_revision k = Z.of_nat v ∧ v ≤ length (roster_tx r) ∧
    hear_all (roster_of Sample.session) (k_told k) = roster_at r v ∧
    let k' := link_run 1 Sample.fenced 5
                (replicate (length (roster_tx r)) (OwnerRelays (Sample.io 8 (λ m, m) (Ok tt))) ++
                 replicate n ClientReads) k in
    heap (k_rooms k') !! 5%N = Some r ∧
    hear_all (roster_of Sample.session) (k_told k') = entries_by_index (rs_peers (roster_state r)).
Proof.
  apply (roster_in_step 1 Sample.fenced 5 Sample.m0 10 [AddPeer 1 "alice" 3] [AddPeer 2 "carol" 3]
    Sample.busy _ [Z.pos (countable.encode (RegisterPeer 10 "bob" 3))] "bob" 3 1); try reflexivity.
  - split; [|split]; vm_compute; done.
  - cbn [Sample.evs link_events_ok]. repeat split; intros ??; exact I.
Defined.

Lemma control_turn_fenced_witness :
  let t := control_turn (Sample.io 7 (λ m, m) (Ok tt)) 1 Sample.fenced Sample.bob loop_new Sample.m0 in
  holds (t_rooms t) 5 7 ∧ get (t_rooms t) 10 20 = Some 5%N ∧ registered (t_loop t) !! "bob" = Some 7%N.
Proof.
  assert (holds (t_rooms (control_turn (Sample.io 7 (λ m, m) (Ok tt)) 1 Sample.fenced Sample.bob
    loop_new Sample.m0)) 5 7) as Hh.
  { eexists. split; [vm_compute; reflexivity|]. apply elem_of_dom. by eexists. }
  split; [exact Hh|].
  destruct (control_turn_fenced 1 Sample.fenced (Sample.io 7 (λ m, m) (Ok tt)) Sample.bob loop_new
    Sample.m0 5 7 eq_refl) as [Henter _].
  destruct (Henter Hh) as (c & pk & v & Hev & _ & _ & _ & _ & _ & Hreg & Hget).
  - intros (r & Hr & Hin). vm_compute in Hr. injection Hr as <-. vm_compute in Hin. discriminate.
  - vm_compute in Hev. injection Hev as <- <- <-. by split.
Defined.

(** Bob registers and the owner is drained. *)
Lemma stream_leaves_no_peer_witness :
  let evs := [Sample.turn_of (Sample.io 7 (λ m, m) (Ok tt)) Sample.bob;
              Sample.turn_of (Sample.io 8 (λ m, m) (Ok tt)) DrainFired] in
  let '(_, m, _, _) := serve_control_loop 1 Sample.fenced evs loop_new Sample.m0 in
  ¬ holds m 5 7.
Proof.
  intros evs. destruct (serve_control_loop 1 Sample.fenced evs loop_new Sample.m0)
    as [[[l' m'] sent] [res|]] eqn:Hrun.
  - destruct (stream_leaves_no_peer 1 Sample.fenced evs Sample.m0 m' l' sent res) as [Hn|(x & Hx & Hf)].
    + intros h r Hr. apply Sample.m0_room in Hr as ->. reflexivity.
    + intros h id Hin (r & Hr & Hid). apply Sample.m0_room in Hr as ->.
      apply elem_of_dom in Hid as [p Hp].
      unfold peer_ids in Hin. simpl in Hin. set_unfold in Hin. by destruct Hin as [->|[->|[]]].
    + repeat apply Forall_cons_2; [..|by apply Forall_nil];
        (split; [intros m Hu; split; [exact Hu|done]|]); (split; [intros m Hu; split; [exact Hu|done]|]);
        intros m k h Hk; exact Hk.
    + vm_compute. apply NoDup_singleton.
    + exact Hrun.
    + apply Hn. set_solver.
    + exfalso. destruct Hf as [[e He] _]. set_unfold in Hx. by destruct Hx as [->|[->|[]]].
  - exfalso. revert Hrun. vm_compute. discriminate.
Defined.

Lemma ends_that_leak_witness :
  (let '(_, m, _, res) := serve_control_loop 1 Sample.fenced [Sample.turn_of Sample.failing RosterEvent]
      (t_loop Sample.registered_turn) Sample.m1 in
   res = Some (Err (Transport "stream closed")) ∧ holds m 5 7) ∧
  (let '(_, m, _, res) := serve_control_loop 1 Sample.fenced
      [Sample.turn_of (Sample.io 8 (λ m, m) (Ok tt)) Sample.bob;
       Sample.turn_of (Sample.io 9 (λ m, m) (Ok tt)) (Frame (Ok None))]
      (t_loop Sample.registered_turn) Sample.m1 in
   res = Some (Ok tt) ∧ holds m 5 7 ∧ ¬ holds m 5 8).
Proof.
  destruct (ends_that_leak 1 Sample.fenced (t_loop Sample.registered_turn) Sample.m1 5 Sample.room1 10
    "bob" 7) as [Hfail Hagain]; [vm_compute; reflexivity..| |vm_compute; reflexivity|].
  { apply elem_of_dom. eexists. vm_compute. reflexivity. }
  split.
  - eapply (Hfail (Sample.turn_of Sample.failing RosterEvent)); [reflexivity..| |];
      vm_compute; reflexivity.
  - eapply (Hagain (Sample.turn_of (Sample.io 8 (λ m, m) (Ok tt)) Sample.bob)
      (Sample.turn_of (Sample.io 9 (λ m, m) (Ok tt)) (Frame (Ok None))) 3%Z);
      [vm_compute; reflexivity|reflexivity..|vm_compute; reflexivity|vm_compute; reflexivity|done].
Defined.

(** A stream for the session names another community than the room's. *)
Lemma rejected_registration_leaves_room_witness :
  let '(_, m, _, res) := serve_control_loop 1 Sample.fenced
      [Sample.turn_of (Sample.io 7 (λ m, m) (Err (NoActiveLease 20 4 4 1)))
         (Sample.said (RegisterPeer 11 "eve" 3));
       Sample.turn_of (Sample.io 8 (λ m, m) (Ok tt)) (Frame (Ok None))] loop_new Sample.m0 in
  res = Some (Ok tt) ∧
  (∃ h, get m 11 20 = Some h ∧ heap m !! h = Some (room_new 11 20)) ∧
  get_unambiguous_by_channel m 20 = None ∧
  ∀ d, session_id (dg_fenced d) = 20%N → deliver_media m d = m.
Proof.
  apply (rejected_registration_leaves_room 1 Sample.fenced
    (Sample.turn_of (Sample.io 7 (λ m, m) (Err (NoActiveLease 20 4 4 1)))
      (Sample.said (RegisterPeer 11 "eve" 3)))
    (Sample.turn_of (Sample.io 8 (λ m, m) (Ok tt)) (Frame (Ok None)))
    Sample.m0 11 10 5 "eve" 3 (NoActiveLease 20 4 4 1) RejNoActiveLease);
    vm_compute; reflexivity.
Defined.
