(* ===== verification/GitManifest.v ===== *)
(** * The manifest of a hosted repository (buzz-relay/src/api/git/manifest.rs, manifest_event.rs)

    A manifest is the published state of a repository: its refs, its HEAD and the keys of
    the packs that hold its objects. This file has its validation, its canonical bytes, the
    key of the pointer that names it, and the ref-state event derived from it.

    [serde_json] on a manifest is the class [ManifestJson]. A [BTreeMap] is a [gmap] that is
    iterated in the byte order of its keys. Bytes are strings. *)

From S2P Require Import Prelude Text StdText Filter.

Open Scope string_scope.
Open Scope nat_scope.
Open Scope list_scope.

(** ** Data *)

Definition MANIFEST_VERSION : Z := 1.
Definition MAX_MANIFEST_PACKS : nat := 128.
Definition PACK_COMPACTION_THRESHOLD : nat := MAX_MANIFEST_PACKS * 3 / 4.
Definition MAX_MANIFEST_REFS : Z := 10000.

Record Manifest := {
  version : Z;
  head : string;
  refs : gmap string string;
  packs : list string;
  parent : option string
}.

#[export] Instance Manifest_eq_dec : EqDecision Manifest.
Proof. solve_decision. Defined.

Inductive ManifestError :=
  | Serde (e : string)
  | UnsupportedVersion (got expected : Z)
  | UnsafeRefName (name : string)
  | MalformedOid (refname oid : string)
  | EmptyHead
  | MalformedParent (p : string)
  | TooManyPacks (got max : nat)
  | TooManyRefs (got : nat) (max : Z)
  | MalformedPackKey (key : string).

(** [serde_json::to_vec] and [from_slice] on a manifest *)
Class ManifestJson := {
  to_vec : Manifest → result string string;
  from_slice : string → result Manifest string
}.

(** ** Validation *)

Definition safe_char (c : Ascii.ascii) : bool :=
  is_ascii_alphanumeric c || existsb (Ascii.eqb c) ["/"; "_"; "."; "-"]%char.

Definition is_safe_refname (s : string) : bool :=
  if negb (starts_with "refs/" s) then false
  else if contains ".." s || contains "//" s || starts_with "/" s || ends_with "/" s then false
  else chars_all safe_char s.

Definition is_hex_oid (s : string) : bool :=
  ((String.length s =? 40) || (String.length s =? 64)) && chars_all is_ascii_hexdigit s.

Definition is_manifest_digest (s : string) : bool :=
  (String.length s =? 64) && chars_all is_lower_hex s.

Definition is_pack_key (s : string) : bool :=
  is_some_and is_manifest_digest (strip_prefix "packs/" s).

Fixpoint check_refs (l : list (string * string)) : result unit ManifestError :=
  match l with
  | [] => Ok tt
  | (refname, oid) :: l =>
      guard! is_safe_refname refname else UnsafeRefName refname ;;
      guard! is_hex_oid oid else MalformedOid refname oid ;;
      check_refs l
  end.

Fixpoint check_packs (l : list string) : result unit ManifestError :=
  match l with
  | [] => Ok tt
  | pack :: l => guard! is_pack_key pack else MalformedPackKey pack ;; check_packs l
  end.

Definition validate (m : Manifest) : result unit ManifestError :=
  guard! length (packs m) <=? MAX_MANIFEST_PACKS
    else TooManyPacks (length (packs m)) MAX_MANIFEST_PACKS ;;
  guard! (Z.of_nat (size (refs m)) <=? MAX_MANIFEST_REFS)%Z
    else TooManyRefs (size (refs m)) MAX_MANIFEST_REFS ;;
  guard! negb (bool_decide (head m = "")) else EmptyHead ;;
  guard! is_safe_refname (head m) else UnsafeRefName (head m) ;;
  _ <-? check_refs (iter (refs m)) ;;
  _ <-? check_packs (packs m) ;;
  match parent m with
  | Some p => guard! is_manifest_digest p else MalformedParent p ;; Ok tt
  | None => Ok tt
  end.

(** ** Bytes *)

Section bytes.
Context `{ManifestJson}.

Definition canonical_bytes (m : Manifest) : result string ManifestError :=
  map_err Serde (to_vec {| version := version m; head := head m; refs := refs m;
                           packs := dedup (sort_strings (packs m)); parent := parent m |}).

Definition manifest_from_bytes (bytes : string) : result Manifest ManifestError :=
  m <-? map_err Serde (from_slice bytes) ;;
  guard! (version m =? MANIFEST_VERSION)%Z else UnsupportedVersion (version m) MANIFEST_VERSION ;;
  Ok m.

End bytes.

Definition pointer_key `{IdText} (community : CommunityId) (owner repo : string) : string :=
  let repo := default repo (strip_suffix ".git" repo) in
  "repos/" +:+ uuid_to_string community +:+ "/" +:+ owner +:+ "/" +:+ repo +:+ "/pointer".

(** ** The ref-state event (manifest_event.rs) *)

Definition is_emittable_ref (name : string) : bool :=
  if negb (starts_with "refs/heads/" name || starts_with "refs/tags/" name) then false
  else if starts_with "/" name || contains "//" name then false
  else chars_all (λ c, is_ascii_alphanumeric c || existsb (Ascii.eqb c) ["/"; "_"; "."; "-"]%char)
         name.

(** [is_valid_oid] of manifest_event.rs *)
Definition is_valid_oid : string → bool := is_hex_oid.

(** The tags of the event; [actor] is what the parsed pubkey prints, [None] when it does not
    parse. *)
Definition ref_state_tags (repo_id head : string) (refs : gmap string string)
    (actor : option string) : result (list (list string)) string :=
  match actor with
  | None => Err "invalid actor_pubkey_hex"
  | Some actor =>
      Ok ([["d"; repo_id]]
          ++ omap (λ '(name, oid),
               if is_emittable_ref name && is_valid_oid oid then Some [name; oid] else None)
               (iter refs)
          ++ (if negb (bool_decide (head = "")) && is_emittable_ref head
              then [["HEAD"; "ref: " +:+ head]] else [])
          ++ [["p"; actor]])
  end.

(** ** Lemmas *)

Lemma check_refs_ok (l : list (string * string)) :
  check_refs l = Ok tt ↔ Forall (λ kv, is_safe_refname kv.1 = true ∧ is_hex_oid kv.2 = true) l.
Proof.
  induction l as [|[r o] l IH]; [done|]. rewrite Forall_cons, <- IH. simpl.
  destruct (is_safe_refname r), (is_hex_oid o); naive_solver.
Qed.

Lemma check_packs_ok (l : list string) :
  check_packs l = Ok tt ↔ Forall (λ k, is_pack_key k = true) l.
Proof.
  induction l as [|k l IH]; [done|]. rewrite Forall_cons, <- IH. simpl.
  destruct (is_pack_key k); naive_solver.
Qed.

(** What a manifest must be to be written, in the words of its comment *)
Definition well_formed (m : Manifest) : Prop :=
  length (packs m) ≤ MAX_MANIFEST_PACKS ∧
  (Z.of_nat (size (refs m)) ≤ MAX_MANIFEST_REFS)%Z ∧
  head m ≠ "" ∧ is_safe_refname (head m) = true ∧
  (∀ r o, refs m !! r = Some o → is_safe_refname r = true ∧ is_hex_oid o = true) ∧
  (∀ k, k ∈ packs m → is_pack_key k = true) ∧
  (∀ p, parent m = Some p → is_manifest_digest p = true).

Lemma validate_ok (m : Manifest) : validate m = Ok tt ↔ well_formed m.
Proof.
  assert (Hrefs : (check_refs (iter (refs m)) = Ok tt) ↔
    ∀ r o, refs m !! r = Some o → is_safe_refname r = true ∧ is_hex_oid o = true).
  { rewrite check_refs_ok, Forall_forall. split.
    - intros H r o Hr. apply (H (r, o)). by apply elem_of_iter.
    - intros H [r o] Hr. apply (H r o). by apply elem_of_iter. }
  assert (Hpacks : (check_packs (packs m) = Ok tt) ↔ ∀ k, k ∈ packs m → is_pack_key k = true).
  { by rewrite check_packs_ok, Forall_forall. }
  unfold well_formed. rewrite <- Hrefs, <- Hpacks. unfold validate.
  destruct (Nat.leb_spec (length (packs m)) MAX_MANIFEST_PACKS); [|split; [done|lia]].
  destruct (Z.leb_spec (Z.of_nat (size (refs m))) MAX_MANIFEST_REFS); [|split; [done|lia]].
  destruct (decide (head m = "")) as [->|He]; [by split; [|intuition]|].
  rewrite bool_decide_eq_false_2 by done. simpl.
  destruct (is_safe_refname (head m)); [|by split; [|intuition]].
  destruct (check_refs (iter (refs m))) as [[]|]; [|by split; [|intuition]].
  destruct (check_packs (packs m)) as [[]|]; [|by split; [|intuition]].
  destruct (parent m) as [p|]; [|by split; [intros _; repeat split|]].
  destruct (is_manifest_digest p) eqn:Hp; split; try done.
  - intros _. repeat split; try done. by intros ? [= <-].
  - intros (_ & _ & _ & _ & _ & _ & Hpar). specialize (Hpar p eq_refl). congruence.
Qed.

(** ** A safe ref name stays inside the repository *)

Lemma contains_app (p x y : string) : contains p y = true → contains p (x +:+ y) = true.
Proof.
  induction x as [|a x IH]; [done|]. intros Hy. change (String a x +:+ y) with (String a (x +:+ y)).
  simpl. apply orb_true_iff. right. by apply IH.
Qed.

Lemma contains_prefix (p y : string) : contains p (p +:+ y) = true.
Proof.
  destruct (p +:+ y) as [|a s] eqn:Heq.
  - destruct p; [|done]. simpl in Heq. by subst.
  - simpl. rewrite <- Heq. unfold starts_with. rewrite strip_prefix_app.
    by rewrite bool_decide_eq_true_2 by by eexists.
Qed.

Lemma join_with_cons (c : Ascii.ascii) (w : string) (ws : list string) :
  ws ≠ [] → join_with c (w :: ws) = w +:+ String c (join_with c ws).
Proof. by destruct ws. Qed.

Lemma join_with_app (c : Ascii.ascii) (ws vs : list string) :
  ws ≠ [] → vs ≠ [] →
  join_with c (ws ++ vs) = join_with c ws +:+ String c (join_with c vs).
Proof.
  intros Hws Hvs. induction ws as [|w ws IH]; [done|]. destruct (decide (ws = [])) as [->|Hne].
  - by apply join_with_cons.
  - simpl app. rewrite (join_with_cons c w ws), (join_with_cons c w (ws ++ vs)), IH
      by (done || by destruct ws).
    by rewrite (string_app_assoc w (String c _)).
Qed.

(** What surrounds a word of a split text *)
Lemma split_on_elem (c : Ascii.ascii) (s w : string) :
  w ∈ split_on c s →
  ∃ x y, s = x +:+ w +:+ y ∧ (x = "" ∨ ∃ x', x = x' +:+ String c "")
         ∧ (y = "" ∨ ∃ y', y = String c y').
Proof.
  intros (l1 & l2 & Heq)%list_elem_of_split.
  assert (∃ y, join_with c (w :: l2) = w +:+ y ∧ (y = "" ∨ ∃ y', y = String c y')) as (y & Hy & Hy').
  { destruct l2 as [|v l2]; [exists ""; split; [symmetry; apply string_append_nil_r|by left]|].
    eexists. split; [by apply join_with_cons|]. right. by eexists. }
  rewrite <- (join_split c s), Heq. destruct (decide (l1 = [])) as [->|Hne].
  - exists "", y. split; [done|]. by split; [left|].
  - exists (join_with c l1 +:+ String c ""), y. rewrite join_with_app, Hy by done.
    split; [by rewrite string_app_assoc|]. split; [right; by eexists|done].
Qed.

Lemma chars_all_app (f : Ascii.ascii → bool) (x y : string) :
  chars_all f (x +:+ y) = chars_all f x && chars_all f y.
Proof.
  unfold chars_all. induction x as [|a x IH]; [done|].
  change (String a x +:+ y) with (String a (x +:+ y)). simpl. by rewrite IH, andb_assoc.
Qed.

Lemma strip_suffix_app (p s : string) : strip_suffix p (s +:+ p) = Some s.
Proof.
  unfold strip_suffix. rewrite string_rev_append, strip_prefix_app. simpl.
  by rewrite string_rev_involutive.
Qed.

Lemma strip_suffix_Some (p s r : string) : strip_suffix p s = Some r → s = r +:+ p.
Proof.
  unfold strip_suffix. intros Heq. apply fmap_Some in Heq as (x & Hx & ->).
  apply strip_prefix_Some in Hx.
  by rewrite <- (string_rev_involutive s), Hx, string_rev_append, string_rev_involutive.
Qed.

Lemma ends_with_app (p s : string) : ends_with p (s +:+ p) = true.
Proof. unfold ends_with. rewrite strip_suffix_app. by rewrite bool_decide_eq_true_2 by by eexists. Qed.

Lemma elem_of_chars_all (f : Ascii.ascii → bool) (c : Ascii.ascii) (w s : string) :
  chars_all f s = true → w ∈ split_on c s → chars_all f w = true.
Proof.
  intros Hs (x & y & -> & _)%split_on_elem. rewrite !chars_all_app in Hs. by bool_prop.
Qed.

Lemma safe_refname_chars (s : string) : is_safe_refname s = true → chars_all safe_char s = true.
Proof. unfold is_safe_refname. intros ?. by crush_match. Qed.

(** No accepted ref name leaves the repository when hydration joins it to the path of the
    repository: it splits into [refs] and at least one more component, none of which is
    empty or [..], and all its characters are letters, digits, [_], [.] or [-]. *)
Theorem refname_stays_inside (s : string) :
  is_safe_refname s = true →
  ∃ w ws, split_on "/" s = "refs" :: w :: ws ∧
    Forall (λ c, c ≠ "" ∧ c ≠ ".." ∧ chars_all safe_char c = true) ("refs" :: w :: ws).
Proof.
  intros Hs. pose proof (safe_refname_chars s Hs) as Hchars.
  unfold is_safe_refname in Hs. destruct (starts_with "refs/" s) eqn:Hpre; [|done]. simpl in Hs.
  destruct (_ || _) eqn:Hbad in Hs; [done|].
  apply orb_false_iff in Hbad as [[[Hdots Hslash]%orb_false_iff Hhead]%orb_false_iff Htail].
  unfold starts_with in Hpre. apply bool_decide_eq_true in Hpre as [r Hr].
  apply strip_prefix_Some in Hr.
  assert (split_on "/" s = "refs" :: split_on "/" r) as Hsplit.
  { subst s. exact (split_on_app "/" "refs" r eq_refl). }
  destruct (split_on "/" r) as [|w ws] eqn:Hw; [by destruct (split_on_not_nil "/" r)|].
  exists w, ws. split; [done|]. rewrite <- Hsplit. apply Forall_forall. intros c Hc.
  split; [|split; [|by eapply elem_of_chars_all]].
  - intros ->. apply split_on_elem in Hc as (x & y & Heq & Hx & Hy).
    destruct Hx as [->|[x' ->]].
    + destruct Hy as [->|[y' ->]]; [by subst|]. rewrite Heq in Hr. done.
    + destruct Hy as [->|[y' ->]].
      * rewrite Heq, string_append_nil_r, ends_with_app in Htail. done.
      * rewrite Heq, string_app_assoc in Hslash.
        change (contains "//" (x' +:+ "//" +:+ y') = false) in Hslash.
        by rewrite (contains_app "//" x' _ (contains_prefix "//" y')) in Hslash.
  - intros ->. apply split_on_elem in Hc as (x & y & Heq & _ & _). rewrite Heq in Hdots.
    by rewrite (contains_app ".." x _ (contains_prefix ".." y)) in Hdots.
Qed.

Lemma refname_stays_inside_witness :
  ∃ w ws, split_on "/" "refs/heads/a.b" = "refs" :: w :: ws ∧
    Forall (λ c, c ≠ "" ∧ c ≠ ".." ∧ chars_all safe_char c = true) ("refs" :: w :: ws).
Proof. apply refname_stays_inside. vm_compute. reflexivity. Defined.

(** ** Canonical bytes *)

Definition canonical (m : Manifest) : Manifest :=
  {| version := version m; head := head m; refs := refs m;
     packs := dedup (sort_strings (packs m)); parent := parent m |}.

(** What serde_json does on a manifest that passed validation: parsing is the inverse of
    printing. *)
Class ManifestLaws `{ManifestJson} := {
  from_to_vec (m : Manifest) (b : string) :
    validate m = Ok tt → version m = MANIFEST_VERSION → to_vec m = Ok b → from_slice b = Ok m
}.

Section canonical.
Context `{ManifestLaws}.

Lemma canonical_well_formed (m : Manifest) : well_formed m → well_formed (canonical m).
Proof.
  intros (Hp & Hr & He & Hh & Hrs & Hk & Hpar). unfold well_formed. simpl.
  split_and!; try done.
  - etrans; [|exact Hp].
    pose proof (merge_sort_Permutation String.le (packs m)) as Hperm.
    apply Permutation_length in Hperm. rewrite <- Hperm. apply dedup_length.
  - intros k Hin. apply Hk. by rewrite elem_of_sort_dedup in Hin.
Qed.

Lemma canonical_idemp (m : Manifest) : canonical (canonical m) = canonical m.
Proof. unfold canonical. simpl. by rewrite sort_dedup_idemp. Qed.

(** Manifests with equal fields and equal sets of packs have the same bytes. *)
Lemma canonical_bytes_pack_set (m m' : Manifest) :
  version m = version m' → head m = head m' → refs m = refs m' → parent m = parent m' →
  (∀ k, k ∈ packs m ↔ k ∈ packs m') → canonical_bytes m = canonical_bytes m'.
Proof.
  intros Hv Hh Hr Hp Hk. unfold canonical_bytes. rewrite Hv, Hh, Hr, Hp.
  by rewrite (sort_dedup_unique _ _ Hk).
Qed.

Lemma canonical_bytes_round (m : Manifest) (b : string) :
  validate m = Ok tt → version m = MANIFEST_VERSION → canonical_bytes m = Ok b →
  manifest_from_bytes b = Ok (canonical m) ∧ validate (canonical m) = Ok tt.
Proof.
  intros Hm Hv Hb. unfold canonical_bytes in Hb. fold (canonical m) in Hb.
  destruct (to_vec (canonical m)) as [b'|] eqn:Hto; [|done]. injection Hb as ->.
  assert (validate (canonical m) = Ok tt) as Hc
    by (apply validate_ok, canonical_well_formed, validate_ok, Hm).
  split; [|done]. unfold manifest_from_bytes.
  rewrite (from_to_vec (canonical m) b Hc Hv Hto). simpl. by rewrite Hv.
Qed.

(** The bytes of a manifest are a faithful, canonical name of the published state: reading
    the bytes of a valid manifest gives its canonical form, which is valid and has the same
    HEAD, refs, parent and set of packs; and two valid manifests have the same bytes exactly
    when they agree on HEAD, refs, parent and the set of packs, in whatever order and however
    often their lists name them. *)
Theorem canonical_bytes_canonical (m m' : Manifest) (b b' : string)
    (Hm : validate m = Ok tt) (Hm' : validate m' = Ok tt)
    (Hv : version m = MANIFEST_VERSION) (Hv' : version m' = MANIFEST_VERSION)
    (Hb : canonical_bytes m = Ok b) (Hb' : canonical_bytes m' = Ok b') :
  (∃ m1, manifest_from_bytes b = Ok m1 ∧ validate m1 = Ok tt ∧ canonical_bytes m1 = Ok b ∧
     head m1 = head m ∧ refs m1 = refs m ∧ parent m1 = parent m ∧
     StronglySorted String.le (packs m1) ∧ ∀ k, k ∈ packs m1 ↔ k ∈ packs m) ∧
  (b = b' ↔ head m = head m' ∧ refs m = refs m' ∧ parent m = parent m' ∧
     ∀ k, k ∈ packs m ↔ k ∈ packs m').
Proof.
  destruct (canonical_bytes_round m b Hm Hv Hb) as [Hr Hc].
  destruct (canonical_bytes_round m' b' Hm' Hv' Hb') as [Hr' _]. split.
  - exists (canonical m). split; [done|]. split; [done|]. split.
    { rewrite <- Hb. apply canonical_bytes_pack_set; try done. intros k. simpl.
      apply elem_of_sort_dedup. }
    repeat split; try done; try (by apply elem_of_sort_dedup).
    apply dedup_strongly_sorted, sort_strings_sorted.
  - split.
    + intros <-. rewrite Hr in Hr'. injection Hr' as _ Hh Hrf Hpk Hpa.
      repeat split; try done.
      * intros Hk. apply elem_of_sort_dedup. rewrite <- Hpk. by apply elem_of_sort_dedup.
      * intros Hk. apply elem_of_sort_dedup. rewrite Hpk. by apply elem_of_sort_dedup.
    + intros (Hh & Hrf & Hpa & Hpk).
      rewrite (canonical_bytes_pack_set m m') in Hb by (done || congruence). congruence.
Qed.

End canonical.

(** ** A toy instance of [serde_json] *)

Module Sample.

Definition fields (m : Manifest) : Z * string * list (string * string) * list string * option string :=
  (version m, head m, map_to_list (refs m), packs m, parent m).

Definition of_fields (f : Z * string * list (string * string) * list string * option string) : Manifest :=
  match f with
  | (v, h, r, p, o) => {| version := v; head := h; refs := list_to_map r; packs := p; parent := o |}
  end.

#[export] Instance json : ManifestJson := {|
  to_vec m := Ok (bits (countable.encode (fields m)));
  from_slice b := match unbits b ≫= countable.decode with
                  | Some f => Ok (of_fields f) | None => Err "not a manifest" end
|}.

#[export] Instance json_laws : ManifestLaws.
Proof.
  split. intros m b _ _ [= <-]. simpl. rewrite unbits_bits. simpl. rewrite countable.decode_encode.
  f_equal. destruct m as [v h r p o]. unfold of_fields. simpl. by rewrite list_to_map_to_list.
Qed.

Definition pack (c : string) : string := "packs/" +:+ String.concat "" (repeat c 64).

Definition manifest (packs : list string) : Manifest := {|
  version := 1; head := "refs/heads/main";
  refs := {["refs/heads/main" := String.concat "" (repeat "5" 40)]};
  packs := packs; parent := None |}.

Definition bytes (m : Manifest) : string := match canonical_bytes m with Ok b => b | Err _ => "" end.

End Sample.

Section witness.
#[local] Existing Instances Sample.json Sample.json_laws.

Lemma canonical_bytes_canonical_witness :
  Sample.bytes (Sample.manifest [Sample.pack "b"; Sample.pack "a"])
  = Sample.bytes (Sample.manifest [Sample.pack "a"; Sample.pack "b"; Sample.pack "a"]).
Proof.
  set (m := Sample.manifest [_; _]). set (m' := Sample.manifest [_; _; _]).
  destruct (canonical_bytes_canonical m m' (Sample.bytes m) (Sample.bytes m')) as [_ Hiff];
    [vm_compute; reflexivity..|].
  apply Hiff. split_and!; [reflexivity..|]. set_solver.
Defined.

End witness.
