(* ===== verification/GitWire.v ===== *)
(** * Git's smart-HTTP framing (buzz-relay/src/api/git/transport.rs)

    The pkt-line frames that the relay writes itself (the advertisement of a published
    manifest) and reads (the status report of receive-pack, with or without side-band). *)

From S2P Require Import Prelude Text StdText Filter GitManifest.

Open Scope string_scope.
Open Scope nat_scope.
Open Scope list_scope.

(** ** Slices and numbers *)

Fixpoint str_take (n : nat) (s : string) : string :=
  match n, s with S n, String a s => String a (str_take n s) | _, _ => "" end.

Fixpoint str_drop (n : nat) (s : string) : string :=
  match n, s with 0, s => s | S n, String _ s => str_drop n s | S _, EmptyString => "" end.

Definition hex_value (a : Ascii.ascii) : option Z :=
  let n := Z.of_N (code_of a) in
  if between 48 57 a then Some (n - 48)%Z
  else if between 65 70 a then Some (n - 55)%Z
  else if between 97 102 a then Some (n - 87)%Z else None.

Fixpoint parse_hex_digits (acc : Z) (s : string) : option Z :=
  match s with
  | EmptyString => Some acc
  | String a s => d ← hex_value a; parse_hex_digits (acc * 16 + d)%Z s
  end.

(** [usize::from_str_radix(_, 16)] on a text that cannot overflow *)
Definition from_str_radix_16 (s : string) : option Z :=
  match s with
  | EmptyString | String "+" EmptyString => None
  | String "+" s => parse_hex_digits 0 s
  | s => parse_hex_digits 0 s
  end.

Definition hex_char (n : Z) : Ascii.ascii :=
  Ascii.ascii_of_N (Z.to_N (if n <? 10 then 48 + n else 87 + n)%Z).

(** [format!("{len:04x}")] of a length below [2^16] *)
Definition hex4 (n : Z) : string :=
  String (hex_char (n / 4096 mod 16)) (String (hex_char (n / 256 mod 16))
    (String (hex_char (n / 16 mod 16)) (String (hex_char (n mod 16)) ""))).

Definition len (s : string) : Z := Z.of_nat (String.length s).

(** ** Writing *)

Definition PKT_LINE_MAX_PAYLOAD : Z := 0xffff - 4.

(** What [pkt_line] appends *)
Definition pkt_line (payload : string) : string :=
  if (PKT_LINE_MAX_PAYLOAD <? len payload)%Z then "0004"
  else hex4 (len payload + 4) +:+ payload.

(** ** Reading *)

(** [PktLineIter]: the payloads up to the first malformed or truncated frame. Every turn
    consumes at least four bytes, so the length of the buffer is fuel enough. *)
Fixpoint pkt_iter (fuel : nat) (buf : string) : list string :=
  match fuel with
  | 0 => []
  | S fuel =>
      if (len buf <? 4)%Z then []
      else
        let len_hex := str_take 4 buf in
        match (if is_utf8 len_hex then from_str_radix_16 len_hex else None) with
        | None => []
        | Some n =>
            if (n <? 4)%Z then pkt_iter fuel (str_drop 4 buf)
            else if (len buf <? n)%Z then []
            else str_drop 4 (str_take (Z.to_nat n) buf) :: pkt_iter fuel (str_drop (Z.to_nat n) buf)
        end
  end.

Definition pkt_lines (buf : string) : list string := pkt_iter (String.length buf) buf.

Definition payload_rejected (payload : string) : bool :=
  match payload with
  | String a rest =>
      if (code_of a =? 1)%N then existsb (starts_with "ng ") (pkt_lines rest)
      else if ((code_of a =? 2) || (code_of a =? 3))%N then false
      else starts_with "ng " payload
  | EmptyString => starts_with "ng " payload
  end.

Definition receive_pack_report_rejected (stdout : string) : bool :=
  existsb payload_rejected (pkt_lines stdout).

(** ** The advertisement of a manifest *)

Definition MAX_FAST_PATH_REFNAME_LEN : Z := 4096.

Definition fast_path_eligible (m : Manifest) : bool :=
  if existsb (starts_with "refs/tags/") (iter (refs m)).*1 then false
  else if bool_decide (refs m !! head m = None) then false
  else forallb (λ '(refname, oid),
         is_safe_refname refname && (len refname <=? MAX_FAST_PATH_REFNAME_LEN)%Z
         && is_hex_oid oid) (iter (refs m)).

Definition NUL : string := bytes_of [0%N].

Definition caps (head object_format : string) : string :=
  "multi_ack thin-pack side-band side-band-64k ofs-delta shallow deepen-since deepen-not "
  +:+ "deepen-relative no-progress include-tag multi_ack_detailed no-done symref=HEAD:"
  +:+ head +:+ " object-format=" +:+ object_format +:+ " agent=buzz-git".

Definition first_line (head_oid head : string) : string :=
  let object_format := if String.length head_oid =? 64 then "sha256" else "sha1" in
  head_oid +:+ " HEAD" +:+ NUL +:+ caps head object_format +:+ newline.

Definition ref_line (kv : string * string) : string := kv.2 +:+ " " +:+ kv.1 +:+ newline.

Definition service_line : string := "# service=git-upload-pack" +:+ newline.

(** [None]: the index [refs[head]] panics, which eligibility excludes. *)
Definition build_upload_pack_advertisement (m : Manifest) : option string :=
  head_oid ← refs m !! head m;
  Some (pkt_line service_line +:+ "0000" +:+ pkt_line (first_line head_oid (head m))
        +:+ foldr String.append "0000" (pkt_line ∘ ref_line <$> iter (refs m))).

(** ** Lemmas *)

Lemma length_app (x y : string) : String.length (x +:+ y) = String.length x + String.length y.
Proof. induction x as [|a x IH]; [done|]. exact (f_equal S IH). Qed.

Lemma str_take_app (x y : string) : str_take (String.length x) (x +:+ y) = x.
Proof. induction x as [|a x IH]; [by destruct y|]. exact (f_equal (String a) IH). Qed.

Lemma str_drop_app (x y : string) : str_drop (String.length x) (x +:+ y) = y.
Proof. induction x as [|a x IH]; [by destruct y|]. exact IH. Qed.

Lemma length_str_drop (n : nat) (s : string) : String.length (str_drop n s) = String.length s - n.
Proof. revert s. induction n as [|n IH]; intros [|a s]; try done. apply IH. Qed.

Lemma hex_char_cases (P : Z → Prop) :
  Forall P [0; 1; 2; 3; 4; 5; 6; 7; 8; 9; 10; 11; 12; 13; 14; 15]%Z →
  ∀ n, (0 ≤ n < 16)%Z → P n.
Proof.
  intros HP n Hn. rewrite Forall_forall in HP. apply HP.
  apply (proj2 (elem_of_seqZ 0 16 n)). lia.
Qed.

Lemma hex_value_char (n : Z) : (0 ≤ n < 16)%Z → hex_value (hex_char n) = Some n.
Proof. revert n. apply hex_char_cases. by repeat constructor. Qed.

Lemma hex_char_plain (n : Z) :
  (0 ≤ n < 16)%Z → between 0 127 (hex_char n) = true ∧ Ascii.eqb (hex_char n) "+" = false.
Proof. revert n. apply hex_char_cases. by repeat constructor. Qed.

Lemma hex4_utf8 (n : Z) : is_utf8 (hex4 n) = true.
Proof.
  unfold hex4.
  assert (∀ k, 0 ≤ k mod 16 < 16)%Z as Hm by (intros; by apply Z.mod_pos_bound).
  cbn [is_utf8]. by rewrite !(λ k, proj1 (hex_char_plain _ (Hm k))).
Qed.

Lemma from_str_radix_plain (a b : Ascii.ascii) (s : string) :
  Ascii.eqb a "+" = false →
  from_str_radix_16 (String a (String b s)) = parse_hex_digits 0 (String a (String b s)).
Proof.
  intros Ha. unfold from_str_radix_16. repeat (case_match; try done).
Qed.

Lemma hex4_radix (n : Z) : (0 ≤ n < 65536)%Z → from_str_radix_16 (hex4 n) = Some n.
Proof.
  intros Hn. unfold hex4.
  assert (∀ k, 0 ≤ k mod 16 < 16)%Z as Hm by (intros; by apply Z.mod_pos_bound).
  rewrite from_str_radix_plain by apply hex_char_plain, Hm.
  do 4 (cbn [parse_hex_digits]; rewrite hex_value_char by apply Hm; cbn [mbind option_bind]).
  cbn [parse_hex_digits]. f_equal.
  pose proof (Z.div_mod n 16 ltac:(lia)) as E0.
  pose proof (Z.div_mod (n / 16) 16 ltac:(lia)) as E1.
  pose proof (Z.div_mod (n / 256) 16 ltac:(lia)) as E2.
  rewrite !Z.div_div in E1, E2 by lia. change (16 * 16)%Z with 256%Z in *.
  change (256 * 16)%Z with 4096%Z in *.
  assert (n / 4096 mod 16 = n / 4096)%Z as ->
    by (apply Z.mod_small; split; [apply Z.div_pos|apply Z.div_lt_upper_bound]; lia).
  lia.
Qed.

Lemma pkt_iter_nil (fuel : nat) : pkt_iter fuel "" = [].
Proof. by destruct fuel. Qed.

(** One frame, at any sufficient fuel *)
Lemma pkt_iter_frame (fuel : nat) (n : Z) (payload rest : string) :
  (4 ≤ n < 65536)%Z → n = (len payload + 4)%Z →
  pkt_iter (S fuel) (hex4 n +:+ payload +:+ rest) = payload :: pkt_iter fuel rest.
Proof.
  intros Hn Heq. cbn [pkt_iter].
  assert (String.length (hex4 n) = 4) as Hl by done.
  assert (str_take 4 (hex4 n +:+ payload +:+ rest) = hex4 n) as Ht by done.
  assert (len (hex4 n +:+ payload +:+ rest) = n + len rest)%Z as Hlen.
  { unfold len in *. rewrite !length_app, Hl. lia. }
  assert (0 ≤ len rest)%Z by (unfold len; lia).
  rewrite (proj2 (Z.ltb_ge _ 4)) by lia. rewrite Ht, hex4_utf8, hex4_radix by lia.
  rewrite (proj2 (Z.ltb_ge n 4)) by lia. rewrite (proj2 (Z.ltb_ge _ n)) by lia.
  rewrite <- (string_app_assoc (hex4 n) payload rest).
  replace (Z.to_nat n) with (String.length (hex4 n +:+ payload)) by (rewrite length_app, Hl; unfold len in *; lia).
  rewrite str_take_app, str_drop_app. f_equal.
Qed.

Lemma pkt_iter_flush (fuel : nat) (rest : string) :
  pkt_iter (S fuel) ("0000" +:+ rest) = pkt_iter fuel rest.
Proof.
  cbn [pkt_iter]. rewrite (proj2 (Z.ltb_ge _ 4)); [done|].
  unfold len. rewrite length_app. simpl String.length. lia.
Qed.

Lemma pkt_iter_enough (fuel fuel' : nat) (buf : string) :
  String.length buf ≤ fuel → String.length buf ≤ fuel' → pkt_iter fuel buf = pkt_iter fuel' buf.
Proof.
  revert fuel' buf. induction fuel as [|fuel IH]; intros fuel' buf Hf Hf'.
  - destruct buf; [|simpl in Hf; lia]. by rewrite !pkt_iter_nil.
  - destruct fuel' as [|fuel']; [destruct buf; [|simpl in Hf'; lia]; by rewrite !pkt_iter_nil|].
    cbn [pkt_iter]. destruct (Z.ltb_spec (len buf) 4) as [|Hlen]; [done|]. unfold len in Hlen.
    destruct (if is_utf8 _ then _ else _) as [n|]; [|done].
    destruct (Z.ltb_spec n 4); [apply IH; rewrite length_str_drop; lia|].
    destruct (len buf <? n)%Z; [done|]. f_equal.
    apply IH; rewrite length_str_drop; lia.
Qed.

Lemma pkt_lines_frame (payload rest : string) :
  (len payload ≤ PKT_LINE_MAX_PAYLOAD)%Z →
  pkt_lines (pkt_line payload +:+ rest) = payload :: pkt_lines rest.
Proof.
  intros Hp. unfold PKT_LINE_MAX_PAYLOAD in *. unfold pkt_line, PKT_LINE_MAX_PAYLOAD.
  rewrite (proj2 (Z.ltb_ge _ _)) by lia. rewrite string_app_assoc. unfold pkt_lines at 1.
  rewrite (pkt_iter_enough _ (S (String.length payload + String.length rest + 4)));
    [|lia|rewrite !length_app; change (String.length (hex4 _)) with 4; lia].
  assert (0 ≤ len payload)%Z by (unfold len; lia).
  rewrite pkt_iter_frame by lia. f_equal. apply pkt_iter_enough; lia.
Qed.

Lemma pkt_lines_flush (rest : string) : pkt_lines ("0000" +:+ rest) = pkt_lines rest.
Proof.
  unfold pkt_lines at 1. rewrite (pkt_iter_enough _ (S (String.length rest + 4)));
    [|lia|rewrite length_app; simpl String.length; lia].
  rewrite pkt_iter_flush. apply pkt_iter_enough; lia.
Qed.

(** A stream of frames, with a flush or not at its end *)
Lemma pkt_lines_stream (ps : list string) (tail : string) :
  Forall (λ p, len p ≤ PKT_LINE_MAX_PAYLOAD)%Z ps →
  pkt_lines (foldr String.append tail (pkt_line <$> ps)) = ps ++ pkt_lines tail.
Proof.
  induction 1 as [|p ps Hp Hps IH]; [done|].
  change (foldr String.append tail (pkt_line <$> p :: ps))
    with (pkt_line p +:+ foldr String.append tail (pkt_line <$> ps)).
  rewrite pkt_lines_frame by done. by rewrite IH.
Qed.

Lemma split_once_app (c : Ascii.ascii) (x y : string) :
  chars_all (λ a, negb (Ascii.eqb a c)) x = true → split_once c (x +:+ String c y) = Some (x, y).
Proof.
  induction x as [|a x IH]; intros Hx; simpl.
  - by rewrite Ascii.eqb_refl.
  - unfold chars_all in Hx. simpl in Hx. apply andb_true_iff in Hx as [Ha Hx].
    apply negb_true_iff in Ha. rewrite Ha. by rewrite (IH Hx).
Qed.

Lemma chars_all_impl (f g : Ascii.ascii → bool) (s : string) :
  (∀ a, f a = true → g a = true) → chars_all f s = true → chars_all g s = true.
Proof. unfold chars_all. rewrite !forallb_forall. naive_solver. Qed.

Lemma hexdigit_not (c a : Ascii.ascii) :
  is_ascii_hexdigit c = false → is_ascii_hexdigit a = true → negb (Ascii.eqb a c) = true.
Proof. intros Hc Ha. destruct (Ascii.eqb_spec a c); [congruence|done]. Qed.

Lemma is_hex_oid_spec (s : string) :
  is_hex_oid s = true →
  (String.length s = 40 ∨ String.length s = 64) ∧ chars_all is_ascii_hexdigit s = true.
Proof.
  unfold is_hex_oid. intros [Hl Hc]%andb_true_iff. split; [|done].
  apply orb_true_iff in Hl as [Hl|Hl]; apply Nat.eqb_eq in Hl; auto.
Qed.

(** How a client reads a line of the advertisement *)
Definition parse_ref_line (line : string) : option (string * string) :=
  '(oid, rest) ← split_once " " line;
  name ← strip_suffix newline rest;
  Some (name, oid).

Lemma parse_ref_line_of (name oid : string) :
  is_hex_oid oid = true → parse_ref_line (ref_line (name, oid)) = Some (name, oid).
Proof.
  intros Ho. apply is_hex_oid_spec in Ho as [_ Ho]. unfold parse_ref_line, ref_line. simpl.
  assert (split_once " " (oid +:+ " " +:+ name +:+ newline) = Some (oid, name +:+ newline)) as ->.
  { apply (split_once_app " " oid (name +:+ newline)).
    eapply chars_all_impl; [|done]. intros a. by apply hexdigit_not. }
  simpl. by rewrite strip_suffix_app.
Qed.

Lemma parse_ref_lines (l : list (string * string)) :
  Forall (λ kv, is_hex_oid kv.2 = true) l → omap parse_ref_line (ref_line <$> l) = l.
Proof.
  induction 1 as [|[r o] l Ho _ IH]; [done|]. simpl in Ho.
  transitivity (match parse_ref_line (ref_line (r, o)) with
                | Some y => y :: omap parse_ref_line (ref_line <$> l)
                | None => omap parse_ref_line (ref_line <$> l) end); [done|].
  rewrite parse_ref_line_of by done. by rewrite IH.
Qed.

Lemma fast_path_refs (m : Manifest) :
  fast_path_eligible m = true →
  is_Some (refs m !! head m) ∧
  ∀ r o, refs m !! r = Some o →
    is_hex_oid o = true ∧ (len r ≤ MAX_FAST_PATH_REFNAME_LEN)%Z ∧ starts_with "refs/tags/" r = false.
Proof.
  unfold fast_path_eligible. destruct (existsb _ _) eqn:Htags; [done|].
  destruct (refs m !! head m) as [o|] eqn:Hhead; [|done]. simpl. intros Hall.
  split; [by eexists|]. intros r o' Hr. rewrite forallb_forall in Hall.
  pose proof (proj2 (elem_of_iter _ _ _) Hr) as Hin.
  specialize (Hall (r, o') (proj1 (list_elem_of_In _ _) Hin)). simpl in Hall.
  bool_prop. split; [done|]. split; [done|].
  destruct (starts_with "refs/tags/" r) eqn:Hst; [|done].
  rewrite <- not_true_iff_false in Htags. destruct Htags. apply existsb_exists.
  exists r. split; [|done]. apply (list_elem_of_In _ _). apply list_elem_of_fmap. by exists (r, o').
Qed.

Lemma len_app (x y : string) : len (x +:+ y) = (len x + len y)%Z.
Proof. unfold len. rewrite length_app. lia. Qed.

Lemma hex_oid_len (o : string) : is_hex_oid o = true → (len o ≤ 64)%Z.
Proof. intros [[Hl|Hl] _]%is_hex_oid_spec; unfold len; lia. Qed.

(** The advertisement that the fast path writes from the published manifest parses, with
    git's own framing, into the service line, the HEAD line and one line for each ref in the
    order of the names; a client that reads the ref lines gets exactly the manifest's refs. *)
Theorem advertisement_exact (m : Manifest) (Hm : fast_path_eligible m = true) :
  ∃ body oid, build_upload_pack_advertisement m = Some body ∧ refs m !! head m = Some oid ∧
    pkt_lines body = service_line :: first_line oid (head m) :: (ref_line <$> iter (refs m)) ∧
    list_to_map (omap parse_ref_line (drop 2 (pkt_lines body))) = refs m.
Proof.
  destruct (fast_path_refs m Hm) as [[oid Hhead] Hrefs].
  assert (∀ r o, refs m !! r = Some o → len (ref_line (r, o)) ≤ PKT_LINE_MAX_PAYLOAD)%Z as Hlen.
  { intros r o Hr. destruct (Hrefs r o Hr) as (Ho & Hl & _). apply hex_oid_len in Ho.
    unfold ref_line. simpl. rewrite !len_app. change (len " ") with 1%Z.
    change (len newline) with 1%Z. unfold PKT_LINE_MAX_PAYLOAD, MAX_FAST_PATH_REFNAME_LEN in *. lia. }
  assert (len (first_line oid (head m)) ≤ PKT_LINE_MAX_PAYLOAD)%Z as Hfirst.
  { destruct (Hrefs _ _ Hhead) as (Ho & Hl & _). apply hex_oid_len in Ho.
    unfold first_line, caps. rewrite !len_app.
    assert (len (if (String.length oid =? 64)%nat then "sha256" else "sha1") ≤ 6)%Z
      by (by case_match).
    repeat match goal with |- context [len (String ?a ?s)] =>
      let v := eval vm_compute in (len (String a s)) in change (len (String a s)) with v end.
    change (len newline) with 1%Z. change (len NUL) with 1%Z.
    unfold PKT_LINE_MAX_PAYLOAD, MAX_FAST_PATH_REFNAME_LEN in *. lia. }
  unfold build_upload_pack_advertisement. rewrite Hhead. simpl.
  assert (pkt_lines (pkt_line service_line +:+ "0000" +:+ pkt_line (first_line oid (head m))
     +:+ foldr String.append "0000" (pkt_line ∘ ref_line <$> iter (refs m)))
     = service_line :: first_line oid (head m) :: (ref_line <$> iter (refs m))) as Hlines.
  { rewrite pkt_lines_frame by done. rewrite pkt_lines_flush, pkt_lines_frame by done.
    do 2 f_equal. rewrite list_fmap_compose, pkt_lines_stream; [by rewrite app_nil_r|].
    apply Forall_fmap, Forall_forall. intros [r o] Hin. by apply Hlen, elem_of_iter. }
  eexists _, oid. split; [done|]. split; [done|]. split; [done|].
  rewrite Hlines. cbn [drop]. rewrite drop_0.
  rewrite parse_ref_lines.
  2: { apply Forall_forall. intros [r o] Hin. by apply (Hrefs r o), elem_of_iter. }
  apply map_eq. intros r. apply option_eq. intros o.
  rewrite <- elem_of_list_to_map; [apply elem_of_iter|].
  rewrite iter_perm. apply NoDup_fst_map_to_list.
Qed.

(** ** The status report *)

(** What receive-pack sends: frames of status lines, directly or inside packets of the data
    band, with packets of progress text in between *)
Inductive Packet := Data (lines : list string) | Progress (text : string).

Definition band (n : N) : string := bytes_of [n].

Definition packet (p : Packet) : string :=
  match p with
  | Data lines => band 1 +:+ foldr String.append "0000" (pkt_line <$> lines)
  | Progress text => band 2 +:+ text
  end.

Definition sideband (ps : list Packet) : string :=
  foldr String.append "0000" (pkt_line <$> (packet <$> ps)).

Definition direct (lines : list string) : string :=
  foldr String.append "0000" (pkt_line <$> lines).

Definition fits (line : string) : Prop := (len line ≤ PKT_LINE_MAX_PAYLOAD)%Z.

Definition packet_lines (p : Packet) : list string :=
  match p with Data lines => lines | Progress _ => [] end.

(** A status line of git starts with a letter. *)
Definition status_line (line : string) : Prop :=
  ∃ a s, line = String a s ∧ between 97 122 a = true.

Lemma existsb_ext_in {A} (f g : A → bool) (l : list A) :
  Forall (λ x, f x = g x) l → existsb f l = existsb g l.
Proof. induction 1 as [|x l Hx Hl IH]; [done|]. simpl. by rewrite Hx, IH. Qed.

(** The scan of the status report finds a rejected ref exactly when there is one: for a
    report without side-band, and for one in side-band whose data packets hold whole status
    lines, between any progress packets. *)
Theorem report_rejected_exact (lines : list string) (ps : list Packet)
    (Hl : Forall status_line lines) (Hf : Forall fits lines)
    (Hp : Forall (λ p, fits (packet p) ∧ Forall fits (packet_lines p)) ps) :
  receive_pack_report_rejected (direct lines) = existsb (starts_with "ng ") lines ∧
  receive_pack_report_rejected (sideband ps)
  = existsb (starts_with "ng ") (concat (packet_lines <$> ps)).
Proof.
  assert (∀ ls, Forall fits ls → pkt_lines (direct ls) = ls) as Hd.
  { intros ls Hls. unfold direct. rewrite pkt_lines_stream by done. apply app_nil_r. }
  split.
  - unfold receive_pack_report_rejected. rewrite Hd by done. apply existsb_ext_in.
    eapply Forall_impl; [exact Hl|]. intros line (a & s & -> & Ha). unfold payload_rejected.
    unfold between in Ha. apply andb_true_iff in Ha as [Ha%N.leb_le _].
    by rewrite !(proj2 (N.eqb_neq _ _)) by lia.
  - unfold receive_pack_report_rejected, sideband. rewrite pkt_lines_stream.
    2: { apply Forall_fmap. eapply Forall_impl; [exact Hp|]. by intros p [??]. }
    rewrite app_nil_r. clear Hl Hf lines.
    induction Hp as [|p ps [_ Hls] Hps IH]; [done|]. rewrite !fmap_cons.
    cbn [existsb List.concat]. rewrite IH, existsb_app. f_equal.
    destruct p as [ls|t]; [|done]. change (payload_rejected (packet (Data ls)))
      with (existsb (starts_with "ng ") (pkt_lines (direct ls))). by rewrite Hd.
Qed.

Lemma report_rejected_exact_witness :
  receive_pack_report_rejected (sideband [Progress "checking"; Data ["unpack ok"; "ng refs/heads/a hook"]]) = true.
Proof.
  assert (∀ s, bool_decide (len s ≤ PKT_LINE_MAX_PAYLOAD)%Z = true → fits s) as Hd
    by (intros s Hs; by apply bool_decide_eq_true in Hs).
  pose proof (report_rejected_exact [] [Progress "checking"; Data ["unpack ok"; "ng refs/heads/a hook"]]
    ltac:(constructor) ltac:(constructor)
    ltac:(repeat constructor; apply Hd; vm_compute; reflexivity)) as [_ H].
  rewrite H. vm_compute. reflexivity.
Defined.

(** A status line that the side-band splits over two packets is not seen: each data packet is
    parsed as a stream of its own. Git splits a report that is longer than a packet. *)
Lemma split_report_missed :
  let report := direct ["unpack ok"; "ok refs/heads/a"; "ng refs/heads/b failed to update ref"] in
  let cut := 40 in
  receive_pack_report_rejected (direct [band 1 +:+ report]) = true ∧
  receive_pack_report_rejected
    (direct [band 1 +:+ str_take cut report; band 1 +:+ str_drop cut report]) = false.
Proof. vm_compute. done. Qed.

Definition one_branch : Manifest :=
  {| version := 1; head := "refs/heads/main";
     refs := {["refs/heads/main" := "0123456789012345678901234567890123456789"]};
     packs := []; parent := None |}.

Lemma advertisement_exact_witness :
  ∃ body, build_upload_pack_advertisement one_branch = Some body ∧ length (pkt_lines body) = 3.
Proof.
  destruct (advertisement_exact one_branch ltac:(vm_compute; reflexivity))
    as (body & oid & Hb & _ & Hl & _).
  exists body. split; [exact Hb|]. rewrite Hl. vm_compute. reflexivity.
Defined.
