(* ===== verification/GitStore.v ===== *)
(** * The object store of git hosting (buzz-relay/src/api/git/store.rs)

    [GitStore] turns the S3 client's answers into the outcomes that the push and read paths
    act on. Its methods are programs: [Prog A] is a tree of the calls that the code makes to
    the bucket, with a continuation for each answer. What the bucket does with a call is the
    subject of [ObjectStore]. The startup probe is not modelled. *)

From S2P Require Import Prelude Text StdText GitManifest.

Open Scope string_scope.
Open Scope nat_scope.
Open Scope list_scope.

(** ** The client's types *)

Class Sha256Laws `{Sha256} := {
  sha256_hex_digest (b : string) : is_manifest_digest (sha256_hex b) = true
}.

(** What [HeaderValue] accepts *)
Class Http := { header_value_ok : string → bool }.

(** [rust-s3]: the error the code looks into, and all others *)
Inductive S3Error :=
  | HttpFailWithBody (code : Z) (body : string)
  | OtherS3Error (e : string).

Record ResponseData := { status_code : Z; headers : gmap string string; to_bytes : string }.

Record HeadObjectResult := { content_length : option Z }.

(** ** Data *)

Inductive Precond := IfNoneMatchStar | IfMatch (etag : string).

Inductive CasOutcome := Won (etag : string) | LostRace.

Inductive StoreError :=
  | NotFound (key : string)
  | ObjectTooLarge (key : string) (got max : Z)
  | DigestMismatch (key expected actual : string)
  | Backend (e : S3Error)
  | Config (e : string).

#[export] Instance Precond_eq_dec : EqDecision Precond.
Proof. solve_decision. Defined.
#[export] Instance S3Error_eq_dec : EqDecision S3Error.
Proof. solve_decision. Defined.

(** ** Programs over a bucket *)

Inductive Prog (A : Type) : Type :=
  | Ret (a : A)
  | PutObject (key body content_type : string) (cond : Precond)
      (k : result ResponseData S3Error → Prog A)
  | GetObject (key : string) (k : result ResponseData S3Error → Prog A)
  | HeadObject (key : string) (k : result (HeadObjectResult * Z) S3Error → Prog A).
Arguments Ret {A} a.
Arguments PutObject {A} key body content_type cond k.
Arguments GetObject {A} key k.
Arguments HeadObject {A} key k.

Fixpoint bind {A B} (p : Prog A) (f : A → Prog B) : Prog B :=
  match p with
  | Ret a => f a
  | PutObject key body ct c k => PutObject key body ct c (λ r, bind (k r) f)
  | GetObject key k => GetObject key (λ r, bind (k r) f)
  | HeadObject key k => HeadObject key (λ r, bind (k r) f)
  end.

(** [x <-* p ;; q] awaits [p]; [x <-! p ;; q] is [let x = p.await?; q]; [x <-% c ;; q] is
    [let x = c?; q] for a value; [guard% b 'else' e ;; q] returns the error unless [b]. *)
Notation "x <-* p ;; q" := (bind p (λ x, q))
  (at level 100, p at next level, right associativity) : rust_scope.
Notation "x <-! p ;; q" := (bind p (λ r, match r with Ok x => q | Err e => Ret (Err e) end))
  (at level 100, p at next level, right associativity) : rust_scope.
Notation "x <-% c ;; q" := (match c with Ok x => q | Err e => Ret (Err e) end)
  (at level 100, c at next level, right associativity) : rust_scope.
Notation "'guard%' b 'else' e ;; q" := (if b then q else Ret (Err e))
  (at level 100, b at level 99, e at level 99, q at level 200, right associativity) : rust_scope.

Definition prog_map {A B} (f : A → B) (p : Prog A) : Prog B := a <-* p ;; Ret (f a).

(** A future that is dropped after [n] calls ([tokio::time::timeout], or a [select!] with a
    cancellation): the next call may still reach the bucket, its answer is not seen. *)
Fixpoint cutoff {A} (n : nat) (p : Prog A) : Prog (option A) :=
  match p, n with
  | Ret a, _ => Ret (Some a)
  | PutObject key body ct c k, 0 => PutObject key body ct c (λ _, Ret None)
  | PutObject key body ct c k, S n => PutObject key body ct c (λ r, cutoff n (k r))
  | GetObject key k, 0 => GetObject key (λ _, Ret None)
  | GetObject key k, S n => GetObject key (λ r, cutoff n (k r))
  | HeadObject key k, 0 => HeadObject key (λ _, Ret None)
  | HeadObject key k, S n => HeadObject key (λ r, cutoff n (k r))
  end.

(** [None]: the deadline does not come. *)
Definition deadline {A} (d : option nat) (p : Prog A) : Prog (option A) :=
  match d with Some n => cutoff n p | None => prog_map Some p end.

(** ** [impl GitStore] *)

Definition ok_status (s : Z) : bool := ((200 <=? s) && (s <? 300))%Z.

Definition etag_of (resp : ResponseData) : option string :=
  match headers resp !! "etag" with Some t => Some t | None => headers resp !! "ETag" end.

Section git_store.
Context `{Sha256, Http}.

Definition content_key (prefix bytes : string) : string :=
  prefix +:+ "/" +:+ sha256_hex bytes.

Definition idx_key_for_pack_digest (pack_digest : string) : result string StoreError :=
  guard! (String.length pack_digest =? 64) && chars_all is_ascii_hexdigit pack_digest
    else Backend (HttpFailWithBody 400 "invalid pack digest for idx sidecar") ;;
  Ok ("idx/" +:+ pack_digest).

Definition put_answer (key : string) (r : result ResponseData S3Error) : result string StoreError :=
  match r with
  | Ok resp =>
      if ok_status (status_code resp) then Ok key
      else Err (Backend (HttpFailWithBody (status_code resp) "unexpected status"))
  | Err (HttpFailWithBody code body) =>
      if (code =? 412)%Z then Ok key else Err (Backend (HttpFailWithBody code body))
  | Err e => Err (Backend e)
  end.

Definition put_immutable (prefix bytes content_type : string) : Prog (result string StoreError) :=
  let key := content_key prefix bytes in
  PutObject key bytes content_type IfNoneMatchStar (λ r, Ret (put_answer key r)).

Definition put_pack (bytes : string) : Prog (result string StoreError) :=
  put_immutable "packs" bytes "application/x-git-pack".

Definition put_manifest (bytes : string) : Prog (result string StoreError) :=
  put_immutable "manifests" bytes "application/json".

Definition put_idx (pack_digest idx_bytes : string) : Prog (result string StoreError) :=
  key <-% idx_key_for_pack_digest pack_digest ;;
  PutObject key idx_bytes "application/x-git-index" IfNoneMatchStar (λ r, Ret (put_answer key r)).

Definition get (key : string) : Prog (result string StoreError) :=
  GetObject key (λ r, Ret
    match r with
    | Ok resp => Ok (to_bytes resp)
    | Err (HttpFailWithBody code body) =>
        if (code =? 404)%Z then Err (NotFound key) else Err (Backend (HttpFailWithBody code body))
    | Err e => Err (Backend e)
    end).

Definition verified (key expected_digest bytes : string) : result string StoreError :=
  let actual := sha256_hex bytes in
  if decide (actual = expected_digest) then Ok bytes
  else Err (DigestMismatch key expected_digest actual).

Definition get_verified (key expected_digest : string) : Prog (result string StoreError) :=
  bytes <-! get key ;; Ret (verified key expected_digest bytes).

Definition head_error (key : string) (e : S3Error) : StoreError :=
  match e with
  | HttpFailWithBody code body =>
      if (code =? 404)%Z then NotFound key else Backend (HttpFailWithBody code body)
  | e => Backend e
  end.

(** [u64::try_from(i64).unwrap_or(u64::MAX)] *)
Definition u64_of (n : Z) : Z := if (0 <=? n)%Z then n else u64_max.

Definition byte_len (s : string) : Z := Z.of_nat (String.length s).

Definition get_limited (key : string) (max_bytes : Z) : Prog (result string StoreError) :=
  HeadObject key (λ r,
    match r with
    | Err e => Ret (Err (head_error key e))
    | Ok (head, status) =>
        guard% negb (status =? 404)%Z else NotFound key ;;
        guard% ok_status status else Backend (HttpFailWithBody status "unexpected status") ;;
        guard% is_none_or (λ n, u64_of n <=? max_bytes)%Z (content_length head)
          else ObjectTooLarge key (default 0%Z (u64_of <$> content_length head)) max_bytes ;;
        bytes <-! get key ;;
        guard% (byte_len bytes <=? max_bytes)%Z else ObjectTooLarge key (byte_len bytes) max_bytes ;;
        Ret (Ok bytes)
    end).

Definition get_verified_limited (key expected_digest : string) (max_bytes : Z)
    : Prog (result string StoreError) :=
  bytes <-! get_limited key max_bytes ;; Ret (verified key expected_digest bytes).

Definition get_idx (pack_digest : string) (max_bytes : Z)
    : Prog (result (option string) StoreError) :=
  key <-% idx_key_for_pack_digest pack_digest ;;
  r <-* get_limited key max_bytes ;;
  Ret match r with
      | Ok bytes => Ok (Some bytes)
      | Err (NotFound _) => Ok None
      | Err e => Err e
      end.

Definition get_pointer (key : string) : Prog (result (option (string * string)) StoreError) :=
  GetObject key (λ r, Ret
    match r with
    | Ok resp =>
        match etag_of resp with
        | Some etag => Ok (Some (etag, to_bytes resp))
        | None => Err (Backend (HttpFailWithBody 500 "GET pointer: response missing ETag"))
        end
    | Err (HttpFailWithBody code body) =>
        if (code =? 404)%Z then Ok None else Err (Backend (HttpFailWithBody code body))
    | Err e => Err (Backend e)
    end).

Definition classify_cas (r : result ResponseData S3Error) : result CasOutcome StoreError :=
  match r with
  | Ok resp =>
      if ok_status (status_code resp) then
        match etag_of resp with
        | Some etag => Ok (Won etag)
        | None => Err (Backend (HttpFailWithBody (status_code resp)
                                  "CAS succeeded but response missing ETag header"))
        end
      else Err (Backend (HttpFailWithBody (status_code resp) "unexpected status"))
  | Err (HttpFailWithBody code body) =>
      if (code =? 412)%Z then Ok LostRace else Err (Backend (HttpFailWithBody code body))
  | Err e => Err (Backend e)
  end.

Definition put_pointer (key body : string) (precond : Precond)
    : Prog (result CasOutcome StoreError) :=
  guard% match precond with IfMatch tag => header_value_ok tag | IfNoneMatchStar => true end
    else Backend (HttpFailWithBody 400 "invalid etag") ;;
  PutObject key body "application/json" precond (λ r, Ret (classify_cas r)).

End git_store.
