(* ===== verification/GitPublish.v ===== *)
(** * The commit point of a push (buzz-relay/src/api/git/cas_publish.rs)

    [cas_publish] snapshots the refs that receive-pack left in the workspace, captures the
    new objects as a pack or the whole closure as a compacted set, composes the manifest and
    swaps the pointer. Its answers from the local disk and from git are the record
    [Workspace]: git is code of others, and the workspace belongs to one request, so its
    answers are fixed data of that request. [None] or [Err] stands for every way in which a
    subprocess or a file operation fails; texts of errors are kept as short labels. *)

From S2P Require Import Prelude Text StdText Filter GitManifest GitStore.

Open Scope string_scope.
Open Scope nat_scope.
Open Scope list_scope.

(** ** Data *)

Inductive CasError :=
  | Conflict (winner_manifest : Manifest) (winner_manifest_key : string)
  | ManifestReadFailed (e : string)
  | ManifestInvalid (e : ManifestError)
  | CasBackend (e : StoreError)
  | PackCapture (e : string)
  | CasResourceLimit (e : string).

Record PublishLimits := {
  parent_hydrated_bytes : Z;
  max_pack_bytes : Z;
  max_repo_bytes : Z
}.

Record CasSuccess := { manifest : Manifest; manifest_key : string }.

Record ParentState := {
  if_match : option string;
  parent_digest : option string;
  parent_manifest : Manifest
}.

Definition fresh : ParentState := {|
  if_match := None; parent_digest := None;
  parent_manifest := {| version := MANIFEST_VERSION; head := ""; refs := ∅; packs := [];
                        parent := None |} |}.

Definition from_loaded (etag digest : string) (m : Manifest) : ParentState :=
  {| if_match := Some etag; parent_digest := Some digest; parent_manifest := m |}.

(** The answers of git and of the disk after receive-pack *)
Record Workspace := {
  (** [git for-each-ref --format='%(refname) %(objectname)']: its output *)
  for_each_ref : result string string;
  (** [git symbolic-ref --quiet HEAD]: its output as text, [None] when it exits non-zero *)
  symbolic_ref : result (option string) string;
  (** [git pack-objects --revs --stdout]: its output, by what is written to its input *)
  pack_objects : string → result string string;
  (** [git index-pack] on the bytes of a pack: the bytes of the index *)
  index_pack : string → result string string;
  (** Waiting for the compaction semaphore *)
  compaction_permit : result unit string;
  (** The store call during which the compaction timeout strikes, if it does *)
  compaction_deadline : option nat;
  (** [git count-objects -v]: its output *)
  count_objects : result string string;
  (** [git pack-objects --max-pack-size] into a directory, by its input: the file names *)
  compact_objects : string → result (list string) string;
  file_len : string → result Z string;
  file_read : string → result string string
}.

Definition PACK_COMPACTION_OPERATION_TIMEOUT : Z := 600.
Definition MAX_COMPACTION_OBJECTS : Z := 1000000.
Definition MAX_REF_SNAPSHOT_BYTES : Z := 4 * 1024 * 1024.
Definition MAX_COUNT_OBJECTS_OUTPUT_BYTES : Z := 64 * 1024.

(** ** The snapshot of the workspace *)

(** The loop over the lines of [for-each-ref] *)
Fixpoint snapshot_refs (lines : list string) (refs : gmap string string)
    : result (gmap string string) CasError :=
  match lines with
  | [] => Ok refs
  | line :: lines =>
      match split_once " " line with
      | None => snapshot_refs lines refs
      | Some (name, oid) =>
          if negb (String.length oid =? 40) || negb (chars_all is_ascii_hexdigit oid)
          then snapshot_refs lines refs
          else if (MAX_MANIFEST_REFS <=? Z.of_nat (size refs))%Z
                  && bool_decide (refs !! name = None)
          then Err (CasResourceLimit "workspace contains too many refs")
          else snapshot_refs lines (<[name := oid]> refs)
      end
  end.

Definition snapshot_workspace_state (w : Workspace)
    : result (gmap string string * string) CasError :=
  refs_stdout <-? map_err PackCapture (for_each_ref w) ;;
  guard! (byte_len refs_stdout <=? MAX_REF_SNAPSHOT_BYTES)%Z
    else CasResourceLimit "ref snapshot" ;;
  refs <-? snapshot_refs (str_lines (if is_utf8 refs_stdout then refs_stdout else "")) ∅ ;;
  head_out <-? map_err PackCapture (symbolic_ref w) ;;
  Ok (refs, match head_out with Some out => str_trim out | None => "" end).

Definition resolve_published_head (refs : gmap string string) (observed_head parent_head : string)
    : string :=
  let is_published_branch name := starts_with "refs/heads/" name && bool_decide (is_Some (refs !! name)) in
  if is_published_branch observed_head then observed_head
  else if is_published_branch parent_head then parent_head
  else match List.find (λ preferred, bool_decide (is_Some (refs !! preferred)))
               ["refs/heads/main"; "refs/heads/master"] with
  | Some preferred => preferred
  | None =>
      match List.find (starts_with "refs/heads/") (iter refs).*1 with
      | Some branch => branch
      | None => if bool_decide (observed_head = "") then parent_head else observed_head
      end
  end.

Definition hex64 (digest : string) : bool :=
  (String.length digest =? 64) && chars_all is_ascii_hexdigit digest.

Definition digest_from_pack_key (key : string) : result string CasError :=
  match strip_prefix "packs/" key with
  | Some digest => if hex64 digest then Ok digest
                   else Err (CasBackend (Backend (HttpFailWithBody 500 "non-standard key")))
  | None => Err (CasBackend (Backend (HttpFailWithBody 500 "non-standard key")))
  end.

Definition digest_from_manifest_key (key : string) : result string CasError :=
  match strip_prefix "manifests/" key with
  | Some digest => Ok digest
  | None => Err (CasBackend (Backend (HttpFailWithBody 500 "non-standard key")))
  end.

(** ** Capturing a pack *)

Definition rev_line (oid : string) : string := oid +:+ newline.
Definition not_rev_line (oid : string) : string := "^" +:+ oid +:+ newline.

Definition concat_strings : list string → string := foldr String.append "".

Definition values (refs : gmap string string) : list string := (iter refs).*2.

Definition capture_pack (w : Workspace) (refs_before refs_after : gmap string string)
    (max_pack_bytes : Z) : result (option string) CasError :=
  if decide (values refs_after = []) then Ok None
  else
    let stdin_lines := concat_strings (rev_line <$> values refs_after)
                       +:+ concat_strings (not_rev_line <$> values refs_before) in
    stdout <-? map_err PackCapture (pack_objects w stdin_lines) ;;
    guard! (byte_len stdout <=? max_pack_bytes)%Z else CasResourceLimit "pack-objects output" ;;
    Ok (if decide (stdout = "") then None else Some stdout).

(** ** Compaction *)

Definition should_compact (parent_pack_count threshold : nat) : bool :=
  threshold <=? parent_pack_count.

Definition compacted_pack_set_is_usable (parent_pack_count compacted_pack_count : nat) : bool :=
  (compacted_pack_count <? parent_pack_count)
  || ((MAX_MANIFEST_PACKS <=? parent_pack_count) && (compacted_pack_count <=? MAX_MANIFEST_PACKS)).

(** [lines().find_map(strip_prefix)], then [trim().parse::<u64>()] *)
Definition parse_count (output name : string) : result Z CasError :=
  match List.hd_error (omap (strip_prefix name) (str_lines output)) ≫= λ v, parse_u64 (str_trim v) with
  | Some n => Ok n
  | None => Err (PackCapture "count-objects omitted a count")
  end.

Definition enforce_compaction_object_limit (w : Workspace) : result unit CasError :=
  output <-? map_err PackCapture (count_objects w) ;;
  guard! (byte_len output <=? MAX_COUNT_OBJECTS_OUTPUT_BYTES)%Z
    else CasResourceLimit "count-objects output" ;;
  guard! is_utf8 output else PackCapture "read count-objects output" ;;
  loose <-? parse_count output "count:" ;;
  packed <-? parse_count output "in-pack:" ;;
  guard! (loose + packed <=? u64_max)%Z
    else CasResourceLimit "compaction object count overflowed u64" ;;
  guard! (loose + packed <=? MAX_COMPACTION_OBJECTS)%Z
    else CasResourceLimit "repository has too many objects" ;;
  Ok tt.

Record CompactedPack := { pack_path : string; idx_path : string; pack_bytes : Z }.

Record CompactedPacks := { compacted : list CompactedPack; total_pack_bytes : Z }.

(** [Path::extension() == Some("pack")] and [with_extension("idx")] of such a name *)
Definition is_pack_file (name : string) : bool :=
  match strip_suffix ".pack" name with Some stem => negb (bool_decide (stem = "")) | None => false end.
Definition with_extension_idx (name : string) : string :=
  match strip_suffix ".pack" name with Some stem => stem +:+ ".idx" | None => name end.

(** The loop over the packs, sorted by path *)
Fixpoint measure_packs (w : Workspace) (limits : PublishLimits) (paths : list string)
    (packs : list CompactedPack) (total : Z) : result CompactedPacks CasError :=
  match paths with
  | [] => Ok {| compacted := packs; total_pack_bytes := total |}
  | path :: paths =>
      bytes <-? map_err PackCapture (file_len w path) ;;
      guard! (bytes <=? max_pack_bytes limits)%Z else CasResourceLimit "compacted pack" ;;
      guard! (total + bytes <=? u64_max)%Z
        else CasResourceLimit "compacted byte count overflowed u64" ;;
      guard! (total + bytes <=? max_repo_bytes limits)%Z else CasResourceLimit "compacted repo" ;;
      let idx := with_extension_idx path in
      idx_bytes <-? map_err PackCapture (file_len w idx) ;;
      guard! (idx_bytes <=? max_pack_bytes limits)%Z else CasResourceLimit "compacted idx" ;;
      measure_packs w limits paths
        (packs ++ [{| pack_path := path; idx_path := idx; pack_bytes := bytes |}])
        (total + bytes)%Z
  end.

(** The ids in the order of their refs, each once *)
Fixpoint unseen (seen : gset string) (oids : list string) : list string :=
  match oids with
  | [] => []
  | oid :: oids => if decide (oid ∈ seen) then unseen seen oids else oid :: unseen ({[oid]} ∪ seen) oids
  end.

Definition capture_compacted_packs (w : Workspace) (refs_after : gmap string string)
    (limits : PublishLimits) : result CompactedPacks CasError :=
  if decide (refs_after = ∅) then Ok {| compacted := []; total_pack_bytes := 0 |}
  else
    _ <-? enforce_compaction_object_limit w ;;
    let stdin_lines := concat_strings (rev_line <$> unseen ∅ (values refs_after)) in
    entries <-? map_err PackCapture (compact_objects w stdin_lines) ;;
    let pack_paths := sort_strings (List.filter is_pack_file entries) in
    guard! length pack_paths <=? MAX_MANIFEST_PACKS else CasResourceLimit "compaction produced too many packs" ;;
    measure_packs w limits pack_paths [] 0.

Section publish.
Context `{Sha256, Http, ManifestJson, IdText}.

(** The upload of one compacted pack; its index is best effort. *)
Definition upload_pack (w : Workspace) (pack : CompactedPack) : Prog (result string CasError) :=
  bytes <-% map_err PackCapture (file_read w (pack_path pack)) ;;
  guard% (byte_len bytes =? pack_bytes pack)%Z
    else PackCapture "compacted pack changed after size validation" ;;
  pack_key <-! prog_map (map_err CasBackend) (put_pack bytes) ;;
  pack_digest <-% digest_from_pack_key pack_key ;;
  match file_read w (idx_path pack) with
  | Ok idx_bytes => _ <-* put_idx pack_digest idx_bytes ;; Ret (Ok pack_key)
  | Err _ => Ret (Ok pack_key)
  end.

Fixpoint upload_packs (w : Workspace) (packs : list CompactedPack) (pack_keys : list string)
    : Prog (result (list string) CasError) :=
  match packs with
  | [] => Ret (Ok (dedup (sort_strings pack_keys)))
  | pack :: packs => key <-! upload_pack w pack ;; upload_packs w packs (pack_keys ++ [key])
  end.

Definition upload_compacted_packs (w : Workspace) (c : CompactedPacks)
    : Prog (result (list string) CasError) := upload_packs w (compacted c) [].

Definition prepare_compaction (w : Workspace) (refs_after : gmap string string)
    (limits : PublishLimits) (packs_before : nat) : Prog (result (list string) CasError) :=
  c <-% capture_compacted_packs w refs_after limits ;;
  guard% compacted_pack_set_is_usable packs_before (length (compacted c))
    else CasResourceLimit "compaction did not reduce pack count" ;;
  upload_compacted_packs w c.

Definition write_idx_sidecar (w : Workspace) (pack_key bytes : string) : Prog (result unit CasError) :=
  pack_digest <-% digest_from_pack_key pack_key ;;
  idx_bytes <-% map_err PackCapture (index_pack w bytes) ;;
  _ <-! prog_map (map_err CasBackend) (put_idx pack_digest idx_bytes) ;;
  Ret (Ok tt).

(** ** Composing the manifest *)

Definition compose_after (parent : Manifest) (parent_digest : option string) (head : string)
    (refs : gmap string string) (new_pack_key : option string) : Manifest :=
  let packs := match new_pack_key with
               | Some k => if decide (k ∈ packs parent) then packs parent else packs parent ++ [k]
               | None => packs parent
               end in
  {| version := MANIFEST_VERSION; head := head; refs := refs;
     packs := dedup (sort_strings packs); parent := parent_digest |}.

Definition compose_compacted_after (parent_digest : option string) (head : string)
    (refs : gmap string string) (compacted_pack_keys : list string) : Manifest :=
  {| version := MANIFEST_VERSION; head := head; refs := refs;
     packs := dedup (sort_strings compacted_pack_keys); parent := parent_digest |}.

(** ** [cas_publish] *)

(** The winner's manifest, after a lost race *)
Definition read_winner_after_conflict (pkey : string) : Prog (result (Manifest * string) CasError) :=
  p <-! prog_map (map_err CasBackend) (get_pointer pkey) ;;
  match p with
  | None => Ret (Err (ManifestReadFailed "pointer vanished after LostRace"))
  | Some (_, body) =>
      guard% is_utf8 body else ManifestReadFailed "winner pointer body not utf-8" ;;
      let digest := str_trim body in
      guard% hex64 digest else ManifestReadFailed "winner pointer body is not a digest" ;;
      let manifest_key := "manifests/" +:+ digest in
      bytes <-! prog_map (map_err (λ e, match e with
        | DigestMismatch _ _ _ => ManifestReadFailed "winner manifest digest mismatch"
        | NotFound _ => ManifestReadFailed "winner pointer names missing manifest"
        | other => CasBackend other
        end)) (get_verified manifest_key digest) ;;
      winner <-% map_err (λ _, ManifestReadFailed "parse winner manifest") (manifest_from_bytes bytes) ;;
      Ret (Ok (winner, manifest_key))
  end.

(** The compaction attempt: the packs that replace the parent's, or why there are none. *)
Definition try_compaction (w : Workspace) (refs_after : gmap string string)
    (limits : PublishLimits) (packs_before threshold : nat)
    : Prog (option (result (list string) CasError)) :=
  if should_compact packs_before threshold then
    match compaction_permit w with
    | Err e => Ret (Some (Err (PackCapture e)))
    | Ok _ =>
        r <-* deadline (compaction_deadline w)
                (prepare_compaction w refs_after limits packs_before) ;;
        Ret (Some (match r with
                   | Some r => r
                   | None => Err (PackCapture "pack compaction operation timed out")
                   end))
    end
  else Ret None.

(** The delta path: capture, upload, and the key of the new pack if there is one. *)
Definition publish_delta (w : Workspace) (parent_state : ParentState)
    (refs_after : gmap string string) (limits : PublishLimits) (packs_before : nat)
    (compaction_failure : option CasError) : Prog (result (option string) CasError) :=
  captured <-% capture_pack w (refs (parent_manifest parent_state)) refs_after (max_pack_bytes limits) ;;
  match captured with
  | None => Ret (Ok None)
  | Some bytes =>
      guard% negb (MAX_MANIFEST_PACKS <=? packs_before)
        else default (CasResourceLimit "compaction failed") compaction_failure ;;
      let total_bytes := (parent_hydrated_bytes limits + byte_len bytes)%Z in
      guard% (total_bytes <=? u64_max)%Z else CasResourceLimit "repo byte count overflowed u64" ;;
      guard% (total_bytes <=? max_repo_bytes limits)%Z else CasResourceLimit "repo bytes" ;;
      pack_key <-! prog_map (map_err CasBackend) (put_pack bytes) ;;
      _ <-* write_idx_sidecar w pack_key bytes ;;
      Ret (Ok (Some pack_key))
  end.

(** Validation, the manifest object, and the swap of the pointer *)
Definition commit (pkey : string) (parent_state : ParentState) (m_after : Manifest)
    : Prog (result CasSuccess CasError) :=
  _ <-% map_err ManifestInvalid (validate m_after) ;;
  manifest_bytes <-% map_err ManifestInvalid (canonical_bytes m_after) ;;
  manifest_key <-! prog_map (map_err CasBackend) (put_manifest manifest_bytes) ;;
  manifest_digest <-% digest_from_manifest_key manifest_key ;;
  let precond := match if_match parent_state with
                 | Some e => IfMatch e
                 | None => IfNoneMatchStar
                 end in
  outcome <-! prog_map (map_err CasBackend) (put_pointer pkey manifest_digest precond) ;;
  match outcome with
  | Won _ => Ret (Ok {| manifest := m_after; manifest_key := manifest_key |})
  | LostRace =>
      winner <-! read_winner_after_conflict pkey ;;
      Ret (Err (Conflict winner.1 winner.2))
  end.

Definition cas_publish_inner (community : CommunityId) (owner repo : string) (w : Workspace)
    (parent_state : ParentState) (limits : PublishLimits) (compaction_threshold : nat)
    : Prog (result CasSuccess CasError) :=
  let pkey := pointer_key community owner repo in
  snapshot <-% snapshot_workspace_state w ;;
  let refs_after := snapshot.1 in
  let head := resolve_published_head refs_after snapshot.2 (head (parent_manifest parent_state)) in
  let packs_before := length (packs (parent_manifest parent_state)) in
  compaction <-* try_compaction w refs_after limits packs_before compaction_threshold ;;
  match compaction with
  | Some (Ok pack_keys) =>
      commit pkey parent_state
        (compose_compacted_after (parent_digest parent_state) head refs_after pack_keys)
  | _ =>
      new_pack_key <-! publish_delta w parent_state refs_after limits packs_before
                         (compaction ≫= result_err) ;;
      commit pkey parent_state
        (compose_after (parent_manifest parent_state) (parent_digest parent_state) head refs_after
           new_pack_key)
  end.

Definition cas_publish (community : CommunityId) (owner repo : string) (w : Workspace)
    (parent_state : ParentState) (limits : PublishLimits) : Prog (result CasSuccess CasError) :=
  cas_publish_inner community owner repo w parent_state limits PACK_COMPACTION_THRESHOLD.

End publish.

(** ** Lemmas *)

Lemma elem_of_values (refs : gmap string string) (o : string) :
  o ∈ values refs ↔ ∃ r, refs !! r = Some o.
Proof.
  unfold values. rewrite list_elem_of_fmap. split.
  - intros ([r o'] & -> & Hin). exists r. by apply elem_of_iter.
  - intros [r Hr]. exists (r, o). split; [done|]. by apply elem_of_iter.
Qed.

Lemma values_hex (refs : gmap string string) :
  (∀ r o, refs !! r = Some o → is_hex_oid o = true) → Forall (λ o, is_hex_oid o = true) (values refs).
Proof. intros Hr. apply Forall_forall. intros o [r Ho]%elem_of_values. by eapply Hr. Qed.

Lemma snapshot_refs_hex (lines : list string) (acc refs : gmap string string) :
  snapshot_refs lines acc = Ok refs →
  (∀ r o, acc !! r = Some o → is_hex_oid o = true) →
  ∀ r o, refs !! r = Some o → is_hex_oid o = true.
Proof.
  revert acc. induction lines as [|line lines IH]; intros acc; simpl; [by intros [= <-]|].
  destruct (split_once " " line) as [[name oid]|]; [|apply IH].
  destruct (_ || _) eqn:Ho; [apply IH|]. destruct (_ && _); [done|].
  intros Hr Hacc. eapply IH; [exact Hr|]. intros r o.
  destruct (decide (r = name)) as [->|Hne].
  - rewrite lookup_insert_eq. intros [= <-]. apply orb_false_iff in Ho as [Hl Hc].
    apply negb_false_iff in Hl, Hc. unfold is_hex_oid. by rewrite Hl, Hc.
  - rewrite lookup_insert_ne by done. apply Hacc.
Qed.

Lemma snapshot_hex (w : Workspace) (refs : gmap string string) (hd : string) :
  snapshot_workspace_state w = Ok (refs, hd) →
  ∀ r o, refs !! r = Some o → is_hex_oid o = true.
Proof.
  unfold snapshot_workspace_state. destruct (for_each_ref w) as [out|]; [|done]. simpl.
  destruct (byte_len out <=? _)%Z; [|done].
  destruct (snapshot_refs _ ∅) as [refs'|] eqn:Hr; [|done].
  destruct (symbolic_ref w); [|done]. intros [= <- _]. eapply snapshot_refs_hex; [exact Hr|].
  intros r o Ho. by rewrite lookup_empty in Ho.
Qed.

Lemma elem_of_unseen (seen : gset string) (l : list string) (x : string) :
  x ∈ unseen seen l ↔ x ∈ l ∧ x ∉ seen.
Proof.
  revert seen. induction l as [|y l IH]; intros seen; simpl; [set_solver|].
  destruct (decide (y ∈ seen)) as [Hy|Hy]; rewrite ?elem_of_cons, IH.
  - split; [intros [? ?]; auto|]. intros [[->|?] ?]; [done|auto].
  - rewrite not_elem_of_union, not_elem_of_singleton.
    destruct (decide (x = y)) as [->|Hne]; [split; auto|]. naive_solver.
Qed.

Lemma measure_packs_paths (w : Workspace) (limits : PublishLimits) (paths : list string)
    (acc : list CompactedPack) (total : Z) (c : CompactedPacks) :
  measure_packs w limits paths acc total = Ok c →
  pack_path <$> compacted c = (pack_path <$> acc) ++ paths.
Proof.
  revert acc total. induction paths as [|path paths IH]; intros acc total; simpl.
  - intros [= <-]. by rewrite app_nil_r.
  - destruct (map_err PackCapture (file_len w path)); [|done].
    repeat (match goal with |- (if ?b then _ else _) = _ → _ => destruct b; [|done] end).
    destruct (map_err PackCapture (file_len w _)); [|done].
    destruct (_ <=? _)%Z; [|done]. intros Hc. apply IH in Hc. rewrite Hc, fmap_app. simpl.
    by rewrite <- app_assoc.
Qed.

Lemma foldr_add_acc (l : list Z) (z : Z) : foldr Z.add z l = (foldr Z.add 0 l + z)%Z.
Proof. induction l as [|x l IH]; simpl; [done|]. rewrite IH. lia. Qed.

(** Each compacted pack and the whole set are within the limits. *)
Lemma measure_packs_bounds (w : Workspace) (limits : PublishLimits) (paths : list string)
    (acc : list CompactedPack) (total : Z) (c : CompactedPacks) :
  measure_packs w limits paths acc total = Ok c →
  Forall (λ p, pack_bytes p ≤ max_pack_bytes limits)%Z acc →
  (total = foldr Z.add 0 (pack_bytes <$> acc) ∧ (acc = [] ∨ total ≤ max_repo_bytes limits))%Z →
  Forall (λ p, pack_bytes p ≤ max_pack_bytes limits)%Z (compacted c) ∧
  (total_pack_bytes c = foldr Z.add 0 (pack_bytes <$> compacted c))%Z ∧
  (compacted c = [] ∨ total_pack_bytes c ≤ max_repo_bytes limits)%Z.
Proof.
  revert acc total. induction paths as [|path paths IH]; intros acc total; simpl.
  - intros [= <-] Hacc [Ht Hl]. done.
  - destruct (map_err PackCapture (file_len w path)) as [n|]; [|done].
    destruct (n <=? _)%Z eqn:Hn; [|done]. destruct (total + n <=? u64_max)%Z; [|done].
    destruct (total + n <=? max_repo_bytes limits)%Z eqn:Hm; [|done].
    destruct (map_err PackCapture (file_len w _)) as [i|]; [|done].
    destruct (i <=? _)%Z; [|done]. bool_prop. intros Hc Hacc [Ht Hl].
    eapply IH; [exact Hc|..].
    + apply Forall_app. split; [done|]. by repeat constructor.
    + split; [|by right]. rewrite fmap_app, foldr_app, Ht.
      rewrite (foldr_add_acc (pack_bytes <$> acc) (foldr _ _ _)). simpl. lia.
Qed.
