(* ===== verification/GitServe.v ===== *)
(** * Serving a repository (buzz-relay/src/api/git/hydrate.rs, transport.rs, binding.rs)

    Hydration reads the pointer and its manifest and materializes the packs; the read
    handlers answer from it; [receive_pack] hydrates, runs git and finalizes the push. As in
    [GitPublish], what the local disk, git, the process's pack cache and the database answer
    to one request is data of that request; the object store is reached through [Prog]. *)

From S2P Require Import Prelude Text StdText Channel Filter GitManifest GitWire GitStore GitPublish.

Open Scope string_scope.
Open Scope nat_scope.
Open Scope list_scope.

(** ** Hydration *)

Definition MAX_MANIFEST_BYTES : Z := 4 * 1024 * 1024.

Inductive HydrateError :=
  | InvalidPointer
  | HydrateManifest (e : ManifestError)
  | HydrateStore (e : StoreError)
  | Hydrate (e : string)
  | HydrateResourceLimit (e : string).

Record HydratedRepo := { hydrated_bytes : Z; hydrated_packs : nat }.

(** The answers of the disk, of git and of the pack cache while a repository is hydrated *)
Record Disk := {
  (** the temporary directory, [git init --bare], [git symbolic-ref] *)
  init_bare_repo : result unit string;
  (** a pack of the process's cache that could be linked into the workspace: its size *)
  cached : string → option Z;
  (** the population slot and the staging directory; the file of a fetched pack *)
  stage_pack : string → result unit string;
  write_pack : string → result unit string;
  write_idx : string → result unit string;
  (** [git verify-pack] on a stored index *)
  verify_pack : string → bool;
  (** [git index-pack]: the size of the index *)
  index_size : string → result Z string;
  (** publication in the cache and the link into the workspace *)
  install_entry : string → result unit string;
  (** the files of the refs and of HEAD *)
  write_refs : result unit string
}.

Section hydrate.
Context `{Sha256, Http, ManifestJson, IdText}.

Definition hydrate_get_verified_limited (key digest : string) (max_bytes : Z)
    : Prog (result string HydrateError) :=
  prog_map (map_err (λ e, match e with
    | ObjectTooLarge _ _ _ => HydrateResourceLimit "object too large"
    | e => HydrateStore e
    end)) (get_verified_limited key digest max_bytes).

(** The pointer, its digest and the verified manifest *)
Definition load_pointer (community : CommunityId) (owner repo : string)
    : Prog (result (option (string * string * Manifest)) HydrateError) :=
  p <-! prog_map (map_err HydrateStore) (get_pointer (pointer_key community owner repo)) ;;
  match p with
  | None => Ret (Ok None)
  | Some (etag, pointer_bytes) =>
      guard% is_utf8 pointer_bytes else InvalidPointer ;;
      let digest := str_trim pointer_bytes in
      guard% hex64 digest else InvalidPointer ;;
      bytes <-! hydrate_get_verified_limited ("manifests/" +:+ digest) digest MAX_MANIFEST_BYTES ;;
      m <-% map_err HydrateManifest (manifest_from_bytes bytes) ;;
      _ <-% map_err HydrateManifest (validate m) ;;
      Ret (Ok (Some (etag, digest, m)))
  end.

Definition install_or_generate_idx (d : Disk) (pack_digest : string) (max_idx_bytes : Z)
    : Prog (result unit HydrateError) :=
  let generate :=
    idx_bytes <-% map_err Hydrate (index_size d pack_digest) ;;
    guard% (idx_bytes <=? max_idx_bytes)%Z else HydrateResourceLimit "generated idx" ;;
    Ret (Ok tt) in
  r <-* get_idx pack_digest max_idx_bytes ;;
  match r with
  | Ok (Some _) =>
      _ <-% map_err Hydrate (write_idx d pack_digest) ;;
      if verify_pack d pack_digest then Ret (Ok tt) else generate
  | Ok None | Err _ => generate
  end.

(** [GitPackCache::materialize_pack]: the cache's entry, or a population from the store. What
    the cache holds is an answer of the disk. *)
Definition materialize_pack (d : Disk) (object_key digest : string) (max_pack_bytes : Z)
    : Prog (result Z HydrateError) :=
  guard% hex64 digest else Hydrate "pack cache digest is malformed" ;;
  match cached d digest with
  | Some n => Ret (Ok n)
  | None =>
      _ <-% map_err Hydrate (stage_pack d digest) ;;
      bytes <-! hydrate_get_verified_limited object_key digest max_pack_bytes ;;
      _ <-% map_err Hydrate (write_pack d digest) ;;
      _ <-! install_or_generate_idx d digest max_pack_bytes ;;
      _ <-% map_err Hydrate (install_entry d digest) ;;
      Ret (Ok (byte_len bytes))
  end.

Record HydrationOptions := { opt_max_pack_bytes : Z; opt_max_repo_bytes : Z }.

(** Phase 1: the packs, one after the other *)
Fixpoint materialize_packs (d : Disk) (o : HydrationOptions) (keys : list string) (total : Z)
    : Prog (result Z HydrateError) :=
  match keys with
  | [] => Ret (Ok total)
  | key :: keys =>
      match strip_prefix "packs/" key with
      | None => Ret (Err (Hydrate "malformed pack key"))
      | Some digest =>
          bytes <-! materialize_pack d key digest (opt_max_pack_bytes o) ;;
          guard% (bytes <=? opt_max_pack_bytes o)%Z else HydrateResourceLimit "pack" ;;
          guard% (total + bytes <=? u64_max)%Z else HydrateResourceLimit "repo byte count overflowed u64" ;;
          guard% (total + bytes <=? opt_max_repo_bytes o)%Z else HydrateResourceLimit "repo" ;;
          materialize_packs d o keys (total + bytes)%Z
      end
  end.

(** Phase 2: the refs and HEAD *)
Definition installable (m : Manifest) : bool :=
  forallb (λ kv, is_safe_refname kv.1 && is_hex_oid kv.2) (iter (refs m)) && is_safe_refname (head m).

Definition materialize_manifest (d : Disk) (o : HydrationOptions) (m : Manifest)
    : Prog (result HydratedRepo HydrateError) :=
  _ <-% map_err Hydrate (init_bare_repo d) ;;
  total <-! materialize_packs d o (packs m) 0 ;;
  guard% installable m else Hydrate "unsafe ref name or malformed oid" ;;
  _ <-% map_err Hydrate (write_refs d) ;;
  Ret (Ok {| hydrated_bytes := total; hydrated_packs := length (packs m) |}).

Definition hydrate_for_read (community : CommunityId) (owner repo : string) (d : Disk)
    (o : HydrationOptions) : Prog (result (option (Manifest * HydratedRepo)) HydrateError) :=
  loaded <-! load_pointer community owner repo ;;
  match loaded with
  | None => Ret (Ok None)
  | Some (_, _, m) => r <-! materialize_manifest d o m ;; Ret (Ok (Some (m, r)))
  end.

Definition load_manifest_for_read (community : CommunityId) (owner repo : string)
    : Prog (result (option Manifest) HydrateError) :=
  loaded <-! load_pointer community owner repo ;; Ret (Ok (snd <$> loaded)).

Definition hydrate_for_write (community : CommunityId) (owner repo : string) (d : Disk)
    (o : HydrationOptions) : Prog (result (HydratedRepo * ParentState) HydrateError) :=
  loaded <-! load_pointer community owner repo ;;
  match loaded with
  | Some (etag, digest, m) =>
      r <-! materialize_manifest d o m ;;
      Ret (Ok (r, from_loaded etag digest m))
  | None =>
      _ <-% map_err Hydrate (init_bare_repo d) ;;
      Ret (Ok ({| hydrated_bytes := 0; hydrated_packs := 0 |}, fresh))
  end.

End hydrate.

(** ** Responses *)

Record Response := { status : Z; text : string }.

Definition respond (status : Z) (text : string) : Response := {| status := status; text := text |}.

Definition hydrate_error_to_response (e : HydrateError) : Response :=
  match e with
  | HydrateResourceLimit _ => respond 413 "repository exceeds relay resource limits"
  | _ => respond 500 "git backend hydration failed"
  end.

(** ** Names of repositories *)

Definition validate_repo_id (owner repo : string) : result string Response :=
  guard! (String.length owner =? 64)
         && chars_all (λ c, is_ascii_hexdigit c && negb (is_ascii_uppercase c)) owner
    else respond 400 "invalid owner" ;;
  let repo_name := default repo (strip_suffix ".git" repo) in
  guard! negb (bool_decide (repo_name = "")) && (String.length repo_name <=? 64)
         && negb (starts_with "." repo_name) && negb (contains ".." repo_name)
         && chars_all (λ c, is_ascii_alphanumeric c || existsb (Ascii.eqb c) ["."; "_"; "-"]%char) repo_name
    else respond 400 "invalid repo name" ;;
  Ok repo_name.

(** ** The read gate *)

Inductive RepoBinding := NotBound | Bound (id : Uuid) | Broken.


Section gate.
Context `{UuidText, IdText}.

Definition resolve_repo_binding (event : Event) : RepoBinding :=
  match List.find (λ t, bool_decide (tag_kind t = "buzz-channel")) (ev_tags event) with
  | None => NotBound
  | Some first =>
      match tag_content first ≫= uuid_parse_str with
      | Some id => Bound id
      | None => Broken
      end
  end.

Definition read_role_allows (role : option string) : bool :=
  match role with Some r => is_ok (MemberRoleOps.from_str r) | None => false end.

(** What the database answers: the live announcement of the owner and name, and the role of
    the caller in a channel *)
Record GateAnswers := {
  announcement : result (option Event) string;
  get_member_role : Uuid → result (option string) string
}.

Definition denied : Response := respond 404 "repository not found".

Definition remediation (repo_name : string) : Response :=
  respond 404 ("run: buzz repos bind --id " +:+ repo_name +:+ " --channel <channel-uuid>").

Definition authorize_git_read (a : GateAnswers) (caller owner_hex repo_name : string)
    : result unit Response :=
  guard! is_some_and (λ b, length b =? 32) (hex_decode owner_hex) else denied ;;
  match announcement a with
  | Ok (Some repo_event) =>
      match resolve_repo_binding repo_event with
      | Bound channel_id =>
          match get_member_role a channel_id with
          | Ok role => if read_role_allows role then Ok tt else Err denied
          | Err _ => Err denied
          end
      | NotBound =>
          if decide (ev_pubkey repo_event = caller) then Err (remediation repo_name) else Err denied
      | Broken => Err denied
      end
  | _ => Err denied
  end.

End gate.

(** ** Reads *)

Definition RECEIVE_PACK_MAX_OUTPUT_BYTES : Z := 1024 * 1024.
Definition INFO_REFS_MAX_OUTPUT_BYTES : Z := 4 * 1024 * 1024.

(** The run of a git subprocess: what it printed and whether it exited with zero, or that it
    timed out, or that it could not be run or read *)
Inductive GitRun := RunDone (stdout : string) (success : bool) | RunTimedOut | RunFailed.

Definition run_failed (timed_out : bool) : Response :=
  if timed_out then respond 504 "git operation timed out" else respond 500 "git error".

Record ReadRequest := {
  read_service : string;
  read_community : CommunityId;
  read_caller : string;
  read_owner : string;
  read_repo : string;
  read_options : HydrationOptions;
  read_gate : GateAnswers;
  read_permit : bool;
  read_disk : Disk;
  (** [git <service> --advertise-refs] or [git upload-pack] on a workspace with these refs *)
  read_git : Manifest → GitRun
}.

(** A read that succeeded says which manifest it served. *)
Record Served := { response : Response; served : option Manifest }.

Definition failed (r : Response) : Served := {| response := r; served := None |}.

Section reads.
Context `{Sha256, Http, ManifestJson, IdText, UuidText}.

Definition not_found : Response := respond 404 "repository not found".
Definition busy : Response := respond 503 "git service busy".

Definition service_header (service stdout : string) : string :=
  let svc_line := "# service=" +:+ service +:+ newline in
  hex4 (len svc_line + 4) +:+ svc_line +:+ "0000" +:+ stdout.

Definition info_refs_subprocess (q : ReadRequest) : Prog Served :=
  if negb (read_permit q) then Ret (failed busy)
  else
    r <-* hydrate_for_read (read_community q) (read_owner q) (read_repo q) (read_disk q)
            (read_options q) ;;
    match r with
    | Ok None => Ret (failed not_found)
    | Err e => Ret (failed (hydrate_error_to_response e))
    | Ok (Some (m, _)) =>
        match read_git q m with
        | RunTimedOut => Ret (failed (run_failed true))
        | RunFailed => Ret (failed (run_failed false))
        | RunDone stdout success =>
            if negb success then Ret (failed (respond 500 "git error"))
            else if (INFO_REFS_MAX_OUTPUT_BYTES <? byte_len stdout)%Z
            then Ret (failed (respond 413 "git ref advertisement exceeds relay limits"))
            else Ret {| response := respond 200 (service_header (read_service q) stdout);
                        served := Some m |}
        end
    end.

Definition info_refs (q : ReadRequest) : Prog Served :=
  if negb (bool_decide (read_service q ∈ ["git-upload-pack"; "git-receive-pack"]))
  then Ret (failed (respond 400 "invalid service"))
  else match validate_repo_id (read_owner q) (read_repo q) with
  | Err r => Ret (failed r)
  | Ok repo_name =>
  match authorize_git_read (read_gate q) (read_caller q) (read_owner q) repo_name with
  | Err r => Ret (failed r)
  | Ok _ =>
      if decide (read_service q = "git-upload-pack") then
        r <-* load_manifest_for_read (read_community q) (read_owner q) (read_repo q) ;;
        match r with
        | Ok (Some m) =>
            if fast_path_eligible m then
              Ret {| response := respond 200 (default "" (build_upload_pack_advertisement m));
                     served := Some m |}
            else info_refs_subprocess q
        | Ok None => Ret (failed not_found)
        | Err e => Ret (failed (hydrate_error_to_response e))
        end
      else info_refs_subprocess q
  end
  end.

(** The response streams what git prints; only a process that does not start is an error. *)
Definition upload_pack_handler (q : ReadRequest) : Prog Served :=
  match validate_repo_id (read_owner q) (read_repo q) with
  | Err r => Ret (failed r)
  | Ok repo_name =>
  match authorize_git_read (read_gate q) (read_caller q) (read_owner q) repo_name with
  | Err r => Ret (failed r)
  | Ok _ =>
      if negb (read_permit q) then Ret (failed busy)
      else
        r <-* hydrate_for_read (read_community q) (read_owner q) (read_repo q) (read_disk q)
                (read_options q) ;;
        match r with
        | Ok None => Ret (failed not_found)
        | Err e => Ret (failed (hydrate_error_to_response e))
        | Ok (Some (m, _)) =>
            match read_git q m with
            | RunTimedOut | RunFailed => Ret (failed (run_failed false))
            | RunDone stdout _ => Ret {| response := respond 200 stdout; served := Some m |}
            end
        end
  end
  end.

End reads.

(** ** Pushes *)

(** The serving-write lease of the community (buzz-deletion): what its calls answer, and the
    store call during which the lease is found lost, if it is *)
Record LeaseAnswers := {
  acquire_serving_write : result unit string;
  lease_verify : nat → result unit string;
  lease_lost_at : option nat;
  lease_finish : result unit string
}.

Record PushRequest := {
  push_community : CommunityId;
  push_owner : string;
  push_repo : string;
  (** the pusher's key in hex, and as the nostr crate prints it after parsing *)
  pusher : string;
  pusher_key : option string;
  push_max_pack_bytes : Z;
  push_max_repo_bytes : Z;
  push_permit : bool;
  push_disk : Disk;
  hook_installed : result unit string;
  (** git receive-pack on the hydrated workspace, by the manifest it was hydrated from, and
      the workspace it leaves *)
  receive_pack_run : Manifest → GitRun;
  push_workspace : Manifest → Workspace;
  lease : LeaseAnswers;
  (** signing the ref-state event; its insertion: [true] if it was new *)
  sign_ok : bool;
  insert_event : result bool string
}.

(** The outcome of a push: its response, and the tags of the ref-state event that was handed
    to the database, if one was *)
Record Finished := { answer : Response; announced : option (list (list string)) }.

Definition quiet (r : Response) : Finished := {| answer := r; announced := None |}.

Record PackOutput := { pack_stdout : string; pack_ok : bool }.

Section pushes.
Context `{Sha256, Http, ManifestJson, IdText}.

(** [run_git_at] for receive-pack *)
Definition run_git_at (run : GitRun) : result PackOutput Response :=
  match run with
  | RunTimedOut => Err (run_failed true)
  | RunFailed => Err (run_failed false)
  | RunDone stdout success =>
      guard! (byte_len stdout <=? RECEIVE_PACK_MAX_OUTPUT_BYTES)%Z
        else respond 413 "git output exceeds relay limits" ;;
      Ok {| pack_stdout := stdout; pack_ok := success && negb (receive_pack_report_rejected stdout) |}
  end.

(** [ServingWriteGuard::protect]; [None] is the loss of the lease. *)
Definition protect {A} (l : LeaseAnswers) (operation : Prog A) : Prog (option A) :=
  match lease_verify l 1 with
  | Err _ => Ret None
  | Ok _ =>
      output <-* deadline (lease_lost_at l) operation ;;
      match output, lease_verify l 2 with
      | Some a, Ok _ => Ret (Some a)
      | _, _ => Ret None
      end
  end.

Definition cas_error_to_response (e : CasError) : Response :=
  match e with
  | Conflict _ _ => respond 409 "push superseded by a concurrent writer; pull and retry"
  | ManifestInvalid _ => respond 400 "push produced invalid manifest state"
  | CasResourceLimit _ => respond 413 "repository exceeds relay resource limits"
  | _ => respond 500 "git backend error"
  end.

(** Whether the committed manifest differs from the parent, by digest *)
Definition manifest_changed (parent_state : ParentState) (success : CasSuccess) : bool :=
  match parent_digest parent_state, strip_prefix "manifests/" (manifest_key success) with
  | Some before, Some after => negb (bool_decide (before = after))
  | _, _ => true
  end.

(** The ref-state event: the tags handed to the database, and whether all went well *)
Definition publish_ref_state (q : PushRequest) (repo_id : string) (parent_state : ParentState)
    (success : CasSuccess) : option (list (list string)) * result unit string :=
  if manifest_changed parent_state success then
    match ref_state_tags repo_id (head (manifest success)) (refs (manifest success)) (pusher_key q) with
    | Err e => (None, Err e)
    | Ok tags =>
        if sign_ok q then
          (Some tags, match insert_event q with Ok _ => Ok tt | Err e => Err e end)
        else (None, Err "nostr event signing failed")
    end
  else (None, Ok tt).

Definition finalize_push_inner (q : PushRequest) (repo_id : string) (w : Workspace)
    (pack : PackOutput) (parent_state : ParentState) (repo : HydratedRepo) : Prog Finished :=
  if negb (pack_ok pack) then Ret (quiet (respond 200 (pack_stdout pack)))
  else match acquire_serving_write (lease q) with
  | Err _ => Ret (quiet (respond 503 "community writes are fenced"))
  | Ok _ =>
  match lease_verify (lease q) 0 with
  | Err _ => Ret (quiet (respond 503 "community write lease lost"))
  | Ok _ =>
      r <-* protect (lease q)
              (cas_publish (push_community q) (push_owner q) (push_repo q) w parent_state
                 {| parent_hydrated_bytes := hydrated_bytes repo;
                    max_pack_bytes := push_max_pack_bytes q;
                    max_repo_bytes := push_max_repo_bytes q |}) ;;
      match r with
      | None => Ret (quiet (respond 503 "community write lease lost"))
      | Some (Err e) => Ret (quiet (cas_error_to_response e))
      | Some (Ok success) =>
          let publication := publish_ref_state q repo_id parent_state success in
          Ret {| announced := publication.1;
                 answer :=
                   match lease_finish (lease q), publication.2 with
                   | Err _, _ => respond 503 "community write lease lost during publication"
                   | Ok _, Err _ =>
                       respond 500 "push committed but ref-state publication failed; retry"
                   | Ok _, Ok _ => respond 200 (pack_stdout pack)
                   end |}
      end
  end
  end.

Definition receive_pack (q : PushRequest) : Prog Finished :=
  match validate_repo_id (push_owner q) (push_repo q) with
  | Err r => Ret (quiet r)
  | Ok repo_name =>
      if negb (push_permit q) then Ret (quiet busy)
      else
        h <-* hydrate_for_write (push_community q) (push_owner q) (push_repo q) (push_disk q)
                {| opt_max_pack_bytes := push_max_pack_bytes q;
                   opt_max_repo_bytes := push_max_repo_bytes q |} ;;
        match h with
        | Err e => Ret (quiet (hydrate_error_to_response e))
        | Ok (repo, parent_state) =>
        match hook_installed q with
        | Err _ => Ret (quiet (respond 500 "git hook install failed"))
        | Ok _ =>
        match run_git_at (receive_pack_run q (parent_manifest parent_state)) with
        | Err r => Ret (quiet r)
        | Ok pack =>
            finalize_push_inner q repo_name (push_workspace q (parent_manifest parent_state)) pack
              parent_state repo
        end
        end
        end
  end.

End pushes.

(** ** Names and the gate *)

Lemma chars_all_contains (f : Ascii.ascii → bool) (c : Ascii.ascii) (s : string) :
  f c = false → chars_all f s = true → string_contains c s = false.
Proof.
  intros Hf. unfold chars_all. induction s as [|a s IH]; [done|]. simpl.
  intros [Ha Hs]%andb_true_iff. rewrite string_contains_cons, (IH Hs), orb_false_r.
  apply Ascii.eqb_neq. intros ->. congruence.
Qed.

Lemma repo_id_words (owner repo repo_name : string) :
  validate_repo_id owner repo = Ok repo_name →
  repo_name = default repo (strip_suffix ".git" repo) ∧
  string_contains "/" owner = false ∧ string_contains "/" repo_name = false.
Proof.
  unfold validate_repo_id. destruct (_ && _) eqn:Ho; [|done].
  destruct (_ && _) eqn:Hr in |- *; [|done]. intros [= <-]. split; [done|].
  apply andb_true_iff in Ho as [_ Ho]. apply andb_true_iff in Hr as [_ Hr].
  by split; (eapply chars_all_contains; [|eassumption]).
Qed.

(** Repositories do not share a pointer: two requests whose owner and name are accepted
    have the same pointer key only if they name the same community, the same owner and the
    same repository, with or without [.git]. *)
Theorem repositories_apart `{IdText} (c c' : CommunityId) (owner owner' repo repo' name name' : string)
    (Hinj : Inj (=) (=) uuid_to_string)
    (Hword : ∀ u, string_contains "/" (uuid_to_string u) = false)
    (Hok : validate_repo_id owner repo = Ok name) (Hok' : validate_repo_id owner' repo' = Ok name') :
  pointer_key c owner repo = pointer_key c' owner' repo' ↔ c = c' ∧ owner = owner' ∧ name = name'.
Proof.
  destruct (repo_id_words _ _ _ Hok) as (-> & Ho & Hn).
  destruct (repo_id_words _ _ _ Hok') as (-> & Ho' & Hn'). split.
  - unfold pointer_key. set (n := default repo _) in *. set (n' := default repo' _) in *.
    assert (∀ u o x, string_contains "/" o = false → string_contains "/" x = false →
      split_on "/" ("repos/" +:+ uuid_to_string u +:+ "/" +:+ o +:+ "/" +:+ x +:+ "/pointer")
      = ["repos"; uuid_to_string u; o; x; "pointer"]) as Hsplit.
    { intros u o x Hox Hx.
      etransitivity; [exact (f_equal (split_on "/") (eq_refl ("repos" +:+ String "/"
        (uuid_to_string u +:+ String "/" (o +:+ String "/" (x +:+ String "/" "pointer"))))))|].
      by rewrite !split_on_app by done. }
    intros Heq. apply (f_equal (split_on "/")) in Heq. rewrite !Hsplit in Heq by done.
    injection Heq as Hu -> ->. by apply Hinj in Hu.
  - intros (-> & -> & Heq). unfold pointer_key. by rewrite Heq.
Qed.

(** The read gate fails closed: a read is let through exactly when the owner is a key, the
    repository is announced, the first [buzz-channel] tag of its announcement holds a channel
    id, and the caller has one of the known roles in that channel. Every refusal is the same
    404, but for the text that the author of an announcement without such a tag gets. *)
Theorem read_gate_exact `{UuidText, IdText} (a : GateAnswers) (caller owner repo : string) :
  (authorize_git_read a caller owner repo = Ok tt ↔
     is_some_and (λ b, length b =? 32) (hex_decode owner) = true ∧
     ∃ ev t id role, announcement a = Ok (Some ev) ∧
       List.find (λ t, bool_decide (tag_kind t = "buzz-channel")) (ev_tags ev) = Some t ∧
       tag_content t ≫= uuid_parse_str = Some id ∧
       get_member_role a id = Ok (Some (MemberRoleOps.as_str role))) ∧
  ∀ r, authorize_git_read a caller owner repo = Err r →
    r = denied ∨
    (r = remediation repo ∧ ∃ ev, announcement a = Ok (Some ev) ∧ ev_pubkey ev = caller ∧
       ∀ t, t ∈ ev_tags ev → tag_kind t ≠ "buzz-channel").
Proof.
  unfold authorize_git_read. destruct (is_some_and _ _); simpl;
    [|split; [by split; [|intros []]|intros r [= <-]; by left]].
  destruct (announcement a) as [[ev|]|e];
    [|split; [split; [done|intros (_ & ? & ? & ? & ? & ? & ? & ? & ?); congruence]|intros r [= <-]; by left]..].
  unfold resolve_repo_binding. destruct (List.find _ (ev_tags ev)) as [t|] eqn:Ht.
  - destruct (tag_content t ≫= uuid_parse_str) as [id|] eqn:Hid;
      [|split; [split; [done|intros (_ & ? & ? & ? & ? & ? & ? & ? & ?); congruence]|intros r [= <-]; by left]].
    destruct (get_member_role a id) as [[role|]|e] eqn:Hrole; simpl;
      [|split; [split; [done|intros (_ & ? & ? & ? & ? & ? & ? & ? & ?); congruence]|intros r [= <-]; by left]..].
    destruct (MemberRoleOps.from_str role) as [m|] eqn:Hm; simpl.
    + split; [|done]. split; [|done]. intros _. split; [done|].
      apply role_from_str_inv in Hm as ->. by exists ev, t, id, m.
    + split; [|intros r [= <-]; by left]. split; [done|].
      intros (_ & ev' & t' & id' & m & [= <-] & Ht' & Hid' & Hrole').
      rewrite Ht in Ht'. injection Ht' as <-. rewrite Hid in Hid'. injection Hid' as <-. rewrite Hrole in Hrole'.
      injection Hrole' as ->. by rewrite role_from_as_str in Hm.
  - split; [split; [by case_decide|intros (_ & ? & ? & ? & ? & ? & ? & ? & ?); congruence]|]. intros r. case_decide as Hcaller;
      [|intros [= <-]; by left]. intros [= <-]. right. split; [done|]. exists ev.
    split; [done|]. split; [done|]. intros t Hin Hk.
    pose proof (find_none _ _ Ht t (proj1 (list_elem_of_In _ _) Hin)) as Hf.
    by apply bool_decide_eq_false in Hf.
Qed.

Module Plain.
#[export] Instance texts : IdText := {|
  uuid_to_string := λ u, decimal (Z.of_N u); hex_decode := λ s, Some (repeat 0%Z 32) |}.
End Plain.

Lemma repositories_apart_witness :
  let owner := String.concat "" (repeat "a" 64) in
  pointer_key (H := Plain.texts) 1 owner "notes.git" = pointer_key (H := Plain.texts) 1 owner "notes" ↔
  1%N = 1%N ∧ owner = owner ∧ "notes" = "notes".
Proof.
  intros owner. apply (repositories_apart (H := Plain.texts)).
  - intros u v Huv. apply decimal_inj in Huv; lia.
  - intros u. apply decimal_contains; [lia|done].
  - vm_compute. reflexivity.
  - vm_compute. reflexivity.
Defined.
