(* ===== verification/GitPolicy.v ===== *)
(** * The push policy endpoint (buzz-relay/src/api/git/policy.rs)

    The pre-receive hook posts the updates of a push here, signed with HMAC; the endpoint
    checks the shape of the request, its signature and its age, finds out what the pusher may
    do in the repository, and asks [GitPerms.evaluate_push]. The clock and the answers of the
    database are arguments; HMAC-SHA256 and the hex printer are the class [Hmac]. *)

From S2P Require Import Prelude Text StdText Channel GitPerms Filter GitServe.

Open Scope string_scope.
Open Scope nat_scope.
Open Scope list_scope.

Definition MAX_CALLBACK_AGE_SECS : Z := 30.

Definition GIT_NO_CHANNEL_BINDING_BODY : string :=
  "no_channel_binding: repository has no channel binding".

(** ** Requests *)

Record HookRefUpdate := {
  hook_old_oid : string;
  hook_new_oid : string;
  hook_ref_name : string;
  is_ancestor : bool
}.

Record HookCallbackRequest := {
  repo_id : string;
  repo_owner : string;
  community_id : string;
  pusher_pubkey : string;
  ref_updates : list HookRefUpdate;
  timestamp : Z;
  signature : string
}.

(** ** The signature *)

(** The hmac, sha2 and hex crates: the MAC of a message under a secret, as bytes *)
Class Hmac := {
  hmac_sha256 : string → string → list Z;
  hex_encode : list Z → string
}.

(** [sort_by_key]: a stable sort by the name of the ref *)
Definition ref_name_le (x y : HookRefUpdate) : Prop := String.le (hook_ref_name x) (hook_ref_name y).
#[export] Instance ref_name_le_dec : RelDecision ref_name_le.
Proof. intros x y. unfold ref_name_le. apply _. Defined.

Definition byte_count (s : string) : Z := Z.of_nat (String.length s).

Definition update_text (r : HookRefUpdate) : string :=
  hook_old_oid r +:+ hook_new_oid r +:+ decimal (byte_count (hook_ref_name r)) +:+ ":"
  +:+ hook_ref_name r +:+ (if is_ancestor r then "1" else "0").

Fixpoint updates_text (l : list HookRefUpdate) : string :=
  match l with [] => "" | r :: l => update_text r +:+ updates_text l end.

(** What [compute_hmac] feeds to the MAC *)
Definition hmac_payload (req : HookCallbackRequest) : string :=
  decimal (byte_count (repo_id req)) +:+ ":" +:+ repo_id req +:+ "|" +:+ repo_owner req +:+ "|"
  +:+ community_id req +:+ "|" +:+ pusher_pubkey req +:+ "|"
  +:+ updates_text (merge_sort ref_name_le (ref_updates req)) +:+ "|" +:+ decimal (timestamp req).

Section policy.
Context `{Hmac, IdText, UuidText}.

Definition compute_hmac (secret : string) (req : HookCallbackRequest) : list Z :=
  hmac_sha256 secret (hmac_payload req).

Definition verify_hmac (secret : string) (req : HookCallbackRequest) : bool :=
  match hex_decode (signature req) with
  | Some provided => bool_decide (compute_hmac secret req = provided)
  | None => false
  end.

Definition generate_hook_hmac (secret repo_id repo_owner community_id pusher_pubkey : string)
    (ref_updates : list HookRefUpdate) (timestamp : Z) : string :=
  hex_encode (compute_hmac secret
    {| repo_id := repo_id; repo_owner := repo_owner; community_id := community_id;
       pusher_pubkey := pusher_pubkey; ref_updates := ref_updates; timestamp := timestamp;
       signature := "" |}).

(** ** The checks of the request *)

Definition is_lower_hex64 (s : string) : bool :=
  (String.length s =? 64) && chars_all (λ c, is_ascii_hexdigit c && negb (is_ascii_uppercase c)) s.

Definition oid_ok (s : string) : bool := (String.length s =? 40) && chars_all is_ascii_hexdigit s.

(** [b <= 0x20 || b == 0x7f] *)
Definition control_byte (a : Ascii.ascii) : bool := between 0 32 a || between 127 127 a.

Definition ref_name_ok (s : string) : bool :=
  negb (bool_decide (s = "")) && (String.length s <=? 256) && starts_with "refs/" s
  && negb (contains ".." s) && chars_all (λ c, negb (control_byte c)) s.

Inductive HookAnswer :=
  | Allowed
  | Denied (denials : list (string * string))
  | Forbidden (body : string).

Definition hook_status (a : HookAnswer) : Z := match a with Allowed => 200 | _ => 403 end.

Fixpoint check_updates (l : list HookRefUpdate) : result unit HookAnswer :=
  match l with
  | [] => Ok tt
  | r :: l =>
      guard! oid_ok (hook_old_oid r) else Forbidden "invalid old_oid" ;;
      guard! oid_ok (hook_new_oid r) else Forbidden "invalid new_oid" ;;
      guard! ref_name_ok (hook_ref_name r) else Forbidden "invalid ref_name" ;;
      check_updates l
  end.

Definition check_shape (req : HookCallbackRequest) : result Uuid HookAnswer :=
  guard! negb (bool_decide (repo_id req = "")) && (String.length (repo_id req) <=? 64)
    else Forbidden "invalid repo_id" ;;
  guard! is_lower_hex64 (repo_owner req) else Forbidden "invalid repo_owner" ;;
  guard! is_lower_hex64 (pusher_pubkey req) else Forbidden "invalid pusher_pubkey" ;;
  match uuid_parse_str (community_id req) with
  | None => Err (Forbidden "invalid community_id")
  | Some community =>
      guard! negb (bool_decide (ref_updates req = [])) && (length (ref_updates req) <=? 500)
        else Forbidden "invalid ref_updates count" ;;
      _ <-? check_updates (ref_updates req) ;;
      Ok community
  end.

(** [u64::saturating_sub] *)
Definition saturating_sub (a b : Z) : Z := Z.max 0 (a - b).

Definition check_age (now : Z) (req : HookCallbackRequest) : result unit HookAnswer :=
  guard! (saturating_sub now (timestamp req) <=? MAX_CALLBACK_AGE_SECS)%Z
    else Forbidden "callback expired" ;;
  guard! (saturating_sub (timestamp req) now <=? 5)%Z else Forbidden "callback timestamp invalid" ;;
  Ok tt.

(** ** What the database answers *)

(** A live announcement: its author, and its tags as lists of their values *)
Record RepoAnnouncement := { author : string; raw_tags : list (list string) }.

Record PolicyDb := {
  query_repo : Uuid → string → string → result (option RepoAnnouncement) string;
  (** whether the channel is archived *)
  get_channel : Uuid → Uuid → result bool string;
  is_agent_owner : Uuid → string → string → result bool string;
  channel_role : Uuid → Uuid → string → result (option string) string
}.

(** [nostr::Tag]: its kind is its first value, its content the second. *)
Definition tag_of (values : list string) : Tag :=
  {| tag_kind := default "" (values !! 0); tag_content := values !! 1 |}.

Definition event_of (a : RepoAnnouncement) : Event :=
  {| ev_id_hex := ""; ev_pubkey := author a; ev_created_at := 0; ev_kind := 30617%N;
     ev_tags := tag_of <$> raw_tags a |}.

Definition is_key (s : string) : bool := is_some_and (λ b, length b =? 32) (hex_decode s).

(** Step 7: the pusher's role in the repository *)
Definition resolve_role (db : PolicyDb) (community : Uuid) (channel_id : option Uuid)
    (owner pusher author : string) : result MemberRole HookAnswer :=
  guard! is_key pusher else Forbidden "invalid pusher pubkey" ;;
  let is_repo_owner := bool_decide (pusher = author) in
  managed <-? (if is_repo_owner then Ok false
               else map_err (λ _, Forbidden "internal error") (is_agent_owner db community owner pusher)) ;;
  if is_repo_owner || managed then Ok Owner
  else match channel_id with
  | None => Err (Forbidden GIT_NO_CHANNEL_BINDING_BODY)
  | Some ch =>
      match channel_role db community ch pusher with
      | Ok (Some role) => map_err (λ _, Forbidden "internal error") (MemberRoleOps.from_str role)
      | Ok None => Err (Forbidden "not a channel member")
      | Err _ => Err (Forbidden "internal error")
      end
  end.

Definition git_role (role : MemberRole) : MemberRole :=
  match role with Bot => Member | other => other end.

Definition classify_update (r : HookRefUpdate) : RefUpdate :=
  {| ref_name := hook_ref_name r; kind := classify (hook_old_oid r) (hook_new_oid r) (is_ancestor r);
     old_oid := hook_old_oid r; new_oid := hook_new_oid r |}.

Definition deny (d : Denial) : string * string := (denial_ref d, reason d).

(** Steps 4 to 9, which give the rules, the role and the updates to judge *)
Definition resolve_push (db : PolicyDb) (community : Uuid) (req : HookCallbackRequest)
    : result (list ProtectionRule * MemberRole) HookAnswer :=
  guard! is_key (repo_owner req) else Forbidden "invalid repo owner" ;;
  repo <-? map_err (λ _, Forbidden "internal error")
             (query_repo db community (repo_owner req) (repo_id req)) ;;
  match repo with
  | None => Err (Forbidden "repository not found")
  | Some a =>
      parsed <-? map_err (λ _, Forbidden "malformed protection rules")
                   (parse_protection_tags (raw_tags a)) ;;
      channel_id <-? match resolve_repo_binding (event_of a) with
                     | Bound id => Ok (Some id)
                     | NotBound => Ok None
                     | Broken => Err (Forbidden "invalid channel binding")
                     end ;;
      _ <-? match channel_id with
            | None => Ok tt
            | Some ch =>
                match get_channel db community ch with
                | Ok true => Err (Forbidden "channel is archived (read-only)")
                | Ok false => Ok tt
                | Err _ => Err (Forbidden "internal error")
                end
            end ;;
      role <-? resolve_role db community channel_id (repo_owner req) (pusher_pubkey req) (author a) ;;
      Ok (rules parsed, git_role role)
  end.

(** [None] is a panic in the rule matcher. *)
Definition hook_policy_check (secret : string) (now : Z) (db : PolicyDb) (req : HookCallbackRequest)
    : option HookAnswer :=
  match check_shape req with
  | Err r => Some r
  | Ok community =>
      if negb (verify_hmac secret req) then Some (Forbidden "signature verification failed")
      else match check_age now req with
      | Err r => Some r
      | Ok _ =>
          match resolve_push db community req with
          | Err r => Some r
          | Ok (rules, role) =>
              verdict ← evaluate_push (classify_update <$> ref_updates req) role rules ;
              Some match verdict with
                   | Ok _ => Allowed
                   | Err denials => Denied (deny <$> denials)
                   end
          end
      end
  end.

(** ** Who may push, declaratively *)

(** A result that differs from the one on the other side *)
Ltac refute := intros; destruct_and?; repeat match goal with Hex : ∃ _, _ |- _ => destruct Hex as [? Hex] end;
  destruct_and?; congruence.


Inductive pusher_role (db : PolicyDb) (community : Uuid) (channel_id : option Uuid)
    (owner pusher author : string) : MemberRole → Prop :=
  | role_author : pusher = author → pusher_role db community channel_id owner pusher author Owner
  | role_agent_owner :
      pusher ≠ author → is_agent_owner db community owner pusher = Ok true →
      pusher_role db community channel_id owner pusher author Owner
  | role_member ch role :
      pusher ≠ author → is_agent_owner db community owner pusher = Ok false →
      channel_id = Some ch →
      channel_role db community ch pusher = Ok (Some (MemberRoleOps.as_str role)) →
      pusher_role db community channel_id owner pusher author role.

Record push_authorized (db : PolicyDb) (community : Uuid) (req : HookCallbackRequest) : Prop := {
  pa_keys : is_key (repo_owner req) = true ∧ is_key (pusher_pubkey req) = true;
  pa_repo : ∃ a parsed channel_id role,
    query_repo db community (repo_owner req) (repo_id req) = Ok (Some a) ∧
    parse_protection_tags (raw_tags a) = Ok parsed ∧
    match channel_id with
    | Some ch => resolve_repo_binding (event_of a) = Bound ch ∧ get_channel db community ch = Ok false
    | None => resolve_repo_binding (event_of a) = NotBound
    end ∧
    pusher_role db community channel_id (repo_owner req) (pusher_pubkey req) (author a) role ∧
    ∀ r, r ∈ ref_updates req → update_allowed (classify_update r) (git_role role) (rules parsed)
}.

Lemma resolve_role_ok db community channel_id owner pusher author role :
  resolve_role db community channel_id owner pusher author = Ok role ↔
  is_key pusher = true ∧ pusher_role db community channel_id owner pusher author role.
Proof.
  unfold resolve_role. destruct (is_key pusher); [|split; [done|by intros []]].
  destruct (decide (pusher = author)) as [Heq|Hne].
  - rewrite bool_decide_eq_true_2 by done. simpl. split.
    + intros [= <-]. split; [done|by constructor].
    + intros [_ Hr]. by inversion Hr.
  - rewrite bool_decide_eq_false_2 by done.
    destruct (is_agent_owner db community owner pusher) as [[|]|e] eqn:Ha; simpl.
    + split; [intros [= <-]; split; [done|by constructor]|]. intros [_ Hr].
      inversion Hr; congruence.
    + assert (pusher_role db community channel_id owner pusher author role ↔
        ∃ ch, channel_id = Some ch ∧
          channel_role db community ch pusher = Ok (Some (MemberRoleOps.as_str role))) as ->.
      { split; [intros Hr; inversion Hr; try congruence; by eexists|].
        intros (ch & ? & ?). by eapply role_member. }
      destruct channel_id as [ch|]; [|split; [done|refute]].
      destruct (channel_role db community ch pusher) as [[t|]|e] eqn:Hc; simpl;
        [|split; [done|refute]..].
      split.
      * destruct (MemberRoleOps.from_str t) as [m|] eqn:Hm; [|done]. intros [= <-].
        apply role_from_str_inv in Hm as ->. split; [done|]. by exists ch.
      * intros (_ & ch' & [= <-] & Hr). rewrite Hc in Hr. injection Hr as ->.
        by rewrite role_from_as_str.
    + split; [done|]. intros [_ Hr]. inversion Hr; congruence.
Qed.

Lemma resolve_push_ok db community req rs role :
  resolve_push db community req = Ok (rs, role) ↔
  is_key (repo_owner req) = true ∧ is_key (pusher_pubkey req) = true ∧
  ∃ a parsed channel_id r,
    query_repo db community (repo_owner req) (repo_id req) = Ok (Some a) ∧
    parse_protection_tags (raw_tags a) = Ok parsed ∧
    match channel_id with
    | Some ch => resolve_repo_binding (event_of a) = Bound ch ∧ get_channel db community ch = Ok false
    | None => resolve_repo_binding (event_of a) = NotBound
    end ∧
    pusher_role db community channel_id (repo_owner req) (pusher_pubkey req) (author a) r ∧
    rs = rules parsed ∧ role = git_role r.
Proof.
  unfold resolve_push. destruct (is_key (repo_owner req)); [|split; [done|by intros []]].
  destruct (query_repo _ _ _ _) as [[a|]|e]; simpl; [|split; [done|refute]..].
  destruct (parse_protection_tags (raw_tags a)) as [parsed|e] eqn:Hp; simpl;
    [|split; [done|refute]].
  split.
  - destruct (resolve_repo_binding (event_of a)) as [|ch|] eqn:Hb; simpl; [..|done].
    + destruct (resolve_role _ _ _ _ _ _) as [r|e] eqn:Hr; [|done]. simpl. intros [= <- <-].
      apply resolve_role_ok in Hr as [? ?]. split; [done|]. split; [done|].
      by exists a, parsed, None, r.
    + destruct (get_channel db community ch) as [[|]|e] eqn:Hch; simpl; try done.
      destruct (resolve_role _ _ _ _ _ _) as [r|e] eqn:Hr; [|done]. simpl. intros [= <- <-].
      apply resolve_role_ok in Hr as [? ?]. split; [done|]. split; [done|].
      by exists a, parsed, (Some ch), r.
  - intros (_ & Hk & a' & parsed' & channel_id & r & [= <-] & Hp' & Hch & Hr & -> & ->).
    rewrite Hp in Hp'. injection Hp' as <-.
    pose proof (proj2 (resolve_role_ok _ _ _ _ _ _ _) (conj Hk Hr)) as Hrole.
    destruct channel_id as [ch|].
    + destruct Hch as [-> Hch]. simpl. rewrite Hch. simpl. by rewrite Hrole.
    + rewrite Hch. simpl. by rewrite Hrole.
Qed.

Lemma resolve_push_rules db community req rs role :
  resolve_push db community req = Ok (rs, role) → rules_wf rs.
Proof.
  intros (_ & _ & a & parsed & ch & r & _ & Hp & _ & _ & -> & _)%resolve_push_ok.
  by eapply parse_protection_tags_wf.
Qed.

Lemma resolve_push_authorized db community req :
  push_authorized db community req ↔
  ∃ rs role, resolve_push db community req = Ok (rs, role) ∧
    evaluate_push (classify_update <$> ref_updates req) role rs = Some (Ok tt).
Proof.
  assert (∀ rs role, rules_wf rs →
    evaluate_push (classify_update <$> ref_updates req) role rs = Some (Ok tt) ↔
    ∀ r, r ∈ ref_updates req → update_allowed (classify_update r) role rs) as Hev.
  { intros rs role Hwf. rewrite (evaluate_push_Ok _ role rs Hwf). split.
    - intros Hall r Hr. apply Hall, list_elem_of_fmap. by exists r.
    - intros Hall u (r & -> & Hr)%list_elem_of_fmap. by apply Hall. }
  split.
  - intros [[Ho Hk] (a & parsed & ch & role & Hq & Hp & Hch & Hr & Hall)].
    exists (rules parsed), (git_role role). rewrite resolve_push_ok, Hev.
    + split; [|done]. split; [done|]. split; [done|]. by exists a, parsed, ch, role.
    + by eapply parse_protection_tags_wf.
  - intros (rs & role & Hres & He). rewrite (Hev rs role (resolve_push_rules _ _ _ _ _ Hres)) in He.
    apply resolve_push_ok in Hres as (Ho & Hk & a & parsed & ch & r & Hq & Hp & Hch & Hr & -> & ->).
    split; [done|]. by exists a, parsed, ch, r.
Qed.

Lemma resolve_push_err db community req : resolve_push db community req ≠ Err Allowed.
Proof.
  unfold resolve_push. destruct (is_key _); [|done]. destruct (query_repo _ _ _ _) as [[a|]|]; [|done..].
  simpl. destruct (parse_protection_tags _) as [parsed|]; [|done]. simpl.
  assert (∀ ch, resolve_role db community ch (repo_owner req) (pusher_pubkey req) (author a) ≠ Err Allowed) as Hr.
  { intros ch. unfold resolve_role. destruct (is_key _); [|done].
    destruct (bool_decide _); [done|]. destruct (is_agent_owner _ _ _ _) as [[|]|]; [done| |done].
    simpl. destruct ch as [ch|]; [|done]. destruct (channel_role _ _ _ _) as [[t|]|]; [|done..].
    by destruct (MemberRoleOps.from_str t). }
  assert (∀ ch, (r <-? resolve_role db community ch (repo_owner req) (pusher_pubkey req) (author a) ;;
    Ok (rules parsed, git_role r)) ≠ Err Allowed) as Hr'.
  { intros ch. specialize (Hr ch). destruct (resolve_role _ _ ch _ _ _); simpl; [done|congruence]. }
  destruct (resolve_repo_binding _) as [|ch|]; simpl; [apply Hr'| |done].
  destruct (get_channel _ _ _) as [[|]|]; [done|apply Hr'|done].
Qed.

Ltac guards := repeat match goal with |- (if ?b then _ else _) = _ → _ => destruct b; [|done] end.

Lemma check_updates_err l : check_updates l ≠ Err Allowed.
Proof. unfold not. induction l as [|u l IH]; [done|]. simpl. guards. exact IH. Qed.

Lemma check_shape_err req : check_shape req ≠ Err Allowed.
Proof.
  unfold not, check_shape. guards. destruct (uuid_parse_str _); [|done]. guards.
  pose proof (check_updates_err (ref_updates req)) as Hu.
  destruct (check_updates (ref_updates req)); simpl; [done|congruence].
Qed.

(** C4 The policy endpoint always answers, never panics, and fails closed: it allows a push
    exactly when the request has the documented shape, its signature is the MAC of its
    content, it is at most 30 seconds old and at most 5 seconds ahead, the repository is
    announced by the owner with well-formed rules and an unbroken binding to a channel that
    is not archived (or none), the pusher is the author of the announcement, the owner of
    that agent, or a member of the channel with a known role, and every update is allowed to
    that role, a bot counting as a member, by the default policy and by every rule that
    covers its ref. Anything else is a 403. *)
Theorem policy_exact (secret : string) (now : Z) (db : PolicyDb) (req : HookCallbackRequest) :
  ∃ answer, hook_policy_check secret now db req = Some answer ∧
    (hook_status answer = 200%Z ∨ hook_status answer = 403%Z) ∧
    (hook_status answer = 200%Z ↔
       ∃ community, check_shape req = Ok community ∧
         hex_decode (signature req) = Some (compute_hmac secret req) ∧
         (now - 30 ≤ timestamp req ≤ now + 5)%Z ∧
         push_authorized db community req).
Proof.
  assert (∀ a, hook_status a = 200%Z ↔ a = Allowed) as Hst by (intros []; split; done).
  assert (∀ a P, hook_policy_check secret now db req = Some a → (a = Allowed ↔ P) →
    ∃ answer, hook_policy_check secret now db req = Some answer ∧
      (hook_status answer = 200%Z ∨ hook_status answer = 403%Z) ∧ (hook_status answer = 200%Z ↔ P)) as Hfin.
  { intros a P Ha HP. exists a. split; [done|]. split; [destruct a; auto|]. by rewrite Hst. }
  unfold hook_policy_check in *.
  destruct (check_shape req) as [community|r] eqn:Hshape.
  2: { eapply Hfin; [reflexivity|]. split; [|by intros (? & ? & _)]. intros ->. exfalso.
       by eapply check_shape_err. }
  unfold verify_hmac in *. destruct (hex_decode (signature req)) as [b|] eqn:Hsig; simpl in *.
  2: { eapply Hfin; [reflexivity|]. split; [done|]. intros (? & _ & ? & _). done. }
  destruct (decide (compute_hmac secret req = b)) as [Hb|Hb].
  2: { rewrite bool_decide_eq_false_2 in * by done. eapply Hfin; [reflexivity|].
       split; [done|]. intros (? & _ & [= ?] & _). done. }
  rewrite bool_decide_eq_true_2 in * by done. simpl in *.
  unfold check_age, saturating_sub, MAX_CALLBACK_AGE_SECS in *.
  destruct (Z.leb_spec (Z.max 0 (now - timestamp req)) 30) as [Ho|Ho]; simpl in *.
  2: { eapply Hfin; [reflexivity|]. split; [done|]. intros (? & _ & _ & ? & _). lia. }
  destruct (Z.leb_spec (Z.max 0 (timestamp req - now)) 5) as [Hy|Hy]; simpl in *.
  2: { eapply Hfin; [reflexivity|]. split; [done|]. intros (? & _ & _ & ? & _). lia. }
  assert (push_authorized db community req ↔
    ∃ c, Ok (E := HookAnswer) community = Ok c ∧ Some b = Some (compute_hmac secret req) ∧
      (now - 30 ≤ timestamp req ≤ now + 5)%Z ∧ push_authorized db c req) as Hspec.
  { split; [intros Hp; exists community; split_and!; [done|by rewrite Hb|lia..|done]|]. intros (c & [= <-] & _ & _ & Hp). done. }
  destruct (resolve_push db community req) as [[rs role]|r] eqn:Hres; simpl in *.
  - pose proof (resolve_push_rules _ _ _ _ _ Hres) as Hwf.
    destruct (collect_denials_spec (classify_update <$> ref_updates req) role rs Hwf) as (ds & Hds & _).
    unfold evaluate_push in *. rewrite Hds in *. simpl in *.
    eapply Hfin; [reflexivity|]. rewrite <- Hspec, resolve_push_authorized, Hres.
    unfold evaluate_push. split.
    + intros Ha. exists rs, role. split; [done|]. rewrite Hds. simpl. by destruct ds.
    + intros (rs' & role' & [= <- <-] & He). rewrite Hds in He. simpl in He. by destruct ds.
  - eapply Hfin; [reflexivity|]. rewrite <- Hspec, resolve_push_authorized, Hres. split.
    + intros ->. exfalso. by apply resolve_push_err in Hres.
    + by intros (? & ? & ? & _).
Qed.

(** ** What the signature binds *)

Lemma check_updates_oids l :
  check_updates l = Ok tt → ∀ r, r ∈ l → oid_ok (hook_old_oid r) = true ∧ oid_ok (hook_new_oid r) = true.
Proof.
  induction l as [|u l IH]; [intros _ r Hr; by apply not_elem_of_nil in Hr|]. simpl.
  destruct (oid_ok (hook_old_oid u)) eqn:Ho; [|done].
  destruct (oid_ok (hook_new_oid u)) eqn:Hn; [|done]. guards.
  intros Hl r [->|Hr]%elem_of_cons; [done|by apply IH].
Qed.

Lemma check_shape_ok req community :
  check_shape req = Ok community →
  String.length (repo_owner req) = 64 ∧ String.length (pusher_pubkey req) = 64 ∧
  uuid_parse_str (community_id req) = Some community ∧
  ∀ r, r ∈ ref_updates req → oid_ok (hook_old_oid r) = true ∧ oid_ok (hook_new_oid r) = true.
Proof.
  unfold check_shape. destruct (_ && _); [|done].
  destruct (is_lower_hex64 (repo_owner req)) eqn:Ho; [|done].
  destruct (is_lower_hex64 (pusher_pubkey req)) eqn:Hp; [|done].
  destruct (uuid_parse_str (community_id req)) as [c|]; [|done]. destruct (_ && _); [|done].
  destruct (check_updates (ref_updates req)) as [[]|] eqn:Hu; [|done]. simpl. intros [= <-].
  unfold is_lower_hex64 in Ho, Hp. apply andb_true_iff in Ho as [Ho _], Hp as [Hp _].
  apply Nat.eqb_eq in Ho, Hp. split; [done|]. split; [done|]. split; [done|].
  by apply check_updates_oids.
Qed.

Lemma oid_head (s t : string) : oid_ok s = true → ∀ u, s +:+ t ≠ String "|" u.
Proof.
  intros [Hl Hc]%andb_true_iff u Heq. destruct s as [|a s]; [done|].
  injection Heq as -> _. unfold chars_all in Hc. simpl in Hc. done.
Qed.

Lemma oid_length (s s' : string) : oid_ok s = true → oid_ok s' = true → String.length s = String.length s'.
Proof.
  unfold oid_ok. intros [Hs%Nat.eqb_eq _]%andb_true_iff [Hs'%Nat.eqb_eq _]%andb_true_iff. congruence.
Qed.

Lemma updates_text_inj (l l' : list HookRefUpdate) (t t' : string) :
  (∀ r, r ∈ l ++ l' → oid_ok (hook_old_oid r) = true ∧ oid_ok (hook_new_oid r) = true) →
  updates_text l +:+ String "|" t = updates_text l' +:+ String "|" t' → l = l' ∧ t = t'.
Proof.
  revert l'. induction l as [|r l IH]; intros [|r' l'] Hok Heq; simpl in Heq.
  - by injection Heq.
  - exfalso. unfold update_text in Heq. rewrite !string_app_assoc in Heq. symmetry in Heq.
    eapply oid_head; [|exact Heq]. apply Hok. set_solver.
  - exfalso. unfold update_text in Heq. rewrite !string_app_assoc in Heq.
    eapply oid_head; [|exact Heq]. apply Hok. set_solver.
  - destruct (Hok r) as [Ho Hn]; [set_solver|]. destruct (Hok r') as [Ho' Hn']; [set_solver|].
    unfold update_text in Heq. rewrite !string_app_assoc in Heq.
    apply same_length_inj in Heq as [Hold Heq]; [|by apply oid_length].
    apply same_length_inj in Heq as [Hnew Heq]; [|by apply oid_length].
    unfold byte_count in Heq. rewrite ?string_app_assoc in Heq.
    apply prefixed_inj in Heq as [Hname Heq].
    apply same_length_inj in Heq as [Hflag Heq]; [|by destruct (is_ancestor r), (is_ancestor r')].
    destruct (IH l') as [-> ->]; [intros u Hu; apply Hok; set_solver|exact Heq|].
    split; [|done]. f_equal. destruct r as [o n b a], r' as [o' n' b' a'].
    cbn [hook_old_oid hook_new_oid hook_ref_name is_ancestor] in *. subst.
    by destruct a, a'.
Qed.

(** A signature binds one request: two requests of the documented shape that carry one
    signature, both accepted under one secret, are the same repository, owner, community,
    pusher, time and set of updates, with only the order of the updates left open; otherwise
    they show two different texts with one HMAC. So no field of a signed request can be
    moved into another one. *)
Theorem signature_binds_request (secret : string) (req req' : HookCallbackRequest) (c c' : Uuid)
    (Hword : ∀ s id, uuid_parse_str s = Some id → string_contains "|" s = false)
    (Hshape : check_shape req = Ok c) (Hshape' : check_shape req' = Ok c')
    (Htime : (0 ≤ timestamp req)%Z) (Htime' : (0 ≤ timestamp req')%Z)
    (Hsig : verify_hmac secret req = true) (Hsig' : verify_hmac secret req' = true)
    (Hsame : signature req = signature req') :
  (hmac_payload req ≠ hmac_payload req' ∧
     hmac_sha256 secret (hmac_payload req) = hmac_sha256 secret (hmac_payload req')) ∨
  (repo_id req = repo_id req' ∧ repo_owner req = repo_owner req' ∧
   community_id req = community_id req' ∧ pusher_pubkey req = pusher_pubkey req' ∧
   timestamp req = timestamp req' ∧ ref_updates req ≡ₚ ref_updates req').
Proof.
  assert (compute_hmac secret req = compute_hmac secret req') as Hmac'.
  { unfold verify_hmac in *. rewrite Hsame in Hsig. destruct (hex_decode _); [|done].
    by apply bool_decide_eq_true in Hsig as ->, Hsig' as ->. }
  destruct (decide (hmac_payload req = hmac_payload req')) as [Heq|Hne]; [right|by left].
  destruct (check_shape_ok _ _ Hshape) as (Ho & Hp & Hc & Hu).
  destruct (check_shape_ok _ _ Hshape') as (Ho' & Hp' & Hc' & Hu').
  unfold hmac_payload, byte_count in Heq. apply prefixed_inj in Heq as [Hid Heq].
  apply same_length_inj in Heq as [_ Heq]; [|done].
  apply same_length_inj in Heq as [Hown Heq]; [|congruence].
  apply same_length_inj in Heq as [_ Heq]; [|done].
  apply (until_inj "|") in Heq as [Hcom Heq]; [|by eapply Hword..].
  apply same_length_inj in Heq as [Hpush Heq]; [|congruence].
  apply same_length_inj in Heq as [_ Heq]; [|done].
  apply updates_text_inj in Heq as [Hl Ht].
  - split_and!; try done; [by apply decimal_inj|].
    rewrite <- (merge_sort_Permutation ref_name_le (ref_updates req)), Hl.
    apply merge_sort_Permutation.
  - intros r [Hr|Hr]%elem_of_app; rewrite merge_sort_Permutation in Hr; [by apply Hu|by apply Hu'].
Qed.

End policy.

(** ** A push by a bot *)

Module Sample.

#[export] Instance texts : IdText := Plain.texts.
#[export] Instance uuids : UuidText := {|
  uuid_parse_str s := if string_contains "|" s then None else Some 7%N |}.
#[export] Instance mac : Hmac := {|
  hmac_sha256 _ _ := repeat 0%Z 32; hex_encode _ := "00" |}.

Definition update (name : string) : HookRefUpdate := {|
  hook_old_oid := String.concat "" (repeat "1" 40); hook_new_oid := String.concat "" (repeat "2" 40);
  hook_ref_name := name; is_ancestor := true |}.

Definition request (l : list HookRefUpdate) : HookCallbackRequest := {|
  repo_id := "notes"; repo_owner := String.concat "" (repeat "a" 64); community_id := "1";
  pusher_pubkey := String.concat "" (repeat "b" 64); ref_updates := l; timestamp := 100;
  signature := "00" |}.

Definition db (role : string) : PolicyDb := {|
  query_repo _ _ _ := Ok (Some {| author := String.concat "" (repeat "a" 64);
    raw_tags := [["buzz-channel"; "7"]; ["buzz-protect"; "refs/heads/main"; "no-force-push"]] |});
  get_channel _ _ := Ok false; is_agent_owner _ _ _ := Ok false;
  channel_role _ _ _ := Ok (Some role) |}.

Example bot_pushes_as_member :
  hook_policy_check "s" 110 (db "bot") (request [update "refs/heads/main"]) = Some Allowed ∧
  hook_status <$> hook_policy_check "s" 110 (db "guest") (request [update "refs/heads/main"])
  = Some 403%Z ∧
  hook_policy_check "s" 131 (db "bot") (request [update "refs/heads/main"])
  = Some (Forbidden "callback expired").
Proof. vm_compute. repeat split. Qed.

End Sample.

Section witness.
#[local] Existing Instances Sample.texts Sample.uuids Sample.mac.

Lemma signature_binds_request_witness :
  let r := Sample.request [Sample.update "refs/heads/a"; Sample.update "refs/heads/b"] in
  let r' := Sample.request [Sample.update "refs/heads/b"; Sample.update "refs/heads/a"] in
  verify_hmac "s" r = true ∧
  ((hmac_payload r ≠ hmac_payload r' ∧
    hmac_sha256 "s" (hmac_payload r) = hmac_sha256 "s" (hmac_payload r')) ∨
   (repo_id r = repo_id r' ∧ repo_owner r = repo_owner r' ∧ community_id r = community_id r' ∧
    pusher_pubkey r = pusher_pubkey r' ∧ timestamp r = timestamp r' ∧
    ref_updates r ≡ₚ ref_updates r')).
Proof.
  split; [vm_compute; reflexivity|].
  apply (signature_binds_request "s" _ _ 7%N 7%N); try (vm_compute; reflexivity).
  - intros s id Hs. simpl in Hs. by destruct (string_contains "|" s).
  - done.
  - done.
Defined.

End witness.
