(* ===== verification/PackCache.v ===== *)
(** * The pack cache of a relay process (buzz-relay/src/api/git/pack_cache.rs)

    The cache keeps pairs of a pack and its index in directories named by the pack's digest,
    within a byte limit. An [Arc<CachedPack>] is a handle into [arcs], which counts the
    clones outside the table; the final directories are [disk]. The operations under the
    cache's lock are single steps; the removal of directories after [prune] and
    [invalidate] have let go of the lock is a step of its own. *)

From S2P Require Import Prelude Text StdText.

Open Scope string_scope.
Open Scope nat_scope.
Open Scope list_scope.

(** ** Data *)

(** [cp_dir]: the digest of the final directory, [None] for a staging directory *)
Record CachedPack := { cp_dir : option string; cp_pack_bytes : Z; cp_total_bytes : Z }.

Record ArcCell := { cell : CachedPack; outside : nat }.

Record CacheRecord := { entry : nat; last_used : Z }.

Record GitPackCache := {
  entries : gmap string CacheRecord;
  cache_bytes : Z;
  tick : Z;
  max_bytes : Z;
  arcs : gmap nat ArcCell;
  next_arc : nat;
  (** the lengths of the pack and of the index in a final directory *)
  disk : gmap string (Z * Z)
}.

Definition pack_cache_new (max_bytes : Z) : GitPackCache :=
  {| entries := ∅; cache_bytes := 0; tick := 0; max_bytes := max_bytes; arcs := ∅; next_arc := 0;
     disk := ∅ |}.

Definition saturating_sub (a b : Z) : Z := Z.max 0 (a - b).

Definition with_table (c : GitPackCache) (e : gmap string CacheRecord) (b t : Z) : GitPackCache :=
  {| entries := e; cache_bytes := b; tick := t; max_bytes := max_bytes c; arcs := arcs c;
     next_arc := next_arc c; disk := disk c |}.
Definition with_arcs (c : GitPackCache) (a : gmap nat ArcCell) (n : nat) : GitPackCache :=
  {| entries := entries c; cache_bytes := cache_bytes c; tick := tick c; max_bytes := max_bytes c;
     arcs := a; next_arc := n; disk := disk c |}.
Definition with_disk (c : GitPackCache) (d : gmap string (Z * Z)) : GitPackCache :=
  {| entries := entries c; cache_bytes := cache_bytes c; tick := tick c; max_bytes := max_bytes c;
     arcs := arcs c; next_arc := next_arc c; disk := d |}.

(** [CachedPack::from_dir] on a final directory *)
Definition from_dir (disk : gmap string (Z * Z)) (digest : string) : option CachedPack :=
  '(pack, idx) ← disk !! digest;
  Some {| cp_dir := Some digest; cp_pack_bytes := pack; cp_total_bytes := u64_saturating_add pack idx |}.

(** ** Handles *)

Definition set_outside (c : GitPackCache) (h : nat) (f : nat → nat) : GitPackCache :=
  with_arcs c (alter (λ a, {| cell := cell a; outside := f (outside a) |}) h (arcs c)) (next_arc c).

(** [Arc::new]: the caller has the only clone. *)
Definition arc_new (c : GitPackCache) (p : CachedPack) : GitPackCache * nat :=
  (with_arcs c (<[next_arc c := {| cell := p; outside := 1 |}]> (arcs c)) (S (next_arc c)), next_arc c).

Definition arc_drop (c : GitPackCache) (h : nat) : GitPackCache := set_outside c h Nat.pred.

Definition clones_outside (c : GitPackCache) (h : nat) : nat :=
  match arcs c !! h with Some a => outside a | None => 0 end.

Definition bytes_of_handle (c : GitPackCache) (h : nat) : Z :=
  match arcs c !! h with Some a => cp_total_bytes (cell a) | None => 0 end.

Definition dir_of_handle (c : GitPackCache) (h : nat) : option string :=
  a ← arcs c !! h; cp_dir (cell a).

(** [Arc::strong_count] of an entry of the table: the table's clone and those outside *)
Definition strong_count (c : GitPackCache) (h : nat) : nat := S (clones_outside c h).

(** ** Operations *)

Section cache.
(** The iteration order of the table *)
Context (hash_order : gmap string CacheRecord → list (string * CacheRecord)).

Definition lookup (c : GitPackCache) (digest : string) : GitPackCache * option nat :=
  let next_tick := u64_saturating_add (tick c) 1 in
  let c1 := with_table c (entries c) (cache_bytes c) next_tick in
  match entries c !! digest with
  | None => (c1, None)
  | Some r =>
      (* the files of the entry, which the disk may have lost *)
      if bool_decide (is_Some (dir_of_handle c (entry r) ≫= λ d, disk c !! d)) then
        (set_outside (with_table c (<[digest := {| entry := entry r; last_used := next_tick |}]> (entries c))
                        (cache_bytes c) next_tick) (entry r) S, Some (entry r))
      else (c1, None)
  end.

Definition insert (c : GitPackCache) (digest : string) (h : nat) : GitPackCache :=
  let last_used := u64_saturating_add (tick c) 1 in
  let bytes := match entries c !! digest with
               | Some previous => saturating_sub (cache_bytes c) (bytes_of_handle c (entry previous))
               | None => cache_bytes c
               end in
  with_table c (<[digest := {| entry := h; last_used := last_used |}]> (entries c))
    (u64_saturating_add bytes (bytes_of_handle c h)) last_used.

(** [remove_dir_all] of the directory of an entry *)
Definition remove_dir (c : GitPackCache) (dir : option string) : GitPackCache :=
  match dir with Some d => with_disk c (delete d (disk c)) | None => c end.

Definition invalidate (c : GitPackCache) (digest : string) : GitPackCache :=
  match entries c !! digest with
  | None => c
  | Some r =>
      let c1 := with_table c (delete digest (entries c))
                  (saturating_sub (cache_bytes c) (bytes_of_handle c (entry r))) (tick c) in
      (* the removed record is the only clone *)
      if clones_outside c (entry r) =? 0 then remove_dir c1 (dir_of_handle c (entry r)) else c1
  end.

(** [min_by_key]: the first of the minimal elements *)
Fixpoint min_by_key {A} (key : A → Z) (l : list A) : option A :=
  match l with
  | [] => None
  | x :: l => match min_by_key key l with
              | Some y => if (key y <? key x)%Z then Some y else Some x
              | None => Some x
              end
  end.

Definition unused (c : GitPackCache) (r : CacheRecord) : bool := strong_count c (entry r) =? 1.

Definition candidate (c : GitPackCache) : option (string * CacheRecord) :=
  min_by_key (λ dr, last_used dr.2) (List.filter (λ dr, unused c dr.2) (hash_order (entries c))).

(** The loop of [prune]: every turn removes an entry. *)
Fixpoint prune_loop (fuel : nat) (c : GitPackCache) (removed : list (option string))
    : GitPackCache * list (option string) :=
  match fuel with
  | 0 => (c, removed)
  | S fuel =>
      if (max_bytes c <? cache_bytes c)%Z then
        match candidate c with
        | None => (c, removed)
        | Some (digest, r) =>
            prune_loop fuel
              (with_table c (delete digest (entries c))
                 (saturating_sub (cache_bytes c) (bytes_of_handle c (entry r))) (tick c))
              (removed ++ [dir_of_handle c (entry r)])
        end
      else (c, removed)
  end.

(** The part under the lock *)
Definition prune_locked (c : GitPackCache) : GitPackCache * list (option string) :=
  prune_loop (S (size (entries c))) c [].

Definition remove_dirs (c : GitPackCache) (dirs : list (option string)) : GitPackCache :=
  foldl remove_dir c dirs.

Definition prune (c : GitPackCache) : GitPackCache :=
  let (c1, removed) := prune_locked c in remove_dirs c1 removed.

(** ** Population and [materialize_pack]

    What the store and the disk answer: the sizes of the verified pack and of its index in
    the staging directory, the rename, and whether the links or copies into the request's
    workspace can be made, at the first attempt and after it. *)
Record CacheIo := {
  staged : result (Z * Z) string;
  rename_ok : bool;
  link_cached : bool;
  link_populated : bool
}.

Definition populate (c : GitPackCache) (digest : string) (io : CacheIo)
    : GitPackCache * result nat string :=
  match staged io with
  | Err e => (c, Err e)
  | Ok (pack_bytes, idx_bytes) =>
      let total := u64_saturating_add pack_bytes idx_bytes in
      if (max_bytes c =? 0)%Z || (max_bytes c <? total)%Z then
        let (c, h) := arc_new c {| cp_dir := None; cp_pack_bytes := pack_bytes; cp_total_bytes := total |} in
        (c, Ok h)
      else
        match from_dir (disk c) digest with
        | Some p => let (c, h) := arc_new c p in (insert c digest h, Ok h)
        | None =>
            if rename_ok io then
              let c := with_disk c (<[digest := (pack_bytes, idx_bytes)]> (disk c)) in
              match from_dir (disk c) digest with
              | Some p => let (c, h) := arc_new c p in (insert c digest h, Ok h)
              | None => (c, Err "published pack cache entry is incomplete")
              end
            else (c, Err "publish cached pack")
        end
  end.

(** The files of the handle can be linked: those of a staging directory are there as long as
    the handle. *)
Definition install_entry (c : GitPackCache) (h : nat) (link : bool) : result Z string :=
  match arcs c !! h with
  | None => Err "no such entry"
  | Some a =>
      let present := match cp_dir (cell a) with
                     | Some d => bool_decide (is_Some (disk c !! d))
                     | None => true
                     end in
      if present && link then Ok (cp_pack_bytes (cell a)) else Err "copy cached pack"
  end.

(** The part that holds the population flight of the digest *)
Definition in_flight (c : GitPackCache) (digest : string) (io : CacheIo)
    : GitPackCache * result Z string :=
  match lookup c digest with
  | (c, Some h) => let r := install_entry c h (link_populated io) in (arc_drop c h, r)
  | (c, None) =>
      match populate c digest io with
      | (c, Ok h) => let r := install_entry c h (link_populated io) in (arc_drop c h, r)
      | (c, Err e) => (c, Err e)
      end
  end.

Definition materialize_pack (c : GitPackCache) (digest : string) (io : CacheIo)
    : GitPackCache * result Z string :=
  if negb ((String.length digest =? 64) && chars_all is_ascii_hexdigit digest)
  then (c, Err "pack cache digest is malformed")
  else match lookup c digest with
  | (c, Some h) =>
      match install_entry c h (link_cached io) with
      | Ok n => (prune (arc_drop c h), Ok n)
      | Err _ =>
          let c := arc_drop (invalidate c digest) h in
          let (c, r) := in_flight c digest io in (prune c, r)
      end
  | (c, None) => let (c, r) := in_flight c digest io in (prune c, r)
  end.

(** ** Accounting *)

Definition sum_by (f : CacheRecord → Z) (m : gmap string CacheRecord) : Z :=
  map_fold (λ _ r acc, f r + acc)%Z 0%Z m.

Lemma sum_by_insert f m k r : m !! k = None → sum_by f (<[k := r]> m) = (f r + sum_by f m)%Z.
Proof. intros Hk. unfold sum_by. rewrite map_fold_insert_L; [done|lia|done]. Qed.

Lemma sum_by_delete f m k r : m !! k = Some r → sum_by f m = (f r + sum_by f (delete k m))%Z.
Proof.
  intros Hk. rewrite <- (sum_by_insert f (delete k m) k r) by apply lookup_delete_eq.
  by rewrite insert_delete_id.
Qed.

Lemma sum_by_ext f g m : (∀ k r, m !! k = Some r → f r = g r) → sum_by f m = sum_by g m.
Proof.
  induction m as [|k r m Hk IH] using map_ind; intros Hfg; [done|].
  rewrite !sum_by_insert by done. rewrite (Hfg k r) by apply lookup_insert_eq. f_equal.
  apply IH. intros k' r' Hr. apply (Hfg k'). rewrite lookup_insert_ne; [done|congruence].
Qed.

Lemma sum_by_nonneg f m : (∀ k r, m !! k = Some r → 0 ≤ f r)%Z → (0 ≤ sum_by f m)%Z.
Proof.
  induction m as [|k r m Hk IH] using map_ind; intros Hf; [done|].
  rewrite sum_by_insert by done. assert (0 ≤ f r)%Z by (apply (Hf k), lookup_insert_eq).
  enough (0 ≤ sum_by f m)%Z by lia. apply IH. intros k' r' Hr. apply (Hf k').
  rewrite lookup_insert_ne; [done|congruence].
Qed.

Definition table_bytes (c : GitPackCache) : Z := sum_by (λ r, bytes_of_handle c (entry r)) (entries c).

Record cache_ok (c : GitPackCache) : Prop := {
  ok_bytes : cache_bytes c = table_bytes c;
  ok_entry : ∀ d r, entries c !! d = Some r →
    (last_used r ≤ tick c)%Z ∧ ∃ a, arcs c !! entry r = Some a ∧ cp_dir (cell a) = Some d;
  ok_arcs : ∀ h a, arcs c !! h = Some a → h < next_arc c ∧ (0 ≤ cp_total_bytes (cell a))%Z;
  ok_lru : ∀ d d' r r', entries c !! d = Some r → entries c !! d' = Some r' →
    last_used r = last_used r' → d = d';
  ok_disk : ∀ d p i, disk c !! d = Some (p, i) → (0 ≤ p ∧ 0 ≤ i)%Z
}.

Lemma table_bytes_nonneg c : cache_ok c → (0 ≤ table_bytes c)%Z.
Proof.
  intros Hok. apply sum_by_nonneg. intros d r Hr.
  destruct (ok_entry c Hok d r Hr) as (_ & a & Ha & _). unfold bytes_of_handle. rewrite Ha.
  by apply (ok_arcs c Hok (entry r)).
Qed.

(** Taking an entry out of the table *)
Definition without (c : GitPackCache) (digest : string) (r : CacheRecord) : GitPackCache :=
  with_table c (delete digest (entries c))
    (saturating_sub (cache_bytes c) (bytes_of_handle c (entry r))) (tick c).

Lemma without_ok c digest r :
  cache_ok c → entries c !! digest = Some r → cache_ok (without c digest r).
Proof.
  intros Hok Hr. pose proof Hok as [Hb He Ha Hl Hd]. split; simpl; try done.
  - rewrite Hb. unfold table_bytes. simpl. rewrite (sum_by_delete _ _ _ _ Hr). unfold saturating_sub.
    change (sum_by (λ r0, bytes_of_handle (without c digest r) (entry r0)))
      with (sum_by (λ r0, bytes_of_handle c (entry r0))).
    assert (0 ≤ sum_by (λ r0, bytes_of_handle c (entry r0)) (delete digest (entries c)))%Z; [|lia].
    apply sum_by_nonneg. intros d r' [_ Hr']%lookup_delete_Some.
    destruct (He d r' Hr') as (_ & a & Hea & _). unfold bytes_of_handle. rewrite Hea.
    by apply (Ha (entry r')).
  - intros d r' [_ Hr']%lookup_delete_Some. by apply He.
  - intros d d' r1 r2 [_ H1]%lookup_delete_Some [_ H2]%lookup_delete_Some. by apply Hl.
Qed.

(** ** [prune] *)

Context (hash_order_perm : ∀ m, hash_order m ≡ₚ map_to_list m).

Lemma min_by_key_spec {A} (key : A → Z) (l : list A) :
  match min_by_key key l with
  | Some x => x ∈ l ∧ ∀ y, y ∈ l → (key x ≤ key y)%Z
  | None => l = []
  end.
Proof.
  induction l as [|x l IH]; [done|]. simpl. destruct (min_by_key key l) as [y|].
  - destruct IH as [Hin Hmin]. destruct (Z.ltb_spec (key y) (key x)).
    + split; [set_solver|]. intros z [->|Hz]%elem_of_cons; [lia|by apply Hmin].
    + split; [set_solver|]. intros z [->|Hz]%elem_of_cons; [lia|].
      etrans; [|by apply Hmin]. lia.
  - subst. split; [set_solver|]. intros z ->%list_elem_of_singleton. lia.
Qed.

Lemma candidate_spec c :
  match candidate c with
  | Some (d, r) => entries c !! d = Some r ∧ unused c r = true ∧
      ∀ d' r', entries c !! d' = Some r' → unused c r' = true → (last_used r ≤ last_used r')%Z
  | None => ∀ d r, entries c !! d = Some r → unused c r = false
  end.
Proof.
  assert (∀ d r, (d, r) ∈ List.filter (λ dr, unused c dr.2) (hash_order (entries c)) ↔
    entries c !! d = Some r ∧ unused c r = true) as Hin.
  { intros d r. rewrite list_elem_of_In, filter_In, <- list_elem_of_In, hash_order_perm.
    by rewrite elem_of_map_to_list. }
  unfold candidate.
  pose proof (min_by_key_spec (λ dr, last_used dr.2)
    (List.filter (λ dr : string * CacheRecord, unused c dr.2) (hash_order (entries c)))) as Hmin.
  destruct (min_by_key _ _) as [[d r]|].
  - destruct Hmin as [Hd Hmin]. apply Hin in Hd as [Hd Hu]. split; [done|]. split; [done|].
    intros d' r' Hr' Hu'. apply (Hmin (d', r')). by apply Hin.
  - intros d r Hr. apply not_true_iff_false. intros Hu.
    assert ((d, r) ∈ List.filter (λ dr, unused c dr.2) (hash_order (entries c))) as Hd by by apply Hin.
    rewrite Hmin in Hd. by apply not_elem_of_nil in Hd.
Qed.

(** What a run of the loop does to the table *)
Record pruned (c c' : GitPackCache) (removed : list (option string)) : Prop := {
  pr_ok : cache_ok c';
  pr_same : c' = with_table c (entries c') (cache_bytes c') (tick c);
  pr_sub : entries c' ⊆ entries c;
  pr_bound : (cache_bytes c' ≤ max_bytes c)%Z ∨ ∀ d r, entries c' !! d = Some r → unused c r = false;
  pr_lru : ∀ d r, entries c !! d = Some r → entries c' !! d = None → unused c r = true ∧
    ∀ d' r', entries c' !! d' = Some r' → unused c r' = true → (last_used r < last_used r')%Z;
  pr_dirs : ∀ d, Some d ∈ removed ↔ is_Some (entries c !! d) ∧ entries c' !! d = None
}.

Lemma pruned_refl c :
  cache_ok c →
  (cache_bytes c ≤ max_bytes c)%Z ∨ (∀ d r, entries c !! d = Some r → unused c r = false) →
  pruned c c [].
Proof.
  intros Hok Hb. split; try done.
  - by destruct c.
  - intros d r Hr Hn. congruence.
  - intros d. split; [by intros Hd%not_elem_of_nil|]. intros [[r Hr] Hn]. congruence.
Qed.

Lemma pruned_step c c' d r removed :
  cache_ok c → entries c !! d = Some r → unused c r = true →
  (∀ d' r', entries c !! d' = Some r' → unused c r' = true → (last_used r ≤ last_used r')%Z) →
  pruned (without c d r) c' removed → pruned c c' (dir_of_handle c (entry r) :: removed).
Proof.
  intros Hok Hd Hu Hmin [Hok' Hsame Hsub Hb Hlru Hdirs].
  assert (entries c' !! d = None) as Hnone.
  { destruct (entries c' !! d) as [r'|] eqn:Hr'; [|done].
    pose proof (lookup_weaken _ _ _ _ Hr' Hsub) as Hw. simpl in Hw. by rewrite lookup_delete_eq in Hw. }
  split; try done.
  - etrans; [exact Hsub|]. apply delete_subseteq.
  - intros d1 r1 Hd1 Hn1. destruct (decide (d1 = d)) as [->|Hne].
    + rewrite Hd in Hd1. injection Hd1 as <-. split; [done|]. intros d' r' Hr' Hu'.
      assert (entries c !! d' = Some r') as Hc.
      { pose proof (lookup_weaken _ _ _ _ Hr' Hsub) as Hw. simpl in Hw.
        by apply lookup_delete_Some in Hw as [_ Hw]. }
      pose proof (Hmin d' r' Hc Hu'). destruct (decide (last_used r = last_used r')) as [Heq|]; [|lia].
      pose proof (ok_lru c Hok d d' r r' Hd Hc Heq). congruence.
    + apply (Hlru d1 r1); [|done]. simpl. by rewrite lookup_delete_ne.
  - intros d1. rewrite elem_of_cons, Hdirs. simpl.
    destruct (ok_entry c Hok d r Hd) as (_ & a & Ha & Hdir).
    assert (dir_of_handle c (entry r) = Some d) as -> by (unfold dir_of_handle; rewrite Ha; exact Hdir).
    destruct (decide (d1 = d)) as [->|Hne].
    + split; [by intros _; rewrite Hd|]. by left.
    + rewrite lookup_delete_ne by done. split; [intros [[=]|?]; done|by right].
Qed.

Lemma prune_loop_spec fuel c removed :
  cache_ok c → size (entries c) < fuel →
  ∃ c' dirs, prune_loop fuel c removed = (c', removed ++ dirs) ∧ pruned c c' dirs.
Proof.
  revert c removed. induction fuel as [|fuel IH]; intros c removed Hok Hf; [lia|]. simpl.
  destruct (Z.ltb_spec (max_bytes c) (cache_bytes c)) as [Hm|Hm].
  2: { exists c, []. rewrite app_nil_r. split; [done|]. apply pruned_refl; [done|by left]. }
  pose proof (candidate_spec c) as Hc. destruct (candidate c) as [[d r]|].
  2: { exists c, []. rewrite app_nil_r. split; [done|]. apply pruned_refl; [done|by right]. }
  destruct Hc as (Hd & Hu & Hmin). fold (without c d r).
  destruct (IH (without c d r) (removed ++ [dir_of_handle c (entry r)])) as (c' & dirs & Heq & Hp);
    [by apply without_ok| |].
  - simpl. rewrite map_size_delete_Some by by eexists. assert (size (entries c) ≠ 0); [|lia].
    apply (map_size_ne_0_lookup_2 _ d). by exists r.
  - exists c', (dir_of_handle c (entry r) :: dirs). rewrite Heq, <- app_assoc. split; [done|].
    by apply (pruned_step c c' d r).
Qed.

Lemma prune_locked_spec c : cache_ok c → ∃ c' dirs, prune_locked c = (c', dirs) ∧ pruned c c' dirs.
Proof. intros Hok. apply (prune_loop_spec _ c []); [done|lia]. Qed.

(** ** Every interleaving

    The steps of any number of requests on one cache: each of the operations above, with a
    population split into its rename, its look at the final directory and its insertion. The
    numbers stay below the width of a [u64]. *)

Inductive cache_step (c : GitPackCache) : GitPackCache → Prop :=
  | do_lookup d : (tick c < u64_max)%Z → cache_step c (lookup c d).1
  | do_drop h : cache_step c (arc_drop c h)
  | do_bypass p i : (0 ≤ p)%Z → (0 ≤ i)%Z →
      cache_step c (arc_new c {| cp_dir := None; cp_pack_bytes := p;
                                 cp_total_bytes := u64_saturating_add p i |}).1
  | do_rename d p i : (0 ≤ p)%Z → (0 ≤ i)%Z → cache_step c (with_disk c (<[d := (p, i)]> (disk c)))
  | do_open d p : from_dir (disk c) d = Some p → cache_step c (arc_new c p).1
  | do_insert d h a : arcs c !! h = Some a → cp_dir (cell a) = Some d → (tick c < u64_max)%Z →
      (cache_bytes c + cp_total_bytes (cell a) ≤ u64_max)%Z → cache_step c (insert c d h)
  | do_invalidate d : cache_step c (invalidate c d)
  | do_prune : cache_step c (prune_locked c).1
  | do_remove_dir d : cache_step c (remove_dir c d).

Inductive cache_reachable (max_bytes : Z) : GitPackCache → Prop :=
  | cache_init : cache_reachable max_bytes (pack_cache_new max_bytes)
  | cache_next c c' : cache_reachable max_bytes c → cache_step c c' → cache_reachable max_bytes c'.

Lemma pack_cache_new_ok m : cache_ok (pack_cache_new m).
Proof. split; simpl; try done; intros; by rewrite lookup_empty in *. Qed.

Lemma with_disk_ok c d :
  cache_ok c → (∀ k p i, d !! k = Some (p, i) → (0 ≤ p ∧ 0 ≤ i)%Z) → cache_ok (with_disk c d).
Proof. intros [Hb He Ha Hl _] Hd. by split. Qed.

Lemma remove_dir_ok c d : cache_ok c → cache_ok (remove_dir c d).
Proof.
  intros Hok. destruct d as [d|]; [|done]. apply with_disk_ok; [done|].
  intros k p i [_ Hk]%lookup_delete_Some. by apply (ok_disk c Hok k).
Qed.

Lemma remove_dirs_ok c l : cache_ok c → cache_ok (remove_dirs c l).
Proof.
  revert c. induction l as [|d l IH]; intros c Hok; [done|]. apply IH. by apply remove_dir_ok.
Qed.

Lemma set_outside_cell c h f k :
  (cell <$> arcs (set_outside c h f) !! k) = (cell <$> arcs c !! k).
Proof.
  unfold set_outside. simpl. destruct (decide (k = h)) as [->|Hne].
  - rewrite lookup_alter_eq. by destruct (arcs c !! h).
  - by rewrite lookup_alter_ne.
Qed.

(** An operation that leaves the contents of the handles alone keeps the accounts. *)
Lemma set_outside_ok c h f : cache_ok c → cache_ok (set_outside c h f).
Proof.
  intros [Hb He Ha Hl Hd]. pose proof (set_outside_cell c h f) as Hc.
  assert (∀ k, bytes_of_handle (set_outside c h f) k = bytes_of_handle c k) as Hbytes.
  { intros k. unfold bytes_of_handle. specialize (Hc k).
    destruct (arcs (set_outside c h f) !! k), (arcs c !! k); simpl in Hc; congruence. }
  split; try done.
  - simpl. rewrite Hb. apply sum_by_ext. intros k r _. by rewrite Hbytes.
  - intros d r Hr. destruct (He d r Hr) as (Ht & a & Hea & Hdir). split; [done|].
    specialize (Hc (entry r)). rewrite Hea in Hc.
    destruct (arcs (set_outside c h f) !! entry r) as [a'|]; [|done]. exists a'.
    simpl in Hc. split; [done|]. congruence.
  - intros k a Hk. specialize (Hc k). rewrite Hk in Hc.
    destruct (arcs c !! k) as [a'|] eqn:Hk'; [|done]. simpl in Hc. injection Hc as ->.
    by apply (Ha k).
Qed.

Lemma touch_ok c d r :
  cache_ok c → entries c !! d = Some r → (tick c < u64_max)%Z →
  cache_ok (with_table c
    (<[d := {| entry := entry r; last_used := u64_saturating_add (tick c) 1 |}]> (entries c))
    (cache_bytes c) (u64_saturating_add (tick c) 1)).
Proof.
  intros [Hb He Ha Hl Hd] Hr Ht. pose proof (u64_saturating_add_lt _ Ht) as Hlt. split; simpl; try done.
  - rewrite Hb. unfold table_bytes. simpl. rewrite <- insert_delete_eq.
    rewrite sum_by_insert by apply lookup_delete_eq. rewrite (sum_by_delete _ _ d r Hr). done.
  - intros d' r'. destruct (decide (d' = d)) as [->|Hne].
    + rewrite lookup_insert_eq. intros [= <-]. split; [simpl; lia|]. exact (proj2 (He d r Hr)).
    + rewrite lookup_insert_ne by done. intros Hr'. destruct (He d' r' Hr') as [? ?]. split; [lia|done].
  - intros d1 d2 r1 r2. destruct (decide (d1 = d)) as [->|H1], (decide (d2 = d)) as [->|H2];
      rewrite ?lookup_insert_eq, ?(lookup_insert_ne _ d d1), ?(lookup_insert_ne _ d d2) by done; try done.
    + intros [= <-] Hr2. destruct (He d2 r2 Hr2) as [? _]. simpl. lia.
    + intros Hr1 [= <-]. destruct (He d1 r1 Hr1) as [? _]. simpl. lia.
    + by apply Hl.
Qed.

Lemma tick_ok c t : cache_ok c → (tick c ≤ t)%Z → cache_ok (with_table c (entries c) (cache_bytes c) t).
Proof.
  intros [Hb He Ha Hl Hd] Ht. split; simpl; try done. intros d r Hr.
  destruct (He d r Hr) as [? ?]. split; [lia|done].
Qed.

Lemma lookup_ok c d : cache_ok c → (tick c < u64_max)%Z → cache_ok (lookup c d).1.
Proof.
  intros Hok Ht. pose proof (u64_saturating_add_lt _ Ht) as Hlt. unfold lookup.
  destruct (entries c !! d) as [r|] eqn:Hr; [|apply tick_ok; [done|lia]].
  destruct (bool_decide _); [|apply tick_ok; [done|lia]].
  apply set_outside_ok. by apply touch_ok.
Qed.

Lemma arc_new_ok c p : cache_ok c → (0 ≤ cp_total_bytes p)%Z → cache_ok (arc_new c p).1.
Proof.
  intros [Hb He Ha Hl Hd] Hp.
  assert (∀ h a, arcs c !! h = Some a → arcs (arc_new c p).1 !! h = Some a) as Hold.
  { intros h a Hh. simpl. rewrite lookup_insert_ne; [done|].
    destruct (Ha h a Hh) as [? _]. intros <-. lia. }
  split; simpl; try done.
  - rewrite Hb. apply sum_by_ext. intros d r Hr. destruct (He d r Hr) as (_ & a & Hea & _).
    pose proof (Hold _ _ Hea) as Hnew. simpl in Hnew. unfold bytes_of_handle. simpl.
    by rewrite Hea, Hnew.
  - intros d r Hr. destruct (He d r Hr) as (? & a & Hea & Hdir). split; [done|]. exists a.
    split; [by apply Hold|done].
  - intros h a. destruct (decide (h = next_arc c)) as [->|Hne].
    + rewrite lookup_insert_eq. intros [= <-]. split; [lia|done].
    + rewrite lookup_insert_ne by done. intros Hh. destruct (Ha h a Hh) as [? ?]. split; [lia|done].
Qed.

Lemma insert_ok c d h a :
  cache_ok c → arcs c !! h = Some a → cp_dir (cell a) = Some d → (tick c < u64_max)%Z →
  (cache_bytes c + cp_total_bytes (cell a) ≤ u64_max)%Z → cache_ok (insert c d h).
Proof.
  intros Hok Hh Hdir Ht Hfit. pose proof (u64_saturating_add_lt _ Ht) as Hlt.
  assert (bytes_of_handle c h = cp_total_bytes (cell a)) as Hbytes
    by (unfold bytes_of_handle; by rewrite Hh).
  assert (∀ m b, cache_ok (with_table c m b (tick c)) → m !! d = None → b ≤ cache_bytes c →
    cache_ok (with_table c (<[d := {| entry := h; last_used := u64_saturating_add (tick c) 1 |}]> m)
      (u64_saturating_add b (bytes_of_handle c h)) (u64_saturating_add (tick c) 1)))%Z as Hins.
  { intros m b [Hb He Ha Hl Hd] Hm Hle. split; simpl in *; try done.
    - unfold table_bytes. simpl. rewrite sum_by_insert by done. unfold u64_saturating_add.
      rewrite Z.min_l by (rewrite Hbytes; lia). rewrite Hb. unfold table_bytes. simpl.
      apply Z.add_comm.
    - intros d' r'. destruct (decide (d' = d)) as [->|Hne].
      + rewrite lookup_insert_eq. intros [= <-]. split; [simpl; lia|]. by exists a.
      + rewrite lookup_insert_ne by done. intros Hr'. destruct (He d' r' Hr') as [? ?].
        split; [simpl in *; lia|done].
    - intros d1 d2 r1 r2. destruct (decide (d1 = d)) as [->|H1], (decide (d2 = d)) as [->|H2];
        rewrite ?lookup_insert_eq, ?(lookup_insert_ne _ d d1), ?(lookup_insert_ne _ d d2) by done; try done.
      + intros [= <-] Hr2. destruct (He d2 r2 Hr2) as [? _]. simpl in *. lia.
      + intros Hr1 [= <-]. destruct (He d1 r1 Hr1) as [? _]. simpl in *. lia.
      + by apply Hl. }
  unfold insert. destruct (entries c !! d) as [r|] eqn:Hr.
  - rewrite <- insert_delete_eq. pose proof (without_ok c d r Hok Hr) as Hw. apply Hins.
    + exact Hw.
    + apply lookup_delete_eq.
    + unfold saturating_sub. pose proof (ok_bytes _ Hw) as Hb. simpl in Hb. unfold saturating_sub in Hb.
      pose proof (table_bytes_nonneg _ Hok). rewrite <- (ok_bytes c Hok) in *.
      destruct (ok_entry c Hok d r Hr) as (_ & a' & Ha' & _).
      assert (0 ≤ bytes_of_handle c (entry r))%Z; [|lia].
      unfold bytes_of_handle. rewrite Ha'. by apply (ok_arcs c Hok (entry r)).
  - apply Hins; [by destruct c|done|lia].
Qed.

Lemma invalidate_ok c d : cache_ok c → cache_ok (invalidate c d).
Proof.
  intros Hok. unfold invalidate. destruct (entries c !! d) as [r|] eqn:Hr; [|done].
  pose proof (without_ok c d r Hok Hr) as Hw. destruct (_ =? 0); [|done]. by apply remove_dir_ok.
Qed.

Lemma from_dir_nonneg c d p : cache_ok c → from_dir (disk c) d = Some p → (0 ≤ cp_total_bytes p)%Z.
Proof.
  intros Hok. unfold from_dir. destruct (disk c !! d) as [[pk ix]|] eqn:Hd; [|done]. simpl.
  intros [= <-]. destruct (ok_disk c Hok d pk ix Hd). simpl. unfold u64_saturating_add, u64_max. lia.
Qed.

Lemma cache_step_ok c c' : cache_step c c' → cache_ok c → cache_ok c'.
Proof.
  intros [d Ht|h|p i Hp Hi|d p i Hp Hi|d p Hp|d h a Ha Hd Ht Hb|d| |d] Hok.
  - by apply lookup_ok.
  - by apply set_outside_ok.
  - apply arc_new_ok; [done|]. simpl. unfold u64_saturating_add, u64_max. lia.
  - apply with_disk_ok; [done|]. intros k p' i'. destruct (decide (k = d)) as [->|Hne].
    + rewrite lookup_insert_eq. by intros [= <- <-].
    + rewrite lookup_insert_ne by done. by apply (ok_disk c Hok).
  - apply arc_new_ok; [done|]. by eapply from_dir_nonneg.
  - by eapply insert_ok.
  - by apply invalidate_ok.
  - destruct (prune_locked_spec c Hok) as (c1 & dirs & -> & Hp). apply Hp.
  - by apply remove_dir_ok.
Qed.

Lemma cache_reachable_ok m c : cache_reachable m c → cache_ok c.
Proof. induction 1; [apply pack_cache_new_ok|by eapply cache_step_ok]. Qed.

(** The cache keeps its accounts and evicts only what it may: in every state that any
    interleaving of requests reaches, the byte count is the sum of the sizes of the entries,
    and a run of [prune] brings it under the limit or leaves only entries that a request is
    using; it never drops an entry in use, drops the least recently used ones first, and
    hands exactly the directories of the dropped entries to removal. *)
Theorem cache_accounts_and_evicts (max : Z) (c : GitPackCache) :
  cache_reachable max c →
  cache_bytes c = table_bytes c ∧
  ∃ c' dirs, prune_locked c = (c', dirs) ∧ cache_bytes c' = table_bytes c' ∧
    entries c' ⊆ entries c ∧ disk c' = disk c ∧
    ((cache_bytes c' ≤ max_bytes c)%Z ∨
       ∀ d r, entries c' !! d = Some r → 1 < strong_count c (entry r)) ∧
    (∀ d r, entries c !! d = Some r → entries c' !! d = None → strong_count c (entry r) = 1 ∧
       ∀ d' r', entries c' !! d' = Some r' → strong_count c (entry r') = 1 →
         (last_used r < last_used r')%Z) ∧
    ∀ d, Some d ∈ dirs ↔ is_Some (entries c !! d) ∧ entries c' !! d = None.
Proof.
  intros Hc%cache_reachable_ok. split; [apply (ok_bytes c Hc)|].
  destruct (prune_locked_spec c Hc) as (c' & dirs & Heq & [Hok' Hsame Hsub Hb Hl Hd]).
  exists c', dirs. split; [done|]. split; [apply (ok_bytes c' Hok')|]. split; [done|].
  split; [by rewrite Hsame|]. unfold unused in *. split; [|split; [|done]].
  - destruct Hb as [Hb|Hb]; [by left|]. right. intros d r Hr. specialize (Hb d r Hr).
    apply Nat.eqb_neq in Hb. unfold strong_count in *. lia.
  - intros d r Hr Hn. destruct (Hl d r Hr Hn) as [Hu Hlt]. apply Nat.eqb_eq in Hu. split; [done|].
    intros d' r' Hr' Hu'. apply (Hlt d' r' Hr'). by apply Nat.eqb_eq.
Qed.

(** The cache does not heal: when the files of a cached pack cannot be linked into a
    workspace, the entry is taken out of the table, but its directory is not removed, because
    the request still holds the entry while [invalidate] counts its holders. The population
    that follows finds the old files again and uses them, whatever it fetched from the store;
    if they still cannot be linked, the request fails, and the next one does the same. *)
Theorem failed_entry_comes_back (c : GitPackCache) (digest : string) (r : CacheRecord) (p i p' i' : Z)
    (io : CacheIo) :
  cache_ok c → (∀ h, clones_outside c h = 0) →
  (String.length digest =? 64) && chars_all is_ascii_hexdigit digest = true →
  entries c !! digest = Some r → disk c !! digest = Some (p, i) →
  link_cached io = false → staged io = Ok (p', i') → max_bytes c ≠ 0%Z →
  (u64_saturating_add p' i' ≤ max_bytes c)%Z →
  (materialize_pack c digest io).2 = (if link_populated io then Ok p else Err "copy cached pack") ∧
  disk (arc_drop (invalidate (lookup c digest).1 digest) (entry r)) !! digest = Some (p, i).
Proof.
  intros Hok Hquiet Hdigest Hr Hd Hlink Hst Hmax Hfit.
  destruct (ok_entry c Hok digest r Hr) as (_ & a & Ha & Hdir).
  assert (outside a = 0) as Hout.
  { specialize (Hquiet (entry r)). unfold clones_outside in Hquiet. by rewrite Ha in Hquiet. }
  set (t := u64_saturating_add (tick c) 1).
  set (c1 := set_outside (with_table c (<[digest := {| entry := entry r; last_used := t |}]> (entries c))
               (cache_bytes c) t) (entry r) S).
  assert (lookup c digest = (c1, Some (entry r))) as Hlook.
  { unfold lookup. rewrite Hr. rewrite bool_decide_eq_true_2; [done|].
    unfold dir_of_handle. rewrite Ha. simpl. rewrite Hdir. simpl. rewrite Hd. by eexists. }
  assert (arcs c1 !! entry r = Some {| cell := cell a; outside := 1 |}) as Ha1.
  { simpl. rewrite lookup_alter_eq, Ha. simpl. by rewrite Hout. }
  assert (entries c1 !! digest = Some {| entry := entry r; last_used := t |}) as Hr1
    by apply lookup_insert_eq.
  assert (∃ c2, invalidate c1 digest = c2 ∧ entries c2 !! digest = None ∧ disk c2 = disk c ∧
    max_bytes c2 = max_bytes c) as (c2 & Hinv & Hr2 & Hd2 & Hm2).
  { eexists. split; [reflexivity|]. unfold invalidate. rewrite Hr1. cbn [entry].
    unfold clones_outside. rewrite Ha1. simpl. split; [apply lookup_delete_eq|done]. }
  split.
  2: { rewrite Hlook. cbn [fst]. rewrite Hinv. simpl. by rewrite Hd2. }
  unfold materialize_pack. rewrite Hdigest. cbn [negb]. rewrite Hlook.
  assert (install_entry c1 (entry r) (link_cached io) = Err "copy cached pack") as ->.
  { unfold install_entry. rewrite Ha1, Hlink. cbn [cell]. by rewrite Hdir, andb_false_r. }
  rewrite Hinv. unfold in_flight, lookup. cbn [arc_drop set_outside with_arcs entries]. rewrite Hr2.
  unfold populate. rewrite Hst. cbn [with_table max_bytes disk].
  change (max_bytes (arc_drop c2 (entry r))) with (max_bytes c2). rewrite Hm2.
  rewrite (proj2 (Z.eqb_neq _ _) Hmax), (proj2 (Z.ltb_ge _ _) Hfit). cbn [orb].
  change (disk (arc_drop c2 (entry r))) with (disk c2). rewrite Hd2.
  unfold from_dir at 1. rewrite Hd. cbn [mbind option_bind].
  cbv beta iota zeta delta [arc_new]. unfold install_entry.
  cbn [insert with_table with_arcs arcs next_arc fst snd]. rewrite lookup_insert_eq.
  cbn [cell cp_dir cp_pack_bytes insert with_table with_arcs disk].
  change (disk (arc_drop c2 (entry r))) with (disk c2). rewrite Hd2.
  rewrite bool_decide_eq_true_2 by (rewrite Hd; by eexists). cbn [andb].
  by destruct (link_populated io).
Qed.

End cache.

Section witness.

Definition sample_step (c : GitPackCache) (digest : string) (p i : Z) : GitPackCache :=
  let c1 := with_disk c (<[digest := (p, i)]> (disk c)) in
  let c2 := (arc_new c1 {| cp_dir := Some digest; cp_pack_bytes := p; cp_total_bytes := p + i |}).1 in
  arc_drop (insert c2 digest (next_arc c1)) (next_arc c1).

Lemma sample_step_reachable (m : Z) (c : GitPackCache) (digest : string) (p i : Z) :
  cache_reachable map_to_list m c → (0 ≤ p)%Z → (0 ≤ i)%Z → (p + i ≤ u64_max)%Z →
  (cache_bytes c + (p + i) ≤ u64_max)%Z → (tick c < u64_max)%Z →
  cache_reachable map_to_list m (sample_step c digest p i).
Proof.
  intros Hc Hp Hi Hpi Hb Ht. unfold sample_step.
  set (c1 := with_disk c _). set (pack := {| cp_dir := _ |}).
  assert (cache_reachable map_to_list m c1) as Hc1 by exact (cache_next _ _ _ _ Hc (do_rename _ c digest p i Hp Hi)).
  assert (from_dir (disk c1) digest = Some pack) as Hfrom.
  { unfold from_dir. simpl. rewrite lookup_insert_eq. simpl. unfold pack. do 2 f_equal.
    apply Z.min_l. exact Hpi. }
  assert (cache_reachable map_to_list m (arc_new c1 pack).1) as Hc2
    by exact (cache_next _ _ _ _ Hc1 (do_open _ c1 digest pack Hfrom)).
  refine (cache_next _ _ _ _ (cache_next _ _ _ _ Hc2 _) (do_drop _ _ (next_arc c1))).
  eapply do_insert; [apply lookup_insert_eq|done..].
Qed.

Definition first_digest : string := String.concat "" (repeat "a" 64).
Definition second_digest : string := String.concat "" (repeat "b" 64).

Definition sample_cache : GitPackCache :=
  sample_step (sample_step (pack_cache_new 8) first_digest 6 2) second_digest 5 1.

Lemma sample_cache_reachable : cache_reachable map_to_list 8 sample_cache.
Proof.
  apply sample_step_reachable; [apply sample_step_reachable; [constructor|..]|..]; vm_compute; congruence.
Qed.

Lemma cache_accounts_and_evicts_witness :
  cache_bytes sample_cache = 14%Z ∧ cache_bytes sample_cache = table_bytes sample_cache ∧
  ∃ c' dirs, prune_locked map_to_list sample_cache = (c', dirs) ∧ cache_bytes c' = table_bytes c'.
Proof.
  destruct (cache_accounts_and_evicts map_to_list (λ m, reflexivity _) 8 sample_cache
    sample_cache_reachable) as (Hb & c' & dirs & Hp & Hb' & _).
  split; [vm_compute; reflexivity|]. split; [exact Hb|].
  exists c', dirs. exact (conj Hp Hb').
Defined.

Lemma failed_entry_comes_back_witness :
  (materialize_pack map_to_list sample_cache first_digest
     {| staged := Ok (3%Z, 1%Z); rename_ok := true; link_cached := false; link_populated := true |}).2
  = Ok 6%Z.
Proof.
  assert (cache_ok sample_cache) as Hok
    by exact (cache_reachable_ok map_to_list (λ m, reflexivity _) 8 _ sample_cache_reachable).
  apply (failed_entry_comes_back map_to_list sample_cache first_digest {| entry := 0; last_used := 1 |}
    6 2 3 1 {| staged := Ok (3%Z, 1%Z); rename_ok := true; link_cached := false;
               link_populated := true |}); [exact Hok| |vm_compute; congruence..].
  intros h. unfold clones_outside. destruct h as [|[|h]]; [vm_compute; reflexivity..|].
  destruct (arcs sample_cache !! S (S h)) as [a|] eqn:Ha; [|reflexivity].
  destruct (ok_arcs sample_cache Hok _ _ Ha) as [Hlt _].
  assert (next_arc sample_cache = 2) as Hn by (vm_compute; reflexivity). exfalso. clear - Hlt Hn. lia.
Defined.

End witness.
