(* ===== verification/ObjectStore.v ===== *)
(** * Concurrent programs over an object store

    The bucket is the list of the writes that took effect, the latest first: nothing is
    deleted, a conditional write is atomic, and a read sees the latest write of its key. Any
    number of programs ([GitStore.Prog]) run on it, one call at a time in any order. A call
    whose answer is lost or is an error may still be on its way, and may take effect at any
    later moment.

    [wp] is the weakest precondition of a program when all the others follow the same rules:
    they only add writes that are [allowed]. Its soundness, [reachable_inv], is the theorem
    that the git files use to reason about every interleaving at once. *)

From S2P Require Import Prelude StdText GitStore.

Open Scope string_scope.
Open Scope nat_scope.
Open Scope list_scope.

(** ** The bucket *)

Record Write := { w_by : nat; w_key : string; w_tag : string; w_body : string }.

Record Request := { r_by : nat; r_key : string; r_body : string; r_cond : Precond }.

Definition current (B : list Write) (key : string) : option Write :=
  List.find (λ w, bool_decide (w_key w = key)) B.

(** The condition of a conditional write *)
Definition cond_holds (B : list Write) (key : string) (c : Precond) : bool :=
  match c, current B key with
  | IfNoneMatchStar, None => true
  | IfMatch tag, Some w => bool_decide (w_tag w = tag)
  | _, _ => false
  end.

(** The tag of a new version: versions of one key with one tag have the same content. *)
Definition fresh_tag (B : list Write) (key tag body : string) : Prop :=
  ∀ w, w ∈ B → w_key w = key → w_tag w = tag → w_body w = body.

(** Answers that tell neither success nor a failed condition: the write may have happened or
    may happen later. *)
Definition unclassified (r : result ResponseData S3Error) : bool :=
  match r with
  | Ok resp => negb (ok_status (status_code resp))
  | Err (HttpFailWithBody code _) => negb (code =? 412)%Z
  | Err _ => true
  end.

(** The tag in a response, if there is one *)
Definition tagged (resp : ResponseData) (tag : string) : Prop := ∀ e, etag_of resp = Some e → e = tag.

(** What is known for good: writes that took effect, and bodies that were sent *)
Record Know := { bucket : list Write; sent : list string }.

Definition grows (σ σ' : Know) : Prop := bucket σ `suffix_of` bucket σ' ∧ sent σ ⊆ sent σ'.

#[export] Instance grows_refl : Reflexive grows.
Proof. intros σ. by split. Qed.
#[export] Instance grows_trans : Transitive grows.
Proof. intros σ1 σ2 σ3 [? ?] [? ?]. split; by etrans. Qed.

Definition no_collision `{Sha256} (l : list string) : Prop :=
  ∀ x y, x ∈ l → y ∈ l → sha256_hex x = sha256_hex y → x = y.

Lemma no_collision_subset `{Sha256} (l l' : list string) :
  l ⊆ l' → no_collision l' → no_collision l.
Proof. intros Hl Hc x y Hx Hy. apply Hc; by apply Hl. Qed.

Lemma current_Some (B : list Write) (key : string) (w : Write) :
  current B key = Some w → w ∈ B ∧ w_key w = key.
Proof.
  intros Hw. apply find_some in Hw as [Hin Hk]. split; [by apply list_elem_of_In|].
  by apply bool_decide_eq_true in Hk.
Qed.

Lemma current_None (B : list Write) (key : string) :
  current B key = None → ∀ w, w ∈ B → w_key w ≠ key.
Proof.
  intros Hn w Hw. pose proof (find_none _ _ Hn w) as Hf.
  specialize (Hf (proj1 (list_elem_of_In _ _) Hw)). by apply bool_decide_eq_false in Hf.
Qed.

Lemma current_cons (B : list Write) (w : Write) (key : string) :
  current (w :: B) key = if decide (w_key w = key) then Some w else current B key.
Proof. unfold current. simpl. by destruct (decide (w_key w = key)); rewrite bool_decide_decide; case_decide. Qed.

Lemma grows_elem (σ σ' : Know) (w : Write) : grows σ σ' → w ∈ bucket σ → w ∈ bucket σ'.
Proof. intros [[l ->] _] Hw. set_solver. Qed.

(** ** The system *)

(** What one program has done to the pointers *)
Inductive Status := Unsent | Unknown (body : string) | Installed (body : string).

Section system.
Context {Task R : Type} (code : Task → Prog R).

Record System := {
  know : Know;
  in_flight : list Request;
  procs : gmap nat (Task * Prog R)
}.

Definition initial : System :=
  {| know := {| bucket := []; sent := [] |}; in_flight := []; procs := ∅ |}.

Definition set_proc (s : System) (pid : nat) (t : Task) (p : Prog R) : System :=
  {| know := know s; in_flight := in_flight s; procs := <[pid := (t, p)]> (procs s) |}.

Definition note_sent (s : System) (body : string) : System :=
  {| know := {| bucket := bucket (know s); sent := body :: sent (know s) |};
     in_flight := in_flight s; procs := procs s |}.

Definition apply_write (s : System) (w : Write) : System :=
  {| know := {| bucket := w :: bucket (know s); sent := sent (know s) |};
     in_flight := in_flight s; procs := procs s |}.

Definition set_in_flight (s : System) (l : list Request) : System :=
  {| know := know s; in_flight := l; procs := procs s |}.

Inductive step (s : System) : System → Prop :=
  | start pid t :
      procs s !! pid = None →
      step s (set_proc s pid t (code t))
  | put_done pid t key body ct c k tag resp :
      procs s !! pid = Some (t, PutObject key body ct c k) →
      cond_holds (bucket (know s)) key c = true →
      fresh_tag (bucket (know s)) key tag body →
      ok_status (status_code resp) = true → tagged resp tag →
      step s (set_proc (apply_write (note_sent s body)
                {| w_by := pid; w_key := key; w_tag := tag; w_body := body |}) pid t (k (Ok resp)))
  | put_refused pid t key body ct c k b :
      procs s !! pid = Some (t, PutObject key body ct c k) →
      cond_holds (bucket (know s)) key c = false →
      step s (set_proc (note_sent s body) pid t (k (Err (HttpFailWithBody 412 b))))
  | put_lost pid t key body ct c k r :
      procs s !! pid = Some (t, PutObject key body ct c k) →
      unclassified r = true →
      step s (set_proc (set_in_flight (note_sent s body)
                ({| r_by := pid; r_key := key; r_body := body; r_cond := c |} :: in_flight s))
                pid t (k r))
  | land l1 r l2 tag :
      in_flight s = l1 ++ r :: l2 →
      cond_holds (bucket (know s)) (r_key r) (r_cond r) = true →
      fresh_tag (bucket (know s)) (r_key r) tag (r_body r) →
      step s (set_in_flight (apply_write s
                {| w_by := r_by r; w_key := r_key r; w_tag := tag; w_body := r_body r |}) (l1 ++ l2))
  | get_done pid t key k w resp :
      procs s !! pid = Some (t, GetObject key k) →
      current (bucket (know s)) key = Some w →
      to_bytes resp = w_body w → tagged resp (w_tag w) →
      step s (set_proc s pid t (k (Ok resp)))
  | get_failed pid t key k e :
      procs s !! pid = Some (t, GetObject key k) →
      (∀ b, e = HttpFailWithBody 404 b → current (bucket (know s)) key = None) →
      step s (set_proc s pid t (k (Err e)))
  | head_any pid t key k r :
      procs s !! pid = Some (t, HeadObject key k) →
      step s (set_proc s pid t (k r)).

Inductive reachable : System → Prop :=
  | reach_init : reachable initial
  | reach_step s s' : reachable s → step s s' → reachable s'.

(** ** An executable scheduler

    The bucket of an honest server, which the samples run on. *)

Inductive Action :=
  | Start (pid : nat) (t : Task)
  | Serve (pid : nat) (tag : string)
  | Lose (pid : nat)
  | Land (tag : string).

Definition answered (tag body : string) : ResponseData :=
  {| status_code := 200; headers := {["etag" := tag]}; to_bytes := body |}.

Definition new_tag (B : list Write) (key tag : string) : bool :=
  forallb (λ w, negb (bool_decide (w_key w = key ∧ w_tag w = tag))) B.

Definition act (s : System) (a : Action) : option System :=
  match a with
  | Start pid t => match procs s !! pid with None => Some (set_proc s pid t (code t)) | _ => None end
  | Serve pid tag =>
      match procs s !! pid with
      | Some (t, PutObject key body ct c k) =>
          if cond_holds (bucket (know s)) key c then
            if new_tag (bucket (know s)) key tag then
              Some (set_proc (apply_write (note_sent s body)
                {| w_by := pid; w_key := key; w_tag := tag; w_body := body |}) pid t
                (k (Ok (answered tag ""))))
            else None
          else Some (set_proc (note_sent s body) pid t (k (Err (HttpFailWithBody 412 ""))))
      | Some (t, GetObject key k) =>
          Some (set_proc s pid t (k match current (bucket (know s)) key with
                                    | Some w => Ok (answered (w_tag w) (w_body w))
                                    | None => Err (HttpFailWithBody 404 "")
                                    end))
      | Some (t, HeadObject key k) =>
          Some (set_proc s pid t (k (Ok ({| content_length := None |}, 200%Z))))
      | _ => None
      end
  | Lose pid =>
      match procs s !! pid with
      | Some (t, PutObject key body ct c k) =>
          Some (set_proc (set_in_flight (note_sent s body)
                 ({| r_by := pid; r_key := key; r_body := body; r_cond := c |} :: in_flight s))
                 pid t (k (Err (OtherS3Error "timeout"))))
      | _ => None
      end
  | Land tag =>
      match in_flight s with
      | r :: l =>
          if cond_holds (bucket (know s)) (r_key r) (r_cond r)
             && new_tag (bucket (know s)) (r_key r) tag
          then Some (set_in_flight (apply_write s
                 {| w_by := r_by r; w_key := r_key r; w_tag := tag; w_body := r_body r |}) l)
          else None
      | [] => None
      end
  end.

Fixpoint acts (s : System) (l : list Action) : option System :=
  match l with [] => Some s | a :: l => match act s a with Some s' => acts s' l | None => None end end.

Lemma new_tag_fresh (B : list Write) (key tag body : string) :
  new_tag B key tag = true → fresh_tag B key tag body.
Proof.
  unfold new_tag. rewrite forallb_forall. intros Hn w Hw Hk Ht.
  specialize (Hn w (proj1 (list_elem_of_In _ _) Hw)).
  rewrite bool_decide_eq_true_2 in Hn by done. done.
Qed.

Lemma answered_tag (tag body : string) : tagged (answered tag body) tag.
Proof. intros e. unfold etag_of, answered. simpl. rewrite lookup_singleton_eq. by intros [= ->]. Qed.

Lemma act_step (s s' : System) (a : Action) : act s a = Some s' → step s s'.
Proof.
  destruct a as [pid t|pid tag|pid|tag]; simpl.
  - destruct (procs s !! pid) eqn:Hp; [done|]. intros [= <-]. by apply start.
  - destruct (procs s !! pid) as [[t [a|key body ct c k|key k|key k]]|] eqn:Hp; [done|..|done].
    + destruct (cond_holds _ _ _) eqn:Hc.
      * destruct (new_tag _ _ _) eqn:Hn; [|done]. intros [= <-].
        eapply put_done; [exact Hp|done|by apply new_tag_fresh|done|apply answered_tag].
      * intros [= <-]. by eapply put_refused.
    + intros [= <-]. destruct (current _ key) as [w|] eqn:Hw.
      * eapply get_done; [exact Hp|exact Hw|done|apply answered_tag].
      * eapply get_failed; [exact Hp|done].
    + intros [= <-]. by eapply head_any.
  - destruct (procs s !! pid) as [[t [a|key body ct c k|key k|key k]]|] eqn:Hp; try done.
    intros [= <-]. by eapply put_lost.
  - destruct (in_flight s) as [|r l] eqn:Hl; [done|].
    destruct (cond_holds _ _ _ && _) eqn:Hc; [|done]. apply andb_true_iff in Hc as [Hc Hn].
    intros [= <-]. eapply (land s [] r l); [done|done|by apply new_tag_fresh].
Qed.

Lemma acts_reachable (l : list Action) (s s' : System) :
  reachable s → acts s l = Some s' → reachable s'.
Proof.
  revert s. induction l as [|a l IH]; intros s Hs; simpl; [by intros [= <-]|].
  destruct (act s a) as [s1|] eqn:Ha; [|done]. apply IH. eapply reach_step; [done|by eapply act_step].
Qed.

End system.
Arguments System : clear implicits.
Arguments Action : clear implicits.

(** ** Weakest preconditions *)

Section logic.
Context `{Sha256} {Task R : Type}.
Context (is_pointer : string → bool) (world : Know → Prop).
Context (allowed : Task → Know → string → string → Precond → Prop).

Definition settled (σ : Know) : Prop := world σ ∧ no_collision (sent σ).

Definition after (key body : string) (st : Status) (f : string → Status) : Status :=
  if is_pointer key then f body else st.

Section wp.
Context (t : Task) {A : Type}.

(** [J] holds of the status after each answer of a write: where a deadline may cut the
    program off. *)
Fixpoint wp (J : Status → Prop) (Q : Know → Status → A → Prop) (p : Prog A) (σ : Know)
    (st : Status) : Prop :=
  match p with
  | Ret a => ∀ σ', grows σ σ' → settled σ' → Q σ' st a
  | PutObject key body _ c k =>
      (∀ σ', grows σ σ' → settled σ' → allowed t σ' key body c) ∧
      (is_pointer key = true → st = Unsent) ∧
      ∀ σ', grows σ σ' → settled σ' → body ∈ sent σ' →
        (∀ w resp, w ∈ bucket σ' → w_key w = key → w_body w = body →
           ok_status (status_code resp) = true → tagged resp (w_tag w) →
           J (after key body st Installed) ∧ wp J Q (k (Ok resp)) σ' (after key body st Installed)) ∧
        (∀ b, (c = IfNoneMatchStar → ∃ w, w ∈ bucket σ' ∧ w_key w = key) →
           J st ∧ wp J Q (k (Err (HttpFailWithBody 412 b))) σ' st) ∧
        (∀ r, unclassified r = true →
           J (after key body st Unknown) ∧ wp J Q (k r) σ' (after key body st Unknown))
  | GetObject key k =>
      ∀ σ', grows σ σ' → settled σ' →
        (∀ w resp, w ∈ bucket σ' → w_key w = key → to_bytes resp = w_body w →
           tagged resp (w_tag w) → wp J Q (k (Ok resp)) σ' st) ∧
        (∀ e, wp J Q (k (Err e)) σ' st)
  | HeadObject key k => ∀ σ' r, grows σ σ' → settled σ' → wp J Q (k r) σ' st
  end.

Lemma wp_grows (J : Status → Prop) (Q : Know → Status → A → Prop) (p : Prog A) (σ σ' : Know)
    (st : Status) :
  grows σ σ' → wp J Q p σ st → wp J Q p σ' st.
Proof.
  destruct p; simpl; intros Hg Hp.
  - intros σ1 Hg1. apply Hp. by etrans.
  - destruct Hp as (Ha & Hst & Hk). split; [|split; [done|]].
    + intros σ1 Hg1. apply Ha. by etrans.
    + intros σ1 Hg1. apply Hk. by etrans.
  - intros σ1 Hg1. apply Hp. by etrans.
  - intros σ1 r Hg1. apply Hp. by etrans.
Qed.

Lemma wp_conseq (J J' : Status → Prop) (Q Q' : Know → Status → A → Prop) (p : Prog A) (σ : Know)
    (st : Status) :
  wp J Q p σ st → (∀ st, J st → J' st) →
  (∀ σ' st' a, grows σ σ' → settled σ' → Q σ' st' a → Q' σ' st' a) → wp J' Q' p σ st.
Proof.
  revert σ st. induction p as [a|key body ct c k IH|key k IH|key k IH]; simpl;
    intros σ st Hp HJ HQ.
  - eauto.
  - destruct Hp as (Ha & Hst & Hk). split; [done|]. split; [done|].
    intros σ1 Hg1 Hs1 Hb. destruct (Hk σ1 Hg1 Hs1 Hb) as (Hd & Hr & Hl).
    assert (∀ σ' st' a, grows σ1 σ' → settled σ' → Q σ' st' a → Q' σ' st' a) as HQ1
      by (intros; apply HQ; [by etrans|done..]).
    repeat split.
    1,2: destruct (Hd w resp) as [HJ1 Hw]; eauto.
    1,2: destruct (Hr b) as [HJ1 Hw]; eauto.
    1,2: destruct (Hl r) as [HJ1 Hw]; eauto.
  - intros σ1 Hg1 Hs1. destruct (Hp σ1 Hg1 Hs1) as [Hd He].
    assert (∀ σ' st' a, grows σ1 σ' → settled σ' → Q σ' st' a → Q' σ' st' a) as HQ1
      by (intros; apply HQ; [by etrans|done..]).
    split; eauto.
  - intros σ1 r Hg1 Hs1. apply IH; [eauto..|]. intros. apply HQ; [by etrans|done..].
Qed.

End wp.

Lemma wp_seq (t : Task) {A B : Type} (J : Status → Prop) (Q : Know → Status → B → Prop)
    (p : Prog A) (f : A → Prog B) (σ : Know) (st : Status) :
  wp t J (λ σ' st' a, wp t J Q (f a) σ' st') p σ st → settled σ → wp t J Q (bind p f) σ st.
Proof.
  revert σ st. induction p as [a|key body ct c k IH|key k IH|key k IH]; simpl;
    intros σ st Hp Hs.
  - by apply Hp.
  - destruct Hp as (Ha & Hst & Hk). split; [done|]. split; [done|].
    intros σ1 Hg1 Hs1 Hb. destruct (Hk σ1 Hg1 Hs1 Hb) as (Hd & Hr & Hl). repeat split.
    1,2: destruct (Hd w resp) as [HJ1 Hw]; eauto.
    1,2: destruct (Hr b) as [HJ1 Hw]; eauto.
    1,2: destruct (Hl r) as [HJ1 Hw]; eauto.
  - intros σ1 Hg1 Hs1. destruct (Hp σ1 Hg1 Hs1) as [Hd He]. split; eauto.
  - intros σ1 r Hg1 Hs1. apply IH; eauto.
Qed.

(** A postcondition holds of whatever is known later, too. *)
Lemma wp_closed (t : Task) {A : Type} (J : Status → Prop) (Q : Know → Status → A → Prop)
    (p : Prog A) (σ : Know) (st : Status) :
  wp t J Q p σ st →
  wp t J (λ σ' st' a, ∀ σ'', grows σ' σ'' → settled σ'' → Q σ'' st' a) p σ st.
Proof.
  revert σ st. induction p as [a|key body ct c k IH|key k IH|key k IH]; simpl; intros σ st Hp.
  - intros σ1 Hg1 Hs1 σ2 Hg2 Hs2. apply Hp; [by etrans|done].
  - destruct Hp as (Ha & Hst & Hk). split; [done|]. split; [done|].
    intros σ1 Hg1 Hs1 Hb. destruct (Hk σ1 Hg1 Hs1 Hb) as (Hd & Hr & Hl). repeat split.
    1,2: destruct (Hd w resp) as [HJ1 Hw]; eauto.
    1,2: destruct (Hr b) as [HJ1 Hw]; eauto.
    1,2: destruct (Hl r) as [HJ1 Hw]; eauto.
  - intros σ1 Hg1 Hs1. destruct (Hp σ1 Hg1 Hs1) as [Hd He]. split; eauto.
  - intros σ1 r Hg1 Hs1. apply IH; eauto.
Qed.

Lemma wp_ret (t : Task) {A : Type} (J : Status → Prop) (Q : Know → Status → A → Prop) (a : A)
    (σ : Know) (st : Status) :
  (∀ σ', grows σ σ' → settled σ' → Q σ' st a) → wp t J Q (Ret a) σ st.
Proof. done. Qed.

Lemma wp_prog_map (t : Task) {A B : Type} (J : Status → Prop) (Q : Know → Status → B → Prop)
    (f : A → B) (p : Prog A) (σ : Know) (st : Status) :
  settled σ → wp t J (λ σ' st' a, Q σ' st' (f a)) p σ st → wp t J Q (prog_map f p) σ st.
Proof. intros Hs Hp. unfold prog_map. apply wp_seq; [|done]. exact (wp_closed t J _ p σ st Hp). Qed.

(** A program that a deadline cuts off: its postcondition, or what [J] says *)
Lemma wp_cutoff (t : Task) {A : Type} (J : Status → Prop) (Q : Know → Status → A → Prop) (n : nat)
    (p : Prog A) (σ : Know) (st : Status) :
  J st → wp t J Q p σ st →
  wp t J (λ σ' st' o, match o with Some a => Q σ' st' a | None => J st' end) (cutoff n p) σ st.
Proof.
  revert n σ st. induction p as [a|key body ct c k IH|key k IH|key k IH]; intros n σ st HJ Hp.
  - destruct n; exact Hp.
  - assert (∀ r σ' st', J st' → wp t J Q (k r) σ' st' →
      wp t J (λ σ' st' o, match o with Some a => Q σ' st' a | None => J st' end)
        match n with 0 => Ret None | S m => cutoff m (k r) end σ' st') as Hcut.
    { intros r σ' st' HJ' Hw. destruct n; [by intros ???|by apply IH]. }
    assert (wp t J (λ σ' st' o, match o with Some a => Q σ' st' a | None => J st' end)
      (PutObject key body ct c (λ r, match n with 0 => Ret None | S m => cutoff m (k r) end)) σ st);
      [|by destruct n].
    destruct Hp as (Ha & Hst & Hk). split; [done|]. split; [done|].
    intros σ1 Hg1 Hs1 Hb. destruct (Hk σ1 Hg1 Hs1 Hb) as (Hd & Hr & Hl). repeat split.
    1,2: destruct (Hd w resp) as [HJ1 Hw]; eauto.
    1,2: destruct (Hr b) as [HJ1 Hw]; eauto.
    1,2: destruct (Hl r) as [HJ1 Hw]; eauto.
  - destruct n; simpl in *; intros σ1 Hg1 Hs1; destruct (Hp σ1 Hg1 Hs1) as [Hd He]; split; eauto.
  - destruct n; simpl in *; intros σ1 r Hg1 Hs1; eauto.
Qed.

Lemma wp_deadline (t : Task) {A : Type} (J : Status → Prop) (Q : Know → Status → A → Prop)
    (d : option nat) (p : Prog A) (σ : Know) (st : Status) :
  settled σ → J st → wp t J Q p σ st →
  wp t J (λ σ' st' o, match o with Some a => Q σ' st' a | None => J st' end) (deadline d p) σ st.
Proof.
  intros Hs HJ Hp. destruct d as [n|]; [by apply wp_cutoff|]. by apply wp_prog_map.
Qed.

(** ** Soundness *)

Context (code : Task → Prog R) (post : Task → Know → Status → R → Prop).

Context (allowed_grows : ∀ t σ σ' key body c,
  grows σ σ' → settled σ' → allowed t σ key body c → allowed t σ' key body c).
Context (world_empty : world {| bucket := []; sent := [] |}).
Context (world_sent : ∀ B l body, world {| bucket := B; sent := l |} →
  world {| bucket := B; sent := body :: l |}).
Context (world_write : ∀ t B l w c,
  settled {| bucket := B; sent := l |} → w_body w ∈ l →
  allowed t {| bucket := B; sent := l |} (w_key w) (w_body w) c →
  cond_holds B (w_key w) c = true → fresh_tag B (w_key w) (w_tag w) (w_body w) →
  world {| bucket := w :: B; sent := l |}).
Context (code_wp : ∀ t σ, settled σ → wp t (λ _, True) (post t) (code t) σ Unsent).

(** What the status of a program says of the bucket and of the requests on their way *)
Definition status_ok (s : System Task R) (pid : nat) (st : Status) : Prop :=
  match st with
  | Unsent =>
      (∀ w, w ∈ bucket (know s) → w_by w = pid → is_pointer (w_key w) = false) ∧
      (∀ r, r ∈ in_flight s → r_by r = pid → is_pointer (r_key r) = false)
  | Unknown _ => True
  | Installed body =>
      ∃ w, w ∈ bucket (know s) ∧ w_by w = pid ∧ is_pointer (w_key w) = true ∧ w_body w = body
  end.

(** Who wrote what, or is about to *)
Definition authored (s : System Task R) (pid : nat) (key body : string) (c : Precond) : Prop :=
  ∃ t p, procs s !! pid = Some (t, p) ∧ allowed t (know s) key body c ∧ body ∈ sent (know s).

Record system_inv (s : System Task R) : Prop := {
  inv_world : world (know s);
  inv_requests : ∀ r, r ∈ in_flight s → authored s (r_by r) (r_key r) (r_body r) (r_cond r);
  inv_writes : ∀ w, w ∈ bucket (know s) → ∃ c, authored s (w_by w) (w_key w) (w_body w) c;
  inv_procs : ∀ pid t p, procs s !! pid = Some (t, p) →
    ∃ st, status_ok s pid st ∧ wp t (λ _, True) (post t) p (know s) st
}.

Lemma status_ok_ext (s s' : System Task R) (q : nat) (st : Status) :
  status_ok s q st →
  (∀ w, w ∈ bucket (know s) → w ∈ bucket (know s')) →
  (∀ w, w ∈ bucket (know s') → w_by w = q → is_pointer (w_key w) = true →
     w ∈ bucket (know s) ∨ ∃ r, r ∈ in_flight s ∧ r_by r = q ∧ is_pointer (r_key r) = true) →
  (∀ r, r ∈ in_flight s' → r_by r = q → is_pointer (r_key r) = true → r ∈ in_flight s) →
  status_ok s' q st.
Proof.
  intros Hst Hb Hw Hr. destruct st as [|d|d]; [|done|].
  - destruct Hst as [HB HF]. split.
    + intros w Hin Hby. apply not_true_iff_false. intros Hp.
      destruct (Hw w Hin Hby Hp) as [Hin'|(r & Hin' & Hby' & Hp')];
        [specialize (HB w Hin' Hby)|specialize (HF r Hin' Hby')]; congruence.
    + intros r Hin Hby. apply not_true_iff_false. intros Hp.
      specialize (HF r (Hr r Hin Hby Hp) Hby). congruence.
  - destruct Hst as (w & Hin & ?). exists w. by split; [apply Hb|].
Qed.

Lemma authored_ext (s s' : System Task R) (pid : nat) (key body : string) (c : Precond) :
  settled (know s') → grows (know s) (know s') →
  (∀ q t p, procs s !! q = Some (t, p) → ∃ p', procs s' !! q = Some (t, p')) →
  authored s pid key body c → authored s' pid key body c.
Proof.
  intros Hs Hg Hp (t & p & Hpid & Ha & Hin). destruct (Hp pid t p Hpid) as [p' Hp'].
  exists t, p'. split; [done|]. split; [by eapply allowed_grows|]. by apply Hg.
Qed.

Lemma set_proc_keeps (s : System Task R) (pid : nat) (t : Task) (p p1 : Prog R) (q : nat) (t' : Task)
    (p' : Prog R) :
  procs s !! pid = Some (t, p) → procs s !! q = Some (t', p') →
  ∃ p'', <[pid := (t, p1)]> (procs s) !! q = Some (t', p'').
Proof.
  intros Hpid Hq. destruct (decide (q = pid)) as [->|Hne].
  - rewrite lookup_insert_eq. exists p1. by simplify_eq.
  - rewrite lookup_insert_ne by done. by exists p'.
Qed.

(** The frame of a step of one program: what is left to show about the others *)
Lemma step_frame (s s' : System Task R) (pid : nat) (t : Task) (p p1 : Prog R) (st1 : Status) :
  system_inv s → procs s !! pid = Some (t, p) →
  procs s' = <[pid := (t, p1)]> (procs s) →
  settled (know s') → grows (know s) (know s') →
  (∀ w, w ∈ bucket (know s') → w ∈ bucket (know s) ∨
     (w_by w = pid ∧ ∃ c, authored s' pid (w_key w) (w_body w) c)) →
  (∀ r, r ∈ in_flight s' → r ∈ in_flight s ∨
     (r_by r = pid ∧ authored s' pid (r_key r) (r_body r) (r_cond r))) →
  status_ok s' pid st1 → wp t (λ _, True) (post t) p1 (know s') st1 →
  system_inv s'.
Proof.
  intros Hinv Hpid Hprocs Hs Hg Hw Hr Hst1 Hp1.
  assert (∀ q t' p', procs s !! q = Some (t', p') → ∃ p'', procs s' !! q = Some (t', p'')) as Hkeep.
  { intros q t' p' Hq. rewrite Hprocs. by eapply set_proc_keeps. }
  split.
  - apply Hs.
  - intros r Hin. destruct (Hr r Hin) as [Hin'|[<- Ha]]; [|done].
    by eapply authored_ext, (inv_requests s).
  - intros w Hin. destruct (Hw w Hin) as [Hin'|[<- Ha]]; [|done].
    destruct (inv_writes s Hinv w Hin') as [c Ha]. exists c. by eapply authored_ext.
  - intros q t' p' Hq. rewrite Hprocs in Hq. destruct (decide (q = pid)) as [->|Hne].
    + rewrite lookup_insert_eq in Hq. simplify_eq. by exists st1.
    + rewrite lookup_insert_ne in Hq by done.
      destruct (inv_procs s Hinv q t' p' Hq) as (st & Hst & Hwp). exists st.
      split; [|by eapply wp_grows]. eapply status_ok_ext; [exact Hst|..].
      * intros w. by apply grows_elem.
      * intros w Hin Hby _. destruct (Hw w Hin) as [?|[Hby' _]]; [by left|congruence].
      * intros r Hin Hby _. destruct (Hr r Hin) as [?|[Hby' _]]; [done|congruence].
Qed.

Lemma grows_sent (B : list Write) (l : list string) (body : string) :
  grows {| bucket := B; sent := l |} {| bucket := B; sent := body :: l |}.
Proof. split; simpl; [done|set_solver]. Qed.

Lemma grows_write (B : list Write) (l : list string) (w : Write) :
  grows {| bucket := B; sent := l |} {| bucket := w :: B; sent := l |}.
Proof. split; simpl; [by apply suffix_cons_r|done]. Qed.

Lemma know_eta (s : System Task R) :
  know s = {| bucket := bucket (know s); sent := sent (know s) |}.
Proof. by destruct (know s). Qed.

Lemma settled_sent (s : System Task R) (body : string) :
  system_inv s → no_collision (body :: sent (know s)) → settled (know (note_sent s body)).
Proof.
  intros Hinv Hc. split; [|done]. apply world_sent. rewrite <- know_eta. by apply inv_world.
Qed.

Lemma put_done_inv (s : System Task R) (pid : nat) (t : Task) (key body ct : string) (c : Precond)
    (k : result ResponseData S3Error → Prog R) (tag : string) (resp : ResponseData) :
  system_inv s → no_collision (body :: sent (know s)) →
  procs s !! pid = Some (t, PutObject key body ct c k) →
  cond_holds (bucket (know s)) key c = true → fresh_tag (bucket (know s)) key tag body →
  ok_status (status_code resp) = true → tagged resp tag →
  system_inv (set_proc (apply_write (note_sent s body)
    {| w_by := pid; w_key := key; w_tag := tag; w_body := body |}) pid t (k (Ok resp))).
Proof.
  intros Hinv Hc Hpid Hcond Hfresh Hok Htag.
  set (w := {| w_by := pid; w_key := key; w_tag := tag; w_body := body |}).
  set (s' := set_proc _ _ _ _).
  destruct (inv_procs s Hinv pid t _ Hpid) as (st & Hst & Ha & Hq & Hk).
  pose proof (settled_sent s body Hinv Hc) as Hs1.
  assert (grows (know s) (know (note_sent s body))) as Hg1
    by (rewrite (know_eta s) at 1; apply grows_sent).
  assert (grows (know (note_sent s body)) (know s')) as Hg2 by apply grows_write.
  assert (settled (know s')) as Hs'.
  { split; [|exact Hc]. eapply world_write; [exact Hs1|apply list_elem_of_here| |exact Hcond|exact Hfresh].
    exact (Ha _ Hg1 Hs1). }
  assert (grows (know s) (know s')) as Hg by by etrans.
  assert (body ∈ sent (know s')) as Hbody by apply list_elem_of_here.
  destruct (Hk _ Hg Hs' Hbody) as [Hd _].
  destruct (Hd w resp (list_elem_of_here _ _) eq_refl eq_refl Hok Htag) as [_ Hwp].
  eapply (step_frame s s' pid t _ (k (Ok resp))); [done|done|done|done|done|..|exact Hwp].
  - intros w' [->|Hw']%elem_of_cons; [|by left]. right. split; [done|]. exists c, t, (k (Ok resp)).
    split; [apply lookup_insert_eq|]. split; [|done]. by apply Ha.
  - intros r Hr. by left.
  - unfold after. destruct (is_pointer key) eqn:Hp.
    + exists w. split; [apply list_elem_of_here|]. done.
    + eapply status_ok_ext; [exact Hst|..]; simpl.
      * intros w' Hw'. by apply list_elem_of_further.
      * intros w' [->|Hw']%elem_of_cons Hby Hp'; [simpl in Hp'; congruence|by left].
      * done.
Qed.

Lemma put_refused_inv (s : System Task R) (pid : nat) (t : Task) (key body ct : string) (c : Precond)
    (k : result ResponseData S3Error → Prog R) (b : string) :
  system_inv s → no_collision (body :: sent (know s)) →
  procs s !! pid = Some (t, PutObject key body ct c k) →
  cond_holds (bucket (know s)) key c = false →
  system_inv (set_proc (note_sent s body) pid t (k (Err (HttpFailWithBody 412 b)))).
Proof.
  intros Hinv Hc Hpid Hcond. set (s' := set_proc _ _ _ _).
  destruct (inv_procs s Hinv pid t _ Hpid) as (st & Hst & Ha & Hq & Hk).
  assert (settled (know s')) as Hs' by exact (settled_sent s body Hinv Hc).
  assert (grows (know s) (know s')) as Hg by (rewrite (know_eta s) at 1; apply grows_sent).
  assert (body ∈ sent (know s')) as Hbody by apply list_elem_of_here.
  destruct (Hk _ Hg Hs' Hbody) as (_ & Hr & _). destruct (Hr b) as [_ Hwp].
  { intros ->. unfold cond_holds in Hcond.
    destruct (current (bucket (know s)) key) as [w|] eqn:Hcur; [|done].
    exists w. by apply current_Some. }
  eapply (step_frame s s' pid t); [done|exact Hpid|done..| | | |exact Hwp]; auto.
Qed.

Lemma put_lost_inv (s : System Task R) (pid : nat) (t : Task) (key body ct : string) (c : Precond)
    (k : result ResponseData S3Error → Prog R) (r : result ResponseData S3Error) :
  system_inv s → no_collision (body :: sent (know s)) →
  procs s !! pid = Some (t, PutObject key body ct c k) → unclassified r = true →
  system_inv (set_proc (set_in_flight (note_sent s body)
    ({| r_by := pid; r_key := key; r_body := body; r_cond := c |} :: in_flight s)) pid t (k r)).
Proof.
  intros Hinv Hc Hpid Hun. set (s' := set_proc _ _ _ _).
  destruct (inv_procs s Hinv pid t _ Hpid) as (st & Hst & Ha & Hq & Hk).
  assert (settled (know s')) as Hs' by exact (settled_sent s body Hinv Hc).
  assert (grows (know s) (know s')) as Hg by (rewrite (know_eta s) at 1; apply grows_sent).
  assert (body ∈ sent (know s')) as Hbody by apply list_elem_of_here.
  destruct (Hk _ Hg Hs' Hbody) as (_ & _ & Hl). destruct (Hl r Hun) as [_ Hwp].
  eapply (step_frame s s' pid t); [done|exact Hpid|done..| | | |exact Hwp].
  - intros w Hw. by left.
  - intros r' [->|Hr']%elem_of_cons; [|by left]. right. split; [done|]. exists t, (k r).
    split; [apply lookup_insert_eq|]. split; [|done]. by apply Ha.
  - unfold after. destruct (is_pointer key) eqn:Hp; [done|].
    eapply status_ok_ext; [exact Hst|..]; simpl; [done|by left|].
    intros r' [->|Hr']%elem_of_cons Hby Hp'; [simpl in Hp'; congruence|done].
Qed.

Lemma land_inv (s : System Task R) (l1 l2 : list Request) (r : Request) (tag : string) :
  system_inv s → no_collision (sent (know s)) → in_flight s = l1 ++ r :: l2 →
  cond_holds (bucket (know s)) (r_key r) (r_cond r) = true →
  fresh_tag (bucket (know s)) (r_key r) tag (r_body r) →
  system_inv (set_in_flight (apply_write s
    {| w_by := r_by r; w_key := r_key r; w_tag := tag; w_body := r_body r |}) (l1 ++ l2)).
Proof.
  intros Hinv Hc Hl Hcond Hfresh.
  set (w := {| w_by := r_by r; w_key := r_key r; w_tag := tag; w_body := r_body r |}).
  set (s' := set_in_flight _ _).
  assert (r ∈ in_flight s) as Hr by (rewrite Hl; set_solver).
  pose proof (inv_requests s Hinv r Hr) as Ha.
  assert (settled (know s')) as Hs'.
  { split; [|exact Hc]. destruct Ha as (t & p & _ & Ha & Hin). rewrite (know_eta s) in Ha.
    eapply (world_write t _ _ w (r_cond r)); [|exact Hin|exact Ha|exact Hcond|exact Hfresh].
    rewrite <- know_eta. split; [by apply inv_world|done]. }
  assert (grows (know s) (know s')) as Hg by (rewrite (know_eta s) at 1; apply grows_write).
  assert (∀ r', r' ∈ in_flight s' → r' ∈ in_flight s) as Hsub by (intros r'; rewrite Hl; set_solver).
  split.
  - apply Hs'.
  - intros r' Hr'. eapply authored_ext; [done|exact Hg|eauto|]. apply (inv_requests s); auto.
  - intros w' [->|Hw']%elem_of_cons.
    + exists (r_cond r). eapply authored_ext; [done|exact Hg|eauto|exact Ha].
    + destruct (inv_writes s Hinv w' Hw') as [c Hw]. exists c.
      eapply authored_ext; [done|exact Hg|eauto|exact Hw].
  - intros q t p Hq. destruct (inv_procs s Hinv q t p Hq) as (st & Hst & Hwp). exists st.
    split; [|by eapply wp_grows]. eapply status_ok_ext; [exact Hst|..]; simpl.
    + intros w' Hw'. by apply list_elem_of_further.
    + intros w' [->|Hw']%elem_of_cons Hby Hp; [|by left]. right. by exists r.
    + auto.
Qed.

Lemma read_inv (s : System Task R) (pid : nat) (t : Task) (p p1 : Prog R) :
  system_inv s → no_collision (sent (know s)) → procs s !! pid = Some (t, p) →
  (∀ st, settled (know s) → wp t (λ _, True) (post t) p (know s) st →
     wp t (λ _, True) (post t) p1 (know s) st) →
  system_inv (set_proc s pid t p1).
Proof.
  intros Hinv Hc Hpid Hp. destruct (inv_procs s Hinv pid t _ Hpid) as (st & Hst & Hwp).
  assert (settled (know s)) as Hs by (split; [by apply inv_world|done]).
  eapply (step_frame s _ pid t p p1 st); try done; [by left|by left|by apply Hp].
Qed.

Lemma start_inv (s : System Task R) (pid : nat) (t : Task) :
  system_inv s → no_collision (sent (know s)) → procs s !! pid = None →
  system_inv (set_proc s pid t (code t)).
Proof.
  intros Hinv Hc Hpid. set (s' := set_proc _ _ _ _).
  assert (settled (know s)) as Hs by (split; [by apply inv_world|done]).
  assert (∀ q t' p', procs s !! q = Some (t', p') → ∃ p'', procs s' !! q = Some (t', p'')) as Hkeep.
  { intros q t' p' Hq. exists p'. simpl. rewrite lookup_insert_ne; [done|congruence]. }
  split.
  - apply Hs.
  - intros r Hr. by eapply authored_ext, (inv_requests s).
  - intros w Hw. destruct (inv_writes s Hinv w Hw) as [c Ha]. exists c.
    by apply (authored_ext s s' _ _ _ _ Hs (reflexivity _) Hkeep).
  - intros q t' p' Hq. simpl in Hq. destruct (decide (q = pid)) as [->|Hne].
    + rewrite lookup_insert_eq in Hq. simplify_eq. exists Unsent. split; [|by apply code_wp].
      split.
      * intros w Hw Hby. destruct (inv_writes s Hinv w Hw) as (c & t & p & Hp & _). congruence.
      * intros r Hr Hby. destruct (inv_requests s Hinv r Hr) as (t & p & Hp & _). congruence.
    + rewrite lookup_insert_ne in Hq by done. exact (inv_procs s Hinv q t' p' Hq).
Qed.

Lemma step_sent (s s' : System Task R) : step code s s' → sent (know s) ⊆ sent (know s').
Proof. intros []; simpl; set_solver. Qed.

Lemma step_inv (s s' : System Task R) :
  step code s s' → no_collision (sent (know s')) → system_inv s → system_inv s'.
Proof.
  intros Hstep Hc Hinv. pose proof (no_collision_subset _ _ (step_sent s s' Hstep) Hc) as Hc0.
  destruct Hstep.
  - by apply start_inv.
  - by eapply put_done_inv.
  - by eapply put_refused_inv.
  - by eapply put_lost_inv.
  - by eapply land_inv.
  - eapply read_inv; [done..|]. intros st Hs Hwp. cbn [wp] in Hwp.
    apply (Hwp (know s) (reflexivity _) Hs) with w; try done; by eapply current_Some.
  - eapply read_inv; [done..|]. intros st Hs Hwp. cbn [wp] in Hwp.
    by apply (Hwp (know s) (reflexivity _) Hs).
  - eapply read_inv; [done..|]. intros st Hs Hwp. cbn [wp] in Hwp. by apply Hwp.
Qed.

Lemma reachable_inv (s : System Task R) :
  reachable code s → no_collision (sent (know s)) → system_inv s.
Proof.
  induction 1 as [|s s' Hr IH Hstep]; intros Hc.
  - split; simpl; [exact world_empty|set_solver|set_solver|].
    intros pid t p Hp. by rewrite lookup_empty in Hp.
  - eapply step_inv; [done..|]. apply IH.
    by apply (no_collision_subset _ _ (step_sent s s' Hstep)).
Qed.

End logic.

#[global] Arguments wp : simpl never.
#[global] Arguments bind : simpl never.
#[global] Arguments settled : simpl never.
