(* ===== verification/GitHost.v ===== *)
(** * Git hosting as a concurrent system

    Any number of pushes and reads, of any repositories, run on one bucket ([ObjectStore]).
    This file states the discipline they follow: which writes each of them may issue, what
    the bucket then looks like, and what a published manifest is. [GitPush] proves that the
    code of the handlers follows it, [GitHostSpec] draws the conclusions. *)

From S2P Require Import Prelude Text StdText Filter GitManifest GitWire GitStore GitPublish GitServe ObjectStore.

Open Scope string_scope.
Open Scope nat_scope.
Open Scope list_scope.

(** ** Git's objects

    What git is trusted with: [reaches oid x] when the object [x] is in the closure of [oid];
    [pack_has bytes x] when the pack holds [x]. *)
Class GitObjects := {
  object : Type;
  reaches : string → object → Prop;
  pack_has : string → object → Prop;
  empty_pack (x : object) : ¬ pack_has "" x
}.

Section host.
Context `{Sha256Laws, Http, ManifestLaws, IdText, UuidText, GitObjects}.

(** [git pack-objects --revs] writes what the positive ids reach, less what the negative ones
    reach; with [--max-pack-size] it may do so in several packs. *)
Definition honest_git (w : Workspace) : Prop :=
  (∀ pos neg out,
     Forall (λ o, is_hex_oid o = true) pos → Forall (λ o, is_hex_oid o = true) neg →
     pack_objects w (concat_strings (rev_line <$> pos) +:+ concat_strings (not_rev_line <$> neg)) = Ok out →
     ∀ o x, o ∈ pos → reaches o x → pack_has out x ∨ ∃ o', o' ∈ neg ∧ reaches o' x) ∧
  (∀ pos entries,
     Forall (λ o, is_hex_oid o = true) pos →
     compact_objects w (concat_strings (rev_line <$> pos)) = Ok entries →
     ∀ o x, o ∈ pos → reaches o x →
     ∃ name, name ∈ entries ∧ is_pack_file name = true ∧
       ∀ bytes, file_read w name = Ok bytes → pack_has bytes x).

(** ** The programs of the system *)

Record Push := {
  request : PushRequest;
  git_honest : ∀ m, honest_git (push_workspace request m)
}.

Inductive Task := PushTask (p : Push) | InfoRefs (q : ReadRequest) | UploadPack (q : ReadRequest).

(** A handler ends with its response and with what it has to say about it. *)
Inductive Outcome := Pushed (f : Finished) | Read (r : Served).

Definition handler (t : Task) : Prog Outcome :=
  match t with
  | PushTask p => prog_map Pushed (receive_pack (request p))
  | InfoRefs q => prog_map Read (info_refs q)
  | UploadPack q => prog_map Read (upload_pack_handler q)
  end.

(** ** The discipline *)

Definition is_pointer (key : string) : bool := starts_with "repos/" key.

Definition stored (B : list Write) (key body : string) : Prop :=
  ∃ w, w ∈ B ∧ w_key w = key ∧ w_body w = body.

Definition manifest_at (B : list Write) (digest : string) (m : Manifest) : Prop :=
  ∃ bytes, stored B ("manifests/" +:+ digest) bytes ∧ sha256_hex bytes = digest ∧
    manifest_from_bytes bytes = Ok m ∧ validate m = Ok tt.

Definition packs_durable (B : list Write) (m : Manifest) : Prop :=
  ∀ k, k ∈ packs m → ∃ bytes, k = "packs/" +:+ sha256_hex bytes ∧ stored B k bytes.

(** Every object that a ref reaches is in a stored pack that the manifest names. *)
Definition covered (B : list Write) (m : Manifest) : Prop :=
  ∀ r o x, refs m !! r = Some o → reaches o x →
    ∃ k bytes, k ∈ packs m ∧ stored B k bytes ∧ pack_has bytes x.

(** A manifest that may be pointed to, as the successor of [parent_digest] *)
Definition publishable (B : list Write) (parent_digest : option string) (digest : string)
    (m : Manifest) : Prop :=
  manifest_at B digest m ∧ packs_durable B m ∧ covered B m ∧ parent m = parent_digest.

(** The manifest a push hydrated from *)
Definition hydrated_from (B : list Write) (parent_digest : option string) (m : Manifest) : Prop :=
  match parent_digest with
  | None => m = parent_manifest fresh
  | Some d => manifest_at B d m
  end.

(** [m] is what the push [p] publishes on top of [pm]: git accepted the update, the refs are
    those of the workspace, and the packs of the parent are kept unless it had so many that
    they may be compacted. *)
Definition effect_of (p : Push) (pm m : Manifest) : Prop :=
  (∃ stdout, receive_pack_run (request p) pm = RunDone stdout true ∧
     receive_pack_report_rejected stdout = false) ∧
  (∃ observed_head,
     snapshot_workspace_state (push_workspace (request p) pm) = Ok (refs m, observed_head) ∧
     head m = resolve_published_head (refs m) observed_head (head pm)) ∧
  ((∀ k, k ∈ packs pm → k ∈ packs m) ∨ PACK_COMPACTION_THRESHOLD ≤ length (packs pm)).

Definition push_key (p : Push) : string :=
  pointer_key (push_community (request p)) (push_owner (request p)) (push_repo (request p)).

(** The condition of a pointer write names the version that the push read. *)
Definition read_version (B : list Write) (key : string) (c : Precond) (parent_digest : option string)
    : Prop :=
  match c with
  | IfNoneMatchStar => parent_digest = None
  | IfMatch tag => ∃ w, w ∈ B ∧ w_key w = key ∧ w_tag w = tag ∧ parent_digest = Some (w_body w)
  end.

Inductive allowed (t : Task) (σ : Know) (key body : string) (c : Precond) : Prop :=
  | allow_pack :
      key = "packs/" +:+ sha256_hex body → c = IfNoneMatchStar → allowed t σ key body c
  | allow_manifest :
      key = "manifests/" +:+ sha256_hex body → c = IfNoneMatchStar → allowed t σ key body c
  | allow_idx digest : key = "idx/" +:+ digest → allowed t σ key body c
  | allow_pointer p parent_digest pm m :
      t = PushTask p → key = push_key p →
      read_version (bucket σ) key c parent_digest →
      hydrated_from (bucket σ) parent_digest pm →
      effect_of p pm m →
      publishable (bucket σ) parent_digest body m →
      allowed t σ key body c.

(** Every pointer version was published on top of the version before it. *)
Fixpoint chained (B : list Write) : Prop :=
  match B with
  | [] => True
  | w :: B0 =>
      (is_pointer (w_key w) = true →
         ∃ m, publishable B0 (w_body <$> current B0 (w_key w)) (w_body w) m) ∧
      chained B0
  end.

Record world (σ : Know) : Prop := {
  world_bodies : ∀ w, w ∈ bucket σ → w_body w ∈ sent σ;
  world_content : ∀ w prefix, w ∈ bucket σ → prefix = "packs/" ∨ prefix = "manifests/" →
    starts_with prefix (w_key w) = true → w_key w = prefix +:+ sha256_hex (w_body w);
  world_tags : ∀ w w', w ∈ bucket σ → w' ∈ bucket σ → w_key w = w_key w' → w_tag w = w_tag w' →
    w_body w = w_body w';
  world_chained : chained (bucket σ)
}.

(** ** What follows from it *)

Lemma stored_sub (B B' : list Write) (key body : string) :
  (∀ w, w ∈ B → w ∈ B') → stored B key body → stored B' key body.
Proof. intros HB (w & Hw & ?). exists w. by split; [apply HB|]. Qed.

Lemma manifest_at_sub (B B' : list Write) (d : string) (m : Manifest) :
  (∀ w, w ∈ B → w ∈ B') → manifest_at B d m → manifest_at B' d m.
Proof. intros HB (bytes & Hst & ?). exists bytes. by split; [eapply stored_sub|]. Qed.

Lemma packs_durable_sub (B B' : list Write) (m : Manifest) :
  (∀ w, w ∈ B → w ∈ B') → packs_durable B m → packs_durable B' m.
Proof.
  intros HB Hp k Hk. destruct (Hp k Hk) as (bytes & ? & ?). exists bytes.
  by split; [|eapply stored_sub].
Qed.

Lemma covered_sub (B B' : list Write) (m : Manifest) :
  (∀ w, w ∈ B → w ∈ B') → covered B m → covered B' m.
Proof.
  intros HB Hc r o x Hr Hx. destruct (Hc r o x Hr Hx) as (k & bytes & Hk & Hst & Hh).
  exists k, bytes. split; [done|]. by split; [eapply stored_sub|].
Qed.

Lemma publishable_sub (B B' : list Write) (pd : option string) (d : string) (m : Manifest) :
  (∀ w, w ∈ B → w ∈ B') → publishable B pd d m → publishable B' pd d m.
Proof.
  intros HB (Hm & Hp & Hc & Hpar). split; [by eapply manifest_at_sub|].
  split; [by eapply packs_durable_sub|]. by split; [eapply covered_sub|].
Qed.

Lemma hydrated_from_sub (B B' : list Write) (pd : option string) (m : Manifest) :
  (∀ w, w ∈ B → w ∈ B') → hydrated_from B pd m → hydrated_from B' pd m.
Proof. destruct pd; [|done]. apply manifest_at_sub. Qed.

Lemma allowed_grows (t : Task) (σ σ' : Know) (key body : string) (c : Precond) :
  grows σ σ' → allowed t σ key body c → allowed t σ' key body c.
Proof.
  intros Hg [Hk Hc|Hk Hc|dg Hk|p pd pm m Ht Hk Hr Hh He Hp].
  - by apply allow_pack.
  - by apply allow_manifest.
  - by eapply allow_idx.
  - assert (∀ w, w ∈ bucket σ → w ∈ bucket σ') as HB by (intros w; by apply grows_elem).
    eapply allow_pointer; [done|done| |by eapply hydrated_from_sub|done|by eapply publishable_sub].
    destruct c; [done|]. destruct Hr as (w & Hw & ?). exists w. by split; [apply HB|].
Qed.

(** A digest names one manifest. *)
Lemma manifest_at_fun (σ : Know) (d : string) (m m' : Manifest) :
  settled world σ → manifest_at (bucket σ) d m → manifest_at (bucket σ) d m' → m = m'.
Proof.
  intros [Hw Hc] (b & (w & Hin & Hk & Hb) & Hd & Hm & _) (b' & (w' & Hin' & Hk' & Hb') & Hd' & Hm' & _).
  assert (b = b') as <-; [|congruence]. subst.
  apply Hc; [by apply (world_bodies σ Hw)..|congruence].
Qed.

Lemma chained_publishable (B : list Write) (w : Write) :
  chained B → w ∈ B → is_pointer (w_key w) = true →
  ∃ pd m, publishable B pd (w_body w) m.
Proof.
  induction B as [|w0 B IH]; [set_solver|]. intros [Hc Hcs] [->|Hw]%elem_of_cons Hp.
  - destruct (Hc Hp) as [m Hm]. eexists _, m. eapply publishable_sub; [|exact Hm].
    intros w' Hw'. by apply list_elem_of_further.
  - destruct (IH Hcs Hw Hp) as (pd & m & Hm). exists pd, m. eapply publishable_sub; [|exact Hm].
    intros w' Hw'. by apply list_elem_of_further.
Qed.

Lemma world_empty_ok : world {| bucket := []; sent := [] |}.
Proof. by split; simpl; try set_solver. Qed.

Lemma world_sent_ok (B : list Write) (l : list string) (body : string) :
  world {| bucket := B; sent := l |} → world {| bucket := B; sent := body :: l |}.
Proof. intros [Hb Hc Ht Hch]. split; try done. intros w Hw. right. by apply Hb. Qed.

Lemma allowed_content (t : Task) (σ : Know) (key body prefix : string) (c : Precond) :
  allowed t σ key body c → prefix = "packs/" ∨ prefix = "manifests/" →
  starts_with prefix key = true → key = prefix +:+ sha256_hex body.
Proof.
  intros [-> Hc| -> Hc|dg ->|p pd pm m Ht -> Hr Hh He Hp] [->| ->]; done.
Qed.

Lemma allowed_published (t : Task) (σ : Know) (key body : string) (c : Precond) :
  world σ → allowed t σ key body c → cond_holds (bucket σ) key c = true →
  is_pointer key = true →
  ∃ m, publishable (bucket σ) (w_body <$> current (bucket σ) key) body m.
Proof.
  intros Hw [-> Hc| -> Hc|dg ->|p pd pm m Ht Hk Hr Hh He Hp] Hcond Hptr; [done..|].
  exists m. replace (w_body <$> current (bucket σ) key) with pd; [done|].
  unfold cond_holds in Hcond. destruct c as [|tag]; simpl in Hr.
  - by destruct (current (bucket σ) key).
  - destruct Hr as (w & Hin & Hkey & Htag & ->).
    destruct (current (bucket σ) key) as [w'|] eqn:Hcur; [|done].
    apply current_Some in Hcur as [Hin' Hk']. apply bool_decide_eq_true in Hcond.
    simpl. f_equal. apply (world_tags σ Hw); congruence.
Qed.

Lemma world_write_ok (t : Task) (B : list Write) (l : list string) (w : Write) (c : Precond) :
  settled world {| bucket := B; sent := l |} → w_body w ∈ l →
  allowed t {| bucket := B; sent := l |} (w_key w) (w_body w) c →
  cond_holds B (w_key w) c = true → fresh_tag B (w_key w) (w_tag w) (w_body w) →
  world {| bucket := w :: B; sent := l |}.
Proof.
  intros [Hw Hc] Hl Ha Hcond Hf. split; simpl.
  - intros w' [->|Hw']%elem_of_cons; [done|]. by apply (world_bodies _ Hw).
  - intros w' prefix [->|Hw']%elem_of_cons Hpre Hst; [by eapply allowed_content|].
    by apply (world_content _ Hw).
  - intros w1 w2 [->|Hw1]%elem_of_cons [->|Hw2]%elem_of_cons Hk Ht; [done|..].
    + symmetry. by apply Hf.
    + by apply Hf.
    + by apply (world_tags _ Hw).
  - split; [|apply (world_chained _ Hw)]. intros Hp.
    exact (allowed_published t _ _ _ c Hw Ha Hcond Hp).
Qed.

(** ** Digests as text *)

Lemma lower_hex_utf8 (s : string) : chars_all is_lower_hex s = true → is_utf8 s = true.
Proof.
  unfold chars_all. induction s as [|a s IH]; [done|]. simpl. intros [Ha Hs]%andb_true_iff.
  rewrite (IH Hs). replace (between 0 127 a) with true; [done|]. symmetry.
  unfold is_lower_hex, between in *. apply andb_true_iff.
  apply orb_true_iff in Ha as [Ha|Ha]; apply andb_true_iff in Ha as [Ha1 Ha2];
    apply N.leb_le in Ha1, Ha2; split; apply N.leb_le; lia.
Qed.

Lemma strip_one_elem (ws : list string) (s r : string) :
  strip_one ws s = Some r → ∃ w, w ∈ ws ∧ s = w +:+ r.
Proof.
  induction ws as [|w ws IH]; [done|]. simpl. destruct (strip_prefix w s) as [r'|] eqn:Hw.
  - intros [= <-]. exists w. split; [set_solver|]. by apply strip_prefix_Some.
  - intros Hr. destruct (IH Hr) as (w' & ? & ?). exists w'. split; [set_solver|done].
Qed.

Lemma strip_all_kept (f : Ascii.ascii → bool) (ws : list string) (n : nat) (s : string) :
  Forall (λ w, chars_all f w = false) ws → chars_all f s = true → strip_all n ws s = s.
Proof.
  intros Hws Hs. destruct n; [done|]. simpl. destruct (strip_one ws s) as [r|] eqn:Hr; [|done].
  apply strip_one_elem in Hr as (w & Hw & ->). rewrite chars_all_app in Hs.
  rewrite Forall_forall in Hws. rewrite (Hws w Hw) in Hs. done.
Qed.

Lemma chars_all_rev (f : Ascii.ascii → bool) (s : string) :
  chars_all f (string_rev s) = chars_all f s.
Proof.
  induction s as [|a s IH]; [done|].
  change (string_rev (String a s)) with (string_rev_app s (String a "")).
  rewrite string_rev_app_spec, chars_all_app, IH. unfold chars_all. simpl.
  by rewrite andb_true_r, andb_comm.
Qed.

Lemma white_space_not_hex (ws : list string) :
  forallb (λ w, negb (chars_all is_lower_hex w)) ws = true →
  Forall (λ w, chars_all is_lower_hex w = false) ws.
Proof.
  rewrite forallb_forall, Forall_forall. intros Hws w Hw. apply negb_true_iff, Hws.
  by apply list_elem_of_In.
Qed.

Lemma lower_hex_trim (s : string) : chars_all is_lower_hex s = true → str_trim s = s.
Proof.
  intros Hs. unfold str_trim, trim_start. rewrite (strip_all_kept is_lower_hex); [| |done].
  - unfold trim_back. rewrite (strip_all_kept is_lower_hex).
    + apply string_rev_involutive.
    + apply white_space_not_hex. vm_compute. reflexivity.
    + by rewrite chars_all_rev.
  - apply white_space_not_hex. vm_compute. reflexivity.
Qed.

Lemma manifest_digest_text (d : string) :
  is_manifest_digest d = true → is_utf8 d = true ∧ str_trim d = d ∧ hex64 d = true.
Proof.
  unfold is_manifest_digest, hex64. intros [Hl Hd]%andb_true_iff.
  split; [by apply lower_hex_utf8|]. split; [by apply lower_hex_trim|].
  rewrite Hl. simpl. eapply chars_all_impl; [|exact Hd]. intros a Ha. unfold is_ascii_hexdigit.
  unfold is_lower_hex in Ha. apply orb_true_iff in Ha as [->| ->]; [done|by rewrite orb_true_r].
Qed.

(** ** What a reader of a pointer finds *)

Lemma pointer_body (σ : Know) (w : Write) :
  settled world σ → w ∈ bucket σ → is_pointer (w_key w) = true →
  is_manifest_digest (w_body w) = true ∧
  ∃ pd m, publishable (bucket σ) pd (w_body w) m.
Proof.
  intros [Hw Hc] Hin Hp. destruct (chained_publishable _ w (world_chained σ Hw) Hin Hp) as (pd & m & Hm).
  split; [|by exists pd, m]. destruct Hm as [(b & _ & <- & _) _]. apply sha256_hex_digest.
Qed.

End host.
