(* ===== verification/GitPush.v ===== *)
(** * The handlers follow the discipline

    Weakest preconditions of the store's methods, of hydration, of the publication of a push
    and of the handlers, in the logic of [ObjectStore] with the discipline of [GitHost]. *)

From S2P Require Import Prelude Text StdText Filter GitManifest GitWire GitStore GitPublish GitServe ObjectStore GitHost.

Open Scope string_scope.
Open Scope nat_scope.
Open Scope list_scope.

Section push.
Context `{Sha256Laws, Http, ManifestLaws, IdText, UuidText, GitObjects}.

Abbreviation WP t := (wp is_pointer world allowed t) (only parsing).

(** ** Programs that only read *)

Fixpoint reads_only {A} (p : Prog A) : Prop :=
  match p with
  | Ret _ => True
  | PutObject _ _ _ _ _ => False
  | GetObject _ k => ∀ r, reads_only (k r)
  | HeadObject _ k => ∀ r, reads_only (k r)
  end.

Lemma reads_only_bind {A B} (p : Prog A) (f : A → Prog B) :
  reads_only p → (∀ a, reads_only (f a)) → reads_only (bind p f).
Proof.
  intros Hp Hf. induction p as [a|key body ct c k IH|key k IH|key k IH]; [apply Hf|done|..];
    intros r; apply IH, Hp.
Qed.

Lemma wp_reads_only (t : Task) {A} (J : Status → Prop) (Q : Know → Status → A → Prop) (p : Prog A)
    (σ : Know) (st : Status) :
  reads_only p → (∀ σ' a, grows σ σ' → settled world σ' → Q σ' st a) → WP t J Q p σ st.
Proof.
  revert σ. induction p as [a|key body ct c k IH|key k IH|key k IH]; intros σ Hp HQ.
  - intros σ1 Hg1 Hs1. by apply HQ.
  - done.
  - intros σ1 Hg1 Hs1. split; intros; (apply IH; [done|]); intros; apply HQ; try done; by etrans.
  - intros σ1 r Hg1 Hs1. apply IH; [done|]. intros; apply HQ; try done; by etrans.
Qed.

(** ** The store's methods *)

Ltac grow := first
  [ assumption | reflexivity
  | match goal with Hg : grows ?a ?b |- grows ?a _ => transitivity b; [exact Hg|clear Hg; grow] end ].

(** A return: the knowledge may have grown once more. *)
Ltac wp_return HQ := intros ?σ ?Hg ?Hs; apply HQ; [grow|done|..].

Lemma wp_get_pointer t J σ st key Q :
  (∀ σ' r, grows σ σ' → settled world σ' →
     (∀ etag body, r = Ok (Some (etag, body)) →
        ∃ w, w ∈ bucket σ' ∧ w_key w = key ∧ w_tag w = etag ∧ w_body w = body) → Q σ' st r) →
  WP t J Q (get_pointer key) σ st.
Proof.
  intros HQ σ1 Hg1 Hs1. split.
  - intros w resp Hw Hk Hb Ht. wp_return HQ.
    intros etag body. destruct (etag_of resp) as [e|] eqn:He; [|done]. intros [= <- <-].
    exists w. split; [by eapply grows_elem|]. split; [done|]. split; [|done]. symmetry. by apply Ht.
  - intros e. wp_return HQ. intros etag body. by repeat case_match.
Qed.

Lemma stored_grows (σ σ' : Know) (key body : string) :
  grows σ σ' → stored (bucket σ) key body → stored (bucket σ') key body.
Proof. intros Hg. apply stored_sub. intros w. by apply grows_elem. Qed.

Lemma wp_get t J σ st key Q :
  (∀ σ' r, grows σ σ' → settled world σ' →
     (∀ bytes, r = Ok bytes → stored (bucket σ') key bytes) → Q σ' st r) →
  WP t J Q (get key) σ st.
Proof.
  intros HQ σ1 Hg1 Hs1. split.
  - intros w resp Hw Hk Hb Ht. wp_return HQ. intros bytes [= <-].
    exists w. split; [by eapply grows_elem|done].
  - intros e. wp_return HQ. intros bytes. by repeat case_match.
Qed.

Lemma wp_get_limited t J σ st key max Q :
  settled world σ →
  (∀ σ' r, grows σ σ' → settled world σ' →
     (∀ bytes, r = Ok bytes → stored (bucket σ') key bytes) → Q σ' st r) →
  WP t J Q (get_limited key max) σ st.
Proof.
  intros Hs HQ σ1 [[hd status]|e] Hg1 Hs1; [|by wp_return HQ].
  repeat (case_match; [|by wp_return HQ]).
  apply wp_seq; [|done]. apply wp_get. intros σ2 [bytes|e] Hg2 Hs2 Hst; [|by wp_return HQ].
  case_match; wp_return HQ; [|done]. intros b [= <-]. eapply stored_grows; [done|by apply Hst].
Qed.

Lemma verified_ok (key d bytes b : string) :
  verified key d bytes = Ok b → b = bytes ∧ sha256_hex bytes = d.
Proof. unfold verified. case_decide; [|done]. by intros [= <-]. Qed.

(** Reading and checking the digest: with and without a limit *)
Definition read_verified (σ : Know) (key d : string) (r : result string StoreError) : Prop :=
  ∀ bytes, r = Ok bytes → stored (bucket σ) key bytes ∧ sha256_hex bytes = d.

Lemma read_verified_intro σ σ' key d bytes :
  grows σ σ' → stored (bucket σ) key bytes → read_verified σ' key d (verified key d bytes).
Proof. intros Hg Hst b Hb. apply verified_ok in Hb as [-> <-]. split; [by eapply stored_grows|done]. Qed.

Lemma wp_get_verified t J σ st key d Q :
  settled world σ →
  (∀ σ' r, grows σ σ' → settled world σ' → read_verified σ' key d r → Q σ' st r) →
  WP t J Q (get_verified key d) σ st.
Proof.
  intros Hs HQ. apply wp_seq; [|done]. apply wp_get.
  intros σ1 [bytes|e] Hg1 Hs1 Hst; wp_return HQ; [|done].
  eapply read_verified_intro; [done|by apply Hst].
Qed.

Lemma wp_get_verified_limited t J σ st key d max Q :
  settled world σ →
  (∀ σ' r, grows σ σ' → settled world σ' → read_verified σ' key d r → Q σ' st r) →
  WP t J Q (get_verified_limited key d max) σ st.
Proof.
  intros Hs HQ. apply wp_seq; [|done]. apply wp_get_limited; [done|].
  intros σ1 [bytes|e] Hg1 Hs1 Hst; wp_return HQ; [|done].
  eapply read_verified_intro; [done|by apply Hst].
Qed.

(** A create-only write of an object that is not a pointer *)
Lemma wp_put t J σ st key body ct Q :
  is_pointer key = false → J st → (∀ σ', allowed t σ' key body IfNoneMatchStar) →
  (∀ σ' r, grows σ σ' → settled world σ' →
     (∀ k, r = Ok k → k = key ∧ body ∈ sent σ' ∧ ∃ w, w ∈ bucket σ' ∧ w_key w = key) → Q σ' st r) →
  WP t J Q (PutObject key body ct IfNoneMatchStar (λ r, Ret (put_answer key r))) σ st.
Proof.
  intros Hp HJ Ha HQ. split; [done|]. split; [by rewrite Hp|]. unfold after. rewrite Hp.
  intros σ1 Hg1 Hs1 Hbody. split; [|split].
  - intros w resp Hw Hk Hb Hok Ht. split; [done|]. wp_return HQ. simpl. rewrite Hok.
    intros k [= <-]. split; [done|]. split; [by apply Hg|]. exists w. split; [by eapply grows_elem|done].
  - intros b Hex. split; [done|]. wp_return HQ. simpl. intros k [= <-]. split; [done|].
    split; [by apply Hg|]. destruct (Hex eq_refl) as (w & Hw & Hk). exists w.
    split; [by eapply grows_elem|done].
  - intros r Hun. split; [done|]. wp_return HQ. intros k Hk. exfalso. destruct r as [resp|e]; simpl in *.
    + apply negb_true_iff in Hun. by rewrite Hun in Hk.
    + destruct e as [code b|]; [|done]. apply negb_true_iff in Hun. by rewrite Hun in Hk.
Qed.

(** The object under a content-addressed key is the one that was to be written. *)
Lemma content_stored σ prefix body w :
  settled world σ → prefix = "packs/" ∨ prefix = "manifests/" → body ∈ sent σ →
  w ∈ bucket σ → w_key w = prefix +:+ sha256_hex body → stored (bucket σ) (prefix +:+ sha256_hex body) body.
Proof.
  intros [Hw Hc] Hpre Hbody Hin Hk. exists w. split; [done|]. split; [done|].
  assert (w_key w = prefix +:+ sha256_hex (w_body w)) as Hk'.
  { apply (world_content σ Hw); [done|done|]. rewrite Hk. unfold starts_with.
    rewrite strip_prefix_app. by apply bool_decide_eq_true_2. }
  apply Hc; [by apply (world_bodies σ Hw)|done|].
  rewrite Hk in Hk'. pose proof (strip_prefix_app prefix (sha256_hex body)) as Hs1.
  rewrite Hk', strip_prefix_app in Hs1. congruence.
Qed.

Lemma wp_put_pack t J σ st bytes Q :
  J st →
  (∀ σ' r, grows σ σ' → settled world σ' →
     (∀ k, r = Ok k → k = "packs/" +:+ sha256_hex bytes ∧ stored (bucket σ') k bytes) → Q σ' st r) →
  WP t J Q (put_pack bytes) σ st.
Proof.
  intros HJ HQ. apply wp_put; [done|done|by intros; apply allow_pack|].
  intros σ1 r Hg1 Hs1 Hr. apply HQ; [done|done|]. intros k Hk.
  destruct (Hr k Hk) as (-> & Hbody & w & Hw & Hwk). split; [done|].
  apply (content_stored σ1 "packs/" bytes w); auto.
Qed.

Lemma wp_put_manifest t J σ st bytes Q :
  J st →
  (∀ σ' r, grows σ σ' → settled world σ' →
     (∀ k, r = Ok k → k = "manifests/" +:+ sha256_hex bytes ∧ stored (bucket σ') k bytes) → Q σ' st r) →
  WP t J Q (put_manifest bytes) σ st.
Proof.
  intros HJ HQ. apply wp_put; [done|done|by intros; apply allow_manifest|].
  intros σ1 r Hg1 Hs1 Hr. apply HQ; [done|done|]. intros k Hk.
  destruct (Hr k Hk) as (-> & Hbody & w & Hw & Hwk). split; [done|].
  apply (content_stored σ1 "manifests/" bytes w); auto.
Qed.

Lemma wp_put_idx t J σ st d idx Q :
  J st → (∀ σ' r, grows σ σ' → settled world σ' → Q σ' st r) →
  WP t J Q (put_idx d idx) σ st.
Proof.
  intros HJ HQ. unfold put_idx, idx_key_for_pack_digest. destruct (_ && _); [|by wp_return HQ].
  apply wp_put; [done|done|by intros; eapply allow_idx|]. intros. by apply HQ.
Qed.

(** The swap of a pointer *)
Lemma wp_put_pointer t J σ key body c Q :
  is_pointer key = true → J Unsent → J (Unknown body) → J (Installed body) →
  (∀ σ', grows σ σ' → settled world σ' → allowed t σ' key body c) →
  (∀ σ' st r, grows σ σ' → settled world σ' →
     match r with
     | Ok (Won _) => st = Installed body
     | Ok LostRace => st = Unsent
     | Err _ => True
     end → Q σ' st r) →
  WP t J Q (put_pointer key body c) σ Unsent.
Proof.
  intros Hp HJ1 HJ2 HJ3 Ha HQ. unfold put_pointer. case_match; [|by wp_return HQ].
  split; [done|]. split; [done|]. unfold after. rewrite Hp.
  intros σ1 Hg1 Hs1 Hbody. split; [|split].
  - intros w resp Hw Hk Hb Hok Ht. split; [done|]. wp_return HQ. simpl. rewrite Hok. by destruct (etag_of resp).
  - intros b _. split; [done|]. by wp_return HQ.
  - intros r Hun. split; [done|]. wp_return HQ. destruct r as [resp|e]; simpl in *.
    + apply negb_true_iff in Hun. by rewrite Hun.
    + destruct e as [code b|]; [|done]. apply negb_true_iff in Hun. by rewrite Hun.
Qed.

(** ** Hydration *)

Definition loaded (σ : Know) (key etag digest : string) (m : Manifest) : Prop :=
  (∃ w, w ∈ bucket σ ∧ w_key w = key ∧ w_tag w = etag ∧ w_body w = digest) ∧
  ∃ pd, publishable (bucket σ) pd digest m.

Lemma loaded_grows σ σ' key etag d m : grows σ σ' → loaded σ key etag d m → loaded σ' key etag d m.
Proof.
  intros Hg [(w & Hw & ?) [pd Hp]]. assert (∀ w, w ∈ bucket σ → w ∈ bucket σ') as HB
    by (intros w'; by apply grows_elem).
  split; [exists w; split; [by apply HB|done]|]. exists pd. by eapply publishable_sub.
Qed.

Lemma pointer_key_is_pointer c o r : is_pointer (pointer_key c o r) = true.
Proof.
  unfold is_pointer, starts_with, pointer_key. rewrite strip_prefix_app.
  by apply bool_decide_eq_true_2.
Qed.

Lemma wp_hydrate_get t J σ st key d max Q :
  settled world σ →
  (∀ σ' r, grows σ σ' → settled world σ' →
     (∀ bytes, r = Ok bytes → stored (bucket σ') key bytes ∧ sha256_hex bytes = d) → Q σ' st r) →
  WP t J Q (hydrate_get_verified_limited key d max) σ st.
Proof.
  intros Hs HQ. apply wp_prog_map; [done|]. apply wp_get_verified_limited; [done|].
  intros σ1 [bytes|e] Hg1 Hs1 Hr; apply HQ; try done. intros b [= <-]. by apply Hr.
Qed.

Lemma wp_load_pointer t J σ st c o r Q :
  settled world σ →
  (∀ σ' res, grows σ σ' → settled world σ' →
     (∀ etag d m, res = Ok (Some (etag, d, m)) → loaded σ' (pointer_key c o r) etag d m) →
     Q σ' st res) →
  WP t J Q (load_pointer c o r) σ st.
Proof.
  intros Hs HQ. apply wp_seq; [|done]. apply wp_prog_map; [done|]. apply wp_get_pointer.
  intros σ1 [[[etag body]|]|e] Hg1 Hs1 Hw; [|by wp_return HQ..]. simpl.
  destruct (Hw etag body eq_refl) as (w & Hin & Hk & Ht & Hb).
  destruct (pointer_body σ1 w Hs1 Hin) as [Hd (pd & m0 & Hpub)];
    [rewrite Hk; apply pointer_key_is_pointer|].
  rewrite Hb in Hd, Hpub. destruct (manifest_digest_text body Hd) as (Hu & Htrim & Hx).
  cbn beta zeta. rewrite Hu, Htrim, Hx. apply wp_seq; [|done]. apply wp_hydrate_get; [done|].
  intros σ2 [bytes|e] Hg2 Hs2 Hr; [|by wp_return HQ].
  destruct (manifest_from_bytes bytes) as [m|e] eqn:Hm; [|by wp_return HQ]. simpl.
  destruct (validate m) as [[]|e] eqn:Hv; [|by wp_return HQ]. simpl.
  wp_return HQ. intros etag' d' m' [= <- <- <-]. destruct (Hr bytes eq_refl) as [Hst Hsha].
  assert (manifest_at (bucket σ2) body m) as Hat by by exists bytes.
  assert (publishable (bucket σ2) pd body m0) as Hpub2
    by (eapply publishable_sub; [|exact Hpub]; intros w'; by apply grows_elem).
  assert (m = m0) as -> by (eapply manifest_at_fun; [exact Hs2|done|apply Hpub2]).
  eapply (loaded_grows σ2); [done|]. split; [|by exists pd].
  exists w. split; [by eapply grows_elem|done].
Qed.

Lemma reads_only_prog_map {A B} (f : A → B) (p : Prog A) : reads_only p → reads_only (prog_map f p).
Proof. intros Hp. by apply reads_only_bind. Qed.

Lemma reads_only_get key : reads_only (get key).
Proof. done. Qed.

Lemma reads_only_get_limited key max : reads_only (get_limited key max).
Proof.
  intros [[hd status]|e]; [|done]. repeat (case_match; [|done]).
  apply reads_only_bind; [done|]. intros [bytes|]; [|done]. by case_match.
Qed.

Lemma reads_only_hydrate_get key d max : reads_only (hydrate_get_verified_limited key d max).
Proof.
  apply reads_only_prog_map, reads_only_bind; [apply reads_only_get_limited|]. by intros [].
Qed.

Lemma reads_only_get_idx d max : reads_only (get_idx d max).
Proof.
  unfold get_idx, idx_key_for_pack_digest. destruct (_ && _); [|done].
  apply reads_only_bind; [apply reads_only_get_limited|]. done.
Qed.

Lemma reads_only_install_idx d pd max : reads_only (install_or_generate_idx d pd max).
Proof.
  apply reads_only_bind; [apply reads_only_get_idx|]. intros [[b|]|e]; by repeat case_match.
Qed.

Lemma reads_only_materialize_pack d key digest max : reads_only (materialize_pack d key digest max).
Proof.
  unfold materialize_pack. destruct (hex64 digest), (cached d digest); try done.
  destruct (map_err Hydrate (stage_pack d digest)); [|done].
  apply reads_only_bind; [apply reads_only_hydrate_get|]. intros [bytes|e]; [|done].
  destruct (map_err Hydrate (write_pack d digest)); [|done].
  apply reads_only_bind; [apply reads_only_install_idx|].
  intros [[]|e]; [|done]. by destruct (map_err Hydrate (install_entry d digest)).
Qed.

Lemma reads_only_materialize_packs d o keys total : reads_only (materialize_packs d o keys total).
Proof.
  revert total. induction keys as [|key keys IH]; intros total; [done|]. simpl.
  destruct (strip_prefix "packs/" key) as [digest|]; [|done].
  apply reads_only_bind; [apply reads_only_materialize_pack|]. intros [bytes|e]; [|done].
  repeat match goal with |- reads_only (if ?b then _ else _) => destruct b; [|done] end. apply IH.
Qed.

Lemma reads_only_materialize d o m : reads_only (materialize_manifest d o m).
Proof.
  unfold materialize_manifest. destruct (map_err Hydrate (init_bare_repo d)); [|done].
  apply reads_only_bind; [apply reads_only_materialize_packs|]. intros [total|e]; [|done].
  destruct (installable m); [|done]. by destruct (map_err Hydrate (write_refs d)).
Qed.

(** The condition under which a push will swap the pointer *)
Definition precond_of (ps : ParentState) : Precond :=
  match if_match ps with Some e => IfMatch e | None => IfNoneMatchStar end.

(** What a push knows of its parent *)
Record parent_ok (σ : Know) (key : string) (ps : ParentState) : Prop := {
  parent_version : read_version (bucket σ) key (precond_of ps) (parent_digest ps);
  parent_hydrated : hydrated_from (bucket σ) (parent_digest ps) (parent_manifest ps);
  parent_durable : packs_durable (bucket σ) (parent_manifest ps);
  parent_covered : covered (bucket σ) (parent_manifest ps);
  parent_oids : ∀ r o, refs (parent_manifest ps) !! r = Some o → is_hex_oid o = true
}.

Lemma parent_ok_grows σ σ' key ps : grows σ σ' → parent_ok σ key ps → parent_ok σ' key ps.
Proof.
  intros Hg [Hv Hh Hd Hc Ho].
  assert (∀ w, w ∈ bucket σ → w ∈ bucket σ') as HB by (intros w'; by apply grows_elem).
  split; [|by eapply hydrated_from_sub|by eapply packs_durable_sub|by eapply covered_sub|done].
  destruct (precond_of ps); [done|]. destruct Hv as (w & Hw & ?). exists w. by split; [apply HB|].
Qed.

Lemma loaded_parent σ key etag d m : loaded σ key etag d m → parent_ok σ key (from_loaded etag d m).
Proof.
  intros [(w & Hw & Hk & Ht & Hb) [pd (Hm & Hd & Hc & _)]]. split; simpl; try done.
  - exists w. by rewrite Hb.
  - intros r o Hr. destruct Hm as (b & _ & _ & _ & Hv). apply validate_ok in Hv.
    destruct Hv as (_ & _ & _ & _ & Hrefs & _). by apply (Hrefs r o).
Qed.

Lemma fresh_parent σ key : parent_ok σ key fresh.
Proof.
  split; simpl; [done|done| | |].
  - intros k Hk. by apply not_elem_of_nil in Hk.
  - intros r o x Hr. by destruct (lookup_empty_Some (M := gmap string) r o).
  - intros r o Hr. by destruct (lookup_empty_Some (M := gmap string) r o).
Qed.

Lemma wp_hydrate_for_write t J σ st c o r d opts Q :
  settled world σ →
  (∀ σ' res, grows σ σ' → settled world σ' →
     (∀ repo ps, res = Ok (repo, ps) → parent_ok σ' (pointer_key c o r) ps) → Q σ' st res) →
  WP t J Q (hydrate_for_write c o r d opts) σ st.
Proof.
  intros Hs HQ. apply wp_seq; [|done]. apply wp_load_pointer; [done|].
  intros σ1 [[[[etag dg] m]|]|e] Hg1 Hs1 Hl.
  - apply wp_seq; [|done]. apply wp_reads_only; [apply reads_only_materialize|].
    intros σ2 [repo|e] Hg2 Hs2; [|by wp_return HQ]. wp_return HQ. intros repo' ps [= <- <-].
    apply loaded_parent. eapply (loaded_grows σ1); [grow|]. by apply Hl.
  - destruct (map_err Hydrate (init_bare_repo d)); [|by wp_return HQ].
    wp_return HQ. intros repo ps [= <- <-]. apply fresh_parent.
  - by wp_return HQ.
Qed.

(** ** Capturing and uploading packs *)

Definition stored_pack (σ : Know) (k bytes : string) : Prop :=
  k = "packs/" +:+ sha256_hex bytes ∧ stored (bucket σ) k bytes.

Lemma stored_pack_grows σ σ' k bytes : grows σ σ' → stored_pack σ k bytes → stored_pack σ' k bytes.
Proof. intros Hg [? ?]. split; [done|by eapply stored_grows]. Qed.

Lemma wp_upload_pack t J σ st w pack Q :
  settled world σ → J st →
  (∀ σ' r, grows σ σ' → settled world σ' →
     (∀ k, r = Ok k → ∃ bytes, file_read w (pack_path pack) = Ok bytes ∧ stored_pack σ' k bytes) →
     Q σ' st r) →
  WP t J Q (upload_pack w pack) σ st.
Proof.
  intros Hs HJ HQ. unfold upload_pack. destruct (file_read w (pack_path pack)) as [bytes|e]; [|by wp_return HQ].
  simpl. destruct (byte_len bytes =? pack_bytes pack)%Z; [|by wp_return HQ].
  apply wp_seq; [|done]. apply wp_prog_map; [done|]. apply wp_put_pack; [done|].
  intros σ1 [key|e] Hg1 Hs1 Hk; [|by wp_return HQ]. simpl.
  destruct (digest_from_pack_key key) as [pd|e]; [|by wp_return HQ].
  assert (∀ σ', grows σ1 σ' → ∀ k, Ok (E := CasError) key = Ok k →
    ∃ b, Ok (E := string) bytes = Ok b ∧ stored_pack σ' k b) as Hst.
  { intros σ' Hg k [= <-]. exists bytes. split; [done|].
    eapply stored_pack_grows; [done|]. destruct (Hk key eq_refl). done. }
  destruct (file_read w (idx_path pack)) as [idx|e].
  - apply wp_seq; [|done]. apply wp_put_idx; [done|]. intros σ2 r Hg2 Hs2. wp_return HQ.
    apply Hst. grow.
  - wp_return HQ. by apply Hst.
Qed.

Lemma wp_upload_packs t J σ st w packs keys Q :
  settled world σ → J st →
  (∀ k, k ∈ keys → ∃ bytes, stored_pack σ k bytes) →
  (∀ σ' r, grows σ σ' → settled world σ' →
     (∀ ks, r = Ok ks →
        (∀ k, k ∈ ks → ∃ bytes, stored_pack σ' k bytes) ∧ (∀ k, k ∈ keys → k ∈ ks) ∧
        ∀ pack, pack ∈ packs →
          ∃ k bytes, k ∈ ks ∧ file_read w (pack_path pack) = Ok bytes ∧ stored_pack σ' k bytes) →
     Q σ' st r) →
  WP t J Q (upload_packs w packs keys) σ st.
Proof.
  revert σ keys. induction packs as [|pack packs IH]; intros σ keys Hs HJ Hkeys HQ.
  - wp_return HQ. intros ks [= <-]. split; [|split].
    + intros k Hk. apply elem_of_sort_dedup, Hkeys in Hk as [b Hk]. exists b.
      by eapply stored_pack_grows.
    + intros k Hk. by apply elem_of_sort_dedup.
    + intros pack Hp. by apply not_elem_of_nil in Hp.
  - apply wp_seq; [|done]. apply wp_upload_pack; [done|done|].
    intros σ1 [key|e] Hg1 Hs1 Hk; [|by wp_return HQ].
    destruct (Hk key eq_refl) as (bytes & Hread & Hst).
    apply IH; [done|done|..].
    { intros k [Hin| ->%list_elem_of_singleton]%elem_of_app; [|by exists bytes].
      destruct (Hkeys k Hin) as [b Hb]. exists b. by eapply stored_pack_grows. }
    intros σ2 r Hg2 Hs2 Hr. apply HQ; [grow|done|]. intros ks Hks.
    destruct (Hr ks Hks) as (Hall & Hold & Hnew). split; [done|]. split.
    + intros k Hin. apply Hold. apply elem_of_app. by left.
    + intros p [->|Hp]%elem_of_cons; [|by apply Hnew]. exists key, bytes.
      split; [apply Hold; apply elem_of_app; right; by apply list_elem_of_singleton|].
      split; [done|]. by eapply stored_pack_grows.
Qed.

(** What a compaction gives: stored packs that cover the refs *)
Definition compacts (σ : Know) (refs_after : gmap string string) (keys : list string) : Prop :=
  (∀ k, k ∈ keys → ∃ bytes, stored_pack σ k bytes) ∧
  ∀ r o x, refs_after !! r = Some o → reaches o x →
    ∃ k bytes, k ∈ keys ∧ stored (bucket σ) k bytes ∧ pack_has bytes x.

Lemma capture_compacted_paths w refs_after limits c :
  capture_compacted_packs w refs_after limits = Ok c → honest_git w →
  (∀ r o, refs_after !! r = Some o → is_hex_oid o = true) →
  ∀ r o x, refs_after !! r = Some o → reaches o x →
    ∃ pack, pack ∈ compacted c ∧ ∀ bytes, file_read w (pack_path pack) = Ok bytes → pack_has bytes x.
Proof.
  unfold capture_compacted_packs. intros Hc [_ Hgit] Hhex r o x Hr Hx.
  destruct (decide (refs_after = ∅)) as [->|Hne]; [by rewrite lookup_empty in Hr|].
  destruct (enforce_compaction_object_limit w); [|done].
  destruct (compact_objects w _) as [entries|] eqn:Hent; [|done]. simpl in Hc.
  destruct (_ <=? MAX_MANIFEST_PACKS); [|done].
  apply measure_packs_paths in Hc. simpl in Hc.
  edestruct Hgit as (name & Hname & Hpack & Hhas); [|exact Hent| |exact Hx|].
  - apply Forall_forall. intros o' [Ho' _]%elem_of_unseen. apply elem_of_values in Ho' as [r' Ho'].
    by eapply Hhex.
  - apply elem_of_unseen. split; [|done]. apply elem_of_values. by exists r.
  - assert (name ∈ pack_path <$> compacted c) as Hin.
    { rewrite Hc, elem_of_sort_strings. apply list_elem_of_In, filter_In.
      split; [by apply list_elem_of_In|done]. }
    apply list_elem_of_fmap in Hin as (pack & -> & Hin). by exists pack.
Qed.

Lemma wp_prepare_compaction t J σ st w refs_after limits n Q :
  settled world σ → J st → honest_git w →
  (∀ r o, refs_after !! r = Some o → is_hex_oid o = true) →
  (∀ σ' r, grows σ σ' → settled world σ' →
     (∀ keys, r = Ok keys → compacts σ' refs_after keys) → Q σ' st r) →
  WP t J Q (prepare_compaction w refs_after limits n) σ st.
Proof.
  intros Hs HJ Hgit Hhex HQ. unfold prepare_compaction.
  destruct (capture_compacted_packs w refs_after limits) as [c|e] eqn:Hc; [|by wp_return HQ].
  destruct (compacted_pack_set_is_usable n (length (compacted c))); [|by wp_return HQ].
  apply wp_upload_packs; [done|done|by intros k Hk%not_elem_of_nil|].
  intros σ1 r Hg1 Hs1 Hr. apply HQ; [done|done|]. intros keys Hkeys.
  destruct (Hr keys Hkeys) as (Hall & _ & Hpacks). split; [done|]. intros r' o x Ho Hx.
  destruct (capture_compacted_paths _ _ _ _ Hc Hgit Hhex r' o x Ho Hx) as (pack & Hp & Hhas).
  destruct (Hpacks pack Hp) as (k & bytes & Hk & Hread & _ & Hst).
  exists k, bytes. split; [done|]. split; [done|]. by apply Hhas.
Qed.

(** ** The delta path *)

Lemma wp_write_idx t J σ st w key bytes Q :
  settled world σ → J st → (∀ σ' r, grows σ σ' → settled world σ' → Q σ' st r) →
  WP t J Q (write_idx_sidecar w key bytes) σ st.
Proof.
  intros Hs HJ HQ. unfold write_idx_sidecar.
  destruct (digest_from_pack_key key) as [pd|e]; [|by wp_return HQ].
  destruct (index_pack w bytes) as [idx|e]; [|by wp_return HQ].
  apply wp_seq; [|done]. apply wp_prog_map; [done|]. apply wp_put_idx; [done|].
  intros σ1 [k|e] Hg1 Hs1; by wp_return HQ.
Qed.

Lemma wp_publish_delta t J σ st w ps refs_after limits n failure Q :
  settled world σ → J st →
  (∀ σ' r, grows σ σ' → settled world σ' →
     match r with
     | Ok None =>
         capture_pack w (refs (parent_manifest ps)) refs_after (max_pack_bytes limits) = Ok None
     | Ok (Some k) => ∃ bytes,
         capture_pack w (refs (parent_manifest ps)) refs_after (max_pack_bytes limits) = Ok (Some bytes) ∧
         stored_pack σ' k bytes
     | Err _ => True
     end → Q σ' st r) →
  WP t J Q (publish_delta w ps refs_after limits n failure) σ st.
Proof.
  intros Hs HJ HQ. unfold publish_delta.
  destruct (capture_pack w _ refs_after _) as [[bytes|]|e] eqn:Hc; [|by wp_return HQ..].
  repeat match goal with |- wp _ _ _ _ _ _ (if ?b then _ else _) _ _ => destruct b; [|by wp_return HQ] end.
  apply wp_seq; [|done]. apply wp_prog_map; [done|]. apply wp_put_pack; [done|].
  intros σ1 [key|e] Hg1 Hs1 Hk; [|by wp_return HQ]. destruct (Hk key eq_refl) as [-> Hst]. simpl.
  apply wp_seq; [|done]. apply wp_write_idx; [done|done|]. intros σ2 r Hg2 Hs2. wp_return HQ.
  exists bytes. split; [done|]. split; [done|]. eapply stored_grows; [|exact Hst]. grow.
Qed.

(** What the delta pack adds is enough. *)
Lemma capture_covers w before after max captured :
  capture_pack w before after max = Ok captured → honest_git w →
  (∀ r o, before !! r = Some o → is_hex_oid o = true) →
  (∀ r o, after !! r = Some o → is_hex_oid o = true) →
  ∀ r o x, after !! r = Some o → reaches o x →
    (∃ bytes, captured = Some bytes ∧ pack_has bytes x) ∨
    ∃ r' o', before !! r' = Some o' ∧ reaches o' x.
Proof.
  unfold capture_pack. intros Hc [Hgit _] Hb Ha r o x Hr Hx.
  assert (o ∈ values after) as Ho by (apply elem_of_values; by exists r).
  destruct (decide (values after = [])) as [He|]; [rewrite He in Ho; by apply not_elem_of_nil in Ho|].
  destruct (pack_objects w _) as [out|] eqn:Hout; [|done]. simpl in Hc.
  destruct (byte_len out <=? max)%Z; [|done]. injection Hc as <-.
  destruct (Hgit _ _ _ (values_hex after Ha) (values_hex before Hb) Hout o x Ho Hx) as [Hp|(o' & Ho' & Hx')].
  - left. exists out. destruct (decide (out = "")) as [->|]; [by apply empty_pack in Hp|done].
  - right. apply elem_of_values in Ho' as [r' Hr']. by exists r', o'.
Qed.

Lemma elem_of_compose_packs m pd hd rs nk k :
  k ∈ packs (compose_after m pd hd rs nk) ↔ k ∈ packs m ∨ nk = Some k.
Proof.
  unfold compose_after. cbn [packs]. rewrite elem_of_sort_dedup. destruct nk as [k'|].
  - case_decide; [naive_solver|]. rewrite elem_of_app, list_elem_of_singleton. naive_solver.
  - naive_solver.
Qed.

Lemma delta_publishes σ key ps w hd refs_after max captured nk :
  parent_ok σ key ps → honest_git w →
  (∀ r o, refs_after !! r = Some o → is_hex_oid o = true) →
  capture_pack w (refs (parent_manifest ps)) refs_after max = Ok captured →
  match captured, nk with
  | Some bytes, Some k => stored_pack σ k bytes
  | None, None => True
  | _, _ => False
  end →
  let m := compose_after (parent_manifest ps) (parent_digest ps) hd refs_after nk in
  packs_durable (bucket σ) m ∧ covered (bucket σ) m.
Proof.
  intros Hps Hgit Hhex Hcap Hnk m. split.
  - intros k [Hk| ->]%elem_of_compose_packs; [by apply (parent_durable σ key ps)|].
    destruct captured as [bytes|]; [|done]. exists bytes. exact Hnk.
  - intros r o x Hr Hx. cbn [m compose_after refs] in Hr.
    destruct (capture_covers w _ _ _ _ Hcap Hgit (parent_oids σ key ps Hps) Hhex r o x Hr Hx)
      as [(bytes & -> & Hp)|(r' & o' & Hr' & Hx')].
    + destruct nk as [k|]; [|done]. exists k, bytes. destruct Hnk as [_ Hst].
      split; [|done]. apply elem_of_compose_packs. by right.
    + destruct (parent_covered σ key ps Hps r' o' x Hr' Hx') as (k & bytes & Hk & ?).
      exists k, bytes. split; [|done]. apply elem_of_compose_packs. by left.
Qed.

Lemma compacted_publishes σ refs_after keys pd hd :
  compacts σ refs_after keys →
  let m := compose_compacted_after pd hd refs_after keys in
  packs_durable (bucket σ) m ∧ covered (bucket σ) m.
Proof.
  intros [Hall Hcov] m. split.
  - intros k Hk. cbn [m compose_compacted_after packs] in Hk. rewrite elem_of_sort_dedup in Hk.
    destruct (Hall k Hk) as [bytes ?]. by exists bytes.
  - intros r o x Hr Hx. destruct (Hcov r o x Hr Hx) as (k & bytes & Hk & ?). exists k, bytes.
    split; [|done]. cbn [m compose_compacted_after packs]. by apply elem_of_sort_dedup.
Qed.

(** ** The commit *)

(** What a publication means to the pointer *)
Definition published_as (σ : Know) (st : Status) (p : Push) (ps : ParentState) (s : CasSuccess) : Prop :=
  ∃ d, st = Installed d ∧ manifest_key s = "manifests/" +:+ d ∧
    publishable (bucket σ) (parent_digest ps) d (manifest s) ∧
    effect_of p (parent_manifest ps) (manifest s).

Definition publish_post (σ : Know) (st : Status) (p : Push) (ps : ParentState)
    (r : result CasSuccess CasError) : Prop :=
  match r with
  | Ok s => published_as σ st p ps s
  | Err (CasBackend _) => True
  | Err _ => st = Unsent
  end.

Lemma reads_only_winner key : reads_only (read_winner_after_conflict key).
Proof.
  apply reads_only_bind; [by intros ?|]. intros [[[etag body]|]|]; [|done..].
  destruct (is_utf8 body); [|done]. cbn zeta. destruct (hex64 (str_trim body)); [|done].
  apply reads_only_bind; [|by intros [b|]; [destruct (map_err _ (manifest_from_bytes b))|]].
  apply reads_only_prog_map, reads_only_bind; [done|]. by intros [].
Qed.

Lemma wp_commit p key ps m σ Q :
  settled world σ → key = push_key p → parent_ok σ key ps → effect_of p (parent_manifest ps) m →
  packs_durable (bucket σ) m → covered (bucket σ) m → parent m = parent_digest ps →
  version m = MANIFEST_VERSION → canonical m = m →
  (∀ σ' st r, grows σ σ' → settled world σ' → publish_post σ' st p ps r → Q σ' st r) →
  WP (PushTask p) (λ _, True) Q (commit key ps m) σ Unsent.
Proof.
  intros Hs Hkey Hps Heff Hdur Hcov Hpar Hver Hcan HQ. unfold commit.
  destruct (validate m) as [[]|e] eqn:Hv; [|by wp_return HQ]. simpl.
  destruct (canonical_bytes m) as [bytes|e] eqn:Hb; [|by wp_return HQ]. simpl.
  destruct (canonical_bytes_round m bytes Hv Hver Hb) as [Hround _]. rewrite Hcan in Hround.
  apply wp_seq; [|done]. apply wp_prog_map; [done|]. apply wp_put_manifest; [done|].
  intros σ1 [mkey|e] Hg1 Hs1 Hk; [|by wp_return HQ]. destruct (Hk mkey eq_refl) as [-> Hst].
  simpl map_err. unfold digest_from_manifest_key. rewrite strip_prefix_app.
  set (d := sha256_hex bytes) in *.
  assert (∀ σ', grows σ1 σ' → publishable (bucket σ') (parent_digest ps) d m) as Hpub.
  { intros σ' Hg'. assert (∀ w, w ∈ bucket σ → w ∈ bucket σ') as HB
      by (intros w; apply grows_elem; grow).
    split; [|split; [by eapply packs_durable_sub|by split; [eapply covered_sub|]]].
    exists bytes. split; [by eapply stored_grows|]. done. }
  apply wp_seq; [|done]. apply wp_prog_map; [done|].
  apply wp_put_pointer; try done.
  { rewrite Hkey. apply pointer_key_is_pointer. }
  { intros σ2 Hg2 Hs2. assert (parent_ok σ2 key ps) as [Hv2 Hh2 _ _ _]
      by (eapply parent_ok_grows; [|exact Hps]; grow).
    eapply allow_pointer; [done|exact Hkey|exact Hv2|exact Hh2|exact Heff|by apply Hpub]. }
  intros σ2 st [[etag|]|e] Hg2 Hs2 Hst2; simpl map_err.
  - wp_return HQ. exists d. split; [done|]. split; [done|]. split; [apply Hpub; grow|done].
  - subst st. apply wp_seq; [|done]. apply wp_reads_only; [apply reads_only_winner|].
    intros σ3 [winner|e] Hg3 Hs3; wp_return HQ; [done|]. by destruct e.
  - by wp_return HQ.
Qed.

(** ** [cas_publish] *)

Lemma wp_try_compaction t σ w refs_after limits n threshold Q :
  settled world σ → honest_git w →
  (∀ r o, refs_after !! r = Some o → is_hex_oid o = true) →
  (∀ σ' r, grows σ σ' → settled world σ' →
     (∀ keys, r = Some (Ok keys) → compacts σ' refs_after keys ∧ threshold ≤ n) → Q σ' Unsent r) →
  WP t (λ _, True) Q (try_compaction w refs_after limits n threshold) σ Unsent.
Proof.
  intros Hs Hgit Hhex HQ. unfold try_compaction, should_compact.
  destruct (Nat.leb_spec threshold n) as [Hn|Hn]; [|by wp_return HQ].
  destruct (compaction_permit w); [|by wp_return HQ].
  apply wp_seq; [|done].
  apply (wp_conseq _ _ _ t (λ st, st = Unsent) (λ _, True)
    (λ σ' st' o, match o with
                 | Some r => st' = Unsent ∧ ∀ keys, r = Ok keys → compacts σ' refs_after keys
                 | None => st' = Unsent
                 end)); [|done|].
  - apply wp_deadline; [done|done|]. apply wp_prepare_compaction; [done|done|done|done|]. done.
  - intros σ1 st1 [r|] Hg1 Hs1 Hr.
    + destruct Hr as [-> Hr]. wp_return HQ. intros keys [= ->]. split; [|done].
      destruct (Hr keys eq_refl) as [Hall Hcov]. split.
      * intros k Hk. destruct (Hall k Hk) as [b Hb]. exists b. by eapply stored_pack_grows.
      * intros r o x Hr' Hx. destruct (Hcov r o x Hr' Hx) as (k & b & Hk & Hst & Hh).
        exists k, b. split; [done|]. split; [by eapply stored_grows|done].
    + subst st1. by wp_return HQ.
Qed.

Lemma wp_cas_publish p ps w limits σ Q :
  settled world σ → parent_ok σ (push_key p) ps →
  w = push_workspace (request p) (parent_manifest ps) →
  (∃ stdout, receive_pack_run (request p) (parent_manifest ps) = RunDone stdout true ∧
     receive_pack_report_rejected stdout = false) →
  (∀ σ' st r, grows σ σ' → settled world σ' → publish_post σ' st p ps r → Q σ' st r) →
  WP (PushTask p) (λ _, True) Q
    (cas_publish (push_community (request p)) (push_owner (request p)) (push_repo (request p))
       w ps limits) σ Unsent.
Proof.
  intros Hs Hps Hw Hacc HQ. unfold cas_publish, cas_publish_inner. fold (push_key p).
  assert (honest_git w) as Hgit by (rewrite Hw; apply git_honest).
  destruct (snapshot_workspace_state w) as [[refs_after observed]|e] eqn:Hsnap;
    [|wp_return HQ; by destruct e].
  pose proof (snapshot_hex w refs_after observed Hsnap) as Hhex. cbn [fst snd].
  set (hd := resolve_published_head _ _ _).
  assert (∀ m, refs m = refs_after → head m = hd →
    ((∀ k, k ∈ packs (parent_manifest ps) → k ∈ packs m) ∨
     PACK_COMPACTION_THRESHOLD ≤ length (packs (parent_manifest ps))) →
    effect_of p (parent_manifest ps) m) as Heff.
  { intros m Hr Hh Hk. split; [done|]. split; [|done]. exists observed. rewrite <- Hw, Hr. done. }
  apply wp_seq; [|done]. apply wp_try_compaction; [done|done|done|].
  intros σ1 comp Hg1 Hs1 Hcomp.
  assert (parent_ok σ1 (push_key p) ps) as Hps1 by by eapply parent_ok_grows.
  assert (WP (PushTask p) (λ _, True) Q
    (new_pack_key <-! publish_delta w ps refs_after limits (length (packs (parent_manifest ps)))
                        (comp ≫= result_err) ;;
     commit (push_key p) ps
       (compose_after (parent_manifest ps) (parent_digest ps) hd refs_after new_pack_key)) σ1 Unsent)
    as Hdelta.
  { apply wp_seq; [|done]. apply wp_publish_delta; [done|done|].
    intros σ2 [nk|e] Hg2 Hs2 Hnk; [|wp_return HQ; by destruct e].
    assert (parent_ok σ2 (push_key p) ps) as Hps2 by by eapply parent_ok_grows.
    destruct nk as [k|].
    - destruct Hnk as (bytes & Hcap & Hst).
      destruct (delta_publishes σ2 _ ps w hd refs_after _ _ (Some k) Hps2 Hgit Hhex Hcap Hst) as [Hd Hc].
      apply wp_commit; try done; [| |intros; apply HQ; [grow|done..]].
      + apply Heff; [done|done|]. left. intros k' Hk'. apply elem_of_compose_packs. by left.
      + unfold canonical, compose_after. simpl. by rewrite sort_dedup_idemp.
    - destruct (delta_publishes σ2 _ ps w hd refs_after _ _ None Hps2 Hgit Hhex Hnk I) as [Hd Hc].
      apply wp_commit; try done; [| |intros; apply HQ; [grow|done..]].
      + apply Heff; [done|done|]. left. intros k' Hk'. apply elem_of_compose_packs. by left.
      + unfold canonical, compose_after. simpl. by rewrite sort_dedup_idemp. }
  destruct comp as [[keys|e]|]; [|exact Hdelta..].
  destruct (Hcomp keys eq_refl) as [Hkeys Hn].
  destruct (compacted_publishes σ1 refs_after keys (parent_digest ps) hd Hkeys) as [Hd Hc].
  apply wp_commit; try done; [| |intros; apply HQ; [grow|done..]].
  - apply Heff; [done|done|by right].
  - unfold canonical, compose_compacted_after. simpl. by rewrite sort_dedup_idemp.
Qed.

(** ** The handlers *)

(** The push's manifest was installed, and what it is *)
Definition landed (σ : Know) (st : Status) (p : Push) (d : string) (pd : option string)
    (m : Manifest) : Prop :=
  st = Installed d ∧ publishable (bucket σ) pd d m ∧
  ∃ pm, hydrated_from (bucket σ) pd pm ∧ effect_of p pm m.

(** Git, or a hook, refused the update. *)
Definition git_refused (p : Push) : Prop :=
  ∃ pm stdout success, receive_pack_run (request p) pm = RunDone stdout success ∧
    (success = false ∨ receive_pack_report_rejected stdout = true).

Record push_post (p : Push) (σ : Know) (st : Status) (f : Finished) : Prop := {
  push_success : status (answer f) = 200%Z →
    (git_refused p ∧ st = Unsent ∧ announced f = None) ∨
    ∃ d pd m, landed σ st p d pd m ∧ (announced f = None → pd = Some d);
  push_refusal : status (answer f) ∉ [200; 500; 503]%Z → st = Unsent;
  push_announced : ∀ tags, announced f = Some tags →
    ∃ d pd m repo_id, landed σ st p d pd m ∧
      validate_repo_id (push_owner (request p)) (push_repo (request p)) = Ok repo_id ∧
      ref_state_tags repo_id (head m) (refs m) (pusher_key (request p)) = Ok tags
}.

Lemma quiet_post p σ r : status r ≠ 200%Z → push_post p σ Unsent (quiet r).
Proof. intros Hr. by split. Qed.

(** A quiet answer after the pointer may have been swapped *)
Lemma late_post p σ st r :
  status r = 500%Z ∨ status r = 503%Z → push_post p σ st (quiet r).
Proof.
  intros Hr. split; simpl; [lia| |done]. intros Hn. destruct Hn.
  destruct Hr as [->| ->]; set_solver.
Qed.

Lemma cas_error_post p σ st ps e :
  publish_post σ st p ps (Err e) → push_post p σ st (quiet (cas_error_to_response e)).
Proof. destruct e; simpl; try (intros ->; by apply quiet_post). intros _. apply late_post. by left. Qed.

Lemma wp_protect p l {A} (op : Prog A) σ Q :
  settled world σ →
  (∀ σ' st, grows σ σ' → settled world σ' → Q σ' st None) →
  WP (PushTask p) (λ _, True) (λ σ' st a, Q σ' st (Some a)) op σ Unsent →
  WP (PushTask p) (λ _, True) Q (protect l op) σ Unsent.
Proof.
  intros Hs HN Hop. unfold protect. destruct (lease_verify l 1); [|by wp_return HN].
  apply wp_seq; [|done].
  eapply (wp_conseq _ _ _ _ (λ _, True)); [apply wp_deadline; [done|done|]|done|].
  - exact (wp_closed _ _ _ _ _ _ _ _ _ Hop).
  - intros σ1 st1 [out|] Hg1 Hs1 Ha; [|by wp_return HN].
    destruct (lease_verify l 2); [|by wp_return HN]. exact Ha.
Qed.

Lemma finish_post p σ st ps repo_id s out :
  published_as σ st p ps s → parent_ok σ (push_key p) ps →
  validate_repo_id (push_owner (request p)) (push_repo (request p)) = Ok repo_id →
  let publication := publish_ref_state (request p) repo_id ps s in
  push_post p σ st
    {| announced := publication.1;
       answer := match lease_finish (lease (request p)), publication.2 with
                 | Err _, _ => respond 503 "community write lease lost during publication"
                 | Ok _, Err _ => respond 500 "push committed but ref-state publication failed; retry"
                 | Ok _, Ok _ => respond 200 out
                 end |}.
Proof.
  intros (d & Hst & Hkey & Hpub & Heff) Hps Hrepo pub.
  assert (landed σ st p d (parent_digest ps) (manifest s)) as Hl.
  { split; [done|]. split; [done|]. exists (parent_manifest ps).
    split; [by apply (parent_hydrated σ (push_key p))|done]. }
  assert (Hp1 : pub.2 = Ok tt → pub.1 = None → parent_digest ps = Some d).
  { unfold pub, publish_ref_state, manifest_changed. rewrite Hkey, strip_prefix_app.
    destruct (parent_digest ps) as [before|].
    - destruct (decide (before = d)) as [->|Hne]; [done|].
      rewrite bool_decide_eq_false_2 by done. simpl.
      destruct (ref_state_tags _ _ _ _); [|done]. by destruct (sign_ok _).
    - destruct (ref_state_tags _ _ _ _); [|done]. by destruct (sign_ok _). }
  split; simpl.
  - intros H200. right. exists d, (parent_digest ps), (manifest s). split; [done|].
    destruct (lease_finish _); [|done]. destruct pub.2 as [[]|]; [|done]. by apply Hp1.
  - intros Hn. destruct (lease_finish _); [destruct pub.2|]; simpl in Hn; set_solver.
  - intros tags Htags. exists d, (parent_digest ps), (manifest s), repo_id.
    split; [done|]. split; [done|]. unfold pub, publish_ref_state in Htags.
    destruct (manifest_changed ps s); [|done]. destruct (ref_state_tags _ _ _ _); [|done].
    destruct (sign_ok _); [|done]. simpl in Htags. congruence.
Qed.

Lemma wp_finalize p repo_id ps repo pack σ :
  settled world σ → parent_ok σ (push_key p) ps →
  validate_repo_id (push_owner (request p)) (push_repo (request p)) = Ok repo_id →
  run_git_at (receive_pack_run (request p) (parent_manifest ps)) = Ok pack →
  WP (PushTask p) (λ _, True) (push_post p)
    (finalize_push_inner (request p) repo_id (push_workspace (request p) (parent_manifest ps)) pack ps
       repo) σ Unsent.
Proof.
  intros Hs Hps Hrepo Hrun.
  assert (∃ stdout success, receive_pack_run (request p) (parent_manifest ps) = RunDone stdout success ∧
    pack_ok pack = success && negb (receive_pack_report_rejected stdout)) as (out & ok & Hdone & Hpack).
  { unfold run_git_at in Hrun. destruct (receive_pack_run _ _) as [out ok| |]; [|done..].
    destruct (_ <=? _)%Z; [|done]. injection Hrun as <-. by exists out, ok. }
  unfold finalize_push_inner. destruct (pack_ok pack) eqn:Hok; simpl.
  2: { intros σ1 Hg1 Hs1. split; simpl; [|done|done]. intros _. left. split; [|done].
       exists (parent_manifest ps), out, ok. split; [done|]. symmetry in Hpack.
       apply andb_false_iff in Hpack as [->|Hr]; [by left|]. right. by apply negb_false_iff. }
  destruct (acquire_serving_write _); [|intros σ1 _ _; by apply quiet_post].
  destruct (lease_verify _ 0); [|intros σ1 _ _; by apply quiet_post].
  apply wp_seq; [|done]. apply wp_protect; [done|..].
  { intros σ1 st1 Hg1 Hs1 σ2 Hg2 Hs2. apply late_post. by right. }
  apply wp_cas_publish; [done|done|done|..].
  { exists out. split.
    - rewrite Hdone. symmetry in Hpack. apply andb_true_iff in Hpack as [-> _]. done.
    - symmetry in Hpack. apply andb_true_iff in Hpack as [_ Hn]. by apply negb_true_iff. }
  intros σ1 st1 [s|e] Hg1 Hs1 Hpost σ2 Hg2 Hs2.
  - apply (finish_post p σ2 st1 ps repo_id s); [|eapply parent_ok_grows; [|exact Hps]; grow|done].
    destruct Hpost as (d & Hst & Hk & Hpub & Heff). exists d. split; [done|]. split; [done|].
    split; [|done]. eapply publishable_sub; [|exact Hpub]. intros w. apply grows_elem. grow.
  - apply (cas_error_post p σ2 st1 ps). by destruct e.
Qed.

Lemma hydrate_error_status e : status (hydrate_error_to_response e) ≠ 200%Z.
Proof. by destruct e. Qed.

Lemma repo_id_error owner repo r : validate_repo_id owner repo = Err r → status r = 400%Z.
Proof.
  unfold validate_repo_id. destruct (_ && _); [|by intros [= <-]].
  destruct (_ && _); [done|by intros [= <-]].
Qed.

Lemma authorize_error a caller owner repo r :
  authorize_git_read a caller owner repo = Err r → status r = 404%Z.
Proof.
  unfold authorize_git_read. destruct (is_some_and _ _); simpl; [|by intros [= <-]].
  destruct (announcement a) as [[e|]|]; [|by intros [= <-]..].
  destruct (resolve_repo_binding e) as [|id|]; [case_decide; by intros [= <-]| |by intros [= <-]].
  destruct (get_member_role a id); [case_match; [done|]|]; by intros [= <-].
Qed.

Lemma run_git_error run r : run_git_at run = Err r → status r ≠ 200%Z.
Proof.
  destruct run as [out ok| |]; simpl; [|by intros [= <-]..].
  destruct (_ <=? _)%Z; [done|by intros [= <-]].
Qed.

Lemma wp_receive_pack p σ :
  settled world σ →
  WP (PushTask p) (λ _, True) (push_post p) (receive_pack (request p)) σ Unsent.
Proof.
  intros Hs. unfold receive_pack.
  destruct (validate_repo_id _ _) as [repo_name|r] eqn:Hrepo.
  2: { intros σ1 _ _. apply quiet_post. by rewrite (repo_id_error _ _ _ Hrepo). }
  destruct (push_permit (request p)); simpl; [|intros σ1 _ _; by apply quiet_post].
  apply wp_seq; [|done]. apply wp_hydrate_for_write; [done|].
  intros σ1 [[repo ps]|e] Hg1 Hs1 Hps.
  2: { intros σ2 _ _. apply quiet_post, hydrate_error_status. }
  destruct (hook_installed (request p)); [|intros σ2 _ _; by apply quiet_post].
  destruct (run_git_at _) as [pack|r] eqn:Hrun.
  2: { intros σ2 _ _. by eapply quiet_post, run_git_error. }
  apply wp_finalize; [done|by eapply Hps|done|done].
Qed.

(** ** The reads *)

(** The answer of a read from the manifest that it loaded *)
Definition info_refs_answer (q : ReadRequest) (m : Manifest) (body : string) : Prop :=
  (fast_path_eligible m = true ∧ body = default "" (build_upload_pack_advertisement m)) ∨
  ∃ stdout, read_git q m = RunDone stdout true ∧ body = service_header (read_service q) stdout.

Definition upload_pack_answer (q : ReadRequest) (m : Manifest) (body : string) : Prop :=
  ∃ success, read_git q m = RunDone body success.

Definition admitted (q : ReadRequest) : Prop :=
  ∃ repo_name, validate_repo_id (read_owner q) (read_repo q) = Ok repo_name ∧
    authorize_git_read (read_gate q) (read_caller q) (read_owner q) repo_name = Ok tt.

Definition read_key (q : ReadRequest) : string :=
  pointer_key (read_community q) (read_owner q) (read_repo q).

(** The manifest [m] is a version of the repository. *)
Definition was_published (σ : Know) (key : string) (m : Manifest) : Prop :=
  ∃ w pd, w ∈ bucket σ ∧ w_key w = key ∧ publishable (bucket σ) pd (w_body w) m.

Record read_post (q : ReadRequest) (body_of : Manifest → string → Prop) (σ : Know) (st : Status)
    (r : Served) : Prop := {
  read_quiet : st = Unsent;
  read_status : status (response r) = 200%Z ↔ ∃ m, served r = Some m;
  read_served : ∀ m, served r = Some m →
    admitted q ∧ was_published σ (read_key q) m ∧ body_of m (text (response r))
}.

Lemma failed_post q body_of σ r : status r ≠ 200%Z → read_post q body_of σ Unsent (failed r).
Proof. intros Hr. split; [done| |done]. split; [done|]. by intros []. Qed.

Lemma served_post q body_of σ m body :
  admitted q → was_published σ (read_key q) m → body_of m body →
  read_post q body_of σ Unsent {| response := respond 200 body; served := Some m |}.
Proof.
  intros Ha Hw Hb. split; [done|split; [by exists m|done]|]. intros m' [= <-]. done.
Qed.

Lemma loaded_published σ key etag d m : loaded σ key etag d m → was_published σ key m.
Proof. intros [(w & Hw & Hk & _ & Hb) [pd Hp]]. exists w, pd. by rewrite Hb. Qed.

Lemma was_published_grows σ σ' key m :
  grows σ σ' → was_published σ key m → was_published σ' key m.
Proof.
  intros Hg (w & pd & Hw & Hk & Hp). exists w, pd. split; [by eapply grows_elem|].
  split; [done|]. eapply publishable_sub; [|exact Hp]. intros w'. by apply grows_elem.
Qed.

Lemma wp_load_manifest t J σ st c o r Q :
  settled world σ →
  (∀ σ' res, grows σ σ' → settled world σ' →
     (∀ m, res = Ok (Some m) → was_published σ' (pointer_key c o r) m) → Q σ' st res) →
  WP t J Q (load_manifest_for_read c o r) σ st.
Proof.
  intros Hs HQ. apply wp_seq; [|done]. apply wp_load_pointer; [done|].
  intros σ1 [[[[etag d] m]|]|e] Hg1 Hs1 Hl; wp_return HQ; try done.
  intros m' [= <-]. eapply was_published_grows; [done|]. by eapply loaded_published, Hl.
Qed.

Lemma wp_hydrate_for_read t J σ st c o r d opts Q :
  settled world σ →
  (∀ σ' res, grows σ σ' → settled world σ' →
     (∀ m repo, res = Ok (Some (m, repo)) → was_published σ' (pointer_key c o r) m) → Q σ' st res) →
  WP t J Q (hydrate_for_read c o r d opts) σ st.
Proof.
  intros Hs HQ. apply wp_seq; [|done]. apply wp_load_pointer; [done|].
  intros σ1 [[[[etag dg] m]|]|e] Hg1 Hs1 Hl; [|by wp_return HQ..].
  apply wp_seq; [|done]. apply wp_reads_only; [apply reads_only_materialize|].
  intros σ2 [repo|e] Hg2 Hs2; wp_return HQ; [|done]. intros m' repo' [= <- <-].
  eapply (was_published_grows σ1); [grow|]. by eapply loaded_published, Hl.
Qed.

Lemma wp_info_refs_subprocess t q σ :
  settled world σ → admitted q →
  WP t (λ _, True) (read_post q (info_refs_answer q)) (info_refs_subprocess q) σ Unsent.
Proof.
  intros Hs Ha. unfold info_refs_subprocess.
  destruct (read_permit q); simpl; [|intros σ1 _ _; by apply failed_post].
  apply wp_seq; [|done]. apply wp_hydrate_for_read; [done|].
  intros σ1 [[[m repo]|]|e] Hg1 Hs1 Hm.
  - destruct (read_git q m) as [out ok| |] eqn:Hgit;
      [|intros σ2 _ _; by apply failed_post..].
    destruct ok; simpl; [|intros σ2 _ _; by apply failed_post].
    destruct (_ <? _)%Z; [intros σ2 _ _; by apply failed_post|]. intros σ2 Hg2 Hs2.
    apply served_post; [done| |by right; exists out].
    eapply was_published_grows; [done|]. by eapply Hm.
  - intros σ2 _ _. by apply failed_post.
  - intros σ2 _ _. apply failed_post, hydrate_error_status.
Qed.

Lemma wp_info_refs t q σ :
  settled world σ → WP t (λ _, True) (read_post q (info_refs_answer q)) (info_refs q) σ Unsent.
Proof.
  intros Hs. unfold info_refs. destruct (negb _); [intros σ1 _ _; by apply failed_post|].
  destruct (validate_repo_id _ _) as [repo_name|r] eqn:Hrepo.
  2: { intros σ1 _ _. apply failed_post. by rewrite (repo_id_error _ _ _ Hrepo). }
  destruct (authorize_git_read _ _ _ _) as [[]|r] eqn:Hauth.
  2: { intros σ1 _ _. apply failed_post. by rewrite (authorize_error _ _ _ _ _ Hauth). }
  assert (admitted q) as Ha by by exists repo_name.
  destruct (decide _) as [_|_]; [|by apply wp_info_refs_subprocess].
  apply wp_seq; [|done]. apply wp_load_manifest; [done|]. intros σ1 [[m|]|e] Hg1 Hs1 Hm.
  - destruct (fast_path_eligible m) eqn:Hfast; [|by apply wp_info_refs_subprocess].
    intros σ2 Hg2 Hs2. apply served_post; [done| |by left].
    eapply was_published_grows; [done|]. by apply Hm.
  - intros σ2 _ _. by apply failed_post.
  - intros σ2 _ _. apply failed_post, hydrate_error_status.
Qed.

Lemma wp_upload_pack_handler t q σ :
  settled world σ →
  WP t (λ _, True) (read_post q (upload_pack_answer q)) (upload_pack_handler q) σ Unsent.
Proof.
  intros Hs. unfold upload_pack_handler.
  destruct (validate_repo_id _ _) as [repo_name|r] eqn:Hrepo.
  2: { intros σ1 _ _. apply failed_post. by rewrite (repo_id_error _ _ _ Hrepo). }
  destruct (authorize_git_read _ _ _ _) as [[]|r] eqn:Hauth.
  2: { intros σ1 _ _. apply failed_post. by rewrite (authorize_error _ _ _ _ _ Hauth). }
  assert (admitted q) as Ha by by exists repo_name.
  destruct (read_permit q); simpl; [|intros σ1 _ _; by apply failed_post].
  apply wp_seq; [|done]. apply wp_hydrate_for_read; [done|].
  intros σ1 [[[m repo]|]|e] Hg1 Hs1 Hm.
  - destruct (read_git q m) as [out ok| |] eqn:Hgit;
      [|intros σ2 _ _; by apply failed_post..].
    intros σ2 Hg2 Hs2. apply served_post; [done| |by exists ok].
    eapply was_published_grows; [done|]. by eapply Hm.
  - intros σ2 _ _. by apply failed_post.
  - intros σ2 _ _. apply failed_post, hydrate_error_status.
Qed.

(** ** Every handler *)

Definition handler_post (t : Task) (σ : Know) (st : Status) (o : Outcome) : Prop :=
  match t, o with
  | PushTask p, Pushed f => push_post p σ st f
  | InfoRefs q, Read r => read_post q (info_refs_answer q) σ st r
  | UploadPack q, Read r => read_post q (upload_pack_answer q) σ st r
  | _, _ => False
  end.

Lemma handler_wp t σ :
  settled world σ → WP t (λ _, True) (handler_post t) (handler t) σ Unsent.
Proof.
  intros Hs. destruct t; (apply wp_prog_map; [done|]).
  - by apply wp_receive_pack.
  - by apply wp_info_refs.
  - by apply wp_upload_pack_handler.
Qed.

End push.
