(* ===== verification/GitHostSpec.v ===== *)
(** * What git hosting guarantees

    The claims about every interleaving of pushes and reads on one bucket, from the
    invariant of [ObjectStore] and the discipline of [GitHost] that [GitPush] proves of the
    handlers. [no_collision] is the assumption on SHA-256: no two of the bodies that were
    ever sent have one digest. *)

From S2P Require Import Prelude Text StdText Channel Filter GitManifest GitWire GitStore GitPublish GitServe ObjectStore GitHost GitPush.

Open Scope string_scope.
Open Scope nat_scope.
Open Scope list_scope.

(** ** Versions of a key *)

(** The versions of a key, the latest first *)
Definition versions (B : list Write) (key : string) : list Write :=
  List.filter (λ w, bool_decide (w_key w = key)) B.

Lemma versions_current (B : list Write) (key : string) :
  current B key = List.hd_error (versions B key).
Proof.
  unfold current, versions. induction B as [|w B IH]; [done|]. simpl.
  by destruct (bool_decide (w_key w = key)).
Qed.

Lemma versions_split (B : list Write) (key : string) (newer older : list Write) (w : Write) :
  versions B key = newer ++ w :: older →
  ∃ B1 B0, B = B1 ++ w :: B0 ∧ w_key w = key ∧ older = versions B0 key.
Proof.
  revert newer. induction B as [|v B IH]; intros newer Hv; [by destruct newer|].
  simpl in Hv. destruct (bool_decide (w_key v = key)) eqn:Hk.
  - destruct newer as [|v' newer]; injection Hv as -> Hv.
    + exists [], B. by apply bool_decide_eq_true in Hk.
    + destruct (IH newer Hv) as (B1 & B0 & -> & ? & ?). by exists (v' :: B1), B0.
  - destruct (IH newer Hv) as (B1 & B0 & -> & ? & ?). by exists (v :: B1), B0.
Qed.

Lemma elem_of_versions (B : list Write) (key : string) (w : Write) :
  w ∈ versions B key ↔ w ∈ B ∧ w_key w = key.
Proof.
  unfold versions. rewrite list_elem_of_In, filter_In, <- list_elem_of_In.
  by rewrite bool_decide_eq_true.
Qed.

(** A list in which each element determines the one after it, and the last has none, has no
    repetition. *)
Lemma determined_nodup {A} (next : A → option A → Prop) (l : list A) :
  (∀ a o o', next a o → next a o' → o = o') →
  (∀ l1 a l2, l = l1 ++ a :: l2 → next a (List.hd_error l2)) → NoDup l.
Proof.
  intros Hfun. induction l as [|a l IH]; intros Hl; [constructor|].
  assert (NoDup l) as Hnd.
  { apply IH. intros l1 b l2 ->. by apply (Hl (a :: l1)). }
  constructor; [|done]. intros (x & y & ->)%list_elem_of_split.
  pose proof (Hl [] a _ eq_refl) as Ha. pose proof (Hl (a :: x) a y eq_refl) as Ha'.
  specialize (Hfun a _ _ Ha Ha'). destruct x as [|b x], y as [|c y]; simpl in Hfun; try done.
  - injection Hfun as <-. apply NoDup_cons in Hnd as [Hn _]. set_solver.
  - injection Hfun as <-. apply NoDup_cons in Hnd as [Hn _]. set_solver.
Qed.

Section spec.
Context `{Sha256Laws, Http, ManifestLaws, IdText, UuidText, GitObjects}.

Lemma host_inv (s : System Task Outcome) :
  reachable handler s → no_collision (sent (know s)) →
  system_inv is_pointer world allowed handler_post s.
Proof.
  intros Hr Hc. eapply (reachable_inv is_pointer world allowed handler handler_post);
    [..|exact Hr|exact Hc].
  - intros t σ σ' key body c Hg _. by apply allowed_grows.
  - apply world_empty_ok.
  - apply world_sent_ok.
  - apply world_write_ok.
  - apply handler_wp.
Qed.

Lemma host_settled (s : System Task Outcome) :
  reachable handler s → no_collision (sent (know s)) → settled world (know s).
Proof. intros Hr Hc. split; [|done]. apply (inv_world _ _ _ _ _ (host_inv s Hr Hc)). Qed.

Lemma chained_split (B1 B0 : list Write) (w : Write) :
  chained (B1 ++ w :: B0) → is_pointer (w_key w) = true →
  ∃ m, publishable B0 (w_body <$> current B0 (w_key w)) (w_body w) m.
Proof. induction B1 as [|v B1 IH]; intros [Hw Hc] Hp; [by apply Hw|by apply IH]. Qed.

Lemma elem_of_older (B1 B0 : list Write) (w v : Write) : v ∈ B0 → v ∈ B1 ++ w :: B0.
Proof. set_solver. Qed.

(** The manifest of a version, whose parent is the version before *)
Lemma version_manifest (σ : Know) (key : string) (newer older : list Write) (w : Write) :
  settled world σ → is_pointer key = true → versions (bucket σ) key = newer ++ w :: older →
  ∃ m, publishable (bucket σ) (w_body <$> List.hd_error older) (w_body w) m.
Proof.
  intros [Hw _] Hp Hv. destruct (versions_split _ _ _ _ _ Hv) as (B1 & B0 & HB & Hk & ->).
  pose proof (world_chained σ Hw) as Hch. rewrite HB in Hch.
  destruct (chained_split B1 B0 w Hch) as [m Hm]; [by rewrite Hk|]. exists m.
  rewrite Hk, versions_current in Hm. eapply publishable_sub; [|exact Hm].
  intros v Hin. rewrite HB. by apply elem_of_older.
Qed.

Lemma versions_distinct (σ : Know) (key : string) :
  settled world σ → is_pointer key = true → NoDup (w_body <$> versions (bucket σ) key).
Proof.
  intros Hs Hp.
  apply (determined_nodup (λ d o, ∃ m, manifest_at (bucket σ) d m ∧ parent m = o)).
  - intros d o o' (m & Hm & <-) (m' & Hm' & <-). f_equal. by eapply manifest_at_fun.
  - intros l1 d l2 Hl. apply fmap_app_inv in Hl as (newer & l & -> & Hl & Hv).
    destruct l as [|w older]; [done|]. injection Hl as -> ->.
    destruct (version_manifest σ key newer older w Hs Hp Hv) as [m (Hm & _ & _ & Hpar)].
    exists m. split; [done|]. rewrite Hpar. by destruct older.
Qed.

(** A pointer write is the work of a push, on the version that it replaced. *)
Lemma pointer_write (s : System Task Outcome) (key : string) (newer older : list Write) (w : Write) :
  reachable handler s → no_collision (sent (know s)) → is_pointer key = true →
  versions (bucket (know s)) key = newer ++ w :: older →
  ∃ p proc pm m, procs s !! w_by w = Some (PushTask p, proc) ∧ push_key p = key ∧
    hydrated_from (bucket (know s)) (w_body <$> List.hd_error older) pm ∧ effect_of p pm m ∧
    publishable (bucket (know s)) (w_body <$> List.hd_error older) (w_body w) m.
Proof.
  intros Hr Hc Hp Hv. pose proof (host_inv s Hr Hc) as Hinv.
  assert (settled world (know s)) as Hs by by apply host_settled.
  destruct (version_manifest (know s) key newer older w Hs Hp Hv) as [m' Hm'].
  assert (w ∈ bucket (know s) ∧ w_key w = key) as [Hin Hkey].
  { apply elem_of_versions. rewrite Hv. set_solver. }
  destruct (inv_writes _ _ _ _ _ Hinv w Hin) as (c & t & proc & Hproc & Ha & _).
  rewrite Hkey in Ha. destruct Ha as [-> _| -> _|dg ->|p pd pm m -> Hk Hrv Hh He Hpub]; [done..|].
  assert (m = m') as <- by (eapply manifest_at_fun; [exact Hs|apply Hpub|apply Hm']).
  assert (pd = w_body <$> List.hd_error older) as ->.
  { destruct Hpub as (_ & _ & _ & <-), Hm' as (_ & _ & _ & Hpar). exact Hpar. }
  by exists p, proc, pm, m.
Qed.

(** C1 Pushes to a repository are serialized, and none is lost: under any interleaving of any
    number of pushes and reads, with lost answers and late writes, each version of a
    repository's pointer was written by one push of this repository; git accepted that push
    on a workspace hydrated from exactly the version it replaced (or from nothing, for the
    first one); its manifest has the refs of that workspace and keeps the packs of the
    version it replaced, unless it compacts them; it names that version as its parent; and no
    version has the digest of another one, so the pointer never returns to an old state. *)
Theorem pushes_serialize (s : System Task Outcome) (key : string) (newer older : list Write)
    (w : Write) :
  reachable handler s → no_collision (sent (know s)) → is_pointer key = true →
  versions (bucket (know s)) key = newer ++ w :: older →
  (w_body w ∉ (w_body <$> newer ++ older)) ∧
  ∃ p proc pm m, procs s !! w_by w = Some (PushTask p, proc) ∧ push_key p = key ∧
    hydrated_from (bucket (know s)) (w_body <$> List.hd_error older) pm ∧ effect_of p pm m ∧
    manifest_at (bucket (know s)) (w_body w) m ∧ parent m = w_body <$> List.hd_error older.
Proof.
  intros Hr Hc Hp Hv. split.
  - pose proof (versions_distinct (know s) key (host_settled s Hr Hc) Hp) as Hnd.
    rewrite Hv, fmap_app, fmap_cons, NoDup_app in Hnd.
    destruct Hnd as (_ & Hx & [Hy _]%NoDup_cons).
    rewrite fmap_app, elem_of_app. intros [Hin|Hin]; [|done]. apply (Hx _ Hin). set_solver.
  - destruct (pointer_write s key newer older w Hr Hc Hp Hv)
      as (p & proc & pm & m & Hproc & Hk & Hh & He & Hm & _ & _ & Hpar).
    by exists p, proc, pm, m.
Qed.

(** C2 A pointer never names an incomplete repository: when a version of a pointer was
    written, its manifest was stored under its digest and valid, every pack that it names
    was stored under the digest of its content, and every object that one of its refs
    reaches was in one of those packs. *)
Theorem versions_complete (s : System Task Outcome) (later before : list Write) (w : Write) :
  reachable handler s → no_collision (sent (know s)) →
  bucket (know s) = later ++ w :: before → is_pointer (w_key w) = true →
  ∃ m, manifest_at before (w_body w) m ∧
    (∀ k, k ∈ packs m → ∃ bytes, k = "packs/" +:+ sha256_hex bytes ∧ stored before k bytes) ∧
    ∀ r o x, refs m !! r = Some o → reaches o x →
      ∃ k bytes, k ∈ packs m ∧ stored before k bytes ∧ pack_has bytes x.
Proof.
  intros Hr Hc Hb Hp. destruct (host_settled s Hr Hc) as [Hw _].
  pose proof (world_chained _ Hw) as Hch. rewrite Hb in Hch.
  destruct (chained_split later before w Hch Hp) as (m & Hm & Hd & Hcov & _). by exists m.
Qed.

(** ** What a client may conclude *)

Lemma finished (s : System Task Outcome) (pid : nat) (t : Task) (o : Outcome) :
  reachable handler s → no_collision (sent (know s)) → procs s !! pid = Some (t, Ret o) →
  ∃ st, status_ok is_pointer s pid st ∧ handler_post t (know s) st o.
Proof.
  intros Hr Hc Hpid. pose proof (host_inv s Hr Hc) as Hinv.
  destruct (inv_procs _ _ _ _ _ Hinv pid t _ Hpid) as (st & Hst & Hwp). exists st.
  split; [done|]. exact (Hwp (know s) (reflexivity _) (host_settled s Hr Hc)).
Qed.

(** The write of a push that landed *)
Lemma landed_write (s : System Task Outcome) (pid : nat) (p : Push) (proc : Prog Outcome)
    (st : Status) (d : string) (pd : option string) (m : Manifest) :
  reachable handler s → no_collision (sent (know s)) →
  procs s !! pid = Some (PushTask p, proc) → status_ok is_pointer s pid st →
  landed (know s) st p d pd m →
  ∃ w newer older, versions (bucket (know s)) (push_key p) = newer ++ w :: older ∧ w_by w = pid ∧
    w_body w = d ∧ pd = w_body <$> List.hd_error older.
Proof.
  intros Hr Hc Hpid Hst (-> & Hpub & _). destruct Hst as (w & Hin & Hby & Hp & Hbody).
  pose proof (host_inv s Hr Hc) as Hinv.
  destruct (inv_writes _ _ _ _ _ Hinv w Hin) as (c & t & proc' & Hproc & Ha & _).
  assert (w_key w = push_key p) as Hk.
  { rewrite Hby, Hpid in Hproc. injection Hproc as <- <-.
    destruct Ha as [Hk _|Hk _|dg Hk|p' pd' pm m' Ht Hk _ _ _ _]; [by rewrite Hk in Hp..|].
    by injection Ht as ->. }
  assert (w ∈ versions (bucket (know s)) (push_key p)) as (newer & older & Hv)%list_elem_of_split
    by by apply elem_of_versions.
  exists w, newer, older. split; [done|]. split; [done|]. split; [done|].
  destruct (version_manifest (know s) (push_key p) newer older w (host_settled s Hr Hc)
    ltac:(by rewrite <- Hk) Hv) as [m' (Hm' & _ & _ & <-)].
  destruct Hpub as (Hm & _ & _ & <-). rewrite Hbody in Hm'. f_equal.
  by eapply manifest_at_fun; [apply host_settled| |].
Qed.

(** C3 A push that is answered with 200 is durable: either git or a hook refused it, and then
    it wrote no pointer and announced nothing, or its own manifest, computed from the
    version that it replaced, is a version of the repository, and the ref-state event with
    the refs of that manifest was handed to the database. The second case holds of every
    accepted push, also of one that changes no ref. *)
Theorem pushed_is_installed (s : System Task Outcome) (pid : nat) (p : Push) (f : Finished) :
  reachable handler s → no_collision (sent (know s)) →
  procs s !! pid = Some (PushTask p, Ret (Pushed f)) → status (answer f) = 200%Z →
  (git_refused p ∧ announced f = None ∧
     ∀ w, w ∈ bucket (know s) → w_by w = pid → is_pointer (w_key w) = false) ∨
  ∃ w newer older pm m tags repo_id,
    versions (bucket (know s)) (push_key p) = newer ++ w :: older ∧ w_by w = pid ∧
    manifest_at (bucket (know s)) (w_body w) m ∧
    hydrated_from (bucket (know s)) (w_body <$> List.hd_error older) pm ∧ effect_of p pm m ∧
    announced f = Some tags ∧
    ref_state_tags repo_id (head m) (refs m) (pusher_key (request p)) = Ok tags.
Proof.
  intros Hr Hc Hpid H200. destruct (finished s pid _ _ Hr Hc Hpid) as (st & Hst & Hpost).
  destruct Hpost as [Hok _ Hann]. destruct (Hok H200) as [(Href & -> & Hn)|Hl].
  { left. split; [done|]. split; [done|]. apply Hst. }
  right. destruct Hl as (d & pd & m & Hl & Hnone).
  destruct (landed_write s pid p _ st d pd m Hr Hc Hpid Hst Hl)
    as (w & newer & older & Hv & Hby & Hd & ->).
  destruct Hl as (-> & Hpub & pm & Hh & He).
  destruct (announced f) as [tags|] eqn:Htags.
  - destruct (Hann tags eq_refl) as (d' & pd' & m' & repo_id & (Heq & Hpub' & _) & _ & Ht).
    injection Heq as <-.
    assert (m' = m) as ->.
    { eapply manifest_at_fun; [by apply host_settled|apply Hpub'|apply Hpub]. }
    exists w, newer, older, pm, m, tags, repo_id. rewrite Hd.
    by split_and!; [..|apply Hpub| | | |].
  - exfalso. specialize (Hnone eq_refl).
    assert (is_pointer (push_key p) = true) as Hp by apply pointer_key_is_pointer.
    pose proof (versions_distinct (know s) (push_key p) (host_settled s Hr Hc) Hp) as Hnd.
    rewrite Hv, fmap_app, fmap_cons, NoDup_app in Hnd.
    destruct Hnd as (_ & _ & [Hn _]%NoDup_cons). apply Hn. destruct older as [|v older]; [done|].
    simpl in Hnone |- *. injection Hnone as ->. rewrite Hd. apply list_elem_of_here.
Qed.

(** C6 A push that is answered with any status but 200, 500 and 503 changed nothing and will
    change nothing: no version of any pointer is its work, and no pointer write of it is
    still on its way. In particular a push that lost the race (409). *)
Theorem refused_push_wrote_nothing (s : System Task Outcome) (pid : nat) (p : Push) (f : Finished) :
  reachable handler s → no_collision (sent (know s)) →
  procs s !! pid = Some (PushTask p, Ret (Pushed f)) → status (answer f) ∉ [200; 500; 503]%Z →
  announced f = None ∧
  (∀ w, w ∈ bucket (know s) → w_by w = pid → is_pointer (w_key w) = false) ∧
  (∀ r, r ∈ in_flight s → r_by r = pid → is_pointer (r_key r) = false).
Proof.
  intros Hr Hc Hpid Hn. destruct (finished s pid _ _ Hr Hc Hpid) as (st & Hst & Hpost).
  destruct Hpost as [_ Hquiet Hann]. rewrite (Hquiet Hn) in *.
  split; [|exact Hst]. destruct (announced f) as [tags|]; [|done].
  destruct (Hann tags eq_refl) as (d & pd & m & repo_id & (Heq & _) & _). done.
Qed.

(** C5 A read sees one published state: a read that is answered with 200 passed the gate, and
    its answer is computed from the manifest of one version of the repository's pointer, all
    of whose packs are stored and hold everything that its refs reach; any other answer
    serves no manifest. Reads write nothing. *)
Theorem reads_are_snapshots (s : System Task Outcome) (pid : nat) (t : Task) (q : ReadRequest)
    (r : Served) :
  reachable handler s → no_collision (sent (know s)) →
  procs s !! pid = Some (t, Ret (Read r)) → t = InfoRefs q ∨ t = UploadPack q →
  (status (response r) = 200%Z ↔ ∃ m, served r = Some m) ∧
  (∀ m, served r = Some m →
     admitted q ∧
     (∃ w, w ∈ versions (bucket (know s)) (read_key q) ∧
        manifest_at (bucket (know s)) (w_body w) m ∧
        packs_durable (bucket (know s)) m ∧ covered (bucket (know s)) m) ∧
     (t = InfoRefs q → info_refs_answer q m (text (response r))) ∧
     (t = UploadPack q → upload_pack_answer q m (text (response r)))) ∧
  ∀ w, w ∈ bucket (know s) → w_by w = pid → is_pointer (w_key w) = false.
Proof.
  intros Hr Hc Hpid Ht. destruct (finished s pid _ _ Hr Hc Hpid) as (st & Hst & Hpost).
  assert (∀ m, was_published (know s) (read_key q) m →
    ∃ w, w ∈ versions (bucket (know s)) (read_key q) ∧
        manifest_at (bucket (know s)) (w_body w) m ∧
        packs_durable (bucket (know s)) m ∧ covered (bucket (know s)) m) as Hpub.
  { intros m (w & pd & Hin & Hk & Hm & Hd & Hcov & _). exists w.
    split; [by apply elem_of_versions|done]. }
  destruct Ht as [->| ->], Hpost as [-> Hok Hserved];
    (split; [exact Hok|]; split; [|apply Hst]); intros m Hm;
    destruct (Hserved m Hm) as (Ha & Hp & Hb); by repeat split; [..|apply Hpub| |].
Qed.

End spec.

(** ** A run

    Two pushes create a repository at the same time, and one of them loses the race; a third
    one updates it, git refuses a fourth one, and a read looks at the result. *)

Module Sample.

#[export] Existing Instances GitManifest.Sample.json GitManifest.Sample.json_laws Plain.texts.

Definition checksum (s : string) : N :=
  foldl (λ acc a, N.land (acc * 257 + Ascii.N_of_ascii a + 1) (N.ones 64)) 7%N (string_to_list s).

Definition hex_char (n : N) : Ascii.ascii :=
  Ascii.ascii_of_N (if n <? 10 then 48 + n else 87 + n)%N.

Fixpoint hex_text (n : nat) (x : N) : string :=
  match n with 0 => "" | S n => String (hex_char (x mod 16)) (hex_text n (x / 16)) end.

#[export] Instance sha : Sha256 := {| sha256_hex s := hex_text 64 (checksum s) |}.

Lemma hex_char_lower (n : N) : (n < 16)%N → is_lower_hex (hex_char n) = true.
Proof. intros Hn. destruct n as [|p]; [done|]. do 4 (destruct p as [p|p|]; try done; try lia). Qed.

#[export] Instance sha_laws : Sha256Laws.
Proof.
  split. intros b. change (sha256_hex b) with (hex_text 64 (checksum b)). unfold is_manifest_digest.
  generalize (checksum b) as x.
  assert (∀ n x, String.length (hex_text n x) = n ∧ chars_all is_lower_hex (hex_text n x) = true)
    as Hhex.
  { induction n as [|n IH]; intros x; [done|]. destruct (IH (x / 16)%N) as [Hl Hc]. split.
    - simpl. by rewrite Hl.
    - unfold chars_all in *. simpl. rewrite Hc, hex_char_lower; [done|]. apply N.mod_lt. lia. }
  intros x. destruct (Hhex 64 x) as [-> ->]. done.
Qed.

#[export] Instance http : Http := {| header_value_ok _ := true |}.
#[export] Instance uuids : UuidText := {| uuid_parse_str _ := Some 7%N |}.

(** An object is reached from its own id, and every pack but the empty one has it. *)
#[export] Instance objects : GitObjects := {|
  object := string; reaches o x := x = o; pack_has b _ := b ≠ ""; empty_pack x Hx := Hx eq_refl
|}.

Definition owner : string := String.concat "" (repeat "a" 64).
Definition oid (c : string) : string := String.concat "" (repeat c 40).

Definition disk : Disk := {|
  init_bare_repo := Ok tt; cached _ := None; stage_pack _ := Ok tt; write_pack _ := Ok tt;
  write_idx _ := Ok tt; verify_pack _ := true; index_size _ := Ok 3%Z; install_entry _ := Ok tt;
  write_refs := Ok tt |}.

Definition workspace (c : string) : Workspace := {|
  for_each_ref := Ok ("refs/heads/main " +:+ oid c +:+ newline);
  symbolic_ref := Ok (Some ("refs/heads/main" +:+ newline));
  pack_objects _ := Ok ("PACK" +:+ c); index_pack b := Ok ("idx" +:+ b);
  compaction_permit := Ok tt; compaction_deadline := None; count_objects := Err "unused";
  compact_objects _ := Err "unused"; file_len _ := Err "unused"; file_read _ := Err "unused" |}.

Definition push_request (c : string) : PushRequest := {|
  push_community := 1; push_owner := owner; push_repo := "notes.git"; pusher := owner;
  pusher_key := Some owner; push_max_pack_bytes := 1000; push_max_repo_bytes := 5000;
  push_permit := true; push_disk := disk; hook_installed := Ok tt;
  receive_pack_run _ := if decide (c = "9") then RunDone "" false else RunDone "" true;
  push_workspace _ := workspace c;
  lease := {| acquire_serving_write := Ok tt; lease_verify _ := Ok tt; lease_lost_at := None;
              lease_finish := Ok tt |};
  sign_ok := true; insert_event := Ok true |}.

Lemma workspace_honest (c : string) (m : Manifest) :
  honest_git (push_workspace (push_request c) m).
Proof.
  split.
  - intros pos neg out _ _ [= <-] o x _ _. by left.
  - intros pos entries _ Hent. done.
Qed.

Definition push (c : string) : Push := {| request := push_request c; git_honest := workspace_honest c |}.

Definition announcement : Event := {|
  ev_id_hex := ""; ev_pubkey := owner; ev_created_at := 0; ev_kind := 30617%N;
  ev_tags := [{| tag_kind := "buzz-channel"; tag_content := Some "7" |}] |}.

Definition read : ReadRequest := {|
  read_service := "git-upload-pack"; read_community := 1; read_caller := "b"; read_owner := owner;
  read_repo := "notes"; read_options := {| opt_max_pack_bytes := 1000; opt_max_repo_bytes := 5000 |};
  read_gate := {| GitServe.announcement := Ok (Some announcement);
                  get_member_role _ := Ok (Some "member") |};
  read_permit := true; read_disk := disk; read_git _ := RunDone "pack" true |}.

Definition key : string := pointer_key 1 owner "notes".

(** Let a program run for a number of calls, each version with a new tag. *)
Fixpoint serve (pid n : nat) (tag : string) : list (Action Task) :=
  match n with 0 => [] | S n => Serve pid tag :: serve pid n tag end.

Definition actions : list (Action Task) :=
  [Start 0 (PushTask (push "1")); Start 1 (PushTask (push "2")); Serve 0 "t0"; Serve 1 "t1"]
  ++ serve 0 4 "t0" ++ serve 1 6 "t1"
  ++ [Start 2 (PushTask (push "3"))] ++ serve 2 11 "t2"
  ++ [Start 3 (InfoRefs read)] ++ serve 3 3 ""
  ++ [Start 4 (PushTask (push "9"))] ++ serve 4 11 "".

Definition final : System Task Outcome := default initial (acts handler initial actions).

Definition distinct (l : list (string * string)) : bool :=
  forallb (λ x, forallb (λ y, negb (bool_decide (x.1 = y.1)) || bool_decide (x.2 = y.2)) l) l.

Lemma distinct_ok (l : list string) :
  distinct ((λ x, (sha256_hex x, x)) <$> l) = true → no_collision l.
Proof.
  unfold distinct. intros Hb x y Hx Hy Hxy. rewrite forallb_forall in Hb.
  specialize (Hb (sha256_hex x, x)). rewrite forallb_forall in Hb.
  assert (∀ z, z ∈ l → In (sha256_hex z, z) ((λ x, (sha256_hex x, x)) <$> l)) as Hin.
  { intros z Hz. apply list_elem_of_In, list_elem_of_fmap. by exists z. }
  specialize (Hb (Hin x Hx) (sha256_hex y, y) (Hin y Hy)). cbn [fst snd] in Hb.
  rewrite (bool_decide_eq_true_2 _ Hxy) in Hb. by apply bool_decide_eq_true in Hb.
Qed.

Lemma final_ok : reachable handler final ∧ no_collision (sent (know final)).
Proof.
  split; [|apply distinct_ok; vm_compute; reflexivity].
  destruct (acts handler initial actions) as [s|] eqn:Ha.
  - unfold final. rewrite Ha. eapply acts_reachable; [apply reach_init|exact Ha].
  - exfalso. apply (f_equal (λ o, bool_decide (is_Some (A := System Task Outcome) o))) in Ha.
    revert Ha. vm_compute. done.
Qed.

Definition pushed (s : System Task Outcome) (pid : nat) : option (Push * Finished) :=
  match procs s !! pid with Some (PushTask p, Ret (Pushed f)) => Some (p, f) | _ => None end.

Definition has_read (s : System Task Outcome) (pid : nat) : option (ReadRequest * Served) :=
  match procs s !! pid with Some (InfoRefs q, Ret (Read r)) => Some (q, r) | _ => None end.

Lemma pushed_status (s : System Task Outcome) (pid : nat) (P : Finished → bool) :
  match pushed s pid with Some (_, f) => P f | None => false end = true →
  ∃ p f, procs s !! pid = Some (PushTask p, Ret (Pushed f)) ∧ P f = true.
Proof.
  unfold pushed. destruct (procs s !! pid) as [[[p|q|q] [[f|r]| | |]]|]; try done.
  intros HP. by exists p, f.
Qed.

Lemma has_read_status (s : System Task Outcome) (pid : nat) (P : ReadRequest → Served → bool) :
  match has_read s pid with Some (q, r) => P q r | None => false end = true →
  ∃ q r, procs s !! pid = Some (InfoRefs q, Ret (Read r)) ∧ P q r = true.
Proof.
  unfold has_read. destruct (procs s !! pid) as [[[p|q|q] [[f|r]| | |]]|]; try done.
  intros HP. by exists q, r.
Qed.

End Sample.

Section witnesses.
Import Sample.

Lemma pushes_serialize_witness :
  ∃ newer w older, versions (bucket (know final)) key = newer ++ w :: older ∧ newer = [] ∧
    length older = 1 ∧ (w_body w ∉ (w_body <$> newer ++ older)).
Proof.
  destruct (versions (bucket (know final)) key) as [|w [|v [|]]] eqn:Hv;
    [exfalso; apply (f_equal length) in Hv; revert Hv; vm_compute; done..| |
     exfalso; apply (f_equal length) in Hv; revert Hv; vm_compute; done].
  exists [], w, [v]. split_and!; [reflexivity..|].
  apply (pushes_serialize final key [] [v] w); [apply final_ok|apply final_ok| |exact Hv].
  vm_compute. reflexivity.
Defined.

Lemma versions_complete_witness :
  ∃ w before m, bucket (know final) = [] ++ w :: before ∧ manifest_at before (w_body w) m.
Proof.
  destruct (bucket (know final)) as [|w before] eqn:HB;
    [exfalso; apply (f_equal length) in HB; revert HB; vm_compute; done|].
  assert (is_pointer (w_key w) = true) as Hp.
  { apply (f_equal (λ l, is_pointer (from_option w_key "" (List.hd_error l)))) in HB. revert HB.
    vm_compute. intros Hk. exact (eq_sym Hk). }
  destruct (versions_complete final [] before w (proj1 final_ok) (proj2 final_ok) HB Hp)
    as (m & Hm & _).
  exists w, before, m. exact (conj eq_refl Hm).
Defined.

Lemma pushed_is_installed_witness :
  ∃ p f w, procs final !! 2 = Some (PushTask p, Ret (Pushed f)) ∧
    w ∈ versions (bucket (know final)) (push_key p) ∧ w_by w = 2.
Proof.
  destruct (pushed_status final 2 (λ f, bool_decide (status (answer f) = 200%Z ∧ is_Some (announced f))))
    as (p & f & Hp & Hf); [vm_compute; reflexivity|]. apply bool_decide_eq_true in Hf as [Hf Hs].
  destruct (pushed_is_installed final 2 p f (proj1 final_ok) (proj2 final_ok) Hp Hf)
    as [(_ & Hn & _)|(w & newer & older & _ & _ & _ & _ & Hv & Hby & _)].
  - exfalso. clear - Hn Hs. rewrite Hn in Hs. by destruct Hs.
  - exists p, f, w. refine (conj Hp (conj _ Hby)). clear - Hv. rewrite Hv.
    apply elem_of_app. right. apply list_elem_of_here.
Defined.

Lemma refused_push_wrote_nothing_witness :
  ∃ p f, procs final !! 1 = Some (PushTask p, Ret (Pushed f)) ∧ status (answer f) = 409%Z ∧
    announced f = None.
Proof.
  destruct (pushed_status final 1 (λ f, bool_decide (status (answer f) = 409%Z)))
    as (p & f & Hp & Hf); [vm_compute; reflexivity|]. apply bool_decide_eq_true in Hf.
  assert (Hn : status (answer f) ∉ [200; 500; 503]%Z) by (clear - Hf; rewrite Hf; set_solver).
  exists p, f. refine (conj Hp (conj Hf _)).
  exact (proj1 (refused_push_wrote_nothing final 1 p f (proj1 final_ok) (proj2 final_ok) Hp Hn)).
Defined.

Lemma reads_are_snapshots_witness :
  ∃ q r w m, procs final !! 3 = Some (InfoRefs q, Ret (Read r)) ∧ served r = Some m ∧
    w ∈ versions (bucket (know final)) (read_key q) ∧
    manifest_at (bucket (know final)) (w_body w) m.
Proof.
  destruct (has_read_status final 3 (λ q r, bool_decide (is_Some (served r))))
    as (q & r & Hp & Hm); [vm_compute; reflexivity|]. apply bool_decide_eq_true in Hm as [m Hm].
  destruct (reads_are_snapshots final 3 (InfoRefs q) q r (proj1 final_ok) (proj2 final_ok) Hp
    (or_introl eq_refl)) as (_ & Hs & _).
  destruct (Hs m Hm) as (_ & (w & Hw & Hat & _) & _).
  exists q, r, w, m. exact (conj Hp (conj Hm (conj Hw Hat))).
Defined.

End witnesses.
