(* ===== verification/Network.v ===== *)
(** * Address classification (buzz-core/src/network.rs)

    The SSRF guard: which addresses a webhook may not reach. An address is the octets or the
    segments that the standard library's [Ipv4Addr] and [Ipv6Addr] are made of; the methods
    of those types that the code calls are written out from their documentation. The guard
    is proved equivalent to a table of address blocks. *)

From S2P Require Import Prelude.

Open Scope Z_scope.
Open Scope list_scope.

Record Ipv4Addr := { o0 : Z; o1 : Z; o2 : Z; o3 : Z }.

(** The eight 16-bit segments *)
Record Ipv6Addr := { s0 : Z; s1 : Z; s2 : Z; s3 : Z; s4 : Z; s5 : Z; s6 : Z; s7 : Z }.

Inductive IpAddr := V4 (v4 : Ipv4Addr) | V6 (v6 : Ipv6Addr).

Definition octets (v4 : Ipv4Addr) : list Z := [o0 v4; o1 v4; o2 v4; o3 v4].
Definition segments (v6 : Ipv6Addr) : list Z :=
  [s0 v6; s1 v6; s2 v6; s3 v6; s4 v6; s5 v6; s6 v6; s7 v6].

(** ** The standard library's tests *)

Definition is_loopback_v4 (a : Ipv4Addr) : bool := o0 a =? 127.
Definition is_private_v4 (a : Ipv4Addr) : bool :=
  (o0 a =? 10) || ((o0 a =? 172) && (16 <=? o1 a) && (o1 a <=? 31))
  || ((o0 a =? 192) && (o1 a =? 168)).
Definition is_link_local_v4 (a : Ipv4Addr) : bool := (o0 a =? 169) && (o1 a =? 254).
Definition is_broadcast (a : Ipv4Addr) : bool := forallb (Z.eqb 255) (octets a).

(** [Ipv6Addr::octets]: each segment in network order *)
Definition octets_v6 (a : Ipv6Addr) : list Z :=
  flat_map (λ s, [Z.shiftr s 8; Z.land s 255]) (segments a).

(** [Ipv6Addr::to_ipv4]: the IPv4-compatible and the IPv4-mapped addresses *)
Definition to_ipv4 (a : Ipv6Addr) : option Ipv4Addr :=
  match octets_v6 a with
  | [b0; b1; b2; b3; b4; b5; b6; b7; b8; b9; b10; b11; a; b; c; d] =>
      if forallb (Z.eqb 0) [b0; b1; b2; b3; b4; b5; b6; b7; b8; b9]
         && (((b10 =? 0) && (b11 =? 0)) || ((b10 =? 255) && (b11 =? 255)))
      then Some {| o0 := a; o1 := b; o2 := c; o3 := d |} else None
  | _ => None
  end.

Definition is_loopback_v6 (a : Ipv6Addr) : bool :=
  forallb (λ p, p.1 =? p.2) (combine (segments a) [0; 0; 0; 0; 0; 0; 0; 1]).
Definition is_unspecified_v6 (a : Ipv6Addr) : bool := forallb (Z.eqb 0) (segments a).

(** ** network.rs *)

Definition NAT64_WELL_KNOWN_PREFIX : list Z := [0x00; 0x64; 0xff; 0x9b; 0; 0; 0; 0; 0; 0; 0; 0].
Definition IPV4_TRANSLATED_PREFIX : list Z := [0; 0; 0; 0; 0; 0; 0; 0; 0xff; 0xff; 0; 0].

Fixpoint octets_start_with (p l : list Z) : bool :=
  match p, l with
  | [], _ => true
  | x :: p, y :: l => (x =? y) && octets_start_with p l
  | _ :: _, [] => false
  end.

Definition embedded_ipv4 (v6 : Ipv6Addr) (prefix : list Z) : option Ipv4Addr :=
  let octets := octets_v6 v6 in
  if octets_start_with prefix octets
  then Some {| o0 := nth 12 octets 0; o1 := nth 13 octets 0; o2 := nth 14 octets 0;
               o3 := nth 15 octets 0 |}
  else None.

Definition is_private_v4_ip (v4 : Ipv4Addr) : bool :=
  is_loopback_v4 v4 || is_private_v4 v4 || is_link_local_v4 v4 || (o0 v4 =? 0)
  || is_broadcast v4
  || ((o0 v4 =? 100) && (Z.land (o1 v4) 0xC0 =? 64))
  || ((o0 v4 =? 198) && (Z.land (o1 v4) 0xFE =? 18)).

Definition is_private_ip (ip : IpAddr) : bool :=
  match ip with
  | V4 v4 => is_private_v4_ip v4
  | V6 v6 =>
      match to_ipv4 v6 with
      | Some v4 => is_private_v4_ip v4
      | None =>
      match embedded_ipv4 v6 NAT64_WELL_KNOWN_PREFIX with
      | Some v4 => is_private_v4_ip v4
      | None =>
      match embedded_ipv4 v6 IPV4_TRANSLATED_PREFIX with
      | Some v4 => is_private_v4_ip v4
      | None =>
          is_loopback_v6 v6 || is_unspecified_v6 v6
          || (Z.land (s0 v6) 0xfe00 =? 0xfc00)
          || (Z.land (s0 v6) 0xffc0 =? 0xfe80)
          || (Z.land (s0 v6) 0xff00 =? 0xff00)
          || ((s0 v6 =? 0x0064) && (s1 v6 =? 0xff9b) && (s2 v6 =? 1))
          || ((s0 v6 =? 0x2001) && (s1 v6 =? 0))
          || (s0 v6 =? 0x2002)
          || ((s0 v6 =? 0x2001) && (s1 v6 =? 0x0db8))
      end
      end
      end
  end.

(** ** Specification: address blocks

    A block is a base address and a prefix length; addresses are numbers of 32 or 128 bits. *)

Definition value_v4 (a : Ipv4Addr) : Z := ((o0 a * 256 + o1 a) * 256 + o2 a) * 256 + o3 a.
Definition value_v6 (a : Ipv6Addr) : Z := foldl (λ acc s, acc * 65536 + s) 0 (segments a).

Definition v4 (a b c d : Z) : Ipv4Addr := {| o0 := a; o1 := b; o2 := c; o3 := d |}.
Definition v6 (a b c d e f g h : Z) : Ipv6Addr :=
  {| s0 := a; s1 := b; s2 := c; s3 := d; s4 := e; s5 := f; s6 := g; s7 := h |}.

(** The addresses that agree with [base] on the first [len] of [width] bits *)
Definition in_block (width : Z) (block : Z * Z) (x : Z) : Prop :=
  x / 2 ^ (width - block.2) = block.1 / 2 ^ (width - block.2).

Definition blocked_v4 : list (Z * Z) :=
  [(value_v4 (v4 127 0 0 0), 8); (value_v4 (v4 10 0 0 0), 8); (value_v4 (v4 172 16 0 0), 12);
   (value_v4 (v4 192 168 0 0), 16); (value_v4 (v4 169 254 0 0), 16); (value_v4 (v4 0 0 0 0), 8);
   (value_v4 (v4 255 255 255 255), 32); (value_v4 (v4 100 64 0 0), 10);
   (value_v4 (v4 198 18 0 0), 15)].

Definition blocked_v6 : list (Z * Z) :=
  [(value_v6 (v6 0xfc00 0 0 0 0 0 0 0), 7); (value_v6 (v6 0xfe80 0 0 0 0 0 0 0), 10);
   (value_v6 (v6 0xff00 0 0 0 0 0 0 0), 8); (value_v6 (v6 0x64 0xff9b 1 0 0 0 0 0), 48);
   (value_v6 (v6 0x2001 0 0 0 0 0 0 0), 32); (value_v6 (v6 0x2002 0 0 0 0 0 0 0), 16);
   (value_v6 (v6 0x2001 0xdb8 0 0 0 0 0 0), 32)].

(** The blocks whose addresses stand for the IPv4 address in their last 32 bits *)
Definition carriers : list (Z * Z) :=
  [(value_v6 (v6 0 0 0 0 0 0 0 0), 96); (value_v6 (v6 0 0 0 0 0 0xffff 0 0), 96);
   (value_v6 (v6 0x64 0xff9b 0 0 0 0 0 0), 96); (value_v6 (v6 0 0 0 0 0xffff 0 0 0), 96)].

Definition in_blocks (width : Z) (l : list (Z * Z)) (x : Z) : Prop := Exists (λ b, in_block width b x) l.

Definition blocked (ip : IpAddr) : Prop :=
  match ip with
  | V4 a => in_blocks 32 blocked_v4 (value_v4 a)
  | V6 a =>
      in_blocks 128 blocked_v6 (value_v6 a) ∨
      (in_blocks 128 carriers (value_v6 a) ∧ in_blocks 32 blocked_v4 (value_v6 a `mod` 2 ^ 32))
  end.

Definition octet (x : Z) : Prop := 0 ≤ x < 256.
Definition segment (x : Z) : Prop := 0 ≤ x < 65536.

Definition ip_ok (ip : IpAddr) : Prop :=
  match ip with V4 a => Forall octet (octets a) | V6 a => Forall segment (segments a) end.

Ltac div_lia := Z.to_euclidean_division_equations; lia.

(** ** Masks and blocks as intervals *)

Lemma all_below (n : nat) (f : Z → bool) (x : Z) :
  forallb f (Z.of_nat <$> seq 0 n) = true → 0 ≤ x < Z.of_nat n → f x = true.
Proof.
  rewrite forallb_forall. intros Hf Hx. apply Hf. rewrite <- list_elem_of_In.
  apply list_elem_of_fmap. exists (Z.to_nat x). split; [lia|]. apply elem_of_seq. lia.
Qed.

Lemma mask_octet (x : Z) : octet x →
  (Z.land x 0xC0 =? 64) = (64 <=? x) && (x <=? 127) ∧
  (Z.land x 0xFE =? 18) = (18 <=? x) && (x <=? 19).
Proof.
  intros Hx. split; apply eqb_true_iff;
    [apply (all_below 256 (λ x, Bool.eqb (Z.land x 0xC0 =? 64) ((64 <=? x) && (x <=? 127))))
    |apply (all_below 256 (λ x, Bool.eqb (Z.land x 0xFE =? 18) ((18 <=? x) && (x <=? 19))))];
    first [vm_compute; reflexivity | unfold octet in Hx; lia].
Qed.

(** The high bits of a segment *)
Lemma mask_high (x m k : Z) :
  0 ≤ k ≤ 16 → segment x → m = 2 ^ 16 - 2 ^ k → Z.land x m = x / 2 ^ k * 2 ^ k.
Proof.
  intros Hk Hx ->. rewrite <- Z.shiftr_div_pow2, <- Z.shiftl_mul_pow2 by lia.
  apply Z.bits_inj'. intros n Hn. rewrite Z.land_spec, Z.shiftl_spec by lia.
  assert (2 ^ 16 - 2 ^ k = Z.shiftl (Z.ones (16 - k)) k) as ->.
  { rewrite Z.shiftl_mul_pow2, Z.ones_equiv by lia.
    rewrite <- Z.sub_1_r, Z.mul_sub_distr_r, <- Z.pow_add_r by lia.
    replace (16 - k + k) with 16 by lia. lia. }
  rewrite Z.shiftl_spec by lia.
  destruct (decide (n < k)) as [Hlt|Hge].
  - rewrite !(Z.testbit_neg_r _ (n - k)) by lia. apply andb_false_r.
  - rewrite Z.shiftr_spec by lia. replace (n - k + k) with n by lia.
    destruct (decide (n < 16)) as [Hl|Hl].
    + rewrite Z.ones_spec_low by lia. apply andb_true_r.
    + rewrite Z.ones_spec_high by lia. rewrite andb_false_r. symmetry.
      apply Z.bits_above_log2; [unfold segment in Hx; lia|].
      destruct (decide (x = 0)) as [->|H0]; [simpl; lia|].
      apply Z.log2_lt_pow2; [unfold segment in Hx; lia|].
      unfold segment in Hx. apply (Z.lt_le_trans _ (2 ^ 16)); [lia|].
      apply Z.pow_le_mono_r; lia.
Qed.

Lemma in_block_iff (w : Z) (b : Z * Z) (x lo : Z) :
  0 ≤ w - b.2 → lo = b.1 / 2 ^ (w - b.2) * 2 ^ (w - b.2) →
  in_block w b x ↔ lo ≤ x < lo + 2 ^ (w - b.2).
Proof.
  intros Hw ->. unfold in_block. assert (0 < 2 ^ (w - b.2)) as Hp by (apply Z.pow_pos_nonneg; lia).
  set (p := 2 ^ (w - b.2)) in *. set (q := b.1 / p). split.
  - intros <-. pose proof (Z.mul_div_le x p Hp). pose proof (Z.mul_succ_div_gt x p Hp). lia.
  - intros Hx. symmetry. apply (Z.div_unique x p q (x - q * p)); lia.
Qed.

(** The first address of a block and the one after its last *)
Definition bounds (w : Z) (b : Z * Z) : Z * Z :=
  let p := 2 ^ (w - b.2) in let lo := b.1 / p * p in (lo, lo + p).

Lemma in_blocks_iff (w : Z) (l : list (Z * Z)) (x : Z) :
  forallb (λ b, b.2 <=? w) l = true →
  in_blocks w l x ↔ Exists (λ r, r.1 ≤ x < r.2) (bounds w <$> l).
Proof.
  unfold in_blocks. induction l as [|b l IH]; simpl; [by rewrite !Exists_nil|].
  intros [Hb Hl]%andb_true_iff. rewrite !Exists_cons, IH by done.
  by rewrite (in_block_iff w b x _) by first [lia|reflexivity].
Qed.

Ltac intervals :=
  rewrite in_blocks_iff by reflexivity;
  match goal with |- context [bounds ?w <$> ?l] =>
    let r := eval vm_compute in (bounds w <$> l) in
    replace (bounds w <$> l) with r by (vm_compute; reflexivity) end;
  rewrite ?Exists_cons, Exists_nil; cbn [fst snd].

Lemma disj_assoc (A B C : Prop) : (A ∨ B) ∨ C ↔ A ∨ B ∨ C.
Proof. tauto. Qed.

Lemma disj_iff (A A' B B' : Prop) : (A ↔ A') → (B ↔ B') → A ∨ B ↔ A' ∨ B'.
Proof. tauto. Qed.

Lemma in_blocked_v4 (x : Z) :
  in_blocks 32 blocked_v4 x ↔
    2130706432 ≤ x < 2147483648 ∨ 167772160 ≤ x < 184549376 ∨ 2886729728 ≤ x < 2887778304 ∨
    3232235520 ≤ x < 3232301056 ∨ 2851995648 ≤ x < 2852061184 ∨ 0 ≤ x < 16777216 ∨
    4294967295 ≤ x < 4294967296 ∨ 1681915904 ≤ x < 1686110208 ∨ 3323068416 ≤ x < 3323199488.
Proof. intervals. tauto. Qed.

Lemma private_v4_exact (a : Ipv4Addr) :
  Forall octet (octets a) → is_private_v4_ip a = true ↔ in_blocks 32 blocked_v4 (value_v4 a).
Proof.
  rewrite in_blocked_v4. destruct a as [a b c d]. unfold octets, value_v4. cbn [o0 o1 o2 o3].
  rewrite !Forall_cons. intros (Ha & Hb & Hc & Hd & _).
  destruct (mask_octet b Hb) as [Hm1 Hm2].
  unfold is_private_v4_ip, is_loopback_v4, is_private_v4, is_link_local_v4, is_broadcast, octets.
  cbn [o0 o1 o2 o3 forallb]. rewrite Hm1, Hm2. unfold octet in *.
  rewrite !orb_true_iff, !andb_true_iff, !Z.eqb_eq, !Z.leb_le, !disj_assoc.
  repeat (apply disj_iff; [lia|]). lia.
Qed.

(** The IPv4 address in the last 32 bits *)
Definition low (a : Ipv6Addr) : Ipv4Addr :=
  {| o0 := s6 a / 256; o1 := s6 a `mod` 256; o2 := s7 a / 256; o3 := s7 a `mod` 256 |}.

Lemma octets_v6_eq (a : Ipv6Addr) :
  octets_v6 a = flat_map (λ s, [s / 256; s `mod` 256]) (segments a).
Proof.
  unfold octets_v6. apply flat_map_ext. intros s.
  change 255 with (Z.ones 8). by rewrite Z.shiftr_div_pow2, Z.land_ones by lia.
Qed.

Ltac seg_lia := first [done | unfold octet, segment in *; div_lia].

Lemma segment_octets (s h l : Z) :
  segment s → octet h → octet l →
  (h =? s / 256) && (l =? s `mod` 256) = (s =? h * 256 + l).
Proof.
  unfold segment, octet. intros Hs Hh Hl. apply eq_true_iff_eq.
  rewrite andb_true_iff, !Z.eqb_eq. div_lia.
Qed.

Lemma segment_eqb (h s : Z) :
  segment h → segment s → (s =? h) = (h / 256 =? s / 256) && (h `mod` 256 =? s `mod` 256).
Proof. intros Hh Hs. rewrite segment_octets by seg_lia. f_equal. div_lia. Qed.

Lemma segment_zero : segment 0.
Proof. seg_lia. Qed.

Lemma low_ok (a : Ipv6Addr) :
  Forall segment (segments a) →
  Forall octet (octets (low a)) ∧ value_v4 (low a) = value_v6 a `mod` 2 ^ 32.
Proof.
  unfold segments, octets, value_v6, value_v4, low, octet, segment, segments.
  cbn [o0 o1 o2 o3 foldl]. rewrite !Forall_cons. intros (H0 & H1 & H2 & H3 & H4 & H5 & H6 & H7 & _).
  split; [split_and!; try constructor; div_lia|].
  apply (Z.mod_unique _ _ (((((s0 a * 65536 + s1 a) * 65536 + s2 a) * 65536 + s3 a) * 65536 + s4 a)
    * 65536 + s5 a)); div_lia.
Qed.

(** The three tests for an embedded address, on segments *)
Definition head_is (a : Ipv6Addr) (l : list Z) : bool :=
  forallb (λ p, p.1 =? p.2) (combine (segments a) l).

Lemma to_ipv4_eq (a : Ipv6Addr) :
  Forall segment (segments a) →
  to_ipv4 a = if head_is a [0; 0; 0; 0; 0; 0] || head_is a [0; 0; 0; 0; 0; 0xffff]
              then Some (low a) else None.
Proof.
  unfold to_ipv4, head_is, segments. rewrite octets_v6_eq. unfold segments. cbn [flat_map app].
  rewrite !Forall_cons. intros (H0 & H1 & H2 & H3 & H4 & H5 & _).
  cbn [forallb combine fst snd]. pose proof segment_zero as Hs0.
  rewrite (segment_eqb _ _ Hs0 H0), (segment_eqb _ _ Hs0 H1), (segment_eqb _ _ Hs0 H2),
    (segment_eqb _ _ Hs0 H3), (segment_eqb _ _ Hs0 H4), (segment_eqb _ _ Hs0 H5).
  rewrite (segment_eqb 0xffff _) by seg_lia.
  change (0 / 256) with 0. change (0 `mod` 256) with 0. change (0xffff / 256) with 255.
  change (0xffff `mod` 256) with 255.
  rewrite !(Z.eqb_sym (s5 a / 256)), !(Z.eqb_sym (s5 a `mod` 256)).
  rewrite !andb_true_r, <- !andb_assoc, <- !andb_orb_distrib_r. reflexivity.
Qed.

Lemma embedded_ipv4_eq (a : Ipv6Addr) (h0 h1 h4 : Z) :
  segment h0 → segment h1 → segment h4 → Forall segment (segments a) →
  embedded_ipv4 a [h0 / 256; h0 `mod` 256; h1 / 256; h1 `mod` 256; 0; 0; 0; 0; h4 / 256; h4 `mod` 256; 0; 0]
  = if head_is a [h0; h1; 0; 0; h4; 0] then Some (low a) else None.
Proof.
  intros Hh0 Hh1 Hh4. unfold embedded_ipv4, head_is, segments. rewrite octets_v6_eq. unfold segments.
  cbn [flat_map app nth octets_start_with]. rewrite !Forall_cons. intros (H0 & H1 & H2 & H3 & H4 & H5 & _).
  cbn [forallb combine fst snd].
  pose proof segment_zero as Hs0.
  rewrite (segment_eqb _ _ Hh0 H0), (segment_eqb _ _ Hh1 H1), (segment_eqb _ _ Hs0 H2),
    (segment_eqb _ _ Hs0 H3), (segment_eqb _ _ Hh4 H4), (segment_eqb _ _ Hs0 H5).
  change (0 / 256) with 0. change (0 `mod` 256) with 0. rewrite !andb_assoc. done.
Qed.

(** Numbers in base 65536 *)
Lemma radix (x y r t : Z) : segment r → segment t → x * 65536 + r = y * 65536 + t ↔ x = y ∧ r = t.
Proof. unfold segment. lia. Qed.

Lemma radix_block (x y r b : Z) : 0 ≤ r < b → y * b ≤ x * b + r < y * b + b ↔ x = y.
Proof. intros Hr. split; [nia|]. intros ->. lia. Qed.

Lemma head_is_six (a : Ipv6Addr) (h0 h1 h2 h3 h4 h5 : Z) :
  Forall segment (segments a) → Forall segment [h0; h1; h2; h3; h4; h5] →
  head_is a [h0; h1; h2; h3; h4; h5] = true ↔
  (let lo := foldl (λ acc s, acc * 65536 + s) 0 [h0; h1; h2; h3; h4; h5] * 2 ^ 32 in
   lo ≤ value_v6 a < lo + 2 ^ 32).
Proof.
  destruct a as [a b c d e f g h]. unfold head_is, segments, value_v6, segments.
  cbn [s0 s1 s2 s3 s4 s5 s6 s7 forallb combine fst snd foldl]. rewrite !Forall_cons.
  intros (H0 & H1 & H2 & H3 & H4 & H5 & H6 & H7 & _) (Hh0 & Hh1 & Hh2 & Hh3 & Hh4 & Hh5 & _).
  cbv zeta. set (p := ((((0 * 65536 + a) * 65536 + b) * 65536 + c) * 65536 + d) * 65536 + e) in *.
  replace (((p * 65536 + f) * 65536 + g) * 65536 + h) with ((p * 65536 + f) * 2 ^ 32 + (g * 65536 + h))
    by lia.
  rewrite radix_block by (unfold segment in *; lia). unfold p. rewrite !radix by done.
  rewrite !andb_true_iff, !Z.eqb_eq. intuition congruence.
Qed.

Lemma in_carriers (a : Ipv6Addr) :
  Forall segment (segments a) →
  in_blocks 128 carriers (value_v6 a) ↔
    head_is a [0; 0; 0; 0; 0; 0] || head_is a [0; 0; 0; 0; 0; 0xffff]
    || head_is a [0x64; 0xff9b; 0; 0; 0; 0] || head_is a [0; 0; 0; 0; 0xffff; 0] = true.
Proof.
  intros Ha. rewrite !orb_true_iff, !disj_assoc, !head_is_six by first [done|repeat constructor; seg_lia].
  intervals. cbv zeta. cbn [foldl]. repeat (apply disj_iff; [lia|]). lia.
Qed.

Lemma in_blocked_v6 (a : Ipv6Addr) :
  Forall segment (segments a) →
  in_blocks 128 blocked_v6 (value_v6 a) ↔
    (Z.land (s0 a) 0xfe00 =? 0xfc00) || (Z.land (s0 a) 0xffc0 =? 0xfe80)
    || (Z.land (s0 a) 0xff00 =? 0xff00)
    || ((s0 a =? 0x0064) && (s1 a =? 0xff9b) && (s2 a =? 1))
    || ((s0 a =? 0x2001) && (s1 a =? 0)) || (s0 a =? 0x2002)
    || ((s0 a =? 0x2001) && (s1 a =? 0x0db8)) = true.
Proof.
  destruct a as [a b c d e f g h]. unfold value_v6, segments. cbn [s0 s1 s2 s3 s4 s5 s6 s7].
  cbn [foldl]. rewrite !Forall_cons. intros (H0 & H1 & H2 & H3 & H4 & H5 & H6 & H7 & _).
  rewrite (mask_high a 0xfe00 9), (mask_high a 0xffc0 6), (mask_high a 0xff00 8) by (done || lia).
  rewrite !orb_true_iff, !andb_true_iff, !Z.eqb_eq, !disj_assoc.
  set (r := (((d * 65536 + e) * 65536 + f) * 65536 + g) * 65536 + h).
  assert (0 ≤ r < 2 ^ 80) as Hr by (unfold r, segment in *; lia).
  replace (_ * 65536 + h) with (((a * 65536 + b) * 65536 + c) * 2 ^ 80 + r) by (unfold r; lia).
  clearbody r. unfold segment in *. intervals.
  repeat (apply disj_iff; [div_lia|]). div_lia.
Qed.

(** The rest of the test on IPv6 addresses *)
Definition other_v6 (a : Ipv6Addr) : bool :=
  (Z.land (s0 a) 0xfe00 =? 0xfc00) || (Z.land (s0 a) 0xffc0 =? 0xfe80)
  || (Z.land (s0 a) 0xff00 =? 0xff00)
  || ((s0 a =? 0x0064) && (s1 a =? 0xff9b) && (s2 a =? 1))
  || ((s0 a =? 0x2001) && (s1 a =? 0)) || (s0 a =? 0x2002)
  || ((s0 a =? 0x2001) && (s1 a =? 0x0db8)).

Lemma carrier_not_other (a : Ipv6Addr) (h0 h1 h4 h5 : Z) :
  head_is a [h0; h1; 0; 0; h4; h5] = true → h0 = 0 ∨ h0 = 0x64 → other_v6 a = false.
Proof.
  unfold head_is, other_v6, segments. cbn [forallb combine fst snd].
  rewrite !andb_true_iff, !Z.eqb_eq. intros (-> & -> & -> & _) [-> | ->]; [done|].
  cbn -[Z.eqb andb]. by rewrite !andb_false_r.
Qed.

Lemma is_private_v6 (a : Ipv6Addr) :
  Forall segment (segments a) →
  is_private_ip (V6 a) =
    if head_is a [0; 0; 0; 0; 0; 0] || head_is a [0; 0; 0; 0; 0; 0xffff]
       || head_is a [0x64; 0xff9b; 0; 0; 0; 0] || head_is a [0; 0; 0; 0; 0xffff; 0]
    then is_private_v4_ip (low a) else other_v6 a.
Proof.
  intros Ha. unfold is_private_ip. rewrite to_ipv4_eq by done.
  pose proof (embedded_ipv4_eq a 0x64 0xff9b 0 ltac:(seg_lia) ltac:(seg_lia) segment_zero Ha) as H64.
  pose proof (embedded_ipv4_eq a 0 0 0xffff segment_zero segment_zero ltac:(seg_lia) Ha) as Htr.
  change (embedded_ipv4 a NAT64_WELL_KNOWN_PREFIX
          = if head_is a [0x64; 0xff9b; 0; 0; 0; 0] then Some (low a) else None) in H64.
  change (embedded_ipv4 a IPV4_TRANSLATED_PREFIX
          = if head_is a [0; 0; 0; 0; 0xffff; 0] then Some (low a) else None) in Htr.
  rewrite H64, Htr.
  assert (is_loopback_v6 a || is_unspecified_v6 a = true → head_is a [0; 0; 0; 0; 0; 0] = true) as Hz.
  { unfold is_loopback_v6, is_unspecified_v6, head_is, segments. cbn [forallb combine fst snd].
    rewrite orb_true_iff, !andb_true_iff, !Z.eqb_eq. intuition congruence. }
  destruct (head_is a [0; 0; 0; 0; 0; 0]); [done|].
  destruct (head_is a [0; 0; 0; 0; 0; 65535]); [done|].
  destruct (head_is a [100; 65435; 0; 0; 0; 0]); [done|].
  destruct (head_is a [0; 0; 0; 0; 65535; 0]); [done|]. simpl.
  destruct (is_loopback_v6 a || is_unspecified_v6 a); [by discriminate Hz|done].
Qed.

(** The SSRF guard blocks exactly the documented ranges: an address is refused if and only
    if it lies in one of the listed blocks of IPv4 or IPv6, or stands, in one of the four
    IPv6 forms that carry an IPv4 address, for an IPv4 address in one of the listed blocks. *)
Theorem private_ip_exact (ip : IpAddr) :
  ip_ok ip → is_private_ip ip = true ↔ blocked ip.
Proof.
  destruct ip as [a|a]; [apply private_v4_exact|]. simpl ip_ok. intros Ha. simpl blocked.
  destruct (low_ok a Ha) as [Hlow <-]. rewrite <- private_v4_exact by done.
  rewrite in_carriers, in_blocked_v6, is_private_v6 by done. fold (other_v6 a).
  destruct (_ || _) eqn:Hc; [|intuition congruence].
  enough (other_v6 a = false) as -> by intuition congruence.
  rewrite !orb_true_iff in Hc. destruct Hc as [[[Hc|Hc]|Hc]|Hc];
    (eapply carrier_not_other; [exact Hc|tauto]).
Qed.

Lemma private_ip_exact_witness :
  ip_ok (V6 (v6 0x64 0xff9b 0 0 0 0 0x0a00 1)) ∧
  (is_private_ip (V6 (v6 0x64 0xff9b 0 0 0 0 0x0a00 1)) = true
   ↔ blocked (V6 (v6 0x64 0xff9b 0 0 0 0 0x0a00 1))).
Proof.
  assert (ip_ok (V6 (v6 0x64 0xff9b 0 0 0 0 0x0a00 1))) as Hok.
  { simpl. repeat constructor; discriminate. }
  exact (conj Hok (private_ip_exact _ Hok)).
Defined.
