(* ===== verification/Nip10.v ===== *)
(** * Thread markers (buzz-core/src/nip10.rs)

    The [root] and [reply] markers of an event's [e] tags; a tag is the list of its parts. *)

From S2P Require Import Prelude Text StdText.

Open Scope string_scope.
Open Scope nat_scope.
Open Scope list_scope.

Record ThreadMarkers := { marker_root : option string; marker_reply : option string }.

(** [ThreadMarkers::default] *)
Definition no_markers : ThreadMarkers := {| marker_root := None; marker_reply := None |}.

Definition resolve (m : ThreadMarkers) : option (string * string) :=
  match marker_root m, marker_reply m with
  | Some root, Some reply => Some (root, reply)
  | None, Some reply => Some (reply, reply)
  | Some _, None | None, None => None
  end.

Definition is_event_id_hex (id : string) : bool :=
  (String.length id =? 64) && chars_all is_ascii_hexdigit id.

(** The body of the loop *)
Definition add_marker (m : ThreadMarkers) (parts : list string) : ThreadMarkers :=
  match parts with
  | e :: id :: _ :: marker :: _ =>
      if bool_decide (e = "e") && is_event_id_hex id then
        if decide (marker = "root") then {| marker_root := Some id; marker_reply := marker_reply m |}
        else if decide (marker = "reply") then {| marker_root := marker_root m; marker_reply := Some id |}
        else m
      else m
  | _ => m
  end.

Definition parse_thread_markers_from_parts (tags : list (list string)) : ThreadMarkers :=
  foldl add_marker no_markers tags.

Definition parse_thread_markers (tags : list (list string)) : ThreadMarkers :=
  parse_thread_markers_from_parts tags.

(** ** What the parser finds *)

(** A tag that counts as a marker of the given kind *)
Definition marks (marker id : string) (parts : list string) : Prop :=
  ∃ relay rest, parts = "e" :: id :: relay :: marker :: rest ∧ is_event_id_hex id = true.

(** [o] is the id of the last tag that counts, if one does. *)
Definition last_marked (marker : string) (tags : list (list string)) (o : option string) : Prop :=
  match o with
  | Some id => ∃ before parts after, tags = before ++ parts :: after ∧ marks marker id parts
               ∧ ∀ q, q ∈ after → ∀ i, ¬ marks marker i q
  | None => ∀ q, q ∈ tags → ∀ i, ¬ marks marker i q
  end.

Lemma add_marker_cases (m : ThreadMarkers) (parts : list string) :
  (∃ id, marks "root" id parts ∧ (∀ i, ¬ marks "reply" i parts)
         ∧ add_marker m parts = {| marker_root := Some id; marker_reply := marker_reply m |})
  ∨ (∃ id, marks "reply" id parts ∧ (∀ i, ¬ marks "root" i parts)
           ∧ add_marker m parts = {| marker_root := marker_root m; marker_reply := Some id |})
  ∨ ((∀ i, ¬ marks "root" i parts) ∧ (∀ i, ¬ marks "reply" i parts) ∧ add_marker m parts = m).
Proof.
  destruct parts as [|e [|id [|relay [|marker rest]]]];
    try (right; right; split; [|split; [|done]]; intros i (?&?&[=]&_); fail).
  simpl. case_bool_decide as He; simpl.
  2: { right; right. split; [|split; [|done]]; intros i (?&?&[= ? ? ? ?]&_); done. }
  destruct (is_event_id_hex id) eqn:Hid.
  2: { right; right. split; [|split; [|done]]; intros i (?&?&[= ? ? ? ?]&?); congruence. }
  subst e. case_decide as Hr; [|case_decide as Hp].
  - left. exists id. subst. split; [by exists relay, rest|]. split; [|done].
    intros i (?&?&[=]&_).
  - right; left. exists id. subst. split; [by exists relay, rest|]. split; [|done].
    intros i (?&?&[=]&_).
  - right; right. split; [|split; [|done]]; intros i (?&?&[= ? ? ? ?]&_); done.
Qed.

Lemma last_marked_snoc_hit (marker id : string) (tags : list (list string)) (parts : list string) :
  marks marker id parts → last_marked marker (tags ++ [parts]) (Some id).
Proof. intros Hm. exists tags, parts, []. split; [done|]. split; [done|]. set_solver. Qed.

Lemma last_marked_snoc_miss (marker : string) (tags : list (list string)) (parts : list string) o :
  (∀ i, ¬ marks marker i parts) → last_marked marker tags o → last_marked marker (tags ++ [parts]) o.
Proof.
  intros Hm. destruct o as [id|]; simpl.
  - intros (before & q & after & -> & Hq & Hafter). exists before, q, (after ++ [parts]).
    split; [by rewrite <- app_assoc|]. split; [done|]. set_solver.
  - set_solver.
Qed.

(** The parser takes the last tag of each kind that is an [e] tag with at least four parts,
    a 64-digit hexadecimal event id and that marker, and nothing else of the tags. The event is
    a reply, with the ids of its root and its parent, exactly when a valid reply marker
    occurs; a root marker alone does not make it one. *)
Theorem thread_markers_exact (tags : list (list string)) :
  let m := parse_thread_markers tags in
  last_marked "root" tags (marker_root m) ∧ last_marked "reply" tags (marker_reply m)
  ∧ (resolve m = None ↔ ∀ parts, parts ∈ tags → ∀ i, ¬ marks "reply" i parts).
Proof.
  assert (∀ tags, last_marked "root" tags (marker_root (parse_thread_markers tags))
                  ∧ last_marked "reply" tags (marker_reply (parse_thread_markers tags))) as Hlast.
  { clear tags. intros tags. induction tags as [|parts tags [IHr IHp]] using rev_ind.
    - split; intros q Hq; by apply elem_of_nil in Hq.
    - unfold parse_thread_markers, parse_thread_markers_from_parts in *. rewrite foldl_snoc.
      destruct (add_marker_cases (foldl add_marker no_markers tags) parts)
        as [(id & Hm & Hn & ->)|[(id & Hm & Hn & ->)|(Hn & Hn' & ->)]]; simpl; split;
        by first [apply last_marked_snoc_hit|apply last_marked_snoc_miss]. }
  intros m. destruct (Hlast tags) as [Hr Hp]. fold m in Hr, Hp. split; [done|]. split; [done|].
  unfold resolve. destruct (marker_reply m) as [id|] eqn:Hm.
  - split; [by destruct (marker_root m)|]. intros Hno.
    destruct Hp as (before & parts & after & -> & Hparts & _).
    destruct (Hno parts ltac:(set_solver) id Hparts).
  - split; [done|]. by destruct (marker_root m).
Qed.
