(* ===== verification/Interaction.v ===== *)
(** * Programs that call their environment

    A program is a tree of calls: each call waits for an answer of the environment, a
    database, a clock, another host, and goes on with it. A run of a program is the list of
    its calls with their answers. Properties of what a program does before each call are
    proved by [wp], a weakest precondition over histories. *)

From S2P Require Import Prelude.

Section prog.
Context {Ev : Type} {Ans : Ev → Type}.

Inductive Prog (A : Type) : Type :=
  | Ret (a : A)
  | Call (e : Ev) (k : Ans e → Prog A).
#[global] Arguments Ret {A} a.
#[global] Arguments Call {A} e k.

Fixpoint bind {A B} (p : Prog A) (f : A → Prog B) : Prog B :=
  match p with
  | Ret a => f a
  | Call e k => Call e (λ r, bind (k r) f)
  end.

(** A single call *)
Definition ask (e : Ev) : Prog (Ans e) := Call e Ret.

(** ** Histories *)

Record Entry := { call : Ev; reply : Ans call }.

Definition entry (e : Ev) (r : Ans e) : Entry := {| call := e; reply := r |}.

(** [runs p h q]: the calls and answers [h] take [p] to [q]. *)
Fixpoint runs {A} (p : Prog A) (h : list Entry) (q : Prog A) {struct h} : Prop :=
  match h with
  | [] => q = p
  | x :: h =>
      match p with
      | Ret _ => False
      | Call e k => ∃ r, x = entry e r ∧ runs (k r) h q
      end
  end.

Lemma runs_app {A} (h t : list Entry) (p q s : Prog A) :
  runs p h q → runs q t s → runs p (h ++ t) s.
Proof.
  revert p. induction h as [|x h IH]; intros p; simpl; [by intros ->|].
  destruct p as [a|e k]; [done|]. intros (r & -> & Hr) Ht. exists r. split; [done|]. by apply IH.
Qed.

Lemma runs_app_inv {A} (h t : list Entry) (p s : Prog A) :
  runs p (h ++ t) s → ∃ q, runs p h q ∧ runs q t s.
Proof.
  revert p. induction h as [|x h IH]; intros p; simpl; [by exists p|].
  destruct p as [a|e k]; [done|]. intros (r & -> & Hr). apply IH in Hr as (q & Hq & Hs).
  exists q. split; [by exists r|done].
Qed.

Lemma runs_bind {A B} (f : A → Prog B) (h : list Entry) (p : Prog A) (q : Prog B) :
  runs (bind p f) h q →
  (∃ p', runs p h p' ∧ q = bind p' f) ∨
  (∃ a t u, h = t ++ u ∧ runs p t (Ret a) ∧ runs (f a) u q).
Proof.
  revert p. induction h as [|x h IH]; intros p; simpl.
  - intros ->. left. by exists p.
  - destruct p as [a|e k]; simpl; intros Hr.
    + right. by exists a, [], (x :: h).
    + destruct Hr as (r & -> & [(p' & Hp & ->)|(a & t & u & -> & Ht & Hu)]%IH).
      * left. exists p'. split; [by exists r|done].
      * right. exists a, (entry e r :: t), u. split; [done|]. split; [by exists r|done].
Qed.

(** A run with given answers, for at most [n] calls *)
Fixpoint play {A} (r : ∀ e, Ans e) (n : nat) (p : Prog A) : list Entry * Prog A :=
  match n, p with
  | S n, Call e k => let '(h, q) := play r n (k (r e)) in (entry e (r e) :: h, q)
  | _, _ => ([], p)
  end.

Lemma play_runs {A} (r : ∀ e, Ans e) (n : nat) (p : Prog A) : runs p (play r n p).1 (play r n p).2.
Proof.
  revert p. induction n as [|n IH]; intros p; [done|]. destruct p as [a|e k]; [done|]. simpl.
  specialize (IH (k (r e))). destruct (play r n (k (r e))) as [h q]. simpl. by exists (r e).
Qed.

(** ** Weakest preconditions over histories

    [P h x]: after the history [h], the call and answer [x] is acceptable. [wp P p h Q]: from
    the history [h] on, every call of [p] is acceptable, and every result satisfies [Q] with
    the history it ends with. *)

Fixpoint wp {A} (P : list Entry → Entry → Prop) (p : Prog A) (h : list Entry)
    (Q : A → list Entry → Prop) : Prop :=
  match p with
  | Ret a => Q a h
  | Call e k => ∀ r, P h (entry e r) ∧ wp P (k r) (h ++ [entry e r]) Q
  end.

Lemma wp_mono {A} P (p : Prog A) h (Q Q' : A → list Entry → Prop) :
  (∀ a h', Q a h' → Q' a h') → wp P p h Q → wp P p h Q'.
Proof.
  intros HQ. revert h. induction p as [a|e k IH]; simpl; intros h; [by apply HQ|].
  intros Hw r. destruct (Hw r). split; [done|]. by apply IH.
Qed.

Lemma wp_bind {A B} P (p : Prog A) (f : A → Prog B) h (Q : B → list Entry → Prop) :
  wp P p h (λ a h', wp P (f a) h' Q) → wp P (bind p f) h Q.
Proof.
  revert h. induction p as [a|e k IH]; simpl; intros h; [done|].
  intros Hw r. destruct (Hw r). split; [done|]. by apply IH.
Qed.

(** The rule of a single call *)
Lemma wp_ask {A} P (e : Ev) (f : Ans e → Prog A) h (Q : A → list Entry → Prop) :
  (∀ r, P h (entry e r) ∧ wp P (f r) (h ++ [entry e r]) Q) → wp P (bind (ask e) f) h Q.
Proof. done. Qed.

Lemma wp_and {A} (P P' : list Entry → Entry → Prop) (p : Prog A) h (Q Q' : A → list Entry → Prop) :
  wp P p h Q → wp P' p h Q' → wp (λ h x, P h x ∧ P' h x) p h (λ a h', Q a h' ∧ Q' a h').
Proof.
  revert h. induction p as [a|e k IH]; simpl; intros h; [done|].
  intros Hw Hw' r. destruct (Hw r), (Hw' r). split; [done|]. by apply IH.
Qed.

Lemma wp_weaken {A} (P P' : list Entry → Entry → Prop) (p : Prog A) h (Q : A → list Entry → Prop) :
  (∀ h x, P h x → P' h x) → wp P p h Q → wp P' p h Q.
Proof.
  intros HP. revert h. induction p as [a|e k IH]; simpl; intros h; [done|].
  intros Hw r. destruct (Hw r). split; [by apply HP|]. by apply IH.
Qed.

Definition acceptable (P : list Entry → Entry → Prop) (h : list Entry) : Prop :=
  ∀ t x u, h = t ++ x :: u → P t x.

Lemma wp_runs {A} P (p q : Prog A) (h0 h : list Entry) (Q : A → list Entry → Prop) :
  wp P p h0 Q → runs p h q → wp P q (h0 ++ h) Q ∧ ∀ t x u, h = t ++ x :: u → P (h0 ++ t) x.
Proof.
  revert p h0. induction h as [|y h IH]; intros p h0; simpl.
  - intros Hw ->. rewrite app_nil_r. split; [done|]. by intros [|? ?] ? ?.
  - destruct p as [a|e k]; [done|]. intros Hw (r & -> & Hr). destruct (Hw r) as [HP Hk].
    destruct (IH _ _ Hk Hr) as [Hq Hacc]. rewrite <- app_assoc in Hq. split; [done|].
    intros [|z t] x u; simpl; intros [= <- ->]; [by rewrite app_nil_r|].
    rewrite (app_assoc h0 [entry e r] t) || idtac.
    specialize (Hacc t x u eq_refl). by rewrite <- app_assoc in Hacc.
Qed.

Lemma wp_history {A} P (p q : Prog A) (h : list Entry) (Q : A → list Entry → Prop) :
  wp P p [] Q → runs p h q → acceptable P h ∧ ∀ a, q = Ret a → Q a h.
Proof.
  intros Hw Hr. destruct (wp_runs _ _ _ _ _ _ Hw Hr) as [Hq Hacc]. split; [exact Hacc|].
  by intros a ->.
Qed.

End prog.

Notation "x <-* p ;; k" := (bind p (λ x, k))
  (at level 100, p at next level, right associativity) : rust_scope.

(** [x <-! p ;; k] is [let x = p.await?; k]. *)
Notation "x <-! p ;; k" :=
  (bind p (λ r, match r with Ok x => k | Err e => Ret (Err e) end))
  (at level 100, p at next level, right associativity) : rust_scope.

(** [x <-% r ;; k] is [let x = r?; k] for a value that is at hand. *)
Notation "x <-% r ;; k" :=
  (match r with Ok x => k | Err e => Ret (Err e) end)
  (at level 100, r at next level, right associativity) : rust_scope.

(** ** Interruptible waits

    A timeout, or a guard that may be lost, stops a future at one of its suspension points:
    before the call it waits for was made, or after it was made and before the answer was
    taken. [poll] is the call that asks whether the wait has been interrupted. *)
Section interruptible.
Context {Ev : Type} {Ans : Ev → Type} (poll : Ev) (interrupted : Ans poll → bool).

Fixpoint interruptible {A} (p : @Prog Ev Ans A) : @Prog Ev Ans (option A) :=
  match p with
  | Ret a => Ret (Some a)
  | Call e k =>
      b <-* ask poll ;;
      if interrupted b then Ret None
      else Call e (λ r, b <-* ask poll ;;
                        if interrupted b then Ret None else interruptible (k r))
  end.

End interruptible.

(** ** Calls of a kind

    [calls K p Q]: whatever the answers are, [p] makes only calls of the kind [K], and its
    results satisfy [Q]. *)
Section calls.
Context {Ev : Type} {Ans : Ev → Type}.
Abbreviation Prog := (@Prog Ev Ans).
Abbreviation Entry := (@Entry Ev Ans).

Fixpoint calls {A} (K : Ev → Prop) (p : Prog A) (Q : A → Prop) : Prop :=
  match p with
  | Ret a => Q a
  | Call e k => K e ∧ ∀ r, calls K (k r) Q
  end.

Lemma calls_mono {A} (K K' : Ev → Prop) (p : Prog A) (Q Q' : A → Prop) :
  (∀ e, K e → K' e) → (∀ a, Q a → Q' a) → calls K p Q → calls K' p Q'.
Proof. intros HK HQ. induction p as [a|e k IH]; simpl; [apply HQ|]. naive_solver. Qed.

Lemma calls_bind {A B} (K : Ev → Prop) (p : Prog A) (f : A → Prog B) (Q : B → Prop) :
  calls K p (λ a, calls K (f a) Q) → calls K (bind p f) Q.
Proof. induction p as [a|e k IH]; simpl; [done|]. naive_solver. Qed.

Lemma calls_ask {B} (K : Ev → Prop) (e : Ev) (f : Ans e → Prog B) (Q : B → Prop) :
  K e → (∀ r, calls K (f r) Q) → calls K (bind (ask e) f) Q.
Proof. done. Qed.

Lemma calls_interruptible {A} (K : Ev → Prop) (poll : Ev) (i : Ans poll → bool) (p : Prog A) (Q : A → Prop) :
  K poll → calls K p Q →
  calls K (interruptible poll i p) (λ o, match o with Some a => Q a | None => True end).
Proof.
  intros Hpoll. induction p as [a|e k IH]; simpl; [done|]. intros [He Hk]. split; [done|].
  intros b. destruct (i b); simpl; [done|]. split; [done|]. intros r. split; [done|].
  intros b'. destruct (i b'); simpl; [done|]. by apply IH.
Qed.

(** An invariant of histories that such calls keep *)
Lemma calls_wp {A} (I : list Entry → Prop) (P : list Entry → Entry → Prop) (K : Ev → Prop)
    (p : Prog A) (Q : A → Prop) (h : list Entry) :
  (∀ h x, I h → K (call x) → P h x ∧ I (h ++ [x])) →
  calls K p Q → I h → wp P p h (λ a h', Q a ∧ I h').
Proof.
  intros HI. revert h. induction p as [a|e k IH]; simpl; intros h; [done|].
  intros [He Hk] Hh r. destruct (HI h (entry e r) Hh He). split; [done|]. by apply IH.
Qed.

(** The same under an interruptible wait: the invariant holds as long as it goes on. *)
Lemma interruptible_wp {A} (I : list Entry → Prop) (P : list Entry → Entry → Prop) (K : Ev → Prop)
    (poll : Ev) (i : Ans poll → bool) (p : Prog A) (Q : A → Prop) (h : list Entry) :
  (∀ h x, I h → K (call x) → P h x ∧ I (h ++ [x])) →
  (∀ h b, I h → P h (entry poll b)) →
  (∀ h b, I h → i b = false → I (h ++ [entry poll b])) →
  calls K p Q → I h →
  wp P (interruptible poll i p) h (λ o h', match o with Some a => Q a ∧ I h' | None => True end).
Proof.
  intros HI HP Hpoll. revert h. induction p as [a|e k IH]; simpl; intros h; [done|].
  intros [He Hk] Hh b. split; [by apply HP|]. destruct (i b) eqn:Hb; simpl; [done|].
  assert (I (h ++ [entry poll b])) as Hh1 by (by apply Hpoll). intros r.
  destruct (HI _ (entry e r) Hh1 He) as [Hx Hh2]. split; [done|]. intros b'. split; [by apply HP|].
  destruct (i b') eqn:Hb'; simpl; [done|]. apply IH; [done|]. by apply Hpoll.
Qed.

(** What refers to earlier calls only by their occurrence survives the polls of a wait. *)
Lemma wp_interruptible {A} (P : list Entry → Entry → Prop) (poll : Ev) (i : Ans poll → bool)
    (p : Prog A) (Q : A → list Entry → Prop) (h h' : list Entry) :
  (∀ h h' x, h ⊆ h' → P h x → P h' x) → (∀ h b, P h (entry poll b)) →
  h ⊆ h' → wp P p h Q →
  wp P (interruptible poll i p) h'
    (λ o h'', match o with Some a => ∃ h0, h0 ⊆ h'' ∧ Q a h0 | None => True end).
Proof.
  intros Hmono Hpoll. revert h h'. induction p as [a|e k IH]; simpl; intros h h' Hsub Hw; [by exists h|].
  intros b. split; [apply Hpoll|]. destruct (i b); simpl; [done|].
  intros r. destruct (Hw r) as [HP Hk]. split; [eapply Hmono; [|exact HP]; set_solver|].
  intros b'. split; [apply Hpoll|]. destruct (i b'); simpl; [done|].
  eapply IH; [|exact Hk]. set_solver.
Qed.

(** What depends on a state that the polls of a wait leave alone *)
Lemma wp_interruptible_state {A St} (st : list Entry → St) (f : St → Entry → St)
    (P : St → Entry → Prop) (poll : Ev) (i : Ans poll → bool) (p : Prog A) (Q : A → St → Prop)
    (h h' : list Entry) :
  (∀ h x, st (h ++ [x]) = f (st h) x) →
  (∀ s b, i b = false → f s (entry poll b) = s) → (∀ s b, P s (entry poll b)) →
  wp (λ h, P (st h)) p h (λ a h, Q a (st h)) → st h' = st h →
  wp (λ h, P (st h)) (interruptible poll i p) h'
    (λ o h', match o with Some a => Q a (st h') | None => True end).
Proof.
  intros Hst Hpoll HP. revert h h'. induction p as [a|e k IH]; simpl; intros h h' Hw Heq; [by rewrite Heq|].
  intros b. split; [apply HP|]. destruct (i b) eqn:Hb; simpl; [done|].
  assert (st (h' ++ [entry poll b]) = st h) as Heq1 by (by rewrite Hst, Hpoll).
  intros r. destruct (Hw r) as [HPr Hk]. split; [by rewrite Heq1|]. intros b'. split; [apply HP|].
  destruct (i b') eqn:Hb'; simpl; [done|]. eapply IH; [exact Hk|].
  rewrite (Hst _ (entry poll b')), Hpoll by done. by rewrite !(Hst _ (entry e r)), Heq1.
Qed.

Lemma calls_runs {A} (K : Ev → Prop) (p : Prog A) (Q : A → Prop) (h : list Entry) (a : A) :
  calls K p Q → runs p h (Ret a) → Q a.
Proof.
  intros Hc Hr. assert (wp (λ _ _, True) p [] (λ a _, Q a ∧ True)) as Hw.
  { by apply (calls_wp (λ _, True) _ K). }
  destruct (wp_history _ _ _ _ _ Hw Hr) as [_ Hq]. by apply Hq.
Qed.

End calls.

(** ** Systems of programs over a shared state

    Processes run arbitrary programs; each call is answered by the shared state, under a choice
    of the environment. The log keeps every call with its answer and the process that made it. *)
Section system.
Context {Ev : Type} {Ans : Ev → Type} {S C : Type}.
Context (answer : C → ∀ e : Ev, S → Ans e → Ans e * S).

Abbreviation Prog := (@Prog Ev Ans).
Abbreviation Entry := (@Entry Ev Ans).

(** A process: the program it was started with, and what is left of it *)
Record System := {
  shared : S;
  processes : list (Prog unit * Prog unit);
  log : list (nat * Entry)
}.

Inductive sys_step : System → System → Prop :=
  | step_call s i p e k c r :
      processes s !! i = Some (p, Call e k) →
      sys_step s {| shared := (answer c e (shared s) r).2;
                    processes := <[i := (p, k (answer c e (shared s) r).1)]> (processes s);
                    log := log s ++ [(i, entry e (answer c e (shared s) r).1)] |}
  | step_start s p :
      sys_step s {| shared := shared s; processes := processes s ++ [(p, p)]; log := log s |}.

Definition initial (x : S) : System := {| shared := x; processes := []; log := [] |}.

Inductive reach (x : S) : System → Prop :=
  | reach_init : reach x (initial x)
  | reach_step s s' : reach x s → sys_step s s' → reach x s'.

(** The calls of one process *)
Definition history (i : nat) (l : list (nat * Entry)) : list Entry :=
  snd <$> filter (λ x, x.1 = i) l.

(** The log as the evolution of the shared state *)
Fixpoint evolves (x : S) (l : list (nat * Entry)) (y : S) : Prop :=
  match l with
  | [] => y = x
  | (_, en) :: l =>
      ∃ c e r, en = entry e (answer c e x r).1 ∧ evolves (answer c e x r).2 l y
  end.

Lemma evolves_app (x y : S) (l t : list (nat * Entry)) :
  evolves x (l ++ t) y ↔ ∃ z, evolves x l z ∧ evolves z t y.
Proof.
  revert x. induction l as [|[i en] l IH]; intros x; simpl; [naive_solver|]. split.
  - intros (c & e & r & -> & (z & Hl & Ht)%IH). exists z. split; [by exists c, e, r|done].
  - intros (z & (c & e & r & -> & Hl) & Ht). exists c, e, r. split; [done|]. apply IH. by exists z.
Qed.

Lemma reach_evolves (x : S) (s : System) : reach x s → evolves x (log s) (shared s).
Proof.
  induction 1 as [|s s' _ IH Hs]; [done|]. destruct Hs as [s i p e k c r _|s p]; simpl; [|done].
  apply evolves_app. exists (shared s). split; [done|]. by exists c, e, r.
Qed.

Lemma history_app (i : nat) (l t : list (nat * Entry)) : history i (l ++ t) = history i l ++ history i t.
Proof. unfold history. by rewrite filter_app, fmap_app. Qed.

Lemma history_nil (i : nat) (l : list (nat * Entry)) : (∀ en, (i, en) ∉ l) → history i l = [].
Proof.
  unfold history. induction l as [|[j en] l IH]; intros Hn; [done|].
  rewrite filter_cons_False; [apply IH|]; simpl.
  - intros en' Hin. apply (Hn en'). by right.
  - intros ->. apply (Hn en). by left.
Qed.

Lemma reach_runs (x : S) (s : System) :
  reach x s →
  (∀ i p q, processes s !! i = Some (p, q) → runs p (history i (log s)) q)
  ∧ ∀ i en, (i, en) ∈ log s → i < length (processes s).
Proof.
  induction 1 as [|s s' _ [IH Hlog] Hs].
  - split; [done|]. intros i en Hin. by apply elem_of_nil in Hin.
  - destruct Hs as [s i p e k c r Hi|s p]; simpl; split.
    + intros j p' q. destruct (decide (j = i)) as [->|Hne].
      * pose proof (lookup_lt_Some _ _ _ Hi) as Hlt.
        rewrite list_lookup_insert_eq by done. intros [= <- <-]. rewrite history_app.
        eapply runs_app; [by apply (IH i p)|]. unfold history. simpl.
        rewrite filter_cons_True by done. simpl. by eexists.
      * rewrite list_lookup_insert_ne by done. intros Hj. rewrite history_app.
        unfold history at 2. rewrite filter_cons_False by (simpl; congruence). simpl.
        rewrite app_nil_r. by apply IH.
    + intros j en [Hj|Hj]%elem_of_app; rewrite length_insert; [by eapply Hlog|].
      apply list_elem_of_singleton in Hj as [= -> ->]. by apply lookup_lt_Some in Hi.
    + intros j p' q. destruct (decide (j < length (processes s))) as [Hlt|Hge].
      * rewrite lookup_app_l by done. apply IH.
      * rewrite lookup_app_r by lia. destruct (j - length (processes s)) as [|n] eqn:Hn; [|done].
        simpl. intros [= <- <-]. assert (history j (log s) = []) as ->; [|done].
        apply history_nil. intros en Hin. apply Hlog in Hin. lia.
    + intros j en Hj. rewrite length_app. specialize (Hlog j en Hj). simpl. lia.
Qed.

Lemma history_cons (i : nat) (en : Entry) (l : list (nat * Entry)) :
  history i ((i, en) :: l) = en :: history i l.
Proof. unfold history. by rewrite filter_cons_True. Qed.

(** What holds before every call of a program holds of the calls of its process. *)
Lemma reach_acceptable (x : S) (s : System) P (p q : Prog unit) Q i en l1 l2 :
  reach x s → processes s !! i = Some (p, q) → wp P p [] Q →
  log s = l1 ++ (i, en) :: l2 → P (history i l1) en.
Proof.
  intros Hr Hi Hw Hl. destruct (reach_runs _ _ Hr) as [Hruns _]. specialize (Hruns i p q Hi).
  destruct (wp_history _ _ _ _ _ Hw Hruns) as [Hacc _].
  apply (Hacc _ _ (history i l2)). by rewrite Hl, history_app, history_cons.
Qed.

Lemma history_split (i : nat) (l : list (nat * Entry)) (h t : list Entry) :
  history i l = h ++ t → ∃ l1 l2, l = l1 ++ l2 ∧ history i l1 = h ∧ history i l2 = t.
Proof.
  revert h. induction l as [|[j e] l IH]; intros h.
  - intros [-> ->]%eq_sym%app_eq_nil. by exists [], [].
  - destruct (decide (j = i)) as [->|Hne].
    + rewrite history_cons. destruct h as [|y h]; simpl.
      * intros <-. exists [], ((i, e) :: l). by rewrite history_cons.
      * intros [= <- (l1 & l2 & -> & <- & <-)%IH]. exists ((i, e) :: l1), l2. by rewrite history_cons.
    + unfold history at 1. rewrite filter_cons_False by done. intros (l1 & l2 & -> & <- & <-)%IH.
      exists ((j, e) :: l1), l2. split; [done|]. split; [|done].
      unfold history. by rewrite filter_cons_False.
Qed.

(** The last call of a process before a point of the log *)
Lemma history_last (i : nat) (l : list (nat * Entry)) (h : list Entry) (en : Entry) :
  history i l = h ++ [en] →
  ∃ l1 l2, l = l1 ++ (i, en) :: l2 ∧ (∀ x, x ∈ l2 → x.1 ≠ i).
Proof.
  revert h. induction l as [|[j e] l IH] using rev_ind; intros h.
  - by destruct h.
  - rewrite history_app. destruct (decide (j = i)) as [->|Hne].
    + rewrite history_cons. intros Heq. apply app_inj_tail in Heq as [_ <-].
      exists l, []. split; [done|]. intros x Hx. by apply elem_of_nil in Hx.
    + unfold history at 2. rewrite filter_cons_False by done. simpl. rewrite app_nil_r.
      intros (l1 & l2 & -> & Hl2)%IH. exists l1, (l2 ++ [(j, e)]). rewrite <- app_assoc.
      split; [done|]. intros x [Hx|Hx]%elem_of_app; [by apply Hl2|].
      by apply list_elem_of_singleton in Hx as ->.
Qed.

(** ** Executable moves *)

(** Process [i] makes its next call; [r] answers what the shared state does not. *)
Definition advance (c : C) (r : ∀ e, Ans e) (i : nat) (s : System) : System :=
  match processes s !! i with
  | Some (p, Call e k) =>
      let a := answer c e (shared s) (r e) in
      {| shared := a.2; processes := <[i := (p, k a.1)]> (processes s);
         log := log s ++ [(i, entry e a.1)] |}
  | _ => s
  end.

Definition start (p : Prog unit) (s : System) : System :=
  {| shared := shared s; processes := processes s ++ [(p, p)]; log := log s |}.

Lemma reach_advance (x : S) (c : C) (r : ∀ e, Ans e) (i : nat) (s : System) :
  reach x s → reach x (advance c r i s).
Proof.
  intros Hs. unfold advance. destruct (processes s !! i) as [[p [a|e k]]|] eqn:Hi; [done| |done].
  eapply reach_step; [exact Hs|]. by apply (step_call s i p e k c (r e)).
Qed.

Lemma reach_start (x : S) (p : Prog unit) (s : System) : reach x s → reach x (start p s).
Proof. intros Hs. eapply reach_step; [exact Hs|]. apply step_start. Qed.

Lemma advance_started (c : C) (r : ∀ e, Ans e) (i : nat) (s : System) :
  (processes (advance c r i s)).*1 = (processes s).*1.
Proof.
  unfold advance. destruct (processes s !! i) as [[p [a|e k]]|] eqn:Hi; [done| |done]. simpl.
  rewrite list_fmap_insert. simpl. apply list_insert_id. by rewrite list_lookup_fmap, Hi.
Qed.

End system.
