(* ===== verification/Workflow.v ===== *)
(** * Workflow definitions (buzz-workflow/src/schema.rs, error.rs; durations of executor.rs)

    The definition types, their validation, duration strings and the normalization of cron
    expressions. YAML, JSON and the cron crate are classes. Texts of errors are shortened. *)

From S2P Require Import Prelude Text StdText.

Open Scope string_scope.
Open Scope nat_scope.
Open Scope list_scope.

(** ** error.rs *)

Inductive WorkflowError :=
  | InvalidYaml (e : string)
  | InvalidDefinition (e : string)
  | ConditionError (e : string)
  | TemplateError (e : string)
  | StepTimeout (step_id : string) (timeout_secs : Z)
  | WebhookError (e : string)
  | CapacityExceeded
  | Database (e : string)
  | Unauthorized (e : string)
  | NotImplemented (e : string).

Definition code (e : WorkflowError) : string :=
  match e with
  | InvalidYaml _ => "invalid_yaml"
  | InvalidDefinition _ => "invalid_definition"
  | ConditionError _ => "condition_evaluation_failed"
  | TemplateError _ => "template_resolution_failed"
  | StepTimeout _ _ => "step_timeout"
  | WebhookError _ => "webhook_failed"
  | CapacityExceeded => "capacity_exceeded"
  | Database _ => "database_error"
  | Unauthorized _ => "owner_unauthorized"
  | NotImplemented _ => "action_not_implemented"
  end.

(** ** Definitions *)

Inductive TriggerDef :=
  | MessagePosted (filter : option string)
  | ReactionAdded (emoji filter : option string)
  | DiffPosted (filter : option string)
  | Schedule (cron interval : option string)
  | Webhook.

Inductive ActionDef :=
  | SendMessage (text : string) (channel : option string) (reply_in_thread : bool)
  | SendDm (to text : string)
  | SetChannelTopic (topic : string)
  | AddReaction (emoji : string)
  | CallWebhook (url : string) (method : option string) (headers : option (gmap string string))
      (body : option string)
  | RequestApproval (from message : string) (timeout : option string)
  | Delay (duration : string).

Record Step := {
  step_id : string;
  step_name : option string;
  if_expr : option string;
  timeout_secs : option Z;
  action : ActionDef
}.

Record WorkflowDef := {
  wf_name : string;
  description : option string;
  trigger : TriggerDef;
  steps : list Step;
  enabled : bool
}.

Definition is_call_webhook (a : ActionDef) : bool :=
  match a with CallWebhook _ _ _ _ => true | _ => false end.

Definition requires_elevated_authority (d : WorkflowDef) : bool :=
  existsb (λ s, is_call_webhook (action s)) (steps d).

(** ** Durations *)

Definition invalid_duration {A} : result A WorkflowError := Err (InvalidDefinition "invalid duration").

(** [u64::checked_mul], and the error of the caller *)
Definition checked_mul (n k : Z) : result Z WorkflowError :=
  if (n * k <=? u64_max)%Z then Ok (n * k)%Z else Err (InvalidDefinition "duration overflow").

Definition parse_duration_secs (duration : string) : result Z WorkflowError :=
  let duration := str_trim duration in
  match strip_suffix "h" duration with
  | Some n => match parse_u64 (str_trim n) with
              | Some hours => checked_mul hours 3600 | None => invalid_duration end
  | None =>
  match strip_suffix "m" duration with
  | Some n => match parse_u64 (str_trim n) with
              | Some mins => checked_mul mins 60 | None => invalid_duration end
  | None =>
  match strip_suffix "s" duration with
  | Some n => match parse_u64 (str_trim n) with
              | Some secs => Ok secs | None => invalid_duration end
  | None => match parse_u64 duration with Some secs => Ok secs | None => invalid_duration end
  end end end.

(** ** Cron expressions *)

(** The cron crate: parsing, and the first instant of a schedule after a given one, in
    nanoseconds *)
Class Cron := {
  CronSchedule : Type;
  cron_parse : string → option CronSchedule;
  next_after : CronSchedule → Z → option Z
}.

(** [schedule.after(&t)] yields instants after [t], the first one first. *)
Class CronLaws `{Cron} := {
  next_after_gt : ∀ s t u, next_after s t = Some u → (t < u)%Z;
  next_after_first : ∀ s t u t', next_after s t = Some u → (t ≤ t' < u)%Z → next_after s t' = Some u
}.

(** [split_whitespace().count()] *)
Fixpoint word_count (fuel : nat) (in_word : bool) (s : string) : nat :=
  match fuel with
  | 0 => 0
  | S fuel =>
      match s with
      | EmptyString => 0
      | String a rest =>
          match strip_one white_space s with
          | Some rest => word_count fuel false rest
          | None => (if in_word then 0 else 1) + word_count fuel true rest
          end
      end
  end.
Definition split_whitespace_count (s : string) : nat := word_count (String.length s) false s.

Definition normalize_cron (expr : string) : string :=
  match split_whitespace_count expr with
  | 5 => "0 " +:+ expr +:+ " *"
  | 6 => expr +:+ " *"
  | _ => expr
  end.

(** ** Validation *)

Definition valid_step_id (id : string) : bool :=
  negb (bool_decide (id = "")) && (String.length id <=? 64)
  && chars_all (λ c, is_ascii_alphanumeric c || Ascii.eqb c "_") id.

Fixpoint check_steps (seen_ids : gset string) (l : list Step) : result unit WorkflowError :=
  match l with
  | [] => Ok tt
  | s :: l =>
      guard! negb (bool_decide (str_trim (step_id s) = ""))
        else InvalidDefinition "step id must not be empty" ;;
      guard! valid_step_id (step_id s) else InvalidDefinition "step id is invalid" ;;
      guard! negb (bool_decide (step_id s ∈ seen_ids)) else InvalidDefinition "duplicate step id" ;;
      check_steps ({[step_id s]} ∪ seen_ids) l
  end.

Definition trigger_has_message (t : TriggerDef) : bool :=
  match t with MessagePosted _ | ReactionAdded _ _ | DiffPosted _ => true | _ => false end.

Definition replies_in_thread (a : ActionDef) : bool :=
  match a with SendMessage _ _ reply => reply | _ => false end.

Section validation.
Context `{Cron}.

Definition validate_cron (expr : string) : result unit WorkflowError :=
  match cron_parse (normalize_cron expr) with
  | Some _ => Ok tt
  | None => Err (InvalidDefinition "invalid cron expression")
  end.

Definition validate_interval (dur : string) : result unit WorkflowError :=
  secs <-? map_err (λ _, InvalidDefinition "invalid interval") (parse_duration_secs dur) ;;
  guard! (60 <=? secs)%Z else InvalidDefinition "interval must be at least 60s" ;;
  Ok tt.

Definition validate_trigger (t : TriggerDef) : result unit WorkflowError :=
  match t with
  | Schedule cron interval =>
      guard! is_some_and (λ _, true) cron || is_some_and (λ _, true) interval
        else InvalidDefinition "schedule trigger requires either 'cron' or 'interval'" ;;
      guard! negb (is_some_and (λ _, true) cron && is_some_and (λ _, true) interval)
        else InvalidDefinition "schedule trigger cannot specify both 'cron' and 'interval'" ;;
      _ <-? match cron with Some expr => validate_cron expr | None => Ok tt end ;;
      match interval with Some dur => validate_interval dur | None => Ok tt end
  | _ => Ok tt
  end.

Definition validate (d : WorkflowDef) : result unit WorkflowError :=
  guard! negb (bool_decide (str_trim (wf_name d) = "")) else InvalidDefinition "name is required" ;;
  guard! negb (length (steps d) =? 0) else InvalidDefinition "at least one step is required" ;;
  _ <-? check_steps ∅ (steps d) ;;
  guard! trigger_has_message (trigger d)
         || negb (existsb (λ s, replies_in_thread (action s)) (steps d))
    else InvalidDefinition "reply_in_thread requires a message-based trigger" ;;
  validate_trigger (trigger d).

(** serde_yaml and serde_json on the derived types *)
Class DefText := {
  def_of_yaml : string → result WorkflowDef string;
  def_to_json : WorkflowDef → result string string
}.

Definition parse_yaml `{DefText} (yaml : string) : result (WorkflowDef * string) WorkflowError :=
  def <-? map_err InvalidYaml (def_of_yaml yaml) ;;
  _ <-? validate def ;;
  json <-? map_err InvalidDefinition (def_to_json def) ;;
  Ok (def, json).

End validation.

(** ** Lemmas on text *)

Lemma strip_prefix_cons (a b : Ascii.ascii) (p s : string) :
  strip_prefix (String a p) (String b s) = if Ascii.eqb a b then strip_prefix p s else None.
Proof. done. Qed.

Lemma strip_suffix_snoc (s : string) (a b : Ascii.ascii) :
  strip_suffix (String a "") (s +:+ String b "") = if Ascii.eqb a b then Some s else None.
Proof.
  unfold strip_suffix. rewrite string_rev_append. change (string_rev (String a "")) with (String a "").
  etransitivity; [exact (f_equal (fmap string_rev) (strip_prefix_cons a b "" (string_rev s)))|].
  destruct (Ascii.eqb a b); [|done]. exact (f_equal Some (string_rev_involutive s)).
Qed.

(** A printable ASCII character *)
Definition plain : Ascii.ascii → bool := between 33 126.

Lemma strip_one_plain (a : Ascii.ascii) (r : string) :
  plain a = true →
  strip_one white_space (String a r) = None ∧
  strip_one (string_rev <$> white_space) (String a r) = None.
Proof.
  destruct a as [[] [] [] [] [] [] [] []]; intros Ha; first [discriminate Ha|split; reflexivity].
Qed.

Lemma str_trim_plain (s : string) (a b : Ascii.ascii) (t : string) :
  plain a = true → plain b = true → s +:+ String b "" = String a t →
  str_trim (s +:+ String b "") = s +:+ String b "".
Proof.
  intros Ha Hb Heq. unfold str_trim, trim_start. rewrite strip_all_stuck.
  2: { rewrite Heq. exact (proj1 (strip_one_plain a t Ha)). }
  unfold trim_back. rewrite strip_all_stuck, string_rev_involutive; [done|].
  rewrite string_rev_append. exact (proj2 (strip_one_plain b _ Hb)).
Qed.

(** ** Durations: round trip, overflow and bounds *)

Lemma digit_plain (a : Ascii.ascii) : is_Some (digit a) → plain a = true.
Proof.
  unfold digit, plain, between, code_of. intros [z Hz]. destruct (_ && _) eqn:Hd in Hz; [|done].
  apply andb_true_iff in Hd as [H1%Z.leb_le H2%Z.leb_le]. apply andb_true_iff. rewrite !N.leb_le. lia.
Qed.

Lemma trim_decimal_unit (n : Z) (u : Ascii.ascii) :
  plain u = true → str_trim (decimal n +:+ String u "") = decimal n +:+ String u "".
Proof.
  intros Hu. destruct (decimal_head n) as (a & t & Heq & Ha). rewrite Heq.
  by apply (str_trim_plain _ a _ (t +:+ String u "")); [apply digit_plain| |].
Qed.

(** A decimal ends with a digit. *)
Lemma parse_digits_last (max acc n : Z) (s : string) (b : Ascii.ascii) :
  parse_digits max acc (s +:+ String b "") = Some n → is_Some (digit b).
Proof.
  revert acc. induction s as [|a s IH]; intros acc; simpl.
  - destruct (digit b); [by eexists|done].
  - destruct (digit a); [|done]. case_match; [apply IH|done].
Qed.

Lemma string_snoc (s : string) : s ≠ "" → ∃ t b, s = t +:+ String b "".
Proof.
  induction s as [|a s IH]; [done|]. intros _. destruct (decide (s = "")) as [->|Hne].
  - by exists "", a.
  - destruct (IH Hne) as (t & b & ->). by exists (String a t), b.
Qed.

Lemma decimal_last (n : Z) : (0 ≤ n)%Z → ∃ s b, decimal n = s +:+ String b "" ∧ is_Some (digit b).
Proof.
  intros Hn. destruct (string_snoc _ (decimal_not_empty n)) as (s & b & Heq). exists s, b.
  split; [done|]. pose proof (parse_decimal n n ltac:(lia)) as Hp.
  destruct (decimal_head n) as (a & t & Ha & Hd). apply (parse_digits_last n 0 n s b).
  rewrite <- Heq. rewrite <- Hp. rewrite Ha. unfold parse_unsigned.
  destruct (decide (a = "+"%char)) as [->|Hne]; [by destruct Hd|]. repeat (case_match; try done).
Qed.

Lemma trim_decimal (n : Z) : (0 ≤ n)%Z → str_trim (decimal n) = decimal n.
Proof.
  intros Hn. destruct (decimal_head n) as (a & t & Ha & Hd).
  destruct (decimal_last n Hn) as (s & b & Heq & Hb). rewrite Heq.
  apply (str_trim_plain s a b t); [by apply digit_plain..|congruence].
Qed.

Lemma strip_unit (n : Z) (u v : Ascii.ascii) :
  strip_suffix (String u "") (decimal n +:+ String v "") = if Ascii.eqb u v then Some (decimal n) else None.
Proof. apply strip_suffix_snoc. Qed.

Lemma strip_no_unit (n : Z) (u : Ascii.ascii) :
  (0 ≤ n)%Z → digit u = None → strip_suffix (String u "") (decimal n) = None.
Proof.
  intros Hn Hu. destruct (decimal_last n Hn) as (s & b & -> & Hb). rewrite strip_suffix_snoc.
  destruct (Ascii.eqb u b) eqn:Hub; [|done]. apply Ascii.eqb_eq in Hub as ->.
  rewrite Hu in Hb. by destruct Hb.
Qed.

Lemma parse_digits_bounds (max acc n : Z) (s : string) :
  parse_digits max acc s = Some n → (0 ≤ acc ≤ max)%Z → (0 ≤ n ≤ max)%Z.
Proof.
  revert acc. induction s as [|a s IH]; intros acc; simpl; [by intros [= <-]|].
  unfold digit. destruct (_ && _) eqn:Hd; [|done]. apply andb_true_iff in Hd as [H1%Z.leb_le _].
  case_match eqn:Hm; [|done]. apply Z.leb_le in Hm. intros Hp Hacc. eapply IH; [done|]. lia.
Qed.

Lemma parse_unsigned_bounds (max n : Z) (s : string) :
  parse_unsigned max s = Some n → (0 ≤ max)%Z → (0 ≤ n ≤ max)%Z.
Proof.
  unfold parse_unsigned. intros Hp Hmax. repeat (case_match; try done);
    (eapply parse_digits_bounds; [done|lia]).
Qed.

(** What a duration of a number and a unit means *)
Definition unit_secs (u : Ascii.ascii) : Z :=
  if Ascii.eqb u "h" then 3600 else if Ascii.eqb u "m" then 60 else 1.

(** Durations: a number with the unit [h], [m] or [s], or without one, stands for that many
    hours, minutes or seconds, and an amount that does not fit 64 bits is an error instead of
    wrapping around; every accepted duration, however it is written, fits 64 bits. *)
Theorem durations_exact :
  (∀ n u, (0 ≤ n ≤ u64_max)%Z → u ∈ ["h"; "m"; "s"]%char →
     parse_duration_secs (decimal n +:+ String u "") =
       if (n * unit_secs u <=? u64_max)%Z then Ok (n * unit_secs u)%Z
       else Err (InvalidDefinition "duration overflow")) ∧
  (∀ n, (0 ≤ n ≤ u64_max)%Z → parse_duration_secs (decimal n) = Ok n) ∧
  ∀ s n, parse_duration_secs s = Ok n → (0 ≤ n ≤ u64_max)%Z.
Proof.
  split_and!.
  - intros n u Hn Hu. unfold parse_duration_secs.
    assert (u = "h" ∨ u = "m" ∨ u = "s")%char as [->|[->| ->]] by set_solver.
    all: rewrite trim_decimal_unit, !strip_unit by done.
    all: cbn [Ascii.eqb Bool.eqb]; rewrite trim_decimal, parse_u64_decimal by lia; try reflexivity.
    change (unit_secs "s") with 1%Z. rewrite Z.mul_1_r. by rewrite (proj2 (Z.leb_le _ _)) by lia.
  - intros n Hn. unfold parse_duration_secs. rewrite trim_decimal by lia.
    rewrite !strip_no_unit, parse_u64_decimal by (done || lia). done.
  - intros s n. unfold parse_duration_secs, checked_mul.
    repeat case_match; intros [= <-];
      repeat match goal with H : parse_u64 _ = Some _ |- _ => apply parse_unsigned_bounds in H; [|done] end;
      rewrite ?Z.leb_le in *; lia.
Qed.

(** ** Validation *)

Lemma chars_all_snoc (f : Ascii.ascii → bool) (s : string) (b : Ascii.ascii) :
  chars_all f (s +:+ String b "") = chars_all f s && f b.
Proof.
  unfold chars_all. induction s as [|a s IH]; simpl; [by rewrite andb_true_r|].
  simpl in IH. by rewrite IH, andb_assoc.
Qed.

Lemma trim_plain_word (s : string) : s ≠ "" → chars_all plain s = true → str_trim s = s.
Proof.
  intros Hs Hall. destruct (string_snoc s Hs) as (t & b & Heq).
  destruct s as [|a r]; [done|]. rewrite Heq in Hall |- *. pose proof Hall as Hb.
  rewrite chars_all_snoc in Hb. apply andb_true_iff in Hb as [_ Hb].
  apply (str_trim_plain t a b r); [|done|done].
  rewrite <- Heq in Hall. by apply andb_true_iff in Hall as [? _].
Qed.

Lemma valid_step_id_trim (id : string) : valid_step_id id = true → str_trim id ≠ "".
Proof.
  unfold valid_step_id. intros [[Hne _]%andb_true_iff Hall]%andb_true_iff.
  apply negb_true_iff, bool_decide_eq_false in Hne. rewrite trim_plain_word; [done|done|].
  revert Hall. unfold chars_all. rewrite !forallb_forall. intros Hall a Ha.
  specialize (Hall a Ha). destruct a as [[] [] [] [] [] [] [] []];
    first [discriminate Hall|reflexivity].
Qed.

Lemma check_steps_exact (l : list Step) (seen : gset string) :
  check_steps seen l = Ok tt ↔
    Forall (λ s, valid_step_id (step_id s) = true) l ∧ NoDup (step_id <$> l) ∧
    ∀ s, s ∈ l → step_id s ∉ seen.
Proof.
  revert seen. induction l as [|s l IH]; intros seen; simpl.
  { split; [|done]. intros _. split_and!; [constructor|constructor|]. by intros s ?%elem_of_nil. }
  destruct (valid_step_id (step_id s)) eqn:Hv.
  - pose proof (valid_step_id_trim _ Hv) as Ht. rewrite bool_decide_eq_false_2 by done. simpl.
    case_bool_decide as Hs; simpl.
    + split; [done|]. intros (_ & _ & Hn). exfalso. eapply (Hn s); [by left|done].
    + rewrite IH, Forall_cons, NoDup_cons, list_elem_of_fmap. setoid_rewrite elem_of_cons. split.
      * intros (Hf & Hd & Hn). split_and!; [done|done| | |].
        -- intros (s' & Heq & Hin). apply (Hn s' Hin). rewrite <- Heq. set_solver.
        -- done.
        -- intros s' [->|Hin]; [done|]. specialize (Hn s' Hin). set_solver.
      * intros ((_ & Hf) & (Hnin & Hd) & Hn). split_and!; [done|done|]. intros s' Hin.
        assert (step_id s' ≠ step_id s) by (intros Heq; apply Hnin; by exists s').
        specialize (Hn s' (or_intror Hin)). set_solver.
  - split; [by repeat case_match|]. intros (Hf & _). apply Forall_cons in Hf as [Hf _]. congruence.
Qed.

Section validated.
Context `{Cron}.

Record well_formed (d : WorkflowDef) : Prop := {
  wf_named : str_trim (wf_name d) ≠ "";
  wf_steps : steps d ≠ [];
  wf_ids : Forall (λ s, valid_step_id (step_id s) = true) (steps d);
  wf_distinct : NoDup (step_id <$> steps d);
  wf_reply : trigger_has_message (trigger d) = true ∨
             ∀ s, s ∈ steps d → replies_in_thread (action s) = false;
  wf_schedule : match trigger d with
    | Schedule (Some expr) None => is_Some (cron_parse (normalize_cron expr))
    | Schedule None (Some dur) => ∃ secs, parse_duration_secs dur = Ok secs ∧ (60 ≤ secs)%Z
    | Schedule _ _ => False
    | _ => True
    end
}.

Lemma validate_trigger_ok (t : TriggerDef) :
  validate_trigger t = Ok tt ↔
    match t with
    | Schedule (Some expr) None => is_Some (cron_parse (normalize_cron expr))
    | Schedule None (Some dur) => ∃ secs, parse_duration_secs dur = Ok secs ∧ (60 ≤ secs)%Z
    | Schedule _ _ => False
    | _ => True
    end.
Proof.
  destruct t as [| | |[expr|] [dur|]|]; try done; simpl.
  - unfold validate_cron. destruct (cron_parse _); [|by split; [|intros [? ?]]].
    split; [by eexists|done].
  - unfold validate_interval. destruct (parse_duration_secs dur) as [n|e]; simpl.
    + destruct (Z.leb_spec 60 n).
      * split; [|done]. intros _. by exists n.
      * split; [done|]. intros (m & [= ->] & ?). lia.
    + split; [done|]. by intros (m & ? & ?).
Qed.

(** C35 A definition is accepted exactly when it is well formed: it has a name and at least one
    step; the step ids are distinct words of at most 64 letters, digits and underscores; a
    step replies in the thread only under a trigger that carries a message; and a schedule
    has either a cron expression that parses or an interval of at least a minute. *)
Theorem validate_exact (d : WorkflowDef) : validate d = Ok tt ↔ well_formed d.
Proof.
  unfold validate. case_bool_decide as Hn; simpl; [by split; [|intros []]|].
  destruct (length (steps d) =? 0) eqn:Hl; simpl.
  { apply Nat.eqb_eq, nil_length_inv in Hl. by split; [|intros []]. }
  assert (steps d ≠ []) as Hs by (intros Heq; by rewrite Heq in Hl).
  pose proof (check_steps_exact (steps d) ∅) as Hc. destruct (check_steps ∅ (steps d)) as [[]|e].
  2: { split; [done|]. intros [_ _ Hi Hd _ _]. assert (@Err unit _ e = Ok tt); [|done].
       apply Hc. split_and!; [done|done|set_solver]. }
  destruct (proj1 Hc eq_refl) as (Hi & Hd & _).
  destruct (trigger_has_message (trigger d)) eqn:Ht; simpl.
  - rewrite validate_trigger_ok. split; [|by intros []]. intros Hsch. constructor; auto.
  - destruct (existsb _ _) eqn:He; simpl.
    + split; [done|]. intros [_ _ _ _ [?|Hr] _]; [congruence|].
      apply existsb_exists in He as (s & Hin & Hrep). rewrite Hr in Hrep; [done|].
      by apply list_elem_of_In.
    + rewrite validate_trigger_ok. split; [|by intros []]. intros Hsch. constructor; auto. right.
      intros s Hin. destruct (replies_in_thread (action s)) eqn:Hrep; [|done].
      rewrite <- He. symmetry. apply existsb_exists. exists s. split; [|done]. by apply list_elem_of_In.
Qed.

End validated.
