(* ===== verification/WorkflowTemplate.v ===== *)
(** * Templates (buzz-workflow/src/executor.rs: [TriggerContext], [resolve_template],
    [resolve_step_templates])

    Placeholders of a step's texts, resolved against the trigger and the outputs of the
    earlier steps. serde_json's printer and nostr's bech32 encoder are classes. *)

From S2P Require Import Prelude Text StdText Json Workflow.

Open Scope string_scope.
Open Scope nat_scope.
Open Scope list_scope.

Record TriggerContext := {
  text : string;
  author : string;
  ctx_channel_id : string;
  timestamp : string;
  emoji : string;
  message_id : string;
  is_reply : bool;
  webhook_fields : gmap string string
}.

(** [TriggerContext::default] *)
Definition empty_context : TriggerContext := {|
  text := ""; author := ""; ctx_channel_id := ""; timestamp := ""; emoji := ""; message_id := "";
  is_reply := false; webhook_fields := ∅ |}.

Definition get_field (c : TriggerContext) (name : string) : option string :=
  if decide (name = "text") then Some (text c)
  else if decide (name = "author") then Some (author c)
  else if decide (name = "channel_id") then Some (ctx_channel_id c)
  else if decide (name = "timestamp") then Some (timestamp c)
  else if decide (name = "emoji") then Some (emoji c)
  else if decide (name = "message_id") then Some (message_id c)
  else webhook_fields c !! name.

(** serde_json's [Display], and the bech32 form of a public key given in hex, if it is one *)
Class TemplateText := {
  json_text : Json → string;
  npub_of_hex : string → option string
}.

(** The iteration order of a [HashMap<String, _>] *)
Class StringHash := {
  hash_order : ∀ {A}, gmap string A → list (string * A);
  hash_order_perm : ∀ {A} (m : gmap string A), hash_order m ≡ₚ map_to_list m
}.

(** [str::find], with the text before and the text after the first occurrence *)
Fixpoint find_split (p s : string) : option (string * string) :=
  match strip_prefix p s with
  | Some rest => Some ("", rest)
  | None =>
      match s with
      | EmptyString => None
      | String a s => match find_split p s with Some (x, y) => Some (String a x, y) | None => None end
      end
  end.

(** [value.chars().take(n).collect()]: a byte that continues a character goes with it. *)
Fixpoint chars_take (n : Z) (s : string) : string :=
  match s with
  | EmptyString => ""
  | String a s =>
      if continuation a then String a (chars_take n s)
      else if (0 <? n)%Z then String a (chars_take (n - 1) s) else ""
  end.

Section template.
Context `{TemplateText}.

Definition json_to_string (v : Json) : string :=
  match v with
  | JString s => s
  | JBool b => if b then "true" else "false"
  | JNumber n => n
  | JNull => ""
  | other => json_text other
  end.

Definition json_get_str (v : Json) (key : string) : option string := json_to_string <$> json_get key v.

Definition resolve_variable (path : string) (c : TriggerContext) (step_outputs : gmap string Json)
    : option string :=
  match strip_prefix "trigger." path with
  | Some field => get_field c field
  | None =>
  match strip_prefix "steps." path with
  | Some rest =>
      '(step_id, rest) ← split_once "." rest;
      '(middle, field) ← split_once "." rest;
      if decide (middle ≠ "output") then None
      else output ← step_outputs !! step_id; json_get_str output field
  | None => None
  end
  end.

Definition apply_filter (value filter : string) : result string WorkflowError :=
  let filter := str_trim filter in
  match strip_prefix "truncate(" filter ≫= strip_suffix ")" with
  | Some inner =>
      match parse_u64 (str_trim inner) with
      | Some n => Ok (chars_take n value)
      | None => Err (TemplateError "truncate() requires a number")
      end
  | None =>
      if decide (filter = "npub" ∨ filter = "truncate_pubkey")
      then Ok (default value (npub_of_hex value))
      else Err (TemplateError "unknown filter")
  end.

(** What stands for [{{expr}}] in the result *)
Definition resolve_expr (c : TriggerContext) (step_outputs : gmap string Json) (expr : string)
    : result string WorkflowError :=
  let '(var_path, filter) :=
    match split_once "|" expr with
    | Some (v, f) => (str_trim v, Some (str_trim f))
    | None => (str_trim expr, None)
    end in
  match resolve_variable var_path c step_outputs, filter with
  | Some v, Some f => apply_filter v f
  | Some v, None => Ok v
  | None, _ => Ok ("{{" +:+ expr +:+ "}}")
  end.

(** The loop over [remaining]; every turn drops at least the two opening braces. *)
Fixpoint resolve_loop (fuel : nat) (c : TriggerContext) (step_outputs : gmap string Json)
    (remaining : string) : result string WorkflowError :=
  match fuel with
  | 0 => Ok remaining
  | S fuel =>
      match find_split "{{" remaining with
      | None => Ok remaining
      | Some (lit, rest) =>
          match find_split "}}" rest with
          | None => Ok (lit +:+ "{{" +:+ rest)
          | Some (inner, rest) =>
              value <-? resolve_expr c step_outputs (str_trim inner) ;;
              result <-? resolve_loop fuel c step_outputs rest ;;
              Ok (lit +:+ value +:+ result)
          end
      end
  end.

Definition resolve_template (template : string) (c : TriggerContext) (step_outputs : gmap string Json)
    : result string WorkflowError :=
  if negb (contains "{{" template) then Ok template
  else resolve_loop (String.length template) c step_outputs template.

Definition resolve_opt (template : option string) (c : TriggerContext) (outputs : gmap string Json)
    : result (option string) WorkflowError :=
  match template with
  | Some t => v <-? resolve_template t c outputs ;; Ok (Some v)
  | None => Ok None
  end.

Fixpoint resolve_headers (l : list (string * string)) (c : TriggerContext) (outputs : gmap string Json)
    (out : gmap string string) : result (gmap string string) WorkflowError :=
  match l with
  | [] => Ok out
  | (k, v) :: l =>
      v <-? resolve_template v c outputs ;; resolve_headers l c outputs (<[k := v]> out)
  end.

Definition resolve_step_templates `{StringHash} (a : ActionDef) (c : TriggerContext)
    (outputs : gmap string Json) : result ActionDef WorkflowError :=
  let t := λ s, resolve_template s c outputs in
  match a with
  | SendMessage text channel reply_in_thread =>
      text <-? t text ;; channel <-? resolve_opt channel c outputs ;;
      Ok (SendMessage text channel reply_in_thread)
  | SendDm to text => to <-? t to ;; text <-? t text ;; Ok (SendDm to text)
  | SetChannelTopic topic => topic <-? t topic ;; Ok (SetChannelTopic topic)
  | AddReaction emoji => emoji <-? t emoji ;; Ok (AddReaction emoji)
  | CallWebhook url method headers body =>
      headers <-? match headers with
                  | Some h => out <-? resolve_headers (hash_order h) c outputs ∅ ;; Ok (Some out)
                  | None => Ok None
                  end ;;
      url <-? t url ;; body <-? resolve_opt body c outputs ;;
      Ok (CallWebhook url method headers body)
  | RequestApproval from message timeout =>
      from <-? t from ;; message <-? t message ;; Ok (RequestApproval from message timeout)
  | Delay duration => Ok (Delay duration)
  end.

End template.

(** ** The specification: a template is a list of placeholders with the text before each, and
    the text after the last one *)

(** No [cc] begins in [s], even if [c] follows *)
Definition free_of (c : Ascii.ascii) (s : string) : Prop :=
  contains (String c (String c "")) (s +:+ String c "") = false.

Definition placeholders (l : list (string * string)) : string :=
  foldr (λ p s, p.1 +:+ "{{" +:+ p.2 +:+ "}}" +:+ s) "" l.

(** What may follow the last placeholder: text without [{{], or an unclosed [{{] *)
Definition tail_ok (t : string) : Prop :=
  contains "{{" t = false ∨
  ∃ lit rest, t = lit +:+ "{{" +:+ rest ∧ free_of "{" lit ∧ contains "}}" rest = false.

Definition template_of (l : list (string * string)) (t : string) : Prop :=
  Forall (λ p, free_of "{" p.1 ∧ free_of "}" p.2) l ∧ tail_ok t.

Section meaning.
Context `{TemplateText}.

(** The values of the placeholders, each in the place of its placeholder *)
Fixpoint fill (c : TriggerContext) (outputs : gmap string Json) (l : list (string * string))
    (t : string) : result string WorkflowError :=
  match l with
  | [] => Ok t
  | (lit, expr) :: l =>
      value <-? resolve_expr c outputs (str_trim expr) ;;
      result <-? fill c outputs l t ;;
      Ok (lit +:+ value +:+ result)
  end.
End meaning.

Lemma contains_cons (p : string) (a : Ascii.ascii) (s : string) :
  contains p (String a s) = starts_with p (String a s) || contains p s.
Proof. done. Qed.

Lemma append_cons (a : Ascii.ascii) (s t : string) : String a s +:+ t = String a (s +:+ t).
Proof. done. Qed.

Lemma append_nil (t : string) : "" +:+ t = t.
Proof. done. Qed.

Lemma starts_with_twice (c a : Ascii.ascii) (s : string) :
  starts_with (String c (String c "")) (String a s)
  = Ascii.eqb c a && match s with String b _ => Ascii.eqb c b | _ => false end.
Proof.
  unfold starts_with. rewrite strip_prefix_cons. destruct (Ascii.eqb c a); [|done].
  destruct s as [|b s]; [done|]. rewrite strip_prefix_cons. destruct (Ascii.eqb c b); done.
Qed.

Lemma find_split_twice (c : Ascii.ascii) (s x y : string) :
  find_split (String c (String c "")) s = Some (x, y) ↔
  s = x +:+ String c (String c y) ∧ free_of c x.
Proof.
  revert x y. induction s as [|a s IH]; intros x y.
  - simpl. split; [done|]. intros [Heq _]. by destruct x.
  - assert (strip_prefix (String c (String c "")) (String a s)
            = if Ascii.eqb c a then match s with
                | String b s' => if Ascii.eqb c b then Some s' else None
                | _ => None end else None) as Hp.
    { rewrite strip_prefix_cons. destruct (Ascii.eqb c a); [|done]. destruct s as [|b s']; [done|].
      rewrite strip_prefix_cons. by destruct (Ascii.eqb c b). }
    cbn [find_split]. rewrite Hp. clear Hp.
    destruct (Ascii.eqb c a && match s with String b _ => Ascii.eqb c b | _ => false end) eqn:Ht.
    + apply andb_true_iff in Ht as [Hca Ht]. rewrite Hca. apply Ascii.eqb_eq in Hca as <-.
      destruct s as [|b s']; [done|]. rewrite Ht. apply Ascii.eqb_eq in Ht as <-. split.
      * intros [= <- <-]. split; [done|]. unfold free_of.
        rewrite append_nil, contains_cons, starts_with_twice. by rewrite andb_false_r.
      * intros [Heq Hf]. destruct x as [|d [|e x]]; rewrite ?append_cons, ?append_nil in Heq.
        -- by injection Heq as ->.
        -- injection Heq as <- _. unfold free_of in Hf. rewrite ?append_cons, ?append_nil in Hf.
           rewrite contains_cons, starts_with_twice, Ascii.eqb_refl in Hf. done.
        -- injection Heq as <- <- _. unfold free_of in Hf. rewrite ?append_cons, ?append_nil in Hf.
           rewrite contains_cons, starts_with_twice, Ascii.eqb_refl in Hf. done.
    + assert (match (if Ascii.eqb c a then match s with
                | String b s' => if Ascii.eqb c b then Some s' else None
                | _ => None end else None) with
              | Some rest => Some ("", rest)
              | None => match find_split (String c (String c "")) s with
                        | Some (x, y) => Some (String a x, y) | None => None end
              end = match find_split (String c (String c "")) s with
                        | Some (x, y) => Some (String a x, y) | None => None end) as ->.
      { destruct (Ascii.eqb c a); [|done]. destruct s as [|b s']; [done|]. simpl in Ht. by rewrite Ht. }
      split.
      * destruct (find_split _ s) as [[x' y']|] eqn:Hs in |- *; [|done]. intros [= <- <-].
        apply IH in Hs as [-> Hf]. split; [done|]. unfold free_of in *.
        rewrite append_cons, contains_cons, starts_with_twice, Hf, orb_false_r.
        destruct x' as [|b x']; rewrite ?append_cons, ?append_nil in *; [|done].
        destruct (Ascii.eqb c a); [|done]. by rewrite Ascii.eqb_refl in Ht.
      * intros [Heq Hf]. destruct x as [|d x]; rewrite ?append_cons, ?append_nil in Heq.
        -- injection Heq as -> ->. simpl in Ht. by rewrite !Ascii.eqb_refl in Ht.
        -- injection Heq as -> ->. unfold free_of in Hf. rewrite ?append_cons, ?append_nil in Hf.
           rewrite contains_cons in Hf. apply orb_false_iff in Hf as [_ Hf].
           by rewrite (proj2 (IH x y)).
Qed.

Lemma find_split_none (p s : string) : find_split p s = None ↔ contains p s = false.
Proof.
  induction s as [|a s IH]; cbn [find_split contains]; unfold starts_with;
    destruct (strip_prefix p _); try done.
  simpl. rewrite <- IH. destruct (find_split p s) as [[x y]|]; done.
Qed.

Lemma append_assoc (s t u : string) : (s +:+ t) +:+ u = s +:+ (t +:+ u).
Proof. induction s as [|a s IH]; [done|]. rewrite !append_cons. by f_equal. Qed.

Lemma length_append (s t : string) : String.length (s +:+ t) = String.length s + String.length t.
Proof. induction s as [|a s IH]; [done|]. rewrite append_cons. simpl. by rewrite IH. Qed.

Lemma tail_of (t : string) :
  tail_ok t ↔ match find_split "{{" t with
              | Some (_, rest) => find_split "}}" rest = None | None => True end.
Proof.
  split.
  - intros [Hc|(lit & rest & -> & Hf & Hc)]; [by rewrite (proj2 (find_split_none _ _) Hc)|].
    rewrite (proj2 (find_split_twice "{" _ lit rest)); [by apply find_split_none|done].
  - destruct (find_split "{{" t) as [[lit rest]|] eqn:Hs; intros Hr.
    + apply find_split_twice in Hs as [-> Hf]. right. exists lit, rest.
      by rewrite <- find_split_none.
    + left. by apply find_split_none.
Qed.

Lemma first_placeholder (lit expr : string) (l : list (string * string)) (t : string) :
  free_of "{" lit → free_of "}" expr →
  find_split "{{" (placeholders ((lit, expr) :: l) +:+ t)
    = Some (lit, expr +:+ "}}" +:+ (placeholders l +:+ t))
  ∧ find_split "}}" (expr +:+ "}}" +:+ (placeholders l +:+ t)) = Some (expr, placeholders l +:+ t).
Proof.
  intros Hlit Hexpr. cbn [placeholders foldr fst snd]. fold (placeholders l). rewrite !append_assoc.
  split; [by apply (find_split_twice "{")|by apply (find_split_twice "}")].
Qed.

Lemma template_unique (l l' : list (string * string)) (t t' : string) :
  template_of l t → template_of l' t' → placeholders l +:+ t = placeholders l' +:+ t' →
  l = l' ∧ t = t'.
Proof.
  intros [Hl Ht] [Hl' Ht']. apply tail_of in Ht, Ht'. revert l' Hl'.
  induction Hl as [|[lit expr] l [Hlit Hexpr] ? IH]; intros l' Hl' Heq;
    destruct Hl' as [|[lit' expr'] l' [Hlit' Hexpr'] Hl'];
    cbn [fst snd] in *.
  - by rewrite !append_nil in Heq.
  - destruct (first_placeholder lit' expr' l' t') as [Hf Hg]; [done..|].
    rewrite <- Heq, append_nil in Hf. rewrite Hf in Ht. congruence.
  - destruct (first_placeholder lit expr l t) as [Hf Hg]; [done..|].
    rewrite Heq, append_nil in Hf. rewrite Hf in Ht'. congruence.
  - destruct (first_placeholder lit expr l t) as [Hf Hg]; [done..|].
    destruct (first_placeholder lit' expr' l' t') as [Hf' Hg']; [done..|].
    rewrite Heq, Hf' in Hf. injection Hf as <- Hr. rewrite <- Hr, Hg' in Hg. injection Hg as <- Hr'.
    destruct (IH l' Hl') as [-> ->]; [by symmetry|]. done.
Qed.

Section meaning_lemmas.
Context `{TemplateText}.

Lemma loop_fill (c : TriggerContext) (outputs : gmap string Json) (l : list (string * string))
    (t : string) (fuel : nat) :
  String.length (placeholders l +:+ t) ≤ fuel → template_of l t →
  resolve_loop fuel c outputs (placeholders l +:+ t) = fill c outputs l t.
Proof.
  intros Hlen [Hl Ht]. revert fuel Hlen.
  induction Hl as [|[lit expr] l [Hlit Hexpr] _ IH]; intros fuel Hlen.
  - apply tail_of in Ht. cbn [placeholders foldr fill]. rewrite append_nil.
    destruct fuel as [|fuel]; [done|]. cbn [resolve_loop].
    destruct (find_split "{{" t) as [[lit rest]|] eqn:Hs; [|done]. rewrite Ht.
    apply (find_split_twice "{") in Hs as [-> _]. done.
  - destruct (first_placeholder lit expr l t) as [Hf Hg]; [done..|].
    destruct fuel as [|fuel].
    { cbn [placeholders foldr fst snd] in Hlen. rewrite !length_append in Hlen. simpl in Hlen. lia. }
    cbn [resolve_loop]. rewrite Hf, Hg. cbn [fill].
    destruct (resolve_expr _ _ _); [|done]. cbn. rewrite IH; [done|].
    cbn [placeholders foldr fst snd] in Hlen. rewrite !length_append in Hlen. simpl in Hlen.
    rewrite !length_append. unfold placeholders. lia.
Qed.

Lemma template_split (n : nat) (s : string) :
  String.length s ≤ n → ∃ l t, s = placeholders l +:+ t ∧ template_of l t.
Proof.
  revert s. induction n as [|n IH]; intros s Hn.
  - exists [], s. split; [done|]. split; [done|]. destruct s; [by left|simpl in Hn; lia].
  - destruct (find_split "{{" s) as [[lit rest]|] eqn:Hs.
    + destruct (find_split "}}" rest) as [[expr rest']|] eqn:Hr.
      * apply (find_split_twice "{") in Hs as [-> Hlit]. apply (find_split_twice "}") in Hr as [-> Hexpr].
        destruct (IH rest') as (l & t & -> & Hl & Ht).
        { rewrite !length_append in Hn. simpl in Hn. rewrite length_append in Hn. simpl in Hn. lia. }
        exists ((lit, expr) :: l), t. split; [|split; [by constructor|done]].
        cbn [placeholders foldr fst snd]. by rewrite !append_assoc.
      * exists [], s. split; [done|]. split; [done|]. apply tail_of. by rewrite Hs.
    + exists [], s. split; [done|]. split; [done|]. apply tail_of. by rewrite Hs.
Qed.

(** Templates are filled in one pass. Every template is, in exactly one way, a list of
    placeholders [{{expr}}] with the text before each and a last text in which nothing is left
    to resolve; its resolution is the texts as they are with the value of each placeholder in
    its place, or the error of the first placeholder that has one. The values are not read
    again: a message text that holds [{{steps.x.output.y}}] is copied, not resolved. *)
Theorem template_exact (c : TriggerContext) (outputs : gmap string Json) (template : string) :
  ∃ l t, template = placeholders l +:+ t ∧ template_of l t
         ∧ resolve_template template c outputs = fill c outputs l t
         ∧ ∀ l' t', template = placeholders l' +:+ t' → template_of l' t' → l' = l ∧ t' = t.
Proof.
  destruct (template_split (String.length template) template) as (l & t & -> & Hl); [done|].
  exists l, t. split; [done|]. split; [done|]. split.
  - unfold resolve_template. destruct (contains "{{" (placeholders l +:+ t)) eqn:Hc; simpl.
    + by apply loop_fill.
    + apply find_split_none in Hc. destruct l as [|[lit expr] l]; [by rewrite append_nil|].
      exfalso. destruct Hl as [Hl _]. apply Forall_cons in Hl as [[Hlit _] _].
      cbn [placeholders foldr fst snd] in Hc. rewrite !append_assoc in Hc.
      by rewrite (proj2 (find_split_twice "{" _ lit (expr +:+ "}}" +:+ placeholders l +:+ t))) in Hc.
  - intros l' t' Heq Hl'. by destruct (template_unique l l' t t') as [-> ->].
Qed.

End meaning_lemmas.
