(* ===== verification/WorkflowCondition.v ===== *)
(** * Conditions (buzz-workflow/src/executor.rs: [build_eval_context], [json_value_to_eval],
    [evaluate_condition])

    The variables a condition is evaluated in. The evalexpr crate is a class: its context is
    type-safe, as its documentation says, so a variable keeps the type of its first value. *)

From S2P Require Import Prelude Text StdText Json Workflow WorkflowTemplate.

Open Scope string_scope.
Open Scope nat_scope.
Open Scope list_scope.

(** [evalexpr::Value] *)
Inductive EvValue :=
  | EvString (s : string)
  | EvFloat (bits : N)
  | EvInt (n : Z)
  | EvBoolean (b : bool)
  | EvTuple (l : list EvValue)
  | EvEmpty.

(** [ValueType::from] *)
Definition value_type (v : EvValue) : nat :=
  match v with
  | EvString _ => 0 | EvFloat _ => 1 | EvInt _ => 2 | EvBoolean _ => 3 | EvTuple _ => 4
  | EvEmpty => 5
  end.

(** evalexpr's context and evaluation, with the accessors of [Value] its functions use;
    [as_i64] and [as_f64] of serde_json's numbers *)
Class EvalExpr := {
  EvContext : Type;
  ev_new : EvContext;
  ev_set_function : EvContext → string → (EvValue → option EvValue) → option EvContext;
  ev_set_value : EvContext → string → EvValue → option EvContext;
  ev_get_value : EvContext → string → option EvValue;
  as_fixed_len_tuple : EvValue → nat → option (list EvValue);
  as_string : EvValue → option string;
  eval_boolean_with_context : string → EvContext → option bool;
  as_i64 : string → option Z;
  as_f64 : string → option N
}.

Class EvalExprLaws `{EvalExpr} := {
  ev_get_new : ∀ x, ev_get_value ev_new x = None;
  ev_set_function_ok : ∀ c f g,
    ∃ c', ev_set_function c f g = Some c' ∧ ∀ x, ev_get_value c' x = ev_get_value c x;
  (** A new variable, or a value of the type the variable has *)
  ev_set_value_ok : ∀ c x v,
    (∀ w, ev_get_value c x = Some w → value_type w = value_type v) →
    ∃ c', ev_set_value c x v = Some c'
          ∧ ∀ y, ev_get_value c' y = if decide (y = x) then Some v else ev_get_value c y;
  ev_set_value_type : ∀ c x v w,
    ev_get_value c x = Some w → value_type w ≠ value_type v → ev_set_value c x v = None
}.

Section condition.
Context `{TemplateText} `{StringHash} `{EvalExpr}.

(** [args[i].as_string()] of a two-element tuple *)
Definition two_strings (args : EvValue) : option (string * string) :=
  args ← as_fixed_len_tuple args 2;
  x ← args !! 0; x ← as_string x;
  y ← args !! 1; y ← as_string y;
  Some (x, y).

Definition str_contains (args : EvValue) : option EvValue :=
  '(haystack, needle) ← two_strings args; Some (EvBoolean (contains needle haystack)).
Definition str_starts_with (args : EvValue) : option EvValue :=
  '(s, prefix) ← two_strings args; Some (EvBoolean (starts_with prefix s)).
Definition str_ends_with (args : EvValue) : option EvValue :=
  '(s, suffix) ← two_strings args; Some (EvBoolean (ends_with suffix s)).
Definition str_len (arg : EvValue) : option EvValue :=
  s ← as_string arg; Some (EvInt (Z.of_nat (String.length s))).

Definition condition_error {A} (e : string) (o : option A) : result A WorkflowError :=
  match o with Some x => Ok x | None => Err (ConditionError e) end.

Definition set_function (c : EvContext) (name : string) (f : EvValue → option EvValue) :=
  condition_error "set_function" (ev_set_function c name f).
Definition set_value (c : EvContext) (name : string) (v : EvValue) :=
  condition_error "set_value" (ev_set_value c name v).

Definition json_value_to_eval (v : Json) : EvValue :=
  match v with
  | JString s => EvString s
  | JBool b => EvBoolean b
  | JNumber n =>
      match as_i64 n with
      | Some i => EvInt i
      | None => match as_f64 n with Some f => EvFloat f | None => EvString n end
      end
  | JNull => EvEmpty
  | other => EvString (json_text other)
  end.

(** The loop [for (name, val) in ... { ctx.set_value(name, val)? }] *)
Fixpoint set_values (c : EvContext) (l : list (string * EvValue)) : result EvContext WorkflowError :=
  match l with
  | [] => Ok c
  | (name, v) :: l => c <-? set_value c name v ;; set_values c l
  end.

(** The fields of the webhook body that become variables *)
Definition webhook_values (l : list (string * string)) : list (string * EvValue) :=
  (λ '(key, val), ("trigger_" +:+ key, EvString val))
    <$> filter (λ x, ¬ (starts_with "trigger_" x.1 = true ∨ starts_with "steps_" x.1 = true)) l.

Definition trigger_values (t : TriggerContext) : list (string * EvValue) :=
  [("trigger_text", EvString (text t)); ("trigger_author", EvString (author t));
   ("trigger_channel_id", EvString (ctx_channel_id t));
   ("trigger_timestamp", EvString (timestamp t)); ("trigger_emoji", EvString (emoji t));
   ("trigger_message_id", EvString (message_id t));
   ("trigger_is_reply", EvBoolean (is_reply t))].

Definition output_values (l : list (string * Json)) : list (string * EvValue) :=
  '(step_id, output) ← l;
  match output with
  | JObject map =>
      (λ '(field, val), ("steps_" +:+ step_id +:+ "_output_" +:+ field, json_value_to_eval val))
        <$> map
  | _ => []
  end.

Definition build_eval_context (trigger_ctx : TriggerContext) (step_outputs : gmap string Json)
    : result EvContext WorkflowError :=
  ctx <-? set_function ev_new "str_contains" str_contains ;;
  ctx <-? set_function ctx "str_starts_with" str_starts_with ;;
  ctx <-? set_function ctx "str_ends_with" str_ends_with ;;
  ctx <-? set_function ctx "str_len" str_len ;;
  ctx <-? set_values ctx (webhook_values (hash_order (webhook_fields trigger_ctx))) ;;
  ctx <-? set_values ctx (trigger_values trigger_ctx) ;;
  set_values ctx (output_values (hash_order step_outputs)).

Definition MAX_EXPR_LEN : nat := Z.to_nat 4096.

(** What the blocking task came to within [EVAL_TIMEOUT] *)
Inductive EvalTask := TimedOut | Panicked | Evaluated.

Definition evaluate_condition (task : EvalTask) (expr : string) (trigger_ctx : TriggerContext)
    (step_outputs : gmap string Json) : result bool WorkflowError :=
  ctx <-? build_eval_context trigger_ctx step_outputs ;;
  guard! negb (MAX_EXPR_LEN <? String.length expr)
    else ConditionError "condition expression exceeds byte limit" ;;
  match task with
  | TimedOut => Err (ConditionError "evaluation timed out")
  | Panicked => Err (ConditionError "eval task panicked")
  | Evaluated => condition_error "eval" (eval_boolean_with_context expr ctx)
  end.

End condition.

(** ** The specification: which variables a condition sees *)

(** The last value that a list of assignments gives to a variable *)
Fixpoint latest (x : string) (l : list (string * EvValue)) : option EvValue :=
  match l with
  | [] => None
  | (y, v) :: l => match latest x l with Some w => Some w | None => if decide (y = x) then Some v else None end
  end.

Definition reserved (key : string) : Prop :=
  starts_with "trigger_" key = true ∨ starts_with "steps_" key = true.
#[export] Instance reserved_dec (key : string) : Decision (reserved key).
Proof. unfold reserved. apply _. Defined.

(** A variable whose name is not that of a step output: the trigger's own fields first, then
    the fields of the webhook body *)
Definition trigger_variable (t : TriggerContext) (x : string) : option EvValue :=
  match latest x (trigger_values t) with
  | Some v => Some v
  | None =>
      key ← strip_prefix "trigger_" x;
      if decide (reserved key) then None else EvString <$> webhook_fields t !! key
  end.

Definition same_types (l : list (string * EvValue)) : Prop :=
  ∀ x v w, (x, v) ∈ l → (x, w) ∈ l → value_type v = value_type w.

Lemma latest_elem (x : string) (v : EvValue) (l : list (string * EvValue)) :
  latest x l = Some v → (x, v) ∈ l.
Proof.
  induction l as [|[y w] l IH]; [done|]. simpl. destruct (latest x l) as [u|] eqn:Hl.
  - intros [= <-]. right. by apply IH.
  - case_decide as Hy; [|done]. intros [= <-]. subst. by left.
Qed.

Lemma latest_none (x : string) (l : list (string * EvValue)) :
  latest x l = None ↔ ∀ v, (x, v) ∉ l.
Proof.
  induction l as [|[y w] l IH]; simpl; [set_solver|]. destruct (latest x l) as [u|] eqn:Hl.
  - split; [done|]. intros Hn. destruct (Hn u). right. by apply latest_elem.
  - pose proof (proj1 IH eq_refl) as Hnone. case_decide as Hy.
    + split; [done|]. intros Hn. subst. destruct (Hn w). by left.
    + split; [|done]. intros _ v [?|?]%elem_of_cons; [congruence|by eapply Hnone].
Qed.

(** With one value per name, the latest is that value. *)
Lemma latest_unique (x : string) (v : EvValue) (l : list (string * EvValue)) :
  (∀ w, (x, w) ∈ l → w = v) → (x, v) ∈ l → latest x l = Some v.
Proof.
  intros Hu Hv. destruct (latest x l) as [w|] eqn:Hl.
  - by rewrite (Hu w (latest_elem _ _ _ Hl)).
  - by destruct (proj1 (latest_none _ _) Hl v).
Qed.

Section condition_lemmas.
Context `{TemplateText} `{StringHash} `{EvalExprLaws}.

Definition accepts (c : EvContext) (l : list (string * EvValue)) : Prop :=
  same_types l ∧ ∀ x v w, (x, v) ∈ l → ev_get_value c x = Some w → value_type w = value_type v.

Definition values_after (c : EvContext) (l : list (string * EvValue)) (y : string) : option EvValue :=
  match latest y l with Some v => Some v | None => ev_get_value c y end.

Lemma set_value_cases (c : EvContext) (x : string) (v : EvValue) :
  (∃ c', set_value c x v = Ok c' ∧ (∀ w, ev_get_value c x = Some w → value_type w = value_type v)
         ∧ ∀ y, ev_get_value c' y = if decide (y = x) then Some v else ev_get_value c y)
  ∨ ∃ w, set_value c x v = Err (ConditionError "set_value")
         ∧ ev_get_value c x = Some w ∧ value_type w ≠ value_type v.
Proof.
  unfold set_value. destruct (ev_get_value c x) as [w|] eqn:Hw.
  - destruct (decide (value_type w = value_type v)) as [Ht|Ht].
    + destruct (ev_set_value_ok c x v) as (c' & -> & Hc'); [naive_solver|]. left. exists c'. naive_solver.
    + right. exists w. by rewrite (ev_set_value_type c x v w).
  - destruct (ev_set_value_ok c x v) as (c' & -> & Hc'); [naive_solver|]. left. exists c'. naive_solver.
Qed.

Lemma accepts_cons (c c' : EvContext) (x : string) (v : EvValue) (l : list (string * EvValue)) :
  (∀ w, ev_get_value c x = Some w → value_type w = value_type v) →
  (∀ y, ev_get_value c' y = if decide (y = x) then Some v else ev_get_value c y) →
  accepts c ((x, v) :: l) ↔ accepts c' l.
Proof.
  intros Hx Hc'. split.
  - intros [Hs Hc]. split.
    + intros y u w Hu Hw. eapply Hs; by right.
    + intros y u w Hu. rewrite Hc'. case_decide as Hy.
      * intros [= <-]. subst. apply (Hs x); [by left|by right].
      * apply Hc. by right.
  - intros [Hs Hc]. assert (∀ u, (x, u) ∈ l → value_type v = value_type u) as Hv.
    { intros u Hu. apply (Hc x u v Hu). rewrite Hc'. by rewrite decide_True. }
    split.
    + intros y u w [[= -> ->]|Hu]%elem_of_cons [Hy|Hw]%elem_of_cons; simplify_eq; [done|..].
      * by apply Hv.
      * symmetry. by apply Hv.
      * by eapply Hs.
    + intros y u w [[= -> ->]|Hu]%elem_of_cons Hw; [by apply Hx|].
      destruct (decide (y = x)) as [->|Hy].
      * rewrite (Hx w Hw). by apply Hv.
      * apply (Hc y u w Hu). rewrite Hc'. by rewrite decide_False.
Qed.

Lemma set_values_ok (c : EvContext) (l : list (string * EvValue)) :
  accepts c l → ∃ c', set_values c l = Ok c' ∧ ∀ y, ev_get_value c' y = values_after c l y.
Proof.
  revert c. induction l as [|[x v] l IH]; intros c Ha; simpl; [by exists c|].
  destruct (set_value_cases c x v) as [(c' & -> & Hx & Hc')|(w & _ & Hw & Ht)].
  - destruct (IH c') as (c'' & -> & Hy); [by apply (accepts_cons c c' x v l)|]. exists c''. split; [done|].
    intros y. rewrite Hy. unfold values_after. simpl. destruct (latest y l); [done|]. rewrite Hc'.
    by repeat case_decide; subst.
  - destruct Ht. apply (proj2 Ha x); [by left|done].
Qed.

Lemma set_values_err (c : EvContext) (l : list (string * EvValue)) :
  ¬ accepts c l → set_values c l = Err (ConditionError "set_value").
Proof.
  revert c. induction l as [|[x v] l IH]; intros c Ha; simpl.
  - destruct Ha. split; intros ???; set_solver.
  - destruct (set_value_cases c x v) as [(c' & -> & Hx & Hc')|(w & -> & _)]; [|done].
    apply IH. by rewrite <- (accepts_cons c c' x v l).
Qed.

Lemma elem_of_webhook_values (m : gmap string string) (x : string) (v : EvValue) :
  (x, v) ∈ webhook_values (hash_order m) ↔
  ∃ key val, x = "trigger_" +:+ key ∧ v = EvString val ∧ ¬ reserved key ∧ m !! key = Some val.
Proof.
  unfold webhook_values. rewrite list_elem_of_fmap. split.
  - intros ([key val] & [= -> ->] & Hin). apply list_elem_of_filter in Hin as [Hr Hin].
    rewrite hash_order_perm, elem_of_map_to_list in Hin. by exists key, val.
  - intros (key & val & -> & -> & Hr & Hm). exists (key, val). split; [done|].
    apply list_elem_of_filter. split; [done|]. by rewrite hash_order_perm, elem_of_map_to_list.
Qed.

Lemma latest_webhook (m : gmap string string) (x : string) :
  latest x (webhook_values (hash_order m))
  = (key ← strip_prefix "trigger_" x;
     if decide (reserved key) then None else EvString <$> m !! key).
Proof.
  destruct (strip_prefix "trigger_" x) as [key|] eqn:Hx; simpl.
  - apply strip_prefix_Some in Hx as ->. case_decide as Hr.
    + apply latest_none. intros v (key' & val & Heq & _ & Hr' & _)%elem_of_webhook_values.
      by apply (inj (String.append "trigger_")) in Heq as <-.
    + destruct (m !! key) as [val|] eqn:Hm; simpl.
      * apply latest_unique.
        -- intros w (key' & val' & Heq & -> & _ & Hm')%elem_of_webhook_values.
           apply (inj (String.append "trigger_")) in Heq as <-. congruence.
        -- apply elem_of_webhook_values. by exists key, val.
      * apply latest_none. intros v (key' & val & Heq & _ & _ & Hm')%elem_of_webhook_values.
        apply (inj (String.append "trigger_")) in Heq as <-. congruence.
  - apply latest_none. intros v (key' & val & -> & _)%elem_of_webhook_values.
    by rewrite strip_prefix_app in Hx.
Qed.

Lemma trigger_values_types (t : TriggerContext) : same_types (trigger_values t).
Proof.
  intros x v w Hv Hw. unfold trigger_values in *. rewrite !elem_of_cons, elem_of_nil in Hv, Hw.
  naive_solver.
Qed.

Lemma output_values_steps (l : list (string * Json)) (x : string) (v : EvValue) :
  (x, v) ∈ output_values l → starts_with "steps_" x = true.
Proof.
  unfold output_values. intros ([sid output] & Hin & _)%list_elem_of_bind.
  destruct output; try by apply elem_of_nil in Hin.
  apply list_elem_of_fmap in Hin as ([field val] & [= -> _] & _). unfold starts_with.
  by rewrite strip_prefix_app, bool_decide_true by eauto.
Qed.

Lemma latest_trigger_steps (t : TriggerContext) (x : string) :
  starts_with "steps_" x = true → trigger_variable t x = None.
Proof.
  unfold starts_with. intros [r Hr]%bool_decide_eq_true. apply strip_prefix_Some in Hr as ->. done.
Qed.

(** The trigger's fields are accepted after the body's exactly when no field of the body takes
    the name of the one variable that is not a string. *)
Lemma accepts_trigger (c : EvContext) (t : TriggerContext) :
  (∀ y, ev_get_value c y = latest y (webhook_values (hash_order (webhook_fields t)))) →
  accepts c (trigger_values t) ↔ webhook_fields t !! "is_reply" = None.
Proof.
  intros Hc. split.
  - intros [_ Ha]. destruct (webhook_fields t !! "is_reply") as [s|] eqn:Hs; [|done]. exfalso.
    assert (ev_get_value c "trigger_is_reply" = Some (EvString s)) as Hg.
    { rewrite Hc, latest_webhook. simpl. by rewrite Hs. }
    assert (("trigger_is_reply", EvBoolean (is_reply t)) ∈ trigger_values t) as Hin
      by (unfold trigger_values; set_solver).
    by specialize (Ha _ _ _ Hin Hg).
  - intros Hs. split; [apply trigger_values_types|]. intros x v w Hv. rewrite Hc, latest_webhook.
    unfold trigger_values in Hv. rewrite !elem_of_cons, elem_of_nil in Hv.
    destruct Hv as [[= -> ->]|[[= -> ->]|[[= -> ->]|[[= -> ->]|[[= -> ->]|[[= -> ->]|[[= -> ->]|[]]]]]]]];
      simpl; rewrite ?Hs; intros Hw; [..|done];
      by apply fmap_Some in Hw as (s & _ & ->).
Qed.

(** A condition is evaluated in exactly these variables: the trigger's own fields under
    their names, whatever a webhook body holds; the other fields of the body under
    [trigger_] and their names, except those that begin like the names of other variables; and
    the fields of the step outputs under names that begin with [steps_]. The context can be
    built unless two output fields with one name have different types, or the body has a field
    [is_reply]: that field takes the name of the boolean variable first, as a string, so that
    every condition of such a run is an error. *)
Theorem conditions_see_trigger (t : TriggerContext) (outputs : gmap string Json) :
  let steps := output_values (hash_order outputs) in
  if decide (webhook_fields t !! "is_reply" = None)
  then (same_types steps →
        ∃ ctx, build_eval_context t outputs = Ok ctx ∧
          ∀ x, ev_get_value ctx x = if starts_with "steps_" x then latest x steps
                                    else trigger_variable t x)
       ∧ (¬ same_types steps → ∃ e, build_eval_context t outputs = Err (ConditionError e))
  else ∃ e, build_eval_context t outputs = Err (ConditionError e).
Proof.
  intros steps. unfold build_eval_context, set_function, condition_error.
  destruct (ev_set_function_ok ev_new "str_contains" str_contains) as (c1 & -> & G1).
  cbn beta iota.
  destruct (ev_set_function_ok c1 "str_starts_with" str_starts_with) as (c2 & -> & G2).
  cbn beta iota.
  destruct (ev_set_function_ok c2 "str_ends_with" str_ends_with) as (c3 & -> & G3).
  cbn beta iota.
  destruct (ev_set_function_ok c3 "str_len" str_len) as (c4 & -> & G4).
  cbn beta iota.
  assert (∀ y, ev_get_value c4 y = None) as Hnone.
  { intros y. by rewrite G4, G3, G2, G1, ev_get_new. }
  destruct (set_values_ok c4 (webhook_values (hash_order (webhook_fields t)))) as (c5 & -> & G5).
  { split.
    - intros x v w (?&?&_&->&_)%elem_of_webhook_values (?&?&_&->&_)%elem_of_webhook_values. done.
    - intros x v w _. by rewrite Hnone. }
  cbn beta iota.
  assert (∀ y, ev_get_value c5 y = latest y (webhook_values (hash_order (webhook_fields t)))) as G5'.
  { intros y. rewrite G5. unfold values_after. rewrite Hnone. by destruct (latest _ _). }
  case_decide as Hr.
  - destruct (set_values_ok c5 (trigger_values t)) as (c6 & -> & G6); [by apply accepts_trigger|].
    cbn beta iota.
    assert (∀ y, ev_get_value c6 y = trigger_variable t y) as G6'.
    { intros y. rewrite G6. unfold values_after, trigger_variable. by rewrite G5', latest_webhook. }
    assert (accepts c6 steps ↔ same_types steps) as Hacc.
    { split; [by intros []|]. intros Hs. split; [done|]. intros x v w Hv%output_values_steps.
      rewrite G6', latest_trigger_steps by done. done. }
    fold steps. split; intros Hs.
    + destruct (set_values_ok c6 steps) as (c7 & -> & G7); [by apply Hacc|]. exists c7.
      split; [done|]. intros x. rewrite G7. unfold values_after. rewrite G6'.
      destruct (starts_with "steps_" x) eqn:Hx.
      * rewrite latest_trigger_steps by done. by destruct (latest x steps).
      * destruct (latest x steps) eqn:Hl; [|done].
        apply latest_elem, output_values_steps in Hl. congruence.
    + exists "set_value". apply set_values_err. by rewrite Hacc.
  - exists "set_value". rewrite set_values_err; [done|]. by rewrite accepts_trigger.
Qed.

End condition_lemmas.

(** ** A concrete instance: a context is its assignments, an expression the name of a variable *)

Definition ev_lookup (c : list (string * EvValue)) (x : string) : option EvValue := latest x c.

Definition concrete_set (c : list (string * EvValue)) (x : string) (v : EvValue) :
    option (list (string * EvValue)) :=
  match latest x c with
  | Some w => if decide (value_type w = value_type v) then Some (c ++ [(x, v)]) else None
  | None => Some (c ++ [(x, v)])
  end.

Definition concrete_expr : EvalExpr := {|
  EvContext := list (string * EvValue);
  ev_new := [];
  ev_set_function := λ c _ _, Some c;
  ev_set_value := concrete_set;
  ev_get_value := ev_lookup;
  as_fixed_len_tuple := λ v n, match v with EvTuple l => if length l =? n then Some l else None | _ => None end;
  as_string := λ v, match v with EvString s => Some s | _ => None end;
  eval_boolean_with_context := λ x c, match latest x c with Some (EvBoolean b) => Some b | _ => None end;
  as_i64 := λ s, parse_u64 s;
  as_f64 := λ _, None |}.

Lemma latest_snoc (c : list (string * EvValue)) (x y : string) (v : EvValue) :
  latest y (c ++ [(x, v)]) = if decide (y = x) then Some v else latest y c.
Proof.
  induction c as [|[z w] c IH]; simpl; [by repeat case_decide; subst|]. rewrite IH.
  by repeat case_decide.
Qed.

Lemma concrete_expr_laws : @EvalExprLaws concrete_expr.
Proof.
  split; simpl; unfold ev_lookup, concrete_set.
  - done.
  - intros c f g. by exists c.
  - intros c x v Ht. exists (c ++ [(x, v)]). split.
    + destruct (latest x c) as [w|]; [|done]. rewrite decide_True; [done|]. by apply Ht.
    + intros y. apply latest_snoc.
  - intros c x v w -> Ht. by rewrite decide_False.
Qed.

Definition concrete_text : TemplateText := {| json_text := λ _, "json"; npub_of_hex := λ _, None |}.
Definition concrete_hash : StringHash := {| hash_order := λ A, map_to_list; hash_order_perm := λ _ _, reflexivity _ |}.

Definition webhook_context : TriggerContext := {|
  text := "hi"; author := "a"; ctx_channel_id := ""; timestamp := ""; emoji := ""; message_id := "";
  is_reply := false; webhook_fields := <["text" := "spoofed"]> (<["trigger_author" := "b"]> {["ref" := "main"]}) |}.

Lemma conditions_see_trigger_witness :
  (∃ ctx, @build_eval_context concrete_text concrete_hash concrete_expr webhook_context ∅ = Ok ctx
          ∧ @ev_get_value concrete_expr ctx "trigger_text" = Some (EvString "hi")
          ∧ @ev_get_value concrete_expr ctx "trigger_ref" = Some (EvString "main")
          ∧ @ev_get_value concrete_expr ctx "trigger_trigger_author" = None)
  ∧ ∃ e, @build_eval_context concrete_text concrete_hash concrete_expr
           {| text := ""; author := ""; ctx_channel_id := ""; timestamp := ""; emoji := "";
              message_id := ""; is_reply := false; webhook_fields := {["is_reply" := "no"]} |} ∅
         = Err (ConditionError e).
Proof.
  pose proof (@conditions_see_trigger concrete_text concrete_hash concrete_expr concrete_expr_laws) as Hc.
  split.
  - destruct (Hc webhook_context ∅) as [Hok _]. destruct Hok as (ctx & Hctx & Hx).
    + intros x v w Hv. exfalso. exact (not_elem_of_nil _ Hv).
    + exists ctx. split; [exact Hctx|]. split; [by rewrite Hx|]. split; by rewrite Hx.
  - exact (Hc {| text := ""; author := ""; ctx_channel_id := ""; timestamp := ""; emoji := "";
              message_id := ""; is_reply := false; webhook_fields := {["is_reply" := "no"]} |} ∅).
Defined.
