(* ===== verification/WorkflowDb.v ===== *)
(** * Workflow tables (buzz-db/src/workflow.rs)

    The rows of the workflow tables and the statements on them, each as the function it
    computes on the tables. Rows are keyed by their primary keys; instants count nanoseconds;
    the database's [NOW()] and fresh ids are arguments. [None] of an update is the statement
    that touched no row. *)

From S2P Require Import Prelude Text StdText Json.

Open Scope string_scope.
Open Scope nat_scope.
Open Scope list_scope.

Abbreviation Uuid := N (only parsing).
Abbreviation CommunityId := N (only parsing).
Abbreviation Bytes := (list Z) (only parsing).
Abbreviation DateTime := Z (only parsing).

(** buzz-db/src/error.rs, as far as the workflow code can meet it *)
Inductive DbError :=
  | Sqlx (e : string)
  | NotFound (e : string)
  | AccessDenied (e : string)
  | InvalidData (e : string).

Definition LIST_DEFAULT_LIMIT : Z := 100.
Definition LIST_MAX_LIMIT : Z := 1000.

(** ** Status enums *)

Inductive WorkflowStatus := Active | Disabled | Archived.
#[export] Instance WorkflowStatus_eq_dec : EqDecision WorkflowStatus.
Proof. solve_decision. Defined.

Inductive RunStatus := RunPending | Running | WaitingApproval | Completed | Failed | Cancelled.
#[export] Instance RunStatus_eq_dec : EqDecision RunStatus.
Proof. solve_decision. Defined.

Inductive ApprovalStatus := Pending | Granted | Denied | Expired.
#[export] Instance ApprovalStatus_eq_dec : EqDecision ApprovalStatus.
Proof. solve_decision. Defined.

Definition workflow_status_text (s : WorkflowStatus) : string :=
  match s with Active => "active" | Disabled => "disabled" | Archived => "archived" end.

Definition workflow_status_parse (s : string) : result WorkflowStatus DbError :=
  if decide (s = "active") then Ok Active
  else if decide (s = "disabled") then Ok Disabled
  else if decide (s = "archived") then Ok Archived
  else Err (InvalidData "unknown workflow status").

Definition run_status_text (s : RunStatus) : string :=
  match s with
  | RunPending => "pending" | Running => "running" | WaitingApproval => "waiting_approval"
  | Completed => "completed" | Failed => "failed" | Cancelled => "cancelled"
  end.

Definition run_status_parse (s : string) : result RunStatus DbError :=
  if decide (s = "pending") then Ok RunPending
  else if decide (s = "running") then Ok Running
  else if decide (s = "waiting_approval") then Ok WaitingApproval
  else if decide (s = "completed") then Ok Completed
  else if decide (s = "failed") then Ok Failed
  else if decide (s = "cancelled") then Ok Cancelled
  else Err (InvalidData "unknown run status").

Definition approval_status_text (s : ApprovalStatus) : string :=
  match s with
  | Pending => "pending" | Granted => "granted" | Denied => "denied" | Expired => "expired"
  end.

Definition approval_status_parse (s : string) : result ApprovalStatus DbError :=
  if decide (s = "pending") then Ok Pending
  else if decide (s = "granted") then Ok Granted
  else if decide (s = "denied") then Ok Denied
  else if decide (s = "expired") then Ok Expired
  else Err (InvalidData "unknown approval status").

(** The texts in the tables are read back as the status they were written for. *)
Lemma status_texts (w : WorkflowStatus) (r : RunStatus) (a : ApprovalStatus) :
  workflow_status_parse (workflow_status_text w) = Ok w
  ∧ run_status_parse (run_status_text r) = Ok r
  ∧ approval_status_parse (approval_status_text a) = Ok a.
Proof. by destruct w, r, a. Qed.

(** ** Rows *)

Record WorkflowRecord := {
  wr_id : Uuid;
  wr_community_id : CommunityId;
  wr_name : string;
  wr_owner_pubkey : Bytes;
  wr_channel_id : option Uuid;
  wr_definition : Json;
  wr_definition_hash : Bytes;
  wr_status : WorkflowStatus;
  wr_enabled : bool;
  wr_created_at : DateTime;
  wr_updated_at : DateTime
}.

Record WorkflowRunRecord := {
  run_id : Uuid;
  run_community_id : CommunityId;
  run_workflow_id : Uuid;
  run_status : RunStatus;
  run_trigger_event_id : option Bytes;
  run_current_step : Z;
  run_execution_trace : Json;
  run_trigger_context : option Json;
  run_started_at : option DateTime;
  run_completed_at : option DateTime;
  run_error_message : option string;
  run_error_code : option string;
  run_created_at : DateTime
}.

Record ScheduledWorkflowFireClaim := {
  claim_community_id : CommunityId;
  claim_workflow_id : Uuid;
  claim_scheduled_for : DateTime;
  claim_claimed_at : DateTime
}.

Record ApprovalRecord := {
  ap_token : Bytes;
  ap_workflow_id : Uuid;
  ap_run_id : Uuid;
  ap_step_id : string;
  ap_step_index : Z;
  ap_approver_spec : string;
  ap_status : ApprovalStatus;
  ap_approver_pubkey : option Bytes;
  ap_note : option string;
  ap_expires_at : DateTime;
  ap_created_at : DateTime
}.

(** A row of [scheduled_workflow_fires], besides its key *)
Record Fire := { claimed_at : DateTime; workflow_run_id : option Uuid }.

(** The tables: workflows, runs, approvals and fires; the active roles of
    [channel_members]; the archived communities *)
Record Db := {
  workflows : gmap (Uuid * Uuid) WorkflowRecord;
  runs : gmap (Uuid * Uuid) WorkflowRunRecord;
  approvals : gmap (Uuid * list Z) ApprovalRecord;
  fires : gmap (Uuid * Uuid * Z) Fire;
  member_roles : gmap (Uuid * Uuid * list Z) string;
  archived_communities : gset Uuid
}.

Definition set_workflows (f : gmap (Uuid * Uuid) WorkflowRecord → gmap (Uuid * Uuid) WorkflowRecord)
    (d : Db) : Db :=
  {| workflows := f (workflows d); runs := runs d; approvals := approvals d; fires := fires d;
     member_roles := member_roles d; archived_communities := archived_communities d |}.
Definition set_runs (f : gmap (Uuid * Uuid) WorkflowRunRecord → gmap (Uuid * Uuid) WorkflowRunRecord)
    (d : Db) : Db :=
  {| workflows := workflows d; runs := f (runs d); approvals := approvals d; fires := fires d;
     member_roles := member_roles d; archived_communities := archived_communities d |}.
Definition set_approvals (f : gmap (Uuid * list Z) ApprovalRecord → gmap (Uuid * list Z) ApprovalRecord)
    (d : Db) : Db :=
  {| workflows := workflows d; runs := runs d; approvals := f (approvals d); fires := fires d;
     member_roles := member_roles d; archived_communities := archived_communities d |}.
Definition set_fires (f : gmap (Uuid * Uuid * Z) Fire → gmap (Uuid * Uuid * Z) Fire) (d : Db) : Db :=
  {| workflows := workflows d; runs := runs d; approvals := approvals d; fires := f (fires d);
     member_roles := member_roles d; archived_communities := archived_communities d |}.

(** ** Workflows *)

Definition new_workflow (now : DateTime) (community_id : CommunityId) (id : Uuid)
    (channel_id : option Uuid) (owner_pubkey : Bytes) (name : string) (definition : Json)
    (definition_hash : Bytes) : WorkflowRecord := {|
  wr_id := id; wr_community_id := community_id; wr_name := name; wr_owner_pubkey := owner_pubkey;
  wr_channel_id := channel_id; wr_definition := definition; wr_definition_hash := definition_hash;
  wr_status := Active; wr_enabled := true; wr_created_at := now; wr_updated_at := now |}.

(** The [DO UPDATE SET] of the upsert: the status and [enabled] keep their values. *)
Definition redefined (now : DateTime) (name : string) (definition : Json) (definition_hash : Bytes)
    (w : WorkflowRecord) : WorkflowRecord := {|
  wr_id := wr_id w; wr_community_id := wr_community_id w; wr_name := name;
  wr_owner_pubkey := wr_owner_pubkey w; wr_channel_id := wr_channel_id w;
  wr_definition := definition; wr_definition_hash := definition_hash; wr_status := wr_status w;
  wr_enabled := wr_enabled w; wr_created_at := wr_created_at w; wr_updated_at := now |}.

Definition with_enabled (enabled : bool) (w : WorkflowRecord) : WorkflowRecord := {|
  wr_id := wr_id w; wr_community_id := wr_community_id w; wr_name := wr_name w;
  wr_owner_pubkey := wr_owner_pubkey w; wr_channel_id := wr_channel_id w;
  wr_definition := wr_definition w; wr_definition_hash := wr_definition_hash w;
  wr_status := wr_status w; wr_enabled := enabled; wr_created_at := wr_created_at w;
  wr_updated_at := wr_updated_at w |}.

Definition create_workflow (now : DateTime) (id : Uuid) (community_id : CommunityId)
    (channel_id : option Uuid) (owner_pubkey : Bytes) (name : string) (definition : Json)
    (definition_hash : Bytes) (d : Db) : result Uuid DbError * Db :=
  match workflows d !! (community_id, id) with
  | Some _ => (Err (Sqlx "duplicate key"), d)
  | None =>
      (Ok id, set_workflows <[(community_id, id) :=
         new_workflow now community_id id channel_id owner_pubkey name definition definition_hash]> d)
  end.

Definition upsert_workflow (now : DateTime) (community_id : CommunityId) (id : Uuid)
    (channel_id : option Uuid) (owner_pubkey : Bytes) (name : string) (definition : Json)
    (definition_hash : Bytes) (d : Db) : result unit DbError * Db :=
  match workflows d !! (community_id, id) with
  | None =>
      (Ok tt, set_workflows <[(community_id, id) :=
         new_workflow now community_id id channel_id owner_pubkey name definition definition_hash]> d)
  | Some w =>
      if decide (wr_owner_pubkey w = owner_pubkey ∧ wr_channel_id w = channel_id)
      then (Ok tt, set_workflows <[(community_id, id) :=
                     redefined now name definition definition_hash w]> d)
      else (Err (AccessDenied "workflow belongs to a different owner or channel"), d)
  end.

Definition get_workflow (community_id : CommunityId) (id : Uuid) (d : Db)
    : result WorkflowRecord DbError :=
  match workflows d !! (community_id, id) with
  | Some w => Ok w | None => Err (NotFound "workflow")
  end.

Definition older (x y : WorkflowRecord) : Prop := (wr_created_at x ≤ wr_created_at y)%Z.
#[export] Instance older_dec : RelDecision older.
Proof. intros x y. unfold older. apply _. Defined.
Definition newer (x y : WorkflowRecord) : Prop := older y x.
#[export] Instance newer_dec : RelDecision newer.
Proof. intros x y. unfold newer. apply _. Defined.

(** [SELECT ... FROM workflows WHERE p], in no order *)
Definition select (p : WorkflowRecord → bool) (d : Db) : list WorkflowRecord :=
  List.filter p ((map_to_list (workflows d)).*2).

Definition list_channel_workflows (community_id : CommunityId) (channel_id : Uuid)
    (limit offset : option Z) (d : Db) : list WorkflowRecord :=
  let limit := Z.max 1 (Z.min (default LIST_DEFAULT_LIMIT limit) LIST_MAX_LIMIT) in
  let offset := Z.max 0 (default 0%Z offset) in
  take (Z.to_nat limit) (drop (Z.to_nat offset) (merge_sort newer
    (select (λ w, bool_decide (wr_community_id w = community_id)
                  && bool_decide (wr_channel_id w = Some channel_id)) d))).

Definition fires_on (w : WorkflowRecord) : bool :=
  bool_decide (wr_status w = Active) && wr_enabled w.

Definition list_enabled_channel_workflows (community_id : CommunityId) (channel_id : Uuid) (d : Db)
    : list WorkflowRecord :=
  take (Z.to_nat LIST_MAX_LIMIT) (merge_sort newer
    (select (λ w, bool_decide (wr_community_id w = community_id)
                  && bool_decide (wr_channel_id w = Some channel_id) && fires_on w) d)).

(** [definition->'trigger'->>'on'] *)
Definition trigger_on (definition : Json) : option string :=
  t ← json_get "trigger" definition; on ← json_get "on" t; as_str on.

Definition list_all_enabled_workflows (d : Db) : list WorkflowRecord :=
  take (Z.to_nat LIST_MAX_LIMIT) (merge_sort older
    (select (λ w, fires_on w && bool_decide (trigger_on (wr_definition w) = Some "schedule")
                  && bool_decide (wr_community_id w ∉ archived_communities d)) d)).

Definition update_workflow (community_id : CommunityId) (id : Uuid) (name : string)
    (definition : Json) (definition_hash : Bytes) (d : Db) : result unit DbError * Db :=
  match workflows d !! (community_id, id) with
  | None => (Err (NotFound "workflow"), d)
  | Some w => (Ok tt, set_workflows <[(community_id, id) :=
                redefined (wr_updated_at w) name definition definition_hash w]> d)
  end.

Definition update_workflow_status (community_id : CommunityId) (id : Uuid) (status : WorkflowStatus)
    (d : Db) : result unit DbError * Db :=
  match workflows d !! (community_id, id) with
  | None => (Err (NotFound "workflow"), d)
  | Some w => (Ok tt, set_workflows <[(community_id, id) := {|
      wr_id := wr_id w; wr_community_id := wr_community_id w; wr_name := wr_name w;
      wr_owner_pubkey := wr_owner_pubkey w; wr_channel_id := wr_channel_id w;
      wr_definition := wr_definition w; wr_definition_hash := wr_definition_hash w;
      wr_status := status; wr_enabled := wr_enabled w; wr_created_at := wr_created_at w;
      wr_updated_at := wr_updated_at w |}]> d)
  end.

Definition set_workflow_enabled (community_id : CommunityId) (id : Uuid) (enabled : bool) (d : Db)
    : result unit DbError * Db :=
  match workflows d !! (community_id, id) with
  | None => (Err (NotFound "workflow"), d)
  | Some w => (Ok tt, set_workflows <[(community_id, id) := with_enabled enabled w]> d)
  end.

(** The rows that [disable_workflows_for_owner_in_channel] updates *)
Definition departed (community_id : CommunityId) (channel_id : Uuid) (owner_pubkey : Bytes)
    (w : WorkflowRecord) : bool :=
  bool_decide (wr_community_id w = community_id) && bool_decide (wr_channel_id w = Some channel_id)
  && bool_decide (wr_owner_pubkey w = owner_pubkey) && wr_enabled w.

Definition disable_workflows_for_owner_in_channel (community_id : CommunityId) (channel_id : Uuid)
    (owner_pubkey : Bytes) (d : Db) : Z * Db :=
  let p := departed community_id channel_id owner_pubkey in
  (Z.of_nat (length (select p d)),
   set_workflows (fmap (λ w, if p w then with_enabled false w else w)) d).

(** [ON DELETE CASCADE] from a workflow: its runs, its approvals and its claims go. *)
Definition cascade (key : Uuid * Uuid) (d : Db) : Db := {|
  workflows := delete key (workflows d);
  runs := filter (λ '(k, r), ¬ (k.1 = key.1 ∧ run_workflow_id r = key.2)) (runs d);
  approvals := filter (λ '(k, a), ¬ (k.1 = key.1 ∧ ap_workflow_id a = key.2)) (approvals d);
  fires := filter (λ '(k, _), k.1 ≠ key) (fires d);
  member_roles := member_roles d;
  archived_communities := archived_communities d |}.

(** A claim that stays behind refers to a run that goes ([ON DELETE NO ACTION]). *)
Definition delete_blocked (key : Uuid * Uuid) (d : Db) : bool :=
  let kept := cascade key d in
  existsb (λ '(k, f), match workflow_run_id f with
                      | Some run => bool_decide (runs kept !! (k.1.1, run) = None)
                      | None => false end)
    (map_to_list (fires kept)).

Definition delete_workflow (community_id : CommunityId) (id : Uuid) (d : Db)
    : result unit DbError * Db :=
  match workflows d !! (community_id, id) with
  | None => (Err (NotFound "workflow"), d)
  | Some _ =>
      if delete_blocked (community_id, id) d then (Err (Sqlx "foreign key violation"), d)
      else (Ok tt, cascade (community_id, id) d)
  end.

Definition delete_workflow_for_owner (community_id : CommunityId) (id : Uuid) (owner_pubkey : Bytes)
    (d : Db) : result (option Uuid) DbError * Db :=
  match workflows d !! (community_id, id) with
  | Some w =>
      if decide (wr_owner_pubkey w = owner_pubkey) then
        if delete_blocked (community_id, id) d then (Err (Sqlx "foreign key violation"), d)
        else (Ok (wr_channel_id w), cascade (community_id, id) d)
      else (Err (NotFound "workflow"), d)
  | None => (Err (NotFound "workflow"), d)
  end.

(** ** Scheduled fires *)

(** [INSERT ... SELECT ... FROM workflows ... ON CONFLICT DO NOTHING RETURNING ...] *)
Definition claim_scheduled_workflow_fire (now : DateTime) (community_id : CommunityId)
    (workflow_id : Uuid) (scheduled_for : DateTime) (d : Db)
    : option ScheduledWorkflowFireClaim * Db :=
  match workflows d !! (community_id, workflow_id), fires d !! (community_id, workflow_id, scheduled_for) with
  | Some _, None =>
      (Some {| claim_community_id := community_id; claim_workflow_id := workflow_id;
               claim_scheduled_for := scheduled_for; claim_claimed_at := now |},
       set_fires <[(community_id, workflow_id, scheduled_for) :=
                    {| claimed_at := now; workflow_run_id := None |}]> d)
  | _, _ => (None, d)
  end.

(** [MAX(scheduled_for)] *)
Definition latest_scheduled_workflow_fire (community_id : CommunityId) (workflow_id : Uuid) (d : Db)
    : option DateTime :=
  foldr (λ '(k, _) m, if decide (k.1 = (community_id, workflow_id))
                      then Some (match m with Some t => Z.max t k.2 | None => k.2 end) else m)
    None (map_to_list (fires d)).

Definition attach_scheduled_workflow_run (community_id : CommunityId) (workflow_id : Uuid)
    (scheduled_for : DateTime) (run : Uuid) (d : Db) : result bool DbError * Db :=
  match fires d !! (community_id, workflow_id, scheduled_for), runs d !! (community_id, run) with
  | Some {| claimed_at := t; workflow_run_id := None |}, Some _ =>
      (Ok true, set_fires <[(community_id, workflow_id, scheduled_for) :=
                             {| claimed_at := t; workflow_run_id := Some run |}]> d)
  | Some {| workflow_run_id := None |}, None => (Err (Sqlx "foreign key violation"), d)
  | _, _ => (Ok false, d)
  end.

(** [community_write_allowed] is a function of the schema. *)
Definition prune_scheduled_workflow_fires_before (community_write_allowed : CommunityId → bool)
    (older_than : DateTime) (d : Db) : Z * Db :=
  let pruned := λ (x : Uuid * Uuid * Z * Fire),
    (claimed_at x.2 <? older_than)%Z && community_write_allowed x.1.1.1 in
  (Z.of_nat (length (List.filter pruned (map_to_list (fires d)))),
   set_fires (filter (λ x, pruned x = false)) d).

(** ** Runs *)

Definition new_run (now : DateTime) (community_id : CommunityId) (id workflow_id : Uuid)
    (trigger_event_id : option Bytes) (trigger_context : option Json) : WorkflowRunRecord := {|
  run_id := id; run_community_id := community_id; run_workflow_id := workflow_id;
  run_status := RunPending; run_trigger_event_id := trigger_event_id; run_current_step := 0;
  run_execution_trace := JArray []; run_trigger_context := trigger_context;
  run_started_at := None; run_completed_at := None; run_error_message := None;
  run_error_code := None; run_created_at := now |}.

Definition create_workflow_run (now : DateTime) (id : Uuid) (community_id : CommunityId)
    (workflow_id : Uuid) (trigger_event_id : option Bytes) (trigger_context : option Json) (d : Db)
    : result Uuid DbError * Db :=
  match workflows d !! (community_id, workflow_id), runs d !! (community_id, id) with
  | None, _ => (Err (Sqlx "foreign key violation"), d)
  | _, Some _ => (Err (Sqlx "duplicate key"), d)
  | Some _, None =>
      (Ok id, set_runs <[(community_id, id) :=
                new_run now community_id id workflow_id trigger_event_id trigger_context]> d)
  end.

Definition get_workflow_run (community_id : CommunityId) (id : Uuid) (d : Db)
    : result WorkflowRunRecord DbError :=
  match runs d !! (community_id, id) with
  | Some r => Ok r | None => Err (NotFound "workflow_run")
  end.

(** [ORDER BY created_at DESC, id DESC] *)
Definition run_before (x y : WorkflowRunRecord) : Prop :=
  (run_created_at y < run_created_at x)%Z
  ∨ run_created_at y = run_created_at x ∧ (run_id y ≤ run_id x)%N.
#[export] Instance run_before_dec : RelDecision run_before.
Proof. intros x y. unfold run_before. apply _. Defined.

Definition list_workflow_runs_page (community_id : CommunityId) (workflow_id : Uuid)
    (before : option DateTime) (before_id : option Uuid) (limit : Z) (d : Db)
    : list WorkflowRunRecord :=
  let limit := Z.max 1 (Z.min limit LIST_MAX_LIMIT) in
  let after_cursor := λ r, match before, before_id with
    | Some t, Some i => (run_created_at r <? t)%Z
                        || ((run_created_at r =? t)%Z && (run_id r <? i)%N)
    | _, _ => true end in
  take (Z.to_nat limit) (merge_sort run_before
    (List.filter (λ r, bool_decide (run_community_id r = community_id)
                       && bool_decide (run_workflow_id r = workflow_id) && after_cursor r)
       ((map_to_list (runs d)).*2))).

Record WorkflowRunFailure := { failure_code : string; failure_message : string }.

Definition updated_run (now : DateTime) (status : RunStatus) (current_step : Z) (trace : Json)
    (failure : option WorkflowRunFailure) (r : WorkflowRunRecord) : WorkflowRunRecord := {|
  run_id := run_id r; run_community_id := run_community_id r;
  run_workflow_id := run_workflow_id r; run_status := status;
  run_trigger_event_id := run_trigger_event_id r; run_current_step := current_step;
  run_execution_trace := trace; run_trigger_context := run_trigger_context r;
  run_started_at := if decide (status = Running ∧ run_started_at r = None)
                    then Some now else run_started_at r;
  run_completed_at := if decide (status = Completed ∨ status = Failed ∨ status = Cancelled)
                      then Some now else run_completed_at r;
  run_error_message := failure_message <$> failure; run_error_code := failure_code <$> failure;
  run_created_at := run_created_at r |}.

Definition update_workflow_run (now : DateTime) (community_id : CommunityId) (id : Uuid)
    (status : RunStatus) (current_step : Z) (trace : Json) (failure : option WorkflowRunFailure)
    (d : Db) : result unit DbError * Db :=
  match runs d !! (community_id, id) with
  | None => (Err (NotFound "workflow_run"), d)
  | Some r => (Ok tt, set_runs <[(community_id, id) :=
                updated_run now status current_step trace failure r]> d)
  end.

(** ** Approvals; the token's SHA-256 is taken by the caller. *)

Record CreateApprovalParams := {
  cap_community_id : CommunityId;
  cap_token : string;
  cap_workflow_id : Uuid;
  cap_run_id : Uuid;
  cap_step_id : string;
  cap_step_index : Z;
  cap_approver_spec : string;
  cap_expires_at : DateTime
}.

Definition create_approval (now : DateTime) (hash_approval_token : string → Bytes)
    (p : CreateApprovalParams) (d : Db) : result unit DbError * Db :=
  let token_hash := hash_approval_token (cap_token p) in
  match workflows d !! (cap_community_id p, cap_workflow_id p),
        runs d !! (cap_community_id p, cap_run_id p),
        approvals d !! (cap_community_id p, token_hash) with
  | Some _, Some _, None =>
      (Ok tt, set_approvals <[(cap_community_id p, token_hash) := {|
         ap_token := token_hash; ap_workflow_id := cap_workflow_id p; ap_run_id := cap_run_id p;
         ap_step_id := cap_step_id p; ap_step_index := cap_step_index p;
         ap_approver_spec := cap_approver_spec p; ap_status := Pending;
         ap_approver_pubkey := None; ap_note := None; ap_expires_at := cap_expires_at p;
         ap_created_at := now |}]> d)
  | _, _, _ => (Err (Sqlx "constraint violation"), d)
  end.

Definition get_approval_by_stored_hash (community_id : CommunityId) (token_hash : Bytes) (d : Db)
    : result ApprovalRecord DbError :=
  match approvals d !! (community_id, token_hash) with
  | Some a => Ok a | None => Err (NotFound "approval token (hashed)")
  end.

Definition get_approval (hash_approval_token : string → Bytes) (community_id : CommunityId)
    (token : string) (d : Db) : result ApprovalRecord DbError :=
  get_approval_by_stored_hash community_id (hash_approval_token token) d.

Definition decided (status : ApprovalStatus) (approver_pubkey : option Bytes) (note : option string)
    (a : ApprovalRecord) : ApprovalRecord := {|
  ap_token := ap_token a; ap_workflow_id := ap_workflow_id a; ap_run_id := ap_run_id a;
  ap_step_id := ap_step_id a; ap_step_index := ap_step_index a;
  ap_approver_spec := ap_approver_spec a; ap_status := status;
  ap_approver_pubkey := approver_pubkey; ap_note := note; ap_expires_at := ap_expires_at a;
  ap_created_at := ap_created_at a |}.

(** The [WHERE] clause holds only of a pending approval. *)
Definition update_approval_by_stored_hash (community_id : CommunityId) (token_hash : Bytes)
    (status : ApprovalStatus) (approver_pubkey : option Bytes) (note : option string) (d : Db)
    : bool * Db :=
  match approvals d !! (community_id, token_hash) with
  | Some a =>
      if decide (ap_status a = Pending)
      then (true, set_approvals <[(community_id, token_hash) := decided status approver_pubkey note a]> d)
      else (false, d)
  | None => (false, d)
  end.

Definition update_approval (hash_approval_token : string → Bytes) (community_id : CommunityId)
    (token : string) (status : ApprovalStatus) (approver_pubkey : option Bytes)
    (note : option string) (d : Db) : bool * Db :=
  update_approval_by_stored_hash community_id (hash_approval_token token) status approver_pubkey note d.

Definition find_by_owner_and_name (community_id : CommunityId) (owner_pubkey : Bytes) (name : string)
    (d : Db) : option WorkflowRecord :=
  match select (λ w, bool_decide (wr_community_id w = community_id)
                     && bool_decide (wr_owner_pubkey w = owner_pubkey)
                     && bool_decide (wr_name w = name)) d with
  | w :: _ => Some w
  | [] => None
  end.

(** [get_member_role] (buzz-db/src/channel.rs) *)
Definition get_member_role (community_id : CommunityId) (channel_id : Uuid) (pubkey : Bytes) (d : Db)
    : option string :=
  member_roles d !! (community_id, channel_id, pubkey).
