(* ===== verification/WorkflowIo.v ===== *)
(** * What the workflow engine asks of its environment

    The calls of buzz-workflow and of the relay's workflow handlers: database statements,
    clock, ids, the semaphore of the runs, the cache of the trigger path, condition evaluation,
    the community write lease, the action sink, HTTP, and spawned tasks. [db_step] answers the
    database calls from the tables of [WorkflowDb]. *)

From S2P Require Import Prelude Text StdText Json Network Workflow WorkflowTemplate WorkflowCondition WorkflowDb.
From S2P Require Export Interaction.

Open Scope string_scope.
Open Scope nat_scope.
Open Scope list_scope.

(** ** Outgoing requests *)

(** A request of [call_webhook_impl] with the settings of its client: the address the host is
    pinned to, and whether proxies and redirects are followed *)
Record WebhookRequest := {
  wq_method : string;
  wq_url : string;
  wq_headers : list (string * string);
  wq_body : option string;
  wq_timeout_secs : Z;
  wq_pinned : string * IpAddr * Z;
  wq_proxy : bool;
  wq_follow_redirects : bool
}.

Record ReactionRequest := {
  rq_url : string;
  rq_emoji : string;
  rq_auth : option (string * string)
}.

(** A message for the action sink *)
Record SinkMessage := {
  sm_community_id : CommunityId;
  sm_channel_id : string;
  sm_text : string;
  sm_author_pubkey : string;
  sm_reply_to : option string
}.

(** ** Spawned tasks *)

Inductive Task :=
  | ExecuteRunTask (community_id : CommunityId) (run : Uuid) (def : WorkflowDef) (ctx : TriggerContext)
  | ExecuteStoredTask (community_id : CommunityId) (run : Uuid) (definition : Json) (ctx : TriggerContext)
  | ResumeTask (community_id : CommunityId) (run workflow : Uuid) (resume_index : nat)
  | CancelTask (community_id : CommunityId) (run : Uuid) (pubkey_hex : string).

(** What [persist_command_event] came to *)
Inductive PersistResult := Duplicate | Inserted.

Inductive Ev :=
  (* buzz-db/src/workflow.rs *)
  | GetMemberRole (community_id : CommunityId) (channel_id : Uuid) (pubkey : Bytes)
  | ListEnabledChannelWorkflows (community_id : CommunityId) (channel_id : Uuid)
  | ListAllEnabledWorkflows
  | LatestScheduledFire (community_id : CommunityId) (workflow_id : Uuid)
  | ClaimScheduledFire (community_id : CommunityId) (workflow_id : Uuid) (scheduled_for : DateTime)
  | CreateWorkflowRun (community_id : CommunityId) (workflow_id : Uuid)
      (trigger_event_id : option Bytes) (trigger_context : option Json)
  | AttachScheduledRun (community_id : CommunityId) (workflow_id : Uuid) (scheduled_for : DateTime)
      (run : Uuid)
  | GetWorkflowRun (community_id : CommunityId) (id : Uuid)
  | UpdateWorkflowRun (community_id : CommunityId) (id : Uuid) (status : RunStatus) (current_step : Z)
      (trace : Json) (failure : option WorkflowRunFailure)
  | GetWorkflow (community_id : CommunityId) (id : Uuid)
  | UpsertWorkflow (community_id : CommunityId) (id : Uuid) (channel_id : option Uuid)
      (owner_pubkey : Bytes) (name : string) (definition : Json) (definition_hash : Bytes)
  | DisableWorkflows (community_id : CommunityId) (channel_id : Uuid) (owner_pubkey : Bytes)
  | DeleteWorkflowForOwner (community_id : CommunityId) (id : Uuid) (owner_pubkey : Bytes)
  | FindByOwnerAndName (community_id : CommunityId) (owner_pubkey : Bytes) (name : string)
  | PruneScheduledFires (older_than : DateTime)
  | GetApprovalByStoredHash (community_id : CommunityId) (token_hash : Bytes)
  | UpdateApprovalByStoredHash (community_id : CommunityId) (token_hash : Bytes)
      (status : ApprovalStatus) (approver_pubkey : option Bytes) (note : option string)
  (* the rest of the database, for the command handlers *)
  | IsMember (community_id : CommunityId) (channel_id : Uuid) (pubkey : Bytes)
  | GetChannel (community_id : CommunityId) (channel_id : Uuid)
  | PersistCommandEvent (event_id : Bytes) (channel_id : option Uuid)
  | CommitTransaction
  | BindCommunity (host : string)
  (* time, ids, tasks *)
  | UtcNow
  | Sleep (secs : Z)
  | NewUuid
  | Spawn (t : Task)
  | DeadlinePassed (timeout_secs : Z)
  (* the engine's shared state *)
  | TryAcquire
  | ReleasePermit
  | CacheGet (community_id : CommunityId) (channel_id : Uuid)
  | CacheInsert (community_id : CommunityId) (channel_id : Uuid) (l : list WorkflowRecord)
  | CacheInvalidate (community_id : CommunityId) (channel_id : Uuid)
  | HasActionSink
  | RunEval (expr : string) (ctx : TriggerContext) (outputs : gmap string Json)
  (* buzz-deletion *)
  | AcquireServingWrite (community_id : CommunityId)
  | VerifyServingWrite
  | LeaseLost
  | FinishServingWrite
  (* side effects *)
  | SinkSend (m : SinkMessage)
  | ToSocketAddrs (host : string) (port : Z)
  | WebhookSend (q : WebhookRequest)
  | WebhookChunk
  | ReactionSend (q : ReactionRequest)
  | ReactionText.

Definition Ans (e : Ev) : Type :=
  match e with
  | GetMemberRole _ _ _ => result (option string) DbError
  | ListEnabledChannelWorkflows _ _ | ListAllEnabledWorkflows => result (list WorkflowRecord) DbError
  | LatestScheduledFire _ _ => result (option DateTime) DbError
  | ClaimScheduledFire _ _ _ => result (option ScheduledWorkflowFireClaim) DbError
  | CreateWorkflowRun _ _ _ _ => result Uuid DbError
  | AttachScheduledRun _ _ _ _ => result bool DbError
  | GetWorkflowRun _ _ => result WorkflowRunRecord DbError
  | UpdateWorkflowRun _ _ _ _ _ _ => result unit DbError
  | GetWorkflow _ _ => result WorkflowRecord DbError
  | UpsertWorkflow _ _ _ _ _ _ _ => result unit DbError
  | DisableWorkflows _ _ _ => result Z DbError
  | DeleteWorkflowForOwner _ _ _ => result (option Uuid) DbError
  | FindByOwnerAndName _ _ _ => result (option WorkflowRecord) DbError
  | PruneScheduledFires _ => result Z DbError
  | GetApprovalByStoredHash _ _ => result ApprovalRecord DbError
  | UpdateApprovalByStoredHash _ _ _ _ _ => result bool DbError
  | IsMember _ _ _ => result bool DbError
  | GetChannel _ _ => result unit DbError
  | PersistCommandEvent _ _ => result PersistResult string
  | CommitTransaction => result unit string
  | BindCommunity _ => result CommunityId string
  | UtcNow => DateTime
  | Sleep _ => unit
  | NewUuid => Uuid
  | Spawn _ => unit
  | DeadlinePassed _ => bool
  | TryAcquire => bool
  | ReleasePermit => unit
  | CacheGet _ _ => option (list WorkflowRecord)
  | CacheInsert _ _ _ | CacheInvalidate _ _ => unit
  | HasActionSink => bool
  | RunEval _ _ _ => EvalTask
  | AcquireServingWrite _ | VerifyServingWrite => result unit string
  | LeaseLost => bool
  | FinishServingWrite => result unit string
  | SinkSend _ => result string string
  | ToSocketAddrs _ _ => result (list IpAddr) string
  | WebhookSend _ => result Z string
  | WebhookChunk => result (option string) string
  | ReactionSend _ => result Z string
  | ReactionText => result string string
  end.

Abbreviation Prog := (@Interaction.Prog Ev Ans).
Abbreviation Entry := (@Interaction.Entry Ev Ans).

(** ** The database answers *)

(** The statement is carried out, is carried out but its answer is lost, or fails. *)
Inductive Outcome := Done | AnswerLost | NotDone.

(** The database's clock, the id that [Uuid::new_v4] draws and the outcome of a statement *)
Record Choice := { now : DateTime; fresh_id : Uuid; outcome : Outcome }.

Definition connection_lost {A} : result A DbError := Err (Sqlx "connection lost").

(** A statement with its answer and its effect, under an outcome *)
Definition settle {A} (o : Outcome) (done : result A DbError * Db) (d : Db) : result A DbError * Db :=
  match o with
  | Done => done
  | AnswerLost => (connection_lost, done.2)
  | NotDone => (connection_lost, d)
  end.

(** The answer of the tables to a call, and the tables after it; [r] is the answer to a call
    that is not for these tables. *)
Definition db_step (write_allowed : CommunityId → bool) (c : Choice) (e : Ev) (d : Db)
    : Ans e → Ans e * Db :=
  match e return Ans e → Ans e * Db with
  | GetMemberRole cm ch pk => λ _, settle (outcome c) (Ok (get_member_role cm ch pk d), d) d
  | ListEnabledChannelWorkflows cm ch =>
      λ _, settle (outcome c) (Ok (list_enabled_channel_workflows cm ch d), d) d
  | ListAllEnabledWorkflows => λ _, settle (outcome c) (Ok (list_all_enabled_workflows d), d) d
  | LatestScheduledFire cm w =>
      λ _, settle (outcome c) (Ok (latest_scheduled_workflow_fire cm w d), d) d
  | ClaimScheduledFire cm w t =>
      λ _, settle (outcome c) (let '(o, d') := claim_scheduled_workflow_fire (now c) cm w t d in (Ok o, d')) d
  | CreateWorkflowRun cm w ev ctx =>
      λ _, settle (outcome c) (create_workflow_run (now c) (fresh_id c) cm w ev ctx d) d
  | AttachScheduledRun cm w t run =>
      λ _, settle (outcome c) (attach_scheduled_workflow_run cm w t run d) d
  | GetWorkflowRun cm id => λ _, settle (outcome c) (get_workflow_run cm id d, d) d
  | UpdateWorkflowRun cm id st step trace f =>
      λ _, settle (outcome c) (update_workflow_run (now c) cm id st step trace f d) d
  | GetWorkflow cm id => λ _, settle (outcome c) (get_workflow cm id d, d) d
  | UpsertWorkflow cm id ch owner name def hash =>
      λ _, settle (outcome c) (upsert_workflow (now c) cm id ch owner name def hash d) d
  | DisableWorkflows cm ch owner =>
      λ _, settle (outcome c)
             (let '(n, d') := disable_workflows_for_owner_in_channel cm ch owner d in (Ok n, d')) d
  | DeleteWorkflowForOwner cm id owner =>
      λ _, settle (outcome c) (delete_workflow_for_owner cm id owner d) d
  | FindByOwnerAndName cm owner name =>
      λ _, settle (outcome c) (Ok (find_by_owner_and_name cm owner name d), d) d
  | PruneScheduledFires t =>
      λ _, settle (outcome c)
             (let '(n, d') := prune_scheduled_workflow_fires_before write_allowed t d in (Ok n, d')) d
  | GetApprovalByStoredHash cm h => λ _, settle (outcome c) (get_approval_by_stored_hash cm h d, d) d
  | UpdateApprovalByStoredHash cm h st pk note =>
      λ _, settle (outcome c)
             (let '(b, d') := update_approval_by_stored_hash cm h st pk note d in (Ok b, d')) d
  | _ => λ r, (r, d)
  end.

(** ** A quiet environment, for examples: nothing fails, and a minute and a second have passed *)

Definition quiet_answers (e : Ev) : Ans e :=
  match e return Ans e with
  | GetMemberRole _ _ _ => Ok None
  | ListEnabledChannelWorkflows _ _ | ListAllEnabledWorkflows => Ok []
  | LatestScheduledFire _ _ => Ok None
  | ClaimScheduledFire _ _ _ => Ok None
  | CreateWorkflowRun _ _ _ _ => connection_lost
  | AttachScheduledRun _ _ _ _ => Ok false
  | GetWorkflowRun _ _ => connection_lost
  | UpdateWorkflowRun _ _ _ _ _ _ => Ok tt
  | GetWorkflow _ _ => connection_lost
  | UpsertWorkflow _ _ _ _ _ _ _ => Ok tt
  | DisableWorkflows _ _ _ => Ok 0%Z
  | DeleteWorkflowForOwner _ _ _ => Ok None
  | FindByOwnerAndName _ _ _ => Ok None
  | PruneScheduledFires _ => Ok 0%Z
  | GetApprovalByStoredHash _ _ => connection_lost
  | UpdateApprovalByStoredHash _ _ _ _ _ => Ok false
  | IsMember _ _ _ => Ok true
  | GetChannel _ _ => Ok tt
  | PersistCommandEvent _ _ => Ok Inserted
  | CommitTransaction => Ok tt
  | BindCommunity _ => Ok 1%N
  | UtcNow => (61 * 1000000000)%Z
  | Sleep _ => tt
  | NewUuid => 99%N
  | Spawn _ => tt
  | DeadlinePassed _ => false
  | TryAcquire => true
  | ReleasePermit => tt
  | CacheGet _ _ => None
  | CacheInsert _ _ _ | CacheInvalidate _ _ => tt
  | HasActionSink => true
  | RunEval _ _ _ => Evaluated
  | AcquireServingWrite _ | VerifyServingWrite => Ok tt
  | LeaseLost => false
  | FinishServingWrite => Ok tt
  | SinkSend _ => Ok "event"
  | ToSocketAddrs _ _ => Ok [V4 {| o0 := 8; o1 := 8; o2 := 8; o3 := 8 |}]
  | WebhookSend _ => Ok 200%Z
  | WebhookChunk => Ok None
  | ReactionSend _ => Ok 200%Z
  | ReactionText => Ok ""
  end.
