(* ===== verification/WorkflowExec.v ===== *)
(** * The workflow executor (buzz-workflow/src/executor.rs)

    Steps in order: condition, templates, one action under the community's write lease and the
    step's timeout. Third-party parsers of URLs, methods and JSON are a class; texts of errors
    are shortened. *)

From S2P Require Import Prelude Text StdText Json Network Workflow WorkflowTemplate WorkflowCondition WorkflowDb WorkflowIo.

Open Scope string_scope.
Open Scope nat_scope.
Open Scope list_scope.

(** [reqwest::Url::parse] with [host_str] and [port_or_known_default], [Method::from_bytes],
    [serde_json::from_str] *)
Class WebText := {
  url_parse : string → result (option string * option Z) string;
  method_ok : string → bool;
  json_parse : string → option Json
}.

(** [hex::encode] *)
Class HexText := { hex_encode : list Z → string }.

(** ** [String::from_utf8_lossy] *)

(** U+FFFD in UTF-8 *)
Definition replacement : string := bytes_of [239; 191; 189]%N.

(** The first character, or the replacement for the longest ill-formed prefix, and the rest *)
Definition lossy_step (a : Ascii.ascii) (s1 : string) : string * string :=
  if between 0 127 a then (String a "", s1)
  else if between 194 223 a then
    match s1 with
    | String b s2 => if continuation b then (String a (String b ""), s2) else (replacement, s1)
    | EmptyString => (replacement, s1)
    end
  else if between 224 239 a then
    match s1 with
    | String b s2 =>
        if (if between 224 224 a then between 160 191 b
            else if between 237 237 a then between 128 159 b else continuation b)
        then match s2 with
             | String c s3 => if continuation c then (String a (String b (String c "")), s3)
                              else (replacement, s2)
             | EmptyString => (replacement, s2)
             end
        else (replacement, s1)
    | EmptyString => (replacement, s1)
    end
  else if between 240 244 a then
    match s1 with
    | String b s2 =>
        if (if between 240 240 a then between 144 191 b
            else if between 244 244 a then between 128 143 b else continuation b)
        then match s2 with
             | String c s3 =>
                 if continuation c
                 then match s3 with
                      | String e s4 => if continuation e
                                       then (String a (String b (String c (String e ""))), s4)
                                       else (replacement, s3)
                      | EmptyString => (replacement, s3)
                      end
                 else (replacement, s2)
             | EmptyString => (replacement, s2)
             end
        else (replacement, s1)
    | EmptyString => (replacement, s1)
    end
  else (replacement, s1).

(** Every step drops a byte, so the length is fuel enough. *)
Fixpoint lossy (fuel : nat) (s : string) : string :=
  match fuel, s with
  | S fuel, String a s => let '(out, rest) := lossy_step a s in out +:+ lossy fuel rest
  | _, _ => ""
  end.
Definition from_utf8_lossy (s : string) : string := lossy (String.length s) s.

(** ** Results *)

Inductive StepResult :=
  | Completed (output : Json)
  | Suspended (approval_token : string)
  | Skipped.

Record ExecutionResult := {
  approval_token : option string;
  step_index : nat;
  step_outputs : gmap string Json;
  trace : list Json
}.

Record PartialProgress := { pp_step_index : nat; pp_trace : list Json }.
Definition no_progress : PartialProgress := {| pp_step_index := 0; pp_trace := [] |}.

Record WorkflowConfig := { max_concurrent : nat; default_timeout_secs : Z }.
Definition default_config : WorkflowConfig := {| max_concurrent := 100; default_timeout_secs := 300 |}.

(** The environment variables of [add_reaction_impl] *)
Record ReactionEnv := {
  relay_base_url : option string;
  api_token : option string;
  relay_pubkey : option string
}.

Definition as_i32 (n : Z) : Z := ((n + 2 ^ 31) mod 2 ^ 32 - 2 ^ 31)%Z.

(** ** The destination of a message *)

Section executor.
Context `{UuidText} `{IdText} `{WebText} `{HexText} `{TemplateText} `{StringHash} `{EvalExpr}.
Context (config : WorkflowConfig) (env : ReactionEnv) (chunks_before_timeout : nat).

Definition parse_override (explicit_channel : string) : result Uuid WorkflowError :=
  match uuid_parse_str explicit_channel with
  | Some id => Ok id
  | None => Err (InvalidDefinition "SendMessage: invalid channel override UUID")
  end.

Definition resolve_send_message_channel (explicit_channel : option string) (trigger_channel : string)
    (workflow_channel_id : option Uuid) : result string WorkflowError :=
  let explicit_channel :=
    match explicit_channel with
    | Some s => let s := str_trim s in if decide (s = "") then None else Some s
    | None => None
    end in
  match workflow_channel_id with
  | Some workflow_channel_id =>
      _ <-? match explicit_channel with
            | Some explicit_channel =>
                override_channel_id <-? parse_override explicit_channel ;;
                guard! bool_decide (override_channel_id = workflow_channel_id)
                  else InvalidDefinition "SendMessage: channel override must match the workflow channel" ;;
                Ok tt
            | None => Ok tt
            end ;;
      Ok (uuid_to_string workflow_channel_id)
  | None =>
      match explicit_channel with
      | Some explicit_channel =>
          override_channel_id <-? parse_override explicit_channel ;;
          Ok (uuid_to_string override_channel_id)
      | None =>
          guard! negb (bool_decide (str_trim trigger_channel = ""))
            else InvalidDefinition "SendMessage: no channel_id available" ;;
          Ok (str_trim trigger_channel)
      end
  end.

(** ** Webhooks *)

Fixpoint first_private (addrs : list IpAddr) : option IpAddr :=
  match addrs with
  | [] => None
  | ip :: addrs => if is_private_ip ip then Some ip else first_private addrs
  end.

Definition check_ssrf (host : string) (port : Z) : Prog (result IpAddr WorkflowError) :=
  r <-* ask (ToSocketAddrs host port) ;;
  match r with
  | Err _ => Ret (Err (WebhookError "DNS resolution failed"))
  | Ok [] => Ret (Err (WebhookError "DNS resolution returned no addresses"))
  | Ok (first :: rest) =>
      match first_private (first :: rest) with
      | Some _ => Ret (Err (WebhookError "SSRF blocked"))
      | None => Ret (Ok first)
      end
  end.

Definition WEBHOOK_MAX_RESPONSE_BYTES : nat := Z.to_nat (1024 * 1024).

(** The client's timeout covers the body: after [chunks] more chunks the next read fails. *)
Fixpoint read_body (chunks : nat) (body_bytes : string) : Prog (result string WorkflowError) :=
  match chunks with
  | 0 => Ret (Err (WebhookError "reading response body: timed out"))
  | S chunks =>
      c <-* ask WebhookChunk ;;
      match c with
      | Err e => Ret (Err (WebhookError e))
      | Ok None => Ret (Ok body_bytes)
      | Ok (Some bytes) =>
          let body_bytes := body_bytes +:+ bytes in
          if WEBHOOK_MAX_RESPONSE_BYTES <? String.length body_bytes
          then Ret (Err (WebhookError "response body exceeds byte limit"))
          else read_body chunks body_bytes
      end
  end.

Definition call_webhook_impl (url method : string) (headers : option (gmap string string))
    (body : option string) : Prog (result Json WorkflowError) :=
  match url_parse url with
  | Err e => Ret (Err (WebhookError e))
  | Ok (None, _) => Ret (Err (WebhookError "URL has no host"))
  | Ok (Some host, port) =>
      let port := default 80%Z port in
      safe_ip <-! check_ssrf host port ;;
      if negb (method_ok method) then Ret (Err (WebhookError "invalid method"))
      else
        resp <-* ask (WebhookSend {|
          wq_method := method; wq_url := url;
          wq_headers := match headers with Some h => hash_order h | None => [] end;
          wq_body := body; wq_timeout_secs := 10; wq_pinned := (host, safe_ip, port);
          wq_proxy := false; wq_follow_redirects := false |}) ;;
        match resp with
        | Err e => Ret (Err (WebhookError e))
        | Ok status =>
            body_bytes <-! read_body chunks_before_timeout "" ;;
            Ret (Ok (JObject [("body", JString (from_utf8_lossy body_bytes));
                              ("status", JNumber (decimal status))]))
        end
  end.

Definition add_reaction_impl (message_id emoji : string) : Prog (result Json WorkflowError) :=
  let base_url := default "http://localhost:3000" (relay_base_url env) in
  let auth := match api_token env with
              | Some token => Some ("Authorization", "Bearer " +:+ token)
              | None => (λ pubkey, ("X-Pubkey", pubkey)) <$> relay_pubkey env
              end in
  resp <-* ask (ReactionSend {|
    rq_url := base_url +:+ "/api/messages/" +:+ message_id +:+ "/reactions";
    rq_emoji := emoji; rq_auth := auth |}) ;;
  match resp with
  | Err e => Ret (Err (WebhookError e))
  | Ok status =>
      body <-* ask ReactionText ;;
      if ((200 <=? status) && (status <? 300))%Z then
        let body_text := match body with Ok t => t | Err _ => "" end in
        let body_json := default (JObject [("raw", JString body_text)]) (json_parse body_text) in
        Ret (Ok (JObject [("added", JBool true); ("response", body_json);
                          ("status", JNumber (decimal status))]))
      else Ret (Err (WebhookError "AddReaction: relay returned an error"))
  end.

(** ** Actions *)

Definition generate_approval_token : Prog string :=
  id <-* ask NewUuid ;; Ret (uuid_to_string id).

(** [ServingWriteGuard::protect]; [None] is the loss of the lease. *)
Definition protect_write {A} (operation : Prog A) : Prog (option A) :=
  v <-* ask VerifyServingWrite ;;
  match v with
  | Err _ => Ret None
  | Ok _ =>
      output <-* interruptible LeaseLost id operation ;;
      match output with
      | None => Ret None
      | Some a =>
          v <-* ask VerifyServingWrite ;;
          match v with Err _ => Ret None | Ok _ => Ret (Some a) end
      end
  end.

Definition MAX_DELAY_SECS : Z := 270.

Definition send_message (community_id : CommunityId) (run : Uuid) (ctx : TriggerContext)
    (body : string) (channel : option string) (reply_in_thread : bool)
    : Prog (result StepResult WorkflowError) :=
  wf_run <-* ask (GetWorkflowRun community_id run) ;;
  match wf_run with
  | Err _ => Ret (Err (WebhookError "SendMessage: failed to load workflow run"))
  | Ok wf_run =>
      workflow <-* ask (GetWorkflow community_id (run_workflow_id wf_run)) ;;
      match workflow with
      | Err _ => Ret (Err (WebhookError "SendMessage: failed to load workflow"))
      | Ok workflow =>
          channel_id <-% resolve_send_message_channel channel (ctx_channel_id ctx) (wr_channel_id workflow) ;;
          let owner_pubkey_hex := hex_encode (wr_owner_pubkey workflow) in
          if reply_in_thread && bool_decide (message_id ctx = "")
          then Ret (Err (InvalidDefinition "SendMessage: the trigger has no message_id to reply to"))
          else
            let reply_to := if reply_in_thread then Some (message_id ctx) else None in
            sink <-* ask HasActionSink ;;
            if negb sink then Ret (Err (InvalidDefinition "action_sink not initialized"))
            else
              event_id <-* ask (SinkSend {|
                sm_community_id := community_id; sm_channel_id := channel_id; sm_text := body;
                sm_author_pubkey := owner_pubkey_hex; sm_reply_to := reply_to |}) ;;
              match event_id with
              | Err e => Ret (Err (WebhookError e))
              | Ok event_id => Ret (Ok (Completed (JObject [("event_id", JString event_id);
                                                            ("sent", JBool true)])))
              end
      end
  end.

(** The block under [serving_write.protect] *)
Definition perform (community_id : CommunityId) (run : Uuid) (ctx : TriggerContext) (a : ActionDef)
    : Prog (result StepResult WorkflowError) :=
  match a with
  | SendMessage body channel reply_in_thread =>
      send_message community_id run ctx body channel reply_in_thread
  | SendDm _ _ => Ret (Err (NotImplemented "SendDm"))
  | SetChannelTopic _ => Ret (Err (NotImplemented "SetChannelTopic"))
  | AddReaction emoji =>
      if decide (message_id ctx = "")
      then Ret (Err (InvalidDefinition "AddReaction: no trigger.message_id available"))
      else r <-! add_reaction_impl (message_id ctx) emoji ;; Ret (Ok (Completed r))
  | CallWebhook url method headers body =>
      r <-! call_webhook_impl url (default "POST" method) headers body ;; Ret (Ok (Completed r))
  | RequestApproval _ _ _ =>
      token <-* generate_approval_token ;; Ret (Ok (Suspended token))
  | Delay duration =>
      secs <-% parse_duration_secs duration ;;
      if (MAX_DELAY_SECS <? secs)%Z
      then Ret (Err (InvalidDefinition "delay exceeds maximum of 270 seconds"))
      else
        _ <-* ask (Sleep secs) ;;
        Ret (Ok (Completed (JObject [("slept_secs", JNumber (decimal secs))])))
  end.

Definition dispatch_action (community_id : CommunityId) (run : Uuid) (ctx : TriggerContext)
    (a : ActionDef) : Prog (result StepResult WorkflowError) :=
  lease <-* ask (AcquireServingWrite community_id) ;;
  match lease with
  | Err _ => Ret (Err (WebhookError "community write fence rejected workflow side effect"))
  | Ok _ =>
      v <-* ask VerifyServingWrite ;;
      match v with
      | Err _ => Ret (Err (WebhookError "community write lease lost"))
      | Ok _ =>
          r <-* protect_write (perform community_id run ctx a) ;;
          match r with
          | None => Ret (Err (WebhookError "community write lease lost"))
          | Some r =>
              release <-* ask FinishServingWrite ;;
              match r, release with
              | Ok _, Err _ => Ret (Err (WebhookError "community write lease release failed"))
              | _, _ => Ret r
              end
          end
      end
  end.

(** ** Steps *)

Definition skipped_entry (s : Step) : Json :=
  JObject [("status", JString "skipped"); ("step_id", JString (step_id s))].
Definition completed_entry (s : Step) (output : Json) : Json :=
  JObject [("output", output); ("status", JString "completed"); ("step_id", JString (step_id s))].

Definition evaluate (expr : string) (ctx : TriggerContext) (outputs : gmap string Json)
    : Prog (result bool WorkflowError) :=
  task <-* ask (RunEval expr ctx outputs) ;; Ret (evaluate_condition task expr ctx outputs).

(** Whether a step runs *)
Definition check_if (s : Step) (ctx : TriggerContext) (outputs : gmap string Json)
    : Prog (result bool WorkflowError) :=
  match if_expr s with Some expr => evaluate expr ctx outputs | None => Ret (Ok true) end.

Definition step_timeout (s : Step) : Z := default (default_timeout_secs config) (timeout_secs s).

(** A step whose condition holds: its action with the templates resolved, within its timeout *)
Definition run_step (community_id : CommunityId) (run : Uuid) (ctx : TriggerContext)
    (outputs : gmap string Json) (s : Step) : Prog (result StepResult WorkflowError) :=
  resolved_action <-% resolve_step_templates (action s) ctx outputs ;;
  r <-* interruptible (DeadlinePassed (step_timeout s)) id
          (dispatch_action community_id run ctx resolved_action) ;;
  match r with
  | Some r => Ret r
  | None => Ret (Err (StepTimeout (step_id s) (step_timeout s)))
  end.

(** The loop over [def.steps.iter().enumerate()], from the step [i] on *)
Fixpoint execute_loop (community_id : CommunityId) (run : Uuid) (ctx : TriggerContext)
    (start_index i : nat) (l : list Step) (outputs : gmap string Json) (tr : list Json)
    : Prog (result ExecutionResult (WorkflowError * PartialProgress)) :=
  match l with
  | [] => Ret (Ok {| approval_token := None; step_index := i; step_outputs := outputs; trace := tr |})
  | s :: l =>
      if i <? start_index then execute_loop community_id run ctx start_index (S i) l outputs tr
      else
        c <-* check_if s ctx outputs ;;
        match c with
        | Err e => Ret (Err (e, {| pp_step_index := i; pp_trace := tr |}))
        | Ok false =>
            execute_loop community_id run ctx start_index (S i) l outputs (tr ++ [skipped_entry s])
        | Ok true =>
            r <-* run_step community_id run ctx outputs s ;;
            match r with
            | Err e => Ret (Err (e, {| pp_step_index := i; pp_trace := tr |}))
            | Ok (Completed output) =>
                execute_loop community_id run ctx start_index (S i) l (<[step_id s := output]> outputs)
                  (tr ++ [completed_entry s output])
            | Ok (Suspended token) =>
                Ret (Ok {| approval_token := Some token; step_index := i; step_outputs := outputs;
                           trace := tr |})
            | Ok Skipped =>
                execute_loop community_id run ctx start_index (S i) l outputs (tr ++ [skipped_entry s])
            end
        end
  end.

Definition execute_steps (community_id : CommunityId) (run : Uuid) (def : WorkflowDef)
    (ctx : TriggerContext) (start_index : nat) (initial_outputs : option (gmap string Json))
    : Prog (result ExecutionResult (WorkflowError * PartialProgress)) :=
  execute_loop community_id run ctx start_index 0 (steps def) (default ∅ initial_outputs) [].

Definition db_error (e : DbError) : WorkflowError :=
  match e with
  | Sqlx e | NotFound e | AccessDenied e | InvalidData e => Database e
  end.

Definition execute_run (community_id : CommunityId) (run : Uuid) (def : WorkflowDef)
    (ctx : TriggerContext) : Prog (result ExecutionResult (WorkflowError * PartialProgress)) :=
  permit <-* ask TryAcquire ;;
  if negb permit then Ret (Err (CapacityExceeded, no_progress))
  else
    u <-* ask (UpdateWorkflowRun community_id run Running 0 (JArray []) None) ;;
    r <-* match u with
          | Err e => Ret (Err (db_error e, no_progress))
          | Ok _ => execute_steps community_id run def ctx 0 None
          end ;;
    _ <-* ask ReleasePermit ;;
    Ret r.

Definition execute_from_step (community_id : CommunityId) (run : Uuid) (def : WorkflowDef)
    (ctx : TriggerContext) (start_index : nat) (initial_outputs : option (gmap string Json))
    : Prog (result ExecutionResult (WorkflowError * PartialProgress)) :=
  permit <-* ask TryAcquire ;;
  if negb permit then Ret (Err (CapacityExceeded, no_progress))
  else
    existing <-* ask (GetWorkflowRun community_id run) ;;
    let existing_trace := match existing with Ok r => run_execution_trace r | Err _ => JArray [] end in
    u <-* ask (UpdateWorkflowRun community_id run Running (as_i32 (Z.of_nat start_index))
                 existing_trace None) ;;
    r <-* match u with
          | Err e => Ret (Err (db_error e, no_progress))
          | Ok _ => execute_steps community_id run def ctx start_index initial_outputs
          end ;;
    _ <-* ask ReleasePermit ;;
    Ret r.

End executor.
