(* ===== verification/WorkflowEngine.v ===== *)
(** * The workflow engine (buzz-workflow/src/lib.rs)

    Triggering by events, the scheduler loop and the end of a run. The engine's semaphore and
    cache are calls of [WorkflowIo]; [last_fired] belongs to the scheduler alone and is passed
    along. serde's forms of definitions and trigger contexts are a class. *)

From S2P Require Import Prelude Text StdText Json Network Nip10 Workflow WorkflowTemplate WorkflowCondition WorkflowDb WorkflowIo WorkflowExec.

Open Scope string_scope.
Open Scope nat_scope.
Open Scope list_scope.

Class WorkflowJson := {
  def_of_json : Json → option WorkflowDef;
  context_to_json : TriggerContext → option Json;
  context_of_json : Json → option TriggerContext
}.

(** [Display] of the errors *)
Definition error_text (e : WorkflowError) : string :=
  match e with
  | InvalidYaml e => "invalid YAML: " +:+ e
  | InvalidDefinition e => "invalid definition: " +:+ e
  | ConditionError e => "condition evaluation error: " +:+ e
  | TemplateError e => "template error: " +:+ e
  | StepTimeout id secs => "step '" +:+ id +:+ "' timed out after " +:+ decimal secs +:+ "s"
  | WebhookError e => "webhook error: " +:+ e
  | CapacityExceeded => "capacity exceeded"
  | Database e => "database error: " +:+ e
  | Unauthorized e => "unauthorized: " +:+ e
  | NotImplemented e => "action not implemented: " +:+ e
  end.

(** ** Kinds (buzz-core/src/kind.rs) *)

Definition KIND_REACTION : N := 7.
Definition KIND_STREAM_MESSAGE : N := 9.
Definition KIND_STREAM_MESSAGE_DIFF : N := 40008.
Definition KIND_WORKFLOW_TRIGGERED : N := 46001.
Definition KIND_WORKFLOW_APPROVAL_DENIED : N := 46012.

Definition is_workflow_execution_kind (kind : N) : bool :=
  ((KIND_WORKFLOW_TRIGGERED <=? kind) && (kind <=? KIND_WORKFLOW_APPROVAL_DENIED))%N.

(** ** Events *)

(** What the engine reads of a [StoredEvent]; a tag is the list of its parts. *)
Record ChannelEvent := {
  ce_id : Bytes;
  ce_pubkey : Bytes;
  ce_created_at : Z;
  ce_kind : N;
  ce_content : string;
  ce_tags : list (list string);
  ce_channel_id : option Uuid
}.

Definition event_is_reply (tags : list (list string)) : bool :=
  match marker_reply (parse_thread_markers tags) with Some _ => true | None => false end.

(** The target of a reaction that one tag names *)
Definition reaction_target (tag : list string) : option string :=
  match tag with
  | key :: v :: _ => if bool_decide (key = "e") && is_event_id_hex v then Some v else None
  | _ => None
  end.

(** [iter().rev().find_map(...)] *)
Fixpoint find_map {A B} (f : A → option B) (l : list A) : option B :=
  match l with
  | [] => None
  | x :: l => match f x with Some y => Some y | None => find_map f l end
  end.

Section triggers.
Context `{IdText} `{HexText} `{TemplateText} `{StringHash} `{EvalExpr}.

Definition build_trigger_context (event : ChannelEvent) : TriggerContext := {|
  text := ce_content event;
  author := hex_encode (ce_pubkey event);
  ctx_channel_id := match ce_channel_id event with Some id => uuid_to_string id | None => "" end;
  timestamp := decimal (ce_created_at event);
  emoji := if decide (ce_kind event = KIND_REACTION) then ce_content event else "";
  message_id :=
    if decide (ce_kind event = KIND_REACTION)
    then default (hex_encode (ce_id event)) (find_map reaction_target (rev (ce_tags event)))
    else hex_encode (ce_id event);
  is_reply := event_is_reply (ce_tags event);
  webhook_fields := ∅ |}.

Definition trigger_matches_event (t : TriggerDef) (kind : N) : bool :=
  match t with
  | MessagePosted _ => (kind =? KIND_STREAM_MESSAGE)%N
  | ReactionAdded _ _ => (kind =? KIND_REACTION)%N
  | DiffPosted _ => (kind =? KIND_STREAM_MESSAGE_DIFF)%N
  | Schedule _ _ | Webhook => false
  end.

Definition emoji_matches (t : TriggerDef) (ctx : TriggerContext) : bool :=
  match t with
  | ReactionAdded (Some expected) _ => bool_decide (emoji ctx = expected)
  | _ => true
  end.

Definition trigger_filter (t : TriggerDef) : option string :=
  match t with
  | MessagePosted filter | ReactionAdded _ filter | DiffPosted filter => filter
  | Schedule _ _ | Webhook => None
  end.

Definition should_fire_workflow (def : WorkflowDef) (ctx : TriggerContext) : Prog bool :=
  if negb (emoji_matches (trigger def) ctx) then Ret false
  else match trigger_filter (trigger def) with
       | Some expr =>
           r <-* evaluate expr ctx ∅ ;;
           Ret (match r with Ok b => b | Err _ => false end)
       | None => Ret true
       end.

End triggers.

(** ** The owner's authority *)

Definition owner_authority_allows (role : option string) (needs_elevated : bool) : bool :=
  match role with
  | None => false
  | Some r => if needs_elevated then bool_decide (r = "owner" ∨ r = "admin") else true
  end.

Definition check_owner_authority (community_id : CommunityId) (channel_id : Uuid)
    (owner_pubkey : Bytes) (def : WorkflowDef) : Prog (result unit WorkflowError) :=
  role <-* ask (GetMemberRole community_id channel_id owner_pubkey) ;;
  match role with
  | Err _ => Ret (Err (Unauthorized "owner authority lookup failed (fail-closed)"))
  | Ok role =>
      if owner_authority_allows role (requires_elevated_authority def) then Ret (Ok tt)
      else Ret (Err (Unauthorized "workflow owner lacks current channel authority"))
  end.

(** ** Schedules; instants count nanoseconds since the epoch *)

Definition NANOS : Z := 1000000000.

(** [DateTime::timestamp] *)
Definition timestamp_secs (t : DateTime) : Z := (t / NANOS)%Z.

(** [DateTime::from_timestamp(secs, 0)]: the years chrono can represent *)
Definition from_timestamp (secs : Z) : option DateTime :=
  if ((-8334601228800 <=? secs) && (secs <=? 8210266876799))%Z then Some (secs * NANOS)%Z else None.

(** [as i64], [i64::div_euclid] *)
Definition u64_as_i64 (n : Z) : Z := ((n + 2 ^ 63) mod 2 ^ 64 - 2 ^ 63)%Z.
Definition div_euclid (a b : Z) : Z := if (0 <? b)%Z then (a / b)%Z else (- (a / - b))%Z.

Definition cron_fire_instant `{Cron} (expr : string) (now window_secs : Z) : option DateTime :=
  match cron_parse (normalize_cron expr) with
  | Some sched =>
      t ← next_after sched (now - window_secs * NANOS)%Z;
      if (t <=? now)%Z then Some t else None
  | None => None
  end.

Definition interval_fire_instant (dur : string) (now : DateTime) : option DateTime :=
  match parse_duration_secs dur with
  | Ok interval_secs =>
      if (0 <? interval_secs)%Z then
        let secs := u64_as_i64 interval_secs in
        from_timestamp (div_euclid (timestamp_secs now) secs * secs)%Z
      else None
  | Err _ => None
  end.

Definition interval_should_fire (dur : string) (last_fired : option DateTime) (now : DateTime) : bool :=
  match parse_duration_secs dur with
  | Ok interval_secs =>
      let last := default now last_fired in
      let elapsed := Z.abs (Z.quot (now - last) NANOS) in
      (interval_secs <=? elapsed)%Z
  | Err _ => false
  end.

Abbreviation LastFired := (gmap (N * N) Z).

Definition interval_prefilter_should_fire (last_fired : LastFired) (community_id : CommunityId)
    (workflow_id : Uuid) (dur : string) (last : option DateTime) (now : DateTime) : bool * LastFired :=
  if interval_should_fire dur last now then (true, last_fired)
  else (false, match last with
               | None => <[(community_id, workflow_id) := now]> last_fired
               | Some _ => last_fired
               end).

(** ** The end of a run *)

Definition finalize_run (community_id : CommunityId) (run : Uuid)
    (r : result ExecutionResult (WorkflowError * PartialProgress)) (existing_trace : option (list Json))
    : Prog unit :=
  let prefix := default [] existing_trace in
  match r with
  | Ok r =>
      let trace_json := JArray (prefix ++ trace r) in
      let step_count := as_i32 (Z.of_nat (step_index r)) in
      let '(status, failure) :=
        match approval_token r with
        | Some _ =>
            (Failed, Some {| failure_code := "approval_not_supported";
                             failure_message := "approval gates not yet implemented — see WF-08" |})
        | None => (WorkflowDb.Completed, None)
        end in
      _ <-* ask (UpdateWorkflowRun community_id run status step_count trace_json failure) ;;
      Ret tt
  | Err (e, progress) =>
      let trace_json := JArray (prefix ++ pp_trace progress) in
      _ <-* ask (UpdateWorkflowRun community_id run Failed (as_i32 (Z.of_nat (pp_step_index progress)))
                   trace_json (Some {| failure_code := code e; failure_message := error_text e |})) ;;
      Ret tt
  end.

Section engine.
Context `{UuidText} `{IdText} `{WebText} `{HexText} `{TemplateText} `{StringHash} `{EvalExpr}.
Context `{Cron} `{WorkflowJson}.

(** ** Events *)

(** One turn of the loop over the channel's workflows *)
Definition fire_on_event (community_id : CommunityId) (channel_id : Uuid) (event : ChannelEvent)
    (ctx : TriggerContext) (ctx_json : Json) (w : WorkflowRecord) : Prog unit :=
  match def_of_json (wr_definition w) with
  | None => Ret tt
  | Some def =>
      if negb (enabled def) || negb (trigger_matches_event (trigger def) (ce_kind event)) then Ret tt
      else
        fire <-* should_fire_workflow def ctx ;;
        if negb fire then Ret tt
        else
          authority <-* check_owner_authority community_id channel_id (wr_owner_pubkey w) def ;;
          match authority with
          | Err _ => Ret tt
          | Ok _ =>
              run <-* ask (CreateWorkflowRun community_id (wr_id w) (Some (ce_id event)) (Some ctx_json)) ;;
              match run with
              | Err _ => Ret tt
              | Ok run => _ <-* ask (Spawn (ExecuteRunTask community_id run def ctx)) ;; Ret tt
              end
          end
  end.

Fixpoint for_each {A} (body : A → Prog unit) (l : list A) : Prog unit :=
  match l with
  | [] => Ret tt
  | x :: l => _ <-* body x ;; for_each body l
  end.

Definition channel_workflows (community_id : CommunityId) (channel_id : Uuid)
    : Prog (result (list WorkflowRecord) WorkflowError) :=
  cached <-* ask (CacheGet community_id channel_id) ;;
  match cached with
  | Some l => Ret (Ok l)
  | None =>
      fresh <-* ask (ListEnabledChannelWorkflows community_id channel_id) ;;
      match fresh with
      | Err e => Ret (Err (db_error e))
      | Ok l => _ <-* ask (CacheInsert community_id channel_id l) ;; Ret (Ok l)
      end
  end.

Definition on_event (community_id : CommunityId) (event : ChannelEvent)
    : Prog (result unit WorkflowError) :=
  match ce_channel_id event with
  | None => Ret (Ok tt)
  | Some channel_id =>
      if is_workflow_execution_kind (ce_kind event) then Ret (Ok tt)
      else
        workflows <-! channel_workflows community_id channel_id ;;
        match workflows with
        | [] => Ret (Ok tt)
        | _ =>
            let ctx := build_trigger_context event in
            match context_to_json ctx with
            | None => Ret (Ok tt)
            | Some ctx_json =>
                _ <-* for_each (fire_on_event community_id channel_id event ctx ctx_json) workflows ;;
                Ret (Ok tt)
            end
        end
  end.

(** ** The scheduler *)

Inductive ScheduleKind := ByCron | ByInterval.

(** The instant a workflow is to be fired for in this tick, if any *)
Definition schedule_instant (w : WorkflowRecord) (def : WorkflowDef) (now : DateTime)
    (last_fired : LastFired) : Prog (option (DateTime * ScheduleKind) * LastFired) :=
  match trigger def with
  | Schedule (Some expr) None =>
      Ret ((λ t, (t, ByCron)) <$> cron_fire_instant expr now 60, last_fired)
  | Schedule None (Some dur) =>
      last <-* match last_fired !! (wr_community_id w, wr_id w) with
               | Some t => Ret (Some t)
               | None =>
                   anchor <-* ask (LatestScheduledFire (wr_community_id w) (wr_id w)) ;;
                   Ret (match anchor with Ok t => t | Err _ => None end)
               end ;;
      match interval_prefilter_should_fire last_fired (wr_community_id w) (wr_id w) dur last now with
      | (false, last_fired) => Ret (None, last_fired)
      | (true, last_fired) => Ret ((λ t, (t, ByInterval)) <$> interval_fire_instant dur now, last_fired)
      end
  | _ => Ret (None, last_fired)
  end.

Definition fired (k : ScheduleKind) (w : WorkflowRecord) (now : DateTime) (last_fired : LastFired) : LastFired :=
  match k with
  | ByInterval => <[(wr_community_id w, wr_id w) := now]> last_fired
  | ByCron => last_fired
  end.

Definition scheduled_context (channel_id : Uuid) (now : DateTime) : TriggerContext := {|
  text := ""; author := ""; ctx_channel_id := uuid_to_string channel_id;
  timestamp := decimal (timestamp_secs now); emoji := ""; message_id := ""; is_reply := false;
  webhook_fields := ∅ |}.

(** The claim of an instant, and the run of the winner *)
Definition claim_and_run (w : WorkflowRecord) (def : WorkflowDef) (channel_id : Uuid) (now : DateTime)
    (scheduled_for : DateTime) (k : ScheduleKind) (last_fired : LastFired) : Prog LastFired :=
  claim <-* ask (ClaimScheduledFire (wr_community_id w) (wr_id w) scheduled_for) ;;
  match claim with
  | Err _ => Ret last_fired
  | Ok None => Ret (fired k w now last_fired)
  | Ok (Some _) =>
      let ctx := scheduled_context channel_id now in
      match context_to_json ctx with
      | None => Ret last_fired
      | Some ctx_json =>
          run <-* ask (CreateWorkflowRun (wr_community_id w) (wr_id w) None (Some ctx_json)) ;;
          match run with
          | Err _ => Ret last_fired
          | Ok run =>
              _ <-* ask (AttachScheduledRun (wr_community_id w) (wr_id w) scheduled_for run) ;;
              _ <-* ask (Spawn (ExecuteRunTask (wr_community_id w) run def ctx)) ;;
              Ret (fired k w now last_fired)
          end
      end
  end.

(** One turn of the loop over the scheduled workflows *)
Definition schedule_one (now : DateTime) (last_fired : LastFired) (w : WorkflowRecord) : Prog LastFired :=
  match def_of_json (wr_definition w) with
  | None => Ret last_fired
  | Some def =>
      if negb (enabled def) then Ret last_fired
      else match wr_channel_id w with
      | None => Ret last_fired
      | Some channel_id =>
          i <-* schedule_instant w def now last_fired ;;
          match i with
          | (None, last_fired) => Ret last_fired
          | (Some (scheduled_for, k), last_fired) =>
              authority <-* check_owner_authority (wr_community_id w) channel_id (wr_owner_pubkey w) def ;;
              match authority with
              | Err _ => Ret last_fired
              | Ok _ => claim_and_run w def channel_id now scheduled_for k last_fired
              end
          end
      end
  end.

Fixpoint schedule_all (now : DateTime) (last_fired : LastFired) (l : list WorkflowRecord) : Prog LastFired :=
  match l with
  | [] => Ret last_fired
  | w :: l => last_fired <-* schedule_one now last_fired w ;; schedule_all now last_fired l
  end.

(** The body of the scheduler's loop *)
Definition tick (last_fired : LastFired) : Prog LastFired :=
  _ <-* ask (Sleep 60) ;;
  now <-* ask UtcNow ;;
  workflows <-* ask ListAllEnabledWorkflows ;;
  match workflows with
  | Err _ => Ret last_fired
  | Ok workflows =>
      last_fired <-* schedule_all now last_fired workflows ;;
      let active_ids := (λ w, (wr_community_id w, wr_id w)) <$> workflows in
      Ret (filter (λ x, x.1 ∈ active_ids) last_fired)
  end.

(** The first [n] turns of the scheduler *)
Fixpoint run_scheduler (n : nat) (last_fired : LastFired) : Prog LastFired :=
  match n with
  | 0 => Ret last_fired
  | S n => last_fired <-* tick last_fired ;; run_scheduler n last_fired
  end.

(** [WorkflowEngine::run] on a new engine, for [n] turns *)
Definition run (n : nat) : Prog unit := _ <-* run_scheduler n ∅ ;; Ret tt.

End engine.
