(* ===== verification/WorkflowCommands.v ===== *)
(** * The relay's workflow handlers (buzz-relay/src/handlers/command_executor.rs,
    side_effects.rs, api/bridge.rs, webhook_secret.rs)

    The commands that define, trigger and approve workflows, the webhook door, what happens
    when a member leaves, and the tasks the handlers spawn. [persist_command_event] and the
    membership cache are calls; SHA-256 of a definition is a class. *)

From S2P Require Import Prelude Text StdText Json Nip10 Workflow WorkflowTemplate WorkflowCondition WorkflowDb WorkflowIo WorkflowExec WorkflowEngine.

Open Scope string_scope.
Open Scope nat_scope.
Open Scope list_scope.

(** ** webhook_secret.rs *)

(** [serde_json::Map::insert]: the keys are in byte order. *)
Fixpoint object_insert (k : string) (v : Json) (m : list (string * Json)) : list (string * Json) :=
  match m with
  | [] => [(k, v)]
  | (k', v') :: m =>
      if decide (k' = k) then (k, v) :: m
      else if decide (String.le k k') then (k, v) :: (k', v') :: m
      else (k', v') :: object_insert k v m
  end.

Definition inject_secret (def : Json) (secret : string) : Json :=
  match def with
  | JObject m => JObject (object_insert "_webhook_secret" (JString secret) m)
  | def => def
  end.

Definition extract_secret (def : Json) : option string := json_get "_webhook_secret" def ≫= as_str.

Definition strip_secret (def : Json) : Json :=
  match def with
  | JObject m => JObject (filter (λ x, x.1 ≠ "_webhook_secret") m)
  | def => def
  end.

(** The fold over the bytes of both texts *)
Fixpoint xor_fold (acc : N) (x y : string) : N :=
  match x, y with
  | String a x, String b y => xor_fold (N.lor acc (N.lxor (code_of a) (code_of b))) x y
  | _, _ => acc
  end.

Definition verify_secret (provided stored : string) : bool :=
  if negb (String.length provided =? String.length stored) then false
  else (xor_fold 0 provided stored =? 0)%N.

(** ** Commands *)

(** What the handlers read of a command event, and of the connection's authentication *)
Record Command := {
  cmd_id : Bytes;
  cmd_pubkey : Bytes;
  cmd_content : string;
  cmd_tags : list (list string)
}.

Inductive IngestError := Rejected (e : string) | AuthFailed (e : string) | Internal (e : string).

(** The message of an accepted command: nothing new, or a response *)
Inductive IngestResult := DuplicateOf (event_id : Bytes) | Response (event_id : Bytes) (body : Json).

(** The first tag with this kind that has a content *)
Definition extract_tag (event : Command) (tag_name : string) : option string :=
  find_map (λ t, match t with
                 | key :: v :: _ => if decide (key = tag_name) then Some v else None
                 | _ => None end) (cmd_tags event).
Definition extract_h_tag (event : Command) : option string := extract_tag event "h".
Definition extract_d_tag (event : Command) : option string := extract_tag event "d".
Definition extract_e_tag (event : Command) : option string := extract_tag event "e".

Definition or_else {A} (x y : option A) : option A := match x with Some _ => x | None => y end.

(** [x.ok_or(e)] *)
Definition ok_or {A} (o : option A) (e : IngestError) : result A IngestError :=
  match o with Some x => Ok x | None => Err e end.

Class DefinitionHash := { compute_definition_hash : string → list Z }.

Section handlers.
Context `{UuidText} `{IdText} `{WebText} `{HexText} `{TemplateText} `{StringHash} `{EvalExpr}.
Context `{Cron} `{WorkflowJson} `{DefText} `{DefinitionHash}.
Context (config : WorkflowConfig) (env : ReactionEnv) (chunks_before_timeout : nat).

(** [persist_command_event(...).await?]; the transaction stays open until the commit. *)
Definition persist (event : Command) (channel_id : option Uuid) : Prog (result PersistResult IngestError) :=
  r <-* ask (PersistCommandEvent (cmd_id event) channel_id) ;;
  Ret (map_err Rejected r).

Definition commit : Prog (result unit IngestError) :=
  r <-* ask CommitTransaction ;;
  Ret (map_err (λ e, Internal ("error: commit transaction: " +:+ e)) r).

(** ** Definitions *)

(** The definition with its secret, and the secret if it is new *)
Definition secret_for (def : WorkflowDef) (existing : option WorkflowRecord) (definition_json : Json)
    : Prog (Json * option string) :=
  match trigger def with
  | Webhook =>
      let existing_secret := existing ≫= λ w, extract_secret (wr_definition w) in
      match existing_secret with
      | Some secret => Ret (inject_secret definition_json secret, None)
      | None =>
          id <-* ask NewUuid ;;
          let secret := uuid_to_string id in
          Ret (inject_secret definition_json secret, Some secret)
      end
  | _ => Ret (definition_json, None)
  end.

Definition check_elevated (community_id : CommunityId) (channel_id : Uuid) (self_bytes : Bytes)
    (def : WorkflowDef) : Prog (result unit IngestError) :=
  if negb (requires_elevated_authority def) then Ret (Ok tt)
  else
    role <-* ask (GetMemberRole community_id channel_id self_bytes) ;;
    match role with
    | Err _ => Ret (Err (Internal "error: role check"))
    | Ok role =>
        if bool_decide (role = Some "owner" ∨ role = Some "admin") then Ret (Ok tt)
        else Ret (Err (Rejected "forbidden: call_webhook requires the owner or admin role"))
    end.

Definition check_existing (community_id : CommunityId) (workflow_id channel_id : Uuid) (self_bytes : Bytes)
    : Prog (result (option WorkflowRecord) IngestError) :=
  w <-* ask (GetWorkflow community_id workflow_id) ;;
  match w with
  | Ok w =>
      if decide (wr_owner_pubkey w = self_bytes ∧ wr_channel_id w = Some channel_id)
      then Ret (Ok (Some w))
      else Ret (Err (Rejected "forbidden: workflow belongs to a different owner or channel"))
  | Err (NotFound _) => Ret (Ok None)
  | Err _ => Ret (Err (Internal "error: db get_workflow"))
  end.

Definition response_with_secret (workflow_id : Uuid) (secret : option string) : Json :=
  JObject (match secret with
           | Some secret => [("webhook_secret", JString secret);
                             ("workflow_id", JString (uuid_to_string workflow_id))]
           | None => [("workflow_id", JString (uuid_to_string workflow_id))]
           end).

(** From the open transaction on *)
Definition save_workflow (community_id : CommunityId) (event : Command) (workflow_id channel_id : Uuid)
    (name : string) (definition : Json) (secret : option string)
    : Prog (result IngestResult IngestError) :=
  let hash := compute_definition_hash (json_text definition) in
  p <-! persist event None ;;
  match p with
  | Duplicate => Ret (Ok (DuplicateOf (cmd_id event)))
  | Inserted =>
      ch <-* ask (GetChannel community_id channel_id) ;;
      match ch with
      | Err _ => Ret (Err (Rejected "invalid: workflow channel not found"))
      | Ok _ =>
          u <-* ask (UpsertWorkflow community_id workflow_id (Some channel_id) (cmd_pubkey event) name
                       definition hash) ;;
          match u with
          | Err (AccessDenied _) =>
              Ret (Err (Rejected "forbidden: workflow belongs to a different owner or channel"))
          | Err _ => Ret (Err (Internal "error: db upsert_workflow"))
          | Ok _ =>
              _ <-* ask (CacheInvalidate community_id channel_id) ;;
              _ <-! commit ;;
              Ret (Ok (Response (cmd_id event) (response_with_secret workflow_id secret)))
          end
      end
  end.

Definition handle_workflow_def (community_id : CommunityId) (event : Command)
    : Prog (result IngestResult IngestError) :=
  channel_id_str <-% ok_or (extract_h_tag event) (Rejected "invalid: missing h tag (channel_id)") ;;
  channel_id <-% ok_or (uuid_parse_str channel_id_str) (Rejected "invalid: bad channel_id format") ;;
  workflow_id_str <-% ok_or (extract_d_tag event) (Rejected "invalid: missing d tag (workflow_id)") ;;
  workflow_id <-% ok_or (uuid_parse_str workflow_id_str) (Rejected "invalid: bad workflow_id format") ;;
  is_member <-* ask (IsMember community_id channel_id (cmd_pubkey event)) ;;
  match is_member with
  | Err _ => Ret (Err (Internal "error: membership check"))
  | Ok false => Ret (Err (Rejected "forbidden: not a member of this channel"))
  | Ok true =>
      match parse_yaml (cmd_content event) with
      | Err _ => Ret (Err (Rejected "invalid: workflow YAML parse error"))
      | Ok (def, definition_json_str) =>
          let name := default (wf_name def) (extract_tag event "name") in
          _ <-! check_elevated community_id channel_id (cmd_pubkey event) def ;;
          definition_json <-% ok_or (json_parse definition_json_str)
                                (Internal "error: json parse of definition") ;;
          existing <-! check_existing community_id workflow_id channel_id (cmd_pubkey event) ;;
          s <-* secret_for def existing definition_json ;;
          save_workflow community_id event workflow_id channel_id name s.1 s.2
      end
  end.

(** ** Triggers *)

(** The fields of a JSON object as the texts a trigger context keeps *)
Definition object_fields (v : option Json) : gmap string string :=
  match v with
  | Some (JObject m) =>
      foldl (λ f x, <[x.1 := match x.2 with JString s => s | other => json_text other end]> f) ∅ m
  | _ => ∅
  end.

Definition live (w : WorkflowRecord) : bool := wr_enabled w && bool_decide (wr_status w = Active).

Definition manual_context (w : WorkflowRecord) (event : Command) : TriggerContext := {|
  text := ""; author := hex_encode (cmd_pubkey event);
  ctx_channel_id := match wr_channel_id w with Some id => uuid_to_string id | None => "" end;
  timestamp := ""; emoji := ""; message_id := ""; is_reply := false;
  webhook_fields := if decide (cmd_content event = "") then ∅
                    else object_fields (json_parse (cmd_content event)) |}.

Definition handle_workflow_trigger (community_id : CommunityId) (event : Command)
    : Prog (result IngestResult IngestError) :=
  workflow_id_str <-% ok_or (or_else (extract_d_tag event) (extract_e_tag event))
                        (Rejected "invalid: missing workflow reference (d or e tag)") ;;
  workflow_id <-% ok_or (uuid_parse_str workflow_id_str) (Rejected "invalid: bad workflow_id format") ;;
  w <-* ask (GetWorkflow community_id workflow_id) ;;
  match w with
  | Err _ => Ret (Err (Rejected "invalid: workflow not found"))
  | Ok w =>
      if negb (bool_decide (wr_owner_pubkey w = cmd_pubkey event))
      then Ret (Err (Rejected "forbidden: not authorized to trigger this workflow"))
      else if negb (live w) then Ret (Err (Rejected "forbidden: workflow is disabled or inactive"))
      else
        def <-% ok_or (def_of_json (wr_definition w)) (Internal "error: corrupt workflow definition") ;;
        wf_channel_id <-% ok_or (wr_channel_id w) (Rejected "forbidden: workflow has no channel scope") ;;
        authority <-* check_owner_authority community_id wf_channel_id (wr_owner_pubkey w) def ;;
        match authority with
        | Err _ => Ret (Err (Rejected "forbidden: not authorized to trigger this workflow"))
        | Ok _ =>
            p <-! persist event (wr_channel_id w) ;;
            match p with
            | Duplicate => Ret (Ok (DuplicateOf (cmd_id event)))
            | Inserted =>
                let ctx := manual_context w event in
                run <-* ask (CreateWorkflowRun community_id workflow_id (Some (cmd_id event))
                               (context_to_json ctx)) ;;
                match run with
                | Err _ => Ret (Err (Internal "error: db create_workflow_run"))
                | Ok run =>
                    _ <-! commit ;;
                    _ <-* ask (Spawn (ExecuteStoredTask community_id run (wr_definition w) ctx)) ;;
                    Ret (Ok (Response (cmd_id event) (JObject [("run_id", JString (uuid_to_string run))])))
                end
            end
        end
  end.

(** ** The webhook door (api/bridge.rs) *)

Record WebhookCall := {
  wc_id : string;
  wc_host : option string;
  wc_secret_header : option string;
  wc_secret_query : option string;
  wc_body : string
}.

Record Reply := { status : Z; reply_body : Json }.

Definition api_error (status : Z) (msg : string) : Reply :=
  {| status := status; reply_body := JObject [("error", JString msg)] |}.
Definition not_found : Reply := api_error 404 "workflow not found".
Definition internal_error : Reply := api_error 500 "internal server error".

Definition webhook_context (w : WorkflowRecord) (body : option Json) : TriggerContext := {|
  text := ""; author := "";
  ctx_channel_id := match wr_channel_id w with Some id => uuid_to_string id | None => "" end;
  timestamp := ""; emoji := ""; message_id := ""; is_reply := false;
  webhook_fields := object_fields body |}.

(** Row zero, the workflow, its trigger and the secret *)
Definition authenticate_webhook (q : WebhookCall) (w : WorkflowRecord) (def : WorkflowDef)
    : result unit Reply :=
  guard! match trigger def with Webhook => true | _ => false end
    else api_error 400 "workflow does not have a webhook trigger" ;;
  let provided := default "" (or_else (wc_secret_header q) (wc_secret_query q)) in
  match extract_secret (wr_definition w) with
  | Some secret =>
      guard! verify_secret provided secret else api_error 401 "authentication failed" ;; Ok tt
  | None => Err (api_error 401 "webhook secret required but not configured")
  end.

Definition webhook_body (q : WebhookCall) : result (option Json) Reply :=
  if decide (wc_body q = "") then Ok None
  else match json_parse (wc_body q) with
       | Some v => Ok (Some v)
       | None => Err (api_error 400 "invalid JSON body")
       end.

Definition workflow_webhook (q : WebhookCall) : Prog (result Reply Reply) :=
  id <-% match uuid_parse_str (wc_id q) with
         | Some id => Ok id | None => Err (api_error 400 "invalid workflow UUID") end ;;
  community <-* ask (BindCommunity (default "" (wc_host q))) ;;
  match community with
  | Err _ => Ret (Err not_found)
  | Ok community_id =>
      w <-* ask (GetWorkflow community_id id) ;;
      match w with
      | Err _ => Ret (Err not_found)
      | Ok w =>
          def <-% match def_of_json (wr_definition w) with
                  | Some def => Ok def | None => Err internal_error end ;;
          _ <-% authenticate_webhook q w def ;;
          body <-% webhook_body q ;;
          let ctx := webhook_context w body in
          if negb (live w) then Ret (Err not_found)
          else match wr_channel_id w with
          | None => Ret (Err not_found)
          | Some wf_channel_id =>
              authority <-* check_owner_authority community_id wf_channel_id (wr_owner_pubkey w) def ;;
              match authority with
              | Err _ => Ret (Err not_found)
              | Ok _ =>
                  run <-* ask (CreateWorkflowRun community_id id None (context_to_json ctx)) ;;
                  match run with
                  | Err _ => Ret (Err internal_error)
                  | Ok run =>
                      _ <-* ask (Spawn (ExecuteStoredTask community_id run (wr_definition w) ctx)) ;;
                      Ret (Ok {| status := 202;
                                 reply_body := JObject [("run_id", JString (uuid_to_string run));
                                                        ("status", JString "pending");
                                                        ("workflow_id", JString (uuid_to_string id))] |})
                  end
              end
          end
      end
  end.

(** ** Approvals *)

(** The comparison of the two lower-case forms is reached with hexadecimal digits only. *)
Definition check_approver_spec (approver_spec requester_hex : string) : result unit IngestError :=
  let spec := str_trim approver_spec in
  if decide (spec = "" ∨ spec = "any") then Ok tt
  else if is_event_id_hex spec then
    guard! bool_decide (to_ascii_lowercase requester_hex = to_ascii_lowercase spec)
      else Rejected "forbidden: not the designated approver for this request" ;;
    Ok tt
  else Err (Rejected "forbidden: approver spec is not yet supported").

(** Both commands up to the decision: the approval's key and record *)
Definition find_approval (community_id : CommunityId) (event : Command)
    : Prog (result (Bytes * ApprovalRecord) IngestError) :=
  token_hash_hex <-% ok_or (or_else (extract_d_tag event) (extract_e_tag event))
                       (Rejected "invalid: missing approval reference (d or e tag)") ;;
  token_hash <-% ok_or (hex_decode token_hash_hex) (Rejected "invalid: bad approval token hash hex") ;;
  a <-* ask (GetApprovalByStoredHash community_id token_hash) ;;
  match a with
  | Err _ => Ret (Err (Rejected "invalid: approval not found"))
  | Ok a =>
      if negb (bool_decide (ap_status a = Pending)) then Ret (Err (Rejected "invalid: approval already acted on"))
      else
        now <-* ask UtcNow ;;
        if (ap_expires_at a <? now)%Z then Ret (Err (Rejected "invalid: approval token has expired"))
        else
          _ <-% check_approver_spec (ap_approver_spec a) (hex_encode (cmd_pubkey event)) ;;
          Ret (Ok (token_hash, a))
  end.

(** Both commands: the decision, and the task that follows the commit *)
Definition decide_approval (decision : ApprovalStatus) (task : ApprovalRecord → Task) (word : string)
    (community_id : CommunityId) (event : Command) : Prog (result IngestResult IngestError) :=
  f <-! find_approval community_id event ;;
  p <-! persist event None ;;
  match p with
  | Duplicate => Ret (Ok (DuplicateOf (cmd_id event)))
  | Inserted =>
      let note := if decide (cmd_content event = "") then None else Some (cmd_content event) in
      updated <-* ask (UpdateApprovalByStoredHash community_id f.1 decision (Some (cmd_pubkey event)) note) ;;
      match updated with
      | Err _ => Ret (Err (Internal "error: db update_approval"))
      | Ok false => Ret (Err (Rejected "invalid: approval already acted on (race)"))
      | Ok true =>
          _ <-! commit ;;
          _ <-* ask (Spawn (task f.2)) ;;
          Ret (Ok (Response (cmd_id event)
                     (JObject [("run_id", JString (uuid_to_string (ap_run_id f.2)));
                               ("status", JString word)])))
      end
  end.

(** [approval.step_index as usize + 1] *)
Definition resume_index (a : ApprovalRecord) : nat := S (Z.to_nat (ap_step_index a mod 2 ^ 64)).

Definition handle_approval_grant (community_id : CommunityId) (event : Command)
    : Prog (result IngestResult IngestError) :=
  decide_approval Granted
    (λ a, ResumeTask community_id (ap_run_id a) (ap_workflow_id a) (resume_index a))
    "granted" community_id event.

Definition handle_approval_deny (community_id : CommunityId) (event : Command)
    : Prog (result IngestResult IngestError) :=
  decide_approval Denied
    (λ a, CancelTask community_id (ap_run_id a) (hex_encode (cmd_pubkey event)))
    "denied" community_id event.

(** ** The spawned tasks *)

Definition fail_invalid (community_id : CommunityId) (run : Uuid) (current_step : Z) (trace : Json)
    : Prog unit :=
  _ <-* ask (UpdateWorkflowRun community_id run Failed current_step trace
               (Some {| failure_code := "invalid_definition";
                        failure_message := "definition parse error" |})) ;;
  Ret tt.

Definition execute_stored (community_id : CommunityId) (run : Uuid) (definition : Json)
    (ctx : TriggerContext) : Prog unit :=
  match def_of_json definition with
  | None => fail_invalid community_id run 0 (JArray [])
  | Some def =>
      r <-* execute_from_step config env chunks_before_timeout community_id run def ctx 0 None ;;
      finalize_run community_id run r None
  end.

(** The outputs that a trace records *)
Definition output_of_entry (entry : Json) : option (string * Json) :=
  step_id ← json_get "step_id" entry ≫= as_str; output ← json_get "output" entry;
  Some (step_id, output).

Definition record_output (m : gmap string Json) (entry : Json) : gmap string Json :=
  match output_of_entry entry with
  | Some (step_id, output) => <[step_id := output]> m
  | None => m
  end.

Definition outputs_of_trace (execution_trace : Json) : gmap string Json :=
  match as_array execution_trace with
  | Some entries => foldl record_output ∅ entries
  | None => ∅
  end.

Definition resume_workflow_after_approval (community_id : CommunityId) (run workflow : Uuid)
    (resume_index : nat) : Prog unit :=
  r <-* ask (GetWorkflowRun community_id run) ;;
  match r with
  | Err _ => Ret tt
  | Ok r =>
      if negb (bool_decide (run_status r = WaitingApproval)) then Ret tt
      else
        w <-* ask (GetWorkflow community_id workflow) ;;
        match w with
        | Err _ => Ret tt
        | Ok w =>
            match def_of_json (wr_definition w) with
            | None => fail_invalid community_id run (run_current_step r) (run_execution_trace r)
            | Some def =>
                let initial_outputs := outputs_of_trace (run_execution_trace r) in
                let ctx := default empty_context (run_trigger_context r ≫= context_of_json) in
                let existing_trace := as_array (run_execution_trace r) in
                result <-* execute_from_step config env chunks_before_timeout community_id run def ctx
                             resume_index (Some initial_outputs) ;;
                finalize_run community_id run result existing_trace
            end
        end
  end.

Definition cancel_denied (community_id : CommunityId) (run : Uuid) (pubkey_hex : string) : Prog unit :=
  r <-* ask (GetWorkflowRun community_id run) ;;
  match r with
  | Err _ => Ret tt
  | Ok r =>
      if negb (bool_decide (run_status r = WaitingApproval)) then Ret tt
      else
        _ <-* ask (UpdateWorkflowRun community_id run Cancelled (run_current_step r) (run_execution_trace r)
                     (Some {| failure_code := "approval_denied";
                              failure_message := "workflow cancelled: approval denied by " +:+ pubkey_hex |})) ;;
        Ret tt
  end.

(** The task that [tokio::spawn] starts *)
Definition task_program (t : Task) : Prog unit :=
  match t with
  | ExecuteRunTask community_id run def ctx =>
      r <-* execute_run config env chunks_before_timeout community_id run def ctx ;;
      finalize_run community_id run r None
  | ExecuteStoredTask community_id run definition ctx => execute_stored community_id run definition ctx
  | ResumeTask community_id run workflow resume_index =>
      resume_workflow_after_approval community_id run workflow resume_index
  | CancelTask community_id run pubkey_hex => cancel_denied community_id run pubkey_hex
  end.

(** ** Departures and deletions (side_effects.rs) *)

Definition disable_departed_member_workflows (community_id : CommunityId) (channel_id : Uuid)
    (target_pubkey : Bytes) : Prog unit :=
  n <-* ask (DisableWorkflows community_id channel_id target_pubkey) ;;
  match n with
  | Ok n => if (n =? 0)%Z then Ret tt
            else _ <-* ask (CacheInvalidate community_id channel_id) ;; Ret tt
  | Err _ => Ret tt
  end.

Definition delete_one (community_id : CommunityId) (id : Uuid) (actor_bytes : Bytes)
    : Prog (result unit DbError) :=
  r <-* ask (DeleteWorkflowForOwner community_id id actor_bytes) ;;
  match r with
  | Err e => Ret (Err e)
  | Ok None => Ret (Ok tt)
  | Ok (Some channel_id) => _ <-* ask (CacheInvalidate community_id channel_id) ;; Ret (Ok tt)
  end.

(** The workflow arm of [handle_a_tag_deletion] *)
Definition delete_workflow_event (community_id : CommunityId) (actor_bytes : Bytes) (d_tag : string)
    : Prog (result unit DbError) :=
  match uuid_parse_str d_tag with
  | Some id => delete_one community_id id actor_bytes
  | None =>
      w <-* ask (FindByOwnerAndName community_id actor_bytes d_tag) ;;
      match w with
      | Ok (Some w) => delete_one community_id (wr_id w) actor_bytes
      | Ok None | Err _ => Ret (Ok tt)
      end
  end.

End handlers.
