(* ===== verification/WorkflowExamples.v ===== *)
(** * Concrete environments and workflows for the examples

    Instances of the engine's parameters (texts of ids, URLs, hex), a workflow with a gate and
    one with a webhook, and what a quiet environment makes of their runs. *)

From S2P Require Import Prelude Text StdText Json Network Nip10 Workflow WorkflowTemplate WorkflowCondition WorkflowDb WorkflowIo WorkflowExec WorkflowEngine WorkflowCommands.

Open Scope string_scope.
Open Scope nat_scope.
Open Scope list_scope.

Definition example_uuids : UuidText := {| uuid_parse_str := λ s, Z.to_N <$> parse_u64 s |}.
Definition example_ids : IdText := {|
  uuid_to_string := λ n, decimal (Z.of_N n);
  hex_decode := λ s, (λ n, [n]) <$> parse_u64 s |}.
Definition example_web : WebText := {|
  url_parse := λ s, match strip_prefix "https://" s with
                    | Some host => Ok (Some host, Some 443%Z)
                    | None => Err "relative URL without a base" end;
  method_ok := λ s, bool_decide (s = "POST");
  json_parse := λ _, None |}.
Definition example_hex : HexText := {| hex_encode := λ l, match l with n :: _ => decimal n | [] => "" end |}.

(** Every stored definition is [def], every context parses. *)
Definition example_json (def : WorkflowDef) : WorkflowJson := {|
  def_of_json := λ _, Some def;
  context_to_json := λ _, Some JNull;
  context_of_json := λ _, None |}.

Definition example_config : WorkflowConfig := {| max_concurrent := 10; default_timeout_secs := 300 |}.
Definition example_env : ReactionEnv := {| relay_base_url := None; api_token := None; relay_pubkey := None |}.

Definition plain_step (id : string) (a : ActionDef) : Step := {|
  step_id := id; step_name := None; if_expr := None; timeout_secs := None; action := a |}.

Definition gated_workflow : WorkflowDef := {|
  wf_name := "gated"; description := None; trigger := Webhook; enabled := true;
  steps := [plain_step "wait" (Delay "5s"); plain_step "gate" (RequestApproval "7" "go on?" None);
            plain_step "again" (Delay "6s")] |}.

Definition calling_workflow : WorkflowDef := {|
  wf_name := "calling"; description := None; trigger := Webhook; enabled := true;
  steps := [plain_step "call" (CallWebhook "https://example.org" None None None)] |}.

(** A program that a quiet environment brings to its end *)
Lemma play_returns {A} (r : ∀ e, Ans e) (n : nat) (p : Prog A) (a : A) :
  (play r n p).2 = Ret a → Interaction.runs p (play r n p).1 (Ret a).
Proof. intros <-. apply play_runs. Qed.
