(* ===== verification/WorkflowSchedule.v ===== *)
(** * The scheduler: at most one run per scheduled instant

    What a tick of [WorkflowEngine::run] does before it creates a run, the claims in the log
    of any number of engines and other programs over one database, and what cron windows and
    interval anchors keep and miss. *)

From S2P Require Import Prelude Text StdText Json Network Workflow WorkflowTemplate WorkflowCondition WorkflowDb WorkflowIo WorkflowExec WorkflowEngine.

Open Scope string_scope.
Open Scope nat_scope.
Open Scope list_scope.

(** ** What is known from a history *)

Definition listed (h : list Entry) (r : WorkflowRecord) : Prop :=
  ∃ l, entry ListAllEnabledWorkflows (Ok l) ∈ h ∧ r ∈ l.

Definition clock (h : list Entry) (t : DateTime) : Prop := entry UtcNow t ∈ h.

(** The instant that a definition's own schedule gives at a tick *)
Definition scheduled_at `{Cron} (def : WorkflowDef) (now t : DateTime) : Prop :=
  match trigger def with
  | Schedule (Some expr) None => cron_fire_instant expr now 60 = Some t
  | Schedule None (Some dur) => interval_fire_instant dur now = Some t
  | _ => False
  end.

(** The row of a workflow with its definition and channel *)
Definition row `{WorkflowJson} (r : WorkflowRecord) (c w : Uuid) (def : WorkflowDef) (ch : Uuid) : Prop :=
  wr_community_id r = c ∧ wr_id r = w ∧ wr_channel_id r = Some ch
  ∧ def_of_json (wr_definition r) = Some def ∧ enabled def = true.

(** A role that may run the definition: any, and only owners and admins with webhooks *)
Definition allowed (role : option string) (def : WorkflowDef) : Prop :=
  ∃ r, role = Some r ∧ (requires_elevated_authority def = true → r = "owner" ∨ r = "admin").

Lemma owner_authority_allowed (role : option string) (def : WorkflowDef) :
  owner_authority_allows role (requires_elevated_authority def) = true → allowed role def.
Proof.
  destruct role as [r|]; [|done]. intros Ha. exists r. split; [done|]. intros Hd. simpl in Ha.
  rewrite Hd in Ha. by apply bool_decide_eq_true in Ha.
Qed.

Section scheduler.
Context `{UuidText} `{IdText} `{WebText} `{HexText} `{TemplateText} `{StringHash} `{EvalExpr}.
Context `{Cron} `{WorkflowJson}.

(** What the scheduler did before it creates a run, and before it starts one *)
Definition sched_ok (h : list Entry) (x : Entry) : Prop :=
  match call x with
  | CreateWorkflowRun c w ev ctx =>
      ∃ h0 r def ch role t cl now,
        h = h0 ++ [entry (GetMemberRole c ch (wr_owner_pubkey r)) (Ok role);
                   entry (ClaimScheduledFire c w t) (Ok (Some cl))]
        ∧ row r c w def ch ∧ listed h0 r ∧ clock h0 now ∧ scheduled_at def now t
        ∧ allowed role def ∧ ev = None ∧ ctx = context_to_json (scheduled_context ch now)
  | Spawn tk =>
      ∃ h0 r def ch c w t ev ctx run a now,
        h = h0 ++ [entry (CreateWorkflowRun c w ev (context_to_json ctx)) (Ok run);
                   entry (AttachScheduledRun c w t run) a]
        ∧ row r c w def ch ∧ listed h0 r ∧ ctx = scheduled_context ch now
        ∧ tk = ExecuteRunTask c run def ctx
  | _ => True
  end.

Lemma listed_app (h t : list Entry) (r : WorkflowRecord) : listed h r → listed (h ++ t) r.
Proof. intros (l & Hl & Hr). exists l. split; [|done]. apply elem_of_app. by left. Qed.

Lemma clock_app (h t : list Entry) (u : DateTime) : clock h u → clock (h ++ t) u.
Proof. intros Hu. apply elem_of_app. by left. Qed.

Lemma wp_claim_and_run (h : list Entry) (w : WorkflowRecord) (def : WorkflowDef) (ch : Uuid)
    (now t : DateTime) (k : ScheduleKind) (lf : LastFired) (role : option string) :
  row w (wr_community_id w) (wr_id w) def ch → listed h w → clock h now → scheduled_at def now t →
  allowed role def →
  wp sched_ok (claim_and_run w def ch now t k lf)
    (h ++ [entry (GetMemberRole (wr_community_id w) ch (wr_owner_pubkey w)) (Ok role)])
    (λ _ h', ∃ u, h' = h ++ u).
Proof.
  intros Hrow Hl Hc Ht Ha. unfold claim_and_run. intros claim. split; [done|]. rewrite <- app_assoc. simpl.
  destruct claim as [[cl|]|e]; [|by eexists|by eexists].
  destruct (context_to_json (scheduled_context ch now)) as [ctx_json|] eqn:Hj; [|by eexists].
  intros run. split.
  { exists h, w, def, ch, role, t, cl, now. rewrite Hj.
    by refine (conj eq_refl (conj Hrow (conj Hl (conj Hc (conj Ht (conj Ha (conj eq_refl _))))))). }
  rewrite <- app_assoc. simpl. destruct run as [run|e]; [|by eexists].
  intros a. split; [done|]. rewrite <- app_assoc. intros u. split.
  { set (role_entry := entry (GetMemberRole _ _ _) _). set (claim_entry := entry (ClaimScheduledFire _ _ _) _).
    exists (h ++ [role_entry; claim_entry]), w, def, ch, (wr_community_id w), (wr_id w), t, None,
      (scheduled_context ch now), run, a, now. rewrite Hj, <- !app_assoc.
    by refine (conj eq_refl (conj Hrow (conj (listed_app _ _ _ Hl) (conj eq_refl eq_refl)))). }
  eexists. by rewrite <- app_assoc.
Qed.

Lemma wp_schedule_instant (h : list Entry) (w : WorkflowRecord) (def : WorkflowDef) (now : DateTime)
    (lf : LastFired) :
  wp sched_ok (schedule_instant w def now lf) h
    (λ a h', (∃ u, h' = h ++ u) ∧ ∀ t k, a.1 = Some (t, k) → scheduled_at def now t).
Proof.
  assert (∀ (o : option DateTime) (k : ScheduleKind), (∀ t, o = Some t → scheduled_at def now t) →
    ∀ t k', (λ t, (t, k)) <$> o = Some (t, k') → scheduled_at def now t) as Hmap
    by (intros [t|]; naive_solver).
  unfold schedule_instant. destruct (trigger def) as [| | |[expr|] [dur|]|] eqn:Ht;
    try (split; [by exists []; rewrite app_nil_r|done]).
  - split; [by exists []; rewrite app_nil_r|]. simpl. apply Hmap. unfold scheduled_at. by rewrite Ht.
  - apply wp_bind. eapply (wp_mono _ _ _ (λ _ h', ∃ u, h' = h ++ u)).
    + intros last h' Hh'. destruct (interval_prefilter_should_fire _ _ _ _ _ _) as [[] lf']; simpl.
      * split; [done|]. apply Hmap. unfold scheduled_at. by rewrite Ht.
      * by split.
    + destruct (lf !! _); simpl; [by exists []; rewrite app_nil_r|]. intros r. split; [done|]. by eexists.
Qed.

Lemma wp_schedule_one (h : list Entry) (now : DateTime) (lf : LastFired) (w : WorkflowRecord) :
  listed h w → clock h now →
  wp sched_ok (schedule_one now lf w) h (λ _ h', ∃ u, h' = h ++ u).
Proof.
  intros Hl Hc. unfold schedule_one. assert (∀ x : LastFired, wp sched_ok (Ret x) h (λ _ h', ∃ u, h' = h ++ u)) as Hret.
  { intros x. by exists []; rewrite app_nil_r. }
  destruct (def_of_json (wr_definition w)) as [def|] eqn:Hdef; [|apply Hret].
  destruct (enabled def) eqn:Hen; [|apply Hret]. simpl negb. cbn iota.
  destruct (wr_channel_id w) as [ch|] eqn:Hch; [|apply Hret].
  apply wp_bind. eapply wp_mono; [|apply wp_schedule_instant].
  intros [[[t k]|] lf'] h' [[u ->] Ht]; [|by eexists].
  apply wp_bind, wp_ask. intros role. split; [done|].
  destruct role as [role|e]; cbn beta iota; [|eexists; symmetry; apply app_assoc].
  destruct (owner_authority_allows role (requires_elevated_authority def)) eqn:Ha;
    cbn [wp]; [apply owner_authority_allowed in Ha|eexists; symmetry; apply app_assoc].
  eapply wp_mono; [|apply wp_claim_and_run; [done|by apply listed_app|by apply clock_app|by eapply Ht|done]].
  intros _ h' [v ->]. exists (u ++ v). by rewrite app_assoc.
Qed.

Lemma wp_schedule_all (h : list Entry) (now : DateTime) (lf : LastFired) (l : list WorkflowRecord) :
  (∀ w, w ∈ l → listed h w) → clock h now →
  wp sched_ok (schedule_all now lf l) h (λ _ _, True).
Proof.
  revert h lf. induction l as [|w l IH]; intros h lf Hl Hc; [done|]. simpl. apply wp_bind.
  eapply wp_mono; [|apply wp_schedule_one; [apply Hl; by left|done]].
  intros lf' h' [u ->]. apply IH; [|by apply clock_app]. intros w' Hw'. apply listed_app, Hl. by right.
Qed.

Lemma wp_run_scheduler (n : nat) (h : list Entry) (lf : LastFired) :
  wp sched_ok (run_scheduler n lf) h (λ _ _, True).
Proof.
  revert h lf. induction n as [|n IH]; intros h lf; [done|]. cbn [run_scheduler]. apply wp_bind.
  eapply (wp_mono _ _ _ (λ _ _, True)); [intros; apply IH|].
  unfold tick. apply wp_ask. intros u. split; [done|]. apply wp_ask. intros now. split; [done|].
  apply wp_ask. intros ws. split; [done|]. destruct ws as [l|e]; [|done].
  rewrite <- !app_assoc. apply wp_bind. eapply (wp_mono _ _ _ (λ _ _, True)); [done|].
  apply wp_schedule_all.
  - intros w Hw. exists l. split; [|done]. simpl. set_solver.
  - unfold clock. simpl. set_solver.
Qed.

Lemma wp_run (n : nat) : wp sched_ok (run n) [] (λ _ _, True).
Proof. apply wp_bind. eapply wp_mono; [|apply wp_run_scheduler]. done. Qed.
End scheduler.

(** ** Claims in the log *)

(** The instant that a call claimed *)
Definition won_claim (en : Entry) : option (Uuid * Uuid * Z) :=
  match en with
  | {| call := e; reply := r |} =>
      match e return Ans e → option (Uuid * Uuid * Z) with
      | ClaimScheduledFire c w t => λ r, match r with Ok (Some _) => Some (c, w, t) | _ => None end
      | _ => λ _, None
      end r
  end.

(** The calls that may take a workflow's claims away: its deletion, and the retention job *)
Definition removes (c w : Uuid) (en : Entry) : bool :=
  match call en with
  | DeleteWorkflowForOwner c' w' _ => bool_decide (c' = c ∧ w' = w)
  | PruneScheduledFires _ => true
  | _ => false
  end.

Section claims.
Context (write_allowed : CommunityId → bool).

Lemma settle_effect {A} (P : Db → Prop) (o : Outcome) (done : result A DbError * Db) (d : Db) :
  P done.2 → P d → P (settle o done d).2.
Proof. by destruct o. Qed.

Lemma claim_kept (ch : Choice) (e : Ev) (d : Db) (r : Ans e) (c w : Uuid) (t : Z) :
  removes c w (entry e (db_step write_allowed ch e d r).1) = false →
  is_Some (fires d !! (c, w, t)) → is_Some (fires (db_step write_allowed ch e d r).2 !! (c, w, t)).
Proof.
  intros Hn Hf. destruct e; try exact Hf; simpl in Hn |- *;
    try (apply (settle_effect (λ d, is_Some (fires d !! (c, w, t)))); [|exact Hf]); try exact Hf.
  - unfold claim_scheduled_workflow_fire. destruct (workflows d !! _); [|exact Hf].
    destruct (fires d !! (community_id, workflow_id, scheduled_for)) eqn:He; [exact Hf|]. simpl.
    destruct (decide ((c, w, t) = (community_id, workflow_id, scheduled_for))) as [->|Hne].
    + rewrite lookup_insert_eq. by eexists.
    + by rewrite lookup_insert_ne by done.
  - unfold create_workflow_run. by repeat case_match.
  - unfold attach_scheduled_workflow_run. repeat case_match; try exact Hf. simpl.
    destruct (decide ((c, w, t) = (community_id, workflow_id, scheduled_for))) as [->|Hne].
    + rewrite lookup_insert_eq. by eexists.
    + by rewrite lookup_insert_ne by done.
  - unfold update_workflow_run. by repeat case_match.
  - unfold upsert_workflow. by repeat case_match.
  - unfold delete_workflow_for_owner. repeat case_match; try exact Hf. simpl.
    destruct Hf as [f Hf]. exists f. apply map_lookup_filter_Some. split; [done|]. simpl.
    intros [= <- <-]. unfold removes in Hn. simpl in Hn. by rewrite bool_decide_true in Hn.
  - discriminate Hn.
  - unfold update_approval_by_stored_hash. repeat (case_match; simplify_eq/=); exact Hf.
Qed.

(** A claim that is won was not there before, and is there after. *)
Lemma claim_new (ch : Choice) (e : Ev) (d : Db) (r : Ans e) (c w : Uuid) (t : Z) :
  won_claim (entry e (db_step write_allowed ch e d r).1) = Some (c, w, t) →
  fires d !! (c, w, t) = None ∧ is_Some (fires (db_step write_allowed ch e d r).2 !! (c, w, t)).
Proof.
  destruct e; try done. simpl. unfold settle, claim_scheduled_workflow_fire.
  destruct (outcome ch); simpl; try done; destruct (workflows d !! _); try done;
    destruct (fires d !! (community_id, workflow_id, scheduled_for)) eqn:He; try done.
  simpl. intros [= <- <- <-]. rewrite lookup_insert_eq. by split; [|eexists].
Qed.

Abbreviation answer := (db_step write_allowed).

Lemma evolves_kept (d d' : Db) (l : list (nat * Entry)) (c w : Uuid) (t : Z) :
  evolves answer d l d' → (∀ x, x ∈ l → removes c w x.2 = false) →
  is_Some (fires d !! (c, w, t)) → is_Some (fires d' !! (c, w, t)).
Proof.
  revert d. induction l as [|[i en] l IH]; intros d; simpl; [by intros ->|].
  intros (ch & e & r & -> & Hl) Hn Hf. apply (IH _ Hl); [set_solver|].
  apply claim_kept; [|done]. apply (Hn (i, _)). by left.
Qed.

(** Between two claims of one instant lies a call that removes claims. *)
Lemma claims_apart (d d' : Db) (l1 l2 l3 : list (nat * Entry)) (i j : nat) (x y : Entry)
    (c w : Uuid) (t : Z) :
  evolves answer d (l1 ++ (i, x) :: l2 ++ (j, y) :: l3) d' →
  won_claim x = Some (c, w, t) → won_claim y = Some (c, w, t) →
  ∃ z, z ∈ l2 ∧ removes c w z.2 = true.
Proof.
  intros Hl Hx Hy. apply evolves_app in Hl as (d1 & _ & Hl). simpl in Hl.
  destruct Hl as (ch & e & r & -> & Hl). apply claim_new in Hx as [_ Hx].
  apply evolves_app in Hl as (d2 & Hl2 & Hl). simpl in Hl. destruct Hl as (ch' & e' & r' & -> & _).
  apply claim_new in Hy as [Hy _].
  destruct (decide (Exists (λ z, removes c w z.2 = true) l2)) as [He|He].
  - by apply Exists_exists in He.
  - exfalso. apply (is_Some_None (A := Fire)). rewrite <- Hy.
    eapply evolves_kept; [exact Hl2| |exact Hx]. intros z Hz.
    destruct (removes c w z.2) eqn:Hr; [|done]. destruct He. apply Exists_exists. by exists z.
Qed.
End claims.

Lemma claims_apart_lookup (write_allowed : CommunityId → bool) (d d' : Db) (l : list (nat * Entry))
    (p p' i j : nat) (x y : Entry) (c w : Uuid) (t : Z) :
  evolves (db_step write_allowed) d l d' → l !! p = Some (i, x) → l !! p' = Some (j, y) → p < p' →
  won_claim x = Some (c, w, t) → won_claim y = Some (c, w, t) →
  ∃ k z, p < k < p' ∧ l !! k = Some z ∧ removes c w z.2 = true.
Proof.
  intros Hl Hp Hp' Hlt Hx Hy.
  pose proof (take_drop_middle l p (i, x) Hp) as Heq.
  assert (drop (S p) l !! (p' - S p) = Some (j, y)) as Hy'.
  { rewrite lookup_drop. by replace (S p + (p' - S p)) with p' by lia. }
  pose proof (take_drop_middle _ _ _ Hy') as Heq'. rewrite <- Heq' in Heq. rewrite <- Heq in Hl.
  destruct (claims_apart _ _ _ _ _ _ _ _ _ _ _ _ _ Hl Hx Hy) as (z & Hz & Hr).
  apply list_elem_of_lookup in Hz as [k Hk]. pose proof (lookup_lt_Some _ _ _ Hk) as Hklt.
  rewrite length_take in Hklt. rewrite lookup_take_lt, lookup_drop in Hk by lia.
  exists (S p + k), z. split; [lia|]. done.
Qed.

(** The last call of process [i] before the position [pos] *)
Lemma history_last_lookup (i pos : nat) (l : list (nat * Entry)) (h : list Entry) (en : Entry) :
  history i (take pos l) = h ++ [en] →
  ∃ p, p < pos ∧ l !! p = Some (i, en) ∧ ∀ k x, p < k < pos → l !! k = Some x → x.1 ≠ i.
Proof.
  intros Hh. apply history_last in Hh as (l1 & l2 & Heq & Hno).
  assert (take pos l !! length l1 = Some (i, en)) as Hp.
  { rewrite Heq. by apply list_lookup_middle. }
  pose proof (lookup_lt_Some _ _ _ Hp) as Hlt. rewrite length_take in Hlt.
  rewrite lookup_take_lt in Hp by lia. exists (length l1). split; [lia|]. split; [done|].
  intros k x Hk Hx. apply Hno. rewrite <- (lookup_take_lt _ pos) in Hx by lia. rewrite Heq in Hx.
  rewrite lookup_app_r in Hx by lia. replace (k - length l1) with (S (k - S (length l1))) in Hx by lia.
  simpl in Hx. by apply list_elem_of_lookup_2 in Hx.
Qed.

Definition creation (en : Entry) : option (Uuid * Uuid) :=
  match call en with CreateWorkflowRun c w _ _ => Some (c, w) | _ => None end.

Section at_most_once.
Context `{UuidText} `{IdText} `{WebText} `{HexText} `{TemplateText} `{StringHash} `{EvalExpr}.
Context `{Cron} `{WorkflowJson}.

Abbreviation System := (@Interaction.System Ev Ans Db).

(** Process [i] of the system is a scheduler. *)
Definition scheduler (s : System) (i : nat) : Prop := ∃ n q, processes s !! i = Some (run n, q).

(** At [pos] a scheduler asks for a run; its call before, at [p], won the claim of [t]. *)
Definition claimed_run (s : System) (p pos : nat) (c w : Uuid) (t : Z) : Prop :=
  ∃ i en claim, scheduler s i ∧ log s !! pos = Some (i, en) ∧ creation en = Some (c, w)
    ∧ p < pos ∧ log s !! p = Some (i, claim) ∧ won_claim claim = Some (c, w, t)
    ∧ ∀ k x, p < k < pos → log s !! k = Some x → x.1 ≠ i.

(** C13 Scheduled fires happen at most once. In a system of any number of engines and any other
    programs over one database, with statements that fail or whose answers are lost, every run
    that a scheduler creates is asked for directly after it won the claim of an instant of the
    workflow's own schedule at the tick's time; and two runs are created for one instant only
    if a deletion of the workflow or the retention job came between their claims. *)
Theorem scheduled_fires_at_most_once (write_allowed : CommunityId → bool) (d : Db) (s : System) :
  reach (db_step write_allowed) d s →
  (∀ pos i en c w, scheduler s i → log s !! pos = Some (i, en) → creation en = Some (c, w) →
     ∃ p t r def ch now, claimed_run s p pos c w t ∧ row r c w def ch ∧ scheduled_at def now t
                         ∧ clock (history i (take pos (log s))) now)
  ∧ (∀ p p' pos pos' c w t, claimed_run s p pos c w t → claimed_run s p' pos' c w t → pos ≠ pos' →
       ∃ k z, min p p' < k < max p p' ∧ log s !! k = Some z ∧ removes c w z.2 = true).
Proof.
  intros Hr. split.
  - intros pos i en c w Hi Hpos Hc. pose proof Hi as (n & q & Hq).
    pose proof (take_drop_middle _ _ _ Hpos) as Heq.
    pose proof (reach_acceptable _ _ _ sched_ok _ _ _ _ _ _ _ Hr Hq (wp_run n) (eq_sym Heq)) as Hok.
    unfold sched_ok in Hok. destruct en as [e a]. unfold creation in Hc. simpl in Hc, Hok.
    destruct e; try done. injection Hc as -> ->.
    destruct Hok as (h0 & r & def & ch & role & t & cl & now & Hh & Hrow & _ & Hclk & Ht & _).
    set (claim := entry (ClaimScheduledFire c w t) (Ok (Some cl))) in Hh.
    assert (history i (take pos (log s)) = (h0 ++ [entry (GetMemberRole c ch (wr_owner_pubkey r)) (Ok role)])
                                           ++ [claim]) as Hlast by (by rewrite <- app_assoc).
    apply history_last_lookup in Hlast as (p & Hp & Hlp & Hno).
    exists p, t, r, def, ch, now. split; [|split; [done|split; [done|]]].
    + eexists i, _, claim. split; [done|]. split; [exact Hpos|]. done.
    + rewrite Hh. by apply clock_app.
  - intros p p' pos pos' c w t (i & en & x & _ & Hpos & _ & Hp & Hlp & Hx & Hno)
      (j & en' & y & _ & Hpos' & _ & Hp' & Hlp' & Hy & Hno') Hne.
    pose proof (reach_evolves _ _ _ Hr) as He.
    destruct (lt_eq_lt_dec p p') as [[Hpp| ->]|Hpp].
    + destruct (claims_apart_lookup _ _ _ _ _ _ _ _ _ _ _ _ _ He Hlp Hlp' Hpp Hx Hy) as (k & z & Hk & Hz).
      exists k, z. split; [lia|done].
    + rewrite Hlp in Hlp'. injection Hlp' as <- <-. exfalso. destruct (decide (pos < pos')).
      * by destruct (Hno' pos (i, en) ltac:(lia) Hpos).
      * by destruct (Hno pos' (i, en') ltac:(lia) Hpos').
    + destruct (claims_apart_lookup _ _ _ _ _ _ _ _ _ _ _ _ _ He Hlp' Hlp Hpp Hy Hx) as (k & z & Hk & Hz).
      exists k, z. split; [lia|done].
Qed.
End at_most_once.

(** ** Cron windows *)

Section cron.
Context `{CronLaws}.

Lemma cron_fire_iff (expr : string) (s : CronSchedule) (now window t : Z) :
  cron_parse (normalize_cron expr) = Some s →
  cron_fire_instant expr now window = Some t ↔ next_after s (now - window * NANOS) = Some t ∧ (t ≤ now)%Z.
Proof.
  intros Hp. unfold cron_fire_instant. rewrite Hp. destruct (next_after s _) as [u|]; simpl; [|naive_solver].
  destruct (Z.leb_spec u now); split; [naive_solver|naive_solver|done|]. intros [[= ->] Hle]. lia.
Qed.

(** An instant that no other precedes within a minute is fired by exactly the ticks of the
    minute that begins with it, on every engine with the same key: none before it, and none
    from a minute after it on. *)
Theorem cron_window_exact (expr : string) (s : CronSchedule) (u t now : Z) :
  cron_parse (normalize_cron expr) = Some s → next_after s u = Some t → (u ≤ t - 60 * NANOS)%Z →
  cron_fire_instant expr now 60 = Some t ↔ (t ≤ now < t + 60 * NANOS)%Z.
Proof.
  intros Hp Ht Hu. rewrite (cron_fire_iff expr s) by done. split.
  - intros [Hn Hle]. apply next_after_gt in Hn. lia.
  - intros [Hle Hlt]. split; [|done]. eapply next_after_first; [exact Ht|]. lia.
Qed.

(** The scheduler sleeps a minute between its ticks and works in between, so its ticks are a
    little more than a minute apart. With ticks [60s + drift] apart, for any positive drift, a
    schedule that is due every minute misses a minute: no tick before or after fires it. *)
Theorem drifting_scheduler_skips (expr : string) (s : CronSchedule) (t0 drift : Z) :
  let minute := (60 * NANOS)%Z in
  cron_parse (normalize_cron expr) = Some s →
  (∀ t, next_after s t = Some ((t / minute + 1) * minute)%Z) →
  (0 < drift)%Z →
  ∃ m, (t0 < m)%Z ∧ (m mod minute = 0)%Z
       ∧ ∀ k : nat, cron_fire_instant expr (t0 + Z.of_nat k * (minute + drift)) 60 ≠ Some m.
Proof.
  intros minute Hp Hs Hd. assert (0 < minute)%Z as Hm by done.
  set (r := (t0 mod minute)%Z). set (k := ((minute - 1 - r) / drift)%Z). set (q := (t0 / minute)%Z).
  pose proof (Z.div_mod t0 minute ltac:(lia)) as Ht0. fold r q in Ht0.
  pose proof (Z.mod_pos_bound t0 minute ltac:(lia)) as Hr. fold r in Hr.
  pose proof (Z.div_mod (minute - 1 - r) drift ltac:(lia)) as Hk. fold k in Hk.
  pose proof (Z.mod_pos_bound (minute - 1 - r) drift Hd) as Hk'.
  assert (0 ≤ k)%Z as Hk0 by (apply Z.div_pos; lia).
  exists ((q + k + 1) * minute)%Z. split; [nia|]. split; [by apply Z.mod_mul; lia|].
  intros j. rewrite (cron_fire_iff expr s) by done. fold minute. intros [Hn Hle].
  apply next_after_gt in Hn. destruct (Z.le_gt_cases (Z.of_nat j) k) as [Hj|Hj]; nia.
Qed.
End cron.

(** ** Intervals *)

Lemma interval_instant (dur : string) (secs now : Z) :
  parse_duration_secs dur = Ok secs → (60 ≤ secs < 2 ^ 63)%Z →
  (0 ≤ now < 8210266876799 * NANOS)%Z →
  interval_fire_instant dur now = Some (now / NANOS / secs * secs * NANOS)%Z.
Proof.
  intros Hp Hs Hn. unfold interval_fire_instant, u64_as_i64, div_euclid, timestamp_secs. rewrite Hp.
  rewrite (proj2 (Z.ltb_lt _ _)) by lia.
  replace ((secs + 2 ^ 63) mod 2 ^ 64 - 2 ^ 63)%Z with secs by (rewrite Z.mod_small; lia).
  rewrite (proj2 (Z.ltb_lt _ _)) by lia. unfold from_timestamp.
  pose proof (Z.div_pos now NANOS ltac:(lia) ltac:(done)).
  assert (now / NANOS < 8210266876799)%Z by (apply Z.div_lt_upper_bound; [done|lia]).
  pose proof (Z.mul_div_le (now / NANOS) secs ltac:(lia)).
  assert (0 ≤ now / NANOS / secs)%Z by (apply Z.div_pos; lia).
  rewrite (proj2 (andb_true_iff _ _)); [done|]. rewrite !Z.leb_le. nia.
Qed.

Lemma interval_fires_iff (dur : string) (secs last now : Z) :
  parse_duration_secs dur = Ok secs → (last ≤ now)%Z → (0 ≤ secs)%Z →
  interval_should_fire dur (Some last) now = true ↔ (last + secs * NANOS ≤ now)%Z.
Proof.
  intros Hp Hl Hs. unfold interval_should_fire. rewrite Hp. simpl. rewrite Z.leb_le.
  rewrite Z.quot_div_nonneg by (done || lia).
  pose proof (Z.div_mod (now - last) NANOS ltac:(done)). pose proof (Z.mod_pos_bound (now - last) NANOS ltac:(done)).
  assert (0 ≤ (now - last) / NANOS)%Z by (apply Z.div_pos; [lia|done]). unfold NANOS in *. split; lia.
Qed.

(** The anchor of a restarted engine is too early. An engine that remembers its last fire waits
    a full interval after it. An engine that does not, after a restart or on another pod that
    joins, reads the anchor from the claims, and a claim carries the start of its bucket: when
    one engine fires in the last instant of a bucket, the other fires again at once, under
    another key. *)
Theorem restart_fires_early (dur : string) (secs bucket : Z) (c w : Uuid) :
  parse_duration_secs dur = Ok secs → (60 ≤ secs < 2 ^ 32)%Z → (0 ≤ bucket < 2 ^ 40)%Z →
  (bucket mod secs = 0)%Z →
  let boundary := ((bucket + secs) * NANOS)%Z in
  let before := (boundary - 1)%Z in
  (** the fire just before the boundary is claimed for the start of the bucket *)
  interval_fire_instant dur before = Some (bucket * NANOS)%Z
  (** the engine that fired waits an interval *)
  ∧ (∀ now, (before ≤ now)%Z → interval_should_fire dur (Some before) now = true ↔ (before + secs * NANOS ≤ now)%Z)
  (** an engine with the anchor of the claims fires at the boundary *)
  ∧ interval_prefilter_should_fire ∅ c w dur (Some (bucket * NANOS)%Z) boundary = (true, ∅)
  ∧ interval_fire_instant dur boundary = Some boundary.
Proof.
  intros Hp Hs Hb Hmod boundary before.
  assert (bucket = secs * (bucket / secs))%Z as Hq by (pose proof (Z.div_mod bucket secs ltac:(lia)); lia).
  set (q := (bucket / secs)%Z) in *.
  assert (before / NANOS = bucket + secs - 1)%Z as Hbefore.
  { unfold before, boundary. symmetry. apply (Z.div_unique _ _ _ (NANOS - 1)); unfold NANOS; lia. }
  assert (boundary / NANOS = bucket + secs)%Z as Hboundary.
  { unfold boundary. by apply Z.div_mul. }
  split; [|split; [|split]].
  - rewrite (interval_instant dur secs); [|done|lia|unfold before, boundary, NANOS; lia].
    rewrite Hbefore. replace ((bucket + secs - 1) / secs)%Z with q; [f_equal; nia|].
    apply (Z.div_unique _ _ _ (secs - 1)); nia.
  - intros now Hn. apply interval_fires_iff; [done|done|lia].
  - unfold interval_prefilter_should_fire.
    assert (bucket * NANOS ≤ boundary)%Z as Hle by (unfold boundary, NANOS; lia).
    rewrite (proj2 (interval_fires_iff dur secs _ _ Hp Hle ltac:(lia))); [done|].
    unfold boundary, NANOS. lia.
  - rewrite (interval_instant dur secs); [|done|lia|unfold boundary, NANOS; lia]. rewrite Hboundary.
    f_equal. unfold boundary. f_equal. replace ((bucket + secs) / secs)%Z with (q + 1)%Z; [nia|].
    apply (Z.div_unique _ _ _ 0); nia.
Qed.

(** ** Concrete instances: a schedule is its period, every definition one that is due each minute *)

Definition every_minute : WorkflowDef := {|
  wf_name := "w"; description := None; trigger := Schedule (Some "* * * * *") None;
  steps := []; enabled := true |}.

Definition MINUTE : Z := 60 * NANOS.

Definition minute_cron : Cron := {|
  CronSchedule := unit;
  cron_parse := λ _, Some tt;
  next_after := λ _ t, Some ((t / MINUTE + 1) * MINUTE)%Z |}.

Lemma minute_cron_laws : @CronLaws minute_cron.
Proof.
  assert (∀ t, t < (t / MINUTE + 1) * MINUTE ∧ (t / MINUTE + 1) * MINUTE ≤ t + MINUTE)%Z as Hb.
  { intros t. pose proof (Z.div_mod t MINUTE ltac:(done)). pose proof (Z.mod_pos_bound t MINUTE ltac:(done)).
    unfold MINUTE, NANOS in *. lia. }
  split; simpl.
  - intros _ t u [= <-]. apply Hb.
  - intros _ t u t' [= <-] Ht. do 3 f_equal. symmetry. apply (Z.div_unique _ _ _ (t' - t / MINUTE * MINUTE)%Z).
    + pose proof (Z.div_mod t MINUTE ltac:(done)). pose proof (Z.mod_pos_bound t MINUTE ltac:(done)).
      left. unfold MINUTE, NANOS in *. lia.
    + lia.
Qed.

Definition one_json : WorkflowJson := {|
  def_of_json := λ _, Some every_minute;
  context_to_json := λ _, Some JNull;
  context_of_json := λ _, None |}.

Definition plain_ids : IdText := {| uuid_to_string := λ n, decimal (Z.of_N n); hex_decode := λ _, None |}.

Lemma cron_window_exact_witness :
  @cron_fire_instant minute_cron "* * * * *" (MINUTE + 1) 60 = Some MINUTE.
Proof.
  apply (@cron_window_exact minute_cron minute_cron_laws "* * * * *" tt 0 MINUTE (MINUTE + 1));
    [reflexivity|reflexivity|done|done].
Defined.

Lemma drifting_scheduler_skips_witness :
  ∃ m, (0 < m)%Z ∧ (m mod (60 * NANOS) = 0)%Z
       ∧ ∀ k : nat, @cron_fire_instant minute_cron "* * * * *" (0 + Z.of_nat k * (60 * NANOS + 1)) 60 ≠ Some m.
Proof.
  apply (@drifting_scheduler_skips minute_cron minute_cron_laws "* * * * *" tt 0 1);
    [reflexivity|reflexivity|done].
Defined.

Lemma restart_fires_early_witness :
  interval_prefilter_should_fire ∅ 1%N 2%N "1h" (Some (7200 * NANOS)%Z) (10800 * NANOS) = (true, ∅)
  ∧ interval_fire_instant "1h" (10800 * NANOS - 1) = Some (7200 * NANOS)%Z
  ∧ interval_fire_instant "1h" (10800 * NANOS) = Some (10800 * NANOS)%Z.
Proof.
  destruct (restart_fires_early "1h" 3600 7200 1%N 2%N) as (Hb & _ & Hp & Hn);
    [reflexivity|done|done|reflexivity|].
  exact (conj Hp (conj Hb Hn)).
Defined.

(** Two engines over one database with one workflow of an administrator *)
Definition scheduled_workflow : WorkflowRecord := {|
  wr_id := 7; wr_community_id := 1; wr_name := "w"; wr_owner_pubkey := [1%Z]; wr_channel_id := Some 3%N;
  wr_definition := JObject [("trigger", JObject [("on", JString "schedule")])];
  wr_definition_hash := []; wr_status := Active; wr_enabled := true; wr_created_at := 0; wr_updated_at := 0 |}.

Definition one_workflow : Db := {|
  workflows := {[(1%N, 7%N) := scheduled_workflow]}; WorkflowDb.runs := ∅; approvals := ∅; fires := ∅;
  member_roles := {[(1%N, 3%N, [1%Z]) := "admin"]}; archived_communities := ∅ |}.

Definition at_61 : Choice := {| now := (61 * NANOS)%Z; fresh_id := 42; outcome := Done |}.

Definition everything_allowed : CommunityId → bool := λ _, true.

Definition advance_n (l : list nat) (s : @Interaction.System Ev Ans Db) : @Interaction.System Ev Ans Db :=
  foldl (λ s i, advance (db_step everything_allowed) at_61 quiet_answers i s) s l.

Lemma reach_advance_n (d : Db) (l : list nat) (s : @Interaction.System Ev Ans Db) :
  reach (db_step everything_allowed) d s → reach (db_step everything_allowed) d (advance_n l s).
Proof. revert s. induction l as [|i l IH]; intros s Hs; [done|]. apply IH. by apply reach_advance. Qed.

Lemma advance_n_started (l : list nat) (s : @Interaction.System Ev Ans Db) :
  (processes (advance_n l s)).*1 = (processes s).*1.
Proof.
  revert s. induction l as [|i l IH]; intros s; [done|]. unfold advance_n in *. simpl. rewrite IH.
  apply advance_started.
Qed.

Abbreviation engine := (@run plain_ids minute_cron one_json 1).

(** The first engine ticks and creates its run; the second one loses the claim. *)
Definition two_engines : @Interaction.System Ev Ans Db :=
  advance_n [0; 1; 0; 1; 0; 1; 0; 0; 1; 1; 0; 0; 0] (start engine (start engine (initial one_workflow))).

Lemma scheduled_fires_at_most_once_witness :
  (∃ en, log two_engines !! 10 = Some (0, en) ∧ creation en = Some (1%N, 7%N))
  ∧ ∃ p t, @claimed_run plain_ids minute_cron one_json two_engines p 10 1 7 t.
Proof.
  assert (reach (db_step everything_allowed) one_workflow two_engines) as Hr.
  { apply reach_advance_n, reach_start, reach_start, reach_init. }
  destruct (@scheduled_fires_at_most_once plain_ids minute_cron one_json everything_allowed one_workflow
              two_engines Hr) as [Hc _].
  set (en := (entry (CreateWorkflowRun 1%N 7%N None (Some JNull)) (Ok 42%N) : Entry)).
  assert (log two_engines !! 10 = Some (0, en)) as Hen by (vm_compute; reflexivity).
  assert (creation en = Some (1%N, 7%N)) as Hcr by reflexivity.
  split; [exact (ex_intro _ en (conj Hen Hcr))|].
  destruct (Hc 10 0 en 1%N 7%N) as (p & t & _ & _ & _ & _ & Hrun & _);
    [|exact Hen|exact Hcr|exact (ex_intro _ p (ex_intro _ t Hrun))].
  assert ((processes two_engines).*1 !! 0 = Some engine) as Hs.
  { unfold two_engines. by rewrite advance_n_started. }
  rewrite list_lookup_fmap in Hs. destruct (processes two_engines !! 0) as [[p q]|] eqn:Hp; [|done].
  injection Hs as ->. by exists 1, q.
Defined.
