(* ===== verification/WorkflowExecSpec.v ===== *)
(** * What a run does (theorems on [WorkflowExec] and the tasks of [WorkflowCommands])

    The trace and the outputs of a run, and the resumption from a trace. *)

From S2P Require Import Prelude Text StdText Json Network Nip10 Workflow WorkflowTemplate WorkflowCondition WorkflowDb WorkflowIo WorkflowExec WorkflowEngine WorkflowCommands WorkflowExamples.

Open Scope string_scope.
Open Scope nat_scope.
Open Scope list_scope.

Definition any : Ev → Prop := λ _, True.

Definition approves (a : ActionDef) : bool := match a with RequestApproval _ _ _ => true | _ => false end.

(** The entry that a step leaves in the trace *)
Definition recorded (s : Step) (entry : Json) : Prop :=
  entry = skipped_entry s ∨ ∃ output, entry = completed_entry s output.

Section runs.
Context `{UuidText} `{IdText} `{WebText} `{HexText} `{TemplateText} `{StringHash} `{EvalExpr}.
Context (config : WorkflowConfig) (env : ReactionEnv) (chunks : nat).

(** A suspension comes from a request for approval only, and no action skips its step. *)
Definition step_result_ok (a : ActionDef) (r : result StepResult WorkflowError) : Prop :=
  match r with
  | Ok (Suspended _) => approves a = true
  | Ok Skipped => False
  | _ => True
  end.

Lemma calls_map {A B} (p : Prog (result A WorkflowError)) (f : A → result B WorkflowError)
    (Q : result B WorkflowError → Prop) :
  (∀ e, Q (Err e)) → (∀ a, Q (f a)) →
  calls any (r <-* p ;; match r with Ok a => Ret (f a) | Err e => Ret (Err e) end) Q.
Proof.
  intros He Ha. induction p as [[a|e]|e k IH]; simpl; [apply Ha|apply He|].
  split; [done|]. intros r. apply IH.
Qed.

Lemma calls_perform (c : CommunityId) (run : Uuid) (ctx : TriggerContext) (a : ActionDef) :
  calls any (perform env chunks c run ctx a) (step_result_ok a).
Proof.
  destruct a; cbn [perform]; try done.
  - unfold send_message. split; [done|]. intros [r|e]; simpl; [|done]. split; [done|].
    intros [w|e]; simpl; [|done]. destruct (resolve_send_message_channel _ _ _); [|done].
    destruct (_ && _); [done|]. simpl. split; [done|]. intros []; simpl; [|done].
    split; [done|]. by intros [e|e].
  - case_decide; [done|]. by apply (calls_map _ (λ r, Ok (Completed r))).
  - by apply (calls_map _ (λ r, Ok (Completed r))).
  - destruct (parse_duration_secs duration); [|done]. by destruct (_ <? _)%Z.
Qed.

Lemma calls_dispatch (c : CommunityId) (run : Uuid) (ctx : TriggerContext) (a : ActionDef) :
  calls any (dispatch_action env chunks c run ctx a) (step_result_ok a).
Proof.
  unfold dispatch_action. apply calls_ask; [done|]. intros [u|e]; [|done].
  apply calls_ask; [done|]. intros [u'|e]; [|done]. apply calls_bind.
  unfold protect_write. apply calls_ask; [done|]. intros [u2|e]; [|done]. apply calls_bind.
  eapply (calls_mono any any); [done| |apply calls_interruptible; [done|apply calls_perform]].
  intros [r|] Hr; [|done]. simpl. split; [done|]. intros [v|e]; simpl; [|done]. split; [done|].
  intros [f|e]; simpl; [by destruct r|by destruct r].
Qed.

Lemma resolve_approves (a a' : ActionDef) (ctx : TriggerContext) (outputs : gmap string Json) :
  resolve_step_templates a ctx outputs = Ok a' → approves a' = approves a.
Proof. destruct a; simpl; repeat (case_match; try done); by intros [= <-]. Qed.

Lemma calls_run_step (c : CommunityId) (run : Uuid) (ctx : TriggerContext) (outputs : gmap string Json)
    (s : Step) :
  calls any (run_step config env chunks c run ctx outputs s) (step_result_ok (action s)).
Proof.
  unfold run_step. destruct (resolve_step_templates _ _ _) as [a'|e] eqn:Ha; [|done].
  apply resolve_approves in Ha. apply calls_bind.
  eapply (calls_mono any any); [done| |apply calls_interruptible; [done|apply calls_dispatch]].
  intros [[r|e]|] Hr; simpl in *; try done. destruct r; try done. simpl in *. by rewrite <- Ha.
Qed.

Lemma calls_check_if (s : Step) (ctx : TriggerContext) (outputs : gmap string Json) :
  calls any (check_if s ctx outputs) (λ _, True).
Proof. unfold check_if. by destruct (if_expr s). Qed.

(** The result of the loop from the step [i] on, with the trace so far *)
Definition loop_result (i : nat) (l : list Step) (outputs : gmap string Json) (tr : list Json)
    (r : result ExecutionResult (WorkflowError * PartialProgress)) : Prop :=
  match r with
  | Ok r =>
      ∃ executed entries rest, l = executed ++ rest ∧ Forall2 recorded executed entries
        ∧ trace r = tr ++ entries ∧ step_outputs r = foldl record_output outputs entries
        ∧ step_index r = i + length executed
        ∧ match approval_token r with
          | None => rest = []
          | Some _ => ∃ s later, rest = s :: later ∧ approves (action s) = true
          end
  | Err (e, pp) =>
      ∃ executed entries s later, l = executed ++ s :: later ∧ Forall2 recorded executed entries
        ∧ pp_trace pp = tr ++ entries ∧ pp_step_index pp = i + length executed
  end.

Lemma loop_result_cons (i : nat) (s : Step) (l : list Step) (outputs : gmap string Json)
    (tr : list Json) (en : Json) r :
  recorded s en → loop_result (S i) l (record_output outputs en) (tr ++ [en]) r →
  loop_result i (s :: l) outputs tr r.
Proof.
  intros Hs. destruct r as [r|[e pp]]; simpl.
  - intros (ex & ens & rest & -> & Hf & -> & Ho & Hi & Hrest). exists (s :: ex), (en :: ens), rest.
    rewrite <- app_assoc. simpl. split; [done|]. split; [by constructor|]. split; [done|].
    split; [done|]. split; [lia|done].
  - intros (ex & ens & s' & later & -> & Hf & -> & Hi). exists (s :: ex), (en :: ens), s', later.
    rewrite <- app_assoc. simpl. split; [done|]. split; [by constructor|]. split; [done|lia].
Qed.

Lemma loop_stops (i : nat) (s : Step) (l : list Step) (outputs : gmap string Json) (tr : list Json) e :
  loop_result i (s :: l) outputs tr (Err (e, {| pp_step_index := i; pp_trace := tr |})).
Proof. exists [], [], s, l. simpl. rewrite app_nil_r. split; [done|]. split; [constructor|]. split; [done|lia]. Qed.

Lemma calls_execute_loop (c : CommunityId) (run : Uuid) (ctx : TriggerContext) (start i : nat)
    (l : list Step) (outputs : gmap string Json) (tr : list Json) :
  start ≤ i →
  calls any (execute_loop config env chunks c run ctx start i l outputs tr) (loop_result i l outputs tr).
Proof.
  revert i outputs tr. induction l as [|s l IH]; intros i outputs tr Hi; simpl.
  - exists [], [], []. simpl. rewrite app_nil_r. split; [done|]. split; [constructor|].
    split; [done|]. split; [done|]. split; [lia|done].
  - rewrite (proj2 (Nat.ltb_ge _ _)) by done. apply calls_bind.
    eapply (calls_mono any any); [done| |apply calls_check_if].
    assert (∀ en, recorded s en → calls any (execute_loop config env chunks c run ctx start (S i) l
        (record_output outputs en) (tr ++ [en])) (loop_result i (s :: l) outputs tr)) as Hnext.
    { intros en Hen. eapply (calls_mono any any); [done| |apply IH; lia]. intros r. by apply loop_result_cons. }
    intros [[]|e] _; simpl; [|apply (Hnext (skipped_entry s)); by left|exact (loop_stops _ _ _ outputs _ e)].
    apply calls_bind. eapply (calls_mono any any); [done| |apply calls_run_step].
    intros [[output|token|]|e] Hr; simpl in Hr |- *; [|..|done|exact (loop_stops _ _ _ outputs _ e)].
    + apply (Hnext (completed_entry s output)). right. by eexists.
    + exists [], [], (s :: l). simpl. rewrite app_nil_r. split; [done|]. split; [constructor|].
      split; [done|]. split; [done|]. split; [lia|]. by exists s, l.
Qed.

Lemma execute_loop_skips (c : CommunityId) (run : Uuid) (ctx : TriggerContext) (start i : nat)
    (l : list Step) (outputs : gmap string Json) (tr : list Json) :
  i ≤ start →
  execute_loop config env chunks c run ctx start i l outputs tr
  = execute_loop config env chunks c run ctx start (i + length (take (start - i) l)) (drop (start - i) l) outputs tr.
Proof.
  revert i. induction l as [|s l IH]; intros i Hi; simpl.
  - rewrite take_nil, drop_nil. simpl. by rewrite Nat.add_0_r.
  - destruct (Nat.ltb_spec i start) as [Hlt|Hge].
    + rewrite IH by lia. replace (start - i) with (S (start - S i)) by lia. simpl. f_equal. lia.
    + replace (start - i) with 0 by lia. simpl. rewrite Nat.add_0_r.
      by rewrite (proj2 (Nat.ltb_ge _ _)) by done.
Qed.
End runs.

Section results.
Context `{UuidText} `{IdText} `{WebText} `{HexText} `{TemplateText} `{StringHash} `{EvalExpr}.
Context (config : WorkflowConfig) (env : ReactionEnv) (chunks : nat).

Lemma calls_execute_steps (c : CommunityId) (run : Uuid) (def : WorkflowDef) (ctx : TriggerContext)
    (start : nat) (init : option (gmap string Json)) :
  start ≤ length (steps def) →
  calls any (execute_steps config env chunks c run def ctx start init)
    (loop_result start (drop start (steps def)) (default ∅ init) []).
Proof.
  intros Hs. unfold execute_steps. rewrite execute_loop_skips by lia.
  rewrite length_take, Nat.sub_0_r, Nat.min_l by lia. by apply calls_execute_loop.
Qed.

(** C23 The result of a run, whatever the environment answers. The steps from the start index on
    are executed in order, each leaves one entry, and the outputs are the initial ones with those
    that the entries record. A run that ends without a token has executed every step; one that
    ends with a token stands at a request for approval, one that ends with an error at the step
    that failed, with the entries of the steps before it. *)
Theorem run_result_exact (c : CommunityId) (run : Uuid) (def : WorkflowDef) (ctx : TriggerContext)
    (start : nat) (init : option (gmap string Json)) (h : list Entry) r :
  start ≤ length (steps def) →
  Interaction.runs (execute_steps config env chunks c run def ctx start init) h (Ret r) →
  match r with
  | Ok r =>
      ∃ executed rest, drop start (steps def) = executed ++ rest ∧ Forall2 recorded executed (trace r)
        ∧ step_outputs r = foldl record_output (default ∅ init) (trace r)
        ∧ step_index r = start + length executed
        ∧ match approval_token r with
          | None => rest = []
          | Some _ => ∃ s later, rest = s :: later ∧ approves (action s) = true
          end
  | Err (e, progress) =>
      ∃ executed s later, drop start (steps def) = executed ++ s :: later
        ∧ Forall2 recorded executed (pp_trace progress)
        ∧ pp_step_index progress = start + length executed
  end.
Proof.
  intros Hs Hr. eapply calls_runs in Hr; [|by apply calls_execute_steps]. destruct r as [r|[e pp]]; simpl in Hr.
  - destruct Hr as (ex & ens & rest & Hl & Hf & Ht & Ho & Hi & Hrest). simpl in Ht. subst ens.
    by exists ex, rest.
  - destruct Hr as (ex & ens & s & later & Hl & Hf & Ht & Hi). simpl in Ht. subst ens. by exists ex, s, later.
Qed.

End results.

(** ** Witnesses: a run that waits for approval, and its resumption *)

Section witnesses.
#[local] Existing Instance example_uuids.
#[local] Existing Instance example_ids.
#[local] Existing Instance example_web.
#[local] Existing Instance example_hex.
#[local] Existing Instance concrete_text.
#[local] Existing Instance concrete_hash.
#[local] Existing Instance concrete_expr.

Definition first_half : Prog (result ExecutionResult (WorkflowError * PartialProgress)) :=
  execute_steps example_config example_env 5 1 2 gated_workflow empty_context 0 None.

Definition waited : Json := completed_entry (plain_step "wait" (Delay "5s")) (JObject [("slept_secs", JNumber "5")]).

Definition at_gate : ExecutionResult := {|
  approval_token := Some "99"; step_index := 1;
  step_outputs := {["wait" := JObject [("slept_secs", JNumber "5")]]}; trace := [waited] |}.

Definition second_half : Prog (result ExecutionResult (WorkflowError * PartialProgress)) :=
  execute_steps example_config example_env 5 1 2 gated_workflow empty_context 2
    (Some (outputs_of_trace (JArray [waited]))).

Definition ended : ExecutionResult := {|
  approval_token := None; step_index := 3;
  step_outputs := {["wait" := JObject [("slept_secs", JNumber "5")];
                    "again" := JObject [("slept_secs", JNumber "6")]]};
  trace := [completed_entry (plain_step "again" (Delay "6s")) (JObject [("slept_secs", JNumber "6")])] |}.

Lemma run_result_exact_witness :
  ∃ executed rest, steps gated_workflow = executed ++ rest ∧ Forall2 recorded executed [waited]
    ∧ ∃ s later, rest = s :: later ∧ approves (action s) = true.
Proof.
  destruct (run_result_exact example_config example_env 5 1 2 gated_workflow empty_context 0 None
              (play quiet_answers 200 first_half).1 (Ok at_gate)) as (executed & rest & Hl & Hf & _ & _ & Ht).
  - simpl. lia.
  - apply play_returns. vm_compute. reflexivity.
  - exact (ex_intro _ executed (ex_intro _ rest (conj Hl (conj Hf Ht)))).
Defined.

End witnesses.
