(* ===== verification/WorkflowEffects.v ===== *)
(** * Before every side effect of a run (theorems on [WorkflowExec] and [WorkflowCommands])

    The tasks that the engine and the handlers spawn publish messages, call webhooks and add
    reactions only under the community's write lease, and a webhook goes to the public address
    that was checked. *)

From S2P Require Import Prelude Text StdText Json Network Nip10 Workflow WorkflowTemplate WorkflowCondition WorkflowDb WorkflowIo WorkflowExec WorkflowEngine WorkflowCommands WorkflowExamples.

Open Scope string_scope.
Open Scope nat_scope.
Open Scope list_scope.

(** What others can see; a delay waits under the lease too. *)
Definition side_effect (e : Ev) : bool :=
  match e with SinkSend _ | WebhookSend _ | ReactionSend _ | Sleep _ => true | _ => false end.

Definition task_community (t : Task) : CommunityId :=
  match t with
  | ExecuteRunTask c _ _ _ | ExecuteStoredTask c _ _ _ | ResumeTask c _ _ _ | CancelTask c _ _ => c
  end.

Definition anything {A} : A → list Entry → Prop := λ _ _, True.

Section effects.
Context `{UuidText} `{IdText} `{WebText} `{HexText} `{TemplateText} `{StringHash} `{EvalExpr}.
Context `{Cron} `{WorkflowJson}.
Context (config : WorkflowConfig) (env : ReactionEnv) (chunks : nat).

Abbreviation quiet e := (side_effect e = false).

(** ** From the steps to the tasks *)

Section tasks.
Context (P : list Entry → Entry → Prop) (c : CommunityId).
Hypothesis P_quiet : ∀ h x, quiet (call x) → P h x.
Hypothesis P_step : ∀ run ctx outputs s h, wp P (run_step config env chunks c run ctx outputs s) h anything.

Lemma wp_quiet {A} (p : Prog A) (h : list Entry) :
  calls (λ e, quiet e) p (λ _, True) → wp P p h anything.
Proof.
  intros Hp. eapply wp_mono; [|apply (calls_wp (λ _, True) P (λ e, quiet e)); [|exact Hp|done]]; [done|].
  intros h' x _ Hx. split; [by apply P_quiet|done].
Qed.

Lemma wp_then {A B} (p : Prog A) (f : A → Prog B) (h : list Entry) :
  wp P p h anything → (∀ a h, wp P (f a) h anything) → wp P (bind p f) h anything.
Proof. intros Hp Hf. apply wp_bind. eapply wp_mono; [|exact Hp]. intros a h' _. apply Hf. Qed.

Lemma wp_execute_loop (run : Uuid) (ctx : TriggerContext) (start i : nat) (l : list Step)
    (outputs : gmap string Json) (tr : list Json) (h : list Entry) :
  wp P (execute_loop config env chunks c run ctx start i l outputs tr) h anything.
Proof.
  revert i outputs tr h. induction l as [|s l IH]; intros i outputs tr h; simpl; [done|].
  destruct (i <? start); [apply IH|]. apply wp_then.
  - apply wp_quiet. unfold check_if. by destruct (if_expr s).
  - intros [[]|e] h1; [|apply IH|done]. apply wp_then; [apply P_step|].
    intros [[output|token|]|e] h2; [apply IH|done|apply IH|done].
Qed.

Lemma wp_permit_run {A} (p : Prog A) (h : list Entry) :
  wp P p h anything → wp P (r <-* p ;; _ <-* ask ReleasePermit ;; Ret r) h anything.
Proof. intros Hp. apply wp_then; [done|]. intros a h1. by apply wp_quiet. Qed.

Lemma wp_execute_run (run : Uuid) (def : WorkflowDef) (ctx : TriggerContext) (h : list Entry) :
  wp P (execute_run config env chunks c run def ctx) h anything.
Proof.
  unfold execute_run. apply wp_then; [by apply wp_quiet|]. intros b h1. destruct b; [|done]. simpl negb. cbn iota.
  apply wp_then; [by apply wp_quiet|]. intros u h2. apply wp_permit_run.
  destruct u; [apply wp_execute_loop|done].
Qed.

Lemma wp_execute_from_step (run : Uuid) (def : WorkflowDef) (ctx : TriggerContext) (start : nat)
    (init : option (gmap string Json)) (h : list Entry) :
  wp P (execute_from_step config env chunks c run def ctx start init) h anything.
Proof.
  unfold execute_from_step. apply wp_then; [by apply wp_quiet|]. intros b h1. destruct b; [|done]. simpl negb. cbn iota.
  apply wp_then; [by apply wp_quiet|]. intros ex h2. apply wp_then; [by apply wp_quiet|]. intros u h3.
  apply wp_permit_run. destruct u; [apply wp_execute_loop|done].
Qed.

Lemma wp_finalize_run (run : Uuid) r existing (h : list Entry) : wp P (finalize_run c run r existing) h anything.
Proof. apply wp_quiet. unfold finalize_run. destruct r as [r|[e pp]]; [by destruct (approval_token r)|done]. Qed.

Lemma wp_task (t : Task) (h : list Entry) :
  task_community t = c → wp P (task_program config env chunks t) h anything.
Proof.
  destruct t as [c' run def ctx|c' run j ctx|c' run w i|c' run pk];
    cbn [task_program task_community]; intros ->.
  - apply wp_then; [apply wp_execute_run|]. intros r h1. apply wp_finalize_run.
  - unfold execute_stored. destruct (def_of_json j) as [def|]; [|by apply wp_quiet].
    apply wp_then; [apply wp_execute_from_step|]. intros r h1. apply wp_finalize_run.
  - unfold resume_workflow_after_approval. apply wp_then; [by apply wp_quiet|]. intros [r|e] h1; [|done].
    destruct (negb _); [done|]. apply wp_then; [by apply wp_quiet|]. intros [w'|e] h2; [|done].
    destruct (def_of_json _) as [def|]; [|by apply wp_quiet].
    apply wp_then; [apply wp_execute_from_step|]. intros res h3. apply wp_finalize_run.
  - apply wp_quiet. unfold cancel_denied. simpl. split; [done|]. intros [r|e]; simpl; [|done].
    by destruct (negb _).
Qed.
End tasks.

(** ** The write lease *)

(** The lease as far as the calls show it: its community, and whether it was verified *)
Definition lease_step (l : option (Uuid * bool)) (x : Entry) : option (Uuid * bool) :=
  match x with
  | {| call := e; reply := r |} =>
      match e return Ans e → option (Uuid * bool) with
      | AcquireServingWrite c => λ r, match r with Ok _ => Some (c, false) | Err _ => None end
      | VerifyServingWrite => λ r, match r with Ok _ => (λ y, (y.1, true)) <$> l | Err _ => None end
      | LeaseLost => λ b, if b then None else l
      | FinishServingWrite => λ _, None
      | _ => λ _, l
      end r
  end.

Definition lease_of (h : list Entry) : option (Uuid * bool) := foldl lease_step None h.

Definition held (c : CommunityId) (l : option (Uuid * bool)) : Prop := l = Some (c, true).

Definition fenced (c : CommunityId) (l : option (Uuid * bool)) (x : Entry) : Prop :=
  side_effect (call x) = true → held c l.

Lemma lease_of_snoc (h : list Entry) (x : Entry) : lease_of (h ++ [x]) = lease_step (lease_of h) x.
Proof. apply foldl_snoc. Qed.

(** The calls under the lease that do not change it *)
Definition under_lease (e : Ev) : Prop := ∀ l r, lease_step l (entry e r) = l.

Lemma calls_then {A B} (K : Ev → Prop) (p : Prog (result A WorkflowError)) (f : A → B) :
  calls K p (λ _, True) →
  calls K (r <-* p ;; match r with Ok a => Ret (Ok (f a)) | Err e => Ret (Err e) end)
    (λ _ : result B WorkflowError, True).
Proof. intros Hp. apply calls_bind. eapply calls_mono; [| |exact Hp]; [done|]. by intros [a|e]. Qed.

Lemma calls_read_body (K : Ev → Prop) (n : nat) (b : string) :
  K WebhookChunk → calls K (read_body n b) (λ _, True).
Proof.
  intros HK. revert b. induction n as [|n IH]; intros b; [done|]. cbn [read_body]. apply calls_ask; [done|].
  intros [[bytes|]|e]; [|done|done]. cbv zeta. destruct (_ <? _); [done|]. apply IH.
Qed.

Lemma perform_under_lease (run : Uuid) (c : CommunityId) (ctx : TriggerContext) (a : ActionDef) :
  calls under_lease (perform env chunks c run ctx a) (λ _, True).
Proof.
  destruct a; cbn [perform]; try done.
  - unfold send_message. apply calls_ask; [done|]. intros [r|e]; [|done]. apply calls_ask; [done|].
    intros [w|e]; [|done]. destruct (resolve_send_message_channel _ _ _); [|done]. cbv zeta.
    destruct (_ && _); [done|]. apply calls_ask; [done|]. intros sink. destruct (negb sink); [done|].
    apply calls_ask; [done|]. by intros [e|e].
  - case_decide; [done|]. apply calls_then. unfold add_reaction_impl. apply calls_ask; [done|].
    intros [st|e]; [|done]. apply calls_ask; [done|]. intros b. by destruct (_ && _).
  - apply calls_then. unfold call_webhook_impl. destruct (url_parse url) as [[[host|] port]|e]; try done.
    cbv zeta. apply calls_bind. eapply (calls_mono under_lease under_lease); [done| |].
    2: { instantiate (1 := λ _, True). unfold check_ssrf. apply calls_ask; [done|]. intros [[|ip l]|e]; try done.
         by destruct (first_private _). }
    intros [ip|e] _; [|done]. destruct (negb _); [done|]. apply calls_ask; [done|]. intros [st|e]; [|done].
    by apply calls_then, calls_read_body.
  - destruct (parse_duration_secs duration); [|done]. by destruct (_ <? _)%Z.
Qed.

Lemma wp_dispatch_fenced (c : CommunityId) (run : Uuid) (ctx : TriggerContext) (a : ActionDef) (h : list Entry) :
  wp (λ h, fenced c (lease_of h)) (dispatch_action env chunks c run ctx a) h anything.
Proof.
  unfold dispatch_action. apply wp_ask. intros acq. split; [done|]. destruct acq as [[]|e]; [|done].
  apply wp_ask. intros v. split; [done|]. destruct v as [[]|e]; [|done].
  apply wp_bind. unfold protect_write. apply wp_ask. intros v. split; [done|]. destruct v as [[]|e]; [|done].
  apply wp_bind.
  eapply wp_mono; [|apply (interruptible_wp (λ h, held c (lease_of h)) _ under_lease);
    [| | |apply perform_under_lease|]].
  - intros [r|] h1 Hr; [|done]. apply wp_ask. intros v. split; [done|]. destruct v as [[]|e]; [|done].
    cbn [wp]. apply wp_ask. intros f. split; [done|]. by destruct r, f.
  - intros h1 x Hh Hx. split; [by intros _|]. rewrite lease_of_snoc. destruct x as [e r]. by rewrite (Hx _ r).
  - done.
  - intros h1 b Hh Hb. rewrite lease_of_snoc. simpl in *. by rewrite Hb.
  - unfold held. by rewrite !lease_of_snoc.
Qed.

Lemma wp_step_fenced (c : CommunityId) (run : Uuid) (ctx : TriggerContext) (outputs : gmap string Json)
    (s : Step) (h : list Entry) :
  wp (λ h, fenced c (lease_of h)) (run_step config env chunks c run ctx outputs s) h anything.
Proof.
  unfold run_step. destruct (resolve_step_templates _ _ _) as [a|e]; [|done]. apply wp_bind.
  eapply wp_mono; [|apply (wp_interruptible_state lease_of lease_step (fenced c) _ _ _ (λ _ _, True) h);
    [apply lease_of_snoc|done|done|apply wp_dispatch_fenced|done]].
  by intros [r|] h1 _.
Qed.

(** C14 Every message, webhook, reaction and delay of a spawned task happens while the task holds
    the write lease of its community: the lease was granted and verified before it, and was not
    reported lost, refused or released since. *)
Theorem effects_fenced (t : Task) (h h1 h2 : list Entry) (x : Entry) (q : Prog unit) :
  Interaction.runs (task_program config env chunks t) h q → h = h1 ++ x :: h2 →
  side_effect (call x) = true → lease_of h1 = Some (task_community t, true).
Proof.
  intros Hr -> Hx. set (c := task_community t).
  assert (wp (λ h, fenced c (lease_of h)) (task_program config env chunks t) [] anything) as Hw.
  { apply (wp_task _ c); [|intros; apply wp_step_fenced|done]. intros h' y Hy Hy'. congruence. }
  destruct (wp_history _ _ _ _ _ Hw Hr) as [Hacc _]. by apply (Hacc h1 x h2).
Qed.

(** ** Where effects go *)

Section remembering.
Context (P : list Entry → Entry → Prop).
Hypothesis P_quiet : ∀ h x, quiet (call x) → P h x.
Hypothesis P_mono : ∀ h h' x, h ⊆ h' → P h x → P h' x.

(** What is known of earlier calls only by their occurrence, from the action to the step *)
Lemma wp_step_of_action (c : CommunityId) (run : Uuid) (ctx : TriggerContext) (outputs : gmap string Json)
    (s : Step) (h : list Entry) :
  (∀ a h, wp P (perform env chunks c run ctx a) h anything) →
  wp P (run_step config env chunks c run ctx outputs s) h anything.
Proof.
  intros Hp. unfold run_step. destruct (resolve_step_templates _ _ _) as [a|e]; [|done].
  apply wp_bind. eapply wp_mono; [|apply (wp_interruptible P _ _ _ anything h h);
    [done|intros; by apply P_quiet|done|]]; [by intros [r|]|].
  unfold dispatch_action. apply wp_ask. intros acq. split; [by apply P_quiet|]. destruct acq; [|done].
  apply wp_ask. intros v. split; [by apply P_quiet|]. destruct v; [|done].
  apply wp_bind. unfold protect_write. apply wp_ask. intros v. split; [by apply P_quiet|]. destruct v; [|done].
  apply wp_bind. eapply wp_mono; [|eapply (wp_interruptible P _ _ _ anything);
    [done|intros; by apply P_quiet|reflexivity|apply Hp]].
  intros [r|] h1 _; [|done]. apply wp_ask. intros v. split; [by apply P_quiet|]. destruct v; [|done].
  cbn [wp]. apply wp_ask. intros f. split; [by apply P_quiet|]. by destruct r, f.
Qed.
End remembering.

Definition no_webhook (e : Ev) : Prop := match e with WebhookSend _ => False | _ => True end.

(** The address of a webhook request was checked. *)
Definition targets_public (h : list Entry) (x : Entry) : Prop :=
  match call x with
  | WebhookSend q =>
      ∃ host port ip rest url_port,
        url_parse (wq_url q) = Ok (Some host, url_port) ∧ port = default 80%Z url_port
        ∧ entry (ToSocketAddrs host port) (Ok (ip :: rest)) ∈ h
        ∧ Forall (λ a, is_private_ip a = false) (ip :: rest)
        ∧ wq_pinned q = (host, ip, port) ∧ wq_proxy q = false ∧ wq_follow_redirects q = false
  | _ => True
  end.

Lemma first_private_none (l : list IpAddr) :
  first_private l = None → Forall (λ a, is_private_ip a = false) l.
Proof. induction l as [|a l IH]; simpl; [done|]. destruct (is_private_ip a) eqn:Ha; [done|]. auto. Qed.

Lemma wp_perform_public (c : CommunityId) (run : Uuid) (ctx : TriggerContext) (a : ActionDef) (h : list Entry) :
  wp targets_public (perform env chunks c run ctx a) h anything.
Proof.
  assert (∀ A (p : Prog A) h, calls no_webhook p (λ _, True) →
            wp targets_public p h anything) as Hother.
  { intros A p h' Hp. eapply wp_mono; [|apply (calls_wp (λ _, True) targets_public no_webhook); [|exact Hp|done]]; [done|].
    intros h1 [e r] _ He. split; [|done]. unfold targets_public. simpl in *. by destruct e. }
  assert (∀ A B (p : Prog (result A WorkflowError)) (f : A → B) h, wp targets_public p h anything →
            wp targets_public (r <-* p ;; match r with Ok a => Ret (Ok (f a)) | Err e => Ret (Err e) end) h
              (anything (A := result B WorkflowError))) as Hthen.
  { intros A B p f h' Hp. apply wp_bind. eapply wp_mono; [|exact Hp]. by intros [x|e] h1 _. }
  destruct a; cbn [perform]; try done.
  - apply Hother. unfold send_message. apply calls_ask; [done|]. intros [r|e]; [|done]. apply calls_ask; [done|].
    intros [w|e]; [|done]. destruct (resolve_send_message_channel _ _ _); [|done]. cbv zeta.
    destruct (_ && _); [done|]. apply calls_ask; [done|]. intros sink. destruct (negb sink); [done|].
    apply calls_ask; [done|]. by intros [e|e].
  - case_decide; [done|]. apply Hthen, Hother. unfold add_reaction_impl. apply calls_ask; [done|].
    intros [st|e]; [|done]. apply calls_ask; [done|]. intros b. by destruct (_ && _).
  - apply Hthen. unfold call_webhook_impl. destruct (url_parse url) as [[[host|] port]|e] eqn:Hurl; try done.
    cbv zeta. apply wp_bind. unfold check_ssrf. apply wp_ask. intros addrs. split; [done|].
    destruct addrs as [[|ip rest]|e]; try done. destruct (first_private (ip :: rest)) eqn:Hf; [done|].
    cbn [wp]. destruct (negb _); [done|]. apply wp_ask. intros resp. split.
    + exists host, (default 80%Z port), ip, rest, port. split; [done|]. split; [done|].
      split; [set_solver|]. split; [by apply first_private_none|done].
    + destruct resp; [|done]. apply Hthen, Hother. by apply calls_read_body.
  - destruct (parse_duration_secs duration); [|done]. by destruct (_ <? _)%Z.
Qed.

(** C16 Webhooks reach public addresses only. Every webhook request of a spawned task goes to an
    address that this task resolved for the URL's own host and port, and all of whose
    alternatives are public; the request is pinned to it, and neither a proxy nor a redirect can
    take it elsewhere. *)
Theorem webhook_target_public (t : Task) (h h1 h2 : list Entry) (x : Entry) (m : WebhookRequest)
    (q : Prog unit) :
  Interaction.runs (task_program config env chunks t) h q → h = h1 ++ x :: h2 → call x = WebhookSend m →
  ∃ host port ip rest url_port,
    url_parse (wq_url m) = Ok (Some host, url_port) ∧ port = default 80%Z url_port
    ∧ entry (ToSocketAddrs host port) (Ok (ip :: rest)) ∈ h1
    ∧ Forall (λ a, is_private_ip a = false) (ip :: rest)
    ∧ wq_pinned m = (host, ip, port) ∧ wq_proxy m = false ∧ wq_follow_redirects m = false.
Proof.
  intros Hr -> Hx.
  assert (wp targets_public (task_program config env chunks t) [] anything) as Hw.
  { apply (wp_task _ (task_community t)); [| |done].
    - intros h y Hy. unfold targets_public. by destruct (call y).
    - intros run ctx outputs s h. apply wp_step_of_action; [| |intros; apply wp_perform_public].
      + intros h' y Hy. unfold targets_public. by destruct (call y).
      + intros h' h'' y Hsub. unfold targets_public. destruct (call y); try done.
        intros (host & port & ip & rest & up & Hu & Hp & Hin & Hrest).
        exists host, port, ip, rest, up. split; [done|]. split; [done|]. split; [by apply Hsub|done]. }
  destruct (wp_history _ _ _ _ _ Hw Hr) as [Hacc _]. specialize (Hacc h1 x h2 eq_refl).
  unfold targets_public in Hacc. by rewrite Hx in Hacc.
Qed.

End effects.

(** ** Witnesses: the run of a workflow with a webhook *)

Section witnesses.
#[local] Existing Instance example_uuids.
#[local] Existing Instance example_ids.
#[local] Existing Instance example_web.
#[local] Existing Instance example_hex.
#[local] Existing Instance concrete_text.
#[local] Existing Instance concrete_hash.
#[local] Existing Instance concrete_expr.
#[local] Instance calling_json : WorkflowJson := example_json calling_workflow.

Definition example_task : Task := ExecuteStoredTask 1 2 JNull empty_context.

Definition example_play : list Entry * Prog unit :=
  play quiet_answers 40 (task_program example_config example_env 5 example_task).

Definition example_request : WebhookRequest := {|
  wq_method := "POST"; wq_url := "https://example.org"; wq_headers := []; wq_body := None;
  wq_timeout_secs := 10; wq_pinned := ("example.org", V4 {| o0 := 8; o1 := 8; o2 := 8; o3 := 8 |}, 443%Z);
  wq_proxy := false; wq_follow_redirects := false |}.

Definition sent : Entry := entry (WebhookSend example_request) (Ok 200%Z).

Lemma example_split :
  example_play.1 = take 25 example_play.1 ++ sent :: drop 26 example_play.1.
Proof. symmetry. apply take_drop_middle. vm_compute. reflexivity. Qed.

Lemma effects_fenced_witness :
  call sent = WebhookSend example_request
  ∧ lease_of (take 25 example_play.1) = Some (1%N, true).
Proof.
  split; [reflexivity|].
  apply (effects_fenced example_config example_env 5 example_task example_play.1
           (take 25 example_play.1) (drop 26 example_play.1) sent example_play.2);
    [apply play_runs|exact example_split|reflexivity].
Defined.

Lemma webhook_target_public_witness :
  ∃ ip rest, entry (ToSocketAddrs "example.org" 443) (Ok (ip :: rest)) ∈ take 25 example_play.1
             ∧ Forall (λ a, is_private_ip a = false) (ip :: rest).
Proof.
  destruct (webhook_target_public example_config example_env 5 example_task example_play.1
              (take 25 example_play.1) (drop 26 example_play.1) sent example_request example_play.2)
    as (host & port & ip & rest & up & Hu & Hp & Hin & Hf & _);
    [apply play_runs|exact example_split|reflexivity|].
  change (Ok (Some "example.org", Some 443%Z) = Ok (Some host, up) :> result (option string * option Z) string) in Hu.
  injection Hu as <- <-. rewrite Hp in Hin. exact (ex_intro _ ip (ex_intro _ rest (conj Hin Hf))).
Defined.
End witnesses.
