(* ===== verification/WorkflowAuthority.v ===== *)
(** * Who may start a run (theorems on [WorkflowEngine] and [WorkflowCommands])

    The four doors through which runs are created: the scheduler, channel events, the owner's
    trigger command and the webhook. Each run is created under the workflow owner's current
    authority in its channel, and each approval is decided once. *)

From S2P Require Import Prelude Text StdText Json Network Nip10 Workflow WorkflowTemplate WorkflowCondition WorkflowDb WorkflowIo WorkflowExec WorkflowEngine WorkflowCommands WorkflowExamples WorkflowSchedule.

Open Scope string_scope.
Open Scope nat_scope.
Open Scope list_scope.

(** ** The secret of a webhook *)

Lemma code_of_inj (a b : Ascii.ascii) : code_of a = code_of b → a = b.
Proof. unfold code_of. intros Hab. by rewrite <- (Ascii.ascii_N_embedding a), Hab, Ascii.ascii_N_embedding. Qed.

Lemma xor_fold_zero (acc : N) (x y : string) :
  String.length x = String.length y → xor_fold acc x y = 0%N ↔ acc = 0%N ∧ x = y.
Proof.
  revert acc y. induction x as [|a x IH]; intros acc [|b y]; simpl; try done; intros Hl; [naive_solver|].
  rewrite IH by lia. rewrite N.lor_eq_0_iff, N.lxor_eq_0_iff. split.
  - intros [[-> Hab] ->]. by rewrite (code_of_inj _ _ Hab).
  - by intros [-> [= -> ->]].
Qed.

Lemma verify_secret_eq (provided stored : string) : verify_secret provided stored = true ↔ provided = stored.
Proof.
  unfold verify_secret. destruct (Nat.eqb_spec (String.length provided) (String.length stored)) as [Hl|Hl].
  - simpl. rewrite N.eqb_eq, xor_fold_zero by done. naive_solver.
  - simpl. split; [done|]. by intros ->.
Qed.

(** ** Doors *)

Inductive Door :=
  | SchedulerDoor (turns : nat)
  | EventDoor (community_id : CommunityId) (event : ChannelEvent)
  | CommandDoor (community_id : CommunityId) (event : Command)
  | WebhookDoor (q : WebhookCall).

(** What may lie between the check of the owner's role and the creation of the run *)
Definition between (e : Ev) : Prop :=
  match e with ClaimScheduledFire _ _ _ | PersistCommandEvent _ _ => True | _ => False end.

Section doors.
Context `{UuidText} `{IdText} `{WebText} `{HexText} `{TemplateText} `{StringHash} `{EvalExpr}.
Context `{Cron} `{WorkflowJson} `{DefText} `{DefinitionHash}.

Definition door_program (d : Door) : Prog unit :=
  match d with
  | SchedulerDoor n => run n
  | EventDoor c e => _ <-* on_event c e ;; Ret tt
  | CommandDoor c e => _ <-* handle_workflow_trigger c e ;; Ret tt
  | WebhookDoor q => _ <-* workflow_webhook q ;; Ret tt
  end.

(** The trigger's filter held of the event. *)
Definition filter_held (h : list Entry) (def : WorkflowDef) (ctx : TriggerContext) : Prop :=
  emoji_matches (trigger def) ctx = true
  ∧ ∀ expr, trigger_filter (trigger def) = Some expr →
      ∃ task, entry (RunEval expr ctx ∅) task ∈ h ∧ evaluate_condition task expr ctx ∅ = Ok true.

(** What a door knows of the row [r] of the workflow [w] before it checks the owner's role *)
Definition source (d : Door) (h : list Entry) (c w : Uuid) (r : WorkflowRecord) (def : WorkflowDef)
    (ch : Uuid) : Prop :=
  match d with
  | SchedulerDoor _ =>
      row r c w def ch ∧ listed h r ∧ ∃ now t, clock h now ∧ scheduled_at def now t
  | EventDoor c' e =>
      c = c' ∧ wr_id r = w ∧ ce_channel_id e = Some ch ∧ enabled def = true
      ∧ is_workflow_execution_kind (ce_kind e) = false
      ∧ trigger_matches_event (trigger def) (ce_kind e) = true
      ∧ filter_held h def (build_trigger_context e)
      ∧ ∃ l, r ∈ l ∧ ((entry (CacheGet c ch) (Some l) : Entry) ∈ h
                      ∨ (entry (ListEnabledChannelWorkflows c ch) (Ok l) : Entry) ∈ h)
  | CommandDoor c' e =>
      c = c' ∧ (entry (GetWorkflow c w) (Ok r) : Entry) ∈ h ∧ wr_owner_pubkey r = cmd_pubkey e
      ∧ live r = true ∧ wr_channel_id r = Some ch
  | WebhookDoor q =>
      (entry (BindCommunity (default "" (wc_host q))) (Ok c) : Entry) ∈ h
      ∧ (entry (GetWorkflow c w) (Ok r) : Entry) ∈ h ∧ uuid_parse_str (wc_id q) = Some w
      ∧ trigger def = Webhook
      ∧ extract_secret (wr_definition r) = Some (default "" (or_else (wc_secret_header q) (wc_secret_query q)))
      ∧ live r = true ∧ wr_channel_id r = Some ch
  end.

(** What a door did before it creates a run, and before it starts one *)
Definition door_ok (d : Door) (h : list Entry) (x : Entry) : Prop :=
  match call x with
  | CreateWorkflowRun c w ev ctx =>
      ∃ h0 r def ch role bs,
        h = h0 ++ (entry (GetMemberRole c ch (wr_owner_pubkey r)) (Ok role) : Entry) :: bs
        ∧ Forall (λ y, between (call y)) bs ∧ def_of_json (wr_definition r) = Some def
        ∧ allowed role def ∧ source d h0 c w r def ch
  | Spawn t =>
      ∃ c w ev ctx run, (entry (CreateWorkflowRun c w ev (context_to_json ctx)) (Ok run) : Entry) ∈ h
        ∧ ((∃ def, t = ExecuteRunTask c run def ctx) ∨ ∃ j, t = ExecuteStoredTask c run j ctx)
  | _ => True
  end.

Lemma source_event_app (c' : CommunityId) (e : ChannelEvent) (h t : list Entry) (c w : Uuid) r def ch :
  source (EventDoor c' e) h c w r def ch → source (EventDoor c' e) (h ++ t) c w r def ch.
Proof.
  intros (Hc & Hw & Hch & Hen & Hk & Hm & [He Hf] & l & Hr & Hl).
  refine (conj Hc (conj Hw (conj Hch (conj Hen (conj Hk (conj Hm (conj (conj He _) _))))))).
  - intros expr Hx. destruct (Hf expr Hx) as (task & Ht & Hev). exists task. split; [|done].
    apply elem_of_app. by left.
  - exists l. split; [done|]. rewrite !elem_of_app. naive_solver.
Qed.

Lemma wp_scheduler_door (n : nat) : wp (door_ok (SchedulerDoor n)) (run n) [] (λ _ _, True).
Proof.
  eapply wp_weaken; [|apply wp_run]. intros h [e a] Hx. unfold sched_ok, door_ok in *. simpl in *.
  destruct e; try done.
  - destruct Hx as (h0 & r & def & ch & role & t & cl & now & -> & Hrow & Hl & Hclk & Ht & Ha & _).
    exists h0, r, def, ch, role, [entry (ClaimScheduledFire community_id workflow_id t) (Ok (Some cl))].
    split; [done|]. split; [by repeat constructor|]. split; [apply Hrow|]. split; [done|].
    split; [done|]. split; [done|]. by exists now, t.
  - destruct Hx as (h0 & r & def & ch & c & w & t' & ev & ctx & run & at' & now & -> & _ & _ & _ & ->).
    exists c, w, ev, ctx, run. split; [set_solver|]. left. by exists def.
Qed.

(** The rule of the check of the owner's role *)
Lemma wp_authority {A} (P : list Entry → Entry → Prop) (c ch : Uuid) (owner : Bytes) (def : WorkflowDef)
    (f : result unit WorkflowError → Prog A) (h : list Entry) (Q : A → list Entry → Prop) :
  (∀ r, P h (entry (GetMemberRole c ch owner) r)) →
  (∀ e t, wp P (f (Err e)) (h ++ t) Q) →
  (∀ role, allowed role def →
     wp P (f (Ok tt)) (h ++ [(entry (GetMemberRole c ch owner) (Ok role) : Entry)]) Q) →
  wp P (bind (check_owner_authority c ch owner def) f) h Q.
Proof.
  intros HP He Hk. apply wp_bind. unfold check_owner_authority. apply wp_ask. intros role.
  split; [apply HP|]. destruct role as [role|e]; [|apply He].
  destruct (owner_authority_allows role _) eqn:Ha; cbn [wp]; [by apply Hk, owner_authority_allowed|apply He].
Qed.

Lemma wp_fire_on_event (c ch : Uuid) (e : ChannelEvent) (ctx_json : Json) (w : WorkflowRecord) (h : list Entry) :
  context_to_json (build_trigger_context e) = Some ctx_json →
  ce_channel_id e = Some ch → is_workflow_execution_kind (ce_kind e) = false →
  (∃ l, w ∈ l ∧ ((entry (CacheGet c ch) (Some l) : Entry) ∈ h
                 ∨ (entry (ListEnabledChannelWorkflows c ch) (Ok l) : Entry) ∈ h)) →
  wp (door_ok (EventDoor c e)) (fire_on_event c ch e (build_trigger_context e) ctx_json w) h
     (λ _ h', ∃ u, h' = h ++ u).
Proof.
  intros Hj Hch Hk Hl. unfold fire_on_event.
  destruct (def_of_json (wr_definition w)) as [def|] eqn:Hdef; [|by exists []; rewrite app_nil_r].
  destruct (negb (enabled def) || negb (trigger_matches_event (trigger def) (ce_kind e))) eqn:Hg;
    [by exists []; rewrite app_nil_r|].
  apply orb_false_iff in Hg as [Hen%negb_false_iff Hm%negb_false_iff].
  apply wp_bind. apply (wp_mono _ _ _ (λ b h', ∃ u, h' = h ++ u ∧ (b = true → filter_held h' def (build_trigger_context e)))).
  - intros b h1 (u & -> & Hf). destruct b; [|by exists u]. simpl negb. cbn iota. specialize (Hf eq_refl).
    apply wp_authority; [done|intros; cbn [wp]; eexists; symmetry; apply app_assoc|]. intros role Ha.
    apply wp_ask. intros run. split.
    + exists (h ++ u), w, def, ch, role, []. split; [done|]. split; [constructor|]. split; [done|].
      split; [done|]. split; [done|]. split; [done|]. split; [done|]. split; [done|]. split; [done|].
      split; [done|]. split; [done|]. destruct Hl as (l & Hw & Hl). exists l. split; [done|].
      rewrite !elem_of_app. naive_solver.
    + destruct run as [run|er]; [|cbn [wp]; eexists; by rewrite <- !app_assoc].
      apply wp_ask. intros v. split; [|cbn [wp]; eexists; by rewrite <- !app_assoc].
      exists c, (wr_id w), (Some (ce_id e)), (build_trigger_context e), run. rewrite Hj.
      split; [set_solver|]. left. by exists def.
  - unfold should_fire_workflow, filter_held. destruct (emoji_matches (trigger def) _) eqn:He; simpl negb; cbn iota;
      [|by exists []; rewrite app_nil_r].
    destruct (trigger_filter (trigger def)) as [expr|] eqn:Hx; [|by exists []; rewrite app_nil_r].
    unfold evaluate. apply wp_bind, wp_ask. intros task. split; [done|]. cbn [wp]. eexists. split; [done|].
    intros Ht. split; [done|]. intros ? [= <-]. exists task. split; [set_solver|].
    destruct (evaluate_condition task expr _ ∅) as [[]|]; done.
Qed.

Lemma wp_for_each {A} (P : list Entry → Entry → Prop) (I : list Entry → Prop) (body : A → Prog unit)
    (l : list A) (h : list Entry) :
  (∀ x h, x ∈ l → I h → wp P (body x) h (λ _, I)) → I h → wp P (for_each body l) h (λ _, I).
Proof.
  revert h. induction l as [|x l IH]; intros h Hb Hh; [done|]. simpl. apply wp_bind.
  apply (wp_mono _ _ _ (λ _ : unit, I)); [|by apply Hb; [left|]]. intros _ h' Hh'. apply IH; [|done].
  intros y h'' Hy. apply Hb. by right.
Qed.

Lemma wp_event_door (c : CommunityId) (e : ChannelEvent) :
  wp (door_ok (EventDoor c e)) (door_program (EventDoor c e)) [] (λ _ _, True).
Proof.
  cbn [door_program]. apply wp_bind. apply (wp_mono _ _ _ (λ _ _, True)); [done|]. unfold on_event.
  destruct (ce_channel_id e) as [ch|] eqn:Hch; [|done].
  destruct (is_workflow_execution_kind (ce_kind e)) eqn:Hk; [done|].
  set (known l (h : list Entry) := (entry (CacheGet c ch) (Some l) : Entry) ∈ h
                    ∨ (entry (ListEnabledChannelWorkflows c ch) (Ok l) : Entry) ∈ h).
  apply wp_bind, (wp_mono _ _ _ (λ (r : result (list WorkflowRecord) WorkflowError) h, ∀ l, r = Ok l → known l h)).
  - intros [[|w l]|er] h Hl; [done| |done]. cbv zeta. specialize (Hl _ eq_refl).
    destruct (context_to_json (build_trigger_context e)) as [cj|] eqn:Hj; [|done].
    apply wp_bind, (wp_mono _ _ _ (λ _ h', known (w :: l) h')); [done|].
    apply wp_for_each; [|done]. intros x h' Hx Hh'.
    eapply wp_mono; [|apply wp_fire_on_event; [done..|by exists (w :: l)]].
    intros _ h'' [u ->]. unfold known in *. rewrite !elem_of_app. naive_solver.
  - unfold channel_workflows. apply wp_ask. intros [l|]; split; try done; cbn [wp].
    { intros ? [= <-]. left. set_solver. }
    apply wp_ask. intros [l|er]; split; try done. apply wp_ask. intros v. split; [done|]. cbn [wp].
    intros ? [= <-]. right. set_solver.
Qed.

Lemma wp_command_door (c : CommunityId) (e : Command) :
  wp (door_ok (CommandDoor c e)) (door_program (CommandDoor c e)) [] (λ _ _, True).
Proof.
  cbn [door_program]. apply wp_bind. apply (wp_mono _ _ _ (λ _ _, True)); [done|].
  unfold handle_workflow_trigger. destruct (ok_or _ _) as [s|]; [|done]. destruct (ok_or _ _) as [w|]; [|done].
  apply wp_ask. intros [r|er]; split; try done.
  destruct (bool_decide (wr_owner_pubkey r = cmd_pubkey e)) eqn:Ho; [|done]. simpl negb. cbn iota.
  destruct (live r) eqn:Hlive; [|done]. simpl negb. cbn iota.
  destruct (def_of_json (wr_definition r)) as [def|] eqn:Hdef; [|done]. cbn [ok_or].
  destruct (wr_channel_id r) as [ch|] eqn:Hch; [|done]. cbn beta iota.
  apply wp_authority; [done|done|]. intros role Ha.
  apply wp_bind. unfold persist. apply wp_ask. intros p. split; [done|]. cbn [wp].
  destruct (map_err Rejected p) as [[]|]; try done. cbv zeta.
  apply wp_ask. intros run. split.
  - set (h0 := _ ++ [entry (GetWorkflow _ _) _]). exists h0, r, def, ch, role.
    eexists [_]. split; [by unfold h0; simpl|]. split; [by repeat constructor|]. split; [done|].
    split; [done|]. split; [done|]. split; [unfold h0; set_solver|].
    split; [by apply bool_decide_eq_true in Ho|done].
  - destruct run as [run|er]; [|done]. apply wp_bind. unfold commit. apply wp_ask. intros cm. split; [done|].
    cbn [wp]. destruct (map_err _ cm); [|done]. apply wp_ask. intros u. split; [|done].
    exists c, w, (Some (cmd_id e)), (manual_context r e), run. split; [set_solver|]. right. by eexists.
Qed.

Lemma wp_webhook_door (q : WebhookCall) :
  wp (door_ok (WebhookDoor q)) (door_program (WebhookDoor q)) [] (λ _ _, True).
Proof.
  cbn [door_program]. apply wp_bind. apply (wp_mono _ _ _ (λ _ _, True)); [done|].
  unfold workflow_webhook. destruct (uuid_parse_str (wc_id q)) as [w|] eqn:Hw; [|done]. cbn beta iota.
  apply wp_ask. intros [c|er]; split; try done. apply wp_ask. intros [r|er]; split; try done.
  destruct (def_of_json (wr_definition r)) as [def|] eqn:Hdef; [|done]. cbn beta iota.
  destruct (authenticate_webhook q r def) as [u|] eqn:Hauth; [|done]. cbn beta iota.
  destruct (webhook_body q) as [body|] eqn:Hbody; [|done]. cbn beta iota zeta.
  destruct (live r) eqn:Hlive; [|done]. simpl negb. cbn iota.
  destruct (wr_channel_id r) as [ch|] eqn:Hch; [|done].
  apply wp_authority; [done|done|]. intros role Ha. apply wp_ask. intros run. split.
  - eexists _, r, def, ch, role, []. split; [reflexivity|]. split; [constructor|]. split; [done|].
    split; [done|]. unfold authenticate_webhook in Hauth.
    destruct (trigger def) eqn:Ht; try done. destruct (extract_secret (wr_definition r)) as [secret|] eqn:Hs; [|done].
    simpl in Hauth. destruct (verify_secret _ secret) eqn:Hv; [|done]. apply verify_secret_eq in Hv as <-.
    split; [set_solver|]. split; [set_solver|]. done.
  - destruct run as [run|er]; [|done]. apply wp_ask. intros v. split; [|done].
    exists c, w, None, (webhook_context r body), run. split; [set_solver|]. right. by eexists.
Qed.

Lemma wp_door (d : Door) : wp (door_ok d) (door_program d) [] (λ _ _, True).
Proof.
  destruct d; [apply wp_scheduler_door|apply wp_event_door|apply wp_command_door|apply wp_webhook_door].
Qed.

(** ** In a system over one database *)

(** The answer that a role lookup got *)
Definition role_answered (en : Entry) : option (Uuid * Uuid * Bytes * option string) :=
  match en with
  | {| call := e; reply := r |} =>
      match e return Ans e → option (Uuid * Uuid * Bytes * option string) with
      | GetMemberRole c ch pk => λ r, match r with Ok role => Some (c, ch, pk, role) | Err _ => None end
      | _ => λ _, None
      end r
  end.

Lemma role_answer_current (write_allowed : CommunityId → bool) (k : Choice) (e : Ev) (d : Db) (r : Ans e)
    (c ch : Uuid) (pk : Bytes) (role : option string) :
  role_answered (entry e (db_step write_allowed k e d r).1) = Some (c, ch, pk, role) →
  role = get_member_role c ch pk d.
Proof. destruct e; try done. simpl. unfold settle. destruct (outcome k); simpl; try done. by intros [= -> -> -> <-]. Qed.

(** A call of a process and what the process called since, in the log *)
Lemma history_lookup (i pos : nat) (l : list (nat * Entry)) (h bs : list Entry) (x : Entry) :
  history i (take pos l) = h ++ x :: bs →
  ∃ p, p < pos ∧ l !! p = Some (i, x) ∧ history i (take p l) = h
       ∧ ∀ k y, p < k < pos → l !! k = Some (i, y) → y ∈ bs.
Proof.
  intros Hh. rewrite cons_middle, app_assoc in Hh.
  apply history_split in Hh as (l1 & l2 & Heq & Hh1 & Hh2).
  pose proof Hh1 as (l3 & l4 & -> & Hno)%history_last.
  assert (history i l4 = []) as Hl4 by (apply history_nil; intros en Hen; by apply (Hno (i, en))).
  assert (take pos l !! length l3 = Some (i, x)) as Hp.
  { rewrite Heq, <- app_assoc. by apply list_lookup_middle. }
  pose proof (lookup_lt_Some _ _ _ Hp) as Hlt. rewrite length_take in Hlt.
  exists (length l3). split; [lia|]. split; [by rewrite lookup_take_lt in Hp by lia|]. split.
  - assert (take (length l3) l = l3) as ->.
    { transitivity (take (length l3) (take pos l)); [by rewrite take_take, Nat.min_l by lia|].
      rewrite Heq, <- app_assoc. by apply take_app_length'. }
    rewrite history_app, history_cons, Hl4 in Hh1. by apply app_inj_tail in Hh1 as [? _].
  - intros k y Hk Hy. rewrite <- (lookup_take_lt _ pos), Heq, <- app_assoc in Hy by lia.
    rewrite lookup_app_r in Hy by lia. replace (k - length l3) with (S (k - S (length l3))) in Hy by lia.
    simpl in Hy. apply list_elem_of_lookup_2, elem_of_app in Hy as [Hy|Hy]; [by destruct (Hno _ Hy)|].
    rewrite <- Hh2. unfold history. apply list_elem_of_fmap. exists (i, y). split; [done|].
    by apply list_elem_of_filter.
Qed.

Abbreviation System := (@Interaction.System Ev Ans Db).

(** C12 Runs are created under the owner's authority. Whichever door a run comes through, at the
    moment [p] the database gave the owner of its workflow a role in its channel that allows
    the definition (with webhooks: owner or admin), and nothing but the claim or the command's
    own record came between; the row, its channel and what opened the door are those of the
    door: a due schedule, an event that passed the filter, the owner's own command, or the
    webhook's secret. And only a run that was created is started. *)
Theorem runs_are_authorised (write_allowed : CommunityId → bool) (d : Db) (s : System) (door : Door)
    (i pos : nat) (en : Entry) (q : Prog unit) :
  reach (db_step write_allowed) d s → processes s !! i = Some (door_program door, q) →
  log s !! pos = Some (i, en) →
  (∀ c w, creation en = Some (c, w) →
     ∃ p now r def ch, p < pos ∧ evolves (db_step write_allowed) d (take p (log s)) now
       ∧ def_of_json (wr_definition r) = Some def
       ∧ allowed (get_member_role c ch (wr_owner_pubkey r) now) def
       ∧ (∀ k y, p < k < pos → log s !! k = Some (i, y) → between (call y))
       ∧ source door (history i (take p (log s))) c w r def ch)
  ∧ (∀ t, call en = Spawn t →
       ∃ c w ev ctx run, (entry (CreateWorkflowRun c w ev (context_to_json ctx)) (Ok run) : Entry)
                           ∈ history i (take pos (log s))
         ∧ ((∃ def, t = ExecuteRunTask c run def ctx) ∨ ∃ j, t = ExecuteStoredTask c run j ctx)).
Proof.
  intros Hr Hq Hpos. pose proof (take_drop_middle _ _ _ Hpos) as Heq.
  pose proof (reach_acceptable _ _ _ _ _ _ _ _ _ _ _ Hr Hq (wp_door door) (eq_sym Heq)) as Hok.
  unfold door_ok, creation in *. destruct (call en); split; try done.
  - intros c w [= -> ->]. destruct Hok as (h0 & r & def & ch & role & bs & Hh & Hbs & Hdef & Ha & Hsrc).
    apply history_lookup in Hh as (p & Hp & Hlp & Hh & Hbetween).
    pose proof (reach_evolves _ _ _ Hr) as He. rewrite <- (take_drop_middle _ _ _ Hlp) in He.
    apply evolves_app in He as (now & He & k & e & a & Hx & _).
    assert (role = get_member_role c ch (wr_owner_pubkey r) now) as ->.
    { apply (role_answer_current write_allowed k e now a). by rewrite <- Hx. }
    exists p, now, r, def, ch. split; [done|]. split; [done|]. split; [done|]. split; [done|]. split.
    + intros k' y Hk Hy. eapply Forall_forall in Hbs; [exact Hbs|by eapply Hbetween].
    + by rewrite Hh.
  - intros t' [= ->]. exact Hok.
Qed.
End doors.

(** ** Approvals *)

(** The approval that a call decided *)
Definition decision (en : Entry) : option (Uuid * Bytes) :=
  match en with
  | {| call := e; reply := r |} =>
      match e return Ans e → option (Uuid * Bytes) with
      | UpdateApprovalByStoredHash c hash _ _ _ =>
          λ r, match r with Ok true => Some (c, hash) | _ => None end
      | _ => λ _, None
      end r
  end.

(** A decision to be made is not open. *)
Definition not_pending (d : Db) (c : Uuid) (hash : Bytes) : Prop :=
  ∀ a, approvals d !! (c, hash) = Some a → ap_status a ≠ Pending.

(** The status that a command writes is not [Pending]. *)
Definition decides (e : Ev) : Prop :=
  match e with UpdateApprovalByStoredHash _ _ st _ _ => st ≠ Pending | _ => True end.

Section approvals.
Context (write_allowed : CommunityId → bool).

Abbreviation answer := (db_step write_allowed).

Lemma decided_kept (k : Choice) (e : Ev) (d : Db) (r : Ans e) (c : Uuid) (hash : Bytes) :
  decides e → not_pending d c hash → not_pending (answer k e d r).2 c hash.
Proof.
  intros He Hd. destruct e; try exact Hd; simpl in He |- *;
    try (apply (settle_effect (λ d, not_pending d c hash)); [|exact Hd]); try exact Hd.
  - unfold claim_scheduled_workflow_fire; repeat case_match; simplify_eq/=; exact Hd.
  - unfold create_workflow_run; repeat case_match; simplify_eq/=; exact Hd.
  - unfold attach_scheduled_workflow_run; repeat case_match; simplify_eq/=; exact Hd.
  - unfold update_workflow_run; repeat case_match; simplify_eq/=; exact Hd.
  - unfold upsert_workflow; repeat case_match; simplify_eq/=; exact Hd.
  - unfold delete_workflow_for_owner. repeat case_match; try exact Hd. intros a'.
    simpl. intros [Ha' _]%map_lookup_filter_Some. by apply (Hd a').
  - unfold update_approval_by_stored_hash. repeat case_match; simplify_eq/=; try exact Hd.
    intros a'. simpl. destruct (decide ((community_id, token_hash) = (c, hash))) as [Heq|Hne].
    + rewrite Heq, lookup_insert_eq. by intros [= <-].
    + rewrite lookup_insert_ne by done. apply Hd.
Qed.

Lemma decision_once (k : Choice) (e : Ev) (d : Db) (r : Ans e) (c : Uuid) (hash : Bytes) :
  decides e → decision (entry e (answer k e d r).1) = Some (c, hash) →
  ¬ not_pending d c hash ∧ not_pending (answer k e d r).2 c hash.
Proof.
  destruct e; try done. simpl. unfold settle, update_approval_by_stored_hash.
  intros Hst. destruct (outcome k); simpl; try done;
    destruct (approvals d !! (community_id, token_hash)) as [a|] eqn:Ha; try done;
    destruct (decide (ap_status a = Pending)) as [Hp|]; try done. simpl. intros [= -> ->]. split.
  - intros Hn. by apply (Hn a).
  - intros a'. simpl. rewrite lookup_insert_eq. by intros [= <-].
Qed.

Lemma evolves_decided (d d' : Db) (l : list (nat * Entry)) (c : Uuid) (hash : Bytes) :
  evolves answer d l d' → (∀ x, x ∈ l → decides (call x.2)) → not_pending d c hash → not_pending d' c hash.
Proof.
  revert d. induction l as [|[i en] l IH]; intros d; simpl; [by intros ->|].
  intros (k & e & r & -> & Hl) Hd Hn. apply (IH _ Hl); [set_solver|]. apply decided_kept; [|done].
  apply (Hd (i, entry e (answer k e d r).1)). by left.
Qed.

Lemma decisions_apart (d d' : Db) (l : list (nat * Entry)) (p p' i j : nat) (x y : Entry) (c : Uuid) (hash : Bytes) :
  evolves answer d l d' → (∀ z, z ∈ l → decides (call z.2)) →
  l !! p = Some (i, x) → l !! p' = Some (j, y) → p < p' →
  decision x = Some (c, hash) → decision y = Some (c, hash) → False.
Proof.
  intros Hl Hd Hp Hp' Hlt Hx Hy. rewrite <- (take_drop_middle l p (i, x) Hp) in Hl, Hd.
  assert (drop (S p) l !! (p' - S p) = Some (j, y)) as Hy'.
  { rewrite lookup_drop. by replace (S p + (p' - S p)) with p' by lia. }
  rewrite <- (take_drop_middle _ _ _ Hy') in Hl, Hd.
  apply evolves_app in Hl as (d1 & _ & k & e & r & -> & Hl).
  apply decision_once in Hx as [_ Hx]; [|apply (Hd (i, entry e (answer k e d1 r).1)); set_solver].
  apply evolves_app in Hl as (d2 & Hl2 & k' & e' & r' & -> & _).
  apply decision_once in Hy as [Hy _]; [|apply (Hd (j, entry e' (answer k' e' d2 r').1)); set_solver].
  apply Hy. eapply evolves_decided; [exact Hl2| |exact Hx]. intros z Hz. apply Hd. set_solver.
Qed.
End approvals.

Section verdicts.
Context `{UuidText} `{IdText} `{WebText} `{HexText} `{TemplateText} `{StringHash} `{EvalExpr}.
Context `{Cron} `{WorkflowJson} `{DefText} `{DefinitionHash}.

Definition verdict_program (granted : bool) (c : CommunityId) (event : Command) : Prog unit :=
  _ <-* (if granted then handle_approval_grant c event else handle_approval_deny c event) ;; Ret tt.

(** The task that follows a verdict on the approval [a] *)
Definition verdict_task (granted : bool) (c : CommunityId) (event : Command) (a : ApprovalRecord) : Task :=
  if granted then ResumeTask c (ap_run_id a) (ap_workflow_id a) (resume_index a)
  else CancelTask c (ap_run_id a) (hex_encode (cmd_pubkey event)).

(** The approval [a] was open to the one who sent [event]. *)
Definition open_to (h : list Entry) (c : CommunityId) (hash : Bytes) (event : Command) (a : ApprovalRecord) : Prop :=
  (or_else (extract_d_tag event) (extract_e_tag event)) ≫= hex_decode = Some hash
  ∧ (entry (GetApprovalByStoredHash c hash) (Ok a) : Entry) ∈ h ∧ ap_status a = Pending
  ∧ (∃ now, (entry UtcNow now : Entry) ∈ h ∧ (now ≤ ap_expires_at a)%Z)
  ∧ check_approver_spec (ap_approver_spec a) (hex_encode (cmd_pubkey event)) = Ok tt.

Definition verdict_ok (granted : bool) (c : CommunityId) (event : Command) (h : list Entry) (x : Entry) : Prop :=
  match call x with
  | Spawn t =>
      ∃ h0 hash a st pk note,
        h = h0 ++ [(entry (UpdateApprovalByStoredHash c hash st pk note) (Ok true) : Entry);
                   (entry CommitTransaction (Ok tt) : Entry)]
        ∧ open_to h0 c hash event a ∧ t = verdict_task granted c event a
  | _ => True
  end.

Lemma wp_find_approval (granted : bool) (c : CommunityId) (event : Command) :
  wp (verdict_ok granted c event) (find_approval c event) []
     (λ r h, ∀ hash a, r = Ok (hash, a) → open_to h c hash event a).
Proof.
  unfold find_approval. destruct (or_else _ _) as [s|] eqn:Hs; [|done]. cbn [ok_or].
  destruct (hex_decode s) as [hash|] eqn:Hh; [|done]. cbn [ok_or].
  apply wp_ask. intros [a|er]; split; try done.
  destruct (bool_decide (ap_status a = Pending)) eqn:Hp; [|done]. simpl negb. cbn iota.
  apply wp_ask. intros now. split; [done|]. destruct (Z.ltb_spec (ap_expires_at a) now) as [Hlt|Hge]; [done|].
  destruct (check_approver_spec _ _) as [[]|] eqn:Hc; [|done]. cbn [wp]. intros ? ? [= <- <-].
  split; [by rewrite Hs|]. split; [set_solver|]. split; [by apply bool_decide_eq_true in Hp|].
  split; [|done]. exists now. split; [set_solver|done].
Qed.

Lemma open_to_app (h t : list Entry) (c : CommunityId) (hash : Bytes) (event : Command) (a : ApprovalRecord) :
  open_to h c hash event a → open_to (h ++ t) c hash event a.
Proof.
  intros (Hs & Ha & Hp & (now & Hn & He) & Hc). split; [done|]. split; [apply elem_of_app; by left|].
  split; [done|]. split; [|done]. exists now. split; [apply elem_of_app; by left|done].
Qed.

Lemma wp_decide (granted : bool) (c : CommunityId) (event : Command) (st : ApprovalStatus) (word : string) :
  wp (verdict_ok granted c event) (decide_approval st (verdict_task granted c event) word c event) []
     (λ _ _, True).
Proof.
  unfold decide_approval. apply wp_bind. eapply wp_mono; [|apply wp_find_approval].
  intros [[hash a]|er] h Ho; [|done]. specialize (Ho _ _ eq_refl). simpl fst. simpl snd.
  apply wp_bind. unfold persist. apply wp_ask. intros p. split; [done|]. cbn [wp].
  destruct (map_err Rejected p) as [[]|]; try done. cbv zeta.
  apply wp_ask. intros [[]|er]; split; try done.
  apply wp_bind. unfold commit. apply wp_ask. intros cm. split; [done|]. cbn [wp].
  destruct cm as [[]|er]; [|done]. cbn [map_err]. apply wp_ask. intros u. split; [|done].
  eexists (h ++ [_]), hash, a, st, _, _. split; [by rewrite <- !app_assoc|]. split; [|done].
  by apply open_to_app.
Qed.

Lemma wp_verdict (granted : bool) (c : CommunityId) (event : Command) :
  wp (verdict_ok granted c event) (verdict_program granted c event) [] (λ _ _, True).
Proof.
  apply wp_bind, (wp_mono _ _ _ (λ _ _, True)); [done|].
  destruct granted; [apply (wp_decide true)|apply (wp_decide false)].
Qed.

(** C15 An approval is decided once. A grant or a denial starts its task, the resumption of the
    approval's run from the step behind it or its cancellation, only for an approval that was
    pending, not expired and open to the sender, after its own update decided it and the
    command was committed; and in a system of any programs that do not reopen approvals, with
    statements that fail or whose answers are lost, only one update decides an approval. *)
Theorem approval_decided_once (write_allowed : CommunityId → bool) (d : Db) (s : @Interaction.System Ev Ans Db) :
  reach (db_step write_allowed) d s → (∀ x, x ∈ log s → decides (call x.2)) →
  (∀ granted c event i q pos en t,
     processes s !! i = Some (verdict_program granted c event, q) →
     log s !! pos = Some (i, en) → call en = Spawn t →
     ∃ p x hash a, p < pos ∧ log s !! p = Some (i, x) ∧ decision x = Some (c, hash)
       ∧ open_to (history i (take p (log s))) c hash event a ∧ t = verdict_task granted c event a)
  ∧ (∀ p p' i j x y c hash, log s !! p = Some (i, x) → log s !! p' = Some (j, y) →
       decision x = Some (c, hash) → decision y = Some (c, hash) → p = p').
Proof.
  intros Hr Hd. split.
  - intros granted c event i q pos en t Hq Hpos Ht. pose proof (take_drop_middle _ _ _ Hpos) as Heq.
    pose proof (reach_acceptable _ _ _ _ _ _ _ _ _ _ _ Hr Hq (wp_verdict granted c event) (eq_sym Heq)) as Hok.
    unfold verdict_ok in Hok. rewrite Ht in Hok. destruct Hok as (h0 & hash & a & st & pk & note & Hh & Ho & ->).
    apply history_lookup in Hh as (p & Hp & Hlp & Hh & _). eexists p, _, hash, a.
    split; [done|]. split; [exact Hlp|]. split; [done|]. by rewrite Hh.
  - intros p p' i j x y c hash Hp Hp' Hx Hy. pose proof (reach_evolves _ _ _ Hr) as He.
    destruct (lt_eq_lt_dec p p') as [[Hlt|Heq]|Hlt]; [exfalso|exact Heq|exfalso].
    + by eapply (decisions_apart write_allowed); [exact He|exact Hd|exact Hp|exact Hp'|..].
    + by eapply (decisions_apart write_allowed); [exact He|exact Hd|exact Hp'|exact Hp|..].
Qed.
End verdicts.

(** ** Witnesses: a webhook call and a grant *)

Section witnesses.
#[local] Existing Instance example_uuids.
#[local] Existing Instance example_ids.
#[local] Existing Instance example_web.
#[local] Existing Instance example_hex.
#[local] Existing Instance concrete_text.
#[local] Existing Instance concrete_hash.
#[local] Existing Instance concrete_expr.
#[local] Existing Instance minute_cron.
#[local] Instance called_json : WorkflowJson := example_json calling_workflow.

Definition webhook_row : WorkflowRecord := {|
  wr_id := 7; wr_community_id := 1; wr_name := "calling"; wr_owner_pubkey := [1%Z]; wr_channel_id := Some 3%N;
  wr_definition := JObject [("_webhook_secret", JString "secret")];
  wr_definition_hash := []; wr_status := Active; wr_enabled := true; wr_created_at := 0; wr_updated_at := 0 |}.

Definition example_approval : ApprovalRecord := {|
  ap_token := [5%Z]; ap_workflow_id := 7; ap_run_id := 42; ap_step_id := "gate";
  ap_step_index := 1; ap_approver_spec := "any"; ap_status := Pending; ap_approver_pubkey := None;
  ap_note := None; ap_expires_at := (3600 * NANOS)%Z; ap_created_at := 0 |}.

Definition example_db : Db := {|
  workflows := {[(1%N, 7%N) := webhook_row]}; WorkflowDb.runs := ∅;
  approvals := {[(1%N, [5%Z]) := example_approval]}; fires := ∅;
  member_roles := {[(1%N, 3%N, [1%Z]) := "admin"]}; archived_communities := ∅ |}.

Definition example_call : WebhookCall := {|
  wc_id := "7"; wc_host := Some "relay.example"; wc_secret_header := Some "secret"; wc_secret_query := None;
  wc_body := "" |}.

Definition example_grant : Command := {|
  cmd_id := [8%Z]; cmd_pubkey := [9%Z]; cmd_content := ""; cmd_tags := [["d"; "5"]] |}.

(** The webhook's handler to its end, then the grant's *)
Definition example_system : @Interaction.System Ev Ans Db :=
  advance_n [0; 0; 0; 0; 0; 1; 1; 1; 1; 1; 1]
    (start (verdict_program true 1 example_grant)
       (start (door_program (WebhookDoor example_call)) (initial example_db))).

Lemma example_reach : reach (db_step everything_allowed) example_db example_system.
Proof. apply reach_advance_n, reach_start, reach_start, reach_init. Qed.

Lemma example_process (i : nat) (p : Prog unit) :
  (processes example_system).*1 !! i = Some p → ∃ q, processes example_system !! i = Some (p, q).
Proof.
  rewrite list_lookup_fmap. destruct (processes example_system !! i) as [[p' q]|]; [|done].
  intros [= ->]. by exists q.
Qed.
Lemma runs_are_authorised_witness :
  (∃ en, log example_system !! 3 = Some (0, en) ∧ creation en = Some (1%N, 7%N))
  ∧ ∃ p now r def ch, p < 3
      ∧ allowed (get_member_role 1 ch (wr_owner_pubkey r) now) def
      ∧ source (WebhookDoor example_call) (history 0 (take p (log example_system))) 1 7 r def ch.
Proof.
  destruct (example_process 0 (door_program (WebhookDoor example_call))) as [q Hq].
  { unfold example_system. rewrite advance_n_started. reflexivity. }
  set (en := (entry (CreateWorkflowRun 1%N 7%N None (Some JNull)) (Ok 42%N) : Entry)).
  assert (log example_system !! 3 = Some (0, en)) as Hen by (vm_compute; reflexivity).
  destruct (runs_are_authorised everything_allowed example_db example_system (WebhookDoor example_call)
              0 3 en q example_reach Hq Hen) as [Hc _].
  destruct (Hc 1%N 7%N eq_refl) as (p & now & r & def & ch & Hp & _ & _ & Ha & _ & Hsrc).
  split; [exact (ex_intro _ en (conj Hen eq_refl))|].
  exact (ex_intro _ p (ex_intro _ now (ex_intro _ r (ex_intro _ def (ex_intro _ ch (conj Hp (conj Ha Hsrc))))))).
Defined.

Lemma approval_decided_once_witness :
  ∃ p x a, p < 10 ∧ log example_system !! p = Some (1, x) ∧ decision x = Some (1%N, [5%Z])
    ∧ ResumeTask 1 42 7 2 = verdict_task true 1 example_grant a.
Proof.
  destruct (example_process 1 (verdict_program true 1 example_grant)) as [q Hq].
  { unfold example_system. rewrite advance_n_started. reflexivity. }
  set (en := (entry (Spawn (ResumeTask 1 42 7 2)) tt : Entry)).
  assert (log example_system !! 10 = Some (1, en)) as Hen by (vm_compute; reflexivity).
  destruct (approval_decided_once everything_allowed example_db example_system example_reach) as [Ht _].
  { apply Forall_forall. vm_compute. repeat constructor; discriminate. }
  destruct (Ht true 1%N example_grant 1 q 10 en (ResumeTask 1 42 7 2) Hq Hen eq_refl)
    as (p & x & hash & a & Hp & Hx & Hdec & Ho & Htask).
  destruct Ho as [Hhash _]. change (Some [5%Z] = Some hash) in Hhash. injection Hhash as <-.
  exact (ex_intro _ p (ex_intro _ x (ex_intro _ a (conj Hp (conj Hx (conj Hdec Htask)))))).
Defined.
End witnesses.
