(* ===== verification/Auth.v ===== *)
(** * Tenants, scopes and signed requests (buzz-core/src/tenant.rs, buzz-auth)

    The pure part of the relay's front door: the tenant of a host, the scopes, the
    verification of NIP-42 and NIP-98 events, and the Redis keys. A public key and an event id
    are their lower-case hex form; the nostr, url, serde_json and base64 crates are the class
    [AuthLib]. [Timestamp::now] is an argument. *)

From S2P Require Import Prelude Text StdText Filter Json.

Open Scope string_scope.
Open Scope nat_scope.
Open Scope list_scope.

Abbreviation PublicKey := string (only parsing).
Abbreviation EventId := string (only parsing).

(** A [nostr::Event] with everything that is signed; a tag is its slice. *)
Record SignedEvent := {
  id : EventId;
  author : PublicKey;
  created_at : Z;
  kind : Kind;
  tags : list (list string);
  content : string;
  sig : string
}.

Inductive UrlHost := Domain (domain : string) | Ipv4Host (addr : string) | Ipv6Host (addr : string).

Class AuthLib := {
  event_from_json : string → result SignedEvent string; (* or the text of the parse error *)
  EventId_new : PublicKey → Z → Kind → list (list string) → string → EventId;
  verify_signature : SignedEvent → bool;
  public_key_from_hex : string → option PublicKey;
  Url : Type;
  Url_parse : string → option Url;
  url_path : Url → string;
  url_set_path : string → Url → Url;
  url_host_str : Url → option string;
  url_set_host : string → Url → Url;
  url_host : Url → option UrlHost;
  url_port : Url → option Z;
  url_to_string : Url → string;
  to_lowercase : string → string;                      (* the Unicode tables of std *)
  debug_str : string → string;                         (* [Debug] of a string *)
  base64_decode : string → option string;
  value_from_str : string → result Json string;
  event_from_value : Json → result SignedEvent string;
  filter_from_value : Json → result Filter string;
  value_to_string : Json → string;
  signature_from_str : string → option string;
  xonly : PublicKey → option string;
  verify_schnorr : string → string → string → bool     (* signature, message, key *)
}.

(** ** Tenants *)

Record TenantContext := { community : CommunityId; host : string }.

Definition normalize_host (h : string) : string :=
  let h := to_ascii_lowercase (str_trim h) in
  let h := match strip_suffix ":443" h with
           | Some stripped => stripped
           | None => match strip_suffix ":80" h with Some stripped => stripped | None => h end
           end in
  match strip_suffix "." h with Some stripped => stripped | None => h end.

(** ** Scopes *)

Inductive Scope :=
  | MessagesRead | MessagesWrite | ChannelsRead | ChannelsWrite | AdminChannels | UsersRead
  | UsersWrite | AdminUsers | JobsRead | JobsWrite | SubscriptionsRead | SubscriptionsWrite
  | FilesRead | FilesWrite | ReposRead | ReposWrite
  | UnknownScope (s : string).

#[export] Instance Scope_eq_dec : EqDecision Scope.
Proof. solve_decision. Defined.

Definition all_known : list Scope :=
  [MessagesRead; MessagesWrite; ChannelsRead; ChannelsWrite; AdminChannels; UsersRead; UsersWrite;
   AdminUsers; JobsRead; JobsWrite; SubscriptionsRead; SubscriptionsWrite; FilesRead; FilesWrite;
   ReposRead; ReposWrite].

Definition all_non_admin : list Scope :=
  [MessagesRead; MessagesWrite; ChannelsRead; ChannelsWrite; UsersRead; UsersWrite; JobsRead;
   JobsWrite; SubscriptionsRead; SubscriptionsWrite; FilesRead; FilesWrite; ReposRead; ReposWrite].

Definition scope_as_str (s : Scope) : string :=
  match s with
  | MessagesRead => "messages:read"
  | MessagesWrite => "messages:write"
  | ChannelsRead => "channels:read"
  | ChannelsWrite => "channels:write"
  | AdminChannels => "admin:channels"
  | UsersRead => "users:read"
  | UsersWrite => "users:write"
  | AdminUsers => "admin:users"
  | JobsRead => "jobs:read"
  | JobsWrite => "jobs:write"
  | SubscriptionsRead => "subscriptions:read"
  | SubscriptionsWrite => "subscriptions:write"
  | FilesRead => "files:read"
  | FilesWrite => "files:write"
  | ReposRead => "repos:read"
  | ReposWrite => "repos:write"
  | UnknownScope s => s
  end.

Definition scope_from_str (s : string) : Scope :=
  if decide (s = "messages:read") then MessagesRead
  else if decide (s = "messages:write") then MessagesWrite
  else if decide (s = "channels:read") then ChannelsRead
  else if decide (s = "channels:write") then ChannelsWrite
  else if decide (s = "admin:channels") then AdminChannels
  else if decide (s = "users:read") then UsersRead
  else if decide (s = "users:write") then UsersWrite
  else if decide (s = "admin:users") then AdminUsers
  else if decide (s = "jobs:read") then JobsRead
  else if decide (s = "jobs:write") then JobsWrite
  else if decide (s = "subscriptions:read") then SubscriptionsRead
  else if decide (s = "subscriptions:write") then SubscriptionsWrite
  else if decide (s = "files:read") then FilesRead
  else if decide (s = "files:write") then FilesWrite
  else if decide (s = "repos:read") then ReposRead
  else if decide (s = "repos:write") then ReposWrite
  else UnknownScope s.

Definition parse_scopes (raw : list string) : list Scope := map scope_from_str raw.

(** ** Errors *)

Inductive AuthError :=
  | InvalidSignature
  | ChallengeMismatch
  | RelayUrlMismatch
  | EventExpired
  | Nip98Invalid (reason : string)
  | Nip98Replay
  | PubkeyMismatch
  | InsufficientScope (required : string) (have : list string)
  | ChannelAccessDenied
  | Internal (reason : string).

(** [Debug] of a [Vec<String>] *)
Definition debug_strings `{AuthLib} (l : list string) : string :=
  "[" +:+ String.concat ", " (map debug_str l) +:+ "]".

(** [Display] *)
Definition auth_error_text `{AuthLib} (e : AuthError) : string :=
  match e with
  | InvalidSignature => "invalid signature or malformed auth event"
  | ChallengeMismatch => "challenge mismatch"
  | RelayUrlMismatch => "relay url mismatch"
  | EventExpired => "auth event timestamp outside ±60s window"
  | Nip98Invalid reason => "NIP-98 HTTP Auth verification failed: " +:+ reason
  | Nip98Replay => "NIP-98 replay: event id already seen within window"
  | PubkeyMismatch => "pubkey mismatch: event pubkey does not match authenticated identity"
  | InsufficientScope required have =>
      "insufficient scope: required " +:+ required +:+ ", have " +:+ debug_strings have
  | ChannelAccessDenied => "channel access denied"
  | Internal reason => "internal auth error: " +:+ reason
  end.

Definition require_scope (scopes : list Scope) (required : Scope) : result unit AuthError :=
  if decide (required ∈ scopes) then Ok tt
  else Err (InsufficientScope (scope_as_str required) (map scope_as_str scopes)).

(** [ChannelAccessChecker::accessible_channel_ids] of the caller's implementation *)
Abbreviation ChannelAccessChecker :=
  (TenantContext → PublicKey → result (list Uuid) AuthError) (only parsing).

Definition can_access (checker : ChannelAccessChecker) (ctx : TenantContext) (pubkey : PublicKey)
    (channel : Uuid) : result bool AuthError :=
  ids <-? checker ctx pubkey ;;
  Ok (mem channel ids).

Definition check_read_access (checker : ChannelAccessChecker) (ctx : TenantContext) (pubkey : PublicKey)
    (channel : Uuid) (scopes : list Scope) : result unit AuthError :=
  _ <-? require_scope scopes MessagesRead ;;
  ok <-? can_access checker ctx pubkey channel ;;
  if ok : bool then Ok tt else Err ChannelAccessDenied.

Definition check_write_access (checker : ChannelAccessChecker) (ctx : TenantContext) (pubkey : PublicKey)
    (channel : Uuid) (scopes : list Scope) : result unit AuthError :=
  _ <-? require_scope scopes MessagesWrite ;;
  ok <-? can_access checker ctx pubkey channel ;;
  if ok : bool then Ok tt else Err ChannelAccessDenied.

(** ** Authenticated connections *)

Inductive AuthMethod := Nip42 | Nip98.

#[export] Instance AuthMethod_eq_dec : EqDecision AuthMethod.
Proof. solve_decision. Defined.

Record AuthContext := {
  pubkey : PublicKey;
  scopes : list Scope;
  channel_ids : option (list Uuid);
  auth_method : AuthMethod;
  agent_owner_pubkey : option PublicKey
}.

Definition has_scope (self : AuthContext) (s : Scope) : bool := bool_decide (s ∈ scopes self).

Record RateLimitConfig := {
  human_messages_per_min : Z;
  human_api_calls_per_min : Z;
  human_ws_events_per_sec : Z;
  agent_standard_messages_per_min : Z;
  agent_standard_api_calls_per_min : Z;
  agent_elevated_messages_per_min : Z;
  agent_platform_messages_per_min : Z
}.

Definition default_limits : RateLimitConfig := {|
  human_messages_per_min := 60;
  human_api_calls_per_min := 300;
  human_ws_events_per_sec := 10;
  agent_standard_messages_per_min := 120;
  agent_standard_api_calls_per_min := 600;
  agent_elevated_messages_per_min := 300;
  agent_platform_messages_per_min := 600
|}.

(** ** The keys of the shared state *)

Definition DEFAULT_REPLAY_TTL_SECS : Z := 120.
Definition MAX_REPLAY_TTL_SECS : Z := 3600.

Definition nip98_replay_key_for_scope (scope : string) (event_id : EventId) : string :=
  "buzz:" +:+ scope +:+ ":nip98:" +:+ event_id.

Inductive LimitType := Messages | ApiCalls | WsEvents | IpConnections.

#[export] Instance LimitType_eq_dec : EqDecision LimitType.
Proof. solve_decision. Defined.

Definition key_suffix (t : LimitType) : string :=
  match t with Messages => "msg" | ApiCalls => "api" | WsEvents => "ws" | IpConnections => "conn" end.

(** The [Display] of an IP address is not under src/: [ip] is that text. *)
Definition ip_rate_limit_key (ip : string) : string := "buzz:ratelimit:ip:" +:+ ip +:+ ":conn".

Section texts.
Context `{IdText}.

Definition nip98_replay_key (ctx : TenantContext) (event_id : EventId) : string :=
  nip98_replay_key_for_scope (uuid_to_string (community ctx)) event_id.

Definition rate_limit_key (ctx : TenantContext) (pubkey : PublicKey) (t : LimitType) : string :=
  "buzz:" +:+ uuid_to_string (community ctx) +:+ ":ratelimit:" +:+ pubkey +:+ ":" +:+ key_suffix t.

End texts.

(** ** Signed events *)

Definition TIMESTAMP_TOLERANCE_SECS : Z := 60.
Definition HTTP_AUTH_KIND : Kind := 27235%N.
Definition AUTHENTICATION_KIND : Kind := 22242%N.

Inductive VerificationError := InvalidId (computed got : string) | BadSignature.

(** [tag.kind() == kind]: the kind of a tag is its first element *)
Definition tag_is (kind : string) (tag : list string) : bool := bool_decide (tag !! 0 = Some kind).

(** [tags.find(kind).and_then(content)] *)
Definition tag_content_of (e : SignedEvent) (kind : string) : option string :=
  match List.find (tag_is kind) (tags e) with
  | Some tag => tag !! 1
  | None => None
  end.

Section verify.
Context `{AuthLib} `{Sha256}.

Definition computed_id (e : SignedEvent) : EventId :=
  EventId_new (author e) (created_at e) (kind e) (tags e) (content e).

Definition verify_event (e : SignedEvent) : result unit VerificationError :=
  if decide (computed_id e = id e) then
    if verify_signature e then Ok tt else Err BadSignature
  else Err (InvalidId (computed_id e) (id e)).

Definition trim_end_slashes (s : string) : string :=
  string_rev (strip_all (String.length s) ["/"] (string_rev s)).

Definition normalize_url (raw : string) : string :=
  match Url_parse raw with
  | None => to_lowercase raw
  | Some u => url_to_string (url_set_path (trim_end_slashes (url_path u)) u)
  end.

Definition normalize_relay_url (raw : string) : string :=
  match Url_parse raw with
  | None => raw
  | Some u =>
      let u := match url_host_str u with
               | Some h => if decide (h = "localhost" ∨ h = "::1") then url_set_host "127.0.0.1" u else u
               | None => u
               end in
      url_to_string (url_set_path (trim_end_slashes (url_path u)) u)
  end.

Definition relay_url_authority (relay_url : string) : string :=
  match Url_parse relay_url with
  | None => ""
  | Some u =>
      match url_host u with
      | None => ""
      | Some h =>
          let h := match h with
                   | Domain d => d
                   | Ipv4Host a => a
                   | Ipv6Host a => "[" +:+ a +:+ "]"
                   end in
          normalize_host (match url_port u with Some port => h +:+ ":" +:+ decimal port | None => h end)
      end
  end.

Definition abs_diff (a b : Z) : Z := Z.abs (a - b).

Definition verify_nip98_event (now : Z) (event_json expected_url expected_method : string)
    (body : option string) : result PublicKey AuthError :=
  match event_from_json event_json with
  | Err e => Err (Nip98Invalid ("event JSON parse error: " +:+ e))
  | Ok e =>
      guard! bool_decide (kind e = HTTP_AUTH_KIND)
        else Nip98Invalid ("expected kind 27235, got " +:+ decimal (Z.of_N (kind e))) ;;
      _ <-? map_err (λ _, Nip98Invalid "invalid Schnorr signature") (verify_event e) ;;
      let delta := abs_diff now (created_at e) in
      guard! (delta <=? TIMESTAMP_TOLERANCE_SECS)%Z
        else Nip98Invalid ("event timestamp outside ±60s window (delta: " +:+ decimal delta +:+ "s)") ;;
      match tag_content_of e "u" with
      | None => Err (Nip98Invalid "missing `u` tag")
      | Some u_tag =>
          guard! bool_decide (normalize_url u_tag = normalize_url expected_url)
            else Nip98Invalid ("URL mismatch: event has `" +:+ u_tag +:+ "`, expected `"
                               +:+ expected_url +:+ "`") ;;
          match tag_content_of e "method" with
          | None => Err (Nip98Invalid "missing `method` tag")
          | Some method_tag =>
              guard! eq_ignore_ascii_case method_tag expected_method
                else Nip98Invalid ("method mismatch: event has `" +:+ method_tag +:+ "`, expected `"
                                   +:+ expected_method +:+ "`") ;;
              match tag_content_of e "payload", body with
              | Some payload_hex, Some body_bytes =>
                  guard! bool_decide (sha256_hex body_bytes = payload_hex)
                    else Nip98Invalid "payload tag SHA-256 mismatch: request body does not match signed hash" ;;
                  Ok (author e)
              | _, _ => Ok (author e)
              end
          end
      end
  end.

Definition verify_nip42_event (now : Z) (e : SignedEvent) (expected_challenge relay_url : string)
  : result unit AuthError :=
  guard! bool_decide (kind e = AUTHENTICATION_KIND) else InvalidSignature ;;
  _ <-? map_err (λ _, InvalidSignature) (verify_event e) ;;
  match tag_content_of e "challenge" with
  | None => Err ChallengeMismatch
  | Some challenge =>
      guard! bool_decide (challenge = expected_challenge) else ChallengeMismatch ;;
      match tag_content_of e "relay" with
      | None => Err RelayUrlMismatch
      | Some relay =>
          guard! bool_decide (normalize_relay_url relay = normalize_relay_url relay_url)
            else RelayUrlMismatch ;;
          guard! (abs_diff now (created_at e) <=? TIMESTAMP_TOLERANCE_SECS)%Z else EventExpired ;;
          Ok tt
      end
  end.

(** [join] is how the blocking task ended: [None] for a panic. *)
Definition verify_auth_event (now : Z) (join : option unit) (event : SignedEvent)
    (expected_challenge relay_url : string) : result AuthContext AuthError :=
  match join with
  | None => Err (Internal "spawn_blocking panicked")
  | Some _ =>
      _ <-? verify_nip42_event now event expected_challenge relay_url ;;
      Ok {| pubkey := author event; scopes := all_known; channel_ids := None;
            auth_method := Nip42; agent_owner_pubkey := None |}
  end.

Definition has_wss_prefix (config_relay_url : string) : bool :=
  starts_with "wss://" (trim_start config_relay_url).

Definition nip98_expected_url (config_relay_url : string) (tenant : TenantContext) (path : string) : string :=
  (if has_wss_prefix config_relay_url then "https" else "http") +:+ "://" +:+ host tenant +:+ path.

Definition nip42_expected_relay_url (config_relay_url : string) (tenant : TenantContext) : string :=
  (if has_wss_prefix config_relay_url then "wss" else "ws") +:+ "://" +:+ host tenant.

End verify.
