(* ===== verification/NipOa.v ===== *)
(** * Owner attestations (buzz-sdk/src/nip_oa.rs)

    The [auth] tag by which an owner key vouches for an agent key: the grammar of its
    conditions, its signature, and its verification. Of an error of a library only the code's
    own text is kept. Theorems: the conditions are checked against the specification's grammar;
    [verify_auth_tag] accepts exactly the well-formed tags with a valid signature; what
    [compute_auth_tag] makes verifies. The code accepts more than docs/nips/NIP-OA.md and
    NIP-AA.md allow: no condition is ever evaluated, and keys and signatures may be written in
    whatever case the hex parsers of the nostr crate take. *)

From stdpp Require Import pretty.
From S2P Require Import Prelude Text StdText Json Auth.

Open Scope string_scope.
Open Scope nat_scope.
Open Scope list_scope.

Inductive SdkError := InvalidInput (reason : string).

Definition is_ascii_whitespace (a : Ascii.ascii) : bool :=
  bool_decide (code_of a ∈ [9; 10; 12; 13; 32]%N).

Definition validate_canonical_decimal (s : string) (min max : Z) (label : string) : result unit SdkError :=
  guard! negb (bool_decide (s = "")) else InvalidInput (label +:+ " value must not be empty") ;;
  guard! negb ((1 <? String.length s) && starts_with "0" s)
    else InvalidInput (label +:+ " value has leading zero: " +:+ s) ;;
  guard! chars_all (between 48 57) s
    else InvalidInput (label +:+ " value is not a valid decimal: " +:+ s) ;;
  match parse_u64 s with
  | None => Err (InvalidInput (label +:+ " value out of range"))
  | Some value =>
      guard! negb ((value <? min) || (max <? value))%Z
        else InvalidInput (label +:+ " value " +:+ decimal value +:+ " out of range [" +:+ decimal min
                           +:+ ", " +:+ decimal max +:+ "]") ;;
      Ok tt
  end.

Definition validate_clause (clause : string) : result unit SdkError :=
  match strip_prefix "kind=" clause with
  | Some value => validate_canonical_decimal value 0 65535 "kind"
  | None =>
      match strip_prefix "created_at<" clause with
      | Some value => validate_canonical_decimal value 0 4294967295 "created_at<"
      | None =>
          match strip_prefix "created_at>" clause with
          | Some value => validate_canonical_decimal value 0 4294967295 "created_at>"
          | None => Err (InvalidInput ("unsupported clause: " +:+ clause))
          end
      end
  end.

(** [for clause in conditions.split('&')] *)
Fixpoint validate_clauses (clauses : list string) : result unit SdkError :=
  match clauses with
  | [] => Ok tt
  | clause :: clauses =>
      guard! negb (bool_decide (clause = ""))
        else InvalidInput "empty clause in conditions (leading/trailing/double '&')" ;;
      _ <-? validate_clause clause ;;
      validate_clauses clauses
  end.

Definition validate_conditions (conditions : string) : result unit SdkError :=
  if decide (conditions = "") then Ok tt
  else
    guard! negb (existsb is_ascii_whitespace (string_to_list conditions))
      else InvalidInput "conditions must not contain whitespace" ;;
    validate_clauses (split_on "&" conditions).

Section attestation.
Context `{AuthLib} `{Sha256}.

Definition build_preimage (agent_pubkey : PublicKey) (conditions : string) : string :=
  "nostr:agent-auth:" +:+ agent_pubkey +:+ ":" +:+ conditions.

Definition hash_preimage (preimage : string) : string := sha256_hex preimage.

Definition parse_json_array (s : string) : result (list Json) SdkError :=
  match value_from_str s with
  | Err e => Err (InvalidInput ("invalid JSON: " +:+ e))
  | Ok (JArray arr) => Ok arr
  | Ok _ => Err (InvalidInput "auth tag must be a JSON array")
  end.

(** [owner_keys] is the owner's public key and its signing function. *)
Definition compute_auth_tag (owner_pubkey : PublicKey) (sign_schnorr : string → string)
    (agent_pubkey : PublicKey) (conditions : string) : result string SdkError :=
  guard! negb (bool_decide (owner_pubkey = agent_pubkey))
    else InvalidInput "owner and agent pubkeys must differ (self-attestation rejected)" ;;
  _ <-? validate_conditions conditions ;;
  let sig := sign_schnorr (hash_preimage (build_preimage agent_pubkey conditions)) in
  Ok (value_to_string (JArray [JString "auth"; JString owner_pubkey; JString conditions; JString sig])).

(** The array is read one element at a time; [length] is checked before any of them. *)
Definition verify_elements (label owner conditions sig : Json) (agent_pubkey : PublicKey)
  : result PublicKey SdkError :=
  match as_str label with
  | None => Err (InvalidInput "element 0 must be a string")
  | Some label =>
      guard! bool_decide (label = "auth")
        else InvalidInput ("first element must be " +:+ quote +:+ "auth" +:+ quote +:+ ", got "
                              +:+ quote +:+ label +:+ quote) ;;
      match as_str owner, as_str conditions, as_str sig with
      | None, _, _ => Err (InvalidInput "element 1 (owner pubkey) must be a string")
      | _, None, _ => Err (InvalidInput "element 2 (conditions) must be a string")
      | _, _, None => Err (InvalidInput "element 3 (signature) must be a string")
      | Some owner_pubkey_hex, Some conditions, Some sig_hex =>
          match public_key_from_hex owner_pubkey_hex with
          | None => Err (InvalidInput "invalid owner pubkey")
          | Some owner_pubkey =>
              _ <-? validate_conditions conditions ;;
              guard! negb (bool_decide (owner_pubkey = agent_pubkey))
                else InvalidInput "owner and agent pubkeys must differ (self-attestation rejected)" ;;
              match signature_from_str sig_hex with
              | None => Err (InvalidInput "invalid signature hex")
              | Some sig =>
                  match xonly owner_pubkey with
                  | None => Err (InvalidInput "owner pubkey xonly conversion failed")
                  | Some key =>
                      guard! verify_schnorr sig (hash_preimage (build_preimage agent_pubkey conditions)) key
                        else InvalidInput "signature verification failed" ;;
                      Ok owner_pubkey
                  end
              end
          end
      end
  end.

Definition verify_auth_tag (auth_tag_json : string) (agent_pubkey : PublicKey) : result PublicKey SdkError :=
  arr <-? parse_json_array auth_tag_json ;;
  match arr with
  | [label; owner; conditions; sig] => verify_elements label owner conditions sig agent_pubkey
  | _ => Err (InvalidInput ("auth tag must have 4 elements, got " +:+ decimal (Z.of_nat (length arr))))
  end.

Definition is_lowercase_hex (a : Ascii.ascii) : bool := between 48 57 a || between 97 102 a.

(** The structure only; [Tag_parse] is [Tag::parse] of the nostr crate. *)
Definition parse_auth_tag (Tag_parse : list string → result (list string) string) (json_str : string)
  : result (list string) SdkError :=
  arr <-? parse_json_array json_str ;;
  match arr with
  | [label; owner; conditions; sig] =>
      match as_str label with
      | None => Err (InvalidInput "element 0 must be a string")
      | Some label =>
          guard! bool_decide (label = "auth")
            else InvalidInput ("first element must be " +:+ quote +:+ "auth" +:+ quote +:+ ", got "
                               +:+ quote +:+ label +:+ quote) ;;
          match as_str owner with
          | None => Err (InvalidInput "element 1 (owner pubkey) must be a string")
          | Some owner_pubkey_hex =>
              guard! (String.length owner_pubkey_hex =? 64) && chars_all is_lowercase_hex owner_pubkey_hex
                else InvalidInput ("owner pubkey must be 64 hex chars, got " +:+ debug_str owner_pubkey_hex) ;;
              match as_str conditions with
              | None => Err (InvalidInput "element 2 (conditions) must be a string")
              | Some conditions =>
                  _ <-? validate_conditions conditions ;;
                  match as_str sig with
                  | None => Err (InvalidInput "element 3 (signature) must be a string")
                  | Some sig_hex =>
                      guard! (String.length sig_hex =? 128) && chars_all is_lowercase_hex sig_hex
                        else InvalidInput ("signature must be 128 hex chars, got length "
                                           +:+ decimal (Z.of_nat (String.length sig_hex))) ;;
                      map_err (λ e, InvalidInput ("failed to construct Tag: " +:+ e))
                        (Tag_parse ["auth"; owner_pubkey_hex; conditions; sig_hex])
                  end
              end
          end
      end
  | _ => Err (InvalidInput ("auth tag must have 4 elements, got " +:+ decimal (Z.of_nat (length arr))))
  end.

End attestation.

(** ** Canonical decimals *)

Lemma digit_char (a : Ascii.ascii) (d : Z) :
  digit a = Some d → (0 ≤ d < 10)%Z ∧ pretty_N_char (Z.to_N d) = a.
Proof.
  intros Ha. destruct a as [[] [] [] [] [] [] [] []]; (discriminate Ha || (injection Ha as <-; by split; [lia|])).
Qed.

Lemma go_digits (max acc n : Z) (t k : string) :
  (0 < acc)%Z → parse_digits max acc t = Some n →
  pretty_N_go (Z.to_N n) k = pretty_N_go (Z.to_N acc) (t +:+ k).
Proof.
  revert acc. induction t as [|a t IH]; intros acc Hacc; simpl; [by intros [= <-]|].
  destruct (digit a) as [d|] eqn:Ha; [|done]. case_match; [|done]. intros Hp.
  destruct (digit_char _ _ Ha) as [Hd Hc].
  rewrite (IH (acc * 10 + d)%Z) by (lia || done). rewrite pretty_N_go_step by lia.
  replace (Z.to_N (acc * 10 + d)) with (Z.to_N acc * 10 + Z.to_N d)%N by lia.
  rewrite N.div_add_l, N.div_small, N.add_0_r by lia.
  rewrite N.add_comm, N.Div0.mod_add, N.mod_small by lia. by rewrite Hc.
Qed.

Lemma canonical_decimal (max n : Z) (s : string) :
  parse_digits max 0 s = Some n → s ≠ "" →
  (1 <? String.length s) && starts_with "0" s = false → s = decimal n.
Proof.
  destruct s as [|a t]; [done|]. intros Hp _ Hz. simpl in Hp.
  destruct (digit a) as [d|] eqn:Ha; [|done]. case_match; [|done].
  destruct (digit_char _ _ Ha) as [Hd Hc]. unfold decimal, pretty, pretty_N.
  destruct (decide (d = 0)%Z) as [->|Hne].
  - replace a with "0"%char in * by (rewrite <- Hc; done). destruct t as [|b t].
    + simpl in Hp. injection Hp as <-. done.
    + by vm_compute in Hz.
  - assert (pretty_N_go (Z.to_N n) "" = pretty_N_go (Z.to_N d) (t +:+ "")) as Hgo
      by (apply (go_digits max); [lia|exact Hp]).
    rewrite (pretty_N_go_step (Z.to_N d)) in Hgo by lia.
    replace (Z.to_N d `mod` 10)%N with (Z.to_N d) in Hgo by (symmetry; apply N.mod_small; lia).
    replace (Z.to_N d `div` 10)%N with 0%N in Hgo by (symmetry; apply N.div_small; lia).
    rewrite pretty_N_go_0, string_append_nil_r, Hc in Hgo.
    rewrite decide_False; [done|]. intros Hn. by rewrite Hn, pretty_N_go_0 in Hgo.
Qed.

Lemma decimal_digits (n : Z) : (0 ≤ n)%Z → chars_all (between 48 57) (decimal n) = true.
Proof.
  intros Hn. destruct (parse_decimal n n ltac:(lia)) as [].
  assert (∃ m, parse_digits n 0 (decimal n) = Some m) as [m Hm].
  { pose proof (parse_decimal n n ltac:(lia)) as Hp. destruct (decimal_head n) as (a & t & Heq & Ha).
    rewrite Heq in *. unfold parse_unsigned in Hp. destruct (decide (a = "+"%char)) as [->|Hne].
    - by destruct Ha.
    - exists n. repeat (case_match; try done). }
  clear -Hm. revert m Hm. generalize (decimal n) as s. generalize 0%Z. intros acc s. revert acc.
  induction s as [|a s IH]; intros acc m; [done|]. simpl.
  destruct (digit a) eqn:Ha; [|done]. case_match; [|done]. intros Hp.
  unfold chars_all. simpl. apply andb_true_iff. split; [|by eapply IH].
  unfold digit in Ha. unfold between, code_of. destruct (_ && _) eqn:Hr in Ha; [|done].
  apply andb_true_iff in Hr as [?%Z.leb_le ?%Z.leb_le]. apply andb_true_iff.
  by split; apply N.leb_le; lia.
Qed.

Lemma go_head (x : N) (s : string) :
  (0 < x)%N → ∃ a t d, pretty_N_go x s = String a t ∧ digit a = Some d ∧ (0 < d)%Z.
Proof.
  revert s. induction (N.lt_wf_0 x) as [x _ IH]; intros s Hx. rewrite pretty_N_go_step by done.
  destruct (decide (x / 10 = 0)%N) as [Hz|Hz].
  - assert (x < 10)%N by (apply N.div_small_iff in Hz; lia).
    rewrite Hz, pretty_N_go_0, N.mod_small by done. eexists _, _, _. split; [done|].
    split; [by apply digit_pretty_N_char|lia].
  - apply IH; [apply N.div_lt; lia|by apply N.neq_0_lt_0].
Qed.

Lemma decimal_no_leading_zero (n : Z) :
  (0 ≤ n)%Z → (1 <? String.length (decimal n)) && starts_with "0" (decimal n) = false.
Proof.
  intros Hn. unfold decimal, pretty, pretty_N. case_decide as Hz; [done|].
  destruct (go_head (Z.to_N n) "") as (a & t & d & -> & Ha & Hd); [lia|].
  apply andb_false_iff. right. apply bool_decide_eq_false_2. intros [r Hr%strip_prefix_Some].
  injection Hr as -> _. by injection Ha as <-.
Qed.

(** ** The grammar of the conditions *)

(** A clause of the specification: a name, an operator and a canonical decimal in its range *)
Definition clause_ok (clause : string) : Prop :=
  ∃ n, (0 ≤ n)%Z ∧
    (clause = "kind=" +:+ decimal n ∧ (n ≤ 65535)%Z ∨
     (clause = "created_at<" +:+ decimal n ∨ clause = "created_at>" +:+ decimal n) ∧ (n ≤ 4294967295)%Z).

Lemma validate_decimal_exact (s : string) (max : Z) (label : string) :
  (max ≤ u64_max)%Z →
  validate_canonical_decimal s 0 max label = Ok tt ↔ ∃ n, (0 ≤ n ≤ max)%Z ∧ s = decimal n.
Proof.
  intros Hmax. unfold validate_canonical_decimal. split.
  - case_bool_decide as He; [done|]. destruct (_ && _) eqn:Hz; [done|]. cbn [negb].
    destruct (chars_all _ s) eqn:Hd; [|done]. destruct (parse_u64 s) as [n|] eqn:Hp; [|done].
    destruct (_ || _) eqn:Hr; [done|]. intros _. apply orb_false_iff in Hr as [Hl Hu].
    exists n. split; [lia|]. apply (canonical_decimal u64_max); [|done|done].
    destruct s as [|a t]; [done|]. destruct (decide (a = "+"%char)) as [->|Hne]; [by vm_compute in Hd|].
    revert Hp. unfold parse_u64, parse_unsigned. repeat (case_match; try done).
  - intros (n & Hn & ->). rewrite bool_decide_eq_false_2 by apply decimal_not_empty.
    rewrite decimal_no_leading_zero, decimal_digits, parse_u64_decimal by lia. cbn [negb].
    by rewrite (proj2 (orb_false_iff _ _)) by (split; lia).
Qed.

Lemma validate_clause_exact (clause : string) : validate_clause clause = Ok tt ↔ clause_ok clause.
Proof.
  assert (∀ p n, strip_prefix p (p +:+ decimal n) = Some (decimal n)) as Happ
    by (intros; apply strip_prefix_app).
  unfold validate_clause, clause_ok. split.
  - destruct (strip_prefix "kind=" clause) as [v|] eqn:Hk.
    { intros (n & Hn & ->)%validate_decimal_exact; [|done]. apply strip_prefix_Some in Hk as ->.
      exists n. split; [lia|]. left. split; [done|lia]. }
    destruct (strip_prefix "created_at<" clause) as [v|] eqn:Hl.
    { intros (n & Hn & ->)%validate_decimal_exact; [|done]. apply strip_prefix_Some in Hl as ->.
      exists n. split; [lia|]. right. split; [by left|lia]. }
    destruct (strip_prefix "created_at>" clause) as [v|] eqn:Hg; [|done].
    intros (n & Hn & ->)%validate_decimal_exact; [|done]. apply strip_prefix_Some in Hg as ->.
    exists n. split; [lia|]. right. split; [by right|lia].
  - intros (n & Hn & [[-> Hm]|[[->| ->] Hm]]).
    + rewrite Happ. apply validate_decimal_exact; [done|]. exists n. split; [lia|done].
    + change (strip_prefix "kind=" _) with (@None string). rewrite Happ.
      apply validate_decimal_exact; [done|]. exists n. split; [lia|done].
    + change (strip_prefix "kind=" _) with (@None string).
      change (strip_prefix "created_at<" _) with (@None string). rewrite Happ.
      apply validate_decimal_exact; [done|]. exists n. split; [lia|done].
Qed.

Lemma clause_ok_not_empty (clause : string) : clause_ok clause → clause ≠ "".
Proof. by intros (n & _ & [[-> _]|[[->| ->] _]]). Qed.

Lemma validate_clauses_exact (clauses : list string) :
  validate_clauses clauses = Ok tt ↔ Forall clause_ok clauses.
Proof.
  induction clauses as [|c clauses IH]; simpl; [by split|]. rewrite Forall_cons, <- IH, <- validate_clause_exact.
  split.
  - case_bool_decide; [done|]. cbn [negb]. destruct (validate_clause c) as [[]|]; [by split|done].
  - intros [Hc ->]. rewrite Hc, bool_decide_eq_false_2; [done|].
    by apply clause_ok_not_empty, validate_clause_exact.
Qed.

Lemma existsb_contains (f : Ascii.ascii → bool) (s : string) :
  existsb f (string_to_list s) = true → ∃ a, f a = true ∧ string_contains a s = true.
Proof.
  induction s as [|a s IH]; [done|]. simpl. intros [Ha|(b & Hb & Hs)%IH]%orb_true_iff.
  - exists a. split; [done|]. rewrite string_contains_cons, Ascii.eqb_refl. done.
  - exists b. split; [done|]. rewrite string_contains_cons, Hs. by rewrite orb_true_r.
Qed.

Lemma string_contains_app (c : Ascii.ascii) (x y : string) :
  string_contains c (x +:+ y) = string_contains c x || string_contains c y.
Proof.
  induction x as [|a x IH]; [done|]. change (String a x +:+ y) with (String a (x +:+ y)).
  by rewrite !string_contains_cons, IH, orb_assoc.
Qed.

Definition in_clause (a : Ascii.ascii) : bool :=
  string_contains a "kind=" || string_contains a "created_at<" || string_contains a "created_at>".

Lemma clause_chars (clause : string) (c : Ascii.ascii) :
  clause_ok clause → digit c = None → in_clause c = false → string_contains c clause = false.
Proof.
  unfold in_clause. intros (n & Hn & Hc) Hd [[Hk Hl]%orb_false_iff Hg]%orb_false_iff.
  destruct Hc as [[-> _]|[[->| ->] _]]; by rewrite string_contains_app, ?Hk, ?Hl, ?Hg, decimal_contains.
Qed.

Lemma join_contains (c : Ascii.ascii) (ws : list string) :
  c ≠ "&"%char → Forall (λ w, string_contains c w = false) ws →
  string_contains c (join_with "&" ws) = false.
Proof.
  intros Hne. induction 1 as [|w ws Hw Hws IH]; [done|]. destruct ws as [|w' ws]; [done|].
  change (join_with "&" (w :: w' :: ws)) with (w +:+ String "&" (join_with "&" (w' :: ws))).
  rewrite string_contains_app, Hw, string_contains_cons, IH. simpl. rewrite orb_false_r.
  by apply Ascii.eqb_neq.
Qed.

Lemma whitespace_in_clause (a : Ascii.ascii) :
  is_ascii_whitespace a = true → digit a = None ∧ in_clause a = false ∧ a ≠ "&"%char.
Proof. by destruct a as [[] [] [] [] [] [] [] []]. Qed.

(** The conditions of the specification: none, or clauses joined with an ampersand *)
Definition conditions_ok (conditions : string) : Prop :=
  conditions = "" ∨ ∃ clauses, clauses ≠ [] ∧ Forall clause_ok clauses ∧ conditions = join_with "&" clauses.

Lemma validate_conditions_exact (conditions : string) :
  validate_conditions conditions = Ok tt ↔ conditions_ok conditions.
Proof.
  unfold validate_conditions, conditions_ok. split.
  - case_decide as He; [by left|]. destruct (existsb _ _); [done|]. cbn [negb].
    intros Hc%validate_clauses_exact. right. exists (split_on "&" conditions).
    split; [apply split_on_not_nil|]. split; [done|]. symmetry. apply join_split.
  - intros [->|(clauses & Hne & Hall & ->)]; [done|]. case_decide as He; [done|].
    destruct (existsb is_ascii_whitespace _) eqn:Hw; cbn [negb].
    + apply existsb_contains in Hw as (a & (Hd & Hin & Hamp)%whitespace_in_clause & Hs).
      rewrite join_contains in Hs; [done|done|]. eapply Forall_impl; [exact Hall|].
      intros c Hc. by apply clause_chars.
    + rewrite split_join; [by apply validate_clauses_exact|done|]. eapply Forall_impl; [exact Hall|].
      intros c Hc. by apply clause_chars.
Qed.

(** ** Verification *)

Section theorems.
Context `{AuthLib} `{Sha256}.

(** The owner signed, for this agent and with these conditions: what the code checks. That
    the conditions hold of an event or of a time is no part of it. *)
Definition attests (owner agent : PublicKey) (conditions sig_hex : string) : Prop :=
  owner ≠ agent ∧ conditions_ok conditions ∧
  ∃ sig key, signature_from_str sig_hex = Some sig ∧ xonly owner = Some key ∧
    verify_schnorr sig (sha256_hex ("nostr:agent-auth:" +:+ agent +:+ ":" +:+ conditions)) key = true.

Lemma as_str_Some (v : Json) (s : string) : as_str v = Some s → v = JString s.
Proof. destruct v; simpl; congruence. Qed.

Lemma verify_elements_exact (label owner conditions sig : Json) (agent o : PublicKey) :
  verify_elements label owner conditions sig agent = Ok o ↔
  ∃ owner_hex c sig_hex,
    label = JString "auth" ∧ owner = JString owner_hex ∧ conditions = JString c ∧ sig = JString sig_hex ∧
    public_key_from_hex owner_hex = Some o ∧ attests o agent c sig_hex.
Proof.
  unfold verify_elements, attests. split.
  - destruct (as_str label) as [l|] eqn:Hl; [|done]. case_bool_decide as Hauth; [|done].
    destruct (as_str owner) as [ox|] eqn:Ho; [|done]. destruct (as_str conditions) as [c|] eqn:Hc; [|done].
    destruct (as_str sig) as [sx|] eqn:Hs; [|done].
    destruct (public_key_from_hex ox) as [pk|] eqn:Hpk; [|done].
    destruct (validate_conditions c) as [[]|] eqn:Hv; [|done]. case_bool_decide as Hne; [done|]. cbn [negb].
    destruct (signature_from_str sx) as [s|] eqn:Hsig; [|done]. destruct (xonly pk) as [k|] eqn:Hx; [|done].
    destruct (verify_schnorr _ _ _) eqn:Hok; [|done]. intros [= <-]. subst l.
    apply as_str_Some in Hl, Ho, Hc, Hs. exists ox, c, sx. split_and!; try done.
    + by apply validate_conditions_exact.
    + by exists s, k.
  - intros (ox & c & sx & -> & -> & -> & -> & Hpk & Hne & Hc%validate_conditions_exact & s & k & Hsig & Hx & Hok).
    cbn [as_str]. rewrite bool_decide_eq_true_2 by done. rewrite Hpk, Hc, Hsig, Hx.
    rewrite bool_decide_eq_false_2 by done. cbn [negb]. unfold hash_preimage, build_preimage.
    by rewrite Hok.
Qed.

(** C19 What the code accepts as an attestation. [verify_auth_tag] returns an owner exactly
    when the tag is a JSON array of four strings, the label, an owner key other than the
    agent's, conditions of the right form (clauses on kind or creation time, joined by
    ampersands, with canonical decimals in range) and a signature of the owner over the agent
    key and these conditions. This is weaker than the documents: the clauses are checked for
    their form only and never evaluated, against any event or time, although NIP-OA says
    that verifiers MUST evaluate every clause and NIP-AA (step 4, item 9) that the relay
    rejects what does not satisfy a timestamp clause, and the owner and signature may be in
    any case that the hex parsers accept, although both ask for lowercase. *)
Theorem attestation_exact (auth_tag_json : string) (agent owner : PublicKey) :
  verify_auth_tag auth_tag_json agent = Ok owner ↔
  ∃ owner_hex conditions sig_hex,
    value_from_str auth_tag_json
      = Ok (JArray [JString "auth"; JString owner_hex; JString conditions; JString sig_hex]) ∧
    public_key_from_hex owner_hex = Some owner ∧ attests owner agent conditions sig_hex.
Proof.
  unfold verify_auth_tag, parse_json_array. split.
  - destruct (value_from_str auth_tag_json) as [[]|] eqn:Hj; try done.
    destruct l as [|a [|b [|c [|d []]]]]; try done.
    intros (ox & cs & sx & -> & -> & -> & -> & Hpk & Ha)%verify_elements_exact. by exists ox, cs, sx.
  - intros (ox & cs & sx & -> & Hpk & Ha). apply verify_elements_exact. by exists ox, cs, sx.
Qed.

(** What an owner computes verifies, wherever serde_json reads back what it wrote, hex is read
    back as the key and the signature it is of, and a signature verifies. *)
Lemma computed_tag_verifies (owner agent : PublicKey) (sign : string → string) (conditions tag sig key : string) :
  let message := hash_preimage (build_preimage agent conditions) in
  (∀ v, value_from_str (value_to_string v) = Ok v) →
  public_key_from_hex owner = Some owner → signature_from_str (sign message) = Some sig →
  xonly owner = Some key → verify_schnorr sig message key = true →
  compute_auth_tag owner sign agent conditions = Ok tag → verify_auth_tag tag agent = Ok owner.
Proof.
  intros message Hjson Hpk Hsig Hkey Hok. unfold compute_auth_tag. case_bool_decide as Hne; [done|].
  cbn [negb]. destruct (validate_conditions conditions) as [[]|] eqn:Hc; [|done]. intros [= <-].
  unfold verify_auth_tag, parse_json_array. rewrite Hjson. apply verify_elements_exact.
  exists owner, conditions, (sign message). split_and!; try done. split; [done|].
  split; [by apply validate_conditions_exact|]. by exists sig, key.
Qed.

End theorems.
