(* ===== verification/Protocol.v ===== *)
(** * Frames of the WebSocket protocol (buzz-relay/src/protocol.rs)

    [ClientMessage::parse] and the texts of the relay's own messages. *)

From S2P Require Import Prelude Text StdText Filter Json Auth.

Open Scope string_scope.
Open Scope nat_scope.
Open Scope list_scope.

Definition MAX_SUB_ID_LENGTH : nat := 256.
Definition MAX_FILTERS_PER_REQ : nat := 10.

Inductive ClientMessage :=
  | ClientEvent (e : SignedEvent)
  | ClientReq (sub_id : string) (filters : list Filter)
  | ClientClose (sub_id : string)
  | ClientCount (sub_id : string) (filters : list Filter)
  | ClientAuth (e : SignedEvent).

(** [collect::<Result<Vec<_>>>()] *)
Fixpoint collect {A B E} (f : A → result B E) (l : list A) : result (list B) E :=
  match l with
  | [] => Ok []
  | x :: l => y <-? f x ;; ys <-? collect f l ;; Ok (y :: ys)
  end.

Lemma collect_length {A B E} (f : A → result B E) (l : list A) (ys : list B) :
  collect f l = Ok ys → length ys = length l.
Proof.
  revert ys. induction l as [|x l IH]; intros ys; simpl; [by intros [= <-]|].
  destruct (f x); [|done]. destruct (collect f l) as [zs|]; [|done]. intros [= <-]. simpl. by rewrite (IH zs).
Qed.

Section protocol.
Context `{AuthLib}.

(** The part of an [InvalidMessage] error behind its fixed beginning *)
Definition invalid {A} (reason : string) : result A string := Err ("Invalid message format: " +:+ reason).

(** The arguments of [name], a REQ or a COUNT *)
Definition parse_filters (name : string) (args : list Json) : result (string * list Filter) string :=
  match args with
  | [] => invalid (name +:+ " requires sub_id")
  | arg :: filter_values =>
      match as_str arg with
      | None => invalid (name +:+ " sub_id must be a string")
      | Some sub_id =>
          if decide (sub_id = "") then invalid (name +:+ " sub_id must not be empty")
          else if MAX_SUB_ID_LENGTH <? String.length sub_id then
            invalid (name +:+ " sub_id exceeds maximum length of 256 bytes")
          else if MAX_FILTERS_PER_REQ <? length filter_values then
            invalid (name +:+ " contains " +:+ decimal (Z.of_nat (length filter_values)) +:+ " filters, maximum is 10")
          else
            filters <-? map_err (λ e, "Invalid message format: invalid filter: " +:+ e)
                          (collect filter_from_value filter_values) ;;
            Ok (sub_id, filters)
      end
  end.

Definition parse_event (missing bad : string) (args : list Json) : result SignedEvent string :=
  match args with
  | [] => invalid missing
  | arg :: _ => map_err (λ e, "Invalid message format: " +:+ bad +:+ ": " +:+ e) (event_from_value arg)
  end.

(** [ClientMessage::parse]; an error is its text *)
Definition parse (raw : string) : result ClientMessage string :=
  value <-? map_err (λ e, "Invalid message format: JSON parse error: " +:+ e) (value_from_str raw) ;;
  match as_array value with
  | None => invalid "expected JSON array"
  | Some [] => invalid "empty array"
  | Some (first :: args) =>
      match as_str first with
      | None => invalid "first element must be a string"
      | Some msg_type =>
          if decide (msg_type = "EVENT") then
            e <-? parse_event "EVENT requires event object" "invalid event" args ;; Ok (ClientEvent e)
          else if decide (msg_type = "REQ") then
            r <-? parse_filters "REQ" args ;; Ok (ClientReq r.1 r.2)
          else if decide (msg_type = "COUNT") then
            r <-? parse_filters "COUNT" args ;; Ok (ClientCount r.1 r.2)
          else if decide (msg_type = "CLOSE") then
            match args with
            | [] => invalid "CLOSE requires sub_id"
            | arg :: _ => match as_str arg with
                          | None => invalid "CLOSE sub_id must be a string"
                          | Some sub_id => Ok (ClientClose sub_id)
                          end
            end
          else if decide (msg_type = "AUTH") then
            e <-? parse_event "AUTH requires event object" "invalid auth event" args ;; Ok (ClientAuth e)
          else invalid ("unknown message type: " +:+ msg_type)
      end
  end.

(** ** The relay's messages *)

Definition auth_challenge (challenge : string) : string :=
  value_to_string (JArray [JString "AUTH"; JString challenge]).
Definition eose (sub_id : string) : string := value_to_string (JArray [JString "EOSE"; JString sub_id]).
Definition ok_text (event_id : EventId) (accepted : bool) (message : string) : string :=
  value_to_string (JArray [JString "OK"; JString event_id; JBool accepted; JString message]).
Definition closed_text (sub_id message : string) : string :=
  value_to_string (JArray [JString "CLOSED"; JString sub_id; JString message]).
Definition notice_text (message : string) : string :=
  value_to_string (JArray [JString "NOTICE"; JString message]).

(** The limits the relay advertises hold of every subscription request that parses. *)
Definition within_limits (m : ClientMessage) : Prop :=
  match m with
  | ClientReq sub_id filters | ClientCount sub_id filters =>
      1 ≤ String.length sub_id ≤ MAX_SUB_ID_LENGTH ∧ length filters ≤ MAX_FILTERS_PER_REQ
  | _ => True
  end.

Lemma parse_filters_limits (name : string) (args : list Json) (sub_id : string) (filters : list Filter) :
  parse_filters name args = Ok (sub_id, filters) →
  1 ≤ String.length sub_id ≤ MAX_SUB_ID_LENGTH ∧ length filters ≤ MAX_FILTERS_PER_REQ.
Proof.
  unfold parse_filters. destruct args as [|arg args]; [done|]. destruct (as_str arg) as [s|]; [|done].
  case_decide as He; [done|]. destruct (MAX_SUB_ID_LENGTH <? _) eqn:Hs; [done|].
  destruct (MAX_FILTERS_PER_REQ <? _) eqn:Hf; [done|].
  destruct (collect _ _) as [fs|] eqn:Hc; [|done]. cbn [map_err]. intros [= <- <-].
  apply Nat.ltb_ge in Hs, Hf. rewrite (collect_length _ _ _ Hc). split; [|done].
  split; [|done]. destruct s; [done|simpl; lia].
Qed.

Lemma parse_limits (raw : string) (m : ClientMessage) : parse raw = Ok m → within_limits m.
Proof.
  unfold parse. destruct (value_from_str raw) as [v|]; [|done]. cbn [map_err].
  destruct (as_array v) as [[|first args]|]; [done| |done]. destruct (as_str first) as [t|]; [|done].
  destruct (decide (t = "EVENT")); [by destruct (parse_event _ _ _); intros [= <-]|].
  destruct (decide (t = "REQ")).
  { destruct (parse_filters _ _) as [[s fs]|] eqn:Hp; [|done]. intros [= <-]. by eapply parse_filters_limits. }
  destruct (decide (t = "COUNT")).
  { destruct (parse_filters _ _) as [[s fs]|] eqn:Hp; [|done]. intros [= <-]. by eapply parse_filters_limits. }
  destruct (decide (t = "CLOSE")).
  { destruct args as [|arg args]; [done|]. destruct (as_str arg); [|done]. by intros [= <-]. }
  destruct (decide (t = "AUTH")); [by destruct (parse_event _ _ _); intros [= <-]|done].
Qed.

End protocol.
