(* ===== verification/Access.v ===== *)
(** * The gates of the front door (buzz-pubsub, buzz-relay)

    What a request must pass before the relay acts on it: the host binding
    (buzz-relay/src/tenant.rs), the shared replay guard and rate limiter
    (buzz-pubsub/src/nip98_replay.rs, rate_limiter.rs; buzz-relay/src/admission.rs), HTTP
    authentication (buzz-relay/src/api/bridge.rs), relay membership
    (buzz-relay/src/api/mod.rs) and the moderation capability
    (buzz-relay/src/handlers/moderation_authz.rs). Each gate is a program of [Interaction]
    over the calls [Ev]. *)

From S2P Require Import Prelude Text StdText Filter Json Auth NipOa Protocol.
From S2P Require Export Interaction.

Open Scope string_scope.
Open Scope nat_scope.
Open Scope list_scope.

(** ** What the gates and the doors behind them ask of their environment *)

Record IngestResult := { r_event_id : EventId; r_accepted : bool; r_message : string }.

Inductive IngestError :=
  | Rejected (msg : string)
  | AuthFailed (msg : string)
  | IngestInternal (msg : string).

Record RestrictionState := { banned : bool; muted_until : option Z }.

(** [WorkflowRecord], as far as its reader looks: the channel it belongs to *)
Inductive WorkflowLookup := WorkflowNotFound | WorkflowDbError (e : string) | WorkflowIn (channel : option Uuid).

Inductive Ev :=
  (* buzz-db *)
  | LookupCommunityByHost (host : string)
  | IsRelayMember (c : CommunityId) (hex : string)
  | GetRelayMemberRole (c : CommunityId) (hex : string)
  | GetMemberRole (c : CommunityId) (channel : Uuid) (pubkey : PublicKey)
  | ModerationRestrictionState (c : CommunityId) (pubkey : PublicKey)
  | IsPubkeyAllowed (c : CommunityId) (pubkey : PublicKey)
  | EnsureUser (c : CommunityId) (pubkey : PublicKey)
  | SetAgentOwner (c : CommunityId) (agent owner : PublicKey)
  | IsAgentOwner (c : CommunityId) (agent owner : PublicKey)
  | GetWorkflow (c : CommunityId) (workflow_id : Uuid)
  | AccessibleChannelIds (c : CommunityId) (pubkey : PublicKey)
  (* Redis *)
  | RedisPool
  | SetNxEx (key value : string) (ttl_secs : Z)
  | RateLimitScript (key : string) (window_secs : Z)
  | Expire (key : string) (window_secs : Z)
  (* the process *)
  | TimestampNow
  | JoinVerify
  | CacheAuthorType (c : CommunityId) (agent : PublicKey)
  | CacheObserverOwner (c : CommunityId) (agent owner : PublicKey)
  | SetAuthenticatedPubkey (pubkey : PublicKey)
  | TryAcquireHandler
  (* the connection *)
  | Send (text : string)
  | SendControl (text : string)
  | SendPong (data : string)
  | ResetMissedPongs
  | CancelConnection
  (* behind the door *)
  | Ingest (t : TenantContext) (e : SignedEvent) (pubkey : PublicKey) (scopes : list Scope)
  | ExecuteQuery (t : TenantContext) (pubkey : PublicKey) (body : string)
  | ExecuteCount (t : TenantContext) (pubkey : PublicKey) (body : string)
  | Dispatch (m : ClientMessage).

Record ApiError := { status : Z; error : string; message : option string }.

Definition Ans (e : Ev) : Type :=
  match e with
  | LookupCommunityByHost _ => result (option CommunityId) string
  | IsRelayMember _ _ | IsPubkeyAllowed _ _ => result bool string
  | GetRelayMemberRole _ _ | GetMemberRole _ _ _ => result (option string) string
  | ModerationRestrictionState _ _ => result RestrictionState string
  | EnsureUser _ _ | SetAgentOwner _ _ _ | IsAgentOwner _ _ _ => result bool string
  | GetWorkflow _ _ => WorkflowLookup
  | AccessibleChannelIds _ _ => result (list Uuid) string
  | RedisPool | Expire _ _ => result unit string
  | SetNxEx _ _ _ => result (option string) string
  | RateLimitScript _ _ => result (Z * Z) string
  | TimestampNow => Z
  | JoinVerify => option unit
  | CacheAuthorType _ _ | CacheObserverOwner _ _ _ | SetAuthenticatedPubkey _ => unit
  | TryAcquireHandler => bool
  | Send _ | SendControl _ | SendPong _ => bool
  | ResetMissedPongs | CancelConnection | Dispatch _ => unit
  | Ingest _ _ _ _ => result IngestResult IngestError
  | ExecuteQuery _ _ _ | ExecuteCount _ _ _ => result Json ApiError
  end.

Abbreviation Prog := (@Prog Ev Ans).
Abbreviation Entry := (@Entry Ev Ans).

(** ** Configuration and requests *)

Record Config := {
  relay_url : string;
  require_auth_token : bool;
  pubkey_allowlist_enabled : bool;
  require_relay_membership : bool;
  allow_nip_oa_auth : bool;
  relay_operator_api_origin : option string;
  relay_operator_pubkeys : list string;
  max_frame_bytes : Z;
  rate_limits : RateLimitConfig
}.

(** For each lower-case name, the text of the header's first value, when [to_str] gives one *)
Abbreviation HeaderMap := (gmap string string) (only parsing).

Definition api_error (status : Z) (msg : string) : ApiError :=
  {| status := status; error := msg; message := None |}.
Definition internal_error : ApiError := api_error 500 "internal server error".

(** ** Host binding *)

Inductive BindError := UnmappedHost | Lookup (e : string).

Definition bind_community (raw_host : string) : Prog (result TenantContext BindError) :=
  let h := normalize_host raw_host in
  if decide (h = "") then Ret (Err UnmappedHost)
  else
    r <-* ask (LookupCommunityByHost h) ;;
    Ret match r with
        | Ok (Some c) => Ok {| community := c; host := h |}
        | Ok None => Err UnmappedHost
        | Err e => Err (Lookup e)
        end.

(** [headers.get(HOST).unwrap_or("")], bound or refused with the generic 404 *)
Definition bind_request (headers : HeaderMap) : Prog (result TenantContext ApiError) :=
  r <-* bind_community (default "" (headers !! "host")) ;;
  Ret (map_err (λ _, api_error 404 "relay: no community is configured for this host") r).

(** The community of the deployment's own URL, where no request names a host *)
Definition bind_deployment_community `{AuthLib} (url : string) : Prog (result TenantContext BindError) :=
  bind_community (relay_url_authority url).

(** ** The shared replay guard *)

Definition try_mark_in_scope (scope : string) (event_id : EventId) (ttl_secs : Z)
  : Prog (result bool AuthError) :=
  let ttl := Z.max DEFAULT_REPLAY_TTL_SECS (Z.min ttl_secs MAX_REPLAY_TTL_SECS) in
  p <-* ask RedisPool ;;
  match p with
  | Err e => Ret (Err (Internal ("Redis pool: " +:+ e)))
  | Ok _ =>
      r <-* ask (SetNxEx (nip98_replay_key_for_scope scope event_id) "1" ttl) ;;
      Ret match r with
          | Err e => Err (Internal ("Redis SET NX EX: " +:+ e))
          | Ok None => Ok false
          | Ok (Some reply) =>
              if decide (reply = "OK") then Ok true
              else Err (Internal ("unexpected SET NX EX reply: " +:+ reply))
          end
  end.

(** [EventId] of 32 zero bytes *)
Definition zero_event_id : EventId := "0000000000000000000000000000000000000000000000000000000000000000".

Definition replay_answer (r : result bool AuthError) : result unit ApiError :=
  match r with
  | Ok true => Ok tt
  | Ok false => Err (api_error 401 "NIP-98: replay detected")
  | Err _ => Err (api_error 401 "NIP-98: replay check unavailable")
  end.

(** ** The shared rate limiter *)

Record RateLimitResult := { allowed : bool; current : Z; limit : Z; reset_in_secs : Z }.

Definition run_rate_limit (key : string) (window_secs max : Z) : Prog (result RateLimitResult AuthError) :=
  p <-* ask RedisPool ;;
  match p with
  | Err e => Ret (Err (Internal ("Redis pool: " +:+ e)))
  | Ok _ =>
      r <-* ask (RateLimitScript key window_secs) ;;
      match r with
      | Err e => Ret (Err (Internal ("Redis rate limit script: " +:+ e)))
      | Ok (count, ttl) =>
          let answer reset := {| allowed := (count <=? max)%Z; current := count; limit := max;
                                 reset_in_secs := reset |} in
          if (ttl <? 0)%Z then
            x <-* ask (Expire key window_secs) ;;
            match x with
            | Err e => Ret (Err (Internal ("Redis EXPIRE repair: " +:+ e)))
            | Ok _ => Ret (Ok (answer window_secs))
            end
          else Ret (Ok (answer ttl))
      end
  end.

Inductive AdmissionError := Exceeded (reset_in_secs : Z) | Unavailable.

Section gates.
Context `{AuthLib} `{Sha256} `{IdText} (cfg : Config).

Definition try_mark (ctx : TenantContext) (event_id : EventId) (ttl_secs : Z) : Prog (result bool AuthError) :=
  try_mark_in_scope (uuid_to_string (community ctx)) event_id ttl_secs.

Definition check_nip98_replay (tenant : TenantContext) (event_id : EventId) : Prog (result unit ApiError) :=
  if decide (event_id = zero_event_id) then Ret (Ok tt)
  else r <-* try_mark tenant event_id DEFAULT_REPLAY_TTL_SECS ;; Ret (replay_answer r).

Definition check_and_increment (ctx : TenantContext) (pubkey : PublicKey) (t : LimitType)
    (window_secs max : Z) : Prog (result RateLimitResult AuthError) :=
  run_rate_limit (rate_limit_key ctx pubkey t) window_secs max.

Definition check_ip_connection (ip : string) (window_secs max : Z) : Prog (result RateLimitResult AuthError) :=
  run_rate_limit (ip_rate_limit_key ip) window_secs max.

Definition check_principal (tenant : TenantContext) (pubkey : PublicKey) (t : LimitType)
    (window_secs max : Z) : Prog (result unit AdmissionError) :=
  r <-* check_and_increment tenant pubkey t window_secs max ;;
  Ret match r with
      | Ok r => if allowed r then Ok tt else Err (Exceeded (reset_in_secs r))
      | Err _ => Err Unavailable
      end.

Definition quota_text (reset : Z) : string :=
  "rate-limited: quota exceeded; retry in " +:+ decimal reset +:+ "s".
Definition unavailable_text : string := "rate-limited: shared admission unavailable".

Definition enforce_http_admission (tenant : TenantContext) (pubkey : PublicKey) : Prog (result unit ApiError) :=
  r <-* check_principal tenant pubkey ApiCalls 60 (human_api_calls_per_min (rate_limits cfg)) ;;
  Ret match r with
      | Ok _ => Ok tt
      | Err (Exceeded reset) => Err (api_error 429 (quota_text reset))
      | Err Unavailable => Err (api_error 503 unavailable_text)
      end.

(** ** HTTP authentication *)

(** The clock is read inside [verify_nip98_event]; asking for it on entry makes no difference. *)
Definition verify_bridge_auth_with_options (headers : HeaderMap) (method url : string)
    (body : option string) (require_auth_token require_payload : bool)
  : Prog (result (PublicKey * EventId) ApiError) :=
  match headers !! "authorization" ≫= strip_prefix "Nostr " with
  | Some auth_str =>
      match base64_decode auth_str with
      | None => Ret (Err (api_error 401 "invalid base64 in Nostr auth"))
      | Some event_json =>
          if negb (is_utf8 event_json) then Ret (Err (api_error 401 "invalid UTF-8 in Nostr auth"))
          else
            match event_from_json event_json with
            | Err _ => Ret (Err (api_error 401 "invalid NIP-98 event JSON"))
            | Ok event =>
                if require_payload && negb (existsb (tag_is "payload") (tags event)) then
                  Ret (Err (api_error 401 "NIP-98: missing payload tag"))
                else
                  now <-* ask TimestampNow ;;
                  Ret match verify_nip98_event now event_json url method body with
                      | Ok pubkey => Ok (pubkey, id event)
                      | Err e => Err (api_error 401 ("NIP-98: " +:+ auth_error_text e))
                      end
            end
      end
  | None =>
      let missing := Err (api_error 401 "missing Nostr auth") in
      if require_auth_token then Ret missing
      else
        Ret match headers !! "x-pubkey" with
            | Some hex_val =>
                match public_key_from_hex hex_val with
                | Some pubkey => Ok (pubkey, zero_event_id)
                | None => Err (api_error 401 "invalid X-Pubkey hex")
                end
            | None => missing
            end
  end.

Definition verify_bridge_auth (headers : HeaderMap) (method url : string) (body : option string)
    (require_auth_token : bool) : Prog (result (PublicKey * EventId) ApiError) :=
  verify_bridge_auth_with_options headers method url body require_auth_token false.

(** ** Relay membership *)

Inductive MembershipDecision := OpenRelay | Member | ViaOwner (owner : PublicKey) | Denied.

Definition check_relay_membership (c : CommunityId) (pubkey : PublicKey) (auth_tag_header : option string)
  : Prog (result MembershipDecision string) :=
  if negb (require_relay_membership cfg) then Ret (Ok OpenRelay)
  else
    r <-* ask (IsRelayMember c pubkey) ;;
    match r with
    | Err e => Ret (Err ("relay membership check failed: " +:+ e))
    | Ok true => Ret (Ok Member)
    | Ok false =>
        match (if allow_nip_oa_auth cfg then auth_tag_header else None) with
        | None => Ret (Ok Denied)
        | Some tag_json =>
            match verify_auth_tag tag_json pubkey with
            | Err _ => Ret (Ok Denied)
            | Ok owner =>
                r <-* ask (IsRelayMember c owner) ;;
                Ret match r with
                    | Err e => Err ("relay membership check (owner) failed: " +:+ e)
                    | Ok true => Ok (ViaOwner owner)
                    | Ok false => Ok Denied
                    end
            end
        end
    end.

Definition membership_required : ApiError :=
  {| status := 403; error := "relay_membership_required";
     message := Some "You must be a relay member to access this relay" |}.

Definition enforce_relay_membership (c : CommunityId) (pubkey : PublicKey) (auth_tag_header : option string)
  : Prog (result (option PublicKey) ApiError) :=
  r <-* check_relay_membership c pubkey auth_tag_header ;;
  Ret match r with
      | Ok OpenRelay | Ok Member => Ok None
      | Ok (ViaOwner owner) => Ok (Some owner)
      | Ok Denied => Err membership_required
      | Err _ => Err internal_error
      end.

Definition extract_nip_oa_owner (pubkey : PublicKey) (auth_tag_header : option string) : option PublicKey :=
  match auth_tag_header with
  | None => None
  | Some tag_json => match verify_auth_tag tag_json pubkey with Ok owner => Some owner | Err _ => None end
  end.

(** [for (role, pubkey) in [("agent", agent), ("owner", owner)]] *)
Definition ensure_both (c : CommunityId) (agent owner : PublicKey) : Prog bool :=
  a <-* ask (EnsureUser c agent) ;;
  match a with
  | Err _ => Ret false
  | Ok _ => o <-* ask (EnsureUser c owner) ;; Ret (is_ok o)
  end.

Definition materialize_nip_oa_owner (tenant : TenantContext) (agent owner : PublicKey) : Prog bool :=
  let c := community tenant in
  ensured <-* ensure_both c agent owner ;;
  if negb ensured then Ret false
  else
    r <-* ask (SetAgentOwner c agent owner) ;;
    materialized <-*
      match r with
      | Ok true => Ret true
      | Ok false =>
          o <-* ask (IsAgentOwner c agent owner) ;;
          Ret (match o with Ok b => b | Err _ => false end)
      | Err _ => Ret false
      end ;;
    if materialized : bool then
      _ <-* ask (CacheAuthorType c agent) ;;
      _ <-* ask (CacheObserverOwner c agent owner) ;;
      Ret true
    else Ret false.

(** ** Moderation capability *)

Inductive ModerationAction :=
  DeleteMessage | Kick | Ban | Unban | Timeout | Untimeout | ResolveReport | ViewQueue.

Inductive ModerationTarget := TargetEvent (e : string) | TargetPubkey (pk : PublicKey) | NoTarget.

Inductive ModerationAuthority := CommunityOwner | CommunityAdmin | ChannelRole.

Definition decide_authority (actor_role target_role channel_role : option string) (a : ModerationAction)
  : result ModerationAuthority string :=
  if decide (actor_role = Some "owner") then Ok CommunityOwner
  else if decide (actor_role = Some "admin") then
    match a with
    | Ban | Timeout =>
        guard! negb (bool_decide (target_role = Some "owner" ∨ target_role = Some "admin"))
          else "an admin cannot ban or time out a community owner or fellow admin" ;;
        Ok CommunityAdmin
    | _ => Ok CommunityAdmin
    end
  else
    match a with
    | DeleteMessage | Kick =>
        guard! bool_decide (channel_role = Some "owner" ∨ channel_role = Some "admin")
          else "moderator access required" ;;
        Ok ChannelRole
    | _ => Err "moderator access required"
    end.

Definition authorize_moderation_action (tenant : TenantContext) (actor : PublicKey)
    (channel : option Uuid) (target : ModerationTarget) (a : ModerationAction)
  : Prog (result ModerationAuthority string) :=
  let c := community tenant in
  actor_role <-! ask (GetRelayMemberRole c actor) ;;
  target_role <-!
    match decide (actor_role = Some "admin"), a, target with
    | left _, (Ban | Timeout), TargetPubkey pk => ask (GetRelayMemberRole c pk)
    | _, _, _ => Ret (Ok None)
    end ;;
  channel_role <-!
    match decide (actor_role = Some "owner" ∨ actor_role = Some "admin"), a, channel with
    | right _, (DeleteMessage | Kick), Some ch => ask (GetMemberRole c ch actor)
    | _, _, _ => Ret (Ok None)
    end ;;
  Ret (decide_authority actor_role target_role channel_role a).

End gates.
