(* ===== verification/FrontDoor.v ===== *)
(** * The doors of the relay (buzz-relay/src/api, handlers/auth.rs, connection.rs)

    The authenticated entry points: the HTTP bridge, the invite, operator, workflow-run and
    moderation-queue endpoints, and the frames of a WebSocket connection with the NIP-42
    handshake. Each door composes the gates of [Access] the way the handler does; what lies
    behind it (ingest, query, count, the frame handlers) is a call. Log lines and metrics are
    left out, and with them the log fields of [SubmitOutcome]. *)

From S2P Require Import Prelude Text StdText Filter Json Auth NipOa Protocol Access.

Open Scope string_scope.
Open Scope nat_scope.
Open Scope list_scope.

Section doors.
Context `{AuthLib} `{Sha256} `{IdText} (cfg : Config).

(** ** The HTTP bridge *)

(** The prelude of the three bridge handlers, up to their [_authed] helper *)
Definition bridge_auth (headers : HeaderMap) (path body : string)
  : Prog (result (TenantContext * PublicKey * EventId) ApiError) :=
  tenant <-! bind_request headers ;;
  let url := nip98_expected_url (relay_url cfg) tenant path in
  auth <-! verify_bridge_auth headers "POST" url (Some body) (require_auth_token cfg) ;;
  Ret (Ok (tenant, auth.1, auth.2)).

Definition ingest_response (r : result IngestResult IngestError) : result Json ApiError :=
  match r with
  | Ok r => Ok (JObject [("event_id", JString (r_event_id r)); ("accepted", JBool (r_accepted r));
                         ("message", JString (r_message r))])
  | Err (Rejected msg) => Err (api_error 400 msg)
  | Err (AuthFailed msg) => Err (api_error 403 msg)
  | Err (IngestInternal _) => Err internal_error
  end.

Definition submit_event_authed (tenant : TenantContext) (headers : HeaderMap) (body : string)
    (pubkey : PublicKey) (event_id : EventId) : Prog (result Json ApiError) :=
  _ <-! enforce_http_admission cfg tenant pubkey ;;
  _ <-! check_nip98_replay tenant event_id ;;
  match event_from_json body with
  | Err e => Ret (Err (api_error 400 ("invalid event JSON: " +:+ e)))
  | Ok event =>
      let auth_tag := headers !! "x-auth-tag" in
      owner <-! enforce_relay_membership cfg (community tenant) pubkey auth_tag ;;
      let nip_oa_owner :=
        match owner with
        | Some owner => Some owner
        | None => if negb (require_relay_membership cfg) then extract_nip_oa_owner pubkey auth_tag else None
        end in
      _ <-* match nip_oa_owner with
            | Some owner => _ <-* materialize_nip_oa_owner tenant pubkey owner ;; Ret tt
            | None => Ret tt
            end ;;
      r <-* ask (Ingest tenant event pubkey all_known) ;;
      Ret (ingest_response r)
  end.

Definition submit_event (headers : HeaderMap) (body : string) : Prog (result Json ApiError) :=
  a <-! bridge_auth headers "/events" body ;;
  let '(tenant, pubkey, event_id) := a in
  submit_event_authed tenant headers body pubkey event_id.

(** The gates of [query_events_authed] and [count_events_authed] *)
Definition read_gates (tenant : TenantContext) (headers : HeaderMap) (pubkey : PublicKey)
    (event_id : EventId) : Prog (result unit ApiError) :=
  _ <-! enforce_http_admission cfg tenant pubkey ;;
  _ <-! check_nip98_replay tenant event_id ;;
  _ <-! enforce_relay_membership cfg (community tenant) pubkey (headers !! "x-auth-tag") ;;
  Ret (Ok tt).

Definition query_events (headers : HeaderMap) (body : string) : Prog (result Json ApiError) :=
  a <-! bridge_auth headers "/query" body ;;
  let '(tenant, pubkey, event_id) := a in
  _ <-! read_gates tenant headers pubkey event_id ;;
  ask (ExecuteQuery tenant pubkey body).

Definition count_events (headers : HeaderMap) (body : string) : Prog (result Json ApiError) :=
  a <-! bridge_auth headers "/count" body ;;
  let '(tenant, pubkey, event_id) := a in
  _ <-! read_gates tenant headers pubkey event_id ;;
  ask (ExecuteCount tenant pubkey body).

(** ** Invites, operators, workflow runs, the moderation queue *)

Definition invite_authenticate (headers : HeaderMap) (path body : string)
  : Prog (result (TenantContext * PublicKey) ApiError) :=
  tenant <-! bind_request headers ;;
  let url := nip98_expected_url (relay_url cfg) tenant path in
  auth <-! verify_bridge_auth_with_options headers "POST" url (Some body) true true ;;
  _ <-! check_nip98_replay tenant auth.2 ;;
  Ret (Ok (tenant, auth.1)).

Definition request_path (path : string) (raw_query : option string) : string :=
  match raw_query with
  | Some q => if decide (q = "") then path else path +:+ "?" +:+ q
  | None => path
  end.

Definition OPERATOR_REPLAY_SCOPE : string := "operator-management".

Definition check_operator_replay (event_id : EventId) : Prog (result unit ApiError) :=
  r <-* try_mark_in_scope OPERATOR_REPLAY_SCOPE event_id DEFAULT_REPLAY_TTL_SECS ;;
  Ret (replay_answer r).

Definition authorize_operator_request (headers : HeaderMap) (method path : string)
    (raw_query body : option string) : Prog (result PublicKey ApiError) :=
  match relay_operator_api_origin cfg with
  | None => Ret (Err internal_error)
  | Some origin =>
      let url := origin +:+ request_path path raw_query in
      auth <-! verify_bridge_auth_with_options headers method url body true (bool_decide (is_Some body)) ;;
      _ <-! check_operator_replay auth.2 ;;
      Ret (if decide (auth.1 ∈ relay_operator_pubkeys cfg) then Ok auth.1
           else Err (api_error 403 "actor not authorized: not a relay operator"))
  end.

Definition authorize_workflow_read (headers : HeaderMap) (path : string) (raw_query : option string)
    (workflow_id : Uuid) : Prog (result TenantContext ApiError) :=
  tenant <-! bind_request headers ;;
  let url := nip98_expected_url (relay_url cfg) tenant (request_path path raw_query) in
  auth <-! verify_bridge_auth headers "GET" url None (require_auth_token cfg) ;;
  _ <-! enforce_http_admission cfg tenant auth.1 ;;
  _ <-! check_nip98_replay tenant auth.2 ;;
  _ <-! enforce_relay_membership cfg (community tenant) auth.1 (headers !! "x-auth-tag") ;;
  w <-* ask (GetWorkflow (community tenant) workflow_id) ;;
  match w with
  | WorkflowNotFound => Ret (Err (api_error 404 "workflow not found"))
  | WorkflowDbError _ => Ret (Err internal_error)
  | WorkflowIn None => Ret (Err (api_error 403 "workflow is not channel-scoped"))
  | WorkflowIn (Some channel) =>
      accessible <-* ask (AccessibleChannelIds (community tenant) auth.1) ;;
      Ret match accessible with
          | Err _ => Err internal_error
          | Ok ids => if mem channel ids then Ok tenant
                      else Err (api_error 403 "workflow is not accessible")
          end
  end.

Definition authorize_moderation_read (headers : HeaderMap) (path : string) (raw_query : option string)
  : Prog (result TenantContext ApiError) :=
  tenant <-! bind_request headers ;;
  let url := nip98_expected_url (relay_url cfg) tenant (request_path path raw_query) in
  auth <-! verify_bridge_auth headers "GET" url None (require_auth_token cfg) ;;
  _ <-! check_nip98_replay tenant auth.2 ;;
  r <-* authorize_moderation_action tenant auth.1 None NoTarget ViewQueue ;;
  Ret match r with
      | Ok _ => Ok tenant
      | Err _ => Err (api_error 403 "restricted: moderator access required")
      end.

(** ** A WebSocket connection *)

Inductive AuthState := Pending (challenge : string) | Authenticated (ctx : AuthContext) | Failed.

(** The one tag labelled auth, if there is exactly one *)
Definition extract_auth_tag_json (event : SignedEvent) : option string :=
  match List.filter (tag_is "auth") (tags event) with
  | [tag] => Some (value_to_string (JArray (map JString tag)))
  | _ => None
  end.

Inductive BanOutcome := Clear | IsBanned | DbError.

Definition ban_state (c : CommunityId) (pubkey : PublicKey) : Prog BanOutcome :=
  r <-* ask (ModerationRestrictionState c pubkey) ;;
  Ret match r with
      | Ok s => if banned s then IsBanned else Clear
      | Err _ => DbError
      end.

(** The agent's own ban, then that of the owner its tag proves *)
Definition ban_outcome (c : CommunityId) (pubkey : PublicKey) (auth_tag : option string) : Prog BanOutcome :=
  o <-* ban_state c pubkey ;;
  match o, extract_nip_oa_owner pubkey auth_tag with
  | Clear, Some owner => ban_state c owner
  | _, _ => Ret o
  end.

Definition denial (o : BanOutcome) : option string :=
  match o with
  | Clear => None
  | IsBanned => Some "blocked: you are banned from this community"
  | DbError => Some "error: internal error checking restriction state"
  end.

Definition ok_message (event : SignedEvent) (accepted : bool) (text : string) : string :=
  ok_text (id event) accepted text.

(** [auth_state] := [Failed], and the reason to the client *)
Definition fail_auth (event : SignedEvent) (text : string) : Prog AuthState :=
  _ <-* ask (Send (ok_message event false text)) ;;
  Ret Failed.

(** The gates after the ban, and the authenticated state *)
Definition grant_access (tenant : TenantContext) (event : SignedEvent) (ctx : AuthContext) (auth_tag : option string)
  : Prog AuthState :=
  let c := community tenant in
  let pk := pubkey ctx in
  allowed <-*
    (if pubkey_allowlist_enabled cfg && bool_decide (auth_method ctx = Nip42) then
       r <-* ask (IsPubkeyAllowed c pk) ;;
       Ret (match r with Ok b => b | Err _ => false end)
     else Ret true) ;;
  if negb allowed then fail_auth event "auth-required: verification failed"
  else
    r <-* enforce_relay_membership cfg c pk auth_tag ;;
    match r with
    | Err _ => fail_auth event "restricted: not a relay member"
    | Ok owner =>
        let nip_oa_owner :=
          match owner with
          | Some owner => Some owner
          | None => if negb (require_relay_membership cfg) then extract_nip_oa_owner pk auth_tag else None
          end in
        recorded <-*
          match nip_oa_owner with
          | None => Ret None
          | Some owner =>
              m <-* materialize_nip_oa_owner tenant pk owner ;;
              Ret (if m : bool then Some owner else None)
          end ;;
        let ctx := {| pubkey := pk; scopes := scopes ctx; channel_ids := channel_ids ctx;
                      auth_method := auth_method ctx;
                      agent_owner_pubkey := match recorded with
                                            | Some owner => Some owner
                                            | None => agent_owner_pubkey ctx
                                            end |} in
        _ <-* ask (SetAuthenticatedPubkey pk) ;;
        _ <-* ask (Send (ok_message event true "")) ;;
        Ret (Authenticated ctx)
    end.

(** The frames of a connection are handled one at a time: [auth_state] is passed along. *)
Definition handle_auth (tenant : TenantContext) (event : SignedEvent) (auth_state : AuthState) : Prog AuthState :=
  match auth_state with
  | Authenticated _ =>
      _ <-* ask (Send (ok_message event false "auth-required: already authenticated")) ;;
      Ret auth_state
  | Failed =>
      _ <-* ask (Send (ok_message event false "auth-required: authentication already failed")) ;;
      Ret auth_state
  | Pending challenge =>
      let auth_tag := extract_auth_tag_json event in
      join <-* ask JoinVerify ;;
      now <-* ask TimestampNow ;;
      match verify_auth_event now join event challenge (nip42_expected_relay_url (relay_url cfg) tenant) with
      | Err _ => fail_auth event "auth-required: verification failed"
      | Ok ctx =>
          o <-* ban_outcome (community tenant) (pubkey ctx) auth_tag ;;
          match denial o with
          | Some reason =>
              _ <-* ask (SendControl (ok_message event false reason)) ;;
              _ <-* ask CancelConnection ;;
              Ret Failed
          | None => grant_access tenant event ctx auth_tag
          end
      end
  end.

(** ** Admission of frames *)

Definition WS_BURST_WINDOW_SECS : Z := 5.

Definition ws_admission_budget (per_second_limit : Z) : Z * Z :=
  (WS_BURST_WINDOW_SECS, Z.min (per_second_limit * WS_BURST_WINDOW_SECS) u64_max).

Definition request_rejection_message (sub_id : option string) (reason : string) : string :=
  match sub_id with
  | Some sub_id => closed_text sub_id reason
  | None => notice_text reason
  end.

Definition send_admission_result (r : result unit AdmissionError) (sub_id : option string) : Prog bool :=
  match r with
  | Ok _ => Ret true
  | Err (Exceeded reset) =>
      _ <-* ask (Send (request_rejection_message sub_id (quota_text reset))) ;; Ret false
  | Err Unavailable =>
      _ <-* ask (Send (request_rejection_message sub_id unavailable_text)) ;; Ret false
  end.

Definition is_event (m : ClientMessage) : bool := match m with ClientEvent _ => true | _ => false end.

Definition sub_id_of (m : ClientMessage) : option string :=
  match m with ClientReq sub_id _ => Some sub_id | _ => None end.

Definition is_limited (m : ClientMessage) : bool :=
  match m with ClientEvent _ | ClientReq _ _ | ClientCount _ _ => true | _ => false end.

Definition enforce_ws_admission (tenant : TenantContext) (m : ClientMessage) (auth_state : AuthState) : Prog bool :=
  match is_limited m, auth_state with
  | true, Authenticated ctx =>
      let limits := rate_limits cfg in
      let (window, max) := ws_admission_budget (human_ws_events_per_sec limits) in
      r <-* check_principal tenant (pubkey ctx) WsEvents window max ;;
      ok <-* send_admission_result r (sub_id_of m) ;;
      if negb ok then Ret false
      else if is_event m then
        let max := match agent_owner_pubkey ctx with
                   | Some _ => agent_standard_messages_per_min limits
                   | None => human_messages_per_min limits
                   end in
        r <-* check_principal tenant (pubkey ctx) Messages 60 max ;;
        send_admission_result r None
      else Ret true
  | _, _ => Ret true
  end.

(** A permit of the handler semaphore, held by the spawned task *)
Definition with_permit (m : ClientMessage) : Prog unit :=
  permit <-* ask TryAcquireHandler ;;
  if permit : bool then _ <-* ask (Dispatch m) ;; Ret tt
  else
    _ <-* ask (Send (request_rejection_message (sub_id_of m) "rate-limited: too many concurrent requests")) ;;
    Ret tt.

Definition handle_text_message (tenant : TenantContext) (text : string) (auth_state : AuthState)
  : Prog AuthState :=
  match parse text with
  | Err e =>
      _ <-* ask (Send (notice_text ("invalid message: " +:+ e))) ;;
      Ret auth_state
  | Ok m =>
      admitted <-* enforce_ws_admission tenant m auth_state ;;
      if negb admitted then Ret auth_state
      else
        match m with
        | ClientAuth event => handle_auth tenant event auth_state
        | ClientClose _ => _ <-* ask (Dispatch m) ;; Ret auth_state
        | _ => _ <-* with_permit m ;; Ret auth_state
        end
  end.

(** What the socket delivers *)
Inductive Frame :=
  | TextFrame (text : string)
  | BinaryFrame (bytes : string)
  | PongFrame
  | PingFrame (data : string)
  | CloseFrame
  | FrameError.

Definition too_large (what : string) (size : Z) : string :=
  "[" +:+ quote +:+ "NOTICE" +:+ quote +:+ "," +:+ quote +:+ "error: " +:+ what +:+ " too large ("
  +:+ decimal size +:+ " bytes, limit " +:+ decimal (max_frame_bytes cfg) +:+ ")" +:+ quote +:+ "]".

(** The frames received until the loop breaks or the connection is cancelled, in order *)
Fixpoint recv_loop (tenant : TenantContext) (frames : list Frame) (auth_state : AuthState) : Prog AuthState :=
  let oversized what text (k : Prog AuthState) :=
    let size := Z.of_nat (String.length text) in
    if (max_frame_bytes cfg <? size)%Z then
      _ <-* ask (Send (too_large what size)) ;; Ret auth_state
    else k in
  match frames with
  | [] | CloseFrame :: _ | FrameError :: _ => Ret auth_state
  | TextFrame text :: frames =>
      oversized "frame" text
        (auth_state <-* handle_text_message tenant text auth_state ;; recv_loop tenant frames auth_state)
  | BinaryFrame bytes :: frames =>
      oversized "binary frame" bytes
        (auth_state <-* (if is_utf8 bytes then handle_text_message tenant bytes auth_state
                         else Ret auth_state) ;;
         recv_loop tenant frames auth_state)
  | PongFrame :: frames => _ <-* ask ResetMissedPongs ;; recv_loop tenant frames auth_state
  | PingFrame data :: frames =>
      sent <-* ask (SendPong data) ;;
      if sent : bool then recv_loop tenant frames auth_state else Ret auth_state
  end.

(** A connection of [handle_active_connection], from its challenge on *)
Definition connection (tenant : TenantContext) (challenge : string) (frames : list Frame) : Prog AuthState :=
  sent <-* ask (Send (auth_challenge challenge)) ;;
  if sent : bool then recv_loop tenant frames (Pending challenge) else Ret (Pending challenge).

End doors.
