(* ===== verification/AccessSpec.v ===== *)
(** * What a request proved before the relay acted on it

    Specifications of the gates of [Access], as facts about the calls a gate made and their
    answers, and the theorem about the doors of the HTTP bridge: whatever the environment
    answers, ingest, query and count are reached only by requests that passed every gate, in
    order, for the tenant and the key they are reached with. By default two gates are open:
    without [require_auth_token] the X-Pubkey header names the key, and without
    [require_relay_membership] every key is admitted. *)

From S2P Require Import Prelude Text StdText Filter Json Auth NipOa Protocol Access FrontDoor.

Open Scope string_scope.
Open Scope nat_scope.
Open Scope list_scope.

(** ** Signed requests *)

(** The first tag labelled [k] has the content [c]. *)
Definition labelled (k c : string) (ts : list (list string)) : Prop :=
  ∃ pre tag post, ts = pre ++ tag :: post ∧ Forall (λ t, t !! 0 ≠ Some k) pre ∧
    tag !! 0 = Some k ∧ tag !! 1 = Some c.

Section signed.
Context `{AuthLib} `{Sha256}.

Lemma tag_content_exact (e : SignedEvent) (k c : string) :
  tag_content_of e k = Some c ↔ labelled k c (tags e).
Proof.
  unfold tag_content_of, labelled. induction (tags e) as [|t ts IH]; simpl.
  - split; [done|]. by intros ([|? ?] & ? & ? & ? & _).
  - unfold tag_is at 1. case_bool_decide as Hk.
    + split.
      * intros Hc. by exists [], t, ts.
      * intros ([|p pre] & tag & post & Heq & Hpre & Htag & Hc); simplify_eq/=; [done|].
        by apply Forall_cons in Hpre as [? _].
    + rewrite IH. split.
      * intros (pre & tag & post & -> & Hpre & Htag & Hc). exists (t :: pre), tag, post.
        split_and!; try done. by constructor.
      * intros ([|p pre] & tag & post & Heq & Hpre & Htag & Hc); simplify_eq/=.
        apply Forall_cons in Hpre as [_ Hpre]. by exists pre, tag, post.
Qed.

(** Signed by its author, with the id of its content *)
Definition genuine (e : SignedEvent) : Prop :=
  EventId_new (author e) (created_at e) (kind e) (tags e) (content e) = id e ∧ verify_signature e = true.

Lemma verify_event_exact (e : SignedEvent) : verify_event e = Ok tt ↔ genuine e.
Proof.
  unfold verify_event, genuine, computed_id. case_decide; [|by split; [|intros [? _]]].
  destruct (verify_signature e); by split; [|intros [_ ?]].
Qed.

(** A NIP-98 token for this request, at the time [now] *)
Record nip98_valid (now : Z) (e : SignedEvent) (url method : string) (body : option string) : Prop := {
  nv_kind : kind e = 27235%N;
  nv_genuine : genuine e;
  nv_window : (created_at e - 60 ≤ now ≤ created_at e + 60)%Z;
  nv_url : ∃ u, labelled "u" u (tags e) ∧ normalize_url u = normalize_url url;
  nv_method : ∃ m, labelled "method" m (tags e) ∧ to_ascii_lowercase m = to_ascii_lowercase method;
  nv_payload : ∀ hex b, labelled "payload" hex (tags e) → body = Some b → sha256_hex b = hex
}.

Lemma window_exact (now c : Z) :
  (abs_diff now c <=? TIMESTAMP_TOLERANCE_SECS)%Z = true ↔ (c - 60 ≤ now ≤ c + 60)%Z.
Proof. unfold abs_diff, TIMESTAMP_TOLERANCE_SECS. rewrite Z.leb_le. lia. Qed.

Lemma verify_nip98_exact (now : Z) (json url method : string) (body : option string) (pk : PublicKey) :
  verify_nip98_event now json url method body = Ok pk ↔
  ∃ e, event_from_json json = Ok e ∧ author e = pk ∧ nip98_valid now e url method body.
Proof.
  unfold verify_nip98_event. split.
  - destruct (event_from_json json) as [e|]; [|done]. case_bool_decide as Hk; [|done].
    destruct (verify_event e) as [[]|] eqn:Hv; [|done]. cbn [map_err].
    destruct (_ <=? _)%Z eqn:Hw; [|done]. destruct (tag_content_of e "u") as [u|] eqn:Hu; [|done].
    case_bool_decide as Hun; [|done]. destruct (tag_content_of e "method") as [m|] eqn:Hm; [|done].
    destruct (eq_ignore_ascii_case m method) eqn:Hmm; [|done]. intros Hp. exists e. split; [done|].
    assert (∀ hex b, tag_content_of e "payload" = Some hex → body = Some b → sha256_hex b = hex) as Hpay.
    { intros hex b Hh ->. rewrite Hh in Hp. by case_bool_decide. }
    split.
    { destruct (tag_content_of e "payload"), body; simplify_eq/=; try done. by case_bool_decide; simplify_eq. }
    split; [done|by apply verify_event_exact|by apply window_exact| | |].
    + exists u. by rewrite <- tag_content_exact.
    + exists m. rewrite <- tag_content_exact. split; [done|]. by apply bool_decide_eq_true in Hmm.
    + intros hex b Hl. by apply Hpay, tag_content_exact.
  - intros (e & -> & <- & [Hk Hg Hw (u & Hu%tag_content_exact & Hun) (m & Hm%tag_content_exact & Hmm) Hp]).
    rewrite bool_decide_eq_true_2 by done. apply verify_event_exact in Hg as ->. cbn [map_err].
    apply window_exact in Hw as ->. rewrite Hu, bool_decide_eq_true_2, Hm by done.
    unfold eq_ignore_ascii_case. rewrite bool_decide_eq_true_2 by done.
    destruct (tag_content_of e "payload") as [hex|] eqn:Hh; [|done]. destruct body as [b|]; [|done].
    rewrite bool_decide_eq_true_2; [done|]. apply Hp; [|done]. by apply tag_content_exact.
Qed.

(** A NIP-42 answer to this challenge, for this relay, at the time [now] *)
Record nip42_valid (now : Z) (e : SignedEvent) (challenge url : string) : Prop := {
  av_kind : kind e = 22242%N;
  av_genuine : genuine e;
  av_challenge : labelled "challenge" challenge (tags e);
  av_relay : ∃ u, labelled "relay" u (tags e) ∧ normalize_relay_url u = normalize_relay_url url;
  av_window : (created_at e - 60 ≤ now ≤ created_at e + 60)%Z
}.

Lemma verify_nip42_exact (now : Z) (e : SignedEvent) (challenge url : string) :
  verify_nip42_event now e challenge url = Ok tt ↔ nip42_valid now e challenge url.
Proof.
  unfold verify_nip42_event. split.
  - case_bool_decide as Hk; [|done]. destruct (verify_event e) as [[]|] eqn:Hv; [|done]. cbn [map_err].
    destruct (tag_content_of e "challenge") as [c|] eqn:Hc; [|done]. case_bool_decide as Hcc; [|done].
    destruct (tag_content_of e "relay") as [u|] eqn:Hu; [|done]. case_bool_decide as Hun; [|done].
    destruct (_ <=? _)%Z eqn:Hw; [|done]. intros _. subst c.
    split; [done|by apply verify_event_exact|by apply tag_content_exact| |by apply window_exact].
    exists u. by rewrite <- tag_content_exact.
  - intros [Hk Hg Hc%tag_content_exact (u & Hu%tag_content_exact & Hun) Hw].
    rewrite bool_decide_eq_true_2 by done. apply verify_event_exact in Hg as ->. cbn [map_err].
    rewrite Hc, bool_decide_eq_true_2, Hu, bool_decide_eq_true_2 by done. by apply window_exact in Hw as ->.
Qed.

End signed.

(** ** The facts a gate leaves behind

    [s] is the part of the history that the gate added. *)

Section facts.
Context `{AuthLib} `{Sha256} `{IdText} (cfg : Config).

(** The host was looked up, and names this community. *)
Definition bound (headers : HeaderMap) (t : TenantContext) (s : list Entry) : Prop :=
  host t = normalize_host (default "" (headers !! "host")) ∧ host t ≠ "" ∧
  (entry (LookupCommunityByHost (host t)) (Ok (Some (community t))) : Entry) ∈ s.

(** The event in the authorization header *)
Definition presents (headers : HeaderMap) (e : SignedEvent) : Prop :=
  ∃ b64 json, headers !! "authorization" = Some ("Nostr " +:+ b64) ∧ base64_decode b64 = Some json ∧
    event_from_json json = Ok e.

Definition token_holds (headers : HeaderMap) (method url : string) (body : option string)
    (pk : PublicKey) (eid : EventId) (s : list Entry) : Prop :=
  ∃ e now, presents headers e ∧ author e = pk ∧ id e = eid ∧
    (entry TimestampNow now : Entry) ∈ s ∧ nip98_valid now e url method body.

(** [X-Pubkey] names the key; nothing is signed, and there is no token. *)
Definition dev_header (headers : HeaderMap) (pk : PublicKey) (eid : EventId) : Prop :=
  headers !! "authorization" ≫= strip_prefix "Nostr " = None ∧ eid = zero_event_id ∧
  ∃ hex, headers !! "x-pubkey" = Some hex ∧ public_key_from_hex hex = Some pk.

Definition authenticated (headers : HeaderMap) (method url : string) (body : option string)
    (token_required : bool) (pk : PublicKey) (eid : EventId) (s : list Entry) : Prop :=
  token_holds headers method url body pk eid s ∨ token_required = false ∧ dev_header headers pk eid.

(** The counter of this principal was still within the limit. *)
Definition charged (t : TenantContext) (pk : PublicKey) (l : LimitType) (window max : Z) (s : list Entry) : Prop :=
  ∃ count ttl, (count ≤ max)%Z ∧
    (entry (RateLimitScript ("buzz:" +:+ uuid_to_string (community t) +:+ ":ratelimit:" +:+ pk +:+ ":"
                             +:+ key_suffix l) window) (Ok (count, ttl)) : Entry) ∈ s.

(** The id was new in this scope, and is now taken for two minutes. *)
Definition marked (scope : string) (eid : EventId) (s : list Entry) : Prop :=
  (entry (SetNxEx ("buzz:" +:+ scope +:+ ":nip98:" +:+ eid) "1" 120) (Ok (Some "OK")) : Entry) ∈ s.

(** The developer header has no token: its event id is zero, and nothing is marked. *)
Definition fresh (t : TenantContext) (eid : EventId) (s : list Entry) : Prop :=
  eid = zero_event_id ∨ marked (uuid_to_string (community t)) eid s.

Definition is_member (c : CommunityId) (pk : PublicKey) (s : list Entry) : Prop :=
  (entry (IsRelayMember c pk) (Ok true) : Entry) ∈ s.

(** An owner that [auth_tag] proves is a member. *)
Definition vouched (c : CommunityId) (pk : PublicKey) (auth_tag : option string) (owner : PublicKey)
    (s : list Entry) : Prop :=
  allow_nip_oa_auth cfg = true ∧
  (∃ tag, auth_tag = Some tag ∧ verify_auth_tag tag pk = Ok owner) ∧ is_member c owner s.

(** Membership counts only where the relay requires it. *)
Definition admissible (c : CommunityId) (pk : PublicKey) (auth_tag : option string) (s : list Entry) : Prop :=
  require_relay_membership cfg = false ∨ is_member c pk s ∨ ∃ owner, vouched c pk auth_tag owner s.

End facts.

(** ** The gates

    [P] is any condition on calls that only restricts those that act. *)

Definition acts (e : Ev) : bool :=
  match e with
  | Ingest _ _ _ _ | ExecuteQuery _ _ _ | ExecuteCount _ _ _ | Dispatch _ | SetAuthenticatedPubkey _ => true
  | _ => false
  end.

Definition silent (s : list Entry) : Prop := Forall (λ x, acts (call x) = false) s.

Definition quiet (P : list Entry → Entry → Prop) : Prop := ∀ h x, acts (call x) = false → P h x.

Section gates.
Context `{AuthLib} `{Sha256} `{IdText} (cfg : Config).
Context (P : list Entry → Entry → Prop) (Hquiet : quiet P).

(** Every run of [p] adds a silent history, with [F] between its result and that history. *)
Definition gate {A} (p : Prog A) (F : A → list Entry → Prop) : Prop :=
  ∀ h, wp P p h (λ a h', ∃ s, h' = h ++ s ∧ silent s ∧ F a s).

Lemma gate_ret {A} (a : A) (F : A → list Entry → Prop) : F a [] → gate (Ret a) F.
Proof. intros HF h. exists []. rewrite app_nil_r. split; [done|]. by split; [constructor|]. Qed.

Lemma gate_bind {A B} (p : Prog A) (f : A → Prog B) (F : A → list Entry → Prop) (G : B → list Entry → Prop) :
  gate p F → (∀ a s, F a s → gate (f a) (λ b u, G b (s ++ u))) → gate (bind p f) G.
Proof.
  intros Hp Hf h. apply wp_bind. eapply wp_mono; [|apply Hp]. intros a h' (s & -> & Hs & HF).
  cbn beta. eapply wp_mono; [|apply (Hf a s HF)]. intros b h'' (u & -> & Hu & HG). exists (s ++ u).
  rewrite app_assoc. split; [done|]. by split; [apply Forall_app|].
Qed.

Lemma gate_ask {B} (e : Ev) (f : Ans e → Prog B) (G : B → list Entry → Prop) :
  acts e = false → (∀ r, gate (f r) (λ b u, G b ((entry e r : Entry) :: u))) → gate (bind (ask e) f) G.
Proof.
  intros He Hf h. apply wp_ask. intros r. split; [by apply Hquiet|].
  eapply wp_mono; [|apply (Hf r)]. intros b h' (u & -> & Hu & HG). exists (entry e r :: u).
  rewrite <- app_assoc. split; [done|]. by split; [constructor|].
Qed.

Lemma bind_request_gate (headers : HeaderMap) :
  gate (bind_request headers) (λ r s, ∀ t, r = Ok t → bound headers t s).
Proof.
  unfold bind_request, bind_community. case_decide as He; cbn [bind].
  - by apply gate_ret.
  - apply gate_bind with (F := λ r s, ∀ t, r = Ok t → bound headers t s).
    + apply gate_ask; [done|]. intros r. apply gate_ret. intros t. destruct r as [[c|]|]; try done.
      intros [= <-]. split_and!; try done. by apply list_elem_of_singleton.
    + intros r s Hr. apply gate_ret. intros t. destruct r as [t'|]; [|done]. cbn [map_err]. intros [= ->].
      rewrite app_nil_r. by apply Hr.
Qed.

Lemma verify_bridge_auth_gate (headers : HeaderMap) (method url : string) (body : option string)
    (token_required require_payload : bool) :
  gate (verify_bridge_auth_with_options headers method url body token_required require_payload)
    (λ r s, ∀ pk eid, r = Ok (pk, eid) → authenticated headers method url body token_required pk eid s ∧
       (require_payload = true → eid ≠ zero_event_id →
        ∃ e, presents headers e ∧ ∃ tag, tag ∈ tags e ∧ tag !! 0 = Some "payload")).
Proof.
  unfold verify_bridge_auth_with_options.
  destruct (headers !! "authorization" ≫= strip_prefix "Nostr ") as [b64|] eqn:Hauth.
  - destruct (base64_decode b64) as [json|] eqn:Hb; [|by apply gate_ret].
    destruct (is_utf8 json); cbn [negb]; [|by apply gate_ret].
    destruct (event_from_json json) as [e|] eqn:He; [|by apply gate_ret].
    destruct (require_payload && _) eqn:Hp; [by apply gate_ret|].
    apply gate_ask; [done|]. intros now. apply gate_ret. intros pk eid.
    destruct (verify_nip98_event now json url method body) as [pk'|] eqn:Hv; [|done]. intros [= -> <-].
    apply verify_nip98_exact in Hv as (e' & He' & Ha & Hn). rewrite He in He'. injection He' as <-.
    assert (presents headers e) as Hpres.
    { exists b64, json. split_and!; try done. destruct (headers !! "authorization") as [v|]; [|done].
      cbn in Hauth. by apply strip_prefix_Some in Hauth as ->. }
    split.
    + left. exists e, now. split_and!; try done. by apply list_elem_of_singleton.
    + intros -> _. exists e. split; [done|]. cbn [andb] in Hp. apply negb_false_iff, existsb_exists in Hp.
      destruct Hp as (tag & Hin & Htag%bool_decide_eq_true). exists tag. split; [|done]. by apply list_elem_of_In.
  - destruct token_required; [by apply gate_ret|]. apply gate_ret. intros pk eid.
    destruct (headers !! "x-pubkey") as [hex|] eqn:Hx; [|done].
    destruct (public_key_from_hex hex) as [pk'|] eqn:Hpk; [|done]. intros [= -> <-].
    split; [|by intros _ ?]. right. split; [done|]. split_and!; try done. by exists hex.
Qed.

Lemma check_principal_gate (t : TenantContext) (pk : PublicKey) (l : LimitType) (window max : Z) :
  gate (check_principal t pk l window max) (λ r s, r = Ok tt → charged t pk l window max s).
Proof.
  unfold check_principal, check_and_increment, run_rate_limit.
  apply gate_bind with (F := λ r s, ∀ a, r = Ok a → allowed a = true → charged t pk l window max s).
  - apply gate_ask; [done|]. intros [[]|]; [|by apply gate_ret].
    apply gate_ask; [done|]. intros [[count ttl]|]; [|by apply gate_ret].
    assert (∀ a s, allowed a = (count <=? max)%Z → allowed a = true →
              charged t pk l window max (entry RedisPool (Ok tt) ::
                (entry (RateLimitScript (rate_limit_key t pk l) window) (Ok (count, ttl)) : Entry) :: s)) as Hc.
    { intros a s -> Hle%Z.leb_le. exists count, ttl. split; [done|]. by right; left. }
    destruct (ttl <? 0)%Z.
    + apply gate_ask; [done|]. intros [[]|]; [|by apply gate_ret]. apply gate_ret. intros a [= <-].
      by apply Hc.
    + apply gate_ret. intros a [= <-]. by apply Hc.
  - intros r s Hr. apply gate_ret. rewrite app_nil_r. destruct r as [a|]; [|done].
    destruct (allowed a) eqn:Ha; [|done]. intros _. by eapply Hr.
Qed.

Lemma enforce_http_admission_gate (t : TenantContext) (pk : PublicKey) :
  gate (enforce_http_admission cfg t pk)
    (λ r s, r = Ok tt → charged t pk ApiCalls 60 (human_api_calls_per_min (rate_limits cfg)) s).
Proof.
  eapply gate_bind; [apply check_principal_gate|]. intros r s Hr. apply gate_ret. rewrite app_nil_r.
  destruct r as [[]|[]]; [|done..]. intros _. by apply Hr.
Qed.

Lemma try_mark_gate (scope : string) (eid : EventId) :
  gate (try_mark_in_scope scope eid DEFAULT_REPLAY_TTL_SECS) (λ r s, r = Ok true → marked scope eid s).
Proof.
  unfold try_mark_in_scope. apply gate_ask; [done|]. intros [[]|]; [|by apply gate_ret].
  apply gate_ask; [done|]. intros [[reply|]|]; [|by apply gate_ret..]. apply gate_ret.
  case_decide; [|done]. subst. intros _. by right; left.
Qed.

Lemma check_nip98_replay_gate (t : TenantContext) (eid : EventId) :
  gate (check_nip98_replay t eid) (λ r s, r = Ok tt → fresh t eid s).
Proof.
  unfold check_nip98_replay, try_mark, fresh. case_decide; [by apply gate_ret; left|].
  eapply gate_bind; [apply try_mark_gate|]. intros r s Hr. apply gate_ret. rewrite app_nil_r.
  destruct r as [[]|]; [|done..]. intros _. right. by apply Hr.
Qed.

Lemma enforce_relay_membership_gate (c : CommunityId) (pk : PublicKey) (auth_tag : option string) :
  gate (enforce_relay_membership cfg c pk auth_tag)
    (λ r s, ∀ o, r = Ok o → admissible cfg c pk auth_tag s ∧
       ∀ owner, o = Some owner → vouched cfg c pk auth_tag owner s).
Proof.
  unfold enforce_relay_membership, check_relay_membership, admissible.
  apply gate_bind with (F := λ r s,
    match r with
    | Ok OpenRelay => require_relay_membership cfg = false
    | Ok Member => is_member c pk s
    | Ok (ViaOwner owner) => vouched cfg c pk auth_tag owner s
    | _ => True
    end).
  - destruct (require_relay_membership cfg) eqn:Hreq; cbn [negb]; [|by apply gate_ret].
    apply gate_ask; [done|]. intros [[]|].
    + apply gate_ret. by apply list_elem_of_singleton.
    + destruct (allow_nip_oa_auth cfg) eqn:Hoa; [|by apply gate_ret].
      destruct auth_tag as [tag|]; [|by apply gate_ret].
      destruct (verify_auth_tag tag pk) as [owner|] eqn:Hv; [|by apply gate_ret].
      apply gate_ask; [done|]. intros r. apply gate_ret. destruct r as [[]|]; [|done..].
      split_and!; [done|by exists tag|]. by right; left.
    + by apply gate_ret.
  - intros r s Hr. apply gate_ret. rewrite app_nil_r. intros o.
    destruct r as [[| |owner|]|]; try done; intros [= <-]; split; try done; auto.
    + right. right. by exists owner.
    + by intros ? [= <-].
Qed.

Lemma materialize_gate (t : TenantContext) (agent owner : PublicKey) :
  gate (materialize_nip_oa_owner t agent owner)
    (λ r s, r = true → (entry (SetAgentOwner (community t) agent owner) (Ok true) : Entry) ∈ s ∨
                       (entry (IsAgentOwner (community t) agent owner) (Ok true) : Entry) ∈ s).
Proof.
  unfold materialize_nip_oa_owner, ensure_both.
  apply gate_bind with (F := λ _ _, True).
  { apply gate_ask; [done|]. intros [|]; [|by apply gate_ret]. apply gate_ask; [done|]. intros. by apply gate_ret. }
  intros ensured s0 _. destruct ensured; cbn [negb]; [|by apply gate_ret].
  apply gate_ask; [done|]. intros r.
  apply gate_bind with (F := λ b u, b = true → r = Ok true ∨
    (entry (IsAgentOwner (community t) agent owner) (Ok true) : Entry) ∈ u).
  { destruct r as [[]|]; [by apply gate_ret; left| |by apply gate_ret].
    apply gate_ask; [done|]. intros o. apply gate_ret. destruct o as [[]|]; [|done..]. intros _. right.
    by apply list_elem_of_singleton. }
  intros m s1 Hm. destruct m; [|by apply gate_ret].
  apply gate_ask; [done|]. intros []. apply gate_ask; [done|]. intros []. apply gate_ret. intros _.
  destruct (Hm eq_refl) as [->|Hin]; [left|right]; apply elem_of_app; right; [by left|].
  right. by apply elem_of_app; left.
Qed.

End gates.

(** ** The doors of the HTTP bridge *)

Inductive Route := Events | Query | Count.

Record BridgeRequest := { route : Route; rq_headers : gmap string string; rq_body : string }.

Definition path_of (r : Route) : string :=
  match r with Events => "/events" | Query => "/query" | Count => "/count" end.

Section bridge.
Context `{AuthLib} `{Sha256} `{IdText} (cfg : Config).

Definition serve (q : BridgeRequest) : Prog (result Json ApiError) :=
  match route q with
  | Events => submit_event cfg (rq_headers q) (rq_body q)
  | Query => query_events cfg (rq_headers q) (rq_body q)
  | Count => count_events cfg (rq_headers q) (rq_body q)
  end.

(** The request's own URL, on the host of its tenant *)
Definition own_url (q : BridgeRequest) (t : TenantContext) (url : string) : Prop :=
  ∃ scheme, (scheme = "http" ∨ scheme = "https") ∧ url = scheme +:+ "://" +:+ host t +:+ path_of (route q).

(** What [h] shows before the relay acts for [pk] in [t]: the host was bound, the request was
    authenticated, charged, fresh and from a member, in this order. *)
Definition authorised (q : BridgeRequest) (t : TenantContext) (pk : PublicKey) (h : list Entry) : Prop :=
  ∃ sb sa sl sr sm sx eid url, h = sb ++ sa ++ sl ++ sr ++ sm ++ sx ∧
    bound (rq_headers q) t sb ∧ own_url q t url ∧
    authenticated (rq_headers q) "POST" url (Some (rq_body q)) (require_auth_token cfg) pk eid sa ∧
    charged t pk ApiCalls 60 (human_api_calls_per_min (rate_limits cfg)) sl ∧
    fresh t eid sr ∧
    admissible cfg (community t) pk (rq_headers q !! "x-auth-tag") sm.

Definition acts_authorised (q : BridgeRequest) (h : list Entry) (x : Entry) : Prop :=
  match call x with
  | Ingest t e pk _ => authorised q t pk h ∧ event_from_json (rq_body q) = Ok e
  | ExecuteQuery t pk body | ExecuteCount t pk body => authorised q t pk h ∧ body = rq_body q
  | e => acts e = false
  end.

Lemma acts_authorised_quiet (q : BridgeRequest) : quiet (acts_authorised q).
Proof. intros h [e r] He. unfold acts_authorised. cbn [call] in *. by destruct e. Qed.

Lemma own_url_expected (q : BridgeRequest) (t : TenantContext) :
  own_url q t (nip98_expected_url (relay_url cfg) t (path_of (route q))).
Proof. unfold own_url, nip98_expected_url. case_match; eexists; split; [by right|done|by left|done]. Qed.

(** The prelude all three share *)
Definition after_auth (q : BridgeRequest) (r : result (TenantContext * PublicKey * EventId) ApiError)
    (s : list Entry) : Prop :=
  ∀ t pk eid, r = Ok (t, pk, eid) →
    ∃ sb sa url, s = sb ++ sa ∧ bound (rq_headers q) t sb ∧ own_url q t url ∧
      authenticated (rq_headers q) "POST" url (Some (rq_body q)) (require_auth_token cfg) pk eid sa.

Lemma bridge_auth_gate P (q : BridgeRequest) :
  quiet P → gate P (bridge_auth cfg (rq_headers q) (path_of (route q)) (rq_body q)) (after_auth q).
Proof.
  intros Hq. unfold bridge_auth.
  eapply gate_bind; [by apply bind_request_gate|]. intros [t|] sb Hb; [|by apply gate_ret].
  eapply gate_bind; [by apply verify_bridge_auth_gate|]. intros [[pk eid]|] sa Ha; [|by apply gate_ret].
  apply gate_ret. intros t' pk' eid' [= -> -> ->]. rewrite app_nil_r. eexists sb, sa, _.
  split; [done|]. split; [by apply Hb|]. split; [apply own_url_expected|]. by apply Ha.
Qed.

Lemma read_gates_gate P (q : BridgeRequest) (t : TenantContext) (pk : PublicKey) (eid : EventId) :
  quiet P → gate P (read_gates cfg t (rq_headers q) pk eid) (λ r s, r = Ok tt →
    ∃ sl sr sm, s = sl ++ sr ++ sm ∧
      charged t pk ApiCalls 60 (human_api_calls_per_min (rate_limits cfg)) sl ∧
      fresh t eid sr ∧ admissible cfg (community t) pk (rq_headers q !! "x-auth-tag") sm).
Proof.
  intros Hq. unfold read_gates.
  eapply gate_bind; [by apply enforce_http_admission_gate|]. intros [[]|] sl Hl; [|by apply gate_ret].
  eapply gate_bind; [by apply check_nip98_replay_gate|]. intros [[]|] sr Hr; [|by apply gate_ret].
  eapply gate_bind; [by apply enforce_relay_membership_gate|]. intros [o|] sm Hm; [|by apply gate_ret].
  apply gate_ret. intros _. exists sl, sr, sm. rewrite app_nil_r.
  split_and!; [done|by apply Hl|by apply Hr|]. by apply (Hm o).
Qed.

Lemma authorised_intro (q : BridgeRequest) (t : TenantContext) (pk : PublicKey) (eid : EventId)
    (sa sg sx : list Entry) :
  after_auth q (Ok (t, pk, eid)) sa →
  (∃ sl sr sm, sg = sl ++ sr ++ sm ∧
      charged t pk ApiCalls 60 (human_api_calls_per_min (rate_limits cfg)) sl ∧
      fresh t eid sr ∧ admissible cfg (community t) pk (rq_headers q !! "x-auth-tag") sm) →
  authorised q t pk (sa ++ sg ++ sx).
Proof.
  intros Ha (sl & sr & sm & -> & Hl & Hr & Hm). destruct (Ha t pk eid eq_refl) as (sb & s & url & -> & Hb & Hu & Hau).
  exists sb, s, sl, sr, sm, sx, eid, url. by rewrite <- !app_assoc.
Qed.

(** The reading doors share their shape. *)
Lemma read_door_wp (q : BridgeRequest) (execute : TenantContext → PublicKey → string → Prog (result Json ApiError)) :
  (∀ t pk h, acts_authorised q h (entry (ExecuteQuery t pk (rq_body q)) (Err internal_error)) →
             wp (acts_authorised q) (execute t pk (rq_body q)) h (λ _ _, True)) →
  wp (acts_authorised q)
    (a <-! bridge_auth cfg (rq_headers q) (path_of (route q)) (rq_body q) ;;
     let '(tenant, pubkey, event_id) := a in
     _ <-! read_gates cfg tenant (rq_headers q) pubkey event_id ;;
     execute tenant pubkey (rq_body q)) [] (λ _ _, True).
Proof.
  intros Hex. apply wp_bind. eapply wp_mono; [|apply bridge_auth_gate, acts_authorised_quiet].
  intros [[[t pk] eid]|] h (sa & -> & _ & Ha); [|done]. cbn beta. apply wp_bind.
  eapply wp_mono; [|apply read_gates_gate, acts_authorised_quiet].
  intros [[]|] h (sg & -> & _ & Hg); [|done]. apply Hex. split; [|done].
  rewrite app_nil_l, <- (app_nil_r sg). eapply authorised_intro; [done|]. by apply Hg.
Qed.

Lemma submit_wp (q : BridgeRequest) :
  route q = Events → wp (acts_authorised q) (submit_event cfg (rq_headers q) (rq_body q)) [] (λ _ _, True).
Proof.
  intros Hroute. unfold submit_event. apply wp_bind.
  pose proof (bridge_auth_gate (acts_authorised q) q (acts_authorised_quiet q) []) as Hg.
  rewrite Hroute in Hg. eapply wp_mono; [|exact Hg].
  intros [[[t pk] eid]|] h (sa & -> & _ & Ha); [|done]. cbn beta. unfold submit_event_authed. apply wp_bind.
  eapply wp_mono; [|apply enforce_http_admission_gate, acts_authorised_quiet].
  intros [[]|] h (sl & -> & _ & Hl); [|done]. cbn beta. apply wp_bind.
  eapply wp_mono; [|apply check_nip98_replay_gate, acts_authorised_quiet].
  intros [[]|] h (sr & -> & _ & Hr); [|done]. cbn beta.
  destruct (event_from_json (rq_body q)) as [e|] eqn:He; [|done]. apply wp_bind.
  eapply wp_mono; [|apply enforce_relay_membership_gate, acts_authorised_quiet].
  intros [o|] h (sm & -> & _ & Hm); [|done]. cbn beta. apply wp_bind.
  eapply wp_mono with (Q := λ _ h', ∃ s, h' = (sa ++ (sl ++ sr ++ sm)) ++ s).
  - intros [] h (sx & ->). apply wp_ask. intros r. split; [|done]. split; [|done].
    rewrite <- app_assoc. eapply authorised_intro; [done|]. exists sl, sr, sm.
    split_and!; [done|by apply Hl|by apply Hr|]. by apply (Hm o).
  - rewrite app_nil_l, <- !app_assoc. destruct (match o with Some _ => _ | None => _ end) as [owner|].
    + apply wp_bind. eapply wp_mono; [|apply materialize_gate, acts_authorised_quiet].
      intros b h (s & -> & _). exists s. by rewrite <- !app_assoc.
    + exists []. by rewrite app_nil_r.
Qed.

Lemma serve_wp (q : BridgeRequest) : wp (acts_authorised q) (serve q) [] (λ _ _, True).
Proof.
  unfold serve. destruct (route q) eqn:Hroute; [by apply submit_wp|..].
  - pose proof (read_door_wp q (λ t pk body, ask (ExecuteQuery t pk body))) as Hd.
    rewrite Hroute in Hd. apply Hd. intros t pk h Hok r. by split.
  - pose proof (read_door_wp q (λ t pk body, ask (ExecuteCount t pk body))) as Hd.
    rewrite Hroute in Hd. apply Hd. intros t pk h Hok r. by split.
Qed.

(** C7 The HTTP bridge ingests an event, or executes a query or a count, only after these
    steps, in this order, whatever the environment answers: the request's host was looked up
    and named the tenant; the key was authenticated, by a NIP-98 token that it signed for this
    method, the tenant's URL and this body within a minute of the clock, or, where tokens are
    not required ([require_auth_token], off by default), by the X-Pubkey developer header of a
    request without a token, which proves nothing about the key; the principal's counter was
    within its limit; the token was new in the tenant and is now marked (the developer header
    has no token, and nothing is marked); and where membership is required
    ([require_relay_membership], off by default) the key, or an owner that vouches for it, is
    a member: otherwise any key is admitted. *)
Theorem bridge_authorised (q : BridgeRequest) (h before after : list Entry) (x : Entry)
    (rest : Prog (result Json ApiError)) :
  runs (serve q) h rest → h = before ++ x :: after →
  match call x with
  | Ingest t e pk _ => authorised q t pk before ∧ event_from_json (rq_body q) = Ok e
  | ExecuteQuery t pk body | ExecuteCount t pk body => authorised q t pk before ∧ body = rq_body q
  | e => acts e = false
  end.
Proof.
  intros Hr ->. destruct (wp_history _ _ _ _ _ (serve_wp q) Hr) as [Hacc _].
  exact (Hacc before x after eq_refl).
Qed.

End bridge.

(** ** The keys the bridge touches *)

Section keys.
Context `{AuthLib} `{Sha256} `{IdText} (cfg : Config).

Definition replay_key (scope : string) (eid : EventId) : string := "buzz:" +:+ scope +:+ ":nip98:" +:+ eid.

Definition quota_key (c : CommunityId) (pk : PublicKey) (l : LimitType) : string :=
  "buzz:" +:+ uuid_to_string c +:+ ":ratelimit:" +:+ pk +:+ ":" +:+ key_suffix l.

(** The Redis commands of a bridge request, and the time the process reads *)
Definition bridge_call (e : Ev) : Prop :=
  match e with
  | SetNxEx k _ ttl => ttl = 120%Z ∧ ∃ c eid, k = replay_key (uuid_to_string c) eid
  | RateLimitScript k w | Expire k w => w = 60%Z ∧ ∃ c pk, k = quota_key c pk ApiCalls
  | _ => True
  end.

Abbreviation bridge p := (calls bridge_call p (λ _, True)).

Lemma bridge_bind {A B} (p : Prog A) (f : A → Prog B) :
  bridge p → (∀ a, bridge (f a)) → bridge (bind p f).
Proof. intros Hp Hf. apply calls_bind. by apply (calls_mono bridge_call bridge_call _ (λ _, True)). Qed.

(** Walks a program: binds, calls and case distinctions *)
Ltac walk :=
  repeat first
    [ progress intros
    | match goal with
      | |- calls _ (Ret _) _ => exact I
      | |- calls _ (ask _) _ => split; [exact I|intros; exact I]
      | |- calls _ (bind (ask _) _) _ => apply calls_ask; [exact I || assumption|]
      | |- calls _ (bind (bind _ _) _) _ => apply bridge_bind
      | |- calls _ (bind (match ?x with _ => _ end) _) _ => destruct x
      | |- calls _ (match ?x with _ => _ end) _ => destruct x
      end
    | apply bridge_bind; [solve [eauto with bridge]|]
    | progress cbn [bind] ].

Lemma bridge_bind_request headers : bridge (bind_request headers).
Proof. unfold bind_request. apply bridge_bind; [|walk]. unfold bind_community. walk. Qed.

Lemma bridge_verify headers method url body b1 b2 :
  bridge (verify_bridge_auth_with_options headers method url body b1 b2).
Proof. unfold verify_bridge_auth_with_options. walk. Qed.

Lemma bridge_admission t pk : bridge (enforce_http_admission cfg t pk).
Proof.
  unfold enforce_http_admission, check_principal, check_and_increment.
  apply bridge_bind; [|walk]. apply bridge_bind; [|walk]. unfold run_rate_limit.
  assert (bridge_call (RateLimitScript (rate_limit_key t pk ApiCalls) 60) ∧
          bridge_call (Expire (rate_limit_key t pk ApiCalls) 60)) as [Hr He].
  { split; (split; [done|]); by exists (community t), pk. }
  walk.
Qed.

Lemma bridge_replay t eid : bridge (check_nip98_replay t eid).
Proof.
  unfold check_nip98_replay, try_mark. case_decide; [done|]. apply bridge_bind; [|walk].
  unfold try_mark_in_scope.
  assert (bridge_call (SetNxEx (nip98_replay_key_for_scope (uuid_to_string (community t)) eid) "1" 120)) as Hs.
  { split; [done|]. by exists (community t), eid. }
  walk.
Qed.

Lemma bridge_membership c pk tag : bridge (enforce_relay_membership cfg c pk tag).
Proof. unfold enforce_relay_membership. apply bridge_bind; [|walk]. unfold check_relay_membership. walk. Qed.

Lemma bridge_materialize t agent owner : bridge (materialize_nip_oa_owner t agent owner).
Proof. unfold materialize_nip_oa_owner, ensure_both. walk. Qed.

Create HintDb bridge.
#[local] Hint Resolve bridge_bind_request bridge_verify bridge_admission bridge_replay bridge_membership
  bridge_materialize : bridge.

Lemma bridge_serve (q : BridgeRequest) : bridge (serve cfg q).
Proof.
  assert (∀ path, bridge (bridge_auth cfg (rq_headers q) path (rq_body q))) as Hauth.
  { intros path. unfold bridge_auth, verify_bridge_auth. walk. }
  assert (∀ t pk eid, bridge (read_gates cfg t (rq_headers q) pk eid)) as Hread.
  { intros. unfold read_gates. walk. }
  unfold serve. destruct (route q); [unfold submit_event|unfold query_events|unfold count_events];
    (apply bridge_bind; [apply Hauth|]; intros [[[t pk] eid]|]; [|done]).
  - unfold submit_event_authed. walk.
  - apply bridge_bind; [apply Hread|]. walk.
  - apply bridge_bind; [apply Hread|]. walk.
Qed.

End keys.

(** ** The doors that answer with an authorisation *)

Section privileged.
Context `{AuthLib} `{Sha256} `{IdText} (cfg : Config).

(** What was found for the tenant's own URL of [path] *)
Definition url_on (t : TenantContext) (path url : string) : Prop :=
  ∃ scheme, (scheme = "http" ∨ scheme = "https") ∧ url = scheme +:+ "://" +:+ host t +:+ path.

Lemma expected_url_on (t : TenantContext) (path : string) :
  url_on t path (nip98_expected_url (relay_url cfg) t path).
Proof. unfold url_on, nip98_expected_url. case_match; eexists; split; [by right|done|by left|done]. Qed.

(** Never the developer header; a payload tag that has a value is the hash of the body. *)
Definition invited (headers : gmap string string) (path body : string) (t : TenantContext)
    (pk : PublicKey) (h : list Entry) : Prop :=
  ∃ eid url, bound headers t h ∧ url_on t path url ∧
    token_holds headers "POST" url (Some body) pk eid h ∧ fresh t eid h.

Definition operates (headers : gmap string string) (method path : string) (raw_query body : option string)
    (pk : PublicKey) (h : list Entry) : Prop :=
  ∃ eid origin, relay_operator_api_origin cfg = Some origin ∧
    token_holds headers method (origin +:+ request_path path raw_query) body pk eid h ∧
    marked "operator-management" eid h ∧ pk ∈ relay_operator_pubkeys cfg.

Definition reads_runs (headers : gmap string string) (path : string) (raw_query : option string)
    (workflow : Uuid) (t : TenantContext) (h : list Entry) : Prop :=
  ∃ pk eid url channel ids, bound headers t h ∧ url_on t (request_path path raw_query) url ∧
    authenticated headers "GET" url None (require_auth_token cfg) pk eid h ∧
    charged t pk ApiCalls 60 (human_api_calls_per_min (rate_limits cfg)) h ∧ fresh t eid h ∧
    admissible cfg (community t) pk (headers !! "x-auth-tag") h ∧
    (entry (GetWorkflow (community t) workflow) (WorkflowIn (Some channel)) : Entry) ∈ h ∧
    (entry (AccessibleChannelIds (community t) pk) (Ok ids) : Entry) ∈ h ∧ channel ∈ ids.

Definition moderates (headers : gmap string string) (path : string) (raw_query : option string)
    (t : TenantContext) (h : list Entry) : Prop :=
  ∃ pk eid url role, bound headers t h ∧ url_on t (request_path path raw_query) url ∧
    authenticated headers "GET" url None (require_auth_token cfg) pk eid h ∧ fresh t eid h ∧
    (entry (GetRelayMemberRole (community t) pk) (Ok (Some role)) : Entry) ∈ h ∧
    (role = "owner" ∨ role = "admin").

Abbreviation anything := (λ (_ : list Entry) (_ : Entry), True).

Lemma anything_quiet : quiet anything.
Proof. done. Qed.

(** Facts about a part of the history hold of the whole. *)
Lemma bound_mono headers t (s h : list Entry) : s ⊆ h → bound headers t s → bound headers t h.
Proof. intros Hs (? & ? & Hin). split_and!; [done..|]. by apply Hs. Qed.

Lemma token_mono headers method url body pk eid (s h : list Entry) :
  s ⊆ h → token_holds headers method url body pk eid s → token_holds headers method url body pk eid h.
Proof. intros Hs (e & now & ? & ? & ? & Hin & ?). exists e, now. split_and!; try done. by apply Hs. Qed.

Lemma authenticated_mono headers method url body b pk eid (s h : list Entry) :
  s ⊆ h → authenticated headers method url body b pk eid s → authenticated headers method url body b pk eid h.
Proof. intros Hs [Ht|?]; [left; by eapply token_mono|by right]. Qed.

Lemma charged_mono t pk l w max (s h : list Entry) : s ⊆ h → charged t pk l w max s → charged t pk l w max h.
Proof. intros Hs (n & ttl & ? & Hin). exists n, ttl. split; [done|by apply Hs]. Qed.

Lemma fresh_mono t eid (s h : list Entry) : s ⊆ h → fresh t eid s → fresh t eid h.
Proof. intros Hs [?|Hin]; [by left|right; by apply Hs]. Qed.

Lemma admissible_mono c pk tag (s h : list Entry) : s ⊆ h → admissible cfg c pk tag s → admissible cfg c pk tag h.
Proof.
  intros Hs [?|[Hin|(o & ? & ? & Hin)]]; [by left|right; left; by apply Hs|right; right].
  exists o. split_and!; [done..|by apply Hs].
Qed.

Lemma invite_gate headers path body :
  gate anything (invite_authenticate cfg headers path body)
    (λ r s, ∀ t pk, r = Ok (t, pk) → invited headers path body t pk s).
Proof.
  unfold invite_authenticate.
  eapply gate_bind; [apply bind_request_gate, anything_quiet|]. intros [t|] sb Hb; [|by apply gate_ret].
  eapply gate_bind; [apply verify_bridge_auth_gate, anything_quiet|]. intros [[pk eid]|] sa Ha; [|by apply gate_ret].
  eapply gate_bind; [apply check_nip98_replay_gate, anything_quiet|]. intros [[]|] sr Hr; [|by apply gate_ret].
  apply gate_ret. intros t' pk' [= <- <-]. cbn [fst snd] in *. rewrite app_nil_r.
  destruct (Ha pk eid eq_refl) as [[Ht|[? _]] _]; [|done]. eexists eid, _. split_and!.
  - eapply bound_mono; [|by apply Hb]. set_solver.
  - apply expected_url_on.
  - eapply token_mono; [|exact Ht]. set_solver.
  - eapply fresh_mono; [|by apply Hr]. set_solver.
Qed.

Lemma operator_gate headers method path raw_query body :
  gate anything (authorize_operator_request cfg headers method path raw_query body)
    (λ r s, ∀ pk, r = Ok pk → operates headers method path raw_query body pk s).
Proof.
  unfold authorize_operator_request. destruct (relay_operator_api_origin cfg) as [origin|] eqn:Ho; [|by apply gate_ret].
  eapply gate_bind; [apply verify_bridge_auth_gate, anything_quiet|]. intros [[pk eid]|] sa Ha; [|by apply gate_ret].
  unfold check_operator_replay.
  eapply gate_bind with (F := λ r s, r = Ok tt → marked "operator-management" eid s).
  { eapply gate_bind; [apply try_mark_gate, anything_quiet|]. intros r s Hr. apply gate_ret. rewrite app_nil_r.
    destruct r as [[]|]; try done. intros _. by apply Hr. }
  intros [[]|] sr Hr; [|by apply gate_ret]. apply gate_ret. intros pk'. cbn [fst]. case_decide as Hop; [|done].
  intros [= <-]. rewrite app_nil_r. destruct (Ha pk eid eq_refl) as [[Ht|[? _]] _]; [|done].
  exists eid, origin. split_and!; try done.
  - eapply token_mono; [|exact Ht]. set_solver.
  - unfold marked in *. specialize (Hr eq_refl). set_solver.
Qed.

Lemma workflow_read_gate headers path raw_query workflow :
  gate anything (authorize_workflow_read cfg headers path raw_query workflow)
    (λ r s, ∀ t, r = Ok t → reads_runs headers path raw_query workflow t s).
Proof.
  unfold authorize_workflow_read, verify_bridge_auth.
  eapply gate_bind; [apply bind_request_gate, anything_quiet|]. intros [t|] sb Hb; [|by apply gate_ret].
  eapply gate_bind; [apply verify_bridge_auth_gate, anything_quiet|]. intros [[pk eid]|] sa Ha; [|by apply gate_ret].
  eapply gate_bind; [apply enforce_http_admission_gate, anything_quiet|]. intros [[]|] sl Hl; [|by apply gate_ret].
  eapply gate_bind; [apply check_nip98_replay_gate, anything_quiet|]. intros [[]|] sr Hr; [|by apply gate_ret].
  eapply gate_bind; [apply enforce_relay_membership_gate, anything_quiet|]. intros [o|] sm Hm; [|by apply gate_ret].
  apply gate_ask; [done..|]. intros [| |[channel|]]; try by apply gate_ret.
  apply gate_ask; [done..|]. intros ids. apply gate_ret. intros t'. destruct ids as [ids|]; [|done].
  destruct (mem channel ids) eqn:Hmem; [|done]. intros [= <-]. cbn [fst snd] in *.
  destruct (Ha pk eid eq_refl) as [Hau _]. destruct (Hm o eq_refl) as [Hadm _].
  eexists pk, eid, _, channel, ids. split_and!.
  - eapply bound_mono; [|by apply Hb]. set_solver.
  - apply expected_url_on.
  - eapply authenticated_mono; [|exact Hau]. set_solver.
  - eapply charged_mono; [|by apply Hl]. set_solver.
  - eapply fresh_mono; [|by apply Hr]. set_solver.
  - eapply admissible_mono; [|exact Hadm]. set_solver.
  - set_solver.
  - set_solver.
  - by apply bool_decide_eq_true in Hmem.
Qed.

Lemma moderation_read_gate headers path raw_query :
  gate anything (authorize_moderation_read cfg headers path raw_query)
    (λ r s, ∀ t, r = Ok t → moderates headers path raw_query t s).
Proof.
  unfold authorize_moderation_read, verify_bridge_auth.
  eapply gate_bind; [apply bind_request_gate, anything_quiet|]. intros [t|] sb Hb; [|by apply gate_ret].
  eapply gate_bind; [apply verify_bridge_auth_gate, anything_quiet|]. intros [[pk eid]|] sa Ha; [|by apply gate_ret].
  eapply gate_bind; [apply check_nip98_replay_gate, anything_quiet|]. intros [[]|] sr Hr; [|by apply gate_ret].
  eapply gate_bind with (F := λ r s, ∀ a, r = Ok a → ∃ role,
    (entry (GetRelayMemberRole (community t) pk) (Ok (Some role)) : Entry) ∈ s ∧ (role = "owner" ∨ role = "admin")).
  { unfold authorize_moderation_action. cbn [fst].
    apply gate_ask; [done..|]. intros [role|]; [|by apply gate_ret].
    eapply gate_bind with (F := λ _ s, s = []); [by repeat case_match; apply gate_ret|].
    intros [target|] s ->; [|by apply gate_ret].
    eapply gate_bind with (F := λ _ s, s = []); [by repeat case_match; apply gate_ret|].
    intros [channel|] s ->; [|by apply gate_ret]. apply gate_ret. intros a. unfold decide_authority.
    case_decide as H1'; [subst; exists "owner"; split; [by left|by left]|].
    case_decide as H2'; [subst; exists "admin"; split; [by left|by right]|done]. }
  intros r s Hrole. apply gate_ret. intros t'. destruct r as [a|]; [|done]. intros [= <-].
  destruct (Ha pk eid eq_refl) as [Hau _]. destruct (Hrole a eq_refl) as (role & Hin & Hro). cbn [fst snd] in *.
  eexists pk, eid, _, role. split_and!.
  - eapply bound_mono; [|by apply Hb]. set_solver.
  - apply expected_url_on.
  - eapply authenticated_mono; [|exact Hau]. set_solver.
  - eapply fresh_mono; [|by apply Hr]. set_solver.
  - set_solver.
  - done.
Qed.

Lemma gate_result {A} (p : Prog A) (F : A → list Entry → Prop) (h : list Entry) (a : A) :
  gate anything p F → runs p h (Ret a) → F a h.
Proof.
  intros Hg Hr. destruct (wp_history _ _ _ _ _ (Hg []) Hr) as [_ Hend].
  destruct (Hend a eq_refl) as (s & -> & _ & HF). exact HF.
Qed.

(** C18 Whom the privileged endpoints let in. Invites: anyone with an unused NIP-98 token for
    this URL of the tenant that the host named. Operators: a configured operator with an
    unused token for this URL. Reads of workflow runs and of moderation: a key authenticated
    for this URL of the tenant by an unused token or, where tokens are not required
    ([require_auth_token], off by default), by the X-Pubkey developer header of a request
    without a token; it then is, for workflow runs, within its quota, a member or vouched for
    where membership is required ([require_relay_membership], off by default), with access to
    the workflow's channel, and for moderation an owner or admin of the community. *)
Theorem privileged_authorised (headers : gmap string string) (method path body : string)
    (raw_query opt_body : option string) (workflow : Uuid) (h : list Entry) :
  (∀ t pk, runs (invite_authenticate cfg headers path body) h (Ret (Ok (t, pk))) →
     invited headers path body t pk h) ∧
  (∀ pk, runs (authorize_operator_request cfg headers method path raw_query opt_body) h (Ret (Ok pk)) →
     operates headers method path raw_query opt_body pk h) ∧
  (∀ t, runs (authorize_workflow_read cfg headers path raw_query workflow) h (Ret (Ok t)) →
     reads_runs headers path raw_query workflow t h) ∧
  (∀ t, runs (authorize_moderation_read cfg headers path raw_query) h (Ret (Ok t)) →
     moderates headers path raw_query t h).
Proof.
  split_and!.
  - intros t pk Hr. by apply (gate_result _ _ _ _ (invite_gate headers path body) Hr).
  - intros pk Hr. by apply (gate_result _ _ _ _ (operator_gate headers method path raw_query opt_body) Hr).
  - intros t Hr. by apply (gate_result _ _ _ _ (workflow_read_gate headers path raw_query workflow) Hr).
  - intros t Hr. by apply (gate_result _ _ _ _ (moderation_read_gate headers path raw_query) Hr).
Qed.

End privileged.
