(* ===== verification/AccessRedis.v ===== *)
(** * Many requests over one Redis (buzz-pubsub/src/nip98_replay.rs, rate_limiter.rs)

    Requests of the HTTP bridge on any number of pods, interleaved in any way, over the shared
    Redis: a trace of calls with their times, in milliseconds of the Redis server. Theorems:
    how far apart two requests with one token must be, and how many requests of one principal
    are handled in a minute. Redis is the class [RedisKeys], with what is documented of its
    commands as [RedisKeysLaws]; a command that answers with an error may have run or not. *)

From S2P Require Import Prelude Text StdText Filter Json Auth NipOa Protocol Access FrontDoor AccessSpec.

Open Scope string_scope.
Open Scope nat_scope.
Open Scope list_scope.

Class RedisKeys := {
  rstore : Type;
  (** the value of a key at a time, and the time it expires at *)
  peek : Z → string → rstore → option (string * option Z);
  set_nx_ex : Z → string → string → Z → rstore → rstore * option string;
  incr : Z → string → rstore → rstore * option Z;
  expire : Z → string → Z → rstore → rstore;
  ttl : Z → string → rstore → Z
}.

Class RedisKeysLaws `{RedisKeys} := {
  peek_later t t' k r : (t ≤ t')%Z →
    peek t' k r = match peek t k r with
                  | Some (v, Some d) => if (t' <? d)%Z then Some (v, Some d) else None
                  | x => x
                  end;
  set_nx_hit t k v s r x : peek t k r = Some x → set_nx_ex t k v s r = (r, None);
  set_nx_new t k v s r : peek t k r = None → (0 < s)%Z →
    (set_nx_ex t k v s r).2 = Some "OK" ∧
    ∀ k', peek t k' (set_nx_ex t k v s r).1
          = if decide (k = k') then Some (v, Some (t + 1000 * s)%Z) else peek t k' r;
  incr_new t k r : peek t k r = None →
    (incr t k r).2 = Some 1%Z ∧
    ∀ k', peek t k' (incr t k r).1 = if decide (k = k') then Some (decimal 1, None) else peek t k' r;
  incr_old t k r n e : peek t k r = Some (decimal n, e) → (0 ≤ n < 2 ^ 63 - 1)%Z →
    (incr t k r).2 = Some (n + 1)%Z ∧
    ∀ k', peek t k' (incr t k r).1 = if decide (k = k') then Some (decimal (n + 1), e) else peek t k' r;
  incr_other t k k' r : k ≠ k' → peek t k' (incr t k r).1 = peek t k' r;
  incr_full t k r e : peek t k r = Some (decimal (2 ^ 63 - 1), e) → incr t k r = (r, None);
  expire_peek t k k' s r : (0 < s)%Z →
    peek t k' (expire t k s r)
    = if decide (k = k') then (λ x, (x.1, Some (t + 1000 * s)%Z)) <$> peek t k r else peek t k' r;
  ttl_forever t k r v : peek t k r = Some (v, None) → ttl t k r = (-1)%Z;
  ttl_some t k r v d : peek t k r = Some (v, Some d) → (0 ≤ ttl t k r)%Z
}.

Section redis.
Context `{RedisKeys}.

(** ** The Lua script of the rate limiter; [None] is the error of its [INCR]. *)

Definition RATE_LIMIT_SCRIPT (t : Z) (key : string) (window : Z) (r : rstore) : rstore * option (Z * Z) :=
  let '(r, count) := incr t key r in
  match count with
  | None => (r, None)
  | Some count =>
      let r := if (count =? 1)%Z then expire t key window r else r in
      (r, Some (count, ttl t key r))
  end.

(** [ran f r r']: a call whose answer was lost left the store alone or took effect. *)
Definition ran (f r r' : rstore) : Prop := r' = r ∨ r' = f.

(** What one call of a process does to the store at the time [t] *)
Definition redis_step (t : Z) (x : Entry) (r r' : rstore) : Prop :=
  match call x as e return Ans e → Prop with
  | SetNxEx k v s => λ a,
      match a with
      | Ok o => set_nx_ex t k v s r = (r', o)
      | Err _ => ran (set_nx_ex t k v s r).1 r r'
      end
  | RateLimitScript k w => λ a,
      match a with
      | Ok c => RATE_LIMIT_SCRIPT t k w r = (r', Some c)
      | Err _ => ran (RATE_LIMIT_SCRIPT t k w r).1 r r'
      end
  | Expire k w => λ a,
      match a with
      | Ok _ => r' = expire t k w r
      | Err _ => ran (expire t k w r) r r'
      end
  | _ => λ _, r' = r
  end (reply x).

(** ** Traces: the time of each call, and the process that made it *)

Abbreviation Trace := (list (Z * (nat * Entry))) (only parsing).

Fixpoint redis_run (now : Z) (r : rstore) (tr : Trace) : Prop :=
  match tr with
  | [] => True
  | (t, (_, x)) :: tr => (now ≤ t)%Z ∧ ∃ r', redis_step t x r r' ∧ redis_run t r' tr
  end.

(** A call that leaves the key [k] to others *)
Definition spares (k : string) (x : Entry) : Prop :=
  match call x with
  | SetNxEx k' _ _ => k' ≠ k
  | RateLimitScript k' w | Expire k' w => k' ≠ k
  | _ => True
  end.

Context `{!RedisKeysLaws}.

Lemma spares_peek (t : Z) (k : string) (x : Entry) (r r' : rstore) :
  (match call x with
   | SetNxEx _ _ w | RateLimitScript _ w | Expire _ w => (0 < w)%Z
   | _ => True
   end) →
  spares k x → redis_step t x r r' → peek t k r' = peek t k r.
Proof.
  destruct x as [e a]. unfold spares, redis_step. cbn [call reply].
  assert (∀ k', k' ≠ k → ∀ w, (0 < w)%Z → peek t k (RATE_LIMIT_SCRIPT t k' w r).1 = peek t k r) as Hscript.
  { intros k' Hk w Hw. unfold RATE_LIMIT_SCRIPT. pose proof (incr_other t k' k r Hk) as Hi.
    destruct (incr t k' r) as [r1 [c|]]; [|done]. simpl in *. destruct (c =? 1)%Z; [|done].
    rewrite expire_peek, decide_False by done. done. }
  assert (∀ k', k' ≠ k → ∀ v w, (0 < w)%Z → peek t k (set_nx_ex t k' v w r).1 = peek t k r) as Hset.
  { intros k' Hk v w Hw. destruct (peek t k' r) as [y|] eqn:Hp; [by rewrite (set_nx_hit _ _ _ _ _ y)|].
    destruct (set_nx_new t k' v w r Hp Hw) as [_ ->]. by rewrite decide_False. }
  destruct e; intros Hw Hk; try (intros ->; done).
  - destruct a as [o|].
    + intros Hs. specialize (Hset _ Hk value _ Hw). by rewrite Hs in Hset.
    + intros [->| ->]; [done|]. by apply Hset.
  - destruct a as [o|].
    + intros Hs. specialize (Hscript _ Hk _ Hw). by rewrite Hs in Hscript.
    + intros [->| ->]; [done|]. by apply Hscript.
  - assert (peek t k (expire t key window_secs r) = peek t k r) as He
      by (by rewrite expire_peek, decide_False).
    destruct a; [by intros ->|intros [->| ->]; done].
Qed.

(** ** Marks *)

(** From a mark on, the key is taken until it expires. *)
Definition taken (k : string) (d : Z) (now : Z) (r : rstore) : Prop :=
  (d ≤ now)%Z ∨ ∃ v, peek now k r = Some (v, Some d).

Lemma taken_later (k : string) (d t t' : Z) (r : rstore) : (t ≤ t')%Z → taken k d t r → taken k d t' r.
Proof.
  intros Ht [Hd|[v Hp]]; [left; lia|]. destruct (Z.lt_ge_cases t' d); [|by left].
  right. exists v. rewrite (peek_later t t') by done. rewrite Hp. by rewrite (proj2 (Z.ltb_lt _ _)).
Qed.

(** The calls on a mark's key are marks, and all windows are positive. *)
Definition marks_only (k : string) (x : Entry) : Prop :=
  match call x with
  | SetNxEx _ _ w => (0 < w)%Z
  | RateLimitScript k' w | Expire k' w => (0 < w)%Z ∧ k' ≠ k
  | _ => True
  end.

Lemma taken_step (k : string) (d t : Z) (x : Entry) (r r' : rstore) :
  marks_only k x → redis_step t x r r' → taken k d t r → taken k d t r'.
Proof.
  intros Hm Hs [Hd|[v Hp]]; [by left|]. right. exists v. rewrite <- Hp.
  assert (spares k x ∨ ∃ v w a, x = entry (SetNxEx k v w) a) as [Hsp|(v' & w & a & ->)].
  { destruct x as [e a]. unfold marks_only, spares in *. cbn [call] in *.
    destruct e; try (left; exact I); try (left; exact (proj2 Hm)).
    destruct (decide (key = k)) as [->|]; [right; by eexists _, _, _|by left]. }
  - apply (spares_peek t k x); [|done..]. destruct x as [e a]. unfold marks_only in Hm. cbn [call] in *.
    destruct e; first [exact I|exact (proj1 Hm)|exact Hm].
  - unfold redis_step in Hs. cbn in Hs. rewrite (set_nx_hit _ _ _ _ _ _ Hp) in Hs.
    destruct a; [by injection Hs as <- _|by destruct Hs as [->| ->]].
Qed.

(** A key that was marked is not marked again before it expires. *)
Lemma marks_apart (k v v' : string) (w w' t t' now : Z) (i j : nat) (r : rstore) (tr1 tr2 tr3 : Trace) :
  (0 < w)%Z → Forall (λ y, marks_only k y.2.2) (tr1 ++ (t, (i, entry (SetNxEx k v w) (Ok (Some "OK")))) :: tr2) →
  redis_run now r (tr1 ++ (t, (i, entry (SetNxEx k v w) (Ok (Some "OK")) : Entry)) :: tr2 ++
                   (t', (j, entry (SetNxEx k v' w') (Ok (Some "OK")) : Entry)) :: tr3) →
  (t + 1000 * w ≤ t')%Z.
Proof.
  intros Hw. revert now r. induction tr1 as [|[t0 [i0 x0]] tr1 IH]; intros now r Hall Hrun.
  2: { apply Forall_cons in Hall as [_ Hall]. destruct Hrun as (_ & r' & _ & Hrun). by eapply IH. }
  apply Forall_cons in Hall as [_ Hall]. destruct Hrun as (_ & r1 & Hs & Hrun).
  assert (taken k (t + 1000 * w) t r1) as Htk.
  { unfold redis_step in Hs. cbn in Hs. destruct (peek t k r) as [y|] eqn:Hp.
    - by rewrite (set_nx_hit _ _ _ _ _ _ Hp) in Hs.
    - destruct (set_nx_new t k v w r Hp Hw) as [_ Hn]. rewrite Hs in Hn. simpl in Hn.
      right. exists v. by rewrite Hn, decide_True. }
  revert Htk Hrun. generalize (t + 1000 * w)%Z as d. intros d. clear Hs r now. revert t r1.
  induction tr2 as [|[t0 [i0 x0]] tr2 IH]; intros t r Htk (Ht & r' & Hs & Hrun).
  - apply (taken_later _ _ _ t') in Htk; [|done]. destruct Htk as [?|[v0 Hp]]; [done|].
    unfold redis_step in Hs. cbn in Hs. by rewrite (set_nx_hit _ _ _ _ _ _ Hp) in Hs.
  - apply Forall_cons in Hall as [Hx Hall]. apply (IH Hall t0 r'); [|done].
    eapply taken_step; [exact Hx|exact Hs|]. by eapply taken_later.
Qed.

(** ** Counters

    [budget]: how many more calls before [b] the counter of [k] lets through, when a fresh
    counter started from now on outlives [b]. *)

Definition budget (k : string) (max b t : Z) (r : rstore) : Z :=
  match peek t k r with
  | None => max
  | Some (v, e) =>
      match parse_u64 v with
      | Some n => Z.max 0 (max - n) + (match e with Some d => if (d <? b)%Z then max else 0 | None => 0 end)
      | None => 0
      end
  end.

(** The counter holds a number below the maximum of an [i64], or nothing. *)
Definition counter_ok (k : string) (t : Z) (r : rstore) : Prop :=
  ∀ v e, peek t k r = Some (v, e) → ∃ n, (0 ≤ n ≤ 2 ^ 63 - 1)%Z ∧ v = decimal n.

(** Did the call let a request through? *)
Definition granted (k : string) (max : Z) (x : Entry) : bool :=
  match call x as e return Ans e → bool with
  | RateLimitScript k' _ => λ a,
      match a with Ok (count, _) => bool_decide (k' = k) && (count <=? max)%Z | Err _ => false end
  | _ => λ _, false
  end (reply x).

(** Calls on a counter's key use the same window. *)
Definition counts_only (k : string) (w : Z) (x : Entry) : Prop :=
  match call x with
  | SetNxEx k' _ w' => k' ≠ k ∧ (0 < w')%Z
  | RateLimitScript k' w' | Expire k' w' => (0 < w')%Z ∧ (k' = k → w' = w)
  | _ => True
  end.

Section counting.
Context (k : string) (max a b w : Z) (Hmax : (0 ≤ max)%Z) (Hw : (0 < w)%Z) (Hb : (b ≤ a + 1000 * w)%Z).

Lemma budget_nonneg (t : Z) (r : rstore) : (0 ≤ budget k max b t r)%Z.
Proof. unfold budget. repeat case_match; lia. Qed.

Lemma budget_at (t n : Z) (e : option Z) (r : rstore) :
  (0 ≤ n ≤ 2 ^ 63 - 1)%Z → peek t k r = Some (decimal n, e) →
  budget k max b t r = (Z.max 0 (max - n) + match e with Some d => if d <? b then max else 0 | None => 0 end)%Z.
Proof.
  intros Hn Hp. unfold budget. rewrite Hp, parse_u64_decimal; [done|]. unfold u64_max. lia.
Qed.

Lemma budget_new (t : Z) (r : rstore) : peek t k r = None → budget k max b t r = max.
Proof. intros Hp. unfold budget. by rewrite Hp. Qed.

Lemma counter_later (t t' : Z) (r : rstore) : (t ≤ t')%Z → counter_ok k t r → counter_ok k t' r.
Proof.
  intros Ht Hok v e. rewrite (peek_later t t') by done.
  destruct (peek t k r) as [[v0 [d|]]|] eqn:Hp; [|by intros [= <- <-]; eapply Hok|done].
  destruct (t' <? d)%Z; [|done]. intros [= <- <-]. by eapply Hok.
Qed.

Lemma budget_later (t t' : Z) (r : rstore) :
  (t ≤ t' < b)%Z → counter_ok k t r → (budget k max b t' r ≤ budget k max b t r)%Z.
Proof.
  intros Ht Hok. destruct (peek t k r) as [[v e]|] eqn:Hp.
  - destruct (Hok v e Hp) as (n & Hn & ->). rewrite (budget_at t n e) by done.
    pose proof (peek_later t t' k r ltac:(lia)) as Hl. rewrite Hp in Hl. destruct e as [d|].
    + destruct (t' <? d)%Z eqn:Hd; [by rewrite (budget_at t' n (Some d))|].
      rewrite budget_new by done. rewrite (proj2 (Z.ltb_lt d b)) by lia. lia.
    + by rewrite (budget_at t' n None).
  - rewrite (budget_new t), (budget_new t'); [done| |done]. by rewrite (peek_later t), Hp by lia.
Qed.

(** The effect of a script run, whether or not its answer arrived *)
Lemma script_budget (t : Z) (r : rstore) :
  (a ≤ t)%Z → counter_ok k t r →
  counter_ok k t (RATE_LIMIT_SCRIPT t k w r).1 ∧
  (match (RATE_LIMIT_SCRIPT t k w r).2 with
   | Some (count, _) => if count <=? max then 1 else 0
   | None => 0
   end + budget k max b t (RATE_LIMIT_SCRIPT t k w r).1 ≤ budget k max b t r)%Z.
Proof.
  intros Ht Hok.
  assert (∀ r1 n e, (0 < n ≤ 2 ^ 63 - 1)%Z → peek t k r1 = Some (decimal n, e) →
    let r' := if (n =? 1)%Z then expire t k w r1 else r1 in
    counter_ok k t r' ∧
    (budget k max b t r' ≤ Z.max 0 (max - n) + match e with Some d => if d <? b then max else 0 | None => 0 end)%Z)
    as Hstart.
  { intros r1 n e Hn Hp r'. subst r'. destruct (n =? 1)%Z eqn:H1.
    - pose proof (expire_peek t k k w r1 Hw) as He. rewrite decide_True, Hp in He by done. simpl in He.
      split; [intros v e' Hv; rewrite He in Hv; simplify_eq; exists n; split; [lia|done]|].
      rewrite (budget_at t n (Some (t + 1000 * w)%Z)) by (lia || done).
      rewrite (proj2 (Z.ltb_ge _ b)) by lia. repeat case_match; lia.
    - split; [intros v e' Hv; rewrite Hp in Hv; simplify_eq; exists n; split; [lia|done]|].
      rewrite (budget_at t n e) by (lia || done). done. }
  unfold RATE_LIMIT_SCRIPT. destruct (peek t k r) as [[v e]|] eqn:Hp.
  - destruct (Hok v e Hp) as (n & Hn & ->). rewrite (budget_at t n e r) by done.
    destruct (decide (n = 2 ^ 63 - 1)%Z) as [->|Hne].
    + rewrite (incr_full _ _ _ _ Hp). simpl. split; [done|]. rewrite (budget_at t _ e r) by done. lia.
    + destruct (incr_old t k r n e Hp) as [Hc Hi]; [lia|]. specialize (Hi k). rewrite decide_True in Hi by done.
      destruct (incr t k r) as [r1 c]. simpl in *. subst c. cbn [fst snd].
      destruct (Hstart r1 (n + 1)%Z e ltac:(lia) Hi) as [Hok' Hle]. split; [exact Hok'|].
      destruct (n + 1 <=? max)%Z eqn:Hg; lia.
  - rewrite (budget_new t r) by done. destruct (incr_new t k r Hp) as [Hc Hi]. specialize (Hi k).
    rewrite decide_True in Hi by done. destruct (incr t k r) as [r1 c]. simpl in *. subst c. cbn [fst snd].
    destruct (Hstart r1 1%Z None ltac:(lia) Hi) as [Hok' Hle]. split; [exact Hok'|].
    destruct (1 <=? max)%Z eqn:Hg; lia.
Qed.

Lemma step_budget (t : Z) (x : Entry) (r r' : rstore) :
  (a ≤ t)%Z → counter_ok k t r → counts_only k w x → redis_step t x r r' →
  counter_ok k t r' ∧
  ((if granted k max x then 1 else 0) + budget k max b t r' ≤ budget k max b t r)%Z.
Proof.
  intros Ht Hok Hc Hs.
  assert (spares k x ∧ granted k max x = false ∨ (∃ a, x = entry (RateLimitScript k w) a) ∨
          ∃ a, x = entry (Expire k w) a) as [[Hsp Hg]|[[ans ->]|[ans ->]]].
  { destruct x as [e ans]. unfold counts_only, spares, granted in *. cbn [call reply] in *.
    destruct e; try (left; split; [exact I|reflexivity]).
    - left. split; [exact (proj1 Hc)|done].
    - destruct Hc as [_ Hc]. destruct (decide (key = k)) as [->|Hne].
      + right. left. rewrite (Hc eq_refl) in *. by exists ans.
      + left. split; [done|]. destruct ans as [[c l]|]; [|done]. by rewrite bool_decide_eq_false_2.
    - destruct Hc as [_ Hc]. destruct (decide (key = k)) as [->|Hne].
      + right. right. rewrite (Hc eq_refl) in *. by exists ans.
      + by left. }
  - assert (peek t k r' = peek t k r) as Hp.
    { apply (spares_peek t k x); [|done..]. destruct x as [e ans]. unfold counts_only in Hc. cbn [call] in *.
      destruct e; first [exact I|exact (proj2 Hc)|exact (proj1 Hc)]. }
    unfold counter_ok, budget. rewrite Hg, Hp. split; [done|lia].
  - unfold redis_step, granted, entry in *. cbn [call reply] in *. destruct (script_budget t r Ht Hok) as [Hok' Hle].
    destruct ans as [[c l]|e].
    + rewrite Hs in *. simpl in *. rewrite bool_decide_eq_true_2 by done. by split.
    + cbv beta iota in *. destruct Hs as [->| ->]; [by split; [|lia]|]. split; [done|]. destruct (RATE_LIMIT_SCRIPT t k w r) as [r1 [[c l]|]]; simpl in *; [destruct (c <=? max)%Z|]; lia.
  - unfold redis_step, granted, entry in *. cbn [call reply] in *.
    assert (counter_ok k t (expire t k w r) ∧
            (budget k max b t (expire t k w r) ≤ budget k max b t r)%Z) as [Hok' Hle].
    { pose proof (expire_peek t k k w r Hw) as He. rewrite decide_True in He by done.
      destruct (peek t k r) as [[v e]|] eqn:Hp; simpl in He.
      - destruct (Hok v e Hp) as (n & Hn & ->).
        split; [intros v' e' Hv; rewrite He in Hv; simplify_eq; by exists n|].
        rewrite (budget_at t n e r), (budget_at t n (Some (t + 1000 * w)%Z) (expire t k w r)) by done.
        rewrite (proj2 (Z.ltb_ge _ b)) by lia. repeat case_match; lia.
      - split; [intros v' e' Hv; by rewrite He in Hv|]. by rewrite !budget_new. }
    destruct ans; [by subst r'; split|]. destruct Hs as [->| ->]; [by split; [|lia]|by split].
Qed.

(** The calls of [tr] that let a request through before [b] *)
Definition grants (tr : Trace) : Trace := List.filter (λ y, granted k max y.2.2 && (y.1 <? b)%Z) tr.

Lemma run_times (now : Z) (r : rstore) (tr : Trace) : redis_run now r tr → Forall (λ y, (now ≤ y.1)%Z) tr.
Proof.
  revert now r. induction tr as [|[t [i x]] tr IH]; intros now r; [constructor|].
  intros (Ht & r' & _ & Hrun). constructor; [done|]. eapply Forall_impl; [by apply (IH t r')|].
  simpl. intros y. lia.
Qed.

Lemma grants_bounded (now : Z) (r : rstore) (tr : Trace) :
  (a ≤ now)%Z → counter_ok k now r → Forall (λ y, counts_only k w y.2.2) tr → redis_run now r tr →
  (Z.of_nat (length (grants tr)) ≤ budget k max b now r)%Z.
Proof.
  revert now r. induction tr as [|[t [i x]] tr IH]; intros now r Ha Hok Hall Hrun; [apply budget_nonneg|].
  destruct (Z.lt_ge_cases t b) as [Htb|Htb].
  - destruct Hrun as (Ht & r' & Hs & Hrun). apply Forall_cons in Hall as [Hx Hall].
    apply (counter_later _ t) in Hok as Hokt; [|done].
    destruct (step_budget t x r r') as [Hok' Hle]; [lia|done..|].
    specialize (IH t r' ltac:(lia) Hok' Hall Hrun).
    pose proof (budget_later now t r ltac:(lia) Hok). simpl. rewrite (proj2 (Z.ltb_lt t b)) by done.
    rewrite andb_true_r. destruct (granted k max x); simpl; lia.
  - assert (grants ((t, (i, x)) :: tr) = []) as ->; [|apply budget_nonneg].
    apply run_times in Hrun as Htimes. destruct Hrun as (_ & r' & _ & Hrun). apply run_times in Hrun.
    unfold grants. simpl. rewrite (proj2 (Z.ltb_ge t b)) by done. rewrite andb_false_r.
    clear -Hrun Htb. induction Hrun as [|[t' [i' x']] tr' Ht' _ IH]; [done|]. simpl in *.
    rewrite (proj2 (Z.ltb_ge t' b)) by lia. by rewrite andb_false_r.
Qed.

Lemma budget_twice (t : Z) (r : rstore) : counter_ok k t r → (budget k max b t r ≤ 2 * max)%Z.
Proof.
  intros Hok. unfold budget. destruct (peek t k r) as [[v e]|] eqn:Hp; [|lia].
  destruct (Hok v e Hp) as (n & Hn & ->). rewrite parse_u64_decimal by (unfold u64_max; lia).
  repeat case_match; lia.
Qed.

End counting.

(** The same for the calls from [a] on, wherever the trace starts *)
Lemma grants_between (k : string) (max a b w now : Z) (r : rstore) (tr : Trace) :
  (0 ≤ max)%Z → (0 < w)%Z → (b ≤ a + 1000 * w)%Z → counter_ok k now r →
  Forall (λ y, counts_only k w y.2.2) tr → redis_run now r tr →
  (Z.of_nat (length (List.filter (λ y, (a <=? y.1)%Z) (grants k max b tr))) ≤ 2 * max)%Z.
Proof.
  intros Hmax Hw Hb. revert now r. induction tr as [|[t [i x]] tr IH]; intros now r Hok Hall Hrun; [simpl; lia|].
  destruct (Z.lt_ge_cases t a) as [Hta|Hta].
  - destruct Hrun as (Ht & r' & Hs & Hrun). apply Forall_cons in Hall as [Hx Hall].
    destruct (step_budget k max t t w Hmax Hw ltac:(lia) t x r r') as [Hok' _];
      [lia|by apply (counter_later k now)|done..|].
    specialize (IH t r' Hok' Hall Hrun). unfold grants in *. simpl. destruct (_ && _); simpl; [|done].
    by rewrite (proj2 (Z.leb_gt a t)).
  - destruct Hrun as (Ht & Hrun). pose proof (grants_bounded k max a b w Hmax Hw Hb t r ((t, (i, x)) :: tr)) as Hg.
    transitivity (Z.of_nat (length (grants k max b ((t, (i, x)) :: tr)))).
    { apply inj_le. clear. induction (grants _ _ _ _) as [|y l IH]; simpl; [done|]. case_match; simpl; lia. }
    transitivity (budget k max b t r).
    + apply Hg; [done|by apply (counter_later k now)|done|]. split; [lia|done].
    + apply budget_twice; [done|]. by apply (counter_later k now).
Qed.

End redis.

(** ** Traffic *)

Class UuidLaws `{IdText} := { uuid_no_colon u : string_contains ":" (uuid_to_string u) = false }.

Section traffic.
Context `{AuthLib} `{Sha256} `{IdText} `{!UuidLaws} `{RedisKeys} `{!RedisKeysLaws} (cfg : Config).

Abbreviation Trace := (list (Z * (nat * Entry))) (only parsing).

(** Process [i] handles [requests i]; the trace is some interleaving of their calls. *)
Definition interleaves (requests : nat → BridgeRequest) (tr : Trace) : Prop :=
  ∀ i, ∃ rest, runs (serve cfg (requests i)) (history i (snd <$> tr)) rest.

(** The pods' clocks, in whole seconds, are within [skew] of the Redis server's. *)
Definition clocks (skew : Z) (tr : Trace) : Prop :=
  ∀ t i (now : Z), (t, (i, entry TimestampNow now : Entry)) ∈ tr →
    (1000 * now ≤ t + skew ∧ t - skew < 1000 * (now + 1))%Z.

(** Each request marks its token within [delay] of checking its time. *)
Definition prompt (delay : Z) (tr : Trace) : Prop :=
  ∀ i t t' (now : Z) k v w a, (t, (i, entry TimestampNow now : Entry)) ∈ tr →
    (t', (i, entry (SetNxEx k v w) a : Entry)) ∈ tr → (t' ≤ t + delay)%Z.

(** The relay acted on request [i], for the key [pk] in the community [c]. *)
Definition handled (tr : Trace) (i : nat) (c : CommunityId) (pk : PublicKey) : Prop :=
  ∃ x, x ∈ history i (snd <$> tr) ∧
    match call x with
    | Ingest t _ pk' _ | ExecuteQuery t pk' _ | ExecuteCount t pk' _ => community t = c ∧ pk' = pk
    | _ => False
    end.

Lemma stamped (tr : Trace) (i : nat) (A C : list Entry) (x : Entry) :
  history i (snd <$> tr) = A ++ x :: C →
  ∃ tr1 t tr2, tr = tr1 ++ (t, (i, x)) :: tr2 ∧ history i (snd <$> tr1) = A ∧ history i (snd <$> tr2) = C.
Proof.
  revert A. induction tr as [|[t [j y]] tr IH]; intros A; simpl; [by destruct A|].
  destruct (decide (j = i)) as [->|Hne].
  - rewrite history_cons. destruct A as [|z A].
    + intros [= -> <-]. by exists [], t, tr.
    + intros [= -> (tr1 & t' & tr2 & -> & <- & <-)%IH]. exists ((t, (i, z)) :: tr1), t', tr2.
      split; [done|]. by simpl; rewrite history_cons.
  - unfold history at 1. rewrite filter_cons_False by done. intros (tr1 & t' & tr2 & -> & <- & <-)%IH.
    exists ((t, (j, y)) :: tr1), t', tr2. split; [done|]. split; [|done]. simpl. unfold history.
    by rewrite filter_cons_False.
Qed.

Lemma calls_history (K : Ev → Prop) {A} (p q : Prog A) (h : list Entry) :
  calls K p (λ _, True) → runs p h q → Forall (λ x, K (call x)) h.
Proof.
  intros Hc Hr. assert (wp (λ _ x, K (call x)) p [] (λ a h', True ∧ True)) as Hw.
  { by apply (calls_wp (λ _, True) _ K). }
  destruct (wp_history _ _ _ _ _ Hw Hr) as [Hacc _]. apply Forall_forall. intros x Hx.
  apply list_elem_of_split in Hx as (l1 & l2 & ->). by apply (Hacc l1 x l2).
Qed.

Lemma traffic_calls (requests : nat → BridgeRequest) (tr : Trace) :
  interleaves requests tr → Forall (λ y, bridge_call (call y.2.2)) tr.
Proof.
  intros Hint. apply Forall_forall. intros [t [i x]] (tr1 & tr2 & ->)%list_elem_of_split.
  destruct (Hint i) as [rest Hr]. pose proof (calls_history _ _ _ _ (bridge_serve cfg (requests i)) Hr) as Hall.
  rewrite fmap_app, fmap_cons, history_app in Hall. simpl in Hall. rewrite history_cons in Hall.
  apply Forall_app in Hall as [_ [Hx _]%Forall_cons]. done.
Qed.

Lemma keys_disjoint (c : CommunityId) (pk : PublicKey) (l : LimitType) (c' : CommunityId) (eid : EventId) :
  quota_key c pk l ≠ replay_key (uuid_to_string c') eid.
Proof.
  unfold quota_key, replay_key. intros Heq. apply (f_equal (strip_prefix "buzz:")) in Heq.
  rewrite !strip_prefix_app in Heq. injection Heq as Heq.
  destruct (until_inj ":" (uuid_to_string c) (uuid_to_string c')
              ("ratelimit:" +:+ pk +:+ ":" +:+ key_suffix l) ("nip98:" +:+ eid)) as [_ Heq'];
    [apply uuid_no_colon..|exact Heq|]. discriminate Heq'.
Qed.

Lemma traffic_marks (requests : nat → BridgeRequest) (tr : Trace) (c : CommunityId) (eid : EventId) :
  interleaves requests tr → Forall (λ y, marks_only (replay_key (uuid_to_string c) eid) y.2.2) tr.
Proof.
  intros Hint. eapply Forall_impl; [by apply (traffic_calls requests)|]. intros [t [i [e a]]]. unfold marks_only.
  cbn [call snd]. destruct e; try done.
  - by intros [-> _].
  - intros [-> (c' & pk & ->)]. split; [done|]. apply keys_disjoint.
  - intros [-> (c' & pk & ->)]. split; [done|]. apply keys_disjoint.
Qed.

Lemma traffic_counts (requests : nat → BridgeRequest) (tr : Trace) (c : CommunityId) (pk : PublicKey) :
  interleaves requests tr → Forall (λ y, counts_only (quota_key c pk ApiCalls) 60 y.2.2) tr.
Proof.
  intros Hint. eapply Forall_impl; [by apply (traffic_calls requests)|]. intros [t [i [e a]]]. unfold counts_only.
  cbn [call snd]. destruct e; try done.
  - intros [-> (c' & eid & ->)]. split; [|done]. intros Heq. by apply eq_sym, keys_disjoint in Heq.
  - intros [-> _]. done.
  - intros [-> _]. done.
Qed.

(** What the relay acted on was authorised, somewhere in the request's calls. *)
Lemma handled_authorised (requests : nat → BridgeRequest) (tr : Trace) (i : nat) (c : CommunityId) (pk : PublicKey) :
  interleaves requests tr → handled tr i c pk →
  ∃ t h rest, community t = c ∧ authorised cfg (requests i) t pk h ∧ history i (snd <$> tr) = h ++ rest.
Proof.
  intros Hint (x & (h & rest & Heq)%list_elem_of_split & Hx). destruct (Hint i) as [p Hr].
  destruct (wp_history _ _ _ _ _ (serve_wp cfg (requests i)) Hr) as [Hacc _].
  specialize (Hacc h x rest Heq). unfold acts_authorised in Hacc.
  destruct (call x); try done; destruct Hx as [<- ->], Hacc as [Hacc _]; by exists t, h, (x :: rest).
Qed.

(** ** One token, two requests *)

Lemma presents_unique (headers : gmap string string) (e e' : SignedEvent) :
  presents headers e → presents headers e' → e = e'.
Proof.
  intros (b & j & Hh & Hb & Hj) (b' & j' & Hh' & Hb' & Hj'). rewrite Hh in Hh'. injection Hh' as Hh'. change (b = b') in Hh'. subst b'.
  congruence.
Qed.

Lemma run_order (now t1 t2 : Z) (r : rstore) (p1 p2 : nat * Entry) (tr1 tr2 tr3 : Trace) :
  redis_run now r (tr1 ++ (t1, p1) :: tr2 ++ (t2, p2) :: tr3) → (t1 ≤ t2)%Z.
Proof.
  revert now r. induction tr1 as [|[t0 [i0 x0]] tr1 IH]; intros now r.
  - destruct p1 as [i1 x1]. intros (_ & r1 & _ & Hrun). apply run_times in Hrun.
    apply Forall_app in Hrun as [_ [Ht _]%Forall_cons]. done.
  - intros (_ & r1 & _ & Hrun). by eapply IH.
Qed.

(** The check of a token's time and its mark, in the trace *)
Lemma checked_and_marked (requests : nat → BridgeRequest) (tr : Trace) (i : nat) (c : CommunityId)
    (pk : PublicKey) (e : SignedEvent) (now0 : Z) (r : rstore) :
  interleaves requests tr → redis_run now0 r tr → handled tr i c pk →
  presents (rq_headers (requests i)) e → id e ≠ zero_event_id →
  ∃ t now m, (t, (i, entry TimestampNow now : Entry)) ∈ tr ∧
    (created_at e - 60 ≤ now ≤ created_at e + 60)%Z ∧ (t ≤ m)%Z ∧
    (m, (i, entry (SetNxEx (replay_key (uuid_to_string c) (id e)) "1" 120) (Ok (Some "OK")) : Entry)) ∈ tr.
Proof.
  intros Hint Hrun Hh Hp Hz. destruct (handled_authorised _ _ _ _ _ Hint Hh) as (t & h & rest & <- & Ha & Heq).
  destruct Ha as (sb & sa & sl & sr & sm & sx & eid & url & -> & _ & _ & Hau & _ & Hf & _).
  destruct Hau as [(e' & now & Hp' & _ & <- & Hnow & Hv)|[_ (Hno & _)]].
  2: { destruct Hp as (b & j & Hb & _). rewrite Hb in Hno. cbn in Hno. by rewrite ?strip_prefix_app in Hno. }
  rewrite <- (presents_unique _ _ _ Hp Hp') in *. destruct Hf as [?|Hm]; [done|].
  apply list_elem_of_split in Hnow as (a1 & a2 & ->). apply list_elem_of_split in Hm as (m1 & m2 & ->).
  assert (history i (snd <$> tr) = (sb ++ a1) ++ (entry TimestampNow now : Entry) ::
            ((a2 ++ sl ++ m1) ++ (entry (SetNxEx (replay_key (uuid_to_string (community t)) (id e)) "1" 120)
               (Ok (Some "OK")) : Entry) :: m2 ++ sm ++ sx ++ rest)) as Heq'.
  { rewrite Heq. by repeat (rewrite <- app_assoc || rewrite <- app_comm_cons). }
  apply stamped in Heq' as (tr1 & t1 & tr2 & -> & _ & Heq').
  apply stamped in Heq' as (tr2' & m & tr3 & -> & _ & _).
  exists t1, now, m. split; [set_solver|]. split; [by destruct Hv|].
  split; [by eapply run_order|set_solver].
Qed.


(** ** One principal, many requests *)


End traffic.
