(* ===== verification/ConnectionSpec.v ===== *)
(** * What a WebSocket connection proved before it counts as authenticated

    The theorem about [connection] of [FrontDoor]: the NIP-42 handshake succeeds at most once
    per connection, only for an answer to this connection's challenge by a key that passed the
    ban, allowlist and membership gates, and afterwards every event, subscription and count is
    charged to that key before its handler runs. *)

From S2P Require Import Prelude Text StdText Filter Json Auth NipOa Protocol Access FrontDoor AccessSpec.

Open Scope string_scope.
Open Scope nat_scope.
Open Scope list_scope.

Section connection.
Context `{AuthLib} `{Sha256} `{IdText} (cfg : Config) (tenant : TenantContext) (challenge : string).

Abbreviation c := (community tenant).

Definition not_banned (pk : PublicKey) (h : list Entry) : Prop :=
  ∃ muted, (entry (ModerationRestrictionState c pk) (Ok {| banned := false; muted_until := muted |}) : Entry) ∈ h.

(** The URL of the relay on the host of the tenant *)
Definition relay_of (url : string) : Prop :=
  ∃ scheme, (scheme = "ws" ∨ scheme = "wss") ∧ url = scheme +:+ "://" +:+ host tenant.

(** What [h] shows of [pk], when the connection counts as authenticated by it *)
Definition entitled (pk : PublicKey) (h : list Entry) : Prop :=
  ∃ e now url, author e = pk ∧ relay_of url ∧
    nip42_valid now e challenge url ∧ (entry TimestampNow now : Entry) ∈ h ∧
    not_banned pk h ∧
    (∀ owner, extract_nip_oa_owner pk (extract_auth_tag_json e) = Some owner → not_banned owner h) ∧
    (pubkey_allowlist_enabled cfg = true → (entry (IsPubkeyAllowed c pk) (Ok true) : Entry) ∈ h) ∧
    admissible cfg c pk (extract_auth_tag_json e) h.

(** The keys the connection was authenticated by so far *)
Definition logins (h : list Entry) : list PublicKey :=
  omap (λ x, match call x with SetAuthenticatedPubkey pk => Some pk | _ => None end) h.

(** Since its last action, the connection was charged for [m]. *)
Definition paid (m : ClientMessage) (pk : PublicKey) (h : list Entry) : Prop :=
  ∃ pre s, h = pre ++ s ∧ silent s ∧
    charged tenant pk WsEvents 5 (Z.min (5 * human_ws_events_per_sec (rate_limits cfg)) u64_max) s ∧
    (is_event m = true → ∃ max, charged tenant pk Messages 60 max s ∧
       (max = human_messages_per_min (rate_limits cfg) ∨ max = agent_standard_messages_per_min (rate_limits cfg))).

Definition connection_ok (h : list Entry) (x : Entry) : Prop :=
  match call x with
  | SetAuthenticatedPubkey pk => logins h = [] ∧ entitled pk h
  | Dispatch m => is_limited m = true → ∀ pk, pk ∈ logins h → paid m pk h
  | Ingest _ _ _ _ | ExecuteQuery _ _ _ | ExecuteCount _ _ _ => False
  | _ => True
  end.

Lemma connection_quiet : quiet connection_ok.
Proof. intros h [e r] He. unfold connection_ok. cbn [call] in *. by destruct e. Qed.

Lemma logins_app (h s : list Entry) : logins (h ++ s) = logins h ++ logins s.
Proof. apply omap_app. Qed.

Lemma logins_silent (s : list Entry) : silent s → logins s = [].
Proof. induction 1 as [|[e r] s He _ IH]; [done|]. simpl. by destruct e. Qed.

Lemma logins_later (h s : list Entry) : silent s → logins (h ++ s) = logins h.
Proof. intros Hs. by rewrite logins_app, (logins_silent s), app_nil_r. Qed.

(** ** The state of the connection and its history *)

Definition state_ok (st : AuthState) (h : list Entry) : Prop :=
  match st with
  | Authenticated ctx => logins h = [pubkey ctx]
  | Pending ch => logins h = [] ∧ ch = challenge
  | Failed => logins h = []
  end.

Lemma state_later (st : AuthState) (h s : list Entry) : silent s → state_ok st h → state_ok st (h ++ s).
Proof. intros Hs. unfold state_ok. by rewrite logins_later. Qed.

Abbreviation P := connection_ok.
Abbreviation keeps p h := (wp P p h state_ok).

(** ** Gates of the handshake *)

Lemma ban_state_gate (pk : PublicKey) : gate P (ban_state c pk) (λ o s, o = Clear → not_banned pk s).
Proof.
  unfold ban_state. apply gate_ask; [apply connection_quiet|done|]. intros r. apply gate_ret.
  destruct r as [[[] muted]|]; try done. intros _. exists muted. by left.
Qed.

Lemma not_banned_mono (pk : PublicKey) (h s t : list Entry) : not_banned pk s → not_banned pk (h ++ s ++ t).
Proof. intros [m Hm]. exists m. set_solver. Qed.

Lemma ban_outcome_gate (pk : PublicKey) (tag : option string) :
  gate P (ban_outcome c pk tag) (λ o s, o = Clear → not_banned pk s ∧
    ∀ owner, extract_nip_oa_owner pk tag = Some owner → not_banned owner s).
Proof.
  unfold ban_outcome. eapply gate_bind; [apply ban_state_gate|]. intros o s Hs.
  destruct o; [|by apply gate_ret..]. specialize (Hs eq_refl).
  destruct (extract_nip_oa_owner pk tag) as [owner|].
  - intros h. eapply wp_mono; [|apply ban_state_gate]. intros o h' (u & -> & Hu & HF). exists u.
    split; [done|]. split; [done|]. intros ->. split.
    + rewrite <- (app_nil_l (s ++ u)). by apply not_banned_mono.
    + intros ? [= <-]. rewrite <- (app_nil_r (s ++ u)), <- app_assoc. apply not_banned_mono. by apply HF.
  - apply gate_ret. intros _. rewrite app_nil_r. by split.
Qed.

Lemma send_admission_gate (r : result unit AdmissionError) (sub_id : option string) :
  gate P (send_admission_result r sub_id) (λ b _, b = true → r = Ok tt).
Proof.
  unfold send_admission_result. destruct r as [[]|[]]; [by apply gate_ret|..];
    (apply gate_ask; [apply connection_quiet|done|intros; by apply gate_ret]).
Qed.

Lemma enforce_ws_admission_gate (m : ClientMessage) (ctx : AuthContext) :
  is_limited m = true →
  gate P (enforce_ws_admission cfg tenant m (Authenticated ctx)) (λ b s, b = true →
    charged tenant (pubkey ctx) WsEvents 5 (Z.min (5 * human_ws_events_per_sec (rate_limits cfg)) u64_max) s ∧
    (is_event m = true → ∃ max, charged tenant (pubkey ctx) Messages 60 max s ∧
       (max = human_messages_per_min (rate_limits cfg) ∨ max = agent_standard_messages_per_min (rate_limits cfg)))).
Proof.
  intros Hl. unfold enforce_ws_admission. rewrite Hl. unfold ws_admission_budget, WS_BURST_WINDOW_SECS.
  rewrite Z.mul_comm.
  eapply gate_bind; [apply check_principal_gate, connection_quiet|]. intros r s1 Hc1.
  eapply gate_bind; [apply send_admission_gate|]. intros b s2 Hc2.
  destruct b; cbn [negb]; [|by apply gate_ret]. specialize (Hc1 (Hc2 eq_refl)).
  assert (∀ l w max s t u, charged tenant (pubkey ctx) l w max s →
            charged tenant (pubkey ctx) l w max (t ++ s ++ u)) as Hmono.
  { intros l w max s t u (n & ttl & Hn & Hin). exists n, ttl. split; [done|set_solver]. }
  destruct (is_event m) eqn:He.
  - eapply gate_bind; [apply check_principal_gate, connection_quiet|]. intros r' s3 Hc3.
    intros h. eapply wp_mono; [|apply send_admission_gate]. intros b h' (u & -> & Hu & HF). exists u.
    split; [done|]. split; [done|]. intros ->. split.
    + rewrite <- (app_nil_l (s1 ++ _)). by apply Hmono.
    + intros _. eexists. split.
      * rewrite app_assoc. apply Hmono. by apply Hc3, HF.
      * destruct (agent_owner_pubkey ctx); [by right|by left].
  - apply gate_ret. intros _. split; [|done]. rewrite <- (app_nil_l (s1 ++ _)). by apply Hmono.
Qed.

(** ** The handshake *)

Lemma fail_keeps (event : SignedEvent) (text : string) (h : list Entry) :
  logins h = [] → keeps (fail_auth event text) h.
Proof.
  intros Hl. unfold fail_auth. apply wp_ask. intros r. split; [done|]. simpl. by rewrite logins_later by (by constructor).
Qed.

(** [grant_access] is entered with a verified event whose author is not banned. *)
Lemma grant_access_keeps (event : SignedEvent) (ctx : AuthContext) (now : Z) (url : string) (h : list Entry) :
  logins h = [] → auth_method ctx = Nip42 → pubkey ctx = author event →
  relay_of url → nip42_valid now event challenge url → (entry TimestampNow now : Entry) ∈ h →
  not_banned (pubkey ctx) h →
  (∀ owner, extract_nip_oa_owner (pubkey ctx) (extract_auth_tag_json event) = Some owner → not_banned owner h) →
  keeps (grant_access cfg tenant event ctx (extract_auth_tag_json event)) h.
Proof.
  intros Hl Hm Hpk Hurl Hv Hnow Hb Ho. unfold grant_access. cbn zeta. apply wp_bind.
  eapply wp_mono with (Q := λ b h', ∃ s, h' = h ++ s ∧ silent s ∧
    (b = true → pubkey_allowlist_enabled cfg = true → (entry (IsPubkeyAllowed c (pubkey ctx)) (Ok true) : Entry) ∈ s)).
  2: { destruct (pubkey_allowlist_enabled cfg) eqn:Hal; cbn [andb].
       - rewrite bool_decide_eq_true_2 by done.
         apply (gate_ask P connection_quiet); [done|]. intros r. apply gate_ret. destruct r as [[]|]; try done.
         intros _ _. by left.
       - exists []. rewrite app_nil_r. split; [done|]. by split; [constructor|]. }
  intros allowed h1 (s1 & -> & Hs1 & Hal). destruct allowed; cbn [negb].
  2: { apply fail_keeps. by rewrite logins_later. }
  specialize (Hal eq_refl). apply wp_bind.
  eapply wp_mono; [|apply enforce_relay_membership_gate, connection_quiet].
  intros [o|] h2 (s2 & -> & Hs2 & Hmem); cbn beta iota.
  2: { apply fail_keeps. by rewrite !logins_later. }
  destruct (Hmem o eq_refl) as [Hadm _]. apply wp_bind.
  eapply wp_mono with (Q := λ _ h', ∃ s, h' = ((h ++ s1) ++ s2) ++ s ∧ silent s).
  2: { destruct (match o with Some _ => _ | None => _ end) as [owner|].
       - apply wp_bind. eapply wp_mono; [|apply materialize_gate, connection_quiet].
         intros b h3 (s & -> & Hs & _). by exists s.
       - exists []. rewrite app_nil_r. by split; [|constructor]. }
  intros recorded h3 (s3 & -> & Hs3). apply wp_ask. intros []. split.
  { split; [by rewrite !logins_later|]. exists event, now, url. split_and!; try done.
    - set_solver.
    - destruct Hb as [m Hb]. exists m. set_solver.
    - intros owner Hown. destruct (Ho owner Hown) as [m Hb']. exists m. set_solver.
    - intros Ha. specialize (Hal Ha). set_solver.
    - destruct Hadm as [?|[Hin|(owner & Hoa & Htag & Hin)]]; [by left|right; left|right; right].
      + unfold is_member in *. set_solver.
      + exists owner. split; [done|]. split; [done|]. unfold is_member in *. set_solver. }
  apply wp_ask. intros r. split; [done|]. simpl. rewrite !logins_app, !(logins_silent s1), !(logins_silent s2),
    !(logins_silent s3), Hl by done. done.
Qed.

Lemma handle_auth_keeps (event : SignedEvent) (st : AuthState) (h : list Entry) :
  state_ok st h → keeps (handle_auth cfg tenant event st) h.
Proof.
  intros Hst. unfold handle_auth.
  destruct st as [ch|ctx|]; [|apply wp_ask; intros r; split; [done|]; apply state_later; [by constructor|done]..].
  destruct Hst as [Hl ->]. cbn zeta. apply wp_ask. intros join. split; [done|]. apply wp_ask. intros now.
  split; [done|].
  assert (logins ((h ++ [entry JoinVerify join]) ++ [entry TimestampNow now]) = []) as Hl'
    by (by rewrite !logins_later by (by repeat constructor)).
  destruct (verify_auth_event _ _ _ _ _) as [ctx|] eqn:Hv; [|by apply fail_keeps].
  unfold verify_auth_event in Hv. destruct join as [[]|]; [|done].
  destruct (verify_nip42_event _ _ _ _) as [[]|] eqn:Hn; [|done]. injection Hv as <-.
  apply verify_nip42_exact in Hn. cbn [pubkey]. apply wp_bind. eapply wp_mono; [|apply ban_outcome_gate].
  intros o h' (s & -> & Hs & HF). cbn beta.
  destruct o; cbn [denial].
  - destruct (HF eq_refl) as [Hb Ho].
    eapply (grant_access_keeps event _ now _); [by rewrite logins_later|done|done| |exact Hn|set_solver| |].
    + unfold relay_of, nip42_expected_relay_url. case_match; eexists; split; [by right|done|by left|done].
    + destruct Hb as [m Hb]. exists m. set_solver.
    + intros owner Hown. destruct (Ho owner Hown) as [m Hm]. exists m. set_solver.
  - apply wp_ask. intros r. split; [done|]. apply wp_ask. intros r'. split; [done|]. simpl.
    by rewrite !logins_later by (by repeat constructor).
  - apply wp_ask. intros r. split; [done|]. apply wp_ask. intros r'. split; [done|]. simpl.
    by rewrite !logins_later by (by repeat constructor).
Qed.

(** ** The frames *)

(** Dispatching [m] when it was admitted in the state [st]: nothing acted in between. *)
Lemma dispatch_ok (m : ClientMessage) (st : AuthState) (h s : list Entry) :
  state_ok st h → silent s →
  (is_limited m = true → ∀ ctx, st = Authenticated ctx → paid m (pubkey ctx) (h ++ s)) →
  connection_ok (h ++ s) (entry (Dispatch m) tt).
Proof.
  intros Hst Hs Hp Hl pk. rewrite logins_later by done. destruct st as [ch|ctx|]; simpl in Hst.
  - destruct Hst as [-> _]. by intros Hin%elem_of_nil.
  - rewrite Hst. intros ->%list_elem_of_singleton. by apply Hp.
  - rewrite Hst. by intros Hin%elem_of_nil.
Qed.

Lemma with_permit_keeps (m : ClientMessage) (st : AuthState) (h s : list Entry) :
  state_ok st h → silent s →
  (is_limited m = true → ∀ ctx u, silent u → st = Authenticated ctx → paid m (pubkey ctx) (h ++ s ++ u)) →
  keeps (_ <-* with_permit m ;; Ret st) (h ++ s).
Proof.
  intros Hst Hs Hp. unfold with_permit. apply wp_bind. apply wp_ask. intros permit. split; [done|].
  rewrite <- app_assoc. assert (silent (s ++ [entry TryAcquireHandler permit])) as Hs'
    by (apply Forall_app; by split; [|repeat constructor]).
  destruct permit.
  - apply wp_ask. intros []. split.
    + eapply dispatch_ok; [exact Hst|done|]. intros Hl ctx Heq. rewrite <- app_assoc || idtac.
      apply Hp; [done|by repeat constructor|done].
    + simpl. unfold state_ok. rewrite (logins_app (h ++ _)), logins_later, app_nil_r by done. exact Hst.
  - apply wp_ask. intros r. split; [done|]. simpl. rewrite <- app_assoc.
    apply state_later; [|done]. apply Forall_app. by split; [|repeat constructor].
Qed.

Lemma handle_text_message_keeps (text : string) (st : AuthState) (h : list Entry) :
  state_ok st h → keeps (handle_text_message cfg tenant text st) h.
Proof.
  intros Hst. unfold handle_text_message. destruct (parse text) as [m|e].
  2: { apply wp_ask. intros r. split; [done|]. apply state_later; [by repeat constructor|done]. }
  apply wp_bind.
  eapply wp_mono with (Q := λ b h', ∃ s, h' = h ++ s ∧ silent s ∧
    (b = true → is_limited m = true → ∀ ctx u, silent u → st = Authenticated ctx →
       paid m (pubkey ctx) (h ++ s ++ u))).
  - intros b h' (s & -> & Hs & Hp). destruct b; cbn [negb]; [|by apply state_later]. specialize (Hp eq_refl).
    destruct m as [e|sub fs|sub|sub fs|e]; try (by eapply with_permit_keeps).
    + apply wp_ask. intros []. split; [by intros ?|]. simpl. unfold state_ok.
      rewrite (logins_app (h ++ _)), logins_later, app_nil_r by done. exact Hst.
    + apply handle_auth_keeps. by apply state_later.
  - destruct (is_limited m) eqn:Hl.
    + destruct st as [ch|ctx|].
      * unfold enforce_ws_admission. rewrite Hl. exists []. rewrite app_nil_r. by split_and!; [|constructor|].
      * eapply wp_mono; [|by apply enforce_ws_admission_gate]. intros b h' (s & -> & Hs & HF).
        exists s. split; [done|]. split; [done|]. intros -> _ ? u Hu [= <-].
        destruct (HF eq_refl) as [Hc He]. exists h, (s ++ u). split; [done|]. split; [by apply Forall_app|].
        assert (∀ l w max, charged tenant (pubkey ctx) l w max s → charged tenant (pubkey ctx) l w max (s ++ u)) as Hm.
        { intros l w max (n & ttl & Hn & Hin). exists n, ttl. split; [done|set_solver]. }
        split; [by apply Hm|]. intros Hev. destruct (He Hev) as (max & Hch & Hmax). exists max.
        split; [by apply Hm|done].
      * unfold enforce_ws_admission. rewrite Hl. exists []. rewrite app_nil_r. by split_and!; [|constructor|].
    + unfold enforce_ws_admission. rewrite Hl. exists []. rewrite app_nil_r. by split_and!; [|constructor|].
Qed.

Lemma recv_loop_keeps (frames : list Frame) (st : AuthState) (h : list Entry) :
  state_ok st h → keeps (recv_loop cfg tenant frames st) h.
Proof.
  revert st h. induction frames as [|frame frames IH]; intros st h Hst; [exact Hst|].
  destruct frame as [text|bytes| |data| |]; cbn [recv_loop]; cbn zeta; [..|exact Hst|exact Hst].
  - destruct (_ <? _)%Z.
    + apply wp_ask. intros r. split; [done|]. apply state_later; [by repeat constructor|done].
    + apply wp_bind. eapply wp_mono; [|by apply handle_text_message_keeps]. intros st' h'. apply IH.
  - destruct (_ <? _)%Z.
    + apply wp_ask. intros r. split; [done|]. apply state_later; [by repeat constructor|done].
    + apply wp_bind. destruct (is_utf8 bytes).
      * eapply wp_mono; [|by apply handle_text_message_keeps]. intros st' h'. apply IH.
      * by apply IH.
  - apply wp_ask. intros []. split; [done|]. apply IH, state_later; [by repeat constructor|done].
  - apply wp_ask. intros sent. split; [done|]. assert (state_ok st (h ++ [entry (SendPong data) sent])) as Hst'
      by (apply state_later; [by repeat constructor|done]).
    destruct sent; [by apply IH|exact Hst'].
Qed.

Lemma connection_keeps (frames : list Frame) : keeps (connection cfg tenant challenge frames) [].
Proof. apply wp_ask. intros []; (split; [done|]); [apply recv_loop_keeps|]; by split. Qed.

(** C8 A connection is authenticated at most once, by a key that answered this connection's
    challenge for this tenant's host within a minute of the clock, is not banned, has no banned
    proven owner, is on the allowlist where there is one, and is a member or vouched for by one
    where membership is required. From then on every event, subscription and count frame is
    charged to that key, within its limits, before its handler runs. *)
Theorem connection_authorised (frames : list Frame) (h : list Entry) (rest : Prog AuthState) :
  runs (connection cfg tenant challenge frames) h rest →
  (∀ before x after, h = before ++ x :: after →
     match call x with
     | SetAuthenticatedPubkey pk => logins before = [] ∧ entitled pk before
     | Dispatch m => is_limited m = true → ∀ pk, pk ∈ logins before → paid m pk before
     | Ingest _ _ _ _ | ExecuteQuery _ _ _ | ExecuteCount _ _ _ => False
     | _ => True
     end) ∧
  (∀ st, rest = Ret st → logins h = match st with Authenticated ctx => [pubkey ctx] | _ => [] end).
Proof.
  intros Hr. destruct (wp_history _ _ _ _ _ (connection_keeps frames) Hr) as [Hacc Hend]. split.
  - intros before x after ->. exact (Hacc before x after eq_refl).
  - intros st Hst. specialize (Hend st Hst). destruct st; [by destruct Hend|exact Hend..].
Qed.

End connection.
