(* ===== verification/AccessExamples.v ===== *)
(** * A concrete front door

    Instances of the classes of [Auth], [Access] and [AccessRedis], a Redis that obeys the
    laws, the witnesses of the theorems about the front door, and runs that show what the code
    does not keep: one token acted on twice, a payload tag that covers no body, an expired
    attestation that admits, a host that is normalised twice. *)

From S2P Require Import Prelude Text StdText Filter Json Auth NipOa Protocol Access FrontDoor AccessSpec AccessRedis ConnectionSpec.

Open Scope string_scope.
Open Scope nat_scope.
Open Scope list_scope.

Module Toy.

(** ** Redis *)

Abbreviation store := (gmap string (string * option Z)).

Definition toy_peek (t : Z) (k : string) (r : store) : option (string * option Z) :=
  match r !! k with
  | Some (v, Some d) => if (t <? d)%Z then Some (v, Some d) else None
  | x => x
  end.

#[export] Instance redis : RedisKeys := {|
  rstore := store;
  peek := toy_peek;
  set_nx_ex := λ t k v s r,
    match toy_peek t k r with
    | Some _ => (r, None)
    | None => (<[k := (v, Some (t + 1000 * s)%Z)]> r, Some "OK")
    end;
  incr := λ t k r,
    match toy_peek t k r with
    | None => (<[k := (decimal 1, None)]> r, Some 1%Z)
    | Some (v, e) =>
        match parse_u64 v with
        | Some n => if (n <? 2 ^ 63 - 1)%Z then (<[k := (decimal (n + 1), e)]> r, Some (n + 1)%Z) else (r, None)
        | None => (r, None)
        end
    end;
  expire := λ t k s r,
    match toy_peek t k r with Some (v, _) => <[k := (v, Some (t + 1000 * s)%Z)]> r | None => r end;
  ttl := λ t k r,
    match toy_peek t k r with
    | None => (-2)%Z
    | Some (_, None) => (-1)%Z
    | Some (_, Some d) => ((d - t + 500) / 1000)%Z
    end
|}.

Lemma toy_insert_ne (t : Z) (k k' : string) (x : string * option Z) (r : store) :
  k ≠ k' → toy_peek t k' (<[k := x]> r) = toy_peek t k' r.
Proof. intros Hne. unfold toy_peek. by rewrite lookup_insert_ne. Qed.

Lemma toy_insert (t : Z) (k v : string) (e : option Z) (r : store) :
  (∀ d, e = Some d → (t < d)%Z) → toy_peek t k (<[k := (v, e)]> r) = Some (v, e).
Proof.
  intros He. unfold toy_peek. rewrite lookup_insert_eq. destruct e as [d|]; [|done].
  by rewrite (proj2 (Z.ltb_lt _ _)) by (by apply He).
Qed.

Lemma toy_alive (t : Z) (k v : string) (e : option Z) (r : store) :
  toy_peek t k r = Some (v, e) → ∀ d, e = Some d → (t < d)%Z.
Proof.
  unfold toy_peek. destruct (r !! k) as [[v' [d'|]]|]; [|by intros [= _ <-] ?|done].
  destruct (t <? d')%Z eqn:Hd; [|done]. intros [= _ <-] d [= <-]. by apply Z.ltb_lt.
Qed.

#[export] Instance laws : RedisKeysLaws.
Proof.
  split; cbn [peek set_nx_ex incr expire ttl redis rstore].
  - intros t t' k r Ht. unfold toy_peek. destruct (r !! k) as [[v [d|]]|]; [|done..].
    destruct (t <? d)%Z eqn:Hd; [done|]. by rewrite (proj2 (Z.ltb_ge t' d)) by lia.
  - by intros t k v s r x ->.
  - intros t k v s r -> Hs. split; [done|]. intros k'. simpl. case_decide as Hk; [subst k'|by apply toy_insert_ne].
    apply toy_insert. intros d [= <-]. lia.
  - intros t k r ->. split; [done|]. intros k'. simpl. case_decide as Hk; [subst k'|by apply toy_insert_ne].
    by apply toy_insert.
  - intros t k r n e Hp Hn. rewrite Hp, parse_u64_decimal by (unfold u64_max; lia).
    rewrite (proj2 (Z.ltb_lt _ _)) by lia. split; [done|]. intros k'. simpl.
    case_decide as Hk; [subst k'|by apply toy_insert_ne]. apply toy_insert. by eapply toy_alive.
  - intros t k k' r Hne. repeat case_match; simpl; try done; by apply toy_insert_ne.
  - intros t k r e Hp. rewrite Hp, parse_u64_decimal by (unfold u64_max; lia). done.
  - intros t k k' s r Hs. destruct (toy_peek t k r) as [[v e]|] eqn:Hp; case_decide as Hk; try subst k'; simpl.
    + apply toy_insert. intros d [= <-]. lia.
    + by apply toy_insert_ne.
    + done.
    + done.
  - by intros t k r v ->.
  - intros t k r v d Hp. rewrite Hp. pose proof (toy_alive _ _ _ _ _ Hp d eq_refl).
    apply Z.div_pos; lia.
Qed.

(** ** The libraries: one token, one event, and URLs that are their own texts *)

Definition url : string := "https://relay.example/events".

Definition token : SignedEvent := {|
  id := "aa"; author := "alice"; created_at := 60; kind := 27235%N;
  tags := [["u"; url]; ["method"; "POST"]; ["payload"; "note"]]; content := "aa"; sig := "" |}.

(** A token whose payload tag has no value *)
Definition bare_token : SignedEvent := {|
  id := "ab"; author := "alice"; created_at := 60; kind := 27235%N;
  tags := [["u"; url]; ["method"; "POST"]; ["payload"]]; content := "ab"; sig := "" |}.

Definition note : SignedEvent := {|
  id := "bb"; author := "alice"; created_at := 60; kind := 1%N; tags := []; content := "bb"; sig := "" |}.

Definition login : SignedEvent := {|
  id := "cc"; author := "alice"; created_at := 60; kind := 22242%N;
  tags := [["challenge"; "c"]; ["relay"; "wss://relay.example"]]; content := "cc"; sig := "" |}.

(** The login of an agent whose attestation ended long ago *)
Definition expired : list string := ["auth"; "owner"; "created_at<1"; "signed"].

Definition agent_login : SignedEvent := {|
  id := "dd"; author := "agent"; created_at := 60; kind := 22242%N;
  tags := [["challenge"; "c"]; ["relay"; "wss://relay.example"]; expired]; content := "dd"; sig := "" |}.

Definition is_string (v : Json) : bool := match v with JString _ => true | _ => false end.

#[export] Instance lib : AuthLib := {|
  event_from_json := λ s, if decide (s = "token") then Ok token
                          else if decide (s = "bare") then Ok bare_token
                          else if decide (s = "note") then Ok note else Err "expected value";
  EventId_new := λ _ _ _ _ c, c;
  verify_signature := λ _, true;
  public_key_from_hex := Some;
  Url := string;
  Url_parse := Some;
  url_path := λ _, "";
  url_set_path := λ _ u, u;
  url_host_str := λ _, None;
  url_set_host := λ _ u, u;
  url_host := λ u, Some (Domain u);
  url_port := λ _, None;
  url_to_string := λ u, u;
  to_lowercase := λ s, s;
  debug_str := λ s, quote +:+ s +:+ quote;
  base64_decode := Some;
  value_from_str := λ s, if decide (s = "auth") then Ok (JArray [JString "AUTH"; JNull])
                         else if decide (s = "agent") then Ok (JArray [JString "AUTH"; JString "agent"])
                         else if decide (s = "tag") then Ok (JArray (map JString expired))
                         else Err "expected value";
  event_from_value := λ v, Ok (if is_string v then agent_login else login);
  filter_from_value := λ _, Err "invalid type";
  value_to_string := λ v, match v with
                          | JArray (JString s :: _) => if decide (s = "auth") then "tag" else s
                          | _ => ""
                          end;
  signature_from_str := Some;
  xonly := Some;
  verify_schnorr := λ sig _ _, bool_decide (sig = "signed")
|}.

#[export] Instance sha : Sha256 := {| sha256_hex := λ s, s |}.

#[export] Instance texts : IdText := {|
  uuid_to_string := λ u, decimal (Z.of_N u);
  hex_decode := λ _, None |}.

#[export] Instance uuid_laws : UuidLaws.
Proof. split. intros u. apply decimal_contains; [lia|done]. Qed.

Definition config : Config := {|
  relay_url := "wss://relay.example";
  require_auth_token := true;
  pubkey_allowlist_enabled := true;
  require_relay_membership := true;
  allow_nip_oa_auth := false;
  relay_operator_api_origin := None;
  relay_operator_pubkeys := [];
  max_frame_bytes := 65536;
  rate_limits := default_limits |}.

Definition headers : gmap string string :=
  <["host" := "Relay.Example:443"]> {["authorization" := "Nostr token"]}.

Definition bare_headers : gmap string string :=
  <["host" := "Relay.Example:443"]> {["authorization" := "Nostr bare"]}.

(** ** What a quiet environment answers at second [now] *)

Definition answers (now : Z) (e : Ev) : Ans e :=
  match e return Ans e with
  | LookupCommunityByHost _ => Ok (Some 7%N)
  | IsRelayMember _ _ | IsPubkeyAllowed _ _ => Ok true
  | GetRelayMemberRole _ _ | GetMemberRole _ _ _ => Ok None
  | ModerationRestrictionState _ _ => Ok {| banned := false; muted_until := None |}
  | EnsureUser _ _ | SetAgentOwner _ _ _ | IsAgentOwner _ _ _ => Ok true
  | GetWorkflow _ _ => WorkflowNotFound
  | AccessibleChannelIds _ _ => Ok []
  | RedisPool | Expire _ _ => Ok tt
  | SetNxEx _ _ _ => Ok (Some "OK")
  | RateLimitScript _ _ => Ok (1, 60)%Z
  | TimestampNow => now
  | JoinVerify => Some tt
  | CacheAuthorType _ _ | CacheObserverOwner _ _ _ | SetAuthenticatedPubkey _ => tt
  | TryAcquireHandler | Send _ | SendControl _ | SendPong _ => true
  | ResetMissedPongs | CancelConnection | Dispatch _ => tt
  | Ingest _ _ _ _ => Ok {| r_event_id := "bb"; r_accepted := true; r_message := "" |}
  | ExecuteQuery _ _ _ | ExecuteCount _ _ _ => Ok JNull
  end.

Definition request : BridgeRequest := {| route := Events; rq_headers := headers; rq_body := "note" |}.

(** The relay of a community, and a connection that logs in *)
Definition tenant : TenantContext := {| community := 7%N; host := "relay.example" |}.

Definition session : list Entry := (play (answers 0) 40 (connection config tenant "c" [TextFrame "auth"])).1.

Lemma session_run : runs (connection config tenant "c" [TextFrame "auth"]) session
  (play (answers 0) 40 (connection config tenant "c" [TextFrame "auth"])).2.
Proof. apply play_runs. Qed.

(** A closed relay that admits the agents of its members; only [owner] is a member. *)
Definition closed_config : Config := {|
  relay_url := "wss://relay.example";
  require_auth_token := true;
  pubkey_allowlist_enabled := false;
  require_relay_membership := true;
  allow_nip_oa_auth := true;
  relay_operator_api_origin := None;
  relay_operator_pubkeys := [];
  max_frame_bytes := 65536;
  rate_limits := default_limits |}.

Definition agent_answers (e : Ev) : Ans e :=
  match e return Ans e → Ans e with
  | IsRelayMember _ pk => λ _, Ok (bool_decide (pk = "owner"))
  | _ => λ a, a
  end (answers 0 e).

Definition agent_session : list Entry * Prog AuthState :=
  play agent_answers 40 (connection closed_config tenant "c" [TextFrame "agent"]).

(** The invite endpoint, behind the same URL *)
Definition invite_calls : list Entry := (play (answers 0) 20 (invite_authenticate config headers "/events" "note")).1.

Definition calls_at (now : Z) : list Entry := (play (answers now) 20 (serve config request)).1.

Lemma calls_run (now : Z) : runs (serve config request) (calls_at now) (play (answers now) 20 (serve config request)).2.
Proof. apply play_runs. Qed.

(** The token is stamped a minute ahead. It is first used in the first second at which it is
    valid, and again in the last, when its mark has just expired. *)
Definition trace : list (Z * (nat * Entry)) :=
  ((λ x, (0%Z, (0, x))) <$> calls_at 0) ++ ((λ x, (120500%Z, (1, x))) <$> calls_at 120).

End Toy.

Import Toy.

Lemma history_stamped (i j : nat) (t : Z) (l : list Entry) :
  history i (snd <$> ((λ x, (t, (j, x))) <$> l)) = if decide (i = j) then l else [].
Proof.
  induction l as [|x l IH]; [by case_decide|]. rewrite !fmap_cons. cbn [snd].
  destruct (decide (i = j)) as [->|Hne].
  - by rewrite history_cons, IH.
  - rewrite <- IH. unfold history at 1. rewrite filter_cons_False; [done|]. simpl. congruence.
Qed.

Lemma toy_interleaves : interleaves config (λ _, request) trace.
Proof.
  intros i. unfold trace. rewrite fmap_app, history_app, !history_stamped.
  destruct (decide (i = 0)) as [->|H0]; [|destruct (decide (i = 1)) as [->|H1]].
  - rewrite decide_False, app_nil_r by done. eexists. apply calls_run.
  - eexists. apply calls_run.
  - by exists (serve config request).
Qed.

(** Does the store answer the way the call was answered? *)
Definition toy_step (t : Z) (x : Entry) (r : store) : option store :=
  match call x as e return Ans e → option store with
  | SetNxEx k v s => λ a,
      match a with
      | Ok o => if decide ((set_nx_ex t k v s r).2 = o) then Some (set_nx_ex t k v s r).1 else None
      | Err _ => Some r
      end
  | RateLimitScript k w => λ a,
      match a with
      | Ok c => if decide ((RATE_LIMIT_SCRIPT t k w r).2 = Some c) then Some (RATE_LIMIT_SCRIPT t k w r).1 else None
      | Err _ => Some r
      end
  | Expire k w => λ a, match a with Ok _ => Some (expire t k w r) | Err _ => Some r end
  | _ => λ _, Some r
  end (reply x).

Lemma toy_step_ok (t : Z) (x : Entry) (r r' : store) : toy_step t x r = Some r' → redis_step t x r r'.
Proof.
  destruct x as [e a]. unfold toy_step, redis_step. cbn [call reply].
  destruct e; try (by intros [= <-]).
  - destruct a as [o|]; [|by intros [= <-]; left]. case_decide as Ho; [|done]. intros [= <-].
    rewrite <- Ho. apply surjective_pairing.
  - destruct a as [o|]; [|by intros [= <-]; left]. case_decide as Ho; [|done]. intros [= <-].
    rewrite <- Ho. apply surjective_pairing.
  - destruct a; [by intros [= <-]|by intros [= <-]; left].
Qed.

Fixpoint toy_run (now : Z) (r : store) (tr : list (Z * (nat * Entry))) : bool :=
  match tr with
  | [] => true
  | (t, (_, x)) :: tr =>
      (now <=? t)%Z && match toy_step t x r with Some r' => toy_run t r' tr | None => false end
  end.

Lemma toy_run_ok (now : Z) (r : store) (tr : list (Z * (nat * Entry))) :
  toy_run now r tr = true → redis_run now r tr.
Proof.
  revert now r. induction tr as [|[t [i x]] tr IH]; intros now r; [done|]. simpl.
  intros [Ht%Z.leb_le Hx]%andb_true_iff. split; [done|].
  destruct (toy_step t x r) as [r'|] eqn:Hs; [|done]. exists r'. split; [by apply toy_step_ok|by apply IH].
Qed.

Definition no_keys : @rstore redis := (∅ : store).

Lemma toy_redis : redis_run 0 no_keys trace.
Proof. apply toy_run_ok. vm_compute. reflexivity. Qed.

(** The stamped calls of the trace *)
Lemma toy_calls (t : Z) (i : nat) (x : Entry) :
  (t, (i, x)) ∈ trace → (t = 0%Z ∧ i = 0 ∧ x ∈ calls_at 0) ∨ (t = 120500%Z ∧ i = 1 ∧ x ∈ calls_at 120).
Proof.
  unfold trace. intros [(y & [= -> -> ->] & Hy)%list_elem_of_fmap|(y & [= -> -> ->] & Hy)%list_elem_of_fmap]%elem_of_app;
    [by left|by right].
Qed.

Lemma play_replies {A} (r : ∀ e, Ans e) (n : nat) (p : Prog A) (x : Entry) :
  x ∈ (play r n p).1 → reply x = r (call x).
Proof.
  revert p. induction n as [|n IH]; intros p; [by intros Hx%elem_of_nil|].
  destruct p as [a|e k]; simpl; [by intros Hx%elem_of_nil|].
  specialize (IH (k (r e))). destruct (play r n (k (r e))) as [h q]. simpl in *.
  by intros [->|Hx]%elem_of_cons; [|apply IH].
Qed.

Lemma toy_clock (n now : Z) : (entry TimestampNow now : Entry) ∈ calls_at n → now = n.
Proof. intros Hx%play_replies. exact Hx. Qed.

Lemma toy_clocks : clocks 0 trace.
Proof.
  intros t i now [(-> & -> & Hx%toy_clock)|(-> & -> & Hx%toy_clock)]%toy_calls; subst; lia.
Qed.

Lemma toy_prompt : prompt 0 trace.
Proof.
  intros i t t' now k v w a [(-> & -> & _)|(-> & -> & _)]%toy_calls
    [(-> & ? & _)|(-> & ? & _)]%toy_calls; done || lia.
Qed.

Lemma toy_handled (n : Z) (i : nat) :
  (n = 0%Z ∨ n = 120%Z) → history i (snd <$> trace) = calls_at n → handled trace i 7 "alice".
Proof.
  intros Hn Hh. exists (entry (Ingest {| community := 7%N; host := "relay.example" |} note "alice" all_known)
            (Ok {| r_event_id := "bb"; r_accepted := true; r_message := "" |})).
  split; [|done]. rewrite Hh. apply (list_elem_of_lookup_2 _ 7).
  by destruct Hn as [->| ->]; vm_compute.
Qed.

Lemma toy_history0 : history 0 (snd <$> trace) = calls_at 0.
Proof. unfold trace. by rewrite fmap_app, history_app, !history_stamped, app_nil_r. Qed.

Lemma toy_history1 : history 1 (snd <$> trace) = calls_at 120.
Proof. unfold trace. by rewrite fmap_app, history_app, !history_stamped. Qed.

Lemma toy_presents : presents headers token.
Proof. by exists "token", "token". Qed.

(** A mark lives 120 seconds, but a token is accepted in 121 different seconds: with clocks
    that agree and no delay at all, one token is acted on twice. *)
Theorem replay_in_the_last_second :
  interleaves config (λ _, request) trace ∧ redis_run 0 no_keys trace ∧ clocks 0 trace ∧ prompt 0 trace ∧
  handled trace 0 7 "alice" ∧ handled trace 1 7 "alice" ∧ presents headers token.
Proof.
  split_and!; [apply toy_interleaves|apply toy_redis|apply toy_clocks|apply toy_prompt| | |apply toy_presents].
  - apply (toy_handled 0); [by left|apply toy_history0].
  - apply (toy_handled 120); [by right|apply toy_history1].
Qed.



Lemma bridge_authorised_witness :
  authorised config request {| community := 7%N; host := "relay.example" |} "alice" (take 7 (calls_at 0)) ∧
  event_from_json "note" = Ok note.
Proof.
  exact (bridge_authorised config request (calls_at 0) (take 7 (calls_at 0)) (drop 8 (calls_at 0))
    (entry (Ingest {| community := 7%N; host := "relay.example" |} note "alice" all_known)
       (Ok {| r_event_id := "bb"; r_accepted := true; r_message := "" |}))
    _ (calls_run 0) eq_refl).
Defined.

Lemma connection_authorised_witness :
  logins (take 6 session) = [] ∧ entitled config tenant "c" "alice" (take 6 session).
Proof.
  exact (proj1 (connection_authorised config tenant "c" [TextFrame "auth"] session _ session_run)
    (take 6 session) (entry (SetAuthenticatedPubkey "alice") tt) (drop 7 session) eq_refl).
Defined.

Lemma invite_run : runs (invite_authenticate config headers "/events" "note") invite_calls (Ret (Ok (tenant, "alice"))).
Proof. exact (play_runs (answers 0) 20 (invite_authenticate config headers "/events" "note")). Qed.

Lemma privileged_authorised_witness : invited headers "/events" "note" tenant "alice" invite_calls.
Proof.
  exact (proj1 (privileged_authorised config headers "POST" "/events" "note" None None 0%N invite_calls)
    tenant "alice" invite_run).
Defined.

(** The invite and operator doors ask for a payload tag, and a tag without a value will do:
    the token then covers no body, and any body goes with it. *)
Theorem bare_payload_tag_covers_nothing (body : string) :
  runs (invite_authenticate config bare_headers "/events" body)
    (play (answers 0) 20 (invite_authenticate config bare_headers "/events" body)).1 (Ret (Ok (tenant, "alice"))).
Proof. exact (play_runs (answers 0) 20 (invite_authenticate config bare_headers "/events" body)). Qed.

(** A trailing dot hides the port that a second normalisation would strip. *)
Theorem normalize_host_not_idempotent :
  normalize_host "relay.example:443." = "relay.example:443" ∧
  normalize_host "relay.example:443" = "relay.example".
Proof. by vm_compute. Qed.

(** The conditions of an attestation are checked for their form, and never against the event:
    an agent whose attestation is for events created before second 1 is admitted by it at
    second 60. *)
Theorem expired_attestation_admits :
  expired ∈ tags agent_login ∧ created_at agent_login = 60%Z ∧
  runs (connection closed_config tenant "c" [TextFrame "agent"]) agent_session.1 agent_session.2 ∧
  logins agent_session.1 = ["agent"] ∧
  (entry (IsRelayMember 7%N "agent") (Ok false) : Entry) ∈ agent_session.1.
Proof.
  split_and!; [set_solver|done|apply play_runs|by vm_compute|].
  apply (list_elem_of_lookup_2 _ 5). by vm_compute.
Qed.
