(* ===== verification/KubeConfig.v ===== *)
(** * What a deploy asks for (buzz-backend-kubernetes)

    The inputs of the Kubernetes provider and what it derives from them, before any cluster
    is contacted: the identity and the names it implies (naming.rs), the image reference
    (image.rs), [provider_config] (config.rs), the environment of the pod (env.rs) and the
    create intent (intent.rs). A [BTreeMap] is a [gmap]; its keys are walked in order. *)

From S2P Require Import Prelude Text StdText Json.

Open Scope string_scope.
Open Scope nat_scope.
Open Scope list_scope.

(** The libraries the provider calls: [Debug] of a string, [Display] of a JSON value, the
    decoding of an nsec key and the public key it gives (nostr), and the JSON text of an
    intent template is further down. *)
Class KubeText := {
  debug_str : string → string;
  value_text : Json → string;
  nsec_public_key : string → option string
}.

(** ** naming.rs *)

Definition MANAGED_BY : string := "buzz-backend-kubernetes".
Definition LABEL_MANAGED_BY : string := "app.kubernetes.io/managed-by".
Definition LABEL_BINDING_VERSION : string := "buzz.block.xyz/binding-version".
Definition BINDING_VERSION : string := "1".
Definition LABEL_AGENT_PUBKEY : string := "buzz.block.xyz/agent-pubkey".
Definition ANNOTATION_PUBKEY_FULL : string := "buzz.block.xyz/agent-pubkey-full".
Definition ANNOTATION_CREATE_INTENT : string := "buzz.block.xyz/create-intent".
Definition ANNOTATION_IMAGE : string := "buzz.block.xyz/image".

Record AgentIdentity := { pubkey_hex : string }.

Definition from_nsec `{KubeText} (nsec : string) : result AgentIdentity string :=
  match nsec_public_key (str_trim nsec) with
  | None => Err "private_key_nsec is not a decodable nsec1 key"
  | Some pk => Ok {| pubkey_hex := pk |}
  end.

Definition label_pubkey (a : AgentIdentity) : string := String.substring 0 32 (pubkey_hex a).
Definition pod_name (a : AgentIdentity) : string := "buzz-agent-" +:+ String.substring 0 12 (pubkey_hex a).
Definition secret_name (a : AgentIdentity) (generation : string) : string :=
  "buzz-agent-" +:+ String.substring 0 12 (pubkey_hex a) +:+ "-" +:+ generation.
Definition selector (a : AgentIdentity) : string :=
  LABEL_AGENT_PUBKEY +:+ "=" +:+ label_pubkey a +:+ "," +:+ LABEL_MANAGED_BY +:+ "=" +:+ MANAGED_BY.
Definition labels (a : AgentIdentity) : gmap string string :=
  list_to_map [(LABEL_AGENT_PUBKEY, label_pubkey a); (LABEL_MANAGED_BY, MANAGED_BY);
               (LABEL_BINDING_VERSION, BINDING_VERSION)].

(** [format!("{n:08x}")] of a [u32] *)
Definition hex_digit (n : Z) : Ascii.ascii :=
  Ascii.ascii_of_N (Z.to_N (if (n <? 10)%Z then 48 + n else 87 + n)).

Fixpoint hex_digits (k : nat) (n : Z) : string :=
  match k with
  | 0 => ""
  | S k => hex_digits k (n / 16) +:+ String (hex_digit (n `mod` 16)) ""
  end.

(** [new_generation], from the number the RNG of the system gave *)
Definition new_generation (n : Z) : string := hex_digits 8 n.

(** ** image.rs *)

Record ImageRef := { image_str : string }.

(** [str::rfind] of a one-byte character, with the text before and after it *)
Fixpoint rsplit_once (c : Ascii.ascii) (s : string) : option (string * string) :=
  match s with
  | EmptyString => None
  | String a s =>
      match rsplit_once c s with
      | Some (x, y) => Some (String a x, y)
      | None => if Ascii.eqb a c then Some ("", s) else None
      end
  end.

Definition without_tag (name_and_tag : string) : string :=
  match rsplit_once ":" name_and_tag with
  | Some (name, tag) => if string_contains "/" tag then name_and_tag else name
  | None => name_and_tag
  end.

Definition parse_digest `{KubeText} (reference name_and_tag digest : string) : result ImageRef string :=
  match strip_prefix "sha256:" digest with
  | None => Err ("provider_config.image digest " +:+ debug_str digest +:+ " must start with 'sha256:'")
  | Some hex =>
      guard! (String.length hex =? 64) && chars_all is_lower_hex hex
        else "provider_config.image digest " +:+ debug_str digest
             +:+ " must be exactly 64 lowercase hex characters" ;;
      let name := without_tag name_and_tag in
      guard! negb (bool_decide (name = ""))
        else "provider_config.image " +:+ debug_str reference +:+ " has no repository name" ;;
      Ok {| image_str := name +:+ "@sha256:" +:+ hex |}
  end.

Definition image_parse `{KubeText} (raw : string) : result ImageRef string :=
  let reference := str_trim raw in
  guard! negb (bool_decide (reference = ""))
    else "provider_config.image is required: no image is assumed at parse time, so the digest-pinned image to run must be given explicitly" ;;
  match split_on "@" reference with
  | name_and_tag :: digest :: [] => parse_digest reference name_and_tag digest
  | [] | [_] =>
      Err ("provider_config.image " +:+ debug_str reference
           +:+ " is not digest-pinned: a tag is a mutable pointer, and this object runs with the agent's private key. Use name@sha256:<64 hex chars>")
  | _ => Err ("provider_config.image " +:+ debug_str reference +:+ " contains more than one '@'")
  end.

(** ** config.rs *)

Record Resources := { cpu_request : string; memory_request : string; cpu_limit : string; memory_limit : string }.

Definition default_resources : Resources :=
  {| cpu_request := "1"; memory_request := "2Gi"; cpu_limit := "2"; memory_limit := "4Gi" |}.

Definition DEFAULT_INACTIVITY_SECONDS : Z := 7200.
Definition DEFAULT_IMAGE : string :=
  "ghcr.io/block/buzz-sprig:sha-6530b58@sha256:17facfc7608d8ddb33bc056c9aaba1098f4ef6abe5655702fbfd7584d1f74d76".
Definition RUN_AS_UID : Z := 10001.
Definition RUN_AS_GID : Z := 10001.
Definition WORKSPACE_PATH : string := "/home/agent".
Definition TERMINATION_GRACE_SECONDS : Z := 60.
Definition RESTART_POLICY : string := "Never".

Record ProviderConfig := {
  context : option string;
  namespace : string;
  image : ImageRef;
  resources : Resources;
  inactivity_seconds : option Z;
  service_account : option string
}.

Definition blank (s : string) : bool := bool_decide (str_trim s = "").

Definition optional_string `{KubeText} (cfg : Json) (field : string) : result (option string) string :=
  match json_get field cfg with
  | None | Some JNull => Ok None
  | Some (JString s) => if blank s then Ok None else Ok (Some (str_trim s))
  | Some other => Err ("provider_config." +:+ field +:+ " must be a string, got " +:+ value_text other)
  end.

(** A number is [as_u64] exactly when its text is that of a [u64]. *)
Definition optional_u64 `{KubeText} (cfg : Json) (field : string) : result (option Z) string :=
  let refused got := Err ("provider_config." +:+ field +:+ " must be a non-negative integer, got " +:+ got) in
  match json_get field cfg with
  | None | Some JNull => Ok None
  | Some (JNumber n) => match parse_u64 n with Some x => Ok (Some x) | None => refused n end
  | Some (JString s) =>
      if blank s then Ok None
      else match parse_u64 (str_trim s) with Some x => Ok (Some x) | None => refused (debug_str s) end
  | Some other => refused (value_text other)
  end.

Definition is_lower_alnum (a : Ascii.ascii) : bool := between 97 122 a || between 48 57 a.

Definition first_char (s : string) : option Ascii.ascii := head (string_to_list s).
Definition last_char (s : string) : option Ascii.ascii := last (string_to_list s).

Definition valid_namespace (name : string) : bool :=
  negb (bool_decide (name = "")) && (String.length name <=? 63)
  && is_some_and is_lower_alnum (first_char name)
  && is_some_and is_lower_alnum (last_char name)
  && chars_all (λ c, is_lower_alnum c || Ascii.eqb c "-") name.

Definition is_object_or_null (v : Json) : bool :=
  match v with JObject _ | JNull => true | _ => false end.

Definition config_parse `{KubeText} (cfg : Json) : result ProviderConfig string :=
  guard! is_object_or_null cfg else "provider_config must be a JSON object" ;;
  ns <-? optional_string cfg "namespace" ;;
  ns <-? match ns with
         | Some ns => Ok ns
         | None => Err "provider_config.namespace is required: the info schema supplies a generated default, so an empty value means the form was cleared"
         end ;;
  guard! valid_namespace ns
    else "provider_config.namespace " +:+ debug_str ns
         +:+ " is not a valid Kubernetes namespace (lowercase alphanumerics and '-', ≤63 characters)" ;;
  img <-? optional_string cfg "image" ;;
  img <-? image_parse (default "" img) ;;
  cpu_request' <-? optional_string cfg "cpu_request" ;;
  memory_request' <-? optional_string cfg "memory_request" ;;
  cpu_limit' <-? optional_string cfg "cpu_limit" ;;
  memory_limit' <-? optional_string cfg "memory_limit" ;;
  let d := default_resources in
  let r := {| cpu_request := default (cpu_request d) cpu_request';
              memory_request := default (memory_request d) memory_request';
              cpu_limit := default (cpu_limit d) cpu_limit';
              memory_limit := default (memory_limit d) memory_limit' |} in
  secs <-? optional_u64 cfg "inactivity_seconds" ;;
  secs <-? match secs with
           | None => Ok (Some DEFAULT_INACTIVITY_SECONDS)
           | Some n =>
               if (n =? 0)%Z then
                 Err "provider_config.inactivity_seconds: 0 (indefinite lifetime) is not supported in this version: it requires restartPolicy OnFailure, which is gated on the harness exit-code contract. Set a positive number of seconds."
               else Ok (Some n)
           end ;;
  ctx <-? optional_string cfg "context" ;;
  sa <-? optional_string cfg "service_account" ;;
  Ok {| context := ctx; namespace := ns; image := img; resources := r;
        inactivity_seconds := secs; service_account := sa |}.

(** The default of the form: six characters of the alphabet, chosen by the RNG *)
Definition ALPHABET : string := "abcdefghijklmnopqrstuvwxyz0123456789".
Definition generated_namespace (indices : list nat) : string :=
  "buzz-agents-" +:+ String.concat "" (map (λ i, String.substring i 1 ALPHABET) indices).

(** ** wire.rs: the request *)

Record LaunchBlock := {
  command : option string;
  args : list string;
  launch_env : gmap string string;
  policy_env : gmap string string;
  owner_pubkey : option string
}.

Definition default_launch : LaunchBlock :=
  {| command := None; args := []; launch_env := ∅; policy_env := ∅; owner_pubkey := None |}.

Record AgentPayload := {
  relay_url : string;
  private_key_nsec : string;
  auth_tag : option string;
  respond_to : option string;
  respond_to_allowlist : option (list string);
  env_vars : gmap string string;
  launch : option LaunchBlock
}.

Record DeployRequest := { agent : AgentPayload; provider_config : Json }.

Inductive Request := Info | Deploy (r : DeployRequest).

(** ** env.rs *)

Definition START_NONCE_KEY : string := "BUZZ_MANAGED_AGENT_START_NONCE".

Definition AUTHORITATIVE_KEYS : list string :=
  ["BUZZ_RELAY_URL"; "BUZZ_PRIVATE_KEY"; "NOSTR_PRIVATE_KEY"; "BUZZ_AUTH_TAG"; "BUZZ_ACP_AGENT_OWNER";
   "BUZZ_ACP_AGENT_COMMAND"; "BUZZ_ACP_AGENT_ARGS"; "BUZZ_ACP_RESPOND_TO"; "BUZZ_ACP_RESPOND_TO_ALLOWLIST";
   "BUZZ_ACP_MCP_COMMAND"; "BUZZ_ACP_EXIT_AFTER_INACTIVITY"; START_NONCE_KEY].

Definition FORBIDDEN_KEY : string := "BUZZ_ACP_NO_PRESENCE".
Definition MAX_SECRET_BYTES : Z := 1024 * 1024.

Definition is_ascii_alphabetic (a : Ascii.ascii) : bool := between 65 90 a || between 97 122 a.

Definition is_posix_env_key (key : string) : bool :=
  match key with
  | EmptyString => false
  | String c key =>
      (Ascii.eqb c "_" || is_ascii_alphabetic c)
      && chars_all (λ c, Ascii.eqb c "_" || is_ascii_alphanumeric c) key
  end.

Definition identity_component (value : string) : option string :=
  let trimmed := str_trim value in
  if decide (trimmed = "") then None else Some trimmed.

Definition RESPOND_TO_ALLOWLIST : string := "allowlist".
Definition RESPOND_TO_MODES : list string := ["owner-only"; RESPOND_TO_ALLOWLIST; "anyone"; "nobody"].

Fixpoint validate_entries `{KubeText} (entries : list string) : result unit string :=
  match entries with
  | [] => Ok tt
  | entry :: entries =>
      let trimmed := str_trim entry in
      guard! (String.length trimmed =? 64) && chars_all is_ascii_hexdigit trimmed
        else "deploy refused: invalid pubkey in respond_to_allowlist: " +:+ debug_str entry
             +:+ " (must be exactly 64 hex characters)" ;;
      validate_entries entries
  end.

Definition validate_respond_to_gate `{KubeText} (mode : string) (allowlist : option (list string))
  : result unit string :=
  guard! bool_decide (mode ∈ RESPOND_TO_MODES)
    else "deploy refused: respond_to " +:+ debug_str mode
         +:+ " is not a mode the harness accepts (expected one of " +:+ String.concat ", " RESPOND_TO_MODES
         +:+ ") — the pod would fail to parse its arguments, be replaced, and leave a Secret behind on every attempt" ;;
  if negb (bool_decide (mode = RESPOND_TO_ALLOWLIST)) then Ok tt
  else
    let entries := default [] allowlist in
    guard! negb (bool_decide (entries = []))
      else "deploy refused: respond_to is " +:+ debug_str RESPOND_TO_ALLOWLIST
           +:+ " but the allowlist is empty — the harness refuses this at startup, so the pod would fail, be replaced, and leave a Secret behind on every attempt" ;;
    validate_entries entries.

Record AuthoritativeInputs := { generation : string; auth_inactivity_seconds : option Z }.

(** The check of the keys the lower tiers contributed, in the order of the map *)
Fixpoint check_keys `{KubeText} (keys : list string) : result unit string :=
  match keys with
  | [] => Ok tt
  | key :: keys =>
      guard! is_posix_env_key key
        else "env key " +:+ debug_str key
             +:+ " is not a POSIX environment variable name ([A-Za-z_][A-Za-z0-9_]*); Kubernetes would treat it inconsistently across cluster versions" ;;
      guard! negb (eq_ignore_ascii_case key FORBIDDEN_KEY)
        else FORBIDDEN_KEY +:+ " must not be set on a remote agent: presence is the only signal that a remote agent is alive" ;;
      check_keys keys
  end.

(** [env.insert] under an [if let] *)
Definition insert_some (k : string) (v : option string) (env : gmap string string) : gmap string string :=
  match v with Some v => <[k := v]> env | None => env end.

Definition nonempty (s : string) : option string := if decide (s = "") then None else Some s.

Definition value_bytes (env : gmap string string) : nat :=
  foldr (λ kv n, String.length kv.2 + n) 0 (map_to_list env).

Definition lower_tiers (a : AgentPayload) : gmap string string :=
  let l := default default_launch (launch a) in
  let env := policy_env l ∪ ∅ in
  match launch a with
  | Some l => launch_env l ∪ env
  | None => env_vars a ∪ env
  end.

Definition clear_authoritative (env : gmap string string) : gmap string string :=
  foldl (λ env key, delete key env) env AUTHORITATIVE_KEYS.

Definition build_env `{KubeText} (a : AgentPayload) (auth : AuthoritativeInputs)
  : result (gmap string string) string :=
  let l := default default_launch (launch a) in
  let env := lower_tiers a in
  _ <-? check_keys (sort_strings (map fst (map_to_list env))) ;;
  let env := clear_authoritative env in
  relay <-? match identity_component (relay_url a) with
            | Some r => Ok r
            | None => Err "deploy refused: relay_url is empty — the agent would have no relay to connect to"
            end ;;
  let env := <["BUZZ_RELAY_URL" := relay]> env in
  let env := <["BUZZ_PRIVATE_KEY" := private_key_nsec a]> env in
  let env := <["NOSTR_PRIVATE_KEY" := private_key_nsec a]> env in
  let tag := auth_tag a ≫= identity_component in
  let owner := owner_pubkey l ≫= identity_component in
  guard! bool_decide (is_Some tag) || bool_decide (is_Some owner)
    else "deploy refused: neither auth_tag nor launch.owner_pubkey resolved — without an owner the agent cannot honor !shutdown" ;;
  let env := insert_some "BUZZ_AUTH_TAG" tag env in
  let env := insert_some "BUZZ_ACP_AGENT_OWNER" owner env in
  let env := insert_some "BUZZ_ACP_AGENT_COMMAND" (command l ≫= nonempty) env in
  let env := if decide (args l = []) then env
             else <["BUZZ_ACP_AGENT_ARGS" := String.concat "," (args l)]> env in
  let env := <["BUZZ_ACP_MCP_COMMAND" := "buzz-dev-mcp"]> env in
  env <-? match respond_to a ≫= nonempty with
          | Some mode =>
              _ <-? validate_respond_to_gate mode (respond_to_allowlist a) ;;
              Ok (<["BUZZ_ACP_RESPOND_TO" := mode]> env)
          | None => Ok env
          end ;;
  let env := match respond_to_allowlist a with
             | Some (e :: l) => <["BUZZ_ACP_RESPOND_TO_ALLOWLIST" := String.concat "," (e :: l)]> env
             | _ => env
             end in
  let env := insert_some "BUZZ_ACP_EXIT_AFTER_INACTIVITY" (decimal <$> auth_inactivity_seconds auth) env in
  let env := <[START_NONCE_KEY := generation auth]> env in
  let total := Z.of_nat (value_bytes env) in
  guard! (total <=? MAX_SECRET_BYTES)%Z
    else "agent environment is " +:+ decimal total +:+ " bytes; Kubernetes caps Secret data at "
         +:+ decimal MAX_SECRET_BYTES ;;
  Ok env.

(** ** intent.rs *)

Definition SECRET_PLACEHOLDER : string := "<per-attempt-secret>".
Definition TEMPLATE_VERSION : Z := 1.

Record IntentTemplate := {
  template_version : Z;
  t_namespace : string;
  t_image : string;
  t_cpu_request : string;
  t_memory_request : string;
  t_cpu_limit : string;
  t_memory_limit : string;
  t_service_account : option string;
  t_restart_policy : string;
  t_grace_period : Z;
  env_keys : list string;
  env_from_secret : string;
  workspace_mount_path : string;
  t_run_as_user : Z;
  t_run_as_group : Z
}.

(** [serde_json::to_vec] of a template *)
Class TemplateJson := { template_json : IntentTemplate → string }.

Definition Fingerprint := string.

Definition fingerprint `{TemplateJson, Sha256} (t : IntentTemplate) : Fingerprint :=
  sha256_hex (template_json t).

(** [IntentTemplate::new] through [pod::intent_template] *)
Definition intent_template (cfg : ProviderConfig) (keys : list string) : IntentTemplate :=
  {| template_version := TEMPLATE_VERSION; t_namespace := namespace cfg;
     t_image := image_str (image cfg);
     t_cpu_request := cpu_request (resources cfg); t_memory_request := memory_request (resources cfg);
     t_cpu_limit := cpu_limit (resources cfg); t_memory_limit := memory_limit (resources cfg);
     t_service_account := service_account cfg; t_restart_policy := RESTART_POLICY;
     t_grace_period := TERMINATION_GRACE_SECONDS; env_keys := sort_strings keys;
     env_from_secret := SECRET_PLACEHOLDER; workspace_mount_path := WORKSPACE_PATH;
     t_run_as_user := RUN_AS_UID; t_run_as_group := RUN_AS_GID |}.
