(* ===== verification/KubeConfigSpec.v ===== *)
(** * What the provider accepts

    Exact characterisations of [KubeConfig]: the image references that are accepted and
    their canonical form, the well-formedness of a parsed [provider_config], and the
    environment of the pod, key by key. *)

From S2P Require Import Prelude Text StdText Json Workflow KubeConfig.

Open Scope string_scope.
Open Scope nat_scope.
Open Scope list_scope.

(** ** Images *)

(** 64 lowercase hex digits *)
Definition digest_hex (hex : string) : Prop := String.length hex = 64 ∧ chars_all is_lower_hex hex = true.

(** A digest-pinned name *)
Definition canonical_image (i : string) : Prop :=
  ∃ name hex, i = name +:+ "@sha256:" +:+ hex ∧ name ≠ "" ∧ string_contains "@" name = false ∧ digest_hex hex.

Lemma split_on_two (c : Ascii.ascii) (s x y : string) :
  split_on c s = [x; y] ↔
  s = x +:+ String c y ∧ string_contains c x = false ∧ string_contains c y = false.
Proof.
  split.
  - intros Hs. pose proof (split_on_words c s) as Hw. rewrite Hs in Hw.
    apply Forall_cons in Hw as [Hx Hw]. apply Forall_cons in Hw as [Hy _].
    split_and!; [|done..]. rewrite <- (join_split c s), Hs. done.
  - intros (-> & Hx & Hy). by rewrite split_on_app, split_on_word.
Qed.

Lemma lower_hex_no_at (hex : string) : chars_all is_lower_hex hex = true → string_contains "@" hex = false.
Proof.
  unfold chars_all, string_contains. induction (string_to_list hex) as [|a l IH]; [done|].
  cbn [forallb existsb]. intros [Ha Hl]%andb_true_iff. rewrite (IH Hl), orb_false_r.
  destruct (Ascii.eqb_spec "@" a) as [<-|]; [done|done].
Qed.

Lemma rsplit_once_Some (c : Ascii.ascii) (s x y : string) :
  rsplit_once c s = Some (x, y) → s = x +:+ String c y ∧ string_contains c y = false.
Proof.
  revert x. induction s as [|a s IH]; intros x; [done|]. cbn [rsplit_once].
  destruct (rsplit_once c s) as [[x' y']|] eqn:Hr.
  - intros [= <- ->]. destruct (IH x' eq_refl) as [-> Hy]. done.
  - destruct (Ascii.eqb_spec a c) as [->|]; [|done]. intros [= <- <-]. split; [done|].
    clear IH. induction s as [|b s IH]; [done|]. cbn [rsplit_once] in Hr.
    destruct (rsplit_once c s) as [[? ?]|]; [done|]. destruct (Ascii.eqb_spec b c) as [->|Hne]; [done|].
    rewrite string_contains_cons, IH by done. by destruct (Ascii.eqb_spec c b).
Qed.

Lemma without_tag_no_at (nt : string) :
  string_contains "@" nt = false → string_contains "@" (without_tag nt) = false.
Proof.
  unfold without_tag. destruct (rsplit_once ":" nt) as [[name tag]|] eqn:Hr; [|done].
  destruct (string_contains "/" tag); [done|]. apply rsplit_once_Some in Hr as [-> _].
  induction name as [|a name IH]; [done|]. change (String a name +:+ String ":" tag) with (String a (name +:+ String ":" tag)).
  rewrite !string_contains_cons. intros [-> Hn]%orb_false_iff. by rewrite IH.
Qed.

Section text.
Context `{KubeText}.

(** An image reference is accepted exactly when, trimmed, it is a name, one @ and sha256: with 64 lowercase hex digits; the result is the same bytes without the tag, so that two references that differ in their tag are one image. *)
Theorem image_parse_exact (raw : string) (i : ImageRef) :
  image_parse raw = Ok i ↔
  ∃ nt hex, str_trim raw = nt +:+ "@sha256:" +:+ hex ∧ string_contains "@" nt = false
    ∧ digest_hex hex ∧ without_tag nt ≠ "" ∧ image_str i = without_tag nt +:+ "@sha256:" +:+ hex.
Proof.
  unfold image_parse, parse_digest. split.
  - case_bool_decide as Hne; [done|]. cbn [negb].
    destruct (split_on "@" (str_trim raw)) as [|nt [|d [|? ?]]] eqn:Hs; try done.
    apply split_on_two in Hs as (Hs & Hnt & Hd). destruct (strip_prefix "sha256:" d) as [hex|] eqn:Hp; [|done].
    apply strip_prefix_Some in Hp as ->. unfold digest_hex.
    destruct (Nat.eqb_spec (String.length hex) 64); [|done]. cbn [andb].
    destruct (chars_all is_lower_hex hex) eqn:Hhex; [|done].
    case_bool_decide; [done|]. intros [= <-]. by exists nt, hex.
  - intros (nt & hex & Hs & Hnt & [Hlen Hhex] & Hname & Hi). rewrite Hs.
    rewrite bool_decide_eq_false_2 by (by destruct nt). cbn [negb].
    assert (split_on "@" (nt +:+ "@sha256:" +:+ hex) = [nt; "sha256:" +:+ hex]) as ->.
    { apply split_on_two. split_and!; [done|done|]. cbn. by apply lower_hex_no_at in Hhex. }
    rewrite (proj2 (strip_prefix_Some "sha256:" ("sha256:" +:+ hex) hex) eq_refl).
    rewrite Hlen, Hhex. cbn [andb Nat.eqb]. rewrite bool_decide_eq_false_2 by done. cbn [negb].
    destruct i as [i]. simpl in Hi. by subst.
Qed.

Lemma image_parse_canonical (raw : string) (i : ImageRef) :
  image_parse raw = Ok i → canonical_image (image_str i).
Proof.
  intros (nt & hex & _ & Hnt & Hhex & Hname & Hi)%image_parse_exact. exists (without_tag nt), hex.
  split_and!; try done. by apply without_tag_no_at.
Qed.

(** ** [provider_config] *)

Record well_formed_config (cfg : ProviderConfig) : Prop := {
  wf_namespace : valid_namespace (namespace cfg) = true;
  wf_image : canonical_image (image_str (image cfg));
  wf_inactivity : ∃ n, inactivity_seconds cfg = Some n ∧ (0 < n ≤ u64_max)%Z
}.

Lemma optional_u64_bounds (cfg : Json) (field : string) (n : Z) :
  optional_u64 cfg field = Ok (Some n) → (0 ≤ n ≤ u64_max)%Z.
Proof.
  unfold optional_u64. destruct (json_get field cfg) as [[| |t|s| |]|]; try done.
  - destruct (parse_u64 t) eqn:Hp; [|done]. intros [= <-]. by apply parse_unsigned_bounds in Hp.
  - destruct (blank s); [done|]. destruct (parse_u64 (str_trim s)) eqn:Hp; [|done]. intros [= <-].
    by apply parse_unsigned_bounds in Hp.
Qed.

(** A parsed provider_config has a valid namespace, a canonical digest-pinned image and a positive inactivity limit of 64 bits. *)
Theorem config_well_formed (v : Json) (cfg : ProviderConfig) :
  config_parse v = Ok cfg → well_formed_config cfg.
Proof.
  unfold config_parse. destruct (is_object_or_null v); [|done].
  destruct (optional_string v "namespace") as [[ns|]|]; [|done..].
  destruct (valid_namespace ns) eqn:Hns; [|done].
  destruct (optional_string v "image") as [img|]; [|done].
  destruct (image_parse (default "" img)) as [i|] eqn:Hi; [|done].
  destruct (optional_string v "cpu_request"); [|done]. destruct (optional_string v "memory_request"); [|done].
  destruct (optional_string v "cpu_limit"); [|done]. destruct (optional_string v "memory_limit"); [|done].
  destruct (optional_u64 v "inactivity_seconds") as [secs|] eqn:Hs; [|done].
  assert (∀ n, secs = Some n → (n =? 0)%Z = false → (0 < n ≤ u64_max)%Z) as Hpos.
  { intros n -> Hn. apply optional_u64_bounds in Hs. lia. }
  destruct secs as [n|]; [destruct (n =? 0)%Z eqn:Hn; [done|]|];
    (destruct (optional_string v "context"); [|done]); (destruct (optional_string v "service_account"); [|done]);
    intros [= <-]; split; simpl; try done; try (by eapply image_parse_canonical).
  - exists n. split; [done|]. by apply Hpos.
  - by exists DEFAULT_INACTIVITY_SECONDS.
Qed.

End text.

(** ** The environment of the pod *)

(** What the user's tiers say: the launch block's environment, or the legacy field without
    one, over the policy defaults *)
Definition user_value (a : AgentPayload) (k : string) : option string :=
  match launch a with
  | Some l => match launch_env l !! k with Some v => Some v | None => policy_env l !! k end
  | None => env_vars a !! k
  end.

(** What the top-level fields say of a key the provider owns; [None]: the key is absent. *)
Definition authoritative_value (a : AgentPayload) (auth : AuthoritativeInputs) (k : string) : option string :=
  let l := default default_launch (launch a) in
  if decide (k = "BUZZ_RELAY_URL") then identity_component (relay_url a)
  else if decide (k ∈ ["BUZZ_PRIVATE_KEY"; "NOSTR_PRIVATE_KEY"]) then Some (private_key_nsec a)
  else if decide (k = "BUZZ_AUTH_TAG") then auth_tag a ≫= identity_component
  else if decide (k = "BUZZ_ACP_AGENT_OWNER") then owner_pubkey l ≫= identity_component
  else if decide (k = "BUZZ_ACP_AGENT_COMMAND") then command l ≫= nonempty
  else if decide (k = "BUZZ_ACP_AGENT_ARGS") then
    if decide (args l = []) then None else Some (String.concat "," (args l))
  else if decide (k = "BUZZ_ACP_MCP_COMMAND") then Some "buzz-dev-mcp"
  else if decide (k = "BUZZ_ACP_RESPOND_TO") then respond_to a ≫= nonempty
  else if decide (k = "BUZZ_ACP_RESPOND_TO_ALLOWLIST") then
    match respond_to_allowlist a with Some (e :: l) => Some (String.concat "," (e :: l)) | _ => None end
  else if decide (k = "BUZZ_ACP_EXIT_AFTER_INACTIVITY") then decimal <$> auth_inactivity_seconds auth
  else if decide (k = START_NONCE_KEY) then Some (generation auth)
  else None.

Definition key_accepted (k : string) : Prop :=
  is_posix_env_key k = true ∧ eq_ignore_ascii_case k FORBIDDEN_KEY = false.

Definition pubkey_entry (entry : string) : Prop :=
  String.length (str_trim entry) = 64 ∧ chars_all is_ascii_hexdigit (str_trim entry) = true.

Definition gate_accepted (mode : string) (allowlist : option (list string)) : Prop :=
  mode ∈ RESPOND_TO_MODES ∧
  (mode = RESPOND_TO_ALLOWLIST → default [] allowlist ≠ [] ∧ Forall pubkey_entry (default [] allowlist)).

(** What a launch needs *)
Record launchable (a : AgentPayload) : Prop := {
  la_keys : ∀ k v, user_value a k = Some v → key_accepted k;
  la_relay : identity_component (relay_url a) ≠ None;
  la_owner : is_Some (auth_tag a ≫= identity_component)
             ∨ is_Some (owner_pubkey (default default_launch (launch a)) ≫= identity_component);
  la_gate : ∀ mode, respond_to a ≫= nonempty = Some mode → gate_accepted mode (respond_to_allowlist a)
}.

Lemma lower_tiers_lookup (a : AgentPayload) (k : string) : lower_tiers a !! k = user_value a k.
Proof.
  unfold lower_tiers, user_value. destruct (launch a) as [l|]; simpl; rewrite !lookup_union, ?lookup_empty.
  - destruct (launch_env l !! k), (policy_env l !! k); done.
  - by destruct (env_vars a !! k).
Qed.

Lemma clear_authoritative_lookup (env : gmap string string) (k : string) :
  clear_authoritative env !! k = if decide (k ∈ AUTHORITATIVE_KEYS) then None else env !! k.
Proof.
  unfold clear_authoritative. revert env. induction AUTHORITATIVE_KEYS as [|key keys IH]; intros env; [done|].
  cbn [foldl]. rewrite IH, lookup_delete. repeat case_decide; set_solver.
Qed.

Lemma insert_some_lookup (k j : string) (v : option string) (env : gmap string string) :
  insert_some k v env !! j = match (if decide (k = j) then v else None) with
                             | Some v => Some v
                             | None => env !! j
                             end.
Proof. destruct v; simpl; [rewrite lookup_insert|]; by case_decide. Qed.

Section text.
Context `{KubeText}.

Lemma check_keys_exact (keys : list string) : check_keys keys = Ok tt ↔ Forall key_accepted keys.
Proof.
  unfold key_accepted. induction keys as [|k keys IH]; simpl; [by split|]. rewrite Forall_cons, <- IH.
  destruct (is_posix_env_key k); [|by split; [|intros [[? _] _]]].
  destruct (eq_ignore_ascii_case k FORBIDDEN_KEY); simpl; [by split; [|intros [[_ ?] _]]|]. naive_solver.
Qed.

Lemma validate_entries_exact (l : list string) : validate_entries l = Ok tt ↔ Forall pubkey_entry l.
Proof.
  unfold pubkey_entry. induction l as [|e l IH]; [by split|]. cbn [validate_entries].
  rewrite Forall_cons, <- IH.
  destruct (Nat.eqb_spec (String.length (str_trim e)) 64); cbn [andb]; [|by split; [|intros [[? _] _]]].
  destruct (chars_all is_ascii_hexdigit (str_trim e)); [naive_solver|by split; [|intros [[_ ?] _]]].
Qed.

Lemma validate_gate_exact (mode : string) (al : option (list string)) :
  validate_respond_to_gate mode al = Ok tt ↔ gate_accepted mode al.
Proof.
  unfold validate_respond_to_gate, gate_accepted. rewrite <- validate_entries_exact.
  case_bool_decide as Hm; [|by split; [|intros [? _]]].
  case_bool_decide; simpl; [|naive_solver].
  case_bool_decide; simpl; [by split; [|naive_solver]|naive_solver].
Qed.

End text.

(** The keys of the lower tiers are accepted. *)
Lemma lower_keys (a : AgentPayload) (P : string → Prop) :
  Forall P (sort_strings (map fst (map_to_list (lower_tiers a)))) ↔ ∀ k v, user_value a k = Some v → P k.
Proof.
  rewrite Forall_forall. split.
  - intros HP k v Hk. apply HP, elem_of_sort_strings, list_elem_of_fmap. exists (k, v). split; [done|].
    apply elem_of_map_to_list. by rewrite lower_tiers_lookup.
  - intros HP k Hk. apply (proj1 (elem_of_sort_strings _ _)), list_elem_of_fmap in Hk as ([k' v] & -> & Hk).
    apply elem_of_map_to_list in Hk. rewrite lower_tiers_lookup in Hk. by eapply HP.
Qed.

(** The third tier, over what is left of the others *)
Definition authoritative_tier (a : AgentPayload) (auth : AuthoritativeInputs) (relay : string)
    (env : gmap string string) : gmap string string :=
  let l := default default_launch (launch a) in
  <[START_NONCE_KEY := generation auth]>
  (insert_some "BUZZ_ACP_EXIT_AFTER_INACTIVITY" (decimal <$> auth_inactivity_seconds auth)
  (insert_some "BUZZ_ACP_RESPOND_TO_ALLOWLIST"
     match respond_to_allowlist a with Some (e :: l) => Some (String.concat "," (e :: l)) | _ => None end
  (insert_some "BUZZ_ACP_RESPOND_TO" (respond_to a ≫= nonempty)
  (<["BUZZ_ACP_MCP_COMMAND" := "buzz-dev-mcp"]>
  (insert_some "BUZZ_ACP_AGENT_ARGS" (if decide (args l = []) then None else Some (String.concat "," (args l)))
  (insert_some "BUZZ_ACP_AGENT_COMMAND" (command l ≫= nonempty)
  (insert_some "BUZZ_ACP_AGENT_OWNER" (owner_pubkey l ≫= identity_component)
  (insert_some "BUZZ_AUTH_TAG" (auth_tag a ≫= identity_component)
  (<["NOSTR_PRIVATE_KEY" := private_key_nsec a]>
  (<["BUZZ_PRIVATE_KEY" := private_key_nsec a]>
  (<["BUZZ_RELAY_URL" := relay]> env))))))))))).

Lemma authoritative_tier_lookup (a : AgentPayload) (auth : AuthoritativeInputs) (relay k : string) :
  identity_component (relay_url a) = Some relay →
  authoritative_tier a auth relay (clear_authoritative (lower_tiers a)) !! k =
    if decide (k ∈ AUTHORITATIVE_KEYS) then authoritative_value a auth k else user_value a k.
Proof.
  intros Hr. unfold authoritative_tier. rewrite !lookup_insert, !insert_some_lookup, !lookup_insert.
  rewrite !insert_some_lookup, !lookup_insert, clear_authoritative_lookup, lower_tiers_lookup.
  destruct (decide (k ∈ AUTHORITATIVE_KEYS)) as [Hk|Hk]; cycle 1.
  - unfold AUTHORITATIVE_KEYS in Hk. rewrite !elem_of_cons in Hk. by rewrite !decide_False by naive_solver.
  - unfold AUTHORITATIVE_KEYS in Hk. rewrite !elem_of_cons, elem_of_nil in Hk.
    destruct_or?; subst; unfold authoritative_value; simpl; by rewrite ?Hr; repeat (case_decide || case_match); simplify_eq/=.
Qed.

Section text.
Context `{KubeText}.

(** [build_env] once its checks have passed *)
Lemma build_env_eq (a : AgentPayload) (auth : AuthoritativeInputs) (env : gmap string string) :
  build_env a auth = Ok env ↔
  launchable a ∧ (Z.of_nat (value_bytes env) ≤ MAX_SECRET_BYTES)%Z ∧
  ∃ relay, identity_component (relay_url a) = Some relay
    ∧ env = authoritative_tier a auth relay (clear_authoritative (lower_tiers a)).
Proof.
  unfold build_env. set (l := default default_launch (launch a)).
  destruct (check_keys _) as [[]|] eqn:Hkeys; cycle 1.
  { split; [done|]. intros ([Hk] & _). apply lower_keys, check_keys_exact in Hk. congruence. }
  apply check_keys_exact in Hkeys. pose proof (proj1 (lower_keys _ _) Hkeys) as Hk. clear Hkeys.
  destruct (identity_component (relay_url a)) as [relay|] eqn:Hrelay; [|split; [done|naive_solver]].
  destruct (bool_decide (is_Some (auth_tag a ≫= identity_component))
            || bool_decide (is_Some (owner_pubkey l ≫= identity_component))) eqn:Ho; cycle 1.
  { split; [done|]. intros ([_ _ Hown _] & _). apply orb_false_iff in Ho as [H1 H2].
    apply bool_decide_eq_false in H1, H2. by destruct Hown. }
  apply orb_true_iff in Ho. rewrite !bool_decide_eq_true in Ho.
  assert ((∀ mode, respond_to a ≫= nonempty = Some mode → gate_accepted mode (respond_to_allowlist a))
    → launchable a) as Hla by (split; [done|by rewrite Hrelay|done|done]).
  set (T := authoritative_tier a auth relay (clear_authoritative (lower_tiers a))).
  enough ((_ <-? match respond_to a ≫= nonempty with
                 | Some mode => validate_respond_to_gate mode (respond_to_allowlist a)
                 | None => Ok tt
                 end ;;
           if (Z.of_nat (value_bytes T) <=? MAX_SECRET_BYTES)%Z then Ok T else Err "") = Ok env
    ↔ launchable a ∧ (Z.of_nat (value_bytes env) ≤ MAX_SECRET_BYTES)%Z ∧ env = T) as Hgate.
  { transitivity (launchable a ∧ (Z.of_nat (value_bytes env) ≤ MAX_SECRET_BYTES)%Z ∧ env = T); [|naive_solver].
    rewrite <- Hgate. unfold T, authoritative_tier. fold l. clear.
    destruct (respond_to a ≫= nonempty) as [mode|]; [destruct (validate_respond_to_gate _ _)|]; try (split; discriminate);
      destruct (decide (args l = [])); destruct (respond_to_allowlist a) as [[|? ?]|];
      cbn [insert_some]; match goal with |- context [(Z.of_nat ?x <=? _)%Z] => generalize x end;
      intros m; destruct (Z.of_nat m <=? MAX_SECRET_BYTES)%Z; first [reflexivity|split; discriminate]. }
  destruct (respond_to a ≫= nonempty) as [mode|] eqn:Hm.
  - destruct (validate_respond_to_gate mode (respond_to_allowlist a)) as [[]|] eqn:Hg; cycle 1.
    { split; [done|]. intros ([_ _ _ Hgate] & _). specialize (Hgate mode Hm).
      apply validate_gate_exact in Hgate. congruence. }
    apply validate_gate_exact in Hg. case_match eqn:Hs; split; try done; naive_solver lia.
  - case_match eqn:Hs; split; try done; naive_solver lia.
Qed.

(** C21 The pod's environment, key by key: a key the provider owns has the value of the top-level fields, and none where they are silent, whatever the user's tiers say; every other key has the user's value over the policy default; and a launch is refused exactly without a relay, an owner or a gate the harness accepts, with a key that is no variable name or suppresses presence, or when it exceeds the size of a Secret. *)
Theorem env_exact (a : AgentPayload) (auth : AuthoritativeInputs) (env : gmap string string) :
  build_env a auth = Ok env ↔
  launchable a ∧ (Z.of_nat (value_bytes env) ≤ MAX_SECRET_BYTES)%Z ∧
  ∀ k, env !! k = if decide (k ∈ AUTHORITATIVE_KEYS) then authoritative_value a auth k else user_value a k.
Proof.
  rewrite build_env_eq. split; intros (Hla & Hsize & Henv); split_and!; try done.
  - destruct Henv as (relay & Hr & ->). intros k. by apply authoritative_tier_lookup.
  - destruct (identity_component (relay_url a)) as [relay|] eqn:Hr; [|by destruct Hla].
    exists relay. split; [done|]. apply map_eq. intros k. by rewrite Henv, authoritative_tier_lookup.
Qed.

End text.
