(* ===== verification/KubeObjects.v ===== *)
(** * Pods and Secrets (buzz-backend-kubernetes)

    The API objects as far as the provider writes or reads them, their construction (pod.rs),
    the decoding and verification of what a cluster returns (observe.rs), the deploy table
    (classify.rs) and the plan of a garbage collection (gc.rs). All pure. An instant is its
    nanoseconds since the epoch. *)

From S2P Require Import Prelude Text StdText Json KubeConfig.

Open Scope string_scope.
Open Scope nat_scope.
Open Scope list_scope.

(** ** The API objects *)

Record ObjectMeta := {
  name : option string;
  meta_namespace : option string;
  meta_labels : option (gmap string string);
  annotations : option (gmap string string);
  uid : option string;
  resource_version : option string;
  creation_timestamp : option Z;
  deletion_timestamp : option Z
}.

Record SecretEnvSource := { ref_name : string; optional : option bool }.
Record EnvFromSource := { secret_ref : option SecretEnvSource }.

(** [VolumeMount], and [Volume] with an [emptyDir] or another source *)
Record VolumeMount := { mount_name : string; mount_path : string }.
Record Volume := { volume_name : string; empty_dir : bool }.

Record SecurityContext := {
  allow_privilege_escalation : option bool;
  drop_capabilities : list string
}.

Record Container := {
  c_name : string;
  c_image : option string;
  env_from : option (list EnvFromSource);
  requests : gmap string string;
  limits : gmap string string;
  volume_mounts : list VolumeMount;
  security_context : option SecurityContext
}.

Record PodSecurityContext := {
  run_as_non_root : option bool;
  run_as_user : option Z;
  run_as_group : option Z;
  fs_group : option Z;
  seccomp_profile : option string
}.

Record PodSpec := {
  containers : list Container;
  restart_policy : option string;
  termination_grace_period_seconds : option Z;
  automount_service_account_token : option bool;
  service_account_name : option string;
  pod_security_context : option PodSecurityContext;
  volumes : list Volume
}.

Record Waiting := { w_reason : option string; w_message : option string }.
Record TerminatedState := { t_reason : option string; exit_code : Z }.
Record ContainerState := { running : bool; terminated : option TerminatedState; waiting : option Waiting }.
Record ContainerStatus := { cs_name : string; state : option ContainerState }.
Record PodCondition := { type_ : string; cond_status : string; cond_reason : option string; cond_message : option string }.
Record PodStatus := {
  phase : option string;
  container_statuses : option (list ContainerStatus);
  conditions : option (list PodCondition)
}.

Record Pod := { metadata : ObjectMeta; spec : option PodSpec; status : option PodStatus }.

Record Secret := {
  s_metadata : ObjectMeta;
  string_data : option (gmap string string);
  immutable : option bool
}.

(** What an object is created with; the server assigns the rest. *)
Definition new_meta (name ns : string) (ls annots : gmap string string) : ObjectMeta :=
  {| name := Some name; meta_namespace := Some ns; meta_labels := Some ls; annotations := Some annots;
     uid := None; resource_version := None; creation_timestamp := None; deletion_timestamp := None |}.

(** ** pod.rs *)

Definition WORKSPACE_VOLUME : string := "workspace".
Definition CONTAINER_NAME : string := "agent".

Definition build_secret (a : AgentIdentity) (ns generation : string) (env : gmap string string) : Secret :=
  {| s_metadata := new_meta (secret_name a generation) ns (labels a) {[ANNOTATION_PUBKEY_FULL := pubkey_hex a]};
     string_data := Some env; immutable := Some true |}.

Definition build_pod (a : AgentIdentity) (cfg : ProviderConfig) (generation : string) (fp : Fingerprint) : Pod :=
  let container :=
    {| c_name := CONTAINER_NAME; c_image := Some (image_str (image cfg));
       env_from := Some [{| secret_ref := Some {| ref_name := secret_name a generation; optional := Some false |} |}];
       requests := list_to_map [("cpu", cpu_request (resources cfg)); ("memory", memory_request (resources cfg))];
       limits := list_to_map [("cpu", cpu_limit (resources cfg)); ("memory", memory_limit (resources cfg))];
       volume_mounts := [{| mount_name := WORKSPACE_VOLUME; mount_path := WORKSPACE_PATH |}];
       security_context := Some {| allow_privilege_escalation := Some false; drop_capabilities := ["ALL"] |} |} in
  {| metadata := new_meta (pod_name a) (namespace cfg) (labels a)
       (list_to_map [(ANNOTATION_PUBKEY_FULL, pubkey_hex a); (ANNOTATION_CREATE_INTENT, fp);
                     (ANNOTATION_IMAGE, image_str (image cfg))]);
     spec := Some {| containers := [container]; restart_policy := Some RESTART_POLICY;
                     termination_grace_period_seconds := Some TERMINATION_GRACE_SECONDS;
                     automount_service_account_token := Some false;
                     service_account_name := service_account cfg;
                     pod_security_context :=
                       Some {| run_as_non_root := Some true; run_as_user := Some RUN_AS_UID;
                               run_as_group := Some RUN_AS_GID; fs_group := Some RUN_AS_GID;
                               seccomp_profile := Some "RuntimeDefault" |};
                     volumes := [{| volume_name := WORKSPACE_VOLUME; empty_dir := true |}] |};
     status := None |}.

(** ** classify.rs: the data *)

Record Fence := { f_uid : string; f_resource_version : string }.

Inductive PullFailure := Unauthorized | ManifestUnknown | ArchMismatch.

Inductive Startup :=
  | Started
  | Terminated
  | NeverStartedRecoverable
  | NeverStartedProvablyBroken
  | NeverStartedPullFailing (f : PullFailure).

Record VerifiedPod := {
  v_name : string;
  fence : Fence;
  deletion_marked : bool;
  startup : Startup;
  recorded_intent : option Fingerprint
}.

#[export] Instance pull_failure_eq_dec : EqDecision PullFailure.
Proof. solve_decision. Defined.
#[export] Instance startup_eq_dec : EqDecision Startup.
Proof. solve_decision. Defined.

(** ** observe.rs *)

Inductive StartupObservation :=
  | Resolved (s : Startup)
  | ConfigErrorPendingSecretCheck (secret : string).

Definition has_marker (ls : option (gmap string string)) : bool :=
  match ls with
  | None => false
  | Some ls => bool_decide (ls !! LABEL_MANAGED_BY = Some MANAGED_BY)
               && bool_decide (ls !! LABEL_BINDING_VERSION = Some BINDING_VERSION)
  end.

Definition annotation_matches (annots : option (gmap string string)) (a : AgentIdentity) : bool :=
  match annots ≫= (λ m, m !! ANNOTATION_PUBKEY_FULL) with
  | Some v => bool_decide (v = pubkey_hex a)
  | None => false
  end.

Definition secret_is_ours (s : Secret) (a : AgentIdentity) : bool :=
  has_marker (meta_labels (s_metadata s)) && annotation_matches (annotations (s_metadata s)) a.

(** The first [secretRef] of the containers' [envFrom] lists *)
Definition referenced_secret (p : Pod) : option string :=
  s ← spec p;
  head (omap (λ source, ref_name <$> secret_ref source)
             (concat (map (λ c, default [] (env_from c)) (containers s)))).

Definition classify_pull_failure (message : string) : option PullFailure :=
  let m := to_ascii_lowercase message in
  if contains "401" m || contains "unauthorized" m || contains "403" m || contains "denied" m
     || contains "authentication required" m then Some Unauthorized
  else if contains "manifest unknown" m || contains "not found" m || contains "manifest_unknown" m
          || contains "repository does not exist" m then Some ManifestUnknown
  else if contains "no match for platform" m || contains "no matching manifest" m then Some ArchMismatch
  else None.

(** The status of our container *)
Definition own_status (p : Pod) : option ContainerStatus :=
  s ← status p; cs ← container_statuses s;
  head (List.filter (λ c, bool_decide (cs_name c = CONTAINER_NAME)) cs).

Definition decode_waiting (p : Pod) (w : Waiting) : StartupObservation :=
  let reason := default "" (w_reason w) in
  let message := default "" (w_message w) in
  if decide (reason = "InvalidImageName") then Resolved NeverStartedProvablyBroken
  else if decide (reason ∈ ["ErrImagePull"; "ImagePullBackOff"]) then
    match classify_pull_failure message with
    | Some failure => Resolved (NeverStartedPullFailing failure)
    | None => Resolved NeverStartedRecoverable
    end
  else if decide (reason = "CreateContainerConfigError") then
    match referenced_secret p with
    | Some secret => ConfigErrorPendingSecretCheck secret
    | None => Resolved NeverStartedRecoverable
    end
  else Resolved NeverStartedRecoverable.

(** What a pod without a decided container state says: a terminal phase means it is done. *)
Definition decode_phase (p : Pod) : StartupObservation :=
  match status p ≫= phase with
  | Some ph => if decide (ph ∈ ["Succeeded"; "Failed"]) then Resolved Terminated
               else Resolved NeverStartedRecoverable
  | None => Resolved NeverStartedRecoverable
  end.

Definition decode_startup (p : Pod) : StartupObservation :=
  match own_status p ≫= state with
  | Some st =>
      if running st then Resolved Started
      else match terminated st with
           | Some _ => Resolved Terminated
           | None => match waiting st with
                     | Some w => decode_waiting p w
                     | None => decode_phase p
                     end
           end
  | None => decode_phase p
  end.

Definition pull_failure_message (f : PullFailure) (img : string) : string :=
  let registry := default img (head (split_on "/" img)) in
  match f with
  | Unauthorized => "the cluster is not authorized to pull " +:+ img +:+ " from " +:+ registry
      +:+ ". This pull retries indefinitely and will not succeed on its own: grant the cluster's nodes access to that registry."
  | ManifestUnknown => registry +:+ " has no image at " +:+ img +:+ ". Check the digest and repository."
  | ArchMismatch => img +:+ " has no variant for the architecture of the nodes it was scheduled on."
  end.

(** [i32] and the other signed integers print with their sign. *)
Definition signed_decimal (n : Z) : string := if (n <? 0)%Z then "-" +:+ decimal (- n) else decimal n.

(** The condition of our container, if it says one *)
Definition container_condition (st : ContainerState) : option string :=
  match waiting st ≫= w_reason with
  | Some reason => Some ("the container is waiting, reason " +:+ reason)
  | None =>
      t ← terminated st;
      Some (match t_reason t with
            | Some reason => "the container exited with code " +:+ signed_decimal (exit_code t) +:+ " (" +:+ reason +:+ ")"
            | None => "the container exited with code " +:+ signed_decimal (exit_code t)
            end)
  end.

(** The first false condition of the pod *)
Definition pod_condition (s : PodStatus) : option string :=
  cs ← conditions s;
  c ← head (List.filter (λ c, bool_decide (cond_status c = "False")) cs);
  let detail := String.concat ": " (List.filter (λ x, negb (bool_decide (x = "")))
                                     [default "" (cond_reason c); default "" (cond_message c)]) in
  Some (if decide (detail = "") then "pod condition " +:+ type_ c +:+ " is false"
        else "pod condition " +:+ type_ c +:+ " is false: " +:+ detail).

Definition condition (p : Pod) : option string :=
  s ← status p;
  match (own_status p ≫= state) ≫= container_condition with
  | Some text => Some text
  | None =>
      match pod_condition s with
      | Some text => Some text
      | None => (λ ph, "the pod is " +:+ ph) <$> phase s
      end
  end.

Definition verify (p : Pod) (a : AgentIdentity) (st : Startup) : option VerifiedPod :=
  let m := metadata p in
  if negb (has_marker (meta_labels m)) then None
  else if negb (annotation_matches (annotations m) a) then None
  else
    n ← name m; u ← uid m; rv ← resource_version m;
    Some {| v_name := n; fence := {| f_uid := u; f_resource_version := rv |};
            deletion_marked := bool_decide (is_Some (deletion_timestamp m)); startup := st;
            recorded_intent := annotations m ≫= (λ x, x !! ANNOTATION_CREATE_INTENT) |}.

(** ** classify.rs *)

Inductive Action :=
  | ACreate
  | ADelete (name : string) (fence : Fence)
  | AAwaitDisappearance (name : string)
  | ANoOp (agent_id : string)
  | AObserve (name : string)
  | AReport (name : string) (failure : PullFailure).

Definition classify (observed : option VerifiedPod) (desired : Fingerprint) : Action :=
  match observed with
  | None => ACreate
  | Some pod =>
      if deletion_marked pod then AAwaitDisappearance (v_name pod)
      else match startup pod with
           | Started => ANoOp (v_name pod)
           | Terminated | NeverStartedProvablyBroken => ADelete (v_name pod) (fence pod)
           | NeverStartedPullFailing failure => AReport (v_name pod) failure
           | NeverStartedRecoverable =>
               if decide (recorded_intent pod = Some desired) then AObserve (v_name pod)
               else ADelete (v_name pod) (fence pod)
           end
  end.

(** ** gc.rs *)

Definition OPERATION_DEADLINE_SECS : Z := 600.
Definition ORPHAN_SECRET_MIN_AGE_SECS : Z := 2 * OPERATION_DEADLINE_SECS.

(** [TimeDelta::num_seconds] *)
Definition num_seconds (nanos : Z) : Z := Z.quot nanos (10 ^ 9).

Record GcPlan := { gc_pods : list string; gc_secrets : list string }.

(** A secret of the orphan sweep: ours, unprotected, not in the plan yet, old enough *)
Definition sweep_secret (a : AgentIdentity) (now : Z) (protected planned : list string) (s : Secret)
  : option string :=
  if negb (secret_is_ours s a) then None
  else
    n ← name (s_metadata s);
    if bool_decide (n ∈ protected) || bool_decide (n ∈ planned) then None
    else
      created ← creation_timestamp (s_metadata s);
      if (ORPHAN_SECRET_MIN_AGE_SECS <=? num_seconds (now - created))%Z then Some n else None.

Fixpoint sweep (a : AgentIdentity) (now : Z) (protected planned : list string) (secrets : list Secret)
  : list string :=
  match secrets with
  | [] => planned
  | s :: secrets =>
      match sweep_secret a now protected planned s with
      | Some n => sweep a now protected (planned ++ [n]) secrets
      | None => sweep a now protected planned secrets
      end
  end.

Definition gc_plan (a : AgentIdentity) (pods : list Pod) (secrets : list Secret) (is_terminated : Pod → bool)
    (now : option Z) : GcPlan :=
  let ours := List.filter (λ p, bool_decide (is_Some (verify p a Started))) pods in
  let doomed_pods := List.filter is_terminated ours in
  let doomed_names := omap (λ p, name (metadata p)) doomed_pods in
  let protected :=
    omap referenced_secret
      (List.filter (λ p, negb (bool_decide (default "" (name (metadata p)) ∈ doomed_names))) ours) in
  let planned := omap referenced_secret doomed_pods in
  {| gc_pods := doomed_names;
     gc_secrets := match now with
                   | Some now => sweep a now protected planned secrets
                   | None => planned
                   end |}.
