(* ===== verification/KubeDeploy.v ===== *)
(** * The deploy loop (buzz-backend-kubernetes)

    The reconciler (reconcile.rs) over its substrate, and the request it serves (main.rs), as
    programs whose calls are the operations of the [Substrate] trait, the clock, the RNG of
    the system, the start of the async runtime and the connection to the cluster. A duration is its nanoseconds. A loop takes
    the number of its turns; without a turn left the answer is [None]. Log lines are left out. *)

From S2P Require Import Prelude Text StdText Json Interaction KubeConfig KubeObjects.

Open Scope string_scope.
Open Scope nat_scope.
Open Scope list_scope.

(** ** The substrate *)

Inductive CreateOutcome := Created | AlreadyExists.
Inductive DeleteOutcome := Accepted | DeleteNotFound | PreconditionFailed.

Inductive KubeCall :=
  | EnsureNamespace (ns : string)
  | ListPods (selector : string)
  | ListSecrets (selector : string)
  | SecretExists (name : string)
  | CreateSecret (s : Secret)
  | CreatePod (p : Pod)
  | DeletePod (name : string) (f : Fence)
  | DeleteSecret (name : string)
  | GetPod (name : string)
  | Sleep (duration : Z)
  | Elapsed
  | RandomU32
  | RandomIndex
  | StartRuntime
  | Connect (context : option string).

Definition KubeAnswer (e : KubeCall) : Type :=
  match e with
  | EnsureNamespace _ => result unit string
  | ListPods _ => result (list Pod * option Z) string
  | ListSecrets _ => result (list Secret) string
  | SecretExists _ => result bool string
  | CreateSecret _ => result unit string
  | CreatePod _ => result CreateOutcome string
  | DeletePod _ _ => result DeleteOutcome string
  | DeleteSecret _ => result unit string
  | GetPod _ => result (option Pod) string
  | Sleep _ => unit
  | Elapsed => Z
  | RandomU32 => Z
  | RandomIndex => nat
  | StartRuntime => result unit string
  | Connect _ => result unit string
  end.

Abbreviation KProg := (@Prog KubeCall KubeAnswer).
Abbreviation KEntry := (@Entry KubeCall KubeAnswer).

(** A call and its answer *)
Definition kube (e : KubeCall) (r : KubeAnswer e) : KEntry := entry e r.

Definition POLL_INTERVAL : Z := 2 * 10 ^ 9.
Definition DEADLINE : Z := OPERATION_DEADLINE_SECS * 10 ^ 9.
Definition deadline_secs : string := decimal (DEADLINE / 10 ^ 9).

(** [let x = p?; k] for a loop that may have run out of turns *)
Definition turns_left {A B} (p : KProg (option (result A string)))
    (k : A → KProg (option (result B string))) : KProg (option (result B string)) :=
  bind p (λ o, match o with
               | None => Ret None
               | Some (Err e) => Ret (Some (Err e))
               | Some (Ok x) => k x
               end).

(** A program that always ends, inside such a loop *)
Definition finish {A} (p : KProg A) : KProg (option A) := bind p (λ x, Ret (Some x)).

(** ** reconcile.rs *)

Definition settle (p : Pod) : KProg (result Startup string) :=
  match decode_startup p with
  | Resolved st => Ret (Ok st)
  | ConfigErrorPendingSecretCheck secret =>
      b <-! ask (SecretExists secret) ;;
      Ret (Ok (if b : bool then NeverStartedRecoverable else NeverStartedProvablyBroken))
  end.

Definition observe_pod (a : AgentIdentity) : KProg (result (option VerifiedPod) string) :=
  p <-! ask (GetPod (pod_name a)) ;;
  match p with
  | None => Ret (Ok None)
  | Some p => st <-! settle p ;; Ret (Ok (verify p a st))
  end.

Definition latest_condition (a : AgentIdentity) : KProg string :=
  r <-* ask (GetPod (pod_name a)) ;;
  Ret match r with
      | Ok (Some p) => default "no condition reported by the cluster" (condition p)
      | Ok None => "the pod no longer exists"
      | Err e => "the pod's condition could not be read: " +:+ e
      end.

Definition is_terminated (st : Startup) : bool := bool_decide (st = Terminated).

(** The names of the listed pods that have terminated *)
Fixpoint terminated_names (pods : list Pod) : KProg (result (list string) string) :=
  match pods with
  | [] => Ret (Ok [])
  | p :: pods =>
      st <-! settle p ;;
      names <-! terminated_names pods ;;
      Ret (Ok (match name (metadata p) with
               | Some n => if is_terminated st then n :: names else names
               | None => names
               end))
  end.

Definition name_in (names : list string) (p : Pod) : bool :=
  match name (metadata p) with Some n => bool_decide (n ∈ names) | None => false end.

Fixpoint gc_delete_pods (names : list string) : KProg (result unit string) :=
  match names with
  | [] => Ret (Ok tt)
  | n :: names =>
      p <-! ask (GetPod n) ;;
      match p with
      | None => gc_delete_pods names
      | Some p =>
          match uid (metadata p), resource_version (metadata p) with
          | Some u, Some rv =>
              st <-! settle p ;;
              if negb (is_terminated st) then gc_delete_pods names
              else
                _ <-* ask (DeletePod n {| f_uid := u; f_resource_version := rv |}) ;;
                gc_delete_pods names
          | _, _ => gc_delete_pods names
          end
      end
  end.

Fixpoint gc_delete_secrets (names : list string) : KProg unit :=
  match names with
  | [] => Ret tt
  | n :: names => _ <-* ask (DeleteSecret n) ;; gc_delete_secrets names
  end.

Definition try_preflight_gc (a : AgentIdentity) : KProg (result unit string) :=
  listed <-! ask (ListPods (selector a)) ;;
  let (pods, server_now) := (listed : list Pod * option Z) in
  secrets <-! ask (ListSecrets (selector a)) ;;
  terminated <-! terminated_names pods ;;
  let plan := gc_plan a pods secrets (name_in terminated) server_now in
  _ <-! gc_delete_pods (gc_pods plan) ;;
  _ <-* gc_delete_secrets (gc_secrets plan) ;;
  Ret (Ok tt).

Definition preflight_gc (a : AgentIdentity) : KProg unit := _ <-* try_preflight_gc a ;; Ret tt.

Fixpoint await_disappearance (turns : nat) (n : string) : KProg (option (result unit string)) :=
  match turns with
  | 0 => Ret None
  | S turns =>
      t <-* ask Elapsed ;;
      if (t <? DEADLINE)%Z then
        r <-* ask (GetPod n) ;;
        match r with
        | Err e => Ret (Some (Err e))
        | Ok None => Ret (Some (Ok tt))
        | Ok (Some _) => _ <-* ask (Sleep POLL_INTERVAL) ;; await_disappearance turns n
        end
      else Ret (Some (Err ("timed out after " +:+ deadline_secs +:+ "s waiting for " +:+ n
                           +:+ " to finish terminating")))
  end.

Definition secret_is_referenced (a : AgentIdentity) (secret : string) : KProg (result bool string) :=
  listed <-! ask (ListPods (selector a)) ;;
  Ret (Ok (existsb (λ n, bool_decide (n = secret)) (omap referenced_secret (listed : list Pod * option Z).1))).

Definition drop_own_secret (a : AgentIdentity) (secret : string) : KProg unit :=
  r <-* secret_is_referenced a secret ;;
  match r with
  | Ok false => _ <-* ask (DeleteSecret secret) ;; Ret tt
  | _ => Ret tt
  end.

(** The loop of [adopt_winner] *)
Fixpoint await_winner (turns : nat) (a : AgentIdentity) : KProg (option (result string string)) :=
  let n := pod_name a in
  match turns with
  | 0 => Ret None
  | S turns =>
      t <-* ask Elapsed ;;
      if (DEADLINE <=? t)%Z then
        c <-* latest_condition a ;;
        Ret (Some (Err ("startup not confirmed within " +:+ deadline_secs +:+ "s for " +:+ n
                        +:+ " (another deploy of this agent created it): " +:+ c)))
      else
        r <-* observe_pod a ;;
        let again := _ <-* ask (Sleep POLL_INTERVAL) ;; await_winner turns a in
        match r with
        | Err e => Ret (Some (Err e))
        | Ok None => again
        | Ok (Some pod) =>
            if decide (startup pod = Started) then Ret (Some (Ok (v_name pod)))
            else if deletion_marked pod then
              Ret (Some (Err (n +:+ " was created by another deploy of this agent and is already being deleted; try again")))
            else if decide (startup pod ∈ [Terminated; NeverStartedProvablyBroken]) then
              c <-* latest_condition a ;;
              Ret (Some (Err (n +:+ " was created by another deploy of this agent and did not start: " +:+ c)))
            else again
        end
  end.

Definition not_managed (n : string) : string :=
  "a pod named " +:+ n +:+ " already exists in this namespace but is not managed by this provider for this agent (it lacks the management marker or carries a different agent identity). Remove it, or deploy this agent to a different namespace.".

Definition adopt_winner (turns : nat) (a : AgentIdentity) (own_secret : string)
  : KProg (option (result string string)) :=
  r <-* ask (GetPod (pod_name a)) ;;
  let adopt := _ <-* drop_own_secret a own_secret ;; await_winner turns a in
  match r with
  | Err e => Ret (Some (Err e))
  | Ok None => adopt
  | Ok (Some p) =>
      st <-* settle p ;;
      match st with
      | Err e => Ret (Some (Err e))
      | Ok st =>
          match verify p a st with
          | None => _ <-* drop_own_secret a own_secret ;; Ret (Some (Err (not_managed (pod_name a))))
          | Some _ => adopt
          end
      end
  end.

Section deploy.
Context `{TemplateJson, Sha256} (a : AgentIdentity) (cfg : ProviderConfig) (env : gmap string string).

Definition desired : Fingerprint := fingerprint (intent_template cfg (map fst (map_to_list env))).

(** The secret and the pod of one attempt *)
Definition attempt_secret (gen : string) : Secret :=
  build_secret a (namespace cfg) gen (<[START_NONCE_KEY := gen]> env).
Definition attempt_pod (gen : string) : Pod := build_pod a cfg gen desired.

Definition recreated (n c : string) : string :=
  n +:+ " was created by this deploy and did not stay running: " +:+ c
  +:+ ". Not retrying in this call — an immediate exit recurs until its cause is fixed. Check the agent's configuration and press Start to try again.".

Fixpoint reconcile (turns : nat) (created_this_call : bool) : KProg (option (result string string)) :=
  match turns with
  | 0 => Ret None
  | S turns =>
      let poll_again created := _ <-* ask (Sleep POLL_INTERVAL) ;; reconcile turns created in
      let await_gone n := turns_left (await_disappearance turns n) (λ _, reconcile turns created_this_call) in
      t <-* ask Elapsed ;;
      if (DEADLINE <=? t)%Z then
        c <-* latest_condition a ;;
        Ret (Some (Err ("startup not confirmed within " +:+ deadline_secs +:+ "s for " +:+ pod_name a
                        +:+ ": " +:+ c)))
      else
        turns_left (finish (observe_pod a)) (λ observed,
          match classify observed desired with
          | ANoOp agent_id => Ret (Some (Ok agent_id))
          | AObserve _ => poll_again created_this_call
          | AReport n failure =>
              Ret (Some (Err (n +:+ " did not start: " +:+ pull_failure_message failure (image_str (image cfg)))))
          | AAwaitDisappearance n => await_gone n
          | ADelete n f =>
              if created_this_call then
                c <-* latest_condition a ;; Ret (Some (Err (recreated n c)))
              else
                turns_left (finish (ask (DeletePod n f))) (λ o,
                  match o with
                  | Accepted | DeleteNotFound => await_gone n
                  | PreconditionFailed => poll_again created_this_call
                  end)
          | ACreate =>
              g <-* ask RandomU32 ;;
              let gen := new_generation g in
              turns_left (finish (ask (CreateSecret (attempt_secret gen)))) (λ _,
                turns_left (finish (ask (CreatePod (attempt_pod gen)))) (λ o,
                  match o with
                  | Created => poll_again true
                  | AlreadyExists => adopt_winner turns a (secret_name a gen)
                  end))
          end)
  end.

Definition deploy (turns : nat) : KProg (option (result string string)) :=
  turns_left (finish (ask (EnsureNamespace (namespace cfg)))) (λ _,
    _ <-* preflight_gc a ;;
    reconcile turns false).

End deploy.

(** ** main.rs *)

Definition RELAY_MESH_PROVIDER : string := "relay-mesh".

Definition refuse_relay_mesh (raw : Json) : option string :=
  agent ← json_get "agent" raw;
  provider ← json_get "provider" agent;
  s ← as_str provider;
  if decide (str_trim s = RELAY_MESH_PROVIDER) then
    Some "deploy refused: this agent is configured for shared compute (relay-mesh), which runs on the relay rather than in a pod. Switch the agent to a local runtime before deploying it to Kubernetes."
  else None.

Section serve.
Context `{KubeText, TemplateJson, Sha256}.

Definition deploy_agent (turns : nat) (request : DeployRequest) : KProg (option (result string string)) :=
  let fail e := Ret (Some (Err e)) in
  match config_parse (provider_config request) with
  | Err e => fail e
  | Ok cfg =>
      match from_nsec (private_key_nsec (agent request)) with
      | Err e => fail e
      | Ok a =>
          g <-* ask RandomU32 ;;
          match build_env (agent request)
                  {| generation := new_generation g; auth_inactivity_seconds := inactivity_seconds cfg |} with
          | Err e => fail e
          | Ok env =>
              turns_left (finish (ask (Connect (context cfg)))) (λ _, deploy a cfg env turns)
          end
      end
  end.

(** The decoding of a request (serde): its JSON, then its fields *)
Class RequestJson := {
  json_parse : string → result Json string;
  request_of : Json → result Request string
}.

(** wire.rs: the response, with the schema of [info] left to [config_schema] *)
Inductive Response := RInfo (config_schema : Json) | RDeployed (agent_id : string) | RError (error : string).

Definition property (title : string) (ty : string) (rest : list (string * Json)) : Json :=
  JObject ([("type", JString ty); ("title", JString title)] ++ rest).

(** The schema; the members are in the order they are written in. *)
Definition config_schema (generated : string) : Json :=
  let d := default_resources in
  let text title rest := property title "string" rest in
  let described s := ("description", JString s) in
  let dflt s := ("default", JString s) in
  JObject
    [("type", JString "object");
     ("properties", JObject
       [("context", text "Kubeconfig context"
           [described "Context from your kubeconfig. Leave empty to use the current context."]);
        ("namespace", text "Namespace" [described "Created if it does not exist."; dflt generated]);
        ("image", text "Agent image"
           [described "Digest-pinned image containing the buzz-acp runtime ABI, e.g. ghcr.io/block/buzz-sprig@sha256:<digest>. Tags alone are not accepted: this pod holds the agent's private key.";
            dflt DEFAULT_IMAGE]);
        ("cpu_request", text "CPU request" [dflt (cpu_request d)]);
        ("memory_request", text "Memory request" [dflt (memory_request d)]);
        ("cpu_limit", text "CPU limit" [dflt (cpu_limit d)]);
        ("memory_limit", text "Memory limit" [dflt (memory_limit d)]);
        ("inactivity_seconds", property "Stop after inactivity (seconds)" "number"
           [described "The agent exits after this long with no work, and can be started again at any time.";
            ("default", JNumber (decimal DEFAULT_INACTIVITY_SECONDS))]);
        ("service_account", text "Service account"
           [described "Scheduling/RBAC identity only. No API token is mounted."])]);
     ("required", JArray [JString "namespace"; JString "image"])].

(** [k] draws from the alphabet *)
Fixpoint random_indices (k : nat) : KProg (list nat) :=
  match k with
  | 0 => Ret []
  | S k => i <-* ask RandomIndex ;; l <-* random_indices k ;; Ret (i :: l)
  end.

Definition respond `{RequestJson} (turns : nat) (input : string) : KProg (option Response) :=
  match json_parse input with
  | Err e => Ret (Some (RError ("request is not valid JSON: " +:+ e)))
  | Ok raw =>
      match refuse_relay_mesh raw with
      | Some refusal => Ret (Some (RError refusal))
      | None =>
          match request_of raw with
          | Err e => Ret (Some (RError ("could not understand the request: " +:+ e)))
          | Ok Info => l <-* random_indices 6 ;; Ret (Some (RInfo (config_schema (generated_namespace l))))
          | Ok (Deploy r) =>
              runtime <-* ask StartRuntime ;;
              match runtime with
              | Err e => Ret (Some (RError ("could not start the runtime: " +:+ e)))
              | Ok _ =>
                  o <-* deploy_agent turns r ;;
                  Ret match o with
                      | None => None
                      | Some (Ok agent_id) => Some (RDeployed agent_id)
                      | Some (Err e) => Some (RError e)
                      end
              end
          end
      end
  end.

End serve.
