(* ===== verification/KubeDeploySpec.v ===== *)
(** * What a deploy may do to the cluster

    Facts about the calls a request makes, for every answer of the cluster: nothing is
    touched before the request is valid, a pod is deleted only on the authority of the
    reading its fence comes from, a Secret only when nothing that lives needs it, a pod is
    created only after its own Secret, and success names a pod that was seen running. *)

From S2P Require Import Prelude Text StdText Json Interaction KubeConfig KubeObjects KubeDeploy.

Open Scope string_scope.
Open Scope nat_scope.
Open Scope list_scope.

(** ** A run of two programs in sequence *)

Lemma runs_bind_ret {Ev} {Ans : Ev → Type} {A B} (p : @Prog Ev Ans A) (f : A → @Prog Ev Ans B) (h : list Entry) (b : B) :
  runs (bind p f) h (Ret b) → ∃ x t u, h = t ++ u ∧ runs p t (Ret x) ∧ runs (f x) u (Ret b).
Proof.
  intros [(q & Hq & Hb)|(x & t & u & ?)]%runs_bind; [|by exists x, t, u].
  destruct q as [x|e k]; [|done]. exists x, h, []. by rewrite app_nil_r.
Qed.

(** ** Readings *)

(** Marked as the provider's and this agent's *)
Definition ours (a : AgentIdentity) (p : Pod) : Prop :=
  has_marker (meta_labels (metadata p)) = true ∧ annotation_matches (annotations (metadata p)) a = true.

Definition is_fence (p : Pod) (f : Fence) : Prop :=
  uid (metadata p) = Some (f_uid f) ∧ resource_version (metadata p) = Some (f_resource_version f).

(** The reads [t] settle the startup state of [p]: at most one look for its Secret. *)
Definition settled (t : list KEntry) (p : Pod) (st : Startup) : Prop :=
  match decode_startup p with
  | Resolved s => t = [] ∧ st = s
  | ConfigErrorPendingSecretCheck n =>
      ∃ b : bool, t = [kube (SecretExists n) (Ok b)]
        ∧ st = if b then NeverStartedRecoverable else NeverStartedProvablyBroken
  end.

(** The history ends with a reading of the pod [n]: [p], in the state [st]. *)
Definition read_last (h : list KEntry) (n : string) (p : Pod) (st : Startup) : Prop :=
  ∃ h0 t, h = h0 ++ kube (GetPod n) (Ok (Some p)) :: t ∧ settled t p st.

(** ** Garbage *)

(** One of the listed pods of that name has terminated. *)
Definition dead (h : list KEntry) (pods : list Pod) (n : string) : Prop :=
  ∃ q t, q ∈ pods ∧ name (metadata q) = Some n ∧ settled t q Terminated ∧ t ⊆ h.

(** An own Secret that is older than twice the deadline by the server's clock *)
Definition old_secret (a : AgentIdentity) (now : option Z) (n : string) (s : Secret) : Prop :=
  secret_is_ours s a = true ∧ name (s_metadata s) = Some n ∧
  ∃ t c, now = Some t ∧ creation_timestamp (s_metadata s) = Some c
    ∧ (2 * OPERATION_DEADLINE_SECS * 10 ^ 9 ≤ t - c)%Z.

Section verify.
Context (a : AgentIdentity).

(** A verified pod: marked, with a name and a fence *)
Definition verified (p : Pod) : Prop := is_Some (verify p a Started).

Lemma verify_exact (p : Pod) (st : Startup) (v : VerifiedPod) :
  verify p a st = Some v ↔
  ours a p ∧ name (metadata p) = Some (v_name v) ∧ is_fence p (fence v)
    ∧ deletion_marked v = bool_decide (is_Some (deletion_timestamp (metadata p))) ∧ startup v = st
    ∧ recorded_intent v = annotations (metadata p) ≫= (λ x, x !! ANNOTATION_CREATE_INTENT).
Proof.
  unfold verify, ours, is_fence. destruct (has_marker _); cbn [negb]; [|by split; [|intros [[? _] _]]].
  destruct (annotation_matches _ _); cbn [negb]; [|by split; [|intros [[_ ?] _]]].
  destruct (metadata p) as [[n|] ? ? an [u|] [rv|] ? dl]; simpl; try (split; [done|naive_solver]).
  destruct v as [vn [vu vr] vd vs vi]; simpl. split; [intros [= <- <- <- <- <- <-]; done|].
  intros (_ & Hn & [Hu Hr] & -> & -> & ->). by simplify_eq.
Qed.

Lemma verified_ours (p : Pod) : verified p → ours a p.
Proof. intros [v Hv]. by apply verify_exact in Hv as [? _]. Qed.

Lemma verified_name (p : Pod) : verified p → is_Some (name (metadata p)).
Proof. intros [v Hv]. apply verify_exact in Hv as (_ & -> & _). by eexists. Qed.

End verify.

Lemma num_seconds_old (x y : Z) :
  (ORPHAN_SECRET_MIN_AGE_SECS <=? num_seconds (x - y))%Z = true
  ↔ (2 * OPERATION_DEADLINE_SECS * 10 ^ 9 ≤ x - y)%Z.
Proof.
  unfold ORPHAN_SECRET_MIN_AGE_SECS, num_seconds, OPERATION_DEADLINE_SECS. rewrite Z.leb_le.
  change (10 ^ 9)%Z with 1000000000%Z. Z.to_euclidean_division_equations. lia.
Qed.

Section plan.
Context (a : AgentIdentity) (pods : list Pod) (secrets : list Secret) (doomed : Pod → bool).
Abbreviation verified := (verified a).

(** The Secrets the plan keeps alive: those of verified pods outside the plan *)
Definition protected_secret (n : string) : Prop :=
  ∃ q m, q ∈ pods ∧ verified q ∧ name (metadata q) = Some m ∧ referenced_secret q = Some n
    ∧ ∀ d, d ∈ pods → verified d → doomed d = true → name (metadata d) ≠ Some m.

Lemma elem_of_sweep (now : Z) (protected planned : list string) (l : list Secret) (n : string) :
  n ∈ sweep a now protected planned l ↔
  n ∈ planned ∨ (n ∉ protected ∧ ∃ s, s ∈ l ∧ old_secret a (Some now) n s).
Proof.
  revert planned. induction l as [|s l IH]; intros planned; simpl; [set_solver|].
  assert (sweep_secret a now protected planned s = Some n →
    n ∉ protected ∧ old_secret a (Some now) n s) as Hs.
  { unfold sweep_secret, old_secret. destruct (secret_is_ours s a); simpl; [|done].
    destruct (name (s_metadata s)) as [m|]; simpl; [|done].
    case_bool_decide; simpl; [done|]. case_bool_decide; simpl; [done|].
    destruct (creation_timestamp (s_metadata s)) as [c|]; simpl; [|done].
    destruct (_ <=? _)%Z eqn:Ho; [|done]. apply num_seconds_old in Ho. intros [= ->]. naive_solver. }
  assert (n ∉ protected → old_secret a (Some now) n s →
    n ∈ planned ∨ sweep_secret a now protected planned s = Some n) as Hs'.
  { unfold sweep_secret, old_secret. intros Hp (-> & -> & t & c & [= <-] & -> & Ho). simpl.
    rewrite (bool_decide_eq_false_2 _ Hp). simpl. case_bool_decide; [by left|]. simpl. right.
    by rewrite (proj2 (num_seconds_old _ _) Ho). }
  destruct (sweep_secret a now protected planned s) as [m|] eqn:Hm; rewrite IH; clear IH.
  - rewrite elem_of_app, list_elem_of_singleton. split; [|set_solver].
    intros [[Hn| ->]|(Hn & s' & Hs'' & Ho)]; [by left| |]; right.
    + destruct (Hs eq_refl). split; [done|]. exists s. set_solver.
    + split; [done|]. exists s'. set_solver.
  - set_solver.
Qed.

(** C22 The plan of a garbage collection is exact: the pods are the terminated ones among
    those that carry the marker, the full key and a fence; the Secrets are all those that these
    pods reference, whether the Secret carries marker and annotation or not, and, by the
    server's clock only, own (marked and annotated) Secrets older than twice the deadline that
    no other verified pod references. The first half of the Secrets is where the code does less
    than gc.rs and docs/remote-agents.md say, namely that every deleted Secret passes the
    annotation check and carries the marker; [KubeExamples.collection_drops_unmarked_secret]
    is a collection that deletes one that does not. *)
Theorem gc_plan_exact (now : option Z) (n : string) :
  (n ∈ gc_pods (gc_plan a pods secrets doomed now) ↔
     ∃ q, q ∈ pods ∧ verified q ∧ doomed q = true ∧ name (metadata q) = Some n)
  ∧ (n ∈ gc_secrets (gc_plan a pods secrets doomed now) ↔
     (∃ q, q ∈ pods ∧ verified q ∧ doomed q = true ∧ referenced_secret q = Some n)
     ∨ (¬ protected_secret n ∧ ∃ s, s ∈ secrets ∧ old_secret a now n s)).
Proof.
  unfold gc_plan. set (mine := List.filter _ pods). set (dead_pods := List.filter doomed mine).
  assert (∀ q, q ∈ mine ↔ q ∈ pods ∧ verified q) as Hmine.
  { intros q. unfold mine. rewrite !list_elem_of_In, filter_In, bool_decide_eq_true. done. }
  assert (∀ q, q ∈ dead_pods ↔ q ∈ pods ∧ verified q ∧ doomed q = true) as Hdead.
  { intros q. unfold dead_pods. rewrite list_elem_of_In, filter_In, <- list_elem_of_In, Hmine. naive_solver. }
  split; simpl.
  - rewrite list_elem_of_omap. naive_solver.
  - assert (∀ n, n ∈ omap referenced_secret dead_pods ↔
      ∃ q, q ∈ pods ∧ verified q ∧ doomed q = true ∧ referenced_secret q = Some n) as Href.
    { intros m. rewrite list_elem_of_omap. naive_solver. }
    destruct now as [now|]; [rewrite elem_of_sweep|]; rewrite Href; cycle 1.
    { split; [by left|]. intros [|(_ & s & _ & _ & _ & t & c & [=] & _)]; done. }
    match goal with |- context [n ∉ ?l] => assert (n ∈ l ↔ protected_secret n) as Hprot end.
    { rewrite list_elem_of_omap. unfold protected_secret. split.
      - intros (q & Hq & Hn). rewrite list_elem_of_In, filter_In, <- list_elem_of_In, Hmine in Hq.
        destruct Hq as [[Hq Hv] Hd]. destruct (verified_name a q Hv) as [m Hm].
        exists q, m. split_and!; try done. intros d Hd1 Hd2 Hd3 Hd4.
        rewrite Hm in Hd. cbn in Hd. apply negb_true_iff, bool_decide_eq_false in Hd. apply Hd.
        apply list_elem_of_omap. exists d. by rewrite Hdead.
      - intros (q & m & Hq & Hv & Hm & Hn & Hd). exists q. split; [|done].
        rewrite list_elem_of_In, filter_In, <- list_elem_of_In, Hmine. split; [done|].
        rewrite Hm. cbn. apply negb_true_iff, bool_decide_eq_false. intros (d & Hd1 & Hd2)%list_elem_of_omap.
        apply Hdead in Hd1 as (? & ? & ?). by eapply Hd. }
    rewrite Hprot. done.
Qed.

End plan.

(** ** What every call of a deploy rests on *)

Section deploy.
Context `{TemplateJson, Sha256} (a : AgentIdentity) (cfg : ProviderConfig) (env : gmap string string).

(** Why the pod that was read may be replaced: it has terminated, is provably broken, or never
    started and records another intent than this deploy's. *)
Definition replaceable (p : Pod) (st : Startup) : Prop :=
  st = Terminated ∨ st = NeverStartedProvablyBroken
  ∨ st = NeverStartedRecoverable
    ∧ annotations (metadata p) ≫= (λ x, x !! ANNOTATION_CREATE_INTENT) ≠ Some (desired cfg env).

(** This call has created no pod. *)
Definition none_created (h : list KEntry) : Prop := ∀ p, kube (CreatePod p) (Ok Created) ∉ h.

(** The authority of the loop: the last reading, of the own pod, whose fence is used *)
Definition loop_may_delete (h : list KEntry) (n : string) (f : Fence) : Prop :=
  ∃ p st, read_last h (pod_name a) p st ∧ ours a p ∧ name (metadata p) = Some n ∧ is_fence p f
    ∧ deletion_timestamp (metadata p) = None ∧ replaceable p st ∧ none_created h.

(** The authority of the collection: the last reading shows a terminated pod, and one of that
    name was listed, verified and terminated. *)
Definition gc_may_delete (h : list KEntry) (n : string) (f : Fence) : Prop :=
  (∃ p, read_last h n p Terminated ∧ is_fence p f) ∧
  ∃ pods now q, kube (ListPods (selector a)) (Ok (pods, now)) ∈ h ∧ q ∈ pods ∧ verified a q
    ∧ name (metadata q) = Some n ∧ dead h pods n.

(** A Secret of a terminated pod of the list, or an old own one that no other pod needs *)
Definition gc_may_drop (h : list KEntry) (n : string) : Prop :=
  ∃ pods now secrets,
    kube (ListPods (selector a)) (Ok (pods, now)) ∈ h
    ∧ kube (ListSecrets (selector a)) (Ok secrets) ∈ h
    ∧ ((∃ q m, q ∈ pods ∧ verified a q ∧ name (metadata q) = Some m ∧ dead h pods m
               ∧ referenced_secret q = Some n)
       ∨ (∃ s, s ∈ secrets ∧ old_secret a now n s)
         ∧ ∀ q m, q ∈ pods → verified a q → name (metadata q) = Some m → referenced_secret q = Some n →
                  dead h pods m).

(** The Secret of this call's own lost attempt, when no listed pod references it *)
Definition loser_may_drop (h : list KEntry) (n : string) : Prop :=
  ∃ h0 gen pods now, h = h0 ++ [kube (ListPods (selector a)) (Ok (pods, now))]
    ∧ n = secret_name a gen
    ∧ kube (CreateSecret (attempt_secret a cfg env gen)) (Ok tt) ∈ h0
    ∧ kube (CreatePod (attempt_pod a cfg env gen)) (Ok AlreadyExists) ∈ h0
    ∧ ∀ q, q ∈ pods → referenced_secret q ≠ Some n.

(** The last reading found no pod of this agent's under its name. *)
Definition read_unowned (h : list KEntry) : Prop :=
  ∃ h0 t, h = h0 ++ t ∧
    (t = [kube (GetPod (pod_name a)) (Ok None)]
     ∨ ∃ p u st, t = kube (GetPod (pod_name a)) (Ok (Some p)) :: u ∧ settled u p st ∧ verify p a st = None).

Definition rests_on (h : list KEntry) (x : KEntry) : Prop :=
  match call x with
  | EnsureNamespace ns => ns = namespace cfg
  | CreateSecret s =>
      ∃ h0 g, h = h0 ++ [kube RandomU32 g] ∧ s = attempt_secret a cfg env (new_generation g) ∧ read_unowned h0
  | CreatePod p =>
      ∃ h0 g, h = h0 ++ [kube RandomU32 g;
                         kube (CreateSecret (attempt_secret a cfg env (new_generation g))) (Ok tt)]
        ∧ p = attempt_pod a cfg env (new_generation g)
  | DeletePod n f => loop_may_delete h n f ∨ gc_may_delete h n f
  | DeleteSecret n => gc_may_drop h n ∨ loser_may_drop h n
  | StartRuntime | Connect _ => False
  | _ => True
  end.

(** The pod that a successful deploy names was just read running, under this agent's key; it was
    not being deleted, unless this call lost the creation to another. *)
Definition started (h : list KEntry) (agent_id : string) : Prop :=
  ∃ p, read_last h (pod_name a) p Started ∧ ours a p ∧ name (metadata p) = Some agent_id
    ∧ (deletion_timestamp (metadata p) = None
       ∨ ∃ q, kube (CreatePod q) (Ok AlreadyExists) ∈ h).

Definition outcome (r : option (result string string)) (h : list KEntry) : Prop :=
  ∀ agent_id, r = Some (Ok agent_id) → started h agent_id.

(** *** Rules *)

Lemma wp_turns_left {A B} P (p : KProg (option (result A string))) (k : A → KProg (option (result B string)))
    h (Q : option (result B string) → list KEntry → Prop) :
  wp P p h (λ o h', match o with
                    | None => Q None h'
                    | Some (Err e) => Q (Some (Err e)) h'
                    | Some (Ok x) => wp P (k x) h' Q
                    end) →
  wp P (turns_left p k) h Q.
Proof. intros Hw. apply wp_bind. eapply wp_mono; [|exact Hw]. by intros [[x|e]|] h'. Qed.

Lemma wp_finish {A} P (p : KProg A) h (Q : option A → list KEntry → Prop) :
  wp P p h (λ x, Q (Some x)) → wp P (finish p) h Q.
Proof. intros Hw. apply wp_bind. eapply wp_mono; [|exact Hw]. done. Qed.

(** Calls that need no authority and create nothing *)
Definition observing (e : KubeCall) : Prop :=
  match e with
  | ListPods _ | ListSecrets _ | SecretExists _ | GetPod _ | Sleep _ | Elapsed => True
  | _ => False
  end.

Lemma observing_rests (h : list KEntry) (x : KEntry) : observing (call x) → rests_on h x.
Proof. unfold rests_on. by destruct (call x). Qed.

Lemma observing_none_created (h : list KEntry) (x : KEntry) :
  observing (call x) → none_created h → none_created (h ++ [x]).
Proof.
  intros Hx Hh p [Hp|Hp]%elem_of_app; [by eapply Hh|]. apply list_elem_of_singleton in Hp as <-. done.
Qed.

(** A program that only observes, from its [calls]: the history is extended by observations. *)
Lemma wp_observing {A} (p : KProg A) (h : list KEntry) (Q : A → list KEntry → Prop) :
  calls observing p (λ _, True) →
  (∀ r t, runs p t (Ret r) → (∀ x, x ∈ t → observing (call x)) → Q r (h ++ t)) →
  wp rests_on p h Q.
Proof.
  revert h. induction p as [x|e k IH]; intros h; simpl.
  - intros _ HQ. specialize (HQ x [] eq_refl). rewrite app_nil_r in HQ. apply HQ. set_solver.
  - intros [He Hk] HQ r. split; [by apply observing_rests|]. apply IH; [done|].
    intros r' t Hr Ht. rewrite <- app_assoc. apply HQ; [by exists r|]. simpl.
    intros x [->|Hx]%elem_of_cons; [done|by apply Ht].
Qed.

Lemma none_created_app (h t : list KEntry) :
  none_created h → (∀ x, x ∈ t → observing (call x)) → none_created (h ++ t).
Proof.
  intros Hh Ht p [Hp|Hp]%elem_of_app; [by eapply Hh|]. by apply Ht in Hp.
Qed.

(** *** Programs that observe *)

Lemma settle_observing (p : Pod) : calls observing (settle p) (λ _, True).
Proof. unfold settle. destruct (decode_startup p); simpl; [done|]. split; [done|]. by intros [b|e]. Qed.

Lemma settle_runs (p : Pod) (t : list KEntry) (st : Startup) :
  runs (settle p) t (Ret (Ok st)) → settled t p st.
Proof.
  unfold settle, settled. destruct (decode_startup p) as [s|n]; simpl.
  - destruct t as [|x t]; [by intros [= ->]|done].
  - destruct t as [|x t]; [done|]. intros (r & -> & Hr). destruct r as [b|e], t as [|y t]; simplify_eq/=; [|done..].
    by exists b.
Qed.

Lemma observe_pod_observing : calls observing (observe_pod a) (λ _, True).
Proof.
  split; [done|]. intros [[p|]|e]; simpl; try done. apply calls_bind.
  eapply calls_mono; [done| |apply settle_observing]. by intros [st|e] _.
Qed.

Lemma observe_pod_runs (t : list KEntry) (o : option VerifiedPod) :
  runs (observe_pod a) t (Ret (Ok o)) →
  match o with
  | None => read_unowned t
  | Some v => ∃ p u, t = kube (GetPod (pod_name a)) (Ok (Some p)) :: u ∧ settled u p (startup v)
                ∧ verify p a (startup v) = Some v
  end.
Proof.
  destruct t as [|x t]; [done|]. intros (r & -> & Hr). destruct r as [[p|]|e]; simpl in Hr.
  - apply runs_bind_ret in Hr as (st & u & w & -> & Hu & Hw).
    destruct st as [st|e], w as [|y w]; simplify_eq/=; [|done..]. rewrite app_nil_r.
    apply settle_runs in Hu. destruct (verify p a st) as [v|] eqn:Hv.
    + destruct (proj1 (verify_exact _ _ _ _) Hv) as (_ & _ & _ & _ & <- & _). by exists p, u.
    + exists [], (kube (GetPod (pod_name a)) (Ok (Some p)) :: u). split; [done|]. right. by exists p, u, st.
  - destruct t as [|y t]; simplify_eq/=; [|done]. exists [], [kube (GetPod (pod_name a)) (Ok None)].
    split; [done|]. by left.
  - by destruct t as [|y t]; simplify_eq/=.
Qed.

Lemma latest_condition_observing : calls observing (latest_condition a) (λ _, True).
Proof. done. Qed.

Lemma terminated_names_observing (pods : list Pod) : calls observing (terminated_names pods) (λ _, True).
Proof.
  induction pods as [|p pods IH]; simpl; [done|]. apply calls_bind.
  eapply calls_mono; [done| |apply settle_observing]. intros [st|e] _; simpl; [|done].
  apply calls_bind. eapply calls_mono; [done| |exact IH]. by intros [l|e] _.
Qed.

Lemma terminated_names_dead (pods : list Pod) (t : list KEntry) (l : list string) (n : string) :
  runs (terminated_names pods) t (Ret (Ok l)) → n ∈ l → dead t pods n.
Proof.
  revert t l. induction pods as [|p pods IH]; intros t l; simpl.
  - destruct t; [|done]. intros [= ->]. by intros ?%elem_of_nil.
  - intros (st & u & w & -> & Hu & Hw)%runs_bind_ret.
    destruct st as [st|e]; [|by destruct w; simplify_eq/=]. apply settle_runs in Hu.
    apply runs_bind_ret in Hw as (ns & u' & w' & -> & Hu' & Hw).
    destruct ns as [ns|e]; [|by destruct w'; simplify_eq/=]. destruct w'; [|done]. simplify_eq/=.
    rewrite app_nil_r. intros Hn.
    assert (n ∈ ns ∨ (st = Terminated ∧ name (metadata p) = Some n)) as [Hns|[-> Hp]].
    { destruct (name (metadata p)) as [m|]; [|by left]. unfold is_terminated in Hn.
      case_bool_decide; [|by left]. apply elem_of_cons in Hn as [->|Hn]; [by right|by left]. }
    + destruct (IH _ _ Hu' Hns) as (q & t & Hq & Hm & Ht & Hsub). exists q, t.
      split_and!; [by right|done..|set_solver].
    + exists p, u. split_and!; [by left|done..|set_solver].
Qed.

Lemma await_disappearance_observing (turns : nat) (n : string) :
  calls observing (await_disappearance turns n) (λ _, True).
Proof.
  induction turns as [|turns IH]; simpl; [done|]. split; [done|]. intros t.
  destruct (t <? DEADLINE)%Z; simpl; [|done]. split; [done|]. by intros [[p|]|e].
Qed.

(** *** The collection *)

Lemma gc_delete_pods_wp (names : list string) (pods : list Pod) (now : option Z) (h : list KEntry)
    (Q : result unit string → list KEntry → Prop) :
  kube (ListPods (selector a)) (Ok (pods, now)) ∈ h →
  (∀ n, n ∈ names → ∃ q, q ∈ pods ∧ verified a q ∧ name (metadata q) = Some n ∧ dead h pods n) →
  none_created h →
  (∀ r h', none_created h' → h ⊆ h' → Q r h') →
  wp rests_on (gc_delete_pods names) h Q.
Proof.
  revert h. induction names as [|n names IH]; intros h Hl Hnames Hh HQ; simpl; [by apply HQ|].
  assert (∀ t, (∀ x, x ∈ t → ∀ p, x ≠ kube (CreatePod p) (Ok Created)) →
    wp rests_on (gc_delete_pods names) (h ++ t) Q) as Hgo.
  { intros t Ht. apply IH; [set_solver| | |].
    - intros m Hm. destruct (Hnames m) as (q & Hq & Hv & Hn & q' & u & Hu); [by right|].
      exists q. split_and!; try done. exists q', u. destruct Hu as (? & ? & ? & ?). split_and!; try done. set_solver.
    - intros p [Hp|Hp]%elem_of_app; [by eapply Hh|]. by eapply Ht.
    - intros r h' Hc Hsub. apply HQ; [done|set_solver]. }
  intros r. split; [done|]. destruct r as [[p|]|e]; simpl; [| |apply HQ]; cycle 1.
  { apply (Hgo [kube (GetPod n) (Ok None)]). intros x ->%list_elem_of_singleton. done. }
  { intros p [Hp|Hp]%elem_of_app; [by eapply Hh|]. by apply list_elem_of_singleton in Hp. }
  { set_solver. }
  assert (∀ x, x ∈ [kube (GetPod n) (Ok (Some p))] → ∀ q, x ≠ kube (CreatePod q) (Ok Created)) as Hget.
  { by intros x ->%list_elem_of_singleton. }
  destruct (uid (metadata p)) as [u|] eqn:Hu; [|by apply Hgo].
  destruct (resource_version (metadata p)) as [rv|] eqn:Hrv; [|by apply Hgo].
  apply wp_bind, wp_observing; [apply settle_observing|]. intros r t Hr Ht. rewrite <- app_assoc.
  assert (∀ x, x ∈ [kube (GetPod n) (Ok (Some p))] ++ t → ∀ q, x ≠ kube (CreatePod q) (Ok Created)) as Hnew.
  { intros x [Hx|Hx]%elem_of_app; [by apply Hget|]. intros q ->. by apply Ht in Hx. }
  destruct r as [st|e]; simpl.
  - unfold is_terminated. case_bool_decide as Hst; simpl; [subst st|by apply (Hgo ([kube (GetPod n) (Ok (Some p))] ++ t))].
    intros r. split.
    + right. split.
      * exists p. split; [|by split]. exists h, t. split; [done|]. by apply settle_runs.
      * destruct (Hnames n) as (q & Hq & Hv & Hn & q' & u' & ? & ? & ? & ?); [by left|].
        exists pods, now, q. split_and!; try done; [set_solver|].
        exists q', u'. split_and!; try done. set_solver.
    + rewrite <- app_assoc. apply Hgo. intros x Hx q Heq. subst x.
      apply elem_of_app in Hx as [Hx|Hx]; [by apply (Hnew _ Hx q)|by apply list_elem_of_singleton in Hx].
  - apply HQ; [|set_solver]. intros q [Hq|Hq]%elem_of_app; [by eapply Hh|]. by eapply Hnew.
Qed.

Lemma dead_mono (h h' : list KEntry) (pods : list Pod) (n : string) :
  h ⊆ h' → dead h pods n → dead h' pods n.
Proof. intros Hsub (q & t & ? & ? & ? & Ht). exists q, t. split_and!; try done. set_solver. Qed.

Lemma gc_may_drop_mono (h h' : list KEntry) (n : string) : h ⊆ h' → gc_may_drop h n → gc_may_drop h' n.
Proof.
  intros Hsub (pods & now & secrets & Hp & Hs & Hd). exists pods, now, secrets.
  split_and!; [by apply Hsub|by apply Hsub|]. destruct Hd as [(q & m & ? & ? & ? & Hm & ?)|[Hs' Hd]].
  - left. exists q, m. split_and!; try done. by eapply dead_mono.
  - right. split; [done|]. intros q m ????. eapply dead_mono; [done|]. by apply (Hd q).
Qed.

Lemma gc_delete_secrets_wp (names : list string) (h : list KEntry) (Q : unit → list KEntry → Prop) :
  (∀ n, n ∈ names → gc_may_drop h n) → none_created h → (∀ h', none_created h' → Q tt h') →
  wp rests_on (gc_delete_secrets names) h Q.
Proof.
  revert h. induction names as [|n names IH]; intros h Hn Hh HQ; simpl; [by apply HQ|].
  intros r. split; [left; apply Hn; by left|]. apply IH; [| |done].
  - intros m Hm. apply (gc_may_drop_mono h); [set_solver|]. apply Hn. by right.
  - intros p [Hp|Hp]%elem_of_app; [by eapply Hh|]. by apply list_elem_of_singleton in Hp.
Qed.

(** What the plan was made of: the names that had terminated *)
Lemma plan_dead (h : list KEntry) (pods : list Pod) (secrets : list Secret) (names : list string) (now : option Z) :
  (∀ n, n ∈ names → dead h pods n) →
  kube (ListPods (selector a)) (Ok (pods, now)) ∈ h → kube (ListSecrets (selector a)) (Ok secrets) ∈ h →
  let plan := gc_plan a pods secrets (name_in names) now in
  (∀ n, n ∈ gc_pods plan →
     ∃ q, q ∈ pods ∧ verified a q ∧ name (metadata q) = Some n ∧ dead h pods n)
  ∧ ∀ n, n ∈ gc_secrets plan → gc_may_drop h n.
Proof.
  intros Hdead Hp Hs plan.
  assert (∀ q m, name (metadata q) = Some m → name_in names q = true ↔ m ∈ names) as Hin.
  { intros q m Hm. unfold name_in. by rewrite Hm, bool_decide_eq_true. }
  split; intros n Hn; apply gc_plan_exact in Hn.
  - destruct Hn as (q & Hq & Hv & Hd & Hname). exists q. split_and!; try done. apply Hdead. by apply (Hin q).
  - exists pods, now, secrets. split_and!; try done. destruct Hn as [(q & Hq & Hv & Hd & Hr)|[Hprot Ho]].
    + left. destruct (verified_name a q Hv) as [m Hm]. exists q, m. split_and!; try done.
      apply Hdead. by apply (Hin q).
    + right. split; [done|]. intros q m Hq Hv Hm Hr. apply Hdead.
      destruct (decide (m ∈ names)) as [|Hne]; [done|]. destruct Hprot. exists q, m. split_and!; try done.
      intros d Hd Hdv Hdd Hdn. apply Hne. by apply (Hin d).
Qed.

Lemma preflight_gc_wp (h : list KEntry) (Q : unit → list KEntry → Prop) :
  none_created h → (∀ h', none_created h' → Q tt h') → wp rests_on (preflight_gc a) h Q.
Proof.
  intros Hh HQ. apply wp_bind. simpl. intros r. split; [done|].
  assert (∀ h' x, none_created h' → observing (call x) → none_created (h' ++ [x])) as Hobs.
  { intros. by apply observing_none_created. }
  destruct r as [[pods now]|e]; simpl; [|by apply HQ, Hobs]. intros r. split; [done|].
  destruct r as [secrets|e]; simpl; [|apply HQ; by repeat apply Hobs]. rewrite <- app_assoc.
  set (l := [entry (ListPods (selector a)) (Ok (pods, now))] ++ [entry (ListSecrets (selector a)) (Ok secrets)]).
  assert (none_created (h ++ l)) as Hl by (unfold l; rewrite app_assoc; by repeat apply Hobs).
  apply wp_bind, wp_observing; [apply terminated_names_observing|]. intros r t Hr Ht.
  destruct r as [names|e]; simpl; [|by apply HQ, none_created_app].
  destruct (plan_dead ((h ++ l) ++ t) pods secrets names now) as [Hpods Hsecrets].
  { intros n Hn. apply (dead_mono t); [set_solver|]. by eapply terminated_names_dead. }
  { unfold l, kube. set_solver. } { unfold l, kube. set_solver. }
  apply wp_bind, (gc_delete_pods_wp _ pods now); [unfold l, kube; set_solver|done|by apply none_created_app|].
  intros r h' Hh' Hsub. destruct r as [[]|e]; simpl; [|by apply HQ].
  apply wp_bind, gc_delete_secrets_wp; [|done|].
  - intros n Hn. eapply gc_may_drop_mono; [exact Hsub|]. by apply Hsecrets.
  - intros h'' Hh''. by apply HQ.
Qed.

(** *** Losing the creation *)

Lemma drop_own_secret_wp (gen : string) (h : list KEntry) (Q : unit → list KEntry → Prop) :
  kube (CreateSecret (attempt_secret a cfg env gen)) (Ok tt) ∈ h →
  kube (CreatePod (attempt_pod a cfg env gen)) (Ok AlreadyExists) ∈ h →
  (∀ h', h ⊆ h' → Q tt h') → wp rests_on (drop_own_secret a (secret_name a gen)) h Q.
Proof.
  intros Hs Hp HQ. intros r. split; [done|]. destruct r as [[pods now]|e]; simpl; [|apply HQ; set_solver].
  destruct (existsb _ _) eqn:He; simpl; [apply HQ; set_solver|]. intros r. split; [|apply HQ; set_solver].
  right. exists h, gen, pods, now. split_and!; try done. intros q Hq Hr.
  assert (existsb (λ n, bool_decide (n = secret_name a gen)) (omap referenced_secret pods) = true) as Ht; [|congruence].
  apply existsb_exists. exists (secret_name a gen). rewrite bool_decide_eq_true, <- list_elem_of_In.
  split; [|done]. apply list_elem_of_omap. by exists q.
Qed.

Lemma latest_condition_outcome (h : list KEntry) (f : string → string) :
  wp rests_on (bind (latest_condition a) (λ c, Ret (Some (Err (f c))))) h outcome.
Proof. intros r. split; [done|]. by intros ? ?. Qed.

(** The reading behind a verified pod *)
Lemma observed_started (h t : list KEntry) (v : VerifiedPod) :
  (∃ p u, t = kube (GetPod (pod_name a)) (Ok (Some p)) :: u ∧ settled u p (startup v)
     ∧ verify p a (startup v) = Some v) →
  ∃ p, read_last (h ++ t) (pod_name a) p (startup v) ∧ ours a p ∧ name (metadata p) = Some (v_name v)
    ∧ is_fence p (fence v) ∧ deletion_marked v = bool_decide (is_Some (deletion_timestamp (metadata p)))
    ∧ recorded_intent v = annotations (metadata p) ≫= (λ x, x !! ANNOTATION_CREATE_INTENT).
Proof.
  intros (p & u & -> & Hu & Hv). apply verify_exact in Hv as (Ho & Hn & Hf & Hd & _ & Hi).
  exists p. split_and!; try done. by exists h, u.
Qed.

Lemma await_winner_wp (turns : nat) (h : list KEntry) :
  (∃ q, kube (CreatePod q) (Ok AlreadyExists) ∈ h) → wp rests_on (await_winner turns a) h outcome.
Proof.
  revert h. induction turns as [|turns IH]; intros h Hlost; [done|].
  cbn [await_winner]. apply wp_ask. intros t. split; [done|].
  assert (∃ q, kube (CreatePod q) (Ok AlreadyExists) ∈ h ++ [entry Elapsed t]) as Hlost1 by set_solver.
  destruct (DEADLINE <=? t)%Z; [apply latest_condition_outcome|].
  apply wp_bind, wp_observing; [apply observe_pod_observing|]. intros r u Hr Hu.
  assert (∃ q, kube (CreatePod q) (Ok AlreadyExists) ∈ (h ++ [entry Elapsed t]) ++ u) as Hlost2 by set_solver.
  assert (wp rests_on (bind (ask (Sleep POLL_INTERVAL)) (λ _, await_winner turns a))
            ((h ++ [entry Elapsed t]) ++ u) outcome) as Hagain.
  { intros r'. split; [done|]. apply IH. set_solver. }
  destruct r as [[v|]|e]; [|exact Hagain|by intros ? ?].
  apply observe_pod_runs in Hr. destruct (observed_started (h ++ [entry Elapsed t]) u v Hr) as (p & Hp & Ho & Hn & _).
  case_decide as Hst; [|destruct (deletion_marked v); [by intros ? ?|]; case_decide; [apply latest_condition_outcome|exact Hagain]].
  intros agent_id [= <-]. exists p. rewrite Hst in Hp. split_and!; try done. by right.
Qed.

Lemma adopt_winner_wp (turns : nat) (gen : string) (h : list KEntry) :
  kube (CreateSecret (attempt_secret a cfg env gen)) (Ok tt) ∈ h →
  kube (CreatePod (attempt_pod a cfg env gen)) (Ok AlreadyExists) ∈ h →
  wp rests_on (adopt_winner turns a (secret_name a gen)) h outcome.
Proof.
  intros Hs Hp. apply wp_ask. intros r. split; [done|].
  assert (∀ h', h ⊆ h' → wp rests_on
    (bind (drop_own_secret a (secret_name a gen)) (λ _, await_winner turns a)) h' outcome) as Hadopt.
  { intros h' Hsub. apply wp_bind, drop_own_secret_wp; [by apply Hsub|by apply Hsub|]. intros h'' Hsub'.
    apply await_winner_wp. eexists. by apply Hsub', Hsub. }
  destruct r as [[p|]|e]; [|apply Hadopt; set_solver|by intros ? ?].
  apply wp_bind, wp_observing; [apply settle_observing|]. intros [st|e] t Hr Ht; [|by intros ? ?].
  destruct (verify p a st); [apply Hadopt; set_solver|].
  apply wp_bind, drop_own_secret_wp; [set_solver|set_solver|]. by intros h' _ ? ?.
Qed.

(** *** The loop *)

Lemma read_unowned_app (h t : list KEntry) : read_unowned t → read_unowned (h ++ t).
Proof. intros (h0 & u & -> & Hu). exists (h ++ h0), u. by rewrite <- app_assoc. Qed.

(** The rows of the table that delete *)
Lemma classify_delete (v : VerifiedPod) (n : string) (f : Fence) :
  classify (Some v) (desired cfg env) = ADelete n f →
  n = v_name v ∧ f = fence v ∧ deletion_marked v = false ∧
  (startup v = Terminated ∨ startup v = NeverStartedProvablyBroken
   ∨ startup v = NeverStartedRecoverable ∧ recorded_intent v ≠ Some (desired cfg env)).
Proof.
  simpl. destruct (deletion_marked v); [done|].
  destruct (startup v); try case_decide; intros [= <- <-]; naive_solver.
Qed.

Lemma classify_noop (v : VerifiedPod) (n : string) :
  classify (Some v) (desired cfg env) = ANoOp n →
  n = v_name v ∧ deletion_marked v = false ∧ startup v = Started.
Proof.
  simpl. destruct (deletion_marked v); [done|].
  destruct (startup v); try case_decide; by intros [= <-].
Qed.

Lemma unmarked (p : Pod) : bool_decide (is_Some (deletion_timestamp (metadata p))) = false →
  deletion_timestamp (metadata p) = None.
Proof. rewrite bool_decide_eq_false, <- eq_None_not_Some. done. Qed.

Lemma create_wp (turns : nat) (created : bool) (h : list KEntry) :
  (∀ h, wp rests_on (reconcile a cfg env turns true) h outcome) →
  read_unowned h →
  wp rests_on
    (g <-* ask RandomU32 ;;
     let gen := new_generation g in
     turns_left (finish (ask (CreateSecret (attempt_secret a cfg env gen)))) (λ _,
       turns_left (finish (ask (CreatePod (attempt_pod a cfg env gen)))) (λ o,
         match o with
         | Created => _ <-* ask (Sleep POLL_INTERVAL) ;; reconcile a cfg env turns true
         | AlreadyExists => adopt_winner turns a (secret_name a gen)
         end))) h outcome.
Proof.
  intros IH Hh. apply wp_ask. intros g. split; [done|]. cbv zeta.
  apply wp_turns_left, wp_finish. intros r. split; [by exists h, g|].
  destruct r as [[]|e]; [|by intros ? ?].
  apply wp_turns_left, wp_finish. intros o. split; [exists h, g; by rewrite <- app_assoc|].
  destruct o as [[]|e]; [| |by intros ? ?].
  - apply wp_ask. intros r. split; [done|]. apply IH.
  - apply adopt_winner_wp; unfold kube; set_solver.
Qed.

Lemma reconcile_wp (turns : nat) (created : bool) (h : list KEntry) :
  (created = false → none_created h) → wp rests_on (reconcile a cfg env turns created) h outcome.
Proof.
  revert created h. induction turns as [|turns IH]; intros created h Hc; [done|].
  cbn [reconcile]. apply wp_ask. intros t. split; [done|].
  assert (∀ n h', h ⊆ h' → (created = false → none_created h') → wp rests_on
    (turns_left (await_disappearance turns n) (λ _, reconcile a cfg env turns created)) h' outcome) as Hawait.
  { intros n h' Hsub Hc'. apply wp_turns_left, wp_observing; [apply await_disappearance_observing|].
    intros [[[]|e]|] u _ Hu; try by intros ? ?. apply IH. intros Hf. apply none_created_app; [by apply Hc'|done]. }
  assert (∀ h', (created = false → none_created h') → wp rests_on
    (bind (ask (Sleep POLL_INTERVAL)) (λ _, reconcile a cfg env turns created)) h' outcome) as Hagain.
  { intros h' Hc'. apply wp_ask. intros r. split; [done|]. apply IH. intros Hf.
    by apply observing_none_created, Hc'. }
  assert (created = false → none_created (h ++ [entry Elapsed t])) as Hc1.
  { intros Hf. by apply observing_none_created, Hc. }
  destruct (DEADLINE <=? t)%Z; [apply latest_condition_outcome|].
  apply wp_turns_left, wp_finish, wp_observing; [apply observe_pod_observing|]. intros r u Hr Hu.
  assert (created = false → none_created ((h ++ [entry Elapsed t]) ++ u)) as Hc2.
  { intros Hf. by apply none_created_app; [apply Hc1|]. }
  destruct r as [[v|]|e]; [| |by intros ? ?]; apply observe_pod_runs in Hr; cycle 1.
  { apply create_wp; [exact created|intros h'; by apply IH|by apply read_unowned_app]. }
  destruct (observed_started (h ++ [entry Elapsed t]) u v Hr) as (p & Hp & Ho & Hn & Hf & Hd & Hi).
  destruct (classify (Some v) (desired cfg env)) as [|n f|n|n|n|n f] eqn:Hclass.
  - exfalso. simpl in Hclass. destruct (deletion_marked v); [done|].
    by destruct (startup v); try case_decide.
  - apply classify_delete in Hclass as (-> & -> & Hm & Hwhy).
    destruct created; [apply latest_condition_outcome|].
    apply wp_turns_left, wp_finish. intros o. split.
    + left. exists p, (startup v). split_and!; try done; [|unfold replaceable; by rewrite <- Hi|by apply Hc2].
      apply unmarked. by rewrite <- Hd.
    + assert (none_created (((h ++ [entry Elapsed t]) ++ u) ++ [entry (DeletePod (v_name v) (fence v)) o])) as Hc3.
      { intros q [Hq|Hq]%elem_of_app; [by eapply Hc2|]. by apply list_elem_of_singleton in Hq. }
      destruct o as [[]|e]; [apply Hawait; [set_solver|done]|apply Hawait; [set_solver|done]|by apply Hagain|by intros ? ?].
  - apply Hawait; [set_solver|done].
  - apply classify_noop in Hclass as (-> & Hm & Hst). intros agent_id [= <-]. exists p. rewrite Hst in Hp.
    split_and!; try done. left. apply unmarked. by rewrite <- Hd.
  - by apply Hagain.
  - by intros ? ?.
Qed.

Lemma deploy_wp (turns : nat) (h : list KEntry) :
  none_created h → wp rests_on (deploy a cfg env turns) h outcome.
Proof.
  intros Hh. apply wp_turns_left, wp_finish. intros r. split; [done|]. destruct r as [[]|e]; [|by intros ? ?].
  apply wp_bind, preflight_gc_wp.
  - intros p [Hp|Hp]%elem_of_app; [by eapply Hh|]. by apply list_elem_of_singleton in Hp.
  - intros h' Hh'. by apply reconcile_wp.
Qed.

End deploy.

(** ** A request *)

Section serve.
Context `{KubeText, TemplateJson, Sha256} `{!RequestJson}.

(** A valid deploy request for which every later call is made: no shared-compute agent, a parsed
    configuration, a derived identity, and an environment that was built. *)
Record valid_request (input : string) (g : Z) (a : AgentIdentity) (cfg : ProviderConfig)
    (env : gmap string string) : Prop := {
  vr_request : ∃ raw r, json_parse input = Ok raw ∧ refuse_relay_mesh raw = None
    ∧ request_of raw = Ok (Deploy r) ∧ config_parse (provider_config r) = Ok cfg
    ∧ from_nsec (private_key_nsec (agent r)) = Ok a
    ∧ build_env (agent r) {| generation := new_generation g;
                             auth_inactivity_seconds := inactivity_seconds cfg |} = Ok env
}.

(** What a request does before it calls the cluster *)
Definition connected (g : Z) (cfg : ProviderConfig) : list KEntry :=
  [kube StartRuntime (Ok tt); kube RandomU32 g; kube (Connect (context cfg)) (Ok tt)].

(** A call of a request: a draw of the RNG or the start of the runtime; the connection, once the request is valid; or a call
    to the cluster it connected to that [rests_on] what was read before. *)
Definition request_call (input : string) (h : list KEntry) (x : KEntry) : Prop :=
  match call x with
  | RandomU32 | RandomIndex | StartRuntime => True
  | Connect c => ∃ g a cfg env, valid_request input g a cfg env 
                   ∧ h = [kube StartRuntime (Ok tt); kube RandomU32 g] ∧ c = context cfg
  | _ => ∃ g a cfg env h0, valid_request input g a cfg env
           ∧ h = connected g cfg ++ h0 ∧ rests_on a cfg env h x
  end.

Definition request_outcome (input : string) (r : option Response) (h : list KEntry) : Prop :=
  ∀ agent_id, r = Some (RDeployed agent_id) →
    ∃ g a cfg env, valid_request input g a cfg env ∧ started a h agent_id.

(** What rests on the history also rests on the request. *)
Lemma wp_request {A} (input : string) g a cfg env (p : KProg A) (h : list KEntry) (Q : A → list KEntry → Prop) :
  valid_request input g a cfg env →
  wp (rests_on a cfg env) p (connected g cfg ++ h) Q →
  wp (request_call input) p (connected g cfg ++ h) Q.
Proof.
  intros Hv. revert h. induction p as [x|e k IH]; intros h; [done|]. intros Hw r.
  destruct (Hw r) as [Hr Hw']. split.
  - unfold request_call. destruct e; try done; by exists g, a, cfg, env, h.
  - rewrite <- app_assoc. apply IH. by rewrite app_assoc.
Qed.

Lemma deploy_agent_wp (turns : nat) (input : string) (raw : Json) (r : DeployRequest) :
  json_parse input = Ok raw → refuse_relay_mesh raw = None → request_of raw = Ok (Deploy r) →
  wp (request_call input) (deploy_agent turns r) [kube StartRuntime (Ok tt)]
    (λ o h, ∀ agent_id, o = Some (Ok agent_id) →
       ∃ g a cfg env, valid_request input g a cfg env ∧ started a h agent_id).
Proof.
  intros Hraw Hmesh Hreq. unfold deploy_agent.
  destruct (config_parse (provider_config r)) as [cfg|e] eqn:Hcfg; [|by intros ? ?].
  destruct (from_nsec (private_key_nsec (agent r))) as [a|e] eqn:Ha; [|by intros ? ?].
  apply wp_ask. intros g. split; [done|].
  destruct (build_env _ _) as [env|e] eqn:Henv; [|by intros ? ?].
  assert (valid_request input g a cfg env) as Hv by (constructor; by exists raw, r).
  apply wp_turns_left, wp_finish. intros c. split; [by exists g, a, cfg, env|].
  destruct c as [[]|e]; [|by intros ? ?].
  match goal with |- wp _ (Ret _) ?l ?Q => change (Q (Ok tt) l) end. cbv beta iota.
  change (([kube StartRuntime (Ok tt)] ++ [entry RandomU32 g]) ++ [entry (Connect (context cfg)) (Ok tt)])
    with (connected g cfg ++ []).
  apply (wp_request input g a cfg env); [done|]. apply (wp_mono _ _ _ (outcome a)); [|apply deploy_wp].
  - intros o h Ho agent_id ->. exists g, a, cfg, env. split; [done|]. by apply Ho.
  - by intros p [Hp|[Hp|[Hp|Hp%elem_of_nil]%elem_of_cons]%elem_of_cons]%elem_of_cons.
Qed.

Lemma random_indices_wp {A} P (k : nat) (f : list nat → KProg A) h (Q : A → list KEntry → Prop) :
  (∀ h i, P h (kube RandomIndex i)) → (∀ l h, wp P (f l) h Q) → wp P (bind (random_indices k) f) h Q.
Proof.
  intros HP HQ. apply wp_bind. assert (∀ h, wp P (random_indices k) h (λ l h', wp P (f l) h' Q)) as Hk; [|done].
  induction k as [|k IH]; intros h'; [apply HQ|]. apply wp_ask. intros i. split; [apply HP|].
  apply wp_bind. eapply wp_mono; [|apply IH]. intros l h'' _. apply HQ.
Qed.

Lemma respond_wp (turns : nat) (input : string) :
  wp (request_call input) (respond turns input) [] (request_outcome input).
Proof.
  unfold respond.
  destruct (json_parse input) as [raw|e] eqn:Hraw; [|by intros ? ?].
  destruct (refuse_relay_mesh raw) as [refusal|] eqn:Hmesh; [by intros ? ?|].
  destruct (request_of raw) as [[|r]|e] eqn:Hreq; [| |by intros ? ?].
  - apply random_indices_wp; [done|]. by intros l h' ? ?.
  - apply wp_ask. intros [[]|e]; (split; [done|]); [|by intros ? ?].
    apply wp_bind. eapply wp_mono; [|by eapply deploy_agent_wp].
    intros [[id|e]|] h' Ho agent_id; intros [= <-]. by apply Ho.
Qed.

(** C11 Whatever the cluster answers: nothing is asked of it before the request is well formed, not for shared compute, configured, identified and given an environment; a pod is deleted only with the fence of the last reading, which shows it terminated or, being this agent's own, unmarked and replaceable while this call created nothing; a Secret is dropped only as garbage of the plan or as the unreferenced Secret of the lost attempt; a pod is created right after its own Secret; and a deploy that succeeds names a pod just read running under this agent's key. *)
Theorem deploys_are_authorised (turns : nat) (input : string) (h : list KEntry) (q : KProg (option Response)) :
  runs (respond turns input) h q →
  acceptable (request_call input) h ∧ ∀ r, q = Ret r → request_outcome input r h.
Proof.
  apply wp_history, respond_wp.
Qed.

End serve.
