(* ===== verification/KubeTurns.v ===== *)
(** * A deploy ends

    The loops of [KubeDeploy] take the number of their turns. Running out of [n] turns takes
    [n] readings of the clock below the deadline, and a result does not depend on the number
    of turns it was reached with. *)

From S2P Require Import Prelude Text StdText Json Interaction KubeConfig KubeObjects KubeDeploy.

Open Scope nat_scope.
Open Scope list_scope.

(** ** More turns *)

(** [q] does what [p] does, and goes on where [p] has run out of turns. *)
Fixpoint refines {A} (p q : KProg (option A)) : Prop :=
  match p with
  | Ret None => True
  | Ret (Some x) => q = Ret (Some x)
  | Call e k => ∃ k', q = Call e k' ∧ ∀ r, refines (k r) (k' r)
  end.

Lemma refines_refl {A} (p : KProg (option A)) : refines p p.
Proof. induction p as [[x|]|e k IH]; simpl; [done|done|]. by exists k. Qed.

Lemma refines_bind {A B} (p : KProg A) (f g : A → KProg (option B)) :
  (∀ x, refines (f x) (g x)) → refines (bind p f) (bind p g).
Proof. intros Hfg. induction p as [x|e k IH]; simpl; [apply Hfg|]. by eexists. Qed.

Lemma refines_bind_option {A B} (p q : KProg (option A)) (f g : option A → KProg (option B)) :
  refines p q → f None = Ret None → (∀ x, refines (f (Some x)) (g (Some x))) →
  refines (bind p f) (bind q g).
Proof.
  intros Hpq HN HS. revert q Hpq. induction p as [[x|]|e k IH]; intros q; simpl.
  - intros ->. apply HS.
  - intros _. by rewrite HN.
  - intros (k' & -> & Hk). simpl. eexists. split; [done|]. intros r. by apply IH.
Qed.

Lemma refines_turns_left {A B} (p q : KProg (option (result A string)))
    (k k' : A → KProg (option (result B string))) :
  refines p q → (∀ x, refines (k x) (k' x)) → refines (turns_left p k) (turns_left q k').
Proof. intros Hpq Hk. apply refines_bind_option; [done|done|]. by intros [x|e]. Qed.

Lemma refines_runs {A} (p q : KProg (option A)) (h : list KEntry) (x : A) :
  refines p q → runs p h (Ret (Some x)) → runs q h (Ret (Some x)).
Proof.
  revert p q. induction h as [|y h IH]; intros p q; simpl.
  - intros Hpq <-. by simpl in Hpq.
  - destruct p as [o|e k]; [done|]. intros (k' & -> & Hk) (r & -> & Hr). exists r. split; [done|].
    by eapply IH.
Qed.

Lemma await_disappearance_refines (n m : nat) (s : string) :
  n ≤ m → refines (await_disappearance n s) (await_disappearance m s).
Proof.
  revert m. induction n as [|n IH]; intros m Hm; [done|]. destruct m as [|m]; [lia|].
  apply refines_bind. intros t. destruct (t <? DEADLINE)%Z; [|done].
  apply refines_bind. intros [[p|]|e]; [|done..]. apply refines_bind. intros _. apply IH. lia.
Qed.

Lemma await_winner_refines (n m : nat) (a : AgentIdentity) :
  n ≤ m → refines (await_winner n a) (await_winner m a).
Proof.
  revert m. induction n as [|n IH]; intros m Hm; [done|]. destruct m as [|m]; [lia|].
  assert (refines (bind (ask (Sleep POLL_INTERVAL)) (λ _, await_winner n a))
                  (bind (ask (Sleep POLL_INTERVAL)) (λ _, await_winner m a))) as Hagain.
  { apply refines_bind. intros _. apply IH. lia. }
  apply refines_bind. intros t. destruct (DEADLINE <=? t)%Z; [apply refines_refl|].
  apply refines_bind. intros [[v|]|e]; [|exact Hagain|done].
  case_decide; [done|]. destruct (deletion_marked v); [done|]. case_decide; [apply refines_refl|exact Hagain].
Qed.

Lemma adopt_winner_refines (n m : nat) (a : AgentIdentity) (s : string) :
  n ≤ m → refines (adopt_winner n a s) (adopt_winner m a s).
Proof.
  intros Hm.
  assert (refines (bind (drop_own_secret a s) (λ _, await_winner n a))
                  (bind (drop_own_secret a s) (λ _, await_winner m a))) as Hadopt.
  { apply refines_bind. intros _. by apply await_winner_refines. }
  apply refines_bind. intros [[p|]|e]; [|exact Hadopt|done].
  apply refines_bind. intros [st|e]; [|done]. destruct (verify p a st); [exact Hadopt|apply refines_refl].
Qed.

Section turns.
Context `{TemplateJson, Sha256} (a : AgentIdentity) (cfg : ProviderConfig) (env : gmap string string).

Lemma reconcile_refines (n m : nat) (created : bool) :
  n ≤ m → refines (reconcile a cfg env n created) (reconcile a cfg env m created).
Proof.
  revert m created. induction n as [|n IH]; intros m created Hm; [done|]. destruct m as [|m]; [lia|].
  assert (∀ c, refines (bind (ask (Sleep POLL_INTERVAL)) (λ _, reconcile a cfg env n c))
                       (bind (ask (Sleep POLL_INTERVAL)) (λ _, reconcile a cfg env m c))) as Hagain.
  { intros c. apply refines_bind. intros _. apply IH. lia. }
  assert (∀ s, refines (turns_left (await_disappearance n s) (λ _, reconcile a cfg env n created))
                       (turns_left (await_disappearance m s) (λ _, reconcile a cfg env m created))) as Hawait.
  { intros s. apply refines_turns_left; [apply await_disappearance_refines; lia|]. intros _. apply IH. lia. }
  cbn [reconcile]. apply refines_bind. intros t. destruct (DEADLINE <=? t)%Z; [apply refines_refl|].
  apply refines_turns_left; [apply refines_refl|]. intros o.
  destruct (classify o _); [|destruct created; [apply refines_refl|]| | | |].
  - apply refines_bind. intros g. apply refines_turns_left; [apply refines_refl|]. intros _.
    apply refines_turns_left; [apply refines_refl|]. intros [|]; [apply Hagain|apply adopt_winner_refines; lia].
  - apply refines_turns_left; [apply refines_refl|]. intros [| |]; [apply Hawait|apply Hawait|apply Hagain].
  - apply Hawait.
  - done.
  - apply Hagain.
  - done.
Qed.

Lemma deploy_refines (n m : nat) : n ≤ m → refines (deploy a cfg env n) (deploy a cfg env m).
Proof.
  intros Hm. apply refines_turns_left; [apply refines_refl|]. intros _. apply refines_bind. intros _.
  by apply reconcile_refines.
Qed.

End turns.

(** ** Running out of turns *)

(** A reading of the clock below the deadline *)
Definition below_deadline (x : KEntry) : bool :=
  match call x as e return KubeAnswer e → bool with
  | Elapsed => λ t, (t <? DEADLINE)%Z
  | _ => λ _, false
  end (reply x).

Definition early (h : list KEntry) : nat := length (List.filter below_deadline h).

Lemma early_app (h t : list KEntry) : early (h ++ t) = early h + early t.
Proof. unfold early. by rewrite List.filter_app, length_app. Qed.

Abbreviation anything := (λ (_ : list KEntry) (_ : KEntry), True).

(** A program that exhausts [n] turns has read the clock [n] times below the deadline. *)
Definition spends {A} (n : nat) (h : list KEntry) (r : option A) (h' : list KEntry) : Prop :=
  r = None → n + early h ≤ early h'.

Lemma wp_early {A} (p : KProg A) (h h0 : list KEntry) (Q : A → list KEntry → Prop) :
  early h0 ≤ early h → (∀ x h', early h0 ≤ early h' → Q x h') → wp anything p h Q.
Proof.
  revert h. induction p as [x|e k IH]; intros h Hh HQ; simpl; [by apply HQ|]. intros r. split; [done|].
  apply IH; [|done]. rewrite early_app. lia.
Qed.

(** After a program that takes no turns *)
Lemma wp_bind_early {A B} (p : KProg A) (f : A → KProg (option B)) (n : nat) (h h0 : list KEntry) :
  early h0 ≤ early h → (∀ x h', early h0 ≤ early h' → wp anything (f x) h' (spends n h0)) →
  wp anything (bind p f) h (spends n h0).
Proof. intros Hh Hf. apply wp_bind. by eapply wp_early. Qed.

Lemma wp_spent {A} (x : A) (n : nat) (h h0 : list KEntry) : wp anything (Ret (Some x)) h (spends n h0).
Proof. by intros ?. Qed.

Lemma wp_turns_early {A B} (p : KProg (result A string)) (f : A → KProg (option (result B string))) (n : nat)
    (h h0 : list KEntry) :
  early h0 ≤ early h → (∀ x h', early h0 ≤ early h' → wp anything (f x) h' (spends n h0)) →
  wp anything (turns_left (finish p) f) h (spends n h0).
Proof.
  intros Hh Hf. apply wp_bind, wp_bind. eapply wp_early; [exact Hh|]. intros [x|e] h' Hh'; [by apply Hf|].
  apply wp_spent.
Qed.

(** A turn: one more reading below the deadline *)
Lemma wp_turn {B} (p : KProg (option B)) (n : nat) (h0 h' : list KEntry) :
  (∀ h, wp anything p h (spends n h)) → S (early h0) ≤ early h' → wp anything p h' (spends (S n) h0).
Proof.
  intros Hp Hh. eapply wp_mono; [|apply Hp]. intros r h'' Hr HN. specialize (Hr HN). lia.
Qed.

Lemma early_reading (h : list KEntry) (t : Z) :
  (t < DEADLINE)%Z → early (h ++ [entry Elapsed t]) = S (early h).
Proof.
  intros Ht. rewrite early_app. unfold early at 2. cbn. by rewrite (proj2 (Z.ltb_lt _ _) Ht), Nat.add_comm.
Qed.

Lemma await_disappearance_spends (n : nat) (s : string) (h : list KEntry) :
  wp anything (await_disappearance n s) h (spends n h).
Proof.
  revert h. induction n as [|n IH]; intros h; [by intros _|]. cbn [await_disappearance].
  apply wp_ask. intros t. split; [done|]. destruct (t <? DEADLINE)%Z eqn:Ht; [|apply wp_spent].
  apply Z.ltb_lt in Ht. pose proof (early_reading h t Ht) as He.
  apply wp_ask. intros r. split; [done|]. destruct r as [[p|]|e]; [|apply wp_spent..].
  apply wp_ask. intros r. split; [done|]. apply wp_turn; [exact IH|]. rewrite !early_app in *. lia.
Qed.

Lemma await_winner_spends (n : nat) (a : AgentIdentity) (h : list KEntry) :
  wp anything (await_winner n a) h (spends n h).
Proof.
  revert h. induction n as [|n IH]; intros h; [by intros _|]. cbn [await_winner].
  apply wp_ask. intros t. split; [done|]. destruct (DEADLINE <=? t)%Z eqn:Ht.
  { apply wp_bind_early; [rewrite early_app; lia|]. intros. apply wp_spent. }
  apply Z.leb_gt in Ht. pose proof (early_reading h t Ht) as He.
  apply wp_bind. apply (wp_early _ _ (h ++ [entry Elapsed t])); [done|]. intros r h' Hh'.
  assert (wp anything (bind (ask (Sleep POLL_INTERVAL)) (λ _, await_winner n a)) h' (spends (S n) h)) as Hagain.
  { apply wp_ask. intros r'. split; [done|]. apply wp_turn; [exact IH|]. rewrite (early_app h'). lia. }
  destruct r as [[v|]|e]; [|exact Hagain|apply wp_spent].
  case_decide; [apply wp_spent|]. destruct (deletion_marked v); [apply wp_spent|].
  case_decide; [|exact Hagain]. apply wp_bind_early; [lia|]. intros. apply wp_spent.
Qed.

Section spends.
Context `{TemplateJson, Sha256} (a : AgentIdentity) (cfg : ProviderConfig) (env : gmap string string).

Lemma adopt_winner_spends (n : nat) (s : string) (h : list KEntry) :
  wp anything (adopt_winner n a s) h (spends n h).
Proof.
  assert (∀ h', early h ≤ early h' →
    wp anything (bind (drop_own_secret a s) (λ _, await_winner n a)) h' (spends n h)) as Hadopt.
  { intros h' Hh'. apply wp_bind_early; [done|]. intros _ h'' Hh''. eapply wp_mono; [|apply await_winner_spends].
    intros r h3 Hr HN. specialize (Hr HN). lia. }
  apply wp_bind_early; [done|]. intros [[p|]|e] h' Hh'; [|by apply Hadopt|apply wp_spent].
  apply wp_bind_early; [done|]. intros [st|e] h'' Hh''; [|apply wp_spent].
  destruct (verify p a st); [by apply Hadopt|]. apply wp_bind_early; [done|]. intros. apply wp_spent.
Qed.

Lemma reconcile_spends (n : nat) (created : bool) (h : list KEntry) :
  wp anything (reconcile a cfg env n created) h (spends n h).
Proof.
  revert created h. induction n as [|n IH]; intros created h; [by intros _|]. cbn [reconcile].
  apply wp_ask. intros t. split; [done|]. destruct (DEADLINE <=? t)%Z eqn:Ht.
  { apply wp_bind_early; [rewrite early_app; lia|]. intros. apply wp_spent. }
  apply Z.leb_gt in Ht. pose proof (early_reading h t Ht) as He. set (h1 := h ++ [entry Elapsed t]) in *.
  assert (∀ c h', early h1 ≤ early h' →
    wp anything (bind (ask (Sleep POLL_INTERVAL)) (λ _, reconcile a cfg env n c)) h' (spends (S n) h)) as Hagain.
  { intros c h' Hh'. apply wp_ask. intros r. split; [done|]. apply wp_turn; [apply IH|].
    rewrite early_app. lia. }
  assert (∀ s h', early h1 ≤ early h' → wp anything
    (turns_left (await_disappearance n s) (λ _, reconcile a cfg env n created)) h' (spends (S n) h)) as Hawait.
  { intros s h' Hh'. apply wp_bind. apply (wp_mono _ _ _ (λ r h'', spends n h' r h'' ∧ early h' ≤ early h'')).
    - intros [[[]|e]|] h'' [Hs Hm]; [|apply wp_spent|].
      + apply wp_turn; [apply IH|lia].
      + intros _. specialize (Hs eq_refl). lia.
    - apply (wp_weaken (λ h x, anything h x ∧ anything h x)); [done|].
      apply wp_and; [apply await_disappearance_spends|by apply (wp_early _ _ h')]. }
  assert (∀ h', early h1 ≤ early h' → early h ≤ early h') as Hle by (intros; lia).
  apply wp_bind, wp_bind. eapply wp_early; [apply le_n|]. intros [o|e] h' Hh'; [|apply wp_spent].
  match goal with |- wp _ (Ret ?x) ?l ?Q => change (Q x l) end. cbv beta iota.
  destruct (classify o _) as [|s f|s|s|s|s f].
  - apply wp_bind. eapply wp_early; [exact Hh'|]. intros g h2 Hh2.
    apply wp_bind, wp_bind. eapply wp_early; [exact Hh2|]. intros [[]|e] h3 Hh3; [|apply wp_spent].
    match goal with |- wp _ (Ret ?x) ?l ?Q => change (Q x l) end. cbv beta iota.
    apply wp_bind, wp_bind. eapply wp_early; [exact Hh3|]. intros [[]|e] h4 Hh4; [by apply Hagain| |apply wp_spent].
    match goal with |- wp _ (Ret ?x) ?l ?Q => change (Q x l) end. cbv beta iota.
    apply wp_turn; [apply adopt_winner_spends|lia].
  - destruct created; [apply wp_bind_early; [lia|]; intros; apply wp_spent|].
    apply wp_bind, wp_bind. eapply wp_early; [exact Hh'|].
    intros [[]|e] h2 Hh2; [by apply Hawait|by apply Hawait|by apply Hagain|apply wp_spent].
  - by apply Hawait.
  - apply wp_spent.
  - by apply Hagain.
  - apply wp_spent.
Qed.

Lemma deploy_spends (n : nat) (h : list KEntry) : wp anything (deploy a cfg env n) h (spends n h).
Proof.
  apply wp_turns_early; [done|]. intros _ h' Hh'. apply wp_bind_early; [done|]. intros _ h'' Hh''.
  eapply wp_mono; [|apply reconcile_spends]. intros r h3 Hr HN. specialize (Hr HN). lia.
Qed.

End spends.

(** ** A clock that advances *)

(** The readings of the clock, in order *)
Definition reading (x : KEntry) : option Z :=
  match call x as e return KubeAnswer e → option Z with
  | Elapsed => λ t, Some t
  | _ => λ _, None
  end (reply x).

(** Each reading is at least [step] after the one before, the first at [lo] or later. *)
Fixpoint paced (step lo : Z) (l : list Z) : Prop :=
  match l with
  | [] => True
  | t :: l => (lo ≤ t)%Z ∧ paced step (t + step) l
  end.

Lemma below_reading (x : KEntry) : below_deadline x = is_some_and (λ t, (t <? DEADLINE)%Z) (reading x).
Proof. destruct x as [e r]. by destruct e. Qed.

Lemma early_paced (step lo : Z) (h : list KEntry) :
  (0 < step)%Z → paced step lo (omap reading h) →
  (Z.of_nat (early h) * step < Z.max (DEADLINE - lo) 0 + step)%Z.
Proof.
  intros Hstep. unfold early. revert lo. induction h as [|x h IH]; intros lo; cbn [omap list_omap List.filter].
  - intros _. simpl. lia.
  - rewrite below_reading. destruct (reading x) as [t|]; simpl; [|apply IH].
    intros [Hlo Hp]. specialize (IH _ Hp). destruct (t <? DEADLINE)%Z eqn:Ht; simpl length.
    + apply Z.ltb_lt in Ht. rewrite Nat2Z.inj_succ, Z.mul_succ_l.
      destruct (Z_lt_ge_dec (DEADLINE - (t + step)) 0); [|lia].
      assert (Z.of_nat (length (List.filter below_deadline h)) < 1)%Z; nia.
    + apply Z.ltb_ge in Ht. lia.
Qed.

Section serve.
Context `{KubeText, TemplateJson, Sha256} `{!RequestJson}.

Lemma respond_refines (n m : nat) (input : string) : n ≤ m → refines (respond n input) (respond m input).
Proof.
  intros Hm. unfold respond. destruct (json_parse input) as [raw|e]; [|done].
  destruct (refuse_relay_mesh raw); [done|]. destruct (request_of raw) as [[|r]|e]; [apply refines_refl| |done].
  apply refines_bind. intros [[]|e]; [|done].
  apply refines_bind_option; [|done|by intros [id|e]]. unfold deploy_agent.
  destruct (config_parse _) as [cfg|e]; [|done]. destruct (from_nsec _) as [a|e]; [|done].
  apply refines_bind. intros g. destruct (build_env _ _) as [env|e]; [|done].
  apply refines_turns_left; [apply refines_refl|]. intros _. by apply deploy_refines.
Qed.

Lemma respond_spends (n : nat) (input : string) (h : list KEntry) :
  wp anything (respond n input) h (spends n h).
Proof.
  unfold respond. destruct (json_parse input) as [raw|e]; [|apply wp_spent].
  destruct (refuse_relay_mesh raw); [apply wp_spent|].
  destruct (request_of raw) as [[|r]|e]; [| |apply wp_spent].
  { apply wp_bind_early; [done|]. intros. apply wp_spent. }
  apply wp_bind_early; [done|]. intros [[]|e] h1 Hh1; [|apply wp_spent].
  apply wp_bind. apply (wp_mono _ _ _ (spends n h)).
  { intros [[id|e]|] h' Hs; [apply wp_spent..|]. intros _. by apply Hs. }
  unfold deploy_agent. destruct (config_parse _) as [cfg|e]; [|apply wp_spent].
  destruct (from_nsec _) as [a|e]; [|apply wp_spent].
  apply wp_bind_early; [done|]. intros g h' Hh'. destruct (build_env _ _) as [env|e]; [|apply wp_spent].
  apply wp_turns_early; [done|]. intros _ h'' Hh''. eapply wp_mono; [|apply deploy_spends].
  intros r' h3 Hr HN. specialize (Hr HN). lia.
Qed.

(** C20 A request ends: when two readings of the clock are always a step apart, that many turns as steps fit the deadline and one more always give a response, and a response does not depend on the number of turns. *)
Theorem requests_end (n m : nat) (step : Z) (input : string) (h : list KEntry) (o : option Response) :
  runs (respond n input) h (Ret o) → (0 < step)%Z → paced step 0 (omap reading h) →
  (DEADLINE + step ≤ Z.of_nat n * step)%Z → n ≤ m →
  is_Some o ∧ runs (respond m input) h (Ret o).
Proof.
  intros Hr Hstep Hp Hn Hm.
  assert (is_Some o) as [r ->].
  { apply not_eq_None_Some. intros ->.
    destruct (wp_history _ _ _ _ _ (respond_spends n input []) Hr) as [_ Hs]. specialize (Hs None eq_refl eq_refl).
    apply early_paced in Hp; [|done]. change (early []) with 0 in Hs. unfold DEADLINE, OPERATION_DEADLINE_SECS in *. nia. }
  split; [by eexists|]. eapply refines_runs; [by apply respond_refines|exact Hr].
Qed.

End serve.
