(* ===== verification/KubeCluster.v ===== *)
(** * The cluster (buzz-backend-kubernetes)

    The substrate of a live apiserver (cluster.rs): its requests, and how their answers become
    those of the [Substrate] trait. Then the apiserver itself, as far as a deploy relies on it,
    and the theorem that the fence keeps its promise: however many deploys, users and kubelets
    write at the same time, the pod a deploy deletes is the very object it read. *)

From S2P Require Import Prelude Text StdText Json Interaction KubeConfig KubeObjects KubeDeploy KubeDeploySpec.

Open Scope string_scope.
Open Scope nat_scope.
Open Scope list_scope.

(** ** cluster.rs *)

(** [kube::Error]: a typed answer of the apiserver, or anything else *)
Inductive KubeError :=
  | ApiError (reason message : string) (code : Z)
  | OtherError (text : string).

(** [Display] of it, and the parser of the [Date] header, in nanoseconds since the epoch *)
Class KubeErrors := {
  error_text : KubeError → string;
  parse_from_rfc2822 : string → option Z
}.

Definition REASON_ALREADY_EXISTS : string := "AlreadyExists".
Definition REASON_CONFLICT : string := "Conflict".
Definition REASON_NOT_FOUND : string := "NotFound".
Definition REASON_FORBIDDEN : string := "Forbidden".

(** [api_error], then its reason *)
Definition reason_is (e : KubeError) (reason : string) : bool :=
  match e with
  | ApiError r _ _ => bool_decide (r = reason)
  | OtherError _ => false
  end.

(** The requests; a list is sent raw, so that its [Date] header can be read. *)
Inductive ApiCall :=
  | GetNamespace (ns : string)
  | PostNamespace (ns : string)
  | ListPodsRaw (selector : string)
  | ListSecretsRaw (selector : string)
  | GetSecret (name : string)
  | PostSecret (s : Secret)
  | PostPod (p : Pod)
  | DeletePodIf (name : string) (preconditions : Fence)
  | DeleteSecretNow (name : string)
  | ReadPod (name : string)
  | SleepFor (duration : Z)
  | ElapsedSince.

(** What a list request comes to: the items, and the header if it is text *)
Inductive ListAnswer (A : Type) :=
  | SendFailed (e : KubeError)
  | BodyFailed (text : string)
  | DecodeFailed (text : string)
  | Listed (items : list A) (date : option string).
Arguments SendFailed {A} e.
Arguments BodyFailed {A} text.
Arguments DecodeFailed {A} text.
Arguments Listed {A} items date.

Definition ApiAnswer (e : ApiCall) : Type :=
  match e with
  | GetNamespace _ => result bool KubeError
  | PostNamespace _ => result unit KubeError
  | ListPodsRaw _ => ListAnswer Pod
  | ListSecretsRaw _ => ListAnswer Secret
  | GetSecret _ => result unit KubeError
  | PostSecret _ => result unit KubeError
  | PostPod _ => result unit KubeError
  | DeletePodIf _ _ => result unit KubeError
  | DeleteSecretNow _ => result unit KubeError
  | ReadPod _ => result Pod KubeError
  | SleepFor _ => unit
  | ElapsedSince => Z
  end.

Abbreviation AProg := (@Prog ApiCall ApiAnswer).

Section cluster.
Context `{KubeErrors}.

Definition ensure_namespace (ns : string) : AProg (result unit string) :=
  existing <-* ask (GetNamespace ns) ;;
  match existing with
  | Err e => Ret (Err ("could not check whether namespace " +:+ ns +:+ " exists: " +:+ error_text e))
  | Ok true => Ret (Ok tt)
  | Ok false =>
      r <-* ask (PostNamespace ns) ;;
      Ret match r with
          | Ok _ => Ok tt
          | Err e =>
              if reason_is e REASON_ALREADY_EXISTS then Ok tt
              else if reason_is e REASON_FORBIDDEN then
                Err ("not authorized to create namespace " +:+ ns
                     +:+ ". Ask a cluster administrator to run `kubectl create namespace " +:+ ns
                     +:+ "`, then try again.")
              else Err ("could not create namespace " +:+ ns +:+ ": " +:+ error_text e)
          end
  end.

(** [list_with_date], once its request has been answered; [kind] is the plural of the kind. *)
Definition list_with_date {A} (kind : string) (l : ListAnswer A) : result (list A * option Z) string :=
  match l with
  | SendFailed e => Err ("could not list " +:+ kind +:+ ": " +:+ error_text e)
  | BodyFailed e => Err ("could not read the " +:+ kind +:+ " list body: " +:+ e)
  | DecodeFailed e => Err ("could not decode the " +:+ kind +:+ " list: " +:+ e)
  | Listed items date => Ok (items, date ≫= parse_from_rfc2822)
  end.

Definition list_pods (sel : string) : AProg (result (list Pod * option Z) string) :=
  l <-* ask (ListPodsRaw sel) ;;
  Ret (list_with_date "pods" l).

Definition list_secrets (sel : string) : AProg (result (list Secret) string) :=
  l <-* ask (ListSecretsRaw sel) ;;
  Ret (x <-? list_with_date "secrets" l ;; Ok x.1).

Definition secret_exists (n : string) : AProg (result bool string) :=
  r <-* ask (GetSecret n) ;;
  Ret match r with
      | Ok _ => Ok true
      | Err e => if reason_is e REASON_NOT_FOUND then Ok false
                 else Err ("could not check whether secret " +:+ n +:+ " exists: " +:+ error_text e)
      end.

Definition create_secret (s : Secret) : AProg (result unit string) :=
  r <-* ask (PostSecret s) ;;
  Ret (map_err (λ e, "could not create secret " +:+ default "" (name (s_metadata s)) +:+ ": " +:+ error_text e) r).

Definition create_pod (p : Pod) : AProg (result CreateOutcome string) :=
  r <-* ask (PostPod p) ;;
  Ret match r with
      | Ok _ => Ok Created
      | Err e => if reason_is e REASON_ALREADY_EXISTS then Ok AlreadyExists
                 else Err ("could not create pod " +:+ default "" (name (metadata p)) +:+ ": " +:+ error_text e)
      end.

Definition delete_pod (n : string) (f : Fence) : AProg (result DeleteOutcome string) :=
  r <-* ask (DeletePodIf n f) ;;
  Ret match r with
      | Ok _ => Ok Accepted
      | Err e => if reason_is e REASON_NOT_FOUND then Ok DeleteNotFound
                 else if reason_is e REASON_CONFLICT then Ok PreconditionFailed
                 else Err ("could not delete pod " +:+ n +:+ ": " +:+ error_text e)
      end.

Definition delete_secret (n : string) : AProg (result unit string) :=
  r <-* ask (DeleteSecretNow n) ;;
  Ret match r with
      | Ok _ => Ok tt
      | Err e => if reason_is e REASON_NOT_FOUND then Ok tt
                 else Err ("could not delete secret " +:+ n +:+ ": " +:+ error_text e)
      end.

Definition get_pod (n : string) : AProg (result (option Pod) string) :=
  r <-* ask (ReadPod n) ;;
  Ret match r with
      | Ok p => Ok (Some p)
      | Err e => if reason_is e REASON_NOT_FOUND then Ok None
                 else Err ("could not read pod " +:+ n +:+ ": " +:+ error_text e)
      end.

(** *** Running a deploy against the apiserver

    [over_api p]: the calls of [p] to its substrate become requests; the draws of the RNG,
    the runtime and the connection are answered by [other]. *)
Context (other : ∀ e : KubeCall, KubeAnswer e).

Definition substrate (e : KubeCall) : AProg (KubeAnswer e) :=
  match e return AProg (KubeAnswer e) with
  | EnsureNamespace ns => ensure_namespace ns
  | ListPods sel => list_pods sel
  | ListSecrets sel => list_secrets sel
  | SecretExists n => secret_exists n
  | CreateSecret s => create_secret s
  | CreatePod p => create_pod p
  | DeletePod n f => delete_pod n f
  | DeleteSecret n => delete_secret n
  | GetPod n => get_pod n
  | Sleep d => ask (SleepFor d)
  | Elapsed => ask ElapsedSince
  | RandomU32 => Ret (other RandomU32)
  | RandomIndex => Ret (other RandomIndex)
  | StartRuntime => Ret (other StartRuntime)
  | Connect c => Ret (other (Connect c))
  end.

Fixpoint over_api {A} (p : KProg A) : AProg A :=
  match p with
  | Ret x => Ret x
  | Call e k => bind (substrate e) (λ r, over_api (k r))
  end.

(** Every run against the apiserver is a run of the program over the trait, whose calls were
    each carried out by its method: so all that is shown of a deploy holds of it. *)
Theorem over_api_runs {A} (p : KProg A) (h : list (@Entry ApiCall ApiAnswer)) (x : A) :
  runs (over_api p) h (Ret x) →
  ∃ parts : list (KEntry * list (@Entry ApiCall ApiAnswer)),
    runs p parts.*1 (Ret x) ∧ h = concat parts.*2
    ∧ Forall (λ y, runs (substrate (call y.1)) y.2 (Ret (reply y.1))) parts.
Proof.
  revert h. induction p as [y|e k IH]; intros h; simpl.
  - destruct h as [|? ?]; [|done]. intros [= ->]. by exists [].
  - intros (r & t & u & -> & Ht & (parts & Hr & -> & Hp)%IH)%runs_bind_ret.
    exists ((kube e r, t) :: parts). simpl. split_and!; [by exists r|done|by constructor].
Qed.

(** The two 409 answers are told apart by their reason. *)
Lemma conflicts_apart (n : string) (f : Fence) (p : Pod) (e : KubeError) :
  (runs (delete_pod n f) [entry (DeletePodIf n f) (Err e)] (Ret (Ok PreconditionFailed)) →
   reason_is e REASON_CONFLICT = true) ∧
  (runs (create_pod p) [entry (PostPod p) (Err e)] (Ret (Ok AlreadyExists)) →
   reason_is e REASON_ALREADY_EXISTS = true).
Proof.
  split; simpl; intros (r & Hr & Hx); apply (f_equal (λ x : @Entry ApiCall ApiAnswer,
    match call x as c return ApiAnswer c → option KubeError with
    | DeletePodIf _ _ => λ r, result_err r
    | PostPod _ => λ r, result_err r
    | _ => λ _, None
    end (reply x))) in Hr; simpl in Hr; destruct r as [[]|e']; simplify_eq/=.
  - destruct (reason_is e' REASON_NOT_FOUND); [done|]. by destruct (reason_is e' REASON_CONFLICT).
  - by destruct (reason_is e' REASON_ALREADY_EXISTS).
Qed.

End cluster.

(** ** The apiserver

    What a deploy relies on, as documented: a read of one object returns the object as it was
    at some moment, a version of an object (uid and [resourceVersion]) is never used for two
    different objects, and a deletion with preconditions acts on the object only while it has
    that version, whether or not its answer arrives. *)
Class ApiServer := {
  Store : Type;
  Choice : Type;
  api_answer : Choice → ∀ e : KubeCall, Store → KubeAnswer e → KubeAnswer e * Store;
  (* the object that had this uid and resourceVersion *)
  version_of : Store → string → string → option Pod;
  (* the pod whose deletion a call starts *)
  deleted : Choice → KubeCall → Store → option Pod;
  version_stable c e s r u v p :
    version_of s u v = Some p → version_of (api_answer c e s r).2 u v = Some p;
  read_version c n s r p u v :
    (api_answer c (GetPod n) s r).1 = Ok (Some p) → uid (metadata p) = Some u →
    resource_version (metadata p) = Some v → version_of (api_answer c (GetPod n) s r).2 u v = Some p;
  delete_precondition c n f s r p :
    deleted c (DeletePod n f) s = Some p →
    version_of (api_answer c (DeletePod n f) s r).2 (f_uid f) (f_resource_version f) = Some p
}.

Section fence.
Context `{KubeText, TemplateJson, Sha256} `{!RequestJson} `{ApiServer}.

(** A process that serves a request *)
Definition provider (turns : nat) (input : string) : KProg unit := _ <-* respond turns input ;; Ret tt.

(** Why a pod may be deleted, as a fact about the pod at the moment it is deleted *)
Definition deletable (input : string) (p : Pod) : Prop :=
  (∃ t, settled t p Terminated) ∨
  ∃ g a cfg env t st, valid_request input g a cfg env ∧ ours a p ∧ deletion_timestamp (metadata p) = None
    ∧ settled t p st ∧ replaceable cfg env p st.

Lemma deletable_not_live (input : string) (p : Pod) : deletable input p → decode_startup p ≠ Resolved Started.
Proof.
  intros [[t Ht]|(g & a & cfg & env & t & st & _ & _ & _ & Ht & Hr)] Hd; unfold settled in Ht; rewrite Hd in Ht.
  - by destruct Ht.
  - destruct Ht as [_ ->]. by destruct Hr as [|[|[? _]]].
Qed.

Lemma version_evolves (x y : Store) (l : list (nat * KEntry)) (u v : string) (p : Pod) :
  evolves api_answer x l y → version_of x u v = Some p → version_of y u v = Some p.
Proof.
  revert x. induction l as [|[i en] l IH]; intros x; simpl; [by intros ->|].
  intros (c & e & r & _ & Hl) Hp. eapply IH; [exact Hl|]. by apply version_stable.
Qed.

Definition read_of (x : KEntry) : option Pod :=
  match call x as e return KubeAnswer e → option Pod with
  | GetPod _ => λ r, match r with Ok o => o | Err _ => None end
  | _ => λ _, None
  end (reply x).

(** A pod that a process read is the one with its version from then on. *)
Lemma read_is_version (x y : Store) (l : list (nat * KEntry)) (i : nat) (n : string) (p : Pod) (f : Fence) :
  evolves api_answer x l y → (i, kube (GetPod n) (Ok (Some p))) ∈ l → is_fence p f →
  version_of y (f_uid f) (f_resource_version f) = Some p.
Proof.
  intros Hl Hin [Hu Hv]. apply list_elem_of_split in Hin as (l1 & l2 & ->).
  apply evolves_app in Hl as (z & _ & (c & e & r & Hen & Hl)). eapply version_evolves; [exact Hl|].
  apply (f_equal read_of) in Hen. destruct e as [| | | | | | | |m| | | | | |]; try done.
  change (Some p = match (api_answer c (GetPod m) z r).1 with Ok o => o | Err _ => None end) in Hen.
  destruct (api_answer c (GetPod m) z r).1 as [o|e] eqn:Ha; [subst o|done].
  by apply read_version with (p := p).
Qed.

Lemma history_elem (i : nat) (l : list (nat * KEntry)) (x : KEntry) : x ∈ history i l → (i, x) ∈ l.
Proof.
  unfold history. intros ([j y] & -> & [Hj Hin]%list_elem_of_filter)%list_elem_of_fmap. simpl in *. by subst.
Qed.

Lemma provider_wp (turns : nat) (input : string) :
  wp (request_call input) (provider turns input) [] (λ _ _, True).
Proof. apply wp_bind. eapply wp_mono; [|apply respond_wp]. done. Qed.

(** What a deletion rests on, as a reading and a reason *)
Lemma delete_reading (input : string) (h : list KEntry) (n : string) (f : Fence)
    (r : KubeAnswer (DeletePod n f)) :
  request_call input h (entry (DeletePod n f) r) →
  ∃ m p, kube (GetPod m) (Ok (Some p)) ∈ h ∧ is_fence p f ∧ deletable input p.
Proof.
  intros (g & a & cfg & env & h0 & Hv & _ & [Hd|Hd]).
  - destruct Hd as (p & st & (h1 & t & -> & Ht) & Ho & _ & Hf & Hdel & Hr & _).
    exists (pod_name a), p. split_and!; [set_solver|done|]. right. by exists g, a, cfg, env, t, st.
  - destruct Hd as [(p & (h1 & t & -> & Ht) & Hf) _]. exists n, p. split_and!; [set_solver|done|].
    left. by exists t.
Qed.

(** C10 Live agents survive deploys: with any number of providers, users and kubelets writing to the cluster at the same time, the pod that a deploy deletes is, at that moment, the very object it read, so it is not running: it has terminated, or it is this agent's own, not being deleted yet, and provably broken or never started with another intent. *)
Theorem live_pods_survive (x : Store) (s : System) (i turns : nat) (input : string) (q : KProg unit)
    (l1 l2 : list (nat * KEntry)) (n : string) (f : Fence) (c : Choice) (y : Store)
    (r : KubeAnswer (DeletePod n f)) (p : Pod) :
  reach api_answer x s →
  processes s !! i = Some (provider turns input, q) →
  log s = l1 ++ (i, entry (DeletePod n f) (api_answer c (DeletePod n f) y r).1) :: l2 →
  evolves api_answer x l1 y →
  deleted c (DeletePod n f) y = Some p →
  deletable input p ∧ decode_startup p ≠ Resolved Started.
Proof.
  intros Hr Hi Hlog Hl1 Hdel.
  destruct (delete_reading input (history i l1) n f _
              (reach_acceptable api_answer x s _ _ q _ i _ l1 l2 Hr Hi (provider_wp turns input) Hlog))
    as (m & p' & Hin & Hf & Hp').
  apply history_elem in Hin. pose proof (read_is_version x y l1 i m p' f Hl1 Hin Hf) as Hv.
  apply (version_stable c (DeletePod n f) _ r) in Hv. rewrite (delete_precondition _ _ _ _ r _ Hdel) in Hv.
  simplify_eq. split; [done|]. by eapply deletable_not_live.
Qed.

End fence.
