(* ===== verification/KubeExamples.v ===== *)
(** * Deploys on concrete inputs

    Instances of the libraries and a small executable apiserver, the witnesses of the theorems
    about the Kubernetes provider, and runs that show what they leave open. *)

From S2P Require Import Prelude Text StdText Json Interaction KubeConfig KubeConfigSpec KubeObjects KubeDeploy.
From S2P Require Import KubeDeploySpec KubeTurns KubeCluster.

Open Scope string_scope.
Open Scope nat_scope.
Open Scope list_scope.

(** ** Libraries *)

Definition key64 : string := "0123456789abcdef0123456789abcdef0123456789abcdef0123456789abcdef".
Definition digest64 : string := "aaaaaaaaaaaaaaaaaaaaaaaaaaaaaaaaaaaaaaaaaaaaaaaaaaaaaaaaaaaaaaaa".

Instance text_example : KubeText := {
  debug_str := λ s, quote +:+ s +:+ quote;
  value_text := λ _, "a value";
  nsec_public_key := λ s, if decide (s = "nsec1agent") then Some key64 else None
}.

Instance template_example : TemplateJson := {
  template_json := λ t, t_namespace t +:+ "|" +:+ t_image t +:+ "|" +:+ String.concat "," (env_keys t)
}.

Instance sha_example : Sha256 := { sha256_hex := λ s, "sha:" +:+ s }.

Definition config_example : Json :=
  JObject [("image", JString ("ghcr.io/block/buzz-sprig:sha-1@sha256:" +:+ digest64));
           ("inactivity_seconds", JString " 90 "); ("namespace", JString " agents ")].

Definition payload : AgentPayload :=
  {| relay_url := " wss://relay "; private_key_nsec := "nsec1agent"; auth_tag := None;
     respond_to := Some "owner-only"; respond_to_allowlist := None;
     env_vars := {[ "IGNORED" := "x" ]};
     launch := Some {| command := Some "goose"; args := ["acp"; "-v"];
                       launch_env := {[ "EDITOR" := "vi"; "BUZZ_RELAY_URL" := "wss://evil" ]};
                       policy_env := {[ "EDITOR" := "ed"; "LANG" := "C" ]};
                       owner_pubkey := Some "owner" |} |}.

Instance request_example : RequestJson := {
  json_parse := λ s, if decide (s = "deploy") then Ok (JObject []) else Err "expected value";
  request_of := λ _, Ok (Deploy {| agent := payload; provider_config := config_example |})
}.

(** *** The environment: the agent's own fields win over the user's at their keys. *)

Definition inputs_example : AuthoritativeInputs := {| generation := "00c0ffee"; auth_inactivity_seconds := Some 90%Z |}.

Example environment_built :
  (iter <$> match build_env payload inputs_example with Ok env => Some env | Err _ => None end)
  = Some [("BUZZ_ACP_AGENT_ARGS", "acp,-v"); ("BUZZ_ACP_AGENT_COMMAND", "goose");
          ("BUZZ_ACP_AGENT_OWNER", "owner"); ("BUZZ_ACP_EXIT_AFTER_INACTIVITY", "90");
          ("BUZZ_ACP_MCP_COMMAND", "buzz-dev-mcp"); ("BUZZ_ACP_RESPOND_TO", "owner-only");
          ("BUZZ_MANAGED_AGENT_START_NONCE", "00c0ffee"); ("BUZZ_PRIVATE_KEY", "nsec1agent");
          ("BUZZ_RELAY_URL", "wss://relay"); ("EDITOR", "vi"); ("LANG", "C"); ("NOSTR_PRIVATE_KEY", "nsec1agent")].
Proof. vm_compute. reflexivity. Qed.

Example image_normalised :
  image_parse (" host:5000/buzz-sprig:v1@sha256:" +:+ digest64 +:+ newline)
  = Ok {| image_str := "host:5000/buzz-sprig@sha256:" +:+ digest64 |}.
Proof. vm_compute. reflexivity. Qed.

Example image_tag_only : is_ok (image_parse "ghcr.io/block/buzz-sprig:latest") = false.
Proof. vm_compute. reflexivity. Qed.

Example generation_text : new_generation 12648430 = "00c0ffee".
Proof. vm_compute. reflexivity. Qed.

Definition cfg_example : ProviderConfig :=
  {| context := None; namespace := "agents";
     image := {| image_str := "ghcr.io/block/buzz-sprig@sha256:" +:+ digest64 |};
     resources := default_resources; inactivity_seconds := Some 90%Z; service_account := None |}.

Example config_parsed : config_parse config_example = Ok cfg_example.
Proof. vm_compute. reflexivity. Qed.

(** *** Pods *)

Definition me : AgentIdentity := {| pubkey_hex := key64 |}.

(** A pod of this agent that recorded [intent], in the container state [st], deleted at [del] *)
Definition pod_in (st : option ContainerState) (intent : string) (del : option Z) : Pod :=
  {| metadata := {| name := Some (pod_name me); meta_namespace := Some "agents"; meta_labels := Some (labels me);
                    annotations := Some (<[ANNOTATION_PUBKEY_FULL := key64]> {[ANNOTATION_CREATE_INTENT := intent]});
                    uid := Some "u1"; resource_version := Some ""; creation_timestamp := None;
                    deletion_timestamp := del |};
     spec := None;
     status := Some {| phase := Some "Pending";
                       container_statuses := Some [{| cs_name := "agent"; state := st |}];
                       conditions := None |} |}.

Definition running_state : ContainerState := {| running := true; terminated := None; waiting := None |}.
Definition pending_state : ContainerState :=
  {| running := false; terminated := None;
     waiting := Some {| w_reason := Some "ContainerCreating"; w_message := None |} |}.

Definition second : Z := 10 ^ 9.

(** Answers that do not depend on the state of a cluster: the clock stands still. *)
Definition steady (pod : option Pod) (e : KubeCall) : KubeAnswer e :=
  match e return KubeAnswer e with
  | EnsureNamespace _ => Ok tt
  | ListPods _ => Ok ([], None)
  | ListSecrets _ => Ok []
  | SecretExists _ => Ok true
  | CreateSecret _ => Ok tt
  | CreatePod _ => Ok AlreadyExists
  | DeletePod _ _ => Ok Accepted
  | DeleteSecret _ => Ok tt
  | GetPod _ => Ok pod
  | Sleep _ => tt
  | Elapsed => second
  | RandomU32 => 7%Z
  | RandomIndex => 0
  | StartRuntime => Ok tt
  | Connect _ => Ok tt
  end.

Definition redeploy : list KEntry * KProg (option Response) :=
  play (steady (Some (pod_in (Some running_state) "other" None))) 40 (respond 302 "deploy").

(** A started agent is left alone, whatever it recorded. *)
Example redeploy_is_noop : redeploy.2 = Ret (Some (RDeployed (pod_name me))).
Proof. vm_compute. reflexivity. Qed.

Lemma deploys_are_authorised_witness :
  (∃ x, x ∈ redeploy.1 ∧ ∃ n, call x = GetPod n) ∧
  acceptable (request_call "deploy") redeploy.1 ∧
  ∃ g a cfg env, valid_request "deploy" g a cfg env ∧ started a redeploy.1 (pod_name me).
Proof.
  split; [|].
  - exists (kube (GetPod (pod_name me)) (Ok (Some (pod_in (Some running_state) "other" None)))).
    split; [vm_compute; do 7 right; left|by eexists].
  - destruct (deploys_are_authorised 302 "deploy" redeploy.1 redeploy.2 (play_runs _ _ _)) as [Hacc Hout].
    split; [exact Hacc|]. by apply (Hout (Some (RDeployed (pod_name me)))).
Defined.

Lemma requests_end_witness :
  is_Some (Some (RDeployed (pod_name me))) ∧ runs (respond 1000 "deploy") redeploy.1 (Ret (Some (RDeployed (pod_name me)))).
Proof.
  apply (requests_end 302 1000 (2 * second) "deploy").
  - pose proof (play_runs (steady (Some (pod_in (Some running_state) "other" None))) 40 (respond 302 "deploy")) as Hr.
    change (runs (respond 302 "deploy") redeploy.1 redeploy.2) in Hr. by rewrite redeploy_is_noop in Hr.
  - done.
  - vm_compute. split; [discriminate|done].
  - vm_compute. discriminate.
  - lia.
Defined.

(** *** What the theorems leave open *)

(** The loser of a creation reports success for a winner that is already being deleted. *)
Definition dying : option Pod := Some (pod_in (Some running_state) "other" (Some 5%Z)).

Example dying_winner_is_success :
  (play (steady dying) 40 (adopt_winner 302 me (secret_name me "00000007"))).2
  = Ret (Some (Ok (pod_name me))).
Proof. vm_compute. reflexivity. Qed.

(** The loop itself waits for such a pod to disappear. *)
Example dying_pod_awaited (desired : Fingerprint) :
  classify (verify (pod_in (Some running_state) "other" (Some 5%Z)) me Started) desired
  = AAwaitDisappearance (pod_name me).
Proof. vm_compute. reflexivity. Qed.

(** The collection reads the pod again, and deletes what it finds if it has terminated: here the
    listed pod is this agent's, the one found under its name carries no marker. *)
Definition exited : ContainerState :=
  {| running := false; terminated := Some {| t_reason := Some "Completed"; exit_code := 0 |}; waiting := None |}.
Definition mine : Pod := pod_in (Some exited) "other" None.
Definition foreign : Pod :=
  {| metadata := {| name := Some (pod_name me); meta_namespace := Some "agents"; meta_labels := None;
                    annotations := None; uid := Some "u2"; resource_version := Some "9";
                    creation_timestamp := None; deletion_timestamp := None |};
     spec := None; status := status mine |}.

Definition replaced_meanwhile (e : KubeCall) : KubeAnswer e :=
  match e return KubeAnswer e with
  | ListPods _ => Ok ([mine], None)
  | e => steady (Some foreign) e
  end.

Example collection_deletes_unmarked :
  has_marker (meta_labels (metadata foreign)) = false ∧
  kube (DeletePod (pod_name me) {| f_uid := "u2"; f_resource_version := "9" |}) (Ok Accepted)
    ∈ (play replaced_meanwhile 40 (preflight_gc me)).1.
Proof. split; [done|]. vm_compute. do 3 right. left. Qed.

(** The Secrets of terminated pods are dropped by the name the pod references, marked or not. *)
Definition references (n : string) (p : Pod) : Pod :=
  {| metadata := metadata p;
     spec := Some {| containers := [{| c_name := "agent"; c_image := None;
                                       env_from := Some [{| secret_ref := Some {| ref_name := n; optional := None |} |}];
                                       requests := ∅; limits := ∅; volume_mounts := []; security_context := None |}];
                     restart_policy := None; termination_grace_period_seconds := None;
                     automount_service_account_token := None; service_account_name := None;
                     pod_security_context := None; volumes := [] |};
     status := status p |}.

Definition unmarked_secret : Secret :=
  {| s_metadata := {| name := Some "shared-credentials"; meta_namespace := Some "agents"; meta_labels := None;
                      annotations := None; uid := None; resource_version := None;
                      creation_timestamp := None; deletion_timestamp := None |};
     string_data := None; immutable := None |}.

Example collection_drops_unmarked_secret :
  secret_is_ours unmarked_secret me = false ∧
  "shared-credentials" ∈ gc_secrets (gc_plan me [references "shared-credentials" mine] [unmarked_secret] (λ _, true) None).
Proof. split; [done|]. vm_compute. left. Qed.

(** ** A small apiserver

    Every write appends a version of the pod; its number, in unary, is the resourceVersion. *)
Fixpoint unary (k : nat) : string := match k with 0 => "" | S k => String "i" (unary k) end.

Record Server := { versions : list Pod; objects : gmap string nat }.

Definition set_version (k : nat) (p : Pod) : Pod :=
  let m := metadata p in
  {| metadata := {| name := name m; meta_namespace := meta_namespace m; meta_labels := meta_labels m;
                    annotations := annotations m; uid := uid m;
                    resource_version := Some (unary k);
                    creation_timestamp := creation_timestamp m; deletion_timestamp := deletion_timestamp m |};
     spec := spec p; status := status p |}.

Definition nth_version (s : Server) (k : nat) : option Pod := set_version k <$> versions s !! k.

Definition current (s : Server) (n : string) : option Pod := objects s !! n ≫= nth_version s.

Definition write (n : string) (p : option Pod) (s : Server) : Server :=
  match p with
  | Some p => {| versions := versions s ++ [p]; objects := <[n := length (versions s)]> (objects s) |}
  | None => {| versions := versions s; objects := delete n (objects s) |}
  end.

(** What others write before a call is served *)
Definition Writes : Type := list (string * option Pod).
Definition others (w : Writes) (s : Server) : Server := foldl (λ s x, write x.1 x.2 s) s w.

Definition fence_holds (p : Pod) (f : Fence) : bool :=
  bool_decide (uid (metadata p) = Some (f_uid f)) && bool_decide (resource_version (metadata p) = Some (f_resource_version f)).

Definition serve (w : Writes) (e : KubeCall) (s : Server) (r : KubeAnswer e) : KubeAnswer e * Server :=
  let s := others w s in
  match e return KubeAnswer e → KubeAnswer e * Server with
  | GetPod n => λ _, (Ok (current s n), s)
  | ListPods _ => λ _, (Ok (omap (λ x, current s x.1) (map_to_list (objects s)), None), s)
  | CreatePod p => λ _,
      let n := default "" (name (metadata p)) in
      match current s n with
      | Some _ => (Ok AlreadyExists, s)
      | None => (Ok Created, write n (Some p) s)
      end
  | DeletePod n f => λ _,
      match current s n with
      | Some p => if fence_holds p f then (Ok Accepted, write n None s) else (Ok PreconditionFailed, s)
      | None => (Ok DeleteNotFound, s)
      end
  | _ => λ r, (r, s)
  end r.

Definition server_deleted (w : Writes) (e : KubeCall) (s : Server) : option Pod :=
  match e with
  | DeletePod n f =>
      p ← current (others w s) n;
      if fence_holds p f then Some p else None
  | _ => None
  end.

(** The version with that number, if its uid and its text agree *)
Definition server_version (s : Server) (u v : string) : option Pod :=
  p ← nth_version s (String.length v);
  if decide (uid (metadata p) = Some u ∧ resource_version (metadata p) = Some v) then Some p else None.

Lemma write_versions (n : string) (p : option Pod) (s : Server) : versions s `prefix_of` versions (write n p s).
Proof. destruct p; simpl; [by eexists|done]. Qed.

Lemma others_versions (w : Writes) (s : Server) : versions s `prefix_of` versions (others w s).
Proof.
  revert s. induction w as [|[n p] w IH]; intros s; simpl; [done|].
  etrans; [apply write_versions|apply IH].
Qed.

Lemma serve_versions (w : Writes) (e : KubeCall) (s : Server) (r : KubeAnswer e) :
  versions (others w s) `prefix_of` versions (serve w e s r).2.
Proof.
  destruct e; simpl; try done; destruct (current _ _); simpl; try done; [by eexists|].
  by destruct (fence_holds _ _).
Qed.

Lemma server_version_prefix (s s' : Server) (u v : string) (p : Pod) :
  versions s `prefix_of` versions s' → server_version s u v = Some p → server_version s' u v = Some p.
Proof.
  unfold server_version, nth_version. intros Hp. destruct (versions s !! String.length v) as [q|] eqn:Hq; [|done].
  by rewrite (prefix_lookup_Some _ _ _ _ Hq Hp).
Qed.

Lemma unary_length (k : nat) : String.length (unary k) = k.
Proof. induction k as [|k IH]; simpl; [done|]. by rewrite IH. Qed.

Lemma current_version (s : Server) (n : string) (p : Pod) (u v : string) :
  current s n = Some p → uid (metadata p) = Some u → resource_version (metadata p) = Some v →
  server_version s u v = Some p.
Proof.
  unfold current, nth_version, server_version. destruct (objects s !! n) as [k|]; [|done]. simpl.
  destruct (versions s !! k) as [q|] eqn:Hq; [|done]. intros [= <-] Hu Hv. pose proof Hv as Hk.
  simpl in Hk. injection Hk as <-. rewrite unary_length. unfold nth_version. rewrite Hq. simpl in *.
  by rewrite decide_True.
Qed.

Lemma server_stable (w : Writes) (e : KubeCall) (s : Server) (r : KubeAnswer e) (u v : string) (p : Pod) :
  server_version s u v = Some p → server_version (serve w e s r).2 u v = Some p.
Proof. apply server_version_prefix. etrans; [apply others_versions|apply serve_versions]. Qed.

Lemma server_read (w : Writes) (n : string) (s : Server) (r : KubeAnswer (GetPod n)) (p : Pod) (u v : string) :
  (serve w (GetPod n) s r).1 = Ok (Some p) → uid (metadata p) = Some u → resource_version (metadata p) = Some v →
  server_version (serve w (GetPod n) s r).2 u v = Some p.
Proof. simpl. intros [= Hc]. by apply current_version with (n := n). Qed.

Lemma server_precondition (w : Writes) (n : string) (f : Fence) (s : Server) (r : KubeAnswer (DeletePod n f)) (p : Pod) :
  server_deleted w (DeletePod n f) s = Some p →
  server_version (serve w (DeletePod n f) s r).2 (f_uid f) (f_resource_version f) = Some p.
Proof.
  simpl. destruct (current (others w s) n) as [q|] eqn:Hc; [|done]. simpl.
  destruct (fence_holds q f) eqn:Hf; [|done]. intros [= ->].
  apply (server_version_prefix (others w s)); [done|].
  unfold fence_holds in Hf. apply andb_true_iff in Hf as [Hu%bool_decide_eq_true Hv%bool_decide_eq_true].
  by eapply current_version.
Qed.

Instance server_example : ApiServer := {
  Store := Server; Choice := Writes; api_answer := serve; version_of := server_version; deleted := server_deleted;
  version_stable := server_stable; read_version := server_read; delete_precondition := server_precondition
}.

(** *** A deploy that replaces a pod with another intent

    The pod of an earlier deploy has never started; this deploy reads and deletes it. *)
Definition stale : Pod := pod_in (Some pending_state) "other" None.
Definition cluster0 : Server := {| versions := [stale]; objects := {[pod_name me := 0]} |}.

Definition step0 (w : Writes) (s : System) : System := advance serve w (steady None) 0 s.

(** The calls before the deletion *)
Definition before_delete : System :=
  Nat.iter 8 (step0 []) (start (provider 302 "deploy") (initial cluster0)).

Definition stale_fence : Fence := {| f_uid := "u1"; f_resource_version := "" |}.

Lemma reach_steps (w : Writes) (n : nat) (s : System) :
  reach serve cluster0 s → reach serve cluster0 (Nat.iter n (step0 w) s).
Proof. intros Hs. induction n as [|n IH]; [done|]. by apply reach_advance. Qed.

Lemma reach_before_delete : reach serve cluster0 before_delete.
Proof. apply reach_steps, reach_start, reach_init. Qed.

Lemma process_of (s : @System KubeCall KubeAnswer Server) (p : KProg unit) :
  (processes s).*1 = [p] → ∃ q, processes s !! 0 = Some (p, q).
Proof. destruct (processes s) as [|[p' q] [|? ?]]; simpl; try done. intros [= ->]. by exists q. Qed.

Lemma step0_started (w : Writes) (n : nat) (s : System) :
  (processes (Nat.iter n (step0 w) s)).*1 = (processes s).*1.
Proof. induction n as [|n IH]; [done|]. simpl. unfold step0. by rewrite advance_started. Qed.

(** The next call deletes the pod, and nothing was written in between. *)
Example stale_deleted :
  log (step0 [] before_delete) = log before_delete ++
    [(0, entry (DeletePod (pod_name me) stale_fence)
           (serve [] (DeletePod (pod_name me) stale_fence) (shared before_delete) (Ok Accepted)).1)]
  ∧ server_deleted [] (DeletePod (pod_name me) stale_fence) (shared before_delete) = Some stale.
Proof. split; vm_compute; reflexivity. Qed.

Lemma live_pods_survive_witness :
  server_deleted [] (DeletePod (pod_name me) stale_fence) (shared before_delete) = Some stale
  ∧ deletable "deploy" stale ∧ decode_startup stale ≠ Resolved Started.
Proof.
  destruct stale_deleted as [Hlog Hdel]. split; [exact Hdel|].
  destruct (process_of (step0 [] before_delete) (provider 302 "deploy")) as [q Hq].
  { unfold step0, before_delete. rewrite advance_started, step0_started. reflexivity. }
  apply (live_pods_survive (cluster0 : @Store server_example) (step0 [] before_delete) 0 302 "deploy" q
           (log before_delete) [] (pod_name me) stale_fence ([] : @Choice server_example) (shared before_delete) (Ok Accepted) stale).
  - apply reach_advance, reach_before_delete.
  - exact Hq.
  - exact Hlog.
  - apply reach_evolves, reach_before_delete.
  - exact Hdel.
Defined.

(** The kubelet starts the container between the reading and the deletion: the fence fails, the
    pod lives, and the deploy goes on to report it started. *)
Definition started_meanwhile : Pod := pod_in (Some running_state) "other" None.
Definition raced : System := step0 [(pod_name me, Some started_meanwhile)] before_delete.

Example fence_saves_started_pod :
  last (log raced) = Some (0, kube (DeletePod (pod_name me) stale_fence) (Ok PreconditionFailed))
  ∧ (decode_startup <$> current (shared raced) (pod_name me)) = Some (Resolved Started).
Proof. split; vm_compute; reflexivity. Qed.
