(* ===== verification/Pairing.v ===== *)
(** * Device pairing (buzz-core/src/pairing/session.rs, crypto.rs, types.rs, mod.rs)

    The NIP-AB state machine that hands a secret from one device to another over an
    untrusted relay, for both sides of the exchange.

    A handler is a state-and-error computation: it runs on the session and returns the
    session with [Ok] or [Err], so what an error leaves behind is visible. What the code
    reads from outside is the record [Env] (monotonic clock, wall clock, random values).
    The functions of nostr, hkdf, hex and serde_json are the class [PairingCrypto]; what
    is relied on about them is [CryptoLaws]. Byte arrays are lists of byte values.
    Zeroization has no functional effect and is left out. *)

From stdpp Require Import pretty.
From S2P Require Import Prelude Text.

Open Scope string_scope.
Open Scope nat_scope.
Open Scope list_scope.

Definition Bytes : Type := list Z.

(** ** Messages and errors *)

Inductive PayloadType := Nsec | Bunker | Connect | Custom.

Inductive AbortReason := AR_SasMismatch | UserDenied | Timeout | ProtocolError | Unknown.

Inductive PairingMessage :=
  | Offer (session_id : string) (version : N)
  | SasConfirm (transcript_hash : string)
  | Payload (payload_type : PayloadType) (payload : string)
  | Complete (success : bool)
  | Abort (reason : AbortReason).

Inductive PairingError :=
  | InvalidQr (e : string)
  | InvalidSessionId
  | SasMismatch
  | TranscriptMismatch
  | UnexpectedMessage (expected got : string)
  | SessionExpired
  | Nip44 (e : string)
  | Json (e : string)
  | InvalidPubkey (e : string)
  | SigningError (e : string).

Inductive Role := Source | Target.

Inductive SessionState :=
  | Waiting | Confirming | AwaitingConfirmation | Transferring | PayloadExchanged
  | Completed | Aborted.

#[export] Instance Role_eq_dec : EqDecision Role.
Proof. solve_decision. Defined.
#[export] Instance SessionState_eq_dec : EqDecision SessionState.
Proof. solve_decision. Defined.

(** [{:?}] *)
Definition role_name (r : Role) : string := match r with Source => "Source" | Target => "Target" end.
Definition state_name (s : SessionState) : string :=
  match s with
  | Waiting => "Waiting" | Confirming => "Confirming"
  | AwaitingConfirmation => "AwaitingConfirmation" | Transferring => "Transferring"
  | PayloadExchanged => "PayloadExchanged" | Completed => "Completed" | Aborted => "Aborted"
  end.

Definition unexpected (expected : string) (got : PairingMessage) : PairingError :=
  UnexpectedMessage expected
    (match got with
     | Offer _ _ => "offer" | SasConfirm _ => "sas-confirm" | Payload _ _ => "payload"
     | Complete _ => "complete" | Abort _ => "abort"
     end).

(** ** The libraries the code calls *)

Class PairingCrypto := {
  Keys : Type;
  PublicKey : Type;
  PublicKey_eq_dec :: EqDecision PublicKey;
  public_key : Keys → PublicKey;
  to_bytes : PublicKey → Bytes;
  pk_to_hex : PublicKey → string;
  hex_encode : Bytes → string;
  hex_decode : string → option Bytes;
  hkdf_extract : Bytes → Bytes → Bytes;
  hkdf_expand : Bytes → string → Z → Bytes;
  generate_shared_key : Keys → PublicKey → result Bytes string;
  nip44_encrypt : Keys → PublicKey → string → N → result string string;
  nip44_decrypt : Keys → PublicKey → string → result string string;
  json_to_string : PairingMessage → result string string;
  json_from_str : string → result PairingMessage string;
  (** signature of an event's id by a key, and the id and signature check *)
  event_id : PublicKey → Z → N → list (list string) → string → Bytes;
  sign_id : Keys → Bytes → result string string;
  verify_event : Bytes → PublicKey → Z → N → list (list string) → string → string → result unit string
}.

Section pairing.
Context `{PairingCrypto}.

Record PEvent := {
  e_id : Bytes;
  e_pubkey : PublicKey;
  e_created_at : Z;
  e_kind : N;
  e_tags : list (list string);
  e_content : string;
  e_sig : string
}.

Definition event_verify (e : PEvent) : result unit string :=
  verify_event (e_id e) (e_pubkey e) (e_created_at e) (e_kind e) (e_tags e) (e_content e) (e_sig e).

(** What a call reads from outside *)
Record Env := { now : Z; unix_secs : Z; rand64 : Z; nonce : N }.

Definition DEFAULT_TIMEOUT : Z := 120000000000.
Definition PAIRING_KIND : N := 24134.

Record QrPayload := {
  source_pubkey : PublicKey;
  qr_session_secret : Bytes;
  relays : list string;
  qr_version : N
}.

Record PairingSession := {
  role : Role;
  state : SessionState;
  keys : Keys;
  session_secret : Bytes;
  relay_urls : list string;
  peer_pubkey : option PublicKey;
  session_id : Bytes;
  sas_code : option Z;
  sas_input : option Bytes;
  processed_ids : list Bytes;
  created_at : Z;
  timeout : Z
}.

(** ** Key derivation (crypto.rs) *)

Definition hkdf32 (salt ikm : Bytes) (info : string) : Bytes :=
  take 32 (hkdf_expand (hkdf_extract salt ikm) info 32).

Definition INFO_SESSION_ID : string := "nostr-pair-session-id".
Definition INFO_SAS : string := "nostr-pair-sas-v1".
Definition INFO_TRANSCRIPT : string := "nostr-pair-transcript-v1".

Definition derive_session_id (secret : Bytes) : Bytes := hkdf32 [] secret INFO_SESSION_ID.

(** [u32::from_be_bytes] of the first four bytes *)
Definition be_u32 (b : Bytes) : Z :=
  (((nth 0 b 0 * 256 + nth 1 b 0) * 256 + nth 2 b 0) * 256 + nth 3 b 0)%Z.

Definition derive_sas (ecdh_shared secret : Bytes) : Z * Bytes :=
  let input := hkdf32 secret ecdh_shared INFO_SAS in
  ((be_u32 input mod 1000000)%Z, input).

Definition derive_transcript_hash (sid src tgt input secret : Bytes) : Bytes :=
  hkdf32 secret (sid ++ src ++ tgt ++ input) INFO_TRANSCRIPT.

Fixpoint zeros (n : nat) : string := match n with 0 => "" | S n => String "0" (zeros n) end.

(** [{code:06}] *)
Definition format_sas (code : Z) : string :=
  let s := pretty code in zeros (6 - String.length s) +:+ s.

Definition ct_eq (a b : Bytes) : bool := bool_decide (a = b).

(** [hex::decode(s).ok().and_then(|b| <[u8; 32]>::try_from(b).ok())] *)
Definition decode32 (s : string) : option Bytes :=
  b ← hex_decode s; if decide (length b = 32) then Some b else None.

(** ** The computations of a handler *)

Definition M (A : Type) : Type := PairingSession → PairingSession * result A PairingError.

Definition mret {A} (x : A) : M A := λ s, (s, Ok x).
Definition mfail {A} (e : PairingError) : M A := λ s, (s, Err e).
Definition pbind {A B} (m : M A) (k : A → M B) : M B :=
  λ s, match m s with (s, Ok x) => k x s | (s, Err e) => (s, Err e) end.
Definition lift {A} (f : PairingSession → result A PairingError) : M A := λ s, (s, f s).
Definition modify (f : PairingSession → PairingSession) : M unit := λ s, (f s, Ok tt).
Definition gets {A} (f : PairingSession → A) : M A := λ s, (s, Ok (f s)).

End pairing.

Declare Scope pairing_scope.
Delimit Scope pairing_scope with pairing.
Notation "x <~ m ;; k" := (pbind m (λ x, k)) (at level 100, m at next level, right associativity)
  : pairing_scope.
Notation "m ~~ k" := (pbind m (λ _, k)) (at level 100, right associativity) : pairing_scope.
Open Scope pairing_scope.

Section handlers.
Context `{PairingCrypto}.

Definition set_state (x : SessionState) (s : PairingSession) : PairingSession :=
  {| role := role s; state := x; keys := keys s; session_secret := session_secret s;
     relay_urls := relay_urls s; peer_pubkey := peer_pubkey s; session_id := session_id s;
     sas_code := sas_code s; sas_input := sas_input s; processed_ids := processed_ids s;
     created_at := created_at s; timeout := timeout s |}.
Definition set_peer (x : PublicKey) (s : PairingSession) : PairingSession :=
  {| role := role s; state := state s; keys := keys s; session_secret := session_secret s;
     relay_urls := relay_urls s; peer_pubkey := Some x; session_id := session_id s;
     sas_code := sas_code s; sas_input := sas_input s; processed_ids := processed_ids s;
     created_at := created_at s; timeout := timeout s |}.
Definition set_sas (code : Z) (input : Bytes) (s : PairingSession) : PairingSession :=
  {| role := role s; state := state s; keys := keys s; session_secret := session_secret s;
     relay_urls := relay_urls s; peer_pubkey := peer_pubkey s; session_id := session_id s;
     sas_code := Some code; sas_input := Some input; processed_ids := processed_ids s;
     created_at := created_at s; timeout := timeout s |}.
Definition record_event (e : PEvent) (s : PairingSession) : PairingSession :=
  {| role := role s; state := state s; keys := keys s; session_secret := session_secret s;
     relay_urls := relay_urls s; peer_pubkey := peer_pubkey s; session_id := session_id s;
     sas_code := sas_code s; sas_input := sas_input s; processed_ids := e_id e :: processed_ids s;
     created_at := created_at s; timeout := timeout s |}.

Definition is_expired (v : Env) (s : PairingSession) : bool :=
  (timeout s <? Z.max 0 (now v - created_at s))%Z.

Definition check_expired (v : Env) : M unit :=
  lift (λ s, if is_expired v s then Err SessionExpired else Ok tt).

Definition expect_state (expected : SessionState) : M unit :=
  lift (λ s, if decide (state s ≠ expected)
             then Err (UnexpectedMessage ("state " +:+ state_name expected)
                         ("state " +:+ state_name (state s)))
             else Ok tt).

Definition expect_role (expected : Role) : M unit :=
  lift (λ s, if decide (role s ≠ expected)
             then Err (UnexpectedMessage ("role " +:+ role_name expected)
                         ("role " +:+ role_name (role s)))
             else Ok tt).

(** Does a tag name this key? [t[0] == "p" && t[1] == hex] *)
Definition is_p_tag (hex : string) (t : list string) : bool :=
  bool_decide (head t = Some "p") && is_some_and (λ x, bool_decide (x = hex)) (t !! 1).

Definition validate_event_basics (e : PEvent) : M unit :=
  lift (λ s,
    match event_verify e with
    | Err m => Err (InvalidPubkey ("event verification failed: " +:+ m))
    | Ok _ =>
        if decide (e_id e ∈ processed_ids s)
        then Err (UnexpectedMessage "new event" "duplicate event id")
        else if decide (e_kind e ≠ PAIRING_KIND)
        then Err (UnexpectedMessage ("kind " +:+ pretty PAIRING_KIND) ("kind " +:+ pretty (e_kind e)))
        else if existsb (is_p_tag (pk_to_hex (public_key (keys s)))) (e_tags e) then Ok tt
        else Err (InvalidPubkey "event p-tag does not match our ephemeral pubkey")
    end).

Definition validate_event_from_peer (e : PEvent) : M unit :=
  validate_event_basics e ~~
  lift (λ s,
    match peer_pubkey s with
    | Some expected =>
        if decide (e_pubkey e ≠ expected)
        then Err (InvalidPubkey ("event from " +:+ pk_to_hex (e_pubkey e) +:+ " but expected "
                                 +:+ pk_to_hex expected))
        else Ok tt
    | None => Ok tt
    end).

Definition decrypt_message (e : PEvent) : M PairingMessage :=
  lift (λ s,
    let content_len := String.length (e_content e) in
    if negb ((132 <=? content_len) && (Z.of_nat content_len <=? 87472)%Z)
    then Err (UnexpectedMessage "NIP-44 content (132–87472 chars)"
                (pretty (N.of_nat content_len) +:+ " chars"))
    else
      match nip44_decrypt (keys s) (e_pubkey e) (e_content e) with
      | Err m => Err (Nip44 m)
      | Ok decrypted =>
          if (65535 <? Z.of_nat (String.length decrypted))%Z
          then Err (UnexpectedMessage "plaintext ≤ 65535 bytes"
                      (pretty (N.of_nat (String.length decrypted)) +:+ " bytes"))
          else match json_from_str decrypted with Ok m => Ok m | Err m => Err (Json m) end
      end).

Definition build_event (v : Env) (message : PairingMessage) : M PEvent :=
  lift (λ s,
    match peer_pubkey s with
    | None => Err (InvalidPubkey "no peer pubkey set")
    | Some peer =>
        match json_to_string message with
        | Err m => Err (Json m)
        | Ok plaintext =>
            match nip44_encrypt (keys s) peer plaintext (nonce v) with
            | Err m => Err (Nip44 m)
            | Ok encrypted =>
                let jitter := (rand64 v mod 31)%Z in
                let ts := Z.max 0 (unix_secs v - jitter) in
                let tags := [["p"; pk_to_hex peer]] in
                let pk := public_key (keys s) in
                let id := event_id pk ts PAIRING_KIND tags encrypted in
                match sign_id (keys s) id with
                | Err m => Err (SigningError m)
                | Ok sig => Ok {| e_id := id; e_pubkey := pk; e_created_at := ts;
                                  e_kind := PAIRING_KIND; e_tags := tags;
                                  e_content := encrypted; e_sig := sig |}
                end
            end
        end
    end).

(** ** Source handlers *)

(** [keys], [secret], [relay_url]: the generated key pair, the random secret *)
Definition new_source (v : Env) (k : Keys) (secret : Bytes) (relay_url : string)
  : PairingSession * QrPayload :=
  ({| role := Source; state := Waiting; keys := k; session_secret := secret;
      relay_urls := [relay_url]; peer_pubkey := None; session_id := derive_session_id secret;
      sas_code := None; sas_input := None; processed_ids := []; created_at := now v;
      timeout := DEFAULT_TIMEOUT |},
   {| source_pubkey := public_key k; qr_session_secret := secret; relays := [relay_url];
      qr_version := 1 |}).

Definition check_offer (m : PairingMessage) : M unit :=
  lift (λ s,
    match m with
    | Offer sid version =>
        if decide (version ≠ 1%N)
        then Err (UnexpectedMessage "version 1" ("version " +:+ pretty version))
        else match decode32 sid with
             | Some id => if ct_eq id (session_id s) then Ok tt else Err InvalidSessionId
             | None => Err InvalidSessionId
             end
    | other => Err (unexpected "offer" other)
    end).

Definition shared_key (peer : PublicKey) : M Bytes :=
  lift (λ s, map_err SigningError (generate_shared_key (keys s) peer)).

Definition handle_offer (v : Env) (e : PEvent) : M string :=
  check_expired v ~~ expect_state Waiting ~~ expect_role Source ~~ validate_event_basics e ~~
  m <~ decrypt_message e ;;
  check_offer m ~~
  modify (set_peer (e_pubkey e)) ~~
  ecdh <~ shared_key (e_pubkey e) ;;
  secret <~ gets session_secret ;;
  modify (λ s, set_sas (derive_sas ecdh secret).1 (derive_sas ecdh secret).2 s) ~~
  modify (set_state Confirming) ~~ modify (record_event e) ~~
  mret (format_sas (derive_sas ecdh secret).1).

(** [self.sas_input.ok_or(SasMismatch)?] and [self.peer_pubkey.ok_or(..)?] *)
Definition get_sas_input : M Bytes :=
  lift (λ s, match sas_input s with Some x => Ok x | None => Err SasMismatch end).
Definition get_peer : M PublicKey :=
  lift (λ s, match peer_pubkey s with Some x => Ok x | None => Err (InvalidPubkey "no peer") end).

Definition confirm_sas (v : Env) : M PEvent :=
  check_expired v ~~ expect_state Confirming ~~ expect_role Source ~~
  input <~ get_sas_input ;;
  peer <~ get_peer ;;
  hash <~ gets (λ s, derive_transcript_hash (session_id s) (to_bytes (public_key (keys s)))
                       (to_bytes peer) input (session_secret s)) ;;
  e <~ build_event v (SasConfirm (hex_encode hash)) ;;
  modify (set_state Transferring) ~~ mret e.

Definition expect_payload (m : PairingMessage) : M (PayloadType * string) :=
  match m with Payload t p => mret (t, p) | other => mfail (unexpected "payload" other) end.

Definition receive_payload (v : Env) (r : Role) (e : PEvent) : M (PayloadType * string) :=
  check_expired v ~~ expect_state Transferring ~~ expect_role r ~~ validate_event_from_peer e ~~
  m <~ decrypt_message e ;;
  p <~ expect_payload m ;;
  modify (set_state PayloadExchanged) ~~ modify (record_event e) ~~ mret p.

Definition handle_return_payload (v : Env) (e : PEvent) : M (PayloadType * string) :=
  receive_payload v Source e.

Definition send_source_complete (v : Env) (success : bool) : M PEvent :=
  check_expired v ~~ expect_state PayloadExchanged ~~ expect_role Source ~~
  e <~ build_event v (Complete success) ;;
  modify (set_state (if success then Completed else Aborted)) ~~ mret e.

Definition send_payload (v : Env) (t : PayloadType) (p : string) : M PEvent :=
  check_expired v ~~ expect_state Transferring ~~ expect_role Source ~~
  e <~ build_event v (Payload t p) ;;
  modify (set_state PayloadExchanged) ~~ mret e.

Definition handle_complete (v : Env) (e : PEvent) : M unit :=
  check_expired v ~~ expect_state PayloadExchanged ~~ expect_role Source ~~
  validate_event_from_peer e ~~
  m <~ decrypt_message e ;;
  match m with
  | Complete true => modify (set_state Completed) ~~ modify (record_event e)
  | Complete false =>
      modify (set_state Aborted) ~~
      mfail (UnexpectedMessage "complete(success=true)" "complete(success=false)")
  | other => mfail (unexpected "complete" other)
  end.

(** ** Target handlers *)

(** The session [new_target] builds before sending the offer *)
Definition target_session (v : Env) (k : Keys) (qr : QrPayload) (ecdh : Bytes) : PairingSession :=
  {| role := Target; state := Waiting; keys := k; session_secret := qr_session_secret qr;
     relay_urls := relays qr; peer_pubkey := Some (source_pubkey qr);
     session_id := derive_session_id (qr_session_secret qr);
     sas_code := Some (derive_sas ecdh (qr_session_secret qr)).1;
     sas_input := Some (derive_sas ecdh (qr_session_secret qr)).2; processed_ids := [];
     created_at := now v; timeout := DEFAULT_TIMEOUT |}.

Definition new_target (v : Env) (k : Keys) (qr : QrPayload)
  : result (PairingSession * PEvent) PairingError :=
  ecdh <-? map_err SigningError (generate_shared_key k (source_pubkey qr)) ;;
  let session := target_session v k qr ecdh in
  e <-? (build_event v (Offer (hex_encode (session_id session)) 1) session).2 ;;
  Ok (set_state Confirming session, e).

Definition expect_sas_confirm (m : PairingMessage) : M string :=
  match m with SasConfirm h => mret h | other => mfail (unexpected "sas-confirm" other) end.

(** The transcript comparison; a mismatch aborts the session. *)
Definition check_transcript (received : string) (expected : Bytes) : M unit :=
  if is_some_and (λ rb, ct_eq rb expected) (decode32 received) then mret tt
  else modify (set_state Aborted) ~~ mfail TranscriptMismatch.

Definition handle_sas_confirm (v : Env) (e : PEvent) : M string :=
  check_expired v ~~ expect_state Confirming ~~ expect_role Target ~~ validate_event_from_peer e ~~
  m <~ decrypt_message e ;;
  received <~ expect_sas_confirm m ;;
  input <~ get_sas_input ;;
  peer <~ get_peer ;;
  expected <~ gets (λ s, derive_transcript_hash (session_id s) (to_bytes peer)
                           (to_bytes (public_key (keys s))) input (session_secret s)) ;;
  check_transcript received expected ~~
  modify (set_state AwaitingConfirmation) ~~ modify (record_event e) ~~
  lift (λ s, match sas_code s with Some c => Ok (format_sas c) | None => Err SasMismatch end).

Definition confirm_target_sas (v : Env) : M unit :=
  check_expired v ~~ expect_state AwaitingConfirmation ~~ expect_role Target ~~
  modify (set_state Transferring).

Definition handle_payload (v : Env) (e : PEvent) : M (PayloadType * string) :=
  receive_payload v Target e.

Definition send_complete (v : Env) : M PEvent :=
  check_expired v ~~ expect_state PayloadExchanged ~~ expect_role Target ~~
  e <~ build_event v (Complete true) ;;
  modify (set_state Completed) ~~ mret e.

(** ** Both sides *)

Definition terminal (st : SessionState) : bool :=
  match st with Completed | Aborted => true | _ => false end.

Definition expect_live : M unit :=
  lift (λ s, if terminal (state s)
             then Err (UnexpectedMessage "non-terminal state" ("state " +:+ state_name (state s)))
             else Ok tt).

Definition abort (v : Env) (r : AbortReason) : M (option PEvent) :=
  expect_live ~~
  peer <~ gets peer_pubkey ;;
  match peer with
  | None => modify (set_state Aborted) ~~ mret None
  | Some _ =>
      e <~ build_event v (Abort r) ;;
      modify (set_state Aborted) ~~ mret (Some e)
  end.

Definition handle_abort (e : PEvent) : M AbortReason :=
  expect_live ~~
  lift (λ s, match peer_pubkey s with
             | None => Err (InvalidPubkey "cannot accept abort before peer is known")
             | Some _ => Ok tt end) ~~
  validate_event_from_peer e ~~
  m <~ decrypt_message e ;;
  match m with
  | Abort r => modify (set_state Aborted) ~~ modify (record_event e) ~~ mret r
  | other => mfail (unexpected "abort" other)
  end.

Definition get_sas_code (s : PairingSession) : option string := format_sas <$> sas_code s.
Definition pubkey (s : PairingSession) : PublicKey := public_key (keys s).

End handlers.

Section protocol.
Context `{PairingCrypto}.

(** ** Runs: sequences of calls on one session *)

Inductive op :=
  | OpOffer (v : Env) (e : PEvent)
  | OpConfirm (v : Env)
  | OpReturn (v : Env) (e : PEvent)
  | OpSourceComplete (v : Env) (success : bool)
  | OpSendPayload (v : Env) (t : PayloadType) (p : string)
  | OpHandleComplete (v : Env) (e : PEvent)
  | OpSasConfirm (v : Env) (e : PEvent)
  | OpApprove (v : Env)
  | OpPayload (v : Env) (e : PEvent)
  | OpSendComplete (v : Env)
  | OpAbort (v : Env) (r : AbortReason)
  | OpHandleAbort (e : PEvent).

Definition outcome {A} (x : PairingSession * result A PairingError) : PairingSession * bool :=
  (x.1, is_ok x.2).

(** Run one call; did it succeed? *)
Definition run_op (o : op) (s : PairingSession) : PairingSession * bool :=
  match o with
  | OpOffer v e => outcome (handle_offer v e s)
  | OpConfirm v => outcome (confirm_sas v s)
  | OpReturn v e => outcome (handle_return_payload v e s)
  | OpSourceComplete v b => outcome (send_source_complete v b s)
  | OpSendPayload v t p => outcome (send_payload v t p s)
  | OpHandleComplete v e => outcome (handle_complete v e s)
  | OpSasConfirm v e => outcome (handle_sas_confirm v e s)
  | OpApprove v => outcome (confirm_target_sas v s)
  | OpPayload v e => outcome (handle_payload v e s)
  | OpSendComplete v => outcome (send_complete v s)
  | OpAbort v r => outcome (abort v r s)
  | OpHandleAbort e => outcome (handle_abort e s)
  end.

Inductive kind :=
  | KOffer | KConfirm | KReturn | KSourceComplete | KSendPayload | KHandleComplete
  | KSasConfirm | KApprove | KPayload | KSendComplete | KAbort.

Definition op_kind (o : op) : kind :=
  match o with
  | OpOffer _ _ => KOffer | OpConfirm _ => KConfirm | OpReturn _ _ => KReturn
  | OpSourceComplete _ _ => KSourceComplete | OpSendPayload _ _ _ => KSendPayload
  | OpHandleComplete _ _ => KHandleComplete | OpSasConfirm _ _ => KSasConfirm
  | OpApprove _ => KApprove | OpPayload _ _ => KPayload | OpSendComplete _ => KSendComplete
  | OpAbort _ _ | OpHandleAbort _ => KAbort
  end.

(** The calls of a run that succeeded, oldest first, and the session after it *)
Fixpoint run (ops : list op) (s : PairingSession) : PairingSession * list kind :=
  match ops with
  | [] => (s, [])
  | o :: ops =>
      let '(s1, ok) := run_op o s in
      let '(s2, ks) := run ops s1 in
      (s2, if ok then op_kind o :: ks else ks)
  end.

(** ** The transition table of the protocol *)

Definition goes (r : Role) (k : kind) (st st' : SessionState) : bool :=
  match r, k, st, st' with
  | Source, KOffer, Waiting, Confirming
  | Source, KConfirm, Confirming, Transferring
  | Source, KReturn, Transferring, PayloadExchanged
  | Source, KSendPayload, Transferring, PayloadExchanged
  | Source, KSourceComplete, PayloadExchanged, Completed
  | Source, KSourceComplete, PayloadExchanged, Aborted
  | Source, KHandleComplete, PayloadExchanged, Completed
  | Target, KSasConfirm, Confirming, AwaitingConfirmation
  | Target, KApprove, AwaitingConfirmation, Transferring
  | Target, KPayload, Transferring, PayloadExchanged
  | Target, KSendComplete, PayloadExchanged, Completed => true
  | _, KAbort, st, Aborted => negb (terminal st)
  | _, _, _, _ => false
  end.

(** A failed call leaves the session as it was, up to three cases the code chooses:
    a transcript mismatch and a negative completion abort it, and an offer whose key
    exchange fails has already locked the peer. *)
Definition failed (k : kind) (s s' : PairingSession) : Prop :=
  s' = s ∨
  (k = KSasConfirm ∧ state s = Confirming ∧ role s = Target ∧ s' = set_state Aborted s) ∨
  (k = KHandleComplete ∧ state s = PayloadExchanged ∧ role s = Source ∧ s' = set_state Aborted s) ∨
  (k = KOffer ∧ state s = Waiting ∧ role s = Source ∧ ∃ p, s' = set_peer p s).

Definition keeps (s s' : PairingSession) : Prop :=
  role s' = role s ∧ keys s' = keys s ∧ session_secret s' = session_secret s ∧
  session_id s' = session_id s ∧ created_at s' = created_at s ∧ timeout s' = timeout s ∧
  (sas_code s ≠ None → sas_code s' ≠ None).

Definition transition (k : kind) (s : PairingSession) (x : PairingSession * bool) : Prop :=
  if x.2 then goes (role s) k (state s) (state x.1) = true ∧ keeps s x.1 else failed k s x.1.

Lemma pbind_lift {A B} (f : PairingSession → result A PairingError) (k : A → M B) (s : PairingSession) :
  pbind (lift f) k s = match f s with Ok x => k x s | Err e => (s, Err e) end.
Proof. unfold pbind, lift. by destruct (f s). Qed.

Lemma pbind_gets {A B} (f : PairingSession → A) (k : A → M B) (s : PairingSession) :
  pbind (gets f) k s = k (f s) s.
Proof. done. Qed.

Lemma pbind_modify {B} (f : PairingSession → PairingSession) (k : unit → M B) (s : PairingSession) :
  pbind (modify f) k s = k tt (f s).
Proof. done. Qed.

Lemma pbind_assoc {A B C} (m : M A) (f : A → M B) (g : B → M C) (s : PairingSession) :
  pbind (pbind m f) g s = pbind m (λ x, pbind (f x) g) s.
Proof. unfold pbind. destruct (m s) as [s' [x|e]]; done. Qed.

(** A check on the session: it fails without touching it, or passes. *)
Lemma transition_check {A B} (k : kind) (f : PairingSession → result A PairingError) (g : A → M B)
    (s : PairingSession) :
  (∀ x, f s = Ok x → transition k s (outcome (g x s))) →
  transition k s (outcome (pbind (lift f) g s)).
Proof. intros Hg. rewrite pbind_lift. destruct (f s); [by apply Hg|by left]. Qed.

Lemma transition_state {B} (k : kind) (st : SessionState) (g : unit → M B) (s : PairingSession) :
  (state s = st → transition k s (outcome (g tt s))) →
  transition k s (outcome (pbind (expect_state st) g s)).
Proof. intros Hg. apply transition_check. intros []. case_decide; [done|]. intros _. apply Hg. tauto. Qed.

Lemma transition_role {B} (k : kind) (r : Role) (g : unit → M B) (s : PairingSession) :
  (role s = r → transition k s (outcome (g tt s))) →
  transition k s (outcome (pbind (expect_role r) g s)).
Proof. intros Hg. apply transition_check. intros []. case_decide; [done|]. intros _. apply Hg. tauto. Qed.

Lemma transition_peer_event {B} (k : kind) (e : PEvent) (g : unit → M B) (s : PairingSession) :
  transition k s (outcome (g tt s)) →
  transition k s (outcome (pbind (validate_event_from_peer e) g s)).
Proof.
  intros Hg. unfold validate_event_from_peer. rewrite pbind_assoc.
  apply transition_check. intros [] _. apply transition_check. by intros [] _.
Qed.

(** Run the checks of a handler one by one. *)
Ltac checks :=
  repeat first
    [ apply transition_state; intros ?
    | apply transition_role; intros ?
    | apply transition_peer_event
    | apply transition_check; intros ? ?
    | rewrite pbind_gets ].

Ltac accepted :=
  unfold transition, outcome, keeps; simpl;
  repeat match goal with Hs : state _ = _ |- _ => rewrite Hs | Hr : role _ = _ |- _ => rewrite Hr end;
  split_and!; try reflexivity; try done.

Lemma receive_transition (k : kind) (r : Role) (v : Env) (e : PEvent) (s : PairingSession) :
  goes r k Transferring PayloadExchanged = true →
  transition k s (outcome (receive_payload v r e s)).
Proof.
  intros Hg. unfold receive_payload. checks.
  match goal with m : PairingMessage |- _ => destruct m end; simpl; try (by left).
  accepted.
Qed.

Lemma offer_transition (v : Env) (e : PEvent) (s : PairingSession) :
  transition KOffer s (outcome (handle_offer v e s)).
Proof.
  unfold handle_offer. checks. rewrite pbind_modify. unfold shared_key. rewrite pbind_lift.
  simpl. destruct (generate_shared_key (keys s) (e_pubkey e)) as [ecdh|err]; simpl.
  - accepted.
  - right; right; right. split_and!; [done..|]. by exists (e_pubkey e).
Qed.

Lemma confirm_transition (v : Env) (s : PairingSession) :
  transition KConfirm s (outcome (confirm_sas v s)).
Proof. unfold confirm_sas. checks. accepted. Qed.

Lemma source_complete_transition (v : Env) (b : bool) (s : PairingSession) :
  transition KSourceComplete s (outcome (send_source_complete v b s)).
Proof. unfold send_source_complete. checks. destruct b; accepted. Qed.

Lemma send_payload_transition (v : Env) (t : PayloadType) (p : string) (s : PairingSession) :
  transition KSendPayload s (outcome (send_payload v t p s)).
Proof. unfold send_payload. checks. accepted. Qed.

Lemma handle_complete_transition (v : Env) (e : PEvent) (s : PairingSession) :
  transition KHandleComplete s (outcome (handle_complete v e s)).
Proof.
  unfold handle_complete. checks.
  match goal with m : PairingMessage |- _ => destruct m as [| | |[]|] end; simpl; try (by left);
    [accepted|]. right; right; left. done.
Qed.

Lemma sas_confirm_transition (v : Env) (e : PEvent) (s : PairingSession) :
  sas_code s ≠ None → transition KSasConfirm s (outcome (handle_sas_confirm v e s)).
Proof.
  intros Hcode. unfold handle_sas_confirm. checks.
  match goal with m : PairingMessage |- _ => destruct m end; try (by left).
  unfold expect_sas_confirm. unfold pbind at 1, mret at 1.
  unfold get_sas_input, get_peer. checks.
  unfold check_transcript. destruct (is_some_and _ _); [|right; left; done].
  destruct (sas_code s) as [c|] eqn:Hc; [|done].
  unfold transition, outcome, pbind, mret, modify, lift. simpl. rewrite Hc. simpl. accepted.
Qed.

Lemma approve_transition (v : Env) (s : PairingSession) :
  transition KApprove s (outcome (confirm_target_sas v s)).
Proof. unfold confirm_target_sas. checks. accepted. Qed.

Lemma send_complete_transition (v : Env) (s : PairingSession) :
  transition KSendComplete s (outcome (send_complete v s)).
Proof. unfold send_complete. checks. accepted. Qed.

Lemma goes_abort (r : Role) (st : SessionState) : goes r KAbort st Aborted = negb (terminal st).
Proof. by destruct r, st. Qed.

Lemma abort_transition (v : Env) (r : AbortReason) (s : PairingSession) :
  transition KAbort s (outcome (abort v r s)).
Proof.
  unfold abort, expect_live. apply transition_check. intros []. destruct (terminal (state s)) eqn:Ht; [done|].
  intros _. rewrite pbind_gets. destruct (peer_pubkey s).
  - checks. accepted. by rewrite goes_abort, Ht.
  - accepted. by rewrite goes_abort, Ht.
Qed.

Lemma handle_abort_transition (e : PEvent) (s : PairingSession) :
  transition KAbort s (outcome (handle_abort e s)).
Proof.
  unfold handle_abort, expect_live. apply transition_check. intros []. destruct (terminal (state s)) eqn:Ht; [done|].
  intros _. checks. match goal with m : PairingMessage |- _ => destruct m end; simpl; try (by left).
  accepted. by rewrite goes_abort, Ht.
Qed.

(** The session always has its SAS code once it left the waiting state as a target. *)
Definition target_ready (s : PairingSession) : Prop := role s = Target → sas_code s ≠ None.

Lemma transition_step (o : op) (s : PairingSession) :
  target_ready s → transition (op_kind o) s (run_op o s).
Proof.
  intros Ht. destruct o; cbn [op_kind run_op];
    try first [apply offer_transition|apply confirm_transition|apply source_complete_transition
      |apply send_payload_transition|apply handle_complete_transition|apply approve_transition
      |apply send_complete_transition|apply abort_transition|apply handle_abort_transition
      |by apply receive_transition].
  destruct (role s) eqn:Hr; [|by apply sas_confirm_transition, Ht].
  unfold handle_sas_confirm. apply transition_check; intros ? _. apply transition_state. intros _.
  apply transition_role. congruence.
Qed.

Lemma target_ready_step (o : op) (s : PairingSession) :
  target_ready s → target_ready (run_op o s).1.
Proof.
  intros Ht. pose proof (transition_step o s Ht) as Htr. unfold transition in Htr.
  unfold target_ready in *. destruct (run_op o s) as [s' []]; simpl in *.
  - destruct Htr as (_ & -> & _ & _ & _ & _ & _ & Hsas). auto.
  - destruct Htr as [->|[(_ & _ & _ & ->)|[(_ & _ & _ & ->)|(_ & _ & _ & p & ->)]]]; auto.
Qed.

(** The calls a session in state [st] can still accept *)
Inductive conforms (r : Role) : SessionState → list kind → Prop :=
  | conforms_nil st : conforms r st []
  | conforms_cons st st' k ks :
      goes r k st st' = true → conforms r st' ks → conforms r st (k :: ks).

Lemma conforms_aborted (r : Role) (ks : list kind) : conforms r Aborted ks → ks = [].
Proof. inversion 1 as [|? ? k ? Hg]; [done|]. by destruct r, k, st'. Qed.

Lemma failed_state (k : kind) (s s' : PairingSession) :
  failed k s s' → role s' = role s ∧ (state s' = state s ∨ state s' = Aborted).
Proof.
  intros [->|[(_ & _ & _ & ->)|[(_ & _ & _ & ->)|(_ & _ & _ & p & ->)]]]; simpl; tauto.
Qed.

Lemma run_conforms (ops : list op) (s : PairingSession) :
  target_ready s → conforms (role s) (state s) (run ops s).2.
Proof.
  revert s. induction ops as [|o ops IH]; intros s Ht; cbn [run]; [constructor|].
  pose proof (transition_step o s Ht) as Htr. pose proof (target_ready_step o s Ht) as Ht'.
  unfold transition in Htr. destruct (run_op o s) as [s1 ok]. cbn [fst snd] in *.
  specialize (IH s1 Ht'). destruct (run ops s1) as [s2 ks]. cbn [snd] in *. destruct ok.
  - destruct Htr as [Hg (Hr & _)]. rewrite Hr in IH. by econstructor.
  - apply failed_state in Htr as [Hr [Hst|Hst]]; rewrite Hr, Hst in IH; [done|].
    apply conforms_aborted in IH as ->. constructor.
Qed.

Ltac invert_conforms :=
  match goal with
  | Hc : conforms _ ?st ?ks |- _ =>
      let st' := fresh "st" in let k := fresh "k" in let Hg := fresh "Hg" in let Hn := fresh "Hn" in
      inversion Hc as [|? st' k ? Hg Hn]; clear Hc; subst;
      [|destruct k, st'; try discriminate Hg; clear Hg]
  end.

(** A word of the protocol: a prefix of [full], or a proper prefix followed by an abort *)
Definition word (full : list kind) (ks : list kind) : Prop :=
  ks `prefix_of` full ∨ ∃ p x, p ++ [x] `prefix_of` full ∧ ks = p ++ [KAbort].

Lemma word_cons (k : kind) (full ks : list kind) : word full ks → word (k :: full) (k :: ks).
Proof.
  intros [Hp|(p & x & Hp & ->)]; [left; by apply prefix_cons|].
  right. exists (k :: p), x. split; [|done]. by apply prefix_cons.
Qed.

Lemma word_nil (full : list kind) : word full [].
Proof. left. apply prefix_nil. Qed.

Lemma word_abort (k : kind) (full : list kind) : word (k :: full) [KAbort].
Proof. right. exists [], k. split; [|done]. apply prefix_cons, prefix_nil. Qed.

Lemma conforms_completed (r : Role) (ks : list kind) : conforms r Completed ks → ks = [].
Proof. inversion 1 as [|? ? k ? Hg]; [done|]. by destruct r, k, st'. Qed.

Create HintDb words discriminated.
#[local] Hint Resolve word_cons word_nil word_abort : words.

(** Spend the next accepted call of a run. *)
Ltac next_call :=
  match goal with
  | Hc : conforms _ Completed _ |- _ => apply conforms_completed in Hc; subst
  | Hc : conforms _ Aborted _ |- _ => apply conforms_aborted in Hc; subst
  | Hc : conforms _ _ _ |- _ => invert_conforms
  end.

Lemma target_words (ks : list kind) :
  conforms Target Confirming ks → word [KSasConfirm; KApprove; KPayload; KSendComplete] ks.
Proof. intros Hc. repeat (next_call; auto 10 with words). Qed.

Lemma source_words (ks : list kind) :
  conforms Source Waiting ks →
  ∃ x y, (x = KSendPayload ∨ x = KReturn) ∧ (y = KSourceComplete ∨ y = KHandleComplete) ∧
    word [KOffer; KConfirm; x; y] ks.
Proof.
  intros Hc. repeat next_call;
    match goal with
    | |- context [word _ (_ :: _ :: KReturn :: KHandleComplete :: _)] => exists KReturn, KHandleComplete
    | |- context [word _ (_ :: _ :: KReturn :: _)] => exists KReturn, KSourceComplete
    | |- context [word _ (_ :: _ :: KSendPayload :: KSourceComplete :: _)] => exists KSendPayload, KSourceComplete
    | |- _ => exists KSendPayload, KHandleComplete
    end; auto 10 with words.
Qed.

(** The pairing session is the state machine its documentation draws. A call
    either succeeds along an edge of the transition table and keeps role, keys,
    secret, session id and deadline, or fails; a failed call leaves the session
    untouched except that a transcript mismatch and a negative completion abort it and
    an offer whose key exchange fails has already locked the peer. A completed or aborted
    session refuses every call and never changes again. *)
Theorem pairing_transitions (o : op) (s : PairingSession) (Hs : target_ready s) :
  let '(s', ok) := run_op o s in
  (if ok then goes (role s) (op_kind o) (state s) (state s') = true ∧ keeps s s'
   else failed (op_kind o) s s') ∧
  (terminal (state s) = true → s' = s ∧ ok = false).
Proof.
  pose proof (transition_step o s Hs) as Ht. unfold transition in Ht.
  destruct (run_op o s) as [s' ok]. cbn [fst snd] in Ht. split; [done|]. intros Hterm. destruct ok.
  - destruct Ht as [Hg _]. by destruct (role s), (op_kind o), (state s), (state s').
  - split; [|done]. destruct Ht as [->|[(_ & Hw & _)|[(_ & Hw & _)|(_ & Hw & _)]]]; [done|..];
      by rewrite Hw in Hterm.
Qed.

(** C30 No run of calls, in any order and with any events, bypasses the protocol.
    The calls that succeed on a target form a prefix of: sas-confirm verified, user
    approval, payload received, completion sent; on a source a prefix of: offer
    accepted, user confirmation, payload sent (or received back), completion; in both
    cases possibly cut short by one abort. So a payload moves at most once, and only
    after the transcript was verified and the user approved. *)
Theorem protocol_order (v : Env) (k : Keys) (secret : Bytes) (relay : string) (qr : QrPayload)
    (t0 : PairingSession) (offer : PEvent) (ops : list op)
    (Hnew : new_target v k qr = Ok (t0, offer)) :
  word [KSasConfirm; KApprove; KPayload; KSendComplete] (run ops t0).2 ∧
  (∃ x y, (x = KSendPayload ∨ x = KReturn) ∧ (y = KSourceComplete ∨ y = KHandleComplete) ∧
     word [KOffer; KConfirm; x; y] (run ops (new_source v k secret relay).1).2).
Proof.
  split.
  - apply target_words. unfold new_target in Hnew.
    destruct (map_err SigningError (generate_shared_key k (source_pubkey qr))) as [ecdh|]; [|done].
    cbv zeta in Hnew. destruct (build_event _ _ _).2; [|done]. injection Hnew as <- _.
    by apply (run_conforms ops (set_state Confirming (target_session v k qr ecdh))).
  - apply source_words. by apply (run_conforms ops (new_source v k secret relay).1).
Qed.

(** ** Passing the checks of a handler *)

Lemma pass_expired {B} (v : Env) (g : unit → M B) (s : PairingSession) :
  is_expired v s = false → pbind (check_expired v) g s = g tt s.
Proof. intros Hx. unfold check_expired. by rewrite pbind_lift, Hx. Qed.
Lemma pass_state {B} (st : SessionState) (g : unit → M B) (s : PairingSession) :
  state s = st → pbind (expect_state st) g s = g tt s.
Proof. intros Hx. unfold expect_state. rewrite pbind_lift, decide_False by tauto. done. Qed.
Lemma pass_role {B} (r : Role) (g : unit → M B) (s : PairingSession) :
  role s = r → pbind (expect_role r) g s = g tt s.
Proof. intros Hx. unfold expect_role. rewrite pbind_lift, decide_False by tauto. done. Qed.
Lemma pass_basics {B} (e : PEvent) (g : unit → M B) (s : PairingSession) :
  (validate_event_basics e s).2 = Ok tt → pbind (validate_event_basics e) g s = g tt s.
Proof. intros Hx. unfold validate_event_basics in *. cbn [lift snd] in Hx. by rewrite pbind_lift, Hx. Qed.
Lemma pass_decrypt {B} (e : PEvent) (m : PairingMessage) (g : PairingMessage → M B) (s : PairingSession) :
  (decrypt_message e s).2 = Ok m → pbind (decrypt_message e) g s = g m s.
Proof. intros Hx. unfold decrypt_message in *. cbn [lift snd] in Hx. by rewrite pbind_lift, Hx. Qed.
Lemma from_peer_state (e : PEvent) (s : PairingSession) : (validate_event_from_peer e s).1 = s.
Proof.
  unfold validate_event_from_peer, validate_event_basics. rewrite pbind_lift. by destruct (match event_verify e with Ok _ => _ | Err _ => _ end).
Qed.
Lemma pass_from_peer {B} (e : PEvent) (g : unit → M B) (s : PairingSession) :
  (validate_event_from_peer e s).2 = Ok tt → pbind (validate_event_from_peer e) g s = g tt s.
Proof.
  intros Hx. pose proof (from_peer_state e s). unfold pbind.
  destruct (validate_event_from_peer e s) as [s' r]. cbn [fst snd] in *. by subst.
Qed.
Lemma pass_build_inv {B} (v : Env) (m : PairingMessage) (g : PEvent → M B) (s s' : PairingSession) (x : B) :
  pbind (build_event v m) g s = (s', Ok x) → ∃ e, (build_event v m s).2 = Ok e ∧ g e s = (s', Ok x).
Proof.
  unfold build_event. rewrite pbind_lift. cbn [lift snd].
  destruct (match peer_pubkey s with Some _ => _ | None => _ end) as [e|]; [|done]. eauto.
Qed.

(** The outcome of [handle_sas_confirm] once its checks pass *)
Lemma sas_confirm_eq (v : Env) (e : PEvent) (s : PairingSession) (h : string)
    (peer : PublicKey) (input : Bytes) (code : Z)
    (Hexp : is_expired v s = false) (Hst : state s = Confirming) (Hr : role s = Target)
    (Hval : (validate_event_from_peer e s).2 = Ok tt)
    (Hdec : (decrypt_message e s).2 = Ok (SasConfirm h))
    (Hpeer : peer_pubkey s = Some peer) (Hin : sas_input s = Some input)
    (Hcode : sas_code s = Some code) :
  let expected := derive_transcript_hash (session_id s) (to_bytes peer)
                    (to_bytes (public_key (keys s))) input (session_secret s) in
  handle_sas_confirm v e s =
    if decide (decode32 h = Some expected)
    then (record_event e (set_state AwaitingConfirmation s), Ok (format_sas code))
    else (set_state Aborted s, Err TranscriptMismatch).
Proof.
  cbv zeta. unfold handle_sas_confirm.
  rewrite pass_expired, pass_state, pass_role, pass_from_peer, (pass_decrypt _ _ _ _ Hdec) by done.
  unfold expect_sas_confirm, get_sas_input, get_peer. unfold pbind at 1, mret at 1.
  rewrite pbind_lift, Hin, pbind_lift, Hpeer, pbind_gets. unfold check_transcript.
  set (expected := derive_transcript_hash _ _ _ _ _).
  assert (is_some_and (λ rb, ct_eq rb expected) (decode32 h) =
          if decide (decode32 h = Some expected) then true else false) as ->.
  { unfold ct_eq. destruct (decode32 h) as [b|]; cbn [is_some_and]; [|by rewrite decide_False].
    case_bool_decide; [rewrite decide_True|rewrite decide_False]; congruence. }
  destruct (decide (decode32 h = Some expected)); [|done].
  unfold pbind, mret, modify, lift. simpl. by rewrite Hcode.
Qed.

(** The target accepts exactly one transcript. Once an in-time event from its peer
    decrypts to a sas-confirm, the target moves to awaiting the user's approval, and
    reports the SAS to show, if and only if the received hash is the 32-byte transcript
    hash of its own view of the exchange (session id, the peer's key as source, its own
    key as target, its own SAS input, the QR secret); anything else aborts the session. *)
Theorem sas_confirm_exact (v : Env) (e : PEvent) (s : PairingSession) (h : string)
    (peer : PublicKey) (input : Bytes) (code : Z)
    (Hexp : is_expired v s = false) (Hst : state s = Confirming) (Hr : role s = Target)
    (Hval : (validate_event_from_peer e s).2 = Ok tt)
    (Hdec : (decrypt_message e s).2 = Ok (SasConfirm h))
    (Hpeer : peer_pubkey s = Some peer) (Hin : sas_input s = Some input)
    (Hcode : sas_code s = Some code) :
  let expected := derive_transcript_hash (session_id s) (to_bytes peer)
                    (to_bytes (public_key (keys s))) input (session_secret s) in
  handle_sas_confirm v e s =
    if decide (decode32 h = Some expected)
    then (record_event e (set_state AwaitingConfirmation s), Ok (format_sas code))
    else (set_state Aborted s, Err TranscriptMismatch).
Proof. by apply (sas_confirm_eq v e s h peer input code). Qed.

End protocol.

(** ** The honest exchange *)

(** What the pairing relies on: key agreement is symmetric, decryption inverts
    encryption for the paired keys within the NIP-44 sizes, JSON and hex round-trip, a
    signature made with a key verifies under it, and HKDF yields 32 bytes. *)
Class CryptoLaws `{PairingCrypto} := {
  ecdh_sym : ∀ a b, generate_shared_key a (public_key b) = generate_shared_key b (public_key a);
  nip44_roundtrip : ∀ a b m n c, nip44_encrypt a (public_key b) m n = Ok c →
    nip44_decrypt b (public_key a) c = Ok m ∧
    (132 ≤ Z.of_nat (String.length c) ≤ 87472)%Z ∧ (Z.of_nat (String.length m) ≤ 65535)%Z;
  json_roundtrip : ∀ m t, json_to_string m = Ok t → json_from_str t = Ok m;
  hex_roundtrip : ∀ b, hex_decode (hex_encode b) = Some b;
  sign_verify : ∀ k ts kd tags c sig,
    sign_id k (event_id (public_key k) ts kd tags c) = Ok sig →
    verify_event (event_id (public_key k) ts kd tags c) (public_key k) ts kd tags c sig = Ok tt;
  hkdf_len : ∀ prk info, length (hkdf_expand prk info 32) = 32
}.

Section honest.
Context `{CryptoLaws}.

Lemma decode32_encode (b : Bytes) : length b = 32 → decode32 (hex_encode b) = Some b.
Proof. intros Hb. unfold decode32. rewrite hex_roundtrip. simpl. by rewrite decide_True. Qed.

Lemma hkdf32_len (salt ikm : Bytes) (info : string) : length (hkdf32 salt ikm info) = 32.
Proof. unfold hkdf32. rewrite length_take, hkdf_len. done. Qed.

(** An event one side builds for the other passes the other's checks and decrypts
    to the message. *)
Lemma delivered (v : Env) (m : PairingMessage) (a b : PairingSession) (e : PEvent) :
  (build_event v m a).2 = Ok e → peer_pubkey a = Some (public_key (keys b)) →
  e_id e ∉ processed_ids b →
  e_pubkey e = public_key (keys a) ∧
  (validate_event_basics e b).2 = Ok tt ∧
  (peer_pubkey b = Some (public_key (keys a)) → (validate_event_from_peer e b).2 = Ok tt) ∧
  (decrypt_message e b).2 = Ok m.
Proof.
  intros Hb Hp Hid. unfold build_event in Hb. cbn [lift snd] in Hb. rewrite Hp in Hb.
  destruct (json_to_string m) as [t|] eqn:Hj; [|done].
  destruct (nip44_encrypt _ _ _ _) as [c|] eqn:Hc; [|done]. cbv zeta in Hb.
  destruct (sign_id _ _) as [sig|] eqn:Hs; [|done]. injection Hb as <-. simpl in Hid.
  apply sign_verify in Hs. apply nip44_roundtrip in Hc as (Hdec & Hlen & Hplain).
  apply json_roundtrip in Hj. split; [done|].
  set (e := {| e_id := _ |}).
  assert ((validate_event_basics e b).2 = Ok tt) as Hbasic.
  { unfold validate_event_basics, event_verify. cbn [lift snd]. subst e. cbn [e_id e_pubkey e_created_at e_kind e_tags e_content e_sig].
    rewrite Hs, decide_False by done. rewrite decide_False by tauto. cbn [existsb]. unfold is_p_tag.
    simpl. by rewrite !bool_decide_eq_true_2. }
  split_and!; [done| |].
  - intros Hpb. unfold validate_event_from_peer. rewrite pass_basics by done.
    cbn [lift snd]. rewrite Hpb. by rewrite decide_False by tauto.
  - unfold decrypt_message. cbn [lift snd]. subst e. cbn [e_pubkey e_content].
    rewrite Hdec. rewrite (proj2 (Nat.leb_le _ _)) by lia. rewrite (proj2 (Z.leb_le _ _)) by lia.
    cbn [negb andb]. rewrite (proj2 (Z.ltb_ge _ _)) by lia. by rewrite Hj.
Qed.

(** Is the call in time for a session created at [t]? *)
Definition in_time (t : Z) (v : Env) : Prop := (now v - t ≤ DEFAULT_TIMEOUT)%Z.

Lemma in_time_live (v : Env) (s : PairingSession) :
  timeout s = DEFAULT_TIMEOUT → in_time (created_at s) v → is_expired v s = false.
Proof. unfold is_expired, in_time. intros -> Hv. apply Z.ltb_ge. unfold DEFAULT_TIMEOUT in *. lia. Qed.

(** The two sides of an accepted offer share everything the SAS and the transcript
    are derived from. *)
Record paired (s t : PairingSession) : Prop := {
  pa_source : role s = Source;
  pa_target : role t = Target;
  pa_peer_s : peer_pubkey s = Some (public_key (keys t));
  pa_peer_t : peer_pubkey t = Some (public_key (keys s));
  pa_secret : session_secret s = session_secret t;
  pa_id : session_id s = session_id t;
  pa_input : ∃ i, sas_input s = Some i ∧ sas_input t = Some i;
  pa_code : ∃ c, sas_code s = Some c ∧ sas_code t = Some c;
  pa_time_s : timeout s = DEFAULT_TIMEOUT;
  pa_time_t : timeout t = DEFAULT_TIMEOUT
}.

Lemma paired_states (s t : PairingSession) (a b : SessionState) (e : PEvent) :
  paired s t → paired (set_state a s) (set_state b t) ∧ paired (set_state a s) (record_event e (set_state b t)).
Proof. by intros []. Qed.

Lemma offer_accepted (vs vt v : Env) (ks kt : Keys) (secret : Bytes) (relay : string)
    (t1 : PairingSession) (e1 : PEvent) :
  new_target vt kt (new_source vs ks secret relay).2 = Ok (t1, e1) →
  in_time (now vs) v →
  ∃ s1 c, handle_offer v e1 (new_source vs ks secret relay).1 = (s1, Ok (format_sas c)) ∧
    sas_code t1 = Some c ∧ paired s1 t1 ∧ state s1 = Confirming ∧ state t1 = Confirming ∧
    processed_ids s1 = [e_id e1] ∧ processed_ids t1 = [] ∧
    created_at s1 = now vs ∧ created_at t1 = now vt.
Proof.
  intros Hnew Hv. unfold new_target in Hnew. cbn [new_source snd fst source_pubkey qr_session_secret relays] in Hnew.
  destruct (generate_shared_key kt (public_key ks)) as [ecdh|] eqn:Hk; [|done]. cbn [map_err] in Hnew.
  cbv zeta in Hnew. set (ts := target_session vt kt _ ecdh) in Hnew.
  destruct (build_event vt _ ts).2 as [e|] eqn:Hb; [|done]. injection Hnew as <- <-.
  set (s0 := (new_source vs ks secret relay).1).
  destruct (delivered vt _ ts s0 e Hb) as (Hpk & Hbas & _ & Hdec); [done|by apply not_elem_of_nil|].
  exists (record_event e (set_state Confirming (set_sas (derive_sas ecdh secret).1
            (derive_sas ecdh secret).2 (set_peer (e_pubkey e) s0)))), (derive_sas ecdh secret).1.
  split_and!; try done.
  - unfold handle_offer.
    rewrite pass_expired, pass_state, pass_role, pass_basics by (done || by apply in_time_live).
    rewrite (pass_decrypt _ _ _ _ Hdec). unfold check_offer. rewrite pbind_lift.
    rewrite decide_False by tauto. rewrite decode32_encode by apply hkdf32_len.
    unfold ct_eq. rewrite bool_decide_eq_true_2 by done.
    rewrite pbind_modify. unfold shared_key. rewrite pbind_lift. cbn [keys set_peer s0 new_source fst].
    rewrite Hpk. cbn [keys ts target_session]. rewrite ecdh_sym, Hk. done.
  - split; simpl; try done; [by rewrite Hpk|by eexists|by eexists].
Qed.

Lemma confirm_accepted (v1 v2 : Env) (s t s' : PairingSession) (e : PEvent) :
  paired s t → state s = Confirming → state t = Confirming → processed_ids t = [] →
  in_time (created_at t) v2 → confirm_sas v1 s = (s', Ok e) →
  ∃ c, sas_code t = Some c ∧ s' = set_state Transferring s ∧
    handle_sas_confirm v2 e t = (record_event e (set_state AwaitingConfirmation t), Ok (format_sas c)).
Proof.
  intros Hp Hs Ht Hids Hv Hc. destruct Hp as [Hrs Hrt Hps Hpt Hsec Hsid (i & His & Hit) (c & Hcs & Hct) Hts Htt].
  unfold confirm_sas in Hc. unfold check_expired in Hc. rewrite pbind_lift in Hc.
  destruct (is_expired v1 s); [done|]. rewrite pass_state, pass_role in Hc by done.
  unfold get_sas_input, get_peer in Hc. rewrite pbind_lift, His, pbind_lift, Hps, pbind_gets in Hc.
  apply pass_build_inv in Hc as (e' & Hb & Hc). injection Hc as <- <-.
  destruct (delivered v1 _ s t e' Hb) as (_ & _ & Hval & Hdec); [done|rewrite Hids; apply not_elem_of_nil|].
  exists c. split_and!; [done..|].
  match type of Hdec with _ = Ok (SasConfirm (hex_encode ?x)) => set (hash := x) in * end.
  rewrite (sas_confirm_eq v2 e' t (hex_encode hash) (public_key (keys s)) i c);
    try done; [|by apply in_time_live|by apply Hval].
  rewrite decode32_encode by apply hkdf32_len. rewrite decide_True; [done|].
  unfold hash. by rewrite Hsec, Hsid.
Qed.

Lemma payload_accepted (v1 v2 : Env) (ty : PayloadType) (p : string) (s t s' : PairingSession) (e : PEvent) :
  paired s t → state t = Transferring → e_id e ∉ processed_ids t →
  in_time (created_at t) v2 → send_payload v1 ty p s = (s', Ok e) →
  s' = set_state PayloadExchanged s ∧
  handle_payload v2 e t = (record_event e (set_state PayloadExchanged t), Ok (ty, p)).
Proof.
  intros Hp Ht Hid Hv Hc. destruct Hp as [Hrs Hrt Hps Hpt _ _ _ _ _ Htt].
  unfold send_payload in Hc. unfold check_expired, expect_state in Hc. rewrite pbind_lift in Hc.
  destruct (is_expired v1 s); [done|]. rewrite pbind_lift in Hc. case_decide; [done|].
  rewrite pass_role in Hc by done.
  apply pass_build_inv in Hc as (e' & Hb & Hc). injection Hc as <- <-. split; [done|].
  destruct (delivered v1 _ s t e' Hb) as (_ & _ & Hval & Hdec); [done|done|].
  unfold handle_payload, receive_payload.
  rewrite pass_expired, pass_state, pass_role, pass_from_peer by (done || (by apply in_time_live) || by apply Hval).
  by rewrite (pass_decrypt _ _ _ _ Hdec).
Qed.

Lemma completion_accepted (v1 v2 : Env) (s t t' : PairingSession) (e : PEvent) :
  paired s t → state s = PayloadExchanged → e_id e ∉ processed_ids s →
  in_time (created_at s) v2 → send_complete v1 t = (t', Ok e) →
  t' = set_state Completed t ∧
  handle_complete v2 e s = (record_event e (set_state Completed s), Ok tt).
Proof.
  intros Hp Hs Hid Hv Hc. destruct Hp as [Hrs Hrt Hps Hpt _ _ _ _ Hts Htt].
  unfold send_complete in Hc. unfold check_expired, expect_state in Hc. rewrite pbind_lift in Hc.
  destruct (is_expired v1 t); [done|]. rewrite pbind_lift in Hc. case_decide; [done|].
  rewrite pass_role in Hc by done.
  apply pass_build_inv in Hc as (e' & Hb & Hc). injection Hc as <- <-. split; [done|].
  destruct (delivered v1 _ t s e' Hb) as (_ & _ & Hval & Hdec); [done|done|].
  unfold handle_complete.
  rewrite pass_expired, pass_state, pass_role, pass_from_peer by (done || (by apply in_time_live) || by apply Hval).
  by rewrite (pass_decrypt _ _ _ _ Hdec).
Qed.

(** C31 The honest exchange succeeds. When a target scans the source's QR code and
    both stay within the deadline, the source accepts the offer and both sides show the
    same SAS code; the target accepts the confirmation and, after approval, receives
    exactly the payload that was sent; and its completion brings both sides to the
    completed state. The only other premises are that building each event succeeds and
    that the ids of different events differ. *)
Theorem honest_pairing_completes (vs vt : Env) (ks kt : Keys) (secret : Bytes) (relay : string)
    (t1 : PairingSession) (e1 : PEvent) (v : nat → Env)
    (Hnew : new_target vt kt (new_source vs ks secret relay).2 = Ok (t1, e1))
    (Hs : ∀ i, in_time (now vs) (v i)) (Ht : ∀ i, in_time (now vt) (v i)) :
  ∃ s1 sas, handle_offer (v 0) e1 (new_source vs ks secret relay).1 = (s1, Ok sas) ∧
    get_sas_code t1 = Some sas ∧
  ∀ s2 e2, confirm_sas (v 1) s1 = (s2, Ok e2) →
  ∃ t2 t3, handle_sas_confirm (v 2) e2 t1 = (t2, Ok sas) ∧
    confirm_target_sas (v 3) t2 = (t3, Ok tt) ∧
  ∀ ty p s3 e3, send_payload (v 4) ty p s2 = (s3, Ok e3) → e_id e3 ≠ e_id e2 →
  ∃ t4, handle_payload (v 5) e3 t3 = (t4, Ok (ty, p)) ∧
  ∀ t5 e4, send_complete (v 6) t4 = (t5, Ok e4) → e_id e4 ≠ e_id e1 →
  ∃ s4, handle_complete (v 7) e4 s3 = (s4, Ok tt) ∧ state s4 = Completed ∧ state t5 = Completed.
Proof.
  destruct (offer_accepted vs vt (v 0) ks kt secret relay t1 e1 Hnew (Hs 0))
    as (s1 & c & Ho & Hc & Hp & Hs1 & Ht1 & Hids & Hidt & Hcs & Hct).
  exists s1, (format_sas c). split_and!; [done|unfold get_sas_code; by rewrite Hc|].
  intros s2 e2 Hconf.
  destruct (confirm_accepted (v 1) (v 2) s1 t1 s2 e2) as (c' & Hc' & -> & Hsas); [done..|by rewrite Hct|done|].
  assert (c' = c) as -> by congruence.
  set (t2 := record_event e2 (set_state AwaitingConfirmation t1)).
  exists t2, (set_state Transferring t2). split_and!; [done| |].
  { unfold confirm_target_sas. rewrite pass_expired, pass_state, pass_role; try done.
    - by destruct Hp.
    - apply in_time_live; [by destruct Hp|]. by rewrite <- Hct in Ht. }
  assert (paired (set_state Transferring s1) (set_state Transferring t2)) as Hp2 by by destruct Hp.
  intros ty p s3 e3 Hpay Hid3.
  destruct (payload_accepted (v 4) (v 5) ty p (set_state Transferring s1)
    (set_state Transferring t2) s3 e3 Hp2) as [-> Hpl]; [done| |by rewrite <- Hct in Ht|done|].
  { simpl. rewrite Hidt. rewrite not_elem_of_cons. split; [done|apply not_elem_of_nil]. }
  eexists. split; [done|]. intros t5 e4 Hcomp Hid4.
  set (s4 := set_state PayloadExchanged (set_state Transferring s1)) in *.
  set (t4 := record_event e3 _) in *.
  assert (paired s4 t4) as Hp3 by by destruct Hp2.
  destruct (completion_accepted (v 6) (v 7) s4 t4 t5 e4 Hp3) as [-> Hcp]; [done| |by rewrite <- Hcs in Hs|done|].
  { simpl. rewrite Hids, not_elem_of_cons. split; [done|apply not_elem_of_nil]. }
  eexists. split_and!; [done..|]. done.
Qed.

End honest.

(** ** A toy instance of the libraries, and the properties on it *)

Module Toy.

Definition to_code (m : PairingMessage) : N * string * string :=
  match m with
  | Offer sid v => (0%N, sid, bits (encode v))
  | SasConfirm h => (1%N, h, "")
  | Payload Nsec p => (2%N, p, "")
  | Payload Bunker p => (3%N, p, "")
  | Payload Connect p => (4%N, p, "")
  | Payload Custom p => (5%N, p, "")
  | Complete true => (6%N, "", "")
  | Complete false => (7%N, "", "")
  | Abort AR_SasMismatch => (8%N, "", "")
  | Abort UserDenied => (9%N, "", "")
  | Abort Timeout => (10%N, "", "")
  | Abort ProtocolError => (11%N, "", "")
  | Abort Unknown => (12%N, "", "")
  end.

Definition of_code (c : N * string * string) : option PairingMessage :=
  let '(n, x, y) := c in
  match n with
  | 0%N => p ← unbits y; v ← decode p; Some (Offer x v)
  | 1%N => Some (SasConfirm x)
  | 2%N => Some (Payload Nsec x)
  | 3%N => Some (Payload Bunker x)
  | 4%N => Some (Payload Connect x)
  | 5%N => Some (Payload Custom x)
  | 6%N => Some (Complete true)
  | 7%N => Some (Complete false)
  | 8%N => Some (Abort AR_SasMismatch)
  | 9%N => Some (Abort UserDenied)
  | 10%N => Some (Abort Timeout)
  | 11%N => Some (Abort ProtocolError)
  | _ => Some (Abort Unknown)
  end.

Lemma of_to_code (m : PairingMessage) : of_code (to_code m) = Some m.
Proof.
  destruct m as [sid v| |[]|[]|[]]; try done.
  unfold of_code, to_code. rewrite unbits_bits. simpl. by rewrite decode_encode.
Qed.

Definition decode_bytes (s : string) : option Bytes := p ← unbits s; decode p.
Definition decode_msg (s : string) : option PairingMessage :=
  p ← unbits s; c ← decode (A := N * string * string) p; of_code c.

Definition pad : string := zeros 132.
Fixpoint drop_chars (n : nat) (s : string) : string :=
  match n, s with 0, s => s | S n, "" => "" | S n, String _ s => drop_chars n s end.

Lemma drop_pad (n : nat) (s : string) : drop_chars n (zeros n +:+ s) = s.
Proof. induction n as [|n IH]; simpl; [done|]. apply IH. Qed.

Lemma length_zeros (n : nat) (s : string) : String.length (zeros n +:+ s) = n + String.length s.
Proof. induction n as [|n IH]; simpl; [done|]. by f_equal. Qed.

#[export] Instance crypto : PairingCrypto := {|
  Keys := N;
  PublicKey := N;
  public_key := λ k, k;
  to_bytes := λ k, [Z.of_N k];
  pk_to_hex := λ k, bits (encode k);
  hex_encode := λ b, bits (encode b);
  hex_decode := decode_bytes;
  hkdf_extract := λ salt ikm, salt ++ ikm;
  hkdf_expand := λ prk info n, take (Z.to_nat n) (prk ++ replicate (Z.to_nat n) 0%Z);
  generate_shared_key := λ k pk, Ok [Z.of_N (k * pk)];
  nip44_encrypt := λ k pk m n,
    if (Z.of_nat (String.length m) <=? 65535)%Z then Ok (pad +:+ m) else Err "too long";
  nip44_decrypt := λ k pk c, Ok (drop_chars 132 c);
  json_to_string := λ m, Ok (bits (encode (to_code m)));
  json_from_str := λ s,
    match decode_msg s with Some m => Ok m | None => Err "parse" end;
  event_id := λ pk ts kd tags c, [Z.of_N pk; Z.of_nat (String.length c)];
  sign_id := λ k id, Ok (bits (encode k));
  verify_event := λ id pk ts kd tags c sig,
    if decide (sig = bits (encode pk)) then Ok tt else Err "bad signature"
|}.

#[export] Instance laws : CryptoLaws.
Proof.
  split; cbn [crypto Keys PublicKey public_key hex_encode hex_decode hkdf_expand generate_shared_key
    nip44_encrypt nip44_decrypt json_to_string json_from_str event_id sign_id verify_event].
  - intros a b. do 3 f_equal. lia.
  - intros a b m n c. destruct (Z.leb_spec (Z.of_nat (String.length m)) 65535) as [Hle|]; [|done].
    intros [= <-]. unfold pad. rewrite drop_pad, length_zeros. split; [done|]. lia.
  - intros m t [= <-]. unfold decode_msg. rewrite unbits_bits. simpl. rewrite decode_encode. simpl.
    by rewrite of_to_code.
  - intros b. unfold decode_bytes. rewrite unbits_bits. simpl. by rewrite decode_encode.
  - intros k ts kd tags c sig [= <-]. by rewrite decide_True.
  - intros prk info. rewrite length_take, length_app, length_replicate. lia.
Qed.

Definition env (t : Z) : Env := {| now := t; unix_secs := 1000; rand64 := 7; nonce := 0%N |}.
Definition key (n : N) : @Keys crypto := n.
Definition demo_qr : QrPayload := (new_source (env 0) (key 3) [1%Z; 2%Z] "wss://r").2.
Definition demo_target : PairingSession := set_state Confirming (target_session (env 1) (key 5) demo_qr [15%Z]).
Definition demo_offer : PEvent :=
  match new_target (env 1) (key 5) demo_qr with
  | Ok (_, e) => e
  | Err _ => {| e_id := []; e_pubkey := key 0; e_created_at := 0; e_kind := 0%N; e_tags := [];
                e_content := ""; e_sig := "" |}
  end.

Lemma demo_new_target : new_target (env 1) (key 5) demo_qr = Ok (demo_target, demo_offer).
Proof. vm_compute. reflexivity. Qed.

End Toy.

#[local] Existing Instance Toy.crypto.
#[local] Existing Instance Toy.laws.

Lemma pairing_transitions_witness :
  let s := set_state Completed Toy.demo_target in
  run_op (OpApprove (Toy.env 2)) s = (s, false).
Proof.
  cbv zeta. pose proof (pairing_transitions (OpApprove (Toy.env 2)) (set_state Completed Toy.demo_target)
    ltac:(done)) as Ht.
  destruct (run_op _ _) as [s' ok]. destruct Ht as [_ Ht].
  destruct (Ht eq_refl) as [-> ->]. reflexivity.
Defined.

Lemma protocol_order_witness :
  word [KSasConfirm; KApprove; KPayload; KSendComplete]
    (run [OpApprove (Toy.env 2); OpAbort (Toy.env 3) UserDenied] Toy.demo_target).2.
Proof.
  apply (protocol_order (Toy.env 1) (Toy.key 5) [1%Z] "wss://r" Toy.demo_qr Toy.demo_target Toy.demo_offer).
  exact Toy.demo_new_target.
Defined.

Lemma honest_pairing_completes_witness :
  ∃ s1 sas, handle_offer (Toy.env 2) Toy.demo_offer (new_source (Toy.env 0) (Toy.key 3) [1%Z; 2%Z] "wss://r").1
    = (s1, Ok sas) ∧ get_sas_code Toy.demo_target = Some sas.
Proof.
  destruct (honest_pairing_completes (Toy.env 0) (Toy.env 1) (Toy.key 3) (Toy.key 5) [1%Z; 2%Z] "wss://r"
    Toy.demo_target Toy.demo_offer (λ _, Toy.env 2) Toy.demo_new_target) as (s1 & sas & Ho & Hs & _);
    [intros _; unfold in_time, DEFAULT_TIMEOUT; simpl; lia..|].
  by exists s1, sas.
Defined.

(** The source's confirmation of the demo exchange *)
Definition demo_confirm : PEvent :=
  let s1 := (handle_offer (Toy.env 2) Toy.demo_offer
               (new_source (Toy.env 0) (Toy.key 3) [1%Z; 2%Z] "wss://r").1).1 in
  match (confirm_sas (Toy.env 2) s1).2 with Ok e => e | Err _ => Toy.demo_offer end.

Definition demo_hash : string :=
  match (decrypt_message demo_confirm Toy.demo_target).2 with Ok (SasConfirm h) => h | _ => "" end.

Lemma sas_confirm_exact_witness :
  (handle_sas_confirm (Toy.env 2) demo_confirm Toy.demo_target).1 =
    record_event demo_confirm (set_state AwaitingConfirmation Toy.demo_target).
Proof.
  rewrite (sas_confirm_exact (Toy.env 2) demo_confirm Toy.demo_target demo_hash (Toy.key 3)
    (derive_sas [15%Z] [1%Z; 2%Z]).2 (derive_sas [15%Z] [1%Z; 2%Z]).1);
    [|vm_compute; reflexivity..].
  rewrite decide_True by (vm_compute; reflexivity). reflexivity.
Defined.

(** The whole exchange on the toy instance, by evaluation *)
Example honest_exchange_runs :
  let v := Toy.env 2 in
  let s0 := (new_source (Toy.env 0) (Toy.key 3) [1%Z; 2%Z] "wss://r").1 in
  let '(s1, r1) := handle_offer v Toy.demo_offer s0 in
  let '(s2, r2) := confirm_sas v s1 in
  match r2 with
  | Ok e2 =>
      let '(t2, r3) := handle_sas_confirm v e2 Toy.demo_target in
      let '(t3, _) := confirm_target_sas v t2 in
      let '(s3, r4) := send_payload v Nsec "nsec1" s2 in
      match r4 with
      | Ok e3 =>
          let '(t4, r5) := handle_payload v e3 t3 in
          let '(t5, r6) := send_complete v t4 in
          match r6 with
          | Ok e4 => r5 = Ok (Nsec, "nsec1") ∧ r1 = r3 ∧ state t5 = Completed ∧
                     state (handle_complete v e4 s3).1 = Completed
          | Err _ => False
          end
      | Err _ => False
      end
  | Err _ => False
  end.
Proof. vm_compute. done. Qed.
