(* ===== verification/AuditLog.v ===== *)
(** * The audit log (buzz-audit/src/hash.rs, action.rs, entry.rs, service.rs)

    A hash chain per community. The [audit_log] table is a list of rows in insertion
    order and a query is a function on it; the advisory lock makes each append atomic,
    so the state of the service is the table. Timestamps are nanoseconds.

    Parameters: SHA-256, chrono's RFC 3339 text, serde_json's string escaping, and what
    Postgres gives back for a stored timestamp and JSON value ([AuditLibs]); what is
    relied on about them is [AuditLaws]. The [detail] column is JSONB, which keeps neither
    the order of an object's keys nor the text of its numbers: a detail is [plain] when its
    numbers are integers, and only plain details are taken to come back as they were. *)

From Stdlib Require Import OrdersEx.
From S2P Require Import Prelude Text Json Filter.

Open Scope string_scope.
Open Scope nat_scope.
Open Scope list_scope.

Definition Bytes : Type := list Z.

Inductive AuditAction :=
  | EventCreated | EventDeleted | ChannelCreated | ChannelUpdated | ChannelDeleted
  | MemberAdded | MemberRemoved | AuthSuccess | AuthFailure | RateLimitExceeded
  | MediaUploaded.

Definition action_as_str (a : AuditAction) : string :=
  match a with
  | EventCreated => "event_created" | EventDeleted => "event_deleted"
  | ChannelCreated => "channel_created" | ChannelUpdated => "channel_updated"
  | ChannelDeleted => "channel_deleted" | MemberAdded => "member_added"
  | MemberRemoved => "member_removed" | AuthSuccess => "auth_success"
  | AuthFailure => "auth_failure" | RateLimitExceeded => "rate_limit_exceeded"
  | MediaUploaded => "media_uploaded"
  end.

Definition ALL_ACTIONS : list AuditAction :=
  [EventCreated; EventDeleted; ChannelCreated; ChannelUpdated; ChannelDeleted; MemberAdded;
   MemberRemoved; AuthSuccess; AuthFailure; RateLimitExceeded; MediaUploaded].

Definition action_from_str (s : string) : option AuditAction :=
  List.find (λ a, bool_decide (action_as_str a = s)) ALL_ACTIONS.

Inductive AuditError :=
  | Database (e : string)
  | ChainViolation (seq : Z)
  | HashMismatch (seq : Z)
  | UnknownAction
  | Serialization (e : string).

Record AuditEntry := {
  community_id : Uuid;
  seq : Z;
  hash : Bytes;
  prev_hash : option Bytes;
  action : AuditAction;
  actor_pubkey : option Bytes;
  object_id : option string;
  detail : Json;
  a_created_at : Z
}.

Record NewAuditEntry := {
  n_community_id : CommunityId;
  n_action : AuditAction;
  n_actor_pubkey : option Bytes;
  n_object_id : option string;
  n_detail : Json
}.

(** A row of [audit_log]: the action is its string. *)
Record Row := {
  r_community_id : Uuid;
  r_seq : Z;
  r_hash : Bytes;
  r_prev_hash : option Bytes;
  r_action : string;
  r_actor_pubkey : option Bytes;
  r_object_id : option string;
  r_detail : Json;
  r_created_at : Z
}.

Class AuditLibs := {
  sha256 : Bytes → Bytes;
  to_rfc3339 : Z → string;
  json_escape : string → result string string;
  store_timestamp : Z → Z;
  store_detail : Json → result Json string
}.

Definition GENESIS_HASH : Bytes := replicate 32 0%Z.

(** [trunc_subsecs(6)] *)
Definition to_storage_precision (t : Z) : Z := (t / 1000 * 1000)%Z.

Definition bytes_of_string (s : string) : Bytes :=
  (λ a, Z.of_N (Ascii.N_of_ascii a)) <$> string_to_list s.

(** The [n] big-endian bytes of [x] modulo [256^n] *)
Fixpoint be_bytes (n : nat) (x : Z) : Bytes :=
  match n with 0 => [] | S n => be_bytes n (x / 256) ++ [(x mod 256)%Z] end.

(** [BTreeMap] insertion: sorted by key, a later entry replaces an equal one *)
Fixpoint btree_insert {A} (k : string) (v : A) (l : list (string * A)) : list (string * A) :=
  match l with
  | [] => [(k, v)]
  | (k', v') :: l' =>
      match String.compare k k' with
      | Lt => (k, v) :: l
      | Eq => (k, v) :: l'
      | Gt => (k', v') :: btree_insert k v l'
      end
  end.

Definition btree {A} (l : list (string * A)) : list (string * A) :=
  foldl (λ acc kv, btree_insert kv.1 kv.2 acc) [] l.

Section hashing.
Context `{AuditLibs}.

(** Comma-separated parts; the first error wins. *)
Fixpoint join_parts (first : bool) (l : list (result string string)) : result string string :=
  match l with
  | [] => Ok ""
  | p :: l =>
      x <-? p ;; rest <-? join_parts false l ;;
      Ok ((if first then "" else ",") +:+ x +:+ rest)
  end.

Definition member (kv : string * result string string) : result string string :=
  k <-? json_escape kv.1 ;; v <-? kv.2 ;; Ok (k +:+ ":" +:+ v).

Fixpoint canonical_json (v : Json) : result string string :=
  match v with
  | JObject m =>
      let parts := (fix go (l : list (string * Json)) : list (string * result string string) :=
        match l with [] => [] | (k, v) :: l => (k, canonical_json v) :: go l end) m in
      body <-? join_parts true (member <$> btree parts) ;; Ok ("{" +:+ body +:+ "}")
  | JArray l =>
      let parts := (fix go (l : list Json) : list (result string string) :=
        match l with [] => [] | v :: l => canonical_json v :: go l end) l in
      body <-? join_parts true parts ;; Ok ("[" +:+ body +:+ "]")
  | JNull => Ok "null"
  | JBool true => Ok "true"
  | JBool false => Ok "false"
  | JNumber t => Ok t
  | JString s => json_escape s
  end.

(** The bytes [compute_hash] feeds to the hasher: everything up to the detail, and
    then the previous hash *)
Definition preimage_head (e : AuditEntry) (json : string) : Bytes :=
  be_bytes 16 (Z.of_N (community_id e)) ++ be_bytes 8 (seq e)
  ++ bytes_of_string (to_rfc3339 (to_storage_precision (a_created_at e)))
  ++ bytes_of_string (action_as_str (action e))
  ++ match actor_pubkey e with Some pk => 1%Z :: pk | None => [0%Z] end
  ++ match object_id e with Some id => 1%Z :: bytes_of_string id | None => [0%Z] end
  ++ bytes_of_string json.

Definition preimage (e : AuditEntry) : result Bytes AuditError :=
  json <-? map_err Serialization (canonical_json (detail e)) ;;
  Ok (preimage_head e json ++ default GENESIS_HASH (prev_hash e)).

Definition compute_hash (e : AuditEntry) : result Bytes AuditError :=
  p <-? preimage e ;; Ok (sha256 p).

(** ** The service *)

Definition row_to_audit_entry (r : Row) : result AuditEntry AuditError :=
  match action_from_str (r_action r) with
  | None => Err UnknownAction
  | Some a => Ok {| community_id := r_community_id r; seq := r_seq r; hash := r_hash r;
                    prev_hash := r_prev_hash r; action := a; actor_pubkey := r_actor_pubkey r;
                    object_id := r_object_id r; detail := r_detail r;
                    a_created_at := r_created_at r |}
  end.

(** The row of an entry, with its detail as the column keeps it *)
Definition entry_to_row (e : AuditEntry) (d : Json) : Row :=
  {| r_community_id := community_id e; r_seq := seq e; r_hash := hash e;
     r_prev_hash := prev_hash e; r_action := action_as_str (action e);
     r_actor_pubkey := actor_pubkey e; r_object_id := object_id e;
     r_detail := d; r_created_at := store_timestamp (a_created_at e) |}.

(** [WHERE community_id = c .. ORDER BY seq ASC] *)
Definition select (db : list Row) (c : Uuid) (p : Z → bool) : list Row :=
  sort_by_key r_seq (List.filter (λ r, bool_decide (r_community_id r = c) && p (r_seq r)) db).

(** [ORDER BY seq DESC LIMIT 1] *)
Definition chain_head (db : list Row) (c : Uuid) : option Row := last (select db c (λ _, true)).

Definition insert_row (db : list Row) (r : Row) : result (list Row) AuditError :=
  if existsb (λ x, bool_decide (r_community_id x = r_community_id r) && (r_seq x =? r_seq r)%Z) db
  then Err (Database "duplicate key") else Ok (db ++ [r]).

(** The [INSERT], which fails if Postgres refuses the detail *)
Definition insert_entry (db : list Row) (e : AuditEntry) : result (list Row) AuditError :=
  d <-? map_err Database (store_detail (detail e)) ;; insert_row db (entry_to_row e d).

Definition with_hash (e : AuditEntry) (h : Bytes) : AuditEntry :=
  {| community_id := community_id e; seq := seq e; hash := h; prev_hash := prev_hash e;
     action := action e; actor_pubkey := actor_pubkey e; object_id := object_id e;
     detail := detail e; a_created_at := a_created_at e |}.

(** The entry [log_inner] hashes, with an empty hash *)
Definition next_entry (now : Z) (db : list Row) (e : NewAuditEntry) : AuditEntry :=
  let head := chain_head db (n_community_id e) in
  {| community_id := n_community_id e; seq := (default 0 (r_seq <$> head) + 1)%Z; hash := [];
     prev_hash := r_hash <$> head; action := n_action e; actor_pubkey := n_actor_pubkey e;
     object_id := n_object_id e; detail := n_detail e;
     a_created_at := to_storage_precision now |}.

(** [log]: on an error the transaction is rolled back. *)
Definition log (now : Z) (db : list Row) (e : NewAuditEntry)
  : list Row * result AuditEntry AuditError :=
  let entry := next_entry now db e in
  match compute_hash entry with
  | Err err => (db, Err err)
  | Ok h =>
      let entry := with_hash entry h in
      match insert_entry db entry with
      | Err err => (db, Err err)
      | Ok db' => (db', Ok entry)
      end
  end.

(** The loop of [verify_chain] *)
Fixpoint verify_rows (expected_prev : option Bytes) (rows : list Row) : result unit AuditError :=
  match rows with
  | [] => Ok tt
  | r :: rows =>
      e <-? row_to_audit_entry r ;;
      if match expected_prev with
         | Some x => negb (bool_decide (prev_hash e = Some x)) | None => false end
      then Err (ChainViolation (seq e))
      else
        h <-? compute_hash e ;;
        if bool_decide (h = hash e) then verify_rows (Some (hash e)) rows
        else Err (HashMismatch (seq e))
  end.

Definition in_range (from_seq to_seq s : Z) : bool := (from_seq <=? s)%Z && (s <=? to_seq)%Z.

Definition verify_chain (db : list Row) (c : CommunityId) (from_seq to_seq : Z)
  : result bool AuditError :=
  let rows := select db c (in_range from_seq to_seq) in
  match rows with
  | [] => Ok false
  | _ => _u <-? verify_rows None rows ;; Ok true
  end.

Fixpoint collect_entries (rows : list Row) : result (list AuditEntry) AuditError :=
  match rows with
  | [] => Ok []
  | r :: rows => e <-? row_to_audit_entry r ;; es <-? collect_entries rows ;; Ok (e :: es)
  end.

Definition get_entries (db : list Row) (c : CommunityId) (from_seq limit : Z)
  : result (list AuditEntry) AuditError :=
  collect_entries (take (Z.to_nat limit) (select db c (λ s, from_seq <=? s)%Z)).

(** A history: appends with the clock value of each *)
Definition log_all (ops : list (Z * NewAuditEntry)) : list Row :=
  foldl (λ db op, (log op.1 db op.2).1) [] ops.

End hashing.

(** ** What the detail column keeps *)

(** The integers that serde_json keeps exactly: the [u64]s and the negative [i64]s *)
Definition plain_number (t : string) : bool :=
  match t with
  | String "-" t =>
      match parse_unsigned (2 ^ 63) t with
      | Some n => (0 <? n)%Z && bool_decide (t = decimal n) | None => false end
  | _ => match parse_u64 t with Some n => bool_decide (t = decimal n) | None => false end
  end.

Definition no_nul (s : string) : bool := negb (string_contains Ascii.zero s).

(** No fractions or exponents, no NUL characters, and no key twice *)
Fixpoint plain (v : Json) : bool :=
  match v with
  | JNull | JBool _ => true
  | JNumber t => plain_number t
  | JString s => no_nul s
  | JArray l => forallb plain l
  | JObject m =>
      bool_decide (NoDup (fst <$> m)) && forallb (λ kv, no_nul kv.1 && plain kv.2) m
  end.

(** The same JSON value, up to the order of the members of its objects *)
Inductive same_value : Json → Json → Prop :=
  | same_null : same_value JNull JNull
  | same_bool b : same_value (JBool b) (JBool b)
  | same_number t : same_value (JNumber t) (JNumber t)
  | same_string s : same_value (JString s) (JString s)
  | same_array l l' : Forall2 same_value l l' → same_value (JArray l) (JArray l')
  | same_object m m' k : m ≡ₚ k → Forall2 (λ x y, x.1 = y.1 ∧ same_value x.2 y.2) k m' →
      same_value (JObject m) (JObject m').

(** What is relied on: SHA-256 digests have 32 bytes; Postgres keeps a timestamp that
    is already at microsecond precision; and a plain JSON value that the JSONB column
    accepts comes back as the same value, with its keys in some order. *)
Class AuditLaws `{AuditLibs} := {
  sha256_length : ∀ p, length (sha256 p) = 32;
  store_timestamp_exact : ∀ t, to_storage_precision t = t → store_timestamp t = t;
  store_detail_plain : ∀ d d', plain d = true → store_detail d = Ok d' → same_value d d'
}.

(** The details that the relay logs (handlers/event.rs, api/media.rs) *)
Definition event_detail `{IdText} (event_kind : Z) (channel_id : option Uuid) : Json :=
  JObject [("channel_id", match channel_id with
                          | Some c => JString (uuid_to_string c) | None => JNull end);
           ("event_kind", JNumber (decimal event_kind))].

Definition media_detail (digest : string) (size : Z) (mime : string) : Json :=
  JObject [("mime", JString mime); ("sha256", JString digest); ("size", JNumber (decimal size))].

Lemma plain_decimal (n : Z) : (0 ≤ n ≤ u64_max)%Z → plain_number (decimal n) = true.
Proof.
  intros Hn. unfold plain_number. destruct (decimal_head n) as (a & t & Heq & Ha).
  assert (a ≠ "-"%char) by (intros ->; by destruct Ha).
  pose proof (parse_u64_decimal n Hn) as Hp. rewrite Heq in Hp |- *.
  repeat (case_match; simplify_eq; try done). all: by apply bool_decide_eq_true_2.
Qed.

(** What the relay logs is plain. *)
Lemma relay_details_plain `{IdText} (kind size : Z) (channel : option Uuid) (digest mime : string) :
  (0 ≤ kind ≤ u32_max)%Z → (0 ≤ size ≤ u64_max)%Z → no_nul digest = true → no_nul mime = true →
  (∀ c, no_nul (uuid_to_string c) = true) →
  plain (event_detail kind channel) = true ∧ plain (media_detail digest size mime) = true.
Proof.
  intros Hk Hs Hd Hm Hu. unfold event_detail, media_detail. cbn [plain forallb fst snd].
  rewrite Hd, Hm, !plain_decimal by (unfold u32_max, u64_max in *; lia).
  destruct channel; cbn [plain]; rewrite ?Hu; by vm_compute.
Qed.

Lemma action_roundtrip (a : AuditAction) : action_from_str (action_as_str a) = Some a.
Proof. by destruct a. Qed.

Lemma to_storage_precision_idemp (t : Z) :
  to_storage_precision (to_storage_precision t) = to_storage_precision t.
Proof. unfold to_storage_precision. by rewrite Z.div_mul. Qed.

(** ** Canonical text *)

Lemma compare_trans (x y z : string) :
  String.compare x y = Lt → String.compare y z = Lt → String.compare x z = Lt.
Proof. apply (transitivity (R := String_as_OT.lt)). Qed.

Lemma compare_refl (x : string) : String.compare x x = Eq.
Proof. induction x as [|a x IH]; [done|]. simpl. unfold Ascii.compare. by rewrite N.compare_refl. Qed.

Lemma compare_gt (x y : string) : String.compare x y = Lt → String.compare y x = Gt.
Proof. intros Hx. by rewrite String.compare_antisym, Hx. Qed.

(** Insertions of two keys commute. *)
Lemma btree_insert_lt {A} (k k' : string) (v v' : A) (l : list (string * A)) :
  String.compare k k' = Lt →
  btree_insert k v (btree_insert k' v' l) = btree_insert k' v' (btree_insert k v l).
Proof.
  intros Hlt. pose proof (compare_gt _ _ Hlt) as Hgt.
  induction l as [|[x w] l IH]; simpl; [by rewrite Hlt, Hgt|].
  destruct (String.compare k' x) eqn:Hk'; simpl.
  - apply String.compare_eq_iff in Hk' as ->. rewrite Hlt. simpl. by rewrite Hgt, compare_refl.
  - rewrite Hlt, (compare_trans _ _ _ Hlt Hk'). simpl. by rewrite Hgt, Hk'.
  - destruct (String.compare k x) eqn:Hk; simpl; rewrite ?Hgt, ?Hk'; [done|done|by rewrite IH].
Qed.

Lemma btree_insert_comm {A} (k k' : string) (v v' : A) (l : list (string * A)) :
  k ≠ k' → btree_insert k v (btree_insert k' v' l) = btree_insert k' v' (btree_insert k v l).
Proof.
  intros Hne. destruct (String.compare k k') eqn:Hk.
  - by apply String.compare_eq_iff in Hk.
  - by apply btree_insert_lt.
  - symmetry. apply btree_insert_lt. by rewrite String.compare_antisym, Hk.
Qed.

(** The order of distinct keys does not matter to a [BTreeMap]. *)
Lemma btree_permutation {A} (l l' : list (string * A)) :
  l ≡ₚ l' → NoDup (fst <$> l) → btree l = btree l'.
Proof.
  unfold btree. intros Hp. generalize (@nil (string * A)).
  induction Hp as [|x l l' _ IH|x y l|l l' k Hl IHl Hk IHk]; intros acc Hnd; simpl in *.
  - done.
  - apply IH. by inversion Hnd.
  - f_equal. apply NoDup_cons in Hnd as [Hnd _]. apply btree_insert_comm. set_solver.
  - rewrite IHl by done. apply IHk. by rewrite <- Hl.
Qed.

Section canonical.
Context `{AuditLibs}.

Lemma canonical_object (m : list (string * Json)) :
  canonical_json (JObject m) =
    (body <-? join_parts true (member <$> btree (prod_map id canonical_json <$> m)) ;;
     Ok ("{" +:+ body +:+ "}")).
Proof.
  cbn [canonical_json]. match goal with |- context [btree (?go m)] => set (f := go) end.
  assert (f m = prod_map id canonical_json <$> m) as ->; [|done].
  induction m as [|[k v] m IH]; [done|]. cbn. f_equal. exact IH.
Qed.

Lemma canonical_array (l : list Json) :
  canonical_json (JArray l) =
    (body <-? join_parts true (canonical_json <$> l) ;; Ok ("[" +:+ body +:+ "]")).
Proof.
  cbn [canonical_json]. match goal with |- context [join_parts true (?go l)] => set (f := go) end.
  assert (f l = canonical_json <$> l) as ->; [|done].
  induction l as [|v l IH]; [done|]. cbn. by f_equal.
Qed.

(** The canonical text only depends on the value. *)
Lemma same_canonical (d d' : Json) :
  same_value d d' → plain d = true → canonical_json d' = canonical_json d.
Proof.
  revert d d'. fix IH 3. intros d d' Hs. destruct Hs as [|b|t|s|l l' Hl|m m' k Hp Hm];
    try done; cbn [plain].
  - intros Hpl. rewrite !canonical_array.
    assert (canonical_json <$> l' = canonical_json <$> l) as ->; [|done].
    induction Hl as [|x y l l' Hxy _ IHl]; [done|]. simpl in *.
    apply andb_true_iff in Hpl as [Hx Hpl]. f_equal; [by apply IH|by apply IHl].
  - intros [Hnd%bool_decide_eq_true_1 Hpl]%andb_true_iff. rewrite !canonical_object.
    rewrite (btree_permutation (_ <$> m) (prod_map id canonical_json <$> k)).
    2: by rewrite Hp.
    2: { rewrite <- list_fmap_compose. exact Hnd. }
    assert (forallb (λ kv, no_nul kv.1 && plain kv.2) k = true) as Hk.
    { apply forallb_forall. intros x Hx. apply (proj1 (forallb_forall _ _) Hpl).
      by apply (Permutation_in x (Permutation_sym Hp)). }
    assert (prod_map id canonical_json <$> m' = prod_map id canonical_json <$> k) as ->; [|done].
    clear Hp Hnd Hpl. induction Hm as [|[kx x] [ky y] k m' [Heq Hxy] _ IHm]; [done|].
    simpl in *. apply andb_true_iff in Hk as [[_ Hx]%andb_true_iff Hk].
    f_equal; [|by apply IHm]. unfold prod_map. simpl. by rewrite Heq, (IH _ _ Hxy Hx).
Qed.

End canonical.

(** ** The chain invariant *)

Section chain.
Context `{AuditLaws}.

(** The row recomputes to its stored hash. *)
Definition sound_row (r : Row) : Prop :=
  ∃ e, row_to_audit_entry r = Ok e ∧ compute_hash e = Ok (r_hash r) ∧ hash e = r_hash r ∧
    prev_hash e = r_prev_hash r ∧ seq e = r_seq r.

Fixpoint chained (prev : option Bytes) (s : Z) (rows : list Row) : Prop :=
  match rows with
  | [] => True
  | r :: rows => r_seq r = s ∧ r_prev_hash r = prev ∧
      chained (Some (r_hash r)) (s + 1) rows
  end.

Definition of_community (c : Uuid) (r : Row) : bool := bool_decide (r_community_id r = c).

Definition db_ok (db : list Row) : Prop := ∀ c, chained None 1 (List.filter (of_community c) db).

Lemma chained_app (prev : option Bytes) (s : Z) (l : list Row) (r : Row) :
  chained prev s (l ++ [r]) ↔
  chained prev s l ∧ r_seq r = (s + Z.of_nat (length l))%Z ∧
  r_prev_hash r = (if last l is Some x then Some (r_hash x) else prev).
Proof.
  revert prev s. induction l as [|x l IH]; intros prev s; cbn [app chained length].
  - rewrite Z.add_0_r. simpl. tauto.
  - rewrite IH. replace (s + 1 + Z.of_nat (length l))%Z with (s + Z.of_nat (S (length l)))%Z by lia.
    destruct l as [|y l]; [simpl; tauto|]. change (last (x :: y :: l)) with (last (y :: l)).
    destruct (last (y :: l)) eqn:Hl; [tauto|]. by apply last_None in Hl.
Qed.

Lemma chained_bounds (prev : option Bytes) (s : Z) (l : list Row) (r : Row) :
  chained prev s l → r ∈ l → (s ≤ r_seq r < s + Z.of_nat (length l))%Z.
Proof.
  revert prev s. induction l as [|x l IH]; intros prev s; cbn [chained length]; [by intros _ ?%elem_of_nil|].
  intros (Hx & _ & Hl) [->|Hr]%elem_of_cons; [lia|]. specialize (IH _ _ Hl Hr). lia.
Qed.

Lemma chained_sorted (prev : option Bytes) (s : Z) (l : list Row) :
  chained prev s l → StronglySorted (λ a b, r_seq a ≤ r_seq b)%Z l ∧ NoDup (r_seq <$> l).
Proof.
  revert prev s. induction l as [|x l IH]; intros prev s Hc; [split; constructor|].
  pose proof Hc as (Hx & _ & Hl). destruct (IH _ _ Hl) as [Hs Hn].
  assert (∀ y, y ∈ l → (r_seq x < r_seq y)%Z) as Hlt
    by (intros y Hy; pose proof (chained_bounds _ _ _ _ Hl Hy); lia).
  split.
  - constructor; [done|]. apply Forall_forall. intros y Hy. specialize (Hlt y Hy). lia.
  - simpl. constructor; [|done]. rewrite list_elem_of_fmap. intros (y & Hy & Hin).
    specialize (Hlt y Hin). lia.
Qed.

Lemma sort_sorted (l : list Row) :
  StronglySorted (λ a b, r_seq a ≤ r_seq b)%Z l → NoDup (r_seq <$> l) → sort_by_key r_seq l = l.
Proof.
  intros Hs Hn. apply (StronglySorted_unique_strong (λ a b, r_seq a ≤ r_seq b)%Z).
  - intros x y Hx Hy ? ?. rewrite sort_by_key_perm in Hx.
    apply list_elem_of_lookup in Hx as [i Hi], Hy as [j Hj].
    assert (i = j) as <-; [|congruence]. apply (NoDup_lookup (r_seq <$> l) i j (r_seq x)); [done|..].
    + by rewrite list_lookup_fmap, Hi.
    + rewrite list_lookup_fmap, Hj. simpl. f_equal. lia.
  - apply sort_by_key_sorted.
  - done.
  - apply sort_by_key_perm.
Qed.

Lemma select_all (db : list Row) (c : Uuid) :
  db_ok db → select db c (λ _, true) = List.filter (of_community c) db.
Proof.
  intros Hdb. unfold select. rewrite (list_filter_ext _ (of_community c)) by (intros; apply andb_true_r).
  destruct (chained_sorted _ _ _ (Hdb c)). by apply sort_sorted.
Qed.

(** The row of an entry recomputes, if its detail comes back with the same text. *)
Lemma entry_row_sound (e : AuditEntry) (d : Json) (h : Bytes) :
  to_storage_precision (a_created_at e) = a_created_at e →
  canonical_json d = canonical_json (detail e) → compute_hash e = Ok h →
  sound_row (entry_to_row (with_hash e h) d).
Proof.
  intros Ht Hd Hh. unfold sound_row, row_to_audit_entry, entry_to_row. cbn [r_action with_hash action].
  rewrite action_roundtrip. eexists. split; [done|]. split_and!; try done.
  cbn [r_hash with_hash hash]. rewrite <- Hh. unfold compute_hash, preimage, preimage_head.
  cbn [detail community_id seq a_created_at action actor_pubkey object_id prev_hash with_hash
    r_detail r_community_id r_seq r_created_at r_actor_pubkey r_object_id r_prev_hash].
  by rewrite Hd, store_timestamp_exact.
Qed.

(** An append leaves the table alone or adds the row of the next entry. *)
Lemma log_cases (now : Z) (db : list Row) (e : NewAuditEntry) :
  (log now db e).1 = db ∨
  ∃ h d, compute_hash (next_entry now db e) = Ok h ∧ store_detail (n_detail e) = Ok d ∧
    (log now db e).1 = db ++ [entry_to_row (with_hash (next_entry now db e) h) d].
Proof.
  unfold log, insert_entry, insert_row. destruct (compute_hash _) as [h|]; [|by left].
  cbn [detail with_hash next_entry]. destruct (store_detail _) as [d|]; [|by left]. cbn [map_err].
  destruct (existsb _ db); [by left|]. right. by exists h, d.
Qed.

Lemma log_ok (now : Z) (db : list Row) (e : NewAuditEntry) : db_ok db → db_ok (log now db e).1.
Proof.
  intros Hdb. destruct (log_cases now db e) as [->|(h & d & _ & _ & ->)]; [done|].
  intros c. rewrite List.filter_app. cbn [List.filter]. unfold of_community at 2.
  set (r := entry_to_row _ _) in *. case_bool_decide as Hc; [|by rewrite app_nil_r].
  rewrite chained_app. pose proof (Hdb c) as Hch. split; [done|].
  assert (chain_head db c = last (List.filter (of_community c) db)) as Hhead
    by (unfold chain_head; by rewrite select_all).
  subst r. cbn [r_community_id entry_to_row with_hash community_id next_entry] in Hc.
  cbn [r_seq r_prev_hash entry_to_row with_hash seq prev_hash next_entry]. rewrite Hc, Hhead.
  set (l := List.filter (of_community c) db) in *. split.
  - destruct l as [|x l' _] using rev_ind; [done|]. rewrite last_snoc. cbn [fmap option_fmap option_map default].
    apply chained_app in Hch as (_ & Hx & _). rewrite length_app. simpl. rewrite Hx. lia.
  - by destruct (last l).
Qed.

Lemma log_sound (now : Z) (db : list Row) (e : NewAuditEntry) (c : Uuid) :
  (n_community_id e = c → plain (n_detail e) = true) →
  Forall sound_row (List.filter (of_community c) db) →
  Forall sound_row (List.filter (of_community c) (log now db e).1).
Proof.
  intros Hpl Hs. destruct (log_cases now db e) as [->|(h & d & Hh & Hd & ->)]; [done|].
  rewrite List.filter_app. cbn [List.filter]. unfold of_community at 2.
  case_bool_decide as Hc; [|by rewrite app_nil_r]. apply Forall_app. split; [done|].
  specialize (Hpl Hc). constructor; [|done].
  apply entry_row_sound; [apply to_storage_precision_idemp| |done].
  apply same_canonical; [|done]. by apply store_detail_plain.
Qed.

Lemma log_all_snoc (ops : list (Z * NewAuditEntry)) (op : Z * NewAuditEntry) :
  log_all (ops ++ [op]) = (log op.1 (log_all ops) op.2).1.
Proof. unfold log_all. by rewrite foldl_app. Qed.

Lemma log_all_ok (ops : list (Z * NewAuditEntry)) : db_ok (log_all ops).
Proof.
  induction ops as [|op ops IH] using rev_ind; [done|]. rewrite log_all_snoc. by apply log_ok.
Qed.

Lemma log_all_sound (ops : list (Z * NewAuditEntry)) (c : Uuid) :
  (∀ now e, (now, e) ∈ ops → n_community_id e = c → plain (n_detail e) = true) →
  Forall sound_row (List.filter (of_community c) (log_all ops)).
Proof.
  induction ops as [|[now e] ops IH] using rev_ind; intros Hpl; [constructor|].
  rewrite log_all_snoc. apply log_sound; [apply (Hpl now); set_solver|].
  apply IH. intros now' e' Hin. apply (Hpl now'). set_solver.
Qed.

(** A segment of a chain whose rows recompute verifies. *)
Lemma verify_chained (prev : option Bytes) (expected : option Bytes) (s : Z) (l : list Row) :
  chained prev s l → Forall sound_row l → expected = prev ∨ expected = None →
  verify_rows expected l = Ok tt.
Proof.
  revert prev expected s. induction l as [|r l IH]; intros prev expected s; cbn [chained verify_rows]; [done|].
  intros (_ & Hprev & Hl) [(e & -> & Hh & Heq & Hp & _) Hs]%Forall_cons Hexp.
  assert (match expected with Some x => negb (bool_decide (prev_hash e = Some x)) | None => false end
          = false) as ->.
  { destruct Hexp as [->| ->]; [|done]. rewrite Hp, Hprev. destruct prev; [|done].
    by rewrite bool_decide_eq_true_2. }
  rewrite Hh, bool_decide_eq_true_2 by done. eapply IH; [done..|]. left. by rewrite Heq.
Qed.

Lemma row_entry_fields (r : Row) (e : AuditEntry) :
  row_to_audit_entry r = Ok e → hash e = r_hash r ∧ prev_hash e = r_prev_hash r.
Proof.
  unfold row_to_audit_entry. destruct (action_from_str (r_action r)); [|done]. by intros [= <-].
Qed.

(** No link of a chain is reported broken, whatever becomes of the details. *)
Lemma verify_no_violation (prev : option Bytes) (expected : option Bytes) (s n : Z) (l : list Row) :
  chained prev s l → expected = prev ∨ expected = None →
  verify_rows expected l ≠ Err (ChainViolation n).
Proof.
  revert prev expected s. induction l as [|r l IH]; intros prev expected s; cbn [chained verify_rows]; [done|].
  intros (_ & Hprev & Hl) Hexp. destruct (row_to_audit_entry r) as [e|x] eqn:He.
  2: { unfold row_to_audit_entry in He. by destruct (action_from_str _); simplify_eq. }
  destruct (row_entry_fields r e He) as [Hh Hp].
  assert (match expected with Some x => negb (bool_decide (prev_hash e = Some x)) | None => false end
          = false) as ->.
  { destruct Hexp as [->| ->]; [|done]. rewrite Hp, Hprev. destruct prev; [|done].
    by rewrite bool_decide_eq_true_2. }
  unfold compute_hash, preimage. destruct (canonical_json _); [|done]. cbn [map_err].
  case_bool_decide; [|done]. eapply IH; [done|]. left. by rewrite Hh.
Qed.

Lemma chained_filter (from_seq to_seq s : Z) (prev : option Bytes) (l : list Row) :
  chained prev s l →
  ∃ prev' s', chained prev' s' (List.filter (λ r, in_range from_seq to_seq (r_seq r)) l) ∧
    ((from_seq ≤ s)%Z → prev' = prev ∧ s' = s).
Proof.
  revert prev s. induction l as [|r l IH]; intros prev s Hc; cbn [List.filter]; [by exists prev, s|].
  pose proof Hc as (Hr & Hp & Hl). destruct (IH _ _ Hl) as (prev' & s' & Hf & Heq).
  destruct (in_range from_seq to_seq (r_seq r)) eqn:Hin.
  - unfold in_range in Hin. apply andb_true_iff in Hin as [Hge%Z.leb_le Hle%Z.leb_le].
    destruct Heq as [-> ->]; [lia|]. exists prev, s. split; [|done]. by split_and!.
  - destruct (decide (from_seq ≤ s)%Z) as [Hge|Hlt]; [|by exists prev', s'].
    exists prev, s. split; [|done].
    assert (List.filter (λ r, in_range from_seq to_seq (r_seq r)) l = []) as ->; [|done].
    destruct (List.filter _ l) as [|x rest] eqn:Hfl; [done|]. exfalso.
    assert (x ∈ List.filter (λ r, in_range from_seq to_seq (r_seq r)) l) as Hx by (rewrite Hfl; by left).
    apply list_elem_of_In, filter_In in Hx as [Hx%list_elem_of_In Hxr].
    pose proof (chained_bounds _ _ _ _ Hl Hx). unfold in_range in Hin, Hxr.
    apply andb_true_iff in Hxr as [_ Hxr%Z.leb_le]. apply andb_false_iff in Hin as [Hin|Hin]; lia.
Qed.

End chain.

(** ** Properties *)

Section properties.
Context `{AuditLaws}.

Lemma select_range (db : list Row) (c : Uuid) (from_seq to_seq : Z) :
  db_ok db →
  select db c (in_range from_seq to_seq) =
    List.filter (λ r, in_range from_seq to_seq (r_seq r)) (List.filter (of_community c) db).
Proof.
  intros Hdb. unfold select. rewrite (list_filter_andb (of_community c)).
  destruct (chained_filter from_seq to_seq 1 None _ (Hdb c)) as (prev' & s' & Hf & _).
  destruct (chained_sorted _ _ _ Hf). by apply sort_sorted.
Qed.

Lemma range_nonempty (db : list Row) (c : Uuid) (from_seq to_seq : Z) :
  existsb (λ r, of_community c r && in_range from_seq to_seq (r_seq r)) db =
  match List.filter (λ r, in_range from_seq to_seq (r_seq r)) (List.filter (of_community c) db) with
  | [] => false | _ => true end.
Proof.
  apply eq_true_iff_eq. rewrite existsb_exists. set (rows := List.filter _ _).
  assert (∀ r, In r rows ↔ In r db ∧ of_community c r && in_range from_seq to_seq (r_seq r) = true) as Hin
    by (intros r; unfold rows; rewrite !filter_In, andb_true_iff; tauto).
  destruct rows as [|r rest]; [split; [intros (r & Hr & Hp); by destruct (proj2 (Hin r) (conj Hr Hp))|done]|].
  split; [done|]. intros _. exists r. apply Hin. by left.
Qed.

Lemma chained_seqs (prev : option Bytes) (s : Z) (l : list Row) :
  chained prev s l → r_seq <$> l = seqZ s (Z.of_nat (length l)).
Proof.
  revert prev s. induction l as [|r l IH]; intros prev s; cbn [chained length]; [done|].
  intros (Hr & _ & Hl). rewrite fmap_cons, Hr, (IH _ _ Hl).
  rewrite (seqZ_cons s) by lia. by replace (Z.pred (Z.of_nat (S (length l)))) with (Z.of_nat (length l)) by lia.
Qed.

(** C36 What is logged verifies. After any history of appends to any communities, in
    any interleaving and including failed ones, every community's rows are numbered
    1, 2, 3, .. without gaps and no check ever reports a broken link. If moreover the details
    logged to the community were plain (as those that the relay logs are), [verify_chain] of
    any range reports success as soon as the range holds a row. With a detail that is not
    plain it may not: see [float_detail_mismatch]. *)
Theorem log_then_verify (ops : list (Z * NewAuditEntry)) (c : Uuid) (from_seq to_seq : Z) :
  let db := log_all ops in
  r_seq <$> select db c (λ _, true) =
    seqZ 1 (Z.of_nat (length (List.filter (of_community c) db))) ∧
  (∀ s, verify_chain db c from_seq to_seq ≠ Err (ChainViolation s)) ∧
  ((∀ now e, (now, e) ∈ ops → n_community_id e = c → plain (n_detail e) = true) →
   verify_chain db c from_seq to_seq =
     Ok (existsb (λ r, of_community c r && in_range from_seq to_seq (r_seq r)) db)).
Proof.
  cbv zeta. pose proof (log_all_ok ops) as Hdb. pose proof (log_all_sound ops c) as Hsound.
  set (db := log_all ops) in *. unfold verify_chain. rewrite select_range by done.
  destruct (chained_filter from_seq to_seq 1 None _ (Hdb c)) as (prev' & s' & Hf & _).
  set (rows := List.filter _ (List.filter _ db)) in *. split_and!.
  - rewrite select_all by done. by eapply chained_seqs.
  - intros s Hv. pose proof (verify_no_violation prev' None s' s rows Hf (or_intror eq_refl)).
    destruct rows; [done|]. by destruct (verify_rows _ _); simplify_eq.
  - intros Hpl. specialize (Hsound Hpl). rewrite (range_nonempty db c from_seq to_seq). fold rows.
    assert (Forall sound_row rows) as Hs.
    { apply Forall_forall. intros r [Hr _]%list_elem_of_In%filter_In.
      by apply (proj1 (Forall_forall _ _) Hsound), list_elem_of_In. }
    pose proof (verify_chained prev' None s' rows Hf Hs (or_intror eq_refl)) as Hv.
    destruct rows; [done|]. by rewrite Hv.
Qed.

Lemma bytes_of_string_app (s t : string) :
  bytes_of_string (s +:+ t) = bytes_of_string s ++ bytes_of_string t.
Proof. unfold bytes_of_string. induction s as [|a s IH]; simpl; [done|]. by f_equal. Qed.

Lemma preimage_suffix (e : AuditEntry) (p : Bytes) :
  preimage e = Ok p → ∃ b, p = b ++ default GENESIS_HASH (prev_hash e).
Proof.
  unfold preimage. destruct (map_err _ _) as [json|]; [|done]. intros [= <-]. by exists (preimage_head e json).
Qed.

(** The hash the row after [l] must name *)
Definition after (prev : option Bytes) (l : list Row) : option Bytes :=
  match last l with Some x => Some (r_hash x) | None => prev end.

Lemma verify_app (prev : option Bytes) (l k : list Row) :
  verify_rows prev (l ++ k) = Ok tt →
  verify_rows prev l = Ok tt ∧ verify_rows (after prev l) k = Ok tt.
Proof.
  revert prev. induction l as [|y l IH]; intros prev; cbn [app verify_rows]; [done|].
  destruct (row_to_audit_entry y) as [e|] eqn:He; [|done].
  destruct (match prev with Some _ => _ | None => _ end); [done|].
  destruct (compute_hash e) as [h|]; [|done]. case_bool_decide; [|done].
  intros [Hl Hk]%IH. split; [done|].
  apply row_entry_fields in He as [Hh _]. rewrite Hh in Hk. unfold after in *.
  destruct l as [|z l]; [done|]. change (last (y :: z :: l)) with (last (z :: l)).
  destruct (last (z :: l)) eqn:Hz; [done|]. by apply last_None in Hz.
Qed.

(** What a verified segment says about its last row *)
Lemma verify_snoc (prev : option Bytes) (l : list Row) (r : Row) :
  verify_rows prev (l ++ [r]) = Ok tt →
  verify_rows prev l = Ok tt ∧ ∃ e p, row_to_audit_entry r = Ok e ∧ preimage e = Ok p ∧
    r_hash r = sha256 p ∧ (∀ x, last l = Some x → prev_hash e = Some (r_hash x)).
Proof.
  intros [Hl Hr]%verify_app. split; [done|]. cbn [verify_rows] in Hr.
  destruct (row_to_audit_entry r) as [e|] eqn:He; [|done].
  pose proof (row_entry_fields r e He) as [Hh Hp].
  destruct (match after prev l with Some _ => _ | None => _ end) eqn:Hm; [done|].
  unfold compute_hash in Hr. destruct (preimage e) as [p|] eqn:Hpre; [|done].
  case_bool_decide as Hd; [|done]. exists e, p. split_and!; [done..|by rewrite <- Hh|].
  intros x Hx. unfold after in Hm. rewrite Hx in Hm. by bool_prop.
Qed.

(** A verified chain pins its whole history. If two segments of the same length
    both pass [verify_chain]'s checks and end in the same hash, then row by row
    the hashed bytes are the same in both, or a SHA-256 collision is at hand: nothing in
    the past of a chain can be rewritten without changing its head. *)
Theorem chain_binds_history (rows rows' : list Row)
    (Hv : verify_rows None rows = Ok tt) (Hv' : verify_rows None rows' = Ok tt)
    (Hlen : length rows = length rows') (Hlast : r_hash <$> last rows = r_hash <$> last rows') :
  (∀ i r r', rows !! i = Some r → rows' !! i = Some r' →
     ∃ e e' p, row_to_audit_entry r = Ok e ∧ row_to_audit_entry r' = Ok e' ∧
       preimage e = Ok p ∧ preimage e' = Ok p ∧ r_hash r = sha256 p) ∨
  (∃ x y, x ≠ y ∧ sha256 x = sha256 y).
Proof.
  revert rows' Hv' Hlen Hlast. induction rows as [|r l IH] using rev_ind; intros rows' Hv' Hlen Hlast.
  { left. intros i r r' Hi. by rewrite lookup_nil in Hi. }
  destruct rows' as [|r' l' _] using rev_ind; [rewrite length_app in Hlen; simpl in Hlen; lia|].
  rewrite !last_snoc in Hlast. simpl in Hlast. injection Hlast as Hlast.
  rewrite !length_app in Hlen. simpl in Hlen.
  apply verify_snoc in Hv as (Hv & e & p & He & Hp & Hh & Hprev).
  apply verify_snoc in Hv' as (Hv' & e' & p' & He' & Hp' & Hh' & Hprev').
  destruct (decide (p = p')) as [<-|Hne]; [|right; exists p, p'; split; [done|congruence]].
  assert (r_hash <$> last l = r_hash <$> last l') as Hll.
  { destruct (last l) as [x|] eqn:Hx; [|apply last_None in Hx as ->;
      destruct l'; [done|simpl in Hlen; lia]].
    destruct (last l') as [x'|] eqn:Hx'; [|apply last_None in Hx' as ->;
      destruct l; [done|simpl in Hlen; lia]].
    specialize (Hprev x eq_refl). specialize (Hprev' x' eq_refl). simpl. f_equal.
    apply preimage_suffix in Hp as [b Hb], Hp' as [b' Hb']. rewrite Hb in Hb'.
    rewrite Hprev, Hprev' in Hb'. simpl in Hb'.
    assert (∀ k y, verify_rows None k = Ok tt → last k = Some y → length (r_hash y) = 32) as H32.
    { intros k y Hk Hy. apply last_Some in Hy as [k' ->].
      apply verify_snoc in Hk as (_ & ? & q & _ & _ & -> & _). apply sha256_length. }
    apply app_inj_2 in Hb' as [_ Hxx]; [done|]. by rewrite (H32 l x), (H32 l' x'). }
  destruct (IH Hv l' Hv' ltac:(lia) Hll) as [Hrows|Hcol]; [left|by right].
  intros i x x' Hi Hi'. destruct (decide (i < length l)) as [Hlt|Hge].
  - rewrite lookup_app_l in Hi, Hi' by lia. by apply (Hrows i x x').
  - rewrite lookup_app_r in Hi, Hi' by lia.
    replace (i - length l') with (i - length l) in Hi' by lia.
    destruct (i - length l) as [|k] eqn:Hk; [|by destruct k]. simpl in Hi, Hi'. simplify_eq.
    exists e, e', p. by split_and!.
Qed.

End properties.

(** The digest does not separate an entry's object id from its detail: the
    object id is hashed without its length, so the two entries that move a digit from
    the end of the object id to the front of a number in [detail] have the same hash,
    and [verify_chain] accepts a row altered in this way. *)
Theorem object_id_detail_ambiguous `{AuditLibs} (e : AuditEntry) (id : string) (digit : Ascii.ascii)
    (n : string) :
  let make o d :=
    {| community_id := community_id e; seq := seq e; hash := hash e; prev_hash := prev_hash e;
       action := action e; actor_pubkey := actor_pubkey e; object_id := Some o; detail := JNumber d;
       a_created_at := a_created_at e |} in
  compute_hash (make (id +:+ String digit "") n) = compute_hash (make id (String digit n)).
Proof.
  cbv zeta. unfold compute_hash, preimage, preimage_head.
  cbn [community_id seq prev_hash action actor_pubkey object_id detail a_created_at canonical_json map_err].
  do 7 f_equal. rewrite bytes_of_string_app.
  change (1%Z :: ?x ++ ?y) with (1%Z :: x ++ y). cbn [app]. f_equal. by rewrite <- app_assoc.
Qed.

(** ** The properties on a toy instance *)

Module Toy.
(** JSONB puts shorter keys first and writes numbers out without an exponent. *)
Definition numeric (t : string) : string :=
  if decide (t = "1e16") then "10000000000000000" else t.

Fixpoint jsonb (v : Json) : Json :=
  match v with
  | JNumber t => JNumber (numeric t)
  | JArray l => JArray (map jsonb l)
  | JObject m =>
      JObject (sort_by_key (λ kv, Z.of_nat (String.length kv.1))
                 (map (λ kv, (kv.1, jsonb kv.2)) m))
  | _ => v
  end.

#[export] Instance libs : AuditLibs := {|
  sha256 := λ p, foldl (λ acc b, (acc * 257 + b) mod 251)%Z 7%Z p :: replicate 31 0%Z;
  to_rfc3339 := λ t, "t";
  json_escape := λ s, Ok s;
  store_timestamp := λ t, t;
  store_detail := λ d, Ok (jsonb d)
|}.

Lemma plain_numeric (t : string) : plain_number t = true → numeric t = t.
Proof. unfold numeric. case_decide as Ht; [|done]. by rewrite Ht. Qed.

Lemma jsonb_same : ∀ d, plain d = true → same_value d (jsonb d).
Proof.
  fix IH 1. intros [| | | |l|m]; cbn [plain jsonb]; intros Hd; try constructor.
  - rewrite plain_numeric by done. constructor.
  - induction l as [|v l IHl]; [constructor|]. apply andb_true_iff in Hd as [Hv Hl].
    constructor; [by apply IH|by apply IHl].
  - apply andb_true_iff in Hd as [_ Hd].
    assert (Forall (λ kv, same_value kv.2 (jsonb kv.2)) m) as Hm.
    { induction m as [|[k v] m IHm]; [constructor|].
      apply andb_true_iff in Hd as [[_ Hv]%andb_true_iff Hm].
      constructor; [by apply IH|by apply IHm]. }
    destruct (Permutation_map_inv _ _ (sort_by_key_perm (λ kv, Z.of_nat (String.length kv.1))
      (map (λ kv, (kv.1, jsonb kv.2)) m))) as (k & -> & Hk).
    apply (same_object m _ k Hk). rewrite Hk in Hm.
    clear Hd Hk. induction Hm as [|x k Hx _ IHk]; [constructor|]. by constructor.
Qed.

#[export] Instance laws : AuditLaws.
Proof.
  split; [done..|]. intros d d' Hd [= <-]. by apply jsonb_same.
Qed.

Definition new (c : Uuid) (a : AuditAction) : NewAuditEntry :=
  {| n_community_id := c; n_action := a; n_actor_pubkey := Some [7%Z]; n_object_id := Some "obj";
     n_detail := media_detail "ab" 1 "image/png" |}.

Definition ops : list (Z * NewAuditEntry) :=
  [(1700000000123456789%Z, new 1%N EventCreated); (1700000000123456999%Z, new 2%N MemberAdded);
   (1700000001000000001%Z, new 1%N EventDeleted)].
End Toy.

#[local] Existing Instance Toy.libs.
#[local] Existing Instance Toy.laws.

(** Object keys are sorted before hashing, and JSONB reorders them. *)
Example canonical_json_sorted :
  let d := n_detail (Toy.new 1%N EventCreated) in
  canonical_json d = Ok "{mime:image/png,sha256:ab,size:1}" ∧
  canonical_json (Toy.jsonb d) = canonical_json d ∧ Toy.jsonb d ≠ d.
Proof. split_and!; [reflexivity..|done]. Qed.

Lemma ops_plain (now : Z) (e : NewAuditEntry) :
  (now, e) ∈ Toy.ops → n_community_id e = 1%N → plain (n_detail e) = true.
Proof. unfold Toy.ops. by intros [[= _ ->]|[[= _ ->]|[[= _ ->]|[]%elem_of_nil]%elem_of_cons]%elem_of_cons]%elem_of_cons. Qed.

Lemma log_then_verify_witness :
  verify_chain (log_all Toy.ops) 1%N 1 2 = Ok true ∧
  r_seq <$> select (log_all Toy.ops) 1%N (λ _, true) = [1%Z; 2%Z].
Proof.
  destruct (log_then_verify Toy.ops 1%N 1 2) as (Hs & _ & Hv). rewrite Hv, Hs by exact ops_plain.
  split; vm_compute; reflexivity.
Defined.

(** A detail with a float that JSONB prints in another way is logged, and the chain then
    never verifies again, though nobody touched it. *)
Example float_detail_mismatch :
  let e := {| n_community_id := 1%N; n_action := MediaUploaded; n_actor_pubkey := None;
              n_object_id := None; n_detail := JObject [("size", JNumber "1e16")] |} in
  verify_chain (log_all [(0%Z, e)]) 1%N 1 1 = Err (HashMismatch 1).
Proof. vm_compute. reflexivity. Qed.

Lemma chain_binds_history_witness :
  let rows := select (log_all Toy.ops) 1%N (λ _, true) in
  (∀ i r r', rows !! i = Some r → rows !! i = Some r' →
     ∃ e e' p, row_to_audit_entry r = Ok e ∧ row_to_audit_entry r' = Ok e' ∧
       preimage e = Ok p ∧ preimage e' = Ok p ∧ r_hash r = sha256 p) ∨
  (∃ x y, x ≠ y ∧ sha256 x = sha256 y).
Proof.
  cbv zeta.
  apply (chain_binds_history (select (log_all Toy.ops) 1%N (λ _, true))
           (select (log_all Toy.ops) 1%N (λ _, true))); first [vm_compute; reflexivity|reflexivity].
Defined.
