(* ===== verification/Conformance.v ===== *)
(** * Trace conformance (buzz-conformance/src/lib.rs, transitions.rs, checker.rs)

    The replay checker that judges the relay's traces against the multi-tenant
    specification. Labels are the values the newtypes wrap. The human-readable [detail]
    of an error, which only quotes the compared values, is reduced to what it is about. *)

From S2P Require Import Prelude Filter.

Open Scope string_scope.
Open Scope nat_scope.
Open Scope list_scope.

Definition SCHEMA_VERSION : N := 1.

Inductive Verdict := Allow | Deny.
Inductive SanitizedReason := Restricted | Invalid | ServerError.

Record AbstractState := {
  resolved_community : Uuid;
  bound_host : string;
  actor : string
}.

Inductive TraceAction :=
  | WriteInsert (msg_id : string) (channel : Uuid) (claimed_community : option Uuid)
  | WriteInsertGlobal (msg_id : string) (claimed_community : option Uuid)
  | WriteDuplicate (msg_id : string) (channel : Uuid) (claimed_community : option Uuid)
  | SanitizedError (reason : SanitizedReason)
  | AuthCheck (channel : Uuid) (claimed_community : option Uuid) (verdict : Verdict)
  | ReadMessageRows (channel : option Uuid) (row_communities : list Uuid)
  | ReadByIdRows (channel : option Uuid) (row_communities : list Uuid)
  | ReadHostFeedRows (row_communities : list Uuid)
  | ImplBug (bug_kind : string).

Definition action_kind (a : TraceAction) : string :=
  match a with
  | WriteInsert _ _ _ => "write_insert"
  | WriteInsertGlobal _ _ => "write_insert_global"
  | WriteDuplicate _ _ _ => "write_duplicate"
  | SanitizedError _ => "sanitized_error"
  | AuthCheck _ _ _ => "auth_check"
  | ReadMessageRows _ _ => "read_message_rows"
  | ReadByIdRows _ _ => "read_by_id_rows"
  | ReadHostFeedRows _ => "read_host_feed_rows"
  | ImplBug _ => "impl_bug"
  end.

Definition action_channel (a : TraceAction) : option Uuid :=
  match a with
  | WriteInsert _ c _ | WriteDuplicate _ c _ | AuthCheck c _ _ => Some c
  | ReadMessageRows c _ | ReadByIdRows c _ => c
  | WriteInsertGlobal _ _ | ReadHostFeedRows _ | SanitizedError _ | ImplBug _ => None
  end.

Record TraceStep := {
  schema_version : N;
  step_action : TraceAction;
  state_after : AbstractState
}.

Definition TraceStep_new (a : TraceAction) (s : AbstractState) : TraceStep :=
  {| schema_version := SCHEMA_VERSION; step_action := a; state_after := s |}.

Inductive TransitionError :=
  | IllegalTransition (step_index : nat) (detail : string)
  | StateMismatch (step_index : nat) (detail : string)
  | NonInterference (step_index : nat) (detail : string)
  | CoverageBreach (detail : string).

Record ModelState := {
  m_resolved_community : Uuid;
  m_bound_host : string;
  m_actor : string
}.

Definition bootstrap (first : AbstractState) : ModelState :=
  {| m_resolved_community := resolved_community first; m_bound_host := bound_host first;
     m_actor := actor first |}.

Definition check_row_labels (i : nat) (m : ModelState) (rows : list Uuid)
  : result unit TransitionError :=
  match List.find (λ c, negb (bool_decide (c = m_resolved_community m))) rows with
  | Some _ => Err (NonInterference i "foreign row label")
  | None => Ok tt
  end.

Definition check_step (i : nat) (m : ModelState) (s : TraceStep) : result unit TransitionError :=
  if decide (resolved_community (state_after s) ≠ m_resolved_community m)
  then Err (StateMismatch i "resolved_community")
  else if decide (bound_host (state_after s) ≠ m_bound_host m)
  then Err (StateMismatch i "bound_host")
  else if decide (actor (state_after s) ≠ m_actor m)
  then Err (StateMismatch i "actor")
  else
    match step_action s with
    | WriteInsert _ _ _ | WriteInsertGlobal _ _ | WriteDuplicate _ _ _ => Ok tt
    | SanitizedError (Restricted | Invalid | ServerError) => Ok tt
    | AuthCheck _ claimed verdict =>
        match verdict, claimed with
        | Allow, Some c =>
            if decide (c ≠ m_resolved_community m)
            then Err (IllegalTransition i "AuthCheck verdict=Allow with a foreign claim")
            else Ok tt
        | _, _ => Ok tt
        end
    | ReadMessageRows _ rows | ReadByIdRows _ rows | ReadHostFeedRows rows =>
        check_row_labels i m rows
    | ImplBug k => Err (CoverageBreach ("ImplBug: " +:+ k))
    end.

Record Scenario := {
  trace : list TraceStep;
  required_critical_actions : gset string
}.

Definition unstructured (t : list TraceStep) : Scenario :=
  {| trace := t; required_critical_actions := ∅ |}.

Definition require (sc : Scenario) (k : string) : Scenario :=
  {| trace := trace sc; required_critical_actions := {[k]} ∪ required_critical_actions sc |}.

(** The loop over the steps, from step [i] on *)
Fixpoint check_steps (i : nat) (m : ModelState) (steps : list TraceStep)
  : result unit TransitionError :=
  match steps with
  | [] => Ok tt
  | s :: steps =>
      if decide (schema_version s ≠ SCHEMA_VERSION)
      then Err (IllegalTransition i "schema_version")
      else _u <-? check_step i m s ;; check_steps (S i) m steps
  end.

Definition seen (steps : list TraceStep) : gset string :=
  list_to_set ((λ s, action_kind (step_action s)) <$> steps).

Definition check_trace (sc : Scenario) : result unit TransitionError :=
  match trace sc with
  | [] => Err (CoverageBreach "trace is empty")
  | first :: _ =>
      if decide (schema_version first ≠ SCHEMA_VERSION)
      then Err (IllegalTransition 0 "schema_version")
      else
        let m := bootstrap (state_after first) in
        _u <-? check_steps 0 m (trace sc) ;;
        let missing := required_critical_actions sc ∖ seen (trace sc) in
        if decide (missing ≠ ∅)
        then Err (CoverageBreach "scenario required actions never emitted")
        else Ok tt
  end.

(** ** The specification the checker stands for *)

(** The community labels an observation carries *)
Definition labels (a : TraceAction) : list Uuid :=
  match a with
  | ReadMessageRows _ rows | ReadByIdRows _ rows | ReadHostFeedRows rows => rows
  | _ => []
  end.

(** One step in community [c]: nothing foreign is observed, an allowed check was not
    claimed for another community, and the seam emitted a real action. *)
Definition step_conforms (c : Uuid) (a : TraceAction) : Prop :=
  (∀ l, l ∈ labels a → l = c) ∧
  (∀ ch x, a = AuthCheck ch (Some x) Allow → x = c) ∧
  (∀ k, a ≠ ImplBug k).

(** A conforming trace: it is not empty, speaks the schema version, keeps one tenant
    context from its first step on, and every step conforms in that community. *)
Definition trace_conforms (steps : list TraceStep) : Prop :=
  ∃ first, head steps = Some first ∧
    ∀ s, s ∈ steps → schema_version s = SCHEMA_VERSION ∧ state_after s = state_after first ∧
      step_conforms (resolved_community (state_after first)) (step_action s).

Lemma check_row_labels_ok (i : nat) (m : ModelState) (rows : list Uuid) :
  check_row_labels i m rows = Ok tt ↔ ∀ l, l ∈ rows → l = m_resolved_community m.
Proof.
  unfold check_row_labels. destruct (List.find _ rows) as [c|] eqn:Hf.
  - apply find_some in Hf as [Hc%list_elem_of_In Hne]. bool_prop. split; [done|]. intros Hall. by destruct (Hne (Hall c Hc)).
  - split; [|done]. intros _ l Hl%list_elem_of_In. apply (find_none _ _ Hf) in Hl. by bool_prop.
Qed.

Lemma check_step_ok (i : nat) (m : ModelState) (s : TraceStep) :
  check_step i m s = Ok tt ↔
  bootstrap (state_after s) = m ∧ step_conforms (m_resolved_community m) (step_action s).
Proof.
  unfold check_step, bootstrap, step_conforms. destruct m as [c h a]. simpl.
  destruct (decide (resolved_community (state_after s) ≠ c)) as [H1|H1]; [split; [done|intros [[=] _]; tauto]|].
  destruct (decide (bound_host (state_after s) ≠ h)) as [H2|H2]; [split; [done|intros [[=] _]; tauto]|].
  destruct (decide (actor (state_after s) ≠ a)) as [H3|H3]; [split; [done|intros [[=] _]; tauto]|].
  apply dec_stable in H1 as ->, H2 as ->, H3 as ->.
  assert (∀ P : Prop, P ↔ ({| m_resolved_community := c; m_bound_host := h; m_actor := a |} =
    {| m_resolved_community := c; m_bound_host := h; m_actor := a |} ∧ P)) as Heq by tauto.
  rewrite <- Heq. destruct (step_action s) as [?? cl|? cl|?? cl|[]|ch cl v|? rows|? rows|rows|k]; simpl;
    rewrite ?check_row_labels_ok; simpl;
    try (split; [intros _; split_and!; [by intros ? ?%elem_of_nil|done..]|done]);
    try (split; [intros Hr; by split_and!|by intros (? & _)]).
  - destruct v, cl as [x|]; try (split; [intros _; split_and!; [by intros ? ?%elem_of_nil|naive_solver..]|done]).
    case_decide as Hx; [|subst x; split; [intros _; split_and!; [by intros ? ?%elem_of_nil|naive_solver..]|done]].
    split; [done|]. intros (_ & Ha & _). by destruct (Hx (Ha ch x eq_refl)).
  - split; [done|]. intros (_ & _ & Hk). by destruct (Hk k).
Qed.

Lemma check_steps_ok (i : nat) (m : ModelState) (steps : list TraceStep) :
  check_steps i m steps = Ok tt ↔
  ∀ s, s ∈ steps → schema_version s = SCHEMA_VERSION ∧ bootstrap (state_after s) = m ∧
    step_conforms (m_resolved_community m) (step_action s).
Proof.
  revert i. induction steps as [|s steps IH]; intros i; cbn [check_steps].
  { split; [by intros _ ? ?%elem_of_nil|done]. }
  setoid_rewrite elem_of_cons. case_decide as Hv.
  { split; [done|]. intros Hall. by destruct Hv; apply Hall; left. }
  pose proof (check_step_ok i m s) as Hs.
  destruct (check_step i m s) as [[]|e].
  - rewrite IH. destruct Hs as [Hs _]. specialize (Hs eq_refl).
    split; [intros Hall x [->|Hx]; [by split|by apply Hall]|intros Hall x Hx; apply Hall; by right].
  - split; [done|]. intros Hall. destruct Hs as [_ Hs].
    assert (Err e = Ok tt) as [=]; apply Hs. destruct (Hall s (or_introl eq_refl)) as (_ & ? & ?). done.
Qed.

Lemma bootstrap_inj (s t : AbstractState) : bootstrap s = bootstrap t → s = t.
Proof. destruct s, t. unfold bootstrap. simpl. by intros [= -> -> ->]. Qed.

(** C33 The checker decides its specification. It accepts a scenario exactly when the
    trace is non-empty, every step speaks the checker's schema version and keeps the
    tenant context of the first step, no observed row label and no allowed claim is
    foreign to the resolved community, no seam exited without emitting, and every required
    action occurs: nothing foreign slips through and no conforming trace is rejected. *)
Theorem check_trace_exact (sc : Scenario) :
  check_trace sc = Ok tt ↔
  trace_conforms (trace sc) ∧
  ∀ k, k ∈ required_critical_actions sc → ∃ s, s ∈ trace sc ∧ action_kind (step_action s) = k.
Proof.
  assert ((∀ k, k ∈ required_critical_actions sc → ∃ s, s ∈ trace sc ∧ action_kind (step_action s) = k)
    ↔ required_critical_actions sc ∖ seen (trace sc) = ∅) as ->.
  { assert (∀ k, k ∈ seen (trace sc) ↔ ∃ s, s ∈ trace sc ∧ action_kind (step_action s) = k) as Hseen.
    { intros k. unfold seen. rewrite elem_of_list_to_set, list_elem_of_fmap. naive_solver. }
    setoid_rewrite <- Hseen. split; [intros Hs; by apply subseteq_empty_difference_L|by intros Hs%empty_difference_subseteq_L]. }
  unfold check_trace, trace_conforms. destruct (trace sc) as [|first rest] eqn:Ht.
  { split; [done|]. by intros [(? & ? & _) _]. }
  case_decide as Hv.
  { split; [done|]. intros [(f & [= <-] & Hall) _]. by destruct Hv; apply Hall; left. }
  rewrite <- Ht in *. cbv zeta.
  pose proof (check_steps_ok 0 (bootstrap (state_after first)) (trace sc)) as Hs.
  assert ((∃ f, head (trace sc) = Some f ∧ ∀ s, s ∈ trace sc →
      schema_version s = SCHEMA_VERSION ∧ state_after s = state_after f ∧
      step_conforms (resolved_community (state_after f)) (step_action s)) ↔
    check_steps 0 (bootstrap (state_after first)) (trace sc) = Ok tt) as ->.
  { rewrite Hs, Ht. split.
    - intros (f & [= <-] & Hall) s Hin. destruct (Hall s Hin) as (? & -> & ?). done.
    - intros Hall. exists first. split; [done|]. intros s Hin.
      destruct (Hall s Hin) as (? & ->%bootstrap_inj & ?). done. }
  destruct (check_steps 0 _ (trace sc)) as [[]|e]; [|split; [done|by intros []]].
  case_decide as Hm; [split; [done|by intros []]|]. done.
Qed.

(** ** Which error is reported *)

Definition error_index (e : TransitionError) : option nat :=
  match e with
  | IllegalTransition i _ | StateMismatch i _ | NonInterference i _ => Some i
  | CoverageBreach _ => None
  end.

(** A step the checker accepts under model [m] *)
Definition accepted (m : ModelState) (s : TraceStep) : Prop :=
  schema_version s = SCHEMA_VERSION ∧ bootstrap (state_after s) = m ∧
  step_conforms (m_resolved_community m) (step_action s).

Lemma check_step_index (i : nat) (m : ModelState) (s : TraceStep) (e : TransitionError) :
  check_step i m s = Err e → error_index e = Some i ∨ ∃ b, step_action s = ImplBug b.
Proof.
  unfold check_step, check_row_labels. intros Hc.
  destruct (step_action s) as [| | |[]|? [?|] []| | | |b]; [..|by right; exists b];
    left; repeat case_match; simplify_eq; done.
Qed.

Lemma check_steps_first (i : nat) (m : ModelState) (steps : list TraceStep) (e : TransitionError) :
  check_steps i m steps = Err e →
  ∃ k s, steps !! k = Some s ∧ (∀ j s', j < k → steps !! j = Some s' → accepted m s') ∧
    ¬ accepted m s ∧ (error_index e = Some (i + k) ∨ ∃ b, step_action s = ImplBug b).
Proof.
  revert i. induction steps as [|s steps IH]; intros i; cbn [check_steps]; [done|].
  case_decide as Hv.
  { intros [= <-]. exists 0, s. split_and!; [done|by intros ? ? ?%Nat.nlt_0_r|by intros [? _]|].
    left. by rewrite Nat.add_0_r. }
  destruct (check_step i m s) as [[]|e'] eqn:Hs.
  - intros (k & x & Hk & Hbefore & Hx & Hi)%IH. apply check_step_ok in Hs as [? ?].
    exists (S k), x. split_and!; [done| |done|].
    + intros [|j] y Hj Hy; [simpl in Hy; simplify_eq; by split|]. apply (Hbefore j); [lia|done].
    + by rewrite <- Nat.add_succ_comm.
  - intros [= <-]. exists 0, s. split_and!; [done|by intros ? ? ?%Nat.nlt_0_r| |].
    + intros (_ & Hb & Hc). assert (Err e' = Ok tt) as [=]. rewrite <- Hs. by apply check_step_ok.
    + rewrite Nat.add_0_r. by eapply check_step_index.
Qed.

(** The checker fails closed at the first violation. When it rejects a scenario,
    either the trace is empty, or all of it conforms and a required action is missing, or
    some step violates the specification, all the steps before it are accepted, and the
    error names that step's position (or the step is the marker of a seam that emitted
    nothing). *)
Theorem check_trace_reports_first (sc : Scenario) (e : TransitionError) (Hc : check_trace sc = Err e) :
  trace sc = [] ∨
  (trace_conforms (trace sc) ∧
     ∃ k, k ∈ required_critical_actions sc ∧ ∀ s, s ∈ trace sc → action_kind (step_action s) ≠ k) ∨
  ∃ first k s, head (trace sc) = Some first ∧ trace sc !! k = Some s ∧
    (∀ j s', j < k → trace sc !! j = Some s' → accepted (bootstrap (state_after first)) s') ∧
    ¬ accepted (bootstrap (state_after first)) s ∧
    (error_index e = Some k ∨ ∃ b, step_action s = ImplBug b).
Proof.
  unfold check_trace in Hc. destruct (trace sc) as [|first rest] eqn:Ht; [by left|right].
  case_decide as Hv.
  { injection Hc as <-. right. exists first, 0, first.
    split_and!; [done..|by intros ? ? ?%Nat.nlt_0_r|by intros [? _]|by left]. }
  rewrite <- Ht in *. cbv zeta in Hc. destruct (check_steps 0 _ (trace sc)) as [[]|e'] eqn:Hs.
  - left. case_decide as Hm; [|done]. pose proof (proj1 (check_steps_ok _ _ _) Hs) as Hall. split.
    + exists first. split; [by rewrite Ht|]. intros s Hin.
      destruct (Hall s Hin) as (? & ->%bootstrap_inj & ?). done.
    + apply set_choose_L in Hm as [k [Hk Hn]%elem_of_difference]. exists k. split; [done|].
      intros s Hin Heq. apply Hn. unfold seen. rewrite elem_of_list_to_set, list_elem_of_fmap. eauto.
  - injection Hc as <-. right. apply check_steps_first in Hs as (k & s & ? & ? & ? & ?).
    exists first, k, s. split_and!; try done. by rewrite Ht.
Qed.

(** ** Concrete traces *)

Definition demo_state : AbstractState :=
  {| resolved_community := 1%N; bound_host := "h"; actor := "a" |}.

Definition demo_leak : Scenario :=
  unstructured [TraceStep_new (ReadMessageRows None [1%N; 1%N]) demo_state;
                TraceStep_new (ReadByIdRows None [1%N; 2%N]) demo_state].

Example demo_clean :
  check_trace (require (unstructured [TraceStep_new (ReadMessageRows None [1%N]) demo_state])
                 "read_message_rows") = Ok tt.
Proof. vm_compute. reflexivity. Qed.

Lemma check_trace_reports_first_witness :
  ∃ first k s, head (trace demo_leak) = Some first ∧ trace demo_leak !! k = Some s ∧
    ¬ accepted (bootstrap (state_after first)) s.
Proof.
  destruct (check_trace_reports_first demo_leak (NonInterference 1 "foreign row label"))
    as [Hn|[(Hc & k & Hk & _)|(first & k & s & Hf & Hs & _ & Hno & _)]].
  - vm_compute. reflexivity.
  - discriminate Hn.
  - by apply not_elem_of_empty in Hk.
  - by exists first, k, s.
Defined.
